(* ===== verification/_CoqProject ===== *)
-Q . S2P
Prelude.v
Str.v
Decimal.v
Mvcc.v
MvccSpec.v
MvccProps.v
Tail.v
HybridScan.v
Raft.v
RaftLog.v
RaftProps.v
RaftLoop.v
RaftApply.v
RaftCluster.v
Wal.v
WalProps.v
Partition.v
TailGc.v
Snapshot.v
Merge.v
BaseStore.v
Index.v
SqlKind.v
AcidTx.v
AcidTxProps.v
LockTable.v
HtapSync.v
Constraints.v
ConstraintProps.v
DdlCatalog.v
Bytes.v
KvStore.v
RocksEngine.v
RocksSpec.v
RocksProps.v
RocksRows.v
PgWire.v
PgWireProps.v
Tokenizer.v
Ast.v
SqlParse.v
SqlParseProps.v
Utf8.v
ResourceManager.v
Triggers.v
Flush.v
FlushProps.v
FlushReplay.v
Auth.v
UserStore.v
AccessControl.v
UserMgmt.v
DatabaseCatalog.v
Select.v
SelectProps.v
OltpSelect.v
Execute.v
ExecuteProps.v
Json.v
AuditChain.v
Cache.v
CacheCommand.v
CacheProps.v
DataPlane.v
DataPlaneProps.v
EventBus.v
EventBusProps.v
Ingest.v
IngestProps.v
AstFlags.v
Planner.v
Router.v
PlannerProps.v
Columnar.v
StoredProc.v
HtapTuning.v
Driver.v
DriverNative.v
NativeServer.v
