(* ===== verification/Prelude.v ===== *)
(** * VoltNueronGrid DB: a verification library

    VoltNueronGrid DB is a replicated hybrid (OLTP and OLAP) SQL database written
    in Rust.  This library models its storage, transaction, replication and access
    control core as executable definitions and proves what makes it correct.
    Source paths below are relative to [src/]; [store/] stands for
    [crates/voltnuerongrid-store/src/], [server/] for
    [services/voltnuerongridd/src/].

    ** The program

    A server accepts SQL over HTTP, over the PostgreSQL wire protocol
    ([server/helpers/pg_wire.rs], [pg_listener.rs]) and over a native protocol
    ([helpers/native_protocol.rs]) spoken by the driver
    ([drivers/voltnuerongrid-driver-rust]).  A request is authorised
    ([server/auth.rs], [crates/voltnuerongrid-auth]) as an operator, a logged-in
    user ([server/user_store.rs], [handlers/user_mgmt.rs]) or a tenant.  Statements
    are tokenised, parsed ([crates/voltnuerongrid-sql]) and reduced to keys and rows
    ([server/helpers/sql_parse.rs]).  The transaction registry ([server/main.rs],
    [handlers/sql.rs]) tracks transactions, validates a COMMIT against committed
    peers and the row store, and flushes the accepted statements to the MVCC row
    store ([store/mvcc.rs]) under the table's constraints ([store/constraints.rs]),
    to the durability engine ([store/lib.rs], [wal_adapter.rs],
    [rocksdb_engine.rs]) and to the Raft node ([server/raft.rs], driven by
    [helpers/raft_loop.rs] and [handlers/raft.rs]), which replicates them to the
    other servers.  At boot ([server/helpers/boot.rs]) rows, databases, users and
    objects are rebuilt from the engine's statement log.  Pessimistic locks
    ([server/helpers/execution.rs]) and admission control
    ([store/resource_manager.rs]) guard the execution.  For analytics, rows are
    split in segments ([store/partition.rs]) of immutable base versions
    ([base_store.rs], [segment.rs]) and mutable tail versions; scans merge the two
    ([hybrid_scan.rs]) at a snapshot ([snapshot.rs]), background jobs fold tails
    into bases ([merge.rs]), obsolete versions are reclaimed ([tail_gc.rs]),
    indexes speed up lookups ([index.rs]) and changes flow to analytic replicas
    ([htap_sync.rs]).  A planner ([crates/voltnuerongrid-exec]) chooses the path of a
    query; stored procedures ([helpers/stored_proc.rs]) expand to statements.  Beside
    the tables stand a cache with the commands of a key-value server, an ingest
    pipeline with an outbox and an event bus, the shipping of mutations to peers
    ([helpers/dataplane.rs]) and a hash-chained audit log
    ([crates/voltnuerongrid-audit]).

    ** Files

    Every component is a [Module] with the source's type and function names, its
    state a [Record] and each operation a function on it.  The theorems of component
    [X] are in [XProps] where it exists and at the end of [X] otherwise.

    - [Prelude]: 64-bit arithmetic, [result], error and panic notations, list
      lemmas.  [Str], [Decimal], [Bytes], [Utf8]: the parts of Rust's [str],
      integer printing and parsing, byte encodings and UTF-8 the code uses.
    - [Mvcc]: [PagedRowStore] and all its operations.  [MvccSpec]: the abstract
      store (a map from keys to version chains), the invariant [wf], the
      abstraction and the lemmas of each operation.
    - [Tail]: the [TailStore] trait as a class with the laws its clients rely on,
      and its implementation by the row store.  [HybridScan]: base and tail
      scans, with theorems proved against the [TailStore] interface.
    - [Raft]: the Raft node.  [RaftLog]: lemmas on contiguous logs.  [RaftProps]:
      the node as a state machine over events.  [RaftLoop]: ticks, elections,
      per-peer plans, replies, persistence, the apply loop and the HTTP handlers'
      state changes, with the theorems of replication.  [RaftApply]: the replicated
      state machine.  [RaftCluster]: a whole cluster in which messages may be lost,
      delayed, duplicated and reordered and nodes restart from a file that holds
      their term and vote.
    - [Wal]: WAL records, the file as a byte string, the in-memory engine and the
      [DurabilityEngine] class.  [KvStore]: the rocksdb library as an interface
      with laws (ordered iteration, atomic batches, a crash keeps a prefix of the
      writes that reaches the last synced one) and its instance.  [RocksEngine]:
      the engine on it.  [RocksSpec], [RocksProps], [RocksRows]: its abstract
      state, crash recovery and row reads.
    - [Partition], [TailGc], [Snapshot], [Merge], [BaseStore], [Index],
      [HtapSync], [DdlCatalog], [Triggers]: one component each, with its theorems.
    - [SqlKind]: statement classification and savepoints.  [Tokenizer], [Ast],
      [SqlParse]: from SQL text to tokens, statements, keys and rows.
    - [AcidTx]: the transaction registry and the COMMIT checks.  [LockTable]:
      pessimistic locks and deadlock detection.  [Constraints]: keys, checks and
      references.  [Flush]: the COMMIT flush, ROLLBACK's undo log and the replay
      of rows at boot.  [FlushReplay]: a flush against restart and followers.
    - [Select]: the SELECT executor over the row store.  [OltpSelect]: the choice
      between it, DataFusion and the legacy scan.  [Execute]: the INSERT, UPDATE
      and DELETE path of the statement handler.
    - [ResourceManager]: admission control.  [PgWire]: message codecs and the
      connection handler.
    - [Auth]: privilege matrix, security configuration, key resolution.
      [UserStore], [UserMgmt]: accounts, signed session tokens and the handlers on
      them.  [AccessControl]: the guards of every request.  [DatabaseCatalog]:
      databases and the requests that create and drop them.
    - [AuditChain]: the hash chain, the records of the handlers and their endpoints.
      [Json]: JSON values with the printer and parser as a class.
    - [Cache], [CacheCommand], [CacheProps]: the cache, its commands and its journal.
    - [DataPlane], [DataPlaneProps]: shards and the shipping of mutations to peers.
      [EventBus], [EventBusProps]: streams, brokers and cursors.  [Ingest],
      [IngestProps]: connectors, chunked loading, the handlers and the outbox.
    - [AstFlags], [Planner], [Router], [PlannerProps]: the flags of a SELECT, its
      logical plan and cost, and the route of a batch.  [Columnar]: column batches,
      filters and aggregates.  [HtapTuning]: projection cache, placement of
      partitions and freshness levels.  [StoredProc]: procedures, their DDL and CALL.
    - [Driver]: configuration, choice of a transport and pool policy of the driver.
      [DriverNative]: its requests, frames, sockets, pools and sessions.
      [NativeServer]: the server's connection loop and commands, and the driver run
      against it.

    ** What the theorems show

    - Row store: it refines the abstract store; readers never see rows under
      another transaction's intent, snapshot reads repeat, scans agree with point
      reads, conflicts are detected exactly, eviction is FIFO and bounded.
    - Raft: log indices stay contiguous through every event, one vote per term
      across restarts, at most one leader per term in clusters of odd size,
      AppendEntries makes the follower's log match, [commit_index] moves exactly to
      the quorum index, and replicas that apply the same log in any batching
      converge.  Two theorems exhibit executions in which safety fails.
    - Durability: an engine reopened after a crash holds a prefix of the writes
      that includes every synced one; row scans and point reads return the newest
      version below the snapshot; WAL files round trip.
    - Transactions: COMMIT validation is exact in any hash iteration order,
      conflicting serializable (or optimistic) writers never both commit; a flush
      changes the visible database exactly as a specification of its statements
      says, also when it stops at a violated constraint; ROLLBACK restores it; a
      restart and the followers rebuild it from the statement log; a granted lock
      is exclusive and deadlocks are detected exactly.
    - Statements: a SELECT returns exactly the visible rows of its table that pass
      the WHERE clause, each once, ordered and windowed; WHERE follows three-valued
      logic and LIKE its pattern language; aggregates summarise the same rows.  A
      request of INSERT, UPDATE and DELETE statements changes the database as their
      specification says, up to the first rejected row; ROLLBACK undoes it; the
      row counts of the tables stay exact.
    - SQL text: the tokenizer consumes every input; the statement logged for a row
      yields that row again; INSERT, UPDATE and DELETE address a row by one key.
    - Segments: scans are deterministic and unchanged by folding tails into the
      base; pruning never loses a routed key; replicas apply a prefix of the
      origin's changes and catch up.
    - Protocol: a session does not depend on how the socket fragments it, and no
      statement runs before the password was checked.
    - Access: a request passes exactly under stated conditions; scope patterns
      mean what their segments say; tenants share no table; accounts and sessions
      stay consistent, survive restarts, and a login opens a session of its own
      account; dropping a database touches no other.
    - Logs and streams: a changed byte of the audit chain is reported; the cache reads
      the last write; an outbox delivers each event once and in order; peers hold a
      prefix of the shipped mutations and catch up.
    - Planning: the keyword search of the planner is exact outside string literals;
      plans use existing indexes only; columnar filters keep exactly the matching
      rows; CALL substitutes its arguments.
    - Native protocol: the handshake of driver and server succeeds exactly for the
      configured key; replies come one per frame, in order, under the request's
      identifier; a pool hands a connection to one holder and respects its bounds.

    Theorems named after a defect (for example [violation_leaves_half_a_transaction])
    evaluate the model at an input where the code does not do what it means to.

    ** Conventions and bounds

    [u64] values are [N] with the wrap-around written out; theorems that need
    room below 2^64 say so.  A Rust panic is [None] of an option, an error an
    [Err] of [result].  Clock readings, I/O failures, hash iteration orders and
    hash functions are arguments.  Recursions that are not structural take fuel
    that each step consumes: the length of the text ([tokenize], [lines], the
    string searches) or of the buffer plus one (the connection handlers), so it
    never runs out.  The planner and [HtapTuning] compute with the standard library's
    binary64 floats.

    Interfaces stand for code outside the repository, each with an instance that
    satisfies its laws: rocksdb ([KvStore]), [serde_json] ([JsonText], [PayloadText],
    [EventText], and [NativeFrameCodec] with [WireCompat] for frames), the [sqlparser]
    library ([SqlParserAdapter], [FlagAdapter]), DataFusion, the password hash, MAC and
    base64 of the session tokens, [f64] parsing, printing and folding, the Unicode
    tables, the text of header values, and the command line of a key provider.
    Interfaces inside the program are classes with laws too: [TailStore],
    [DurabilityEngine], the event bus broker and its cursor store (in memory and
    durable), and the external publisher of the outbox.

    ** Not modelled

    - HTTP transport and routing, TLS, sockets as such, metrics and tracing, and lock
      poisoning: libraries and reporting.
    - The adapter to [sqlparser] and the DataFusion execution walk the data of
      libraries that are not part of the repository.
    - Materialized views, view rewriting and the registration of DDL in
      [sql_execute]; the parsers of constraint clauses.  Constraints and indexes are
      not rebuilt at boot by the code and have no replay here.
    - Parquet, Excel and network connectors of ingest; the runtimes of user-defined
      functions (WASM, JavaScript, Python); plugins, AI and MCP tools.
    - The HTAP optimizer, benchmark, observability and adaptive controller, the
      failover plans and the configuration reader, on whose values no modelled
      component depends.
    - The operations endpoints of [handlers/wal.rs], [rows.rs], [sre.rs],
      [autonomous.rs], [admin.rs] and [store.rs], which report on the state modelled
      here or call one of its operations; the other drivers, tools and user
      interfaces. *)

From stdpp Require Export base tactics list gmap strings numbers sets sorting.
From Stdlib Require Export NArith Lia.

(** ** Machine integers

    [u64] values are natural numbers of type [N]; every operation that the
    source performs at width 64 is written out here.  Plain [+] and [+=] on
    [u64] wrap in a release build (the workspace sets no [overflow-checks]),
    and so do [AtomicU64::fetch_add] and [fetch_sub] in every build. *)

Definition u64_modulus : N := 18446744073709551616.

Definition u64_max : N := 18446744073709551615.

Definition u64_add (a b : N) : N := ((a + b) mod u64_modulus)%N.

Definition u64_wrapping_sub (a b : N) : N := ((a + u64_modulus - b) mod u64_modulus)%N.

Definition u64_wrapping_mul (a b : N) : N := ((a * b) mod u64_modulus)%N.

Definition saturating_sub (a b : N) : N := (a - b)%N.

Definition saturating_add (a b : N) : N := N.min (a + b) u64_max.

(** ** Rust's [Result] *)

Inductive result (A E : Type) : Type :=
| Ok (a : A)
| Err (e : E).
Arguments Ok {A E} a.
Arguments Err {A E} e.

Definition is_ok {A E} (r : result A E) : bool :=
  match r with Ok _ => true | Err _ => false end.

Declare Scope vng_scope.
Delimit Scope vng_scope with vng.

(** [let? x := e in k] is [let x = e?; k]. *)
Notation "'let?' x ':=' e 'in' k" :=
  (match e with Ok x => k | Err err => Err err end)
  (at level 10, x pattern, e at level 200, k at level 200) : vng_scope.

(** [let! x := e in k]: [e] may panic ([None]); otherwise [k] continues. *)
Notation "'let!' x ':=' e 'in' k" :=
  (match e with Some x => k | None => None end)
  (at level 10, x pattern, e at level 200, k at level 200) : vng_scope.

(** ** Shared lemmas *)

Lemma u64_add_small a b : (a + b < u64_modulus)%N → u64_add a b = (a + b)%N.
Proof. intros. unfold u64_add. by apply N.mod_small. Qed.

(** Side conditions on machine integers. *)
Ltac u64 := unfold u64_max, u64_modulus, saturating_sub in *; lia.

Section ListLemmas.
Context {A : Type}.
Implicit Types (l : list A).

Lemma find_app (f : A -> bool) l1 l2 :
  List.find f (l1 ++ l2) =
  match List.find f l1 with Some x => Some x | None => List.find f l2 end.
Proof. induction l1 as [|x l1 IH]; simpl; [done|]. by destruct (f x). Qed.

(** [filter] only depends on the predicate at the list's elements. *)
Lemma list_filter_ext_in (P Q : A -> Prop) `{!∀ x, Decision (P x)} `{!∀ x, Decision (Q x)} l :
  (∀ x, x ∈ l → P x ↔ Q x) → filter P l = filter Q l.
Proof.
  induction l as [|x l IH]; intros Hiff; [done|].
  rewrite !filter_cons, IH by set_solver.
  destruct (decide (P x)), (decide (Q x)); set_solver.
Qed.

Lemma list_filter_none (P : A -> Prop) `{!∀ x, Decision (P x)} l :
  (∀ x, x ∈ l → ¬ P x) → filter P l = [].
Proof.
  induction l as [|x l IH]; intros Hno; [done|].
  rewrite filter_cons_False by (apply Hno; by left). apply IH. intros y Hy. apply Hno. by right.
Qed.

Lemma list_filter_all (P : A -> Prop) `{!∀ x, Decision (P x)} l : Forall P l → filter P l = l.
Proof.
  induction 1 as [|x l Hx Hall IH]; [done|]. by rewrite filter_cons_True, IH by done.
Qed.

(** Rust's stable [sort_by_key] with a [u64] key: an element goes before the
    first one whose key is not smaller. *)
Fixpoint insert_by_key (key : A -> N) (x : A) (l : list A) : list A :=
  match l with
  | [] => [x]
  | y :: l' => if (key y <? key x)%N then y :: insert_by_key key x l' else x :: l
  end.

Definition sort_by_key (key : A -> N) (l : list A) : list A := foldr (insert_by_key key) [] l.

Lemma insert_by_key_perm key x l : insert_by_key key x l ≡ₚ x :: l.
Proof.
  induction l as [|y l IH]; simpl; [done|]. destruct (_ <? _)%N; [|done].
  rewrite IH. apply perm_swap.
Qed.

Lemma sort_by_key_perm key l : sort_by_key key l ≡ₚ l.
Proof. induction l as [|x l IH]; simpl; [done|]. by rewrite insert_by_key_perm, IH. Qed.

Lemma insert_by_key_sorted key x l :
  StronglySorted (fun a b => (key a <= key b)%N) l →
  StronglySorted (fun a b => (key a <= key b)%N) (insert_by_key key x l).
Proof.
  induction 1 as [|y l Hs IH Hall]; simpl; [repeat constructor|].
  destruct (N.ltb_spec (key y) (key x)).
  - constructor; [done|]. rewrite Forall_forall in Hall |- *. intros z Hz.
    rewrite insert_by_key_perm in Hz. apply elem_of_cons in Hz as [->|Hz]; [lia|by apply Hall].
  - constructor; [by constructor|]. rewrite Forall_forall in Hall |- *. intros z Hz.
    apply elem_of_cons in Hz as [->|Hz]; [done|]. specialize (Hall z Hz). simpl in *. lia.
Qed.

Lemma sort_by_key_sorted key l :
  StronglySorted (fun a b => (key a <= key b)%N) (sort_by_key key l).
Proof. induction l; simpl; [constructor|by apply insert_by_key_sorted]. Qed.

(** Sorting a sorted list changes nothing. *)
Lemma sort_by_key_id key l :
  StronglySorted (fun a b => (key a <= key b)%N) l → sort_by_key key l = l.
Proof.
  induction 1 as [|x l Hs IH Hall]; simpl; [done|]. rewrite IH.
  destruct l as [|y l]; simpl; [done|]. destruct (N.ltb_spec (key y) (key x)); [|done].
  inversion Hall; subst. simpl in *. lia.
Qed.

Lemma sorted_filter (R : A -> A -> Prop) (P : A -> Prop) `{!∀ x, Decision (P x)} l :
  StronglySorted R l → StronglySorted R (filter P l).
Proof.
  induction 1 as [|x l Hs IH Hall]; [constructor|]. rewrite filter_cons.
  destruct (decide (P x)); [|done]. constructor; [done|].
  apply List.Forall_forall. intros y Hy%list_elem_of_In.
  apply list_elem_of_filter in Hy as [_ Hy]. rewrite List.Forall_forall in Hall.
  apply Hall. by apply list_elem_of_In.
Qed.

End ListLemmas.

(** ** Hash maps

    The order in which a Rust [HashMap] is iterated is unspecified; code that
    iterates one takes it from this class. *)
Class MapOrder (A : Type) := {
  iter_map : gmap string A -> list (string * A);
  iter_map_perm : ∀ m, iter_map m ≡ₚ map_to_list m;
}.

Lemma elem_of_iter_map {A} `{!MapOrder A} k (x : A) (m : gmap string A) :
  (k, x) ∈ iter_map m ↔ m !! k = Some x.
Proof. rewrite iter_map_perm. apply elem_of_map_to_list. Qed.

Lemma iter_map_NoDup {A} `{!MapOrder A} (m : gmap string A) : NoDup (map fst (iter_map m)).
Proof. rewrite iter_map_perm. apply NoDup_fst_map_to_list. Qed.

(** The same for maps with other keys. *)
Class HashOrder (K A : Type) `{Countable K} := {
  iter_hash : gmap K A -> list (K * A);
  iter_hash_perm : ∀ m, iter_hash m ≡ₚ map_to_list m;
}.

(** [map.values()] *)
Definition iter_values {A} `{!MapOrder A} (m : gmap string A) : list A := map snd (iter_map m).

Lemma elem_of_iter_values {A} `{!MapOrder A} (x : A) (m : gmap string A) :
  x ∈ iter_values m ↔ ∃ k, m !! k = Some x.
Proof.
  unfold iter_values. rewrite list_elem_of_fmap. split.
  - intros ([k y] & -> & Hin%elem_of_iter_map). by exists k.
  - intros [k Hk]. exists (k, x). split; [done|]. by apply elem_of_iter_map.
Qed.

(** The canonical order, to evaluate examples. *)
Definition canonical_order {A} : MapOrder A.
Proof. by refine {| iter_map := map_to_list |}. Defined.
