(* ===== verification/Str.v ===== *)
(** * The parts of Rust's [str] the modelled code uses

    A [string] is the byte sequence of a UTF-8 [str]; order and equality are
    bytewise, as in Rust. *)

From S2P Require Import Prelude.
From Stdlib Require Import Ascii.
Open Scope string_scope.
Open Scope list_scope.

#[local] Arguments String.append !_ _ / : simpl nomatch.

Module Str.

(** ** Prefixes, search, split *)

(** [s.strip_prefix(p)] *)
Fixpoint strip_prefix (p s : string) : option string :=
  match p, s with
  | EmptyString, _ => Some s
  | String a p', String b s' => if Ascii.eqb a b then strip_prefix p' s' else None
  | String _ _, EmptyString => None
  end.

Definition starts_with (p s : string) : bool :=
  match strip_prefix p s with Some _ => true | None => false end.

(** [s.split_once(pat)]: the text before and after the first occurrence. *)
Fixpoint split_once (pat s : string) : option (string * string) :=
  match strip_prefix pat s with
  | Some rest => Some ("", rest)
  | None =>
      match s with
      | EmptyString => None
      | String c s' =>
          match split_once pat s' with
          | Some (a, b) => Some (String c a, b)
          | None => None
          end
      end
  end.

Definition contains (pat s : string) : bool :=
  match split_once pat s with Some _ => true | None => false end.

(** [s.splitn(n, pat)] for a non-empty pattern: at most [n] pieces. *)
Fixpoint splitn (n : nat) (pat s : string) : list string :=
  match n with
  | O => []
  | S O => [s]
  | S n' =>
      match split_once pat s with
      | Some (a, b) => a :: splitn n' pat b
      | None => [s]
      end
  end.

(** [s.split(pat)]: there are at most as many separators as bytes. *)
Definition split (pat s : string) : list string := splitn (S (String.length s)) pat s.

(** [parts.join(sep)] *)
Fixpoint join (sep : string) (parts : list string) : string :=
  match parts with
  | [] => ""
  | [p] => p
  | p :: rest => p +:+ sep +:+ join sep rest
  end.

(** ** Case and white space *)

Definition ascii_upper (c : ascii) : ascii :=
  let n := N_of_ascii c in
  if ((97 <=? n) && (n <=? 122))%N then ascii_of_N (n - 32) else c.

Fixpoint to_ascii_uppercase (s : string) : string :=
  match s with
  | EmptyString => EmptyString
  | String c s' => String (ascii_upper c) (to_ascii_uppercase s')
  end.

Fixpoint of_bytes (l : list N) : string :=
  match l with
  | [] => EmptyString
  | n :: l' => String (ascii_of_N n) (of_bytes l')
  end.

(** The UTF-8 encodings of the characters of [char::is_whitespace]. *)
Definition whitespace : list string :=
  map of_bytes
    ([[9]; [10]; [11]; [12]; [13]; [32]; [194; 133]; [194; 160]; [225; 154; 128];
      [226; 128; 128]; [226; 128; 129]; [226; 128; 130]; [226; 128; 131]; [226; 128; 132];
      [226; 128; 133]; [226; 128; 134]; [226; 128; 135]; [226; 128; 136]; [226; 128; 137];
      [226; 128; 138]; [226; 128; 168]; [226; 128; 169]; [226; 128; 175]; [226; 129; 159];
      [227; 128; 128]]%N).

Fixpoint strip_any (ps : list string) (s : string) : option string :=
  match ps with
  | [] => None
  | p :: ps' => match strip_prefix p s with Some r => Some r | None => strip_any ps' s end
  end.

Fixpoint strip_all (fuel : nat) (ps : list string) (s : string) : string :=
  match fuel with
  | O => s
  | S fuel' => match strip_any ps s with Some r => strip_all fuel' ps r | None => s end
  end.

Fixpoint rev_str (s acc : string) : string :=
  match s with
  | EmptyString => acc
  | String c s' => rev_str s' (String c acc)
  end.

Definition reverse_str (s : string) : string := rev_str s "".

Definition trim_start (s : string) : string := strip_all (String.length s) whitespace s.

Definition trim_end (s : string) : string :=
  reverse_str (strip_all (String.length s) (map reverse_str whitespace) (reverse_str s)).

Definition trim (s : string) : string := trim_end (trim_start s).

(** [trim_start_matches], [trim_end_matches] and [trim_matches] of a set of
    characters. *)
Definition trim_start_matches (ps : list string) (s : string) : string :=
  strip_all (String.length s) ps s.

Definition trim_end_matches (ps : list string) (s : string) : string :=
  reverse_str (strip_all (String.length s) (map reverse_str ps) (reverse_str s)).

Definition trim_matches (ps : list string) (s : string) : string :=
  trim_end_matches ps (trim_start_matches ps s).

(** [s.find(p)], [s.rfind(c)] as byte positions, [&s[from..to]] and
    [s.ends_with(p)]. *)
Definition find_str (p s : string) : option nat :=
  match split_once p s with Some (a, _) => Some (String.length a) | None => None end.

Definition rfind_char (c : ascii) (s : string) : option nat :=
  match find_str (String c "") (reverse_str s) with
  | Some i => Some (String.length s - i - 1)%nat
  | None => None
  end.

Definition sub (from to : nat) (s : string) : string := String.substring from (to - from) s.

Definition ends_with (p s : string) : bool := starts_with (reverse_str p) (reverse_str s).

(** A double quote. *)
Definition DQUOTE : string := of_bytes [34%N].

(** The control characters the line formats use. *)
Definition LF : string := of_bytes [10%N].
Definition CR : string := of_bytes [13%N].
Definition TAB : string := of_bytes [9%N].

Example trim_ex : trim (LF +:+ " a b " +:+ TAB) = "a b".
Proof. reflexivity. Qed.

Example split_ex : split "," "a,,b" = ["a"; ""; "b"].
Proof. reflexivity. Qed.

(** ** Lemmas *)

Lemma app_assoc_str (a b c : string) : (a +:+ b) +:+ c = a +:+ (b +:+ c).
Proof. induction a as [|x a IH]; simpl; [done|]. by rewrite IH. Qed.

Lemma app_empty_r (a : string) : a +:+ "" = a.
Proof. induction a as [|x a IH]; simpl; [done|]. by rewrite IH. Qed.

Lemma length_app_str (a b : string) :
  String.length (a +:+ b) = (String.length a + String.length b)%nat.
Proof. induction a; simpl; congruence. Qed.

Lemma strip_prefix_app p s : strip_prefix p (p +:+ s) = Some s.
Proof. induction p as [|c p IH]; simpl; [by destruct s|]. by rewrite Ascii.eqb_refl. Qed.

Lemma strip_prefix_Some p s r : strip_prefix p s = Some r ↔ s = p +:+ r.
Proof.
  split; [|intros ->; apply strip_prefix_app].
  revert s. induction p as [|c p IH]; intros [|d s]; simpl; intros H; simplify_eq; try done.
  destruct (Ascii.eqb_spec c d) as [->|]; [|done]. by rewrite (IH s).
Qed.

Lemma starts_with_spec p s : starts_with p s = true ↔ ∃ t, s = p +:+ t.
Proof.
  unfold starts_with. destruct (strip_prefix p s) eqn:E.
  - apply strip_prefix_Some in E. split; eauto.
  - split; [done|]. intros [t ->]. by rewrite strip_prefix_app in E.
Qed.

Lemma starts_with_app p s : starts_with p (p +:+ s) = true.
Proof. apply starts_with_spec. by exists s. Qed.

Lemma split_once_Some pat s a b : split_once pat s = Some (a, b) → s = a +:+ pat +:+ b.
Proof.
  revert a. induction s as [|c s IH]; intros a; simpl.
  - destruct (strip_prefix pat "") as [r|] eqn:Hp; [|done]. intros [= <- <-].
    by apply strip_prefix_Some in Hp.
  - destruct (strip_prefix pat (String c s)) as [r|] eqn:Hp.
    + intros [= <- <-]. by apply strip_prefix_Some in Hp.
    + destruct (split_once pat s) as [[a' b']|]; [|done]. intros [= <- <-].
      simpl. by rewrite <- IH.
Qed.

(** All but the last byte. *)
Fixpoint butlast (s : string) : string :=
  match s with
  | EmptyString => EmptyString
  | String c EmptyString => EmptyString
  | String c s' => String c (butlast s')
  end.

(** Only the first [length p] bytes matter to a prefix test. *)
Lemma strip_prefix_shorten p c x q r :
  (String.length p <= S (String.length x + String.length q))%nat →
  strip_prefix p (String c (x +:+ q +:+ r)) ≠ None →
  strip_prefix p (String c (x +:+ q)) ≠ None.
Proof.
  rewrite <- app_assoc_str.
  change (String c (x +:+ q)) with (String c x +:+ q).
  intros Hlen. assert (String.length p <= String.length (String c x +:+ q))%nat as Hl.
  { rewrite length_app_str. simpl. lia. }
  change (String c ((x +:+ q) +:+ r)) with ((String c x +:+ q) +:+ r).
  revert Hl. generalize (String c x +:+ q). clear Hlen.
  induction p as [|d p IH]; intros [|e s] Hl; simpl in *; try done; [lia|].
  destruct (Ascii.eqb d e); [|done]. apply IH. lia.
Qed.

Lemma butlast_snoc p : p ≠ "" → ∃ c, p = butlast p +:+ String c "".
Proof.
  induction p as [|c p IH]; [done|]. intros _. destruct p as [|d p]; [by exists c|].
  destruct IH as [e He]; [done|]. exists e. rewrite He at 1.
  change (butlast (String c (String d p))) with (String c (butlast (String d p))). done.
Qed.

(** The first occurrence in [x ++ pat ++ r] is the one after [x], unless the
    pattern already shows up in [x] and the start of that [pat]. *)
Lemma split_once_app pat x r :
  pat ≠ "" → split_once pat (x +:+ butlast pat) = None →
  split_once pat (x +:+ pat +:+ r) = Some (x, r).
Proof.
  intros Hne. destruct (butlast_snoc pat Hne) as [z Hz].
  induction x as [|c x IH]; intros Hno.
  - pose proof (strip_prefix_app pat r) as Hp.
    change ("" +:+ pat +:+ r) with (pat +:+ r).
    destruct (pat +:+ r) as [|c s]; simpl; by rewrite Hp.
  - simpl in Hno. destruct (strip_prefix pat (String c (x +:+ butlast pat))) eqn:Hp; [done|].
    destruct (split_once pat (x +:+ butlast pat)) as [[]|] eqn:Hno'; [done|].
    specialize (IH eq_refl). simpl.
    destruct (strip_prefix pat (String c (x +:+ pat +:+ r))) as [q|] eqn:Hq.
    + exfalso. apply (strip_prefix_shorten pat c x (butlast pat) (String z r)); [| |done].
      * rewrite Hz at 1. rewrite length_app_str. simpl. lia.
      * assert (butlast pat +:+ String z r = pat +:+ r) as ->; [|by rewrite Hq].
        rewrite Hz at 2. by rewrite app_assoc_str.
    + by rewrite IH.
Qed.

(** Splitting undoes joining. *)
Lemma splitn_join pat ps n :
  pat ≠ "" → ps ≠ [] → (length ps <= n)%nat →
  Forall (fun p => split_once pat (p +:+ butlast pat) = None) ps →
  (∀ p, p ∈ ps → split_once pat p = None) →
  splitn n pat (join pat ps) = ps.
Proof.
  intros Hne. revert n. induction ps as [|p ps IH]; intros n Hps Hlen Hall Hno; [done|].
  apply Forall_cons in Hall as [Hp Hall]. destruct ps as [|q ps].
  - simpl. destruct n as [|[|n]]; [simpl in Hlen; lia|done|].
    change (splitn (S (S n)) pat p) with
      (match split_once pat p with Some (a, b) => a :: splitn (S n) pat b | None => [p] end).
    by rewrite Hno by set_solver.
  - destruct n as [|[|n]]; [simpl in Hlen; lia|simpl in Hlen; lia|].
    change (join pat (p :: q :: ps)) with (p +:+ pat +:+ join pat (q :: ps)).
    change (splitn (S (S n)) pat ?s) with
      (match split_once pat s with Some (a, b) => a :: splitn (S n) pat b | None => [s] end).
    rewrite split_once_app by done. f_equal. apply IH; [done|simpl in *; lia|done|set_solver].
Qed.

Lemma split_once_app_None pat x y : split_once pat (x +:+ y) = None → split_once pat x = None.
Proof.
  induction x as [|c x IH]; simpl.
  - intros Hy. destruct pat as [|d pat]; [|done]. by destruct y.
  - destruct (strip_prefix pat (String c (x +:+ y))) eqn:Hp; [done|].
    destruct (split_once pat (x +:+ y)) as [[]|] eqn:E; [done|]. intros _.
    destruct (strip_prefix pat (String c x)) as [r|] eqn:Hr.
    + apply strip_prefix_Some in Hr. exfalso.
      assert (strip_prefix pat (String c (x +:+ y)) = Some (r +:+ y)); [|congruence].
      apply strip_prefix_Some. change (String c (x +:+ y)) with (String c x +:+ y).
      by rewrite Hr, app_assoc_str.
    + by rewrite IH.
Qed.

Lemma length_join pat ps :
  pat ≠ "" → (length ps <= S (String.length (join pat ps)))%nat.
Proof.
  intros Hne. induction ps as [|p ps IH]; [simpl; lia|]. destruct ps as [|q ps]; [simpl; lia|].
  change (join pat (p :: q :: ps)) with (p +:+ pat +:+ join pat (q :: ps)).
  rewrite !length_app_str. destruct pat; [done|]. simpl in *. lia.
Qed.

Lemma split_join pat ps :
  pat ≠ "" → ps ≠ [] →
  Forall (fun p => split_once pat (p +:+ butlast pat) = None) ps →
  split pat (join pat ps) = ps.
Proof.
  intros Hne Hps Hall. apply splitn_join; try done.
  - by apply length_join.
  - intros p Hp. rewrite Forall_forall in Hall. by eapply split_once_app_None, Hall.
Qed.

(** ** Reversal and trimming *)

Lemma rev_str_acc s acc : rev_str s acc = rev_str s "" +:+ acc.
Proof.
  revert acc. induction s as [|c s IH]; intros acc; [done|]. simpl.
  rewrite IH, (IH (String c "")), app_assoc_str. done.
Qed.

Lemma reverse_str_app a b : reverse_str (a +:+ b) = reverse_str b +:+ reverse_str a.
Proof.
  unfold reverse_str. induction a as [|c a IH]; simpl; [by rewrite app_empty_r|].
  rewrite rev_str_acc, IH, (rev_str_acc a (String c "")), app_assoc_str. done.
Qed.

Lemma reverse_str_involutive s : reverse_str (reverse_str s) = s.
Proof.
  induction s as [|c s IH]; [done|].
  assert (reverse_str (String c s) = reverse_str s +:+ String c "") as ->.
  { unfold reverse_str. simpl. apply rev_str_acc. }
  by rewrite reverse_str_app, IH.
Qed.

Lemma strip_any_length ps s r :
  Forall (fun p => p ≠ "") ps → strip_any ps s = Some r →
  (String.length r < String.length s)%nat.
Proof.
  induction ps as [|p ps IH]; intros Hall; [done|]. apply Forall_cons in Hall as [Hp Hall]. simpl.
  destruct (strip_prefix p s) as [r'|] eqn:E; [|by apply IH]. intros [= <-].
  apply strip_prefix_Some in E as ->. rewrite length_app_str. destruct p; [done|]. simpl. lia.
Qed.

(** Enough fuel: what is left starts with no pattern. *)
Lemma strip_all_done fuel ps s :
  Forall (fun p => p ≠ "") ps → (String.length s <= fuel)%nat →
  strip_any ps (strip_all fuel ps s) = None.
Proof.
  intros Hall. revert s. induction fuel as [|fuel IH]; intros s Hf; simpl.
  - destruct s; [|simpl in Hf; lia]. destruct (strip_any ps "") eqn:E; [|done].
    apply strip_any_length in E; [simpl in E; lia|done].
  - destruct (strip_any ps s) as [r|] eqn:E; [|done]. apply IH.
    apply strip_any_length in E; [lia|done].
Qed.

Lemma strip_all_id fuel ps s : strip_any ps s = None → strip_all fuel ps s = s.
Proof. intros H. destruct fuel; simpl; [done|]. by rewrite H. Qed.

Lemma strip_any_Some ps s r : strip_any ps s = Some r → ∃ p, p ∈ ps ∧ s = p +:+ r.
Proof.
  induction ps as [|p ps IH]; [done|]. simpl. destruct (strip_prefix p s) as [r'|] eqn:E.
  - intros [= <-]. apply strip_prefix_Some in E. exists p. split; [by left|done].
  - intros Hr. destruct (IH Hr) as (q & Hq & Heq). exists q. split; [by right|done].
Qed.

Lemma strip_all_suffix fuel ps s : ∃ w, s = w +:+ strip_all fuel ps s.
Proof.
  revert s. induction fuel as [|fuel IH]; intros s; simpl; [by exists ""|].
  destruct (strip_any ps s) as [r|] eqn:E; [|by exists ""].
  apply strip_any_Some in E as (w & _ & ->). destruct (IH r) as [w' Hw'].
  exists (w +:+ w'). by rewrite app_assoc_str, <- Hw'.
Qed.

Lemma strip_any_app_None ps a b : strip_any ps (a +:+ b) = None → strip_any ps a = None.
Proof.
  induction ps as [|p ps IH]; [done|]. simpl.
  destruct (strip_prefix p (a +:+ b)) as [|] eqn:E; [done|]. intros Hn.
  destruct (strip_prefix p a) as [r|] eqn:E'; [|by apply IH].
  apply strip_prefix_Some in E' as ->. by rewrite app_assoc_str, strip_prefix_app in E.
Qed.

Lemma whitespace_nonempty : Forall (fun p => p ≠ "") whitespace.
Proof. repeat constructor; done. Qed.

Lemma whitespace_rev_nonempty : Forall (fun p => p ≠ "") (map reverse_str whitespace).
Proof. repeat constructor; done. Qed.

Lemma length_reverse_str s : String.length (reverse_str s) = String.length s.
Proof.
  induction s as [|c s IH]; [done|].
  assert (reverse_str (String c s) = reverse_str s +:+ String c "") as ->.
  { unfold reverse_str. simpl. apply rev_str_acc. }
  rewrite length_app_str, IH. simpl. lia.
Qed.

Lemma trim_start_trim s : trim_start (trim s) = trim s.
Proof.
  unfold trim. set (t := trim_start s).
  assert (strip_any whitespace t = None) as Ht.
  { apply strip_all_done; [apply whitespace_nonempty|done]. }
  apply strip_all_id. unfold trim_end.
  destruct (strip_all_suffix (String.length t) (map reverse_str whitespace) (reverse_str t))
    as [w Hw].
  apply (f_equal reverse_str) in Hw. rewrite reverse_str_involutive, reverse_str_app in Hw.
  rewrite Hw in Ht. by apply strip_any_app_None in Ht.
Qed.

Lemma trim_idem s : trim (trim s) = trim s.
Proof.
  unfold trim at 1. rewrite trim_start_trim. unfold trim. generalize (trim_start s). intros t.
  unfold trim_end at 1. unfold trim_end at 2.
  rewrite reverse_str_involutive, strip_all_id; [done|].
  apply strip_all_done; [apply whitespace_rev_nonempty|]. by rewrite length_reverse_str.
Qed.

End Str.
