(* ===== verification/Decimal.v ===== *)
(** * Decimal integers and lossy UTF-8 decoding of Rust's standard library *)

From S2P Require Import Prelude Str.
From Stdlib Require Import Ascii.
Open Scope string_scope.
Open Scope list_scope.
Open Scope N_scope.

#[local] Arguments String.append !_ _ / : simpl nomatch.

Module Dec.

(** ** Decimal numbers ([u64]/[u128] [Display] and [FromStr]) *)

Definition u128_max : N := 340282366920938463463374607431768211455.

Definition digit (d : N) : ascii := ascii_of_N (48 + d).

Definition digit_val (c : ascii) : option N :=
  let n := N_of_ascii c in
  if (48 <=? n) && (n <=? 57) then Some (n - 48) else None.

Fixpoint print_digits (fuel : nat) (n : N) (acc : string) : string :=
  match fuel with
  | O => acc
  | S fuel' =>
      let acc' := String (digit (n mod 10)) acc in
      if n / 10 =? 0 then acc' else print_digits fuel' (n / 10) acc'
  end.

(** A number has at most as many decimal digits as binary ones. *)
Definition to_string (n : N) : string := print_digits (S (N.size_nat n)) n "".

Fixpoint parse_digits (max acc : N) (s : string) : option N :=
  match s with
  | EmptyString => Some acc
  | String c s' =>
      match digit_val c with
      | Some d => let acc' := acc * 10 + d in
                  if acc' <=? max then parse_digits max acc' s' else None
      | None => None
      end
  end.

Definition parse (max : N) (s : string) : option N :=
  let s' := match Str.strip_prefix "+" s with Some r => r | None => s end in
  match s' with EmptyString => None | _ => parse_digits max 0 s' end.

(** ** Lemmas *)

Lemma digit_val_digit d : d < 10 → digit_val (digit d) = Some d.
Proof.
  intros Hd. unfold digit_val, digit. rewrite N_ascii_embedding by lia.
  rewrite (proj2 (N.leb_le _ _)), (proj2 (N.leb_le _ _)) by lia. simpl. f_equal. lia.
Qed.

Lemma parse_print max fuel n s :
  n < 2 ^ N.of_nat fuel → n <= max → (0 < fuel)%nat →
  parse_digits max 0 (print_digits fuel n s) = parse_digits max n s.
Proof.
  revert n s. induction fuel as [|fuel IH]; intros n s Hn Hmax Hf; [lia|].
  cbn [print_digits]. pose proof (N.div_mod n 10 ltac:(done)) as Hdm.
  pose proof (N.mod_upper_bound n 10 ltac:(done)) as Hmod.
  destruct (N.eqb_spec (n / 10) 0) as [Hz|Hnz].
  - simpl. rewrite digit_val_digit by done.
    rewrite Hz in Hdm. replace (n mod 10) with n by lia. by rewrite (proj2 (N.leb_le _ _)).
  - assert (n / 10 < 2 ^ N.of_nat fuel) as Hlt.
    { replace (N.of_nat (S fuel)) with (N.of_nat fuel + 1) in Hn by lia.
      rewrite N.pow_add_r, N.pow_1_r in Hn.
      revert Hdm Hnz Hmod Hn. generalize (n / 10), (n mod 10), (2 ^ N.of_nat fuel). lia. }
    assert (0 < fuel)%nat by (destruct fuel; [|lia]; by apply N.lt_1_r in Hlt).
    assert (n / 10 <= max) by (revert Hdm Hmax; generalize (n / 10), (n mod 10); lia).
    rewrite IH by done.
    simpl. rewrite digit_val_digit by done.
    replace (n / 10 * 10 + n mod 10) with n by (rewrite Hdm at 1; lia).
    by rewrite (proj2 (N.leb_le _ _)).
Qed.

(** All characters satisfy [p]. *)
Fixpoint all_chars (p : ascii -> bool) (s : string) : bool :=
  match s with EmptyString => true | String c s' => p c && all_chars p s' end.

Definition is_digit (c : ascii) : bool :=
  match digit_val c with Some _ => true | None => false end.

Lemma print_digits_chars fuel n s :
  all_chars is_digit s = true → all_chars is_digit (print_digits fuel n s) = true.
Proof.
  revert n s. induction fuel as [|fuel IH]; intros n s Hs; [done|]. cbn [print_digits].
  pose proof (N.mod_upper_bound n 10 ltac:(done)) as Hmod.
  assert (all_chars is_digit (String (digit (n mod 10)) s) = true) as Hs'.
  { simpl. rewrite Hs. unfold is_digit. by rewrite digit_val_digit. }
  destruct (n / 10 =? 0); [done|]. by apply IH.
Qed.

Lemma print_digits_nonempty fuel n s : (0 < fuel)%nat ∨ s ≠ "" → print_digits fuel n s ≠ "".
Proof.
  revert n s. induction fuel as [|fuel IH]; intros n s [Hf|Hs]; cbn [print_digits]; try lia; try done.
  all: destruct (n / 10 =? 0); [done|apply IH; by right].
Qed.

Lemma to_string_digits n : all_chars is_digit (to_string n) = true ∧ to_string n ≠ "".
Proof.
  split; [by apply print_digits_chars|]. apply print_digits_nonempty. left. lia.
Qed.

Lemma parse_to_string max n : n <= max → parse max (to_string n) = Some n.
Proof.
  intros Hn. destruct (to_string_digits n) as [Hd Hne].
  assert (Str.strip_prefix "+" (to_string n) = None) as Hplus.
  { destruct (to_string n) as [|c s]; [done|]. cbn [Str.strip_prefix].
    destruct (Ascii.eqb_spec "+" c) as [<-|]; [|done]. simpl in Hd. done. }
  unfold parse. rewrite Hplus.
  assert (parse_digits max 0 (to_string n) = Some n) as Hp.
  { unfold to_string. rewrite parse_print; [done| |done|lia].
    pose proof (N.size_gt n) as Hs. destruct n as [|p]; [done|].
    etransitivity; [exact Hs|]. rewrite <- (N2Nat.id (N.size (N.pos p))).
    apply N.pow_lt_mono_r; [lia|]. simpl.
    assert (N.of_nat (N.to_nat (N.pos (Pos.size p))) = N.of_nat (Pos.size_nat p)) as ->; [|lia].
    f_equal. clear. simpl. induction p; simpl; lia. }
  destruct (to_string n); done.
Qed.

Lemma to_string_inj n m : to_string n = to_string m → n = m.
Proof.
  intros H. pose proof (parse_to_string (N.max n m) n ltac:(lia)) as Hn.
  rewrite H, parse_to_string in Hn by lia. congruence.
Qed.

(** ** [String::from_utf8_lossy]

    Well-formed sequences are kept; each maximal ill-formed part becomes U+FFFD. *)

Definition between (lo hi : N) (c : ascii) : bool := (lo <=? N_of_ascii c) && (N_of_ascii c <=? hi).

Definition cont (c : ascii) : bool := between 128 191 c.

(** The second byte of a three or four byte sequence that starts with [b]. *)
Definition second_ok (b c : ascii) : bool :=
  (between 224 224 b && between 160 191 c) || (between 225 236 b && between 128 191 c)
  || (between 237 237 b && between 128 159 c) || (between 238 239 b && between 128 191 c)
  || (between 240 240 b && between 144 191 c) || (between 241 243 b && between 128 191 c)
  || (between 244 244 b && between 128 143 c).

Definition REPLACEMENT : string := Str.of_bytes [239; 191; 189].

Fixpoint from_utf8_lossy (s : string) : string :=
  match s with
  | EmptyString => EmptyString
  | String b s1 =>
      if between 0 127 b then String b (from_utf8_lossy s1)
      else if between 194 223 b then
        match s1 with
        | String c s2 => if cont c then String b (String c (from_utf8_lossy s2))
                         else REPLACEMENT +:+ from_utf8_lossy s1
        | EmptyString => REPLACEMENT
        end
      else if between 224 244 b then
        match s1 with
        | String c s2 =>
            if second_ok b c then
              match s2 with
              | String d s3 =>
                  if cont d then
                    if between 224 239 b then String b (String c (String d (from_utf8_lossy s3)))
                    else match s3 with
                         | String e s4 =>
                             if cont e
                             then String b (String c (String d (String e (from_utf8_lossy s4))))
                             else REPLACEMENT +:+ from_utf8_lossy s3
                         | EmptyString => REPLACEMENT
                         end
                  else REPLACEMENT +:+ from_utf8_lossy s2
              | EmptyString => REPLACEMENT
              end
            else REPLACEMENT +:+ from_utf8_lossy s1
        | EmptyString => REPLACEMENT
        end
      else REPLACEMENT +:+ from_utf8_lossy s1
  end.

(** Text the decoding keeps: well-formed UTF-8. *)
Definition utf8 (s : string) : Prop := from_utf8_lossy s = s.

Example lossy_ex :
  from_utf8_lossy (Str.of_bytes [97; 226; 130; 172; 255; 240; 144; 128; 98])
  = Str.of_bytes [97; 226; 130; 172] +:+ REPLACEMENT +:+ REPLACEMENT +:+ "b".
Proof. reflexivity. Qed.

End Dec.
