(* ===== verification/Mvcc.v ===== *)
(** * The in-memory MVCC row store ([crates/voltnuerongrid-store/src/mvcc.rs])

    [PagedRowStore]: pages of rows, each row a chain of versions; snapshot
    reads, committed-only reads under write intents, FIFO page eviction, and
    snapshot export / replacement. *)

From S2P Require Import Prelude.
Open Scope string_scope.
Open Scope list_scope.
Open Scope vng_scope.

Module RowStore.

(** ** Data *)

Abbreviation Xid := N (only parsing).
Abbreviation RowData := (gmap string string).

Record RowVersion := mkRowVersion {
  rv_xid : Xid;
  rv_deleted : bool;
  rv_data : RowData;
}.

Record MvccRow := mkMvccRow {
  row_key : string;
  row_versions : list RowVersion;
}.

Record StorePage := mkStorePage {
  page_id : N;
  page_rows : list MvccRow;
}.

Record PagedRowStore := mkPagedRowStore {
  pages : list StorePage;
  page_size : nat;
  next_page_id : N;
  next_xid : Xid;
  write_intents : gmap string Xid;
  max_rows_cap : nat;
}.

Definition set_pages (ps : list StorePage) (s : PagedRowStore) : PagedRowStore :=
  mkPagedRowStore ps (page_size s) (next_page_id s) (next_xid s)
    (write_intents s) (max_rows_cap s).

Definition set_next_xid (x : Xid) (s : PagedRowStore) : PagedRowStore :=
  mkPagedRowStore (pages s) (page_size s) (next_page_id s) x
    (write_intents s) (max_rows_cap s).

Definition set_intents (w : gmap string Xid) (s : PagedRowStore) : PagedRowStore :=
  mkPagedRowStore (pages s) (page_size s) (next_page_id s) (next_xid s)
    w (max_rows_cap s).

(** ** Rows *)

Definition row_new (key : string) : MvccRow := mkMvccRow key [].

(** The walk of [MvccRow::visible_at] over the versions, latest first. *)
Fixpoint visible_walk (vs : list RowVersion) (snapshot_xid : Xid) : option RowData :=
  match vs with
  | [] => None
  | v :: vs' =>
      if (rv_xid v <=? snapshot_xid)%N
      then (if rv_deleted v then None else Some (rv_data v))
      else visible_walk vs' snapshot_xid
  end.

Definition visible_at (r : MvccRow) (snapshot_xid : Xid) : option RowData :=
  visible_walk (reverse (row_versions r)) snapshot_xid.

Definition push_version (x : Xid) (del : bool) (d : RowData) (r : MvccRow) : MvccRow :=
  mkMvccRow (row_key r) (row_versions r ++ [mkRowVersion x del d]).

Definition version_count (r : MvccRow) : nat := length (row_versions r).

(** ** Pages *)

Definition page_new (id : N) : StorePage := mkStorePage id [].

Definition page_len (p : StorePage) : nat := length (page_rows p).

Definition find_row (key : string) (p : StorePage) : option MvccRow :=
  List.find (fun r => String.eqb (row_key r) key) (page_rows p).

(** [find_row_mut] followed by an update of the row it returns: the first row
    with the key is replaced, [None] when the page has no such row. *)
Fixpoint update_row (key : string) (f : MvccRow -> MvccRow) (rs : list MvccRow)
    : option (list MvccRow) :=
  match rs with
  | [] => None
  | r :: rs' =>
      if String.eqb (row_key r) key then Some (f r :: rs')
      else let! rs'' := update_row key f rs' in Some (r :: rs'')
  end.

Definition find_row_mut (key : string) (f : MvccRow -> MvccRow) (p : StorePage)
    : option StorePage :=
  let! rs := update_row key f (page_rows p) in Some (mkStorePage (page_id p) rs).

(** ** The loops over the pages *)

(** [for page in &self.pages { if let Some(row) = page.find_row(key) {..} }] *)
Fixpoint first_row (key : string) (ps : list StorePage) : option MvccRow :=
  match ps with
  | [] => None
  | p :: ps' =>
      match find_row key p with
      | Some r => Some r
      | None => first_row key ps'
      end
  end.

(** The same loop with [find_row_mut], stopping at the first hit. *)
Fixpoint update_first (key : string) (f : MvccRow -> MvccRow) (ps : list StorePage)
    : option (list StorePage) :=
  match ps with
  | [] => None
  | p :: ps' =>
      match find_row_mut key f p with
      | Some p' => Some (p' :: ps')
      | None => let! ps'' := update_first key f ps' in Some (p :: ps'')
      end
  end.

Definition total_rows (ps : list StorePage) : nat := sum_list (map page_len ps).

Definition total_row_count (s : PagedRowStore) : nat := total_rows (pages s).

Definition page_count (s : PagedRowStore) : nat := length (pages s).

(** ** Construction and eviction *)

(** [None] is the failed [assert!(page_size > 0)]. *)
Definition new (size : nat) : option PagedRowStore :=
  if (0 <? size)%nat
  then Some (mkPagedRowStore [page_new 0] size 1 1 ∅ 0)
  else None.

Definition set_max_rows_cap (cap : nat) (s : PagedRowStore) : PagedRowStore :=
  mkPagedRowStore (pages s) (page_size s) (next_page_id s) (next_xid s)
    (write_intents s) cap.

(** The [while] loop of [maybe_evict]: [pages.remove(0)] while over the cap
    and more than one page remains. *)
Fixpoint evict_pages (cap : nat) (ps : list StorePage) : list StorePage :=
  match ps with
  | [] => []
  | p :: ps' =>
      match ps' with
      | [] => ps
      | _ :: _ => if (cap <? total_rows ps)%nat then evict_pages cap ps' else ps
      end
  end.

Definition maybe_evict (s : PagedRowStore) : PagedRowStore :=
  if (max_rows_cap s =? 0)%nat then s
  else set_pages (evict_pages (max_rows_cap s) (pages s)) s.

(** ** Transaction ids *)

Definition begin_xid (s : PagedRowStore) : Xid * PagedRowStore :=
  (next_xid s, set_next_xid (u64_add (next_xid s) 1) s).

Definition current_xid (s : PagedRowStore) : Xid := saturating_sub (next_xid s) 1.

Definition fast_forward_xid (min_xid : Xid) (s : PagedRowStore) : PagedRowStore :=
  if (next_xid s <? min_xid)%N then set_next_xid min_xid s else s.

(** ** Writes *)

Definition last_len (ps : list StorePage) : nat :=
  match last ps with Some p => page_len p | None => 0 end.

Definition ensure_tail_capacity (s : PagedRowStore) : PagedRowStore :=
  if (page_size s <=? last_len (pages s))%nat
  then mkPagedRowStore (pages s ++ [page_new (next_page_id s)]) (page_size s)
         (u64_add (next_page_id s) 1) (next_xid s) (write_intents s) (max_rows_cap s)
  else s.

(** [self.pages.last_mut().unwrap().rows.push(row)]; [None] is the panic of
    [unwrap] on an empty page vector. *)
Fixpoint push_last (r : MvccRow) (ps : list StorePage) : option (list StorePage) :=
  match ps with
  | [] => None
  | [p] => Some [mkStorePage (page_id p) (page_rows p ++ [r])]
  | p :: ps' => let! ps'' := push_last r ps' in Some (p :: ps'')
  end.

Definition insert (x : Xid) (key : string) (d : RowData) (s : PagedRowStore)
    : option PagedRowStore :=
  match update_first key (push_version x false d) (pages s) with
  | Some ps => Some (set_pages ps s)
  | None =>
      let s1 := ensure_tail_capacity s in
      let row := push_version x false d (row_new key) in
      let! ps := push_last row (pages s1) in
      Some (maybe_evict (set_pages ps s1))
  end.

Definition delete (x : Xid) (key : string) (s : PagedRowStore) : bool * PagedRowStore :=
  match update_first key (push_version x true ∅) (pages s) with
  | Some ps => (true, set_pages ps s)
  | None => (false, s)
  end.

(** ** Reads *)

Definition read_at_snapshot (key : string) (snapshot_xid : Xid) (s : PagedRowStore)
    : option RowData :=
  match first_row key (pages s) with
  | Some r => visible_at r snapshot_xid
  | None => None
  end.

Definition read_latest (key : string) (s : PagedRowStore) : option RowData :=
  read_at_snapshot key (saturating_sub (next_xid s) 1) s.

(** One iteration of the scan loops: [visible] decides what the row shows,
    [seen] suppresses a second row with the same key. *)
Definition scan_row (visible : MvccRow -> option RowData)
    (acc : list (string * RowData) * gset string) (r : MvccRow)
    : list (string * RowData) * gset string :=
  if decide (row_key r ∈ acc.2) then acc
  else match visible r with
       | Some d => (acc.1 ++ [(row_key r, d)], {[row_key r]} ∪ acc.2)
       | None => acc
       end.

Definition scan_pages (visible : MvccRow -> option RowData) (ps : list StorePage)
    : list (string * RowData) :=
  (fold_left (fun acc p => fold_left (scan_row visible) (page_rows p) acc) ps ([], ∅)).1.

Definition scan_at_snapshot (snapshot_xid : Xid) (s : PagedRowStore)
    : list (string * RowData) :=
  scan_pages (fun r => visible_at r snapshot_xid) (pages s).

Definition effective_snapshot (intents : gmap string Xid) (key : string)
    (snapshot_xid reader_xid : Xid) : Xid :=
  match intents !! key with
  | Some owner =>
      if (owner =? reader_xid)%N then snapshot_xid
      else N.min snapshot_xid (saturating_sub owner 1)
  | None => snapshot_xid
  end.

Definition read_committed (key : string) (snapshot_xid reader_xid : Xid)
    (s : PagedRowStore) : option RowData :=
  read_at_snapshot key
    (effective_snapshot (write_intents s) key snapshot_xid reader_xid) s.

Definition scan_committed (snapshot_xid reader_xid : Xid) (s : PagedRowStore)
    : list (string * RowData) :=
  scan_pages
    (fun r => visible_at r
       (effective_snapshot (write_intents s) (row_key r) snapshot_xid reader_xid))
    (pages s).

Definition visible_row_count (snapshot_xid : Xid) (s : PagedRowStore) : nat :=
  length (scan_at_snapshot snapshot_xid s).

(** ** Write intents *)

Definition begin_write_intent (x : Xid) (key : string) (s : PagedRowStore)
    : result unit Xid * PagedRowStore :=
  match write_intents s !! key with
  | Some other =>
      if (other =? x)%N then (Ok tt, set_intents (<[key := x]> (write_intents s)) s)
      else (Err other, s)
  | None => (Ok tt, set_intents (<[key := x]> (write_intents s)) s)
  end.

Definition release_write_intents (x : Xid) (s : PagedRowStore) : PagedRowStore :=
  set_intents (filter (fun kv => kv.2 ≠ x) (write_intents s)) s.

Definition was_modified_after (key : string) (since_xid : Xid) (s : PagedRowStore) : bool :=
  match first_row key (pages s) with
  | Some r => existsb (fun v => (since_xid <? rv_xid v)%N) (row_versions r)
  | None => false
  end.

(** ** Snapshot export and replacement *)

Definition export_rows_snapshot (s : PagedRowStore) : list (string * RowData) :=
  scan_at_snapshot (current_xid s) s.

Fixpoint insert_all (x : Xid) (rows : list (string * RowData)) (s : PagedRowStore)
    : option PagedRowStore :=
  match rows with
  | [] => Some s
  | (k, d) :: rows' => let! s' := insert x k d s in insert_all x rows' s'
  end.

Definition replace_all (rows : list (string * RowData)) (s : PagedRowStore)
    : option PagedRowStore :=
  let s0 := mkPagedRowStore [page_new 0] (page_size s) 1 (next_xid s) ∅ (max_rows_cap s) in
  let '(x, s1) := begin_xid s0 in
  insert_all x rows s1.

Example insert_read_smoke :
  (let! s := new 2 in
   let! s := insert 1 "a" {["c" := "1"]} s in
   let! s := insert 2 "b" {["c" := "2"]} s in
   let! s := insert 3 "c" {["c" := "3"]} s in
   let! s := insert 4 "a" {["c" := "9"]} s in
   Some (page_count s, read_at_snapshot "a" 3 s, read_at_snapshot "a" 4 s,
         map fst (scan_at_snapshot 2 s)))
  = Some (2, Some {["c" := "1"]}, Some {["c" := "9"]}, ["a"; "b"]).
Proof. vm_compute. reflexivity. Qed.

End RowStore.
