(* ===== verification/MvccSpec.v ===== *)
(** * Specification and correctness of the MVCC row store *)

From S2P Require Import Prelude Mvcc.
Open Scope string_scope.
Open Scope list_scope.
Open Scope vng_scope.
Import RowStore.

(** ** Abstract specification

    The page layout is forgotten: a key maps to its chain of versions. *)

Abbreviation chains := (gmap string (list RowVersion)).

Definition spec_push (key : string) (v : RowVersion) (m : chains) : chains :=
  <[key := default [] (m !! key) ++ [v]]> m.

(** The visibility rule of the module documentation: the latest version with
    [xid <= snapshot_xid] decides, and a tombstone hides the row. *)
Definition spec_visible (x : N) (vs : list RowVersion) : option RowData :=
  match last (filter (fun v => (rv_xid v <= x)%N) vs) with
  | Some v => if rv_deleted v then None else Some (rv_data v)
  | None => None
  end.

Definition spec_read (key : string) (x : N) (m : chains) : option RowData :=
  match m !! key with Some vs => spec_visible x vs | None => None end.

Definition all_rows (ps : list StorePage) : list MvccRow := concat (map page_rows ps).

Definition row_pair (r : MvccRow) : string * list RowVersion := (row_key r, row_versions r).

Definition abs (s : PagedRowStore) : chains :=
  list_to_map (map row_pair (all_rows (pages s))).

(** ** Representation invariant *)

Record wf (s : PagedRowStore) : Prop := {
  wf_pages : pages s ≠ [];
  wf_page_size : 0 < page_size s;
  wf_page_len : Forall (fun p => page_len p <= page_size s) (pages s);
  wf_keys : NoDup (map row_key (all_rows (pages s)));
  wf_chain : Forall (fun r => row_versions r ≠ []) (all_rows (pages s));
}.

(** ** Visibility *)

Lemma visible_walk_last x vs :
  visible_walk (reverse vs) x = spec_visible x vs.
Proof.
  unfold spec_visible. induction vs as [|v vs IH] using rev_ind; [done|].
  rewrite reverse_snoc, filter_app. simpl.
  destruct (N.leb_spec (rv_xid v) x) as [Hle|Hgt].
  - rewrite filter_cons_True by done. rewrite filter_nil. by rewrite last_snoc.
  - rewrite filter_cons_False by lia. by rewrite filter_nil, app_nil_r.
Qed.

Lemma spec_visible_snoc_new x v vs :
  (rv_xid v <= x)%N →
  spec_visible x (vs ++ [v]) = if rv_deleted v then None else Some (rv_data v).
Proof.
  intros. unfold spec_visible.
  by rewrite filter_app, filter_cons_True, filter_nil, last_snoc by done.
Qed.

Lemma spec_visible_snoc_old x v vs :
  (x < rv_xid v)%N → spec_visible x (vs ++ [v]) = spec_visible x vs.
Proof.
  intros. unfold spec_visible.
  by rewrite filter_app, filter_cons_False, filter_nil, app_nil_r by lia.
Qed.

(** ** The page loops against the row list *)

Lemma all_rows_app ps qs : all_rows (ps ++ qs) = all_rows ps ++ all_rows qs.
Proof. unfold all_rows. by rewrite map_app, concat_app. Qed.

Lemma all_rows_cons p ps : all_rows (p :: ps) = page_rows p ++ all_rows ps.
Proof. done. Qed.

Lemma first_row_find key ps :
  first_row key ps = List.find (fun r => String.eqb (row_key r) key) (all_rows ps).
Proof.
  induction ps as [|p ps IH]; [done|].
  rewrite all_rows_cons, find_app. simpl. unfold find_row. by rewrite IH.
Qed.

Lemma find_pairs key rs :
  (list_to_map (map row_pair rs) : chains) !! key
  = row_versions <$> List.find (fun r => String.eqb (row_key r) key) rs.
Proof.
  induction rs as [|r rs IH]; [done|]. simpl.
  destruct (String.eqb_spec (row_key r) key) as [->|Hne].
  - by rewrite lookup_insert_eq.
  - by rewrite lookup_insert_ne.
Qed.

Lemma abs_lookup key s : abs s !! key = row_versions <$> first_row key (pages s).
Proof. unfold abs. by rewrite find_pairs, first_row_find. Qed.

Lemma update_row_spec key f rs :
  match update_row key f rs with
  | Some rs' => ∃ l1 r l2, rs = l1 ++ r :: l2 ∧ row_key r = key ∧
                  key ∉ map row_key l1 ∧ rs' = l1 ++ f r :: l2
  | None => key ∉ map row_key rs
  end.
Proof.
  induction rs as [|r rs IH]; simpl; [set_solver|].
  destruct (String.eqb_spec (row_key r) key) as [<-|Hne].
  - exists [], r, rs. set_solver.
  - destruct (update_row key f rs) as [rs'|]; [|set_solver].
    destruct IH as (l1 & r' & l2 & -> & Hk & Hni & ->).
    exists (r :: l1), r', l2. set_solver.
Qed.

Lemma update_first_spec key f ps :
  match update_first key f ps with
  | Some ps' => map page_len ps' = map page_len ps ∧
                ∃ l1 r l2, all_rows ps = l1 ++ r :: l2 ∧ row_key r = key ∧
                  key ∉ map row_key l1 ∧ all_rows ps' = l1 ++ f r :: l2
  | None => key ∉ map row_key (all_rows ps)
  end.
Proof.
  induction ps as [|p ps IH]; simpl; [set_solver|].
  rewrite all_rows_cons. unfold find_row_mut.
  pose proof (update_row_spec key f (page_rows p)) as Hrow.
  destruct (update_row key f (page_rows p)) as [rs'|].
  - destruct Hrow as (l1 & r & l2 & Hp & Hk & Hni & ->). split.
    + simpl. f_equal. unfold page_len. rewrite Hp. simpl. by rewrite !length_app.
    + exists l1, r, (l2 ++ all_rows ps). rewrite all_rows_cons, Hp. simpl.
      by rewrite <- !app_assoc.
  - destruct (update_first key f ps) as [ps'|].
    + destruct IH as [Hlen (l1 & r & l2 & Hps & Hk & Hni & Hps')]. split.
      * simpl. by f_equal.
      * exists (page_rows p ++ l1), r, l2. rewrite all_rows_cons, Hps, Hps', <- !app_assoc.
        repeat split; [done|]. rewrite map_app. set_solver.
    + rewrite map_app. set_solver.
Qed.

Lemma push_last_spec r ps :
  ps ≠ [] →
  ∃ qs p, ps = qs ++ [p] ∧
    push_last r ps = Some (qs ++ [mkStorePage (page_id p) (page_rows p ++ [r])]).
Proof.
  induction ps as [|p ps IH]; [done|]. intros _.
  destruct ps as [|p' ps'].
  - by exists [], p.
  - destruct IH as (qs & q & Heq & Hpush); [done|].
    exists (p :: qs), q. rewrite Heq. split; [done|].
    change (push_last r (p :: qs ++ [q]))
      with (match qs ++ [q] with
            | [] => Some [mkStorePage (page_id p) (page_rows p ++ [r])]
            | _ => let! ps'' := push_last r (qs ++ [q]) in Some (p :: ps'')
            end).
    rewrite Heq in Hpush. rewrite Hpush. by destruct qs.
Qed.

(** ** Appending a version to an existing chain *)

Lemma list_to_map_update (l1 l2 : list MvccRow) r f :
  row_key (f r) = row_key r →
  row_key r ∉ map row_key l1 →
  (list_to_map (map row_pair (l1 ++ f r :: l2)) : chains)
  = <[row_key r := row_versions (f r)]> (list_to_map (map row_pair (l1 ++ r :: l2))).
Proof.
  intros Hk. induction l1 as [|r1 l1 IH]; simpl; intros Hni.
  - rewrite Hk. by rewrite insert_insert_eq.
  - rewrite IH by set_solver. apply insert_insert_ne. set_solver.
Qed.

Lemma update_first_abs x del d key s ps :
  update_first key (push_version x del d) (pages s) = Some ps →
  is_Some (abs s !! key) ∧
  abs (set_pages ps s) = spec_push key (mkRowVersion x del d) (abs s).
Proof.
  intros Hup. pose proof (update_first_spec key (push_version x del d) (pages s)) as Hsp.
  rewrite Hup in Hsp. destruct Hsp as [_ (l1 & r & l2 & Hrows & <- & Hni & Hrows')].
  assert (abs s !! row_key r = Some (row_versions r)) as Hlook.
  { unfold abs. rewrite Hrows, map_app, list_to_map_app. simpl.
    rewrite lookup_union_r, lookup_insert_eq; [done|].
    apply not_elem_of_list_to_map_1. rewrite <- list_fmap_compose.
    change (row_key r ∉ map row_key l1). done. }
  split; [by rewrite Hlook|].
  unfold spec_push. rewrite Hlook. simpl. unfold abs at 1. simpl. rewrite Hrows'.
  rewrite list_to_map_update by done. unfold abs. by rewrite Hrows.
Qed.

(** ** Appending a row *)

Lemma ensure_tail_rows s : all_rows (pages (ensure_tail_capacity s)) = all_rows (pages s).
Proof.
  unfold ensure_tail_capacity. destruct (_ <=? _)%nat; [|done].
  simpl. rewrite all_rows_app. unfold all_rows at 2. simpl. by rewrite app_nil_r.
Qed.

Lemma ensure_tail_wf s :
  wf s → wf (ensure_tail_capacity s) ∧
  last_len (pages (ensure_tail_capacity s)) < page_size s ∧
  page_size (ensure_tail_capacity s) = page_size s ∧
  max_rows_cap (ensure_tail_capacity s) = max_rows_cap s.
Proof.
  intros Hwf. pose proof (ensure_tail_rows s) as Hrows.
  unfold ensure_tail_capacity in *.
  destruct (Nat.leb_spec (page_size s) (last_len (pages s))) as [Hfull|Hroom];
    [|done]. simpl in *.
  split; [constructor; simpl|].
  - by destruct (pages s).
  - apply Hwf.
  - apply Forall_app. split; [apply Hwf|]. constructor; [unfold page_len; simpl; lia|done].
  - rewrite Hrows. apply Hwf.
  - rewrite Hrows. apply Hwf.
  - unfold last_len. rewrite last_snoc. unfold page_len. simpl.
    destruct Hwf. split; [lia|done].
Qed.

Lemma list_to_map_snoc_fresh (rs : list MvccRow) r :
  row_key r ∉ map row_key rs →
  (list_to_map (map row_pair (rs ++ [r])) : chains)
  = <[row_key r := row_versions r]> (list_to_map (map row_pair rs)).
Proof.
  induction rs as [|r1 rs IH]; simpl; intros Hni; [done|].
  rewrite IH by set_solver. apply insert_insert_ne. set_solver.
Qed.

Lemma push_last_wf s r ps :
  wf s → last_len (pages s) < page_size s →
  row_key r ∉ map row_key (all_rows (pages s)) → row_versions r ≠ [] →
  push_last r (pages s) = Some ps →
  wf (set_pages ps s) ∧ all_rows ps = all_rows (pages s) ++ [r].
Proof.
  intros Hwf Hroom Hni Hne Hpush.
  destruct (push_last_spec r (pages s)) as (qs & p & Heq & Hpush'); [apply Hwf|].
  rewrite Hpush in Hpush'. injection Hpush' as ->.
  assert (all_rows (qs ++ [mkStorePage (page_id p) (page_rows p ++ [r])])
          = all_rows (pages s) ++ [r]) as Hrows.
  { rewrite Heq, !all_rows_app. unfold all_rows. simpl. by rewrite !app_nil_r, app_assoc. }
  split; [|done].
  assert (page_len p < page_size s) as Hp.
  { unfold last_len in Hroom. by rewrite Heq, last_snoc in Hroom. }
  pose proof (wf_page_len _ Hwf) as Hlen. rewrite Heq, Forall_app in Hlen.
  constructor; simpl; rewrite ?Hrows.
  - by destruct qs.
  - apply Hwf.
  - apply Forall_app. split; [apply Hlen|]. constructor; [|done].
    unfold page_len in *. simpl. rewrite length_app. simpl. lia.
  - rewrite map_app. apply NoDup_app. split; [apply Hwf|].
    split; [set_solver|]. apply NoDup_singleton.
  - apply Forall_app. split; [apply Hwf|by constructor].
Qed.

Lemma update_first_wf x del d key s ps :
  wf s → update_first key (push_version x del d) (pages s) = Some ps → wf (set_pages ps s).
Proof.
  intros Hwf Hup. pose proof (update_first_spec key (push_version x del d) (pages s)) as Hsp.
  rewrite Hup in Hsp. destruct Hsp as [Hlen (l1 & r & l2 & Hrows & <- & Hni & Hrows')].
  constructor; simpl; rewrite ?Hrows'.
  - intros ->. pose proof (wf_pages _ Hwf). by destruct (pages s).
  - apply Hwf.
  - pose proof (wf_page_len _ Hwf) as Hall.
    rewrite <- (Forall_map page_len (fun n => n <= page_size s)) in Hall |- *.
    by rewrite Hlen.
  - pose proof (wf_keys _ Hwf) as Hnd. rewrite Hrows in Hnd.
    by rewrite map_app in Hnd |- *.
  - pose proof (wf_chain _ Hwf) as Hch. rewrite Hrows in Hch.
    rewrite Forall_app, Forall_cons in Hch |- *.
    destruct Hch as (? & _ & ?). split_and!; try done.
    simpl. by destruct (row_versions r).
Qed.

(** ** Eviction *)

Lemma evict_pages_step cap p q ps :
  evict_pages cap (p :: q :: ps)
  = if (cap <? total_rows (p :: q :: ps))%nat then evict_pages cap (q :: ps)
    else p :: q :: ps.
Proof. done. Qed.

Lemma evict_pages_suffix cap ps :
  ps ≠ [] → evict_pages cap ps ≠ [] ∧
  (∃ gone, ps = gone ++ evict_pages cap ps) ∧
  (total_rows (evict_pages cap ps) <= cap ∨ length (evict_pages cap ps) = 1).
Proof.
  induction ps as [|p ps IH]; [done|]. intros _.
  destruct ps as [|q ps]; [simpl; split_and!; [done|by exists []|by right]|].
  rewrite !evict_pages_step.
  destruct (Nat.ltb_spec cap (total_rows (p :: q :: ps))) as [Hover|Hok].
  - destruct IH as (Hne & [gone Hgone] & Hcap); [done|].
    split_and!; [done| |done]. exists (p :: gone). rewrite Hgone at 1. done.
  - split_and!; [done|by exists []|left; lia].
Qed.

(** The evicted pages are the oldest ones, and exactly as many as needed. *)
Lemma evict_pages_minimal cap ps gone :
  ps = gone ++ evict_pages cap ps →
  ∀ p gone', gone = gone' ++ [p] → cap < total_rows (p :: evict_pages cap ps).
Proof.
  revert gone. induction ps as [|q ps IH]; intros gone Hps p gone' Hg; subst gone.
  - simpl in Hps. by destruct gone'.
  - destruct ps as [|q' ps].
    + simpl in Hps. apply (f_equal length) in Hps. rewrite !length_app in Hps. simpl in Hps. lia.
    + rewrite evict_pages_step in *.
      destruct (Nat.ltb_spec cap (total_rows (q :: q' :: ps))) as [Hover|Hok].
      * remember (evict_pages cap (q' :: ps)) as kept eqn:Hkept.
        destruct gone' as [|g gone']; cbn [app] in Hps; injection Hps as -> Hps.
        -- by rewrite <- Hps.
        -- by eapply IH.
      * apply (f_equal length) in Hps. rewrite !length_app in Hps. simpl in Hps. lia.
Qed.

Lemma maybe_evict_wf s : wf s → wf (maybe_evict s).
Proof.
  intros Hwf. unfold maybe_evict. destruct (_ =? _)%nat; [done|].
  destruct (evict_pages_suffix (max_rows_cap s) (pages s)) as (Hne & [gone Hgone] & _);
    [apply Hwf|].
  destruct Hwf as [_ ? Hlen Hkeys Hchain].
  rewrite Hgone in Hlen. rewrite Hgone, all_rows_app, map_app in Hkeys.
  rewrite Hgone, all_rows_app in Hchain.
  apply Forall_app in Hlen as [_ Hlen]. apply NoDup_app in Hkeys as (_ & _ & Hkeys).
  apply Forall_app in Hchain as [_ Hchain].
  by constructor.
Qed.

(** A store whose eviction is off or not triggered. *)
Lemma maybe_evict_id s :
  max_rows_cap s = 0 ∨ total_row_count s <= max_rows_cap s → maybe_evict s = s.
Proof.
  unfold maybe_evict. intros [->|Hle]; [done|].
  destruct (_ =? _)%nat; [done|].
  assert (evict_pages (max_rows_cap s) (pages s) = pages s) as ->; [|by destruct s].
  unfold total_row_count in Hle. destruct (pages s) as [|p [|q ps]]; [done..|].
  rewrite evict_pages_step.
  destruct (Nat.ltb_spec (max_rows_cap s) (total_rows (p :: q :: ps))); [lia|done].
Qed.

(** ** Insert and delete against the specification *)

Lemma not_elem_keys_abs key s :
  key ∉ map row_key (all_rows (pages s)) ↔ abs s !! key = None.
Proof.
  unfold abs. rewrite <- not_elem_of_list_to_map, <- list_fmap_compose. done.
Qed.

(** What [insert] does before eviction. *)
Lemma insert_raw x key d s :
  wf s →
  ∃ s1, wf s1 ∧ abs s1 = spec_push key (mkRowVersion x false d) (abs s) ∧
    next_xid s1 = next_xid s ∧ write_intents s1 = write_intents s ∧
    page_size s1 = page_size s ∧ max_rows_cap s1 = max_rows_cap s ∧
    ((is_Some (abs s !! key) ∧ insert x key d s = Some s1) ∨
     (abs s !! key = None ∧ insert x key d s = Some (maybe_evict s1))).
Proof.
  intros Hwf. unfold insert.
  pose proof (update_first_spec key (push_version x false d) (pages s)) as Hsp.
  destruct (update_first key (push_version x false d) (pages s)) as [ps|] eqn:Hup.
  - destruct (update_first_abs _ _ _ _ _ _ Hup) as [Hin Habs].
    exists (set_pages ps s). split_and!; eauto using update_first_wf.
  - destruct (ensure_tail_wf s Hwf) as (Hwf1 & Hroom & Hps & Hcap).
    rewrite <- Hps in Hroom. rewrite <- (ensure_tail_rows s) in Hsp.
    destruct (push_last_spec (push_version x false d (row_new key))
                (pages (ensure_tail_capacity s))) as (qs & p & _ & Hpush); [apply Hwf1|].
    rewrite Hpush.
    apply push_last_wf in Hpush as [Hwf2 Hrows]; try done.
    eexists. split_and!; [exact Hwf2|..].
    + unfold abs at 1. simpl. rewrite Hrows, list_to_map_snoc_fresh by done. simpl.
      rewrite ensure_tail_rows in *.
      unfold spec_push. apply not_elem_keys_abs in Hsp. by rewrite Hsp.
    + simpl. unfold ensure_tail_capacity. by destruct (_ <=? _)%nat.
    + simpl. unfold ensure_tail_capacity. by destruct (_ <=? _)%nat.
    + done.
    + done.
    + right. rewrite ensure_tail_rows in Hsp. by apply not_elem_keys_abs in Hsp.
Qed.

Lemma insert_wf x key d s :
  wf s → ∃ s', insert x key d s = Some s' ∧ wf s' ∧ next_xid s' = next_xid s ∧
    write_intents s' = write_intents s ∧ page_size s' = page_size s ∧
    max_rows_cap s' = max_rows_cap s.
Proof.
  intros Hwf. destruct (insert_raw x key d s Hwf) as (s1 & Hwf1 & _ & ? & ? & ? & ? & Hins).
  destruct Hins as [[_ Hins]|[_ Hins]]; [by exists s1|].
  exists (maybe_evict s1). split_and!; [done|by apply maybe_evict_wf|..];
    unfold maybe_evict; by destruct (_ =? _)%nat.
Qed.

Lemma insert_uncapped x key d s :
  wf s → max_rows_cap s = 0 →
  ∃ s', insert x key d s = Some s' ∧ wf s' ∧
    abs s' = spec_push key (mkRowVersion x false d) (abs s) ∧
    next_xid s' = next_xid s ∧ write_intents s' = write_intents s ∧
    max_rows_cap s' = 0.
Proof.
  intros Hwf Hcap. destruct (insert_raw x key d s Hwf) as (s1 & ? & ? & ? & ? & ? & Hc & Hins).
  exists s1. split_and!; try done; [|by rewrite Hc].
  destruct Hins as [[_ Hins]|[_ Hins]]; [done|].
  rewrite maybe_evict_id in Hins; [done|]. left. by rewrite Hc.
Qed.

Lemma delete_spec x key s :
  (delete x key s).1 = bool_decide (is_Some (abs s !! key)) ∧
  abs (delete x key s).2 =
    (if decide (is_Some (abs s !! key))
     then spec_push key (mkRowVersion x true ∅) (abs s) else abs s) ∧
  (wf s → wf (delete x key s).2) ∧
  next_xid (delete x key s).2 = next_xid s ∧
  write_intents (delete x key s).2 = write_intents s ∧
  max_rows_cap (delete x key s).2 = max_rows_cap s.
Proof.
  unfold delete.
  pose proof (update_first_spec key (push_version x true ∅) (pages s)) as Hsp.
  destruct (update_first key (push_version x true ∅) (pages s)) as [ps|] eqn:Hup; simpl.
  - destruct (update_first_abs _ _ _ _ _ _ Hup) as [Hin Habs].
    rewrite bool_decide_true, decide_True by done.
    split_and!; try done. intros. by eapply update_first_wf.
  - apply not_elem_keys_abs in Hsp. rewrite Hsp.
    rewrite bool_decide_false, decide_False by (by intros []). done.
Qed.

(** ** Reads against the specification *)

Lemma read_at_snapshot_spec key x s :
  read_at_snapshot key x s = spec_read key x (abs s).
Proof.
  unfold read_at_snapshot, spec_read. rewrite abs_lookup.
  destruct (first_row key (pages s)) as [r|]; [|done]. simpl.
  apply visible_walk_last.
Qed.

Definition scan_entry (visible : MvccRow -> option RowData) (r : MvccRow)
    : option (string * RowData) :=
  match visible r with Some d => Some (row_key r, d) | None => None end.

Lemma scan_rows_fold visible rs res (seen : gset string) :
  NoDup (map row_key rs) → (∀ k, k ∈ map row_key rs → k ∉ seen) →
  (fold_left (scan_row visible) rs (res, seen)).1 = res ++ omap (scan_entry visible) rs.
Proof.
  revert res seen. induction rs as [|r rs IH]; intros res seen Hnd Hseen; simpl.
  - by rewrite app_nil_r.
  - apply NoDup_cons in Hnd as [Hni Hnd]. unfold scan_row at 2. simpl.
    rewrite decide_False by (apply Hseen; set_solver).
    unfold scan_entry at 1. destruct (visible r) as [d|].
    + rewrite IH; [by rewrite <- app_assoc|done|].
      intros k Hk. assert (k ≠ row_key r) by (by intros ->).
      pose proof (Hseen k). set_solver.
    + apply IH; [done|]. intros k Hk. apply Hseen. set_solver.
Qed.

Lemma fold_left_pages {A} (f : A -> MvccRow -> A) ps a :
  fold_left (fun acc p => fold_left f (page_rows p) acc) ps a = fold_left f (all_rows ps) a.
Proof.
  revert a. induction ps as [|p ps IH]; intros a; [done|].
  by rewrite all_rows_cons, fold_left_app, <- IH.
Qed.

Lemma scan_pages_omap visible s :
  wf s → scan_pages visible (pages s) = omap (scan_entry visible) (all_rows (pages s)).
Proof.
  intros Hwf. unfold scan_pages. rewrite fold_left_pages.
  rewrite scan_rows_fold; [done|apply Hwf|set_solver].
Qed.

Lemma find_key_iff rs r :
  NoDup (map row_key rs) →
  List.find (fun r' => String.eqb (row_key r') (row_key r)) rs = Some r ↔ r ∈ rs.
Proof.
  induction rs as [|r0 rs IH]; simpl; intros Hnd; [set_solver|].
  apply NoDup_cons in Hnd as [Hni Hnd]. specialize (IH Hnd).
  destruct (String.eqb_spec (row_key r0) (row_key r)) as [Heq|Hne].
  - split; [intros [= ->]; set_solver|].
    intros [->|Hin]%elem_of_cons; [done|]. exfalso. apply Hni.
    rewrite Heq. by apply (list_elem_of_fmap_2 row_key).
  - rewrite IH, elem_of_cons. naive_solver.
Qed.

Lemma find_key_eq key rs r :
  List.find (fun r' => String.eqb (row_key r') key) rs = Some r → row_key r = key.
Proof. intros [_ Heq]%List.find_some. by apply String.eqb_eq. Qed.

(** A scan lists exactly the keys whose row is visible, once each. *)
Lemma scan_pages_iff visible s :
  wf s →
  NoDup (map fst (scan_pages visible (pages s))) ∧
  ∀ k d, (k, d) ∈ scan_pages visible (pages s) ↔
         ∃ r, first_row k (pages s) = Some r ∧ visible r = Some d.
Proof.
  intros Hwf. rewrite scan_pages_omap by done. split.
  - assert (map fst (omap (scan_entry visible) (all_rows (pages s)))
            `sublist_of` map row_key (all_rows (pages s))) as Hsub.
    { generalize (all_rows (pages s)). intros rs. induction rs as [|r rs IH]; simpl; [done|].
      unfold scan_entry at 1. destruct (visible r); simpl; by constructor. }
    eapply sublist_NoDup; [apply Hwf|exact Hsub].
  - intros k d. rewrite list_elem_of_omap. setoid_rewrite first_row_find. split.
    + intros (r & Hin & Hent). unfold scan_entry in Hent.
      destruct (visible r) as [d'|] eqn:Hv; [|done]. injection Hent as <- <-.
      exists r. split; [|done]. apply find_key_iff; [apply Hwf|done].
    + intros (r & Hfind & Hv). pose proof (find_key_eq _ _ _ Hfind) as <-.
      exists r. split; [apply find_key_iff in Hfind; [done|apply Hwf]|].
      unfold scan_entry. by rewrite Hv.
Qed.

(** ** Operation sequences *)

Inductive op :=
| OpInsert (x : N) (key : string) (d : RowData)
| OpDelete (x : N) (key : string)
| OpBeginXid
| OpIntent (x : N) (key : string)
| OpRelease (x : N)
| OpFastForward (x : N)
| OpReplaceAll (rows : list (string * RowData)).

Definition step (o : op) (s : PagedRowStore) : option PagedRowStore :=
  match o with
  | OpInsert x key d => insert x key d s
  | OpDelete x key => Some (delete x key s).2
  | OpBeginXid => Some (begin_xid s).2
  | OpIntent x key => Some (begin_write_intent x key s).2
  | OpRelease x => Some (release_write_intents x s)
  | OpFastForward x => Some (fast_forward_xid x s)
  | OpReplaceAll rows => replace_all rows s
  end.

Fixpoint run (ops : list op) (s : PagedRowStore) : option PagedRowStore :=
  match ops with
  | [] => Some s
  | o :: ops' => let! s' := step o s in run ops' s'
  end.

(** The specification machine: no pages. *)
Record SpecStore := mkSpecStore {
  sp_chains : chains;
  sp_next : N;
  sp_intents : gmap string N;
}.

Definition spec_insert_all (x : N) (rows : list (string * RowData)) (m : chains) : chains :=
  fold_left (fun m kd => spec_push kd.1 (mkRowVersion x false kd.2) m) rows m.

Definition spec_step (o : op) (a : SpecStore) : SpecStore :=
  let 'mkSpecStore m n w := a in
  match o with
  | OpInsert x key d => mkSpecStore (spec_push key (mkRowVersion x false d) m) n w
  | OpDelete x key =>
      mkSpecStore (if decide (is_Some (m !! key))
                   then spec_push key (mkRowVersion x true ∅) m else m) n w
  | OpBeginXid => mkSpecStore m (u64_add n 1) w
  | OpIntent x key =>
      mkSpecStore m n (match w !! key with
                       | Some o => if decide (o = x) then <[key := x]> w else w
                       | None => <[key := x]> w
                       end)
  | OpRelease x => mkSpecStore m n (filter (fun kv => kv.2 ≠ x) w)
  | OpFastForward x => mkSpecStore m (N.max n x) w
  | OpReplaceAll rows => mkSpecStore (spec_insert_all n rows ∅) (u64_add n 1) ∅
  end.

Definition abs_store (s : PagedRowStore) : SpecStore :=
  mkSpecStore (abs s) (next_xid s) (write_intents s).

Definition simulates (s : PagedRowStore) (a : SpecStore) : Prop :=
  wf s ∧ max_rows_cap s = 0 ∧ abs_store s = a.

Lemma insert_all_uncapped x rows s :
  wf s → max_rows_cap s = 0 →
  ∃ s', insert_all x rows s = Some s' ∧ wf s' ∧ max_rows_cap s' = 0 ∧
    abs s' = spec_insert_all x rows (abs s) ∧
    next_xid s' = next_xid s ∧ write_intents s' = write_intents s.
Proof.
  revert s. induction rows as [|[k d] rows IH]; intros s Hwf Hcap; simpl; [by exists s|].
  destruct (insert_uncapped x k d s Hwf Hcap) as (s1 & -> & Hwf1 & Habs1 & Hn1 & Hw1 & Hc1).
  destruct (IH s1 Hwf1 Hc1) as (s' & Hrun & Hwf' & Hc' & Habs' & Hn' & Hw').
  exists s'. split_and!; try done; [by rewrite Habs', Habs1|congruence|congruence].
Qed.

Lemma empty_page_wf size n x w cap :
  0 < size → wf (mkPagedRowStore [page_new 0] size n x w cap).
Proof.
  intros. constructor; simpl; try done.
  - constructor; [unfold page_len; simpl; lia|done].
  - apply NoDup_nil_2.
Qed.

Lemma step_simulates o s a :
  simulates s a → ∃ s', step o s = Some s' ∧ simulates s' (spec_step o a).
Proof.
  intros (Hwf & Hcap & <-). destruct o as [x k d|x k| |x k|x|x|rows]; simpl.
  - destruct (insert_uncapped x k d s Hwf Hcap) as (s' & Hi & ? & Habs & Hn & Hw & ?).
    exists s'. split; [done|]. split_and!; try done. unfold abs_store. by rewrite Habs, Hn, Hw.
  - destruct (delete_spec x k s) as (_ & Habs & Hwf' & Hn & Hw & Hc).
    eexists. split; [done|]. split_and!; [by apply Hwf'|by rewrite Hc|].
    unfold abs_store. by rewrite Habs, Hn, Hw.
  - eexists. split; [done|]. split_and!; [by destruct Hwf; constructor|done|done].
  - eexists. split; [done|]. unfold begin_write_intent.
    destruct (write_intents s !! k) as [o|] eqn:Ho; [destruct (N.eqb_spec o x) as [->|Hne]|].
    all: simpl; rewrite ?decide_True, ?decide_False by done.
    all: split_and!; [by destruct Hwf; constructor|done|done].
  - eexists. split; [done|]. split_and!; [by destruct Hwf; constructor|done|done].
  - eexists. split; [done|]. unfold fast_forward_xid.
    destruct (N.ltb_spec (next_xid s) x); (split_and!; [by destruct Hwf; constructor|done|]);
      unfold abs_store; simpl; f_equal; lia.
  - unfold replace_all. simpl.
    destruct (insert_all_uncapped (next_xid s) rows
      (set_next_xid (u64_add (next_xid s) 1)
         (mkPagedRowStore [page_new 0] (page_size s) 1 (next_xid s) ∅ (max_rows_cap s))))
      as (s' & Hins & Hwf' & Hc' & Habs' & Hn' & Hw'); [|done|].
    { apply empty_page_wf, Hwf. }
    exists s'. split; [done|]. split_and!; try done.
    unfold abs_store. by rewrite Habs', Hn', Hw'.
Qed.

Lemma run_simulates ops s a :
  simulates s a →
  ∃ s', run ops s = Some s' ∧ simulates s' (fold_left (fun a o => spec_step o a) ops a).
Proof.
  revert s a. induction ops as [|o ops IH]; intros s a Hsim; simpl; [by exists s|].
  destruct (step_simulates o s a Hsim) as (s1 & -> & Hsim1). by apply IH.
Qed.

Lemma run_app ops1 ops2 s :
  run (ops1 ++ ops2) s = let! s' := run ops1 s in run ops2 s'.
Proof. revert s. induction ops1 as [|o ops1 IH]; intros s; simpl; [done|]. by destruct (step o s). Qed.
