(* ===== verification/MvccProps.v ===== *)
(** * Isolation, conflict detection, eviction and snapshot properties of the
    MVCC row store *)

From S2P Require Import Prelude Mvcc MvccSpec.
Open Scope string_scope.
Open Scope list_scope.
Open Scope vng_scope.
Import RowStore.

(** ** Lemmas on the specification machine *)

Definition spec_read_committed (key : string) (snap reader : N) (a : SpecStore)
    : option RowData :=
  spec_read key (effective_snapshot (sp_intents a) key snap reader) (sp_chains a).

Lemma read_committed_spec key snap reader s :
  read_committed key snap reader s = spec_read_committed key snap reader (abs_store s).
Proof. apply read_at_snapshot_spec. Qed.

Lemma spec_read_push_ne k k' x v m :
  k ≠ k' → spec_read k' x (spec_push k v m) = spec_read k' x m.
Proof. intros. unfold spec_read, spec_push. by rewrite lookup_insert_ne. Qed.

Lemma spec_read_push_old k k' x v m :
  (x < rv_xid v)%N → spec_read k' x (spec_push k v m) = spec_read k' x m.
Proof.
  intros Hx. destruct (decide (k = k')) as [->|]; [|by apply spec_read_push_ne].
  unfold spec_read, spec_push. rewrite lookup_insert_eq, spec_visible_snoc_old by done.
  by destruct (m !! k').
Qed.

Lemma spec_read_push_new k x v m :
  (rv_xid v <= x)%N →
  spec_read k x (spec_push k v m) = if rv_deleted v then None else Some (rv_data v).
Proof. intros. unfold spec_read, spec_push. by rewrite lookup_insert_eq, spec_visible_snoc_new. Qed.

Lemma spec_read_missing k x m : m !! k = None → spec_read k x m = None.
Proof. unfold spec_read. by intros ->. Qed.

(** A bound that no version of the chain reaches does not change a read. *)
Lemma spec_read_min k x b m :
  (∀ vs v, m !! k = Some vs → v ∈ vs → (rv_xid v <= b)%N) →
  spec_read k (N.min x b) m = spec_read k x m.
Proof.
  intros Hb. unfold spec_read. destruct (m !! k) as [vs|]; [|done].
  unfold spec_visible. rewrite (list_filter_ext_in _ (fun v => (rv_xid v <= x)%N)); [done|].
  intros v Hv. specialize (Hb vs v eq_refl Hv). lia.
Qed.

(** ** Refinement *)

(** C11: refinement.  For every page size and every sequence of row-store
    operations (inserts, deletes, transaction ids, write intents, fast-forward,
    snapshot replacement) the paged store never panics, keeps its
    representation invariant, and ends in the state of the page-free
    specification machine; its point reads are the specification's reads. *)
Theorem paged_store_refines_spec (size : nat) (ops : list op) :
  0 < size →
  ∃ s0 s, new size = Some s0 ∧ run ops s0 = Some s ∧ wf s ∧
    abs_store s = fold_left (fun a o => spec_step o a) ops (mkSpecStore ∅ 1 ∅) ∧
    ∀ key x reader,
      read_at_snapshot key x s = spec_read key x (sp_chains (abs_store s)) ∧
      read_committed key x reader s = spec_read_committed key x reader (abs_store s).
Proof.
  intros Hsize. unfold new. destruct (Nat.ltb_spec 0 size); [|lia].
  eexists. destruct (run_simulates ops (mkPagedRowStore [page_new 0] size 1 1 ∅ 0)
    (mkSpecStore ∅ 1 ∅)) as (s & Hrun & Hwf & _ & Habs).
  { split_and!; [by apply empty_page_wf|done|done]. }
  exists s. split_and!; try done. intros key x reader.
  by rewrite read_at_snapshot_spec, read_committed_spec.
Qed.

Lemma paged_store_refines_spec_witness :
  0 < 2 ∧ ∃ s0 s, new 2 = Some s0 ∧
    run [OpBeginXid; OpInsert 1 "a" ∅; OpDelete 1 "a"] s0 = Some s ∧ wf s.
Proof.
  split; [lia|].
  destruct (paged_store_refines_spec 2 [OpBeginXid; OpInsert 1 "a" ∅; OpDelete 1 "a"])
    as (s0 & s & H0 & Hs & Hwf & _); [lia|]. by exists s0, s.
Defined.

(** ** Scans *)

Lemma read_at_snapshot_Some k x s d :
  read_at_snapshot k x s = Some d ↔
  ∃ r, first_row k (pages s) = Some r ∧ visible_at r x = Some d.
Proof. unfold read_at_snapshot. destruct (first_row k (pages s)); naive_solver. Qed.

(** A scan lists every key at most once, and lists [(k, d)] exactly when
    the point read of [k] at the same snapshot returns [d]; the committed-only
    scan agrees in the same way with [read_committed]. *)
Theorem scans_agree_with_reads (s : PagedRowStore) (x reader : N) :
  wf s →
  NoDup (map fst (scan_at_snapshot x s)) ∧
  NoDup (map fst (scan_committed x reader s)) ∧
  visible_row_count x s = length (scan_at_snapshot x s) ∧
  ∀ k d, ((k, d) ∈ scan_at_snapshot x s ↔ read_at_snapshot k x s = Some d) ∧
         ((k, d) ∈ scan_committed x reader s ↔ read_committed k x reader s = Some d).
Proof.
  intros Hwf. unfold scan_at_snapshot, scan_committed.
  destruct (scan_pages_iff (fun r => visible_at r x) s Hwf) as [Hnd1 Hiff1].
  destruct (scan_pages_iff (fun r => visible_at r
    (effective_snapshot (write_intents s) (row_key r) x reader)) s Hwf) as [Hnd2 Hiff2].
  split_and!; try done. intros k d. rewrite Hiff1, Hiff2.
  unfold read_committed, read_at_snapshot. split.
  - destruct (first_row k (pages s)) as [r|]; naive_solver.
  - destruct (first_row k (pages s)) as [r|] eqn:Hr; [|naive_solver].
    rewrite first_row_find in Hr. apply find_key_eq in Hr as <-. naive_solver.
Qed.

Lemma scans_agree_with_reads_witness :
  ∃ s, insert 1 "a" ∅ (mkPagedRowStore [page_new 0] 2 1 2 ∅ 0) = Some s ∧
    ("a", ∅) ∈ scan_at_snapshot 1 s.
Proof.
  destruct (insert_wf 1 "a" ∅ (mkPagedRowStore [page_new 0] 2 1 2 ∅ 0)) as (s & Hs & Hwf & _).
  { apply empty_page_wf. lia. }
  exists s. split; [done|].
  apply (scans_agree_with_reads s 1 0 Hwf).
  vm_compute in Hs. injection Hs as <-. vm_compute. reflexivity.
Defined.

(** ** Repeatable reads *)

(** Operations of transactions that started after snapshot [x]. *)
Definition writes_after (x : N) (o : op) : Prop :=
  match o with
  | OpInsert y _ _ | OpDelete y _ => (x < y)%N
  | OpReplaceAll _ => False
  | _ => True
  end.

Lemma spec_step_after x o a k :
  writes_after x o →
  spec_read k x (sp_chains (spec_step o a)) = spec_read k x (sp_chains a).
Proof.
  destruct a as [m n w]. destruct o; simpl; intros Ho; try done.
  - by apply spec_read_push_old.
  - case_decide; [by apply spec_read_push_old|done].
Qed.

Lemma spec_run_after x ops a k :
  Forall (writes_after x) ops →
  spec_read k x (sp_chains (fold_left (fun a o => spec_step o a) ops a))
  = spec_read k x (sp_chains a).
Proof.
  revert a. induction ops as [|o ops IH]; intros a Hall; simpl; [done|].
  apply Forall_cons in Hall as [Ho Hall]. rewrite IH by done. by apply spec_step_after.
Qed.

(** C16: repeatable reads.  Whatever later transactions (xids above [x]) insert,
    delete or lock, every point read and the whole scan at snapshot [x] keep
    their result. *)
Theorem snapshot_reads_repeatable (s : PagedRowStore) (x : N) (ops : list op) :
  wf s → max_rows_cap s = 0 → Forall (writes_after x) ops →
  ∃ s', run ops s = Some s' ∧
    (∀ k, read_at_snapshot k x s' = read_at_snapshot k x s) ∧
    scan_at_snapshot x s' ≡ₚ scan_at_snapshot x s.
Proof.
  intros Hwf Hcap Hops.
  destruct (run_simulates ops s (abs_store s)) as (s' & Hrun & Hwf' & _ & Habs); [done|].
  assert (∀ k, read_at_snapshot k x s' = read_at_snapshot k x s) as Hreads.
  { intros k. rewrite !read_at_snapshot_spec. change (abs s') with (sp_chains (abs_store s')).
    rewrite Habs. by apply spec_run_after. }
  exists s'. split_and!; [done|done|].
  destruct (scan_pages_iff (fun r => visible_at r x) s Hwf) as [Hnd Hiff].
  destruct (scan_pages_iff (fun r => visible_at r x) s' Hwf') as [Hnd' Hiff'].
  apply NoDup_Permutation.
  - by eapply NoDup_fmap_1.
  - by eapply NoDup_fmap_1.
  - intros [k d]. unfold scan_at_snapshot.
    by rewrite Hiff, Hiff', <- !read_at_snapshot_Some, Hreads.
Qed.

Lemma snapshot_reads_repeatable_witness :
  ∃ s', run [OpInsert 6 "a" {["c" := "new"]}; OpDelete 7 "b"]
          (mkPagedRowStore [mkStorePage 0 [mkMvccRow "a" [mkRowVersion 1 false ∅]]] 4 1 8 ∅ 0)
        = Some s' ∧ read_at_snapshot "a" 5 s' = Some ∅.
Proof.
  edestruct (snapshot_reads_repeatable
    (mkPagedRowStore [mkStorePage 0 [mkMvccRow "a" [mkRowVersion 1 false ∅]]] 4 1 8 ∅ 0)
    5 [OpInsert 6 "a" {["c" := "new"]}; OpDelete 7 "b"]) as (s' & Hrun & Hr & _).
  - constructor; simpl; [done|lia| | |].
    + repeat constructor; unfold page_len; simpl; lia.
    + apply NoDup_singleton.
    + by repeat constructor.
  - done.
  - repeat constructor; simpl; lia.
  - exists s'. split; [exact Hrun|]. by rewrite Hr.
Defined.

(** ** Transactions: intents, dirty reads, commit *)

Inductive tx_write :=
| TxPut (key : string) (d : RowData)
| TxDel (key : string).

Definition tx_key (w : tx_write) : string :=
  match w with TxPut k _ | TxDel k => k end.

Definition tx_value (w : tx_write) : option RowData :=
  match w with TxPut _ d => Some d | TxDel _ => None end.

(** How the service writes inside transaction [x]: take the intent, then
    append the version. *)
Definition tx_ops_of (x : N) (w : tx_write) : list op :=
  match w with
  | TxPut k d => [OpIntent x k; OpInsert x k d]
  | TxDel k => [OpIntent x k; OpDelete x k]
  end.

Definition tx_ops (x : N) (ws : list tx_write) : list op := concat (map (tx_ops_of x) ws).

(** The value the transaction leaves for [key]: its last write to it. *)
Definition tx_effect (key : string) (ws : list tx_write) (before : option RowData)
    : option RowData :=
  fold_left (fun v w => if decide (tx_key w = key) then tx_value w else v) ws before.

(** Everything in the store was written by an already allocated xid. *)
Definition xid_fresh (s : PagedRowStore) : Prop :=
  (0 < next_xid s)%N ∧
  (∀ k vs v, abs s !! k = Some vs → v ∈ vs → (rv_xid v < next_xid s)%N) ∧
  (∀ k o, write_intents s !! k = Some o → (o < next_xid s)%N).

(** Keys not locked by [x] carry only versions older than [x]. *)
Definition older_than (x : N) (a : SpecStore) : Prop :=
  ∀ k, sp_intents a !! k = Some x ∨
       ∀ vs v, sp_chains a !! k = Some vs → v ∈ vs → (rv_xid v < x)%N.

Definition spec_run (ops : list op) (a : SpecStore) : SpecStore :=
  fold_left (fun a o => spec_step o a) ops a.

Lemma tx_step_shape x w a :
  sp_intents a !! tx_key w = None ∨ sp_intents a !! tx_key w = Some x →
  ∃ m', spec_run (tx_ops_of x w) a
        = mkSpecStore m' (sp_next a) (<[tx_key w := x]> (sp_intents a)) ∧
    (m' = sp_chains a ∧ sp_chains a !! tx_key w = None ∧ tx_value w = None ∨
     ∃ v, m' = spec_push (tx_key w) v (sp_chains a) ∧ rv_xid v = x ∧
          tx_value w = if rv_deleted v then None else Some (rv_data v)).
Proof.
  intros Hfree. destruct a as [m n i]. simpl in *.
  assert ((match i !! tx_key w with
           | Some o => if decide (o = x) then <[tx_key w:=x]> i else i
           | None => <[tx_key w:=x]> i end) = <[tx_key w:=x]> i) as Hi.
  { destruct Hfree as [->| ->]; [done|]. by rewrite decide_True. }
  destruct w as [k d|k]; simpl in *; rewrite Hi.
  - eexists. split; [done|]. right. by eexists.
  - eexists. split; [done|]. case_decide as Hd.
    + right. by eexists.
    + left. split_and!; [done| |done]. by rewrite <- eq_None_not_Some in Hd.
Qed.

Lemma effective_snapshot_insert_ne i k k' x snap r :
  k ≠ k' → effective_snapshot (<[k := x]> i) k' snap r = effective_snapshot i k' snap r.
Proof. intros. unfold effective_snapshot. by rewrite lookup_insert_ne. Qed.

Lemma effective_snapshot_foreign i k x snap r :
  i !! k = Some x → r ≠ x → effective_snapshot i k snap r = N.min snap (x - 1).
Proof.
  intros Hk Hr. unfold effective_snapshot. rewrite Hk.
  by destruct (N.eqb_spec x r) as [->|].
Qed.

(** One locked write of [x], seen by another reader and by [x] itself. *)
Lemma tx_step_spec x w a :
  (0 < x)%N → older_than x a →
  sp_intents a !! tx_key w = None ∨ sp_intents a !! tx_key w = Some x →
  let a' := spec_run (tx_ops_of x w) a in
  older_than x a' ∧ sp_next a' = sp_next a ∧
  sp_intents a' = <[tx_key w := x]> (sp_intents a) ∧
  (∀ k snap r, r ≠ x → spec_read_committed k snap r a' = spec_read_committed k snap r a) ∧
  (∀ k snap, (x <= snap)%N → spec_read k snap (sp_chains a')
     = if decide (tx_key w = k) then tx_value w else spec_read k snap (sp_chains a)).
Proof.
  intros Hx Hold Hfree. destruct (tx_step_shape x w a Hfree) as (m' & -> & Hm').
  simpl. split_and!.
  - intros k. simpl. destruct (decide (tx_key w = k)) as [<-|Hne].
    { left. by rewrite lookup_insert_eq. }
    rewrite lookup_insert_ne by done. destruct (Hold k) as [?|Hlt]; [by left|right].
    destruct Hm' as [[-> _]|(v & -> & _)]; [done|].
    unfold spec_push. by rewrite lookup_insert_ne.
  - done.
  - done.
  - intros k snap r Hr. unfold spec_read_committed. simpl.
    destruct (decide (tx_key w = k)) as [<-|Hne].
    + rewrite effective_snapshot_foreign with (x := x) by (by rewrite ?lookup_insert_eq).
      transitivity (spec_read (tx_key w) (N.min snap (x - 1)) (sp_chains a)).
      { destruct Hm' as [[-> _]|(v & -> & Hv & _)]; [done|].
        apply spec_read_push_old. lia. }
      destruct Hfree as [Hnone|Hmine].
      * unfold effective_snapshot. rewrite Hnone. apply spec_read_min.
        intros vs v Hvs Hv. destruct (Hold (tx_key w)) as [?|Hlt]; [congruence|].
        specialize (Hlt vs v Hvs Hv). lia.
      * by rewrite (effective_snapshot_foreign _ _ x).
    + rewrite effective_snapshot_insert_ne by done.
      destruct Hm' as [[-> _]|(v & -> & _)]; [done|]. by apply spec_read_push_ne.
  - intros k snap Hsnap. destruct Hm' as [(-> & Hno & ->)|(v & -> & Hv & ->)].
    + case_decide; subst; [by apply spec_read_missing|done].
    + case_decide as Hk; subst; [by apply spec_read_push_new|by apply spec_read_push_ne].
Qed.

Lemma spec_run_cons x w ws a :
  spec_run (tx_ops x (w :: ws)) a = spec_run (tx_ops x ws) (spec_run (tx_ops_of x w) a).
Proof. unfold spec_run, tx_ops. simpl. by rewrite fold_left_app. Qed.

Lemma tx_run_spec x ws a :
  (0 < x)%N → older_than x a →
  (∀ w, w ∈ ws → sp_intents a !! tx_key w = None ∨ sp_intents a !! tx_key w = Some x) →
  let a' := spec_run (tx_ops x ws) a in
  (∀ k, sp_intents a' !! k =
     if decide (k ∈ map tx_key ws) then Some x else sp_intents a !! k) ∧
  (∀ k snap r, r ≠ x → spec_read_committed k snap r a' = spec_read_committed k snap r a) ∧
  (∀ k snap, (x <= snap)%N → spec_read k snap (sp_chains a')
     = tx_effect k ws (spec_read k snap (sp_chains a))).
Proof.
  intros Hx. revert a. induction ws as [|w ws IH]; intros a Hold Hfree; [done|].
  rewrite spec_run_cons.
  destruct (tx_step_spec x w a Hx Hold) as (Hold1 & Hn1 & Hi1 & Hr1 & Hc1);
    [apply Hfree; set_solver|].
  destruct (IH (spec_run (tx_ops_of x w) a) Hold1) as (Hi & Hr & Hc).
  { intros w' Hw'. rewrite Hi1. destruct (decide (tx_key w = tx_key w')) as [->|Hne].
    - right. by rewrite lookup_insert_eq.
    - rewrite lookup_insert_ne by done. apply Hfree. set_solver. }
  cbv zeta. split_and!.
  - intros k. rewrite Hi, Hi1. simpl.
    destruct (decide (k ∈ map tx_key ws)) as [Hin|Hin].
    + by rewrite decide_True by set_solver.
    + destruct (decide (tx_key w = k)) as [<-|Hne].
      * by rewrite lookup_insert_eq, decide_True by set_solver.
      * by rewrite lookup_insert_ne, decide_False by set_solver.
  - intros k snap r Hne. by rewrite Hr, Hr1.
  - intros k snap Hs. rewrite Hc, Hc1 by done. done.
Qed.

Lemma tx_run_untouched x ws a k :
  k ∉ map tx_key ws → sp_chains (spec_run (tx_ops x ws) a) !! k = sp_chains a !! k.
Proof.
  revert a. induction ws as [|w ws IH]; intros a Hk; [done|].
  rewrite spec_run_cons, IH by set_solver. destruct a as [m n i].
  assert (tx_key w ≠ k) as Hne by set_solver.
  destruct w as [k' d|k']; simpl in *; [|case_decide; [|done]];
    unfold spec_push; by rewrite lookup_insert_ne.
Qed.

(** Releasing [x]'s intents after the transaction leaves the intents as they
    were before it. *)
Lemma release_restores_intents x (keys : list string) (i i' : gmap string N) :
  (∀ k, i' !! k = if decide (k ∈ keys) then Some x else i !! k) →
  (∀ k, k ∈ keys → i !! k = None) → (∀ k o, i !! k = Some o → o ≠ x) →
  filter (fun kv => kv.2 ≠ x) i' = i.
Proof.
  intros Hi' Hfree Hx. apply map_eq. intros k. rewrite map_lookup_filter, Hi'.
  case_decide as Hk; simpl.
  - rewrite Hfree by done. by rewrite option_guard_False by naive_solver.
  - destruct (i !! k) as [o|] eqn:Ho; [|done]. simpl.
    by rewrite option_guard_True by (by apply (Hx k)).
Qed.

Lemma tx_start_spec s :
  xid_fresh s →
  older_than (next_xid s) (spec_step OpBeginXid (abs_store s)).
Proof. intros (_ & Hv & _) k. right. intros vs v Hvs Hin. by eapply Hv. Qed.

(** C15: no dirty reads.  A transaction that allocates its xid, takes a write
    intent on every key it touches and then inserts or deletes changes nothing
    that any other reader sees through [read_committed], at any snapshot, until
    it releases its intents; the transaction itself sees its own last write. *)
Theorem no_dirty_reads (s : PagedRowStore) (ws : list tx_write) :
  wf s → max_rows_cap s = 0 → xid_fresh s →
  (∀ w, w ∈ ws → write_intents s !! tx_key w = None) →
  let x := (begin_xid s).1 in
  ∃ s', run (OpBeginXid :: tx_ops x ws) s = Some s' ∧
    (∀ k snap r, r ≠ x → read_committed k snap r s' = read_committed k snap r s) ∧
    (∀ k snap, k ∈ map tx_key ws → (x <= snap)%N →
       read_committed k snap x s' = tx_effect k ws (read_at_snapshot k snap s)).
Proof.
  intros Hwf Hcap Hfresh Hfree. cbv zeta. simpl fst. set (x := next_xid s).
  destruct (run_simulates (OpBeginXid :: tx_ops x ws) s (abs_store s))
    as (s' & Hrun & _ & _ & Habs); [done|].
  destruct (tx_run_spec x ws (spec_step OpBeginXid (abs_store s))) as (Hi & Hr & Hc).
  { apply Hfresh. } { by apply tx_start_spec. } { intros w Hw. left. by apply Hfree. }
  cbn [fold_left] in Habs.
  change (abs_store s' = spec_run (tx_ops x ws) (spec_step OpBeginXid (abs_store s))) in Habs.
  exists s'. split_and!; [done|..].
  - intros k snap r Hne. by rewrite !read_committed_spec, Habs, Hr.
  - intros k snap Hk Hsnap. rewrite read_committed_spec, Habs, read_at_snapshot_spec.
    unfold spec_read_committed, effective_snapshot.
    by rewrite Hi, decide_True, N.eqb_refl, Hc by done.
Qed.

Lemma no_dirty_reads_witness :
  ∃ s', run (OpBeginXid :: tx_ops 1 [TxPut "a" ∅])
            (mkPagedRowStore [page_new 0] 2 1 1 ∅ 0) = Some s' ∧
    read_committed "a" 9 0 s' = None ∧ read_committed "a" 9 1 s' = Some ∅.
Proof.
  destruct (no_dirty_reads (mkPagedRowStore [page_new 0] 2 1 1 ∅ 0) [TxPut "a" ∅])
    as (s' & Hrun & Ho & Hm).
  - apply empty_page_wf. lia.
  - done.
  - split_and!; [done|set_solver|set_solver].
  - done.
  - exists s'. split; [exact Hrun|]. split.
    + rewrite Ho; [reflexivity|done].
    + rewrite Hm; [reflexivity|set_solver|simpl; lia].
Defined.

(** Atomic commit.  Once the transaction releases its intents, every reader
    whose snapshot includes it sees, for every key, the transaction's last
    write to the key, or the value it saw before when the key was not written. *)
Theorem commit_becomes_visible (s : PagedRowStore) (ws : list tx_write) :
  wf s → max_rows_cap s = 0 → xid_fresh s →
  (∀ w, w ∈ ws → write_intents s !! tx_key w = None) →
  let x := (begin_xid s).1 in
  ∃ s', run (OpBeginXid :: tx_ops x ws ++ [OpRelease x]) s = Some s' ∧
    write_intents s' = write_intents s ∧
    ∀ k snap r, (x <= snap)%N →
      read_committed k snap r s' =
      (if decide (k ∈ map tx_key ws) then tx_effect k ws (read_at_snapshot k snap s)
       else read_committed k snap r s).
Proof.
  intros Hwf Hcap Hfresh Hfree. cbv zeta. simpl fst. set (x := next_xid s).
  destruct (run_simulates (OpBeginXid :: tx_ops x ws ++ [OpRelease x]) s (abs_store s))
    as (s' & Hrun & _ & _ & Habs); [done|].
  destruct (tx_run_spec x ws (spec_step OpBeginXid (abs_store s))) as (Hi & Hr & Hc).
  { apply Hfresh. } { by apply tx_start_spec. } { intros w Hw. left. by apply Hfree. }
  cbn [fold_left] in Habs. rewrite fold_left_app in Habs. cbn [fold_left] in Habs.
  change (abs_store s' = spec_step (OpRelease x)
    (spec_run (tx_ops x ws) (spec_step OpBeginXid (abs_store s)))) in Habs.
  pose proof (tx_run_untouched x ws (spec_step OpBeginXid (abs_store s))) as Hun.
  set (a1 := spec_run (tx_ops x ws) (spec_step OpBeginXid (abs_store s))) in *.
  assert (write_intents s' = write_intents s ∧ abs s' = sp_chains a1) as [Hw Hch].
  { destruct a1 as [m1 n1 i1]. injection Habs as Hm _ ->. split; [|done].
    destruct Hfresh as (_ & _ & Hlt).
    apply (release_restores_intents x (map tx_key ws)); [exact Hi| |].
    - intros k (w & -> & Hin)%list_elem_of_fmap. by apply Hfree.
    - intros k o Ho%Hlt. unfold x. lia. }
  exists s'. split_and!; [done|done|]. intros k snap r Hsnap.
  unfold read_committed. rewrite Hw, !read_at_snapshot_spec, Hch. case_decide as Hk.
  - apply list_elem_of_fmap in Hk as (w & -> & Hin). unfold effective_snapshot.
    rewrite Hfree by done. by apply Hc.
  - unfold spec_read. by rewrite Hun.
Qed.

Lemma commit_becomes_visible_witness :
  ∃ s', run (OpBeginXid :: tx_ops 1 [TxPut "a" ∅; TxDel "b"] ++ [OpRelease 1])
            (mkPagedRowStore [page_new 0] 2 1 1 ∅ 0) = Some s' ∧
    read_committed "a" 9 0 s' = Some ∅ ∧ read_committed "b" 9 0 s' = None.
Proof.
  destruct (commit_becomes_visible (mkPagedRowStore [page_new 0] 2 1 1 ∅ 0)
              [TxPut "a" ∅; TxDel "b"]) as (s' & Hrun & _ & Hr).
  - apply empty_page_wf. lia.
  - done.
  - split_and!; [done|set_solver|set_solver].
  - done.
  - exists s'. split; [exact Hrun|].
    rewrite !Hr by (simpl; lia). rewrite !decide_True by set_solver. by split.
Defined.

(** ** Write-write conflicts *)

(** Operations that may end the intents of [x]. *)
Definition may_release (x : N) (o : op) : Prop :=
  match o with OpRelease y => y = x | OpReplaceAll _ => True | _ => False end.

Lemma spec_step_keeps_intent x k o a :
  ¬ may_release x o → sp_intents a !! k = Some x → sp_intents (spec_step o a) !! k = Some x.
Proof.
  destruct a as [m n i]. destruct o as [| | |y k'|y| |]; simpl; intros Ho Hk; try done.
  - destruct (decide (k' = k)) as [->|Hne].
    + rewrite Hk. case_decide; [subst; by rewrite lookup_insert_eq|done].
    + destruct (i !! k') as [o|]; [case_decide; [|done]|]; by rewrite lookup_insert_ne.
  - apply map_lookup_filter_Some. simpl. split; [done|congruence].
Qed.

Lemma spec_run_keeps_intent x k ops a :
  Forall (fun o => ¬ may_release x o) ops →
  sp_intents a !! k = Some x → sp_intents (spec_run ops a) !! k = Some x.
Proof.
  revert a. induction ops as [|o ops IH]; intros a Hall Hk; [done|].
  apply Forall_cons in Hall as [Ho Hall].
  apply IH; [done|]. by apply spec_step_keeps_intent.
Qed.

(** Write-write exclusion.  After [begin_write_intent x k] succeeds, and
    whatever operations follow short of releasing [x] or replacing the store,
    every other transaction that asks for the intent is refused with [x] as the
    blocking xid and leaves the store unchanged, while [x] may re-acquire it. *)
Theorem write_intent_exclusive (s s1 : PagedRowStore) (x : N) (k : string) (ops : list op) :
  wf s → max_rows_cap s = 0 →
  begin_write_intent x k s = (Ok tt, s1) →
  Forall (fun o => ¬ may_release x o) ops →
  ∃ s2, run ops s1 = Some s2 ∧
    (∀ y, y ≠ x → begin_write_intent y k s2 = (Err x, s2)) ∧
    (begin_write_intent x k s2).1 = Ok tt.
Proof.
  intros Hwf Hcap Hbegin Hops.
  destruct (step_simulates (OpIntent x k) s (abs_store s)) as (s1' & Hs1 & Hsim); [done|].
  simpl in Hs1. rewrite Hbegin in Hs1. injection Hs1 as <-.
  assert (write_intents s1 !! k = Some x) as Hk.
  { unfold begin_write_intent in Hbegin.
    destruct (write_intents s !! k) as [o|]; [destruct (o =? x)%N|];
      simplify_eq/=; by rewrite lookup_insert_eq. }
  assert (simulates s1 (abs_store s1)) as Hsim1 by (by destruct Hsim as (? & ? & _)).
  destruct (run_simulates ops s1 _ Hsim1) as (s2 & Hrun & _ & _ & Habs).
  assert (write_intents s2 !! k = Some x) as Hk2.
  { change (write_intents s2) with (sp_intents (abs_store s2)). rewrite Habs.
    by apply spec_run_keeps_intent. }
  exists s2. unfold begin_write_intent. rewrite Hk2, N.eqb_refl. split_and!; [done| |done].
  intros y Hy. by destruct (N.eqb_spec x y).
Qed.

Lemma write_intent_exclusive_witness :
  ∃ s2, run [OpRelease 7; OpInsert 1 "a" ∅]
            (begin_write_intent 1 "a" (mkPagedRowStore [page_new 0] 2 1 1 ∅ 0)).2 = Some s2 ∧
    begin_write_intent 2 "a" s2 = (Err 1%N, s2).
Proof.
  edestruct (write_intent_exclusive (mkPagedRowStore [page_new 0] 2 1 1 ∅ 0)
     (begin_write_intent 1 "a" (mkPagedRowStore [page_new 0] 2 1 1 ∅ 0)).2 1 "a"
     [OpRelease 7; OpInsert 1 "a" ∅]) as (s2 & Hrun & Ho & _).
  - apply empty_page_wf. lia.
  - done.
  - reflexivity.
  - repeat constructor; simpl; [done|tauto].
  - exists s2. split; [exact Hrun|]. by apply Ho.
Defined.

(** Chains only grow while the store is not replaced. *)
Lemma spec_run_chain_grows ops a k v vs :
  Forall (fun o => match o with OpReplaceAll _ => False | _ => True end) ops →
  sp_chains a !! k = Some vs → v ∈ vs →
  ∃ vs', sp_chains (spec_run ops a) !! k = Some vs' ∧ v ∈ vs'.
Proof.
  assert (∀ k' v' (m : chains) vs, m !! k = Some vs → v ∈ vs →
    ∃ vs', spec_push k' v' m !! k = Some vs' ∧ v ∈ vs') as Hpush.
  { intros k' v' m vs0 Hm Hv. unfold spec_push. destruct (decide (k' = k)) as [->|Hne].
    - rewrite lookup_insert_eq, Hm. eexists. split; [done|]. simpl. set_solver.
    - rewrite lookup_insert_ne by done. eauto. }
  intros Hops. revert a vs. induction ops as [|o ops IH]; intros a vs Hk Hv; [by exists vs|].
  apply Forall_cons in Hops as [Ho Hops].
  assert (∃ vs1, sp_chains (spec_step o a) !! k = Some vs1 ∧ v ∈ vs1) as (vs1 & Hk1 & Hv1).
  { destruct a as [m n i]. destruct o; simpl in *; try (by exists vs); try done.
    - by eapply Hpush.
    - case_decide; [by eapply Hpush|by exists vs]. }
  by apply (IH Hops _ vs1).
Qed.

Lemma was_modified_after_iff k since s :
  was_modified_after k since s = true ↔
  ∃ vs v, abs s !! k = Some vs ∧ v ∈ vs ∧ (since < rv_xid v)%N.
Proof.
  unfold was_modified_after. rewrite abs_lookup.
  destruct (first_row k (pages s)) as [r|]; simpl; [|naive_solver].
  rewrite existsb_exists. setoid_rewrite <- list_elem_of_In. setoid_rewrite N.ltb_lt. naive_solver.
Qed.

(** Optimistic conflict detection.  [was_modified_after k since] is exact:
    it holds iff the chain of [k] has a version with an xid above [since].  In
    particular a write by a later transaction is detected however many further
    operations follow it. *)
Theorem conflict_detection_exact (s : PagedRowStore) (k : string) (since y : N)
    (d : RowData) (ops : list op) :
  wf s → max_rows_cap s = 0 → (since < y)%N →
  Forall (fun o => match o with OpReplaceAll _ => False | _ => True end) ops →
  (was_modified_after k since s = true ↔
     ∃ vs v, abs s !! k = Some vs ∧ v ∈ vs ∧ (since < rv_xid v)%N) ∧
  ∃ s', run (OpInsert y k d :: ops) s = Some s' ∧ was_modified_after k since s' = true.
Proof.
  intros Hwf Hcap Hy Hops. split; [apply was_modified_after_iff|].
  destruct (run_simulates (OpInsert y k d :: ops) s (abs_store s))
    as (s' & Hrun & _ & _ & Habs); [done|].
  exists s'. split; [done|]. apply was_modified_after_iff.
  change (abs s') with (sp_chains (abs_store s')). rewrite Habs.
  destruct (spec_run_chain_grows ops (spec_step (OpInsert y k d) (abs_store s)) k
    (mkRowVersion y false d) (default [] (abs s !! k) ++ [mkRowVersion y false d]))
    as (vs' & Hvs' & Hin); [done| |set_solver|].
  - simpl. unfold spec_push. by rewrite lookup_insert_eq.
  - exists vs', (mkRowVersion y false d). split_and!; done.
Qed.

Lemma conflict_detection_exact_witness :
  ∃ s', run [OpInsert 5 "a" ∅; OpDelete 6 "a"] (mkPagedRowStore [page_new 0] 2 1 7 ∅ 0)
        = Some s' ∧ was_modified_after "a" 4 s' = true.
Proof.
  apply (conflict_detection_exact (mkPagedRowStore [page_new 0] 2 1 7 ∅ 0) "a" 4 5 ∅
           [OpDelete 6 "a"]).
  - apply empty_page_wf. lia.
  - done.
  - lia.
  - by repeat constructor.
Defined.

(** ** Snapshot transfer *)

Lemma spec_insert_all_notin x rows m k :
  k ∉ map fst rows → spec_insert_all x rows m !! k = m !! k.
Proof.
  unfold spec_insert_all. revert m. induction rows as [|[k' d] rows IH]; intros m Hk; [done|].
  simpl. rewrite IH by set_solver. unfold spec_push. rewrite lookup_insert_ne; [done|set_solver].
Qed.

Lemma spec_insert_all_lookup x rows m k d :
  NoDup (map fst rows) → m !! k = None → (k, d) ∈ rows →
  spec_insert_all x rows m !! k = Some [mkRowVersion x false d].
Proof.
  revert m. induction rows as [|[k' d'] rows IH]; intros m Hnd Hm Hin; [set_solver|].
  apply NoDup_cons in Hnd as [Hni Hnd]. change (k' ∉ map fst rows) in Hni.
  change (spec_insert_all x rows (spec_push k' (mkRowVersion x false d') m) !! k
          = Some [mkRowVersion x false d]).
  apply elem_of_cons in Hin as [[= <- <-]|Hin].
  - rewrite spec_insert_all_notin by done. unfold spec_push. by rewrite lookup_insert_eq, Hm.
  - apply IH; [done| |done]. unfold spec_push. rewrite lookup_insert_ne; [done|].
    intros ->. apply Hni. by apply (list_elem_of_fmap_2 fst) in Hin.
Qed.

(** Snapshot installation round trip.  Replacing a follower's store [t]
    (whatever it contained) by the export of a leader's store [s] makes every
    latest read of the follower return what the leader's latest read returns;
    the follower's intents are dropped, its xid counter moves forward, and
    nothing is visible at the follower's older snapshots. *)
Theorem install_exported_snapshot (s t : PagedRowStore) :
  wf s → wf t → max_rows_cap t = 0 → (next_xid t < u64_max)%N →
  ∃ t', replace_all (export_rows_snapshot s) t = Some t' ∧ wf t' ∧
    write_intents t' = ∅ ∧ next_xid t' = (next_xid t + 1)%N ∧
    (∀ k, read_latest k t' = read_latest k s) ∧
    (∀ k x, (x < next_xid t)%N → read_at_snapshot k x t' = None).
Proof.
  intros Hwf Hwft Hcap Hnext.
  destruct (step_simulates (OpReplaceAll (export_rows_snapshot s)) t (abs_store t))
    as (t' & Hrun & Hwf' & _ & Habs); [done|].
  injection Habs as Hch Hn Hw.
  assert (u64_add (next_xid t) 1 = next_xid t + 1)%N as Hadd.
  { unfold u64_add. apply N.mod_small. unfold u64_max, u64_modulus in *. lia. }
  destruct (scan_pages_iff (fun r => visible_at r (current_xid s)) s Hwf) as [Hnd Hiff].
  change (scan_pages (fun r => visible_at r (current_xid s)) (pages s))
    with (export_rows_snapshot s) in *.
  assert (∀ k d, (k, d) ∈ export_rows_snapshot s ↔ read_latest k s = Some d) as Hexp.
  { intros k d. rewrite Hiff. symmetry. apply read_at_snapshot_Some. }
  assert (∀ k x, read_at_snapshot k x t' =
    if decide (next_xid t <= x)%N then read_latest k s else None) as Hread.
  { intros k x. rewrite read_at_snapshot_spec, Hch. unfold spec_read.
    destruct (read_latest k s) as [d|] eqn:Hd.
    - rewrite (spec_insert_all_lookup _ _ _ k d); [|done|done|by apply Hexp].
      unfold spec_visible. rewrite filter_cons, filter_nil. simpl. by case_decide.
    - rewrite spec_insert_all_notin; [by case_decide|].
      intros ([k' d] & -> & Hin)%list_elem_of_fmap. apply Hexp in Hin. simpl in Hd. congruence. }
  exists t'. split_and!; try done.
  - by rewrite Hn.
  - intros k. unfold read_latest at 1. rewrite Hread, decide_True; [done|].
    rewrite Hn, Hadd. unfold saturating_sub. lia.
  - intros k x Hx. by rewrite Hread, decide_False by lia.
Qed.

Lemma install_exported_snapshot_witness :
  ∃ t', replace_all (export_rows_snapshot
            (mkPagedRowStore [mkStorePage 0 [mkMvccRow "a" [mkRowVersion 1 false ∅]]] 4 1 2 ∅ 0))
          (mkPagedRowStore [page_new 0] 2 1 9 ∅ 0) = Some t' ∧ read_latest "a" t' = Some ∅.
Proof.
  destruct (install_exported_snapshot
    (mkPagedRowStore [mkStorePage 0 [mkMvccRow "a" [mkRowVersion 1 false ∅]]] 4 1 2 ∅ 0)
    (mkPagedRowStore [page_new 0] 2 1 9 ∅ 0)) as (t' & Hr & _ & _ & _ & Hl & _).
  - constructor; simpl; [done|lia| | |].
    + repeat constructor; unfold page_len; simpl; lia.
    + apply NoDup_singleton.
    + by repeat constructor.
  - apply empty_page_wf. lia.
  - done.
  - unfold u64_max. simpl. lia.
  - exists t'. split; [exact Hr|]. by rewrite Hl.
Defined.

(** ** Eviction *)

Lemma evicted_subseteq s : wf s → abs (maybe_evict s) ⊆ abs s.
Proof.
  intros Hwf. unfold maybe_evict. destruct (max_rows_cap s =? 0)%nat; [done|].
  destruct (evict_pages_suffix (max_rows_cap s) (pages s)) as (_ & [gone Hgone] & _);
    [apply Hwf|].
  unfold abs. simpl. rewrite Hgone at 2. rewrite all_rows_app, map_app, list_to_map_app.
  apply map_union_subseteq_r. apply map_disjoint_spec. intros k v1 v2 H1 H2.
  pose proof (wf_keys _ Hwf) as Hnd. rewrite Hgone, all_rows_app, map_app in Hnd.
  apply NoDup_app in Hnd as (_ & Hdisj & _).
  apply elem_of_list_to_map_2 in H1, H2.
  apply (list_elem_of_fmap_2 fst) in H1, H2. rewrite <- list_fmap_compose in H1, H2.
  by apply (Hdisj k).
Qed.

Lemma evict_last_page s r ps :
  push_last r (pages s) = Some ps → pages s ≠ [] →
  r ∈ all_rows (evict_pages (max_rows_cap s) ps).
Proof.
  intros Hpush Hne. destruct (push_last_spec r (pages s) Hne) as (qs & p & _ & Hpush').
  rewrite Hpush in Hpush'. injection Hpush' as ->.
  destruct (evict_pages_suffix (max_rows_cap s)
    (qs ++ [mkStorePage (page_id p) (page_rows p ++ [r])])) as (Hne' & [gone Hgone] & _);
    [by destruct qs|].
  destruct (exists_last Hne') as (kept & q & Hkept). rewrite Hkept in Hgone |- *.
  rewrite app_assoc in Hgone. apply app_inj_tail in Hgone as [_ <-].
  rewrite all_rows_app. unfold all_rows at 2. simpl. set_solver.
Qed.

Lemma maybe_evict_fifo s :
  wf s → max_rows_cap s ≠ 0 →
  ∃ gone, pages s = gone ++ pages (maybe_evict s) ∧
    (total_row_count (maybe_evict s) <= max_rows_cap s ∨ page_count (maybe_evict s) = 1) ∧
    (∀ p gone', gone = gone' ++ [p] →
       max_rows_cap s < total_rows (p :: pages (maybe_evict s))).
Proof.
  intros Hwf Hcap. unfold maybe_evict. destruct (Nat.eqb_spec (max_rows_cap s) 0); [done|].
  destruct (evict_pages_suffix (max_rows_cap s) (pages s)) as (_ & [gone Hgone] & Hbound);
    [apply Hwf|].
  exists gone. split_and!; [done|done|]. by apply evict_pages_minimal.
Qed.

(** [insert] of a new key places its row on the tail page, which survives. *)
Lemma insert_new_key_kept x key d s s' :
  wf s → abs s !! key = None → insert x key d s = Some s' →
  abs s' !! key = Some [mkRowVersion x false d].
Proof.
  intros Hwf Hnone Hins. destruct (insert_wf x key d s Hwf) as (s'' & Hs'' & Hwf' & _).
  rewrite Hins in Hs''. injection Hs'' as <-. unfold insert in Hins.
  pose proof (update_first_spec key (push_version x false d) (pages s)) as Hsp.
  destruct (update_first _ _ _) as [ps|] eqn:Hup.
  { destruct (update_first_abs _ _ _ _ _ _ Hup) as [[? Hc] _]. congruence. }
  destruct (ensure_tail_wf s Hwf) as (Hwf1 & _ & _ & _).
  destruct (push_last _ _) as [ps|] eqn:Hpush; [|done]. injection Hins as <-.
  assert (mkMvccRow key [mkRowVersion x false d]
    ∈ all_rows (pages (maybe_evict (set_pages ps (ensure_tail_capacity s))))) as Hin.
  { unfold maybe_evict. destruct (Nat.eqb_spec (max_rows_cap (set_pages ps (ensure_tail_capacity s))) 0).
    - simpl. destruct (push_last_spec (push_version x false d (row_new key))
        (pages (ensure_tail_capacity s)) (wf_pages _ Hwf1)) as (qs & p & _ & Hpush').
      rewrite Hpush in Hpush'. injection Hpush' as ->.
      rewrite all_rows_app. unfold all_rows at 2. simpl. set_solver.
    - apply (evict_last_page _ _ _ Hpush), Hwf1. }
  unfold abs. apply elem_of_list_to_map_1.
  - rewrite <- list_fmap_compose. apply (wf_keys _ Hwf').
  - by apply (list_elem_of_fmap_2 row_pair) in Hin.
Qed.

(** Bounded memory with FIFO eviction.  With a row cap set, an insert never
    panics and keeps the invariant; the written key ends with its old chain plus
    the new version; every surviving chain is the one the uncapped specification
    has; when a row was added, the dropped pages are the oldest ones, only as
    many as needed, and afterwards the row count is within the cap or a single
    page is left. *)
Theorem capped_insert_evicts_fifo (s : PagedRowStore) (x : N) (key : string) (d : RowData) :
  wf s → max_rows_cap s ≠ 0 →
  ∃ s1 s', insert x key d s = Some s' ∧ wf s' ∧
    abs s1 = spec_push key (mkRowVersion x false d) (abs s) ∧
    abs s' ⊆ abs s1 ∧ abs s' !! key = abs s1 !! key ∧
    (abs s !! key = None →
     ∃ gone, pages s1 = gone ++ pages s' ∧
       (total_row_count s' <= max_rows_cap s ∨ page_count s' = 1) ∧
       (∀ p gone', gone = gone' ++ [p] → max_rows_cap s < total_rows (p :: pages s'))).
Proof.
  intros Hwf Hcap.
  destruct (insert_raw x key d s Hwf) as (s1 & Hwf1 & Habs & _ & _ & _ & Hc & Hins).
  destruct Hins as [[Hin Hins]|[Hnone Hins]].
  - exists s1, s1. split_and!; try done. intros Hnone. rewrite Hnone in Hin. by destruct Hin.
  - exists s1, (maybe_evict s1). split_and!; [done|by apply maybe_evict_wf|done|..].
    + by apply evicted_subseteq.
    + rewrite (insert_new_key_kept _ _ _ _ _ Hwf Hnone Hins), Habs.
      unfold spec_push. by rewrite lookup_insert_eq, Hnone.
    + intros _. rewrite <- Hc. apply maybe_evict_fifo; congruence.
Qed.

Lemma capped_insert_evicts_fifo_witness :
  ∃ s', insert 2 "b" ∅
     (mkPagedRowStore [mkStorePage 0 [mkMvccRow "a" [mkRowVersion 1 false ∅]]] 1 1 3 ∅ 1)
     = Some s' ∧ total_row_count s' = 1 ∧ read_at_snapshot "a" 2 s' = None.
Proof.
  destruct (capped_insert_evicts_fifo
     (mkPagedRowStore [mkStorePage 0 [mkMvccRow "a" [mkRowVersion 1 false ∅]]] 1 1 3 ∅ 1)
     2 "b" ∅) as (s1 & s' & Hins & _).
  - constructor; simpl; [done|lia| | |].
    + repeat constructor; unfold page_len; simpl; lia.
    + apply NoDup_singleton.
    + by repeat constructor.
  - done.
  - exists s'. split; [exact Hins|]. vm_compute in Hins. injection Hins as <-. by vm_compute.
Defined.
