(* ===== verification/Tail.v ===== *)
(** * Tail versions: the [TailStore] interface, its implementation by the row
      store, and the bridging row type ([traits.rs], [segment.rs], [mvcc.rs]) *)

From S2P Require Import Prelude Str Decimal Mvcc MvccSpec.
Open Scope string_scope.
Open Scope list_scope.
Open Scope N_scope.
Open Scope vng_scope.
Import Dec.

Module Tail.

(** ** Versions *)

Record TailVersion := mkTailVersion {
  row_id : N;
  version_id : N;
  begin_ts : N;
  end_ts : option N;
  prev_version : option N;
  tombstone : bool;
  payload : string;
}.

Definition tail_version_new (r v b : N) (p : string) : TailVersion :=
  mkTailVersion r v b None None false p.

Definition tail_version_tombstone (r v d : N) : TailVersion :=
  mkTailVersion r v d (Some d) None true "".

(** ** [MvccRowV2] *)

Record MvccRowV2 := mkRowV2 {
  v2_key : string;
  v2_versions : list RowStore.RowVersion;
  v2_version_index : gmap N nat;
}.

Definition v2_new (key : string) : MvccRowV2 := mkRowV2 key [] ∅.

(** [xid_to_commit_ts] and its inverse are the identity on the numbers. *)
Definition xid_to_commit_ts (x : N) : N := x.
Definition commit_ts_to_xid (ts : N) : N := ts.
Definition snapshot_ts_to_xid (ts : N) : N := ts.

Fixpoint v2_walk (vs : list RowStore.RowVersion) (snapshot_ts : N) : option RowStore.RowVersion :=
  match vs with
  | [] => None
  | v :: vs' =>
      if xid_to_commit_ts (RowStore.rv_xid v) <=? snapshot_ts
      then (if RowStore.rv_deleted v then None else Some v)
      else v2_walk vs' snapshot_ts
  end.

Definition get_latest_tail_version (snapshot_ts : N) (r : MvccRowV2) : option RowStore.RowVersion :=
  v2_walk (reverse (v2_versions r)) snapshot_ts.

Definition get_tail_version_chain (r : MvccRowV2) : list RowStore.RowVersion :=
  reverse (v2_versions r).

Definition append_tail_version (v : RowStore.RowVersion) (r : MvccRowV2)
    : result unit string * MvccRowV2 :=
  let len := length (v2_versions r) in
  (Ok tt, mkRowV2 (v2_key r) (v2_versions r ++ [v]) (<[N.of_nat len := len]> (v2_version_index r))).

Definition delete_at_ts (delete_ts : N) (r : MvccRowV2) : result unit string * MvccRowV2 :=
  match v2_versions r with
  | [] => (Err "Row is empty", r)
  | _ => append_tail_version (RowStore.mkRowVersion delete_ts true ∅) r
  end.

Definition v2_is_visible_at (snapshot_ts : N) (r : MvccRowV2) : bool :=
  match get_latest_tail_version snapshot_ts r with Some _ => true | None => false end.

(** ** The interface *)

(** Writes may panic ([None]). *)
Class TailStore (T : Type) := {
  insert_version : N -> TailVersion -> T -> option (result unit string * T);
  get_latest_version : N -> N -> T -> result (option TailVersion) string;
  get_version_chain : N -> T -> result (list TailVersion) string;
  delete_row : N -> N -> T -> option (result unit string * T);
}.

(** What a client sees of a version: commit timestamp, deletion flag, payload. *)
Definition version_view (v : TailVersion) : N * bool * string :=
  (begin_ts v, tombstone v, payload v).

Definition chain_view {T} `{!TailStore T} (r : N) (t : T) : list (N * bool * string) :=
  match get_version_chain r t with Ok vs => map version_view vs | Err _ => [] end.

(** The latest version at or before the snapshot, unless it is a tombstone. *)
Definition visible_payload (ts : N) (vs : list (N * bool * string)) : option string :=
  match last (filter (fun v => v.1.1 <= ts) vs) with
  | Some (_, del, p) => if del : bool then None else Some p
  | None => None
  end.

(** The promises of the interface, for stores that satisfy [ok]. *)
Class TailStoreSpec (T : Type) `{!TailStore T} (ok : T -> Prop) : Prop := {
  insert_version_spec : ∀ r v t, ok t → tombstone v = false → utf8 (payload v) →
    ∃ t', insert_version r v t = Some (Ok tt, t') ∧ ok t' ∧
      ∀ r', chain_view r' t'
        = if decide (r = r') then chain_view r t ++ [(begin_ts v, false, payload v)]
          else chain_view r' t;
  delete_row_spec : ∀ r ts t, ok t →
    ∃ t', delete_row r ts t = Some (Ok tt, t') ∧ ok t' ∧
      ∀ r', chain_view r' t'
        = if decide (r = r')
          then (if decide (chain_view r t = []) then [] else chain_view r t ++ [(ts, true, "")])
          else chain_view r' t;
  get_latest_version_spec : ∀ r ts t, ok t →
    ∃ o, get_latest_version r ts t = Ok o ∧
      payload <$> o = visible_payload ts (chain_view r t);
}.

(** ** The row store as a tail store *)

Definition row_key_of (r : N) : string := "row:" +:+ to_string r.

Definition payload_of (d : gmap string string) : string := default "" (d !! "_payload").

Definition store_insert_version (r : N) (v : TailVersion) (s : RowStore.PagedRowStore)
    : option (result unit string * RowStore.PagedRowStore) :=
  if tombstone v then Some (Ok tt, (RowStore.delete (begin_ts v) (row_key_of r) s).2)
  else
    let! s' := RowStore.insert (begin_ts v) (row_key_of r)
                 {["_payload" := from_utf8_lossy (payload v)]} s in
    Some (Ok tt, s').

Definition store_get_latest_version (r ts : N) (s : RowStore.PagedRowStore)
    : result (option TailVersion) string :=
  match RowStore.first_row (row_key_of r) (RowStore.pages s) with
  | Some row =>
      match RowStore.visible_at row ts with
      | Some d =>
          Ok (Some (mkTailVersion r (N.of_nat (RowStore.version_count row))
            (match last (RowStore.row_versions row) with
             | Some v => RowStore.rv_xid v | None => 0 end)
            None None false (payload_of d)))
      | None => Ok None
      end
  | None => Ok None
  end.

Definition chain_entry (r : N) (idx : nat) (v : RowStore.RowVersion) : TailVersion :=
  mkTailVersion r (N.of_nat (idx + 1)) (RowStore.rv_xid v) None
    (if (0 <? idx)%nat then Some (N.of_nat idx) else None) (RowStore.rv_deleted v)
    (if RowStore.rv_deleted v then "" else payload_of (RowStore.rv_data v)).

Definition store_get_version_chain (r : N) (s : RowStore.PagedRowStore)
    : result (list TailVersion) string :=
  match RowStore.first_row (row_key_of r) (RowStore.pages s) with
  | Some row => Ok (imap (chain_entry r) (RowStore.row_versions row))
  | None => Ok []
  end.

Definition store_delete_row (r ts : N) (s : RowStore.PagedRowStore)
    : option (result unit string * RowStore.PagedRowStore) :=
  Some (Ok tt, (RowStore.delete ts (row_key_of r) s).2).

#[export] Instance row_store_tail : TailStore RowStore.PagedRowStore := {
  insert_version := store_insert_version;
  get_latest_version := store_get_latest_version;
  get_version_chain := store_get_version_chain;
  delete_row := store_delete_row;
}.

End Tail.

Import Tail.

(** ** The row store keeps the promises *)

Definition raw_view (v : RowStore.RowVersion) : N * bool * string :=
  (RowStore.rv_xid v, RowStore.rv_deleted v,
   if RowStore.rv_deleted v then "" else payload_of (RowStore.rv_data v)).

Lemma store_chain_view r (s : RowStore.PagedRowStore) :
  chain_view r s = map raw_view (default [] (abs s !! row_key_of r)).
Proof.
  unfold chain_view. cbn [get_version_chain row_store_tail]. unfold store_get_version_chain.
  rewrite abs_lookup. destruct (RowStore.first_row _ _) as [row|]; [|done]. cbn [fmap option_fmap option_map default].
  apply list_eq. intros i. change (map version_view ?l) with (version_view <$> l).
  change (map raw_view ?l) with (raw_view <$> l).
  rewrite !list_lookup_fmap, list_lookup_imap. simpl.
  by destruct (RowStore.row_versions row !! i).
Qed.

Lemma row_key_inj r r' : row_key_of r = row_key_of r' → r = r'.
Proof. unfold row_key_of. intros H. simplify_eq. by apply to_string_inj. Qed.

Definition tail_ok (s : RowStore.PagedRowStore) : Prop :=
  wf s ∧ RowStore.max_rows_cap s = 0%nat.

Lemma view_after_push r v (m : chains) r' :
  map raw_view (default [] (spec_push (row_key_of r) v m !! row_key_of r'))
  = if decide (r = r') then map raw_view (default [] (m !! row_key_of r)) ++ [raw_view v]
    else map raw_view (default [] (m !! row_key_of r')).
Proof.
  unfold spec_push. destruct (decide (r = r')) as [<-|Hne].
  - rewrite lookup_insert_eq. simpl. by rewrite map_app.
  - by rewrite lookup_insert_ne by (by intros ?%row_key_inj).
Qed.

Lemma view_nil_iff r (s : RowStore.PagedRowStore) :
  wf s → chain_view r s = [] ↔ abs s !! row_key_of r = None.
Proof.
  intros Hwf. rewrite store_chain_view, abs_lookup. rewrite first_row_find.
  destruct (List.find _ _) as [row|] eqn:Hf; [|done]. simpl.
  apply List.find_some in Hf as [Hin%list_elem_of_In _].
  pose proof (proj1 (Forall_forall _ _) (wf_chain _ Hwf) _ Hin) as Hne. simpl in Hne.
  destruct (RowStore.row_versions row); naive_solver.
Qed.

#[export] Instance row_store_tail_spec : TailStoreSpec RowStore.PagedRowStore tail_ok.
Proof.
  constructor; cbn [insert_version delete_row get_latest_version row_store_tail].
  - intros r v s [Hwf Hcap] Ht Hu. unfold store_insert_version. rewrite Ht.
    destruct (insert_uncapped (begin_ts v) (row_key_of r)
      {["_payload" := from_utf8_lossy (payload v)]} s Hwf Hcap) as (s' & -> & Hwf' & Habs & _ & _ & Hc).
    exists s'. split_and!; [done|by split|]. intros r'.
    rewrite !store_chain_view, Habs, view_after_push. unfold raw_view at 2. simpl.
    unfold payload_of. rewrite lookup_singleton_eq. simpl. by rewrite Hu.
  - intros r ts s [Hwf Hcap]. unfold store_delete_row. eexists. split; [done|].
    destruct (delete_spec ts (row_key_of r) s) as (_ & Habs & Hwf' & _ & _ & Hc).
    split; [by split; [apply Hwf'|rewrite Hc]|]. intros r'.
    destruct (decide (chain_view r s = [])) as [Hnil|Hnn].
    + assert (abs s !! row_key_of r = None) as Hno by (by apply view_nil_iff).
      rewrite decide_False in Habs by (rewrite Hno; by intros []).
      rewrite !(store_chain_view r'), Habs.
      destruct (decide (r = r')) as [<-|]; [by rewrite Hno|done].
    + rewrite decide_True in Habs
        by (apply not_eq_None_Some; by rewrite <- view_nil_iff).
      by rewrite !store_chain_view, Habs, view_after_push.
  - intros r ts s [Hwf _]. unfold store_get_latest_version. rewrite store_chain_view, abs_lookup.
    destruct (RowStore.first_row (row_key_of r) (RowStore.pages s)) as [row|]; [|by exists None].
    simpl. unfold RowStore.visible_at. rewrite visible_walk_last.
    assert (visible_payload ts (map raw_view (RowStore.row_versions row))
      = payload_of <$> spec_visible ts (RowStore.row_versions row)) as ->.
    { unfold visible_payload, spec_visible. generalize (RowStore.row_versions row). intros vs.
      assert (filter (fun v : N * bool * string => v.1.1 <= ts) (map raw_view vs)
        = map raw_view (filter (fun v => RowStore.rv_xid v <= ts) vs)) as ->.
      { induction vs as [|v vs IH]; [done|]. cbn [map]. rewrite !filter_cons. simpl.
        destruct (decide (RowStore.rv_xid v <= ts)); simpl; by rewrite IH. }
      change (map raw_view ?l) with (raw_view <$> l). rewrite fmap_last.
      destruct (last _) as [v|]; [|done]. simpl. unfold raw_view.
      by destruct (RowStore.rv_deleted v). }
    destruct (spec_visible ts (RowStore.row_versions row)) as [d|]; [|by exists None].
    by eexists.
Qed.
