(* ===== verification/HybridScan.v ===== *)
(** * Hybrid base and tail scans ([crates/voltnuerongrid-store/src/hybrid_scan.rs]) *)

From S2P Require Import Prelude Str Decimal Mvcc MvccSpec Tail.
Open Scope string_scope.
Open Scope list_scope.
Open Scope N_scope.
Open Scope vng_scope.
Import Dec Tail.

Module HybridScan.

Inductive HybridScanError :=
| QueryTooStale (required_ms actual_ms : N)
| InvalidConfig (msg : string)
| ExecutionError (msg : string).

Inductive ScanSource := Base (segment_id : N) | TailSegment (segment_id : N).

Record VersionInfo := mkVersionInfo {
  commit_ts : N;
  vi_snapshot_ts : N;
  is_deleted : bool;
}.

Definition is_visible_at (snapshot_ts : N) (v : VersionInfo) : bool :=
  (commit_ts v <=? snapshot_ts) && negb (is_deleted v).

Record HybridScanResult := mkResult {
  res_row_id : N;
  values : string;
  version_info : VersionInfo;
  source : ScanSource;
}.

Record HybridScanExecutor := mkExecutor {
  segment_id : N;
  base_rows : list (N * string);
  tail_rows : gmap N (list (N * bool * string));
  snapshot_ts : N;
  max_staleness_ms : option N;
}.

Definition new (seg : N) (base : list (N * string)) (tail : gmap N (list (N * bool * string)))
    (ts : N) : HybridScanExecutor :=
  mkExecutor seg base tail ts None.

Definition with_max_staleness (ms : N) (e : HybridScanExecutor) : HybridScanExecutor :=
  mkExecutor (segment_id e) (base_rows e) (tail_rows e) (snapshot_ts e) (Some ms).

Definition compute_visibility (commit snapshot : N) : bool := commit <=? snapshot.

Definition find_base_row (row_id : N) (e : HybridScanExecutor) : option string :=
  match List.find (fun p => p.1 =? row_id) (base_rows e) with Some p => Some p.2 | None => None end.

(** The walk over the tail versions, latest first: [Some None] is a visible
    tombstone, [None] no visible version. *)
Fixpoint tail_walk (row_id : N) (e : HybridScanExecutor) (vs : list (N * bool * string))
    : option (option HybridScanResult) :=
  match vs with
  | [] => None
  | (ts, del, v) :: vs' =>
      if compute_visibility ts (snapshot_ts e)
      then Some (if del : bool then None
                 else Some (mkResult row_id v (mkVersionInfo ts (snapshot_ts e) false)
                              (TailSegment (segment_id e))))
      else tail_walk row_id e vs'
  end.

Definition merge_versions (row_id : N) (e : HybridScanExecutor)
    : result (option HybridScanResult) HybridScanError :=
  let from_tail :=
    match tail_rows e !! row_id with
    | Some versions => tail_walk row_id e (reverse versions)
    | None => None
    end in
  match from_tail with
  | Some r => Ok r
  | None =>
      match find_base_row row_id e with
      | Some v => Ok (Some (mkResult row_id v (mkVersionInfo 0 (snapshot_ts e) false)
                              (Base (segment_id e))))
      | None => Ok None
      end
  end.

(** The [HashSet] of row ids; the scans iterate over it in some order. *)
Definition all_row_ids (e : HybridScanExecutor) : gset N :=
  list_to_set (map fst (base_rows e)) ∪ dom (tail_rows e).

Definition id_le (r1 r2 : HybridScanResult) : Prop := res_row_id r1 <= res_row_id r2.

#[export] Instance id_le_dec : RelDecision id_le := fun r1 r2 => N.le_dec _ _.

Fixpoint merge_all (ids : list N) (e : HybridScanExecutor)
    : result (list HybridScanResult) HybridScanError :=
  match ids with
  | [] => Ok []
  | i :: ids' =>
      let? merged := merge_versions i e in
      let? rest := merge_all ids' e in
      Ok (match merged with Some r => r :: rest | None => rest end)
  end.

(** [order] is the iteration order of the set. *)
Definition scan_eager (order : list N) (e : HybridScanExecutor)
    : result (list HybridScanResult) HybridScanError :=
  let? results := merge_all order e in Ok (merge_sort id_le results).

Definition merged_row (e : HybridScanExecutor) (row_id : N) : option HybridScanResult :=
  match merge_versions row_id e with Ok r => r | Err _ => None end.

Definition scan_streaming (order : list N) (e : HybridScanExecutor) : list HybridScanResult :=
  omap (merged_row e) (merge_sort N.le order).

Definition enforce_freshness (merge_lag_ms : N) (e : HybridScanExecutor)
    : result unit HybridScanError :=
  match max_staleness_ms e with
  | Some max => if max <? merge_lag_ms then Err (QueryTooStale max merge_lag_ms) else Ok tt
  | None => Ok tt
  end.

Definition base_row_count (e : HybridScanExecutor) : nat := length (base_rows e).
Definition tail_row_count (e : HybridScanExecutor) : nat := size (tail_rows e).

Definition demo : HybridScanExecutor :=
  new 1 [(3, "b3"); (1, "b1"); (2, "b2")]
    (list_to_map [(2, [(4, false, "t2"); (9, false, "late")]); (3, [(5, true, "")]); (7, [(6, false, "t7")])]) 6.

Example demo_scan :
  map (fun r => (res_row_id r, values r)) (scan_streaming [7; 1; 3; 2] demo)
  = [(1, "b1"); (2, "t2"); (7, "t7")].
Proof. vm_compute. reflexivity. Qed.

End HybridScan.

Import HybridScan.

(** ** Sorted lists with distinct keys *)

Lemma sorted_unique {A} (key : A -> N) (l1 l2 : list A) :
  l1 ≡ₚ l2 → NoDup (map key l1) →
  StronglySorted (fun a b => key a <= key b) l1 →
  StronglySorted (fun a b => key a <= key b) l2 → l1 = l2.
Proof.
  revert l2. induction l1 as [|a l1 IH]; intros l2 Hp Hnd Hs1 Hs2.
  - by apply Permutation_nil in Hp as ->.
  - destruct l2 as [|b l2]; [by apply Permutation_sym, Permutation_nil in Hp|].
    apply NoDup_cons in Hnd as [Hni Hnd].
    inversion Hs1 as [|? ? Hs1' Ha]; inversion Hs2 as [|? ? Hs2' Hb]; subst.
    assert (a = b) as ->.
    { assert (a ∈ b :: l2) as Hin by (rewrite <- Hp; by left).
      assert (b ∈ a :: l1) as Hin' by (rewrite Hp; by left).
      apply elem_of_cons in Hin as [|Hin]; [done|].
      apply elem_of_cons in Hin' as [|Hin']; [done|]. exfalso.
      rewrite List.Forall_forall in Ha, Hb.
      assert (key a = key b) as Heq.
      { apply N.le_antisymm; [apply Ha|apply Hb]; by apply list_elem_of_In. }
      apply Hni. rewrite Heq. by apply (list_elem_of_fmap_2 key). }
    f_equal. apply IH; try done. by apply Permutation_cons_inv in Hp.
Qed.

Lemma merged_row_id e i r : merged_row e i = Some r → res_row_id r = i.
Proof.
  unfold merged_row, merge_versions.
  assert (∀ vs r', tail_walk i e vs = Some (Some r') → res_row_id r' = i) as Hwalk.
  { induction vs as [|[[ts del] v] vs IH]; [done|]. intros r'. simpl.
    destruct (compute_visibility _ _); [|by apply IH]. destruct del; [done|]. by intros [= <-]. }
  destruct (match tail_rows e !! i with Some _ => _ | None => _ end) as [o|] eqn:Ht.
  - intros ->. destruct (tail_rows e !! i); [|done]. by eapply Hwalk.
  - destruct (find_base_row i e); [|done]. by intros [= <-].
Qed.

Lemma merge_all_omap ids e : merge_all ids e = Ok (omap (merged_row e) ids).
Proof.
  induction ids as [|i ids IH]; [done|]. cbn [merge_all]. rewrite IH.
  assert (∃ o, merge_versions i e = Ok o) as [o Ho].
  { unfold merge_versions. destruct (match tail_rows e !! i with Some _ => _ | None => _ end);
      [by eexists|]. destruct (find_base_row i e); by eexists. }
  simpl. assert (merged_row e i = o) as -> by (unfold merged_row; by rewrite Ho). rewrite Ho. by destruct o.
Qed.

Lemma omap_sorted e ids :
  StronglySorted N.le ids → StronglySorted id_le (omap (merged_row e) ids).
Proof.
  induction 1 as [|i ids Hs IH Hall]; [constructor|]. simpl.
  destruct (merged_row e i) as [r|] eqn:Hr; [|done]. constructor; [done|].
  apply List.Forall_forall. intros r' Hin%list_elem_of_In.
  apply list_elem_of_omap in Hin as (j & Hj & Hr'). rewrite List.Forall_forall in Hall.
  unfold id_le. rewrite (merged_row_id _ _ _ Hr), (merged_row_id _ _ _ Hr').
  apply Hall. by apply list_elem_of_In.
Qed.

Lemma omap_ids e ids : map res_row_id (omap (merged_row e) ids) `sublist_of` ids.
Proof.
  induction ids as [|i ids IH]; [done|]. simpl. destruct (merged_row e i) as [r|] eqn:Hr; simpl.
  - rewrite (merged_row_id _ _ _ Hr). by constructor.
  - by constructor.
Qed.

#[export] Instance omap_perm_proper e : Proper ((≡ₚ) ==> (≡ₚ)) (omap (merged_row e)).
Proof.
  intros l1 l2 Hp. induction Hp as [|i l1 l2 _ IH|i j l|l1 l2 l3 _ IH1 _ IH2]; simpl.
  - done.
  - destruct (merged_row e i); [by constructor|done].
  - destruct (merged_row e i), (merged_row e j); try done. by constructor.
  - by etransitivity.
Qed.

#[export] Instance id_le_total : Total id_le.
Proof. intros a b. unfold id_le. lia. Qed.

#[export] Instance id_le_trans : Transitive id_le.
Proof. intros a b c. unfold id_le. lia. Qed.

#[export] Instance N_le_total : Total N.le.
Proof. intros a b. lia. Qed.

(** Sorting the merged rows is merging the sorted ids. *)
Lemma sort_merge order1 order2 e :
  order1 ≡ₚ order2 → NoDup order1 →
  merge_sort id_le (omap (merged_row e) order1) = omap (merged_row e) (merge_sort N.le order2).
Proof.
  intros Hp Hnd. apply (sorted_unique res_row_id).
  - rewrite merge_sort_Permutation. apply omap_perm_proper.
    by rewrite (merge_sort_Permutation N.le order2).
  - eapply (NoDup_Permutation_proper). { apply Permutation_map, merge_sort_Permutation. }
    eapply sublist_NoDup; [|apply omap_ids]. done.
  - apply (StronglySorted_merge_sort id_le).
  - apply omap_sorted, (StronglySorted_merge_sort N.le).
Qed.

(** ** The visibility rule *)

Definition row_chain (e : HybridScanExecutor) (i : N) : list (N * bool * string) :=
  default [] (tail_rows e !! i).

(** The latest version in the chain at or before the snapshot. *)
Definition latest_at (ts : N) (vs : list (N * bool * string)) : option (N * bool * string) :=
  last (filter (fun v => v.1.1 <= ts) vs).

Lemma tail_walk_latest i e vs :
  tail_walk i e (reverse vs)
  = (fun v : N * bool * string => if v.1.2 then None else
       Some (mkResult i v.2 (mkVersionInfo v.1.1 (snapshot_ts e) false)
               (TailSegment (segment_id e)))) <$> latest_at (snapshot_ts e) vs.
Proof.
  unfold latest_at. induction vs as [|[[ts del] v] vs IH] using rev_ind; [done|].
  rewrite reverse_snoc, filter_app. simpl. unfold compute_visibility.
  destruct (N.leb_spec ts (snapshot_ts e)).
  - rewrite filter_cons_True, filter_nil, last_snoc by (simpl; lia). by destruct del.
  - rewrite filter_cons_False, filter_nil, app_nil_r by (simpl; lia). done.
Qed.

Lemma merged_row_spec e i :
  merged_row e i =
  match latest_at (snapshot_ts e) (row_chain e i) with
  | Some (ts, true, _) => None
  | Some (ts, false, v) =>
      Some (mkResult i v (mkVersionInfo ts (snapshot_ts e) false) (TailSegment (segment_id e)))
  | None => (fun v => mkResult i v (mkVersionInfo 0 (snapshot_ts e) false) (Base (segment_id e)))
              <$> find_base_row i e
  end.
Proof.
  unfold merged_row, merge_versions, row_chain.
  destruct (tail_rows e !! i) as [vs|]; simpl; [rewrite tail_walk_latest|].
  - destruct (latest_at _ vs) as [[[ts []] v]|]; simpl; [done|done|].
    by destruct (find_base_row i e).
  - by destruct (find_base_row i e).
Qed.

(** An iteration order of the row ids. *)
Definition iterates (order : list N) (e : HybridScanExecutor) : Prop :=
  NoDup order ∧ ∀ i, i ∈ order ↔ i ∈ all_row_ids e.

Lemma iterates_perm o1 o2 e : iterates o1 e → iterates o2 e → o1 ≡ₚ o2.
Proof. intros [Hn1 H1] [Hn2 H2]. apply NoDup_Permutation; try done. intros i. by rewrite H1, H2. Qed.

Lemma find_base_row_Some i e v : find_base_row i e = Some v → i ∈ map fst (base_rows e).
Proof.
  unfold find_base_row. destruct (List.find _ _) as [[j w]|] eqn:Hf; [|done]. intros _.
  apply List.find_some in Hf as [Hin Heq]. apply N.eqb_eq in Heq. simpl in Heq. subst.
  apply list_elem_of_In in Hin. by apply (list_elem_of_fmap_2 fst) in Hin.
Qed.

Lemma sorted_strict (l : list N) : StronglySorted N.le l → NoDup l → StronglySorted N.lt l.
Proof.
  induction 1 as [|i l Hs IH Hall]; intros Hnd; [constructor|].
  apply NoDup_cons in Hnd as [Hni Hnd]. constructor; [by apply IH|].
  apply List.Forall_forall. intros j Hj. rewrite List.Forall_forall in Hall.
  assert (i ≠ j) by (intros ->; apply Hni; by apply list_elem_of_In).
  specialize (Hall j Hj). lia.
Qed.

(** A visible row is among the iterated ids. *)
Lemma merged_row_known e i r : merged_row e i = Some r → i ∈ all_row_ids e.
Proof.
  rewrite merged_row_spec. unfold all_row_ids, row_chain.
  destruct (tail_rows e !! i) as [vs|] eqn:Ht.
  - intros _. apply elem_of_union_r, elem_of_dom. by exists vs.
  - simpl. destruct (find_base_row i e) eqn:Hb; [|done]. intros _.
    apply elem_of_union_l, elem_of_list_to_set. by eapply find_base_row_Some.
Qed.

(** ** Merging the tail into the base *)

(** Ascending commit timestamps, as the tail appends them. *)
Definition ascending (vs : list (N * bool * string)) : Prop :=
  StronglySorted (fun a b => a.1.1 <= b.1.1) vs.

(** The executor after the versions up to [m] have been folded into a new base. *)
Definition fold_tail (m : N) (ids : list N) (e : HybridScanExecutor) : HybridScanExecutor :=
  mkExecutor (segment_id e)
    (omap (fun i => (fun r => (i, values r)) <$>
       merged_row (mkExecutor (segment_id e) (base_rows e) (tail_rows e) m None) i) ids)
    ((filter (fun v : N * bool * string => m < v.1.1)) <$> tail_rows e)
    (snapshot_ts e) (max_staleness_ms e).

Lemma latest_split m ts vs :
  ascending vs → m <= ts →
  latest_at ts vs =
  match latest_at ts (filter (fun v : N * bool * string => m < v.1.1) vs) with
  | Some v => Some v
  | None => latest_at m vs
  end.
Proof.
  intros Hs Hm. unfold latest_at.
  assert (filter (fun v => v.1.1 <= ts) vs
    = filter (fun v => v.1.1 <= m) vs
      ++ filter (fun v => v.1.1 <= ts) (filter (fun v : N * bool * string => m < v.1.1) vs)) as ->.
  { induction Hs as [|v vs Hs IH Hall]; [done|]. rewrite !filter_cons.
    destruct (decide (v.1.1 <= m)) as [Hle|Hgt].
    - rewrite decide_True, decide_False, IH by lia. done.
    - rewrite (decide_True _ _ (P := m < v.1.1)) by lia. rewrite filter_cons.
      assert (filter (fun w : N * bool * string => w.1.1 <= m) vs = []) as Hnil.
      { apply list_filter_none. intros w Hw. rewrite List.Forall_forall in Hall.
        apply list_elem_of_In in Hw. specialize (Hall w Hw). simpl in Hall. lia. }
      rewrite Hnil in *. simpl. by destruct (decide (v.1.1 <= ts)); rewrite IH. }
  rewrite last_app. by destruct (last (filter _ (filter _ vs))).
Qed.

Lemma find_folded i e m ids :
  NoDup ids → i ∈ ids →
  find_base_row i (fold_tail m ids e)
  = values <$> merged_row (mkExecutor (segment_id e) (base_rows e) (tail_rows e) m None) i.
Proof.
  intros Hnd Hin. unfold find_base_row, fold_tail. cbn [base_rows].
  set (f := merged_row _).
  induction ids as [|j ids IH]; [by apply elem_of_nil in Hin|].
  apply NoDup_cons in Hnd as [Hj Hnd]. cbn [omap list_omap].
  apply elem_of_cons in Hin as [<-|Hin].
  - destruct (f i) as [r|] eqn:Hf; simpl; [by rewrite N.eqb_refl|].
    assert (∀ l, i ∉ l → List.find (fun p : N * string => p.1 =? i)
      (omap (fun j => (fun r => (j, values r)) <$> f j) l) = None) as Hno.
    { clear -Hj. induction l as [|k l IHl]; [done|]. intros Hni. apply not_elem_of_cons in Hni as [Hk Hni].
      simpl. destruct (f k); simpl; [rewrite (proj2 (N.eqb_neq _ _)) by done|]; by apply IHl. }
    by rewrite Hno.
  - assert (j ≠ i) by (by intros ->). destruct (f j) as [r|]; simpl; [|by apply IH].
    rewrite (proj2 (N.eqb_neq _ _)) by done. by apply IH.
Qed.

(** ** Properties *)

(** Eager and streaming scans agree and are deterministic.  Whatever order
    the hash set of row ids is iterated in, both scans return the same rows, in
    strictly increasing row id order, and a row is returned exactly when its
    merged version is visible. *)
Theorem scans_agree_in_any_order (o1 o2 : list N) (e : HybridScanExecutor) :
  iterates o1 e → iterates o2 e →
  scan_eager o1 e = Ok (scan_streaming o2 e) ∧
  StronglySorted N.lt (map res_row_id (scan_streaming o2 e)) ∧
  ∀ r, r ∈ scan_streaming o2 e ↔ merged_row e (res_row_id r) = Some r.
Proof.
  intros H1 H2. split_and!.
  - unfold scan_eager. rewrite merge_all_omap. f_equal. apply sort_merge; [by eapply iterates_perm|apply H1].
  - apply sorted_strict.
    + apply (StronglySorted_fmap res_row_id id_le); [done|].
      apply omap_sorted, (StronglySorted_merge_sort N.le).
    + eapply sublist_NoDup; [|apply omap_ids]. rewrite merge_sort_Permutation. apply H2.
  - intros r. unfold scan_streaming. rewrite list_elem_of_omap. split.
    + intros (i & _ & Hr). by rewrite (merged_row_id _ _ _ Hr).
    + intros Hr. exists (res_row_id r). split; [|done].
      rewrite merge_sort_Permutation. apply H2. by eapply merged_row_known.
Qed.

Lemma scans_agree_in_any_order_witness :
  scan_eager [7; 1; 3; 2] demo = Ok (scan_streaming [2; 3; 1; 7] demo).
Proof.
  refine (proj1 (scans_agree_in_any_order [7; 1; 3; 2] [2; 3; 1; 7] demo _ _));
    (split; [apply (bool_decide_unpack _); vm_compute; exact I|]);
    intros i; (rewrite <- (elem_of_list_to_set (C := gset N)));
    (assert (∀ a b : gset N, a = b → i ∈ a ↔ i ∈ b) as Heq by (by intros ? ? ->)); apply Heq;
    apply (bool_decide_unpack _); vm_compute; exact I.
Defined.

(** Hybrid visibility.  A scanned row is decided by the latest tail version
    committed at or before the snapshot (a tombstone hides it even when the base
    has the row), and by the base only when there is no such version. *)
Theorem hybrid_visibility (e : HybridScanExecutor) (i : N) :
  merge_versions i e =
  Ok match latest_at (snapshot_ts e) (row_chain e i) with
     | Some (ts, true, _) => None
     | Some (ts, false, v) =>
         Some (mkResult i v (mkVersionInfo ts (snapshot_ts e) false) (TailSegment (segment_id e)))
     | None => (fun v => mkResult i v (mkVersionInfo 0 (snapshot_ts e) false)
                           (Base (segment_id e))) <$> find_base_row i e
     end.
Proof.
  rewrite <- merged_row_spec. unfold merged_row.
  destruct (merge_versions i e) eqn:Hm; [done|]. unfold merge_versions in Hm.
  destruct (match tail_rows e !! i with Some _ => _ | None => _ end); [done|].
  by destruct (find_base_row i e).
Qed.

(** Merging the tail into the base is invisible.  Folding every version up to
    [m] into a new base (the rows visible at [m]) and keeping only the later tail
    versions does not change the row values of any scan at a snapshot from [m]
    on, when tail chains are in commit order. *)
Theorem merge_into_base_transparent (e : HybridScanExecutor) (m : N) (ids : list N) (i : N) :
  m <= snapshot_ts e → iterates ids e → ascending (row_chain e i) →
  values <$> merged_row (fold_tail m ids e) i = values <$> merged_row e i.
Proof.
  intros Hm Hids Hasc. rewrite !merged_row_spec.
  assert (row_chain (fold_tail m ids e) i
    = filter (fun v : N * bool * string => m < v.1.1) (row_chain e i)) as ->.
  { unfold row_chain. simpl. rewrite lookup_fmap. by destruct (tail_rows e !! i). }
  change (snapshot_ts (fold_tail m ids e)) with (snapshot_ts e).
  rewrite (latest_split m (snapshot_ts e) (row_chain e i)) by done.
  destruct (latest_at (snapshot_ts e) (filter _ (row_chain e i))) as [[[ts []] v]|]; [done|done|].
  destruct (decide (i ∈ ids)) as [Hin|Hni].
  - rewrite find_folded by (done || apply Hids). rewrite merged_row_spec. cbn [snapshot_ts segment_id].
    change (row_chain (mkExecutor _ _ _ _ _) i) with (row_chain e i).
    destruct (latest_at m (row_chain e i)) as [[[ts []] v]|]; [done|done|].
    change (find_base_row i (mkExecutor _ _ _ _ _)) with (find_base_row i e).
    by destruct (find_base_row i e).
  - assert (i ∉ all_row_ids e) as Hunk by (intros H; by apply Hni, Hids).
    assert (row_chain e i = []) as ->.
    { unfold row_chain. destruct (tail_rows e !! i) eqn:Ht; [|done].
      exfalso. apply Hunk, elem_of_union_r, elem_of_dom. by eexists. }
    simpl. destruct (find_base_row i (fold_tail m ids e)) as [v|] eqn:Hb.
    + exfalso. apply find_base_row_Some in Hb. apply Hni. simpl in Hb.
      apply list_elem_of_fmap in Hb as ([j w] & -> & Hjw).
      apply list_elem_of_omap in Hjw as (k & Hk & Hkw).
      destruct (merged_row _ k); [|done]. by injection Hkw as <- _.
    + destruct (find_base_row i e) as [v|] eqn:Hb'; [|done]. exfalso.
      apply Hunk, elem_of_union_l, elem_of_list_to_set. by eapply find_base_row_Some.
Qed.

Lemma merge_into_base_transparent_witness :
  values <$> merged_row (fold_tail 5 [1; 2; 3; 7] demo) 2 = Some "t2".
Proof.
  rewrite (merge_into_base_transparent demo 5 [1; 2; 3; 7] 2).
  - vm_compute. reflexivity.
  - vm_compute. congruence.
  - split; [apply (bool_decide_unpack _); vm_compute; exact I|].
    intros i. rewrite <- (elem_of_list_to_set (C := gset N)).
    assert (list_to_set [1; 2; 3; 7] = all_row_ids demo) as ->; [|done].
    apply (bool_decide_unpack _). vm_compute. exact I.
  - vm_compute. repeat constructor; discriminate.
Defined.

(** The scans ignore the staleness bound.  Configuring [max_staleness_ms]
    changes no scan result, whatever the merge lag, although the executor can
    tell that the bound is exceeded ([enforce_freshness]); scans never fail. *)
Theorem scan_ignores_staleness (order : list N) (ms lag : N) (e : HybridScanExecutor) :
  ms < lag →
  scan_eager order (with_max_staleness ms e) = scan_eager order e ∧
  is_ok (scan_eager order (with_max_staleness ms e)) = true ∧
  enforce_freshness lag (with_max_staleness ms e) = Err (QueryTooStale ms lag).
Proof.
  intros Hlt. unfold enforce_freshness. simpl. rewrite (proj2 (N.ltb_lt _ _)) by done.
  assert (omap (merged_row (with_max_staleness ms e)) order = omap (merged_row e) order) as Heq.
  { apply list_omap_ext, Forall_Forall2_diag, Forall_forall. intros i _. by rewrite !merged_row_spec. }
  unfold scan_eager. rewrite !merge_all_omap, Heq. done.
Qed.

Lemma scan_ignores_staleness_witness :
  is_ok (scan_eager [7; 1; 3; 2] (with_max_staleness 10 demo)) = true ∧
  enforce_freshness 5000 (with_max_staleness 10 demo) = Err (QueryTooStale 10 5000).
Proof. refine (proj2 (scan_ignores_staleness [7; 1; 3; 2] 10 5000 demo _)). reflexivity. Defined.

(** * Clients of the tail store interface, and the bridging row type *)

Open Scope string_scope.
Open Scope list_scope.
Open Scope N_scope.
Open Scope vng_scope.
Import Dec Tail.

(** ** Histories of a tail store *)

Inductive tail_op :=
| TInsert (r version ts : N) (p : string)
| TDelete (r ts : N).

Definition op_utf8 (o : tail_op) : Prop :=
  match o with TInsert _ _ _ p => utf8 p | TDelete _ _ => True end.

(** The chain of row [r] after the operation. *)
Definition chain_step (r : N) (vs : list (N * bool * string)) (o : tail_op)
    : list (N * bool * string) :=
  match o with
  | TInsert r' _ ts p => if decide (r' = r) then vs ++ [(ts, false, p)] else vs
  | TDelete r' ts =>
      if decide (r' = r) then (if decide (vs = []) then [] else vs ++ [(ts, true, "")]) else vs
  end.

Section Client.
Context {T : Type} `{!TailStore T} {ok : T -> Prop} `{!TailStoreSpec T ok}.

Definition tail_step (o : tail_op) (t : T) : option T :=
  match o with
  | TInsert r v ts p =>
      let! (_, t') := insert_version r (tail_version_new r v ts p) t in Some t'
  | TDelete r ts => let! (_, t') := delete_row r ts t in Some t'
  end.

Fixpoint tail_run (ops : list tail_op) (t : T) : option T :=
  match ops with
  | [] => Some t
  | o :: ops' => let! t' := tail_step o t in tail_run ops' t'
  end.

Lemma tail_step_chain o t :
  ok t → op_utf8 o →
  ∃ t', tail_step o t = Some t' ∧ ok t' ∧ ∀ r, chain_view r t' = chain_step r (chain_view r t) o.
Proof.
  intros Hok Hu. destruct o as [r v ts p|r ts]; cbn [tail_step op_utf8] in *.
  - destruct (insert_version_spec r (tail_version_new r v ts p) t) as (t' & -> & Hok' & Hch);
      [done|done|done|].
    exists t'. split_and!; [done|done|]. intros r'. rewrite Hch. simpl.
    by destruct (decide (r = r')) as [<-|].
  - destruct (delete_row_spec r ts t) as (t' & -> & Hok' & Hch); [done|].
    exists t'. split_and!; [done|done|]. intros r'. rewrite Hch. simpl.
    by destruct (decide (r = r')) as [<-|].
Qed.

Lemma tail_run_chain ops t :
  ok t → Forall op_utf8 ops →
  ∃ t', tail_run ops t = Some t' ∧ ok t' ∧
    ∀ r, chain_view r t' = fold_left (chain_step r) ops (chain_view r t).
Proof.
  revert t. induction ops as [|o ops IH]; intros t Hok Hu; [by exists t|].
  apply Forall_cons in Hu as [Ho Hu]. cbn [tail_run fold_left].
  destruct (tail_step_chain o t Hok Ho) as (t1 & -> & Hok1 & Hch1).
  destruct (IH t1 Hok1 Hu) as (t' & Hr & Hok' & Hch').
  exists t'. split_and!; [done|done|]. intros r. by rewrite Hch', Hch1.
Qed.

(** The tail part of a hybrid scan, read from the store. *)
Definition export_tail (ids : list N) (t : T) : gmap N (list (N * bool * string)) :=
  list_to_map (map (fun i => (i, chain_view i t)) ids).

Lemma export_tail_lookup ids t i :
  NoDup ids → i ∈ ids → export_tail ids t !! i = Some (chain_view i t).
Proof.
  intros Hnd Hin. apply elem_of_list_to_map_1.
  - rewrite <- list_fmap_compose. change (NoDup ((fun i => i) <$> ids)). by rewrite list_fmap_id.
  - apply list_elem_of_fmap. by exists i.
Qed.

End Client.

(** ** The bridging row *)

Inductive v2_op := V2Append (v : RowStore.RowVersion) | V2Delete (ts : N).

Definition v2_step (r : MvccRowV2) (o : v2_op) : MvccRowV2 :=
  match o with
  | V2Append v => (append_tail_version v r).2
  | V2Delete ts => (delete_at_ts ts r).2
  end.

(** The index maps each version id to its position. *)
Definition v2_indexed (r : MvccRowV2) : Prop :=
  ∀ i, v2_version_index r !! i
       = if decide (i < N.of_nat (length (v2_versions r))) then Some (N.to_nat i) else None.

Lemma append_indexed v r : v2_indexed r → v2_indexed (append_tail_version v r).2.
Proof.
  intros Hi i. simpl. rewrite length_app. simpl.
  destruct (decide (i = N.of_nat (length (v2_versions r)))) as [->|Hne].
  - rewrite lookup_insert_eq, decide_True by lia. f_equal. lia.
  - rewrite lookup_insert_ne, Hi by done.
    destruct (decide (i < N.of_nat (length (v2_versions r)))), (decide (i < N.of_nat (length (v2_versions r) + 1))); done || lia.
Qed.

Lemma v2_step_indexed o r : v2_indexed r → v2_indexed (v2_step r o).
Proof.
  intros Hi. destruct o as [v|ts]; cbn [v2_step]; [by apply append_indexed|].
  unfold delete_at_ts. destruct (v2_versions r) eqn:E; [done|].
  by apply append_indexed.
Qed.

Lemma v2_walk_visible vs ts :
  RowStore.rv_data <$> v2_walk vs ts = RowStore.visible_walk vs ts.
Proof.
  induction vs as [|v vs IH]; [done|]. simpl. unfold xid_to_commit_ts.
  destruct (_ <=? _); [|done]. by destruct (RowStore.rv_deleted v).
Qed.

(** ** Properties *)

(** A tail store keeps version chains.  For every implementation of the
    interface, and every history of inserts of UTF-8 payloads and deletes, each
    read at a snapshot returns the payload of the latest version of that row's
    history committed at or before it, and nothing when that is a tombstone.
    The row store is such an implementation. *)
Theorem tail_history_reads {T : Type} `{!TailStore T} {ok : T -> Prop} `{!TailStoreSpec T ok}
    (ops : list tail_op) (t : T) :
  ok t → Forall op_utf8 ops →
  ∃ t', tail_run ops t = Some t' ∧ ok t' ∧
    ∀ r ts, ∃ o, get_latest_version r ts t' = Ok o ∧
      payload <$> o = visible_payload ts (fold_left (chain_step r) ops (chain_view r t)).
Proof.
  intros Hok Hu. destruct (tail_run_chain ops t Hok Hu) as (t' & Hr & Hok' & Hch).
  exists t'. split_and!; [done|done|]. intros r ts.
  destruct (get_latest_version_spec r ts t' Hok') as (o & Hget & Hp).
  exists o. split; [done|]. by rewrite Hp, Hch.
Qed.

Definition empty_store : RowStore.PagedRowStore :=
  RowStore.mkPagedRowStore [RowStore.page_new 0] 2 1 1 ∅ 0.

Lemma tail_history_reads_witness :
  ∃ t', tail_run [TInsert 7 1 3 "v3"; TInsert 8 1 4 "w"; TDelete 7 6] empty_store = Some t' ∧
    tail_ok t' ∧
    ∀ r ts, ∃ o, get_latest_version r ts t' = Ok o ∧
      payload <$> o = visible_payload ts
        (fold_left (chain_step r) [TInsert 7 1 3 "v3"; TInsert 8 1 4 "w"; TDelete 7 6]
           (chain_view r empty_store)).
Proof.
  apply (tail_history_reads (ok := tail_ok)).
  - split; [apply empty_page_wf; apply Nat.lt_0_succ|reflexivity].
  - repeat constructor.
Defined.

(** Hybrid scans read the tail store.  An executor whose tail rows are
    exported from any tail store and that has no base rows shows for each
    exported row exactly what the store's own [get_latest_version] returns at
    the snapshot. *)
Theorem hybrid_scan_reads_tail_store {T : Type} `{!TailStore T} {ok : T -> Prop}
    `{!TailStoreSpec T ok} (t : T) (seg ts i : N) (ids : list N) :
  ok t → NoDup ids → i ∈ ids →
  ∃ o, get_latest_version i ts t = Ok o ∧
    HybridScan.values <$> HybridScan.merged_row (HybridScan.new seg [] (export_tail ids t) ts) i
    = payload <$> o.
Proof.
  intros Hok Hnd Hin. destruct (get_latest_version_spec i ts t Hok) as (o & Hget & Hp).
  exists o. split; [done|]. rewrite Hp, merged_row_spec. unfold row_chain, visible_payload, latest_at.
  cbn [HybridScan.tail_rows HybridScan.snapshot_ts HybridScan.new].
  rewrite export_tail_lookup by done. cbn [default].
  by destruct (last _) as [[[c []] p]|].
Qed.

Definition stored : RowStore.PagedRowStore :=
  default empty_store (tail_run [TInsert 7 1 3 "v3"; TInsert 7 2 9 "v9"] empty_store).

Lemma empty_store_ok : tail_ok empty_store.
Proof. split; [apply empty_page_wf; lia|done]. Qed.

Lemma stored_ok : tail_ok stored.
Proof.
  unfold stored.
  destruct (tail_run_chain [TInsert 7 1 3 "v3"; TInsert 7 2 9 "v9"] empty_store empty_store_ok)
    as (t' & -> & Hok & _); [by repeat constructor|done].
Qed.

Lemma hybrid_scan_reads_tail_store_witness :
  ∃ o, get_latest_version 7 5 stored = Ok o ∧
    HybridScan.values <$> HybridScan.merged_row (HybridScan.new 1 [] (export_tail [7] stored) 5) 7
    = payload <$> o.
Proof.
  apply (hybrid_scan_reads_tail_store (ok := tail_ok) stored 1 5 7 [7]).
  - exact stored_ok.
  - apply NoDup_singleton.
  - by left.
Defined.

(** The reported commit timestamp is not the visible version's.  A read at a
    snapshot between two versions returns the older payload but the newer
    version's [begin_ts], later than the snapshot itself. *)
Theorem latest_version_reports_newest_ts :
  ∃ v, get_latest_version 7 5 stored = Ok (Some v) ∧ payload v = "v3" ∧ begin_ts v = 9.
Proof. eexists. split; [vm_compute; reflexivity|]. split; reflexivity. Qed.

(** The bridging row.  After any sequence of appends and deletes from an
    empty [MvccRowV2], every version id indexes its own version, a delete of an
    empty row is refused, and timestamp visibility equals the visibility of the
    [MvccRow] with the same versions. *)
Theorem bridge_row_equivalent (key : string) (ops : list v2_op) (ts : N) :
  let r := fold_left v2_step ops (v2_new key) in
  v2_indexed r ∧
  RowStore.rv_data <$> get_latest_tail_version ts r
    = RowStore.visible_at (RowStore.mkMvccRow key (v2_versions r)) ts ∧
  (v2_versions r = [] → delete_at_ts ts r = (Err "Row is empty", r)).
Proof.
  cbv zeta. split_and!.
  - induction ops as [|o ops IH] using rev_ind.
    + intros i. cbn [fold_left]. rewrite decide_False by (simpl; lia). done.
    + rewrite fold_left_app. by apply v2_step_indexed.
  - apply v2_walk_visible.
  - intros Hnil. unfold delete_at_ts. by rewrite Hnil.
Qed.
