(* ===== verification/Raft.v ===== *)
(** * A Raft node ([services/voltnuerongridd/src/raft.rs])

    [RaftNode] with every transition and RPC handler of the source, as pure
    functions from node to node (and reply). *)

From S2P Require Import Prelude.
Open Scope string_scope.
Open Scope list_scope.
Open Scope N_scope.

Module Raft.

(** ** Data *)

Inductive RaftRole := Follower | Candidate | Leader.

#[export] Instance RaftRole_eq_dec : EqDecision RaftRole.
Proof. solve_decision. Defined.

Record RaftLogEntry := mkEntry {
  e_index : N;
  e_term : N;
  e_command : string;
}.

#[export] Instance RaftLogEntry_eq_dec : EqDecision RaftLogEntry.
Proof. solve_decision. Defined.

Record RaftVoteRequest := mkVoteRequest {
  vr_term : N;
  vr_candidate_id : string;
  vr_last_log_index : N;
  vr_last_log_term : N;
}.

#[export] Instance RaftVoteRequest_eq_dec : EqDecision RaftVoteRequest.
Proof. solve_decision. Defined.

Record RaftVoteResponse := mkVoteResponse {
  vp_term : N;
  vp_granted : bool;
}.

Record RaftAppendRequest := mkAppendRequest {
  ar_term : N;
  ar_leader_id : string;
  ar_prev_log_index : N;
  ar_prev_log_term : N;
  ar_entries : list RaftLogEntry;
  ar_leader_commit : N;
}.

Record RaftAppendResponse := mkAppendResponse {
  ap_term : N;
  ap_success : bool;
  ap_match_index : N;
}.

Record RaftInstallSnapshotRequest := mkInstallRequest {
  ir_term : N;
  ir_leader_id : string;
  ir_snapshot_index : N;
  ir_snapshot_term : N;
  ir_rows : gmap string (gmap string string);
}.

Record RaftInstallSnapshotResponse := mkInstallResponse {
  ip_term : N;
  ip_success : bool;
}.

Record RaftNode := mkNode {
  node_id : string;
  current_term : N;
  voted_for : option string;
  role : RaftRole;
  log : list RaftLogEntry;
  commit_index : N;
  last_applied : N;
  ticks_since_heartbeat : N;
  election_timeout_ticks : N;
  fencing_token : N;
  next_index : gmap string N;
  match_index : gmap string N;
  snapshot_index : N;
  snapshot_term : N;
}.

Record RaftStatusSnapshot := mkStatus {
  st_node_id : string;
  st_current_term : N;
  st_role : RaftRole;
  st_voted_for : option string;
  st_log_length : nat;
  st_commit_index : N;
  st_last_applied : N;
  st_ticks_since_heartbeat : N;
  st_election_timeout_ticks : N;
  st_fencing_token : N;
}.

Record RaftDurableState := mkDurable {
  d_current_term : N;
  d_voted_for : option string;
  d_snapshot_index : N;
  d_snapshot_term : N;
  d_log : list RaftLogEntry;
}.

(** ** Field updates *)

Definition set_term_vote_role (t : N) (v : option string) (r : RaftRole) (n : RaftNode) : RaftNode :=
  mkNode (node_id n) t v r (log n) (commit_index n) (last_applied n)
    (ticks_since_heartbeat n) (election_timeout_ticks n) (fencing_token n)
    (next_index n) (match_index n) (snapshot_index n) (snapshot_term n).

Definition set_log (l : list RaftLogEntry) (n : RaftNode) : RaftNode :=
  mkNode (node_id n) (current_term n) (voted_for n) (role n) l (commit_index n)
    (last_applied n) (ticks_since_heartbeat n) (election_timeout_ticks n) (fencing_token n)
    (next_index n) (match_index n) (snapshot_index n) (snapshot_term n).

Definition set_commit_index (c : N) (n : RaftNode) : RaftNode :=
  mkNode (node_id n) (current_term n) (voted_for n) (role n) (log n) c
    (last_applied n) (ticks_since_heartbeat n) (election_timeout_ticks n) (fencing_token n)
    (next_index n) (match_index n) (snapshot_index n) (snapshot_term n).

Definition set_last_applied (a : N) (n : RaftNode) : RaftNode :=
  mkNode (node_id n) (current_term n) (voted_for n) (role n) (log n) (commit_index n)
    a (ticks_since_heartbeat n) (election_timeout_ticks n) (fencing_token n)
    (next_index n) (match_index n) (snapshot_index n) (snapshot_term n).

Definition set_ticks (t : N) (n : RaftNode) : RaftNode :=
  mkNode (node_id n) (current_term n) (voted_for n) (role n) (log n) (commit_index n)
    (last_applied n) t (election_timeout_ticks n) (fencing_token n)
    (next_index n) (match_index n) (snapshot_index n) (snapshot_term n).

Definition set_fencing (f : N) (n : RaftNode) : RaftNode :=
  mkNode (node_id n) (current_term n) (voted_for n) (role n) (log n) (commit_index n)
    (last_applied n) (ticks_since_heartbeat n) (election_timeout_ticks n) f
    (next_index n) (match_index n) (snapshot_index n) (snapshot_term n).

Definition set_progress (ni mi : gmap string N) (n : RaftNode) : RaftNode :=
  mkNode (node_id n) (current_term n) (voted_for n) (role n) (log n) (commit_index n)
    (last_applied n) (ticks_since_heartbeat n) (election_timeout_ticks n) (fencing_token n)
    ni mi (snapshot_index n) (snapshot_term n).

Definition set_snapshot (i t : N) (n : RaftNode) : RaftNode :=
  mkNode (node_id n) (current_term n) (voted_for n) (role n) (log n) (commit_index n)
    (last_applied n) (ticks_since_heartbeat n) (election_timeout_ticks n) (fencing_token n)
    (next_index n) (match_index n) i t.

(** ** Construction *)

Definition FNV_OFFSET : N := 14695981039346656037.
Definition FNV_PRIME : N := 1099511628211.

Fixpoint fnv_fold (s : string) (acc : N) : N :=
  match s with
  | EmptyString => acc
  | String c s' => fnv_fold s' (N.lxor (u64_wrapping_mul acc FNV_PRIME) (Ascii.N_of_ascii c))
  end.

Definition election_timeout_for (id : string) : N := 10 + fnv_fold id FNV_OFFSET mod 10.

Definition new (id : string) : RaftNode :=
  mkNode id 0 None Follower [] 0 0 0 (election_timeout_for id) 0 ∅ ∅ 0 0.

(** ** Log positions *)

Definition log_entry_at (n : RaftNode) (index : N) : option RaftLogEntry :=
  if (index =? 0) || (index <=? snapshot_index n) then None
  else log n !! N.to_nat (index - snapshot_index n - 1).

Definition last_log_position (n : RaftNode) : N * N :=
  match last (log n) with
  | Some e => (e_index e, e_term e)
  | None => if 0 <? snapshot_index n then (snapshot_index n, snapshot_term n) else (0, 0)
  end.

Definition term_at (n : RaftNode) (index : N) : N :=
  if index =? 0 then 0
  else if index =? snapshot_index n then snapshot_term n
  else match log_entry_at n index with Some e => e_term e | None => 0 end.

(** ** Role transitions *)

Definition become_candidate (n : RaftNode) : RaftNode :=
  set_term_vote_role (u64_add (current_term n) 1) (Some (node_id n)) Candidate n.

Definition become_leader (n : RaftNode) : RaftNode :=
  set_progress ∅ ∅
    (set_term_vote_role (current_term n) (voted_for n) Leader
       (set_fencing (u64_add (fencing_token n) 1) n)).

Definition become_follower (new_term : N) (n : RaftNode) : RaftNode :=
  if current_term n <? new_term
  then set_term_vote_role new_term None Follower n
  else set_term_vote_role (current_term n) (voted_for n) Follower n.

Definition init_leader_indices (peers : list string) (n : RaftNode) : RaftNode :=
  let next := u64_add (last_log_position n).1 1 in
  fold_left (fun n peer =>
      set_progress (<[peer := next]> (next_index n)) (<[peer := 0]> (match_index n)) n)
    peers n.

(** ** Replication progress on the leader *)

Definition quorum_of (total_nodes : nat) : nat := ((total_nodes + 1) / 2)%nat.

(** [1 + match_index.values().filter(|m| m >= n).count()] *)
Definition replication_count (mi : gmap string N) (n : N) : nat :=
  (1 + size (filter (fun kv => (n <= kv.2)%N) mi))%nat.

(** [lo..=hi] *)
Definition range_inclusive (lo hi : N) : list N :=
  (fun i => lo + N.of_nat i) <$> seq 0 (N.to_nat (hi + 1 - lo)).

Definition record_append_success (peer : string) (peer_match_index : N) (total_nodes : nat)
    (n : RaftNode) : RaftNode :=
  let n1 := set_progress (<[peer := u64_add peer_match_index 1]> (next_index n))
              (<[peer := peer_match_index]> (match_index n)) n in
  let quorum := quorum_of total_nodes in
  fold_left (fun n i =>
      if (quorum <=? replication_count (match_index n) i)%nat then set_commit_index i n else n)
    (range_inclusive (u64_add (commit_index n1) 1) peer_match_index) n1.

Definition record_append_failure (peer : string) (n : RaftNode) : RaftNode :=
  let ni := default 1 (next_index n !! peer) in
  set_progress (<[peer := N.max (saturating_sub ni 1) 1]> (next_index n)) (match_index n) n.

(** ** RequestVote *)

Definition log_up_to_date (req : RaftVoteRequest) (n : RaftNode) : bool :=
  let '(our_last_index, our_last_term) := last_log_position n in
  (our_last_term <? vr_last_log_term req)
  || ((vr_last_log_term req =? our_last_term) && (our_last_index <=? vr_last_log_index req)).

Definition handle_vote_request (req : RaftVoteRequest) (n : RaftNode)
    : RaftVoteResponse * RaftNode :=
  let n1 := if current_term n <? vr_term req then become_follower (vr_term req) n else n in
  if vr_term req <? current_term n1 then (mkVoteResponse (current_term n1) false, n1)
  else
    let already_voted_other :=
      match voted_for n1 with
      | Some v => negb (String.eqb v (vr_candidate_id req))
      | None => false
      end in
    if already_voted_other then (mkVoteResponse (current_term n1) false, n1)
    else if negb (log_up_to_date req n1) then (mkVoteResponse (current_term n1) false, n1)
    else (mkVoteResponse (current_term n1) true,
          set_term_vote_role (current_term n1) (Some (vr_candidate_id req)) (role n1) n1).

(** ** AppendEntries *)

(** One iteration of the append loop, for a log that starts after [snap]. *)
Definition append_entry (snap : N) (l : list RaftLogEntry) (e : RaftLogEntry)
    : list RaftLogEntry :=
  if e_index e <=? snap then l
  else
    let phys := N.to_nat (e_index e - snap - 1) in
    match l !! phys with
    | Some e0 => if e_term e0 =? e_term e then l else take phys l ++ [e]
    | None => l ++ [e]
    end.

Definition consistency_check (req : RaftAppendRequest) (n : RaftNode) : bool :=
  if 0 <? ar_prev_log_index req then
    if ar_prev_log_index req =? snapshot_index n
    then ar_prev_log_term req =? snapshot_term n
    else match log_entry_at n (ar_prev_log_index req) with
         | Some e => e_term e =? ar_prev_log_term req
         | None => false
         end
  else true.

Definition handle_append_entries (req : RaftAppendRequest) (n : RaftNode)
    : RaftAppendResponse * RaftNode :=
  if ar_term req <? current_term n
  then (mkAppendResponse (current_term n) false (last_log_position n).1, n)
  else
    let n1 := set_ticks 0 (become_follower (ar_term req) n) in
    if negb (consistency_check req n1)
    then (mkAppendResponse (current_term n1) false (last_log_position n1).1, n1)
    else
      let n2 := set_log (fold_left (append_entry (snapshot_index n1)) (ar_entries req) (log n1)) n1 in
      let n3 := if commit_index n2 <? ar_leader_commit req
                then set_commit_index (N.min (ar_leader_commit req) (last_log_position n2).1) n2
                else n2 in
      (mkAppendResponse (current_term n3) true (last_log_position n3).1, n3).

(** ** Clock, status *)

Definition tick (n : RaftNode) : RaftNode :=
  let n1 := set_ticks (u64_add (ticks_since_heartbeat n) 1) n in
  if decide (role n1 = Follower) then
    if election_timeout_ticks n1 <=? ticks_since_heartbeat n1
    then set_ticks 0 (become_candidate n1) else n1
  else n1.

Definition status (n : RaftNode) : RaftStatusSnapshot :=
  mkStatus (node_id n) (current_term n) (role n) (voted_for n) (length (log n))
    (commit_index n) (last_applied n) (ticks_since_heartbeat n)
    (election_timeout_ticks n) (fencing_token n).

(** ** Leader log append *)

Definition push_command (command : string) (n : RaftNode) : RaftNode :=
  set_log (log n ++ [mkEntry (u64_add (last_log_position n).1 1) (current_term n) command]) n.

Definition commit_if_alone (total_peers : nat) (new_index : N) (n : RaftNode) : RaftNode :=
  if (total_peers =? 0)%nat && (commit_index n <? new_index)
  then set_commit_index new_index n else n.

Definition append_command (command : string) (total_peers : nat) (n : RaftNode) : N * RaftNode :=
  let new_index := u64_add (last_log_position n).1 1 in
  let n1 := push_command command n in
  let n2 := if last_applied n1 <? new_index then set_last_applied new_index n1 else n1 in
  (new_index, commit_if_alone total_peers new_index n2).

Definition append_command_pending (command : string) (total_peers : nat) (n : RaftNode)
    : N * RaftNode :=
  let new_index := u64_add (last_log_position n).1 1 in
  (new_index, commit_if_alone total_peers new_index (push_command command n)).

(** ** InstallSnapshot, compaction, durable state *)

Definition fast_forward (i : N) (n : RaftNode) : RaftNode :=
  let n1 := if commit_index n <? i then set_commit_index i n else n in
  if last_applied n1 <? i then set_last_applied i n1 else n1.

Definition retain_after (i : N) (l : list RaftLogEntry) : list RaftLogEntry :=
  filter (fun e => i < e_index e) l.

Definition handle_install_snapshot (req : RaftInstallSnapshotRequest) (n : RaftNode)
    : RaftInstallSnapshotResponse * RaftNode :=
  if ir_term req <? current_term n
  then (mkInstallResponse (current_term n) false, n)
  else
    let n1 := set_ticks 0 (become_follower (ir_term req) n) in
    if ir_snapshot_index req <=? snapshot_index n1
    then (mkInstallResponse (current_term n1) true, n1)
    else
      let n2 := set_log (retain_after (ir_snapshot_index req) (log n1)) n1 in
      let n3 := set_snapshot (ir_snapshot_index req) (ir_snapshot_term req) n2 in
      let n4 := fast_forward (ir_snapshot_index req) n3 in
      (mkInstallResponse (current_term n4) true, n4).

Definition compact_log (up_to_index : N) (n : RaftNode) : RaftNode :=
  if up_to_index <=? snapshot_index n then n
  else match log_entry_at n up_to_index with
  | Some e =>
      set_snapshot up_to_index (e_term e) (set_log (retain_after up_to_index (log n)) n)
  | None =>
      if (last_log_position n).1 <=? up_to_index
      then set_snapshot up_to_index (last_log_position n).2 (set_log [] n)
      else set_snapshot up_to_index (snapshot_term n)
             (set_log (retain_after up_to_index (log n)) n)
  end.

Definition from_node (n : RaftNode) : RaftDurableState :=
  mkDurable (current_term n) (voted_for n) (snapshot_index n) (snapshot_term n) (log n).

Definition restore_durable (d : RaftDurableState) (n : RaftNode) : RaftNode :=
  let n1 := set_term_vote_role (d_current_term d) (d_voted_for d) (role n) n in
  let n2 := set_log (d_log d) (set_snapshot (d_snapshot_index d) (d_snapshot_term d) n1) in
  fast_forward (d_snapshot_index d) n2.

Example timeouts : map election_timeout_for ["node-1"; "node-2"; "node-3"] = [15; 12; 13].
Proof. vm_compute. reflexivity. Qed.

End Raft.
