(* ===== verification/RaftLog.v ===== *)
(** * Log structure, voting, commitment and compaction of a Raft node *)

From S2P Require Import Prelude Raft.
Open Scope string_scope.
Open Scope list_scope.
Open Scope N_scope.
Import Raft.

(** ** Contiguous logs *)

(** The entries carry the indices [s + 1, s + 2, ...]. *)
Definition contig (s : N) (l : list RaftLogEntry) : Prop :=
  ∀ i e, l !! i = Some e → e_index e = s + 1 + N.of_nat i.

Definition log_wf (n : RaftNode) : Prop := contig (snapshot_index n) (log n).

Lemma contig_nil s : contig s [].
Proof. by intros i e Hi. Qed.

Lemma contig_cons s e l : contig s (e :: l) ↔ e_index e = s + 1 ∧ contig (s + 1) l.
Proof.
  split.
  - intros Hc. split; [rewrite (Hc 0%nat e) by done; lia|].
    intros i e' Hi. rewrite (Hc (S i) e') by done. lia.
  - intros [He Hc] [|i] e' Hi; [by simplify_eq/=; lia|]. rewrite (Hc i e') by done. lia.
Qed.

Lemma contig_snoc s l e :
  contig s l → e_index e = s + 1 + N.of_nat (length l) → contig s (l ++ [e]).
Proof.
  intros Hc He i e' Hi. apply lookup_app_Some in Hi as [Hi|[Hle Hi]]; [by apply Hc|].
  apply list_lookup_singleton_Some in Hi as [Hi <-]. rewrite He. lia.
Qed.

Lemma contig_take s l k : contig s l → contig s (take k l).
Proof. intros Hc i e Hi. apply Hc. by apply lookup_take_Some in Hi as [? _]. Qed.

Lemma contig_last s l e : contig s l → last l = Some e → e_index e = s + N.of_nat (length l).
Proof.
  intros Hc Hl. rewrite last_lookup in Hl. rewrite (Hc _ _ Hl).
  apply lookup_lt_Some in Hl. lia.
Qed.

Lemma retain_after_drop s i l :
  contig s l → retain_after i l = drop (N.to_nat (i - s)) l.
Proof.
  unfold retain_after. revert s. induction l as [|e l IH]; intros s Hc; [by destruct (N.to_nat _)|].
  apply contig_cons in Hc as [He Hc]. rewrite filter_cons, (IH (s + 1)) by done.
  case_decide as Hlt.
  - replace (N.to_nat (i - s)) with 0%nat by lia. replace (N.to_nat (i - (s + 1))) with 0%nat by lia.
    done.
  - replace (N.to_nat (i - s)) with (S (N.to_nat (i - (s + 1)))) by lia. done.
Qed.

Lemma contig_retain s i l : contig s l → s <= i → contig i (retain_after i l).
Proof.
  intros Hc Hi. rewrite (retain_after_drop s) by done.
  intros j e Hj. rewrite lookup_drop in Hj. rewrite (Hc _ _ Hj).
  apply lookup_lt_Some in Hj. lia.
Qed.

(** ** Positions of a well-formed log *)

Lemma last_index_wf n :
  log_wf n → (last_log_position n).1 = snapshot_index n + N.of_nat (length (log n)).
Proof.
  intros Hwf. unfold last_log_position. destruct (last (log n)) as [e|] eqn:Hl.
  - by apply contig_last.
  - apply last_None in Hl. rewrite Hl. simpl. destruct (N.ltb_spec 0 (snapshot_index n)); simpl; lia.
Qed.

Lemma log_entry_at_index n i e : log_wf n → log_entry_at n i = Some e → e_index e = i.
Proof.
  intros Hwf. unfold log_entry_at.
  destruct (N.eqb_spec i 0), (N.leb_spec i (snapshot_index n)); simpl; try done.
  intros He. rewrite (Hwf _ _ He). lia.
Qed.

Lemma log_entry_at_Some n i :
  log_wf n →
  is_Some (log_entry_at n i) ↔ snapshot_index n < i ∧ i <= (last_log_position n).1.
Proof.
  intros Hwf. rewrite last_index_wf by done. unfold log_entry_at.
  destruct (N.eqb_spec i 0), (N.leb_spec i (snapshot_index n)); simpl.
  1-3: rewrite is_Some_alt; lia.
  rewrite lookup_lt_is_Some. lia.
Qed.

(** ** The append loop *)

Definition phys (s : N) (e : RaftLogEntry) : nat := N.to_nat (e_index e - s - 1).

(** The log holds an entry of the same term at [e]'s index. *)
Definition holds (s : N) (l : list RaftLogEntry) (e : RaftLogEntry) : Prop :=
  s < e_index e → ∃ e', l !! phys s e = Some e' ∧ e_term e' = e_term e.

(** [e] does not contradict what the log has at its index. *)
Definition agrees (s : N) (l : list RaftLogEntry) (e : RaftLogEntry) : Prop :=
  s < e_index e → ∀ e0, l !! phys s e = Some e0 → e_term e0 = e_term e.

Lemma append_entry_spec s l e prev :
  contig s l → e_index e = prev + 1 → prev <= s + N.of_nat (length l) →
  let l' := append_entry s l e in
  contig s l' ∧ prev + 1 <= s + N.of_nat (length l') ∧ holds s l' e ∧
  (∀ i, s + 1 + N.of_nat i <= prev → l' !! i = l !! i) ∧
  (agrees s l e → l' = l ∨ l' = l ++ [e]).
Proof.
  intros Hc He Hgap. cbv zeta. unfold append_entry. rewrite !He.
  destruct (N.leb_spec (prev + 1) s) as [Hcovered|Hnew].
  - split_and!; [done|lia|intros ?; lia|done|by left].
  - destruct (l !! N.to_nat (prev + 1 - s - 1)) as [e0|] eqn:He0.
    + pose proof (lookup_lt_Some _ _ _ He0) as Hlt.
      destruct (N.eqb_spec (e_term e0) (e_term e)) as [Heq|Hne].
      * split_and!; [done|lia| |done|by left].
        intros _. exists e0. unfold phys. by rewrite He.
      * set (k := N.to_nat (prev + 1 - s - 1)) in *.
        assert (length (take k l) = k) as Hk by (rewrite length_take; lia).
        split_and!.
        -- apply contig_snoc; [by apply contig_take|]. rewrite He, Hk. lia.
        -- rewrite length_app, Hk. simpl. lia.
        -- intros _. exists e. unfold phys. rewrite He. fold k.
           by rewrite lookup_app_r, Hk, Nat.sub_diag by lia.
        -- intros i Hi. assert (i < k)%nat by (subst k; lia).
           rewrite lookup_app_l by lia. by rewrite lookup_take_lt by lia.
        -- intros Hag. exfalso. apply Hne, Hag; [lia|]. unfold phys. by rewrite He.
    + apply lookup_ge_None in He0.
      split_and!.
      * apply contig_snoc; [done|]. rewrite He. lia.
      * rewrite length_app. simpl. lia.
      * intros _. exists e. unfold phys. rewrite He.
        rewrite lookup_app_r by lia.
        by replace (N.to_nat (prev + 1 - s - 1) - length l)%nat with 0%nat by lia.
      * intros i Hi. by rewrite lookup_app_l by lia.
      * by right.
Qed.

Lemma append_loop_spec s es l prev :
  contig s l → contig prev es → prev <= s + N.of_nat (length l) →
  let l' := fold_left (append_entry s) es l in
  contig s l' ∧ prev + N.of_nat (length es) <= s + N.of_nat (length l') ∧
  Forall (holds s l') es ∧
  (∀ i, s + 1 + N.of_nat i <= prev → l' !! i = l !! i) ∧
  (Forall (agrees s l) es → l `prefix_of` l').
Proof.
  revert l prev. induction es as [|e es IH]; intros l prev Hc Hces Hgap; cbv zeta.
  - simpl. split_and!; [done|lia|done|done|by exists []; rewrite app_nil_r].
  - apply contig_cons in Hces as [He Hces].
    destruct (append_entry_spec s l e prev Hc He Hgap) as (Hc1 & Hgap1 & Hh1 & Hlow1 & Hag1).
    destruct (IH _ _ Hc1 Hces Hgap1) as (Hc' & Hlen' & Hh' & Hlow' & Hpre').
    simpl fold_left. split_and!.
    + done.
    + simpl length. lia.
    + constructor; [|done]. intros Hs. destruct (Hh1 Hs) as (e' & Hl & Ht).
      exists e'. split; [|done]. rewrite Hlow'; [done|]. unfold phys. lia.
    + intros i Hi. rewrite Hlow' by lia. by apply Hlow1.
    + intros Hall. apply Forall_cons in Hall as [Hage Hall].
      destruct (Hag1 Hage) as [Heq|Heq]; rewrite Heq in Hpre' |- *; [by apply Hpre'|].
      transitivity (l ++ [e]); [by exists [e]|]. apply Hpre'.
      rewrite Forall_lookup in Hall |- *. intros j ej Hj Hs e0 He0.
      pose proof (Hces _ _ Hj) as Hij.
      apply lookup_app_Some in He0 as [He0|[Hge He0]]; [by eapply Hall|].
      apply list_lookup_singleton_Some in He0 as [He0 _]. exfalso.
      rewrite Heq in Hc1. assert (e_index e = s + 1 + N.of_nat (length l)) as He'.
      { apply Hc1. by rewrite lookup_app_r, Nat.sub_diag by lia. }
      unfold phys in *. lia.
Qed.

(** Entries the log already holds leave it unchanged. *)
Lemma append_loop_holds s es l :
  Forall (holds s l) es → fold_left (append_entry s) es l = l.
Proof.
  induction es as [|e es IH]; intros Hall; [done|].
  apply Forall_cons in Hall as [He Hall]. simpl.
  assert (append_entry s l e = l) as ->; [|by apply IH].
  unfold append_entry. destruct (N.leb_spec (e_index e) s) as [|Hs]; [done|].
  destruct (He Hs) as (e' & Hl & Ht). unfold phys in Hl. by rewrite Hl, Ht, N.eqb_refl.
Qed.

(** ** Frames: what each transition leaves alone *)

Lemma become_follower_frame t n :
  current_term (become_follower t n) = N.max (current_term n) t ∧
  role (become_follower t n) = Follower ∧ node_id (become_follower t n) = node_id n ∧
  log (become_follower t n) = log n ∧
  snapshot_index (become_follower t n) = snapshot_index n ∧
  snapshot_term (become_follower t n) = snapshot_term n ∧
  commit_index (become_follower t n) = commit_index n ∧
  last_applied (become_follower t n) = last_applied n ∧
  voted_for (become_follower t n) = (if current_term n <? t then None else voted_for n).
Proof.
  unfold become_follower. destruct (N.ltb_spec (current_term n) t); simpl;
    split_and!; try done; lia.
Qed.

Lemma fast_forward_frame i n :
  node_id (fast_forward i n) = node_id n ∧
  current_term (fast_forward i n) = current_term n ∧
  voted_for (fast_forward i n) = voted_for n ∧ role (fast_forward i n) = role n ∧
  log (fast_forward i n) = log n ∧ snapshot_index (fast_forward i n) = snapshot_index n ∧
  snapshot_term (fast_forward i n) = snapshot_term n ∧
  commit_index (fast_forward i n) = N.max (commit_index n) i ∧
  last_applied (fast_forward i n) = N.max (last_applied n) i ∧
  election_timeout_ticks (fast_forward i n) = election_timeout_ticks n.
Proof.
  unfold fast_forward.
  destruct (N.ltb_spec (commit_index n) i); simpl;
    destruct (N.ltb_spec (last_applied n) i); simpl; split_and!; try done; lia.
Qed.

Lemma init_leader_indices_frame peers n :
  let n' := init_leader_indices peers n in
  node_id n' = node_id n ∧ current_term n' = current_term n ∧ voted_for n' = voted_for n ∧
  role n' = role n ∧ log n' = log n ∧ snapshot_index n' = snapshot_index n ∧
  commit_index n' = commit_index n.
Proof.
  unfold init_leader_indices. generalize (u64_add (last_log_position n).1 1). intros nx.
  cbv zeta. revert n. induction peers as [|p peers IH]; intros n; [done|].
  simpl fold_left. destruct (IH (set_progress (<[p:=nx]> (next_index n))
    (<[p:=0]> (match_index n)) n)) as (-> & -> & -> & -> & -> & -> & ->). done.
Qed.

(** ** Commit advancement on the leader *)

Definition commit_loop (q : nat) (ns : list N) (n : RaftNode) : RaftNode :=
  fold_left (fun n i =>
    if (q <=? replication_count (match_index n) i)%nat then set_commit_index i n else n) ns n.

Lemma commit_loop_spec q ns n :
  let n' := commit_loop q ns n in
  match_index n' = match_index n ∧ log n' = log n ∧ snapshot_index n' = snapshot_index n ∧
  current_term n' = current_term n ∧ voted_for n' = voted_for n ∧ role n' = role n ∧
  node_id n' = node_id n ∧
  commit_index n' =
    default (commit_index n)
      (last (filter (fun i => (q <= replication_count (match_index n) i)%nat) ns)).
Proof.
  cbv zeta. induction ns as [|i ns IH] using rev_ind; [done|].
  unfold commit_loop in *. rewrite fold_left_app. simpl.
  destruct IH as (Hm & Hl & Hs & Ht & Hv & Hr & Hid & Hc).
  set (n1 := fold_left _ ns n) in *. rewrite filter_app. simpl.
  rewrite Hm. destruct (Nat.leb_spec q (replication_count (match_index n) i)) as [Hq|Hq].
  - rewrite filter_cons_True, filter_nil, last_snoc by done. done.
  - rewrite filter_cons_False, filter_nil, app_nil_r by lia. done.
Qed.

Lemma elem_of_range lo hi i : i ∈ range_inclusive lo hi ↔ lo <= i ∧ i <= hi.
Proof.
  unfold range_inclusive. rewrite list_elem_of_fmap. split.
  - intros (k & -> & Hk). apply elem_of_seq in Hk. lia.
  - intros [Hlo Hhi]. exists (N.to_nat (i - lo)). rewrite elem_of_seq. lia.
Qed.

Lemma range_lookup lo hi j x : range_inclusive lo hi !! j = Some x → x = lo + N.of_nat j.
Proof.
  unfold range_inclusive. rewrite list_lookup_fmap.
  destruct (seq _ _ !! j) as [k|] eqn:Hk; [|done]. intros [= <-].
  apply lookup_seq in Hk as [-> _]. lia.
Qed.

(** In an increasing range the last element satisfying a predicate is the
    greatest one. *)
Lemma range_last_filter (P : N -> Prop) `{!∀ i, Decision (P i)} lo hi i :
  last (filter P (range_inclusive lo hi)) = Some i →
  P i ∧ lo <= i ∧ i <= hi ∧ ∀ j, P j → lo <= j → j <= hi → j <= i.
Proof.
  intros Hl. assert (i ∈ filter P (range_inclusive lo hi)) as Hin.
  { apply last_Some in Hl as [l' ->]. set_solver. }
  apply list_elem_of_filter in Hin as [HP Hin%elem_of_range].
  split_and!; [done|lia|lia|]. intros j Hj Hlo Hhi.
  apply last_Some in Hl as [l' Hl].
  assert (j ∈ l' ++ [i]) as Hjin.
  { rewrite <- Hl. apply list_elem_of_filter. split; [done|]. by apply elem_of_range. }
  assert (StronglySorted N.le (l' ++ [i])) as Hs.
  { rewrite <- Hl. clear. unfold range_inclusive.
    generalize (N.to_nat (hi + 1 - lo)), 0%nat. intros k.
    induction k as [|k IH]; intros b; simpl; [constructor|].
    assert (∀ x, x ∈ filter P ((fun i => lo + N.of_nat i) <$> seq (S b) k) → lo + N.of_nat b <= x) as Hb.
    { intros x [_ (c & -> & Hc%elem_of_seq)%list_elem_of_fmap]%list_elem_of_filter. lia. }
    rewrite filter_cons. case_decide; [|apply IH].
    constructor; [apply IH|]. apply List.Forall_forall. intros x Hx%list_elem_of_In. by apply Hb. }
  apply elem_of_app in Hjin as [Hjin|Hjin]; [|apply list_elem_of_singleton in Hjin; lia].
  clear -Hs Hjin. induction l' as [|a l' IH]; [set_solver|].
  inversion Hs as [|? ? Hs' Ha]; subst. apply elem_of_cons in Hjin as [->|Hjin]; [|by apply IH].
  rewrite List.Forall_forall in Ha. apply Ha. apply in_or_app. right. by left.
Qed.

(** ** Voting *)

Lemma handle_vote_request_frame req n :
  let '(resp, n') := handle_vote_request req n in
  current_term n' = N.max (current_term n) (vr_term req) ∧ node_id n' = node_id n ∧
  log n' = log n ∧ snapshot_index n' = snapshot_index n ∧ commit_index n' = commit_index n ∧
  vp_term resp = current_term n' ∧
  (vp_granted resp = true →
     vr_term req = current_term n' ∧ voted_for n' = Some (vr_candidate_id req) ∧
     (voted_for n = None ∨ voted_for n = Some (vr_candidate_id req) ∨ current_term n < vr_term req) ∧
     log_up_to_date req n = true) ∧
  (current_term n = current_term n' → voted_for n ≠ None → voted_for n' = voted_for n).
Proof.
  unfold handle_vote_request, become_follower.
  destruct (N.ltb_spec (current_term n) (vr_term req)) as [Hlt|Hge]; simpl.
  - rewrite (proj2 (N.ltb_ge (vr_term req) (vr_term req))) by lia.
    assert (log_up_to_date req (set_term_vote_role (vr_term req) None Follower n)
            = log_up_to_date req n) as -> by done.
    destruct (log_up_to_date req n); simpl; split_and!; try done; try lia.
    intros _. split_and!; try done. by right; right.
  - destruct (N.ltb_spec (vr_term req) (current_term n)) as [Hlt|Hle]; simpl.
    { split_and!; try done; lia. }
    assert (vr_term req = current_term n) as Heq by lia.
    destruct (voted_for n) as [v|] eqn:Hv; simpl.
    + destruct (String.eqb_spec v (vr_candidate_id req)) as [->|Hne]; simpl.
      * destruct (log_up_to_date req n); simpl; split_and!; try done; try lia.
        intros _. split_and!; try done. by right; left.
      * split_and!; try done; try lia.
    + destruct (log_up_to_date req n); simpl; split_and!; try done; try lia.
      intros _. split_and!; try done. by left.
Qed.
