(* ===== verification/RaftProps.v ===== *)
(** * Properties of a single Raft node over all its events *)

From S2P Require Import Prelude Raft RaftLog.
Open Scope string_scope.
Open Scope list_scope.
Open Scope N_scope.
Import Raft.

(** ** Events of a node *)

Inductive event :=
| EvTick
| EvVote (req : RaftVoteRequest)
| EvAppend (req : RaftAppendRequest)
| EvInstall (req : RaftInstallSnapshotRequest)
| EvCommand (command : string) (total_peers : nat)
| EvPending (command : string) (total_peers : nat)
| EvWin (peers : list string)
| EvSuccess (peer : string) (m : N) (total_nodes : nat)
| EvFailure (peer : string)
| EvCompact (up_to : N)
| EvRestart.

(** [EvRestart] is a restart from the durable state that was just persisted. *)
Definition node_step (ev : event) (n : RaftNode) : RaftNode :=
  match ev with
  | EvTick => tick n
  | EvVote req => (handle_vote_request req n).2
  | EvAppend req => (handle_append_entries req n).2
  | EvInstall req => (handle_install_snapshot req n).2
  | EvCommand c p => (append_command c p n).2
  | EvPending c p => (append_command_pending c p n).2
  | EvWin peers => init_leader_indices peers (become_leader n)
  | EvSuccess peer m total => record_append_success peer m total n
  | EvFailure peer => record_append_failure peer n
  | EvCompact i => compact_log i n
  | EvRestart => restore_durable (from_node n) (new (node_id n))
  end.

(** Admissible events: AppendEntries carries consecutive entries after its
    [prev_log_index] (what [run_raft_tick_loop] sends), and the 64-bit term and
    index counters do not wrap. *)
Definition event_ok (ev : event) (n : RaftNode) : Prop :=
  match ev with
  | EvTick => current_term n < u64_max
  | EvAppend req => contig (ar_prev_log_index req) (ar_entries req)
  | EvCommand _ _ | EvPending _ _ => (last_log_position n).1 < u64_max
  | _ => True
  end.

Inductive steps : RaftNode -> RaftNode -> Prop :=
| steps_refl n : steps n n
| steps_step n ev n' : event_ok ev n → steps (node_step ev n) n' → steps n n'.

(** ** The log invariant *)

Lemma append_entries_log req n :
  ap_success (handle_append_entries req n).1 = true →
  let n' := (handle_append_entries req n).2 in
  current_term n <= ar_term req ∧ consistency_check req n = true ∧
  current_term n' = N.max (current_term n) (ar_term req) ∧
  snapshot_index n' = snapshot_index n ∧ snapshot_term n' = snapshot_term n ∧
  log n' = fold_left (append_entry (snapshot_index n)) (ar_entries req) (log n) ∧
  commit_index n' =
    (if commit_index n <? ar_leader_commit req
     then N.min (ar_leader_commit req) (last_log_position n').1 else commit_index n) ∧
  ap_match_index (handle_append_entries req n).1 = (last_log_position n').1 ∧
  ticks_since_heartbeat n' = 0 ∧ role n' = Follower.
Proof.
  unfold handle_append_entries.
  destruct (N.ltb_spec (ar_term req) (current_term n)) as [|Hle]; [done|].
  pose proof (become_follower_frame (ar_term req) n) as Hf. unfold become_follower in *.
  destruct (current_term n <? ar_term req); simpl in *;
    (change (consistency_check req (set_ticks 0 _)) with (consistency_check req n);
     destruct (consistency_check req n) eqn:Hck; simpl; [|done]; intros _;
     destruct (commit_index n <? ar_leader_commit req); simpl; split_and!; try done; lia).
Qed.

Lemma append_entries_rejected req n :
  ap_success (handle_append_entries req n).1 = false →
  log (handle_append_entries req n).2 = log n ∧
  snapshot_index (handle_append_entries req n).2 = snapshot_index n ∧
  commit_index (handle_append_entries req n).2 = commit_index n.
Proof.
  unfold handle_append_entries.
  destruct (ar_term req <? current_term n); [done|].
  unfold become_follower. destruct (current_term n <? ar_term req); simpl;
    (destruct (consistency_check _ _); simpl; [done|]; done).
Qed.

(** A passed consistency check leaves no gap before the new entries. *)
Lemma consistency_check_no_gap req n :
  log_wf n → consistency_check req n = true →
  ar_prev_log_index req <= snapshot_index n + N.of_nat (length (log n)).
Proof.
  intros Hwf. unfold consistency_check.
  destruct (N.ltb_spec 0 (ar_prev_log_index req)) as [Hpos|]; [|lia].
  destruct (N.eqb_spec (ar_prev_log_index req) (snapshot_index n)); [lia|].
  destruct (log_entry_at n (ar_prev_log_index req)) as [e|] eqn:He; [|done]. intros _.
  destruct (proj1 (log_entry_at_Some n (ar_prev_log_index req) Hwf)) as [_ Hle]; [by rewrite He|].
  by rewrite last_index_wf in Hle.
Qed.

Lemma append_entries_wf req n :
  contig (ar_prev_log_index req) (ar_entries req) → log_wf n →
  log_wf (handle_append_entries req n).2.
Proof.
  intros Hes Hwf. destruct (ap_success (handle_append_entries req n).1) eqn:Hs.
  - destruct (append_entries_log req n Hs) as (_ & Hck & _ & Hsi & _ & Hl & _).
    unfold log_wf. rewrite Hsi, Hl.
    by apply (append_loop_spec _ _ _ (ar_prev_log_index req)); [..|apply consistency_check_no_gap].
  - destruct (append_entries_rejected req n Hs) as (Hl & Hsi & _). unfold log_wf. by rewrite Hl, Hsi.
Qed.

(** Rewrites the projections of a [fast_forward]ed node. *)
Ltac frame_fast_forward :=
  match goal with |- context [fast_forward ?i ?m] =>
    let Hid := fresh in let Ht := fresh in let Hv := fresh in let Hr := fresh in
    let Hl := fresh in let Hs := fresh in let Hst := fresh in let Hc := fresh in
    let Ha := fresh in
    destruct (fast_forward_frame i m) as (Hid & Ht & Hv & Hr & Hl & Hs & Hst & Hc & Ha & _);
    rewrite ?Hid, ?Ht, ?Hv, ?Hr, ?Hl, ?Hs, ?Hst, ?Hc, ?Ha;
    clear Hid Ht Hv Hr Hl Hs Hst Hc Ha
  end.

Lemma install_snapshot_wf req n : log_wf n → log_wf (handle_install_snapshot req n).2.
Proof.
  intros Hwf. unfold handle_install_snapshot. destruct (ir_term req <? current_term n); [done|].
  destruct (become_follower_frame (ir_term req) n) as (_ & _ & _ & Hl & Hs & _).
  simpl snapshot_index. rewrite Hs.
  destruct (N.leb_spec (ir_snapshot_index req) (snapshot_index n)).
  - unfold log_wf. simpl. by rewrite Hl, Hs.
  - unfold log_wf. cbn [snd]. frame_fast_forward.
    simpl. rewrite Hl. apply (contig_retain (snapshot_index n)); [done|lia].
Qed.

Lemma compact_log_wf i n : log_wf n → log_wf (compact_log i n).
Proof.
  intros Hwf. unfold compact_log. destruct (N.leb_spec i (snapshot_index n)); [done|].
  assert (contig i (retain_after i (log n))) by (apply (contig_retain (snapshot_index n)); [done|lia]).
  destruct (log_entry_at n i); [done|].
  destruct ((last_log_position n).1 <=? i); [apply contig_nil|done].
Qed.

Lemma push_command_wf c n :
  (last_log_position n).1 < u64_max → log_wf n → log_wf (push_command c n).
Proof.
  intros Hb Hwf. unfold log_wf. simpl. apply contig_snoc; [done|]. simpl.
  rewrite u64_add_small; [|unfold u64_max, u64_modulus in *; lia].
  rewrite last_index_wf by done. lia.
Qed.

Lemma node_step_wf ev n : event_ok ev n → log_wf n → log_wf (node_step ev n).
Proof.
  intros Hok Hwf. destruct ev as [|req|req|req|c p|c p|peers|peer m total|peer|i|]; simpl in *.
  - unfold tick. case_decide; [|done]. by destruct (_ <=? _).
  - pose proof (handle_vote_request_frame req n) as Hf.
    destruct (handle_vote_request req n) as [r n']. destruct Hf as (_ & _ & Hl & Hs & _).
    unfold log_wf. simpl. by rewrite Hl, Hs.
  - by apply append_entries_wf.
  - by apply install_snapshot_wf.
  - pose proof (push_command_wf c n Hok Hwf) as Hp. unfold append_command, commit_if_alone.
    cbn [snd]. destruct (last_applied _ <? _), ((p =? 0)%nat && _); done.
  - pose proof (push_command_wf c n Hok Hwf) as Hp. unfold append_command_pending, commit_if_alone.
    cbn [snd]. by destruct ((p =? 0)%nat && _).
  - destruct (init_leader_indices_frame peers (become_leader n)) as (_ & _ & _ & _ & Hl & Hs & _).
    unfold log_wf. by rewrite Hl, Hs.
  - unfold record_append_success. fold (commit_loop (quorum_of total)
      (range_inclusive (u64_add (commit_index n) 1) m)).
    destruct (commit_loop_spec (quorum_of total) (range_inclusive (u64_add (commit_index n) 1) m)
      (set_progress (<[peer:=u64_add m 1]> (next_index n)) (<[peer:=m]> (match_index n)) n))
      as (_ & Hl & Hs & _).
    unfold log_wf. unfold commit_loop in *. simpl in *. by rewrite Hl, Hs.
  - done.
  - by apply compact_log_wf.
  - unfold restore_durable, log_wf. frame_fast_forward. exact Hwf.
Qed.

Lemma steps_wf n n' : steps n n' → log_wf n → log_wf n'.
Proof. induction 1; intros; eauto using node_step_wf. Qed.

(** C14: log invariant.  In every state a node reaches from its start through any
    admissible events (ticks, votes, AppendEntries, snapshots, commands,
    leadership, compaction, restarts) the log holds consecutive indices right
    after the snapshot, so the physical offsets the code computes address
    exactly the entries with the asked logical index. *)
Theorem raft_log_invariant (id : string) (n : RaftNode) :
  steps (new id) n →
  log_wf n ∧
  (last_log_position n).1 = snapshot_index n + N.of_nat (length (log n)) ∧
  ∀ i, snapshot_index n < i ∧ i <= (last_log_position n).1 ↔
       ∃ e, log_entry_at n i = Some e ∧ e_index e = i.
Proof.
  intros Hsteps. assert (log_wf n) as Hwf by (eapply steps_wf; [done|apply contig_nil]).
  split_and!; [done|by apply last_index_wf|]. intros i.
  rewrite <- log_entry_at_Some by done. split; [|intros (e & He & _); by rewrite He].
  intros [e He]. exists e. split; [done|]. by eapply log_entry_at_index.
Qed.

Lemma raft_log_invariant_witness :
  ∃ n, steps (new "n1") n ∧ (last_log_position n).1 = 3.
Proof.
  eexists. split.
  - eapply (steps_step _ (EvAppend (mkAppendRequest 1 "n2" 0 0
      [mkEntry 1 1 "a"; mkEntry 2 1 "b"; mkEntry 3 1 "c"] 2))).
    { intros i e Hi. destruct i as [|[|[|]]]; simpl in Hi; simplify_eq; done. }
    eapply (steps_step _ (EvCompact 2)); [done|]. apply steps_refl.
  - destruct (raft_log_invariant "n1" (node_step (EvCompact 2) (node_step
      (EvAppend (mkAppendRequest 1 "n2" 0 0
         [mkEntry 1 1 "a"; mkEntry 2 1 "b"; mkEntry 3 1 "c"] 2)) (new "n1")))) as (_ & Hl & _).
    + eapply steps_step; [|eapply steps_step; [|apply steps_refl]]; [|done].
      intros i e Hi. destruct i as [|[|[|]]]; simpl in Hi; simplify_eq; done.
    + rewrite Hl. reflexivity.
Defined.

(** ** One vote per term *)

Lemma append_entries_term_vote req n :
  current_term n <= current_term (handle_append_entries req n).2 ∧
  (current_term (handle_append_entries req n).2 = current_term n →
   voted_for (handle_append_entries req n).2 = voted_for n).
Proof.
  unfold handle_append_entries. destruct (ar_term req <? current_term n) eqn:E; [simpl; split; [lia|done]|].
  unfold become_follower. destruct (N.ltb_spec (current_term n) (ar_term req)); simpl;
    (destruct (consistency_check _ _); simpl;
       [destruct (commit_index n <? ar_leader_commit req); simpl|]; split; try done; lia).
Qed.

Lemma install_term_vote req n :
  current_term n <= current_term (handle_install_snapshot req n).2 ∧
  (current_term (handle_install_snapshot req n).2 = current_term n →
   voted_for (handle_install_snapshot req n).2 = voted_for n).
Proof.
  unfold handle_install_snapshot. destruct (ir_term req <? current_term n); [simpl; split; [lia|done]|].
  destruct (become_follower_frame (ir_term req) n) as (Ht & _ & _ & _ & _ & _ & _ & _ & Hv).
  destruct (_ <=? _); cbn [snd]; [|frame_fast_forward]; simpl; rewrite Ht, Hv;
    destruct (N.ltb_spec (current_term n) (ir_term req)); split; try done; lia.
Qed.

Lemma node_step_vote ev n :
  event_ok ev n →
  current_term n <= current_term (node_step ev n) ∧
  (current_term (node_step ev n) = current_term n → voted_for n ≠ None →
   voted_for (node_step ev n) = voted_for n).
Proof.
  intros Hok. destruct ev as [|req|req|req|c p|c p|peers|peer m total|peer|i|]; simpl in *.
  - unfold tick. case_decide; [|done]. destruct (_ <=? _); simpl; [|done].
    rewrite u64_add_small; [|unfold u64_max, u64_modulus in *; lia]. split; [lia|lia].
  - pose proof (handle_vote_request_frame req n) as Hf.
    destruct (handle_vote_request req n) as [r n']. simpl. destruct Hf as (Ht & _ & _ & _ & _ & _ & _ & Hv).
    split; [lia|]. intros Heq. by apply Hv.
  - destruct (append_entries_term_vote req n) as [? Hv]. split; [done|]. intros ? _. by apply Hv.
  - destruct (install_term_vote req n) as [? Hv]. split; [done|]. intros ? _. by apply Hv.
  - unfold append_command, commit_if_alone. cbn [snd].
    destruct (last_applied _ <? _), ((p =? 0)%nat && _); done.
  - unfold append_command_pending, commit_if_alone. cbn [snd]. by destruct ((p =? 0)%nat && _).
  - destruct (init_leader_indices_frame peers (become_leader n)) as (_ & -> & -> & _). done.
  - unfold record_append_success.
    destruct (commit_loop_spec (quorum_of total) (range_inclusive (u64_add (commit_index n) 1) m)
      (set_progress (<[peer:=u64_add m 1]> (next_index n)) (<[peer:=m]> (match_index n)) n))
      as (_ & _ & _ & Ht & Hv & _). unfold commit_loop in *. simpl in *. by rewrite Ht, Hv.
  - done.
  - unfold compact_log. destruct (_ <=? _); [done|]. destruct (log_entry_at n i); [done|].
    by destruct (_ <=? _).
  - unfold restore_durable. frame_fast_forward. done.
Qed.

Lemma steps_vote n n' :
  steps n n' → current_term n <= current_term n' ∧
  (current_term n' = current_term n → voted_for n ≠ None → voted_for n' = voted_for n).
Proof.
  induction 1 as [n|n ev n' Hok _ [IHt IHv]]; [done|].
  destruct (node_step_vote ev n Hok) as [Ht Hv]. split; [lia|].
  intros Heq Hne. assert (current_term (node_step ev n) = current_term n) as Hmid by lia.
  specialize (Hv Hmid Hne). rewrite <- Hv. apply IHv; [lia|]. by rewrite Hv.
Qed.

(** One vote per term.  If a node grants its vote to one candidate and
    later, after any events including restarts from its persisted state, grants
    a vote for the same term again, it is to the same candidate.  A granted vote
    also implies that the candidate's log was at least as up to date, and terms
    never decrease. *)
Theorem one_vote_per_term (n n1 n2 n3 : RaftNode) (r1 r2 : RaftVoteRequest) :
  handle_vote_request r1 n = (mkVoteResponse (current_term n1) true, n1) →
  steps n1 n2 →
  handle_vote_request r2 n2 = (mkVoteResponse (current_term n3) true, n3) →
  current_term n1 <= current_term n2 ∧
  log_up_to_date r1 n = true ∧ log_up_to_date r2 n2 = true ∧
  (vr_term r1 = vr_term r2 → vr_candidate_id r1 = vr_candidate_id r2).
Proof.
  intros H1 Hsteps H2.
  pose proof (handle_vote_request_frame r1 n) as Hf1. rewrite H1 in Hf1.
  pose proof (handle_vote_request_frame r2 n2) as Hf2. rewrite H2 in Hf2.
  destruct Hf1 as (_ & _ & _ & _ & _ & _ & Hg1 & _). destruct (Hg1 eq_refl) as (Ht1 & Hv1 & _ & Hl1).
  destruct Hf2 as (_ & _ & _ & _ & _ & _ & Hg2 & _). destruct (Hg2 eq_refl) as (Ht2 & Hv2 & Hor & Hl2).
  destruct (steps_vote _ _ Hsteps) as [Hmono Hkeep].
  split_and!; [done|done|done|]. intros Heq.
  assert (current_term n3 = N.max (current_term n2) (vr_term r2)) as Hmax.
  { pose proof (handle_vote_request_frame r2 n2) as Hf. rewrite H2 in Hf. apply Hf. }
  assert (current_term n2 = current_term n1) as Heqt by lia.
  specialize (Hkeep Heqt). rewrite Hv1 in Hkeep. specialize (Hkeep ltac:(done)).
  destruct Hor as [Hor|[Hor|Hor]]; [congruence|congruence|lia].
Qed.

Lemma one_vote_per_term_witness :
  let r := mkVoteRequest 4 "a" 0 0 in
  let n1 := (handle_vote_request r (new "v")).2 in
  let n2 := node_step EvRestart n1 in
  vp_granted (handle_vote_request r n2).1 = true ∧ log_up_to_date r n2 = true.
Proof.
  split; [reflexivity|].
  eapply (one_vote_per_term (new "v") (handle_vote_request (mkVoteRequest 4 "a" 0 0) (new "v")).2
    _ (handle_vote_request (mkVoteRequest 4 "a" 0 0) (node_step EvRestart
         (handle_vote_request (mkVoteRequest 4 "a" 0 0) (new "v")).2)).2
    (mkVoteRequest 4 "a" 0 0) (mkVoteRequest 4 "a" 0 0)).
  - reflexivity.
  - eapply (steps_step _ EvRestart); [done|apply steps_refl].
  - reflexivity.
Defined.

(** ** AppendEntries *)

(** C2: AppendEntries, success case.  With consecutive entries and a passed
    consistency check: entries up to [prev_log_index] are untouched; afterwards
    the log holds an entry of the right term at the index of every entry sent;
    if nothing conflicted no existing entry is lost; [leader_commit] is clipped
    to the log end; and delivering the same request again changes nothing in
    the log. *)
Theorem append_entries_correct (req : RaftAppendRequest) (n n' : RaftNode)
    (resp : RaftAppendResponse) :
  log_wf n → contig (ar_prev_log_index req) (ar_entries req) →
  handle_append_entries req n = (resp, n') → ap_success resp = true →
  log_wf n' ∧
  (∀ i, i <= ar_prev_log_index req → log_entry_at n' i = log_entry_at n i) ∧
  (∀ e, e ∈ ar_entries req → snapshot_index n < e_index e →
     ∃ e', log_entry_at n' (e_index e) = Some e' ∧ e_term e' = e_term e) ∧
  (Forall (agrees (snapshot_index n) (log n)) (ar_entries req) → log n `prefix_of` log n') ∧
  ar_prev_log_index req + N.of_nat (length (ar_entries req)) <= ap_match_index resp ∧
  commit_index n' = (if commit_index n <? ar_leader_commit req
     then N.min (ar_leader_commit req) (last_log_position n').1 else commit_index n) ∧
  log (handle_append_entries req n').2 = log n'.
Proof.
  intros Hwf Hes Hh Hs. pose proof (append_entries_log req n) as Hlog. rewrite Hh in Hlog.
  destruct (Hlog Hs) as (_ & Hck & _ & Hsi & _ & Hl & Hc & Hm & _). cbn [fst snd] in *.
  pose proof (append_entries_wf req n Hes Hwf) as Hwf'. rewrite Hh in Hwf'. cbn [snd] in Hwf'.
  destruct (append_loop_spec _ _ _ _ Hwf Hes (consistency_check_no_gap req n Hwf Hck))
    as (_ & Hlen & Hholds & Hlow & Hpre).
  rewrite <- Hl in *. split_and!; try done.
  - intros i Hi. unfold log_entry_at. rewrite Hsi.
    destruct (N.eqb_spec i 0), (N.leb_spec i (snapshot_index n)); simpl; try done.
    apply Hlow. lia.
  - intros e He Hlt. rewrite Forall_forall in Hholds.
    destruct (Hholds e He Hlt) as (e' & He' & Ht). exists e'. split; [|done].
    unfold log_entry_at. rewrite Hsi.
    destruct (N.eqb_spec (e_index e) 0), (N.leb_spec (e_index e) (snapshot_index n));
      simpl; try lia. done.
  - rewrite Hm, last_index_wf, Hsi by done. lia.
  - destruct (ap_success (handle_append_entries req n').1) eqn:Hs2.
    + destruct (append_entries_log req n' Hs2) as (_ & _ & _ & _ & _ & -> & _).
      apply append_loop_holds. by rewrite Hsi.
    + by apply append_entries_rejected.
Qed.

Lemma append_entries_correct_witness :
  ∃ resp n', handle_append_entries
      (mkAppendRequest 2 "l" 1 1 [mkEntry 2 2 "x"] 2)
      (set_log [mkEntry 1 1 "a"; mkEntry 2 1 "b"; mkEntry 3 1 "c"] (new "f")) = (resp, n') ∧
    ap_success resp = true ∧ log_wf n'.
Proof.
  do 2 eexists. split; [reflexivity|]. split; [reflexivity|].
  eapply (append_entries_correct (mkAppendRequest 2 "l" 1 1 [mkEntry 2 2 "x"] 2)
      (set_log [mkEntry 1 1 "a"; mkEntry 2 1 "b"; mkEntry 3 1 "c"] (new "f")));
    [| |reflexivity|reflexivity];
    intros i e Hi; destruct i as [|[|[|]]]; simpl in Hi; simplify_eq; done.
Defined.

(** ** Commitment *)

(** C13: commit advancement.  Recording a peer's acknowledgement never moves
    [commit_index] back; it moves it exactly to the greatest acknowledged index
    that [quorum_of total] replicas (the leader included) are recorded to hold,
    and leaves it alone when there is none. *)
Theorem commit_advances_to_quorum_index (peer : string) (m : N) (total : nat) (n : RaftNode) :
  commit_index n < u64_max →
  let n' := record_append_success peer m total n in
  match_index n' = <[peer := m]> (match_index n) ∧
  commit_index n <= commit_index n' ∧
  (commit_index n' ≠ commit_index n →
     commit_index n' <= m ∧
     (quorum_of total <= replication_count (match_index n') (commit_index n'))%nat) ∧
  (∀ i, commit_index n < i → i <= m →
     (quorum_of total <= replication_count (match_index n') i)%nat → i <= commit_index n').
Proof.
  intros Hb. cbv zeta. unfold record_append_success.
  destruct (commit_loop_spec (quorum_of total) (range_inclusive (u64_add (commit_index n) 1) m)
      (set_progress (<[peer:=u64_add m 1]> (next_index n)) (<[peer:=m]> (match_index n)) n))
      as (Hm & _ & _ & _ & _ & _ & _ & Hc). unfold commit_loop in *. cbn [commit_index set_progress] in *.
  rewrite u64_add_small in * by (unfold u64_max, u64_modulus in *; lia).
  rewrite Hm, Hc. cbn [match_index set_progress]. clear Hm Hc.
  destruct (last _) as [i|] eqn:Hlast; simpl default.
  - apply range_last_filter in Hlast as (HP & Hlo & Hhi & Hmax).
    split_and!; [done|lia|done|]. intros j Hj Hjm HPj. apply Hmax; [done|lia|done].
  - apply last_None in Hlast. split_and!; [done|lia|done|]. intros j Hj Hjm HPj. exfalso.
    assert (j ∈ filter (fun i => (quorum_of total <=
      replication_count (<[peer:=m]> (match_index n)) i)%nat)
      (range_inclusive (commit_index n + 1) m)) as Hin.
    { apply list_elem_of_filter. split; [done|]. apply elem_of_range. lia. }
    rewrite Hlast in Hin. set_solver.
Qed.

Lemma commit_advances_to_quorum_index_witness :
  commit_index (record_append_success "p1" 2 3
    (set_log [mkEntry 1 1 "a"; mkEntry 2 1 "b"] (new "l"))) = 2.
Proof.
  destruct (commit_advances_to_quorum_index "p1" 2 3
    (set_log [mkEntry 1 1 "a"; mkEntry 2 1 "b"] (new "l"))) as (Hm & _ & Hle & Hmax).
  - unfold u64_max. simpl. lia.
  - apply N.le_antisymm.
    + apply Hle. vm_compute. discriminate.
    + apply Hmax; [simpl; lia|lia|]. rewrite Hm. vm_compute. lia.
Defined.

(** An over-commit.  The reply to AppendEntries reports the follower's last
    log index, not the last index that was verified.  A follower with a stale
    tail of term 1 accepts a term-2 heartbeat that only verifies index 1, the
    leader of a three-node cluster records index 3 as replicated and moves
    [commit_index] to 3, past the end of its own one-entry log; the next command
    is then committed before any follower has it, at an index where the
    follower holds a different entry. *)
Theorem stale_tail_overcommits :
  let follower := set_log [mkEntry 1 1 "a"; mkEntry 2 1 "stale"; mkEntry 3 1 "stale"]
                    (set_term_vote_role 1 None Follower (new "f")) in
  let leader := init_leader_indices ["f"; "g"] (become_leader (become_candidate
                  (set_log [mkEntry 1 1 "a"] (set_term_vote_role 1 None Follower (new "l"))))) in
  let req := mkAppendRequest (current_term leader) "l" 1 (term_at leader 1) [] 0 in
  let '(resp, follower') := handle_append_entries req follower in
  let leader' := record_append_success "f" (ap_match_index resp) 3 leader in
  let '(i, leader'') := append_command_pending "new" 2 leader' in
  ap_success resp = true ∧ commit_index leader' = 3 ∧ (last_log_position leader').1 = 1 ∧
  i = 2 ∧ i <= commit_index leader'' ∧
  log_entry_at leader'' 2 = Some (mkEntry 2 2 "new") ∧
  log_entry_at follower' 2 = Some (mkEntry 2 1 "stale").
Proof. vm_compute. split_and!; done. Qed.

(** ** Compaction and restart *)

Lemma compact_log_entry i e n :
  log_wf n → log_entry_at n i = Some e →
  compact_log i n = set_snapshot i (e_term e)
    (set_log (drop (N.to_nat (i - snapshot_index n)) (log n)) n).
Proof.
  intros Hwf He. destruct (proj1 (log_entry_at_Some n i Hwf)) as [Hlo Hhi]; [by rewrite He|].
  unfold compact_log. destruct (N.leb_spec i (snapshot_index n)); [lia|].
  by rewrite He, (retain_after_drop (snapshot_index n)).
Qed.

Lemma last_drop {A} (l : list A) k : (k < length l)%nat → last (drop k l) = last l.
Proof.
  intros Hk. rewrite !last_lookup, lookup_drop, length_drop. f_equal. lia.
Qed.

(** Compaction is invisible to the protocol.  Compacting up to an index the
    log holds keeps every later entry, the term of every position from that
    index on, the last log position (hence vote decisions), and the outcome of
    the AppendEntries consistency check for every [prev_log_index] at or after
    it; commit and apply pointers do not move. *)
Theorem compaction_transparent (n : RaftNode) (i : N) :
  log_wf n → snapshot_index n < i → i <= (last_log_position n).1 →
  let n' := compact_log i n in
  log_wf n' ∧ snapshot_index n' = i ∧ last_log_position n' = last_log_position n ∧
  (∀ j, i < j → log_entry_at n' j = log_entry_at n j) ∧
  (∀ j, i <= j → term_at n' j = term_at n j) ∧
  (∀ req, log_up_to_date req n' = log_up_to_date req n) ∧
  (∀ req, i <= ar_prev_log_index req → consistency_check req n' = consistency_check req n) ∧
  commit_index n' = commit_index n ∧ last_applied n' = last_applied n.
Proof.
  intros Hwf Hlo Hhi. cbv zeta. pose proof (compact_log_wf i n Hwf) as Hwf'.
  destruct (proj2 (log_entry_at_Some n i Hwf) (conj Hlo Hhi)) as [e He].
  rewrite (compact_log_entry i e) in * by done.
  assert (∀ j, i < j → log_entry_at (set_snapshot i (e_term e)
    (set_log (drop (N.to_nat (i - snapshot_index n)) (log n)) n)) j = log_entry_at n j) as Hentry.
  { intros j Hj. unfold log_entry_at. simpl.
    destruct (N.eqb_spec j 0), (N.leb_spec j i), (N.leb_spec j (snapshot_index n)); try lia.
    simpl. rewrite lookup_drop. f_equal. lia. }
  assert (∀ j, i <= j → term_at (set_snapshot i (e_term e)
    (set_log (drop (N.to_nat (i - snapshot_index n)) (log n)) n)) j = term_at n j) as Hterm.
  { intros j Hj. unfold term_at. destruct (N.eqb_spec j 0); [done|]. cbn [snapshot_index set_snapshot].
    destruct (N.eqb_spec j i) as [->|Hne].
    - destruct (N.eqb_spec i (snapshot_index n)); [lia|]. by rewrite He.
    - destruct (N.eqb_spec j (snapshot_index n)); [lia|]. by rewrite Hentry by lia. }
  assert (last_log_position (set_snapshot i (e_term e)
    (set_log (drop (N.to_nat (i - snapshot_index n)) (log n)) n)) = last_log_position n) as Hlast.
  { rewrite last_index_wf in Hhi by done. unfold last_log_position. simpl.
    destruct (decide (N.to_nat (i - snapshot_index n) < length (log n))%nat) as [Hk|Hk].
    - rewrite last_drop by done. destruct (last (log n)) eqn:El; [done|].
      apply last_None in El. rewrite El in Hk. simpl in Hk. lia.
    - rewrite drop_ge by lia. simpl. destruct (N.ltb_spec 0 i); [|lia].
      unfold log_entry_at in He. destruct (_ || _); [done|].
      replace (last (log n)) with (Some e); [by rewrite <- (log_entry_at_index n i e Hwf
        ltac:(unfold log_entry_at; destruct (N.eqb_spec i 0), (N.leb_spec i (snapshot_index n)); done || lia))|].
      rewrite last_lookup, <- He. f_equal. lia. }
  split_and!; try done.
  - intros req. unfold log_up_to_date. by rewrite Hlast.
  - intros req Hp. unfold consistency_check. simpl snapshot_index. simpl snapshot_term.
    destruct (0 <? ar_prev_log_index req); [|done].
    destruct (N.eqb_spec (ar_prev_log_index req) i) as [->|Hne].
    + destruct (N.eqb_spec i (snapshot_index n)); [lia|]. rewrite He. apply N.eqb_sym.
    + destruct (N.eqb_spec (ar_prev_log_index req) (snapshot_index n)); [lia|].
      by rewrite Hentry by lia.
Qed.

Lemma compaction_transparent_witness :
  snapshot_index (compact_log 2 (set_log [mkEntry 1 1 "a"; mkEntry 2 1 "b"; mkEntry 3 2 "c"] (new "x"))) = 2.
Proof.
  apply (compaction_transparent (set_log [mkEntry 1 1 "a"; mkEntry 2 1 "b"; mkEntry 3 2 "c"] (new "x")) 2).
  - intros i e Hi. destruct i as [|[|[|]]]; simpl in Hi; simplify_eq; done.
  - simpl. lia.
  - vm_compute. discriminate.
Defined.

(** Durable-state round trip.  Persisting a node and restoring it into a
    freshly created one gives back term, vote, log and snapshot position (so the
    same entries, terms and last log position), as a follower whose commit and
    apply pointers stand at the snapshot. *)
Theorem durable_state_roundtrip (n : RaftNode) :
  let n' := restore_durable (from_node n) (new (node_id n)) in
  from_node n' = from_node n ∧ role n' = Follower ∧
  commit_index n' = snapshot_index n ∧ last_applied n' = snapshot_index n ∧
  last_log_position n' = last_log_position n ∧
  (∀ i, log_entry_at n' i = log_entry_at n i ∧ term_at n' i = term_at n i) ∧
  (∀ req, consistency_check req n' = consistency_check req n) ∧
  election_timeout_ticks n' = election_timeout_for (node_id n).
Proof.
  cbv zeta. unfold restore_durable. cbn [from_node d_snapshot_index].
  match goal with |- context [fast_forward ?i ?m] =>
    pose proof (fast_forward_frame i m) as (Hid & Ht & Hv & Hr & Hl & Hs & Hst & Hc & Ha & He);
    set (n' := fast_forward i m) in * end.
  simpl in Hid, Ht, Hv, Hr, Hl, Hs, Hst, Hc, Ha, He.
  assert (∀ i, log_entry_at n' i = log_entry_at n i) as Hentry.
  { intros i. unfold log_entry_at. by rewrite Hl, Hs. }
  split_and!; try done.
  - unfold from_node. by rewrite Ht, Hv, Hs, Hst, Hl.
  - rewrite Hc. lia.
  - rewrite Ha. lia.
  - unfold last_log_position. by rewrite Hl, Hs, Hst.
  - intros i. split; [done|]. unfold term_at. by rewrite Hentry, Hs, Hst.
  - intros req. unfold consistency_check. by rewrite Hs, Hst, Hentry.
Qed.

(** ** Election timeout *)

Lemma tick_follower_waits n :
  role n = Follower → ticks_since_heartbeat n + 1 < election_timeout_ticks n →
  election_timeout_ticks n <= 20 →
  tick n = set_ticks (ticks_since_heartbeat n + 1) n.
Proof.
  intros Hr Hlt Hmax. unfold tick. rewrite u64_add_small by (unfold u64_modulus; lia).
  rewrite decide_True by done. simpl.
  by destruct (N.leb_spec (election_timeout_ticks n) (ticks_since_heartbeat n + 1)); [lia|].
Qed.

Lemma ticks_before_timeout k n :
  role n = Follower → ticks_since_heartbeat n = 0 → election_timeout_ticks n <= 20 →
  N.of_nat k < election_timeout_ticks n → Nat.iter k tick n = set_ticks (N.of_nat k) n.
Proof.
  intros Hr H0 Hmax. induction k as [|k IH]; intros Hk.
  - destruct n; simpl in *; by subst.
  - simpl Nat.iter. rewrite IH by lia. rewrite tick_follower_waits by (simpl; try done; lia).
    unfold set_ticks. cbn [ticks_since_heartbeat]. f_equal. lia.
Qed.

(** Election timeout.  The derived timeout lies in [10, 20), and a follower
    that hears nothing stays a follower in its term for one tick less than the
    timeout, then becomes a candidate of the next term that has voted for
    itself, its timer reset. *)
Theorem silent_follower_starts_election (n : RaftNode) :
  election_timeout_ticks n = election_timeout_for (node_id n) →
  role n = Follower → ticks_since_heartbeat n = 0 → current_term n < u64_max →
  let T := N.to_nat (election_timeout_for (node_id n)) in
  (10 <= T < 20)%nat ∧
  (∀ k, (k < T)%nat → role (Nat.iter k tick n) = Follower ∧
     current_term (Nat.iter k tick n) = current_term n) ∧
  let n' := Nat.iter T tick n in
  role n' = Candidate ∧ current_term n' = current_term n + 1 ∧
  voted_for n' = Some (node_id n) ∧ ticks_since_heartbeat n' = 0.
Proof.
  intros HT Hr H0 Hterm. cbv zeta.
  assert (10 <= election_timeout_for (node_id n) < 20) as Hbound.
  { unfold election_timeout_for.
    pose proof (N.mod_lt (fnv_fold (node_id n) FNV_OFFSET) 10 ltac:(done)) as Hmod.
    revert Hmod. generalize (fnv_fold (node_id n) FNV_OFFSET mod 10). lia. }
  set (T := N.to_nat (election_timeout_for (node_id n))).
  assert (T = S (N.to_nat (election_timeout_for (node_id n) - 1))) as HS by (subst T; lia).
  split; [subst T; lia|]. split.
  - intros k Hk. rewrite ticks_before_timeout by (try done; subst T; lia). by split.
  - rewrite HS. simpl Nat.iter. rewrite ticks_before_timeout by (try done; lia).
    unfold tick. simpl. rewrite decide_True by done.
    rewrite !u64_add_small by (unfold u64_max, u64_modulus in *; lia).
    destruct (N.leb_spec (election_timeout_ticks n)
      (N.of_nat (N.to_nat (election_timeout_for (node_id n) - 1)) + 1)); [|lia].
    simpl. rewrite u64_add_small by (unfold u64_max, u64_modulus in *; lia). done.
Qed.

Lemma silent_follower_starts_election_witness :
  role (Nat.iter 15 tick (new "node-1")) = Candidate.
Proof.
  apply (silent_follower_starts_election (new "node-1")); [done|done|done|].
  unfold u64_max. simpl. lia.
Defined.
