(* ===== verification/RaftLoop.v ===== *)
(** * The Raft driver ([services/voltnuerongridd/src/helpers/raft_loop.rs],
      [handlers/raft.rs], and the batch encoding of [main.rs])

    One tick of the background loop, elections, AppendEntries fan-out, the
    apply loop, compaction, persistence, and the RPC endpoints, as functions on
    the node, its durable copy and the row store. *)

From S2P Require Import Prelude Str Mvcc MvccSpec Raft RaftLog RaftProps.
Open Scope string_scope.
Open Scope list_scope.
Open Scope N_scope.
Open Scope vng_scope.
Import Raft.

Module RaftLoop.

Definition COMPACT_LOG_THRESHOLD : nat := 500.
Definition COMPACT_EVERY_N_TICKS : N := 3.
Definition HEARTBEAT_EVERY_N_TICKS : N := 3.
Definition RAFT_BATCH_PREFIX : string := "__vng_batch:".
Definition RAFT_BATCH_STMT_SEP : string := Str.LF +:+ "__vng_stmt__" +:+ Str.LF.

(** ** One tick: what [run_raft_tick_loop] reads under the lock *)

Record PeerPlan := mkPeerPlan {
  pp_peer : string;
  pp_prev_log_index : N;
  pp_prev_log_term : N;
  pp_entries : list RaftLogEntry;
  pp_needs_snapshot : bool;
}.

Record TickInfo := mkTickInfo {
  ti_became_candidate : bool;
  ti_is_leader : bool;
  ti_term : N;
  ti_node_id : string;
  ti_last_log_index : N;
  ti_last_log_term : N;
  ti_commit_index : N;
  ti_snapshot_index : N;
  ti_snapshot_term : N;
  ti_per_peer : list PeerPlan;
  ti_total_peers : nat;
}.

Definition peer_plan (n : RaftNode) (peer : string) : PeerPlan :=
  let ni := default (u64_add (commit_index n) 1) (next_index n !! peer) in
  let needs_snapshot := (ni <=? snapshot_index n) && (0 <? snapshot_index n) in
  let prev := saturating_sub ni 1 in
  mkPeerPlan peer prev (term_at n prev)
    (if needs_snapshot then [] else filter (fun e => ni <= e_index e) (log n))
    needs_snapshot.

Definition tick_once (peers : list string) (n : RaftNode) : TickInfo * RaftNode :=
  let n' := tick n in
  (mkTickInfo
     (bool_decide (role n' = Candidate) && bool_decide (role n = Follower))
     (bool_decide (role n' = Leader))
     (current_term n') (node_id n')
     (N.of_nat (st_log_length (status n')))
     (match last (log n') with Some e => e_term e | None => 0 end)
     (commit_index n') (snapshot_index n') (snapshot_term n')
     (map (peer_plan n') peers) (length peers),
   n').

(** ** Elections *)

Definition election_request (ti : TickInfo) : RaftVoteRequest :=
  mkVoteRequest (ti_term ti) (ti_node_id ti) (ti_last_log_index ti) (ti_last_log_term ti).

(** The end of [run_election]: [votes_granted] counts the self vote and the
    granted replies. *)
Definition finish_election (peers : list string) (term : N) (votes_granted : nat)
    (n : RaftNode) : RaftNode :=
  if (quorum_of (length peers + 1) <=? votes_granted)%nat then
    if bool_decide (role n = Candidate) && (current_term n =? term)
    then init_leader_indices peers (become_leader n) else n
  else n.

(** ** AppendEntries fan-out *)

Definition append_request (ti : TickInfo) (pp : PeerPlan) : RaftAppendRequest :=
  mkAppendRequest (ti_term ti) (ti_node_id ti) (pp_prev_log_index pp) (pp_prev_log_term pp)
    (pp_entries pp) (ti_commit_index ti).

Definition install_request (ti : TickInfo) (rows : list (string * gmap string string))
    : RaftInstallSnapshotRequest :=
  mkInstallRequest (ti_term ti) (ti_node_id ti) (ti_snapshot_index ti) (ti_snapshot_term ti)
    (list_to_map rows).

(** Replies in the order the join set yields them; [None] is a failed RPC.  The
    loop breaks when the node is no longer the leader of [term]. *)
Fixpoint process_append_replies (term : N) (total_nodes : nat)
    (replies : list (string * option RaftAppendResponse)) (n : RaftNode) : RaftNode :=
  match replies with
  | [] => n
  | (peer, r) :: rest =>
      if bool_decide (role n = Leader) && (current_term n =? term) then
        process_append_replies term total_nodes rest
          (match r with
           | Some resp =>
               if ap_success resp
               then record_append_success peer (ap_match_index resp) total_nodes n
               else record_append_failure peer n
           | None => n
           end)
      else n
  end.

Fixpoint process_snapshot_replies (term snap_index : N)
    (replies : list (string * option RaftInstallSnapshotResponse)) (n : RaftNode) : RaftNode :=
  match replies with
  | [] => n
  | (peer, r) :: rest =>
      if bool_decide (role n = Leader) && (current_term n =? term) then
        process_snapshot_replies term snap_index rest
          (match r with
           | Some resp =>
               if ip_success resp
               then set_progress (<[peer := u64_add snap_index 1]> (next_index n))
                      (<[peer := snap_index]> (match_index n)) n
               else n
           | None => n
           end)
      else n
  end.

(** ** Compaction and persistence *)

Definition compact_if_needed (n : RaftNode) : RaftNode :=
  if (length (log n) <? COMPACT_LOG_THRESHOLD)%nat then n
  else if snapshot_index n <? last_applied n then compact_log (last_applied n) n
  else n.

(** The durable file after [persist_raft_state]: unchanged without a data
    directory or when the write fails ([fs_ok = false]). *)
Definition persist_raft_state (fs_ok : bool) (data_dir : string) (n : RaftNode)
    (disk : option RaftDurableState) : option RaftDurableState :=
  if String.eqb data_dir "" then disk
  else if fs_ok then Some (from_node n) else disk.

(** ** Encoding of replicated commands *)

Definition is_dml (s : string) : bool :=
  let u := Str.to_ascii_uppercase s in
  Str.starts_with "INSERT" u || Str.starts_with "UPDATE" u || Str.starts_with "DELETE" u.

Definition encode_raft_batch_command (db : string) (statements : list string)
    : option string :=
  let dml := filter (fun s => is_dml s = true) (map Str.trim statements) in
  match dml with
  | [] => None
  | _ => Some (RAFT_BATCH_PREFIX +:+ db +:+ Str.LF +:+ Str.join RAFT_BATCH_STMT_SEP dml)
  end.

(** The statements [apply_dml_command] runs for a command, with their database. *)
Definition decode_command (command : string) : list (string * string) :=
  match Str.strip_prefix RAFT_BATCH_PREFIX command with
  | Some rest =>
      let '(db, body) :=
        match Str.split_once Str.LF rest with Some ab => ab | None => ("", "") end in
      map (pair db)
        (filter (fun s => s ≠ "") (map Str.trim (Str.split RAFT_BATCH_STMT_SEP body)))
  | None =>
      match Str.strip_prefix "__vng_db:" command with
      | Some rest =>
          match Str.split_once Str.LF rest with
          | Some (db, sql) => [(db, sql)]
          | None => [("", command)]
          end
      | None => [("", command)]
      end
  end.

(** ** The apply loop *)

(** Step 1 of [apply_committed_entries]. *)
Definition entries_to_apply (n : RaftNode) : list RaftLogEntry :=
  let from := u64_add (last_applied n) 1 in
  let to := commit_index n in
  if to <? from then []
  else filter (fun e => from <= e_index e ∧ e_index e <= to) (log n).

Section Apply.

(** The SQL text extractors of [helpers/sql_parse.rs] and the durability
    engine's [store_row] are arguments here. *)
Context {W : Type}.
Variable extract_all_insert_rows : string -> list (string * gmap string string).
Variable extract_update_row_from_sql : string -> option (string * gmap string string).
Variable extract_delete_key_from_sql : string -> option string.
Variable store_row : string -> string -> N -> option (gmap string string) -> W -> W.

Fixpoint apply_inserts (db : string) (x : N) (rows : list (string * gmap string string))
    (rs : RowStore.PagedRowStore) (w : W) : option (RowStore.PagedRowStore * W) :=
  match rows with
  | [] => Some (rs, w)
  | (k, d) :: rows' =>
      let rs1 := (RowStore.begin_write_intent x k rs).2 in
      let w1 := store_row db k x (Some d) w in
      let! rs2 := RowStore.insert x k d rs1 in
      apply_inserts db x rows' rs2 w1
  end.

Definition apply_single_dml (db sql : string) (x : N)
    (rs : RowStore.PagedRowStore) (w : W) : option (RowStore.PagedRowStore * W) :=
  let upper := Str.to_ascii_uppercase (Str.trim_start sql) in
  if Str.starts_with "INSERT" upper then apply_inserts db x (extract_all_insert_rows sql) rs w
  else if Str.starts_with "UPDATE" upper then
    match extract_update_row_from_sql sql with
    | Some (k, d) => apply_inserts db x [(k, d)] rs w
    | None => Some (rs, w)
    end
  else if Str.starts_with "DELETE" upper then
    match extract_delete_key_from_sql sql with
    | Some k =>
        let rs1 := (RowStore.begin_write_intent x k rs).2 in
        Some ((RowStore.delete x k rs1).2, store_row db k x None w)
    | None => Some (rs, w)
    end
  else Some (rs, w).

Fixpoint apply_statements (stmts : list (string * string)) (x : N)
    (rs : RowStore.PagedRowStore) (w : W) : option (RowStore.PagedRowStore * W) :=
  match stmts with
  | [] => Some (rs, w)
  | (db, sql) :: stmts' =>
      let! (rs', w') := apply_single_dml db sql x rs w in
      apply_statements stmts' x rs' w'
  end.

Definition apply_dml_command (command : string) (x : N)
    (rs : RowStore.PagedRowStore) (w : W) : option (RowStore.PagedRowStore * W) :=
  apply_statements (decode_command command) x rs w.

Fixpoint apply_entries (entries : list RaftLogEntry) (x : N)
    (rs : RowStore.PagedRowStore) (w : W) : option (RowStore.PagedRowStore * W) :=
  match entries with
  | [] => Some (rs, w)
  | e :: entries' =>
      let! (rs', w') := apply_dml_command (e_command e) x rs w in
      apply_entries entries' x rs' w'
  end.

Definition apply_committed_entries (n : RaftNode) (rs : RowStore.PagedRowStore) (w : W)
    : option (RaftNode * RowStore.PagedRowStore * W) :=
  match entries_to_apply n with
  | [] => Some (n, rs, w)
  | entries =>
      let '(x, rs1) := RowStore.begin_xid rs in
      let! (rs2, w2) := apply_entries entries x rs1 w in
      let rs3 := RowStore.release_write_intents x rs2 in
      let n' := match last entries with
                | Some e => if last_applied n <? e_index e
                            then set_last_applied (e_index e) n else n
                | None => n
                end in
      Some (n', rs3, w2)
  end.

End Apply.

(** ** RPC endpoints ([handlers/raft.rs]) *)

Record Server := mkServer {
  sv_node : RaftNode;
  sv_disk : option RaftDurableState;
  sv_rows : RowStore.PagedRowStore;
  sv_data_dir : string;
}.

Definition raft_vote (fs_ok : bool) (req : RaftVoteRequest) (s : Server)
    : RaftVoteResponse * Server :=
  let '(resp, n') := handle_vote_request req (sv_node s) in
  (resp, mkServer n' (persist_raft_state fs_ok (sv_data_dir s) n' (sv_disk s))
           (sv_rows s) (sv_data_dir s)).

Definition raft_append (fs_ok : bool) (req : RaftAppendRequest) (s : Server)
    : RaftAppendResponse * Server :=
  let '(resp, n') := handle_append_entries req (sv_node s) in
  (resp, mkServer n' (persist_raft_state fs_ok (sv_data_dir s) n' (sv_disk s))
           (sv_rows s) (sv_data_dir s)).

Definition raft_install_snapshot (fs_ok : bool) (req : RaftInstallSnapshotRequest) (s : Server)
    : option (RaftInstallSnapshotResponse * Server) :=
  let '(resp, n') := handle_install_snapshot req (sv_node s) in
  let disk' := persist_raft_state fs_ok (sv_data_dir s) n' (sv_disk s) in
  if ip_success resp then
    let! rows := RowStore.replace_all (map_to_list (ir_rows req)) (sv_rows s) in
    Some (resp, mkServer n' disk' rows (sv_data_dir s))
  else Some (resp, mkServer n' disk' (sv_rows s) (sv_data_dir s)).

(** The operator endpoint that ticks the node by hand. *)
Definition raft_tick (n : RaftNode) : bool * RaftNode :=
  let n' := tick n in (bool_decide (role n' ≠ role n), n').

(** The remediation action of [helpers/autonomous_exec.rs]. *)
Definition leader_promotion (n : RaftNode) : RaftNode :=
  if bool_decide (role n = Leader) then n else become_candidate n.

(** The boot path: a fresh node, with the durable state when there is one. *)
Definition boot (id : string) (disk : option RaftDurableState) : RaftNode :=
  match disk with Some d => restore_durable d (new id) | None => new id end.

End RaftLoop.

(** * Replication, application and snapshot installation through the Raft driver *)

Open Scope string_scope.
Open Scope list_scope.
Open Scope N_scope.
Open Scope vng_scope.
Import Raft RaftLoop.

(** ** The batch encoding *)

(** The separator does not occur in the statement, not even completed by the
    separator that follows it. *)
Definition separator_free (stmt : string) : Prop :=
  Str.split_once RAFT_BATCH_STMT_SEP (stmt +:+ Str.butlast RAFT_BATCH_STMT_SEP) = None.

Lemma dml_nonempty s : is_dml s = true → s ≠ "".
Proof. by intros H ->. Qed.

Lemma map_trim_trimmed l : map Str.trim (map Str.trim l) = map Str.trim l.
Proof. rewrite map_map. apply map_ext. intros. apply Str.trim_idem. Qed.

Lemma trimmed_dml stmts :
  let dml := filter (fun s => is_dml s = true) (map Str.trim stmts) in
  filter (fun s => s ≠ "") (map Str.trim dml) = dml.
Proof.
  cbv zeta. induction stmts as [|s stmts IH]; [done|]. cbn [map].
  rewrite filter_cons. case_decide as Hd; [|done].
  cbn [map]. rewrite filter_cons, decide_True, IH, Str.trim_idem; [done|].
  rewrite Str.trim_idem. by apply dml_nonempty.
Qed.

(** Round trip of transaction batches.  The statements a follower decodes
    from a batch entry are exactly the transaction's DML statements, trimmed, in
    order, each with the transaction's database, as long as the database name
    has no line break and no statement contains the separator. *)
Theorem batch_command_roundtrip (db : string) (stmts : list string) (cmd : string) :
  Str.split_once Str.LF (db +:+ Str.butlast Str.LF) = None →
  Forall separator_free (map Str.trim stmts) →
  encode_raft_batch_command db stmts = Some cmd →
  decode_command cmd
  = map (pair db) (filter (fun s => is_dml s = true) (map Str.trim stmts)).
Proof.
  intros Hdb Hfree Henc. unfold encode_raft_batch_command in Henc.
  pose proof (trimmed_dml stmts) as Htrim. cbv zeta in Htrim.
  remember (filter (fun s => is_dml s = true) (map Str.trim stmts)) as dml eqn:Hdml.
  assert (Forall separator_free dml) as Hdfree.
  { rewrite Hdml. apply Forall_forall. intros s [_ Hs]%list_elem_of_filter.
    rewrite Forall_forall in Hfree. by apply Hfree. }
  assert (dml ≠ []) as Hne by (by intros ->).
  assert (cmd = RAFT_BATCH_PREFIX +:+ db +:+ Str.LF +:+ Str.join RAFT_BATCH_STMT_SEP dml) as ->.
  { destruct dml; [done|]. congruence. }
  unfold decode_command. rewrite Str.strip_prefix_app, Str.split_once_app by done.
  by rewrite Str.split_join, Htrim.
Qed.

Lemma batch_command_roundtrip_witness :
  ∃ cmd, encode_raft_batch_command "db1" [" INSERT INTO t VALUES (1)"; "SELECT 1"; "delete from t "]
         = Some cmd ∧
    decode_command cmd = [("db1", "INSERT INTO t VALUES (1)"); ("db1", "delete from t")].
Proof.
  eexists. split; [reflexivity|].
  erewrite (batch_command_roundtrip "db1"
    [" INSERT INTO t VALUES (1)"; "SELECT 1"; "delete from t "]);
    [reflexivity|reflexivity| |reflexivity].
  repeat constructor; reflexivity.
Defined.

(** ** Replication from a leader to a follower *)

(** The AppendEntries request of [tick_once] for one peer. *)
Definition leader_request (l : RaftNode) (peer : string) : RaftAppendRequest :=
  mkAppendRequest (current_term l) (node_id l)
    (pp_prev_log_index (peer_plan l peer)) (pp_prev_log_term (peer_plan l peer))
    (pp_entries (peer_plan l peer)) (commit_index l).

Lemma filter_from_retain l s ni :
  contig s l → filter (fun e => ni <= e_index e) l = retain_after (ni - 1) l.
Proof.
  intros Hc. unfold retain_after. apply list_filter_ext_in. intros e He.
  apply list_elem_of_lookup in He as [i Hi]. rewrite (Hc _ _ Hi). lia.
Qed.

Lemma peer_plan_wf l peer :
  log_wf l → pp_needs_snapshot (peer_plan l peer) = false →
  contig (pp_prev_log_index (peer_plan l peer)) (pp_entries (peer_plan l peer)) ∧
  snapshot_index l <= pp_prev_log_index (peer_plan l peer) ∧
  pp_entries (peer_plan l peer) = retain_after (pp_prev_log_index (peer_plan l peer)) (log l).
Proof.
  intros Hwf. unfold peer_plan. cbn [pp_needs_snapshot pp_prev_log_index pp_entries].
  generalize (default (u64_add (commit_index l) 1) (next_index l !! peer)). intros ni Hns.
  rewrite Hns. unfold saturating_sub. rewrite (filter_from_retain _ (snapshot_index l)) by done.
  assert (snapshot_index l <= ni - 1).
  { destruct (N.leb_spec ni (snapshot_index l)), (N.ltb_spec 0 (snapshot_index l)); simpl in Hns; done || lia. }
  split_and!; [by apply (contig_retain (snapshot_index l))|done|done].
Qed.

(** Replication.  The request a leader builds for a peer that does not need
    a snapshot carries consecutive entries after [prev_log_index]; when the
    follower accepts it, the follower's log has, at every index the leader has
    after [prev_log_index] (and the follower has not compacted), an entry of the
    leader's term, and the reply reports at least the leader's last index. *)
Theorem accepted_request_replicates (l f f' : RaftNode) (peer : string)
    (resp : RaftAppendResponse) :
  log_wf l → log_wf f → pp_needs_snapshot (peer_plan l peer) = false →
  pp_prev_log_index (peer_plan l peer) <= (last_log_position l).1 →
  handle_append_entries (leader_request l peer) f = (resp, f') → ap_success resp = true →
  event_ok (EvAppend (leader_request l peer)) f ∧ log_wf f' ∧
  (last_log_position l).1 <= ap_match_index resp ∧
  ∀ i, pp_prev_log_index (peer_plan l peer) < i → i <= (last_log_position l).1 →
       snapshot_index f < i → term_at f' i = term_at l i.
Proof.
  intros Hl Hf Hns Hprev Hh Hs. destruct (peer_plan_wf l peer Hl Hns) as (Hc & Hsnap & Hes).
  pose proof (append_entries_log (leader_request l peer) f) as Hlog. rewrite Hh in Hlog.
  destruct (Hlog Hs) as (_ & Hck & _ & Hsi & _ & Hfl & _ & Hm & _). cbn [fst snd] in *.
  destruct (append_loop_spec _ _ _ _ Hf Hc
    (consistency_check_no_gap (leader_request l peer) f Hf Hck)) as (Hc' & Hlen & Hholds & _).
  assert (log_wf f') as Hwf' by (unfold log_wf; by rewrite Hsi, Hfl).
  split_and!; [done|done| |].
  - rewrite Hm, (last_index_wf f'), Hsi, Hfl by done.
    etransitivity; [|exact Hlen]. rewrite Hes, (retain_after_drop (snapshot_index l)) by done.
    rewrite length_drop. rewrite last_index_wf in * by done. lia.
  - intros i Hlo Hhi Hfs.
    destruct (proj2 (log_entry_at_Some l i Hl)) as [e He]; [split; [lia|done]|].
    pose proof (log_entry_at_index l i e Hl He) as Hei.
    assert (e ∈ log l) as Hin.
    { unfold log_entry_at in He. destruct (_ || _); [done|].
      by apply list_elem_of_lookup_2 in He. }
    rewrite Forall_forall in Hholds. destruct (Hholds e) as (e' & He' & Ht).
    { cbn [ar_entries leader_request]. rewrite Hes. apply list_elem_of_filter. split; [lia|done]. }
    { lia. }
    unfold term_at. destruct (N.eqb_spec i 0); [done|]. rewrite Hsi.
    destruct (N.eqb_spec i (snapshot_index f)), (N.eqb_spec i (snapshot_index l)); try lia.
    rewrite He. unfold log_entry_at. rewrite Hsi.
    destruct (N.eqb_spec i 0), (N.leb_spec i (snapshot_index f)); simpl; try lia.
    unfold phys in He'. rewrite Hei in He'. cbn [ar_entries leader_request] in Hfl.
    rewrite <- Hfl in He'. by rewrite He', Ht.
Qed.

(** A leader with two entries whose peer [b] has none. *)
Definition demo_leader : RaftNode :=
  set_progress {["b" := 1]} {["b" := 0]}
    (push_command "INSERT 2" (push_command "INSERT 1" (become_leader (become_candidate (new "a"))))).

Definition demo_reply : RaftAppendResponse * RaftNode :=
  handle_append_entries (leader_request demo_leader "b") (new "b").

Lemma accepted_request_replicates_witness :
  term_at demo_reply.2 2 = term_at demo_leader 2.
Proof.
  refine (proj2 (proj2 (proj2 (accepted_request_replicates demo_leader (new "b") demo_reply.2 "b"
    demo_reply.1 _ _ _ _ _ _))) 2 _ _ _);
    [ intros [|[|j]] e; vm_compute; [by intros [= <-]..|done]
    | by intros j e Hj
    | vm_compute; reflexivity | vm_compute; congruence
    | unfold demo_reply; by destruct (handle_append_entries _ _)
    | vm_compute; reflexivity | vm_compute; reflexivity | vm_compute; congruence
    | vm_compute; reflexivity ].
Defined.
