(* ===== verification/RaftApply.v ===== *)
(** * The apply loop of a replica and the state machine it implements *)

From S2P Require Import Prelude Str Mvcc MvccSpec Raft RaftLog RaftLoop.
Open Scope string_scope.
Open Scope list_scope.
Open Scope N_scope.
Open Scope vng_scope.
Import Raft RaftLoop.

(** ** The entries a run applies *)

Lemma filter_upto_take s j l :
  contig s l → filter (fun e => e_index e <= j) l = take (N.to_nat (j - s)) l.
Proof.
  revert s. induction l as [|e l IH]; intros s Hc; [by rewrite take_nil|].
  apply contig_cons in Hc as [He Hc]. rewrite filter_cons, (IH (s + 1)) by done.
  case_decide as Hle.
  - replace (N.to_nat (j - s)) with (S (N.to_nat (j - (s + 1)))) by lia. done.
  - replace (N.to_nat (j - s)) with 0%nat by lia.
    replace (N.to_nat (j - (s + 1))) with 0%nat by lia. done.
Qed.

(** The committed entries that are not applied yet. *)
Lemma entries_to_apply_slice n :
  log_wf n → last_applied n < u64_max → snapshot_index n <= last_applied n →
  entries_to_apply n
  = take (N.to_nat (commit_index n - last_applied n))
      (drop (N.to_nat (last_applied n - snapshot_index n)) (log n)).
Proof.
  intros Hwf Hmax Hle. unfold entries_to_apply. rewrite u64_add_small by u64.
  destruct (N.ltb_spec (commit_index n) (last_applied n + 1)).
  { by replace (N.to_nat (commit_index n - last_applied n)) with 0%nat by lia. }
  rewrite <- (retain_after_drop (snapshot_index n)) by done.
  rewrite <- (filter_upto_take (last_applied n)) by (by apply (contig_retain (snapshot_index n))).
  unfold retain_after. rewrite list_filter_filter.
  apply list_filter_ext_in. intros e _. lia.
Qed.

Lemma contig_slice s k j l :
  contig s l → (k <= length l)%nat → contig (s + N.of_nat k) (take j (drop k l)).
Proof.
  intros Hc Hk. apply contig_take. intros i e Hi. rewrite lookup_drop in Hi.
  rewrite (Hc _ _ Hi). lia.
Qed.

Lemma contig_indices s l :
  contig s l → map e_index l = range_inclusive (s + 1) (s + N.of_nat (length l)).
Proof.
  intros Hc. apply list_eq. intros i. unfold range_inclusive.
  replace (N.to_nat (s + N.of_nat (length l) + 1 - (s + 1))) with (length l) by lia.
  rewrite list_lookup_fmap. change (map e_index l) with (e_index <$> l). rewrite list_lookup_fmap.
  destruct (l !! i) as [e|] eqn:Hi; simpl.
  - rewrite (Hc _ _ Hi). apply lookup_lt_Some in Hi.
    rewrite lookup_seq_lt by done. done.
  - apply lookup_ge_None in Hi. by rewrite lookup_seq_ge by done.
Qed.

(** ** The apply loop as a state machine

    What a replica shows its readers is a map from keys to rows; a replicated
    statement is a transformation of that map. *)

Section ApplyLoop.
Context {W : Type}.
Variable extract_all_insert_rows : string -> list (string * gmap string string).
Variable extract_update_row_from_sql : string -> option (string * gmap string string).
Variable extract_delete_key_from_sql : string -> option string.
Variable store_row : string -> string -> N -> option (gmap string string) -> W -> W.

(** The writes of one statement: [Some d] upserts the row, [None] deletes it. *)
Definition statement_writes (sql : string) : list (string * option (gmap string string)) :=
  let upper := Str.to_ascii_uppercase (Str.trim_start sql) in
  if Str.starts_with "INSERT" upper
  then map (fun kd => (kd.1, Some kd.2)) (extract_all_insert_rows sql)
  else if Str.starts_with "UPDATE" upper then
    match extract_update_row_from_sql sql with Some (k, d) => [(k, Some d)] | None => [] end
  else if Str.starts_with "DELETE" upper then
    match extract_delete_key_from_sql sql with Some k => [(k, None)] | None => [] end
  else [].

Definition command_writes (cmd : string) : list (string * option (gmap string string)) :=
  concat (map (fun ds => statement_writes ds.2) (decode_command cmd)).

Definition entries_writes (es : list RaftLogEntry) : list (string * option (gmap string string)) :=
  concat (map (fun e => command_writes (e_command e)) es).

(** The state machine. *)
Definition apply_write (m : gmap string (gmap string string))
    (w : string * option (gmap string string)) : gmap string (gmap string string) :=
  match w.2 with Some d => <[w.1 := d]> m | None => base.delete w.1 m end.

Definition apply_writes (ws : list (string * option (gmap string string)))
    (m : gmap string (gmap string string)) : gmap string (gmap string string) :=
  fold_left apply_write ws m.

(** What [read_latest] shows, as a map. *)
Definition view (s : RowStore.PagedRowStore) : gmap string (gmap string string) :=
  omap (spec_visible (RowStore.current_xid s)) (abs s).

Definition bounded (b : N) (m : chains) : Prop :=
  ∀ k vs, m !! k = Some vs → Forall (fun v => RowStore.rv_xid v <= b) vs.

Lemma view_lookup k s : view s !! k = RowStore.read_latest k s.
Proof.
  unfold view, RowStore.read_latest. rewrite read_at_snapshot_spec, lookup_omap.
  unfold spec_read. by destruct (abs s !! k).
Qed.

Lemma filter_bounded b x vs :
  Forall (fun v => RowStore.rv_xid v <= b) vs → b <= x →
  filter (fun v => RowStore.rv_xid v <= x) vs = vs.
Proof.
  intros Hall Hx. induction Hall as [|v vs Hv _ IH]; [done|].
  rewrite filter_cons_True, IH by lia. done.
Qed.

Lemma visible_snoc x v vs :
  Forall (fun v => RowStore.rv_xid v <= x) vs → RowStore.rv_xid v = x →
  spec_visible x (vs ++ [v]) = (if RowStore.rv_deleted v then None else Some (RowStore.rv_data v)).
Proof.
  intros Hall Hv. unfold spec_visible.
  rewrite (filter_bounded x); [|apply Forall_app; split; [done|constructor; [lia|done]]|lia].
  by rewrite last_snoc.
Qed.

(** A state of the store in the middle of the batch that runs as [x]. *)
Definition in_batch (x : N) (s : RowStore.PagedRowStore) : Prop :=
  wf s ∧ RowStore.max_rows_cap s = 0%nat ∧ RowStore.current_xid s = x ∧ bounded x (abs s).

Lemma bounded_push x k v m :
  bounded x m → RowStore.rv_xid v <= x → bounded x (spec_push k v m).
Proof.
  intros Hb Hv k' vs Hk'. unfold spec_push in Hk'.
  destruct (decide (k = k')) as [<-|Hne].
  - rewrite lookup_insert_eq in Hk'. injection Hk' as <-.
    apply Forall_app. split; [|by constructor].
    destruct (m !! k) as [vs0|] eqn:Hm; simpl; [by apply (Hb k)|done].
  - rewrite lookup_insert_ne in Hk' by done. by apply (Hb k').
Qed.

Lemma view_push x k v m :
  bounded x m → RowStore.rv_xid v = x →
  omap (spec_visible x) (spec_push k v m)
  = apply_write (omap (spec_visible x) m)
      (k, if RowStore.rv_deleted v then None else Some (RowStore.rv_data v)).
Proof.
  intros Hb Hv. apply map_eq. intros k'. unfold spec_push, apply_write. cbn [fst snd].
  rewrite lookup_omap. destruct (decide (k = k')) as [<-|Hne].
  - rewrite lookup_insert_eq. simpl. rewrite visible_snoc; [|destruct (m !! k) eqn:Hm; simpl; [by apply (Hb k)|done]|done].
    destruct (RowStore.rv_deleted v); [by rewrite lookup_delete_eq|by rewrite lookup_insert_eq].
  - rewrite lookup_insert_ne by done.
    destruct (RowStore.rv_deleted v); [rewrite lookup_delete_ne by done|rewrite lookup_insert_ne by done];
      by rewrite lookup_omap.
Qed.

Lemma intent_frame x k s :
  let s' := (RowStore.begin_write_intent x k s).2 in
  (∀ y, in_batch y s → in_batch y s') ∧ view s' = view s.
Proof.
  unfold RowStore.begin_write_intent.
  destruct (RowStore.write_intents s !! k) as [o|]; [destruct (o =? x)|];
    (split; [intros y (Hwf & ? & ? & ?); split_and!; try done; by destruct Hwf; constructor|done]).
Qed.

Lemma insert_in_batch x k d s :
  in_batch x s → ∃ s', RowStore.insert x k d s = Some s' ∧ in_batch x s' ∧
    view s' = <[k := d]> (view s).
Proof.
  intros (Hwf & Hcap & Hx & Hb).
  destruct (insert_uncapped x k d s Hwf Hcap) as (s' & Hi & Hwf' & Habs & Hn & _ & Hc).
  assert (RowStore.current_xid s' = x) as Hx' by (unfold RowStore.current_xid in *; by rewrite Hn).
  exists s'. split; [done|]. split; [split_and!; try done; rewrite Habs; by apply bounded_push|].
  unfold view. rewrite Hx', Hx, Habs, view_push by done. done.
Qed.

Lemma delete_in_batch x k s :
  in_batch x s → in_batch x (RowStore.delete x k s).2 ∧
    view (RowStore.delete x k s).2 = base.delete k (view s).
Proof.
  intros (Hwf & Hcap & Hx & Hb).
  destruct (delete_spec x k s) as (_ & Habs & Hwf' & Hn & _ & Hc).
  assert (RowStore.current_xid (RowStore.delete x k s).2 = x) as Hx'
    by (unfold RowStore.current_xid in *; by rewrite Hn).
  unfold in_batch, view. rewrite Habs, Hx', Hx, Hc.
  destruct (decide (is_Some (abs s !! k))) as [His|Hno].
  - split; [split_and!; auto; by apply bounded_push|]. by rewrite view_push.
  - split; [split_and!; auto|]. rewrite delete_id; [done|].
    rewrite lookup_omap. apply eq_None_not_Some in Hno. by rewrite Hno.
Qed.

Lemma apply_inserts_view db x rows rs w :
  in_batch x rs → ∃ rs' w', apply_inserts store_row db x rows rs w = Some (rs', w') ∧
    in_batch x rs' ∧
    view rs' = apply_writes (map (fun kd => (kd.1, Some kd.2)) rows) (view rs).
Proof.
  revert rs w. induction rows as [|[k d] rows IH]; intros rs w Hin; [by exists rs, w|].
  cbn [apply_inserts]. destruct (intent_frame x k rs) as [Hin1 Hv1].
  destruct (insert_in_batch x k d _ (Hin1 _ Hin)) as (s2 & -> & Hin2 & Hv2).
  destruct (IH s2 (store_row db k x (Some d) w) Hin2) as (rs' & w' & Hr & Hin' & Hv').
  exists rs', w'. split_and!; [done|done|]. by rewrite Hv', Hv2, Hv1.
Qed.

Let single := apply_single_dml extract_all_insert_rows extract_update_row_from_sql
  extract_delete_key_from_sql store_row.

Lemma apply_single_view db sql x rs w :
  in_batch x rs → ∃ rs' w', single db sql x rs w = Some (rs', w') ∧ in_batch x rs' ∧
    view rs' = apply_writes (statement_writes sql) (view rs).
Proof.
  intros Hin. unfold single, apply_single_dml, statement_writes. cbv zeta.
  destruct (Str.starts_with "INSERT" _); [by apply apply_inserts_view|].
  destruct (Str.starts_with "UPDATE" _).
  { destruct (extract_update_row_from_sql sql) as [[k d]|]; [|by exists rs, w].
    by apply (apply_inserts_view db x [(k, d)]). }
  destruct (Str.starts_with "DELETE" _); [|by exists rs, w].
  destruct (extract_delete_key_from_sql sql) as [k|]; [|by exists rs, w].
  destruct (intent_frame x k rs) as [Hin1 Hv1].
  destruct (delete_in_batch x k _ (Hin1 _ Hin)) as [Hin2 Hv2].
  eexists _, _. split_and!; [done|done|]. by rewrite Hv2, Hv1.
Qed.

Lemma apply_statements_view stmts x rs w :
  in_batch x rs → ∃ rs' w',
    apply_statements extract_all_insert_rows extract_update_row_from_sql
      extract_delete_key_from_sql store_row stmts x rs w = Some (rs', w') ∧ in_batch x rs' ∧
    view rs' = apply_writes (concat (map (fun ds => statement_writes ds.2) stmts)) (view rs).
Proof.
  revert rs w. induction stmts as [|[db sql] stmts IH]; intros rs w Hin; [by exists rs, w|].
  cbn [apply_statements map concat snd].
  destruct (apply_single_view db sql x rs w Hin) as (rs1 & w1 & Hs & Hin1 & Hv1).
  unfold single in Hs. rewrite Hs.
  destruct (IH rs1 w1 Hin1) as (rs' & w' & Hr & Hin' & Hv').
  exists rs', w'. split_and!; [done|done|]. unfold apply_writes in *. by rewrite fold_left_app, Hv', Hv1.
Qed.

Lemma apply_entries_view es x rs w :
  in_batch x rs → ∃ rs' w',
    apply_entries extract_all_insert_rows extract_update_row_from_sql
      extract_delete_key_from_sql store_row es x rs w = Some (rs', w') ∧ in_batch x rs' ∧
    view rs' = apply_writes (entries_writes es) (view rs).
Proof.
  revert rs w. induction es as [|e es IH]; intros rs w Hin; [by exists rs, w|].
  cbn [apply_entries map concat]. unfold apply_dml_command.
  destruct (apply_statements_view (decode_command (e_command e)) x rs w Hin)
    as (rs1 & w1 & -> & Hin1 & Hv1).
  destruct (IH rs1 w1 Hin1) as (rs' & w' & Hr & Hin' & Hv').
  exists rs', w'. split_and!; [done|done|].
  unfold entries_writes, apply_writes in *. cbn [map concat]. by rewrite fold_left_app, Hv', Hv1.
Qed.

(** A replica's store between two runs of the apply loop: uncapped, its
    versions written by transactions already started, and not about to exhaust
    the transaction ids. *)
Definition replica_store (s : RowStore.PagedRowStore) : Prop :=
  wf s ∧ RowStore.max_rows_cap s = 0%nat ∧ 0 < RowStore.next_xid s ∧
  bounded (RowStore.current_xid s) (abs s).

Lemma begin_batch s :
  replica_store s → RowStore.next_xid s < u64_max →
  in_batch (RowStore.next_xid s) (RowStore.begin_xid s).2 ∧ view (RowStore.begin_xid s).2 = view s.
Proof.
  intros (Hwf & Hcap & Hpos & Hb) Hmax.
  assert (RowStore.current_xid (RowStore.begin_xid s).2 = RowStore.next_xid s) as Hx.
  { unfold RowStore.current_xid, saturating_sub. simpl. rewrite u64_add_small by (unfold u64_max, u64_modulus in *; lia). lia. }
  assert (RowStore.current_xid s = RowStore.next_xid s - 1) as Hc by done.
  split.
  - split_and!; [by destruct Hwf; constructor|done|done|].
    intros k vs Hk. eapply Forall_impl; [exact (Hb k vs Hk)|]. simpl. lia.
  - unfold view. rewrite Hx, Hc. apply map_eq. intros k. rewrite !lookup_omap.
    change (abs (RowStore.begin_xid s).2) with (abs s).
    destruct (abs s !! k) as [vs|] eqn:Hk; [|done]. simpl. unfold spec_visible.
    pose proof (Hb k vs Hk) as Hvs. rewrite Hc in Hvs.
    by rewrite !(filter_bounded _ _ _ Hvs) by lia.
Qed.

Lemma in_batch_replica x s : 0 < x → in_batch x s → replica_store s.
Proof.
  intros Hpos (Hwf & Hcap & Hx & Hb).
  split_and!; [done|done| |by rewrite Hx]. unfold RowStore.current_xid, saturating_sub in Hx. lia.
Qed.

Lemma in_batch_next x s : in_batch x s → 0 < x → RowStore.next_xid s = x + 1.
Proof. intros (_ & _ & Hx & _) Hpos. unfold RowStore.current_xid, saturating_sub in Hx. lia. Qed.

Lemma release_replica x s :
  0 < x → in_batch x s →
  replica_store (RowStore.release_write_intents x s) ∧
  view (RowStore.release_write_intents x s) = view s.
Proof.
  intros Hpos (Hwf & Hcap & Hx & Hb). split; [|done].
  assert (0 < RowStore.next_xid s) by (unfold RowStore.current_xid, saturating_sub in Hx; lia).
  split_and!; [by destruct Hwf; constructor|done|done|]. 
  change (bounded (RowStore.current_xid s) (abs s)). by rewrite Hx.
Qed.

Let apply_committed := apply_committed_entries extract_all_insert_rows
  extract_update_row_from_sql extract_delete_key_from_sql store_row.

(** The node can be applied from: its log is well formed and reaches the
    commit index, and nothing that is not applied has been compacted away. *)
Definition can_apply (n : RaftNode) : Prop :=
  log_wf n ∧ (last_log_position n).1 < u64_max ∧ snapshot_index n <= last_applied n ∧
  last_applied n <= (last_log_position n).1 ∧ commit_index n <= (last_log_position n).1.

Lemma entries_to_apply_indices n :
  can_apply n →
  contig (last_applied n) (entries_to_apply n) ∧
  length (entries_to_apply n) = N.to_nat (commit_index n - last_applied n).
Proof.
  intros (Hwf & Hmax & Hs & Hla & Hci). rewrite last_index_wf in Hmax, Hla, Hci by done.
  rewrite entries_to_apply_slice by (done || lia). split.
  - replace (last_applied n) with
      (snapshot_index n + N.of_nat (N.to_nat (last_applied n - snapshot_index n))) at 1 by lia.
    apply contig_slice; [done|lia].
  - rewrite length_take, length_drop. lia.
Qed.

Lemma apply_committed_view n rs w :
  can_apply n → replica_store rs → RowStore.next_xid rs < u64_max →
  ∃ n' rs' w', apply_committed n rs w = Some (n', rs', w') ∧
    n' = set_last_applied (N.max (last_applied n) (commit_index n)) n ∧
    replica_store rs' ∧ RowStore.next_xid rs' <= RowStore.next_xid rs + 1 ∧
    view rs' = apply_writes (entries_writes (entries_to_apply n)) (view rs).
Proof.
  intros Hn Hrs Hx. destruct (entries_to_apply_indices n Hn) as [Hc Hlen].
  unfold apply_committed, apply_committed_entries.
  destruct (entries_to_apply n) as [|e es] eqn:Hes.
  - exists n, rs, w. split_and!; try done; [|lia]. simpl in Hlen.
    rewrite N.max_l by lia. by destruct n.
  - destruct (begin_batch rs Hrs Hx) as [Hin Hv]. cbn [RowStore.begin_xid].
    destruct (apply_entries_view (e :: es) _ _ w Hin) as (rs2 & w2 & Hap & Hin2 & Hv2).
    cbn [RowStore.begin_xid snd] in Hap. rewrite Hap.
    destruct (release_replica (RowStore.next_xid rs) rs2) as [Hr3 Hv3]; [by apply Hrs|done|].
    eexists _, _, _. split_and!; [reflexivity| |exact Hr3| |by rewrite Hv3, Hv2, Hv].
    2: { destruct Hin2 as (_ & _ & Hx2 & _). unfold RowStore.current_xid in Hx2. simpl. u64. }
    destruct (last (e :: es)) as [el|] eqn:Hl; [|by apply last_None in Hl].
    rewrite (contig_last _ _ _ Hc Hl), Hlen.
    simpl in Hlen. destruct (N.ltb_spec (last_applied n) (last_applied n + N.of_nat (N.to_nat (commit_index n - last_applied n)))); [|lia].
    f_equal. lia.
Qed.

End ApplyLoop.

Lemma entries_to_apply_split n c :
  can_apply n → last_applied n <= c → c <= commit_index n →
  entries_to_apply n
  = entries_to_apply (set_commit_index c n) ++ entries_to_apply (set_last_applied c n).
Proof.
  intros (Hwf & Hmax & Hs & Hla & Hci) Hlo Hhi.
  rewrite !entries_to_apply_slice by (done || simpl; lia). simpl.
  replace (N.to_nat (c - snapshot_index n))
    with (N.to_nat (last_applied n - snapshot_index n) + N.to_nat (c - last_applied n))%nat by lia.
  rewrite <- drop_drop.
  replace (N.to_nat (commit_index n - last_applied n))
    with (N.to_nat (c - last_applied n) + N.to_nat (commit_index n - c))%nat by lia.
  by rewrite take_take_drop.
Qed.

Lemma entries_writes_app ins upd del es1 es2 m :
  apply_writes (entries_writes ins upd del (es1 ++ es2)) m
  = apply_writes (entries_writes ins upd del es2) (apply_writes (entries_writes ins upd del es1) m).
Proof. unfold entries_writes, apply_writes. by rewrite map_app, concat_app, fold_left_app. Qed.

(** ** Properties *)

(** The apply loop implements a state machine.  From a replica whose log
    reaches the commit index, one run of [apply_committed_entries] never panics,
    applies exactly the entries with indices in [(last_applied, commit_index]],
    in log order and each once (a second run finds nothing), records the commit
    index as applied, and transforms what readers see by the writes of those
    entries, in order.  The SQL extractors are arbitrary. *)
Theorem apply_loop_state_machine {W : Type}
    (ins : string -> list (string * gmap string string))
    (upd : string -> option (string * gmap string string))
    (del : string -> option string)
    (store_row : string -> string -> N -> option (gmap string string) -> W -> W)
    (n : RaftNode) (rs : RowStore.PagedRowStore) (w : W) :
  can_apply n → replica_store rs → RowStore.next_xid rs < u64_max →
  ∃ n' rs' w',
    apply_committed_entries ins upd del store_row n rs w = Some (n', rs', w') ∧
    map e_index (entries_to_apply n)
      = range_inclusive (last_applied n + 1) (N.max (last_applied n) (commit_index n)) ∧
    last_applied n' = N.max (last_applied n) (commit_index n) ∧
    apply_committed_entries ins upd del store_row n' rs' w' = Some (n', rs', w') ∧
    replica_store rs' ∧
    ∀ k, RowStore.read_latest k rs'
         = apply_writes (entries_writes ins upd del (entries_to_apply n)) (view rs) !! k.
Proof.
  intros Hn Hrs Hx. destruct (entries_to_apply_indices n Hn) as [Hc Hlen].
  destruct (apply_committed_view ins upd del store_row n rs w Hn Hrs Hx)
    as (n' & rs' & w' & Hap & Hn' & Hrs' & _ & Hv).
  exists n', rs', w'. split_and!; [done| |by rewrite Hn'| |done|].
  - rewrite (contig_indices _ _ Hc), Hlen. f_equal. lia.
  - assert (entries_to_apply n' = []) as Hnil; [|unfold apply_committed_entries; by rewrite Hnil].
    destruct Hn as (Hwf & Hmax & Hs & Hla & Hci).
    rewrite Hn'. unfold entries_to_apply. cbn [last_applied commit_index set_last_applied].
    rewrite u64_add_small by u64. by rewrite (proj2 (N.ltb_lt _ _)) by lia.
  - intros k. by rewrite <- view_lookup, Hv.
Qed.

(** A toy SQL dialect for the witnesses: the text after the keyword is the key. *)
Definition toy_insert (sql : string) : list (string * gmap string string) :=
  match Str.strip_prefix "INSERT " sql with Some k => [(k, {["v" := k]})] | None => [] end.

Definition toy_delete (sql : string) : option string := Str.strip_prefix "DELETE " sql.

Definition toy_log : list RaftLogEntry :=
  [mkEntry 1 1 "INSERT a"; mkEntry 2 1 "INSERT b"; mkEntry 3 1 "DELETE a"].

Definition toy_node (applied commit : N) : RaftNode :=
  set_last_applied applied (set_commit_index commit (set_log toy_log (new "f"))).

Definition toy_store (size : nat) : RowStore.PagedRowStore :=
  RowStore.mkPagedRowStore [RowStore.page_new 0] size 1 1 ∅ 0.

Lemma toy_can_apply a c : a <= 3 → c <= 3 → can_apply (toy_node a c).
Proof.
  intros. split_and!; try (vm_compute; congruence); try done.
  - intros [|[|[|j]]] e; vm_compute; [by intros [= <-]..|done].
  - simpl. lia.
Qed.

Lemma toy_replica_store size : (0 < size)%nat → replica_store (toy_store size).
Proof. intros. split_and!; [by apply empty_page_wf|done|done|by intros k vs Hk]. Qed.

Lemma apply_loop_state_machine_witness :
  ∃ n' rs' w', apply_committed_entries toy_insert (fun _ => None) toy_delete
      (fun _ _ _ _ (w : unit) => w) (toy_node 0 3) (toy_store 1) tt = Some (n', rs', w') ∧
    last_applied n' = 3 ∧
    RowStore.read_latest "a" rs' = None ∧ RowStore.read_latest "b" rs' = Some {["v" := "b"]}.
Proof.
  destruct (apply_loop_state_machine toy_insert (fun _ => None) toy_delete
    (fun _ _ _ _ (w : unit) => w) (toy_node 0 3) (toy_store 1) tt)
    as (n' & rs' & w' & Hap & _ & Hla & _ & _ & Hread);
    [by apply toy_can_apply|by apply toy_replica_store; lia|done|].
  exists n', rs', w'. split; [exact Hap|]. split; [rewrite Hla; reflexivity|].
  split; rewrite Hread; vm_compute; reflexivity.
Defined.

(** C10: replicas converge.  Two replicas with the same log that show the same
    rows, whatever their page sizes and transaction counters, show the same rows
    after applying up to the same commit index, even when one of them learns the
    commit index in two steps (and so uses two transaction ids). *)
Theorem replicas_converge {W : Type}
    (ins : string -> list (string * gmap string string))
    (upd : string -> option (string * gmap string string))
    (del : string -> option string)
    (store_row : string -> string -> N -> option (gmap string string) -> W -> W)
    (n : RaftNode) (c : N) (rs1 rs2 : RowStore.PagedRowStore) (w1 w2 : W) :
  can_apply n → last_applied n <= c → c <= commit_index n →
  replica_store rs1 → replica_store rs2 →
  RowStore.next_xid rs1 < u64_max → RowStore.next_xid rs2 < u64_max - 1 →
  (∀ k, RowStore.read_latest k rs1 = RowStore.read_latest k rs2) →
  ∃ n1 rs1' v1 m rsm vm n2 rs2' v2,
    apply_committed_entries ins upd del store_row n rs1 w1 = Some (n1, rs1', v1) ∧
    apply_committed_entries ins upd del store_row (set_commit_index c n) rs2 w2
      = Some (m, rsm, vm) ∧
    apply_committed_entries ins upd del store_row (set_commit_index (commit_index n) m) rsm vm
      = Some (n2, rs2', v2) ∧
    n1 = n2 ∧ ∀ k, RowStore.read_latest k rs1' = RowStore.read_latest k rs2'.
Proof.
  intros Hn Hlo Hhi Hrs1 Hrs2 Hx1 Hx2 Heq.
  assert (view rs1 = view rs2) as Hview by (apply map_eq; intros k; by rewrite !view_lookup).
  pose proof Hn as (Hwf & Hmax & Hs & Hla & Hci).
  destruct (apply_committed_view ins upd del store_row n rs1 w1 Hn Hrs1 Hx1)
    as (n1 & rs1' & v1 & Hap1 & Hn1 & _ & _ & Hv1).
  destruct (apply_committed_view ins upd del store_row (set_commit_index c n) rs2 w2)
    as (m & rsm & vm & Hapm & Hm & Hrsm & Hxm & Hvm);
    [by split_and!; try done; simpl; etransitivity|done|u64|].
  cbn [last_applied commit_index set_commit_index] in Hm. rewrite N.max_r in Hm by done. subst m.
  assert (set_commit_index (commit_index n) (set_last_applied c (set_commit_index c n))
          = set_last_applied c n) as Hmid by (by destruct n).
  destruct (apply_committed_view ins upd del store_row (set_last_applied c n) rsm vm)
    as (n2 & rs2' & v2 & Hap2 & Hn2 & _ & _ & Hv2);
    [split_and!; try done; cbn [snapshot_index last_applied set_last_applied];
     [lia|change (c <= (last_log_position n).1); lia]|done|u64|].
  exists n1, rs1', v1, (set_last_applied c (set_commit_index c n)), rsm, vm, n2, rs2', v2.
  rewrite Hmid. split_and!; try done.
  - rewrite Hn1, Hn2. cbn [last_applied commit_index set_last_applied].
    rewrite !N.max_r by lia. by destruct n.
  - intros k. rewrite <- !view_lookup. f_equal.
    by rewrite Hv1, Hv2, Hvm, (entries_to_apply_split n c), entries_writes_app, Hview by done.
Qed.

Lemma replicas_converge_witness :
  ∃ n1 rs1' v1 m rsm vm n2 rs2' v2,
    apply_committed_entries toy_insert (fun _ => None) toy_delete
      (fun _ _ _ _ (w : unit) => w) (toy_node 0 3) (toy_store 1) tt = Some (n1, rs1', v1) ∧
    apply_committed_entries toy_insert (fun _ => None) toy_delete
      (fun _ _ _ _ (w : unit) => w) (set_commit_index 2 (toy_node 0 3)) (toy_store 5) tt
      = Some (m, rsm, vm) ∧
    apply_committed_entries toy_insert (fun _ => None) toy_delete
      (fun _ _ _ _ (w : unit) => w) (set_commit_index 3 m) rsm vm = Some (n2, rs2', v2) ∧
    n1 = n2 ∧ ∀ k, RowStore.read_latest k rs1' = RowStore.read_latest k rs2'.
Proof.
  apply (replicas_converge toy_insert (fun _ => None) toy_delete
    (fun _ _ _ _ (w : unit) => w) (toy_node 0 3) 2 (toy_store 1) (toy_store 5) tt tt);
    first [by apply toy_can_apply | by apply toy_replica_store; lia | by vm_compute | idtac].
Defined.

(** A committed entry that is never applied.  A leader of three appends a
    transaction batch with [append_command], which marks it applied at once; a
    new leader replaces it and commits its own entry at that index.  The old
    leader ends with the replacement in its log, committed, and nothing to
    apply: its row store keeps the lost batch and never gets the committed one. *)
Theorem replaced_entry_never_applied :
  let old := (append_command "INSERT lost" 2 (become_leader (become_candidate (new "a")))).2 in
  let n := (handle_append_entries
              (mkAppendRequest 2 "b" 0 0 [mkEntry 1 2 "INSERT won"] 1) old).2 in
  log n = [mkEntry 1 2 "INSERT won"] ∧ commit_index n = 1 ∧ last_applied n = 1 ∧
  entries_to_apply n = [].
Proof. vm_compute. split_and!; reflexivity. Qed.

(** A late InstallSnapshot rolls a follower's rows back.  The follower has
    snapshot index 5 and a row written since; a delayed request for the older
    snapshot index 3 is answered with success, so the endpoint replaces all its
    rows by the old ones while the node stays at snapshot index 5 with
    [last_applied] 6, and nothing is left to apply. *)
Theorem stale_snapshot_rolls_back_rows :
  let n := set_last_applied 6 (set_commit_index 6
             (set_log [mkEntry 6 1 "INSERT new"] (set_snapshot 5 1 (become_follower 1 (new "f"))))) in
  let s := mkServer n None
             (default (toy_store 1) (RowStore.insert 1 "new" {["v" := "6"]}
                (RowStore.begin_xid (toy_store 4)).2)) "/data" in
  ∃ resp s', raft_install_snapshot true
      (mkInstallRequest 1 "l" 3 1 {["old" := {["v" := "3"]}]}) s = Some (resp, s') ∧
    ip_success resp = true ∧
    snapshot_index (sv_node s') = 5 ∧ last_applied (sv_node s') = 6 ∧
    entries_to_apply (sv_node s') = [] ∧
    RowStore.read_latest "new" (sv_rows s) = Some {["v" := "6"]} ∧
    RowStore.read_latest "new" (sv_rows s') = None ∧
    RowStore.read_latest "old" (sv_rows s') = Some {["v" := "3"]}.
Proof. eexists _, _. split; [vm_compute; reflexivity|]. vm_compute. split_and!; reflexivity. Qed.
