(* ===== verification/RaftCluster.v ===== *)
(** * Elections in a cluster of Raft servers

    The servers of a cluster, the votes they have granted and the elections they
    have won, as a step relation over the driver's operations; election safety
    by induction on reachability. *)

From S2P Require Import Prelude Str Mvcc Raft RaftLog RaftLoop.
Open Scope string_scope.
Open Scope list_scope.
Open Scope N_scope.
Import Raft RaftLoop.

(** ** The cluster *)

Record Cluster := mkCluster {
  servers : gmap string Server;
  granted : gset (string * N * string);   (* voter, term, candidate *)
  elected : gset (N * string);            (* term, winner *)
}.

Definition set_node (n : RaftNode) (s : Server) : Server :=
  mkServer n (sv_disk s) (sv_rows s) (sv_data_dir s).

Definition put (id : string) (s : Server) (c : Cluster) : Cluster :=
  mkCluster (<[id := s]> (servers c)) (granted c) (elected c).

Definition add_vote (v : string * N * string) (c : Cluster) : Cluster :=
  mkCluster (servers c) ({[v]} ∪ granted c) (elected c).

Definition add_winner (w : N * string) (c : Cluster) : Cluster :=
  mkCluster (servers c) (granted c) ({[w]} ∪ elected c).

Definition peers_of (members : list string) (id : string) : list string :=
  filter (fun p => p ≠ id) members.

(** Transitions of one node that neither cast a vote nor end an election:
    messages and replies are arbitrary. *)
Inductive quiet_step : RaftNode -> RaftNode -> Prop :=
| qs_append req n : quiet_step n (handle_append_entries req n).2
| qs_install req n : quiet_step n (handle_install_snapshot req n).2
| qs_command cmd peers n : quiet_step n (append_command cmd peers n).2
| qs_pending cmd peers n : quiet_step n (append_command_pending cmd peers n).2
| qs_replies term total rs n : quiet_step n (process_append_replies term total rs n)
| qs_snapshots term i rs n : quiet_step n (process_snapshot_replies term i rs n)
| qs_applied i n : quiet_step n (set_last_applied i n)
| qs_compact n : quiet_step n (compact_if_needed n).

Section Steps.
Variable members : list string.

(** A vote request may be any message; a winner has counted granted replies of
    distinct peers.  A restart needs the durable file to hold the term and the
    vote (which [raft_vote] and [raft_append] ensure before they answer). *)
Inductive cluster_step : Cluster -> Cluster -> Prop :=
| cs_tick c id s :
    servers c !! id = Some s → current_term (sv_node s) < u64_max →
    cluster_step c
      (let '(ti, n') := tick_once (peers_of members id) (sv_node s) in
       let c' := put id (set_node n' s) c in
       if ti_became_candidate ti then add_vote (id, current_term n', id) c' else c')
| cs_promote c id s :
    servers c !! id = Some s → current_term (sv_node s) < u64_max →
    role (sv_node s) ≠ Leader →
    cluster_step c
      (let n' := leader_promotion (sv_node s) in
       add_vote (id, current_term n', id) (put id (set_node n' s) c))
| cs_vote c id s fs_ok req :
    servers c !! id = Some s →
    cluster_step c
      (let '(resp, s') := raft_vote fs_ok req s in
       let c' := put id s' c in
       if vp_granted resp then add_vote (id, vr_term req, vr_candidate_id req) c' else c')
| cs_win c id s term voters :
    servers c !! id = Some s → NoDup voters → voters ⊆ peers_of members id →
    Forall (fun v => (v, term, id) ∈ granted c) voters →
    cluster_step c
      (let n' := finish_election (peers_of members id) term (1 + length voters) (sv_node s) in
       let c' := put id (set_node n' s) c in
       if bool_decide (role (sv_node s) ≠ Leader ∧ role n' = Leader)
       then add_winner (term, id) c' else c')
| cs_quiet c id s n' :
    servers c !! id = Some s → quiet_step (sv_node s) n' →
    cluster_step c (put id (set_node n' s) c)
| cs_persist c id s fs_ok :
    servers c !! id = Some s →
    cluster_step c
      (put id (mkServer (sv_node s)
                 (persist_raft_state fs_ok (sv_data_dir s) (sv_node s) (sv_disk s))
                 (sv_rows s) (sv_data_dir s)) c)
| cs_restart c id s :
    servers c !! id = Some s →
    current_term (boot id (sv_disk s)) = current_term (sv_node s) →
    voted_for (boot id (sv_disk s)) = voted_for (sv_node s) →
    cluster_step c (put id (set_node (boot id (sv_disk s)) s) c).

Definition initial (rows : RowStore.PagedRowStore) (dir : string) : Cluster :=
  mkCluster (list_to_map (map (fun id => (id, mkServer (new id) None rows dir)) members)) ∅ ∅.

Definition reachable (rows : RowStore.PagedRowStore) (dir : string) (c : Cluster) : Prop :=
  rtc cluster_step (initial rows dir) c.

End Steps.

(** ** Quiet transitions *)

(** Terms never decrease, the vote of a term is kept, and a node does not become
    a candidate or a leader. *)
Definition quiet (n n' : RaftNode) : Prop :=
  node_id n' = node_id n ∧ current_term n <= current_term n' ∧
  (current_term n' = current_term n → voted_for n' = voted_for n) ∧
  (role n' = Follower ∨ (role n' = role n ∧ current_term n' = current_term n)).

Lemma quiet_refl n : quiet n n.
Proof. split_and!; auto; lia. Qed.

Lemma quiet_trans n1 n2 n3 : quiet n1 n2 → quiet n2 n3 → quiet n1 n3.
Proof.
  intros (Hi1 & Ht1 & Hv1 & Hr1) (Hi2 & Ht2 & Hv2 & Hr2). split_and!; [congruence|lia| |].
  - intros Heq. rewrite Hv2, Hv1 by lia. done.
  - destruct Hr2 as [?|[Hr2 Heq2]]; [by left|]. rewrite Hr2, Heq2. done.
Qed.

Lemma quiet_same n n' :
  node_id n' = node_id n → current_term n' = current_term n → voted_for n' = voted_for n →
  role n' = role n → quiet n n'.
Proof. intros. split_and!; auto; lia. Qed.

Lemma quiet_follower t n : current_term n <= t → quiet n (become_follower t n).
Proof.
  intros. destruct (become_follower_frame t n) as (Ht & Hr & Hid & _ & _ & _ & _ & _ & Hv).
  split_and!; [done|lia| |by left]. rewrite Ht, Hv. intros.
  by rewrite (proj2 (N.ltb_ge _ _)) by lia.
Qed.

Create HintDb quiet.
#[export] Hint Resolve quiet_refl quiet_same quiet_follower : quiet.

Lemma append_entries_quiet req n : quiet n (handle_append_entries req n).2.
Proof.
  unfold handle_append_entries. destruct (N.ltb_spec (ar_term req) (current_term n)); [apply quiet_refl|].
  apply (quiet_trans _ (become_follower (ar_term req) n)); [by apply quiet_follower|].
  destruct (negb _); [by apply quiet_same|]. cbn [snd].
  destruct (commit_index _ <? _); by apply quiet_same.
Qed.

Lemma fast_forward_quiet i n : quiet n (fast_forward i n).
Proof. destruct (fast_forward_frame i n) as (? & ? & ? & ? & _). by apply quiet_same. Qed.

Lemma install_quiet req n : quiet n (handle_install_snapshot req n).2.
Proof.
  unfold handle_install_snapshot. destruct (N.ltb_spec (ir_term req) (current_term n)); [apply quiet_refl|].
  apply (quiet_trans _ (become_follower (ir_term req) n)); [by apply quiet_follower|].
  destruct (_ <=? _); [by apply quiet_same|]. cbn [snd].
  eapply quiet_trans; [|apply fast_forward_quiet]. by apply quiet_same.
Qed.

Lemma record_success_quiet p m total n : quiet n (record_append_success p m total n).
Proof.
  unfold record_append_success. eapply quiet_trans; [|apply quiet_same; apply commit_loop_spec].
  by apply quiet_same.
Qed.

Lemma process_append_quiet term total rs n : quiet n (process_append_replies term total rs n).
Proof.
  revert n. induction rs as [|[p [r|]] rs IH]; intros n; simpl; [apply quiet_refl| |];
    (destruct (_ && _); [|apply quiet_refl]); [|apply IH].
  eapply quiet_trans; [|apply IH]. destruct (ap_success r);
    [apply record_success_quiet|by apply quiet_same].
Qed.

Lemma process_snapshot_quiet term i rs n : quiet n (process_snapshot_replies term i rs n).
Proof.
  revert n. induction rs as [|[p [r|]] rs IH]; intros n; simpl; [apply quiet_refl| |];
    (destruct (_ && _); [|apply quiet_refl]); [|apply IH].
  eapply quiet_trans; [|apply IH]. destruct (ip_success r); by apply quiet_same.
Qed.

Lemma compact_quiet n : quiet n (compact_if_needed n).
Proof.
  unfold compact_if_needed, compact_log.
  repeat case_match; by apply quiet_same.
Qed.

Lemma commit_if_alone_quiet p i n : quiet n (commit_if_alone p i n).
Proof. unfold commit_if_alone. destruct (_ && _); by apply quiet_same. Qed.

Lemma quiet_step_quiet n n' : quiet_step n n' → quiet n n'.
Proof.
  intros [].
  - apply append_entries_quiet.
  - apply install_quiet.
  - unfold append_command. cbn [snd].
    eapply quiet_trans; [|apply commit_if_alone_quiet]. destruct (_ <? _); by apply quiet_same.
  - unfold append_command_pending. cbn [snd].
    eapply quiet_trans; [|apply commit_if_alone_quiet]. by apply quiet_same.
  - apply process_append_quiet.
  - apply process_snapshot_quiet.
  - by apply quiet_same.
  - apply compact_quiet.
Qed.

Lemma vote_role req n :
  let n' := (handle_vote_request req n).2 in
  role n' = Follower ∨ (role n' = role n ∧ current_term n' = current_term n).
Proof.
  unfold handle_vote_request, become_follower. cbv zeta.
  destruct (current_term n <? vr_term req); [left|right];
    repeat (case_match; try done).
Qed.

(** ** The invariant *)

Section Safety.
Variable members : list string.
Hypothesis members_nodup : NoDup members.

Definition node_of (c : Cluster) (id : string) : option RaftNode :=
  sv_node <$> servers c !! id.

(** A vote is remembered as long as its term is current; candidates have voted
    for themselves and leaders have been elected; winners have a quorum. *)
Record votes_ok (c : Cluster) : Prop := {
  vo_member : ∀ id n, node_of c id = Some n → id ∈ members;
  vo_id : ∀ id n, node_of c id = Some n → node_id n = id;
  vo_past : ∀ v t k, (v, t, k) ∈ granted c →
    ∃ n, node_of c v = Some n ∧ t <= current_term n ∧
      (t = current_term n → voted_for n = Some k);
  vo_unique : ∀ v t k k', (v, t, k) ∈ granted c → (v, t, k') ∈ granted c → k = k';
  vo_candidate : ∀ id n, node_of c id = Some n → role n = Candidate →
    (id, current_term n, id) ∈ granted c;
  vo_leader : ∀ id n, node_of c id = Some n → role n = Leader →
    (current_term n, id) ∈ elected c;
  vo_quorum : ∀ t k, (t, k) ∈ elected c →
    ∃ voters, NoDup voters ∧ voters ⊆ members ∧
      (quorum_of (length members) <= length voters)%nat ∧
      Forall (fun v => (v, t, k) ∈ granted c) voters;
}.

Lemma node_of_put id s c : node_of (put id s c) id = Some (sv_node s).
Proof. unfold node_of. simpl. by rewrite lookup_insert_eq. Qed.

Lemma node_of_put_ne id id' s c : id ≠ id' → node_of (put id s c) id' = node_of c id'.
Proof. intros. unfold node_of. simpl. by rewrite lookup_insert_ne. Qed.

(** A step of one server that keeps the votes it has cast: the invariant only
    needs its new vote, candidacy and leadership to be recorded. *)
Lemma votes_ok_update c id s s' g e :
  votes_ok c → servers c !! id = Some s →
  node_id (sv_node s') = id → current_term (sv_node s) <= current_term (sv_node s') →
  (current_term (sv_node s') = current_term (sv_node s) → voted_for (sv_node s) ≠ None →
     voted_for (sv_node s') = voted_for (sv_node s)) →
  (∀ v, v ∈ g → v ∉ granted c → ∃ k, v = (id, current_term (sv_node s'), k) ∧
     voted_for (sv_node s') = Some k) →
  granted c ⊆ g → elected c ⊆ e →
  (role (sv_node s') = Candidate → (id, current_term (sv_node s'), id) ∈ g) →
  (role (sv_node s') = Leader → (current_term (sv_node s'), id) ∈ e) →
  (∀ t k, (t, k) ∈ e → (t, k) ∉ elected c →
    ∃ voters, NoDup voters ∧ voters ⊆ members ∧
      (quorum_of (length members) <= length voters)%nat ∧
      Forall (fun v => (v, t, k) ∈ g) voters) →
  votes_ok (mkCluster (<[id := s']> (servers c)) g e).
Proof.
  intros [Hm Hid Hpast Huniq Hcand Hlead Hq] Hs Hid' Hterm Hvote Hnew Hg He Hcand' Hlead' Hq'.
  assert (node_of c id = Some (sv_node s)) as Hn by (unfold node_of; by rewrite Hs).
  assert (∀ id', node_of (mkCluster (<[id:=s']> (servers c)) g e) id'
    = if decide (id = id') then Some (sv_node s') else node_of c id') as Hlook.
  { intros id'. unfold node_of. simpl. destruct (decide (id = id')) as [->|];
      [by rewrite lookup_insert_eq|by rewrite lookup_insert_ne]. }
  assert (∀ v t k, (v, t, k) ∈ granted c →
    v = id → t <= current_term (sv_node s') ∧ (t = current_term (sv_node s') → voted_for (sv_node s') = Some k)) as Hold.
  { intros v t k Hin ->. destruct (Hpast _ _ _ Hin) as (n & Hn' & Hle & Hv).
    rewrite Hn in Hn'. injection Hn' as <-. split; [lia|]. intros ->.
    rewrite Hvote; [apply Hv; lia|lia|rewrite Hv by lia; done]. }
  constructor; cbn [granted elected].
  - intros id' n. rewrite Hlook. destruct (decide _) as [<-|]; [by intros _; eapply Hm|by apply Hm].
  - intros id' n. rewrite Hlook. destruct (decide _) as [<-|]; [by intros [= <-]|by apply Hid].
  - intros v t k Hin. setoid_rewrite Hlook.
    destruct (decide ((v, t, k) ∈ granted c)) as [Hin'|Hnin].
    + destruct (decide (id = v)) as [->|Hne]; [|by apply Hpast].
      exists (sv_node s'). split; [done|]. by apply (Hold v).
    + destruct (Hnew _ Hin Hnin) as (k' & [= -> -> ->] & Hv).
      rewrite decide_True by done. eexists. split; [done|]. split; [lia|done].
  - intros v t k k' Hin Hin'.
    destruct (decide ((v, t, k) ∈ granted c)) as [Ho|Hn1], (decide ((v, t, k') ∈ granted c)) as [Ho'|Hn2].
    + by eapply Huniq.
    + destruct (Hnew _ Hin' Hn2) as (k2 & [= -> -> ->] & Hv).
      destruct (Hold _ _ _ Ho eq_refl) as [_ Hk]. specialize (Hk eq_refl). congruence.
    + destruct (Hnew _ Hin Hn1) as (k2 & [= -> -> ->] & Hv).
      destruct (Hold _ _ _ Ho' eq_refl) as [_ Hk]. specialize (Hk eq_refl). congruence.
    + destruct (Hnew _ Hin Hn1) as (k2 & [= -> -> ->] & Hv).
      destruct (Hnew _ Hin' Hn2) as (k3 & [= ->] & Hv'). congruence.
  - intros id' n. rewrite Hlook. destruct (decide _) as [<-|]; [by intros [= <-]|]. intros. by apply Hg, Hcand.
  - intros id' n. rewrite Hlook. destruct (decide _) as [<-|]; [by intros [= <-]|]. intros. by apply He, Hlead.
  - intros t k Hin. destruct (decide ((t, k) ∈ elected c)) as [Ho|Hn']; [|by apply Hq'].
    destruct (Hq _ _ Ho) as (voters & ? & ? & ? & Hall). exists voters. split_and!; try done.
    eapply Forall_impl; [exact Hall|]. intros v Hv. by apply Hg.
Qed.

(** A step that starts no candidacy and wins no election. *)
Lemma votes_ok_keep c id s s' g :
  votes_ok c → servers c !! id = Some s →
  node_id (sv_node s') = id → current_term (sv_node s) <= current_term (sv_node s') →
  (current_term (sv_node s') = current_term (sv_node s) → voted_for (sv_node s) ≠ None →
     voted_for (sv_node s') = voted_for (sv_node s)) →
  (∀ v, v ∈ g → v ∉ granted c → ∃ k, v = (id, current_term (sv_node s'), k) ∧
     voted_for (sv_node s') = Some k) →
  granted c ⊆ g →
  (role (sv_node s') = Follower ∨
   (role (sv_node s') = role (sv_node s) ∧
    current_term (sv_node s') = current_term (sv_node s))) →
  votes_ok (mkCluster (<[id := s']> (servers c)) g (elected c)).
Proof.
  intros Hok Hs Hid Ht Hv Hnew Hg Hr.
  assert (node_of c id = Some (sv_node s)) as Hn by (unfold node_of; by rewrite Hs).
  apply (votes_ok_update c id s); try done.
  - intros Hc. destruct Hr as [Hr|[Hr Heq]]; [congruence|].
    rewrite Heq. apply Hg. eapply vo_candidate; [done|done|congruence].
  - intros Hl. destruct Hr as [Hr|[Hr Heq]]; [congruence|].
    rewrite Heq. eapply vo_leader; [done|done|congruence].
Qed.

Lemma votes_ok_quiet c id s s' :
  votes_ok c → servers c !! id = Some s → quiet (sv_node s) (sv_node s') →
  votes_ok (put id s' c).
Proof.
  intros Hok Hs (Hid & Ht & Hv & Hr). apply (votes_ok_keep c id s); auto; try done.
  rewrite Hid. eapply vo_id; [done|]. unfold node_of. by rewrite Hs.
Qed.

Lemma votes_ok_campaign c id s n' :
  votes_ok c → servers c !! id = Some s → current_term (sv_node s) < u64_max →
  node_id n' = id → current_term n' = u64_add (current_term (sv_node s)) 1 →
  voted_for n' = Some id → role n' = Candidate →
  votes_ok (add_vote (id, current_term n', id) (put id (set_node n' s) c)).
Proof.
  intros Hok Hs Hmax Hid Ht Hv Hr.
  assert (current_term n' = current_term (sv_node s) + 1) as Ht'
    by (rewrite Ht; apply u64_add_small; u64).
  apply (votes_ok_update c id s); cbn [sv_node set_node]; try done; try lia.
  - intros v Hin Hnin. exists id. split; [|done]. set_solver.
  - set_solver.
  - set_solver.
  - congruence.
Qed.

Lemma peers_of_length id : id ∈ members → (length (peers_of members id) + 1)%nat = length members.
Proof.
  unfold peers_of. clear -members_nodup. induction members_nodup as [|x l Hx Hnd IH]; [set_solver|].
  intros [->|Hin]%elem_of_cons.
  - rewrite filter_cons_False by naive_solver. simpl.
    assert (filter (fun p => p ≠ x) l = l) as ->; [|lia].
    rewrite (list_filter_ext_in _ (fun _ => True)) by set_solver.
    clear. induction l as [|y l IH]; [done|]. rewrite filter_cons_True by done. by rewrite IH.
  - rewrite filter_cons_True by (by intros ->). simpl. by rewrite (IH Hnd Hin).
Qed.

Lemma win_quorum c id s term voters :
  votes_ok c → servers c !! id = Some s → NoDup voters → voters ⊆ peers_of members id →
  Forall (fun v => (v, term, id) ∈ granted c) voters →
  role (sv_node s) = Candidate → current_term (sv_node s) = term →
  (quorum_of (length (peers_of members id) + 1) <= 1 + length voters)%nat →
  ∃ voters', NoDup voters' ∧ voters' ⊆ members ∧
    (quorum_of (length members) <= length voters')%nat ∧
    Forall (fun v => (v, term, id) ∈ granted c) voters'.
Proof.
  intros Hok Hs Hnd Hsub Hall Hr Ht Hq.
  assert (node_of c id = Some (sv_node s)) as Hn by (unfold node_of; by rewrite Hs).
  pose proof (vo_member _ Hok _ _ Hn) as Hmem. rewrite peers_of_length in Hq by done.
  assert (∀ v, v ∈ voters → v ∈ members ∧ v ≠ id) as Hv.
  { intros v Hin. apply Hsub in Hin. unfold peers_of in Hin.
    apply list_elem_of_filter in Hin. naive_solver. }
  exists (id :: voters). split_and!; [|set_solver|done|].
  - constructor; [|done]. intros Hin. by destruct (Hv _ Hin).
  - constructor; [|done]. rewrite <- Ht. by eapply vo_candidate.
Qed.

Lemma boot_quiet id s :
  current_term (boot id (sv_disk s)) = current_term (sv_node s) →
  voted_for (boot id (sv_disk s)) = voted_for (sv_node s) → node_id (sv_node s) = id →
  quiet (sv_node s) (boot id (sv_disk s)).
Proof.
  intros Ht Hv Hid. split_and!; [|lia|done|left].
  - rewrite Hid. unfold boot. destruct (sv_disk s) as [d|]; [|done].
    unfold restore_durable. apply fast_forward_frame.
  - unfold boot. destruct (sv_disk s) as [d|]; [|done].
    unfold restore_durable. cbv zeta. rewrite (proj1 (proj2 (proj2 (proj2 (fast_forward_frame _ _))))).
    done.
Qed.

Lemma tick_cases n :
  (ti_became_candidate (tick_once [] n).1 = false ∧ quiet n (tick n)) ∨
  (ti_became_candidate (tick_once [] n).1 = true ∧ role (tick n) = Candidate ∧
   node_id (tick n) = node_id n ∧ voted_for (tick n) = Some (node_id n) ∧
   current_term (tick n) = u64_add (current_term n) 1).
Proof.
  cbn [tick_once fst ti_became_candidate]. unfold tick. cbv zeta.
  destruct (decide (role _ = Follower)) as [Hf|Hf].
  - destruct (_ <=? _); simpl in *.
    + right. by rewrite bool_decide_true by done.
    + left. split; [|by apply quiet_same]. rewrite Hf. done.
  - left. simpl in *. split; [|by apply quiet_same].
    rewrite (bool_decide_false (role n = Follower)) by done. apply andb_false_r.
Qed.

Lemma step_votes_ok c c' : votes_ok c → cluster_step members c c' → votes_ok c'.
Proof.
  intros Hok Hstep. destruct Hstep as [c id s Hs Hmax|c id s Hs Hmax Hnl|c id s ok req Hs
    |c id s term voters Hs Hnd Hsub Hall|c id s n' Hs Hq|c id s ok Hs|c id s Hs Ht Hv].
  all: assert (node_of c id = Some (sv_node s)) as Hn by (unfold node_of; by rewrite Hs).
  all: pose proof (vo_id _ Hok _ _ Hn) as Hid.
  - destruct (tick_cases (sv_node s)) as [[Hb Hq]|(Hb & Hr & Hid' & Hv & Ht)];
      cbn [tick_once fst ti_became_candidate] in Hb |- *; rewrite Hb.
    + by eapply votes_ok_quiet.
    + apply votes_ok_campaign; try done; congruence.
  - cbv zeta. unfold leader_promotion. rewrite bool_decide_false by done.
    apply votes_ok_campaign; try done. simpl. congruence.
  - unfold raft_vote. pose proof (handle_vote_request_frame req (sv_node s)) as Hf.
    destruct (handle_vote_request req (sv_node s)) as [resp n'] eqn:Hh.
    destruct Hf as (Ht & Hid' & _ & _ & _ & _ & Hgr & Hkeep).
    pose proof (vote_role req (sv_node s)) as Hrole. rewrite Hh in Hrole.
    assert (node_id n' = id) as Hid2 by congruence.
    assert (current_term (sv_node s) <= current_term n') as Hle by lia.
    destruct (vp_granted resp) eqn:Hg; apply (votes_ok_keep c id s); cbn [sv_node]; auto.
    2: by apply union_subseteq_r.
    destruct (Hgr eq_refl) as (Ht' & Hv' & _). rewrite <- Ht'.
    intros v [->%elem_of_singleton|Hin]%elem_of_union Hnin; [by eexists|done].
    done.
  - cbv zeta. unfold finish_election.
    destruct (Nat.leb_spec (quorum_of (length (peers_of members id) + 1)) (1 + length voters)) as [Hq|];
      [destruct (bool_decide_reflect (role (sv_node s) = Candidate)) as [Hr|];
       [destruct (N.eqb_spec (current_term (sv_node s)) term) as [Ht|]|]|]; cbn [andb].
    2-4: rewrite bool_decide_false by naive_solver; eapply votes_ok_quiet; [done|done|apply quiet_refl].
    destruct (init_leader_indices_frame (peers_of members id) (become_leader (sv_node s)))
      as (Hi & Ht2 & Hv2 & Hr2 & _).
    rewrite bool_decide_true by (rewrite Hr, Hr2; done).
    apply (votes_ok_update c id s); cbn [sv_node set_node]; rewrite ?Hi, ?Ht2, ?Hv2, ?Hr2; simpl;
      try done; try set_solver.
    intros t k Hin Hnin. assert ((t, k) = (term, id)) as [= -> ->] by set_solver.
    by eapply win_quorum.
  - eapply votes_ok_quiet; [done|done|]. by apply quiet_step_quiet.
  - eapply votes_ok_quiet; [done|done|]. apply quiet_refl.
  - eapply votes_ok_quiet; [done|done|]. by apply boot_quiet.
Qed.

Lemma initial_votes_ok rows dir : votes_ok (initial members rows dir).
Proof.
  assert (∀ id n, node_of (initial members rows dir) id = Some n → id ∈ members ∧ n = new id) as Hinit.
  { intros id n. unfold node_of, initial. cbn [servers]. intros Hn.
    apply fmap_Some in Hn as (s & Hs & ->).
    apply elem_of_list_to_map_2, list_elem_of_fmap in Hs as (id' & [= -> ->] & Hin). done. }
  constructor.
  1-2: by intros id n [? ->]%Hinit.
  3-4: by intros id n [? ->]%Hinit.
  - by intros v t k ?%elem_of_empty.
  - by intros v t k k' ?%elem_of_empty.
  - by intros t k ?%elem_of_empty.
Qed.

Lemma reachable_votes_ok rows dir c : reachable members rows dir c → votes_ok c.
Proof.
  intros Hr. pose proof (initial_votes_ok rows dir) as Hok.
  induction Hr as [|c1 c2 c3 Hstep _ IH]; [done|]. by eapply IH, step_votes_ok.
Qed.

(** Two quorums of an odd number of members share a voter. *)
Lemma quorums_meet (q1 q2 : list string) :
  Nat.odd (length members) = true →
  NoDup q1 → NoDup q2 → q1 ⊆ members → q2 ⊆ members →
  (quorum_of (length members) <= length q1)%nat → (quorum_of (length members) <= length q2)%nat →
  ∃ v, v ∈ q1 ∧ v ∈ q2.
Proof.
  intros Hodd Hnd1 Hnd2 Hs1 Hs2 Hl1 Hl2.
  destruct (decide (Exists (fun v => v ∈ q2) q1)) as [Hex|Hno].
  { apply Exists_exists in Hex. naive_solver. }
  exfalso. rewrite <- Forall_Exists_neg, Forall_forall in Hno.
  assert (length (q1 ++ q2) <= length members)%nat as Hlen.
  { apply submseteq_length, NoDup_submseteq; [apply NoDup_app; split_and!; set_solver|set_solver]. }
  rewrite length_app in Hlen. unfold quorum_of in *.
  apply Nat.odd_spec in Hodd as [m Hm]. rewrite Hm in *.
  replace ((2 * m + 1 + 1) / 2)%nat with (m + 1)%nat in * by
    (replace (2 * m + 1 + 1)%nat with ((m + 1) * 2)%nat by lia; by rewrite Nat.div_mul).
  lia.
Qed.

Lemma elected_unique c t a b :
  Nat.odd (length members) = true → votes_ok c →
  (t, a) ∈ elected c → (t, b) ∈ elected c → a = b.
Proof.
  intros Hodd Hok Ha Hb.
  destruct (vo_quorum _ Hok _ _ Ha) as (qa & Hnda & Hsa & Hla & Hva).
  destruct (vo_quorum _ Hok _ _ Hb) as (qb & Hndb & Hsb & Hlb & Hvb).
  destruct (quorums_meet qa qb) as (v & Hin & Hin'); try done.
  rewrite Forall_forall in Hva, Hvb. eapply vo_unique; [done|by apply Hva|by apply Hvb].
Qed.

End Safety.

(** ** Running a cluster *)

Definition tick_server (members : list string) (id : string) (c : Cluster) : Cluster :=
  match servers c !! id with
  | Some s =>
      let '(ti, n') := tick_once (peers_of members id) (sv_node s) in
      let c' := put id (set_node n' s) c in
      if ti_became_candidate ti then add_vote (id, current_term n', id) c' else c'
  | None => c
  end.

Definition win_server (members : list string) (id : string) (term : N) (voters : list string)
    (c : Cluster) : Cluster :=
  match servers c !! id with
  | Some s =>
      let n' := finish_election (peers_of members id) term (1 + length voters) (sv_node s) in
      let c' := put id (set_node n' s) c in
      if bool_decide (role (sv_node s) ≠ Leader ∧ role n' = Leader)
      then add_winner (term, id) c' else c'
  | None => c
  end.

Definition can_tick (id : string) (c : Cluster) : bool :=
  match servers c !! id with
  | Some s => current_term (sv_node s) <? u64_max
  | None => true
  end.

Lemma tick_server_reach members id c :
  can_tick id c = true → rtc (cluster_step members) c (tick_server members id c).
Proof.
  unfold can_tick, tick_server. destruct (servers c !! id) as [s|] eqn:Hs; [|done].
  intros Hmax%N.ltb_lt. apply rtc_once. by apply cs_tick.
Qed.

Lemma ticks_reach members id k c :
  forallb (fun j => can_tick id (Nat.iter j (tick_server members id) c)) (seq 0 k) = true →
  rtc (cluster_step members) c (Nat.iter k (tick_server members id) c).
Proof.
  induction k as [|k IH]; [done|]. rewrite seq_S, forallb_app. intros [Hk Hlast]%andb_prop.
  etransitivity; [by apply IH|]. simpl. apply tick_server_reach.
  simpl in Hlast. by destruct (can_tick _ _).
Qed.

Lemma win_server_reach members id term voters c :
  NoDup voters → voters ⊆ peers_of members id →
  Forall (fun v => (v, term, id) ∈ granted c) voters →
  rtc (cluster_step members) c (win_server members id term voters c).
Proof.
  intros. unfold win_server. destruct (servers c !! id) as [s|] eqn:Hs; [|done].
  apply rtc_once. by apply cs_win.
Qed.

(** ** Properties *)

(** C1: election safety.  In a cluster with an odd number of members, under
    arbitrary messages, message loss, reordering and duplication, operator
    promotions, and restarts from a durable file that holds the current term and
    vote, no two elections of one term are won by different servers, and no two
    servers are leaders of the same term. *)
Theorem election_safety (members : list string) (rows : RowStore.PagedRowStore)
    (dir : string) (c : Cluster) :
  NoDup members → Nat.odd (length members) = true → reachable members rows dir c →
  (∀ t a b, (t, a) ∈ elected c → (t, b) ∈ elected c → a = b) ∧
  (∀ a b na nb, node_of c a = Some na → node_of c b = Some nb →
     role na = Leader → role nb = Leader → current_term na = current_term nb → a = b).
Proof.
  intros Hnd Hodd Hr. pose proof (reachable_votes_ok members Hnd rows dir c Hr) as Hok.
  split; [intros t a b; by eapply elected_unique|].
  intros a b na nb Ha Hb Hra Hrb Ht. apply (elected_unique members Hnd c (current_term na)); [done|done| |].
  - by eapply vo_leader.
  - rewrite Ht. by eapply vo_leader.
Qed.

Definition no_rows : RowStore.PagedRowStore :=
  RowStore.mkPagedRowStore [RowStore.page_new 0] 4 1 1 ∅ 0.

(** Server [id] times out alone and asks for votes. *)
Definition campaign (members : list string) (id : string) (c : Cluster) : Cluster :=
  Nat.iter (N.to_nat (election_timeout_for id)) (tick_server members id) c.

Definition three_elect : Cluster :=
  let ms := ["a"; "b"; "c"] in
  let c := campaign ms "a" (initial ms no_rows "/d") in
  let c := match servers c !! "b" with
           | Some s => let '(resp, s') := raft_vote true (mkVoteRequest 1 "a" 0 0) s in
                       add_vote ("b", 1, "a") (put "b" s' c)
           | None => c
           end in
  win_server ms "a" 1 ["b"] c.

Lemma three_elect_reachable : reachable ["a"; "b"; "c"] no_rows "/d" three_elect.
Proof.
  unfold three_elect, reachable. cbv zeta.
  set (c0 := initial ["a"; "b"; "c"] no_rows "/d").
  assert (rtc (cluster_step ["a"; "b"; "c"]) c0 (campaign ["a"; "b"; "c"] "a" c0)) as H1
    by (apply ticks_reach; vm_compute; reflexivity).
  etransitivity; [exact H1|]. clear H1.
  destruct (servers (campaign ["a"; "b"; "c"] "a" c0) !! "b") as [s|] eqn:Hs;
    [|by vm_compute in Hs].
  eapply rtc_l; [apply (cs_vote _ _ "b" s true (mkVoteRequest 1 "a" 0 0) Hs)|].
  assert (vp_granted (raft_vote true (mkVoteRequest 1 "a" 0 0) s).1 = true) as Hg.
  { vm_compute in Hs. injection Hs as <-. vm_compute. reflexivity. }
  destruct (raft_vote true (mkVoteRequest 1 "a" 0 0) s) as [resp s']. cbn [fst] in Hg.
  cbv zeta. rewrite Hg. apply win_server_reach.
  - apply NoDup_singleton.
  - intros v ->%list_elem_of_singleton. apply list_elem_of_filter.
    split; [done|]. by right; left.
  - constructor; [|done]. by apply elem_of_union_l, elem_of_singleton.
Qed.

Lemma election_safety_witness :
  (1, "a") ∈ elected three_elect ∧ ∀ k, (1, k) ∈ elected three_elect → k = "a".
Proof.
  split; [vm_compute; reflexivity|]. intros k Hk.
  refine (proj1 (election_safety ["a"; "b"; "c"] no_rows "/d" three_elect _ eq_refl
    three_elect_reachable) 1 k "a" Hk _).
  - apply (bool_decide_unpack _). vm_compute. exact I.
  - vm_compute. reflexivity.
Defined.

(** C40: split brain in an even cluster.  With two members the quorum
    [(2 + 1) / 2 = 1] is the candidate's own vote: a reachable state has both
    servers leading term 1. *)
Theorem even_cluster_split_brain :
  ∃ c na nb, reachable ["a"; "b"] no_rows "/d" c ∧
    node_of c "a" = Some na ∧ node_of c "b" = Some nb ∧
    role na = Leader ∧ role nb = Leader ∧ current_term na = 1 ∧ current_term nb = 1.
Proof.
  set (ms := ["a"; "b"]). set (c0 := initial ms no_rows "/d").
  set (c1 := campaign ms "a" c0). set (c2 := campaign ms "b" c1).
  set (c3 := win_server ms "a" 1 [] c2). set (c4 := win_server ms "b" 1 [] c3).
  exists c4. eexists _, _. split.
  - unfold reachable.
    etransitivity; [apply (ticks_reach ms "a" (N.to_nat (election_timeout_for "a"))); vm_compute; reflexivity|].
    etransitivity; [apply (ticks_reach ms "b" (N.to_nat (election_timeout_for "b"))); vm_compute; reflexivity|].
    fold (campaign ms "a" c0). fold c1. fold (campaign ms "b" c1). fold c2.
    etransitivity; [apply (win_server_reach ms "a" 1 []); [constructor|by intros ? ?%elem_of_nil|constructor]|].
    apply (win_server_reach ms "b" 1 []); [constructor|by intros ? ?%elem_of_nil|constructor].
  - split; [vm_compute; reflexivity|]. split; [vm_compute; reflexivity|]. by vm_compute.
Qed.

(** A candidate that does not win stays a candidate.  However many ticks
    pass, it starts no new election and sends no vote request, so a split vote
    (every server a candidate of the same term) is never resolved by the clock. *)
Theorem candidate_never_campaigns_again (peers : list string) (n : RaftNode) (k : nat) :
  role n = Candidate →
  let n' := Nat.iter k tick n in
  role n' = Candidate ∧ current_term n' = current_term n ∧ voted_for n' = voted_for n ∧
  ti_became_candidate (tick_once peers n').1 = false.
Proof.
  intros Hr. cbv zeta.
  assert (role (Nat.iter k tick n) = Candidate ∧
    current_term (Nat.iter k tick n) = current_term n ∧
    voted_for (Nat.iter k tick n) = voted_for n) as (Hr' & Ht & Hv).
  { induction k as [|k (Hr' & Ht & Hv)]; [done|]. simpl. unfold tick at 1 3 5. simpl.
    by rewrite decide_False by congruence. }
  split_and!; try done. simpl. rewrite Hr', andb_false_r. done.
Qed.

Lemma candidate_never_campaigns_again_witness :
  role (Nat.iter 1000 tick (become_candidate (new "a"))) = Candidate.
Proof. apply (candidate_never_campaigns_again [] (become_candidate (new "a")) 1000). reflexivity. Defined.
