(* ===== verification/Wal.v ===== *)
(** * The write-ahead log and the in-memory durability engine
      ([crates/voltnuerongrid-store/src/wal_adapter.rs], [lib.rs])

    The line format of the WAL file, the file adapter as operations on the
    file's contents, the [DurabilityEngine] interface and its in-memory
    implementation. *)

From S2P Require Import Prelude Str Decimal.
From Stdlib Require Import Ascii.
Open Scope string_scope.
Open Scope list_scope.
Open Scope N_scope.
Open Scope vng_scope.

Import Dec.

Module Wal.

(** ** Records *)

Record WalRecord := mkWalRecord {
  sequence : N;
  timestamp_epoch_ms : N;
  key : string;
  value : string;
}.

Inductive WalAdapterError :=
| Io
| CorruptRecord (line : string).

Definition BACKSLASH : ascii := ascii_of_N 92.
Definition TABc : ascii := ascii_of_N 9.
Definition LFc : ascii := ascii_of_N 10.

(** [s.replace(c, r)] *)
Fixpoint replace (c : ascii) (r : string) (s : string) : string :=
  match s with
  | EmptyString => EmptyString
  | String d s' => if Ascii.eqb d c then r +:+ replace c r s' else String d (replace c r s')
  end.

Definition escape_field (v : string) : string :=
  replace LFc (String BACKSLASH "n")
    (replace TABc (String BACKSLASH "t")
       (replace BACKSLASH (String BACKSLASH (String BACKSLASH "")) v)).

Fixpoint unescape_field (v : string) : string :=
  match v with
  | EmptyString => EmptyString
  | String c rest =>
      if Ascii.eqb c BACKSLASH then
        match rest with
        | EmptyString => String BACKSLASH ""
        | String d rest' =>
            if Ascii.eqb d "t" then String TABc (unescape_field rest')
            else if Ascii.eqb d "n" then String LFc (unescape_field rest')
            else if Ascii.eqb d BACKSLASH then String BACKSLASH (unescape_field rest')
            else String BACKSLASH (String d (unescape_field rest'))
        end
      else String c (unescape_field rest)
  end.

Definition encode_record (r : WalRecord) : string :=
  to_string (sequence r) +:+ Str.TAB +:+ to_string (timestamp_epoch_ms r) +:+ Str.TAB
  +:+ escape_field (key r) +:+ Str.TAB +:+ escape_field (value r).

Definition decode_record (line : string) : result WalRecord WalAdapterError :=
  match Str.splitn 4 Str.TAB line with
  | [p0; p1; p2; p3] =>
      match parse u64_max p0 with
      | None => Err (CorruptRecord line)
      | Some sq =>
          match parse u128_max p1 with
          | None => Err (CorruptRecord line)
          | Some ts => Ok (mkWalRecord sq ts (unescape_field p2) (unescape_field p3))
          end
      end
  | _ => Err (CorruptRecord line)
  end.

(** ** The file adapter: operations on the contents of the WAL file *)

(** The carriage return [BufRead::lines] drops before a line feed. *)
Definition strip_cr (s : string) : string :=
  match Str.strip_prefix Str.CR (Str.reverse_str s) with
  | Some r => Str.reverse_str r
  | None => s
  end.

(** [BufRead::lines]; there are at most as many lines as bytes. *)
Fixpoint lines (fuel : nat) (s : string) : list string :=
  match fuel with
  | O => []
  | S fuel' =>
      match s with
      | EmptyString => []
      | _ => match Str.split_once Str.LF s with
             | Some (a, b) => strip_cr a :: lines fuel' b
             | None => [s]
             end
      end
  end.

Fixpoint decode_lines (ls : list string) : result (list WalRecord) WalAdapterError :=
  match ls with
  | [] => Ok []
  | l :: ls' =>
      if String.eqb (Str.trim l) "" then decode_lines ls'
      else let? r := decode_record l in
           let? rs := decode_lines ls' in Ok (r :: rs)
  end.

(** [None] is a file that cannot be opened or written. *)
Definition append (io : bool) (r : WalRecord) (file : string) : result unit WalAdapterError * string :=
  if io then (Ok tt, file +:+ encode_record r +:+ Str.LF) else (Err Io, file).

Definition read_all (io : bool) (file : string) : result (list WalRecord) WalAdapterError :=
  if io then decode_lines (lines (String.length file) file) else Err Io.

Definition truncate (io : bool) (file : string) : result unit WalAdapterError * string :=
  if io then (Ok tt, "") else (Err Io, file).

(** ** The in-memory engine *)

Record DurabilityConfig := mkDurabilityConfig {
  wal_enabled : bool;
  checkpoint_interval_seconds : N;
  max_wal_records_before_checkpoint : nat;
}.

Definition default_config : DurabilityConfig := mkDurabilityConfig true 60 1000.

Record CheckpointManifest := mkManifest {
  checkpoint_id : N;
  last_sequence : N;
  entry_count : nat;
}.

Record InMemoryDurabilityEngine := mkEngine {
  config : DurabilityConfig;
  seq : N;
  wal : list WalRecord;
  store : gmap string string;
  checkpoints : list CheckpointManifest;
  sql_streams : gmap string (list string);
}.

Definition with_config (c : DurabilityConfig) : InMemoryDurabilityEngine :=
  mkEngine c 0 [] ∅ [] ∅.

(** [now] is the clock reading of the call. *)
Definition append_mutation (now : N) (k v : string) (e : InMemoryDurabilityEngine)
    : WalRecord * InMemoryDurabilityEngine :=
  let s := u64_add (seq e) 1 in
  let r := mkWalRecord s now k v in
  (r, mkEngine (config e) s (if wal_enabled (config e) then wal e ++ [r] else wal e)
        (<[k := v]> (store e)) (checkpoints e) (sql_streams e)).

Definition append_mutation_with_adapter (io : bool) (now : N) (k v : string)
    (e : InMemoryDurabilityEngine) (file : string)
    : result WalRecord WalAdapterError * InMemoryDurabilityEngine * string :=
  let '(r, e') := append_mutation now k v e in
  if wal_enabled (config e') then
    match append io r file with
    | (Ok _, file') => (Ok r, e', file')
    | (Err err, file') => (Err err, e', file')
    end
  else (Ok r, e', file).

Definition recover_step (e : InMemoryDurabilityEngine) (r : WalRecord) : InMemoryDurabilityEngine :=
  mkEngine (config e) (N.max (seq e) (sequence r))
    (if wal_enabled (config e) then wal e ++ [r] else wal e)
    (<[key r := value r]> (store e)) (checkpoints e) (sql_streams e).

Definition recover_from_records (c : DurabilityConfig) (rs : list WalRecord)
    : InMemoryDurabilityEngine :=
  fold_left recover_step rs (with_config c).

Definition recover_from_adapter (io : bool) (c : DurabilityConfig) (file : string)
    : result InMemoryDurabilityEngine WalAdapterError :=
  let? rs := read_all io file in Ok (recover_from_records c rs).

Definition get (k : string) (e : InMemoryDurabilityEngine) : option string := store e !! k.

Definition force_checkpoint (e : InMemoryDurabilityEngine)
    : CheckpointManifest * InMemoryDurabilityEngine :=
  let m := mkManifest (u64_add (N.of_nat (length (checkpoints e))) 1) (seq e) (size (store e)) in
  (m, mkEngine (config e) (seq e) [] (store e) (checkpoints e ++ [m]) (sql_streams e)).

Definition maybe_checkpoint (e : InMemoryDurabilityEngine)
    : option CheckpointManifest * InMemoryDurabilityEngine :=
  if (length (wal e) <? max_wal_records_before_checkpoint (config e))%nat then (None, e)
  else let '(m, e') := force_checkpoint e in (Some m, e').

Definition latest_checkpoint (e : InMemoryDurabilityEngine) : option CheckpointManifest :=
  last (checkpoints e).

Definition checkpoint_count (e : InMemoryDurabilityEngine) : nat := length (checkpoints e).

(** ** SQL streams *)

Inductive SqlWalKind := Ddl | Dml.

#[export] Instance SqlWalKind_eq_dec : EqDecision SqlWalKind.
Proof. solve_decision. Defined.

Definition kind_str (k : SqlWalKind) : string := match k with Ddl => "ddl" | Dml => "dml" end.

Definition set_streams (m : gmap string (list string)) (e : InMemoryDurabilityEngine)
    : InMemoryDurabilityEngine :=
  mkEngine (config e) (seq e) (wal e) (store e) (checkpoints e) m.

Definition mem_iter_sql (k : SqlWalKind) (e : InMemoryDurabilityEngine) : list string :=
  default [] (sql_streams e !! kind_str k).

Definition mem_append_sql (k : SqlWalKind) (sql : string) (e : InMemoryDurabilityEngine)
    : N * InMemoryDurabilityEngine :=
  let stream := default [] (sql_streams e !! kind_str k) ++ [sql] in
  (N.of_nat (length stream), set_streams (<[kind_str k := stream]> (sql_streams e)) e).

Definition mem_sql_count (k : SqlWalKind) (e : InMemoryDurabilityEngine) : nat :=
  match sql_streams e !! kind_str k with Some l => length l | None => 0 end.

Definition mem_clear_sql (k : SqlWalKind) (e : InMemoryDurabilityEngine)
    : InMemoryDurabilityEngine :=
  match sql_streams e !! kind_str k with
  | Some _ => set_streams (<[kind_str k := []]> (sql_streams e)) e
  | None => e
  end.

(** ** The interface: the SQL part of the [DurabilityEngine] trait *)

Class DurabilityEngine (E : Type) := {
  append_sql : SqlWalKind -> string -> E -> N * E;
  iter_sql : SqlWalKind -> E -> list string;
  sql_count : SqlWalKind -> E -> nat;
  clear_sql : SqlWalKind -> E -> E;
  persists_sql : E -> bool;
}.

(** What an engine that persists SQL promises. *)
Class PersistsSql (E : Type) `{!DurabilityEngine E} : Prop := {
  append_sql_seq : ∀ k sql e,
    (append_sql k sql e).1 = N.of_nat (S (length (iter_sql k e)));
  append_sql_iter : ∀ k sql e k',
    iter_sql k' (append_sql k sql e).2
    = if decide (k = k') then iter_sql k' e ++ [sql] else iter_sql k' e;
  sql_count_iter : ∀ k e, sql_count k e = length (iter_sql k e);
  clear_sql_iter : ∀ k e k',
    iter_sql k' (clear_sql k e) = if decide (k = k') then [] else iter_sql k' e;
}.

#[export] Instance in_memory_engine : DurabilityEngine InMemoryDurabilityEngine := {
  append_sql := mem_append_sql;
  iter_sql := mem_iter_sql;
  sql_count := mem_sql_count;
  clear_sql := mem_clear_sql;
  persists_sql := fun _ => true;
}.

(** The provided method [append_sql_batch] of the trait. *)
Fixpoint append_sql_batch {E} `{!DurabilityEngine E} (entries : list (SqlWalKind * string)) (e : E)
    : list N * E :=
  match entries with
  | [] => ([], e)
  | (k, sql) :: rest =>
      let '(s, e1) := append_sql k sql e in
      let '(ss, e2) := append_sql_batch rest e1 in (s :: ss, e2)
  end.

Example encode_ex :
  encode_record (mkWalRecord 10 1700 ("a" +:+ Str.TAB) "") = "10" +:+ Str.TAB +:+ "1700" +:+ Str.TAB +:+ "a\t" +:+ Str.TAB.
Proof. reflexivity. Qed.

End Wal.
