(* ===== verification/WalProps.v ===== *)
(** * Round trips of the WAL format and recovery of the durability engine *)

From S2P Require Import Prelude Str Decimal Wal.
From Stdlib Require Import Ascii.
Open Scope string_scope.
Open Scope list_scope.
Open Scope N_scope.
Open Scope vng_scope.
Import Dec Wal.

#[local] Arguments String.append !_ _ / : simpl nomatch.

(** ** Separators *)

Lemma split_once_absent c s :
  all_chars (fun d => negb (Ascii.eqb c d)) s = true → Str.split_once (String c "") s = None.
Proof.
  induction s as [|d s IH]; [done|]. simpl. intros [Hd Hs]%andb_prop.
  destruct (Ascii.eqb c d); [done|]. by rewrite IH.
Qed.

Lemma all_chars_app p a b : all_chars p (a +:+ b) = all_chars p a && all_chars p b.
Proof. induction a as [|c a IH]; simpl; [done|]. by rewrite IH, andb_assoc. Qed.

Lemma all_chars_impl (p q : ascii -> bool) s :
  (∀ c, p c = true → q c = true) → all_chars p s = true → all_chars q s = true.
Proof.
  intros Hpq. induction s as [|c s IH]; [done|]. simpl. intros [Hc Hs]%andb_prop.
  by rewrite (Hpq _ Hc), IH.
Qed.

Definition line_char (c : ascii) : bool := negb (Ascii.eqb TABc c) && negb (Ascii.eqb LFc c).

Lemma digit_line_char c : is_digit c = true → line_char c = true.
Proof.
  unfold is_digit, line_char. intros Hd.
  destruct (Ascii.eqb_spec TABc c) as [<-|]; [done|]. by destruct (Ascii.eqb_spec LFc c) as [<-|].
Qed.

(** ** Escaping *)

Definition esc_char (c : ascii) : string :=
  if Ascii.eqb c BACKSLASH then String BACKSLASH (String BACKSLASH "")
  else if Ascii.eqb c TABc then String BACKSLASH "t"
  else if Ascii.eqb c LFc then String BACKSLASH "n"
  else String c "".

Lemma replace_app c r a b : replace c r (a +:+ b) = replace c r a +:+ replace c r b.
Proof.
  induction a as [|d a IH]; [done|]. simpl. rewrite IH.
  destruct (Ascii.eqb d c); [by rewrite Str.app_assoc_str|done].
Qed.

Lemma escape_app a b : escape_field (a +:+ b) = escape_field a +:+ escape_field b.
Proof. unfold escape_field. by rewrite !replace_app. Qed.

Lemma escape_char c : escape_field (String c "") = esc_char c.
Proof.
  unfold esc_char, escape_field. cbn [replace].
  destruct (Ascii.eqb_spec c BACKSLASH) as [->|Hb]; [done|]. cbn [replace].
  destruct (Ascii.eqb_spec c TABc) as [->|Ht]; [done|]. cbn [replace].
  by destruct (Ascii.eqb_spec c LFc) as [->|Hl].
Qed.

Lemma escape_cons c s : escape_field (String c s) = esc_char c +:+ escape_field s.
Proof. change (String c s) with (String c "" +:+ s). by rewrite escape_app, escape_char. Qed.

Lemma escape_line_chars v : all_chars line_char (escape_field v) = true.
Proof.
  induction v as [|c v IH]; [done|]. rewrite escape_cons, all_chars_app, IH, andb_true_r.
  unfold esc_char. destruct (Ascii.eqb_spec c BACKSLASH); [done|].
  destruct (Ascii.eqb_spec c TABc); [done|]. destruct (Ascii.eqb_spec c LFc); [done|].
  simpl. unfold line_char. by rewrite !(proj2 (Ascii.eqb_neq _ _)) by congruence.
Qed.

Lemma unescape_escape v : unescape_field (escape_field v) = v.
Proof.
  induction v as [|c v IH]; [done|]. rewrite escape_cons. unfold esc_char.
  destruct (Ascii.eqb_spec c BACKSLASH) as [->|Hb]; [simpl; by rewrite IH|].
  destruct (Ascii.eqb_spec c TABc) as [->|Ht]; [simpl; by rewrite IH|].
  destruct (Ascii.eqb_spec c LFc) as [->|Hl]; [simpl; by rewrite IH|].
  simpl. rewrite (proj2 (Ascii.eqb_neq _ _)) by done. by rewrite IH.
Qed.

(** ** Records and lines *)

Lemma no_tab p : all_chars line_char p = true → Str.split_once Str.TAB p = None.
Proof.
  intros H. apply split_once_absent. eapply all_chars_impl; [|exact H].
  intros c [? _]%andb_prop. done.
Qed.

Lemma to_string_line_chars n : all_chars line_char (to_string n) = true.
Proof. eapply all_chars_impl; [apply digit_line_char|apply to_string_digits]. Qed.

Lemma decode_encode r :
  sequence r <= u64_max → timestamp_epoch_ms r <= u128_max →
  decode_record (encode_record r) = Ok r.
Proof.
  intros Hs Ht. unfold decode_record.
  assert (Str.splitn 4 Str.TAB (encode_record r)
    = [to_string (sequence r); to_string (timestamp_epoch_ms r);
       escape_field (key r); escape_field (value r)]) as ->.
  { apply (Str.splitn_join Str.TAB [_; _; _; _] 4); try done.
    - repeat constructor; rewrite Str.app_empty_r; apply no_tab;
        (apply to_string_line_chars || apply escape_line_chars).
    - intros p Hp. apply no_tab. rewrite !elem_of_cons in Hp.
      destruct Hp as [->|[->|[->|[->|Hp%elem_of_nil]]]]; try done;
        (apply to_string_line_chars || apply escape_line_chars). }
  rewrite !parse_to_string, !unescape_escape by done. by destruct r.
Qed.

Lemma encode_no_lf r : Str.split_once Str.LF (encode_record r) = None.
Proof.
  apply split_once_absent. unfold encode_record. rewrite !all_chars_app.
  assert (∀ s, all_chars line_char s = true → all_chars (fun d => negb (Ascii.eqb (ascii_of_N 10) d)) s = true) as Himp.
  { intros s. apply all_chars_impl. by intros c [_ ?]%andb_prop. }
  rewrite !(Himp _ (to_string_line_chars _)), !(Himp _ (escape_line_chars _)). done.
Qed.

(** The value does not end in a carriage return. *)
Definition cr_free (r : WalRecord) : Prop :=
  Str.strip_prefix Str.CR (Str.reverse_str (value r)) = None.

Lemma cr_snoc a c :
  Str.strip_prefix Str.CR (Str.reverse_str (a +:+ String c ""))
  = if Ascii.eqb (ascii_of_N 13) c then Some (Str.reverse_str a) else None.
Proof.
  rewrite Str.reverse_str_app. change (Str.reverse_str (String c "")) with (String c "").
  unfold Str.CR. cbn [Str.of_bytes Str.strip_prefix String.append].
  by destruct (Ascii.eqb (ascii_of_N 13) c).
Qed.

Lemma string_snoc s : s = "" ∨ ∃ a c, s = a +:+ String c "".
Proof.
  destruct s as [|d s]; [by left|right].
  destruct (Str.butlast_snoc (String d s)) as [c Hc]; [done|]. eauto.
Qed.

Lemma strip_cr_encode r : cr_free r → strip_cr (encode_record r) = encode_record r.
Proof.
  intros Hcr. unfold strip_cr.
  assert (Str.strip_prefix Str.CR (Str.reverse_str (encode_record r)) = None) as ->; [|done].
  unfold encode_record. rewrite <- !Str.app_assoc_str. unfold cr_free in Hcr.
  destruct (string_snoc (value r)) as [Hv|(w & c & Hv)]; rewrite Hv in Hcr |- *.
  - rewrite Str.app_empty_r. unfold Str.TAB. cbn [Str.of_bytes]. by rewrite cr_snoc.
  - rewrite cr_snoc in Hcr. destruct (Ascii.eqb_spec (ascii_of_N 13) c) as [|Hne]; [done|].
    rewrite escape_app, escape_char, <- Str.app_assoc_str. unfold esc_char.
    destruct (Ascii.eqb_spec c BACKSLASH); [|destruct (Ascii.eqb_spec c TABc); [|destruct (Ascii.eqb_spec c LFc)]].
    1: change (String BACKSLASH (String BACKSLASH "")) with (String BACKSLASH "" +:+ String BACKSLASH "").
    2: change (String BACKSLASH "t") with (String BACKSLASH "" +:+ String "t" "").
    3: change (String BACKSLASH "n") with (String BACKSLASH "" +:+ String "n" "").
    1-3: by rewrite <- Str.app_assoc_str, cr_snoc.
    rewrite cr_snoc. by rewrite (proj2 (Ascii.eqb_neq _ _)).
Qed.

(** A line that starts with a digit is not blank. *)
Lemma strip_all_empty fuel ps s :
  s ≠ "" → Str.strip_all fuel ps s = "" → ∃ w p, p ∈ ps ∧ s = w +:+ p.
Proof.
  revert s. induction fuel as [|fuel IH]; intros s Hs; [done|]. simpl.
  destruct (Str.strip_any ps s) as [r|] eqn:Hr; [|done]. intros Hall.
  destruct (Str.strip_any_Some _ _ _ Hr) as (p & Hp & Hsp).
  destruct r as [|c r].
  - exists "", p. split; [done|]. by rewrite Hsp, Str.app_empty_r.
  - destruct (IH (String c r)) as (w & q & Hq & Heq); [done|done|].
    exists (p +:+ w), q. split; [done|]. by rewrite Hsp, Heq, Str.app_assoc_str.
Qed.

Lemma digit_not_whitespace c q s l :
  is_digit c = true → q ∈ Str.whitespace → String c l ≠ q +:+ s.
Proof.
  intros Hc Hq.
  assert (Forall (fun q => match q with String d _ => is_digit d = false | _ => False end)
            Str.whitespace) as Hall by (by repeat constructor).
  rewrite Forall_forall in Hall. specialize (Hall _ Hq). destruct q as [|d q]; [done|].
  intros [= <- _]. congruence.
Qed.

Lemma digit_line_not_blank c l : is_digit c = true → Str.trim (String c l) ≠ "".
Proof.
  intros Hc Ht. unfold Str.trim in Ht.
  assert (Str.trim_start (String c l) = String c l) as Hs.
  { apply Str.strip_all_id. destruct (Str.strip_any _ _) as [r|] eqn:Hr; [|done]. exfalso.
    destruct (Str.strip_any_Some _ _ _ Hr) as (q & Hq & Heq).
    by apply (digit_not_whitespace c q r l Hc Hq). }
  rewrite Hs in Ht. unfold Str.trim_end in Ht.
  apply (f_equal Str.reverse_str) in Ht. rewrite Str.reverse_str_involutive in Ht.
  apply strip_all_empty in Ht as (w & p & Hp & Heq).
  - apply list_elem_of_fmap in Hp as (q & -> & Hq).
    apply (f_equal Str.reverse_str) in Heq.
    rewrite Str.reverse_str_involutive, Str.reverse_str_app, Str.reverse_str_involutive in Heq.
    by apply (digit_not_whitespace c q (Str.reverse_str w) l Hc Hq).
  - intros He. apply (f_equal Str.reverse_str) in He. by rewrite Str.reverse_str_involutive in He.
Qed.

(** ** Files *)

Fixpoint file_of (rs : list WalRecord) : string :=
  match rs with
  | [] => ""
  | r :: rs' => encode_record r +:+ Str.LF +:+ file_of rs'
  end.

Lemma file_of_snoc rs r : file_of (rs ++ [r]) = file_of rs +:+ encode_record r +:+ Str.LF.
Proof.
  induction rs as [|r' rs IH]; [done|]. simpl. rewrite IH, !Str.app_assoc_str. done.
Qed.

Lemma append_all rs f :
  f = file_of [] → fold_left (fun f r => (append true r f).2) rs f = file_of rs.
Proof.
  intros ->. induction rs as [|r rs IH] using rev_ind; [done|].
  rewrite fold_left_app, IH, file_of_snoc. done.
Qed.

Lemma lines_file fuel rs :
  (String.length (file_of rs) <= fuel)%nat →
  lines fuel (file_of rs) = map (fun r => strip_cr (encode_record r)) rs.
Proof.
  revert fuel. induction rs as [|r rs IH]; intros fuel Hf; [by destruct fuel|].
  simpl in Hf. rewrite !Str.length_app_str in Hf.
  destruct fuel as [|fuel]; [simpl in Hf; lia|]. cbn [lines file_of map].
  rewrite Str.split_once_app; [|done|rewrite Str.app_empty_r; apply encode_no_lf].
  destruct (encode_record r +:+ Str.LF +:+ file_of rs) eqn:E.
  { apply (f_equal String.length) in E. rewrite !Str.length_app_str in E. simpl in E. lia. }
  rewrite IH; [done|]. simpl in Hf. lia.
Qed.

(** What the format can carry. *)
Definition storable (r : WalRecord) : Prop :=
  sequence r <= u64_max ∧ timestamp_epoch_ms r <= u128_max ∧ cr_free r.

Lemma encode_not_blank r : String.eqb (Str.trim (encode_record r)) "" = false.
Proof.
  apply String.eqb_neq. unfold encode_record.
  destruct (to_string_digits (sequence r)) as [Hd Hne].
  destruct (to_string (sequence r)) as [|c s]; [done|]. simpl in Hd.
  apply andb_prop in Hd as [Hc _]. by apply digit_line_not_blank.
Qed.

Lemma decode_lines_encoded rs :
  Forall storable rs → decode_lines (map (fun r => strip_cr (encode_record r)) rs) = Ok rs.
Proof.
  induction 1 as [|r rs (Hs & Ht & Hcr) _ IH]; [done|]. cbn [map decode_lines].
  by rewrite strip_cr_encode, encode_not_blank, decode_encode, IH by done.
Qed.

Lemma read_all_file rs : Forall storable rs → read_all true (file_of rs) = Ok rs.
Proof. intros. unfold read_all. rewrite lines_file by done. by apply decode_lines_encoded. Qed.

(** ** The engine *)

Abbreviation mutation := (N * string * string)%type.

Definition mutate_durably (ef : InMemoryDurabilityEngine * string) (m : mutation)
    : InMemoryDurabilityEngine * string :=
  let '(_, e, f) := append_mutation_with_adapter true m.1.1 m.1.2 m.2 ef.1 ef.2 in (e, f).

Definition replay (rs : list WalRecord) (m : gmap string string) : gmap string string :=
  fold_left (fun m r => <[key r := value r]> m) rs m.

(** The WAL numbers the mutations one by one after [b]. *)
Definition numbered (b : N) (rs : list WalRecord) : Prop :=
  ∀ i r, rs !! i = Some r → sequence r = b + 1 + N.of_nat i.

Lemma numbered_snoc b rs r :
  numbered b rs → sequence r = b + 1 + N.of_nat (length rs) → numbered b (rs ++ [r]).
Proof.
  intros Hn Hr i r' Hi. apply lookup_app_Some in Hi as [Hi|[Hle Hi]]; [by apply Hn|].
  apply list_lookup_singleton_Some in Hi as [Hi <-]. rewrite Hr. lia.
Qed.

Lemma recover_numbered c rs b e :
  wal_enabled c = true → config e = c → seq e = b → numbered b rs →
  fold_left recover_step rs e
  = mkEngine c (b + N.of_nat (length rs)) (wal e ++ rs) (replay rs (store e))
      (checkpoints e) (sql_streams e).
Proof.
  intros Hc. revert b e. induction rs as [|r rs IH]; intros b e He Hs Hn.
  - simpl. rewrite app_nil_r. destruct e. simpl in *. subst. f_equal. lia.
  - cbn [fold_left]. rewrite (IH (b + 1)).
    + unfold recover_step. simpl. rewrite He, Hc, <- app_assoc. f_equal. lia.
    + done.
    + simpl. rewrite Hs, (Hn 0%nat r) by done. lia.
    + intros i r' Hi. rewrite (Hn (S i) r') by done. lia.
Qed.

Lemma mutate_all c ms :
  wal_enabled c = true → N.of_nat (length ms) <= u64_max →
  ∃ rs, fold_left mutate_durably ms (with_config c, "")
        = (mkEngine c (N.of_nat (length rs)) rs (replay rs ∅) [] ∅, file_of rs) ∧
    length rs = length ms ∧ numbered 0 rs ∧
    ∀ i r, rs !! i = Some r → ms !! i = Some (timestamp_epoch_ms r, key r, value r).
Proof.
  intros Hc. induction ms as [|[[now k] v] ms IH] using rev_ind; intros Hlen.
  - exists []. split_and!; try done.
  - rewrite length_app in Hlen. simpl in Hlen.
    destruct IH as (rs & Hrun & Hl & Hn & Hms); [lia|].
    rewrite fold_left_app, Hrun. simpl. unfold mutate_durably, append_mutation_with_adapter.
    cbn [append_mutation fst snd config wal_enabled]. rewrite Hc. cbn [append].
    cbn [seq wal store]. rewrite u64_add_small by u64.
    exists (rs ++ [mkWalRecord (N.of_nat (length rs) + 1) now k v]). split_and!.
    + rewrite file_of_snoc. f_equal. unfold replay. rewrite fold_left_app, length_app.
      simpl. f_equal. lia.
    + rewrite !length_app. simpl. lia.
    + apply numbered_snoc; [done|]. simpl. lia.
    + intros i r Hi. apply lookup_app_Some in Hi as [Hi|[Hle Hi]].
      * apply lookup_app_l_Some. by apply Hms.
      * apply list_lookup_singleton_Some in Hi as [Hi <-].
        rewrite lookup_app_r by lia. simpl. by replace (i - length ms)%nat with 0%nat by lia.
Qed.

(** ** SQL streams through the interface *)

#[export] Instance in_memory_persists_sql : PersistsSql InMemoryDurabilityEngine.
Proof.
  constructor; cbn [append_sql iter_sql sql_count clear_sql in_memory_engine].
  - intros k sql e. simpl. unfold mem_iter_sql. rewrite length_app. simpl. f_equal. lia.
  - intros k sql e k'. unfold mem_iter_sql, mem_append_sql, set_streams. simpl.
    destruct (decide (k = k')) as [<-|Hne]; [by rewrite lookup_insert_eq|].
    rewrite lookup_insert_ne; [done|]. by destruct k, k'.
  - intros k e. unfold mem_sql_count, mem_iter_sql. by destruct (sql_streams e !! _).
  - intros k e k'. unfold mem_iter_sql, mem_clear_sql.
    destruct (sql_streams e !! kind_str k) as [l|] eqn:Hl.
    + simpl. destruct (decide (k = k')) as [<-|Hne]; [by rewrite lookup_insert_eq|].
      rewrite lookup_insert_ne; [done|]. by destruct k, k'.
    + destruct (decide (k = k')) as [<-|Hne]; [by rewrite Hl|done].
Qed.

(** ** Engine histories with checkpoints *)

Inductive engine_op :=
| EAppend (now : N) (k v : string)
| EMaybeCheckpoint
| EForceCheckpoint
| ESql (kind : SqlWalKind) (sql : string)
| EClearSql (kind : SqlWalKind).

Definition engine_step (e : InMemoryDurabilityEngine) (o : engine_op) : InMemoryDurabilityEngine :=
  match o with
  | EAppend now k v => (append_mutation now k v e).2
  | EMaybeCheckpoint => (maybe_checkpoint e).2
  | EForceCheckpoint => (force_checkpoint e).2
  | ESql kind sql => (append_sql kind sql e).2
  | EClearSql kind => clear_sql kind e
  end.

(** The store is the WAL replayed over the store of the last checkpoint, whose
    manifest has its size and the sequence at which the WAL starts. *)
Definition checkpointed (e : InMemoryDurabilityEngine) (base : gmap string string) : Prop :=
  wal_enabled (config e) = true ∧ store e = replay (wal e) base ∧
  match latest_checkpoint e with
  | Some m => entry_count m = size base ∧ seq e = last_sequence m + N.of_nat (length (wal e)) ∧
              numbered (last_sequence m) (wal e)
  | None => base = ∅ ∧ seq e = N.of_nat (length (wal e)) ∧ numbered 0 (wal e)
  end.

Lemma checkpointed_force e base :
  checkpointed e base → checkpointed (force_checkpoint e).2 (store e).
Proof.
  intros (Hc & _ & _). unfold checkpointed, latest_checkpoint. simpl. rewrite last_snoc. simpl.
  split_and!; try done. lia.
Qed.

Lemma checkpointed_streams m e base : checkpointed e base → checkpointed (set_streams m e) base.
Proof. done. Qed.

Lemma checkpointed_step e base o :
  checkpointed e base → seq e < u64_max → ∃ base', checkpointed (engine_step e o) base'.
Proof.
  intros H Hmax. destruct o as [now k v| | |kind sql|kind]; cbn [engine_step].
  - destruct H as (Hc & Hs & Hm). exists base. unfold checkpointed, latest_checkpoint in *.
    cbn [append_mutation snd config seq wal store checkpoints].
    rewrite Hc, u64_add_small by u64. split; [done|]. split.
    { unfold replay. rewrite fold_left_app. simpl. by rewrite Hs. }
    rewrite length_app. simpl.
    destruct (last (checkpoints e)) as [m|]; destruct Hm as (Hb & Hseq & Hn);
      (split_and!; [done|lia|apply numbered_snoc; [done|simpl; lia]]).
  - unfold maybe_checkpoint. destruct (_ <? _)%nat; [by exists base|].
    exists (store e). by eapply checkpointed_force.
  - exists (store e). by eapply checkpointed_force.
  - exists base. by apply checkpointed_streams.
  - exists base. cbn [clear_sql in_memory_engine]. unfold mem_clear_sql.
    destruct (sql_streams e !! _); [by apply checkpointed_streams|done].
Qed.

Lemma engine_step_seq e o :
  seq e < u64_max → seq (engine_step e o) <= seq e + 1.
Proof.
  intros H. destruct o; simpl; try lia.
  - rewrite u64_add_small by u64. lia.
  - unfold maybe_checkpoint. destruct (_ <? _)%nat; simpl; lia.
  - unfold mem_clear_sql. destruct (sql_streams e !! _); simpl; lia.
Qed.

Lemma checkpointed_run ops e base :
  checkpointed e base → seq e + N.of_nat (length ops) <= u64_max →
  ∃ base', checkpointed (fold_left engine_step ops e) base'.
Proof.
  revert e base. induction ops as [|o ops IH]; intros e base Hc Hlen; [by exists base|].
  cbn [length fold_left] in *.
  destruct (checkpointed_step e base o Hc ltac:(lia)) as [base' Hc'].
  apply (IH _ base' Hc'). pose proof (engine_step_seq e o ltac:(lia)). lia.
Qed.

(** ** Properties *)

(** Round trip of the WAL file.  Appending records one by one and reading
    the file back gives exactly those records in order, whatever tabs, line
    breaks, backslashes or other bytes the keys and values contain, as long as
    the numbers fit their widths and no value ends in a carriage return. *)
Theorem wal_file_roundtrip (rs : list WalRecord) :
  Forall storable rs →
  read_all true (fold_left (fun f r => (append true r f).2) rs "") = Ok rs.
Proof. intros Hrs. rewrite append_all by done. by apply read_all_file. Qed.

Definition odd_record : WalRecord :=
  mkWalRecord 7 1700000000000 ("k" +:+ Str.TAB +:+ "\n") (Str.LF +:+ "\" +:+ Str.CR +:+ "x").

Lemma wal_file_roundtrip_witness :
  read_all true (fold_left (fun f r => (append true r f).2) [odd_record; odd_record] "")
  = Ok [odd_record; odd_record].
Proof.
  apply (wal_file_roundtrip [odd_record; odd_record]).
  repeat constructor; vm_compute; congruence.
Defined.

(** A value that ends in a carriage return is changed by the round trip:
    the escaping leaves the byte alone and [BufRead::lines] drops it before the
    line feed. *)
Theorem trailing_carriage_return_lost :
  read_all true (append true (mkWalRecord 1 0 "k" ("v" +:+ Str.CR)) "").2
  = Ok [mkWalRecord 1 0 "k" "v"].
Proof. vm_compute. reflexivity. Qed.

(** Crash recovery.  After any sequence of durable mutations on a fresh
    engine, rebuilding the engine from the WAL file gives the very same engine:
    store, sequence number and WAL. *)
Theorem recovery_restores_engine (c : DurabilityConfig) (ms : list mutation) :
  wal_enabled c = true → N.of_nat (length ms) <= u64_max →
  Forall (fun m => m.1.1 <= u128_max ∧
                   Str.strip_prefix Str.CR (Str.reverse_str m.2) = None) ms →
  let '(e, f) := fold_left mutate_durably ms (with_config c, "") in
  recover_from_adapter true c f = Ok e ∧ seq e = N.of_nat (length ms).
Proof.
  intros Hc Hlen Hms.
  destruct (mutate_all c ms Hc Hlen) as (rs & -> & Hl & Hn & Hrs).
  unfold recover_from_adapter. rewrite read_all_file.
  - unfold recover_from_records. rewrite (recover_numbered c rs 0) by done.
    simpl. by rewrite Hl.
  - apply Forall_lookup. intros i r Hi.
    destruct (proj1 (Forall_lookup _ _) Hms i _ (Hrs i r Hi)) as [Ht Hcr].
    split_and!; [|exact Ht|exact Hcr]. rewrite (Hn _ _ Hi). apply lookup_lt_Some in Hi. lia.
Qed.

Definition demo_mutations : list mutation :=
  [(1, "a", "1"); (2, "b", "x" +:+ Str.LF +:+ "y"); (3, "a", "2")].

Lemma recovery_restores_engine_witness :
  let '(e, f) := fold_left mutate_durably demo_mutations (with_config default_config, "") in
  recover_from_adapter true default_config f = Ok e ∧ seq e = 3.
Proof.
  apply (recovery_restores_engine default_config demo_mutations).
  - reflexivity.
  - vm_compute. congruence.
  - repeat constructor; vm_compute; congruence.
Defined.

(** The WAL and the checkpoints account for the store.  In every history
    of mutations, checkpoints and SQL appends, the WAL holds consecutive
    sequence numbers that start after the last checkpoint's [last_sequence] and
    end at the engine's sequence, and the store is the WAL replayed over the
    state of the last checkpoint, whose size the manifest records. *)
Theorem wal_covers_since_checkpoint (c : DurabilityConfig) (ops : list engine_op) :
  wal_enabled c = true → N.of_nat (length ops) <= u64_max →
  ∃ base, checkpointed (fold_left engine_step ops (with_config c)) base.
Proof.
  intros Hc Hlen. apply (checkpointed_run ops (with_config c) ∅); [|done].
  split_and!; try done.
Qed.

Lemma wal_covers_since_checkpoint_witness :
  ∃ base, checkpointed
    (fold_left engine_step [EAppend 1 "a" "1"; EForceCheckpoint; EAppend 2 "b" "2"]
       (with_config default_config)) base.
Proof.
  apply (wal_covers_since_checkpoint default_config); [reflexivity|vm_compute; congruence].
Defined.

(** A failed WAL write is not undone.  When appending to the file fails the
    caller gets the error, but the engine already holds the mutation and has
    used its sequence number, so later reads see a value that a restart loses. *)
Theorem failed_append_stays_visible (e : InMemoryDurabilityEngine)
    (now : N) (k v file : string) :
  wal_enabled (config e) = true →
  let '(r, e', file') := append_mutation_with_adapter false now k v e file in
  r = Err Io ∧ get k e' = Some v ∧ seq e' = u64_add (seq e) 1 ∧ file' = file.
Proof.
  intros Hw. unfold append_mutation_with_adapter. cbn [append_mutation config wal_enabled].
  rewrite Hw. cbn [append]. unfold get. simpl. by rewrite lookup_insert_eq.
Qed.

Lemma failed_append_stays_visible_witness :
  let '(r, e', file') :=
    append_mutation_with_adapter false 5 "k" "v" (with_config default_config) "" in
  r = Err Io ∧ get "k" e' = Some "v" ∧ seq e' = 1 ∧ file' = "".
Proof.
  apply (failed_append_stays_visible (with_config default_config) 5 "k" "v" "").
  reflexivity.
Defined.

(** SQL streams.  For every engine that persists SQL (the in-memory engine
    is one), a batch append keeps both streams in order, adds to each stream
    exactly the batch's statements of its kind, and returns the 1-based position
    each statement took. *)
Theorem sql_batch_appends_in_order {E : Type} `{!DurabilityEngine E} `{!PersistsSql E}
    (entries : list (SqlWalKind * string)) (e : E) (k : SqlWalKind) :
  let '(ss, e') := append_sql_batch entries e in
  iter_sql k e' = iter_sql k e ++ map snd (filter (fun p => p.1 = k) entries) ∧
  sql_count k e' = (sql_count k e + length (filter (fun p => p.1 = k) entries))%nat ∧
  map snd (filter (fun p => p.1 = k) (zip (map fst entries) ss))
  = map (fun i => N.of_nat (S (length (iter_sql k e) + i)))
      (List.seq 0 (length (filter (fun p => p.1 = k) entries))).
Proof.
  revert e. induction entries as [|[k0 sql] entries IH]; intros e; cbn [append_sql_batch].
  - simpl. by rewrite app_nil_r, Nat.add_0_r.
  - pose proof (append_sql_seq k0 sql e) as Hs. pose proof (append_sql_iter k0 sql e k) as Hi.
    destruct (append_sql k0 sql e) as [s e1]. cbn [fst snd] in Hs, Hi.
    specialize (IH e1). destruct (append_sql_batch entries e1) as [ss e2].
    destruct IH as (IH1 & IH2 & IH3). rewrite !sql_count_iter in *. rewrite Hi in IH1, IH2, IH3.
    cbn [map zip zip_with fst]. rewrite !filter_cons. cbn [fst].
    destruct (decide (k0 = k)) as [<-|Hne]; [|done].
    split_and!.
    + by rewrite IH1, <- app_assoc.
    + rewrite IH2, length_app. simpl. lia.
    + simpl. rewrite Hs, Nat.add_0_r. f_equal. rewrite IH3, length_app. simpl.
      rewrite <- seq_shift, map_map. apply map_ext. intros i. f_equal. lia.
Qed.

Lemma sql_batch_appends_in_order_witness :
  let '(ss, e') := append_sql_batch [(Ddl, "CREATE"); (Dml, "I1"); (Dml, "I2")]
                     (with_config default_config) in
  iter_sql Dml e' = ["I1"; "I2"].
Proof.
  refine (proj1 (sql_batch_appends_in_order [(Ddl, "CREATE"); (Dml, "I1"); (Dml, "I2")]
    (with_config default_config) Dml)).
Defined.
