(* ===== verification/Partition.v ===== *)
(** * Partition routing and pruning ([crates/voltnuerongrid-store/src/partition.rs]) *)

From S2P Require Import Prelude Str.
Open Scope string_scope.
Open Scope list_scope.
Open Scope N_scope.
Open Scope vng_scope.

Module Partition.

Abbreviation SegmentId := N (only parsing).

Record RangePartition := mkRange {
  segment_id : SegmentId;
  lower_bound : option string;
  upper_bound : option string;
}.

Record HashPartitionScheme := mkHash {
  num_buckets : N;
  segments : list SegmentId;
}.

Inductive PartitionType :=
| PNone
| PRange (ranges : list RangePartition)
| PHash (scheme : HashPartitionScheme).

Record SegmentRouter := mkRouter { partition_type : PartitionType }.

Definition new_unpartitioned : SegmentRouter := mkRouter PNone.
Definition new_range (ranges : list RangePartition) : SegmentRouter := mkRouter (PRange ranges).
Definition new_hash (scheme : HashPartitionScheme) : SegmentRouter := mkRouter (PHash scheme).

(** [str] comparison is bytewise. *)
Definition str_lt (a b : string) : bool := String.ltb a b.
Definition str_le (a b : string) : bool := String.leb a b.

Definition value_in_range (val : string) (lower upper : option string) : bool :=
  if match lower with Some l => str_lt val l | None => false end then false
  else if match upper with Some u => str_le u val | None => false end then false
  else true.

Definition ranges_overlap (r1_lower r1_upper r2_lower r2_upper : option string) : bool :=
  if match r1_upper, r2_lower with Some r1u, Some r2l => str_le r1u r2l | _, _ => false end
  then false
  else if match r2_upper, r1_lower with Some r2u, Some r1l => str_le r2u r1l | _, _ => false end
  then false
  else true.

Fixpoint route_range (val : string) (ranges : list RangePartition) : result SegmentId string :=
  match ranges with
  | [] => Err ("Value '" +:+ val +:+ "' out of range")
  | p :: rest =>
      if value_in_range val (lower_bound p) (upper_bound p) then Ok (segment_id p)
      else route_range val rest
  end.

Section Route.

(** The standard library's [DefaultHasher] on a string. *)
Variable hash_value : string -> N.

(** [None] is a panic: the remainder by zero buckets, or the index out of the
    segment vector's range. *)
Definition route_to_segment (partition_key : string) (r : SegmentRouter)
    : option (result SegmentId string) :=
  match partition_type r with
  | PNone => Some (Ok 0)
  | PRange ranges => Some (route_range partition_key ranges)
  | PHash scheme =>
      match segments scheme with
      | [] => Some (Err "Hash partition has no segments")
      | _ =>
          if num_buckets scheme =? 0 then None
          else
            let! s := segments scheme !! N.to_nat (hash_value partition_key mod num_buckets scheme) in
            Some (Ok s)
      end
  end.

End Route.

Definition prune_segments (lower upper : option string) (r : SegmentRouter) : list SegmentId :=
  match partition_type r with
  | PNone => [0]
  | PRange ranges =>
      match map segment_id
              (filter (fun p => ranges_overlap (lower_bound p) (upper_bound p) lower upper = true)
                 ranges) with
      | [] => map segment_id ranges
      | result => result
      end
  | PHash scheme => segments scheme
  end.

Example route_ex :
  route_to_segment (fun _ => 0) "m"
    (new_range [mkRange 1 None (Some "k"); mkRange 2 (Some "k") (Some "t"); mkRange 3 (Some "t") None])
  = Some (Ok 2).
Proof. reflexivity. Qed.

End Partition.

Import Partition.

(** ** The order of strings *)

Lemma str_lt_iff a b : str_lt a b = negb (str_le b a).
Proof.
  unfold str_lt, str_le, String.ltb, String.leb. rewrite (String.compare_antisym b a).
  by destruct (String.compare a b).
Qed.

Lemma str_le_trans a b c : str_le a b = true → str_le b c = true → str_le a c = true.
Proof.
  unfold str_le. intros H1 H2.
  assert (String.le a c) as H; [|unfold String.le in H; by destruct (String.leb a c)].
  transitivity b; unfold String.le; [by rewrite H1|by rewrite H2].
Qed.

Lemma str_le_refl a : str_le a a = true.
Proof.
  unfold str_le. assert (String.le a a) as H by done. unfold String.le in H.
  by destruct (String.leb a a).
Qed.

Lemma str_le_total a b : str_le a b = true ∨ str_le b a = true.
Proof.
  unfold str_le. destruct (String.leb_total a b); auto.
Qed.

Lemma value_in_range_true val l u :
  value_in_range val l u = true ↔
  (∀ l', l = Some l' → str_le l' val = true) ∧ (∀ u', u = Some u' → str_le u' val = false).
Proof.
  unfold value_in_range. split.
  - intros H. split; [intros l' ->|intros u' ->]; revert H; rewrite ?str_lt_iff.
    + by destruct (str_le l' val).
    + by destruct (str_le u' val), (match l with Some _ => _ | None => _ end).
  - intros [Hl Hu]. destruct l as [l|], u as [u|];
      rewrite ?str_lt_iff, ?(Hl l eq_refl), ?(Hu u eq_refl); done.
Qed.

(** A value in both ranges shows that they overlap. *)
Lemma ranges_overlap_common val l1 u1 l2 u2 :
  value_in_range val l1 u1 = true → value_in_range val l2 u2 = true →
  ranges_overlap l1 u1 l2 u2 = true.
Proof.
  rewrite !value_in_range_true. intros [Hl1 Hu1] [Hl2 Hu2]. unfold ranges_overlap.
  assert (match u1, l2 with Some a, Some b => str_le a b | _, _ => false end = false) as ->.
  { destruct u1 as [u1|], l2 as [l2|]; try done. destruct (str_le u1 l2) eqn:E; [|done].
    rewrite <- (Hu1 u1 eq_refl). symmetry. by apply (str_le_trans _ l2); [|apply Hl2]. }
  destruct u2 as [u2|], l1 as [l1|]; try done. destruct (str_le u2 l1) eqn:E; [|done].
  rewrite <- (Hu2 u2 eq_refl). by apply (str_le_trans _ l1); [|apply Hl1].
Qed.

Lemma route_range_Ok val ranges seg :
  route_range val ranges = Ok seg →
  ∃ p, p ∈ ranges ∧ segment_id p = seg ∧
    value_in_range val (lower_bound p) (upper_bound p) = true.
Proof.
  induction ranges as [|p ranges IH]; [done|]. simpl.
  destruct (value_in_range val _ _) eqn:E.
  - intros [= <-]. exists p. split; [by left|done].
  - intros H. destruct (IH H) as (q & Hq & ?). exists q. split; [by right|done].
Qed.

(** ** Covering range lists *)

(** The ranges follow each other without gaps from [lo] to the top. *)
Fixpoint chained (lo : option string) (ranges : list RangePartition) : Prop :=
  match ranges with
  | [] => False
  | [p] => lower_bound p = lo ∧ upper_bound p = None
  | p :: rest =>
      lower_bound p = lo ∧
      match upper_bound p with
      | Some u => match lo with Some l => str_le l u = true | None => True end ∧ chained (Some u) rest
      | None => False
      end
  end.

Definition above (lo : option string) (val : string) : Prop :=
  match lo with Some l => str_le l val = true | None => True end.

Lemma below_lower val l p :
  lower_bound p = Some l → str_le l val = false →
  value_in_range val (lower_bound p) (upper_bound p) = false.
Proof.
  intros Hl Hle. destruct (value_in_range val _ _) eqn:E; [|done].
  apply value_in_range_true in E as [E _]. by rewrite (E l Hl) in Hle.
Qed.

Lemma chained_below l ranges val :
  chained (Some l) ranges → str_le l val = false →
  ∀ q, q ∈ ranges → value_in_range val (lower_bound q) (upper_bound q) = false.
Proof.
  revert l. induction ranges as [|p ranges IH]; intros l Hch Hl q Hq; [done|].
  assert (lower_bound p = Some l) as Hp by (simpl in Hch; destruct ranges; tauto).
  apply elem_of_cons in Hq as [->|Hq]; [by eapply below_lower|].
  destruct ranges as [|q2 rest]; [by apply elem_of_nil in Hq|].
  destruct Hch as [_ Hch]. destruct (upper_bound p) as [u|]; [|done]. destruct Hch as [Hlu Hch].
  apply (IH u Hch); [|done]. destruct (str_le u val) eqn:E; [|done].
  rewrite <- Hl. symmetry. by apply (str_le_trans _ u).
Qed.

(** Every value at or above [lo] lies in exactly one range, the one the router
    picks. *)
Lemma chained_route lo ranges val :
  chained lo ranges → above lo val →
  ∃ p, p ∈ ranges ∧ route_range val ranges = Ok (segment_id p) ∧
    value_in_range val (lower_bound p) (upper_bound p) = true ∧
    ∀ q, q ∈ ranges → value_in_range val (lower_bound q) (upper_bound q) = true → q = p.
Proof.
  revert lo. induction ranges as [|p ranges IH]; intros lo Hch Hlo; [done|].
  assert (∀ u, upper_bound p = Some u → str_le u val = true →
            value_in_range val (lower_bound p) (upper_bound p) = false) as Hout.
  { intros u Hu Hle. destruct (value_in_range val _ _) eqn:E; [|done].
    apply value_in_range_true in E as [_ E]. rewrite (E u Hu) in Hle. done. }
  assert (lower_bound p = lo) as Hpl by (simpl in Hch; destruct ranges; tauto).
  assert ((∀ u, upper_bound p = Some u → str_le u val = false) →
          value_in_range val (lower_bound p) (upper_bound p) = true) as Hin.
  { intros Hu. apply value_in_range_true. rewrite Hpl. split; [|done].
    intros l ->. done. }
  destruct ranges as [|q rest].
  - destruct Hch as [_ Hu]. exists p. cbn [route_range]. rewrite Hin by (by rewrite Hu).
    split_and!; [by left|done|done|]. by intros q ->%list_elem_of_singleton.
  - destruct Hch as [_ Hch]. destruct (upper_bound p) as [u|] eqn:Hu; [|done].
    destruct Hch as [_ Hch]. destruct (str_le u val) eqn:Hle.
    + destruct (IH (Some u) Hch Hle) as (p' & Hp' & Hr & Hv & Huniq).
      exists p'. split; [by right|]. cbn [route_range] in Hr |- *. rewrite Hu, (Hout u) by done.
      split; [done|]. split; [done|].
      intros q' [->|Hq']%elem_of_cons Hvq; [|by apply Huniq].
      rewrite Hu, (Hout u) in Hvq by done. done.
    + exists p. cbn [route_range]. rewrite Hu, Hin by (by intros ? [= <-]).
      split_and!; [by left|done|done|].
      intros q' [->|Hq']%elem_of_cons Hvq; [done|]. exfalso.
      rewrite (chained_below u (q :: rest) val Hch Hle q' Hq') in Hvq. done.
Qed.

(** ** Properties *)

(** Pruning is sound.  If a key is routed to a segment and satisfies the
    predicate bounds [lower <= key < upper], that segment is among the pruned
    candidates, for every partitioning scheme and every hash function. *)
Theorem prune_segments_sound (hash : string -> N) (r : SegmentRouter) (key : string)
    (lower upper : option string) (seg : N) :
  route_to_segment hash key r = Some (Ok seg) →
  value_in_range key lower upper = true →
  seg ∈ prune_segments lower upper r.
Proof.
  unfold route_to_segment, prune_segments. destruct (partition_type r) as [|ranges|scheme].
  - intros [= <-] _. by left.
  - intros [= Hr] Hv. apply route_range_Ok in Hr as (p & Hp & <- & Hin).
    assert (segment_id p ∈ map segment_id (filter (fun p =>
      ranges_overlap (lower_bound p) (upper_bound p) lower upper = true) ranges)) as Hmem.
    { apply list_elem_of_fmap_2, list_elem_of_filter. split; [|done].
      by apply (ranges_overlap_common key). }
    destruct (map segment_id (filter _ ranges)); [by apply elem_of_nil in Hmem|done].
  - destruct (segments scheme) as [|s0 ss]; [done|]. destruct (_ =? 0); [done|].
    destruct (_ !! _) as [s|] eqn:Hs; [|done]. intros [= <-] _.
    by apply list_elem_of_lookup_2 in Hs.
Qed.

Definition demo_ranges : list RangePartition :=
  [mkRange 1 None (Some "k"); mkRange 2 (Some "k") (Some "t"); mkRange 3 (Some "t") None].

Lemma prune_segments_sound_witness :
  2 ∈ prune_segments (Some "l") (Some "n") (new_range demo_ranges).
Proof.
  apply (prune_segments_sound (fun _ => 0) (new_range demo_ranges) "m" (Some "l") (Some "n") 2);
    reflexivity.
Defined.

(** Range routing is total and unambiguous on gapless ranges.  When the
    ranges follow each other from an open bottom to an open top, every key is
    routed, to the one range that contains it. *)
Theorem range_routing_total (hash : string -> N) (ranges : list RangePartition) (key : string) :
  chained None ranges →
  ∃ p, p ∈ ranges ∧ route_to_segment hash key (new_range ranges) = Some (Ok (segment_id p)) ∧
    value_in_range key (lower_bound p) (upper_bound p) = true ∧
    ∀ q, q ∈ ranges → value_in_range key (lower_bound q) (upper_bound q) = true → q = p.
Proof.
  intros Hch. destruct (chained_route None ranges key Hch I) as (p & ? & Hr & ?).
  exists p. split_and!; try tauto. unfold route_to_segment. simpl. by rewrite Hr.
Qed.

Lemma range_routing_total_witness :
  ∃ p, p ∈ demo_ranges ∧
    route_to_segment (fun _ => 0) "zz" (new_range demo_ranges) = Some (Ok (segment_id p)) ∧
    value_in_range "zz" (lower_bound p) (upper_bound p) = true ∧
    ∀ q, q ∈ demo_ranges → value_in_range "zz" (lower_bound q) (upper_bound q) = true → q = p.
Proof. apply (range_routing_total (fun _ => 0) demo_ranges "zz"). simpl. split_and!; reflexivity || exact I. Defined.

(** Hash routing never panics exactly when there are enough segments.  A
    scheme whose bucket count is between one and its number of segments routes
    every key; a hash function that reaches the last bucket makes any larger
    bucket count panic, and zero buckets always do. *)
Theorem hash_routing_total_iff (scheme : HashPartitionScheme) :
  segments scheme ≠ [] →
  (∀ hash key, ∃ s, route_to_segment hash key (new_hash scheme) = Some (Ok s))
  ↔ 0 < num_buckets scheme ∧ num_buckets scheme <= N.of_nat (length (segments scheme)).
Proof.
  intros Hne. unfold route_to_segment. cbn [partition_type new_hash].
  destruct (segments scheme) as [|s0 ss] eqn:Hsegs; [done|]. rewrite <- Hsegs. split.
  - intros Hall. destruct (Hall (fun _ => num_buckets scheme - 1) "") as [s Hs].
    destruct (N.eqb_spec (num_buckets scheme) 0) as [|Hnz]; [done|].
    rewrite N.mod_small in Hs by lia. split; [lia|].
    destruct (segments scheme !! _) eqn:Hl; [|done]. apply lookup_lt_Some in Hl. lia.
  - intros [Hpos Hle] hash key. rewrite (proj2 (N.eqb_neq _ _)) by lia.
    pose proof (N.mod_upper_bound (hash key) (num_buckets scheme) ltac:(lia)) as Hmod.
    destruct (segments scheme !! _) as [s|] eqn:Hl; [by exists s|].
    apply lookup_ge_None in Hl. lia.
Qed.

Lemma hash_routing_total_iff_witness :
  (∀ hash key, ∃ s, route_to_segment hash key (new_hash (mkHash 2 [10; 11])) = Some (Ok s))
  ↔ 0 < 2 ∧ 2 <= 2.
Proof. apply (hash_routing_total_iff (mkHash 2 [10; 11])). discriminate. Defined.
