(* ===== verification/TailGc.v ===== *)
(** * Reclaiming tail versions ([crates/voltnuerongrid-store/src/tail_gc.rs]) *)

From S2P Require Import Prelude.
Open Scope list_scope.
Open Scope N_scope.

Module TailGc.

Record TailGcCollector := mkCollector {
  oldest_active_snapshot_ts : N;
  reclaimed_versions : N;
  reclaimed_bytes : N;
  tail_records_marked_obsolete : N;
  obsolete_versions_map : gmap N (list N);
}.

Record GcMetrics := mkGcMetrics {
  tail_gc_reclaimed_versions : N;
  tail_gc_reclaimed_bytes : N;
  oldest_snapshot_age_ms : N;
  tail_records_obsolete : N;
  tail_records_reclaimable : N;
}.

Definition new (initial_snapshot_ts : N) : TailGcCollector :=
  mkCollector initial_snapshot_ts 0 0 0 ∅.

Definition update_oldest_active_snapshot (ts : N) (c : TailGcCollector) : TailGcCollector :=
  if ts <? oldest_active_snapshot_ts c
  then mkCollector ts (reclaimed_versions c) (reclaimed_bytes c)
         (tail_records_marked_obsolete c) (obsolete_versions_map c)
  else c.

Definition mark_tail_records_obsolete (seg : N) (version_indices : list N) (c : TailGcCollector)
    : TailGcCollector :=
  mkCollector (oldest_active_snapshot_ts c) (reclaimed_versions c) (reclaimed_bytes c)
    (u64_add (tail_records_marked_obsolete c) (N.of_nat (length version_indices)))
    (<[seg := default [] (obsolete_versions_map c !! seg) ++ version_indices]>
       (obsolete_versions_map c)).

(** The [retain] closure with its two counters: kept entries, count, bytes. *)
Fixpoint retain_obsolete (oldest : N) (ends : gmap N (N * N)) (l : list N) : list N * N * N :=
  match l with
  | [] => ([], 0, 0)
  | v :: l' =>
      let '(kept, n, b) := retain_obsolete oldest ends l' in
      match ends !! v with
      | Some (end_ts, byte_size) =>
          if end_ts <? oldest then (kept, n + 1, b + byte_size) else (v :: kept, n, b)
      | None => (kept, n, b)
      end
  end.

(** [ends] maps a version index to its end timestamp and byte size; the counters
    of one call stay below the 64-bit width (they count entries of one list). *)
Definition reclaim_obsolete_versions (seg : N) (ends : gmap N (N * N)) (c : TailGcCollector)
    : (N * N) * TailGcCollector :=
  let '(n, b, m) :=
    match obsolete_versions_map c !! seg with
    | Some l =>
        let '(kept, n, b) := retain_obsolete (oldest_active_snapshot_ts c) ends l in
        (n, b mod u64_modulus,
         match kept with
         | [] => base.delete seg (obsolete_versions_map c)
         | _ => <[seg := kept]> (obsolete_versions_map c)
         end)
    | None => (0, 0, obsolete_versions_map c)
    end in
  ((n, b),
   mkCollector (oldest_active_snapshot_ts c) (u64_add (reclaimed_versions c) n)
     (u64_add (reclaimed_bytes c) b)
     (u64_wrapping_sub (tail_records_marked_obsolete c) n) m).

Definition can_reclaim_version (end_ts : N) (c : TailGcCollector) : bool :=
  end_ts <? oldest_active_snapshot_ts c.

Definition tracked (m : gmap N (list N)) : N :=
  map_fold (fun _ l acc => N.of_nat (length l) + acc) 0 m.

Definition get_metrics (c : TailGcCollector) : GcMetrics :=
  mkGcMetrics (reclaimed_versions c) (reclaimed_bytes c) 0 (tail_records_marked_obsolete c)
    (tracked (obsolete_versions_map c) mod u64_modulus).

End TailGc.

Import TailGc.

(** ** Histories *)

Inductive gc_op :=
| GcSnapshot (ts : N)
| GcMark (seg : N) (idx : list N)
| GcReclaim (seg : N) (ends : gmap N (N * N)).

Definition gc_step (c : TailGcCollector) (o : gc_op) : TailGcCollector :=
  match o with
  | GcSnapshot ts => update_oldest_active_snapshot ts c
  | GcMark seg idx => mark_tail_records_obsolete seg idx c
  | GcReclaim seg ends => (reclaim_obsolete_versions seg ends c).2
  end.

(** The snapshots the collector has been told about. *)
Definition reported (ops : list gc_op) : list N :=
  omap (fun o => match o with GcSnapshot ts => Some ts | _ => None end) ops.

Definition min_list (d : N) (l : list N) : N := fold_right N.min d l.

Lemma step_oldest c o :
  oldest_active_snapshot_ts (gc_step c o)
  = match o with GcSnapshot ts => N.min ts (oldest_active_snapshot_ts c)
    | _ => oldest_active_snapshot_ts c end.
Proof.
  destruct o as [ts|seg idx|seg ends]; cbn [gc_step].
  - unfold update_oldest_active_snapshot.
    destruct (N.ltb_spec ts (oldest_active_snapshot_ts c)); simpl; lia.
  - done.
  - unfold reclaim_obsolete_versions.
    destruct (obsolete_versions_map c !! seg); [|done].
    by destruct (retain_obsolete _ _ _) as [[kept n] b].
Qed.

Lemma run_oldest ops init :
  oldest_active_snapshot_ts (fold_left gc_step ops (new init)) = min_list init (reported ops).
Proof.
  induction ops as [|o ops IH] using rev_ind; [done|].
  rewrite fold_left_app. cbn [fold_left]. rewrite step_oldest, IH.
  unfold reported. rewrite omap_app. unfold min_list.
  assert (∀ l x, fold_right N.min init (l ++ [x]) = N.min x (fold_right N.min init l)) as Hsnoc.
  { induction l as [|y l IHl]; intros x; simpl; [done|]. rewrite IHl. lia. }
  destruct o; simpl; rewrite ?app_nil_r; [by rewrite Hsnoc|done|done].
Qed.

Lemma min_list_le d l x : x = d ∨ x ∈ l → min_list d l <= x.
Proof.
  unfold min_list. induction l as [|y l IH]; simpl.
  - intros [->|Hx%elem_of_nil]; [lia|done].
  - intros [->|[->|Hx]%elem_of_cons]; [|lia|].
    + assert (fold_right N.min d l <= d) by (apply IH; by left). lia.
    + assert (fold_right N.min d l <= x) by (apply IH; by right). lia.
Qed.

(** ** What one reclaim removes *)

(** [Some true]: reclaimed; [Some false]: kept; [None]: dropped as unknown. *)
Definition verdict (oldest : N) (ends : gmap N (N * N)) (v : N) : option bool :=
  match ends !! v with Some (e, _) => Some (e <? oldest) | None => None end.

Definition byte_size (ends : gmap N (N * N)) (v : N) : N :=
  match ends !! v with Some (_, b) => b | None => 0 end.

Definition sum_N (l : list N) : N := fold_right N.add 0 l.

Lemma retain_spec oldest ends l :
  retain_obsolete oldest ends l
  = (filter (fun v => verdict oldest ends v = Some false) l,
     N.of_nat (length (filter (fun v => verdict oldest ends v = Some true) l)),
     sum_N (map (byte_size ends) (filter (fun v => verdict oldest ends v = Some true) l))).
Proof.
  induction l as [|v l IH]; [done|]. cbn [retain_obsolete]. rewrite IH, !filter_cons.
  unfold verdict, byte_size. destruct (ends !! v) as [[e b]|] eqn:Hv; [|done].
  destruct (N.ltb_spec e oldest); simpl; [|done].
  rewrite Hv. f_equal; [f_equal; lia|lia].
Qed.

Definition entries (seg : N) (c : TailGcCollector) : list N :=
  default [] (obsolete_versions_map c !! seg).

Lemma reclaim_spec seg ends c :
  let '((n, b), c') := reclaim_obsolete_versions seg ends c in
  let gone := filter (fun v => verdict (oldest_active_snapshot_ts c) ends v = Some true)
                (entries seg c) in
  n = N.of_nat (length gone) ∧ b = sum_N (map (byte_size ends) gone) mod u64_modulus ∧
  ∀ seg', entries seg' c' =
    if decide (seg = seg')
    then filter (fun v => verdict (oldest_active_snapshot_ts c) ends v = Some false) (entries seg c)
    else entries seg' c.
Proof.
  unfold reclaim_obsolete_versions, entries. cbv zeta.
  destruct (obsolete_versions_map c !! seg) as [l|] eqn:Hl; simpl.
  - rewrite retain_spec. split_and!; [done|done|]. intros seg'.
    remember (filter (fun v => verdict (oldest_active_snapshot_ts c) ends v = Some false) l) as kept.
    destruct (decide (seg = seg')) as [<-|Hne].
    + destruct kept; simpl; [by rewrite lookup_delete_eq|by rewrite lookup_insert_eq].
    + destruct kept; simpl; [by rewrite lookup_delete_ne|by rewrite lookup_insert_ne].
  - split_and!; [done|done|]. intros seg'. destruct (decide (seg = seg')) as [<-|]; [|done].
    by rewrite Hl.
Qed.

(** ** Properties *)

(** Garbage collection is safe.  In every history of snapshot reports, marks
    and reclaims, a reclaim on a segment removes from its obsolete list, and
    counts, exactly the versions whose end timestamp is earlier than every
    snapshot the collector was ever told of (the initial one included); the
    versions some reported snapshot can still see are kept in order, and only
    versions of unknown end are forgotten besides. *)
Theorem gc_reclaims_only_invisible (init : N) (ops : list gc_op) (seg : N) (ends : gmap N (N * N)) :
  let c := fold_left gc_step ops (new init) in
  let '((n, b), c') := reclaim_obsolete_versions seg ends c in
  let invisible v :=
    match ends !! v with
    | Some (e, _) => forallb (fun ts => e <? ts) (init :: reported ops)
    | None => false
    end in
  n = N.of_nat (length (filter (fun v => invisible v = true) (entries seg c))) ∧
  entries seg c' = filter (fun v => invisible v = false ∧ ends !! v ≠ None) (entries seg c) ∧
  ∀ seg', seg' ≠ seg → entries seg' c' = entries seg' c.
Proof.
  cbv zeta. set (c := fold_left gc_step ops (new init)).
  pose proof (reclaim_spec seg ends c) as Hsp.
  destruct (reclaim_obsolete_versions seg ends c) as [[n b] c'].
  destruct Hsp as (Hn & _ & Hent).
  assert (∀ e, forallb (fun ts => e <? ts) (init :: reported ops)
               = (e <? oldest_active_snapshot_ts c)) as Hmin.
  { intros e. unfold c. rewrite run_oldest. apply eq_true_iff_eq. rewrite forallb_forall, N.ltb_lt.
    setoid_rewrite N.ltb_lt. split.
    - intros Hall. unfold min_list. assert (∀ x, x ∈ reported ops → e < x) as Hr.
      { intros x Hx. apply Hall. right. by apply list_elem_of_In. }
      assert (e < init) as Hi by (apply Hall; by left). clear -Hr Hi.
      induction (reported ops) as [|y l IH]; simpl; [done|].
      assert (e < fold_right N.min init l) by (apply IH; intros x Hx; apply Hr; by right).
      assert (e < y) by (apply Hr; by left). lia.
    - intros Hlt x Hx. eapply N.lt_le_trans; [exact Hlt|]. apply min_list_le.
      destruct Hx as [->|Hx]; [by left|right; by apply list_elem_of_In]. }
  split_and!.
  - rewrite Hn. f_equal. f_equal. apply list_filter_ext_in. intros v _.
    unfold verdict. destruct (ends !! v) as [[e s]|]; [rewrite Hmin|done].
    by destruct (e <? _).
  - rewrite Hent, decide_True by done. apply list_filter_ext_in. intros v _.
    unfold verdict. destruct (ends !! v) as [[e s]|]; [rewrite Hmin|].
    + destruct (e <? _); split; intros; try done; by destruct_and?.
    + split; [done|by intros [_ ?]].
  - intros seg' Hne. by rewrite Hent, decide_False by done.
Qed.

(** The reclamation boundary never moves forward.  Reports of newer
    snapshots are ignored, so whatever happens after creation no version that
    ended at or after the initial snapshot timestamp ever becomes reclaimable. *)
Theorem gc_boundary_never_advances (init e : N) (ops : list gc_op) :
  init <= e → can_reclaim_version e (fold_left gc_step ops (new init)) = false.
Proof.
  intros He. unfold can_reclaim_version. rewrite run_oldest. apply N.ltb_ge.
  etransitivity; [|exact He]. apply min_list_le. by left.
Qed.

Lemma gc_boundary_never_advances_witness :
  can_reclaim_version 100 (fold_left gc_step [GcSnapshot 500; GcSnapshot 900] (new 100)) = false.
Proof. apply (gc_boundary_never_advances 100 100). reflexivity. Defined.

(** Forgotten versions stay in the obsolete counter: one marked version of
    unknown end leaves the tracking list but not [tail_records_obsolete]. *)
Theorem gc_counter_drifts :
  let c := (reclaim_obsolete_versions 1 ∅ (mark_tail_records_obsolete 1 [7] (new 10))).2 in
  tail_records_obsolete (get_metrics c) = 1 ∧ tail_records_reclaimable (get_metrics c) = 0.
Proof. vm_compute. split; reflexivity. Qed.
