(* ===== verification/Snapshot.v ===== *)
(** * The snapshot manager ([crates/voltnuerongrid-store/src/snapshot.rs])

    Snapshot handles are shared ([Arc]) and mutable (their reference count), so
    the manager works on a heap of handles; the active map and the reusable
    cache hold handle ids. *)

From S2P Require Import Prelude.
Open Scope list_scope.
Open Scope N_scope.

Module Snapshot.

Record SnapshotHandle := mkHandle {
  snapshot_ts : N;
  pinned_base_versions : gmap N N;
  ref_count : N;
  created_at_ms : N;
}.

Record SnapshotManager := mkManager {
  handles : gmap N SnapshotHandle;
  active_snapshots : gset N;
  reusable_cache : list N;
  next_id : N;
  max_cache_size : nat;
  retention_ms : N;
}.

Record SnapshotMetrics := mkSnapshotMetrics {
  active_count : N;
  total_created : N;
  total_ref_count : N;
}.

Definition new (max_cache : nat) (retention : N) : SnapshotManager :=
  mkManager ∅ ∅ [] 1 max_cache retention.

Definition age_ms (now : N) (h : SnapshotHandle) : N := saturating_sub now (created_at_ms h).

Definition satisfies_max_staleness_ms (now : N) (bound : option N) (h : SnapshotHandle) : bool :=
  match bound with Some b => age_ms now h <=? b | None => true end.

Definition set_refs (r : N) (h : SnapshotHandle) : SnapshotHandle :=
  mkHandle (snapshot_ts h) (pinned_base_versions h) r (created_at_ms h).

(** [handle.acquire()] on the shared handle. *)
Definition acquire (h : SnapshotHandle) : SnapshotHandle := set_refs (u64_add (ref_count h) 1) h.

(** [handle.release()]: the previous count and the updated handle. *)
Definition release_handle (h : SnapshotHandle) : N * SnapshotHandle :=
  (ref_count h, set_refs (u64_wrapping_sub (ref_count h) 1) h).

(** The first cached handle that is fresh enough; each test reads the clock. *)
Fixpoint find_reusable (clock : nat -> N) (i : nat) (bound : option N)
    (hs : gmap N SnapshotHandle) (cache : list N) : option N :=
  match cache with
  | [] => None
  | id :: rest =>
      match hs !! id with
      | Some h => if satisfies_max_staleness_ms (clock i) bound h then Some id
                  else find_reusable clock (S i) bound hs rest
      | None => find_reusable clock (S i) bound hs rest
      end
  end.

Definition set_handles (hs : gmap N SnapshotHandle) (m : SnapshotManager) : SnapshotManager :=
  mkManager hs (active_snapshots m) (reusable_cache m) (next_id m) (max_cache_size m)
    (retention_ms m).

Definition create_or_reuse (clock : nat -> N) (now : N) (bound : option N) (pinned : gmap N N)
    (m : SnapshotManager) : N * SnapshotManager :=
  match find_reusable clock 0 bound (handles m) (reusable_cache m) with
  | Some id => (id, set_handles (alter acquire id (handles m)) m)
  | None =>
      let id := next_id m in
      (id, mkManager (<[id := mkHandle id pinned 1 now]> (handles m))
             ({[id]} ∪ active_snapshots m) (reusable_cache m) (u64_add (next_id m) 1)
             (max_cache_size m) (retention_ms m))
  end.

Definition release (id : N) (m : SnapshotManager) : SnapshotManager :=
  match handles m !! id with
  | Some h =>
      let '(count, h') := release_handle h in
      let m1 := set_handles (<[id := h']> (handles m)) m in
      if count =? 1 then
        mkManager (handles m1) (active_snapshots m1 ∖ {[id]})
          (if (length (reusable_cache m1) <? max_cache_size m1)%nat
           then reusable_cache m1 ++ [id] else reusable_cache m1)
          (next_id m1) (max_cache_size m1) (retention_ms m1)
      else m1
  | None => m
  end.

Definition get (id : N) (m : SnapshotManager) : option N :=
  if decide (id ∈ active_snapshots m) then Some id else None.

Fixpoint retain_young (clock : nat -> N) (i : nat) (retention : N)
    (hs : gmap N SnapshotHandle) (cache : list N) : list N :=
  match cache with
  | [] => []
  | id :: rest =>
      let rest' := retain_young clock (S i) retention hs rest in
      match hs !! id with
      | Some h => if age_ms (clock i) h <? retention then id :: rest' else rest'
      | None => rest'
      end
  end.

Definition cleanup_expired (clock : nat -> N) (m : SnapshotManager) : nat * SnapshotManager :=
  let cache' := retain_young clock 0 (retention_ms m) (handles m) (reusable_cache m) in
  ((length (reusable_cache m) - length cache')%nat,
   mkManager (handles m) (active_snapshots m) cache' (next_id m) (max_cache_size m)
     (retention_ms m)).

Definition get_metrics (m : SnapshotManager) : SnapshotMetrics :=
  mkSnapshotMetrics (N.of_nat (size (active_snapshots m) + length (reusable_cache m))) (next_id m)
    (fold_right (fun id acc => match handles m !! id with Some h => ref_count h + acc | None => acc end)
       0 (elements (active_snapshots m)) mod u64_modulus).

End Snapshot.

Import Snapshot.

(** ** Histories with disciplined clients *)

(** [held] lists the handles the clients hold, one entry per acquisition. *)
Record SnapState := mkSnap { mgr : SnapshotManager; held : list N }.

Inductive snap_step : SnapState -> SnapState -> Prop :=
| sn_acquire m hd clock now bound pinned :
    next_id m < u64_max → N.of_nat (length hd) < u64_max →
    snap_step (mkSnap m hd)
      (let '(id, m') := create_or_reuse clock now bound pinned m in mkSnap m' (id :: hd))
| sn_release m hd1 id hd2 :
    snap_step (mkSnap m (hd1 ++ id :: hd2)) (mkSnap (release id m) (hd1 ++ hd2))
| sn_cleanup m hd clock :
    snap_step (mkSnap m hd) (mkSnap (cleanup_expired clock m).2 hd).

Definition holders (id : N) (hd : list N) : N := N.of_nat (length (filter (fun j => j = id) hd)).

Record snap_ok (s : SnapState) : Prop := {
  so_count : ∀ id h, handles (mgr s) !! id = Some h → ref_count h = holders id (held s);
  so_held : ∀ id, id ∈ held s → is_Some (handles (mgr s) !! id);
  so_active : ∀ id, id ∈ active_snapshots (mgr s) → id ∈ held s ∧ id ∉ reusable_cache (mgr s);
  so_cached : ∀ id, id ∈ reusable_cache (mgr s) → is_Some (handles (mgr s) !! id);
  so_bound : (length (reusable_cache (mgr s)) <= max_cache_size (mgr s))%nat;
  so_len : N.of_nat (length (held s)) <= u64_max;
  so_fresh : ∀ id h, handles (mgr s) !! id = Some h → id < next_id (mgr s) ∧ snapshot_ts h = id;
}.

Lemma holders_cons id j hd : holders id (j :: hd) = holders id hd + (if decide (j = id) then 1 else 0).
Proof. unfold holders. rewrite filter_cons. destruct (decide (j = id)); simpl; lia. Qed.

Lemma holders_mid id j hd1 hd2 :
  holders id (hd1 ++ j :: hd2) = holders id (hd1 ++ hd2) + (if decide (j = id) then 1 else 0).
Proof.
  unfold holders. rewrite !filter_app, filter_cons, !length_app.
  destruct (decide (j = id)); simpl; lia.
Qed.

Lemma holders_le id hd : holders id hd <= N.of_nat (length hd).
Proof. unfold holders. pose proof (length_filter (fun j => j = id) hd). lia. Qed.

Lemma holders_pos id hd : 0 < holders id hd ↔ id ∈ hd.
Proof.
  unfold holders. split.
  - intros Hpos. destruct (filter (fun j => j = id) hd) as [|j l] eqn:Hf; [simpl in Hpos; lia|].
    assert (j ∈ filter (fun j => j = id) hd) as Hj by (rewrite Hf; by left).
    apply list_elem_of_filter in Hj as [-> ?]. done.
  - intros Hin. destruct (filter (fun j => j = id) hd) as [|j l] eqn:Hf; [|simpl; lia].
    exfalso. apply (filter_nil_not_elem_of _ _ id Hf); done.
Qed.

Lemma find_reusable_Some clock i bound hs cache id :
  find_reusable clock i bound hs cache = Some id →
  id ∈ cache ∧ ∃ h k, hs !! id = Some h ∧ satisfies_max_staleness_ms (clock k) bound h = true.
Proof.
  revert i. induction cache as [|j cache IH]; intros i; [done|]. cbn [find_reusable].
  assert (find_reusable clock (S i) bound hs cache = Some id →
    id ∈ j :: cache ∧ ∃ h k, hs !! id = Some h ∧ satisfies_max_staleness_ms (clock k) bound h = true)
    as Hrec by (intros [? ?]%IH; split; [by right|done]).
  destruct (hs !! j) as [h|] eqn:Hj; [|done].
  destruct (satisfies_max_staleness_ms (clock i) bound h) eqn:Hs; [|done].
  intros [= <-]. split; [by left|]. by exists h, i.
Qed.

Lemma retain_young_sublist clock i r hs cache : retain_young clock i r hs cache `sublist_of` cache.
Proof.
  revert i. induction cache as [|j cache IH]; intros i; [done|]. cbn [retain_young].
  destruct (hs !! j) as [h|]; [destruct (_ <? _)|]; by constructor.
Qed.

Lemma alter_is_Some (f : SnapshotHandle -> SnapshotHandle) (id j : N) (hs : gmap N SnapshotHandle) :
  is_Some (hs !! j) → is_Some (alter f id hs !! j).
Proof.
  intros [h Hh]. destruct (decide (id = j)) as [<-|].
  - rewrite lookup_alter_eq, Hh. by exists (f h).
  - rewrite lookup_alter_ne, Hh by done. by exists h.
Qed.

Lemma insert_is_Some (id j : N) (h : SnapshotHandle) (hs : gmap N SnapshotHandle) :
  id = j ∨ is_Some (hs !! j) → is_Some (<[id := h]> hs !! j).
Proof.
  intros Hj. destruct (decide (id = j)) as [<-|]; [rewrite lookup_insert_eq; by exists h|].
  rewrite lookup_insert_ne by done. by destruct Hj.
Qed.

Lemma acquire_ok m hd clock now bound pinned :
  snap_ok (mkSnap m hd) → next_id m < u64_max → N.of_nat (length hd) < u64_max →
  let '(id, m') := create_or_reuse clock now bound pinned m in snap_ok (mkSnap m' (id :: hd)).
Proof.
  intros [Hc Hh Ha Hcd Hb Hl Hf] Hid Hlen. cbn [mgr held] in *. unfold create_or_reuse.
  destruct (find_reusable _ _ _ _ _) as [id|] eqn:Hfind.
  - apply find_reusable_Some in Hfind as (Hin & h0 & k & Hh0 & _).
    constructor; cbn [mgr held handles active_snapshots reusable_cache next_id max_cache_size set_handles].
    + intros j h Hj. rewrite holders_cons. destruct (decide (id = j)) as [<-|Hne].
      * rewrite lookup_alter_eq, Hh0 in Hj. injection Hj as <-. simpl.
        rewrite (Hc id h0 Hh0). pose proof (holders_le id hd).
        rewrite u64_add_small by u64. done.
      * rewrite lookup_alter_ne in Hj by done. rewrite (Hc _ _ Hj). lia.
    + intros j [->|Hj]%elem_of_cons; apply alter_is_Some; [by exists h0|by apply Hh].
    + intros j Hj. destruct (Ha j Hj). split; [by right|done].
    + intros j Hj. by apply alter_is_Some, Hcd.
    + done.
    + cbn [length]. lia.
    + intros j h Hj. destruct (decide (id = j)) as [<-|].
      * rewrite lookup_alter_eq, Hh0 in Hj. injection Hj as <-. exact (Hf id h0 Hh0).
      * rewrite lookup_alter_ne in Hj by done. by apply Hf.
  - assert (handles m !! next_id m = None) as Hfresh.
    { destruct (handles m !! next_id m) eqn:E; [|done]. destruct (Hf _ _ E). lia. }
    assert (holders (next_id m) hd = 0) as H0.
    { destruct (N.eq_0_gt_0_cases (holders (next_id m) hd)) as [|Hpos]; [done|].
      apply holders_pos in Hpos. destruct (Hh _ Hpos). congruence. }
    constructor; cbn [mgr held handles active_snapshots reusable_cache next_id max_cache_size].
    + intros j h Hj. rewrite holders_cons. destruct (decide (next_id m = j)) as [<-|Hne].
      * rewrite lookup_insert_eq in Hj. injection Hj as <-. simpl. lia.
      * rewrite lookup_insert_ne in Hj by done. rewrite (Hc _ _ Hj). lia.
    + intros j [->|Hj]%elem_of_cons; apply insert_is_Some; [by left|right; by apply Hh].
    + intros j [->%elem_of_singleton|Hj]%elem_of_union.
      * split; [by left|]. intros Hin. destruct (Hcd _ Hin). congruence.
      * destruct (Ha j Hj). split; [by right|done].
    + intros j Hj. apply insert_is_Some. right. by apply Hcd.
    + done.
    + cbn [length]. lia.
    + intros j h Hj. rewrite u64_add_small by u64.
      destruct (decide (next_id m = j)) as [<-|].
      * rewrite lookup_insert_eq in Hj. injection Hj as <-. simpl. split; [lia|done].
      * rewrite lookup_insert_ne in Hj by done. destruct (Hf _ _ Hj). split; [lia|done].
Qed.

Lemma u64_pred x : x < u64_modulus → u64_wrapping_sub (x + 1) 1 = x.
Proof.
  intros H. unfold u64_wrapping_sub. replace (x + 1 + u64_modulus - 1) with (x + 1 * u64_modulus) by lia.
  rewrite N.Div0.mod_add. by apply N.mod_small.
Qed.

Lemma release_ok m hd1 id hd2 :
  snap_ok (mkSnap m (hd1 ++ id :: hd2)) → snap_ok (mkSnap (release id m) (hd1 ++ hd2)).
Proof.
  intros [Hc Hh Ha Hcd Hb Hl Hf]. cbn [mgr held] in *. unfold release.
  destruct (Hh id) as [h0 Hh0]; [set_solver|]. rewrite Hh0. cbn [release_handle].
  pose proof (Hc id h0 Hh0) as Hcount. rewrite holders_mid, decide_True in Hcount by done.
  assert (∀ j, id ≠ j → j ∈ hd1 ++ id :: hd2 → j ∈ hd1 ++ hd2) as Hkeep by set_solver.
  assert (∀ j h, <[id := set_refs (u64_wrapping_sub (ref_count h0) 1) h0]> (handles m) !! j = Some h →
    ref_count h = holders j (hd1 ++ hd2) ∧ j < next_id m ∧ snapshot_ts h = j) as Hnew.
  { intros j h Hj. destruct (decide (id = j)) as [<-|Hne].
    - rewrite lookup_insert_eq in Hj. injection Hj as <-. simpl. split; [|exact (Hf id h0 Hh0)].
      rewrite Hcount. apply u64_pred. pose proof (holders_le id (hd1 ++ hd2)).
      rewrite !length_app in *. cbn [length] in *. u64.
    - rewrite lookup_insert_ne in Hj by done. split; [|by apply Hf].
      rewrite (Hc _ _ Hj), holders_mid, decide_False by done. lia. }
  assert (∀ j, is_Some (handles m !! j) →
    is_Some (<[id := set_refs (u64_wrapping_sub (ref_count h0) 1) h0]> (handles m) !! j)) as Hdom
    by (intros j Hj; apply insert_is_Some; by right).
  assert (∀ j, j ∈ hd1 ++ hd2 → j ∈ hd1 ++ id :: hd2) as Hsub by set_solver.
  assert (N.of_nat (length (hd1 ++ hd2)) <= u64_max) as Hl'
    by (rewrite !length_app in *; cbn [length] in *; lia).
  rewrite Hcount. destruct (N.eqb_spec (holders id (hd1 ++ hd2) + 1) 1) as [H1|Hn1];
    constructor; cbn [mgr held handles active_snapshots reusable_cache next_id max_cache_size set_handles];
    rewrite <- ?Hcount; try done;
    try (intros j h Hj; by apply Hnew); try (by intros j Hj; apply Hdom, Hh, Hsub).
  - intros j [Hj Hne%not_elem_of_singleton]%elem_of_difference. destruct (Ha j Hj) as [Hheld Hnc].
    split; [by apply Hkeep|]. destruct (_ <? _)%nat; [|done]. set_solver.
  - intros j Hj. apply Hdom. destruct (_ <? _)%nat; [|by apply Hcd].
    apply elem_of_app in Hj as [Hj| ->%list_elem_of_singleton]; [by apply Hcd|by exists h0].
  - destruct (Nat.ltb_spec (length (reusable_cache m)) (max_cache_size m)); [|done].
    rewrite length_app. simpl. lia.
  - intros j Hj. destruct (Ha j Hj) as [Hheld Hnc]. split; [|done].
    destruct (decide (id = j)) as [<-|]; [apply holders_pos; lia|by apply Hkeep].
  - intros j Hj. by apply Hdom, Hcd.
Qed.

Lemma snap_step_ok s s' : snap_ok s → snap_step s s' → snap_ok s'.
Proof.
  intros Hok Hstep. destruct Hstep as [m hd clock now bound pinned Hid Hlen|m hd1 id hd2|m hd clock].
  { pose proof (acquire_ok m hd clock now bound pinned Hok Hid Hlen) as H.
    by destruct (create_or_reuse _ _ _ _ _). }
  { by apply release_ok. }
  destruct Hok as [Hc Hh Ha Hcd Hb Hl Hf]. cbn [mgr held] in *.
  pose proof (retain_young_sublist clock 0 (retention_ms m) (handles m) (reusable_cache m)) as Hsub.
  constructor; cbn [mgr held cleanup_expired snd handles active_snapshots reusable_cache next_id max_cache_size];
    try done.
  - intros id Hid. destruct (Ha id Hid) as [? Hn]. split; [done|].
    intros Hin. apply Hn. by eapply elem_of_sublist.
  - intros id Hid. apply Hcd. by eapply elem_of_sublist.
  - apply sublist_length in Hsub. lia.
Qed.

Lemma snap_run_ok n r s : rtc snap_step (mkSnap (new n r) []) s → snap_ok s.
Proof.
  intros Hrun. remember (mkSnap (new n r) []) as s0 eqn:Hs0.
  assert (snap_ok s0) as Hok.
  { subst. constructor; cbn; try done.
    all: try (by intros id ?%elem_of_nil); try (by intros id ?%elem_of_empty). lia. }
  clear Hs0. induction Hrun as [|s1 s2 s3 Hstep _ IH]; [done|]. by eapply IH, snap_step_ok.
Qed.

(** ** Properties *)

(** Reference counts are exact.  When clients release only handles they hold,
    in every reachable state each handle's count is the number of its holders,
    a snapshot in the active map is held and not in the reusable cache, the cache
    respects its size limit, and distinct snapshots have distinct timestamps. *)
Theorem snapshot_refcounts_exact (max_cache : nat) (retention : N) (s : SnapState) :
  rtc snap_step (mkSnap (new max_cache retention) []) s →
  (∀ id h, handles (mgr s) !! id = Some h →
     ref_count h = holders id (held s) ∧ snapshot_ts h = id) ∧
  (∀ id, get id (mgr s) = Some id → id ∈ held s ∧ id ∉ reusable_cache (mgr s)) ∧
  (length (reusable_cache (mgr s)) <= max_cache_size (mgr s))%nat.
Proof.
  intros Hrun. destruct (snap_run_ok _ _ _ Hrun) as [Hc Hh Ha Hcd Hb Hl Hf].
  split_and!; [|..|done].
  - intros id h Hid. split; [by apply Hc|by apply (Hf id h)].
  - intros id. unfold get. destruct (decide _); [|done]. intros _. by apply Ha.
Qed.

(** Create, release into the cache, and reuse. *)
Definition demo_manager : SnapshotManager :=
  (create_or_reuse (fun _ => 5) 5 None ∅
     (release 1 (create_or_reuse (fun _ => 0) 0 None ∅ (new 4 60000)).2)).2.

Lemma snapshot_refcounts_exact_witness :
  ∃ h, handles demo_manager !! 1 = Some h ∧ ref_count h = 1.
Proof.
  destruct (handles demo_manager !! 1) as [h|] eqn:Hh; [|vm_compute in Hh; discriminate].
  exists h. split; [reflexivity|].
  assert (rtc snap_step (mkSnap (new 4 60000) []) (mkSnap demo_manager [1])) as Hrun.
  { eapply rtc_l; [apply (sn_acquire (new 4 60000) [] (fun _ => 0) 0 None ∅); reflexivity|].
    eapply rtc_l; [apply (sn_release _ [] 1 [])|].
    eapply rtc_l; [apply (sn_acquire _ [] (fun _ => 5) 5 None ∅); vm_compute; reflexivity|].
    apply rtc_refl. }
  rewrite (proj1 (proj1 (snapshot_refcounts_exact 4 60000 (mkSnap demo_manager [1]) Hrun) 1 h Hh)).
  reflexivity.
Defined.

(** Freshness.  A snapshot served for a staleness bound is either created by
    the call or was no older than the bound when its age was read. *)
Theorem served_snapshot_is_fresh (clock : nat -> N) (now b : N) (pinned : gmap N N)
    (m : SnapshotManager) :
  let '(id, m') := create_or_reuse clock now (Some b) pinned m in
  (id = next_id m ∧ handles m' !! id = Some (mkHandle id pinned 1 now)) ∨
  (id ∈ reusable_cache m ∧ ∃ h k, handles m !! id = Some h ∧ age_ms (clock k) h <= b).
Proof.
  unfold create_or_reuse. destruct (find_reusable _ _ _ _ _) as [id|] eqn:Hf.
  - right. apply find_reusable_Some in Hf as (Hin & h & k & Hh & Hs).
    split; [done|]. exists h, k. split; [done|]. by apply N.leb_le.
  - left. simpl. by rewrite lookup_insert_eq.
Qed.

(** A reused snapshot is not registered.  After a handle went through the
    cache, the client that reuses it holds a live snapshot ([ref_count] 1) that
    [get] does not know; releasing it again puts it into the cache twice. *)
Theorem reused_snapshot_unregistered :
  (ref_count <$> handles demo_manager !! 1) = Some 1 ∧ get 1 demo_manager = None ∧
  reusable_cache (release 1 demo_manager) = [1; 1].
Proof. vm_compute. split_and!; reflexivity. Qed.
