(* ===== verification/Merge.v ===== *)
(** * The merge job manager ([crates/voltnuerongrid-store/src/merge.rs]) *)

From S2P Require Import Prelude.
Open Scope list_scope.
Open Scope N_scope.

Module Merge.

Record MergeJob := mkJob {
  job_id : N;
  segment_id : N;
  snapshot_ts : N;
  window_end_ts : N;
  created_at_ms : N;
  started_at_ms : option N;
  completed_at_ms : option N;
}.

Inductive MergeStatus := Pending | Running | Completed | Failed | Cancelled.

Record MergeMetrics := mkMetrics {
  jobs_completed : N;
  jobs_failed : N;
  avg_merge_duration_ms : N;
  latest_merge_lag_ms : N;
  pending_tail_bytes : N;
  pending_tail_versions : N;
}.

Definition default_metrics : MergeMetrics := mkMetrics 0 0 0 0 0 0.

Record MergeManager := mkManager {
  pending_jobs : list MergeJob;
  active_jobs : gmap N MergeJob;
  completed_jobs : list (MergeJob * MergeMetrics);
  metrics : MergeMetrics;
  next_job_id : N;
  max_history : nat;
}.

Definition new (history : nat) : MergeManager := mkManager [] ∅ [] default_metrics 1 history.

Definition job_new (now id seg snap window : N) : MergeJob := mkJob id seg snap window now None None.

Definition duration_ms (j : MergeJob) : option N :=
  match started_at_ms j, completed_at_ms j with
  | Some s, Some e => Some (saturating_sub e s)
  | _, _ => None
  end.

Definition schedule_merge (now seg snap window : N) (m : MergeManager) : N * MergeManager :=
  let id := next_job_id m in
  (id, mkManager (pending_jobs m ++ [job_new now id seg snap window]) (active_jobs m)
         (completed_jobs m) (metrics m) (u64_add (next_job_id m) 1) (max_history m)).

Definition take_next_job (m : MergeManager) : option MergeJob * MergeManager :=
  match pending_jobs m with
  | [] => (None, m)
  | j :: rest =>
      (Some j, mkManager rest (active_jobs m) (completed_jobs m) (metrics m) (next_job_id m)
                 (max_history m))
  end.

Definition set_started (now : N) (j : MergeJob) : MergeJob :=
  mkJob (job_id j) (segment_id j) (snapshot_ts j) (window_end_ts j) (created_at_ms j) (Some now)
    (completed_at_ms j).

Definition set_completed (now : N) (j : MergeJob) : MergeJob :=
  mkJob (job_id j) (segment_id j) (snapshot_ts j) (window_end_ts j) (created_at_ms j)
    (started_at_ms j) (Some now).

Definition start_job (now : N) (j : MergeJob) (m : MergeManager) : MergeManager :=
  mkManager (pending_jobs m) (<[segment_id j := set_started now j]> (active_jobs m))
    (completed_jobs m) (metrics m) (next_job_id m) (max_history m).

(** [order] is the iteration order of the active map. *)
Definition find_active (id : N) (order : list (N * MergeJob)) : option MergeJob :=
  match List.find (fun kv => job_id kv.2 =? id) order with Some kv => Some kv.2 | None => None end.

Definition count_completed (x : MergeMetrics) : MergeMetrics :=
  mkMetrics (u64_add (jobs_completed x) 1) (jobs_failed x) (avg_merge_duration_ms x)
    (latest_merge_lag_ms x) (pending_tail_bytes x) (pending_tail_versions x).

Definition count_failed (x : MergeMetrics) : MergeMetrics :=
  mkMetrics (jobs_completed x) (u64_add (jobs_failed x) 1) (avg_merge_duration_ms x)
    (latest_merge_lag_ms x) (pending_tail_bytes x) (pending_tail_versions x).

(** The job found gets its completion time, then leaves the active map. *)
Definition complete_job (order : list (N * MergeJob)) (now id : N) (x : MergeMetrics)
    (m : MergeManager) : MergeManager :=
  match find_active id order with
  | Some j =>
      let completed := completed_jobs m ++ [(set_completed now j, x)] in
      mkManager (pending_jobs m) (base.delete (segment_id j) (active_jobs m))
        (if (max_history m <? length completed)%nat then tail completed else completed)
        (count_completed (metrics m)) (next_job_id m) (max_history m)
  | None => m
  end.

Definition fail_job (order : list (N * MergeJob)) (id : N) (m : MergeManager) : MergeManager :=
  match find_active id order with
  | Some _ => mkManager (pending_jobs m) (active_jobs m) (completed_jobs m)
                (count_failed (metrics m)) (next_job_id m) (max_history m)
  | None => m
  end.

Definition has_id (id : N) (j : MergeJob) : bool := job_id j =? id.

Definition get_job_status (id : N) (m : MergeManager) : option MergeStatus :=
  if existsb (has_id id) (pending_jobs m) then Some Pending
  else if existsb (has_id id) (map snd (map_to_list (active_jobs m))) then Some Running
  else if existsb (fun p => has_id id p.1) (completed_jobs m) then Some Completed
  else None.

End Merge.

Import Merge.

(** ** Histories of a worker that follows the protocol *)

(** [taken] are the jobs handed out by [take_next_job] and not started yet. *)
Record MergeState := mkMerge { mm : MergeManager; taken : list MergeJob }.

Inductive merge_step : MergeState -> MergeState -> Prop :=
| mg_schedule m tk now seg snap window :
    next_job_id m < u64_max →
    merge_step (mkMerge m tk) (mkMerge (schedule_merge now seg snap window m).2 tk)
| mg_take m tk j m' :
    take_next_job m = (Some j, m') → merge_step (mkMerge m tk) (mkMerge m' (j :: tk))
| mg_start m tk1 j tk2 now :
    active_jobs m !! segment_id j = None →
    merge_step (mkMerge m (tk1 ++ j :: tk2)) (mkMerge (start_job now j m) (tk1 ++ tk2))
| mg_complete m tk order now id x :
    order ≡ₚ map_to_list (active_jobs m) →
    merge_step (mkMerge m tk) (mkMerge (complete_job order now id x m) tk)
| mg_fail m tk order id :
    order ≡ₚ map_to_list (active_jobs m) →
    merge_step (mkMerge m tk) (mkMerge (fail_job order id m) tk).

Definition active_ids (m : MergeManager) : list N := map (fun kv => job_id kv.2) (map_to_list (active_jobs m)).

(** Every job id in the system, wherever the job is. *)
Definition all_ids (s : MergeState) : list N :=
  map job_id (pending_jobs (mm s)) ++ map job_id (taken s) ++ active_ids (mm s)
  ++ map (fun p => job_id p.1) (completed_jobs (mm s)).

Record merge_ok (s : MergeState) : Prop := {
  mo_nodup : NoDup (all_ids s);
  mo_fresh : ∀ id, id ∈ all_ids s → id < next_job_id (mm s);
  mo_segment : ∀ seg j, active_jobs (mm s) !! seg = Some j → segment_id j = seg;
  mo_history : (length (completed_jobs (mm s)) <= max_history (mm s))%nat;
}.

Lemma active_ids_insert seg j (acts : gmap N MergeJob) :
  acts !! seg = None → map (fun kv => job_id kv.2) (map_to_list (<[seg := j]> acts))
  ≡ₚ job_id j :: map (fun kv : N * MergeJob => job_id kv.2) (map_to_list acts).
Proof. intros H. by rewrite map_to_list_insert. Qed.

Lemma active_ids_delete seg j (acts : gmap N MergeJob) :
  acts !! seg = Some j →
  map (fun kv => job_id kv.2) (map_to_list acts)
  ≡ₚ job_id j :: map (fun kv : N * MergeJob => job_id kv.2) (map_to_list (base.delete seg acts)).
Proof. intros H. by rewrite <- (map_to_list_delete acts seg j). Qed.

Lemma find_active_spec id order (acts : gmap N MergeJob) :
  order ≡ₚ map_to_list acts →
  match find_active id order with
  | Some j => job_id j = id ∧ ∃ seg, acts !! seg = Some j
  | None => id ∉ map (fun kv : N * MergeJob => job_id kv.2) (map_to_list acts)
  end.
Proof.
  intros Hp. unfold find_active. destruct (List.find _ order) as [[seg j]|] eqn:Hf.
  - apply List.find_some in Hf as [Hin Heq]. apply N.eqb_eq in Heq. split; [done|].
    exists seg. apply elem_of_map_to_list. rewrite <- Hp. by apply list_elem_of_In.
  - intros Hin. apply list_elem_of_fmap in Hin as ([seg j] & -> & Hin). rewrite <- Hp in Hin.
    apply list_elem_of_In in Hin. apply (List.find_none _ _ Hf) in Hin. simpl in Hin.
    by rewrite N.eqb_refl in Hin.
Qed.

(** A step that only moves jobs around, or forgets some. *)
Lemma merge_ok_sub s s' :
  merge_ok s → all_ids s' ⊆+ all_ids s → next_job_id (mm s') = next_job_id (mm s) →
  (∀ seg j, active_jobs (mm s') !! seg = Some j → segment_id j = seg) →
  (length (completed_jobs (mm s')) <= max_history (mm s'))%nat → merge_ok s'.
Proof.
  intros [Hnd Hf Hs Hh] Hp Hn Hs' Hh'. constructor; [| |done|done].
  - apply submseteq_Permutation in Hp as [k Hk]. rewrite Hk in Hnd.
    by apply NoDup_app in Hnd as (? & _ & _).
  - intros id Hid. rewrite Hn. apply Hf. by eapply elem_of_submseteq.
Qed.

Lemma complete_history m x j now :
  (length (completed_jobs m) <= max_history m)%nat →
  let completed := completed_jobs m ++ [(set_completed now j, x)] in
  let kept := if (max_history m <? length completed)%nat then tail completed else completed in
  (length kept <= max_history m)%nat ∧
  map (fun p : MergeJob * MergeMetrics => job_id p.1) kept
  ⊆+ job_id j :: map (fun p : MergeJob * MergeMetrics => job_id p.1) (completed_jobs m).
Proof.
  intros Hlen. cbv zeta.
  assert (map (fun p : MergeJob * MergeMetrics => job_id p.1)
            (completed_jobs m ++ [(set_completed now j, x)])
          ⊆+ job_id j :: map (fun p : MergeJob * MergeMetrics => job_id p.1) (completed_jobs m)) as Hsub.
  { rewrite map_app. apply Permutation_submseteq. simpl. by rewrite Permutation_app_comm. }
  destruct (Nat.ltb_spec (max_history m) (length (completed_jobs m ++ [(set_completed now j, x)])))
    as [Hlt|Hge]; [|done].
  rewrite length_app in Hlt. simpl in Hlt.
  destruct (completed_jobs m ++ [(set_completed now j, x)]) as [|p l] eqn:E.
  { by apply app_nil in E as [_ ?]. }
  assert (S (length l) = length (completed_jobs m) + 1)%nat as Hl.
  { apply (f_equal length) in E. rewrite length_app in E. simpl in E. lia. }
  cbn [tail]. split; [lia|]. etransitivity; [|exact Hsub]. cbn [map]. by apply submseteq_cons.
Qed.

Lemma merge_step_ok s s' : merge_ok s → merge_step s s' → merge_ok s'.
Proof.
  intros Hok Hstep. pose proof Hok as [Hnd Hf Hs Hh].
  destruct Hstep as [m tk now seg snap window Hid|m tk j m' Ht|m tk1 j tk2 now Hno
    |m tk order now id x Hord|m tk order id Hord]; cbn [mm] in *.
  - assert (all_ids (mkMerge (schedule_merge now seg snap window m).2 tk)
      ≡ₚ next_job_id m :: all_ids (mkMerge m tk)) as Hp.
    { unfold all_ids. cbn. rewrite map_app. simpl. solve_Permutation. }
    constructor; [| |done|done].
    + rewrite Hp. constructor; [|done]. intros Hin%Hf. simpl in Hin. lia.
    + intros id. rewrite Hp. simpl. rewrite u64_add_small by u64.
      intros [->|Hin%Hf]%elem_of_cons; [lia|]. simpl in Hin. lia.
  - unfold take_next_job in Ht. destruct (pending_jobs m) as [|j' rest] eqn:Hpend; [done|].
    injection Ht as <- <-. apply (merge_ok_sub _ _ Hok); try done.
    apply Permutation_submseteq. unfold all_ids. cbn [mm taken pending_jobs active_jobs completed_jobs active_ids].
    rewrite Hpend. simpl. solve_Permutation.
  - apply (merge_ok_sub _ _ Hok); try done.
    + apply Permutation_submseteq. unfold all_ids, active_ids. cbn [mm taken start_job pending_jobs active_jobs completed_jobs].
      rewrite active_ids_insert by done. rewrite !map_app. simpl. solve_Permutation.
    + cbn. intros sg k Hk. destruct (decide (segment_id j = sg)) as [<-|].
      * rewrite lookup_insert_eq in Hk. by injection Hk as <-.
      * rewrite lookup_insert_ne in Hk by done. by apply Hs.
  - unfold complete_job. pose proof (find_active_spec id order _ Hord) as Hfa.
    destruct (find_active id order) as [j|]; [|done]. destruct Hfa as (Hjid & sg & Hj).
    pose proof (Hs sg j Hj) as Hsg. subst sg.
    destruct (complete_history m x j now Hh) as [Hlen Hsub].
    apply (merge_ok_sub _ _ Hok); try done.
    + unfold all_ids, active_ids. cbn [mm taken pending_jobs active_jobs completed_jobs].
      rewrite (active_ids_delete _ _ _ Hj). apply submseteq_skips_l, submseteq_skips_l.
      etransitivity; [apply submseteq_skips_l, Hsub|].
      apply Permutation_submseteq. solve_Permutation.
    + cbn. intros sg k Hk. apply lookup_delete_Some in Hk as [_ Hk]. by apply Hs.
  - unfold fail_job. destruct (find_active id order); [|done].
    by apply (merge_ok_sub _ _ Hok).
Qed.

Lemma merge_run_ok n s : rtc merge_step (mkMerge (new n) []) s → merge_ok s.
Proof.
  intros Hrun. remember (mkMerge (new n) []) as s0 eqn:Hs0.
  assert (merge_ok s0) as Hok.
  { subst. constructor; cbn; [apply NoDup_nil_2|by intros id ?%elem_of_nil|done|lia]. }
  clear Hs0. induction Hrun as [|s1 s2 s3 Hstep _ IH]; [done|]. by eapply IH, merge_step_ok.
Qed.

(** ** Job status *)

Lemma existsb_ids {A} (f : A -> N) id (l : list A) :
  existsb (fun x => f x =? id) l = bool_decide (id ∈ map f l).
Proof.
  apply eq_true_iff_eq. rewrite existsb_exists, bool_decide_eq_true. split.
  - intros (x & Hx & Heq). apply N.eqb_eq in Heq. subst. apply (list_elem_of_fmap_2 f).
    by apply list_elem_of_In.
  - intros (x & -> & Hx)%list_elem_of_fmap. exists x. split; [by apply list_elem_of_In|apply N.eqb_refl].
Qed.

Lemma status_spec id m :
  get_job_status id m =
  if decide (id ∈ map job_id (pending_jobs m)) then Some Pending
  else if decide (id ∈ active_ids m) then Some Running
  else if decide (id ∈ map (fun p => job_id p.1) (completed_jobs m)) then Some Completed
  else None.
Proof.
  unfold get_job_status, has_id, active_ids.
  rewrite (existsb_ids job_id), (existsb_ids job_id), (existsb_ids (fun p => job_id p.1)), map_map.
  by rewrite !bool_decide_decide; repeat destruct (decide _).
Qed.

(** With distinct ids a running job is found under its own id in any order. *)
Lemma find_active_unique order (acts : gmap N MergeJob) seg j :
  order ≡ₚ map_to_list acts → NoDup (map (fun kv : N * MergeJob => job_id kv.2) (map_to_list acts)) →
  acts !! seg = Some j → find_active (job_id j) order = Some j.
Proof.
  intros Hord Hna Hj. pose proof (find_active_spec (job_id j) order acts Hord) as Hfa.
  assert (job_id j ∈ map (fun kv : N * MergeJob => job_id kv.2) (map_to_list acts)) as Hact.
  { apply list_elem_of_fmap. exists (seg, j). split; [done|]. by apply elem_of_map_to_list. }
  destruct (find_active (job_id j) order) as [j'|]; [|done]. destruct Hfa as (Hid' & seg' & Hj').
  f_equal. rewrite (active_ids_delete _ _ _ Hj) in Hna. apply NoDup_cons in Hna as [Hni _].
  destruct (decide (seg = seg')) as [->|Hne]; [congruence|]. exfalso. apply Hni.
  apply list_elem_of_fmap. exists (seg', j'). split; [done|].
  apply elem_of_map_to_list. by rewrite lookup_delete_ne.
Qed.

Lemma active_id_deleted (acts : gmap N MergeJob) seg j :
  NoDup (map (fun kv : N * MergeJob => job_id kv.2) (map_to_list acts)) → acts !! seg = Some j →
  job_id j ∉ map (fun kv : N * MergeJob => job_id kv.2) (map_to_list (base.delete seg acts)).
Proof. intros Hna Hj. rewrite (active_ids_delete _ _ _ Hj) in Hna. by apply NoDup_cons in Hna as [? _]. Qed.

(** The job just completed is in the history unless the history has no room. *)
Lemma completed_status m now j x :
  (length (completed_jobs m) <= max_history m)%nat →
  (if decide (job_id j ∈ map (fun p : MergeJob * MergeMetrics => job_id p.1)
      (if (max_history m <? length (completed_jobs m ++ [(set_completed now j, x)]))%nat
       then tail (completed_jobs m ++ [(set_completed now j, x)])
       else completed_jobs m ++ [(set_completed now j, x)]))
   then Some Completed else None)
  = if decide (max_history m = 0%nat) then None else Some Completed.
Proof.
  intros Hh. rewrite length_app. cbn [length].
  destruct (Nat.ltb_spec (max_history m) (length (completed_jobs m) + 1)) as [Hlt|Hge].
  - destruct (completed_jobs m) as [|p l]; simpl in *.
    + by destruct (decide (max_history m = 0%nat)); [|lia].
    + rewrite decide_True; [by rewrite decide_False by lia|].
      rewrite map_app. apply elem_of_app. right. by left.
  - rewrite decide_True; [by rewrite decide_False by lia|].
    rewrite map_app. apply elem_of_app. right. by left.
Qed.

(** ** Properties *)

(** Merge jobs are tracked exactly once.  When workers start jobs they took,
    on segments with no running job, then in every reachable state job ids are
    distinct across pending, taken, running and completed jobs, running jobs sit
    under their own segment, the history respects its limit, and completing a
    running job reports it completed (while the history keeps at least one job)
    and frees its segment, whatever order the active map is iterated in. *)
Theorem merge_jobs_tracked_once (history : nat) (s : MergeState) (order : list (N * MergeJob))
    (now : N) (x : MergeMetrics) (seg : N) (j : MergeJob) :
  rtc merge_step (mkMerge (new history) []) s →
  order ≡ₚ map_to_list (active_jobs (mm s)) → active_jobs (mm s) !! seg = Some j →
  NoDup (all_ids s) ∧ segment_id j = seg ∧
  get_job_status (job_id j) (mm s) = Some Running ∧
  let m' := complete_job order now (job_id j) x (mm s) in
  active_jobs m' = base.delete seg (active_jobs (mm s)) ∧
  (length (completed_jobs m') <= max_history m')%nat ∧
  get_job_status (job_id j) m'
  = (if decide (max_history (mm s) = 0%nat) then None else Some Completed).
Proof.
  intros Hrun Hord Hj. pose proof (merge_run_ok _ _ Hrun) as [Hnd Hf Hs Hh].
  pose proof (Hs _ _ Hj) as Hseg.
  assert (job_id j ∈ active_ids (mm s)) as Hact.
  { apply list_elem_of_fmap. exists (seg, j). split; [done|]. by apply elem_of_map_to_list. }
  unfold all_ids in Hnd. apply NoDup_app in Hnd as (Hn1 & Hd1 & Hnd).
  assert (job_id j ∉ map job_id (pending_jobs (mm s))) as Hnp.
  { intros Hin. apply (Hd1 _ Hin). apply elem_of_app. right. apply elem_of_app. by left. }
  apply NoDup_app in Hnd as (Hn2 & Hd2 & Hnd). apply NoDup_app in Hnd as (Hn3 & Hd3 & Hn4).
  split_and!; [|done| |].
  { apply NoDup_app. split_and!; [done|done|]. apply NoDup_app. split_and!; [done|done|].
    by apply NoDup_app. }
  { by rewrite status_spec, decide_False, decide_True. }
  cbv zeta. unfold complete_job. rewrite (find_active_unique _ _ _ _ Hord Hn3 Hj).
  destruct (complete_history (mm s) x j now Hh) as [Hlen _].
  split_and!; [by rewrite Hseg|exact Hlen|].
  rewrite status_spec. cbn [pending_jobs]. rewrite decide_False by done.
  unfold active_ids. cbn [active_jobs completed_jobs].
  rewrite Hseg, decide_False by (by eapply active_id_deleted).
  by apply completed_status.
Qed.

(** One job scheduled, taken and started on segment 4. *)
Definition demo_running : MergeManager :=
  start_job 20 (job_new 10 1 4 100 90) (take_next_job (schedule_merge 10 4 100 90 (new 5)).2).2.

Lemma merge_jobs_tracked_once_witness :
  get_job_status 1 (complete_job (map_to_list (active_jobs demo_running)) 30 1 default_metrics
                      demo_running) = Some Completed.
Proof.
  assert (rtc merge_step (mkMerge (new 5) []) (mkMerge demo_running [])) as Hrun.
  { eapply rtc_l; [apply (mg_schedule (new 5) [] 10 4 100 90); reflexivity|].
    eapply rtc_l; [eapply mg_take; reflexivity|].
    eapply rtc_l; [apply (mg_start _ [] (job_new 10 1 4 100 90) [] 20); reflexivity|].
    apply rtc_refl. }
  exact (proj2 (proj2 (proj2 (proj2 (proj2 (merge_jobs_tracked_once 5 (mkMerge demo_running [])
    (map_to_list (active_jobs demo_running)) 30 default_metrics 4
    (set_started 20 (job_new 10 1 4 100 90)) Hrun (reflexivity _) eq_refl)))))).
Defined.

(** A failed job keeps running.  [fail_job] counts the failure but leaves the
    job in the active map, so its status stays [Running], no status is ever
    [Failed], and its segment stays occupied. *)
Theorem failed_job_keeps_running (order : list (N * MergeJob)) (id i : N) (m : MergeManager) :
  active_jobs (fail_job order id m) = active_jobs m ∧
  get_job_status i (fail_job order id m) = get_job_status i m ∧
  get_job_status i m ≠ Some Failed.
Proof.
  unfold fail_job. split_and!; [by destruct (find_active id order)..|].
  unfold get_job_status. repeat case_match; done.
Qed.

(** Starting a second job on a segment loses the first: its id is in no
    queue any more and its status is unknown. *)
Theorem started_job_overwritten :
  let m1 := (schedule_merge 0 4 100 90 (new 5)).2 in
  let m2 := (schedule_merge 0 4 200 190 m1).2 in
  let m3 := (take_next_job m2).2 in
  let m4 := (take_next_job m3).2 in
  let m5 := start_job 1 (job_new 0 2 4 200 190) (start_job 1 (job_new 0 1 4 100 90) m4) in
  get_job_status 1 m5 = None ∧ get_job_status 2 m5 = Some Running.
Proof. vm_compute. split; reflexivity. Qed.
