(* ===== verification/BaseStore.v ===== *)
(** * The base column store ([crates/voltnuerongrid-store/src/base_store.rs],
      [segment.rs])

    Manifests with a current version and a history, installed by an atomic swap,
    and the version manager.  The manifests are shared behind mutexes; every
    operation takes the lock of one manifest for its whole duration, so the map
    holds their values. *)

From S2P Require Import Prelude Str Decimal.
Open Scope string_scope.
Open Scope list_scope.
Open Scope N_scope.
Open Scope vng_scope.
Import Dec.

Module BaseStore.

Record SegmentStats := mkSegmentStats {
  row_count : N;
  tail_watermark : N;
  tail_length : nat;
  merge_backlog_bytes : N;
}.

Inductive ColumnEncoding := Uncompressed | Dictionary | RunLength | BitPacked.

Record ColumnBlock := mkColumnBlock {
  col_id : N;
  block_values : string;
  encoding : ColumnEncoding;
  min_value : option string;
  max_value : option string;
  null_count : N;
  block_row_count : N;
}.

Record BaseSegmentVersion := mkBaseVersion {
  segment_id : N;
  version_id : N;
  min_commit_ts : N;
  max_commit_ts : N;
  columns : gmap N ColumnBlock;
  stats : SegmentStats;
  created_at_ms : N;
  row_ids : list N;
}.

Definition column_block_new (c : N) (e : ColumnEncoding) (rows : N) : ColumnBlock :=
  mkColumnBlock c "" e None None 0 rows.

Definition base_version_new (seg ver min_ts max_ts created : N) : BaseSegmentVersion :=
  mkBaseVersion seg ver min_ts max_ts ∅ (mkSegmentStats 0 max_ts 0 0) created [].

Definition contains_row (r : N) (v : BaseSegmentVersion) : bool :=
  existsb (fun x => x =? r) (row_ids v).

Record BaseSegmentManifest := mkManifest {
  current_version : option BaseSegmentVersion;
  history : list BaseSegmentVersion;
}.

Definition manifest_new : BaseSegmentManifest := mkManifest None [].

Definition swap_version (v : BaseSegmentVersion) (m : BaseSegmentManifest) : BaseSegmentManifest :=
  mkManifest (Some v)
    (match current_version m with Some old => history m ++ [old] | None => history m end).

Abbreviation InMemoryBaseColumnStore := (gmap N BaseSegmentManifest).

Definition not_registered (seg : N) : string := "Segment " +:+ to_string seg +:+ " not registered".

Definition register_segment (seg : N) (s : InMemoryBaseColumnStore)
    : result unit string * InMemoryBaseColumnStore :=
  (Ok tt, <[seg := manifest_new]> s).

Definition install_base_version (seg : N) (v : BaseSegmentVersion) (s : InMemoryBaseColumnStore)
    : result unit string * InMemoryBaseColumnStore :=
  match s !! seg with
  | Some m => (Ok tt, <[seg := swap_version v m]> s)
  | None => (Err (not_registered seg), s)
  end.

Definition get_current_version (seg : N) (s : InMemoryBaseColumnStore)
    : result (option BaseSegmentVersion) string :=
  match s !! seg with
  | Some m => Ok (current_version m)
  | None => Err (not_registered seg)
  end.

Definition get_version_history (seg : N) (s : InMemoryBaseColumnStore)
    : result (list BaseSegmentVersion) string :=
  match s !! seg with
  | Some m => Ok (match current_version m with Some c => history m ++ [c] | None => history m end)
  | None => Err (not_registered seg)
  end.

Definition row_exists (seg r : N) (s : InMemoryBaseColumnStore) : result bool string :=
  match s !! seg with
  | Some m => Ok (match current_version m with Some v => contains_row r v | None => false end)
  | None => Err (not_registered seg)
  end.

(** [row_count] of the trait: the sum over the current versions. *)
Definition total_row_count (s : InMemoryBaseColumnStore) : N :=
  map_fold (fun _ m acc =>
      match current_version m with Some v => row_count (stats v) + acc | None => acc end) 0 s
  mod u64_modulus.

(** ** The version manager *)

Abbreviation AtomicVersionManager := (gmap N (N * list N)).

Definition promote_version (seg v : N) (s : AtomicVersionManager) : AtomicVersionManager :=
  match s !! seg with
  | Some (old, hist) => <[seg := (v, hist ++ [old])]> s
  | None => <[seg := (v, [])]> s
  end.

Definition vm_current (seg : N) (s : AtomicVersionManager) : option N :=
  match s !! seg with Some (v, _) => Some v | None => None end.

Definition vm_history (seg : N) (s : AtomicVersionManager) : list N :=
  match s !! seg with Some (v, hist) => hist ++ [v] | None => [] end.

Definition has_version (seg : N) (s : AtomicVersionManager) : bool :=
  match s !! seg with Some _ => true | None => false end.

Definition init_version (seg v : N) (s : AtomicVersionManager) : AtomicVersionManager :=
  <[seg := (v, [])]> s.

End BaseStore.

Import BaseStore.

(** ** Histories *)

Inductive base_op :=
| BRegister (seg : N)
| BInstall (seg : N) (v : BaseSegmentVersion).

Definition base_step (s : InMemoryBaseColumnStore) (o : base_op) : InMemoryBaseColumnStore :=
  match o with
  | BRegister seg => (register_segment seg s).2
  | BInstall seg v => (install_base_version seg v s).2
  end.

(** The versions of [seg] installed since its last registration; [None] before
    the first one. *)
Definition installed_step (seg : N) (acc : option (list BaseSegmentVersion)) (o : base_op)
    : option (list BaseSegmentVersion) :=
  match o with
  | BRegister seg' => if decide (seg' = seg) then Some [] else acc
  | BInstall seg' v => if decide (seg' = seg) then (fun vs => vs ++ [v]) <$> acc else acc
  end.

Definition installed (seg : N) (ops : list base_op) : option (list BaseSegmentVersion) :=
  fold_left (installed_step seg) ops None.

Definition manifest_of (vs : list BaseSegmentVersion) : BaseSegmentManifest :=
  mkManifest (last vs) (take (length vs - 1) vs).

Lemma swap_manifest_of v vs : swap_version v (manifest_of vs) = manifest_of (vs ++ [v]).
Proof.
  unfold swap_version, manifest_of. cbn [current_version history].
  rewrite last_snoc, length_app. cbn [length]. f_equal.
  rewrite take_app_le by lia. replace (length vs + 1 - 1)%nat with (length vs) by lia.
  rewrite firstn_all. destruct vs as [|x l _] using rev_ind; [done|].
  rewrite last_snoc, length_app. cbn [length].
  by rewrite take_app_le, Nat.add_sub, firstn_all by lia.
Qed.

Lemma base_run_lookup ops seg :
  fold_left base_step ops (∅ : InMemoryBaseColumnStore) !! seg = manifest_of <$> installed seg ops.
Proof.
  unfold installed. induction ops as [|o ops IH] using rev_ind; [done|].
  rewrite !fold_left_app. cbn [fold_left].
  set (s := fold_left base_step ops ∅) in *. set (acc := fold_left (installed_step seg) ops None) in *.
  destruct o as [seg'|seg' v]; cbn [base_step register_segment install_base_version installed_step snd].
  - destruct (decide (seg' = seg)) as [->|Hne]; [by rewrite lookup_insert_eq|by rewrite lookup_insert_ne].
  - unfold install_base_version. destruct (decide (seg' = seg)) as [->|Hne].
    + rewrite IH. destruct acc as [vs|]; simpl; [|by rewrite IH].
      by rewrite lookup_insert_eq, swap_manifest_of.
    + destruct (s !! seg') as [m|]; simpl; [by rewrite lookup_insert_ne|done].
Qed.

(** ** Properties *)

(** Version installs are atomic and ordered.  After any sequence of
    registrations and installs, a registered segment's current version is the
    last version installed since its registration and its history is exactly the
    installed versions in order; an install or read of a segment never
    registered is an error that changes nothing. *)
Theorem base_versions_in_order (ops : list base_op) (seg : N) (v : BaseSegmentVersion) :
  let s := fold_left base_step ops (∅ : InMemoryBaseColumnStore) in
  match installed seg ops with
  | Some vs => get_current_version seg s = Ok (last vs) ∧ get_version_history seg s = Ok vs
  | None => get_current_version seg s = Err (not_registered seg) ∧
            get_version_history seg s = Err (not_registered seg) ∧
            install_base_version seg v s = (Err (not_registered seg), s)
  end.
Proof.
  cbv zeta. unfold get_current_version, get_version_history, install_base_version.
  rewrite base_run_lookup. destruct (installed seg ops) as [vs|]; simpl; [|done].
  split; [done|]. f_equal. destruct vs as [|x l _] using rev_ind; [done|].
  rewrite last_snoc, length_app. cbn [length].
  by rewrite take_app_le, Nat.add_sub, firstn_all by lia.
Qed.
