(* ===== verification/Index.v ===== *)
(** * Secondary indexes ([crates/voltnuerongrid-store/src/index.rs]) *)

From S2P Require Import Prelude Str.
Open Scope string_scope.
Open Scope list_scope.
Open Scope vng_scope.

Module Index.

Inductive IndexKind := BTree | Hash.

Record IndexDescriptor := mkDescriptor {
  name : string;
  table : string;
  column : string;
  kind : IndexKind;
  unique : bool;
}.

Inductive IndexError :=
| UniqueViolation (index value : string)
| IndexAlreadyExists (name : string)
| IndexNotFound (name : string).

(** The [BTreeMap] as a finite map; its iteration order is the string order. *)
Record BTreeIndex := mkIndex {
  descriptor : IndexDescriptor;
  tree : gmap string (list string);
}.

Definition new (d : IndexDescriptor) : BTreeIndex := mkIndex d ∅.

Definition insert (column_value row_key : string) (i : BTreeIndex)
    : result unit IndexError * BTreeIndex :=
  let entry := default [] (tree i !! column_value) in
  if unique (descriptor i) && negb (bool_decide (entry = []))
  then (Err (UniqueViolation (name (descriptor i)) column_value),
        mkIndex (descriptor i) (<[column_value := entry]> (tree i)))
  else (Ok tt,
        mkIndex (descriptor i)
          (<[column_value := if decide (row_key ∈ entry) then entry else entry ++ [row_key]]>
             (tree i))).

Definition remove (column_value row_key : string) (i : BTreeIndex) : BTreeIndex :=
  match tree i !! column_value with
  | Some keys =>
      match filter (fun k => k ≠ row_key) keys with
      | [] => mkIndex (descriptor i) (base.delete column_value (tree i))
      | keys' => mkIndex (descriptor i) (<[column_value := keys']> (tree i))
      end
  | None => i
  end.

Definition lookup (column_value : string) (i : BTreeIndex) : list string :=
  default [] (tree i !! column_value).

(** The keys of the tree in iteration order. *)
Definition sorted_values (m : gmap string (list string)) : list string :=
  merge_sort String.le (map fst (map_to_list m)).

Definition in_range (s e v : string) : Prop := String.le s v ∧ String.le v e.

(** [None] is the panic of [BTreeMap::range] when the start is after the end. *)
Definition range_scan (s e : string) (i : BTreeIndex) : option (list (string * list string)) :=
  if decide (String.le s e)
  then Some (map (fun v => (v, lookup v i))
               (filter (fun v => in_range s e v) (sorted_values (tree i))))
  else None.

Definition entry_count (i : BTreeIndex) : nat :=
  sum_list (map (fun kv => length kv.2) (map_to_list (tree i))).

(** ** The manager *)

Abbreviation IndexManager := (gmap string BTreeIndex).

Definition create_index (d : IndexDescriptor) (m : IndexManager)
    : result unit IndexError * IndexManager :=
  match m !! name d with
  | Some _ => (Err (IndexAlreadyExists (name d)), m)
  | None => (Ok tt, <[name d := new d]> m)
  end.

Definition drop_index (n : string) (m : IndexManager)
    : result IndexDescriptor IndexError * IndexManager :=
  match m !! n with
  | Some i => (Ok (descriptor i), base.delete n m)
  | None => (Err (IndexNotFound n), m)
  end.

End Index.

Import Index.

(** ** The specification: a set of (value, row key) pairs *)

Inductive index_op := IInsert (v k : string) | IRemove (v k : string).

Definition spec_rejects (u : bool) (v : string) (rel : gset (string * string)) : bool :=
  u && bool_decide (∃ p, p ∈ rel ∧ p.1 = v).

Definition rel_step (u : bool) (rel : gset (string * string)) (o : index_op)
    : gset (string * string) :=
  match o with
  | IInsert v k => if spec_rejects u v rel then rel else {[(v, k)]} ∪ rel
  | IRemove v k => rel ∖ {[(v, k)]}
  end.

Definition index_step (i : BTreeIndex) (o : index_op) : BTreeIndex :=
  match o with
  | IInsert v k => (insert v k i).2
  | IRemove v k => remove v k i
  end.

(** The index represents the relation. *)
Record represents (i : BTreeIndex) (rel : gset (string * string)) : Prop := {
  rp_lookup : ∀ v k, k ∈ lookup v i ↔ (v, k) ∈ rel;
  rp_nodup : ∀ v, NoDup (lookup v i);
  rp_nonempty : ∀ v keys, tree i !! v = Some keys → keys ≠ [];
  rp_unique : unique (descriptor i) = true → ∀ v, (length (lookup v i) <= 1)%nat;
}.

Lemma represents_rejects i rel v :
  represents i rel →
  spec_rejects (unique (descriptor i)) v rel
  = unique (descriptor i) && negb (bool_decide (lookup v i = [])).
Proof.
  intros [Hl _ _ _]. unfold spec_rejects. f_equal.
  destruct (lookup v i) as [|k ks] eqn:E.
  - rewrite (bool_decide_true ([] = [])) by done. simpl. apply bool_decide_false.
    intros ([v' k] & Hin & Hv). simpl in Hv. subst v'. apply Hl in Hin. rewrite E in Hin.
    by apply elem_of_nil in Hin.
  - rewrite (bool_decide_false (k :: ks = [])) by done. simpl. apply bool_decide_true.
    exists (v, k). split; [|done]. apply Hl. rewrite E. by left.
Qed.

(** Replacing the bucket of one value. *)
Lemma lookup_insert_bucket v v' keys i :
  lookup v' (mkIndex (descriptor i) (<[v := keys]> (tree i)))
  = if decide (v = v') then keys else lookup v' i.
Proof.
  unfold lookup. simpl. destruct (decide (v = v')) as [<-|];
    [by rewrite lookup_insert_eq|by rewrite lookup_insert_ne].
Qed.

Lemma insert_represents v k i rel :
  represents i rel →
  represents (insert v k i).2 (rel_step (unique (descriptor i)) rel (IInsert v k)) ∧
  is_ok (insert v k i).1 = negb (spec_rejects (unique (descriptor i)) v rel).
Proof.
  intros Hr. pose proof (represents_rejects i rel v Hr) as Hrej.
  destruct Hr as [Hl Hn Hne Hu]. unfold rel_step. rewrite Hrej.
  unfold insert. fold (lookup v i).
  destruct (unique (descriptor i) && negb (bool_decide (lookup v i = []))) eqn:Hc; cbn [fst snd is_ok negb].
  - split; [|done]. apply andb_prop in Hc as [Hun Hbd].
    assert (lookup v i ≠ []) as Hnn by (by destruct (bool_decide_reflect (lookup v i = []))).
    constructor; cbn [descriptor].
    + intros v' k'. rewrite lookup_insert_bucket. destruct (decide (v = v')) as [<-|]; apply Hl.
    + intros v'. rewrite lookup_insert_bucket. destruct (decide (v = v')) as [<-|]; apply Hn.
    + intros v' keys. simpl. destruct (decide (v = v')) as [<-|];
        [rewrite lookup_insert_eq; by intros [= <-]|rewrite lookup_insert_ne by done; apply Hne].
    + intros Hun' v'. rewrite lookup_insert_bucket. destruct (decide (v = v')) as [<-|]; by apply Hu.
  - split; [|done]. set (keys := if decide (k ∈ lookup v i) then lookup v i else lookup v i ++ [k]).
    assert (∀ k', k' ∈ keys ↔ k' = k ∨ k' ∈ lookup v i) as Hkeys.
    { intros k'. subst keys. destruct (decide (k ∈ lookup v i)); [set_solver|].
      rewrite elem_of_app, list_elem_of_singleton. tauto. }
    assert (NoDup keys) as Hnk.
    { subst keys. destruct (decide (k ∈ lookup v i)); [done|]. apply NoDup_app.
      split_and!; [done| |apply NoDup_singleton]. intros x Hx ->%list_elem_of_singleton. done. }
    constructor; cbn [descriptor].
    + intros v' k'. rewrite lookup_insert_bucket, elem_of_union, elem_of_singleton.
      destruct (decide (v = v')) as [<-|Hvne].
      * rewrite Hkeys, Hl. naive_solver.
      * rewrite Hl. naive_solver.
    + intros v'. rewrite lookup_insert_bucket. destruct (decide (v = v')) as [<-|]; [done|apply Hn].
    + intros v' ks. simpl. destruct (decide (v = v')) as [<-|].
      * rewrite lookup_insert_eq. intros [= <-] Hnil.
        assert (k ∈ keys) as Hin by (apply Hkeys; by left). rewrite Hnil in Hin.
        by apply elem_of_nil in Hin.
      * rewrite lookup_insert_ne by done. apply Hne.
    + intros Hun v'. rewrite lookup_insert_bucket. destruct (decide (v = v')) as [<-|]; [|by apply Hu].
      rewrite Hun in Hc. simpl in Hc. destruct (bool_decide_reflect (lookup v i = [])) as [Hnil|]; [|done].
      subst keys. rewrite Hnil. destruct (decide (k ∈ [])); simpl; lia.
Qed.

Lemma remove_represents v k i rel :
  represents i rel → represents (remove v k i) (rel ∖ {[(v, k)]}).
Proof.
  intros [Hl Hn Hne Hu].
  assert (∀ v', lookup v' (remove v k i)
    = if decide (v = v') then filter (fun x => x ≠ k) (lookup v i) else lookup v' i) as Hlook.
  { intros v'. unfold remove, lookup.
    destruct (tree i !! v) as [keys|] eqn:Hv.
    - simpl. destruct (filter (fun x => x ≠ k) keys) as [|a l] eqn:Hf; simpl;
        destruct (decide (v = v')) as [<-|].
      + by rewrite lookup_delete_eq.
      + by rewrite lookup_delete_ne.
      + by rewrite lookup_insert_eq.
      + by rewrite lookup_insert_ne.
    - simpl. destruct (decide (v = v')) as [<-|]; [|done]. rewrite Hv. done. }
  assert (descriptor (remove v k i) = descriptor i) as Hd.
  { unfold remove. by repeat case_match. }
  constructor.
  - intros v' k'. rewrite Hlook, elem_of_difference, elem_of_singleton.
    destruct (decide (v = v')) as [<-|Hvne].
    + rewrite list_elem_of_filter, Hl. naive_solver.
    + rewrite Hl. naive_solver.
  - intros v'. rewrite Hlook. destruct (decide (v = v')); [apply NoDup_filter, Hn|apply Hn].
  - intros v' keys. unfold remove. destruct (tree i !! v) as [ks|] eqn:Hv; [|apply Hne].
    destruct (filter (fun x => x ≠ k) ks) as [|a l]; simpl.
    + intros [_ Hk]%lookup_delete_Some. by eapply Hne.
    + destruct (decide (v = v')) as [<-|]; [rewrite lookup_insert_eq; by intros [= <-]|].
      rewrite lookup_insert_ne by done. apply Hne.
  - rewrite Hd. intros Hun v'. rewrite Hlook. destruct (decide (v = v')); [|by apply Hu].
    etransitivity; [apply length_filter|by apply Hu].
Qed.

Lemma index_step_represents o i rel :
  represents i rel → represents (index_step i o) (rel_step (unique (descriptor i)) rel o).
Proof.
  destruct o as [v k|v k]; intros Hr; [by apply insert_represents|by apply remove_represents].
Qed.

Lemma index_step_descriptor o i : descriptor (index_step i o) = descriptor i.
Proof.
  destruct o as [v k|v k]; cbn [index_step].
  - unfold insert. by destruct (_ && _).
  - unfold remove. by repeat case_match.
Qed.

Lemma index_run_represents d ops :
  let i := fold_left index_step ops (new d) in
  descriptor i = d ∧ represents i (fold_left (rel_step (unique d)) ops ∅).
Proof.
  cbv zeta. induction ops as [|o ops [Hd Hr]] using rev_ind.
  - split; [done|]. constructor; simpl.
    + intros v k. unfold lookup. simpl. rewrite lookup_empty. simpl.
      split; [by intros ?%elem_of_nil|by intros ?%elem_of_empty].
    + intros v. apply NoDup_nil_2.
    + intros v keys. simpl. by rewrite lookup_empty.
    + intros _ v. unfold lookup. simpl. rewrite lookup_empty. simpl. lia.
  - rewrite !fold_left_app. cbn [fold_left]. rewrite index_step_descriptor. split; [done|].
    rewrite <- Hd at 2. by apply index_step_represents.
Qed.

Lemma elem_of_sorted_values v m : v ∈ sorted_values m ↔ is_Some (m !! v).
Proof.
  unfold sorted_values. rewrite merge_sort_Permutation, list_elem_of_fmap. split.
  - intros ([v' ks] & -> & Hin%elem_of_map_to_list). by eexists.
  - intros [ks Hks]. exists (v, ks). split; [done|]. by apply elem_of_map_to_list.
Qed.

(** ** Properties *)

(** An index is a relation.  After any sequence of inserts and removes, a
    lookup lists without duplicates exactly the row keys currently related to
    the value; a unique index relates each value to at most one key, and an
    insert fails exactly when it would break that. *)
Theorem index_refines_relation (d : IndexDescriptor) (ops : list index_op) (v k : string) :
  let i := fold_left index_step ops (new d) in
  let rel := fold_left (rel_step (unique d)) ops ∅ in
  (∀ k', k' ∈ lookup v i ↔ (v, k') ∈ rel) ∧ NoDup (lookup v i) ∧
  (unique d = true → (length (lookup v i) <= 1)%nat) ∧
  is_ok (insert v k i).1 = negb (spec_rejects (unique d) v rel).
Proof.
  cbv zeta. destruct (index_run_represents d ops) as [Hd Hr].
  pose proof (proj2 (insert_represents v k _ _ Hr)) as Hins. rewrite Hd in Hins.
  destruct Hr as [Hl Hn Hne Hu]. rewrite Hd in Hu. split_and!; auto.
Qed.

(** Range scans.  For [start <= end] a range scan lists, in increasing order
    of value, exactly the values in the closed range that some row has, each with
    its row keys; a reversed range panics. *)
Theorem range_scan_sorted_complete (d : IndexDescriptor) (ops : list index_op) (s e : string) :
  let i := fold_left index_step ops (new d) in
  let rel := fold_left (rel_step (unique d)) ops ∅ in
  (¬ String.le s e → range_scan s e i = None) ∧
  (String.le s e → ∃ rows, range_scan s e i = Some rows ∧
     StronglySorted String.le (map fst rows) ∧ NoDup (map fst rows) ∧
     ∀ v keys, (v, keys) ∈ rows ↔
       String.le s v ∧ String.le v e ∧ keys = lookup v i ∧ ∃ k, (v, k) ∈ rel).
Proof.
  cbv zeta. destruct (index_run_represents d ops) as [_ [Hl Hn Hne _]].
  set (i := fold_left index_step ops (new d)) in *. unfold range_scan. split.
  { intros Hno. by rewrite decide_False. }
  intros Hle. rewrite decide_True by done. eexists. split; [done|].
  assert (map fst (map (fun v => (v, lookup v i))
      (filter (fun v => in_range s e v) (sorted_values (tree i))))
    = filter (fun v => in_range s e v) (sorted_values (tree i))) as ->.
  { rewrite map_map. apply map_id. }
  split_and!.
  - apply sorted_filter, (StronglySorted_merge_sort String.le).
  - apply NoDup_filter. unfold sorted_values. rewrite merge_sort_Permutation.
    apply NoDup_fst_map_to_list.
  - intros v keys. rewrite list_elem_of_fmap. split.
    + intros (v' & [= -> ->] & [[Hs He] Hin]%list_elem_of_filter). split_and!; [done|done|done|].
      apply elem_of_sorted_values in Hin as [ks Hks].
      destruct ks as [|k ks]; [by apply Hne in Hks|]. exists k. apply Hl.
      unfold lookup. rewrite Hks. by left.
    + intros (Hs & He & -> & k & Hk). exists v. split; [done|]. apply list_elem_of_filter.
      split; [done|]. apply elem_of_sorted_values. apply Hl in Hk. unfold lookup in Hk.
      destruct (tree i !! v) as [ks|]; [by eexists|]. by apply elem_of_nil in Hk.
Qed.
