(* ===== verification/SqlKind.v ===== *)
(** * Statement classification and savepoints
      ([crates/voltnuerongrid-sql/src/lib.rs], [handlers/sql.rs])

    [SqlAnalyzer::classify_statement] on the text of a statement, and
    [effective_statements_after_savepoints], which decides which statements of
    a transaction batch are flushed at COMMIT. *)

From S2P Require Import Prelude Str Wal.
From Stdlib Require Import Ascii.
Open Scope string_scope.
Open Scope list_scope.

Module SqlKind.

(** ** Text helpers of the standard library *)

(** The token up to the first separator of [ps], and the text after it. *)
Fixpoint take_token (ps : list string) (s : string) : string * string :=
  match Str.strip_any ps s with
  | Some r => ("", r)
  | None =>
      match s with
      | EmptyString => ("", "")
      | String c s' => let '(t, r) := take_token ps s' in (String c t, r)
      end
  end.

(** Non-empty pieces between separators; there are at most as many as bytes. *)
Fixpoint tokens (fuel : nat) (ps : list string) (s : string) : list string :=
  match fuel with
  | O => []
  | S fuel' =>
      match Str.strip_all (String.length s) ps s with
      | EmptyString => []
      | s' => let '(t, r) := take_token ps s' in t :: tokens fuel' ps r
      end
  end.

(** [str::split_whitespace] *)
Definition split_whitespace (s : string) : list string :=
  tokens (String.length s) Str.whitespace s.

(** [str::split_ascii_whitespace]: space, tab, line feed, form feed, return. *)
Definition split_ascii_whitespace (s : string) : list string :=
  tokens (String.length s) (map Str.of_bytes [[32]; [9]; [10]; [12]; [13]]%N) s.

Definition ascii_lower (c : ascii) : ascii :=
  let n := N_of_ascii c in
  if ((65 <=? n) && (n <=? 90))%N then ascii_of_N (n + 32) else c.

Fixpoint to_ascii_lowercase (s : string) : string :=
  match s with
  | EmptyString => EmptyString
  | String c s' => String (ascii_lower c) (to_ascii_lowercase s')
  end.

Definition eq_ignore_ascii_case (a b : string) : bool :=
  String.eqb (to_ascii_lowercase a) (to_ascii_lowercase b).

(** ** [SqlAnalyzer] *)

Inductive SqlStatementKind :=
| Select | Insert | Update | Delete
| CreateTable | CreateView | CreateMaterializedView | CreateFunction | CreateTrigger
| CreateEvent | AlterTable | CreateIndex | DropIndex | DropTable | DropView
| DropFunction | DropTrigger | DropEvent
| Begin | Commit | Rollback
| Savepoint | ReleaseSavepoint | RollbackToSavepoint
| Grant | Revoke | CreateRole | DropRole
| CreateDatabase | DropDatabase | CreateSchema | DropSchema
| Unknown.

#[export] Instance kind_eq_dec : EqDecision SqlStatementKind.
Proof. solve_decision. Defined.

Definition BOM : string := Str.of_bytes [239; 187; 191]%N.

(** The lines of [normalize_sql_for_match] without their comments, joined. *)
Fixpoint strip_comments (ls : list string) : string :=
  match ls with
  | [] => ""
  | l :: ls' =>
      let content := match Str.split_once "--" l with Some (a, _) => a | None => l end in
      if String.eqb (Str.trim content) "" then strip_comments ls'
      else content +:+ " " +:+ strip_comments ls'
  end.

Definition normalize_sql_for_match (sql : string) : string :=
  let stripped := Str.trim (Str.strip_all (String.length sql) [BOM] sql) in
  Str.to_ascii_uppercase (Str.trim (strip_comments (Wal.lines (String.length stripped) stripped))).

Definition classify_statement (sql : string) : SqlStatementKind :=
  let ts := split_whitespace (normalize_sql_for_match sql) in
  let t0 := default "" (ts !! 0%nat) in
  let t1 := default "" (ts !! 1%nat) in
  let t2 := default "" (ts !! 2%nat) in
  if String.eqb t0 "SELECT" then Select
  else if String.eqb t0 "INSERT" then Insert
  else if String.eqb t0 "UPDATE" then Update
  else if String.eqb t0 "DELETE" then Delete
  else if String.eqb t0 "CREATE" && String.eqb t1 "TABLE" then CreateTable
  else if String.eqb t0 "CREATE" && String.eqb t1 "VIEW" then CreateView
  else if String.eqb t0 "CREATE" && String.eqb t1 "MATERIALIZED" && String.eqb t2 "VIEW"
  then CreateMaterializedView
  else if String.eqb t0 "CREATE" && String.eqb t1 "FUNCTION" then CreateFunction
  else if String.eqb t0 "CREATE" && String.eqb t1 "TRIGGER" then CreateTrigger
  else if String.eqb t0 "CREATE" && String.eqb t1 "EVENT" then CreateEvent
  else if String.eqb t0 "ALTER" && String.eqb t1 "TABLE" then AlterTable
  else if String.eqb t0 "CREATE" && String.eqb t1 "INDEX" then CreateIndex
  else if String.eqb t0 "CREATE" && String.eqb t1 "UNIQUE" then CreateIndex
  else if String.eqb t0 "DROP" && String.eqb t1 "INDEX" then DropIndex
  else if String.eqb t0 "DROP" && String.eqb t1 "TABLE" then DropTable
  else if String.eqb t0 "DROP" && String.eqb t1 "VIEW" then DropView
  else if String.eqb t0 "DROP" && String.eqb t1 "FUNCTION" then DropFunction
  else if String.eqb t0 "DROP" && String.eqb t1 "TRIGGER" then DropTrigger
  else if String.eqb t0 "DROP" && String.eqb t1 "EVENT" then DropEvent
  else if String.eqb t0 "BEGIN" then Begin
  else if String.eqb t0 "COMMIT" then Commit
  else if String.eqb t0 "ROLLBACK" && String.eqb t1 "TO" then RollbackToSavepoint
  else if String.eqb t0 "ROLLBACK" then Rollback
  else if String.eqb t0 "SAVEPOINT" then Savepoint
  else if String.eqb t0 "RELEASE" && String.eqb t1 "SAVEPOINT" then ReleaseSavepoint
  else if String.eqb t0 "GRANT" then Grant
  else if String.eqb t0 "REVOKE" then Revoke
  else if String.eqb t0 "CREATE" && String.eqb t1 "ROLE" then CreateRole
  else if String.eqb t0 "DROP" && String.eqb t1 "ROLE" then DropRole
  else if String.eqb t0 "CREATE" && String.eqb t1 "DATABASE" then CreateDatabase
  else if String.eqb t0 "DROP" && String.eqb t1 "DATABASE" then DropDatabase
  else if String.eqb t0 "CREATE" && String.eqb t1 "SCHEMA" then CreateSchema
  else if String.eqb t0 "DROP" && String.eqb t1 "SCHEMA" then DropSchema
  else Unknown.

Example classify_ex :
  classify_statement ("-- note" +:+ Str.LF +:+ " rollback to savepoint A") = RollbackToSavepoint.
Proof. vm_compute. reflexivity. Qed.

(** ** Savepoints *)

(** [savepoints.iter().rposition(|(n, _)| n == name)] *)
Fixpoint rposition {A} (p : A -> bool) (l : list A) : option nat :=
  match l with
  | [] => None
  | x :: l' =>
      match rposition p l' with
      | Some i => Some (S i)
      | None => if p x then Some O else None
      end
  end.

(** The savepoint named by SAVEPOINT / RELEASE SAVEPOINT / ROLLBACK TO. *)
Definition savepoint_name (stmt : string) : option string := split_ascii_whitespace stmt !! 1%nat.

Definition release_name (stmt : string) : option string := split_ascii_whitespace stmt !! 2%nat.

Definition rollback_to_name (stmt : string) : option string :=
  let ts := split_ascii_whitespace stmt in
  if default false ((fun t => eq_ignore_ascii_case t "SAVEPOINT") <$> ts !! 2%nat)
  then ts !! 3%nat else ts !! 2%nat.

Definition named {A} (name : string) (sp : string * A) : bool := String.eqb sp.1 name.

(** One turn of the loop over (applied, savepoints). *)
Definition savepoint_step (stmt : string) (st : list string * list (string * nat))
    : list string * list (string * nat) :=
  let '(applied, savepoints) := st in
  match classify_statement stmt with
  | Savepoint =>
      match savepoint_name stmt with
      | Some name => (applied, savepoints ++ [(to_ascii_lowercase name, length applied)])
      | None => st
      end
  | ReleaseSavepoint =>
      match release_name stmt with
      | Some name =>
          match rposition (named (to_ascii_lowercase name)) savepoints with
          | Some pos => (applied, delete pos savepoints)
          | None => st
          end
      | None => st
      end
  | RollbackToSavepoint =>
      match rollback_to_name stmt with
      | Some name =>
          match rposition (named (to_ascii_lowercase name)) savepoints with
          | Some pos =>
              let marker := default O (snd <$> savepoints !! pos) in
              (take marker applied, take (S pos) savepoints)
          | None => st
          end
      | None => st
      end
  | Begin | Commit | Rollback => st
  | _ => (applied ++ [stmt], savepoints)
  end.

Definition effective_statements_after_savepoints (statements : list string) : list string :=
  (foldl (fun st s => savepoint_step s st) ([], []) statements).1.

(** ** Specification: a savepoint is a copy of the pending work

    The reference interpreter keeps, with every savepoint, the whole list of
    statements that were pending when it was created; ROLLBACK TO restores that
    copy. *)

Definition spec_step (stmt : string) (st : list string * list (string * list string))
    : list string * list (string * list string) :=
  let '(pending, saved) := st in
  match classify_statement stmt with
  | Savepoint =>
      match savepoint_name stmt with
      | Some name => (pending, saved ++ [(to_ascii_lowercase name, pending)])
      | None => st
      end
  | ReleaseSavepoint =>
      match release_name stmt with
      | Some name =>
          match rposition (named (to_ascii_lowercase name)) saved with
          | Some pos => (pending, delete pos saved)
          | None => st
          end
      | None => st
      end
  | RollbackToSavepoint =>
      match rollback_to_name stmt with
      | Some name =>
          match rposition (named (to_ascii_lowercase name)) saved with
          | Some pos => (default [] (snd <$> saved !! pos), take (S pos) saved)
          | None => st
          end
      | None => st
      end
  | Begin | Commit | Rollback => st
  | _ => (pending ++ [stmt], saved)
  end.

(** ** Simulation *)

Section Simulation.

Lemma rposition_map {A B} (f : A -> B) (p : B -> bool) (l : list A) :
  rposition p (map f l) = rposition (fun x => p (f x)) l.
Proof. induction l as [|x l IH]; simpl; [done|]. by rewrite IH. Qed.

Lemma rposition_lt {A} (p : A -> bool) (l : list A) i :
  rposition p l = Some i → (i < length l)%nat ∧ ∃ x, l !! i = Some x ∧ p x = true.
Proof.
  revert i. induction l as [|x l IH]; simpl; intros i Hi; [done|].
  destruct (rposition p l) as [j|] eqn:E; simplify_eq.
  - destruct (IH j) as (Hl & y & Hy & Hp); [done|]. split; [lia|]. by exists y.
  - destruct (p x) eqn:Hp; simplify_eq. split; [lia|]. by exists x.
Qed.

(** A saved copy and the length the code keeps instead. *)
Definition mark_of (sp : string * list string) : string * nat := (sp.1, length sp.2).

(** Copies are prefixes of the pending work and of every later copy. *)
Definition nested (pending : list string) (saved : list (string * list string)) : Prop :=
  StronglySorted (fun a b => a.2 `prefix_of` b.2) saved ∧
  ∀ sp, sp ∈ saved → sp.2 `prefix_of` pending.

Lemma rposition_mark name saved :
  rposition (named name) (map mark_of saved) = rposition (named name) saved.
Proof. rewrite rposition_map. by induction saved as [|x l IH]; simpl; rewrite ?IH. Qed.

Lemma nested_snoc pending saved name :
  nested pending saved → nested pending (saved ++ [(name, pending)]).
Proof.
  intros [Hs Hp]. split.
  - apply StronglySorted_app. split_and!; [|done|repeat constructor].
    intros x y Hx Hy%list_elem_of_singleton. subst y. by apply Hp.
  - intros sp [?|Hx%list_elem_of_singleton]%elem_of_app; [by apply Hp|by subst].
Qed.

Lemma sorted_sublist {A} (R : A -> A -> Prop) (l k : list A) :
  l `sublist_of` k → StronglySorted R k → StronglySorted R l.
Proof.
  induction 1 as [|x l k Hl IH|x l k Hl IH]; intros Hs; [done| |].
  - apply StronglySorted_inv in Hs as [Hs Hx]. constructor; [by apply IH|].
    rewrite Forall_forall in Hx |- *. intros y Hy. apply Hx. by eapply elem_of_sublist.
  - apply StronglySorted_inv in Hs as [Hs _]. by apply IH.
Qed.

Lemma nested_sublist pending saved saved' :
  saved' `sublist_of` saved → nested pending saved → nested pending saved'.
Proof.
  intros Hsub [Hs Hp]. split; [by eapply sorted_sublist|].
  intros sp Hsp. apply Hp. by eapply elem_of_sublist.
Qed.

Lemma nested_app pending saved s : nested pending saved → nested (pending ++ [s]) saved.
Proof. intros [Hs Hp]. split; [done|]. intros sp Hsp. by apply prefix_app_r, Hp. Qed.

(** Restoring copy [i] leaves the copies up to [i] nested in it. *)
Lemma nested_take pending saved i sp :
  nested pending saved → saved !! i = Some sp → nested sp.2 (take (S i) saved).
Proof.
  intros [Hs Hp] Hi. split; [eapply sorted_sublist; [|done]; apply sublist_take|].
  intros sp'. rewrite (take_S_r _ _ _ Hi), elem_of_app.
  intros [Hsp'|Hx%list_elem_of_singleton]; [|by subst].
  rewrite <- (take_drop i saved) in Hs. eapply StronglySorted_app_1_elem_of in Hs; [done..|].
  rewrite (drop_S _ _ _ Hi). by left.
Qed.

Definition related (st : list string * list (string * nat))
    (sp : list string * list (string * list string)) : Prop :=
  st.1 = sp.1 ∧ st.2 = map mark_of sp.2 ∧ nested sp.1 sp.2.

Lemma savepoint_step_sim stmt st sp :
  related st sp → related (savepoint_step stmt st) (spec_step stmt sp).
Proof.
  destruct st as [applied marks], sp as [pending saved]. intros (Ha & Hm & Hn).
  simpl in Ha, Hm, Hn. subst applied marks. unfold savepoint_step, spec_step.
  destruct (classify_statement stmt); try by (split_and!; [done..|by apply nested_app]).
  1-3: by split_and!.
  - destruct (savepoint_name stmt); [|by split_and!].
    split_and!; [done| |by apply nested_snoc]. simpl. by rewrite map_app.
  - destruct (release_name stmt); [|by split_and!]. rewrite rposition_mark.
    destruct (rposition _ saved) as [pos|]; [|by split_and!].
    split_and!; [done| |eapply nested_sublist; [apply sublist_delete|done]].
    simpl. apply list_eq. intros i. rewrite list_lookup_fmap.
    destruct (decide (i < pos)%nat).
    + by rewrite !list_lookup_delete_lt, list_lookup_fmap by done.
    + by rewrite !list_lookup_delete_ge, list_lookup_fmap by lia.
  - destruct (rollback_to_name stmt); [|by split_and!]. rewrite rposition_mark.
    destruct (rposition _ saved) as [pos|] eqn:Hpos; [|by split_and!].
    apply rposition_lt in Hpos as (_ & sp & Hsp & _).
    rewrite list_lookup_fmap, Hsp. simpl. pose proof (nested_take _ _ _ _ Hn Hsp) as Hn'.
    split_and!; simpl; [|by rewrite <- firstn_map|done].
    destruct Hn as [_ Hp]. destruct (Hp sp) as [k ->]; [by eapply list_elem_of_lookup_2|].
    by rewrite take_app_length.
Qed.

Lemma fold_related stmts st sp :
  related st sp →
  related (foldl (fun st s => savepoint_step s st) st stmts)
          (foldl (fun st s => spec_step s st) sp stmts).
Proof.
  revert st sp. induction stmts as [|s stmts IH]; intros st sp H; [done|].
  simpl. by apply IH, savepoint_step_sim.
Qed.

End Simulation.

End SqlKind.

Import SqlKind.

(** Savepoints.  The statements flushed at COMMIT are those of the reference
    interpreter, in which a savepoint stores a full copy of the pending work and
    ROLLBACK TO restores the copy of the latest savepoint of that name: keeping
    only lengths and truncating loses nothing, for nested, repeated, released
    and unknown savepoint names alike. *)
Theorem savepoint_rollback_restores (statements : list string) :
  effective_statements_after_savepoints statements =
  (foldl (fun st s => spec_step s st) ([], []) statements).1.
Proof.
  destruct (fold_related statements ([], []) ([], [])) as [H _]; [|done].
  split_and!; [done..|]. split; [constructor|]. intros sp Hsp. by apply not_elem_of_nil in Hsp.
Qed.

Example savepoint_ex :
  effective_statements_after_savepoints
    ["BEGIN"; "insert 1"; "SAVEPOINT a"; "insert 2"; "savepoint B"; "insert 3";
     "ROLLBACK TO SAVEPOINT A"; "insert 4"; "rollback to b"; "COMMIT"]
  = ["insert 1"; "insert 4"].
Proof. vm_compute. reflexivity. Qed.
