(* ===== verification/AcidTx.v ===== *)
(** * Transaction registry and commit validation
      ([services/voltnuerongridd/src/main.rs], [handlers/sql.rs],
       [helpers/execution.rs], [helpers/raft_loop.rs])

    [AcidTransactionRegistry] with all its operations, the part of the
    [sql_transaction] handler that drives it (begin, statements, the conflict
    checks of COMMIT, rollback), and the persistence of committed write sets
    across restarts.  The order in which a [HashMap] or [HashSet] is iterated is
    unspecified in Rust: it is an argument here, the class [HashOrder]. *)

From S2P Require Import Prelude Str Decimal Mvcc Wal SqlKind.
Open Scope string_scope.
Open Scope list_scope.
Open Scope N_scope.

Module AcidTx.

Import SqlKind.

(** ** State *)

Inductive AcidTxState := Active | Committed | RolledBack | Failed.

#[export] Instance state_eq_dec : EqDecision AcidTxState.
Proof. solve_decision. Defined.

Record AcidTxEntry := mkTx {
  transaction_id : string;
  assigned_node_id : string;
  state : AcidTxState;
  isolation_level : string;
  started_at_unix_ms : N;
  completed_at_unix_ms : option N;
  statement_count : N;
  affected_tables : list string;
  savepoints : list string;
  read_snapshot_at_ms : option N;
  wal_log : list (string * string);
  row_store_snapshot : option N;
  written_row_keys : gset string;
  read_row_keys : gset string;
}.

(** [AcidTransactionRegistry.transactions] *)
Abbreviation Registry := (gmap string AcidTxEntry).

(** Iteration order of the hash containers. *)
Class HashOrder := {
  iter_txs : Registry -> list (string * AcidTxEntry);
  iter_keys : gset string -> list string;
  iter_txs_perm : ∀ m, iter_txs m ≡ₚ map_to_list m;
  iter_keys_perm : ∀ s, iter_keys s ≡ₚ elements s;
}.

(** Field updates. *)
Definition finish (st : AcidTxState) (now : N) (e : AcidTxEntry) : AcidTxEntry :=
  mkTx (transaction_id e) (assigned_node_id e) st (isolation_level e) (started_at_unix_ms e)
    (Some now) (statement_count e) (affected_tables e) (savepoints e) (read_snapshot_at_ms e)
    [] (row_store_snapshot e) (written_row_keys e) (read_row_keys e).

Definition set_savepoints (sps : list string) (e : AcidTxEntry) : AcidTxEntry :=
  mkTx (transaction_id e) (assigned_node_id e) (state e) (isolation_level e)
    (started_at_unix_ms e) (completed_at_unix_ms e) (statement_count e) (affected_tables e)
    sps (read_snapshot_at_ms e) (wal_log e) (row_store_snapshot e) (written_row_keys e)
    (read_row_keys e).

Definition set_snapshot (x : option N) (e : AcidTxEntry) : AcidTxEntry :=
  mkTx (transaction_id e) (assigned_node_id e) (state e) (isolation_level e)
    (started_at_unix_ms e) (completed_at_unix_ms e) (statement_count e) (affected_tables e)
    (savepoints e) (read_snapshot_at_ms e) (wal_log e) x (written_row_keys e)
    (read_row_keys e).

Definition set_keys (w r : gset string) (e : AcidTxEntry) : AcidTxEntry :=
  mkTx (transaction_id e) (assigned_node_id e) (state e) (isolation_level e)
    (started_at_unix_ms e) (completed_at_unix_ms e) (statement_count e) (affected_tables e)
    (savepoints e) (read_snapshot_at_ms e) (wal_log e) (row_store_snapshot e) w r.

Definition set_node (node : string) (e : AcidTxEntry) : AcidTxEntry :=
  mkTx (transaction_id e) node (state e) (isolation_level e)
    (started_at_unix_ms e) (completed_at_unix_ms e) (statement_count e) (affected_tables e)
    (savepoints e) (read_snapshot_at_ms e) (wal_log e) (row_store_snapshot e)
    (written_row_keys e) (read_row_keys e).

(** ** Registry operations *)

Definition begin_entry (tx_id node iso : string) (now : N) (snap : option N) : AcidTxEntry :=
  mkTx tx_id node Active iso now None 0 [] []
    (if String.eqb iso "repeatable_read" then Some now else None) []
    (if String.eqb iso "repeatable_read" || String.eqb iso "optimistic" then snap else None)
    ∅ ∅.

Definition begin (tx_id node iso : string) (now : N) (snap : option N) (reg : Registry)
    : Registry :=
  <[tx_id := begin_entry tx_id node iso now snap]> reg.

Definition rr_read_snapshot_xid (tx_id : string) (reg : Registry) : option N :=
  match reg !! tx_id with
  | Some e => if String.eqb (isolation_level e) "repeatable_read" then row_store_snapshot e
              else None
  | None => None
  end.

Definition set_row_store_snapshot (tx_id : string) (x : N) (reg : Registry) : Registry :=
  match reg !! tx_id with
  | Some e => match row_store_snapshot e with
              | None => <[tx_id := set_snapshot (Some x) e]> reg
              | Some _ => reg
              end
  | None => reg
  end.

Definition row_store_snapshot_xid (tx_id : string) (reg : Registry) : option N :=
  match reg !! tx_id with Some e => row_store_snapshot e | None => None end.

(** The guard [if let Some(entry) = get_mut(..) { if entry.state == Active ..}]
    shared by the operations below; [f] is the guarded body. *)
Definition on_active (tx_id : string) (f : AcidTxEntry -> option AcidTxEntry) (reg : Registry)
    : bool * Registry :=
  match reg !! tx_id with
  | Some e =>
      if decide (state e = Active) then
        match f e with Some e' => (true, <[tx_id := e']> reg) | None => (false, reg) end
      else (false, reg)
  | None => (false, reg)
  end.

Definition commit (tx_id : string) (now : N) : Registry -> bool * Registry :=
  on_active tx_id (fun e => Some (finish Committed now e)).

Definition rollback (tx_id : string) (now : N) : Registry -> bool * Registry :=
  on_active tx_id (fun e => Some (finish RolledBack now e)).

Definition add_savepoint (tx_id sp : string) : Registry -> bool * Registry :=
  on_active tx_id (fun e => Some (set_savepoints (savepoints e ++ [sp]) e)).

Definition release_savepoint (tx_id sp : string) : Registry -> bool * Registry :=
  on_active tx_id (fun e =>
    match rposition (String.eqb sp) (savepoints e) with
    | Some pos => Some (set_savepoints (delete pos (savepoints e)) e)
    | None => None
    end).

Definition rollback_to_savepoint (tx_id sp : string) : Registry -> bool * Registry :=
  on_active tx_id (fun e =>
    if decide (sp ∈ savepoints e)
    then Some (set_savepoints (savepoints e ++ ["rolled_back_to:" +:+ sp]) e) else None).

Definition record_statement (tx_id : string) (affected : option string) (reg : Registry)
    : Registry :=
  match reg !! tx_id with
  | Some e =>
      let n := u64_add (statement_count e) 1 in
      let table := default "" affected in
      let tables :=
        if negb (String.eqb table "") && negb (bool_decide (table ∈ affected_tables e))
        then affected_tables e ++ [table] else affected_tables e in
      <[tx_id :=
          mkTx (transaction_id e) (assigned_node_id e) (state e) (isolation_level e)
            (started_at_unix_ms e) (completed_at_unix_ms e) n tables (savepoints e)
            (read_snapshot_at_ms e)
            (wal_log e ++ [("statement_" +:+ Dec.to_string n, table)])
            (row_store_snapshot e) (written_row_keys e) (read_row_keys e)]> reg
  | None => reg
  end.

Definition record_written_row_keys (tx_id : string) (keys : gset string) (reg : Registry)
    : Registry :=
  match reg !! tx_id with
  | Some e => <[tx_id := set_keys (written_row_keys e ∪ keys) (read_row_keys e) e]> reg
  | None => reg
  end.

Definition record_read_row_keys (tx_id : string) (keys : list string) (reg : Registry)
    : Registry :=
  match reg !! tx_id with
  | Some e =>
      if String.eqb (isolation_level e) "serializable" && bool_decide (state e = Active)
      then <[tx_id := set_keys (written_row_keys e) (read_row_keys e ∪ list_to_set keys) e]> reg
      else reg
  | None => reg
  end.

Definition active_transactions `{HashOrder} (reg : Registry) : list AcidTxEntry :=
  filter (fun e => state e = Active) (map snd (iter_txs reg)).

Definition reassign_active_node (source target : string) (reg : Registry) : N * Registry :=
  let moves e := bool_decide (state e = Active) && String.eqb (assigned_node_id e) source in
  (N.of_nat (size (filter (fun kv => moves kv.2 = true) reg)),
   (fun e => if moves e then set_node target e else e) <$> reg).

(** ** Conflict checks *)

Fixpoint find_map {A B} (f : A -> option B) (l : list A) : option B :=
  match l with
  | [] => None
  | x :: l' => match f x with Some y => Some y | None => find_map f l' end
  end.

Definition find_key `{HashOrder} (keys s : gset string) : option string :=
  List.find (fun k => bool_decide (k ∈ s)) (iter_keys keys).

(** The three [continue] guards of the checks. *)
Definition committed_peer (iso current : string) (p : string * AcidTxEntry) : bool :=
  negb (String.eqb p.1 current) && String.eqb (isolation_level p.2) iso
  && bool_decide (state p.2 = Committed).

Definition check_serializable_rw_conflict `{HashOrder} (current : string)
    (written read : gset string) (reg : Registry) : option string :=
  find_map (fun p =>
    if committed_peer "serializable" current p then
      match find_key read (written_row_keys p.2) with
      | Some k => Some k
      | None => find_key written (read_row_keys p.2)
      end
    else None) (iter_txs reg).

(** The loop of the two write-write checks. *)
Definition written_by_peer `{HashOrder} (iso current : string) (written : gset string)
    (reg : Registry) : option string :=
  if decide (written = ∅) then None
  else find_map (fun p =>
         if committed_peer iso current p then find_key written (written_row_keys p.2) else None)
         (iter_txs reg).

Definition check_serializable_conflict_row_level `{HashOrder} (current : string)
    (written : gset string) (reg : Registry) : option string :=
  written_by_peer "serializable" current written reg.

Definition check_optimistic_conflict `{HashOrder} (current : string)
    (written : gset string) (reg : Registry) : option string :=
  written_by_peer "optimistic" current written reg.

(** [helpers/execution.rs]; the write-write loop of the handler is the same. *)
Definition optimistic_version_conflict `{HashOrder} (rs : RowStore.PagedRowStore)
    (written : gset string) (begin_snapshot : N) : option string :=
  List.find (fun k => RowStore.was_modified_after k begin_snapshot rs) (iter_keys written).

(** ** The COMMIT path of [sql_transaction] *)

Inductive CommitError :=
| OptimisticVersionConflict (key : string)
| SerializableWriteConflict (key : string)
| SerializablePhantomConflict (key : string)
| WriteWriteConflict (key : string).

(** The checks in the handler's order; the first hit decides the reply. *)
Definition commit_conflict `{HashOrder} (iso tx_id : string) (written : gset string)
    (rs : RowStore.PagedRowStore) (reg : Registry) : option CommitError :=
  let snapshot := default 0 (row_store_snapshot_xid tx_id reg) in
  let optimistic :=
    if String.eqb iso "optimistic" then
      match optimistic_version_conflict rs written snapshot with
      | Some k => Some k
      | None => check_optimistic_conflict tx_id written reg
      end
    else None in
  match optimistic with
  | Some k => Some (OptimisticVersionConflict k)
  | None =>
  match check_serializable_conflict_row_level tx_id written reg with
  | Some k => Some (SerializableWriteConflict k)
  | None =>
  let read := match reg !! tx_id with Some e => read_row_keys e | None => ∅ end in
  match check_serializable_rw_conflict tx_id written read reg with
  | Some k => Some (SerializablePhantomConflict k)
  | None =>
  match List.find (fun k => RowStore.was_modified_after k snapshot rs) (iter_keys written) with
  | Some k => Some (WriteWriteConflict k)
  | None => None
  end end end end.

Definition commit_path `{HashOrder} (iso tx_id : string) (now : N) (written : gset string)
    (rs : RowStore.PagedRowStore) (reg : Registry) : result unit CommitError * Registry :=
  match commit_conflict iso tx_id written rs reg with
  | Some e => (Err e, (rollback tx_id now reg).2)
  | None => (Ok tt, (commit tx_id now (record_written_row_keys tx_id written reg)).2)
  end.

(** ** The registry part of [sql_transaction] *)

Definition db_prefix_key (db raw_key : string) : string :=
  if String.eqb db "" then raw_key else db +:+ "." +:+ raw_key.

(** [t.trim_end_matches(|c| c == '(' || c == ' ')] *)
Definition trim_table (t : string) : string :=
  Str.reverse_str (Str.strip_all (String.length t) ["("; " "] (Str.reverse_str t)).

Definition affected_table (stmt : string) : option string :=
  let upper := Str.to_ascii_uppercase stmt in
  if Str.starts_with "UPDATE " upper then trim_table <$> split_ascii_whitespace stmt !! 1%nat
  else if Str.starts_with "INSERT INTO " upper || Str.starts_with "DELETE FROM " upper
  then trim_table <$> split_ascii_whitespace stmt !! 2%nat
  else None.

(** The savepoint bookkeeping of one turn of the statement loop. *)
Definition tx_savepoint_op (tx_id stmt : string) (reg : Registry) : Registry :=
  match classify_statement stmt with
  | Savepoint => match savepoint_name stmt with
                 | Some sp => (add_savepoint tx_id sp reg).2 | None => reg end
  | ReleaseSavepoint => match release_name stmt with
                        | Some sp => (release_savepoint tx_id sp reg).2 | None => reg end
  | RollbackToSavepoint => match rollback_to_name stmt with
                           | Some sp => (rollback_to_savepoint tx_id sp reg).2 | None => reg end
  | _ => reg
  end.

(** One turn of the statement loop. *)
Definition tx_statement (tx_id stmt : string) (reg : Registry) : Registry :=
  record_statement tx_id (affected_table stmt) (tx_savepoint_op tx_id stmt reg).

Definition has_kind (k : SqlStatementKind) (statements : list string) : bool :=
  existsb (fun s => bool_decide (classify_statement s = k)) statements.

(** BEGIN and the statement loop. *)
Definition tx_prologue (tx_id node iso : string) (now : N) (statements : list string)
    (rs : RowStore.PagedRowStore) (reg : Registry) : Registry :=
  let has_begin := has_kind Begin statements in
  let begin_snapshot_xid :=
    if has_begin && (String.eqb iso "repeatable_read" || String.eqb iso "optimistic")
    then Some (RowStore.current_xid rs) else None in
  let reg1 := if has_begin then begin tx_id node iso now begin_snapshot_xid reg else reg in
  foldl (fun reg stmt => tx_statement tx_id stmt reg) reg1 statements.

Section Handler.

(** The SQL text extractors of [helpers/sql_parse.rs] are arguments. *)
Variable extract_all_insert_rows : string -> list (string * gmap string string).
Variable extract_update_row_from_sql : string -> option (string * gmap string string).
Variable extract_delete_key_from_sql : string -> option string.
Context `{HashOrder}.

Definition statement_keys (stmt : string) : list string :=
  let upper := Str.to_ascii_uppercase (Str.trim_start stmt) in
  if Str.starts_with "INSERT" upper then map fst (extract_all_insert_rows stmt)
  else if Str.starts_with "UPDATE" upper then
    match extract_update_row_from_sql stmt with Some (k, _) => [k] | None => [] end
  else if Str.starts_with "DELETE" upper then
    match extract_delete_key_from_sql stmt with Some k => [k] | None => [] end
  else [].

Definition commit_write_keys (db : string) (effective : list string) : gset string :=
  list_to_set (map (db_prefix_key db) (concat (map statement_keys effective))).

(** The handler's effect on the registry and its reply; the flush of the
    accepted writes into the row store follows in the source. *)
Definition sql_transaction (tx_id node : string) (requested : option string) (db : string)
    (now : N) (statements : list string) (rs : RowStore.PagedRowStore) (reg : Registry)
    : result unit CommitError * Registry :=
  let iso := default "read_committed" requested in
  let reg1 := tx_prologue tx_id node iso now statements rs reg in
  if has_kind Commit statements then
    let keys := commit_write_keys db (effective_statements_after_savepoints statements) in
    match commit_path iso tx_id now keys rs reg1 with
    | (Err e, reg2) => (Err e, reg2)
    | (Ok _, reg2) =>
        (Ok tt, set_row_store_snapshot tx_id (RowStore.current_xid rs) reg2)
    end
  else if has_kind Rollback statements then (Ok tt, (rollback tx_id now reg1).2)
  else (Ok tt, reg1).

End Handler.

(** ** Committed write sets across restarts *)

Record PersistedWriteSet := mkWriteSet {
  pw_tx_id : string;
  pw_written_keys : list string;
  pw_read_keys : list string;
  pw_committed_at_ms : N;
}.

Definition MAX_PERSISTED_WRITE_SETS : nat := 1000.

Section Persist.
Context `{HashOrder}.

Definition persisted (e : AcidTxEntry) : bool :=
  String.eqb (isolation_level e) "serializable" && bool_decide (state e = Committed)
  && negb (bool_decide (written_row_keys e = ∅)).

Definition write_set_of (e : AcidTxEntry) : PersistedWriteSet :=
  mkWriteSet (transaction_id e) (iter_keys (written_row_keys e)) (iter_keys (read_row_keys e))
    (default 0 (completed_at_unix_ms e)).

Definition write_sets (reg : Registry) : list PersistedWriteSet :=
  let entries :=
    sort_by_key pw_committed_at_ms
      (map write_set_of (filter (fun e => persisted e = true) (map snd (iter_txs reg)))) in
  if (MAX_PERSISTED_WRITE_SETS <? length entries)%nat
  then drop (length entries - MAX_PERSISTED_WRITE_SETS) entries else entries.

(** The contents of [acid_write_sets.json] after the call. *)
Definition persist_committed_write_sets (fs_ok : bool) (data_dir : string) (reg : Registry)
    (file : option (list PersistedWriteSet)) : option (list PersistedWriteSet) :=
  if String.eqb data_dir "" then file
  else if fs_ok then Some (write_sets reg) else file.

End Persist.

Definition load_committed_write_sets (data_dir : string)
    (file : option (list PersistedWriteSet)) : list PersistedWriteSet :=
  if String.eqb data_dir "" then [] else default [] file.

Definition restored_entry (p : PersistedWriteSet) : AcidTxEntry :=
  mkTx (pw_tx_id p) "restored" Committed "serializable" (pw_committed_at_ms p)
    (Some (pw_committed_at_ms p)) 0 [] [] None [] None
    (list_to_set (pw_written_keys p)) (list_to_set (pw_read_keys p)).

Definition restore_write_sets (sets : list PersistedWriteSet) (reg : Registry) : Registry :=
  foldl (fun reg p => <[pw_tx_id p := restored_entry p]> reg) reg sets.

End AcidTx.
