(* ===== verification/AcidTxProps.v ===== *)
(** * Properties of the transaction registry

    Exactness of the commit validation for every hash order, the registry as a
    state machine (its reachable states, restarts included), and what survives
    a restart. *)

From S2P Require Import Prelude Str Decimal Mvcc Wal SqlKind AcidTx.
Open Scope string_scope.
Open Scope list_scope.
Open Scope N_scope.

Import AcidTx.

(** ** Checks *)

Section Checks.
Context `{HashOrder}.

Lemma find_map_None {A B} (f : A -> option B) l :
  find_map f l = None ↔ ∀ x, x ∈ l → f x = None.
Proof.
  induction l as [|x l IH]; simpl; [set_solver|]. destruct (f x) eqn:E.
  - split; [done|]. intros Hall. rewrite (Hall x) in E; [done|by left].
  - rewrite IH. set_solver.
Qed.

Lemma find_map_Some {A B} (f : A -> option B) l y :
  find_map f l = Some y → ∃ x, x ∈ l ∧ f x = Some y.
Proof.
  induction l as [|x l IH]; simpl; [done|]. destruct (f x) eqn:E; intros Hy.
  - exists x. split; [by left|congruence].
  - destruct (IH Hy) as (x' & Hx' & Hf). exists x'. split; [by right|done].
Qed.

Lemma find_None {A} (p : A -> bool) l : List.find p l = None ↔ ∀ x, x ∈ l → p x = false.
Proof.
  split.
  - intros Hn x Hx%list_elem_of_In. by apply (List.find_none p l).
  - intros Hall. destruct (List.find p l) as [x|] eqn:E; [|done].
    apply List.find_some in E as [Hx%list_elem_of_In Hp]. by rewrite Hall in Hp.
Qed.

Lemma elem_of_iter_keys k (s : gset string) : k ∈ iter_keys s ↔ k ∈ s.
Proof. rewrite iter_keys_perm. apply elem_of_elements. Qed.

Lemma elem_of_iter_txs id e (reg : Registry) : (id, e) ∈ iter_txs reg ↔ reg !! id = Some e.
Proof. rewrite iter_txs_perm. apply elem_of_map_to_list. Qed.

Lemma find_key_None keys s : find_key keys s = None ↔ keys ## s.
Proof.
  unfold find_key. rewrite find_None. setoid_rewrite elem_of_iter_keys.
  setoid_rewrite bool_decide_eq_false. set_solver.
Qed.

Lemma find_key_Some keys s k : find_key keys s = Some k → k ∈ keys ∧ k ∈ s.
Proof.
  intros [Hk%list_elem_of_In Hs]%List.find_some.
  by rewrite elem_of_iter_keys in Hk; apply bool_decide_eq_true in Hs.
Qed.

(** [id] is a committed transaction of level [iso] other than [current]. *)
Definition peer (iso current : string) (reg : Registry) (id : string) (e : AcidTxEntry) : Prop :=
  reg !! id = Some e ∧ id ≠ current ∧ isolation_level e = iso ∧ state e = Committed.

Lemma committed_peer_spec iso current id e :
  committed_peer iso current (id, e) = true ↔
  id ≠ current ∧ isolation_level e = iso ∧ state e = Committed.
Proof.
  unfold committed_peer. simpl.
  rewrite !andb_true_iff, negb_true_iff, String.eqb_neq, String.eqb_eq, bool_decide_eq_true.
  tauto.
Qed.

(** A scan of the committed peers finds nothing iff no peer gives a hit. *)
Lemma scan_peers_None iso current (reg : Registry) (g : AcidTxEntry -> option string) :
  find_map (fun p => if committed_peer iso current p then g p.2 else None) (iter_txs reg) = None
  ↔ ∀ id e, peer iso current reg id e → g e = None.
Proof.
  rewrite find_map_None. split.
  - intros Hall id e (Hl & Hp). apply elem_of_iter_txs in Hl. specialize (Hall _ Hl).
    apply committed_peer_spec in Hp. by rewrite Hp in Hall.
  - intros Hall [id e] Hin%elem_of_iter_txs. simpl.
    destruct (committed_peer iso current (id, e)) eqn:Hp; [|done].
    apply committed_peer_spec in Hp. by apply (Hall id).
Qed.

Lemma scan_peers_Some iso current (reg : Registry) (g : AcidTxEntry -> option string) k :
  find_map (fun p => if committed_peer iso current p then g p.2 else None) (iter_txs reg) = Some k
  → ∃ id e, peer iso current reg id e ∧ g e = Some k.
Proof.
  intros ([id e] & Hin%elem_of_iter_txs & Hg)%find_map_Some.
  destruct (committed_peer iso current (id, e)) eqn:Hp; [|done].
  apply committed_peer_spec in Hp. exists id, e. by split.
Qed.

Lemma written_by_peer_None iso current W reg :
  written_by_peer iso current W reg = None ↔
  ∀ id e, peer iso current reg id e → W ## written_row_keys e.
Proof.
  unfold written_by_peer. destruct (decide (W = ∅)) as [->|]; [set_solver|].
  rewrite (scan_peers_None iso current reg (fun e => find_key W (written_row_keys e))).
  by setoid_rewrite find_key_None.
Qed.

Lemma written_by_peer_Some iso current W reg k :
  written_by_peer iso current W reg = Some k → k ∈ W.
Proof.
  unfold written_by_peer. destruct (decide (W = ∅)); [done|].
  intros (id & e & _ & Hk)%(scan_peers_Some iso current reg (fun e => find_key W (written_row_keys e))).
  by apply find_key_Some in Hk as [? _].
Qed.

Lemma rw_conflict_None current W R reg :
  check_serializable_rw_conflict current W R reg = None ↔
  ∀ id e, peer "serializable" current reg id e →
    R ## written_row_keys e ∧ W ## read_row_keys e.
Proof.
  unfold check_serializable_rw_conflict.
  rewrite (scan_peers_None "serializable" current reg
    (fun e => match find_key R (written_row_keys e) with
              | Some k => Some k | None => find_key W (read_row_keys e) end)).
  apply forall_proper; intros id. apply forall_proper; intros e.
  rewrite <- !find_key_None. destruct (find_key R (written_row_keys e)); naive_solver.
Qed.

Lemma rw_conflict_Some current W R reg k :
  check_serializable_rw_conflict current W R reg = Some k → k ∈ W ∪ R.
Proof.
  intros (id & e & _ & Hk)%(scan_peers_Some "serializable" current reg
    (fun e => match find_key R (written_row_keys e) with
              | Some k => Some k | None => find_key W (read_row_keys e) end)).
  destruct (find_key R (written_row_keys e)) eqn:E; [|apply find_key_Some in Hk; set_solver].
  simplify_eq. apply find_key_Some in E. set_solver.
Qed.

Lemma modified_None (rs : RowStore.PagedRowStore) (W : gset string) x :
  List.find (fun k => RowStore.was_modified_after k x rs) (iter_keys W) = None ↔
  ∀ k, k ∈ W → RowStore.was_modified_after k x rs = false.
Proof. rewrite find_None. by setoid_rewrite elem_of_iter_keys. Qed.

(** What COMMIT of [W] by [tx] at level [iso] requires. *)
Definition may_commit (iso tx : string) (W : gset string) (rs : RowStore.PagedRowStore)
    (reg : Registry) : Prop :=
  (iso = "optimistic" → ∀ id e, peer "optimistic" tx reg id e → W ## written_row_keys e) ∧
  (∀ id e, peer "serializable" tx reg id e →
     W ## written_row_keys e ∧ W ## read_row_keys e ∧
     default ∅ (read_row_keys <$> reg !! tx) ## written_row_keys e) ∧
  (∀ k, k ∈ W → RowStore.was_modified_after k (default 0 (row_store_snapshot_xid tx reg)) rs = false).

Definition error_key (err : CommitError) : string :=
  match err with
  | OptimisticVersionConflict k | SerializableWriteConflict k
  | SerializablePhantomConflict k | WriteWriteConflict k => k
  end.

Lemma reads_default tx (reg : Registry) :
  match reg !! tx with Some e => read_row_keys e | None => ∅ end
  = default ∅ (read_row_keys <$> reg !! tx).
Proof. by destruct (reg !! tx). Qed.

Lemma commit_conflict_None iso tx W rs reg :
  commit_conflict iso tx W rs reg = None ↔ may_commit iso tx W rs reg.
Proof.
  unfold commit_conflict, may_commit, check_optimistic_conflict,
    check_serializable_conflict_row_level, optimistic_version_conflict. rewrite reads_default.
  rewrite <- (modified_None rs W), <- (written_by_peer_None "optimistic").
  set (m := List.find _ _). set (o := written_by_peer "optimistic" _ _ _).
  transitivity ((iso = "optimistic" → o = None) ∧
    (written_by_peer "serializable" tx W reg = None ∧
     check_serializable_rw_conflict tx W (default ∅ (read_row_keys <$> reg !! tx)) reg = None)
    ∧ m = None).
  - destruct (String.eqb_spec iso "optimistic"), m, o,
      (written_by_peer "serializable" tx W reg),
      (check_serializable_rw_conflict _ _ _ _); naive_solver.
  - rewrite written_by_peer_None, rw_conflict_None. naive_solver.
Qed.

Lemma commit_conflict_key iso tx W rs reg err :
  commit_conflict iso tx W rs reg = Some err →
  error_key err ∈ W ∪ default ∅ (read_row_keys <$> reg !! tx).
Proof.
  assert (Hfind : ∀ x k, List.find (fun k => RowStore.was_modified_after k x rs) (iter_keys W) = Some k
    → k ∈ W).
  { intros x k [Hk%list_elem_of_In _]%List.find_some. by apply elem_of_iter_keys in Hk. }
  unfold commit_conflict, optimistic_version_conflict. rewrite reads_default.
  destruct (String.eqb iso "optimistic").
  1: destruct (List.find _ _) eqn:E1; [intros; simplify_eq; apply Hfind in E1; set_solver|].
  1: destruct (check_optimistic_conflict _ _ _) eqn:E2;
       [intros; simplify_eq; apply written_by_peer_Some in E2; set_solver|].
  all: destruct (check_serializable_conflict_row_level _ _ _) eqn:E3;
       [intros; simplify_eq; apply written_by_peer_Some in E3; set_solver|].
  all: destruct (check_serializable_rw_conflict _ _ _ _) eqn:E4;
       [intros; simplify_eq; by apply rw_conflict_Some in E4|].
  all: destruct (List.find _ _) eqn:E5; [|done]; intros; simplify_eq;
       apply Hfind in E5; set_solver.
Qed.

Lemma commit_path_cases iso tx now W rs reg e :
  reg !! tx = Some e → state e = Active →
  (may_commit iso tx W rs reg ∧
   commit_path iso tx now W rs reg =
     (Ok tt, <[tx := finish Committed now
                       (set_keys (written_row_keys e ∪ W) (read_row_keys e) e)]> reg)) ∨
  (¬ may_commit iso tx W rs reg ∧
   ∃ err, error_key err ∈ W ∪ read_row_keys e ∧
     commit_path iso tx now W rs reg = (Err err, <[tx := finish RolledBack now e]> reg)).
Proof.
  intros He Hact. rewrite <- commit_conflict_None. unfold commit_path.
  destruct (commit_conflict iso tx W rs reg) as [err|] eqn:E; [right|left].
  - split; [done|]. apply commit_conflict_key in E. rewrite He in E. exists err.
    split; [done|]. unfold rollback, on_active. rewrite He. by destruct (decide _).
  - split; [done|]. unfold commit, on_active, record_written_row_keys.
    rewrite He, lookup_insert_eq. simpl. destruct (decide _); [|done].
    by rewrite insert_insert_eq.
Qed.

End Checks.

(** Commit validation.  In whatever order the hash tables are iterated, COMMIT
    of an active transaction succeeds exactly when no committed serializable
    transaction conflicts with its reads or writes, no committed optimistic one
    with its writes (at that level), and no written row changed after its
    snapshot.  Success records the write set and commits; failure names a key of
    the transaction and rolls it back; no other transaction is touched. *)
Theorem commit_validation_exact `{HashOrder} (iso tx : string) (now : N) (W : gset string)
    (rs : RowStore.PagedRowStore) (reg : Registry) (e : AcidTxEntry) :
  reg !! tx = Some e → state e = Active →
  (may_commit iso tx W rs reg ∧
   commit_path iso tx now W rs reg =
     (Ok tt, <[tx := finish Committed now
                       (set_keys (written_row_keys e ∪ W) (read_row_keys e) e)]> reg)) ∨
  (¬ may_commit iso tx W rs reg ∧
   ∃ err, error_key err ∈ W ∪ read_row_keys e ∧
     commit_path iso tx now W rs reg = (Err err, <[tx := finish RolledBack now e]> reg)).
Proof. apply commit_path_cases. Qed.

(** The canonical order, used to evaluate examples. *)
#[export] Instance list_order : HashOrder.
Proof. by refine {| iter_txs := map_to_list; iter_keys := elements |}. Defined.

(** A store whose only row was inserted by transaction 1. *)
Definition demo_store : RowStore.PagedRowStore :=
  RowStore.mkPagedRowStore
    [RowStore.mkStorePage 0 [RowStore.mkMvccRow "orders:1" [RowStore.mkRowVersion 1 false ∅]]]
    4 1 2 ∅ 0.

Lemma commit_validation_exact_witness :
  let reg := <["b" := begin_entry "b" "n" "serializable" 5 None]>
             (<["a" := finish Committed 3 (set_keys {["k"]} ∅ (begin_entry "a" "n" "serializable" 1 None))]> ∅) in
  ∃ err, error_key err ∈ ({["k"]} : gset string) ∪ ∅ ∧
    commit_path "serializable" "b" 9 {["k"]} demo_store reg
    = (Err err, <["b" := finish RolledBack 9 (begin_entry "b" "n" "serializable" 5 None)]> reg).
Proof.
  intros reg.
  destruct (commit_validation_exact "serializable" "b" 9 {["k"]} demo_store reg
    (begin_entry "b" "n" "serializable" 5 None) eq_refl eq_refl) as [[(_ & Hs & _) _]|[_ He]];
    [|exact He].
  exfalso. destruct (Hs "a" (finish Committed 3 (set_keys {["k"]} ∅ (begin_entry "a" "n" "serializable" 1 None))))
    as [Hd _]; [by repeat split|]. simpl in Hd. set_solver.
Defined.

(** ** The registry as a state machine *)

Section Machine.
Context `{HashOrder}.
Variable extract_all_insert_rows : string -> list (string * gmap string string).
Variable extract_update_row_from_sql : string -> option (string * gmap string string).
Variable extract_delete_key_from_sql : string -> option string.

Abbreviation run_transaction := (sql_transaction extract_all_insert_rows
  extract_update_row_from_sql extract_delete_key_from_sql).

(** Everything the server does to the registry: transaction requests and
    implicit transactions of [sql_execute] under fresh ids, reads, commits and
    rollbacks by an administrator or at the end of a batch, node reassignment. *)
Inductive reg_step (reg : Registry) : Registry -> Prop :=
| step_transaction tx node iso db now stmts rs r reg' :
    reg !! tx = None →
    run_transaction tx node iso db now stmts rs reg = (r, reg') → reg_step reg reg'
| step_begin tx node iso now snap :
    reg !! tx = None → reg_step reg (begin tx node iso now snap reg)
| step_read tx keys : reg_step reg (record_read_row_keys tx keys reg)
| step_commit tx now : reg_step reg (commit tx now reg).2
| step_rollback tx now : reg_step reg (rollback tx now reg).2
| step_reassign source target : reg_step reg (reassign_active_node source target reg).2.

(** With the write-set file and restarts. *)
Inductive sys_step : Registry * option (list PersistedWriteSet) ->
                     Registry * option (list PersistedWriteSet) -> Prop :=
| sys_reg reg reg' file : reg_step reg reg' → sys_step (reg, file) (reg', file)
| sys_persist ok dir reg file :
    sys_step (reg, file) (reg, persist_committed_write_sets ok dir reg file)
| sys_restart dir reg file :
    sys_step (reg, file) (restore_write_sets (load_committed_write_sets dir file) ∅, file).

(** *** Invariant *)

Definition entry_wf (id : string) (e : AcidTxEntry) : Prop :=
  transaction_id e = id ∧
  (state e = Active ↔ completed_at_unix_ms e = None) ∧
  (state e ≠ Active → wal_log e = []) ∧
  (state e ≠ Committed → written_row_keys e = ∅) ∧
  state e ≠ Failed.

(** Levels whose committed write sets exclude each other. *)
Definition validated (iso : string) : Prop := iso = "serializable" ∨ iso = "optimistic".

Definition disjoint_commits (reg : Registry) : Prop :=
  ∀ iso id1 id2 e1 e2, validated iso → id1 ≠ id2 →
    reg !! id1 = Some e1 → reg !! id2 = Some e2 →
    isolation_level e1 = iso → isolation_level e2 = iso →
    state e1 = Committed → state e2 = Committed →
    written_row_keys e1 ## written_row_keys e2.

Definition reg_wf (reg : Registry) : Prop :=
  map_Forall entry_wf reg ∧ disjoint_commits reg.

(** Changing one entry keeps the registry well formed if the new entry is and
    conflicts with no committed peer. *)
Lemma reg_wf_insert reg id e :
  reg_wf reg → entry_wf id e →
  (state e = Committed → validated (isolation_level e) →
     ∀ id' e', peer (isolation_level e) id reg id' e' → written_row_keys e ## written_row_keys e') →
  reg_wf (<[id := e]> reg).
Proof.
  intros [Hwf Hd] He Hnew. split; [by apply map_Forall_insert_2|].
  intros iso id1 id2 e1 e2 Hv Hne H1 H2 Hi1 Hi2 Hs1 Hs2.
  apply lookup_insert_Some in H1 as [[-> ->]|[Hn1 H1]],
    H2 as [[-> ->]|[Hn2 H2]]; [done| | |by apply (Hd iso id1 id2)].
  - apply (Hnew Hs1 ltac:(by rewrite Hi1) id2 e2). split_and!; congruence.
  - symmetry. apply (Hnew Hs2 ltac:(by rewrite Hi2) id1 e1). split_and!; congruence.
Qed.

Lemma reg_wf_insert_uncommitted reg id e :
  reg_wf reg → entry_wf id e → state e ≠ Committed → reg_wf (<[id := e]> reg).
Proof. intros Hwf He Hs. apply reg_wf_insert; [done..|]. by intros ?. Qed.

Lemma on_active_spec tx f (reg reg' : Registry) b :
  on_active tx f reg = (b, reg') →
  reg' = reg ∨ ∃ e e', reg !! tx = Some e ∧ state e = Active ∧ f e = Some e' ∧
                        reg' = <[tx := e']> reg.
Proof.
  unfold on_active. destruct (reg !! tx) as [e|] eqn:He; [|intros; simplify_eq; by left].
  destruct (decide (state e = Active)); [|intros; simplify_eq; by left].
  destruct (f e) eqn:Hf; intros; simplify_eq; [right|by left]. by eexists _, _.
Qed.

(** Operations that rewrite one active entry. *)
Lemma on_active_wf tx f reg :
  reg_wf reg →
  (∀ e e', state e = Active → entry_wf tx e → f e = Some e' →
     entry_wf tx e' ∧ written_row_keys e' = ∅) →
  reg_wf (on_active tx f reg).2.
Proof.
  intros Hwf Hf. destruct (on_active tx f reg) as [b reg'] eqn:E.
  apply on_active_spec in E as [->|(e & e' & He & Ha & Hfe & ->)]; [done|].
  destruct (Hf e e') as [Hwf' Hw]; [done|by apply Hwf|done|].
  apply reg_wf_insert; [done..|]. intros _ _ id' e2 _. simpl. rewrite Hw. set_solver.
Qed.

Lemma finish_wf st now tx e :
  state e = Active → entry_wf tx e → st = Committed ∨ st = RolledBack →
  entry_wf tx (finish st now e) ∧ written_row_keys (finish st now e) = ∅.
Proof.
  intros Ha (Hid & Hc & Hl & Hw & Hf) Hst. rewrite Ha in Hw. specialize (Hw ltac:(done)).
  split; [|done]. unfold entry_wf. simpl. split_and!; naive_solver.
Qed.

Lemma set_savepoints_wf sps tx e :
  state e = Active → entry_wf tx e →
  entry_wf tx (set_savepoints sps e) ∧ written_row_keys (set_savepoints sps e) = ∅.
Proof.
  intros Ha Hwf. split; [exact Hwf|]. destruct Hwf as (_ & _ & _ & Hw & _). simpl.
  apply Hw. by rewrite Ha.
Qed.

Lemma commit_wf tx now reg : reg_wf reg → reg_wf (commit tx now reg).2.
Proof. intros Hwf. apply on_active_wf; [done|]. intros; simplify_eq. apply finish_wf; auto. Qed.

Lemma rollback_wf tx now reg : reg_wf reg → reg_wf (rollback tx now reg).2.
Proof. intros Hwf. apply on_active_wf; [done|]. intros; simplify_eq. apply finish_wf; auto. Qed.

Lemma begin_wf tx node iso now snap reg :
  reg_wf reg → reg_wf (begin tx node iso now snap reg).
Proof. intros Hwf. apply reg_wf_insert_uncommitted; [done| |done]. by repeat split. Qed.

(** The fields the invariant is about. *)
Definition same_core (e e' : AcidTxEntry) : Prop :=
  transaction_id e' = transaction_id e ∧ state e' = state e ∧
  completed_at_unix_ms e' = completed_at_unix_ms e ∧ wal_log e' = wal_log e ∧
  written_row_keys e' = written_row_keys e ∧ isolation_level e' = isolation_level e.

Lemma reg_wf_core (reg reg' : Registry) :
  reg_wf reg →
  (∀ id e', reg' !! id = Some e' → ∃ e, reg !! id = Some e ∧ same_core e e') →
  reg_wf reg'.
Proof.
  intros [Hwf Hd] Hcore. split.
  - intros id e' He'. destruct (Hcore id e' He') as (e & He & (Ht & Hs & Hc & Hl & Hw & _)).
    unfold entry_wf. rewrite Ht, Hs, Hc, Hl, Hw. by apply Hwf.
  - intros iso id1 id2 e1' e2' Hv Hne H1 H2 Hi1 Hi2 Hs1 Hs2.
    destruct (Hcore id1 e1' H1) as (e1 & He1 & (_ & Hs1' & _ & _ & Hw1 & Hi1')).
    destruct (Hcore id2 e2' H2) as (e2 & He2 & (_ & Hs2' & _ & _ & Hw2 & Hi2')).
    rewrite Hw1, Hw2. apply (Hd iso id1 id2); congruence.
Qed.

Lemma same_core_refl e : same_core e e.
Proof. by repeat split. Qed.

Lemma reg_wf_update reg id e e' :
  reg_wf reg → reg !! id = Some e → same_core e e' → reg_wf (<[id := e']> reg).
Proof.
  intros Hwf He Hcore. apply (reg_wf_core reg); [done|]. intros id' e2 H2.
  apply lookup_insert_Some in H2 as [[<- <-]|[_ H2]]; [by exists e|].
  exists e2. split; [done|apply same_core_refl].
Qed.

Lemma record_read_wf tx keys reg : reg_wf reg → reg_wf (record_read_row_keys tx keys reg).
Proof.
  intros Hwf. unfold record_read_row_keys. destruct (reg !! tx) eqn:E; [|done].
  destruct (_ && _); [|done]. eapply reg_wf_update; [done..|]. by repeat split.
Qed.

Lemma set_snapshot_wf tx x reg : reg_wf reg → reg_wf (set_row_store_snapshot tx x reg).
Proof.
  intros Hwf. unfold set_row_store_snapshot. destruct (reg !! tx) as [e|] eqn:E; [|done].
  destruct (row_store_snapshot e); [done|]. eapply reg_wf_update; [done..|]. by repeat split.
Qed.

Lemma reassign_wf source target reg :
  reg_wf reg → reg_wf (reassign_active_node source target reg).2.
Proof.
  intros Hwf. apply (reg_wf_core reg); [done|]. simpl. intros id e' He'.
  apply lookup_fmap_Some in He' as (e & <- & He). exists e. split; [done|].
  destruct (_ && _); [by repeat split|apply same_core_refl].
Qed.

(** *** One transaction request *)

(** While the request runs, its own entry (if any) is active at its level. *)
Definition pending (iso tx : string) (reg : Registry) : Prop :=
  reg_wf reg ∧ ∀ e, reg !! tx = Some e → state e = Active ∧ isolation_level e = iso.

Lemma pending_insert iso tx reg e :
  reg_wf reg → entry_wf tx e → state e = Active → isolation_level e = iso →
  pending iso tx (<[tx := e]> reg).
Proof.
  intros Hwf He Ha Hi. split; [apply reg_wf_insert_uncommitted; [done..|by rewrite Ha]|].
  intros e' He'. rewrite lookup_insert_eq in He'. by simplify_eq.
Qed.

Lemma savepoint_op_pending iso tx reg (f : AcidTxEntry -> option AcidTxEntry) :
  (∀ e e', f e = Some e' → ∃ sps, e' = set_savepoints sps e) →
  pending iso tx reg → pending iso tx (on_active tx f reg).2.
Proof.
  intros Hf [Hwf Hp]. destruct (on_active tx f reg) as [b reg'] eqn:E.
  apply on_active_spec in E as [->|(e & e' & He & Ha & Hfe & ->)]; [by split|].
  destruct (Hf e e' Hfe) as [sps ->]. destruct (Hp e He) as [_ Hi].
  apply pending_insert; [done| |done..]. by apply set_savepoints_wf, Hwf.
Qed.

Lemma record_statement_pending iso tx aff reg :
  pending iso tx reg → pending iso tx (record_statement tx aff reg).
Proof.
  intros [Hwf Hp]. unfold record_statement. destruct (reg !! tx) as [e|] eqn:E; [|split; [done|by rewrite E]].
  destruct (Hp e eq_refl) as [Ha Hi]. destruct (proj1 Hwf tx e E) as (Ht & Hc & Hl & Hw & Hf).
  apply pending_insert; [done| |done..]. unfold entry_wf. simpl. rewrite Ha in Hc, Hw |- *.
  by split_and!.
Qed.

(** The savepoint bookkeeping is one guarded rewrite of the savepoint list. *)
Lemma tx_savepoint_op_form tx stmt :
  ∃ f, (∀ e e', f e = Some e' → ∃ sps, e' = set_savepoints sps e) ∧
       ∀ reg, tx_savepoint_op tx stmt reg = (on_active tx f reg).2.
Proof.
  assert (∃ f : AcidTxEntry -> option AcidTxEntry,
    (∀ e e', f e = Some e' → ∃ sps, e' = set_savepoints sps e) ∧
    ∀ reg : Registry, reg = (on_active tx f reg).2) as Hnone.
  { exists (fun _ => None). split; [done|]. intros reg. unfold on_active.
    destruct (reg !! tx) as [e|]; [|done]. by destruct (decide (state e = Active)). }
  unfold tx_savepoint_op. destruct (SqlKind.classify_statement stmt); try exact Hnone.
  - destruct (SqlKind.savepoint_name stmt); [|exact Hnone]. eexists. split; [|done].
    intros; simplify_eq/=. by eexists.
  - destruct (SqlKind.release_name stmt); [|exact Hnone]. eexists. split; [|done].
    intros e e' He. simpl in He. destruct (SqlKind.rposition _ _); simplify_eq. by eexists.
  - destruct (SqlKind.rollback_to_name stmt); [|exact Hnone]. eexists. split; [|done].
    intros e e' He. simpl in He. destruct (decide _); simplify_eq. by eexists.
Qed.

Lemma tx_statement_pending iso tx stmt reg :
  pending iso tx reg → pending iso tx (tx_statement tx stmt reg).
Proof.
  intros Hp. apply record_statement_pending.
  destruct (tx_savepoint_op_form tx stmt) as (f & Hf & ->). by apply savepoint_op_pending.
Qed.

Lemma tx_prologue_pending tx node iso now stmts rs reg :
  reg_wf reg → reg !! tx = None → pending iso tx (tx_prologue tx node iso now stmts rs reg).
Proof.
  intros Hwf Hfresh. unfold tx_prologue. generalize stmts at 3. intros l.
  set (reg1 := if has_kind _ _ then _ else _).
  assert (Hp : pending iso tx reg1).
  { subst reg1. destruct (has_kind _ _); [|split; [done|]; intros e He; congruence].
    apply pending_insert; [done|by repeat split|done..]. }
  clearbody reg1. revert reg1 Hp. induction l as [|s l IH]; intros reg1 Hp; [done|].
  simpl. by apply IH, tx_statement_pending.
Qed.

Lemma commit_path_wf iso tx now W rs reg :
  pending iso tx reg → reg_wf (commit_path iso tx now W rs reg).2.
Proof.
  intros [Hwf Hp]. destruct (reg !! tx) as [e|] eqn:He.
  - destruct (Hp e eq_refl) as [Ha Hi]. pose proof (proj1 Hwf tx e He) as Hewf.
    destruct (commit_path_cases iso tx now W rs reg e He Ha) as [[Hmay ->]|(_ & err & _ & ->)].
    + destruct Hewf as (Ht & Hc & Hl & Hw & Hf). rewrite Ha in Hw.
      rewrite Hw by done. rewrite (left_id_L ∅ (∪)).
      apply reg_wf_insert; [done|unfold entry_wf; simpl; naive_solver|].
      simpl. intros _ Hv id' e' Hpeer. rewrite Hi in *. destruct Hmay as (Ho & Hs & _).
      destruct Hv as [-> | ->]; [by apply (Hs id')|by apply (Ho eq_refl id')].
    + apply reg_wf_insert_uncommitted; [done| |done]. apply finish_wf; auto.
  - unfold commit_path, record_written_row_keys, commit, rollback, on_active.
    rewrite He. by destruct (commit_conflict _ _ _ _ _); rewrite ?He.
Qed.

Lemma transaction_wf tx node iso db now stmts rs reg :
  reg_wf reg → reg !! tx = None →
  reg_wf (run_transaction tx node iso db now stmts rs reg).2.
Proof.
  intros Hwf Hfresh. unfold sql_transaction.
  pose proof (tx_prologue_pending tx node (default "read_committed" iso) now stmts rs reg
    Hwf Hfresh) as Hp.
  destruct (has_kind SqlKind.Commit stmts).
  - pose proof (commit_path_wf _ tx now (commit_write_keys extract_all_insert_rows
      extract_update_row_from_sql extract_delete_key_from_sql db
      (SqlKind.effective_statements_after_savepoints stmts)) rs _ Hp) as Hc.
    destruct (commit_path _ _ _ _ _ _) as [[[]|err] reg2]; [|done]. by apply set_snapshot_wf.
  - destruct Hp as [Hp _]. destruct (has_kind SqlKind.Rollback stmts); [by apply rollback_wf|done].
Qed.

Lemma reg_step_wf reg reg' : reg_step reg reg' → reg_wf reg → reg_wf reg'.
Proof.
  destruct 1 as [tx node iso db now stmts rs r reg' Hf Hr| | | | |]; intros Hwf.
  - change reg' with (r, reg').2. rewrite <- Hr. by apply transaction_wf.
  - by apply begin_wf.
  - by apply record_read_wf.
  - by apply commit_wf.
  - by apply rollback_wf.
  - by apply reassign_wf.
Qed.

(** *** Restarts *)

(** Write sets of different transactions in the file are disjoint. *)
Definition file_wf (file : option (list PersistedWriteSet)) : Prop :=
  ∀ sets p q, file = Some sets → p ∈ sets → q ∈ sets → pw_tx_id p ≠ pw_tx_id q →
    (list_to_set (pw_written_keys p) : gset string) ## list_to_set (pw_written_keys q).

Lemma write_sets_from reg p :
  p ∈ write_sets reg →
  ∃ id e, reg !! id = Some e ∧ persisted e = true ∧ p = write_set_of e.
Proof.
  unfold write_sets. set (l := map write_set_of _). intros Hp.
  assert (Hl : p ∈ l).
  { rewrite <- (sort_by_key_perm pw_committed_at_ms l). destruct (_ <? _)%nat; [|done].
    by eapply elem_of_sublist; [done|apply sublist_drop]. }
  apply list_elem_of_fmap in Hl as (e & -> & [Hpe He]%list_elem_of_filter).
  apply list_elem_of_fmap in He as ([id e'] & -> & Hin%elem_of_iter_txs). by exists id, e'.
Qed.

Lemma persisted_spec e :
  persisted e = true ↔
  isolation_level e = "serializable" ∧ state e = Committed ∧ written_row_keys e ≠ ∅.
Proof.
  unfold persisted. rewrite !andb_true_iff, negb_true_iff, String.eqb_eq, bool_decide_eq_true,
    bool_decide_eq_false. tauto.
Qed.

Lemma list_to_set_iter (s : gset string) : list_to_set (iter_keys s) = s.
Proof. apply set_eq. intros k. by rewrite elem_of_list_to_set, elem_of_iter_keys. Qed.

Lemma persist_wf ok dir reg file :
  reg_wf reg → file_wf file → file_wf (persist_committed_write_sets ok dir reg file).
Proof.
  intros [Hwf Hd] Hfile. unfold persist_committed_write_sets.
  destruct (String.eqb dir ""); [done|]. destruct ok; [|done].
  intros sets p q [= <-] Hp Hq Hne.
  apply write_sets_from in Hp as (i & e & Hi & He%persisted_spec & ->),
    Hq as (j & e' & Hj & He'%persisted_spec & ->).
  simpl in *. rewrite !list_to_set_iter.
  destruct (Hwf i e Hi) as [Hti _], (Hwf j e' Hj) as [Htj _].
  apply (Hd "serializable" i j); [by left|congruence|naive_solver..].
Qed.

Lemma restore_lookup sets (reg : Registry) id e :
  restore_write_sets sets reg !! id = Some e →
  (∃ p, p ∈ sets ∧ id = pw_tx_id p ∧ e = restored_entry p) ∨ reg !! id = Some e.
Proof.
  unfold restore_write_sets. revert reg. induction sets as [|p sets IH]; intros reg; simpl; [auto|].
  intros [(q & Hq & Hid & He)|Hl]%IH; [left; exists q; split; [by right|done]|].
  apply lookup_insert_Some in Hl as [[<- <-]|[_ Hl]]; [|by right].
  left. exists p. split; [by left|done].
Qed.

Lemma restore_wf dir file :
  file_wf file → reg_wf (restore_write_sets (load_committed_write_sets dir file) ∅).
Proof.
  intros Hfile. unfold load_committed_write_sets.
  assert (Hsets : file_wf (Some (if String.eqb dir "" then [] else default [] file))).
  { destruct (String.eqb dir ""); [intros ? p q [= <-] Hp; by apply not_elem_of_nil in Hp|].
    destruct file; [done|]. intros ? p q [= <-] Hp. by apply not_elem_of_nil in Hp. }
  set (sets := if String.eqb dir "" then [] else default [] file) in *.
  split.
  - intros id e [(p & _ & -> & ->)|He]%restore_lookup; [|by rewrite lookup_empty in He].
    unfold entry_wf. simpl. split_and!; naive_solver.
  - intros iso id1 id2 e1 e2 _ Hne [(p & Hp & -> & ->)|He1]%restore_lookup
      [(q & Hq & -> & ->)|He2]%restore_lookup _ _ _ _;
      rewrite ?lookup_empty in *; try done. simpl. by apply (Hsets sets).
Qed.

Lemma sys_steps_wf s s' :
  rtc sys_step s s' → reg_wf s.1 → file_wf s.2 → reg_wf s'.1 ∧ file_wf s'.2.
Proof.
  induction 1 as [|s s' s'' Hstep _ IH]; [done|]. intros Hwf Hfile.
  destruct Hstep as [reg reg' file Hs|ok dir reg file|dir reg file]; simpl in *; apply IH; simpl;
    eauto using reg_step_wf, persist_wf, restore_wf.
Qed.

Lemma write_sets_complete reg id e :
  (length (filter (fun e => persisted e = true) (map snd (iter_txs reg)))
     <= MAX_PERSISTED_WRITE_SETS)%nat →
  reg !! id = Some e → isolation_level e = "serializable" → state e = Committed →
  written_row_keys e ≠ ∅ → write_set_of e ∈ write_sets reg.
Proof.
  intros Hlen He Hi Hs Hw. unfold write_sets.
  rewrite (sort_by_key_perm pw_committed_at_ms), length_map, (proj2 (Nat.ltb_ge _ _) Hlen).
  rewrite sort_by_key_perm. apply list_elem_of_fmap_2, list_elem_of_filter.
  split; [by apply persisted_spec|]. change e with (id, e).2.
  apply list_elem_of_fmap_2. by apply elem_of_iter_txs.
Qed.

Lemma restore_has sets (reg : Registry) p :
  p ∈ sets → is_Some (restore_write_sets sets reg !! pw_tx_id p).
Proof.
  unfold restore_write_sets.
  assert (Hkeep : ∀ sets (reg : Registry) id, is_Some (reg !! id) →
    is_Some (foldl (fun reg p => <[pw_tx_id p := restored_entry p]> reg) reg sets !! id)).
  { intros l. induction l as [|q l IH]; simpl; intros r id Hr; [done|]. apply IH.
    destruct (decide (pw_tx_id q = id)) as [->|Hne];
      [by rewrite lookup_insert_eq|by rewrite lookup_insert_ne]. }
  revert reg. induction sets as [|q sets IH]; simpl; intros reg Hp; [by apply not_elem_of_nil in Hp|].
  apply elem_of_cons in Hp as [->|Hp]; [|by apply IH].
  apply Hkeep. by rewrite lookup_insert_eq.
Qed.

Lemma restored_written reg id e e' :
  map_Forall entry_wf reg → reg !! id = Some e →
  restore_write_sets (write_sets reg) ∅ !! id = Some e' →
  written_row_keys e' = written_row_keys e.
Proof.
  intros Hwf He [(p & Hp & Hid & ->)|Hn]%restore_lookup; [|by rewrite lookup_empty in Hn].
  apply write_sets_from in Hp as (id' & e2 & He2 & _ & ->). simpl in *.
  rewrite (proj1 (Hwf id' e2 He2)) in Hid. simplify_eq. apply list_to_set_iter.
Qed.

(** *** Frames: what a request does to entries *)

(** A statement keeps its transaction active and its snapshot, and touches no
    other entry. *)
Definition kept (e e' : AcidTxEntry) : Prop :=
  state e' = state e ∧ row_store_snapshot e' = row_store_snapshot e ∧
  read_row_keys e' = read_row_keys e.

Lemma record_statement_shape tx aff reg e :
  reg !! tx = Some e → ∃ e', record_statement tx aff reg = <[tx := e']> reg ∧ kept e e'.
Proof. intros He. unfold record_statement. rewrite He. eexists. by split. Qed.

Lemma savepoint_op_shape tx f reg e :
  (∀ e e', f e = Some e' → ∃ sps, e' = set_savepoints sps e) →
  reg !! tx = Some e → ∃ e', (on_active tx f reg).2 = <[tx := e']> reg ∧ kept e e'.
Proof.
  intros Hf He. destruct (on_active tx f reg) as [b reg'] eqn:E.
  apply on_active_spec in E as [->|(e1 & e' & He1 & Ha & Hfe & ->)].
  - exists e. simpl. by rewrite insert_id.
  - simplify_eq. destruct (Hf e e' Hfe) as [sps ->]. eexists. by split.
Qed.

Lemma tx_statement_shape tx stmt reg e :
  reg !! tx = Some e → ∃ e', tx_statement tx stmt reg = <[tx := e']> reg ∧ kept e e'.
Proof.
  intros He. unfold tx_statement.
  destruct (tx_savepoint_op_form tx stmt) as (f & Hf & ->).
  destruct (savepoint_op_shape tx f reg e Hf He) as (e1 & -> & Hk1).
  destruct (record_statement_shape tx (affected_table stmt) (<[tx := e1]> reg) e1)
    as (e2 & -> & Hk2); [by rewrite lookup_insert_eq|].
  exists e2. rewrite insert_insert_eq. split; [done|]. unfold kept in *. intuition congruence.
Qed.

Lemma tx_statement_absent tx stmt reg : reg !! tx = None → tx_statement tx stmt reg = reg.
Proof.
  intros Hn. unfold tx_statement. destruct (tx_savepoint_op_form tx stmt) as (f & _ & ->).
  unfold record_statement, on_active. rewrite Hn. simpl. by rewrite Hn.
Qed.

Lemma statements_shape tx stmts reg e :
  reg !! tx = Some e →
  ∃ e', foldl (fun reg stmt => tx_statement tx stmt reg) reg stmts = <[tx := e']> reg ∧ kept e e'.
Proof.
  revert reg e. induction stmts as [|s stmts IH]; intros reg e He; simpl.
  - exists e. by rewrite insert_id.
  - destruct (tx_statement_shape tx s reg e He) as (e1 & -> & H1).
    destruct (IH (<[tx := e1]> reg) e1) as (e2 & -> & H2); [by rewrite lookup_insert_eq|].
    exists e2. rewrite insert_insert_eq. split; [done|]. unfold kept in *. intuition congruence.
Qed.

Lemma prologue_shape tx node iso now stmts rs reg :
  reg !! tx = None →
  if has_kind SqlKind.Begin stmts then
    ∃ e, tx_prologue tx node iso now stmts rs reg = <[tx := e]> reg ∧ state e = Active ∧
      read_row_keys e = ∅ ∧
      row_store_snapshot e =
        (if String.eqb iso "repeatable_read" || String.eqb iso "optimistic"
         then Some (RowStore.current_xid rs) else None)
  else tx_prologue tx node iso now stmts rs reg = reg.
Proof.
  intros Hn. unfold tx_prologue. destruct (has_kind SqlKind.Begin stmts).
  - unfold begin. set (e0 := begin_entry _ _ _ _ _).
    destruct (statements_shape tx stmts (<[tx := e0]> reg) e0) as (e & -> & Hs & Hx & Hr);
      [by rewrite lookup_insert_eq|].
    exists e. rewrite insert_insert_eq, Hs, Hx, Hr. split_and!; [done..|]. simpl.
    by destruct (_ || _).
  - generalize stmts. intros l. induction l as [|s l IH]; [done|]. simpl.
    by rewrite tx_statement_absent.
Qed.

Definition untouched (tx : string) (reg reg' : Registry) : Prop :=
  ∀ id, id ≠ tx → reg' !! id = reg !! id.

Lemma on_active_untouched tx f reg : untouched tx reg (on_active tx f reg).2.
Proof.
  destruct (on_active tx f reg) as [b reg'] eqn:E.
  apply on_active_spec in E as [->|(e & e' & _ & _ & _ & ->)]; intros id Hne; [done|].
  simpl. by rewrite lookup_insert_ne.
Qed.

Lemma commit_path_untouched iso tx now W rs reg :
  untouched tx reg (commit_path iso tx now W rs reg).2.
Proof.
  unfold commit_path. destruct (commit_conflict _ _ _ _ _); [apply on_active_untouched|].
  intros id Hne. simpl. unfold commit. rewrite on_active_untouched by done.
  unfold record_written_row_keys. destruct (reg !! tx); [|done]. by rewrite lookup_insert_ne.
Qed.

Lemma transaction_untouched tx node iso db now stmts rs reg :
  reg !! tx = None → untouched tx reg (run_transaction tx node iso db now stmts rs reg).2.
Proof.
  intros Hn. unfold sql_transaction. set (reg1 := tx_prologue _ _ _ _ _ _ _).
  assert (H1 : untouched tx reg reg1).
  { pose proof (prologue_shape tx node (default "read_committed" iso) now stmts rs reg Hn) as Hp.
    fold reg1 in Hp. destruct (has_kind SqlKind.Begin stmts); [|by rewrite Hp].
    destruct Hp as (e & -> & _). intros id Hne. by rewrite lookup_insert_ne. }
  clearbody reg1. intros id Hne. destruct (has_kind SqlKind.Commit stmts).
  - set (W := commit_write_keys _ _ _ _ _).
    pose proof (commit_path_untouched (default "read_committed" iso) tx now W rs reg1 id Hne) as Hc.
    destruct (commit_path _ _ _ _ _ _) as [[[]|err] reg2]; simpl in *; [|by rewrite Hc, H1].
    unfold set_row_store_snapshot. rewrite <- (H1 id Hne), <- Hc.
    destruct (reg2 !! tx) as [e|]; [|done].
    destruct (row_store_snapshot e); [done|]. by rewrite lookup_insert_ne.
  - destruct (has_kind SqlKind.Rollback stmts); simpl; [|by apply H1].
    unfold rollback. by rewrite on_active_untouched, H1.
Qed.

(** A finished transaction's entry never changes again. *)
Lemma reg_step_outcome reg reg' id e :
  reg_step reg reg' → reg !! id = Some e → state e ≠ Active → reg' !! id = Some e.
Proof.
  intros Hstep He Hna.
  assert (Hactive : ∀ tx f, (on_active tx f reg).2 !! id = Some e).
  { intros tx f. destruct (decide (id = tx)) as [->|Hne].
    - unfold on_active. rewrite He. by destruct (decide (state e = Active)).
    - by rewrite on_active_untouched. }
  destruct Hstep as [tx node iso db now stmts rs r reg' Hf Hr|tx node iso now snap Hf|tx keys| | |].
  - change reg' with (r, reg').2. rewrite <- Hr, transaction_untouched; [done..|congruence].
  - unfold begin. rewrite lookup_insert_ne; [done|congruence].
  - unfold record_read_row_keys. destruct (reg !! tx) as [e2|] eqn:E2; [|done].
    destruct (String.eqb _ _ && _) eqn:Hg; [|done].
    apply andb_true_iff in Hg as [_ Hg%bool_decide_eq_true]. rewrite lookup_insert_ne; congruence.
  - apply Hactive.
  - apply Hactive.
  - simpl. rewrite lookup_fmap, He. simpl. by rewrite bool_decide_eq_false_2.
Qed.

End Machine.

(** ** Properties *)

(** The extractors of the examples: the statement text is the row key. *)
Definition rows_demo (s : string) : list (string * gmap string string) := [(s, ∅)].
Definition update_demo (s : string) : option (string * gmap string string) := Some ("orders:1", ∅).
Definition delete_demo (s : string) : option string := None.


(** The registry after one committed serializable request. *)
Definition demo_registry : Registry :=
  (sql_transaction rows_demo update_demo delete_demo "t1" "n" (Some "serializable") ""
     5 ["BEGIN"; "INSERT 7"; "COMMIT"] demo_store ∅).2.


(** Outcomes are final.  Once a transaction has committed or rolled back, no
    later request, read, administrator action or reassignment changes its
    entry: neither its state and completion time nor its read and write sets. *)
Theorem transaction_outcome_final `{HashOrder} ins upd del (reg reg' : Registry)
    (id : string) (e : AcidTxEntry) :
  rtc (reg_step ins upd del) reg reg' →
  reg !! id = Some e → state e ≠ Active → reg' !! id = Some e.
Proof. induction 1 as [|r1 r2 r3 Hstep _ IH]; [done|]. eauto using reg_step_outcome. Qed.

Lemma transaction_outcome_final_witness :
  let e := finish Committed 3 (begin_entry "a" "n" "serializable" 1 None) in
  let reg : Registry := <["a" := e]> ∅ in
  (rollback "a" 9 (record_read_row_keys "a" ["k"] reg)).2 !! "a" = Some e.
Proof.
  intros e reg. apply (transaction_outcome_final rows_demo update_demo delete_demo reg _ "a" e);
    [|reflexivity|done].
  eapply rtc_l; [apply (step_read _ _ _ _ "a" ["k"])|]. apply rtc_once, step_rollback.
Defined.

(** Write sets survive a restart.  With at most 1000 committed serializable
    writers, persisting the write sets and restoring them after a restart gives
    a registry in which the write-write check accepts and rejects exactly the
    same commits as before. *)
Theorem write_sets_survive_restart `{HashOrder} (dir : string) (reg : Registry)
    (file : option (list PersistedWriteSet)) (current : string) (W : gset string) :
  dir ≠ "" → reg_wf reg →
  (length (filter (fun e => persisted e = true) (map snd (iter_txs reg)))
     <= MAX_PERSISTED_WRITE_SETS)%nat →
  let reg' := restore_write_sets
                (load_committed_write_sets dir
                   (persist_committed_write_sets true dir reg file)) ∅ in
  check_serializable_conflict_row_level current W reg' = None ↔
  check_serializable_conflict_row_level current W reg = None.
Proof.
  intros Hdir [Hwf _] Hlen reg'.
  unfold check_serializable_conflict_row_level. rewrite !written_by_peer_None.
  subst reg'. unfold persist_committed_write_sets, load_committed_write_sets.
  rewrite (proj2 (String.eqb_neq dir "") Hdir). simpl.
  split; intros Hall id e (He & Hne & Hi & Hs).
  - destruct (decide (written_row_keys e = ∅)) as [->|Hw]; [set_solver|].
    assert (Hp : write_set_of e ∈ write_sets reg) by (by eapply write_sets_complete).
    destruct (restore_has _ ∅ _ Hp) as [e' He']. simpl in He'.
    rewrite (proj1 (Hwf id e He)) in He'.
    rewrite <- (restored_written reg id e e' Hwf He He').
    apply (Hall id e'). apply restore_lookup in He' as He2.
    destruct He2 as [(p & _ & _ & ->)|He2]; [by split_and!|by rewrite lookup_empty in He2].
  - rewrite <- (list_to_set_iter (written_row_keys e)), list_to_set_iter.
    apply restore_lookup in He as He2.
    destruct He2 as [(p & Hp & -> & ->)|He2]; [|by rewrite lookup_empty in He2].
    apply write_sets_from in Hp as (id' & e' & He' & Hpe%persisted_spec & ->).
    simpl in *. rewrite list_to_set_iter. apply (Hall id' e').
    rewrite (proj1 (Hwf id' e' He')) in Hne. by split_and!; try apply Hpe.
Qed.

Lemma write_sets_survive_restart_witness :
  let file := persist_committed_write_sets true "d" demo_registry None in
  let reg' := restore_write_sets (load_committed_write_sets "d" file) ∅ in
  check_serializable_conflict_row_level "t9" {["INSERT 7"]} reg' ≠ None.
Proof.
  intros file reg' Hn.
  assert (Hwf : reg_wf demo_registry).
  { apply (transaction_wf rows_demo update_demo delete_demo "t1"); [|reflexivity].
    split; [apply map_Forall_empty|]. intros ??????? He. by rewrite lookup_empty in He. }
  assert (Hlen : (length (filter (fun e => persisted e = true)
    (map snd (iter_txs demo_registry))) <= MAX_PERSISTED_WRITE_SETS)%nat) by (vm_compute; lia).
  pose proof (proj1 (write_sets_survive_restart "d" demo_registry None "t9" {["INSERT 7"]}
    ltac:(done) Hwf Hlen) Hn) as Hold.
  assert (Hc : check_serializable_conflict_row_level "t9" {["INSERT 7"]} demo_registry
               = Some "INSERT 7") by (vm_compute; reflexivity).
  congruence.
Defined.

(** Existing rows cannot be updated.  At a level other than repeatable_read and
    optimistic, COMMIT validates against snapshot 0, because the snapshot is only
    recorded after validation: a transaction that writes any row which some
    transaction ever wrote is rejected and rolled back, whatever the
    concurrency. *)
Theorem existing_row_update_rejected `{HashOrder} ins upd del (tx node : string)
    (requested : option string) (db : string) (now : N) (stmts : list string)
    (rs : RowStore.PagedRowStore) (reg : Registry) (k : string) :
  reg !! tx = None →
  default "read_committed" requested ≠ "repeatable_read" →
  default "read_committed" requested ≠ "optimistic" →
  has_kind SqlKind.Begin stmts = true → has_kind SqlKind.Commit stmts = true →
  k ∈ commit_write_keys ins upd del db (SqlKind.effective_statements_after_savepoints stmts) →
  RowStore.was_modified_after k 0 rs = true →
  ∃ err e reg', sql_transaction ins upd del tx node requested db now stmts rs reg = (Err err, reg') ∧
    reg' !! tx = Some e ∧ state e = RolledBack.
Proof.
  intros Hn Hrr Hopt Hb Hc Hk Hmod. unfold sql_transaction. rewrite Hc.
  set (iso := default "read_committed" requested) in *.
  pose proof (prologue_shape ins upd del tx node iso now stmts rs reg Hn) as Hp. rewrite Hb in Hp.
  destruct Hp as (e & -> & Ha & _ & Hx).
  rewrite (proj2 (String.eqb_neq _ _) Hrr), (proj2 (String.eqb_neq _ _) Hopt) in Hx.
  set (W := commit_write_keys _ _ _ _ _) in *.
  destruct (commit_path_cases iso tx now W rs (<[tx := e]> reg) e) as [[Hmay _]|(_ & err & _ & ->)];
    [by rewrite lookup_insert_eq|done| |].
  - destruct Hmay as (_ & _ & Hs). specialize (Hs k Hk).
    unfold row_store_snapshot_xid in Hs. rewrite lookup_insert_eq, Hx in Hs. simpl in Hs. congruence.
  - eexists _, _, _. split; [done|]. rewrite lookup_insert_eq. by split.
Qed.

Lemma existing_row_update_rejected_witness :
  ∃ err e reg',
    sql_transaction rows_demo update_demo delete_demo "t1" "n" None "" 5
      ["BEGIN"; "UPDATE orders SET v = 2 WHERE id = 1"; "COMMIT"] demo_store ∅ = (Err err, reg') ∧
    reg' !! "t1" = Some e ∧ state e = RolledBack.
Proof.
  apply (existing_row_update_rejected rows_demo update_demo delete_demo "t1" "n" None "" 5
    ["BEGIN"; "UPDATE orders SET v = 2 WHERE id = 1"; "COMMIT"] demo_store ∅ "orders:1");
    [reflexivity|done|done|vm_compute; reflexivity..|vm_compute; reflexivity].
Defined.
