(* ===== verification/LockTable.v ===== *)
(** * Pessimistic locks and deadlock detection
      ([services/voltnuerongridd/src/helpers/execution.rs], [handlers/sql.rs],
       [handlers/admin.rs])

    The lock table (resource to lock record), the wait graph (transaction to the
    resource it waits for), acquisition with time-outs and the bounded deadlock
    scan, release, and the administrator's lock control. *)

From S2P Require Import Prelude Str Decimal SqlKind AcidTx.
Open Scope string_scope.
Open Scope list_scope.
Open Scope N_scope.

Module LockTable.

(** ** State *)

Record PessimisticLockRecord := mkLock {
  lock_id : string;
  transaction_id : string;
  resource : string;
  owner : string;
  acquired_unix_ms : N;
  expires_unix_ms : N;
}.

Inductive DeadlockScanOutcome := CycleDetected | ScanCapReached | NoCycle.

(** The HTTP status and the body. *)
Record PessimisticLockResponse := mkResponse {
  http_status : N;
  status : string;
  lock_state : string;
  reason : string;
  lock : option PessimisticLockRecord;
}.

(** [PessimisticLockMetrics] and the two process-wide gate counters. *)
Record LockMetrics := mkMetrics {
  deadlock_detections : N;
  scan_cap_timeouts : N;
  wait_timeouts : N;
  lock_grants : N;
  lock_conflicts : N;
  lock_releases : N;
  gate_deadlock_detections : N;
  gate_scan_cap_timeouts : N;
}.

Record LockState := mkState {
  locks : gmap string PessimisticLockRecord;
  waits : gmap string string;
  lock_counter : N;
  metrics : LockMetrics;
}.

Definition set_tables (l : gmap string PessimisticLockRecord) (w : gmap string string)
    (s : LockState) : LockState := mkState l w (lock_counter s) (metrics s).

Definition bump_gate_deadlock (s : LockState) : LockState :=
  let m := metrics s in
  mkState (locks s) (waits s) (lock_counter s)
    (mkMetrics (deadlock_detections m) (scan_cap_timeouts m) (wait_timeouts m) (lock_grants m)
       (lock_conflicts m) (lock_releases m) (u64_add (gate_deadlock_detections m) 1)
       (gate_scan_cap_timeouts m)).

Definition bump_gate_scan_cap (s : LockState) : LockState :=
  let m := metrics s in
  mkState (locks s) (waits s) (lock_counter s)
    (mkMetrics (deadlock_detections m) (scan_cap_timeouts m) (wait_timeouts m) (lock_grants m)
       (lock_conflicts m) (lock_releases m) (gate_deadlock_detections m)
       (u64_add (gate_scan_cap_timeouts m) 1)).

(** ** Deadlock scan *)

Definition DEADLOCK_SCAN_MAX_HOPS : N := 8.

(** [env]: the value of [VNG_DEADLOCK_SCAN_MAX_HOPS]. *)
Definition deadlock_scan_max_hops (env : option string) : N :=
  match env with
  | Some v =>
      match Dec.parse u64_max (Str.trim v) with
      | Some n => if 0 <? n then n else DEADLOCK_SCAN_MAX_HOPS
      | None => DEADLOCK_SCAN_MAX_HOPS
      end
  | None => DEADLOCK_SCAN_MAX_HOPS
  end.

(** The loop, one hop per fuel unit. *)
Fixpoint scan (hops : nat) (w : gmap string string) (l : gmap string PessimisticLockRecord)
    (waiting : string) (visited : gset string) (current : string) : DeadlockScanOutcome :=
  match hops with
  | O => ScanCapReached
  | S hops' =>
      if decide (current ∈ visited) then CycleDetected
      else match w !! current with
      | None => NoCycle
      | Some r =>
          match l !! r with
          | None => NoCycle
          | Some blocker =>
              if String.eqb (transaction_id blocker) waiting then CycleDetected
              else scan hops' w l waiting ({[current]} ∪ visited) (transaction_id blocker)
          end
      end
  end.

Definition evaluate_deadlock_scan_outcome (max_hops : N) (w : gmap string string)
    (l : gmap string PessimisticLockRecord) (waiting holder : string) : DeadlockScanOutcome :=
  scan (N.to_nat max_hops) w l waiting ∅ holder.

Definition cleanup_wait_edges_for_resource (r : string) (w : gmap string string)
    : gmap string string := filter (fun kv => kv.2 ≠ r) w.

(** ** Acquire and release *)

Definition invalid_request : PessimisticLockResponse :=
  mkResponse 400 "error" "invalid_request" "transaction_id_and_resource_are_required" None.

(** The tail of [acquire_pessimistic_lock], reached when nothing blocks. *)
Definition grant_lock (tx r own : string) (ttl_ms now_ms : N) (s : LockState)
    : PessimisticLockResponse * LockState :=
  let w := delete tx (waits s) in
  let rec := mkLock ("plock-" +:+ Dec.to_string (lock_counter s)) tx r (Str.trim own) now_ms
               (now_ms + ttl_ms) in
  let st := if decide (is_Some (locks s !! r)) then "renewed" else "acquired" in
  (mkResponse 200 "ok" st "pessimistic_lock_granted" (Some rec),
   mkState (<[r := rec]> (locks s)) w (u64_add (lock_counter s) 1) (metrics s)).

Definition acquire_pessimistic_lock (max_hops : N) (transaction resource_ own : string)
    (ttl_ms wait_timeout_ms now_ms : N) (s : LockState) : PessimisticLockResponse * LockState :=
  let tx := Str.trim transaction in
  let r := Str.trim resource_ in
  if String.eqb tx "" || String.eqb r "" then (invalid_request, s)
  else
    let w := delete tx (waits s) in
    match locks s !! r with
    | None => grant_lock tx r own ttl_ms now_ms (set_tables (locks s) w s)
    | Some existing =>
        if expires_unix_ms existing <=? now_ms then
          grant_lock tx r own ttl_ms now_ms
            (set_tables (delete r (locks s)) (cleanup_wait_edges_for_resource r w) s)
        else if negb (String.eqb (transaction_id existing) tx) then
          if 0 <? wait_timeout_ms then
            let w' := <[tx := r]> w in
            let s' := set_tables (locks s) w' s in
            match evaluate_deadlock_scan_outcome max_hops w' (locks s) tx
                    (transaction_id existing) with
            | CycleDetected =>
                (mkResponse 409 "blocked" "deadlock_risk" "pessimistic_lock_deadlock_risk"
                   (Some existing), bump_gate_deadlock s')
            | ScanCapReached =>
                (mkResponse 408 "blocked" "wait_timeout"
                   "pessimistic_lock_wait_timeout_scan_cap_reached" (Some existing),
                 bump_gate_scan_cap s')
            | NoCycle =>
                (mkResponse 408 "blocked" "wait_timeout" "pessimistic_lock_wait_timeout"
                   (Some existing), s')
            end
          else
            (mkResponse 409 "blocked" "held_by_other_transaction" "pessimistic_lock_conflict"
               (Some existing), set_tables (locks s) w s)
        else grant_lock tx r own ttl_ms now_ms (set_tables (locks s) w s)
    end.

Definition release_pessimistic_lock (transaction resource_ : string) (s : LockState)
    : PessimisticLockResponse * LockState :=
  let tx := Str.trim transaction in
  let r := Str.trim resource_ in
  if String.eqb tx "" || String.eqb r "" then (invalid_request, s)
  else match locks s !! r with
  | None => (mkResponse 404 "error" "not_found" "no_lock_for_resource" None, s)
  | Some existing =>
      if negb (String.eqb (transaction_id existing) tx) then
        (mkResponse 409 "blocked" "ownership_mismatch" "lock_owned_by_different_transaction"
           (Some existing), s)
      else
        (mkResponse 200 "ok" "released" "pessimistic_lock_released" (Some existing),
         set_tables (delete r (locks s))
           (delete tx (cleanup_wait_edges_for_resource r (waits s))) s)
  end.

(** ** Handlers *)

Definition clamp (lo hi n : N) : N := N.max lo (N.min hi n).

Definition set_metrics (m : LockMetrics) (s : LockState) : LockState :=
  mkState (locks s) (waits s) (lock_counter s) m.

(** The [match response.lock_state] of the acquire handler. *)
Definition count_acquire (resp : PessimisticLockResponse) (m : LockMetrics) : LockMetrics :=
  let st := lock_state resp in
  if String.eqb st "deadlock_risk" then
    mkMetrics (u64_add (deadlock_detections m) 1) (scan_cap_timeouts m) (wait_timeouts m)
      (lock_grants m) (lock_conflicts m) (lock_releases m) (gate_deadlock_detections m)
      (gate_scan_cap_timeouts m)
  else if String.eqb st "wait_timeout" && Str.contains "scan_cap" (reason resp) then
    mkMetrics (deadlock_detections m) (u64_add (scan_cap_timeouts m) 1) (wait_timeouts m)
      (lock_grants m) (lock_conflicts m) (lock_releases m) (gate_deadlock_detections m)
      (gate_scan_cap_timeouts m)
  else if String.eqb st "wait_timeout" then
    mkMetrics (deadlock_detections m) (scan_cap_timeouts m) (u64_add (wait_timeouts m) 1)
      (lock_grants m) (lock_conflicts m) (lock_releases m) (gate_deadlock_detections m)
      (gate_scan_cap_timeouts m)
  else if String.eqb st "acquired" || String.eqb st "renewed" then
    mkMetrics (deadlock_detections m) (scan_cap_timeouts m) (wait_timeouts m)
      (u64_add (lock_grants m) 1) (lock_conflicts m) (lock_releases m)
      (gate_deadlock_detections m) (gate_scan_cap_timeouts m)
  else if String.eqb st "held_by_other_transaction" then
    mkMetrics (deadlock_detections m) (scan_cap_timeouts m) (wait_timeouts m)
      (lock_grants m) (u64_add (lock_conflicts m) 1) (lock_releases m)
      (gate_deadlock_detections m) (gate_scan_cap_timeouts m)
  else m.

Definition add_releases (n : N) (m : LockMetrics) : LockMetrics :=
  mkMetrics (deadlock_detections m) (scan_cap_timeouts m) (wait_timeouts m)
    (lock_grants m) (lock_conflicts m) (u64_add (lock_releases m) n)
    (gate_deadlock_detections m) (gate_scan_cap_timeouts m).

Definition sql_pessimistic_lock_acquire (env : option string) (transaction resource_ : string)
    (own : option string) (ttl_ms wait_timeout_ms : option N) (now_ms : N) (s : LockState)
    : PessimisticLockResponse * LockState :=
  let ttl := clamp 1000 300000 (default 30000 ttl_ms) in
  let '(resp, s') :=
    acquire_pessimistic_lock (deadlock_scan_max_hops env) transaction resource_
      (default "runtime-transaction-manager" own) ttl (default 0 wait_timeout_ms) now_ms s in
  (resp, set_metrics (count_acquire resp (metrics s')) s').

Definition sql_pessimistic_lock_release (transaction resource_ : string) (s : LockState)
    : PessimisticLockResponse * LockState :=
  let '(resp, s') := release_pessimistic_lock transaction resource_ s in
  (resp, if String.eqb (lock_state resp) "released"
         then set_metrics (add_releases 1 (metrics s')) s' else s').

(** ** Administrator *)

(** The wait edges kept when the locks of [tx] are released. *)
Definition retain_waits (tx : string) (w : gmap string string) : gmap string string :=
  filter (fun kv => kv.1 ≠ tx ∧ kv.2 ≠ tx) w.

Definition release_locks_for_transaction (tx : string) (s : LockState) : N * LockState :=
  let l := filter (fun kv => transaction_id kv.2 ≠ tx) (locks s) in
  (N.of_nat (size (locks s) - size l), set_tables l (retain_waits tx (waits s)) s).

(** [kill_lock] with a lock id: the table is looked up with it. *)
Definition kill_lock (id : string) (s : LockState) : N * LockState :=
  match locks s !! id with
  | Some rec =>
      (1, set_tables (delete id (locks s)) (retain_waits (transaction_id rec) (waits s)) s)
  | None => (0, s)
  end.

Inductive AdminAction :=
| ListLocks
| KillLock (id : string)
| KillTransaction (tx : string)
| KillDeadlock (tx : string).

(** What the action does to the lock table, the wait graph and the metrics. *)
Definition lock_control (a : AdminAction) (s : LockState) : N * LockState :=
  let '(released, s') :=
    match a with
    | ListLocks => (0, s)
    | KillLock id => kill_lock id s
    | KillTransaction tx | KillDeadlock tx => release_locks_for_transaction tx s
    end in
  (released, if 0 <? released then set_metrics (add_releases released (metrics s')) s' else s').

Record AdminLockControlRequest := mkControl {
  control_action : string;
  control_lock_id : option string;
  control_transaction_id : option string;
}.

Record AdminLockControlResponse := mkControlled {
  controlled_http_status : N;
  controlled_status : string;
  controlled_action : string;
  released_lock_count : N;
  active_lock_count : nat;
  listed_locks : list PessimisticLockRecord;
  affected_transactions : list string;
}.

(** The [match action.as_str()]; [None] is answered with [BAD_REQUEST]. *)
Definition control_action_of (req : AdminLockControlRequest) : option AdminAction :=
  let action := SqlKind.to_ascii_lowercase (control_action req) in
  if String.eqb action "list" then Some ListLocks
  else if String.eqb action "kill_lock" then
    match control_lock_id req, control_transaction_id req with
    | Some id, _ => Some (KillLock id)
    | None, Some tx => Some (KillTransaction tx)
    | None, None => None
    end
  else if String.eqb action "kill_deadlock" then KillDeadlock <$> control_transaction_id req
  else None.

(** [affected_transactions] of an action that released [released] locks. *)
Definition affected (a : AdminAction) (released : N) (s : LockState) : list string :=
  match a with
  | ListLocks => []
  | KillLock id => match locks s !! id with Some rec => [transaction_id rec] | None => [] end
  | KillTransaction tx | KillDeadlock tx => if 0 <? released then [tx] else []
  end.

(** The whole handler of an authorised request; the victim of [kill_deadlock]
    is rolled back in the transaction registry. *)
Definition admin_sql_lock_control `{!MapOrder PessimisticLockRecord} (req : AdminLockControlRequest)
    (now : N) (s : LockState) (acid : AcidTx.Registry)
    : AdminLockControlResponse * LockState * AcidTx.Registry :=
  let action := SqlKind.to_ascii_lowercase (control_action req) in
  match control_action_of req with
  | None =>
      (mkControlled 400 "error" action 0 (size (locks s)) (iter_values (locks s)) [], s, acid)
  | Some a =>
      let '(released, s') := lock_control a s in
      let acid' :=
        match a with KillDeadlock tx => (AcidTx.rollback tx now acid).2 | _ => acid end in
      (mkControlled 200 "ok" action released (size (locks s')) (iter_values (locks s'))
         (affected a released s), s', acid')
  end.

Definition empty : LockState := mkState ∅ ∅ 1 (mkMetrics 0 0 0 0 0 0 0 0).

Example two_way_deadlock :
  let s1 := (sql_pessimistic_lock_acquire None "t1" "a" None None None 0 empty).2 in
  let s2 := (sql_pessimistic_lock_acquire None "t2" "b" None None None 0 s1).2 in
  let s3 := (sql_pessimistic_lock_acquire None "t1" "b" None None (Some 5) 1 s2).2 in
  lock_state (sql_pessimistic_lock_acquire None "t2" "a" None None (Some 5) 2 s3).1
  = "deadlock_risk".
Proof. vm_compute. reflexivity. Qed.

End LockTable.

(** * Properties of the pessimistic lock table

    The deadlock scan decides whether the wait-for chain of the requester ends;
    a granted lock excludes other transactions until it expires or is released;
    the tables stay well formed. *)

Open Scope string_scope.
Open Scope list_scope.
Open Scope N_scope.

Import LockTable.

(** ** The wait-for relation *)

Section Scan.
Context (w : gmap string string) (l : gmap string PessimisticLockRecord).

(** The transaction that [a] waits for. *)
Definition blocker (a : string) : option string :=
  match w !! a with
  | Some r => transaction_id <$> l !! r
  | None => None
  end.

Definition waits_for (a b : string) : Prop := blocker a = Some b.

(** [a]'s chain of blockers is finite: somebody at its end can run. *)
Abbreviation progresses := (Acc (flip waits_for)).

Lemma Acc_no_cycle x : progresses x → ¬ tc waits_for x x.
Proof.
  induction 1 as [x _ IH]. intros Hc.
  inversion Hc as [? ? Hs|? y ? Hs Ht]; subst; apply (IH _ Hs).
  - by apply tc_once.
  - eapply tc_transitive; [done|by apply tc_once].
Qed.

Lemma blocker_None_Acc x : blocker x = None → progresses x.
Proof. intros Hn. constructor. intros y Hy. unfold flip, waits_for in Hy. congruence. Qed.

Lemma blocker_Some_Acc x y : blocker x = Some y → progresses x ↔ progresses y.
Proof.
  intros Hb. split; intros Ha; [by apply (Acc_inv Ha)|].
  constructor. intros z Hz. unfold flip, waits_for in Hz. by simplify_eq.
Qed.

(** One hop of the scan in terms of [blocker]. *)
Lemma scan_S hops waiting visited current :
  scan (S hops) w l waiting visited current =
  if decide (current ∈ visited) then CycleDetected
  else match blocker current with
       | None => NoCycle
       | Some b => if String.eqb b waiting then CycleDetected
                   else scan hops w l waiting ({[current]} ∪ visited) b
       end.
Proof.
  simpl. destruct (decide _); [done|]. unfold blocker.
  destruct (w !! current) as [r|]; [|done]. by destruct (l !! r).
Qed.

(** The scan is right whenever it answers, and only a chain longer than the
    budget makes it give up. *)
Lemma scan_decides hops waiting visited current :
  tc waits_for waiting current →
  (∀ v, v ∈ visited → tc waits_for v current) →
  match scan hops w l waiting visited current with
  | NoCycle => progresses current
  | CycleDetected => ¬ progresses current
  | ScanCapReached => (hops <= size (dom w ∖ visited))%nat
  end.
Proof.
  revert visited current. induction hops as [|hops IH]; intros visited current Hw Hv; [simpl; lia|].
  rewrite scan_S. destruct (decide (current ∈ visited)) as [Hin|Hnin].
  { intros Ha. by eapply Acc_no_cycle, Hv. }
  destruct (blocker current) as [b|] eqn:Hb; [|by apply blocker_None_Acc].
  destruct (String.eqb_spec b waiting) as [->|Hne].
  { intros Ha. apply (Acc_no_cycle current Ha). eapply tc_l; [exact Hb|done]. }
  specialize (IH ({[current]} ∪ visited) b).
  pose proof (blocker_Some_Acc current b Hb) as Hiff.
  assert (current ∈ dom w) as Hdom.
  { apply elem_of_dom. unfold blocker in Hb. destruct (w !! current); [by eexists|done]. }
  assert (size (dom w ∖ ({[current]} ∪ visited)) < size (dom w ∖ visited))%nat
    by (apply subset_size; set_solver).
  destruct (scan hops w l waiting ({[current]} ∪ visited) b);
    [rewrite Hiff|assert (hops <= size (dom w ∖ ({[current]} ∪ visited)))%nat; [|lia]|rewrite Hiff];
    (apply IH; [by eapply tc_r; [exact Hw|exact Hb]|];
     intros v [->%elem_of_singleton|Hv']%elem_of_union; [by apply tc_once|];
     eapply tc_r; [by apply Hv|exact Hb]).
Qed.

End Scan.

(** ** Histories of lock operations *)

Inductive lock_op :=
| LAcquire (env : option string) (tx r : string) (own : option string)
    (ttl wait : option N) (now : N)
| LRelease (tx r : string)
| LAdmin (a : AdminAction).

Definition exec_op (o : lock_op) (s : LockState) : N * LockState :=
  match o with
  | LAcquire env tx r own ttl wait now =>
      let '(resp, s') := sql_pessimistic_lock_acquire env tx r own ttl wait now s in
      (http_status resp, s')
  | LRelease tx r =>
      let '(resp, s') := sql_pessimistic_lock_release tx r s in (http_status resp, s')
  | LAdmin a => let '(n, s') := lock_control a s in (n, s')
  end.

(** Statuses of the operations, in order, and the final state. *)
Fixpoint exec (ops : list lock_op) (s : LockState) : list N * LockState :=
  match ops with
  | [] => ([], s)
  | o :: ops' =>
      let '(h, s1) := exec_op o s in
      let '(hs, s2) := exec ops' s1 in (h :: hs, s2)
  end.

(** [o] cannot end the lock of [tx] on [r] that expires at [e]: it is not an
    operation of [tx] on [r], and clocks have not reached [e]. *)
Definition leaves (tx r : string) (e : N) (o : lock_op) : Prop :=
  match o with
  | LAcquire _ tx' r' _ _ _ now => (Str.trim tx' = tx → Str.trim r' ≠ r) ∧ now < e
  | LRelease tx' r' => Str.trim tx' = tx → Str.trim r' ≠ r
  | LAdmin ListLocks => True
  | LAdmin (KillLock id) => id ≠ r
  | LAdmin (KillTransaction tx' | KillDeadlock tx') => tx' ≠ tx
  end.

(** [o] asks for resource [r]. *)
Definition asks (r : string) (o : lock_op) : Prop :=
  match o with LAcquire _ _ r' _ _ _ _ => Str.trim r' = r | _ => False end.

Lemma set_metrics_locks m s : locks (set_metrics m s) = locks s.
Proof. done. Qed.

Lemma acquire_other tx r rec hops tx' r' own ttl wait now s :
  locks s !! r = Some rec → transaction_id rec = tx → now < expires_unix_ms rec →
  (Str.trim tx' = tx → Str.trim r' ≠ r) →
  let '(resp, s') := acquire_pessimistic_lock hops tx' r' own ttl wait now s in
  locks s' !! r = Some rec ∧ (Str.trim r' = r → http_status resp ≠ 200).
Proof.
  intros Hr Htx Hexp Hother. unfold acquire_pessimistic_lock.
  destruct (String.eqb (Str.trim tx') "" || String.eqb (Str.trim r') ""); [by split|].
  assert (Hgrant : ∀ s0, Str.trim r' ≠ r → locks s0 !! r = Some rec →
    let '(resp, s') := grant_lock (Str.trim tx') (Str.trim r') own ttl now s0 in
    locks s' !! r = Some rec ∧ (Str.trim r' = r → http_status resp ≠ 200)).
  { intros s0 Hne H0. simpl. by rewrite lookup_insert_ne. }
  destruct (decide (Str.trim r' = r)) as [Heq|Hne].
  - rewrite Heq, Hr. destruct (N.leb_spec (expires_unix_ms rec) now); [lia|].
    destruct (String.eqb_spec (transaction_id rec) (Str.trim tx')) as [Ht|Ht]; simpl.
    { exfalso. by apply Hother; [rewrite <- Ht|]. }
    destruct (0 <? wait); [destruct (evaluate_deadlock_scan_outcome _ _ _ _ _)|]; by split.
  - destruct (locks s !! Str.trim r') as [ex|]; [|by apply Hgrant].
    destruct (_ <=? _); [apply Hgrant; [done|]; simpl; by rewrite lookup_delete_ne|].
    destruct (negb _); [|by apply Hgrant].
    destruct (0 <? wait); [destruct (evaluate_deadlock_scan_outcome _ _ _ _ _)|]; by split.
Qed.

Lemma release_other tx r rec tx' r' s :
  locks s !! r = Some rec → transaction_id rec = tx →
  (Str.trim tx' = tx → Str.trim r' ≠ r) →
  locks (release_pessimistic_lock tx' r' s).2 !! r = Some rec.
Proof.
  intros Hr Htx Hother. unfold release_pessimistic_lock.
  destruct (_ || _); [done|]. destruct (locks s !! Str.trim r') as [ex|] eqn:Hex; [|done].
  destruct (String.eqb_spec (transaction_id ex) (Str.trim tx')) as [Ht|]; [|done]. simpl.
  rewrite lookup_delete_ne; [done|]. intros Heq. subst r. simplify_eq. by apply Hother.
Qed.

Lemma admin_other tx r rec a s :
  locks s !! r = Some rec → transaction_id rec = tx →
  (match a with ListLocks => True | KillLock id => id ≠ r | KillTransaction tx' | KillDeadlock tx' => tx' ≠ tx end) →
  locks (lock_control a s).2 !! r = Some rec.
Proof.
  intros Hr Htx Ha. unfold lock_control.
  destruct a as [|id|tx'|tx']; simpl; [done| | |].
  - unfold kill_lock. destruct (locks s !! id); [|done]. simpl. by rewrite lookup_delete_ne.
  - destruct (0 <? _); simpl; apply map_lookup_filter_Some_2; [done| |done|]; simpl; congruence.
  - destruct (0 <? _); simpl; apply map_lookup_filter_Some_2; [done| |done|]; simpl; congruence.
Qed.

Lemma exec_op_leaves tx r rec o s :
  locks s !! r = Some rec → transaction_id rec = tx → leaves tx r (expires_unix_ms rec) o →
  let '(h, s') := exec_op o s in locks s' !! r = Some rec ∧ (asks r o → h ≠ 200).
Proof.
  intros Hr Htx Hl. destruct o as [env tx' r' own ttl wait now|tx' r'|a]; simpl in Hl |- *.
  - destruct Hl as [Hl Hnow]. unfold sql_pessimistic_lock_acquire.
    pose proof (acquire_other tx r rec (deadlock_scan_max_hops env) tx' r'
      (default "runtime-transaction-manager" own) (clamp 1000 300000 (default 30000 ttl))
      (default 0 wait) now s Hr Htx Hnow Hl) as H.
    by destruct (acquire_pessimistic_lock _ _ _ _ _ _ _ _).
  - unfold sql_pessimistic_lock_release. pose proof (release_other tx r rec tx' r' s Hr Htx Hl) as H.
    destruct (release_pessimistic_lock _ _ _) as [resp s']. simpl in *.
    by destruct (String.eqb _ _).
  - pose proof (admin_other tx r rec a s Hr Htx Hl). by destruct (lock_control a s).
Qed.

(** A grant installs a record of the caller with the clamped time to live. *)
Lemma acquire_granted env tx r own ttl wait now s s1 resp :
  sql_pessimistic_lock_acquire env tx r own ttl wait now s = (resp, s1) →
  http_status resp = 200 →
  ∃ rec, lock resp = Some rec ∧ transaction_id rec = Str.trim tx ∧
    expires_unix_ms rec = now + clamp 1000 300000 (default 30000 ttl) ∧
    locks s1 !! Str.trim r = Some rec.
Proof.
  unfold sql_pessimistic_lock_acquire, acquire_pessimistic_lock.
  assert (Hg : ∀ own ttl s0, 
    let '(resp, s') := grant_lock (Str.trim tx) (Str.trim r) own ttl now s0 in
    ∃ rec, lock resp = Some rec ∧ transaction_id rec = Str.trim tx ∧
      expires_unix_ms rec = now + ttl ∧ locks s' !! Str.trim r = Some rec).
  { intros own0 ttl0 s0. simpl. eexists. split_and!; [done..|]. by rewrite lookup_insert_eq. }
  set (T := clamp _ _ _). set (O := default _ own).
  destruct (_ || _); [intros; by simplify_eq/=|].
  destruct (locks s !! Str.trim r) as [ex|].
  2: { specialize (Hg O T (set_tables (locks s) (delete (Str.trim tx) (waits s)) s)).
       destruct (grant_lock _ _ _ _ _ _). intros; by simplify_eq/=. }
  destruct (_ <=? _).
  { match goal with |- context [grant_lock _ _ _ _ _ ?s0] => specialize (Hg O T s0) end.
    destruct (grant_lock _ _ _ _ _ _). intros; by simplify_eq/=. }
  destruct (negb _).
  { destruct (0 <? _); [destruct (evaluate_deadlock_scan_outcome _ _ _ _ _)|];
      intros; by simplify_eq/=. }
  match goal with |- context [grant_lock _ _ _ _ _ ?s0] => specialize (Hg O T s0) end.
  destruct (grant_lock _ _ _ _ _ _). intros; by simplify_eq/=.
Qed.

(** ** Properties *)



(** C23: deadlock detection.  When a transaction asks to wait for a lock another one
    holds, and the hop budget exceeds the number of waiting transactions, the
    scan always decides: the request is refused as a deadlock exactly when the
    requester's chain of blockers (with its own new wait edge) never ends, that
    is, when it runs into a cycle, and it is told to wait exactly when the chain
    ends at a transaction that can run. *)
Theorem deadlock_detected_exactly (max_hops : N) (tx r own : string) (ttl wait now : N)
    (s : LockState) (ex : PessimisticLockRecord) :
  Str.trim tx ≠ "" → Str.trim r ≠ "" →
  locks s !! Str.trim r = Some ex → now < expires_unix_ms ex →
  transaction_id ex ≠ Str.trim tx → 0 < wait →
  (S (size (waits s)) < N.to_nat max_hops)%nat →
  let '(resp, s') := acquire_pessimistic_lock max_hops tx r own ttl wait now s in
  let ends := Acc (flip (waits_for (waits s') (locks s'))) (Str.trim tx) in
  locks s' = locks s ∧ waits s' !! Str.trim tx = Some (Str.trim r) ∧
  (lock_state resp = "deadlock_risk" ∧ ¬ ends ∨
   lock_state resp = "wait_timeout" ∧ reason resp = "pessimistic_lock_wait_timeout" ∧ ends).
Proof.
  intros Htx Hr Hex Hexp Hother Hwait Hhops. unfold acquire_pessimistic_lock.
  rewrite (proj2 (String.eqb_neq _ _) Htx), (proj2 (String.eqb_neq _ _) Hr), Hex. simpl.
  destruct (N.leb_spec (expires_unix_ms ex) now); [lia|].
  rewrite (proj2 (String.eqb_neq _ _) Hother). simpl. destruct (N.ltb_spec 0 wait); [|lia].
  set (w' := <[Str.trim tx := Str.trim r]> (delete (Str.trim tx) (waits s))).
  assert (Hb : waits_for w' (locks s) (Str.trim tx) (transaction_id ex)).
  { unfold waits_for, blocker, w'. by rewrite lookup_insert_eq, Hex. }
  assert (Hw : w' !! Str.trim tx = Some (Str.trim r)) by apply lookup_insert_eq.
  pose proof (scan_decides w' (locks s) (N.to_nat max_hops) (Str.trim tx) ∅ (transaction_id ex)
    (tc_once _ _ _ Hb) ltac:(set_solver)) as Hscan.
  pose proof (blocker_Some_Acc w' (locks s) (Str.trim tx) (transaction_id ex) Hb) as Hiff.
  unfold evaluate_deadlock_scan_outcome.
  destruct (scan _ w' _ _ _ _); simpl; (split_and!; [done|done|]); [left|exfalso|right].
  - split; [done|]. by rewrite Hiff.
  - assert (size w' <= S (size (waits s)))%nat; [|rewrite difference_empty_L, size_dom in Hscan; lia].
    unfold w'. rewrite map_size_insert_None by apply lookup_delete_eq.
    rewrite map_size_delete. destruct (waits s !! Str.trim tx); unfold id; simpl; lia.
  - split_and!; [done..|]. by rewrite Hiff.
Qed.

Lemma deadlock_detected_exactly_witness :
  let s := mkState {["a" := mkLock "p1" "t1" "a" "o" 0 9000; "b" := mkLock "p2" "t2" "b" "o" 0 9000]}
             {["t1" := "b"]} 3 (metrics empty) in
  let '(resp, s') := acquire_pessimistic_lock 8 "t2" "a" "o" 1000 5 1 s in
  lock_state resp = "deadlock_risk" ∧ ¬ Acc (flip (waits_for (waits s') (locks s'))) "t2".
Proof.
  intros s.
  pose proof (deadlock_detected_exactly 8 "t2" "a" "o" 1000 5 1 s (mkLock "p1" "t1" "a" "o" 0 9000)
    ltac:(done) ltac:(done) eq_refl ltac:(done) ltac:(done) ltac:(done)
    ltac:(vm_compute; lia)) as H.
  assert (Hs : lock_state (acquire_pessimistic_lock 8 "t2" "a" "o" 1000 5 1 s).1 = "deadlock_risk")
    by (vm_compute; reflexivity).
  destruct (acquire_pessimistic_lock 8 "t2" "a" "o" 1000 5 1 s) as [resp s'].
  destruct H as (_ & _ & [H|[H _]]); [exact H|]. simpl in Hs. congruence.
Defined.

(** ** Well-formed tables *)

Record wf (s : LockState) : Prop := {
  wf_record : ∀ r rec, locks s !! r = Some rec →
    resource rec = r ∧ r ≠ "" ∧ transaction_id rec ≠ "" ∧
    acquired_unix_ms rec + 1000 <= expires_unix_ms rec <= acquired_unix_ms rec + 300000 ∧
    ∃ n, n < lock_counter s ∧ lock_id rec = "plock-" +:+ Dec.to_string n;
  wf_ids : ∀ r1 r2 rec1 rec2, locks s !! r1 = Some rec1 → locks s !! r2 = Some rec2 →
    lock_id rec1 = lock_id rec2 → r1 = r2;
}.

Lemma append_inj (a b c : string) : a +:+ b = a +:+ c → b = c.
Proof. induction a as [|x a IH]; simpl; [done|]. intros [= H]. by apply IH. Qed.

Lemma wf_submap s s' :
  locks s' ⊆ locks s → lock_counter s' = lock_counter s → wf s → wf s'.
Proof.
  intros Hsub Hc [Hr Hi]. split.
  - intros r rec H. rewrite Hc. apply Hr. by eapply lookup_weaken.
  - intros r1 r2 e1 e2 H1 H2. eapply Hi; by eapply lookup_weaken.
Qed.

Lemma grant_wf tx r own ttl now s :
  tx ≠ "" → r ≠ "" → 1000 <= ttl <= 300000 → lock_counter s < u64_max →
  wf s → wf (grant_lock tx r own ttl now s).2.
Proof.
  intros Htx Hr Httl Hc [Hrec Hids]. unfold grant_lock. simpl.
  assert (Hadd : u64_add (lock_counter s) 1 = lock_counter s + 1)
    by (apply u64_add_small; unfold u64_modulus, u64_max in *; lia).
  assert (Hfresh : ∀ r0 rec0, locks s !! r0 = Some rec0 →
    lock_id rec0 ≠ "plock-" +:+ Dec.to_string (lock_counter s)).
  { intros r0 rec0 H0 Heq. destruct (Hrec r0 rec0 H0) as (_ & _ & _ & _ & n & Hn & Hid).
    rewrite Hid in Heq. apply append_inj, Dec.to_string_inj in Heq. lia. }
  split; simpl.
  - intros r0 rec0 [[<- <-]|[_ H0]]%lookup_insert_Some.
    + simpl. split_and!; [done..|lia|lia|]. exists (lock_counter s). split; [lia|done].
    + destruct (Hrec r0 rec0 H0) as (? & ? & ? & [? ?] & n & Hn & Hid). split_and!; [done..|].
      exists n. split; [lia|done].
  - intros r1 r2 e1 e2 [[<- <-]|[Hn1 H1]]%lookup_insert_Some [[<- <-]|[Hn2 H2]]%lookup_insert_Some Heq;
      [done| | |by eapply Hids]; simpl in Heq; exfalso.
    + by eapply (Hfresh r2 e2).
    + by eapply (Hfresh r1 e1).
Qed.

Lemma acquire_wf hops tx r own ttl wait now s :
  1000 <= ttl <= 300000 → lock_counter s < u64_max → wf s →
  wf (acquire_pessimistic_lock hops tx r own ttl wait now s).2.
Proof.
  intros Httl Hc Hwf. unfold acquire_pessimistic_lock.
  destruct (String.eqb_spec (Str.trim tx) ""), (String.eqb_spec (Str.trim r) ""); simpl; try done.
  assert (Hg : ∀ l w, l ⊆ locks s →
    wf (grant_lock (Str.trim tx) (Str.trim r) own ttl now (set_tables l w s)).2).
  { intros l w Hl. apply grant_wf; [done..|]. by eapply wf_submap; [exact Hl| |]. }
  destruct (locks s !! Str.trim r); [|by apply Hg].
  destruct (_ <=? _); [apply Hg, delete_subseteq|]. destruct (negb _); [|by apply Hg].
  destruct (0 <? wait); [destruct (evaluate_deadlock_scan_outcome _ _ _ _ _)|];
    by eapply wf_submap; [| |exact Hwf].
Qed.

Lemma acquire_counter hops tx r own ttl wait now s :
  lock_counter s < u64_max →
  lock_counter s <= lock_counter (acquire_pessimistic_lock hops tx r own ttl wait now s).2
  <= lock_counter s + 1.
Proof.
  intros Hc. unfold acquire_pessimistic_lock.
  assert (Hadd : u64_add (lock_counter s) 1 = lock_counter s + 1)
    by (apply u64_add_small; unfold u64_modulus, u64_max in *; lia).
  destruct (_ || _); [simpl; lia|].
  destruct (locks s !! Str.trim r); [|simpl; lia]. destruct (_ <=? _); [simpl; lia|].
  destruct (negb _); [|simpl; lia].
  destruct (0 <? wait); [destruct (evaluate_deadlock_scan_outcome _ _ _ _ _)|]; simpl; lia.
Qed.

Lemma clamp_ttl n : 1000 <= clamp 1000 300000 n <= 300000.
Proof. unfold clamp. lia. Qed.

Lemma exec_op_wf o s :
  lock_counter s < u64_max → wf s →
  wf (exec_op o s).2 ∧ lock_counter s <= lock_counter (exec_op o s).2 <= lock_counter s + 1.
Proof.
  intros Hc Hwf. destruct o as [env tx r own ttl wait now|tx r|a]; simpl.
  - unfold sql_pessimistic_lock_acquire. set (T := clamp _ _ _). set (O := default _ own).
    pose proof (acquire_wf (deadlock_scan_max_hops env) tx r O T (default 0 wait) now s
      (clamp_ttl _) Hc Hwf) as H1.
    pose proof (acquire_counter (deadlock_scan_max_hops env) tx r O T (default 0 wait) now s Hc) as H2.
    destruct (acquire_pessimistic_lock _ _ _ _ _ _ _ _) as [resp s']. simpl in *.
    split; [by eapply wf_submap; [| |exact H1]|done].
  - unfold sql_pessimistic_lock_release, release_pessimistic_lock.
    destruct (_ || _); [simpl; split; [done|lia]|].
    destruct (locks s !! Str.trim r); [|simpl; split; [done|lia]].
    destruct (negb _); simpl; (split; [|lia]); [done|].
    apply (wf_submap s); [|reflexivity|exact Hwf]. apply delete_subseteq.
  - unfold lock_control. destruct a as [|id|tx|tx]; simpl; [by split; [|lia]| | |].
    + unfold kill_lock. destruct (locks s !! id); simpl; (split; [|lia]); [|done].
      apply (wf_submap s); [|reflexivity|exact Hwf]. apply delete_subseteq.
    + destruct (0 <? _); simpl; (split; [|lia]);
        (apply (wf_submap s); [|reflexivity|exact Hwf]; simpl; apply map_filter_subseteq).
    + destruct (0 <? _); simpl; (split; [|lia]);
        (apply (wf_submap s); [|reflexivity|exact Hwf]; simpl; apply map_filter_subseteq).
Qed.

(** C38: the lock table is well typed.  In every history of requests, releases and
    administrator actions, each entry sits under its own resource, names a
    transaction, lasts between one second and five minutes, and lock ids are
    unique (below 2^64 grants). *)
Theorem lock_table_well_typed (ops : list lock_op) :
  N.of_nat (length ops) < u64_max →
  let s := (exec ops empty).2 in
  (∀ r rec, locks s !! r = Some rec →
     resource rec = r ∧ r ≠ "" ∧ transaction_id rec ≠ "" ∧
     acquired_unix_ms rec + 1000 <= expires_unix_ms rec <= acquired_unix_ms rec + 300000) ∧
  (∀ r1 r2 rec1 rec2, locks s !! r1 = Some rec1 → locks s !! r2 = Some rec2 →
     lock_id rec1 = lock_id rec2 → r1 = r2).
Proof.
  intros Hlen s.
  assert (Hgen : ∀ ops s, lock_counter s + N.of_nat (length ops) <= u64_max → wf s →
    wf (exec ops s).2).
  { clear. induction ops as [|o ops IH]; intros s Hc Hwf; [done|]. simpl in *.
    destruct (exec_op_wf o s) as [H1 H2]; [lia|done|]. destruct (exec_op o s) as [h s1].
    specialize (IH s1). destruct (exec ops s1). apply IH; [simpl in H2; lia|done]. }
  destruct (Hgen ops empty) as [Hr Hi]; [simpl; lia|by split; simpl; intros *; rewrite lookup_empty|].
  split; [|exact Hi]. intros r rec H. destruct (Hr r rec H) as (? & ? & ? & [? ?] & _). by split_and!.
Qed.

Lemma lock_table_well_typed_witness :
  ∃ rec, locks (exec [LAcquire None "t1" "a" None (Some 5) None 7] empty).2 !! "a" = Some rec ∧
    acquired_unix_ms rec + 1000 <= expires_unix_ms rec.
Proof.
  destruct (locks (exec [LAcquire None "t1" "a" None (Some 5) None 7] empty).2 !! "a")
    as [rec|] eqn:E; [|vm_compute in E; discriminate].
  exists rec. split; [reflexivity|].
  apply (proj1 (lock_table_well_typed [LAcquire None "t1" "a" None (Some 5) None 7]
    ltac:(vm_compute; reflexivity)) "a" rec E).
Defined.

(** Killing a lock by its id.  The table is keyed by resource, so an id only
    matches a resource of that name: on any other table nothing is released. *)
Lemma kill_by_lock_id_misses `{!MapOrder PessimisticLockRecord} (s : LockState) (r : string)
    (rec : PessimisticLockRecord) (now : N) (acid : AcidTx.Registry) :
  locks s !! r = Some rec → locks s !! lock_id rec = None →
  admin_sql_lock_control (mkControl "kill_lock" (Some (lock_id rec)) None) now s acid
  = (mkControlled 200 "ok" "kill_lock" 0 (size (locks s)) (iter_values (locks s)) [], s, acid).
Proof.
  intros _ Hn. unfold admin_sql_lock_control, lock_control, kill_lock. simpl. by rewrite !Hn.
Qed.
