(* ===== verification/HtapSync.v ===== *)
(** * Row-to-column synchronisation
      ([crates/voltnuerongrid-store/src/htap_sync.rs])

    The origin that numbers committed mutations, the replica that replays
    batches of them, the in-memory and the pull transport. *)

From S2P Require Import Prelude Str Decimal.
Open Scope string_scope.
Open Scope list_scope.
Open Scope N_scope.

Module HtapSync.

Inductive MutationOp := Insert | Update | Delete.

Record RowMutation := mkMutation {
  sequence : N;
  table : string;
  primary_key : string;
  payload_json : string;
  op : MutationOp;
}.

Record SyncOriginCheckpoint := mkCheckpoint { last_sequence : N; pending_count : nat }.

Record SequenceGap := mkGap { expected : N; actual : N }.

Record OutOfOrderSequence := mkOutOfOrder { previous : N; current : N }.

(** ** The origin *)

Record RowStoreSyncOrigin := mkOrigin {
  next_sequence : N;
  last_acknowledged_sequence : N;
  pending : list RowMutation;
  last_mutation_epoch_ms : N;
}.

Record SyncOriginSnapshot := mkOriginSnapshot {
  ss_next_sequence : N;
  ss_last_acknowledged_sequence : N;
  ss_pending : list RowMutation;
}.

Definition origin_new : RowStoreSyncOrigin := mkOrigin 1 0 [] 0.

Definition append (now_ms : N) (tbl key payload : string) (o : MutationOp)
    (s : RowStoreSyncOrigin) : RowMutation * RowStoreSyncOrigin :=
  let m := mkMutation (next_sequence s) tbl key payload o in
  (m, mkOrigin (u64_add (next_sequence s) 1) (last_acknowledged_sequence s)
        (pending s ++ [m]) now_ms).

Definition export_batch (max_items : nat) (s : RowStoreSyncOrigin) : list RowMutation :=
  take max_items (pending s).

Definition export_since (last : N) (max_items : nat) (s : RowStoreSyncOrigin)
    : list RowMutation :=
  take max_items (filter (fun m => last < sequence m) (pending s)).

Definition ack_through (seq : N) (s : RowStoreSyncOrigin) : RowStoreSyncOrigin :=
  mkOrigin (next_sequence s) (N.max (last_acknowledged_sequence s) seq)
    (filter (fun m => seq < sequence m) (pending s)) (last_mutation_epoch_ms s).

Definition checkpoint (s : RowStoreSyncOrigin) : SyncOriginCheckpoint :=
  mkCheckpoint (last_acknowledged_sequence s) (length (pending s)).

Definition pending_len (s : RowStoreSyncOrigin) : nat := length (pending s).

Definition snapshot (s : RowStoreSyncOrigin) : SyncOriginSnapshot :=
  mkOriginSnapshot (next_sequence s) (last_acknowledged_sequence s) (pending s).

Definition restore (snap : SyncOriginSnapshot) : RowStoreSyncOrigin :=
  mkOrigin (ss_next_sequence snap) (ss_last_acknowledged_sequence snap) (ss_pending snap) 0.

Definition remove_sequence_for_fault_injection (seq : N) (s : RowStoreSyncOrigin)
    : bool * RowStoreSyncOrigin :=
  let p := filter (fun m => sequence m ≠ seq) (pending s) in
  (negb (length (pending s) =? length p)%nat,
   mkOrigin (next_sequence s) (last_acknowledged_sequence s) p (last_mutation_epoch_ms s)).

(** The loop of [detect_sequence_gaps] over the sorted batch. *)
Fixpoint gap_loop (exp : N) (l : list RowMutation) : list SequenceGap :=
  match l with
  | [] => []
  | m :: l' =>
      if sequence m =? exp then gap_loop (u64_add exp 1) l'
      else mkGap exp (sequence m) :: gap_loop (u64_add (sequence m) 1) l'
  end.

Definition detect_sequence_gaps (batch : list RowMutation) : list SequenceGap :=
  match sort_by_key sequence batch with
  | [] => []
  | m :: l => gap_loop (sequence m) (m :: l)
  end.

Fixpoint duplicate_loop (seen : gset N) (l : list RowMutation) : list N :=
  match l with
  | [] => []
  | m :: l' =>
      if decide (sequence m ∈ seen) then sequence m :: duplicate_loop seen l'
      else duplicate_loop ({[sequence m]} ∪ seen) l'
  end.

(** [DuplicateSequence] is the number itself. *)
Definition detect_duplicate_sequences (batch : list RowMutation) : list N :=
  duplicate_loop ∅ batch.

Fixpoint detect_out_of_order (batch : list RowMutation) : list OutOfOrderSequence :=
  match batch with
  | m1 :: ((m2 :: _) as l) =>
      if sequence m2 <=? sequence m1
      then mkOutOfOrder (sequence m1) (sequence m2) :: detect_out_of_order l
      else detect_out_of_order l
  | _ => []
  end.

(** ** The replica *)

Record ReplicaReplayState := mkReplica {
  node_id : string;
  last_applied_sequence : N;
  applied : list RowMutation;
}.

Record ReplicaReplayReport := mkReport {
  applied_count : nat;
  report_last_applied : N;
  gaps : list SequenceGap;
  duplicates : list N;
  out_of_order : list OutOfOrderSequence;
}.

Definition replica_new (id : string) : ReplicaReplayState := mkReplica id 0 [].

Definition apply_batch (batch : list RowMutation) (s : ReplicaReplayState)
    : ReplicaReplayReport * ReplicaReplayState :=
  let first_gap :=
    match batch with
    | [] => []
    | m :: _ =>
        let exp := u64_add (last_applied_sequence s) 1 in
        if sequence m =? exp then [] else [mkGap exp (sequence m)]
    end in
  let gs := first_gap ++ detect_sequence_gaps batch in
  let ds := detect_duplicate_sequences batch in
  let os := detect_out_of_order batch in
  match gs, ds, os with
  | [], [], [] =>
      let last_seq := match last batch with
                      | Some m => sequence m | None => last_applied_sequence s end in
      (mkReport (length batch) last_seq gs ds os,
       mkReplica (node_id s) last_seq (applied s ++ batch))
  | _, _, _ => (mkReport 0 (last_applied_sequence s) gs ds os, s)
  end.

Definition build_failover_handoff_batch (origin : RowStoreSyncOrigin) (max_items : nat)
    (s : ReplicaReplayState) : list RowMutation :=
  export_since (last_applied_sequence s) max_items origin.

(** ** Transports *)

Record ReplicationTransportEvent := mkEvent {
  transport_sequence : N;
  source_node_id : string;
  target_node_id : string;
  transport : string;
  mutation : RowMutation;
}.

Record InMemoryReplicationTransport := mkTransport {
  next_transport_sequence : N;
  next_mutation_sequence : N;
  events : list ReplicationTransportEvent;
}.

Definition transport_new : InMemoryReplicationTransport := mkTransport 1 1 [].

Definition publish (src tgt tr tbl key payload : string) (o : MutationOp)
    (s : InMemoryReplicationTransport)
    : ReplicationTransportEvent * InMemoryReplicationTransport :=
  let e := mkEvent (next_transport_sequence s) src tgt tr
             (mkMutation (next_mutation_sequence s) tbl key payload o) in
  (e, mkTransport (u64_add (next_transport_sequence s) 1)
        (u64_add (next_mutation_sequence s) 1) (events s ++ [e])).

Definition addressed (target : string) (e : ReplicationTransportEvent) : bool :=
  String.eqb (target_node_id e) target || String.eqb (target_node_id e) "*".

Definition export_for_target_since (target : string) (last : N) (max_items : nat)
    (s : InMemoryReplicationTransport) : list RowMutation :=
  map mutation
    (take max_items
       (filter (fun e => addressed target e = true ∧ last < sequence (mutation e)) (events s))).

Definition pending_for_target (target : string) (s : InMemoryReplicationTransport) : nat :=
  length (filter (fun e => addressed target e = true) (events s)).

Record RaftPiggybackTransport := mkPiggyback {
  pb_node_id : string;
  leader_sync_url : option string;
  pb_last_applied_sequence : N;
  cluster_token : option string;
}.

Definition piggyback_new (id : string) (url token : option string) : RaftPiggybackTransport :=
  mkPiggyback id url 0 token.

Definition pull_from_origin (origin : RowStoreSyncOrigin) (max_items : nat)
    (s : RaftPiggybackTransport) : list RowMutation * RaftPiggybackTransport :=
  let batch := export_since (pb_last_applied_sequence s) max_items origin in
  (batch,
   match last batch with
   | Some m => mkPiggyback (pb_node_id s) (leader_sync_url s) (sequence m) (cluster_token s)
   | None => s
   end).

Definition piggyback_apply_batch (batch : list RowMutation) (s : RaftPiggybackTransport)
    : RaftPiggybackTransport :=
  match last batch with
  | Some m => mkPiggyback (pb_node_id s) (leader_sync_url s)
                (N.max (pb_last_applied_sequence s) (sequence m)) (cluster_token s)
  | None => s
  end.

Definition build_pull_url (s : RaftPiggybackTransport) : option string :=
  (fun base => base +:+ "?since=" +:+ Dec.to_string (pb_last_applied_sequence s)
               +:+ "&node_id=" +:+ pb_node_id s) <$> leader_sync_url s.

End HtapSync.

Import HtapSync.

(** ** Consecutive batches *)

(** [l] carries the sequence numbers [s + 1, s + 2, ...]. *)
Definition consecutive (s : N) (l : list RowMutation) : Prop :=
  ∀ i m, l !! i = Some m → sequence m = s + N.of_nat i + 1.

Lemma consecutive_nil s : consecutive s [].
Proof. intros i m H. by rewrite lookup_nil in H. Qed.

Lemma consecutive_cons s m l :
  consecutive s (m :: l) ↔ sequence m = s + 1 ∧ consecutive (s + 1) l.
Proof.
  split.
  - intros H. split; [specialize (H 0%nat m eq_refl); lia|].
    intros i m' Hi. specialize (H (S i) m' Hi). lia.
  - intros [Hm Hl] [|i] m' Hi; simpl in Hi; [simplify_eq; lia|].
    specialize (Hl i m' Hi). lia.
Qed.

Lemma consecutive_app s l1 l2 :
  consecutive s (l1 ++ l2) ↔ consecutive s l1 ∧ consecutive (s + N.of_nat (length l1)) l2.
Proof.
  revert s. induction l1 as [|m l1 IH]; intros s.
  - cbn [length app N.of_nat]. rewrite N.add_0_r. split; [|by intros [_ ?]].
    intros H; split; [apply consecutive_nil|done].
  - cbn [length app]. rewrite !consecutive_cons, IH.
    replace (s + N.of_nat (S (length l1))) with (s + 1 + N.of_nat (length l1)) by lia.
    tauto.
Qed.

Lemma consecutive_last s l m :
  consecutive s l → last l = Some m → sequence m = s + N.of_nat (length l).
Proof.
  intros Hc Hl. rewrite last_lookup in Hl.
  assert (length l ≠ 0%nat) by (by destruct l). rewrite (Hc _ _ Hl). lia.
Qed.

Lemma consecutive_lower s l m : consecutive s l → m ∈ l → s < sequence m.
Proof. intros Hc (i & Hi)%list_elem_of_lookup. rewrite (Hc i m Hi). lia. Qed.

Lemma consecutive_sorted s l :
  consecutive s l → StronglySorted (fun a b => sequence a <= sequence b) l.
Proof.
  revert s. induction l as [|m l IH]; intros s; [constructor|].
  rewrite consecutive_cons. intros [Hm Hl]. constructor; [by eapply IH|].
  rewrite Forall_forall. intros m' Hm'. pose proof (consecutive_lower _ _ _ Hl Hm'). simpl. lia.
Qed.

Section Detectors.

#[local] Instance consecutive_dec s l : Decision (consecutive s l).
Proof.
  revert s. induction l as [|m l IH]; intros s; [left; apply consecutive_nil|].
  destruct (decide (sequence m = s + 1)), (IH (s + 1));
    [left|right|right|right]; rewrite consecutive_cons; tauto.
Defined.

Lemma out_of_order_cons m1 m2 l :
  detect_out_of_order (m1 :: m2 :: l) =
  if sequence m2 <=? sequence m1
  then mkOutOfOrder (sequence m1) (sequence m2) :: detect_out_of_order (m2 :: l)
  else detect_out_of_order (m2 :: l).
Proof. done. Qed.

Lemma gap_loop_consecutive s l :
  consecutive s l → s + N.of_nat (length l) < u64_max → gap_loop (s + 1) l = [].
Proof.
  revert s. induction l as [|m l IH]; intros s; [done|].
  rewrite consecutive_cons. simpl. intros [Hm Hl] Hlen.
  rewrite (proj2 (N.eqb_eq _ _) Hm), u64_add_small by (unfold u64_modulus, u64_max in *; lia).
  apply IH; [done|lia].
Qed.

Lemma duplicate_loop_fresh seen l :
  NoDup (map sequence l) → (∀ m, m ∈ l → sequence m ∉ seen) → duplicate_loop seen l = [].
Proof.
  revert seen. induction l as [|m l IH]; intros seen Hnd Hs; [done|]. simpl in *.
  apply NoDup_cons in Hnd as [Hm Hnd].
  rewrite decide_False by (apply Hs; by left). apply IH; [done|].
  intros m' Hm'. assert (sequence m' ≠ sequence m).
  { intros Heq. apply Hm. rewrite <- Heq. by apply list_elem_of_fmap_2. }
  assert (sequence m' ∉ seen) by (apply Hs; by right). set_solver.
Qed.

Lemma consecutive_NoDup s l : consecutive s l → NoDup (map sequence l).
Proof.
  revert s. induction l as [|m l IH]; intros s; [constructor|].
  rewrite consecutive_cons. intros [Hm Hl]. constructor; [|by eapply IH].
  intros (m' & Heq & Hm')%list_elem_of_fmap. pose proof (consecutive_lower _ _ _ Hl Hm'). lia.
Qed.

Lemma out_of_order_consecutive s l : consecutive s l → detect_out_of_order l = [].
Proof.
  revert s. induction l as [|m l IH]; intros s; [done|].
  rewrite consecutive_cons. intros [Hm Hl]. destruct l as [|m2 l]; [done|].
  rewrite out_of_order_cons.
  pose proof (consecutive_lower _ _ m2 Hl ltac:(by left)).
  destruct (N.leb_spec (sequence m2) (sequence m)); [lia|]. by eapply IH.
Qed.

(** No report of disorder and no gap: strictly increasing by one. *)
Lemma no_reports_consecutive s l :
  detect_out_of_order l = [] → gap_loop (s + 1) l = [] →
  (∀ m, m ∈ l → sequence m < u64_max) → consecutive s l.
Proof.
  revert s. induction l as [|m l IH]; intros s Ho Hg Hlen; [apply consecutive_nil|].
  simpl in Hg. destruct (N.eqb_spec (sequence m) (s + 1)) as [Hm|]; [|done].
  pose proof (Hlen m ltac:(by left)).
  rewrite u64_add_small in Hg by (unfold u64_modulus, u64_max in *; lia).
  apply consecutive_cons. split; [done|]. apply IH; [|done|intros; apply Hlen; by right].
  destruct l as [|m2 l]; [done|].
  rewrite out_of_order_cons in Ho. by destruct (_ <=? _).
Qed.

Lemma in_order_sorted l :
  detect_out_of_order l = [] → StronglySorted (fun a b => sequence a <= sequence b) l.
Proof.
  intros Ho. apply Sorted_StronglySorted; [intros a b c; lia|].
  induction l as [|m l IH]; [constructor|]. destruct l as [|m2 l]; [repeat constructor|].
  rewrite out_of_order_cons in Ho.
  destruct (N.leb_spec (sequence m2) (sequence m)); [done|].
  constructor; [by apply IH|]. constructor. lia.
Qed.

(** A batch is applied, as a whole, exactly when it continues the replica's
    sequence; otherwise nothing changes. *)
Lemma apply_batch_spec batch s :
  last_applied_sequence s < u64_max → (∀ m, m ∈ batch → sequence m < u64_max) →
  (consecutive (last_applied_sequence s) batch ∧
   applied_count (apply_batch batch s).1 = length batch ∧
   (apply_batch batch s).2 =
     mkReplica (node_id s) (last_applied_sequence s + N.of_nat (length batch)) (applied s ++ batch)) ∨
  (¬ consecutive (last_applied_sequence s) batch ∧
   applied_count (apply_batch batch s).1 = 0%nat ∧ (apply_batch batch s).2 = s).
Proof.
  intros Hlast Hseq. unfold apply_batch. rewrite u64_add_small by (unfold u64_modulus, u64_max in *; lia).
  set (fg := match batch with [] => [] | m :: _ => _ end).
  destruct (decide (consecutive (last_applied_sequence s) batch)) as [Hc|Hc];
    [left|right; split; [done|]].
  - assert (fg = []) as ->.
    { subst fg. destruct batch as [|m l]; [done|]. apply consecutive_cons in Hc as [-> _].
      by rewrite N.eqb_refl. }
    assert (detect_sequence_gaps batch = []) as ->.
    { unfold detect_sequence_gaps. rewrite sort_by_key_id by (by eapply consecutive_sorted).
      destruct batch as [|m l]; [done|]. pose proof Hc as Hc'.
      apply consecutive_cons in Hc as [Hm _]. rewrite Hm. apply gap_loop_consecutive; [done|].
      destruct (last (m :: l)) as [m'|] eqn:Hl; [|by apply last_None in Hl].
      rewrite <- (consecutive_last _ _ _ Hc' Hl). apply Hseq. by apply last_Some_elem_of. }
    unfold detect_duplicate_sequences.
    rewrite duplicate_loop_fresh by (try (by eapply consecutive_NoDup); set_solver).
    rewrite (out_of_order_consecutive _ _ Hc). simpl. split_and!; [done..|]. f_equal.
    destruct (last batch) as [m|] eqn:Hl; [by eapply consecutive_last|].
    apply last_None in Hl as ->. simpl. lia.
  - destruct (fg ++ detect_sequence_gaps batch) eqn:Hg; [|done].
    destruct (detect_duplicate_sequences batch); [|done].
    destruct (detect_out_of_order batch) eqn:Ho; [|done]. exfalso. apply Hc.
    apply app_nil in Hg as [Hf Hg]. destruct batch as [|m l]; [apply consecutive_nil|].
    subst fg. destruct (N.eqb_spec (sequence m) (last_applied_sequence s + 1)) as [Hm|]; [|done].
    apply no_reports_consecutive; [done| |done]. unfold detect_sequence_gaps in Hg.
    rewrite sort_by_key_id in Hg by (by apply in_order_sorted). by rewrite <- Hm.
Qed.

End Detectors.

(** ** An origin and a replica *)

(** [history] lists every mutation the origin ever numbered. *)
Record SyncState := mkSync {
  history : list RowMutation;
  origin : RowStoreSyncOrigin;
  replica : ReplicaReplayState;
}.

Definition pull (max_items : nat) (r : ReplicaReplayState) (o : RowStoreSyncOrigin)
    : ReplicaReplayState :=
  (apply_batch (build_failover_handoff_batch o max_items r) r).2.

(** The network may lose, repeat, reorder, split and join what the origin
    exported: a delivered batch is any list of numbered mutations.  The origin
    may be acknowledged at any sequence and restarted from its snapshot. *)
Inductive sync_step : SyncState -> SyncState -> Prop :=
| sy_append h o r now tbl key payload op :
    next_sequence o < u64_max →
    sync_step (mkSync h o r)
      (let '(m, o') := append now tbl key payload op o in mkSync (h ++ [m]) o' r)
| sy_ack h o r seq : sync_step (mkSync h o r) (mkSync h (ack_through seq o) r)
| sy_restart h o r : sync_step (mkSync h o r) (mkSync h (restore (snapshot o)) r)
| sy_deliver h o r batch :
    (∀ m, m ∈ batch → m ∈ h) →
    sync_step (mkSync h o r) (mkSync h o (apply_batch batch r).2)
| sy_pull h o r max_items : sync_step (mkSync h o r) (mkSync h o (pull max_items r o)).

Definition sync_init (id : string) : SyncState := mkSync [] origin_new (replica_new id).

Record sync_inv (s : SyncState) : Prop := {
  inv_history : consecutive 0 (history s);
  inv_next : next_sequence (origin s) = N.of_nat (length (history s)) + 1;
  inv_bound : next_sequence (origin s) <= u64_max;
  inv_pending : ∃ a, (a <= length (history s))%nat ∧ pending (origin s) = drop a (history s) ∧
    N.of_nat a <= last_acknowledged_sequence (origin s);
  inv_applied : ∃ k, (k <= length (history s))%nat ∧
    applied (replica s) = take k (history s) ∧
    last_applied_sequence (replica s) = N.of_nat k;
}.

(** Continuing a prefix of the history with its own mutations. *)
Lemma consecutive_from_history h k batch :
  consecutive 0 h → consecutive (N.of_nat k) batch → (∀ m, m ∈ batch → m ∈ h) →
  (k <= length h)%nat →
  (k + length batch <= length h)%nat ∧ take k h ++ batch = take (k + length batch) h.
Proof.
  intros Hh Hb Hin Hk.
  assert (Hpos : ∀ i m, batch !! i = Some m → h !! (k + i)%nat = Some m).
  { intros i m Hi. assert (m ∈ h) as (j & Hj)%list_elem_of_lookup
      by (by eapply Hin, list_elem_of_lookup_2).
    pose proof (Hh j m Hj). pose proof (Hb i m Hi). by replace (k + i)%nat with j by lia. }
  assert (Hlen : (k + length batch <= length h)%nat).
  { destruct (length batch) as [|n] eqn:Hn; [lia|].
    destruct (lookup_lt_is_Some_2 batch n) as [m Hm]; [lia|].
    apply Hpos, lookup_lt_Some in Hm. lia. }
  split; [done|]. rewrite <- take_take_drop. f_equal. apply list_eq. intros i.
  destruct (decide (i < length batch)%nat).
  - destruct (lookup_lt_is_Some_2 batch i) as [m Hm]; [done|].
    rewrite lookup_take_lt, lookup_drop, Hm by done. symmetry. by apply Hpos.
  - rewrite lookup_take_ge by lia. apply lookup_ge_None. lia.
Qed.

Lemma sync_deliver_inv h o r batch :
  sync_inv (mkSync h o r) → (∀ m, m ∈ batch → m ∈ h) →
  sync_inv (mkSync h o (apply_batch batch r).2).
Proof.
  intros [Hh Hn Hb Hp (k & Hk & Ha & Hl)] Hin. simpl in *.
  assert (Hseq : ∀ m, m ∈ batch → sequence m < u64_max).
  { intros m (j & Hj)%Hin%list_elem_of_lookup. rewrite (Hh j m Hj).
    apply lookup_lt_Some in Hj. lia. }
  destruct (apply_batch_spec batch r) as [(Hc & _ & ->)|(_ & _ & ->)]; [lia|done| |].
  - rewrite Hl in Hc. destruct (consecutive_from_history h k batch) as [Hlen Htake]; [done..|].
    split; simpl; try done. exists (k + length batch)%nat. rewrite Ha, Hl. split_and!; [done..|lia].
  - split; simpl; try done. by exists k.
Qed.

(** The mutations after sequence [x] of a consecutive list. *)
Lemma filter_consecutive s l x :
  consecutive s l → filter (fun m => x < sequence m) l = drop (N.to_nat (x - s)) l.
Proof.
  revert s. induction l as [|m l IH]; intros s Hc; [by rewrite drop_nil|].
  apply consecutive_cons in Hc as [Hm Hl]. rewrite filter_cons, (IH _ Hl).
  destruct (decide (x < sequence m)) as [Hx|Hx].
  - replace (N.to_nat (x - s)) with O by lia. by replace (N.to_nat (x - (s + 1))) with O by lia.
  - by replace (N.to_nat (x - s)) with (S (N.to_nat (x - (s + 1)))) by lia.
Qed.

Lemma consecutive_drop s l n :
  consecutive s l → (n <= length l)%nat → consecutive (s + N.of_nat n) (drop n l).
Proof.
  intros Hc Hn. rewrite <- (take_drop n l) in Hc. apply consecutive_app in Hc as [_ Hc].
  by rewrite length_take_le in Hc by lia.
Qed.

(** An export is a segment of the history. *)
Lemma export_segment h o x mx :
  sync_inv (mkSync h o x) → ∀ last, ∃ n,
  export_since last mx o = take mx (drop n h) ∧ (last_acknowledged_sequence o <= last →
    last <= N.of_nat (length h) → n = N.to_nat last).
Proof.
  intros [Hh _ _ (a & Ha & Hp & Hack) _] last. simpl in *. unfold export_since.
  rewrite Hp, (filter_consecutive (0 + N.of_nat a)) by (by apply consecutive_drop).
  rewrite drop_drop. eexists. split; [done|]. lia.
Qed.

Lemma pull_exports_history h o r m max_items :
  sync_inv (mkSync h o r) → m ∈ build_failover_handoff_batch o max_items r → m ∈ h.
Proof.
  intros Hinv Hm. unfold build_failover_handoff_batch in Hm.
  destruct (export_segment _ _ _ max_items Hinv (last_applied_sequence r)) as (n & Hexp & _).
  rewrite Hexp in Hm.
  eapply elem_of_sublist; [done|]. etransitivity; [apply sublist_take|apply sublist_drop].
Qed.

Lemma sync_step_inv s s' : sync_step s s' → sync_inv s → sync_inv s'.
Proof.
  destruct 1 as [h o r now tbl key payload op Hb|h o r seq|h o r|h o r batch Hin|h o r mx]; intros Hi.
  - destruct Hi as [Hh Hn Hbd (a & Ha & Hp & Hack) (k & Hk & Hap & Hl)]. simpl in *.
    split; simpl; rewrite ?u64_add_small by (unfold u64_modulus, u64_max in *; lia).
    + apply consecutive_app. split; [done|]. apply consecutive_cons. simpl.
      split; [lia|apply consecutive_nil].
    + rewrite length_app. simpl. lia.
    + lia.
    + exists a. rewrite length_app, drop_app_le, Hp by lia. split_and!; [lia|done..].
    + exists k. rewrite length_app, take_app_le by lia. split_and!; [lia|done..].
  - destruct Hi as [Hh Hn Hbd (a & Ha & Hp & Hack) Hk]. split; simpl in *; try done.
    exists (min (length h) (max a (N.to_nat seq))). split_and!; [lia| |lia].
    rewrite Hp, (filter_consecutive (0 + N.of_nat a)) by (by apply consecutive_drop).
    rewrite drop_drop. destruct (decide (max a (N.to_nat seq) <= length h)%nat).
    + f_equal. lia.
    + rewrite !drop_ge by lia. done.
  - by destruct Hi; split.
  - by apply sync_deliver_inv.
  - apply sync_deliver_inv; [done|]. intros m. by apply pull_exports_history.
Qed.

Lemma sync_reachable_inv id s : rtc sync_step (sync_init id) s → sync_inv s.
Proof.
  intros Hs. assert (Hi : sync_inv (sync_init id)).
  { split; simpl; [apply consecutive_nil|lia|unfold u64_max; lia|exists O; split_and!; [lia|done|lia]|].
    exists O. by split_and!. }
  induction Hs as [|s1 s2 s3 Hstep _ IH]; [done|]. by apply IH, (sync_step_inv s1).
Qed.

(** One pull of an up-to-date origin applies the next mutations in order. *)
Lemma pull_advances h o r mx :
  sync_inv (mkSync h o r) → last_acknowledged_sequence o <= last_applied_sequence r →
  let r' := pull mx r o in
  sync_inv (mkSync h o r') ∧ last_acknowledged_sequence o <= last_applied_sequence r' ∧
  last_applied_sequence r'
  = N.min (N.of_nat (length h)) (last_applied_sequence r + N.of_nat mx).
Proof.
  intros Hinv Hack r'. assert (Hinv' : sync_inv (mkSync h o r')).
  { apply sync_deliver_inv; [done|]. intros m. by apply pull_exports_history. }
  split; [done|].
  destruct (export_segment h o r mx Hinv (last_applied_sequence r)) as (n & Hexp & Hn).
  destruct Hinv as [Hh Hnx Hb _ (k & Hk & Ha & Hl)]. simpl in *.
  rewrite Hn in Hexp by lia. clear Hn.
  assert (Hc : consecutive (last_applied_sequence r) (export_since (last_applied_sequence r) mx o)).
  { rewrite Hexp. pose proof (consecutive_drop 0 h k Hh Hk) as Hd. rewrite Hl, Nat2N.id.
    rewrite <- (take_drop mx (drop k h)) in Hd. by apply consecutive_app in Hd as [? _]. }
  subst r'. unfold pull, build_failover_handoff_batch.
  destruct (apply_batch_spec (export_since (last_applied_sequence r) mx o) r)
    as [(_ & _ & ->)|(Hbad & _)]; [lia| | |done].
  - intros m Hm. rewrite Hexp in Hm.
    assert (m ∈ h) as (j & Hj)%list_elem_of_lookup
      by (eapply elem_of_sublist; [done|]; etransitivity; [apply sublist_take|apply sublist_drop]). rewrite (Hh j m Hj).
    apply lookup_lt_Some in Hj. lia.
  - simpl. rewrite Hexp, length_take, length_drop. lia.
Qed.

(** ** Properties *)

(** Replicas never diverge.  Whatever the network loses, repeats, reorders,
    splits or joins, and whatever the origin acknowledges or restarts through,
    the replica has applied exactly the first [last_applied_sequence] mutations
    the origin numbered, in order and each once; a batch is applied as a whole or
    not at all. *)
Theorem replica_applies_prefix (id : string) (s : SyncState) (batch : list RowMutation) :
  rtc sync_step (sync_init id) s → (∀ m, m ∈ batch → m ∈ history s) →
  applied (replica s) = take (N.to_nat (last_applied_sequence (replica s))) (history s) ∧
  (consecutive (last_applied_sequence (replica s)) batch ∧
     applied (apply_batch batch (replica s)).2 = applied (replica s) ++ batch ∨
   (apply_batch batch (replica s)).2 = replica s ∧
     applied_count (apply_batch batch (replica s)).1 = 0%nat).
Proof.
  intros Hs Hin. apply sync_reachable_inv in Hs as [Hh Hn Hb _ (k & Hk & Ha & Hl)].
  split; [by rewrite Ha, Hl, Nat2N.id|].
  destruct (apply_batch_spec batch (replica s)) as [(Hc & _ & Heq)|(_ & Hz & Heq)];
    [lia| |left; by rewrite Heq|by right].
  intros m (j & Hj)%Hin%list_elem_of_lookup. rewrite (Hh j m Hj). apply lookup_lt_Some in Hj. lia.
Qed.

(** Two numbered mutations; the replica first receives them out of order. *)
Definition demo_sync : SyncState :=
  let '(m1, o1) := append 0 "t" "k1" "{}" Insert origin_new in
  let '(m2, o2) := append 0 "t" "k2" "{}" Insert o1 in
  mkSync [m1; m2] o2 (apply_batch [m1] (apply_batch [m2; m1] (replica_new "r")).2).2.

Lemma demo_sync_reachable : rtc sync_step (sync_init "r") demo_sync.
Proof.
  eapply rtc_l; [apply (sy_append _ _ _ 0 "t" "k1" "{}" Insert); done|].
  eapply rtc_l; [apply (sy_append _ _ _ 0 "t" "k2" "{}" Insert); done|].
  eapply rtc_l; [apply (sy_deliver _ _ _ [mkMutation 2 "t" "k2" "{}" Insert; mkMutation 1 "t" "k1" "{}" Insert]);
    set_solver|].
  apply rtc_once, (sy_deliver _ _ _ [mkMutation 1 "t" "k1" "{}" Insert]); set_solver.
Qed.

Lemma replica_applies_prefix_witness :
  applied (replica demo_sync) = [mkMutation 1 "t" "k1" "{}" Insert].
Proof.
  rewrite (proj1 (replica_applies_prefix "r" demo_sync [] demo_sync_reachable ltac:(set_solver))).
  vm_compute. reflexivity.
Defined.

(** Replicas catch up.  From every reachable state in which nothing past the
    replica's position was acknowledged, pulling [n] times with a batch size of
    [mx] brings the replica to the end of the history once [n * mx] covers what
    is missing. *)
Theorem replica_catches_up (id : string) (s : SyncState) (mx n : nat) :
  rtc sync_step (sync_init id) s →
  last_acknowledged_sequence (origin s) <= last_applied_sequence (replica s) →
  (length (history s) <= N.to_nat (last_applied_sequence (replica s)) + n * mx)%nat →
  applied (Nat.iter n (fun r => pull mx r (origin s)) (replica s)) = history s.
Proof.
  intros Hs%sync_reachable_inv Hack Hn. destruct s as [h o r]. simpl in *.
  assert (Hgen : ∀ j, let r' := Nat.iter j (fun r => pull mx r o) r in
    sync_inv (mkSync h o r') ∧ last_acknowledged_sequence o <= last_applied_sequence r' ∧
    last_applied_sequence r' =
      N.min (N.of_nat (length h)) (last_applied_sequence r + N.of_nat (j * mx))).
  { induction j as [|j IH]; simpl.
    - destruct Hs as [? ? ? ? (k & Hk & ? & Hl)]. simpl in *. split_and!; [|done|lia].
      split; simpl; try done. by exists k.
    - destruct IH as (Hi & Ha & Hl). destruct (pull_advances h o _ mx Hi Ha) as (Hi' & Ha' & Hl').
      split_and!; [done..|]. rewrite Hl', Hl. lia. }
  destruct (Hgen n) as (Hi & _ & Hl). set (r' := Nat.iter _ _ _) in *.
  destruct Hi as [_ _ _ _ (k & Hk & Ha & Hk')]. simpl in *.
  rewrite Ha. apply take_ge. lia.
Qed.

Lemma replica_catches_up_witness :
  applied (Nat.iter 1 (fun r => pull 8 r (origin demo_sync)) (replica demo_sync))
  = history demo_sync.
Proof.
  apply (replica_catches_up "r" demo_sync 8 1 demo_sync_reachable);
    [vm_compute; congruence|vm_compute; lia].
Defined.

(** Targeted events cannot be replayed.  Events for other targets consume
    sequence numbers of the in-memory transport, so a replica that exports the
    events addressed to it sees a gap and applies nothing. *)
Lemma targeted_events_rejected :
  let t1 := (publish "a" "b" "mem" "t" "k1" "{}" Insert transport_new).2 in
  let t2 := (publish "a" "c" "mem" "t" "k2" "{}" Insert t1).2 in
  let t3 := (publish "a" "b" "mem" "t" "k3" "{}" Insert t2).2 in
  let '(rep, r) := apply_batch (export_for_target_since "b" 0 10 t3) (replica_new "b") in
  applied_count rep = 0%nat ∧ gaps rep = [mkGap 2 3] ∧ applied r = [].
Proof. vm_compute. done. Qed.
