(* ===== verification/Constraints.v ===== *)
(** * Column constraints ([crates/voltnuerongrid-store/src/constraints.rs])

    [ConstraintManager]: primary key, unique, not-null, foreign key and check
    constraints, their validation and the committed values they track.  [f64]
    parsing and comparison are arguments of the check predicates. *)

From S2P Require Import Prelude Str SqlKind.
From Stdlib Require Import Ascii.
Open Scope string_scope.
Open Scope list_scope.

Module Constraints.

Inductive ConstraintKind := PrimaryKey | Unique | NotNull | ForeignKey | Check.

#[export] Instance kind_eq_dec : EqDecision ConstraintKind.
Proof. solve_decision. Defined.

Record ConstraintDescriptor := mkConstraint {
  name : string;
  table : string;
  column : string;
  kind : ConstraintKind;
  ref_table : option string;
  ref_column : option string;
}.

Inductive ConstraintViolation :=
| PrimaryKeyDuplicate (constraint value : string)
| UniqueDuplicate (constraint value : string)
| NotNullViolation (constraint column : string)
| ForeignKeyViolation (constraint value ref_table ref_column : string)
| CheckViolation (constraint expr value : string)
| ConstraintAlreadyExists (name : string)
| ConstraintNotFound (name : string).

Record ConstraintManager := mkManager {
  constraints : gmap string ConstraintDescriptor;
  unique_sets : gmap string (gset string);
  check_exprs : gmap string string;
}.

Definition new : ConstraintManager := mkManager ∅ ∅ ∅.

(** [Display] *)
Definition violation_message (v : ConstraintViolation) : string :=
  match v with
  | PrimaryKeyDuplicate c v => "primary key '" +:+ c +:+ "' duplicate for value '" +:+ v +:+ "'"
  | UniqueDuplicate c v => "unique constraint '" +:+ c +:+ "' violation for value '" +:+ v +:+ "'"
  | NotNullViolation c col => "not-null constraint '" +:+ c +:+ "' on column '" +:+ col +:+ "'"
  | ForeignKeyViolation c v rt rc =>
      "foreign key '" +:+ c +:+ "' violation: value '" +:+ v +:+ "' not found in '" +:+ rt
      +:+ "." +:+ rc +:+ "'"
  | CheckViolation c e v =>
      "check constraint '" +:+ c +:+ "' violation: value '" +:+ v +:+ "' fails predicate '"
      +:+ e +:+ "'"
  | ConstraintAlreadyExists n => "constraint '" +:+ n +:+ "' already exists"
  | ConstraintNotFound n => "constraint '" +:+ n +:+ "' not found"
  end.

Definition keyed (k : ConstraintKind) : bool :=
  match k with PrimaryKey | Unique => true | _ => false end.

(** ** Registration *)

Definition add_constraint (d : ConstraintDescriptor) (m : ConstraintManager)
    : result unit ConstraintViolation * ConstraintManager :=
  if decide (is_Some (constraints m !! name d)) then (Err (ConstraintAlreadyExists (name d)), m)
  else (Ok tt, mkManager (<[name d := d]> (constraints m))
                 (if keyed (kind d) then <[name d := ∅]> (unique_sets m) else unique_sets m)
                 (check_exprs m)).

Definition add_check_constraint (n t c expr : string) (m : ConstraintManager)
    : result unit ConstraintViolation * ConstraintManager :=
  if decide (is_Some (constraints m !! n)) then (Err (ConstraintAlreadyExists n), m)
  else (Ok tt, mkManager (<[n := mkConstraint n t c Check None None]> (constraints m))
                 (unique_sets m) (<[n := expr]> (check_exprs m))).

Definition drop_constraint (n : string) (m : ConstraintManager)
    : result ConstraintDescriptor ConstraintViolation * ConstraintManager :=
  (match constraints m !! n with Some d => Ok d | None => Err (ConstraintNotFound n) end,
   mkManager (delete n (constraints m)) (delete n (unique_sets m)) (delete n (check_exprs m))).

(** ** Check predicates *)

(** The [f64] operations the predicates use: parsing, [(a - b).abs()],
    [f64::EPSILON], [<], [<=] and the conversion of a length. *)
Class Float64 (F : Type) := {
  parse_f64 : string -> option F;
  f64_abs_diff : F -> F -> F;
  f64_epsilon : F;
  f64_lt : F -> F -> bool;
  f64_le : F -> F -> bool;
  f64_of_nat : nat -> F;
}.

Section CheckPredicate.
Context {F : Type} `{!Float64 F}.

Definition compare_numeric (lhs : F) (op : string) (rhs : F) : bool :=
  if String.eqb op "=" then f64_lt (f64_abs_diff lhs rhs) f64_epsilon
  else if String.eqb op "<>" || String.eqb op "!=" then f64_le f64_epsilon (f64_abs_diff lhs rhs)
  else if String.eqb op ">" then f64_lt rhs lhs
  else if String.eqb op ">=" then f64_le rhs lhs
  else if String.eqb op "<" then f64_lt lhs rhs
  else if String.eqb op "<=" then f64_le lhs rhs
  else true.

Definition trim_quotes : string -> string := Str.trim_matches ["'"; Str.DQUOTE].

(** [value.chars().count()]: bytes that are not UTF-8 continuation bytes. *)
Fixpoint char_count (s : string) : nat :=
  match s with
  | EmptyString => O
  | String c s' =>
      let n := N_of_ascii c in
      if ((128 <=? n) && (n <? 192))%N then char_count s' else S (char_count s')
  end.

(** Tries the operators longest first; the text after the operator is trimmed. *)
Fixpoint split_comparison_ops (ops : list string) (expr : string) : option (string * string) :=
  match ops with
  | [] => None
  | op :: ops' =>
      match Str.split_once op expr with
      | Some (_, rest) =>
          if String.eqb (Str.trim rest) "" then split_comparison_ops ops' expr
          else Some (op, Str.trim rest)
      | None => split_comparison_ops ops' expr
      end
  end.

Definition split_comparison : string -> option (string * string) :=
  split_comparison_ops [">="; "<="; "<>"; "!="; "="; ">"; "<"].

Definition compare_string (lhs op rhs : string) : bool :=
  if String.eqb op "=" then String.eqb lhs rhs
  else if String.eqb op "<>" || String.eqb op "!=" then negb (String.eqb lhs rhs)
  else if String.eqb op ">" then String.ltb rhs lhs
  else if String.eqb op ">=" then String.leb rhs lhs
  else if String.eqb op "<" then String.ltb lhs rhs
  else if String.eqb op "<=" then String.leb lhs rhs
  else true.

(** The [IN] branch; [None] when it falls through to the next form. *)
Definition eval_in_list (e lower value : string) : option bool :=
  match Str.split_once " in " lower with
  | Some (before, _) =>
      let is_not := Str.ends_with "not" (Str.trim_end before) in
      match Str.find_str "(" e, Str.rfind_char ")" e with
      | Some open, Some close =>
          if (open <? close)%nat then
            let items := map (fun s => trim_quotes (Str.trim s))
                           (Str.split "," (Str.sub (S open) close e)) in
            let contained := bool_decide (value ∈ items) in
            Some (if is_not then negb contained else contained)
          else None
      | _, _ => None
      end
  | None => None
  end.

Definition eval_length (lower value : string) : option bool :=
  if Str.contains "length(" lower then
    match split_comparison lower with
    | Some (op, rhs) =>
        match parse_f64 (F := F) (Str.trim rhs) with
        | Some n => Some (compare_numeric (f64_of_nat (char_count value)) op n)
        | None => None
        end
    | None => None
    end
  else None.

Definition eval_comparison (e col_lower value : string) : bool :=
  match split_comparison e with
  | Some (op, rhs) =>
      let lhs := SqlKind.to_ascii_lowercase
                   (Str.trim (match Str.split_once op e with Some (a, _) => a | None => "" end)) in
      if negb (String.eqb lhs "") && negb (String.eqb lhs col_lower)
         && negb (Str.contains col_lower lhs) then true
      else
        let rhs_clean := trim_quotes (Str.trim rhs) in
        match parse_f64 (F := F) value, parse_f64 (F := F) rhs_clean with
        | Some lv, Some rv => compare_numeric lv op rv
        | _, _ => compare_string value op rhs_clean
        end
  | None => true
  end.

Definition eval_check_predicate (expr col value : string) : bool :=
  let e := Str.trim expr in
  let lower := SqlKind.to_ascii_lowercase e in
  let col_lower := SqlKind.to_ascii_lowercase col in
  if Str.contains "is not null" lower then negb (String.eqb value "")
  else if Str.ends_with "is null" lower then String.eqb value ""
  else match eval_in_list e lower value with
  | Some b => b
  | None =>
      match eval_length lower value with
      | Some b => b
      | None => eval_comparison e col_lower value
      end
  end.

(** ** Validation *)

Context `{!MapOrder ConstraintDescriptor}.

(** A parent constraint of a foreign key to [rt.rc]. *)
Definition parent_key (rt rc : string) (c : ConstraintDescriptor) : bool :=
  keyed (kind c) && String.eqb (table c) rt && String.eqb (column c) rc.

Definition tracked (m : ConstraintManager) (n value : string) : bool :=
  match unique_sets m !! n with Some s => bool_decide (value ∈ s) | None => false end.

(** The [match constraint.kind] of one turn of the loop. *)
Definition check_one (m : ConstraintManager) (col : string) (value : option string)
    (c : ConstraintDescriptor) : option ConstraintViolation :=
  match kind c, value with
  | NotNull, None => Some (NotNullViolation (name c) col)
  | NotNull, Some _ => None
  | PrimaryKey, Some v =>
      if tracked m (name c) v then Some (PrimaryKeyDuplicate (name c) v) else None
  | PrimaryKey, None => Some (NotNullViolation (name c) col)
  | Unique, Some v => if tracked m (name c) v then Some (UniqueDuplicate (name c) v) else None
  | Unique, None => None
  | ForeignKey, Some v =>
      match ref_table c, ref_column c with
      | Some rt, Some rc =>
          let parents := List.filter (parent_key rt rc) (iter_values (constraints m)) in
          let parent_known := existsb (parent_key rt rc) (iter_values (constraints m)) in
          let exists_ := existsb (fun p => tracked m (name p) v) parents in
          if parent_known && negb exists_ then Some (ForeignKeyViolation (name c) v rt rc)
          else None
      | _, _ => None
      end
  | ForeignKey, None => None
  | Check, Some v =>
      match check_exprs m !! name c with
      | Some expr => if eval_check_predicate expr (column c) v then None
                     else Some (CheckViolation (name c) expr v)
      | None => None
      end
  | Check, None => None
  end.

Fixpoint validate_loop (m : ConstraintManager) (t col : string) (value : option string)
    (cs : list ConstraintDescriptor) : result unit ConstraintViolation :=
  match cs with
  | [] => Ok tt
  | c :: cs' =>
      if String.eqb (table c) t && String.eqb (column c) col then
        match check_one m col value c with
        | Some v => Err v
        | None => validate_loop m t col value cs'
        end
      else validate_loop m t col value cs'
  end.

Definition validate (t col : string) (value : option string) (m : ConstraintManager)
    : result unit ConstraintViolation :=
  validate_loop m t col value (iter_values (constraints m)).

(** ** Committed values *)

(** The loop of [record_committed_value] and [remove_committed_value]. *)
Definition update_sets (t col : string) (f : gset string -> gset string)
    (cs : list ConstraintDescriptor) (us : gmap string (gset string))
    : gmap string (gset string) :=
  foldl (fun us c =>
    if String.eqb (table c) t && String.eqb (column c) col && keyed (kind c)
    then alter f (name c) us else us) us cs.

Definition record_committed_value (t col value : string) (m : ConstraintManager)
    : ConstraintManager :=
  mkManager (constraints m)
    (update_sets t col (fun s => {[value]} ∪ s) (iter_values (constraints m)) (unique_sets m))
    (check_exprs m).

Definition remove_committed_value (t col value : string) (m : ConstraintManager)
    : ConstraintManager :=
  mkManager (constraints m)
    (update_sets t col (fun s => s ∖ {[value]}) (iter_values (constraints m)) (unique_sets m))
    (check_exprs m).

Definition list_constraints (m : ConstraintManager) : list ConstraintDescriptor :=
  iter_values (constraints m).

Definition constraint_count (m : ConstraintManager) : nat := size (constraints m).

Definition not_null_columns (t : string) (m : ConstraintManager) : list string :=
  map column (filter (fun d => table d = t ∧ (kind d = NotNull ∨ kind d = PrimaryKey))
    (iter_values (constraints m))).

Definition list_fk_refs (t col : string) (m : ConstraintManager)
    : list (string * string * string) :=
  omap (fun d =>
    match ref_table d, ref_column d with
    | Some rt, Some rc => Some (name d, rt, rc)
    | _, _ => None
    end)
    (filter (fun d => kind d = ForeignKey ∧ table d = t ∧ column d = col)
       (iter_values (constraints m))).

End CheckPredicate.

End Constraints.
