(* ===== verification/ConstraintProps.v ===== *)
(** * Properties of column constraints

    Validation is exact in any iteration order, and a primary key or unique
    constraint admits no value twice. *)

From S2P Require Import Prelude Str SqlKind Constraints.
Open Scope string_scope.
Open Scope list_scope.

Import Constraints.

Section Props.
Context {F : Type} `{!Float64 F} `{!MapOrder ConstraintDescriptor}.

(** Descriptors sit under their name, and exactly the keyed ones have a set. *)
Record wf (m : ConstraintManager) : Prop := {
  wf_name : ∀ n d, constraints m !! n = Some d → name d = n;
  wf_sets : ∀ n, is_Some (unique_sets m !! n) ↔
    ∃ d, constraints m !! n = Some d ∧ keyed (kind d) = true;
}.

(** Values a keyed constraint holds. *)
Definition values_of (m : ConstraintManager) (n : string) : gset string :=
  default ∅ (unique_sets m !! n).

Lemma tracked_spec m n v : tracked m n v = true ↔ v ∈ values_of m n.
Proof.
  unfold tracked, values_of. destruct (unique_sets m !! n); simpl.
  - by rewrite bool_decide_eq_true.
  - split; [done|]. set_solver.
Qed.

(** ** What a constraint asks of a value *)

Definition parent (m : ConstraintManager) (rt rc : string) (p : ConstraintDescriptor) : Prop :=
  constraints m !! name p = Some p ∧ keyed (kind p) = true ∧ table p = rt ∧ column p = rc.

Definition satisfies (m : ConstraintManager) (value : option string) (d : ConstraintDescriptor)
    : Prop :=
  match kind d with
  | NotNull => value ≠ None
  | PrimaryKey => ∃ v, value = Some v ∧ v ∉ values_of m (name d)
  | Unique => ∀ v, value = Some v → v ∉ values_of m (name d)
  | ForeignKey => ∀ v rt rc, value = Some v → ref_table d = Some rt → ref_column d = Some rc →
      (∃ p, parent m rt rc p) → ∃ p, parent m rt rc p ∧ v ∈ values_of m (name p)
  | Check => ∀ v expr, value = Some v → check_exprs m !! name d = Some expr →
      eval_check_predicate (F := F) expr (column d) v = true
  end.

Lemma parent_key_spec m rt rc p :
  wf m → p ∈ iter_values (constraints m) →
  parent_key rt rc p = true ↔ parent m rt rc p.
Proof.
  intros [Hn _] (n & Hp)%elem_of_iter_values. pose proof (Hn n p Hp) as Hnm. subst n.
  unfold parent_key, parent. rewrite !andb_true_iff, !String.eqb_eq. tauto.
Qed.

Lemma parent_listed m rt rc p : parent m rt rc p → p ∈ iter_values (constraints m).
Proof. intros [Hp _]. apply elem_of_iter_values. by eexists. Qed.

Lemma existsb_elem {A} (p : A -> bool) (l : list A) :
  existsb p l = true ↔ ∃ x, x ∈ l ∧ p x = true.
Proof. rewrite existsb_exists. by setoid_rewrite list_elem_of_In. Qed.

Lemma foreign_key_ok m v rt rc :
  wf m →
  existsb (parent_key rt rc) (iter_values (constraints m))
    && negb (existsb (fun p => tracked m (name p) v)
               (List.filter (parent_key rt rc) (iter_values (constraints m)))) = false
  ↔ ((∃ p, parent m rt rc p) → ∃ p, parent m rt rc p ∧ v ∈ values_of m (name p)).
Proof.
  intros Hwf. rewrite andb_false_iff, negb_false_iff, <- not_true_iff_false, !existsb_elem.
  setoid_rewrite tracked_spec. split.
  - intros [Hno|(p & Hp & Hv)] [q Hq].
    + exfalso. apply Hno. exists q. pose proof (parent_listed _ _ _ _ Hq) as Hin.
      split; [done|]. by apply (parent_key_spec m).
    + apply list_elem_of_In, List.filter_In in Hp as [Hin%list_elem_of_In Hk].
      exists p. split; [|done]. by apply (parent_key_spec m).
  - intros Himp.
    destruct (existsb (parent_key rt rc) (iter_values (constraints m))) eqn:E.
    + right. apply existsb_elem in E as (q & Hin & Hk).
      destruct Himp as (p & Hp & Hv); [exists q; by apply parent_key_spec|].
      exists p. split; [|done]. pose proof (parent_listed _ _ _ _ Hp) as Hin'.
      apply list_elem_of_In, List.filter_In. split; [by apply list_elem_of_In|].
      by apply (parent_key_spec m).
    + left. intros Hex%existsb_elem. congruence.
Qed.

Lemma check_one_ok m col value d :
  wf m → check_one (F := F) m col value d = None ↔ satisfies m value d.
Proof.
  intros Hwf. unfold check_one, satisfies. destruct (kind d), value as [v|]; simpl.
  - destruct (tracked m (name d) v) eqn:E.
    + split; [done|]. intros (v' & [= <-] & Hv). by apply tracked_spec in E.
    + split; [|done]. intros _. exists v. split; [done|]. intros Hv%tracked_spec. congruence.
  - split; [done|]. by intros (v & ? & _).
  - destruct (tracked m (name d) v) eqn:E.
    + split; [done|]. intros Hv. apply tracked_spec in E. by destruct (Hv v).
    + split; [|done]. intros _ v' [= <-] Hv%tracked_spec. congruence.
  - by split.
  - by split.
  - split; [done|]. by intros ?.
  - destruct (ref_table d) as [rt|], (ref_column d) as [rc|]; try by split.
    pose proof (foreign_key_ok m v rt rc Hwf) as Hfk.
    destruct (_ && _) eqn:E.
    + split; [done|]. intros Hs. enough (true = false) by done. apply Hfk. intros Hp.
      by apply (Hs v rt rc).
    + split; [|done]. intros _ v' rt' rc' [= <-] [= <-] [= <-]. by apply Hfk.
  - by split.
  - destruct (check_exprs m !! name d) as [expr|] eqn:E.
    + destruct (eval_check_predicate expr (column d) v) eqn:Ev.
      * split; [|done]. intros _ v' expr' [= <-] [= <-]. done.
      * split; [done|]. intros Hs. specialize (Hs v expr eq_refl eq_refl). congruence.
    + split; [|done]. by intros _ v' expr' _ [=].
  - by split.
Qed.

Lemma validate_loop_ok m t col value cs :
  validate_loop (F := F) m t col value cs = Ok tt ↔
  ∀ d, d ∈ cs → table d = t → column d = col → check_one (F := F) m col value d = None.
Proof.
  induction cs as [|c cs IH]; simpl; [split; [|done]; by intros _ d Hd%not_elem_of_nil|].
  destruct (String.eqb_spec (table c) t) as [Ht|Ht], (String.eqb_spec (column c) col) as [Hc|Hc];
    simpl; rewrite ?IH.
  1: { destruct (check_one m col value c) eqn:E.
       - split; [done|]. intros Hall. rewrite (Hall c) in E; [done|by left|done..].
       - rewrite IH. split; intros Hall d; [|intros Hd; apply Hall; by right].
         intros [->|Hd]%elem_of_cons; [done|by apply Hall]. }
  all: split; intros Hall d; [intros [->|Hd]%elem_of_cons; [done|by apply Hall]
                             |intros Hd; apply Hall; by right].
Qed.

Lemma validate_ok t col value m :
  wf m → validate (F := F) t col value m = Ok tt ↔
  ∀ n d, constraints m !! n = Some d → table d = t → column d = col → satisfies m value d.
Proof.
  intros Hwf. unfold validate. rewrite validate_loop_ok. setoid_rewrite check_one_ok; [|done].
  split.
  - intros Hall n d Hd. apply Hall, elem_of_iter_values. by exists n.
  - intros Hall d (n & Hd)%elem_of_iter_values. by apply (Hall n).
Qed.

(** ** Committed values *)

Lemma update_sets_lookup t col f cs us n :
  NoDup (map name cs) →
  update_sets t col f cs us !! n =
  if existsb (fun c => String.eqb (name c) n && String.eqb (table c) t && String.eqb (column c) col
                       && keyed (kind c)) cs
  then f <$> us !! n else us !! n.
Proof.
  unfold update_sets. revert us. induction cs as [|c cs IH]; intros us Hnd; [done|]. simpl in *.
  apply NoDup_cons in Hnd as [Hc Hnd]. rewrite (IH _ Hnd).
  assert (Hskip : name c = n → existsb (fun c => String.eqb (name c) n && String.eqb (table c) t
      && String.eqb (column c) col && keyed (kind c)) cs = false).
  { intros Hn. apply not_true_iff_false. rewrite existsb_elem. intros (c' & Hin & Hb).
    apply Hc. rewrite Hn. rewrite !andb_true_iff, String.eqb_eq in Hb. destruct Hb as [[[<- _] _] _].
    by apply list_elem_of_fmap_2. }
  destruct (String.eqb_spec (name c) n) as [Hn|Hn]; simpl.
  - rewrite (Hskip Hn). rewrite orb_false_r.
    destruct (String.eqb (table c) t && String.eqb (column c) col && keyed (kind c)); [|done].
    by rewrite <- Hn, lookup_alter_eq.
  - destruct (String.eqb (table c) t && String.eqb (column c) col && keyed (kind c)); [|done].
    by rewrite lookup_alter_ne.
Qed.

Lemma names_NoDup m : wf m → NoDup (map name (iter_values (constraints m))).
Proof.
  intros [Hn _]. unfold iter_values. rewrite map_map.
  rewrite (List.map_ext_in _ fst); [apply iter_map_NoDup|].
  intros [n d] Hin%list_elem_of_In%elem_of_iter_map. by apply Hn.
Qed.

(** The set of a constraint on [(t, col)] is updated, others are kept. *)
Lemma update_sets_at t col f m n d :
  wf m → constraints m !! n = Some d →
  update_sets t col f (iter_values (constraints m)) (unique_sets m) !! n =
  if decide (table d = t ∧ column d = col ∧ keyed (kind d) = true)
  then f <$> unique_sets m !! n else unique_sets m !! n.
Proof.
  intros Hwf Hd. rewrite update_sets_lookup by (by apply names_NoDup).
  set (p := fun c => _). destruct (existsb p (iter_values (constraints m))) eqn:E.
  - apply existsb_elem in E as (c & (n' & Hc)%elem_of_iter_values & Hp). subst p. simpl in Hp.
    rewrite !andb_true_iff, !String.eqb_eq in Hp. destruct Hp as (((Hn & Ht) & Hcol) & Hk).
    rewrite <- (wf_name _ Hwf n' c Hc), Hn in Hc. simplify_eq. by rewrite decide_True.
  - destruct (decide _) as [(Ht & Hc & Hk)|]; [|done]. exfalso.
    enough (existsb p (iter_values (constraints m)) = true) by congruence.
    apply existsb_elem. exists d. split; [apply elem_of_iter_values; by exists n|].
    subst p. simpl. by rewrite (wf_name _ Hwf n d Hd), !andb_true_iff, !String.eqb_eq.
Qed.

Lemma update_sets_dom t col f m n :
  wf m → is_Some (update_sets t col f (iter_values (constraints m)) (unique_sets m) !! n)
         ↔ is_Some (unique_sets m !! n).
Proof.
  intros Hwf. rewrite update_sets_lookup by (by apply names_NoDup).
  destruct (existsb _ _); [|done]. by rewrite fmap_is_Some.
Qed.

Lemma update_wf t col f m :
  wf m → wf (mkManager (constraints m)
    (update_sets t col f (iter_values (constraints m)) (unique_sets m)) (check_exprs m)).
Proof. intros Hwf. destruct Hwf as [Hn Hs] eqn:E. split; simpl; [done|]. intros n. by rewrite update_sets_dom. Qed.

Lemma add_constraint_wf d m : wf m → wf (add_constraint d m).2.
Proof.
  intros [Hn Hs]. unfold add_constraint. destruct (decide _) as [|Hfresh]; [by split|].
  apply eq_None_not_Some in Hfresh. split; simpl.
  - intros n d' [[<- <-]|[_ Hd]]%lookup_insert_Some; [done|by apply Hn].
  - intros n. destruct (decide (name d = n)) as [<-|Hne].
    + destruct (keyed (kind d)) eqn:Hk.
      * rewrite lookup_insert_eq. split; [|done]. intros _. exists d. by rewrite lookup_insert_eq.
      * rewrite Hs, Hfresh, lookup_insert_eq. split; [by intros (? & ? & _)|].
        intros (d' & [= <-] & Hk'). congruence.
    + destruct (keyed (kind d)); rewrite ?lookup_insert_ne by done; apply Hs.
Qed.

Lemma add_check_wf n t c e m : wf m → wf (add_check_constraint n t c e m).2.
Proof.
  intros [Hn Hs]. unfold add_check_constraint. destruct (decide _) as [|Hfresh]; [by split|].
  apply eq_None_not_Some in Hfresh. split; simpl.
  - intros n' d' [[<- <-]|[_ Hd]]%lookup_insert_Some; [done|by apply Hn].
  - intros n'. rewrite Hs. destruct (decide (n = n')) as [<-|Hne].
    + rewrite lookup_insert_eq, Hfresh. split; intros (d' & Hd & Hk); by simplify_eq.
    + by rewrite lookup_insert_ne.
Qed.

Lemma drop_wf n m : wf m → wf (drop_constraint n m).2.
Proof.
  intros [Hn Hs]. split; simpl.
  - intros n' d [_ Hd]%lookup_delete_Some. by apply Hn.
  - intros n'. destruct (decide (n = n')) as [<-|Hne].
    + rewrite !lookup_delete_eq. split; [by intros []|by intros (? & ? & _)].
    + by rewrite !lookup_delete_ne.
Qed.

(** ** Histories *)

Inductive c_op :=
| CAdd (d : ConstraintDescriptor)
| CAddCheck (n t c expr : string)
| CDrop (n : string)
| CInsert (t c : string) (value : option string)
| CDelete (t c value : string).

(** An insert validates and, if accepted, records its value; the second
    component lists the values accepted in column [(ct, cc)] and not deleted. *)
Definition c_step (ct cc : string) (o : c_op) (st : ConstraintManager * list string)
    : ConstraintManager * list string :=
  let '(m, vals) := st in
  match o with
  | CAdd d => ((add_constraint d m).2, vals)
  | CAddCheck n t c e => ((add_check_constraint n t c e m).2, vals)
  | CDrop n => ((drop_constraint n m).2, vals)
  | CInsert t c value =>
      match validate (F := F) t c value m, value with
      | Ok _, Some v =>
          (record_committed_value t c v m,
           if decide (t = ct ∧ c = cc) then vals ++ [v] else vals)
      | _, _ => (m, vals)
      end
  | CDelete t c v =>
      (remove_committed_value t c v m,
       if decide (t = ct ∧ c = cc) then filter (fun x => x ≠ v) vals else vals)
  end.

Definition c_run (ct cc : string) (ops : list c_op) (st : ConstraintManager * list string) :=
  foldl (fun st o => c_step ct cc o st) st ops.

Lemma c_step_wf ct cc o st : wf st.1 → wf (c_step ct cc o st).1.
Proof.
  destruct st as [m vals]. simpl. intros Hwf. destruct o as [d|n t c e|n|t c v|t c v]; simpl.
  - by apply add_constraint_wf.
  - by apply add_check_wf.
  - by apply drop_wf.
  - destruct (validate t c v m), v; try done. by apply update_wf.
  - by apply update_wf.
Qed.

(** The tracked set of [d] is the column, without duplicates. *)
Definition tracks (d : ConstraintDescriptor) (st : ConstraintManager * list string) : Prop :=
  wf st.1 ∧ constraints st.1 !! name d = Some d ∧
  unique_sets st.1 !! name d = Some (list_to_set st.2) ∧ NoDup st.2.

Lemma tracks_fresh_name d m vals n :
  tracks d (m, vals) → constraints m !! n = None → n ≠ name d.
Proof. intros (_ & Hc & _) Hn ->. simpl in Hc. congruence. Qed.

Lemma tracks_insert d t c v m vals :
  keyed (kind d) = true → tracks d (m, vals) → validate (F := F) t c (Some v) m = Ok tt →
  tracks d (record_committed_value t c v m,
            if decide (t = table d ∧ c = column d) then vals ++ [v] else vals).
Proof.
  intros Hk (Hwf & Hc & Hu & Hnd) Hv. simpl in *.
  split; [by apply update_wf|]. simpl. split; [done|].
  rewrite (update_sets_at t c _ m (name d) d Hwf Hc).
  destruct (decide (t = table d ∧ c = column d)) as [[-> ->]|Hne].
  2: { rewrite decide_False by naive_solver. by split. }
  rewrite decide_True by done. rewrite Hu. simpl.
  pose proof (proj1 (validate_ok _ _ _ _ Hwf) Hv (name d) d Hc eq_refl eq_refl) as Hsat.
  assert (Hfresh : v ∉ vals).
  { intros Hin. unfold satisfies, values_of in Hsat. rewrite Hu in Hsat. simpl in Hsat.
    destruct (kind d); try done.
    - destruct Hsat as (v' & [= <-] & Hsat). apply Hsat. by apply elem_of_list_to_set.
    - apply (Hsat v eq_refl). by apply elem_of_list_to_set. }
  split; [f_equal; rewrite list_to_set_app_L; set_solver|].
  apply NoDup_app. split_and!; [done| |apply NoDup_singleton].
  intros x Hx Hx'%list_elem_of_singleton. by subst.
Qed.

Lemma tracks_delete d t c v m vals :
  keyed (kind d) = true → tracks d (m, vals) →
  tracks d (remove_committed_value t c v m,
            if decide (t = table d ∧ c = column d) then filter (fun x => x ≠ v) vals else vals).
Proof.
  intros Hk (Hwf & Hc & Hu & Hnd). simpl in *.
  split; [by apply update_wf|]. simpl. split; [done|].
  rewrite (update_sets_at t c _ m (name d) d Hwf Hc).
  destruct (decide (t = table d ∧ c = column d)) as [[-> ->]|Hne].
  2: { rewrite decide_False by naive_solver. by split. }
  rewrite decide_True by done. rewrite Hu. simpl.
  split; [|by apply NoDup_filter]. f_equal. apply set_eq. intros x.
  rewrite elem_of_difference, !elem_of_list_to_set, list_elem_of_filter. set_solver.
Qed.

Lemma c_step_tracks d o st :
  keyed (kind d) = true → o ≠ CDrop (name d) → tracks d st →
  tracks d (c_step (table d) (column d) o st).
Proof.
  intros Hk Hdrop Htr. pose proof (c_step_wf (table d) (column d) o st (proj1 Htr)) as Hwf'.
  destruct st as [m vals].
  destruct o as [d'|n t c e|n|t c v|t c v]; simpl in *.
  - unfold add_constraint in *. destruct (decide (is_Some (constraints m !! name d'))) as [|Hf]; [done|].
    apply eq_None_not_Some in Hf. pose proof (tracks_fresh_name d m vals _ Htr Hf).
    destruct Htr as (_ & Hc & Hu & Hnd). simpl in *. split; [done|]. simpl.
    destruct (keyed (kind d')); rewrite ?lookup_insert_ne by done; by split.
  - unfold add_check_constraint in *. destruct (decide (is_Some (constraints m !! n))) as [|Hf]; [done|].
    apply eq_None_not_Some in Hf. pose proof (tracks_fresh_name d m vals _ Htr Hf).
    destruct Htr as (_ & Hc & Hu & Hnd). simpl in *. split; [done|]. simpl.
    rewrite lookup_insert_ne by done. by split.
  - destruct Htr as (_ & Hc & Hu & Hnd). simpl in *.
    assert (n ≠ name d) by congruence. split; [done|]. simpl. by rewrite !lookup_delete_ne.
  - destruct (validate t c v m) as [[]|] eqn:Hv, v as [v|]; try done. by apply tracks_insert.
  - by apply tracks_delete.
Qed.

Lemma c_run_tracks d ops st :
  keyed (kind d) = true → Forall (fun o => o ≠ CDrop (name d)) ops → tracks d st →
  tracks d (c_run (table d) (column d) ops st).
Proof.
  intros Hk Hall. revert st. induction Hall as [|o ops Ho _ IH]; intros st Hst; [done|].
  simpl. by apply IH, c_step_tracks.
Qed.

Lemma c_run_wf ct cc ops st : wf st.1 → wf (c_run ct cc ops st).1.
Proof. revert st. induction ops; intros st Hst; [done|]. simpl. by apply IHops, c_step_wf. Qed.

Lemma new_wf : wf new.
Proof.
  split; simpl; [intros n d Hd; by rewrite lookup_empty in Hd|].
  intros n. rewrite !lookup_empty. split; [by intros []|by intros (? & ? & _)].
Qed.

End Props.

(** ** Properties *)

(** C36: constraints admit no duplicate.  Once a primary key or unique constraint is
    registered, and until it is dropped, in every history of inserts, deletes and
    other constraint changes the values accepted in its column and not deleted
    are pairwise distinct and are exactly the values the constraint tracks. *)
Theorem keyed_column_has_no_duplicates {F} `{!Float64 F} `{!MapOrder ConstraintDescriptor}
    (before after : list c_op) (d : ConstraintDescriptor) :
  let m := (c_run (F := F) (table d) (column d) before (new, [])).1 in
  keyed (kind d) = true → (add_constraint d m).1 = Ok tt →
  Forall (fun o => o ≠ CDrop (name d)) after →
  let '(m', vals) := c_run (F := F) (table d) (column d) after ((add_constraint d m).2, []) in
  NoDup vals ∧ unique_sets m' !! name d = Some (list_to_set vals).
Proof.
  intros m Hk Hadd Hafter.
  assert (Hwf : wf m) by (apply c_run_wf, new_wf).
  assert (Htr : tracks d ((add_constraint d m).2, [])).
  { split; [by apply add_constraint_wf|]. unfold add_constraint in *.
    destruct (decide _); [done|]. simpl. rewrite Hk, !lookup_insert_eq. split_and!; [done..|constructor]. }
  pose proof (c_run_tracks (F := F) d after _ Hk Hafter Htr) as (_ & _ & Hu & Hnd).
  destruct (c_run _ _ after _) as [m' vals]. by split.
Qed.

(** A toy [f64]: natural numbers, as the examples compare none. *)
#[local] Instance toy_float : Float64 nat :=
  {| parse_f64 := fun _ => None; f64_abs_diff := Nat.sub; f64_epsilon := O;
     f64_lt := Nat.ltb; f64_le := Nat.leb; f64_of_nat := id |}.

#[local] Instance toy_order : MapOrder ConstraintDescriptor := canonical_order.

Definition demo_pk : ConstraintDescriptor := mkConstraint "pk" "t" "id" PrimaryKey None None.

Lemma keyed_column_has_no_duplicates_witness :
  let '(m', vals) := c_run (F := nat) "t" "id"
    [CInsert "t" "id" (Some "1"); CInsert "t" "id" (Some "1"); CInsert "t" "id" None;
     CInsert "t" "id" (Some "2"); CDelete "t" "id" "1"] ((add_constraint demo_pk new).2, []) in
  NoDup vals ∧ vals = ["2"].
Proof.
  pose proof (keyed_column_has_no_duplicates (F := nat) []
    [CInsert "t" "id" (Some "1"); CInsert "t" "id" (Some "1"); CInsert "t" "id" None;
     CInsert "t" "id" (Some "2"); CDelete "t" "id" "1"] demo_pk eq_refl eq_refl
    ltac:(repeat constructor; done)) as H.
  change (c_run (F := nat) (table demo_pk) (column demo_pk) [] (new, [])).1 with new in H.
  change (table demo_pk) with "t" in H. change (column demo_pk) with "id" in H.
  assert (Hv : (c_run (F := nat) "t" "id"
    [CInsert "t" "id" (Some "1"); CInsert "t" "id" (Some "1"); CInsert "t" "id" None;
     CInsert "t" "id" (Some "2"); CDelete "t" "id" "1"] ((add_constraint demo_pk new).2, [])).2 = ["2"])
    by (vm_compute; reflexivity).
  destruct (c_run _ _ _ _) as [m' vals]. simpl in Hv. split; [exact (proj1 H)|exact Hv].
Defined.

(** Validation is exact.  In every manager built by constraint operations, and
    in whatever order the constraint table is iterated, a value is accepted for
    a column exactly when it satisfies every constraint of that column: not-null
    and primary keys refuse NULL, keys refuse values already committed, a
    foreign key with a tracked parent refuses values no parent holds, and check
    predicates must hold. *)
Theorem validation_exact {F} `{!Float64 F} `{!MapOrder ConstraintDescriptor}
    (ops : list c_op) (t col : string) (value : option string) :
  let m := (c_run (F := F) t col ops (new, [])).1 in
  validate (F := F) t col value m = Ok tt ↔
  ∀ n d, constraints m !! n = Some d → table d = t → column d = col →
    satisfies (F := F) m value d.
Proof. intros m. apply validate_ok, c_run_wf, new_wf. Qed.

(** Constraints start blind.  A unique constraint added after values were accepted
    does not know them: the same value is accepted again. *)
Lemma late_constraint_misses_existing :
  (c_run (F := nat) "t" "id"
    [CInsert "t" "id" (Some "1"); CAdd demo_pk; CInsert "t" "id" (Some "1")] (new, [])).2 = ["1"; "1"].
Proof. vm_compute. reflexivity. Qed.
