(* ===== verification/DdlCatalog.v ===== *)
(** * The DDL catalogue ([crates/voltnuerongrid-store/src/ddl_catalog.rs])

    Objects under their qualified name with their lifecycle (create, alter, drop,
    purge), segment metadata per table, and the text functions that read DDL
    statements and edit the stored column list. *)

From S2P Require Import Prelude Str SqlKind.
From Stdlib Require Import Ascii.
Open Scope string_scope.
Open Scope list_scope.
Open Scope N_scope.

Module DdlCatalog.

Import SqlKind.

(** ** State *)

Record DdlCatalogEntry := mkDdlEntry {
  object_name : string;
  database_name : string;
  schema_name : string;
  object_kind : string;
  original_statement : string;
  created_at_unix_ms : N;
  last_altered_at_unix_ms : option N;
  alteration_count : N;
  dropped : bool;
}.

Inductive CatalogResult :=
| Created | Replaced | AlterApplied | Dropped | NotFound | AlreadyDropped | AlreadyExists.

Record MinMaxStats := mkMinMax { min_values : list string; max_values : list string }.

Record SegmentMetadata := mkSegmentMetadata {
  segment_id : N;
  partition_id : N;
  table_name : string;
  row_count : N;
  tail_watermark : N;
  base_version_id : option N;
  min_max_stats : option MinMaxStats;
  created_at : N;
  last_merge_at : option N;
}.

Record DdlCatalog := mkCatalog {
  entries : gmap string DdlCatalogEntry;
  segment_metadata : gmap string (list SegmentMetadata);
}.

Definition new : DdlCatalog := mkCatalog ∅ ∅.

Definition normalise (s : string) : string := to_ascii_lowercase (Str.trim s).

Definition qualified_key (db schema name : string) : string :=
  normalise db +:+ "." +:+ normalise schema +:+ "." +:+ normalise name.

(** ** Reading and editing DDL text

    Byte positions found in the lower-cased text are used on the original: the
    two agree on ASCII text, which is what the model covers. *)

Definition parse_alter_add_column (sql : string) : option (string * string * string) :=
  let lower := to_ascii_lowercase (Str.trim sql) in
  match Str.strip_prefix "alter table " lower with
  | None => None
  | Some rest =>
      match Str.split_once " add " rest with
      | None => None
      | Some (t, after) =>
          let after_table := Str.trim after in
          let col_rest := default after_table (Str.strip_prefix "column " after_table) in
          let '(col, def) :=
            match Str.split_once " " col_rest with
            | Some (c, d) => (Str.trim c, Str.trim d)
            | None => (Str.trim col_rest, "text")
            end in
          if String.eqb col "" then None
          else match Str.find_str col lower with
          | None => None
          | Some pos =>
              let original :=
                Str.trim (Str.sub (pos + String.length col) (String.length sql) sql) in
              Some (Str.trim t, col, if String.eqb original "" then def else original)
          end
      end
  end.

Definition parse_alter_drop_column (sql : string) : option (string * string) :=
  let lower := to_ascii_lowercase (Str.trim sql) in
  match Str.strip_prefix "alter table " lower with
  | None => None
  | Some rest =>
      match Str.split_once " drop " rest with
      | None => None
      | Some (t, after) =>
          let after_table := Str.trim after in
          let col := Str.trim_end_matches [";"]
                       (Str.trim (default after_table (Str.strip_prefix "column " after_table))) in
          if String.eqb col "" then None else Some (Str.trim t, col)
      end
  end.

Definition apply_add_column_to_ddl (ddl col def : string) : string :=
  match Str.rfind_char ")" ddl with
  | None => ddl +:+ ", " +:+ col +:+ " " +:+ def
  | Some pos =>
      Str.trim_end_matches [" "; Str.TAB; Str.LF; Str.CR; ","] (Str.sub 0 pos ddl)
      +:+ ", " +:+ col +:+ " " +:+ def +:+ Str.sub pos (String.length ddl) ddl
  end.

Definition first_word (s : string) : string := default "" (split_whitespace s !! 0%nat).

(** [&s[open + 1..close]] panics when [close <= open]: the whole is [None]. *)
Definition remove_column_from_ddl (ddl col : string) : option string :=
  match Str.find_str "(" ddl, Str.rfind_char ")" ddl with
  | Some open, Some close =>
      if (close <? S open)%nat then None
      else
        let defs := Str.split "," (Str.sub (S open) close ddl) in
        let remaining :=
          filter (fun d => first_word (to_ascii_lowercase (Str.trim d)) ≠ to_ascii_lowercase col)
            defs in
        Some (Str.sub 0 (S open) ddl +:+ Str.join "," remaining
              +:+ Str.sub close (String.length ddl) ddl)
  | _, _ => Some ddl
  end.

(** ** Lifecycle *)

Definition record_create (kind db schema name statement : string) (now_ms : N)
    (replace_ok : bool) (c : DdlCatalog) : CatalogResult * DdlCatalog :=
  let key := qualified_key db schema name in
  let entry := mkDdlEntry (normalise name) (normalise db) (normalise schema) kind statement
                 now_ms None 0 false in
  let c' := mkCatalog (<[key := entry]> (entries c)) (segment_metadata c) in
  match entries c !! key with
  | Some e => if negb (dropped e) && negb replace_ok then (AlreadyExists, c) else (Replaced, c')
  | None => (Created, c')
  end.

Definition set_dropped (e : DdlCatalogEntry) : DdlCatalogEntry :=
  mkDdlEntry (object_name e) (database_name e) (schema_name e) (object_kind e)
    (original_statement e) (created_at_unix_ms e) (last_altered_at_unix_ms e)
    (alteration_count e) true.

Definition record_drop (db schema name : string) (c : DdlCatalog) : CatalogResult * DdlCatalog :=
  let key := qualified_key db schema name in
  match entries c !! key with
  | None => (NotFound, c)
  | Some e =>
      if dropped e then (AlreadyDropped, c)
      else (Dropped, mkCatalog (<[key := set_dropped e]> (entries c)) (segment_metadata c))
  end.

(** The statement [record_alter] stores; [None] when the text edit panics. *)
Definition altered_statement (statement original : string) : option string :=
  let lower := to_ascii_lowercase (Str.trim statement) in
  if Str.contains " add " lower then
    match parse_alter_add_column statement with
    | Some (_, col, def) => Some (apply_add_column_to_ddl original col def)
    | None => Some original
    end
  else if Str.contains " drop " lower then
    match parse_alter_drop_column statement with
    | Some (_, col) => remove_column_from_ddl original col
    | None => Some original
    end
  else Some original.

Definition u32_modulus : N := 4294967296.

Definition record_alter (db schema name statement : string) (now_ms : N) (c : DdlCatalog)
    : option (CatalogResult * DdlCatalog) :=
  let key := qualified_key db schema name in
  match entries c !! key with
  | None => Some (NotFound, c)
  | Some e =>
      if dropped e then Some (AlreadyDropped, c)
      else match altered_statement statement (original_statement e) with
      | None => None
      | Some st =>
          let e' := mkDdlEntry (object_name e) (database_name e) (schema_name e) (object_kind e)
                      st (created_at_unix_ms e) (Some now_ms)
                      ((alteration_count e + 1) mod u32_modulus) (dropped e) in
          Some (AlterApplied, mkCatalog (<[key := e']> (entries c)) (segment_metadata c))
      end
  end.

Fixpoint count_dots (s : string) : nat :=
  match s with
  | EmptyString => O
  | String ch s' => if Ascii.eqb ch "." then S (count_dots s') else count_dots s'
  end.

Definition get (name : string) (c : DdlCatalog) : option DdlCatalogEntry :=
  let lower := normalise name in
  match entries c !! lower with
  | Some e => Some e
  | None =>
      match count_dots lower with
      | 0%nat => entries c !! ("default.public." +:+ lower)
      | 1%nat => entries c !! ("default." +:+ lower)
      | _ => None
      end
  end.

Definition total_count (c : DdlCatalog) : nat := size (entries c).

Definition active_count (c : DdlCatalog) : nat :=
  size (filter (fun kv => dropped kv.2 = false) (entries c)).

Definition purge_database (db : string) (c : DdlCatalog) : nat * DdlCatalog :=
  let lower := normalise db in
  let gone := filter (fun kv => to_ascii_lowercase (database_name kv.2) = lower) (entries c) in
  (size gone, mkCatalog (entries c ∖ gone) (segment_metadata c)).

Section Iterated.
Context `{!MapOrder DdlCatalogEntry} `{!MapOrder (list SegmentMetadata)}.

Definition active_entries (c : DdlCatalog) : list DdlCatalogEntry :=
  filter (fun e => dropped e = false) (iter_values (entries c)).

Definition list_active_functions (c : DdlCatalog) : list DdlCatalogEntry :=
  filter (fun e => dropped e = false ∧ object_kind e = "function") (iter_values (entries c)).

Definition get_active_function (name : string) (c : DdlCatalog) : option DdlCatalogEntry :=
  List.find (fun e => negb (dropped e) && String.eqb (object_kind e) "function"
                      && String.eqb (object_name e) (normalise name)) (iter_values (entries c)).

(** ** Segments *)

Definition register_partition_segments (table : string) (segs : list SegmentMetadata)
    (c : DdlCatalog) : DdlCatalog :=
  mkCatalog (entries c) (<[to_ascii_lowercase table := segs]> (segment_metadata c)).

Definition get_segments_for_table (table : string) (c : DdlCatalog) : list SegmentMetadata :=
  default [] (segment_metadata c !! to_ascii_lowercase table).

Definition get_segment_by_id (id : N) (c : DdlCatalog) : option SegmentMetadata :=
  List.find (fun s => segment_id s =? id) (concat (iter_values (segment_metadata c))).

Fixpoint replace_first (id : N) (updated : SegmentMetadata) (l : list SegmentMetadata)
    : option (list SegmentMetadata) :=
  match l with
  | [] => None
  | s :: l' =>
      if segment_id s =? id then Some (updated :: l')
      else match replace_first id updated l' with Some r => Some (s :: r) | None => None end
  end.

Fixpoint update_loop (id : N) (updated : SegmentMetadata)
    (l : list (string * list SegmentMetadata)) (m : gmap string (list SegmentMetadata))
    : option (gmap string (list SegmentMetadata)) :=
  match l with
  | [] => None
  | (t, segs) :: l' =>
      match replace_first id updated segs with
      | Some r => Some (<[t := r]> m)
      | None => update_loop id updated l' m
      end
  end.

Definition update_segment_metadata (id : N) (updated : SegmentMetadata) (c : DdlCatalog)
    : bool * DdlCatalog :=
  match update_loop id updated (iter_map (segment_metadata c)) (segment_metadata c) with
  | Some m => (true, mkCatalog (entries c) m)
  | None => (false, c)
  end.

Definition drop_table_segments (table : string) (c : DdlCatalog) : DdlCatalog :=
  mkCatalog (entries c) (delete (to_ascii_lowercase table) (segment_metadata c)).

End Iterated.

(** ** Statements *)

Record DdlObjectInfo := mkInfo {
  operation : string;
  info_kind : string;
  info_name : string;
  info_database : string;
  info_schema : string;
  replace_ok : bool;
}.

Definition parse_qualifiers (raw : string) : string * string * string :=
  let base0 := match Str.split_once "(" raw with Some (a, _) => a | None => raw end in
  let base := to_ascii_lowercase (Str.trim_matches [")"; ";"; ","] base0) in
  match Str.splitn 3 "." base with
  | [db; schema; name] => (db, schema, name)
  | [schema; name] => ("default", schema, name)
  | [name] => ("default", "public", name)
  | _ => ("default", "public", base)
  end.

Definition parse_schema_qualifiers (raw : string) : string * string * string :=
  let base := to_ascii_lowercase (Str.trim_matches [")"; ";"; ","] raw) in
  match Str.split "." base with
  | [db; schema] => (db, schema, schema)
  | [schema] => ("default", schema, schema)
  | _ => ("default", base, base)
  end.

Definition object_info (op kind name : string) (replace : bool) : option DdlObjectInfo :=
  let '(db, schema, obj) := parse_qualifiers name in
  Some (mkInfo op kind obj db schema replace).

Definition schema_info (op name : string) : option DdlObjectInfo :=
  let '(db, schema, obj) := parse_schema_qualifiers name in
  Some (mkInfo op "schema" obj db schema false).

(** [drop <kind> if exists name ..] or [drop <kind> name ..]: the words after
    the kind. *)
Definition drop_target (rest : list string) : option string :=
  match rest with
  | "if" :: "exists" :: name :: _ => Some name
  | name :: _ => Some name
  | [] => None
  end.

(** One arm of the drop statements: [words] must be [drop kw ..]. *)
Definition drop_info (kw kind : string) (rest : list string) (k : string)
    : option (option DdlObjectInfo) :=
  if String.eqb k kw then
    Some (match drop_target rest with
          | Some name => if String.eqb kind "schema" then schema_info "drop" name
                         else object_info "drop" kind name false
          | None => None
          end)
  else None.

Fixpoint first_arm (arms : list (option (option DdlObjectInfo))) : option DdlObjectInfo :=
  match arms with
  | [] => None
  | Some r :: _ => r
  | None :: arms' => first_arm arms'
  end.

Definition parse_ddl_info (sql : string) : option DdlObjectInfo :=
  match split_whitespace (to_ascii_lowercase (Str.trim sql)) with
  | "create" :: "table" :: name :: _ => object_info "create" "table" name false
  | "create" :: "view" :: name :: _ => object_info "create" "view" name false
  | "create" :: "materialized" :: "view" :: name :: _ =>
      object_info "create" "materialized_view" name false
  | "create" :: "function" :: name :: _ => object_info "create" "function" name false
  | "create" :: "trigger" :: name :: _ => object_info "create" "trigger" name false
  | "create" :: "event" :: name :: _ => object_info "create" "event" name false
  | "create" :: "or" :: "replace" :: "function" :: name :: _ =>
      object_info "create" "function" name true
  | "create" :: "or" :: "replace" :: "view" :: name :: _ => object_info "create" "view" name true
  | "create" :: "or" :: "replace" :: "table" :: name :: _ => object_info "create" "table" name true
  | "create" :: "schema" :: name :: _ => schema_info "create" name
  | "create" :: "index" :: name :: _ => object_info "create" "index" name false
  | "create" :: "unique" :: "index" :: name :: _ => object_info "create" "index" name false
  | "drop" :: k :: rest =>
      first_arm
        [drop_info "index" "index" rest k; drop_info "table" "table" rest k;
         drop_info "view" "view" rest k; drop_info "function" "function" rest k;
         drop_info "trigger" "trigger" rest k; drop_info "event" "event" rest k;
         drop_info "schema" "schema" rest k]
  | "alter" :: "table" :: name :: _ => object_info "alter" "table" name false
  | _ => None
  end.

Example parse_ddl_ex :
  parse_ddl_info " DROP TABLE IF EXISTS Sales.Orders;"
  = Some (mkInfo "drop" "table" "orders" "default" "sales" false).
Proof. vm_compute. reflexivity. Qed.

Example add_then_drop :
  remove_column_from_ddl (apply_add_column_to_ddl "CREATE TABLE t (id INT, v TEXT)" "n" "INT") "V"
  = Some "CREATE TABLE t (id INT, n INT)".
Proof. vm_compute. reflexivity. Qed.

End DdlCatalog.

Import DdlCatalog.

(** ** Lifecycle of an object *)

Inductive ddl_op :=
| DCreate (kind db schema name statement : string) (now : N) (replace : bool)
| DDrop (db schema name : string)
| DAlter (db schema name statement : string) (now : N)
| DPurge (db : string).

(** The catalogue after one operation; [None] when it panics. *)
Definition ddl_step (o : ddl_op) (c : DdlCatalog) : option DdlCatalog :=
  match o with
  | DCreate k db s n st now r => Some (record_create k db s n st now r c).2
  | DDrop db s n => Some (record_drop db s n c).2
  | DAlter db s n st now => snd <$> record_alter db s n st now c
  | DPurge db => Some (purge_database db c).2
  end.

Fixpoint ddl_run (ops : list ddl_op) (c : DdlCatalog) : option DdlCatalog :=
  match ops with
  | [] => Some c
  | o :: ops' => match ddl_step o c with Some c' => ddl_run ops' c' | None => None end
  end.

(** The specification: what one operation does to the object under [key], on
    its own (absent objects are [None]). *)
Definition object_step (key : string) (o : ddl_op) (e : option DdlCatalogEntry)
    : option DdlCatalogEntry :=
  match o with
  | DCreate k db s n st now replace =>
      if String.eqb (qualified_key db s n) key then
        match e with
        | Some e0 => if negb (dropped e0) && negb replace then e
                     else Some (mkDdlEntry (normalise n) (normalise db) (normalise s) k st now None 0 false)
        | None => Some (mkDdlEntry (normalise n) (normalise db) (normalise s) k st now None 0 false)
        end
      else e
  | DDrop db s n =>
      if String.eqb (qualified_key db s n) key then
        (fun e0 => if dropped e0 then e0 else set_dropped e0) <$> e
      else e
  | DAlter db s n st now =>
      if String.eqb (qualified_key db s n) key then
        (fun e0 =>
           if dropped e0 then e0
           else mkDdlEntry (object_name e0) (database_name e0) (schema_name e0) (object_kind e0)
                  (default (original_statement e0) (altered_statement st (original_statement e0)))
                  (created_at_unix_ms e0) (Some now)
                  ((alteration_count e0 + 1) mod u32_modulus) (dropped e0)) <$> e
      else e
  | DPurge db =>
      match e with
      | Some e0 => if String.eqb (SqlKind.to_ascii_lowercase (database_name e0)) (normalise db)
                   then None else e
      | None => None
      end
  end.

Lemma ddl_step_object key o c c' :
  ddl_step o c = Some c' → entries c' !! key = object_step key o (entries c !! key).
Proof.
  destruct o as [k db s n st now r|db s n|db s n st now|db]; simpl.
  - intros [= <-]. unfold record_create.
    destruct (String.eqb_spec (qualified_key db s n) key) as [<-|Hne].
    + destruct (entries c !! qualified_key db s n) as [e|] eqn:E; simpl;
        [|by rewrite lookup_insert_eq].
      destruct (negb (dropped e) && negb r); simpl; [by rewrite E|by rewrite lookup_insert_eq].
    + destruct (entries c !! qualified_key db s n) as [e|]; simpl; [|by rewrite lookup_insert_ne].
      destruct (_ && _); simpl; [done|by rewrite lookup_insert_ne].
  - intros [= <-]. unfold record_drop.
    destruct (String.eqb_spec (qualified_key db s n) key) as [<-|Hne].
    + destruct (entries c !! qualified_key db s n) as [e|] eqn:E; simpl; [|by rewrite E].
      destruct (dropped e); simpl; [by rewrite E|by rewrite lookup_insert_eq].
    + destruct (entries c !! qualified_key db s n) as [e|]; simpl; [|done].
      destruct (dropped e); simpl; [done|by rewrite lookup_insert_ne].
  - unfold record_alter. destruct (String.eqb_spec (qualified_key db s n) key) as [<-|Hne].
    + destruct (entries c !! qualified_key db s n) as [e|] eqn:E; simpl;
        [|intros [= <-]; by rewrite E].
      destruct (dropped e) eqn:Hd; simpl; [intros [= <-]; by rewrite E|].
      destruct (altered_statement st (original_statement e)); simpl; [|done].
      intros [= <-]. simpl. by rewrite lookup_insert_eq.
    + destruct (entries c !! qualified_key db s n) as [e|]; simpl; [|by intros [= <-]].
      destruct (dropped e); simpl; [by intros [= <-]|].
      destruct (altered_statement st (original_statement e)); simpl; [|done].
      intros [= <-]. simpl. by rewrite lookup_insert_ne.
  - intros [= <-]. simpl. rewrite lookup_difference, map_lookup_filter.
    destruct (entries c !! key) as [e|]; [|done]. simpl.
    destruct (String.eqb_spec (SqlKind.to_ascii_lowercase (database_name e)) (normalise db)).
    + by rewrite option_guard_True by done.
    + by rewrite option_guard_False by done.
Qed.

(** ** Properties *)

(** Object lifecycles are independent.  After any sequence of creates, drops,
    alters and database purges that does not panic, the entry under a qualified
    name is what the operations on that name alone produce: created once while
    active (or replaced on request), altered only while active, kept as dropped
    until it is created again, and removed with its database. *)
Theorem catalog_objects_independent (ops : list ddl_op) (c : DdlCatalog) (key : string) :
  ddl_run ops new = Some c →
  entries c !! key = fold_left (fun e o => object_step key o e) ops None.
Proof.
  change (@None DdlCatalogEntry) with (entries new !! key). generalize new as c0.
  induction ops as [|o ops IH]; intros c0 Hrun; simpl in *; [by simplify_eq|].
  destruct (ddl_step o c0) as [c1|] eqn:Hs; [|done].
  by rewrite (IH c1 Hrun), (ddl_step_object key o c0 c1 Hs).
Qed.

Lemma catalog_objects_independent_witness :
  ∃ c, ddl_run [DCreate "table" "Db" "s" "T" "CREATE TABLE t (id INT)" 1 false;
                DAlter "db" "s" "t" "ALTER TABLE t ADD COLUMN nn INT" 2;
                DDrop "db" "s" "other"; DPurge "else"] new = Some c ∧
       original_statement <$> entries c !! "db.s.t" = Some "CREATE TABLE t (id INT, nn INT)".
Proof.
  eexists. split; [vm_compute; reflexivity|].
  rewrite (catalog_objects_independent
    [DCreate "table" "Db" "s" "T" "CREATE TABLE t (id INT)" 1 false;
     DAlter "db" "s" "t" "ALTER TABLE t ADD COLUMN nn INT" 2;
     DDrop "db" "s" "other"; DPurge "else"]) by (vm_compute; reflexivity).
  vm_compute. reflexivity.
Defined.

(** A corrupted column.  The definition of an added column is cut from the first
    occurrence of its name anywhere in the statement: a column named [a] takes
    the rest of the word [ALTER]. *)
Lemma added_column_definition_corrupted :
  altered_statement "ALTER TABLE t ADD COLUMN a INT" "CREATE TABLE t (id INT)"
  = Some "CREATE TABLE t (id INT, a LTER TABLE t ADD COLUMN a INT)".
Proof. vm_compute. reflexivity. Qed.

(** A torn column type.  Dropping a column splits the list at every comma, also
    inside a type. *)
Lemma dropped_column_leaves_type_tail :
  altered_statement "ALTER TABLE t DROP COLUMN p" "CREATE TABLE t (p DECIMAL(10,2), id INT)"
  = Some "CREATE TABLE t (2), id INT)".
Proof. vm_compute. reflexivity. Qed.
