(* ===== verification/Bytes.v ===== *)
(** * Bytes

    Byte strings at rest and on the wire.  A Rust [&[u8]] is a Rocq [string]
    (8-bit characters), so [str::as_bytes] is the identity and slices compare
    by [String.compare], which is the lexicographic order on bytes.  Big-endian
    integers ([to_be_bytes], [from_be_bytes]), their order, and
    [std::str::from_utf8]. *)

From S2P Require Import Prelude Str.
From Stdlib Require Import Ascii.
Local Open Scope string_scope.
Local Open Scope list_scope.
Local Open Scope N_scope.

#[local] Arguments String.append !_ _ / : simpl nomatch.

Module Bytes.

(** The [n] big-endian bytes of [v]. *)
Fixpoint be (n : nat) (v : N) : string :=
  match n with
  | O => EmptyString
  | S n' => String (ascii_of_N ((v / 256 ^ N.of_nat n') mod 256)) (be n' v)
  end.

Fixpoint from_be_acc (acc : N) (s : string) : N :=
  match s with
  | EmptyString => acc
  | String c s' => from_be_acc (acc * 256 + N_of_ascii c) s'
  end.

Definition from_be (s : string) : N := from_be_acc 0 s.

(** The last [n] bytes of [s], and what precedes them. *)
Definition tail_bytes (n : nat) (s : string) : string :=
  String.substring (String.length s - n) n s.

Definition but_tail (n : nat) (s : string) : string :=
  String.substring 0 (String.length s - n) s.

(** ** UTF-8

    [std::str::from_utf8] succeeds exactly on well-formed UTF-8 (Unicode table
    3-7): no overlong form, no surrogate, nothing above U+10FFFF. *)
Definition between (lo hi : N) (c : ascii) : bool :=
  (lo <=? N_of_ascii c) && (N_of_ascii c <=? hi).

Definition cont_byte : ascii -> bool := between 128 191.

Fixpoint valid_utf8 (s : string) : bool :=
  match s with
  | EmptyString => true
  | String a s1 =>
      if between 0 127 a then valid_utf8 s1
      else match s1 with
      | String b s2 =>
          if between 194 223 a then cont_byte b && valid_utf8 s2
          else match s2 with
          | String c s3 =>
              if between 224 224 a && between 160 191 b
                 || between 225 236 a && cont_byte b
                 || between 237 237 a && between 128 159 b
                 || between 238 239 a && cont_byte b
              then cont_byte c && valid_utf8 s3
              else match s3 with
              | String d s4 =>
                  (between 240 240 a && between 144 191 b
                   || between 241 243 a && cont_byte b
                   || between 244 244 a && between 128 143 b)
                  && cont_byte c && cont_byte d && valid_utf8 s4
              | EmptyString => false
              end
          | EmptyString => false
          end
      | EmptyString => false
      end
  end.

(** ** Lemmas *)

Lemma N_of_ascii_mod v : N_of_ascii (ascii_of_N (v mod 256)) = v mod 256.
Proof. apply N_ascii_embedding, N.mod_lt. done. Qed.

Lemma length_be n v : String.length (be n v) = n.
Proof. induction n; simpl; congruence. Qed.

Lemma from_be_acc_be n v acc :
  from_be_acc acc (be n v) = acc * 256 ^ N.of_nat n + v mod 256 ^ N.of_nat n.
Proof.
  revert acc. induction n as [|n IH]; intros acc.
  - simpl. rewrite N.mod_1_r. lia.
  - cbn [be from_be_acc]. rewrite IH, N_of_ascii_mod.
    replace (256 ^ N.of_nat (S n)) with (256 ^ N.of_nat n * 256)
      by (rewrite Nat2N.inj_succ, N.pow_succ_r'; lia).
    rewrite N.Div0.mod_mul_r. lia.
Qed.

Lemma from_be_be n v : v < 256 ^ N.of_nat n → from_be (be n v) = v.
Proof. intros Hv. unfold from_be. by rewrite from_be_acc_be, N.mod_small. Qed.

Lemma ascii_compare_N a b : Ascii.compare a b = N.compare (N_of_ascii a) (N_of_ascii b).
Proof. done. Qed.

Lemma compare_be_mod n a b :
  String.compare (be n a) (be n b) = N.compare (a mod 256 ^ N.of_nat n) (b mod 256 ^ N.of_nat n).
Proof.
  induction n as [|n IH]; [simpl; by rewrite !N.mod_1_r|].
  cbn [be String.compare]. rewrite ascii_compare_N, !N_of_ascii_mod, IH.
  replace (256 ^ N.of_nat (S n)) with (256 ^ N.of_nat n * 256)
    by (rewrite Nat2N.inj_succ, N.pow_succ_r'; lia).
  set (M := 256 ^ N.of_nat n) in *.
  assert (HM : M ≠ 0) by (apply N.pow_nonzero; done).
  rewrite !N.Div0.mod_mul_r.
  pose proof (N.mod_lt a M HM) as Ha. pose proof (N.mod_lt b M HM) as Hb.
  revert Ha Hb. generalize ((a / M) mod 256) ((b / M) mod 256) (a mod M) (b mod M).
  clear IH. clearbody M. intros a1 b1 a0 b0 Ha Hb.
  destruct (N.compare_spec a1 b1) as [E|E|E].
  - subst. destruct (N.compare_spec a0 b0); symmetry;
      [apply N.compare_eq_iff|apply N.compare_lt_iff|apply N.compare_gt_iff]; lia.
  - symmetry. apply N.compare_lt_iff. nia.
  - symmetry. apply N.compare_gt_iff. nia.
Qed.

(** Fixed-width big-endian numbers sort as numbers. *)
Lemma compare_be n a b :
  a < 256 ^ N.of_nat n → b < 256 ^ N.of_nat n →
  String.compare (be n a) (be n b) = N.compare a b.
Proof. intros. by rewrite compare_be_mod, !N.mod_small. Qed.

Lemma be_inj n a b :
  a < 256 ^ N.of_nat n → b < 256 ^ N.of_nat n → be n a = be n b → a = b.
Proof. intros Ha Hb E. rewrite <-(from_be_be n a), <-(from_be_be n b) by done. by rewrite E. Qed.

Lemma compare_app p s t : String.compare (p +:+ s) (p +:+ t) = String.compare s t.
Proof.
  induction p as [|c p IH]; simpl; [done|]. by rewrite ascii_compare_N, N.compare_refl.
Qed.

Lemma app_inj_length a b c d :
  String.length a = String.length c → a +:+ b = c +:+ d → a = c ∧ b = d.
Proof.
  revert c. induction a as [|x a IH]; intros [|y c]; simpl; intros Hl E; simplify_eq; [done|].
  by destruct (IH c Hl ltac:(done)) as [-> ->].
Qed.

Lemma substring_app_skip n a b : String.substring (String.length a) n (a +:+ b) = String.substring 0 n b.
Proof. induction a; simpl; done. Qed.

Lemma substring_full s : String.substring 0 (String.length s) s = s.
Proof. induction s as [|c s IH]; simpl; [done|]. by rewrite IH. Qed.

Lemma substring_app_head a b : String.substring 0 (String.length a) (a +:+ b) = a.
Proof. induction a as [|c a IH]; simpl; [by destruct b|]. by rewrite IH. Qed.

Lemma tail_bytes_app n a b : String.length b = n → tail_bytes n (a +:+ b) = b.
Proof.
  intros <-. unfold tail_bytes. rewrite Str.length_app_str, Nat.add_sub.
  by rewrite substring_app_skip, substring_full.
Qed.

Lemma but_tail_app n a b : String.length b = n → but_tail n (a +:+ b) = a.
Proof.
  intros <-. unfold but_tail. rewrite Str.length_app_str, Nat.add_sub. apply substring_app_head.
Qed.

(** *** The order on keys *)

Definition key_lt (a b : string) : Prop := String.compare a b = Lt.

#[global] Instance key_lt_dec : RelDecision key_lt.
Proof. intros a b. unfold key_lt. destruct (String.compare a b); [right|left|right]; done. Defined.

Lemma ascii_compare_lt a b : Ascii.compare a b = Lt ↔ N_of_ascii a < N_of_ascii b.
Proof. rewrite ascii_compare_N. apply N.compare_lt_iff. Qed.

Lemma key_lt_irrefl a : ¬ key_lt a a.
Proof.
  unfold key_lt. induction a as [|c a IH]; simpl; [done|].
  by rewrite ascii_compare_N, N.compare_refl.
Qed.

Lemma key_lt_trans a b c : key_lt a b → key_lt b c → key_lt a c.
Proof.
  unfold key_lt. revert b c.
  induction a as [|x a IH]; intros [|y b] [|z c]; simpl; try done.
  rewrite !ascii_compare_N.
  destruct (N.compare_spec (N_of_ascii x) (N_of_ascii y)) as [E1|E1|E1],
    (N.compare_spec (N_of_ascii y) (N_of_ascii z)) as [E2|E2|E2]; intros H1 H2; try done.
  all: destruct (N.compare_spec (N_of_ascii x) (N_of_ascii z)); try lia; try done.
  by eapply IH.
Qed.

Lemma key_lt_asym a b : key_lt a b → ¬ key_lt b a.
Proof. intros H1 H2. by apply (key_lt_irrefl a), (key_lt_trans a b a). Qed.

Lemma key_trichotomy a b : key_lt a b ∨ a = b ∨ key_lt b a.
Proof.
  unfold key_lt. destruct (String.compare a b) eqn:E; [|auto|].
  - right; left. by apply String.compare_eq_iff.
  - right; right. by rewrite String.compare_antisym, E.
Qed.

(** Two strictly sorted lists with the same elements are equal. *)
Lemma sorted_entries_unique {A} (l1 l2 : list (string * A)) :
  StronglySorted key_lt (map fst l1) → StronglySorted key_lt (map fst l2) →
  (∀ e, e ∈ l1 ↔ e ∈ l2) → l1 = l2.
Proof.
  revert l2. induction l1 as [|e1 l1 IH]; intros [|e2 l2] H1 H2 Heq.
  - done.
  - exfalso. by eapply not_elem_of_nil, Heq; left.
  - exfalso. by eapply not_elem_of_nil, (proj1 (Heq e1)); left.
  - inversion H1 as [|? ? Hs1 Ha1]; inversion H2 as [|? ? Hs2 Ha2]; subst.
    rewrite List.Forall_forall in Ha1, Ha2.
    assert (Hin : ∀ (e : string * A) l, e ∈ l → List.In (e.1) (map fst l)).
    { intros e l He. apply List.in_map. by apply list_elem_of_In. }
    assert (e1 = e2) as ->.
    { assert (He1 : e1 ∈ e2 :: l2) by (apply Heq; by left).
      assert (He2 : e2 ∈ e1 :: l1) by (apply Heq; by left).
      apply elem_of_cons in He1 as [->|He1]; [done|]. apply elem_of_cons in He2 as [->|He2]; [done|].
      exfalso. apply (key_lt_asym (e1.1) (e2.1)); auto. }
    f_equal. apply IH; [done..|]. intros e. split; intros He.
    + assert (He' : e ∈ e2 :: l2) by (apply Heq; by right).
      apply elem_of_cons in He' as [->|]; [|done].
      exfalso. apply (key_lt_irrefl (e2.1)); auto.
    + assert (He' : e ∈ e2 :: l1) by (apply Heq; by right).
      apply elem_of_cons in He' as [->|]; [|done].
      exfalso. apply (key_lt_irrefl (e2.1)); auto.
Qed.

End Bytes.
