(* ===== verification/KvStore.v ===== *)
(** * The embedded key-value store

    The on-disk store under the durability engine is the [rocksdb] library,
    which is not part of the repository.  This file states what the engine
    relies on: column families, atomic write batches with an optional fsync,
    ordered iteration, and what a crash may lose.  [KvStore] is the library's
    surface, [KvLaws] the documented behaviour of it, and [log_store] a store
    that has this behaviour (a log of events with a synced prefix), used to
    evaluate examples. *)

From S2P Require Import Prelude Str Bytes.
Local Open Scope string_scope.
Local Open Scope list_scope.
Local Open Scope nat_scope.

Import Bytes.

(** One entry of a [WriteBatch]. *)
Inductive batch_op :=
| Put (cf k v : string)
| Delete (cf k : string).

(** What is in the store: the open column families and their entries. *)
Abbreviation families := (gmap string (gmap string string)).

Definition apply_op (m : families) (o : batch_op) : families :=
  match o with
  | Put cf k v => alter (insert k v) cf m
  | Delete cf k => alter (delete k) cf m
  end.

(** What has happened to the store since it was created. *)
Inductive kv_event :=
| EWrite (b : list batch_op)
| ECreate (cf : string)
| EDrop (cf : string).

Definition apply_event (m : families) (ev : kv_event) : families :=
  match ev with
  | EWrite b => fold_left apply_op b m
  | ECreate cf => match m !! cf with Some _ => m | None => <[cf := ∅]> m end
  | EDrop cf => delete cf m
  end.

Definition replay (h : list kv_event) : families := fold_left apply_event h ∅.

Definition is_write (ev : kv_event) : bool := match ev with EWrite _ => true | _ => false end.

(** After a crash the store holds a prefix of the batches written, no shorter
    than what was synced; families are created and dropped durably. *)
Definition crash_history (k : nat) (h : list kv_event) : list kv_event :=
  take k h ++ filter (fun ev => is_write ev = false) (drop k h).

Class KvStore (DB : Type) := {
  write_opt : list batch_op -> bool -> DB -> option DB;
  create_cf : string -> DB -> option DB;
  drop_cf : string -> DB -> option DB;
  cf_handle : string -> DB -> bool;
  get_cf : string -> string -> DB -> option string;
  iterator_cf : string -> DB -> list (string * string);
  list_cf : DB -> list string;
  estimate_num_keys : DB -> option N;
  crash : DB -> DB -> Prop;
}.

Class KvLaws (DB : Type) `{!KvStore DB} := {
  history : DB -> list kv_event;
  durable : DB -> nat;
  contents := fun d => replay (history d);
  durable_le : ∀ d, durable d ≤ length (history d);
  write_law : ∀ b sync d d', write_opt b sync d = Some d' →
    history d' = history d ++ [EWrite b] ∧ durable d ≤ durable d' ∧
    (sync = true → durable d' = length (history d'));
  create_law : ∀ cf d d', create_cf cf d = Some d' →
    history d' = history d ++ [ECreate cf] ∧ durable d ≤ durable d';
  drop_law : ∀ cf d d', drop_cf cf d = Some d' →
    history d' = history d ++ [EDrop cf] ∧ durable d ≤ durable d';
  handle_law : ∀ cf d, cf_handle cf d = bool_decide (is_Some (contents d !! cf));
  get_law : ∀ cf k d, get_cf cf k d = contents d !! cf ≫= lookup k;
  iterator_sorted : ∀ cf d, StronglySorted key_lt (map fst (iterator_cf cf d));
  iterator_law : ∀ cf d k v,
    (k, v) ∈ iterator_cf cf d ↔ contents d !! cf ≫= lookup k = Some v;
  list_law : ∀ cf d, cf ∈ list_cf d ↔ is_Some (contents d !! cf);
  list_NoDup : ∀ d, NoDup (list_cf d);
  crash_law : ∀ d d', crash d d' →
    ∃ k, durable d ≤ k ≤ length (history d) ∧
         history d' = crash_history k (history d) ∧ durable d' = length (history d');
}.

(** ** Reading one family *)

Definition entry (m : families) (cf k : string) : option string := m !! cf ≫= lookup k.

Lemma entry_put m cf k v cf' k' :
  entry (apply_op m (Put cf k v)) cf' k'
  = if decide (cf = cf' ∧ k = k' ∧ is_Some (m !! cf)) then Some v else entry m cf' k'.
Proof.
  unfold entry. simpl. destruct (decide (cf = cf')) as [<-|Hne].
  - rewrite lookup_alter_eq. destruct (m !! cf) as [f|] eqn:E; simpl.
    + destruct (decide (k = k')) as [<-|Hk].
      * rewrite lookup_insert_eq, decide_True by (split_and!; eauto). done.
      * rewrite lookup_insert_ne, decide_False by naive_solver. done.
    + rewrite decide_False; [done|]. intros (_ & _ & [? ?]). done.
  - rewrite lookup_alter_ne, decide_False by naive_solver. done.
Qed.

Lemma entry_delete m cf k cf' k' :
  entry (apply_op m (Delete cf k)) cf' k'
  = if decide (cf = cf' ∧ k = k') then None else entry m cf' k'.
Proof.
  unfold entry. simpl. destruct (decide (cf = cf')) as [<-|Hne].
  - rewrite lookup_alter_eq. destruct (m !! cf) as [f|]; simpl.
    + destruct (decide (k = k')) as [<-|Hk].
      * by rewrite lookup_delete_eq, decide_True by done.
      * rewrite lookup_delete_ne, decide_False by naive_solver. done.
    + by destruct (decide _).
  - rewrite lookup_alter_ne, decide_False by naive_solver. done.
Qed.

Lemma apply_op_families m o cf : is_Some (apply_op m o !! cf) ↔ is_Some (m !! cf).
Proof.
  destruct o as [cf' k v|cf' k]; simpl; destruct (decide (cf' = cf)) as [<-|?];
    rewrite ?lookup_alter_eq, ?lookup_alter_ne by done; try done; apply fmap_is_Some.
Qed.

Lemma batch_families b m cf : is_Some (fold_left apply_op b m !! cf) ↔ is_Some (m !! cf).
Proof.
  revert m. induction b as [|o b IH]; intros m; simpl; [done|]. by rewrite IH, apply_op_families.
Qed.

Lemma replay_snoc h ev : replay (h ++ [ev]) = apply_event (replay h) ev.
Proof. unfold replay. by rewrite fold_left_app. Qed.

(** Creating or dropping other families does not touch a family. *)
Lemma apply_others m evs cf :
  Forall (fun ev => is_write ev = false ∧ ev ≠ ECreate cf ∧ ev ≠ EDrop cf) evs →
  fold_left apply_event evs m !! cf = m !! cf.
Proof.
  revert m. induction evs as [|ev evs IH]; intros m Hall; simpl; [done|].
  inversion Hall as [|? ? [Hw [Hc Hd]] Hrest]; subst. rewrite (IH _ Hrest).
  destruct ev as [b|cf'|cf']; simpl; [done| |].
  - destruct (m !! cf') eqn:E; [done|]. rewrite lookup_insert_ne; [done|]. congruence.
  - rewrite lookup_delete_ne; [done|]. congruence.
Qed.

Lemma replay_crash k h cf :
  Forall (fun ev => ev ≠ ECreate cf ∧ ev ≠ EDrop cf) (drop k h) →
  replay (crash_history k h) !! cf = replay (take k h) !! cf.
Proof.
  intros Hall. unfold replay, crash_history. rewrite fold_left_app. apply apply_others.
  rewrite Forall_forall in Hall |- *. intros ev Hin.
  apply list_elem_of_filter in Hin as [Hw Hin]. destruct (Hall ev Hin). auto.
Qed.

(** ** A store with this behaviour *)

Record LogStore := mkLog { events : list kv_event; synced : nat }.

Definition sorted_entries (m : gmap string string) : list (string * string) :=
  merge_sort (fun a b => String.le a.1 b.1) (map_to_list m).

Section LogStore.
Variable fails : list batch_op -> bool.

Definition log_write (b : list batch_op) (sync : bool) (d : LogStore) : option LogStore :=
  if fails b then None
  else Some (mkLog (events d ++ [EWrite b])
                   (if sync then S (length (events d)) else min (synced d) (length (events d)))).

Definition log_event (ev : kv_event) (d : LogStore) : option LogStore :=
  Some (mkLog (events d ++ [ev]) (min (synced d) (length (events d)))).

Definition log_crash (d d' : LogStore) : Prop :=
  ∃ k, min (synced d) (length (events d)) ≤ k ≤ length (events d) ∧
       d' = mkLog (crash_history k (events d)) (length (crash_history k (events d))).

Definition log_store : KvStore LogStore := {|
  write_opt := log_write;
  create_cf := fun cf => log_event (ECreate cf);
  drop_cf := fun cf => log_event (EDrop cf);
  cf_handle := fun cf d => bool_decide (is_Some (replay (events d) !! cf));
  get_cf := fun cf k d => replay (events d) !! cf ≫= lookup k;
  iterator_cf := fun cf d => sorted_entries (default ∅ (replay (events d) !! cf));
  list_cf := fun d => map fst (map_to_list (replay (events d)));
  estimate_num_keys := fun d => Some (N.of_nat (size (default ∅ (replay (events d) !! "default"))));
  crash := log_crash;
|}.

Lemma key_le_ne_lt a b : String.le a b → a ≠ b → key_lt a b.
Proof.
  unfold String.le, key_lt, String.leb. destruct (String.compare a b) eqn:E; [|done|done].
  apply String.compare_eq_iff in E. done.
Qed.

Lemma sorted_entries_sorted m : StronglySorted key_lt (map fst (sorted_entries m)).
Proof.
  assert (Hle : StronglySorted (fun a b => String.le a.1 b.1) (sorted_entries m)).
  { apply StronglySorted_merge_sort; [|intros x y; apply String.le_total].
    intros x y z. apply (transitivity (R := String.le)). }
  assert (Hnd : NoDup (map fst (sorted_entries m))).
  { unfold sorted_entries. rewrite merge_sort_Permutation. apply NoDup_fst_map_to_list. }
  induction Hle as [|e l Hs IH Hall]; simpl in *; [constructor|].
  apply NoDup_cons in Hnd as [Hni Hnd]. constructor; [auto|].
  rewrite List.Forall_forall in Hall |- *. intros k Hk. apply List.in_map_iff in Hk as (e' & <- & He').
  apply key_le_ne_lt; [by apply Hall|]. intros E. apply Hni. rewrite E.
  apply list_elem_of_In, List.in_map. done.
Qed.

Lemma sorted_entries_elem m k v : (k, v) ∈ sorted_entries m ↔ m !! k = Some v.
Proof. unfold sorted_entries. rewrite merge_sort_Permutation. apply elem_of_map_to_list. Qed.

Definition log_laws : @KvLaws LogStore log_store.
Proof.
  refine {| history := events; durable := fun d => min (synced d) (length (events d)) |};
    simpl.
  - intros d. lia.
  - intros b sync d d' H. unfold log_write in H. destruct (fails b); [done|]. simplify_eq; simpl.
    rewrite length_app; simpl. destruct sync; split_and!; try done; try lia.
  - intros cf d d' [= <-]; simpl. rewrite length_app; simpl. split; [done|lia].
  - intros cf d d' [= <-]; simpl. rewrite length_app; simpl. split; [done|lia].
  - done.
  - done.
  - intros cf d. apply sorted_entries_sorted.
  - intros cf d k v. rewrite sorted_entries_elem. by destruct (_ !! cf); simpl; rewrite ?lookup_empty.
  - intros cf d. rewrite list_elem_of_fmap. split.
    + intros ([k f] & -> & Hin%elem_of_map_to_list). by exists f.
    + intros [f Hf]. exists (cf, f). split; [done|]. by apply elem_of_map_to_list.
  - intros d. apply NoDup_fst_map_to_list.
  - intros d d' (k & Hk & ->). exists k. simpl. split_and!; try done; lia.
Defined.

End LogStore.
