(* ===== verification/RocksEngine.v ===== *)
(** * The RocksDB durability engine
      ([crates/voltnuerongrid-store/src/rocksdb_engine.rs])

    Mutations, the SQL statement streams, row versions and checkpoints over the
    key-value store of [KvStore].  JSON encoding ([serde_json]) is a parameter.
    [None] is a panic; read errors of the store's iterators are not modelled. *)

From S2P Require Import Prelude Str Bytes KvStore Wal SqlKind.
From Stdlib Require Import Ascii.
Local Open Scope string_scope.
Local Open Scope list_scope.
Local Open Scope N_scope.
Local Open Scope vng_scope.

Import Bytes.

(** [serde_json] on the two types the engine stores. *)
Class SerdeJson := {
  row_to_json : gmap string string -> string;
  row_from_json : string -> option (gmap string string);
  wal_to_json : Wal.WalRecord -> string;
  wal_from_json : string -> option Wal.WalRecord;
}.

Class SerdeLaws `{!SerdeJson} : Prop := {
  row_json_roundtrip : ∀ r, row_from_json (row_to_json r) = Some r;
  wal_json_roundtrip : ∀ r, wal_from_json (wal_to_json r) = Some r;
}.

Module Rocks.
Import Wal.

(** ** Names and encodings *)

Definition DEFAULT_WAL_TAIL_CAP : nat := 1024.

Definition CF_DEFAULT : string := "default".
Definition CF_WAL : string := "wal".
Definition CF_META : string := "meta".
Definition CF_SQL : string := "sql".
Definition CF_ROWS : string := "rows".

Definition META_LATEST_SEQUENCE : string := "latest_sequence".
Definition META_CHECKPOINT_COUNT : string := "checkpoint_count".
Definition META_LATEST_CHECKPOINT_ID : string := "latest_checkpoint_id".
Definition META_LATEST_CHECKPOINT_LAST_SEQ : string := "latest_checkpoint_last_seq".
Definition META_LATEST_CHECKPOINT_ENTRY_COUNT : string := "latest_checkpoint_entry_count".
Definition META_SQL_DDL_SEQUENCE : string := "sql_ddl_sequence".
Definition META_SQL_DML_SEQUENCE : string := "sql_dml_sequence".
Definition META_MAX_ROW_XID : string := "max_row_xid".

Definition sql_kind_tag (k : SqlWalKind) : ascii :=
  match k with Ddl => "d"%char | Dml => "m"%char end.

Definition sql_kind_seq_meta_key (k : SqlWalKind) : string :=
  match k with Ddl => META_SQL_DDL_SEQUENCE | Dml => META_SQL_DML_SEQUENCE end.

Definition encode_u64 (v : N) : string := be 8 v.

Definition decode_u64 (b : string) : option N :=
  if Nat.eqb (String.length b) 8 then Some (from_be b) else None.

Definition sql_key (k : SqlWalKind) (seq : N) : string :=
  String (sql_kind_tag k) (encode_u64 seq).

Definition db_rows_cf_name (db : string) : string := "rows_" +:+ db.

(** [\x1f] *)
Definition SEP : ascii := ascii_of_N 31.

(** [{row_key}\x1f{xid_be8}] *)
Definition row_version_key (row_key : string) (xid : N) : string :=
  row_key +:+ String SEP (encode_u64 xid).

Inductive RocksDbEngineError :=
| Storage
| Corrupt (what : string).

(** ** State *)

Record HotState := mkHot {
  sequence : N;
  checkpoint_count : nat;
  wal_since_checkpoint : nat;
  sql_ddl_sequence : N;
  sql_dml_sequence : N;
  max_row_xid : N;
}.

Record Engine (DB : Type) := mkEngine {
  db : DB;
  config : DurabilityConfig;
  sync_writes : bool;
  state : HotState;
  wal_tail : list WalRecord;
  fsync_count : N;
}.
#[global] Arguments mkEngine {DB}.
#[global] Arguments db {DB}.
#[global] Arguments config {DB}.
#[global] Arguments sync_writes {DB}.
#[global] Arguments state {DB}.
#[global] Arguments wal_tail {DB}.
#[global] Arguments fsync_count {DB}.

Section Engine.
Context {DB : Type} `{!KvStore DB} `{!SerdeJson}.
Implicit Types (e : Engine DB).

Definition set_db (d : DB) e : Engine DB :=
  mkEngine d (config e) (sync_writes e) (state e) (wal_tail e) (fsync_count e).

Definition set_state (s : HotState) e : Engine DB :=
  mkEngine (db e) (config e) (sync_writes e) s (wal_tail e) (fsync_count e).

(** The fsync the durability path asks for, and its counter. *)
Definition synced_append e : bool := sync_writes e && wal_enabled (config e).

Definition count_fsync e : N :=
  if synced_append e then u64_add (fsync_count e) 1 else fsync_count e.

(** ** Opening *)

Definition decode_wal_record (value : string) : option WalRecord := wal_from_json value.

Definition encode_wal_record (r : WalRecord) : string := wal_to_json r.

(** The first [cap] records of [l] that decode. *)
Fixpoint take_records (cap : nat) (l : list (string * string)) : list WalRecord :=
  match l with
  | [] => []
  | (_, v) :: l' =>
      match decode_wal_record v with
      | Some r => r :: (match cap with S (S cap') => take_records (S cap') l' | _ => [] end)
      | None => take_records cap l'
      end
  end.

Definition read_recent_wal_records (cap : nat) (d : DB) : result (list WalRecord) RocksDbEngineError :=
  if cf_handle CF_WAL d then Ok (rev (take_records cap (rev (iterator_cf CF_WAL d))))
  else Err (Corrupt "wal CF missing").

Definition decode_or_zero (b : option string) : N :=
  match b with
  | Some b => match decode_u64 b with Some v => v | None => 0 end
  | None => 0
  end.

Definition decode_meta (what : string) (b : option string) : result N RocksDbEngineError :=
  match b with
  | Some b => match decode_u64 b with Some v => Ok v | None => Err (Corrupt what) end
  | None => Ok 0
  end.

Definition compute_wal_since_checkpoint (latest_sequence : N) (d : DB) : nat :=
  N.to_nat (saturating_sub latest_sequence
              (decode_or_zero (get_cf CF_META META_LATEST_CHECKPOINT_LAST_SEQ d))).

(** [DB::open_cf_descriptors] with [create_missing_column_families]. *)
Fixpoint open_families (cfs : list string) (d : DB) : result DB RocksDbEngineError :=
  match cfs with
  | [] => Ok d
  | cf :: cfs' =>
      if cf_handle cf d then open_families cfs' d
      else match create_cf cf d with
           | Some d' => open_families cfs' d'
           | None => Err Storage
           end
  end.

Definition fsync_on_commit (env : option string) : bool :=
  match env with
  | Some v => negb (String.eqb v "0") && negb (String.eqb (SqlKind.to_ascii_lowercase v) "false")
  | None => true
  end.

Definition open (env : option string) (cfg : DurabilityConfig) (d : DB)
    : result (Engine DB) RocksDbEngineError :=
  let? d := open_families [CF_DEFAULT; CF_WAL; CF_META; CF_SQL; CF_ROWS] d in
  if negb (cf_handle CF_META d) then Err (Corrupt "meta CF missing") else
  let? latest := decode_meta "latest_sequence" (get_cf CF_META META_LATEST_SEQUENCE d) in
  let? ckpts := decode_meta "checkpoint_count" (get_cf CF_META META_CHECKPOINT_COUNT d) in
  let ddl := decode_or_zero (get_cf CF_META META_SQL_DDL_SEQUENCE d) in
  let dml := decode_or_zero (get_cf CF_META META_SQL_DML_SEQUENCE d) in
  let max_xid := decode_or_zero (get_cf CF_META META_MAX_ROW_XID d) in
  let? tail := read_recent_wal_records DEFAULT_WAL_TAIL_CAP d in
  Ok (mkEngine d cfg (fsync_on_commit env)
        (mkHot latest (N.to_nat ckpts) (compute_wal_since_checkpoint latest d) ddl dml max_xid)
        tail 0).

(** ** Mutations and checkpoints *)

Definition push_tail (cap : nat) (wal_on : bool) (r : WalRecord) (tail : list WalRecord)
    : list WalRecord :=
  let tail := if Nat.leb cap (length tail) then tl tail else tail in
  if wal_on then tail ++ [r] else tail.

(** The primary entry, the WAL record and the counter, in one batch. *)
Definition mutation_batch (r : WalRecord) : list batch_op :=
  [Put CF_DEFAULT (key r) (value r);
   Put CF_WAL (encode_u64 (Wal.sequence r)) (encode_wal_record r);
   Put CF_META META_LATEST_SEQUENCE (encode_u64 (Wal.sequence r))].

Definition append_mutation (now : N) (key value : string) e : option (WalRecord * Engine DB) :=
  let seq := u64_add (sequence (state e)) 1 in
  let r := mkWalRecord seq now key value in
  if negb (cf_handle CF_WAL (db e)) || negb (cf_handle CF_META (db e)) then None else
  let! d := write_opt (mutation_batch r) (synced_append e) (db e) in
  let st := state e in
  Some (r, mkEngine d (config e) (sync_writes e)
             (mkHot seq (checkpoint_count st) (S (wal_since_checkpoint st))
                (sql_ddl_sequence st) (sql_dml_sequence st) (max_row_xid st))
             (push_tail DEFAULT_WAL_TAIL_CAP (wal_enabled (config e)) r (wal_tail e))
             (count_fsync e)).

Definition scan_wal (from_seq : N) e : result (list WalRecord) RocksDbEngineError :=
  if negb (cf_handle CF_WAL (db e)) then Err (Corrupt "wal CF missing")
  else Ok (omap (fun kv => decode_wal_record kv.2)
             (filter (fun kv => ¬ key_lt kv.1 (encode_u64 from_seq)) (iterator_cf CF_WAL (db e)))).

Definition checkpoint_batch (m : CheckpointManifest) : list batch_op :=
  [Put CF_META META_CHECKPOINT_COUNT (encode_u64 (checkpoint_id m));
   Put CF_META META_LATEST_CHECKPOINT_ID (encode_u64 (checkpoint_id m));
   Put CF_META META_LATEST_CHECKPOINT_LAST_SEQ (encode_u64 (last_sequence m));
   Put CF_META META_LATEST_CHECKPOINT_ENTRY_COUNT (encode_u64 (N.of_nat (entry_count m)))].

Definition force_checkpoint e : option (CheckpointManifest * Engine DB) :=
  if negb (cf_handle CF_META (db e)) then None else
  let st := state e in
  let count := S (checkpoint_count st) in
  let estimated := match estimate_num_keys (db e) with Some n => N.to_nat n | None => O end in
  let manifest := mkManifest (N.of_nat count) (sequence st) estimated in
  let! d := write_opt (checkpoint_batch manifest) (sync_writes e) (db e) in
  Some (manifest,
        mkEngine d (config e) (sync_writes e)
          (mkHot (sequence st) count O (sql_ddl_sequence st) (sql_dml_sequence st) (max_row_xid st))
          [] (fsync_count e)).

Definition maybe_checkpoint e : option (option CheckpointManifest * Engine DB) :=
  if Nat.leb (max_wal_records_before_checkpoint (config e)) (wal_since_checkpoint (state e)) then
    let! (m, en) := force_checkpoint e in Some (Some m, en)
  else Some (None, e).

(** ** The SQL streams *)

Definition kind_sequence (k : SqlWalKind) (st : HotState) : N :=
  match k with Ddl => sql_ddl_sequence st | Dml => sql_dml_sequence st end.

Definition set_kind_sequence (k : SqlWalKind) (n : N) (st : HotState) : HotState :=
  match k with
  | Ddl => mkHot (sequence st) (checkpoint_count st) (wal_since_checkpoint st) n
             (sql_dml_sequence st) (max_row_xid st)
  | Dml => mkHot (sequence st) (checkpoint_count st) (wal_since_checkpoint st)
             (sql_ddl_sequence st) n (max_row_xid st)
  end.

Definition sql_batch (k : SqlWalKind) (seq : N) (sql : string) : list batch_op :=
  [Put CF_SQL (sql_key k seq) sql;
   Put CF_META (sql_kind_seq_meta_key k) (encode_u64 seq)].

Definition append_sql (k : SqlWalKind) (sql : string) e : option (N * Engine DB) :=
  let seq := u64_add (kind_sequence k (state e)) 1 in
  if negb (cf_handle CF_SQL (db e)) || negb (cf_handle CF_META (db e)) then None else
  let! d := write_opt (sql_batch k seq sql) (synced_append e) (db e) in
  Some (seq, mkEngine d (config e) (sync_writes e) (set_kind_sequence k seq (state e))
               (wal_tail e) (count_fsync e)).

(** The loop of [append_sql_batch]: the puts, the sequences, the counters. *)
Fixpoint batch_entries (entries : list (SqlWalKind * string)) (st : HotState)
    : list batch_op * list N * HotState :=
  match entries with
  | [] => ([], [], st)
  | (k, sql) :: es =>
      let seq := u64_add (kind_sequence k st) 1 in
      let '(ops, seqs, st') := batch_entries es (set_kind_sequence k seq st) in
      (Put CF_SQL (sql_key k seq) sql :: ops, seq :: seqs, st')
  end.

Definition group_batch (ops : list batch_op) (st : HotState) : list batch_op :=
  ops ++ [Put CF_META (sql_kind_seq_meta_key Ddl) (encode_u64 (sql_ddl_sequence st));
          Put CF_META (sql_kind_seq_meta_key Dml) (encode_u64 (sql_dml_sequence st))].

Definition append_sql_batch (entries : list (SqlWalKind * string)) e
    : option (list N * Engine DB) :=
  match entries with
  | [] => Some ([], e)
  | _ =>
      if negb (cf_handle CF_SQL (db e)) || negb (cf_handle CF_META (db e)) then None else
      let '(ops, seqs, st') := batch_entries entries (state e) in
      let! d := write_opt (group_batch ops st') (synced_append e) (db e) in
      Some (seqs, mkEngine d (config e) (sync_writes e) st' (wal_tail e) (count_fsync e))
  end.

(** The loop of [iter_sql]: stop at the first key of another kind. *)
Fixpoint collect_sql (k : SqlWalKind) (l : list (string * string)) : list string :=
  match l with
  | [] => []
  | (key, v) :: l' =>
      match key with
      | String t _ =>
          if negb (Ascii.eqb t (sql_kind_tag k)) then []
          else if bool_decide (¬ key_lt key
                    (String (ascii_of_N (N_of_ascii (sql_kind_tag k) + 1)) (encode_u64 0)))
          then []
          else if valid_utf8 v then v :: collect_sql k l' else collect_sql k l'
      | EmptyString => []
      end
  end.

Definition iter_sql (k : SqlWalKind) e : list string :=
  if negb (cf_handle CF_SQL (db e)) then []
  else collect_sql k
         (filter (fun kv => ¬ key_lt kv.1 (sql_key k 1)) (iterator_cf CF_SQL (db e))).

Definition sql_count (k : SqlWalKind) e : nat := N.to_nat (kind_sequence k (state e)).

(** [for seq in 1..=upper_seq], then the counter's reset. *)
Definition clear_batch (k : SqlWalKind) (upper : N) : list batch_op :=
  map (fun i => Delete CF_SQL (sql_key k (N.of_nat i))) (List.seq 1 (N.to_nat upper))
  ++ [Put CF_META (sql_kind_seq_meta_key k) (encode_u64 0)].

Definition clear_sql (k : SqlWalKind) e : Engine DB :=
  if negb (cf_handle CF_SQL (db e)) || negb (cf_handle CF_META (db e)) then e else
  let upper := kind_sequence k (state e) in
  if upper =? 0 then e else
  match write_opt (clear_batch k upper) (sync_writes e) (db e) with
  | Some d => set_state (set_kind_sequence k 0 (state e)) (set_db d e)
  | None => e
  end.

(** ** Row versions *)

Definition ensure_db_cf (name : string) e : result (Engine DB) RocksDbEngineError :=
  let cf := db_rows_cf_name name in
  if cf_handle cf (db e) then Ok e
  else match create_cf cf (db e) with
       | Some d => Ok (set_db d e)
       | None => Err Storage
       end.

Definition row_value (data : option (gmap string string)) : string :=
  match data with
  | Some cols => String (ascii_of_N 0) (row_to_json cols)
  | None => String (ascii_of_N 1) EmptyString
  end.

Definition set_max_row_xid (xid : N) (st : HotState) : HotState :=
  mkHot (sequence st) (checkpoint_count st) (wal_since_checkpoint st) (sql_ddl_sequence st)
    (sql_dml_sequence st) xid.

Definition row_batch (name row_key : string) (xid : N) (data : option (gmap string string))
    (new_max : bool) : list batch_op :=
  Put (db_rows_cf_name name) (row_version_key row_key xid) (row_value data) ::
  (if new_max then [Put CF_META META_MAX_ROW_XID (encode_u64 xid)] else []).

(** [store_row] once the family is there. *)
Definition write_row_version (name row_key : string) (xid : N) (data : option (gmap string string))
    e : Engine DB :=
  if negb (cf_handle (db_rows_cf_name name) (db e)) then e else
  let needs_max_xid_update := max_row_xid (state e) <? xid in
  let batch := row_batch name row_key xid data
                 (needs_max_xid_update && cf_handle CF_META (db e)) in
  let e := match write_opt batch (sync_writes e) (db e) with
           | Some d => set_db d e
           | None => e
           end in
  if needs_max_xid_update then set_state (set_max_row_xid xid (state e)) e else e.

Definition store_row (name row_key : string) (xid : N) (data : option (gmap string string)) e
    : Engine DB :=
  match ensure_db_cf name e with
  | Err _ => e
  | Ok e => write_row_version name row_key xid data e
  end.

(** [{row_key}\x1f{xid_be8}] back to its parts; [None] where the scan skips
    the entry. *)
Definition ends_with_sep (s : string) : bool :=
  String.eqb (tail_bytes 1 s) (String SEP EmptyString).

Definition parse_row_key (k : string) : option (string * N) :=
  if Nat.ltb (String.length k) 9 then None else
  let head := but_tail 8 k in
  if negb (ends_with_sep head) then None else
  let row_key := but_tail 1 head in
  if negb (valid_utf8 row_key) then None else Some (row_key, from_be (tail_bytes 8 k)).

(** Legacy keys [{db}\x1f{row_key}\x1f{xid_be8}]. *)
Definition parse_legacy_key (k : string) : option (string * string * N) :=
  if Nat.ltb (String.length k) 10 then None else
  let head := but_tail 8 k in
  if negb (ends_with_sep head) then None else
  match Str.split_once (String SEP EmptyString) (but_tail 1 head) with
  | None => None
  | Some (name, row_key) =>
      if valid_utf8 name && valid_utf8 row_key
      then Some (name, row_key, from_be (tail_bytes 8 k)) else None
  end.

Definition decode_row (value : string) : option (option (gmap string string)) :=
  match value with
  | EmptyString => None
  | String t json =>
      if N_of_ascii t =? 1 then Some None
      else if N_of_ascii t =? 0 then Some <$> row_from_json json
      else None
  end.

Definition visible_step (snapshot_xid : N) (m : gmap string (N * string)) (kv : string * string)
    : gmap string (N * string) :=
  match parse_row_key kv.1 with
  | Some (row_key, xid) =>
      if snapshot_xid <? xid then m else <[row_key := (xid, kv.2)]> m
  | None => m
  end.

Definition scan_rows_for_db `{!MapOrder (N * string)} (name : string) (snapshot_xid : N) e
    : list (string * gmap string string) :=
  let cf := db_rows_cf_name name in
  if negb (cf_handle cf (db e)) then [] else
  let latest := fold_left (visible_step snapshot_xid) (iterator_cf cf (db e)) ∅ in
  omap (fun kv => match decode_row (kv.2).2 with
                  | Some (Some cols) => Some (kv.1, cols)
                  | _ => None
                  end) (iter_map latest).

Abbreviation latest_rows := (gmap (string * string) (N * string)).

Definition legacy_step (m : latest_rows) (kv : string * string) : latest_rows :=
  match parse_legacy_key kv.1 with
  | Some (name, row_key, xid) => <[(name, row_key) := (xid, kv.2)]> m
  | None => m
  end.

Definition persisted_step (name : string) (m : latest_rows) (kv : string * string) : latest_rows :=
  match parse_row_key kv.1 with
  | Some (row_key, xid) => <[(name, row_key) := (xid, kv.2)]> m
  | None => m
  end.

Definition scan_family (d : DB) (m : latest_rows) (cf : string) : latest_rows :=
  match Str.strip_prefix "rows_" cf with
  | None => m
  | Some name => if cf_handle cf d then fold_left (persisted_step name) (iterator_cf cf d) m else m
  end.

Definition scan_persisted_rows `{!HashOrder (string * string) (N * string)} e
    : list (string * string * N * gmap string string * bool) :=
  let m0 := if cf_handle CF_ROWS (db e)
            then fold_left legacy_step (iterator_cf CF_ROWS (db e)) ∅ else ∅ in
  let latest := fold_left (scan_family (db e)) (list_cf (db e)) m0 in
  omap (fun kv => match decode_row (kv.2).2 with
                  | Some None => Some (kv.1.1, kv.1.2, (kv.2).1, ∅, true)
                  | Some (Some cols) => Some (kv.1.1, kv.1.2, (kv.2).1, cols, false)
                  | None => None
                  end) (iter_hash latest).

Definition drop_db_column_family (name : string) e : Engine DB :=
  let cf := db_rows_cf_name name in
  if negb (cf_handle cf (db e)) then e
  else match drop_cf cf (db e) with Some d => set_db d e | None => e end.

(** The loop of [get_row] over the keys from [prefix] on. *)
Fixpoint best_version (prefix : string) (best : option (N * string)) (l : list (string * string))
    : option (N * string) :=
  match l with
  | [] => best
  | (k, v) :: l' =>
      if negb (Str.starts_with prefix k) then best
      else if Nat.ltb (String.length k) (String.length prefix + 8) then best_version prefix best l'
      else
        let xid := from_be (tail_bytes 8 k) in
        let better := match best with Some (bx, _) => bx <? xid | None => true end in
        best_version prefix (if better then Some (xid, v) else best) l'
  end.

Definition get_row (name row_key : string) e : option (gmap string string) :=
  let cf := db_rows_cf_name name in
  if negb (cf_handle cf (db e)) then None else
  let prefix := row_key +:+ String SEP EmptyString in
  match best_version prefix None
          (filter (fun kv => ¬ key_lt kv.1 prefix) (iterator_cf cf (db e))) with
  | Some (_, value) => match decode_row value with Some (Some cols) => Some cols | _ => None end
  | None => None
  end.

End Engine.
End Rocks.
