(* ===== verification/RocksSpec.v ===== *)
(** * Specification of the RocksDB durability engine

    What the engine keeps, as plain data ([Spec]), the operations on it, and
    the relation [reflects] between it and the column families, which every
    batch the engine writes preserves. *)

From S2P Require Import Prelude Str Bytes KvStore Wal RocksEngine.
From Stdlib Require Import Ascii.
Local Open Scope string_scope.
Local Open Scope list_scope.
Local Open Scope N_scope.

Import Bytes Wal Rocks.

#[local] Arguments String.append !_ _ / : simpl nomatch.
#[local] Arguments be : simpl never.
#[local] Arguments encode_u64 : simpl never.
#[local] Arguments apply_op : simpl never.
#[local] Arguments N.of_nat : simpl never.

(** ** Keys *)

Lemma u64_width : 256 ^ N.of_nat 8 = u64_modulus.
Proof. reflexivity. Qed.

Lemma decode_encode_u64 v : v < u64_modulus → decode_u64 (encode_u64 v) = Some v.
Proof.
  intros Hv. unfold decode_u64, encode_u64. rewrite length_be. cbn [Nat.eqb].
  by rewrite from_be_be by (by rewrite u64_width).
Qed.

Lemma encode_u64_inj a b :
  a < u64_modulus → b < u64_modulus → encode_u64 a = encode_u64 b → a = b.
Proof. intros. by apply (be_inj 8); rewrite ?u64_width. Qed.

Lemma encode_u64_lt a b :
  a < u64_modulus → b < u64_modulus → key_lt (encode_u64 a) (encode_u64 b) ↔ a < b.
Proof.
  intros. unfold key_lt, encode_u64. rewrite compare_be by (by rewrite u64_width).
  apply N.compare_lt_iff.
Qed.

Lemma sql_key_inj k i k' j :
  i < u64_modulus → j < u64_modulus → sql_key k i = sql_key k' j → k = k' ∧ i = j.
Proof.
  intros Hi Hj E.
  apply (app_inj_length (String (sql_kind_tag k) "") (encode_u64 i)
           (String (sql_kind_tag k') "") (encode_u64 j)) in E as [Ht He]; [|done].
  split; [by destruct k, k'|by apply encode_u64_inj].
Qed.

Lemma row_version_key_inj rk x rk' x' :
  x < u64_modulus → x' < u64_modulus → row_version_key rk x = row_version_key rk' x' →
  rk = rk' ∧ x = x'.
Proof.
  intros Hx Hx' E. unfold row_version_key in E.
  assert (Hl : String.length rk = String.length rk').
  { apply (f_equal String.length) in E. rewrite !Str.length_app_str in E.
    cbn [String.length] in E. unfold encode_u64 in E. rewrite !length_be in E. lia. }
  apply app_inj_length in E as [-> E]; [|done].
  apply (app_inj_length (String SEP "") (encode_u64 x) (String SEP "") (encode_u64 x'))
    in E as [_ E]; [|done].
  split; [done|by apply encode_u64_inj].
Qed.

(** ** The specification

    What the engine has accepted, as plain data: the two statement streams, the
    log of mutations, the number of checkpoints and the log length at the last
    one, the row versions of every database and the highest transaction id. *)
Abbreviation row := (gmap string string).
Abbreviation row_versions := (gmap (string * N) (option row)).

Record Spec := mkSpec {
  streams : SqlWalKind -> list string;
  log : list WalRecord;
  ckpt_count : nat;
  ckpt_at : nat;
  versions : gmap string row_versions;
  top_xid : N;
}.

Definition empty_spec : Spec := mkSpec (fun _ => []) [] 0 0 ∅ 0.

Definition kind_eqb (a b : SqlWalKind) : bool :=
  match a, b with Ddl, Ddl | Dml, Dml => true | _, _ => false end.

Lemma kind_eqb_spec a b : reflect (a = b) (kind_eqb a b).
Proof. destruct a, b; simpl; constructor; done. Qed.

Definition set_stream (k : SqlWalKind) (l : list string) (f : SqlWalKind -> list string)
    : SqlWalKind -> list string :=
  fun k' => if kind_eqb k k' then l else f k'.

Definition append_stream (f : SqlWalKind -> list string) (e : SqlWalKind * string)
    : SqlWalKind -> list string := set_stream e.1 (f e.1 ++ [e.2]) f.

Inductive rocks_op :=
| OMutate (now : N) (key value : string)
| OSql (k : SqlWalKind) (sql : string)
| OSqlBatch (entries : list (SqlWalKind * string))
| OClear (k : SqlWalKind)
| OStore (name row_key : string) (xid : N) (data : option row)
| ODropDb (name : string)
| OCheckpoint.

Definition with_streams (f : SqlWalKind -> list string) (s : Spec) : Spec :=
  mkSpec f (log s) (ckpt_count s) (ckpt_at s) (versions s) (top_xid s).

Definition spec_step (s : Spec) (o : rocks_op) : Spec :=
  match o with
  | OMutate now k v =>
      mkSpec (streams s) (log s ++ [mkWalRecord (N.of_nat (S (length (log s)))) now k v])
        (ckpt_count s) (ckpt_at s) (versions s) (top_xid s)
  | OSql k sql => with_streams (append_stream (streams s) (k, sql)) s
  | OSqlBatch entries => with_streams (fold_left append_stream entries (streams s)) s
  | OClear k => with_streams (set_stream k [] (streams s)) s
  | OStore name rk xid data =>
      mkSpec (streams s) (log s) (ckpt_count s) (ckpt_at s)
        (<[name := <[(rk, xid) := data]> (default ∅ (versions s !! name))]> (versions s))
        (N.max (top_xid s) xid)
  | ODropDb name =>
      mkSpec (streams s) (log s) (ckpt_count s) (ckpt_at s) (delete name (versions s)) (top_xid s)
  | OCheckpoint =>
      mkSpec (streams s) (log s) (S (ckpt_count s)) (length (log s)) (versions s) (top_xid s)
  end.

Definition spec_run (ops : list rocks_op) : Spec := fold_left spec_step ops empty_spec.

(** The arguments are [u64] and [&str] values. *)
Definition op_ok (o : rocks_op) : Prop :=
  match o with
  | OSql _ sql => valid_utf8 sql = true
  | OSqlBatch entries => Forall (fun e => valid_utf8 e.2 = true) entries
  | OStore _ rk xid _ => xid < u64_modulus ∧ valid_utf8 rk = true
  | _ => True
  end.

(** How much an operation adds; the counters stay below [2^64]. *)
Definition op_size (o : rocks_op) : nat :=
  match o with
  | OMutate _ _ _ | OSql _ _ | OCheckpoint => 1
  | OSqlBatch entries => length entries
  | _ => 0
  end.

Definition ops_size (ops : list rocks_op) : nat := sum_list_with op_size ops.

Definition spec_size (s : Spec) : nat :=
  (length (streams s Ddl) + length (streams s Dml) + length (log s) + ckpt_count s)%nat.

Lemma append_stream_length f e :
  (length (append_stream f e Ddl) + length (append_stream f e Dml)
   = S (length (f Ddl) + length (f Dml)))%nat.
Proof. destruct e as [[] sql]; unfold append_stream, set_stream; simpl; rewrite length_app; simpl; lia. Qed.

Lemma append_streams_length es f :
  (length (fold_left append_stream es f Ddl) + length (fold_left append_stream es f Dml)
   = length es + (length (f Ddl) + length (f Dml)))%nat.
Proof.
  revert f. induction es as [|e es IH]; intros f; simpl; [done|].
  rewrite IH, append_stream_length. lia.
Qed.

Lemma spec_size_step s o : (spec_size (spec_step s o) ≤ spec_size s + op_size o)%nat.
Proof.
  unfold spec_size.
  destruct o as [now k v|k sql|es|k|name rk x d|name|];
    cbn [spec_step with_streams streams log ckpt_count op_size]; try lia.
  - rewrite length_app. simpl. lia.
  - pose proof (append_stream_length (streams s) (k, sql)). lia.
  - pose proof (append_streams_length es (streams s)). lia.
  - destruct k; unfold set_stream; simpl; lia.
Qed.

Lemma ops_size_app a b : ops_size (a ++ b) = (ops_size a + ops_size b)%nat.
Proof. apply sum_list_with_app. Qed.

Lemma spec_run_snoc ops o : spec_run (ops ++ [o]) = spec_step (spec_run ops) o.
Proof. unfold spec_run. by rewrite fold_left_app. Qed.

Lemma spec_size_run ops : (spec_size (spec_run ops) ≤ ops_size ops)%nat.
Proof.
  induction ops as [|o ops IH] using rev_ind; [done|].
  rewrite spec_run_snoc, ops_size_app. pose proof (spec_size_step (spec_run ops) o).
  unfold ops_size at 2. simpl. lia.
Qed.

(** ** The column families reflect the specification *)

(** A persisted counter: absent means zero. *)
Definition counter (m : families) (key : string) (n : N) : Prop :=
  match entry m CF_META key with
  | Some b => b = encode_u64 n ∧ n < u64_modulus
  | None => n = 0
  end.

Definition sql_rel (m : families) (f : SqlWalKind -> list string) : Prop :=
  ∀ key v, entry m CF_SQL key = Some v ↔
    ∃ k i, key = sql_key k (N.of_nat (S i)) ∧ f k !! i = Some v.

Section Reflects.
Context {SJ : SerdeJson}.

Definition log_rel (m : families) (l : list WalRecord) : Prop :=
  ∀ key v, entry m CF_WAL key = Some v ↔
    ∃ i r, key = encode_u64 (N.of_nat (S i)) ∧ l !! i = Some r ∧ v = encode_wal_record r.

Definition system_families : list string := [CF_DEFAULT; CF_WAL; CF_META; CF_SQL; CF_ROWS].

Record reflects (m : families) (s : Spec) : Prop := {
  r_fams : ∀ cf, cf ∈ system_families → is_Some (m !! cf);
  r_sql : sql_rel m (streams s);
  r_utf8 : ∀ k, Forall (fun q => valid_utf8 q = true) (streams s k);
  r_kind : ∀ k, counter m (sql_kind_seq_meta_key k) (N.of_nat (length (streams s k)));
  r_log : log_rel m (log s);
  r_numbered : ∀ i r, log s !! i = Some r → Wal.sequence r = N.of_nat (S i);
  r_seq : counter m META_LATEST_SEQUENCE (N.of_nat (length (log s)));
  r_ckpt : counter m META_CHECKPOINT_COUNT (N.of_nat (ckpt_count s));
  r_at : counter m META_LATEST_CHECKPOINT_LAST_SEQ (N.of_nat (ckpt_at s));
  r_at_le : (ckpt_at s ≤ length (log s))%nat;
  r_top : counter m META_MAX_ROW_XID (top_xid s);
  r_rows : ∀ name key v, entry m (db_rows_cf_name name) key = Some v →
    ∃ rk x, key = row_version_key rk x ∧ x ≤ top_xid s;
}.

(** What one put changes. *)
Lemma entry_put_cf m cf k v cf' k' :
  cf ≠ cf' → entry (apply_op m (Put cf k v)) cf' k' = entry m cf' k'.
Proof. intros. rewrite entry_put, decide_False; naive_solver. Qed.

Lemma entry_put_key m cf k v cf' k' :
  k ≠ k' → entry (apply_op m (Put cf k v)) cf' k' = entry m cf' k'.
Proof. intros. rewrite entry_put, decide_False; naive_solver. Qed.

Lemma entry_put_eq m cf k v :
  is_Some (m !! cf) → entry (apply_op m (Put cf k v)) cf k = Some v.
Proof. intros. by rewrite entry_put, decide_True. Qed.

Lemma counter_cf m cf k v key n : cf ≠ CF_META → counter m key n →
  counter (apply_op m (Put cf k v)) key n.
Proof. intros Hne. unfold counter. by rewrite entry_put_cf. Qed.

Lemma counter_delete m cf k key n : cf ≠ CF_META → counter m key n →
  counter (apply_op m (Delete cf k)) key n.
Proof. intros Hne. unfold counter. rewrite entry_delete, decide_False; naive_solver. Qed.

Lemma counter_key m k v key n : k ≠ key → counter m key n →
  counter (apply_op m (Put CF_META k v)) key n.
Proof. intros Hne. unfold counter. by rewrite entry_put_key. Qed.

Lemma counter_eq m key n : is_Some (m !! CF_META) → n < u64_modulus →
  counter (apply_op m (Put CF_META key (encode_u64 n))) key n.
Proof. intros. unfold counter. by rewrite entry_put_eq. Qed.

Lemma sql_rel_same m m' f :
  (∀ key, entry m' CF_SQL key = entry m CF_SQL key) → sql_rel m f → sql_rel m' f.
Proof. intros E H key v. rewrite E. apply H. Qed.

Lemma log_rel_same m m' l :
  (∀ key, entry m' CF_WAL key = entry m CF_WAL key) → log_rel m l → log_rel m' l.
Proof. intros E H key v. rewrite E. apply H. Qed.

Lemma rows_same m m' (top : N) :
  (∀ name key, entry m' (db_rows_cf_name name) key = entry m (db_rows_cf_name name) key) →
  (∀ name key v, entry m (db_rows_cf_name name) key = Some v →
     ∃ rk x, key = row_version_key rk x ∧ x ≤ top) →
  ∀ name key v, entry m' (db_rows_cf_name name) key = Some v →
     ∃ rk x, key = row_version_key rk x ∧ x ≤ top.
Proof. intros E H name key v. rewrite E. apply H. Qed.

Lemma sql_rel_put m f k sql :
  is_Some (m !! CF_SQL) → sql_rel m f → N.of_nat (S (length (f k))) < u64_modulus →
  sql_rel (apply_op m (Put CF_SQL (sql_key k (N.of_nat (S (length (f k))))) sql))
    (append_stream f (k, sql)).
Proof.
  intros Hfam Hrel Hlen key v. rewrite entry_put.
  destruct (decide (CF_SQL = CF_SQL ∧ sql_key k (N.of_nat (S (length (f k)))) = key ∧ is_Some (m !! CF_SQL)))
    as [(_ & <- & _)|Hne].
  - split.
    + intros [= <-]. exists k, (length (f k)). split; [done|].
      unfold append_stream, set_stream; simpl. destruct (kind_eqb_spec k k); [|done].
      by rewrite lookup_app_r, Nat.sub_diag.
    + intros (k' & i & E & Hi).
      unfold append_stream, set_stream in Hi; simpl in Hi.
      destruct (kind_eqb_spec k k') as [<-|Hk].
      * assert (Hi' := lookup_lt_Some _ _ _ Hi). rewrite length_app in Hi'; simpl in Hi'.
        apply sql_key_inj in E as [_ E]; [|done|lia].
        assert (i = length (f k)) as -> by lia.
        rewrite lookup_app_r, Nat.sub_diag in Hi by done. simpl in Hi. congruence.
      * exfalso. assert (Hi' := lookup_lt_Some _ _ _ Hi).
        assert (is_Some (entry m CF_SQL (sql_key k' (N.of_nat (S i))))) as [w Hw]
          by (exists v; apply Hrel; eauto).
        destruct k, k'; try done; unfold sql_key in E; by inversion E.
  - rewrite (Hrel key v). split.
    + intros (k' & i & -> & Hi). exists k', i. split; [done|].
      unfold append_stream, set_stream; simpl. destruct (kind_eqb_spec k k') as [<-|]; [|done].
      by rewrite lookup_app_l by (by eapply lookup_lt_Some).
    + intros (k' & i & -> & Hi). exists k', i. split; [done|].
      unfold append_stream, set_stream in Hi; simpl in Hi.
      destruct (kind_eqb_spec k k') as [<-|]; [|done].
      apply lookup_snoc_Some in Hi as [[_ ?]|[-> _]]; [done|]. exfalso. apply Hne. done.
Qed.

Lemma log_rel_put m l r :
  is_Some (m !! CF_WAL) → log_rel m l → N.of_nat (S (length l)) < u64_modulus →
  log_rel (apply_op m (Put CF_WAL (encode_u64 (N.of_nat (S (length l)))) (encode_wal_record r)))
    (l ++ [r]).
Proof.
  intros Hfam Hrel Hlen key v. rewrite entry_put.
  destruct (decide (CF_WAL = CF_WAL ∧ encode_u64 (N.of_nat (S (length l))) = key ∧ is_Some (m !! CF_WAL)))
    as [(_ & <- & _)|Hne].
  - split.
    + intros [= <-]. exists (length l), r. by rewrite lookup_app_r, Nat.sub_diag by done.
    + intros (i & r' & E & Hi & ->).
      assert (Hi' := lookup_lt_Some _ _ _ Hi). rewrite length_app in Hi'; simpl in Hi'.
      apply encode_u64_inj in E; [|done|lia]. assert (i = length l) as -> by lia.
      rewrite lookup_app_r, Nat.sub_diag in Hi by done. by simplify_eq/=.
  - rewrite (Hrel key v). split; intros (i & r' & -> & Hi & ->); exists i, r'; split_and!; try done.
    + by rewrite lookup_app_l by (by eapply lookup_lt_Some).
    + apply lookup_snoc_Some in Hi as [[_ ?]|[-> _]]; [done|]. exfalso. by apply Hne.
Qed.

(** *** Every batch of the engine *)

Ltac fams H :=
  rewrite ?apply_op_families; apply (r_fams _ _ H);
  unfold system_families; rewrite !elem_of_cons; tauto.

(** Persisted counters through a batch of puts. *)
Ltac counters H :=
  repeat first
    [ apply counter_cf; [done|]
    | apply counter_key; [done|]
    | apply counter_eq; [fams H|lia] ];
  try (apply H).

Lemma reflect_mutation m s now k v :
  reflects m s → N.of_nat (S (length (log s))) < u64_modulus →
  reflects (fold_left apply_op
      (mutation_batch (mkWalRecord (N.of_nat (S (length (log s)))) now k v)) m)
    (spec_step s (OMutate now k v)).
Proof.
  intros H Hlen. cbn [fold_left mutation_batch Wal.key Wal.value Wal.sequence].
  split; cbn [spec_step streams log ckpt_count ckpt_at versions top_xid].
  - intros cf Hcf. rewrite !apply_op_families. by apply (r_fams _ _ H).
  - apply (sql_rel_same m); [intros key; by rewrite !entry_put_cf by done|apply H].
  - apply H.
  - intros kd. destruct kd; counters H.
  - eapply log_rel_same; [intros key; apply entry_put_cf; done|]. apply log_rel_put; [fams H| |done].
    eapply log_rel_same; [|apply H]. intros key. by apply entry_put_cf.
  - intros i r Hi. apply lookup_snoc_Some in Hi as [[_ Hi]|[-> <-]]; [|done].
    by apply (r_numbered _ _ H).
  - rewrite length_app; simpl length. rewrite Nat.add_1_r. counters H.
  - counters H.
  - counters H.
  - rewrite length_app. pose proof (r_at_le _ _ H). lia.
  - counters H.
  - eapply rows_same; [|apply H]. intros name key. by rewrite !entry_put_cf by done.
Qed.

(** The families and the specification agree except for the streams. *)
Lemma reflect_streams m m' s f :
  reflects m s →
  (∀ cf, is_Some (m' !! cf) ↔ is_Some (m !! cf)) →
  (∀ cf key, cf ≠ CF_SQL → cf ≠ CF_META → entry m' cf key = entry m cf key) →
  (∀ key, key ≠ META_SQL_DDL_SEQUENCE → key ≠ META_SQL_DML_SEQUENCE →
          entry m' CF_META key = entry m CF_META key) →
  sql_rel m' f → (∀ k, Forall (fun q => valid_utf8 q = true) (f k)) →
  (∀ k, counter m' (sql_kind_seq_meta_key k) (N.of_nat (length (f k)))) →
  reflects m' (with_streams f s).
Proof.
  intros H Hf Ho Hm Hs Hu Hk. split; cbn [with_streams streams log ckpt_count ckpt_at versions top_xid].
  - intros cf Hcf. rewrite Hf. by apply (r_fams _ _ H).
  - done.
  - done.
  - done.
  - apply (log_rel_same m); [|apply H]. intros key. by apply Ho.
  - apply H.
  - unfold counter. rewrite Hm by done. apply H.
  - unfold counter. rewrite Hm by done. apply H.
  - unfold counter. rewrite Hm by done. apply H.
  - apply H.
  - unfold counter. rewrite Hm by done. apply H.
  - eapply rows_same; [|apply H]. intros name key. by apply Ho.
Qed.

Lemma append_stream_utf8 f e :
  (∀ k, Forall (fun q => valid_utf8 q = true) (f k)) → valid_utf8 e.2 = true →
  ∀ k, Forall (fun q => valid_utf8 q = true) (append_stream f e k).
Proof.
  intros Hf He k. unfold append_stream, set_stream. destruct (kind_eqb e.1 k); [|apply Hf].
  apply Forall_app. split; [apply Hf|by constructor].
Qed.

Lemma reflect_sql m s k sql :
  reflects m s → N.of_nat (S (length (streams s k))) < u64_modulus → valid_utf8 sql = true →
  reflects (fold_left apply_op (sql_batch k (N.of_nat (S (length (streams s k)))) sql) m)
    (spec_step s (OSql k sql)).
Proof.
  intros H Hlen Hu. apply (reflect_streams m); cbn [fold_left sql_batch].
  - done.
  - intros cf. by rewrite !apply_op_families.
  - intros cf key Hs Hm. by rewrite !entry_put_cf by done.
  - intros key Hd Hm. rewrite entry_put_key by (by destruct k). by apply entry_put_cf.
  - eapply sql_rel_same; [intros key; by apply entry_put_cf|].
    apply sql_rel_put; [fams H|apply H|done].
  - by apply append_stream_utf8; [apply H|].
  - intros k'. unfold append_stream, set_stream; simpl.
    destruct (kind_eqb_spec k k') as [<-|Hne].
    + rewrite length_app. cbn [length]. rewrite Nat.add_1_r. counters H.
    + apply counter_key; [by destruct k, k'|]. apply counter_cf; [done|]. apply H.
Qed.

(** The puts of a group commit extend the streams one by one. *)
Lemma batch_entries_rel es st ops seqs st' m f :
  batch_entries es st = (ops, seqs, st') →
  is_Some (m !! CF_SQL) → sql_rel m f →
  (∀ k, kind_sequence k st = N.of_nat (length (f k))) →
  N.of_nat (length es + (length (f Ddl) + length (f Dml))) < u64_modulus →
  sql_rel (fold_left apply_op ops m) (fold_left append_stream es f) ∧
  (∀ k, kind_sequence k st' = N.of_nat (length (fold_left append_stream es f k))) ∧
  (∀ cf key, cf ≠ CF_SQL → entry (fold_left apply_op ops m) cf key = entry m cf key).
Proof.
  revert st ops seqs st' m f. induction es as [|[k sql] es IH]; intros st ops seqs st' m f;
    cbn [batch_entries].
  - intros [= <- <- <-] Hfam Hrel Hseq Hlen. done.
  - destruct (batch_entries es _) as [[ops0 seqs0] st0] eqn:E.
    intros [= <- <- <-] Hfam Hrel Hseq Hlen. cbn [fold_left]. simpl length in Hlen.
    assert (Hk : u64_add (kind_sequence k st) 1 = N.of_nat (S (length (f k)))).
    { rewrite Hseq. unfold u64_add. rewrite N.mod_small; destruct k; lia. }
    rewrite Hk in E |- *.
    destruct (IH _ _ _ _ (apply_op m (Put CF_SQL (sql_key k (N.of_nat (S (length (f k))))) sql))
                (append_stream f (k, sql)) E) as (Hr & Hq & Ho).
    + by rewrite apply_op_families.
    + apply sql_rel_put; [done..|destruct k; lia].
    + intros k'. unfold append_stream, set_stream.
      destruct k, k'; simpl; rewrite ?length_app; cbn [length]; rewrite ?Nat.add_1_r; try done;
        [apply (Hseq Dml)|apply (Hseq Ddl)].
    + rewrite append_stream_length. lia.
    + split_and!; [done..|]. intros cf key Hcf. rewrite Ho by done. by apply entry_put_cf.
Qed.

Lemma group_utf8 es f :
  (∀ k, Forall (fun q => valid_utf8 q = true) (f k)) →
  Forall (fun e : SqlWalKind * string => valid_utf8 e.2 = true) es →
  ∀ k, Forall (fun q => valid_utf8 q = true) (fold_left append_stream es f k).
Proof.
  revert f. induction es as [|e es IH]; intros f Hf Hes; simpl; [done|].
  inversion Hes; subst. apply IH; [|done]. by apply append_stream_utf8.
Qed.

Lemma reflect_group m s es st ops seqs st' :
  reflects m s → batch_entries es st = (ops, seqs, st') →
  (∀ k, kind_sequence k st = N.of_nat (length (streams s k))) →
  N.of_nat (length es + (length (streams s Ddl) + length (streams s Dml))) < u64_modulus →
  Forall (fun e : SqlWalKind * string => valid_utf8 e.2 = true) es →
  reflects (fold_left apply_op (group_batch ops st') m) (spec_step s (OSqlBatch es)) ∧
  (∀ k, kind_sequence k st' = N.of_nat (length (fold_left append_stream es (streams s) k))).
Proof.
  intros H E Hseq Hlen Hu.
  destruct (batch_entries_rel es st ops seqs st' m (streams s) E) as (Hr & Hq & Ho);
    [fams H|apply H|done|done|].
  pose proof (append_streams_length es (streams s)) as Hl.
  split; [|done]. unfold group_batch. rewrite fold_left_app. cbn [fold_left].
  set (m1 := fold_left apply_op ops m) in *.
  assert (Hf1 : ∀ cf, is_Some (m1 !! cf) ↔ is_Some (m !! cf)) by (intros; apply batch_families).
  assert (Hmeta : is_Some (m1 !! CF_META)) by (apply Hf1; fams H).
  apply (reflect_streams m).
  - done.
  - intros cf. by rewrite !apply_op_families.
  - intros cf key Hs Hm. rewrite !entry_put_cf by done. by apply Ho.
  - intros key Hd Hm. rewrite !entry_put_key by done. by apply Ho.
  - apply (sql_rel_same m1); [|done]. intros key. by rewrite !entry_put_cf by done.
  - apply group_utf8; [apply H|done].
  - intros k'. rewrite <-Hq. destruct k'; cbn [kind_sequence sql_kind_seq_meta_key].
    + apply counter_key; [done|]. apply counter_eq; [done|].
      rewrite (Hq Ddl : sql_ddl_sequence st' = _). lia.
    + apply counter_eq; [by rewrite apply_op_families|].
      rewrite (Hq Dml : sql_dml_sequence st' = _). lia.
Qed.

Lemma deletes_other k l m cf key :
  cf ≠ CF_SQL →
  entry (fold_left apply_op (map (fun i => Delete CF_SQL (sql_key k (N.of_nat i))) l) m) cf key
  = entry m cf key.
Proof.
  intros Hne. revert m. induction l as [|i l IH]; intros m; simpl; [done|].
  rewrite IH, entry_delete, decide_False; naive_solver.
Qed.

Lemma deletes_sql k l m key v :
  entry (fold_left apply_op (map (fun i => Delete CF_SQL (sql_key k (N.of_nat i))) l) m) CF_SQL key
    = Some v ↔
  entry m CF_SQL key = Some v ∧ ∀ i, i ∈ l → key ≠ sql_key k (N.of_nat i).
Proof.
  revert m. induction l as [|i l IH]; intros m; simpl; [set_solver|].
  rewrite IH, entry_delete. destruct (decide (CF_SQL = CF_SQL ∧ sql_key k (N.of_nat i) = key)) as [[_ <-]|Hne].
  - split; [by intros [? _]|]. intros [_ Hk]. exfalso. by apply (Hk i); [left|].
  - split; intros [Hv Hk]; (split; [done|]).
    + intros j Hj. apply elem_of_cons in Hj as [->|Hj]; [|by apply Hk]. intros ->. by apply Hne.
    + intros j Hj. apply Hk. by right.
Qed.

Lemma reflect_clear m s k :
  reflects m s → N.of_nat (length (streams s k)) < u64_modulus →
  reflects (fold_left apply_op (clear_batch k (N.of_nat (length (streams s k)))) m)
    (spec_step s (OClear k)).
Proof.
  intros H Hlen. unfold clear_batch. rewrite fold_left_app, Nat2N.id. cbn [fold_left].
  set (m1 := fold_left apply_op _ m).
  assert (Hf1 : ∀ cf, is_Some (m1 !! cf) ↔ is_Some (m !! cf)) by (intros; apply batch_families).
  assert (Hmeta : is_Some (m1 !! CF_META)) by (apply Hf1; fams H).
  apply (reflect_streams m).
  - done.
  - intros cf. by rewrite apply_op_families.
  - intros cf key Hs Hm. rewrite entry_put_cf by done. by apply deletes_other.
  - intros key Hd Hm. rewrite entry_put_key by (by destruct k). by apply deletes_other.
  - eapply sql_rel_same; [intros key; by apply entry_put_cf|].
    intros key v. unfold m1. rewrite deletes_sql, (r_sql _ _ H key v). split.
    + intros [(k' & i & -> & Hi) Hne]. exists k', i. split; [done|].
      unfold set_stream. destruct (kind_eqb_spec k k') as [<-|]; [|done]. exfalso.
      apply (Hne (S i)); [|done]. apply elem_of_seq. apply lookup_lt_Some in Hi. lia.
    + intros (k' & i & -> & Hi). unfold set_stream in Hi.
      destruct (kind_eqb_spec k k') as [<-|Hne]; [done|]. split; [eauto|].
      intros j _ E. unfold sql_key in E. by destruct k, k'; inversion E.
  - intros k'. unfold set_stream. destruct (kind_eqb k k'); [constructor|apply H].
  - intros k'. unfold set_stream. destruct (kind_eqb_spec k k') as [<-|Hne].
    + by apply counter_eq.
    + apply counter_key; [by destruct k, k'|]. unfold counter, m1.
      rewrite deletes_other by done. apply H.
Qed.

Lemma reflect_row m s name rk x data :
  reflects m s → x < u64_modulus →
  reflects (fold_left apply_op (row_batch name rk x data (top_xid s <? x)) m)
    (spec_step s (OStore name rk x data)).
Proof.
  intros H Hx. unfold row_batch. cbn [fold_left].
  set (m1 := apply_op m (Put (db_rows_cf_name name) _ _)).
  assert (Hrows : ∀ nm key v, entry m1 (db_rows_cf_name nm) key = Some v →
     ∃ rk' x', key = row_version_key rk' x' ∧ x' ≤ N.max (top_xid s) x).
  { intros nm key v. unfold m1. rewrite entry_put.
    destruct (decide _) as [(_ & <- & _)|]; [eexists _, _; split; [done|lia]|].
    intros (rk' & x' & -> & ?)%(r_rows _ _ H). eexists _, _; split; [done|lia]. }
  assert (H1 : ∀ cf key, cf ∈ system_families → entry m1 cf key = entry m cf key).
  { intros cf key Hcf. apply entry_put_cf. intros <-.
    unfold system_families in Hcf. rewrite !elem_of_cons, elem_of_nil in Hcf. by naive_solver. }
  assert (Hsql : ∀ key, entry m1 CF_SQL key = entry m CF_SQL key) by (intros; apply H1; set_solver).
  assert (Hwal : ∀ key, entry m1 CF_WAL key = entry m CF_WAL key) by (intros; apply H1; set_solver).
  assert (Hcnt : ∀ key n, counter m key n → counter m1 key n).
  { intros key n. unfold counter. by rewrite H1 by set_solver. }
  assert (Hf1 : ∀ cf, is_Some (m1 !! cf) ↔ is_Some (m !! cf)) by (intros; apply apply_op_families).
  assert (Hmeta : is_Some (m1 !! CF_META)) by (apply Hf1; fams H).
  clearbody m1.
  destruct (N.ltb_spec (top_xid s) x) as [Hlt|Hge]; cbn [fold_left];
    split; cbn [spec_step streams log ckpt_count ckpt_at versions top_xid]; try apply H.
  - intros cf Hcf. rewrite apply_op_families, Hf1. by apply (r_fams _ _ H).
  - apply (sql_rel_same m); [|apply H]. intros key. by rewrite entry_put_cf.
  - intros k. apply counter_key; [by destruct k|]. apply Hcnt, H.
  - apply (log_rel_same m); [|apply H]. intros key. by rewrite entry_put_cf.
  - apply counter_key; [done|]. apply Hcnt, H.
  - apply counter_key; [done|]. apply Hcnt, H.
  - apply counter_key; [done|]. apply Hcnt, H.
  - rewrite N.max_r by lia. by apply counter_eq.
  - intros nm key v. rewrite entry_put_cf by done. apply Hrows.
  - intros cf Hcf. rewrite Hf1. by apply (r_fams _ _ H).
  - apply (sql_rel_same m); [done|apply H].
  - intros k. apply Hcnt, H.
  - apply (log_rel_same m); [done|apply H].
  - apply Hcnt, H.
  - apply Hcnt, H.
  - apply Hcnt, H.
  - rewrite N.max_l by lia. apply Hcnt, H.
  - done.
Qed.

Lemma reflect_checkpoint m s est :
  reflects m s → N.of_nat (S (ckpt_count s)) < u64_modulus → N.of_nat (length (log s)) < u64_modulus →
  reflects (fold_left apply_op
      (checkpoint_batch (mkManifest (N.of_nat (S (ckpt_count s))) (N.of_nat (length (log s))) est)) m)
    (spec_step s OCheckpoint).
Proof.
  intros H Hc Hl. cbn [fold_left checkpoint_batch checkpoint_id last_sequence entry_count].
  split; cbn [spec_step streams log ckpt_count ckpt_at versions top_xid]; try apply H; try done.
  - intros cf Hcf. rewrite !apply_op_families. by apply (r_fams _ _ H).
  - apply (sql_rel_same m); [|apply H]. intros key. by rewrite !entry_put_cf by done.
  - intros kd. destruct kd; counters H.
  - apply (log_rel_same m); [|apply H]. intros key. by rewrite !entry_put_cf by done.
  - counters H.
  - counters H.
  - counters H.
  - counters H.
  - intros nm key v. rewrite !entry_put_cf by done. apply H.
Qed.

(** Creating or dropping a database's row family. *)
Definition row_family_event (ev : kv_event) : Prop :=
  ∃ name, ev = ECreate (db_rows_cf_name name) ∨ ev = EDrop (db_rows_cf_name name).

Lemma row_event_other m ev cf :
  row_family_event ev → cf ∈ system_families → apply_event m ev !! cf = m !! cf.
Proof.
  intros [name Hev] Hcf.
  assert (db_rows_cf_name name ≠ cf).
  { intros <-. unfold system_families in Hcf. rewrite !elem_of_cons, elem_of_nil in Hcf.
    by naive_solver. }
  destruct Hev as [->| ->]; simpl.
  - destruct (m !! db_rows_cf_name name); [done|]. by rewrite lookup_insert_ne.
  - by rewrite lookup_delete_ne.
Qed.

Lemma row_event_rows m ev name key v :
  row_family_event ev →
  entry (apply_event m ev) (db_rows_cf_name name) key = Some v →
  entry m (db_rows_cf_name name) key = Some v.
Proof.
  intros [nm [->| ->]]; unfold entry; simpl.
  - destruct (m !! db_rows_cf_name nm) eqn:E; [done|].
    destruct (decide (db_rows_cf_name nm = db_rows_cf_name name)) as [<-|Hne].
    + by rewrite lookup_insert_eq; simpl; rewrite lookup_empty.
    + by rewrite lookup_insert_ne.
  - destruct (decide (db_rows_cf_name nm = db_rows_cf_name name)) as [<-|Hne].
    + by rewrite lookup_delete_eq.
    + by rewrite lookup_delete_ne.
Qed.

Lemma reflect_event m s ev :
  reflects m s → row_family_event ev → reflects (apply_event m ev) s.
Proof.
  intros H Hev.
  assert (Hent : ∀ cf key, cf ∈ system_families → entry (apply_event m ev) cf key = entry m cf key).
  { intros cf key Hcf. unfold entry. by rewrite (row_event_other m ev cf Hev Hcf). }
  assert (Hcnt : ∀ key n, counter m key n → counter (apply_event m ev) key n).
  { intros key n. unfold counter. by rewrite Hent by set_solver. }
  split; try apply Hcnt; try apply H.
  - intros cf Hcf. rewrite (row_event_other m ev cf Hev Hcf). by apply (r_fams _ _ H).
  - apply (sql_rel_same m); [|apply H]. intros key. apply Hent. set_solver.
  - intros k. apply Hcnt, H.
  - apply (log_rel_same m); [|apply H]. intros key. apply Hent. set_solver.
  - intros name key v Hv. eapply (r_rows _ _ H name). by eapply row_event_rows.
Qed.

End Reflects.
