(* ===== verification/RocksProps.v ===== *)
(** * Properties of the RocksDB durability engine

    The engine keeps its hot state and its column families in step with the
    specification; a crash at any point leaves the state after a prefix of the
    operations, no shorter than the last synced one; the statement streams, the
    log and the rows read back are those of the specification. *)

From S2P Require Import Prelude Str Bytes KvStore Wal RocksEngine RocksSpec.
From Stdlib Require Import Ascii.
Local Open Scope string_scope.
Local Open Scope list_scope.
Local Open Scope N_scope.

Import Bytes Wal Rocks.

#[local] Arguments String.append !_ _ / : simpl nomatch.
#[local] Arguments be : simpl never.
#[local] Arguments encode_u64 : simpl never.
#[local] Arguments apply_op : simpl never.
#[local] Arguments N.of_nat : simpl never.

(** The disk accepts every request. *)
Class HealthyKv (DB : Type) `{!KvStore DB} : Prop := {
  write_ok : ∀ b sync d, is_Some (write_opt b sync d);
  create_ok : ∀ cf d, is_Some (create_cf cf d);
  drop_ok : ∀ cf d, is_Some (drop_cf cf d);
}.

(** ** Sorted numbered entries *)

Fixpoint keyed {A} (key : N -> string) (val : A -> string) (a : N) (l : list A)
    : list (string * string) :=
  match l with
  | [] => []
  | x :: l' => (key a, val x) :: keyed key val (a + 1) l'
  end.

Section Keyed.
Context {A : Type} (key : N -> string) (val : A -> string).

Lemma elem_of_keyed a (l : list A) k v :
  (k, v) ∈ keyed key val a l ↔ ∃ i x, k = key (a + N.of_nat i) ∧ l !! i = Some x ∧ v = val x.
Proof.
  revert a. induction l as [|x l IH]; intros a; simpl.
  - split; [set_solver|]. intros (i & x & _ & Hi & _). done.
  - rewrite elem_of_cons, IH. split.
    + intros [[= -> ->]|(i & y & -> & Hi & ->)].
      * exists O, x. by rewrite N.add_0_r.
      * exists (S i), y. rewrite Nat2N.inj_succ. split; [f_equal; lia|done].
    + intros ([|i] & y & -> & Hi & ->); simpl in Hi; simplify_eq.
      * left. by rewrite N.add_0_r.
      * right. exists i, y. rewrite Nat2N.inj_succ. split; [f_equal; lia|done].
Qed.

Lemma keyed_sorted a (l : list A) :
  (∀ i j, a <= i → i < j → j < a + N.of_nat (length l) → key_lt (key i) (key j)) →
  StronglySorted key_lt (map fst (keyed key val a l)).
Proof.
  revert a. induction l as [|x l IH]; intros a Hlt; simpl in *; [constructor|]. constructor.
  - apply IH. intros i j ? ? ?. apply Hlt; lia.
  - rewrite List.Forall_forall. intros k Hk. apply List.in_map_iff in Hk as ([k' v] & <- & Hin).
    apply list_elem_of_In, elem_of_keyed in Hin as (i & y & -> & Hi & ->).
    apply lookup_lt_Some in Hi. apply Hlt; lia.
Qed.

End Keyed.

Lemma sorted_app (l1 l2 : list string) :
  StronglySorted key_lt l1 → StronglySorted key_lt l2 →
  (∀ a b, a ∈ l1 → b ∈ l2 → key_lt a b) → StronglySorted key_lt (l1 ++ l2).
Proof.
  induction 1 as [|x l1 Hs IH Hall]; intros H2 Hx; simpl; [done|]. constructor.
  - apply IH; [done|]. intros a b Ha Hb. apply Hx; [by right|done].
  - apply List.Forall_app. split; [done|]. rewrite List.Forall_forall. intros b Hb.
    apply Hx; [by left|by apply list_elem_of_In].
Qed.

Lemma sorted_snoc l x :
  StronglySorted key_lt (l ++ [x]) → StronglySorted key_lt l ∧ ∀ a, a ∈ l → key_lt a x.
Proof.
  induction l as [|y l IH]; simpl; intros Hs; [split; [constructor|]; set_solver|].
  inversion Hs as [|? ? Hs' Hall]; subst. destruct (IH Hs') as [Hl Hlt].
  rewrite List.Forall_forall in Hall. split.
  - constructor; [done|]. rewrite List.Forall_forall. intros a Ha. apply Hall, in_or_app. by left.
  - intros a Ha. apply elem_of_cons in Ha as [->|Ha]; [|by apply Hlt].
    apply Hall, in_or_app. right. by left.
Qed.

Lemma sorted_keys_filter {A} (P : string * A -> Prop) `{!∀ x, Decision (P x)} l :
  StronglySorted key_lt (map fst l) → StronglySorted key_lt (map fst (filter P l)).
Proof.
  induction l as [|e l IH]; intros Hs; [constructor|]. cbn [map] in Hs.
  inversion Hs as [|? ? Hs' Hall]; subst. rewrite filter_cons. destruct (decide (P e)); [|by apply IH].
  cbn [map]. constructor; [by apply IH|]. rewrite List.Forall_forall in Hall |- *.
  intros k Hk. apply Hall. apply List.in_map_iff in Hk as (e' & <- & He'). apply List.in_map.
  apply list_elem_of_In, list_elem_of_filter in He' as [_ He']. by apply list_elem_of_In.
Qed.

Lemma sorted_last_max {A} (l : list (string * A)) e e' :
  StronglySorted key_lt (map fst l) → last l = Some e → e' ∈ l → e'.1 = e.1 ∨ key_lt e'.1 e.1.
Proof.
  intros Hs Hl Hin. apply last_Some in Hl as [l' ->]. rewrite map_app in Hs.
  apply sorted_snoc in Hs as [_ Hlt]. apply elem_of_app in Hin as [Hin|Hin%list_elem_of_singleton].
  - right. apply Hlt, list_elem_of_fmap. eauto.
  - left. by rewrite Hin.
Qed.

Lemma sql_key_lt k i j : i < u64_modulus → j < u64_modulus →
  key_lt (sql_key k i) (sql_key k j) ↔ i < j.
Proof.
  intros Hi Hj. rewrite <-encode_u64_lt by done. unfold key_lt, sql_key.
  pose proof (compare_app (String (sql_kind_tag k) "") (encode_u64 i) (encode_u64 j)) as E.
  simpl in E |- *. by rewrite E.
Qed.

Lemma sql_key_kinds i j : key_lt (sql_key Ddl i) (sql_key Dml j).
Proof. reflexivity. Qed.

(** ** Crashes *)

Lemma crash_nonwrites k h :
  Forall (fun ev => is_write ev = false) h → crash_history k h = h.
Proof.
  intros Hall. unfold crash_history. rewrite list_filter_all.
  - apply take_drop.
  - by apply Forall_drop.
Qed.

Lemma crash_history_app k h evs :
  (k ≤ length h)%nat →
  crash_history k (h ++ evs) = crash_history k h ++ filter (fun ev => is_write ev = false) evs.
Proof.
  intros Hk. unfold crash_history.
  rewrite take_app_le, drop_app_le, filter_app, (assoc_L (++)) by done. done.
Qed.

Lemma crash_history_beyond k h evs :
  (length h ≤ k)%nat → crash_history k (h ++ evs) = h ++ crash_history (k - length h) evs.
Proof.
  intros Hk. unfold crash_history. rewrite take_app_ge, drop_app_ge by done.
  by rewrite (assoc_L (++)).
Qed.

(** An operation's events: families created or dropped, then at most one batch. *)
Definition op_shape (evs : list kv_event) : Prop :=
  ∃ evs0 w, evs = evs0 ++ w ∧ Forall row_family_event evs0 ∧ (w = [] ∨ ∃ b, w = [EWrite b]).

Lemma row_family_nonwrite evs :
  Forall row_family_event evs → Forall (fun ev => is_write ev = false) evs.
Proof. intros H. eapply Forall_impl; [exact H|]. by intros ev [name [->| ->]]. Qed.

Lemma shape_filter evs0 w :
  Forall row_family_event evs0 → (w = [] ∨ ∃ b, w = [EWrite b]) →
  filter (fun ev => is_write ev = false) (evs0 ++ w) = evs0.
Proof.
  intros H0 Hw. rewrite filter_app, list_filter_all by (by apply row_family_nonwrite).
  destruct Hw as [->|[b ->]]; by rewrite ?filter_nil, ?app_nil_r.
Qed.

Lemma shape_crash i evs0 w :
  Forall row_family_event evs0 → (w = [] ∨ ∃ b, w = [EWrite b]) →
  (i < length (evs0 ++ w))%nat → crash_history i (evs0 ++ w) = evs0.
Proof.
  intros H0 Hw Hi. destruct Hw as [->|[b ->]].
  - rewrite app_nil_r. by apply crash_nonwrites, row_family_nonwrite.
  - rewrite length_app in Hi; simpl in Hi. rewrite crash_history_app by lia.
    rewrite crash_nonwrites by (by apply row_family_nonwrite). by rewrite app_nil_r.
Qed.

(** ** The engine follows the specification *)

Definition hot_of (s : Spec) : HotState :=
  mkHot (N.of_nat (length (log s))) (ckpt_count s) (length (log s) - ckpt_at s)
    (N.of_nat (length (streams s Ddl))) (N.of_nat (length (streams s Dml))) (top_xid s).

(** Does a completed operation force everything so far to disk? *)
Definition op_synced (cfg : DurabilityConfig) (sync : bool) (o : rocks_op) : bool :=
  match o with
  | OMutate _ _ _ | OSql _ _ | OSqlBatch (_ :: _) => sync && wal_enabled cfg
  | OStore _ _ _ _ | OCheckpoint => sync
  | _ => false
  end.

(** The number of operations up to the last one that was synced. *)
Definition synced_upto (cfg : DurabilityConfig) (sync : bool) (ops : list rocks_op) : nat :=
  fst (fold_left (fun acc o => (if op_synced cfg sync o then S acc.2 else acc.1, S acc.2))
         ops (O, O)).

Lemma synced_upto_snoc cfg sync ops o :
  synced_upto cfg sync (ops ++ [o])
  = if op_synced cfg sync o then S (length ops) else synced_upto cfg sync ops.
Proof.
  unfold synced_upto. rewrite fold_left_app. simpl. destruct (op_synced cfg sync o); [|done].
  f_equal. induction ops as [|o' ops IH] using rev_ind; [done|].
  rewrite fold_left_app, length_app. simpl. rewrite IH. lia.
Qed.

Lemma synced_upto_le cfg sync ops : (synced_upto cfg sync ops ≤ length ops)%nat.
Proof.
  induction ops as [|o ops IH] using rev_ind; [done|].
  rewrite synced_upto_snoc, length_app. simpl. destruct (op_synced cfg sync o); lia.
Qed.

Lemma batch_entries_frame es st ops seqs st' :
  batch_entries es st = (ops, seqs, st') →
  st' = mkHot (sequence st) (checkpoint_count st) (wal_since_checkpoint st)
          (sql_ddl_sequence st') (sql_dml_sequence st') (max_row_xid st).
Proof.
  revert st ops seqs st'. induction es as [|[k sql] es IH]; intros st ops seqs st'; simpl.
  - intros [= _ _ <-]. by destruct st.
  - destruct (batch_entries es _) as [[o0 s0] st0] eqn:E. intros [= _ _ <-].
    apply IH in E. by destruct k.
Qed.

Section Engine.
Context {DB : Type} {KS : KvStore DB} {KL : KvLaws DB} {HK : HealthyKv DB}.
Context {SJ : SerdeJson} {SL : SerdeLaws}.
Implicit Types (e : Engine DB).

Definition einv e (s : Spec) : Prop := reflects (contents (db e)) s ∧ state e = hot_of s.

Definition step e (o : rocks_op) : option (Engine DB) :=
  match o with
  | OMutate now k v => snd <$> append_mutation now k v e
  | OSql k sql => snd <$> append_sql k sql e
  | OSqlBatch entries => snd <$> append_sql_batch entries e
  | OClear k => Some (clear_sql k e)
  | OStore name rk xid data => Some (store_row name rk xid data e)
  | ODropDb name => Some (drop_db_column_family name e)
  | OCheckpoint => snd <$> force_checkpoint e
  end.

Fixpoint run (ops : list rocks_op) e : option (Engine DB) :=
  match ops with
  | [] => Some e
  | o :: ops' => match step e o with Some e' => run ops' e' | None => None end
  end.

Lemma run_snoc ops o e e1 : run ops e = Some e1 → run (ops ++ [o]) e = step e1 o.
Proof.
  revert e. induction ops as [|o' ops IH]; intros e; simpl; [by intros [= <-]; destruct (step e o)|].
  destruct (step e o'); [apply IH|done].
Qed.

Lemma handle_system e s cf :
  einv e s → cf ∈ system_families → cf_handle cf (db e) = true.
Proof. intros [H _] Hcf. rewrite handle_law. apply bool_decide_eq_true. by apply (r_fams _ _ H). Qed.

(** What a completed operation did to the store. *)
Definition did e e' (evs : list kv_event) (synced : bool) : Prop :=
  history (db e') = history (db e) ++ evs ∧ (durable (db e) ≤ durable (db e'))%nat ∧
  op_shape evs ∧ config e' = config e ∧ sync_writes e' = sync_writes e ∧
  (synced = true → evs ≠ [] ∧ durable (db e') = length (history (db e'))).

Lemma did_write e e' b sync d :
  write_opt b sync (db e) = Some d → db e' = d → config e' = config e → sync_writes e' = sync_writes e →
  did e e' [EWrite b] sync ∧ contents (db e') = fold_left apply_op b (contents (db e)).
Proof.
  intros Hw <- Hc Hs. destruct (write_law _ _ _ _ Hw) as (Hh & Hd & Hsync). split.
  - unfold did. split_and!; try done; [|by auto].
    exists [], [EWrite b]. split_and!; [done|constructor|right; eauto].
  - unfold contents. by rewrite Hh, replay_snoc.
Qed.

(** Finishes an operation that wrote one batch. *)
Ltac wrote Hd Hcon :=
  match goal with
  | |- einv ?e' _ ∧ did ?e _ _ _ =>
      let Hdid := fresh in
      destruct (did_write e e' _ _ _ Hd eq_refl eq_refl eq_refl) as [Hdid Hcon];
      split; [|exact Hdid]
  end.

Lemma system_mem cf :
  cf = CF_DEFAULT ∨ cf = CF_WAL ∨ cf = CF_META ∨ cf = CF_SQL ∨ cf = CF_ROWS → cf ∈ system_families.
Proof. unfold system_families. rewrite !elem_of_cons, elem_of_nil. tauto. Qed.

Ltac handle H cf := rewrite (handle_system _ _ cf H) by (apply system_mem; tauto).

Lemma u64_succ n : N.of_nat (S n) < u64_modulus → u64_add (N.of_nat n) 1 = N.of_nat (S n).
Proof. intros Hn. rewrite u64_add_small by lia. lia. Qed.

Lemma step_mutate e s now k v :
  einv e s → N.of_nat (S (length (log s))) < u64_modulus →
  ∃ e' evs, step e (OMutate now k v) = Some e' ∧ einv e' (spec_step s (OMutate now k v)) ∧
            did e e' evs (op_synced (config e) (sync_writes e) (OMutate now k v)).
Proof.
  intros H Hlen. pose proof H as [Hr Hst]. simpl. unfold append_mutation.
  handle H CF_WAL. handle H CF_META. simpl. rewrite Hst. cbn [hot_of sequence].
  rewrite u64_succ by done.
  destruct (write_ok (mutation_batch (mkWalRecord (N.of_nat (S (length (log s)))) now k v))
              (synced_append e) (db e)) as [d Hd].
  rewrite Hd. eexists _, _. split; [reflexivity|].
  wrote Hd Hcon. split; simpl in *.
  - rewrite Hcon. by apply reflect_mutation.
  - unfold hot_of. simpl. pose proof (r_at_le _ _ Hr). rewrite length_app. simpl.
    f_equal; try lia.
Qed.

Lemma kind_hot k s : kind_sequence k (hot_of s) = N.of_nat (length (streams s k)).
Proof. by destruct k. Qed.

Lemma set_kind_hot k s f :
  (∀ k', k' ≠ k → length (f k') = length (streams s k')) →
  set_kind_sequence k (N.of_nat (length (f k))) (hot_of s) = hot_of (with_streams f s).
Proof.
  intros Hf. unfold hot_of. destruct k; simpl; f_equal; symmetry; f_equal; by apply Hf.
Qed.

Lemma step_sql e s k sql :
  einv e s → N.of_nat (S (length (streams s k))) < u64_modulus → valid_utf8 sql = true →
  ∃ e' evs, step e (OSql k sql) = Some e' ∧ einv e' (spec_step s (OSql k sql)) ∧
            did e e' evs (op_synced (config e) (sync_writes e) (OSql k sql)).
Proof.
  intros H Hlen Hu. pose proof H as [Hr Hst]. simpl. unfold append_sql.
  handle H CF_SQL. handle H CF_META. simpl. rewrite Hst, kind_hot, u64_succ by done.
  destruct (write_ok (sql_batch k (N.of_nat (S (length (streams s k)))) sql)
              (synced_append e) (db e)) as [d Hd].
  rewrite Hd. eexists _, _. split; [reflexivity|].
  wrote Hd Hcon. split.
  - simpl in *. rewrite Hcon. by apply reflect_sql.
  - simpl. rewrite <-(set_kind_hot k).
    + f_equal. unfold append_stream, set_stream; simpl. destruct (kind_eqb_spec k k); [|done].
      rewrite length_app. simpl. lia.
    + intros k' Hne. unfold append_stream, set_stream; simpl.
      destruct (kind_eqb_spec k k'); [congruence|done].
Qed.

Lemma step_group e s es :
  einv e s → (N.of_nat (length es + (length (streams s Ddl) + length (streams s Dml))) < u64_modulus) →
  Forall (fun e : SqlWalKind * string => valid_utf8 e.2 = true) es →
  ∃ e' evs, step e (OSqlBatch es) = Some e' ∧ einv e' (spec_step s (OSqlBatch es)) ∧
            did e e' evs (op_synced (config e) (sync_writes e) (OSqlBatch es)).
Proof.
  intros H Hlen Hu. pose proof H as [Hr Hst]. destruct es as [|en es].
  - exists e, []. split_and!; [done| |].
    + split; [|done]. by destruct s.
    + unfold did. rewrite app_nil_r. split_and!; try done. exists [], []. split_and!; auto.
  - cbn [step append_sql_batch]. handle H CF_SQL. handle H CF_META. simpl orb. cbn iota.
    destruct (batch_entries (en :: es) (state e)) as [[ops seqs] st'] eqn:E.
    destruct (reflect_group (contents (db e)) s (en :: es) (state e) ops seqs st')
      as [Hr' Hq]; [done|done| |done|done|].
    { intros k. by rewrite Hst, kind_hot. }
    destruct (write_ok (group_batch ops st') (synced_append e) (db e)) as [d Hd].
    rewrite Hd. eexists _, _. split; [reflexivity|].
    wrote Hd Hcon. split.
    + simpl in *. by rewrite Hcon.
    + pose proof (batch_entries_frame _ _ _ _ _ E) as Hf. rewrite Hst in Hf. simpl.
      rewrite Hf. unfold hot_of; simpl. f_equal; [apply (Hq Ddl)|apply (Hq Dml)].
Qed.

Lemma did_nothing e : did e e [] false.
Proof. unfold did. rewrite app_nil_r. split_and!; try done. exists [], []. split_and!; auto. Qed.

Lemma step_clear e s k :
  einv e s → N.of_nat (length (streams s k)) < u64_modulus →
  ∃ e' evs, step e (OClear k) = Some e' ∧ einv e' (spec_step s (OClear k)) ∧ did e e' evs false.
Proof.
  intros H Hlen. pose proof H as [Hr Hst]. simpl. unfold clear_sql.
  handle H CF_SQL. handle H CF_META. simpl orb. cbn iota. rewrite Hst, kind_hot.
  assert (Hhot : set_kind_sequence k 0 (hot_of s) = hot_of (spec_step s (OClear k))).
  { simpl. rewrite <-(set_kind_hot k).
    - unfold set_stream. by destruct (kind_eqb_spec k k).
    - intros k' Hne. unfold set_stream. by destruct (kind_eqb_spec k k'). }
  destruct (N.eqb_spec (N.of_nat (length (streams s k))) 0) as [Hz|Hnz].
  - exists e, []. split_and!; [done| |apply did_nothing].
    assert (Hnil : streams s k = []) by (apply nil_length_inv; lia).
    assert (Hlook : ∀ k', set_stream k [] (streams s) k' = streams s k').
    { intros k'. unfold set_stream. by destruct (kind_eqb_spec k k') as [<-|]. }
    split.
    + apply (reflect_streams (contents (db e))); try done; simpl.
      * intros key v. setoid_rewrite Hlook. apply (r_sql _ _ Hr).
      * intros k'. rewrite Hlook. apply Hr.
      * intros k'. rewrite Hlook. apply Hr.
    + transitivity (set_kind_sequence k 0 (hot_of s)); [|exact Hhot].
      rewrite Hst. destruct k; unfold hot_of; simpl; f_equal; lia.
  - destruct (write_ok (clear_batch k (N.of_nat (length (streams s k)))) (sync_writes e) (db e))
      as [d Hd].
    rewrite Hd. eexists _, _. split; [reflexivity|].
    match goal with |- einv ?e' _ ∧ _ =>
      destruct (did_write e e' _ _ _ Hd eq_refl eq_refl eq_refl) as [Hdid Hcon] end.
    split; [split|].
    + simpl in *. rewrite Hcon. by apply reflect_clear.
    + exact Hhot.
    + destruct Hdid as (? & ? & ? & ? & ? & _). unfold did. by split_and!.
Qed.

(** Writing a version into an existing family, whatever the family's state. *)
Lemma write_row_events e1 s name rk x data :
  state e1 = hot_of s → cf_handle (db_rows_cf_name name) (db e1) = true →
  cf_handle CF_META (db e1) = true →
  let e' := write_row_version name rk x data e1 in
  history (db e') = history (db e1) ++ [EWrite (row_batch name rk x data (top_xid s <? x))] ∧
  (durable (db e1) ≤ durable (db e'))%nat ∧
  (sync_writes e1 = true → durable (db e') = length (history (db e'))) ∧
  config e' = config e1 ∧ sync_writes e' = sync_writes e1 ∧
  state e' = set_max_row_xid (N.max (top_xid s) x) (hot_of s).
Proof.
  intros Hst Hh Hm. unfold write_row_version. rewrite Hh, Hm, andb_true_r, Hst.
  cbn [negb hot_of max_row_xid].
  destruct (write_ok (row_batch name rk x data (top_xid s <? x)) (sync_writes e1) (db e1)) as [d Hd].
  rewrite Hd. destruct (write_law _ _ _ _ Hd) as (Hhist & Hdur & Hsync).
  destruct (N.ltb_spec (top_xid s) x); simpl; rewrite Hst; split_and!; try done;
    unfold set_max_row_xid, hot_of; simpl; f_equal; lia.
Qed.

Lemma store_row_events e s name rk x data :
  einv e s →
  let e' := store_row name rk x data e in
  ∃ evs0, Forall row_family_event evs0 ∧
    (evs0 = [] ∧ is_Some (contents (db e) !! db_rows_cf_name name) ∨
     evs0 = [ECreate (db_rows_cf_name name)]) ∧
    history (db e') = history (db e) ++ evs0 ++ [EWrite (row_batch name rk x data (top_xid s <? x))] ∧
    (durable (db e) ≤ durable (db e'))%nat ∧
    (sync_writes e = true → durable (db e') = length (history (db e'))) ∧
    config e' = config e ∧ sync_writes e' = sync_writes e ∧
    state e' = set_max_row_xid (N.max (top_xid s) x) (hot_of s).
Proof.
  intros H e'. pose proof H as [Hr Hst]. unfold e', store_row, ensure_db_cf. clear e'.
  destruct (cf_handle (db_rows_cf_name name) (db e)) eqn:Hh.
  - exists []. split; [apply Forall_nil_2|]. split.
    + left. split; [done|]. rewrite handle_law in Hh. by apply bool_decide_eq_true in Hh.
    + apply write_row_events; [done|done|]. by handle H CF_META.
  - destruct (create_ok (db_rows_cf_name name) (db e)) as [d1 Hd1]. rewrite Hd1.
    destruct (create_law _ _ _ Hd1) as [Hh1 Hdur1].
    assert (Hev : row_family_event (ECreate (db_rows_cf_name name))) by (exists name; by left).
    assert (Hcon : contents d1 = apply_event (contents (db e)) (ECreate (db_rows_cf_name name))).
    { unfold contents. by rewrite Hh1, replay_snoc. }
    destruct (write_row_events (set_db d1 e) s name rk x data) as (Hist & Hd & Hrest); [done| | |].
    { simpl. rewrite handle_law, Hcon. apply bool_decide_eq_true. simpl.
      destruct (contents (db e) !! _) eqn:E; [by eexists|]. rewrite lookup_insert_eq. by eexists. }
    { simpl. rewrite handle_law, Hcon. apply bool_decide_eq_true.
      rewrite (row_event_other _ _ CF_META Hev) by (apply system_mem; tauto).
      apply (r_fams _ _ Hr), system_mem; tauto. }
    exists [ECreate (db_rows_cf_name name)].
    split; [by apply Forall_singleton|]. split; [by right|].
    simpl in Hd, Hrest |- *. split; [|split; [lia|exact Hrest]].
    rewrite Hist. simpl. by rewrite Hh1, <-(assoc_L (++)).
Qed.

Lemma step_store e s name rk x data :
  einv e s → x < u64_modulus →
  ∃ e' evs, step e (OStore name rk x data) = Some e' ∧ einv e' (spec_step s (OStore name rk x data)) ∧
            did e e' evs (op_synced (config e) (sync_writes e) (OStore name rk x data)).
Proof.
  intros H Hx. pose proof H as [Hr Hst].
  destruct (store_row_events e s name rk x data H) as (evs0 & Hf & _ & Hh & Hd & Hs & Hc & Hy & Hst').
  eexists _, _. split; [reflexivity|]. split; [split|].
  - unfold contents, replay. rewrite Hh, !fold_left_app. cbn [fold_left apply_event].
    apply reflect_row; [|done]. clear -Hf Hr.
    change (fold_left apply_event (history (db e)) ∅) with (contents (db e)).
    revert Hr. generalize (contents (db e)). induction Hf as [|ev evs Hev Hf IH]; intros m Hr; simpl; [done|].
    apply IH. by apply reflect_event.
  - by rewrite Hst'.
  - unfold did. rewrite Hh. split_and!; try done.
    + exists evs0, [EWrite (row_batch name rk x data (top_xid s <? x))]. split_and!; [done..|]. right; eauto.
    + simpl. intros Hsync. split; [by destruct evs0|]. rewrite <-Hh. by apply Hs.
Qed.

Lemma reflects_versions m s vs :
  reflects m s → reflects m (mkSpec (streams s) (log s) (ckpt_count s) (ckpt_at s) vs (top_xid s)).
Proof. intros H. by split; try apply H. Qed.

Lemma step_drop e s name :
  einv e s →
  ∃ e' evs, step e (ODropDb name) = Some e' ∧ einv e' (spec_step s (ODropDb name)) ∧ did e e' evs false.
Proof.
  intros H. pose proof H as [Hr Hst]. simpl. unfold drop_db_column_family.
  destruct (cf_handle (db_rows_cf_name name) (db e)); simpl negb; cbn iota.
  - destruct (drop_ok (db_rows_cf_name name) (db e)) as [d Hd]. rewrite Hd.
    destruct (drop_law _ _ _ Hd) as [Hh Hdur].
    assert (Hev : row_family_event (EDrop (db_rows_cf_name name))) by (exists name; by right).
    eexists _, _. split; [reflexivity|]. split; [split|].
    + unfold contents. simpl. rewrite Hh, replay_snoc. by apply reflects_versions, reflect_event.
    + exact Hst.
    + unfold did. simpl. split_and!; try done. exists [EDrop (db_rows_cf_name name)], [].
      split_and!; [done|by repeat constructor|by left].
  - eexists _, _. split; [reflexivity|]. split; [|apply did_nothing]. split; [|exact Hst].
    by apply reflects_versions.
Qed.

Lemma step_checkpoint e s :
  einv e s → N.of_nat (S (ckpt_count s)) < u64_modulus → N.of_nat (length (log s)) < u64_modulus →
  ∃ e' evs, step e OCheckpoint = Some e' ∧ einv e' (spec_step s OCheckpoint) ∧
            did e e' evs (op_synced (config e) (sync_writes e) OCheckpoint).
Proof.
  intros H Hc Hl. pose proof H as [Hr Hst]. simpl. unfold force_checkpoint.
  handle H CF_META. simpl negb. cbn iota. rewrite Hst. cbn [hot_of checkpoint_count sequence].
  set (est := match estimate_num_keys (db e) with Some n => _ | None => _ end).
  destruct (write_ok (checkpoint_batch (mkManifest (N.of_nat (S (ckpt_count s)))
              (N.of_nat (length (log s))) est)) (sync_writes e) (db e)) as [d Hd].
  rewrite Hd. eexists _, _. split; [reflexivity|].
  wrote Hd Hcon. split.
  - simpl in *. rewrite Hcon. by apply reflect_checkpoint.
  - unfold hot_of. simpl. f_equal. lia.
Qed.

Lemma step_ok e s o :
  einv e s → op_ok o → N.of_nat (spec_size s + op_size o) < u64_modulus →
  ∃ e' evs, step e o = Some e' ∧ einv e' (spec_step s o) ∧
            did e e' evs (op_synced (config e) (sync_writes e) o).
Proof.
  intros H Hok Hsz. unfold spec_size in Hsz. destruct o; cbn [op_size] in Hsz; cbn [op_ok] in Hok.
  - apply step_mutate; [done|lia].
  - apply step_sql; [done|destruct k; lia|done].
  - apply step_group; [done|lia|done].
  - apply step_clear; [done|destruct k; lia].
  - destruct Hok. by apply step_store.
  - by apply step_drop.
  - apply step_checkpoint; [done|lia|lia].
Qed.

(** ** Runs and crashes *)

(** Wherever the store is cut, it reflects the specification after a prefix of
    the operations, at least up to the last synced one. *)
Definition crash_ok e (ops : list rocks_op) : Prop :=
  ∀ k, (k ≤ length (history (db e)))%nat →
    ∃ j, (j ≤ length ops)%nat ∧ reflects (replay (crash_history k (history (db e)))) (spec_run (take j ops)) ∧
         ((durable (db e) ≤ k)%nat → (synced_upto (config e) (sync_writes e) ops ≤ j)%nat).

Lemma reflect_events evs m s :
  Forall row_family_event evs → reflects m s → reflects (fold_left apply_event evs m) s.
Proof.
  intros Hf. revert m. induction Hf as [|ev evs Hev Hf IH]; intros m Hr; simpl; [done|].
  apply IH. by apply reflect_event.
Qed.

Lemma crash_step e e' ops o evs s :
  crash_ok e ops → s = spec_run ops → reflects (contents (db e)) s → einv e' (spec_step s o) →
  did e e' evs (op_synced (config e) (sync_writes e) o) → crash_ok e' (ops ++ [o]).
Proof.
  intros Hc -> Hr [Hr' _] (Hh & Hd & (evs0 & w & -> & Hf & Hw) & Hcfg & Hsy & Hsync) k Hk.
  rewrite Hcfg, Hsy, synced_upto_snoc, length_app. simpl length.
  destruct (decide (k = length (history (db e')))) as [->|Hne].
  { exists (S (length ops)). split; [lia|]. split.
    - rewrite firstn_all2 by (rewrite length_app; simpl; lia). rewrite spec_run_snoc.
      unfold crash_history. rewrite firstn_all, skipn_all. simpl. by rewrite app_nil_r.
    - intros _. destruct (op_synced _ _ o); [lia|].
      assert (Hsy' := synced_upto_le (config e) (sync_writes e) ops). lia. }
  assert (Hlost : op_synced (config e) (sync_writes e) o = true → ¬ (durable (db e') ≤ k)%nat).
  { intros [_ E]%Hsync. lia. }
  rewrite Hh in Hk, Hne |- *.
  destruct (decide (k ≤ length (history (db e)))%nat) as [Hle|Hgt].
  - rewrite crash_history_app, shape_filter by done.
    destruct (Hc k Hle) as (j & Hj & Hrj & Hsj). exists j.
    split; [lia|]. rewrite take_app_le by done. split.
    + unfold replay. rewrite fold_left_app. by apply reflect_events.
    + intros Hdur. destruct (op_synced _ _ o); [by exfalso; apply Hlost|]. apply Hsj. lia.
  - rewrite crash_history_beyond by lia. rewrite length_app in Hk, Hne.
    rewrite shape_crash by (try done; lia).
    exists (length ops). split; [lia|]. rewrite take_app_length. split.
    + unfold replay. rewrite fold_left_app. by apply reflect_events.
    + intros Hdur. destruct (op_synced _ _ o); [by exfalso; apply Hlost|]. apply synced_upto_le.
Qed.

Lemma run_ok ops e0 :
  einv e0 empty_spec → crash_ok e0 [] → Forall op_ok ops → N.of_nat (ops_size ops) < u64_modulus →
  ∃ e, run ops e0 = Some e ∧ einv e (spec_run ops) ∧ crash_ok e ops ∧
       config e = config e0 ∧ sync_writes e = sync_writes e0.
Proof.
  intros H0 Hc0. induction ops as [|o ops IH] using rev_ind; intros Hok Hsz.
  - by exists e0.
  - apply Forall_app in Hok as [Hok Ho]. rewrite Forall_singleton in Ho.
    rewrite ops_size_app in Hsz.
    unfold ops_size in Hsz at 2; simpl in Hsz.
    destruct IH as (e & Hrun & Hinv & Hcr & Hcfg & Hsy); [done|lia|].
    pose proof (spec_size_run ops) as Hs.
    destruct (step_ok e (spec_run ops) o Hinv Ho) as (e' & evs & Hst & Hinv' & Hdid); [lia|].
    exists e'. rewrite (run_snoc ops o e0 e Hrun), spec_run_snoc. split_and!; [done..| | |].
    + by eapply crash_step; [..|apply Hinv|exact Hinv'|exact Hdid].
    + destruct Hdid as (_ & _ & _ & -> & _). done.
    + destruct Hdid as (_ & _ & _ & _ & -> & _). done.
Qed.

(** ** Opening *)

Lemma counter_decode m key n what :
  counter m key n →
  decode_or_zero (entry m CF_META key) = n ∧ decode_meta what (entry m CF_META key) = Ok n.
Proof.
  unfold counter, decode_or_zero, decode_meta. destruct (entry m CF_META key) as [b|].
  - intros [-> Hn]. by rewrite decode_encode_u64.
  - by intros ->.
Qed.

Lemma open_families_present cfs (d : DB) :
  (∀ cf, cf ∈ cfs → is_Some (contents d !! cf)) → open_families cfs d = Ok d.
Proof.
  induction cfs as [|cf cfs IH]; intros Hp; simpl; [done|].
  rewrite handle_law, bool_decide_true by (apply Hp; by left). apply IH. intros cf' ?. apply Hp. by right.
Qed.

Lemma open_reflects env cfg (d : DB) s :
  reflects (contents d) s →
  ∃ e, open env cfg d = Ok e ∧ db e = d ∧ einv e s ∧ config e = cfg ∧
       sync_writes e = fsync_on_commit env.
Proof.
  intros Hr. unfold open.
  rewrite open_families_present by apply (r_fams _ _ Hr).
  assert (Hh : ∀ cf, cf ∈ system_families → cf_handle cf d = true).
  { intros cf Hcf. rewrite handle_law. by apply bool_decide_eq_true, (r_fams _ _ Hr). }
  rewrite (Hh CF_META) by (apply system_mem; tauto). cbn [negb].
  rewrite !get_law. fold (entry (contents d) CF_META META_LATEST_SEQUENCE).
  fold (entry (contents d) CF_META META_CHECKPOINT_COUNT).
  fold (entry (contents d) CF_META META_SQL_DDL_SEQUENCE).
  fold (entry (contents d) CF_META META_SQL_DML_SEQUENCE).
  fold (entry (contents d) CF_META META_MAX_ROW_XID).
  destruct (counter_decode _ _ _ "latest_sequence" (r_seq _ _ Hr)) as [_ ->].
  destruct (counter_decode _ _ _ "checkpoint_count" (r_ckpt _ _ Hr)) as [_ ->].
  destruct (counter_decode _ META_SQL_DDL_SEQUENCE _ "" (r_kind _ _ Hr Ddl)) as [-> _].
  destruct (counter_decode _ META_SQL_DML_SEQUENCE _ "" (r_kind _ _ Hr Dml)) as [-> _].
  destruct (counter_decode _ _ _ "" (r_top _ _ Hr)) as [-> _].
  unfold read_recent_wal_records. rewrite (Hh CF_WAL) by (apply system_mem; tauto).
  eexists. split; [reflexivity|]. split_and!; try done. split; [done|]. simpl.
  unfold compute_wal_since_checkpoint. rewrite get_law.
  fold (entry (contents d) CF_META META_LATEST_CHECKPOINT_LAST_SEQ).
  destruct (counter_decode _ _ _ "" (r_at _ _ Hr)) as [-> _].
  unfold hot_of, saturating_sub. f_equal; lia.
Qed.

Definition creates : list kv_event := map ECreate system_families.

Lemma created_empty cf key : entry (replay creates) cf key = None.
Proof.
  unfold entry, replay, creates, system_families. cbn [map fold_left apply_event].
  repeat (match goal with |- context [match ?m !! ?k with _ => _ end] =>
            replace (m !! k) with (@None (gmap string string)) by reflexivity end).
  rewrite !lookup_insert. repeat destruct (decide _); simpl; by rewrite ?lookup_empty.
Qed.

Lemma reflects_created : reflects (replay creates) empty_spec.
Proof.
  pose proof created_empty as Hnone.
  split; simpl; try (intros; unfold counter; by rewrite Hnone); try done.
  - intros cf Hcf. unfold system_families in Hcf. rewrite !elem_of_cons, elem_of_nil in Hcf.
    destruct Hcf as [->|[->|[->|[->|[->|[]]]]]]; vm_compute; by eexists.
  - intros key v. rewrite Hnone. split; [done|]. by intros (? & ? & _ & ?).
  - intros key v. rewrite Hnone. split; [done|]. by intros (? & ? & _ & ? & _).
Qed.

(** A fresh store: its families are created on the way. *)
Lemma open_families_fresh cfs (d : DB) :
  NoDup cfs → (∀ cf, cf ∈ cfs → contents d !! cf = None) →
  ∃ d', open_families cfs d = Ok d' ∧ history d' = history d ++ map ECreate cfs.
Proof.
  revert d. induction cfs as [|cf cfs IH]; intros d Hnd Habs; simpl.
  - exists d. by rewrite app_nil_r.
  - apply NoDup_cons in Hnd as [Hni Hnd].
    rewrite handle_law, bool_decide_false
      by (rewrite Habs by (by left); intros [? ?]; done).
    destruct (create_ok cf d) as [d1 Hd1]. rewrite Hd1. destruct (create_law _ _ _ Hd1) as [Hh _].
    destruct (IH d1) as (d' & Ho & Hh'); [done| |].
    + intros cf' Hin. unfold contents. rewrite Hh, replay_snoc. simpl.
      change (replay (history d)) with (contents d). rewrite Habs by (by left).
      rewrite lookup_insert_ne by (intros ->; done). apply Habs. by right.
    + exists d'. split; [done|]. by rewrite Hh', Hh, <-(assoc_L (++)).
Qed.

Lemma open_fresh env cfg (d : DB) :
  history d = [] →
  ∃ e, open env cfg d = Ok e ∧ einv e empty_spec ∧ crash_ok e [] ∧ config e = cfg ∧
       sync_writes e = fsync_on_commit env ∧ contents (db e) = replay creates.
Proof.
  intros Hd. destruct (open_families_fresh system_families d) as (d1 & Ho & Hh).
  { apply (bool_decide_unpack _). vm_compute. done. }
  { intros cf _. unfold contents. rewrite Hd. apply lookup_empty. }
  rewrite Hd in Hh. simpl app in Hh.
  assert (Hr : reflects (contents d1) empty_spec).
  { unfold contents. rewrite Hh. apply reflects_created. }
  destruct (open_reflects env cfg d1 empty_spec Hr) as (e & He & Hdb & Hinv & Hcfg & Hsy).
  exists e. split_and!; try done.
  - unfold open in He |- *. rewrite open_families_present in He by apply (r_fams _ _ Hr).
    fold system_families. by rewrite Ho.
  - intros k Hk. exists O. split; [done|]. rewrite Hdb, Hh. split; [|done].
    rewrite crash_nonwrites; [apply reflects_created|]. by repeat constructor.
  - unfold contents. by rewrite Hdb, Hh.
Qed.

(** ** Reading the streams and the log back *)

Lemma collect_own k n l rest :
  (∀ i, (i < length l)%nat → n + N.of_nat i < u64_modulus) →
  Forall (fun q => valid_utf8 q = true) l →
  collect_sql k (keyed (sql_key k) id n l ++ rest) = l ++ collect_sql k rest.
Proof.
  revert n. induction l as [|q l IH]; intros n Hn Hu; [done|].
  inversion Hu as [|? ? Hq Hl]; subst. cbn [keyed app collect_sql sql_key].
  rewrite Ascii.eqb_refl. cbn [negb].
  rewrite bool_decide_false.
  2: { intros Hnot. apply Hnot. destruct k; reflexivity. }
  unfold id at 1 2. rewrite Hq. f_equal. apply IH; [|done].
  intros i Hi. specialize (Hn (S i)). simpl length in Hn. rewrite Nat2N.inj_succ in Hn. lia.
Qed.

Lemma collect_other k k' n l : k ≠ k' → collect_sql k (keyed (sql_key k') id n l) = [].
Proof. intros Hne. destruct l; [done|]. by destruct k, k'. Qed.

Lemma sql_iterator (d : DB) s :
  reflects (contents d) s → N.of_nat (spec_size s) < u64_modulus →
  iterator_cf CF_SQL d
  = keyed (sql_key Ddl) id 1 (streams s Ddl) ++ keyed (sql_key Dml) id 1 (streams s Dml).
Proof.
  intros Hr Hsz. unfold spec_size in Hsz. apply sorted_entries_unique.
  - apply iterator_sorted.
  - rewrite map_app. apply sorted_app.
    + apply keyed_sorted. intros i j ? ? ?. apply sql_key_lt; lia.
    + apply keyed_sorted. intros i j ? ? ?. apply sql_key_lt; lia.
    + intros a b Ha Hb. apply list_elem_of_fmap in Ha as ([ka va] & -> & Ha).
      apply list_elem_of_fmap in Hb as ([kb vb] & -> & Hb).
      apply elem_of_keyed in Ha as (? & ? & -> & _). apply elem_of_keyed in Hb as (? & ? & -> & _).
      apply sql_key_kinds.
  - intros [key v]. rewrite iterator_law. fold (entry (contents d) CF_SQL key).
    rewrite (r_sql _ _ Hr key v), elem_of_app, !elem_of_keyed. split.
    + intros (k & i & -> & Hi). rewrite Nat2N.inj_succ, <-N.add_1_l.
      destruct k; [left|right]; by exists i, v.
    + intros [(i & q & -> & Hi & ->)|(i & q & -> & Hi & ->)]; eexists _, i;
        (split; [|exact Hi]); f_equal; lia.
Qed.

Lemma keyed_filter_ge k n l :
  0 < n → n + N.of_nat (length l) <= u64_modulus →
  filter (fun kv => ¬ key_lt kv.1 (sql_key k 1)) (keyed (sql_key k) id n l) = keyed (sql_key k) id n l.
Proof.
  intros Hn Hl. apply list_filter_all. apply Forall_forall. intros [key v] Hin.
  apply elem_of_keyed in Hin as (i & x & -> & Hi & _). apply lookup_lt_Some in Hi. cbn [fst].
  rewrite sql_key_lt by u64. lia.
Qed.

Lemma iter_sql_spec e s k :
  einv e s → N.of_nat (spec_size s) < u64_modulus → iter_sql k e = streams s k.
Proof.
  intros H Hsz. pose proof H as [Hr _]. unfold iter_sql. handle H CF_SQL. cbn [negb].
  rewrite (sql_iterator _ s Hr Hsz), filter_app. unfold spec_size in Hsz.
  destruct k.
  - rewrite keyed_filter_ge by lia. rewrite collect_own; [|intros; lia|apply Hr].
    rewrite list_filter_all; [rewrite collect_other by done; apply app_nil_r|].
    apply Forall_forall. intros [key v] Hin. apply elem_of_keyed in Hin as (i & x & -> & _ & _).
    apply key_lt_asym, sql_key_kinds.
  - rewrite (keyed_filter_ge Dml) by lia. rewrite list_filter_none.
    + rewrite <-(app_nil_r (keyed _ _ _ _)). simpl app at 1.
      rewrite collect_own; [apply app_nil_r|intros; lia|apply Hr].
    + intros [key v] Hin Hnot. apply elem_of_keyed in Hin as (i & x & -> & _ & _).
      apply Hnot, sql_key_kinds.
Qed.

Lemma wal_iterator (d : DB) s :
  reflects (contents d) s → N.of_nat (spec_size s) < u64_modulus →
  iterator_cf CF_WAL d = keyed encode_u64 encode_wal_record 1 (log s).
Proof.
  intros Hr Hsz. unfold spec_size in Hsz. apply sorted_entries_unique.
  - apply iterator_sorted.
  - apply keyed_sorted. intros i j ? ? ?. apply encode_u64_lt; lia.
  - intros [key v]. rewrite iterator_law. fold (entry (contents d) CF_WAL key).
    rewrite (r_log _ _ Hr key v), elem_of_keyed. split.
    + intros (i & r & -> & Hi & ->). exists i, r. split; [f_equal; lia|done].
    + intros (i & r & -> & Hi & ->). exists i, r. split; [f_equal; lia|done].
Qed.

Lemma decode_keyed from n l :
  from < u64_modulus → n + N.of_nat (length l) <= u64_modulus →
  (∀ i r, l !! i = Some r → Wal.sequence r = n + N.of_nat i) →
  omap (fun kv : string * string => decode_wal_record kv.2)
    (filter (fun kv => ¬ key_lt kv.1 (encode_u64 from)) (keyed encode_u64 encode_wal_record n l))
  = filter (fun r => from <= Wal.sequence r) l.
Proof.
  intros Hf. revert n. induction l as [|r l IH]; intros n Hl Hnum; [done|]. cbn [keyed length] in *.
  assert (Hr : Wal.sequence r = n) by (rewrite (Hnum O r eq_refl); lia).
  rewrite !filter_cons. cbn [fst]. specialize (IH (n + 1)).
  rewrite !(decide_ext (¬ key_lt (encode_u64 n) (encode_u64 from)) (from <= Wal.sequence r))
    by (rewrite encode_u64_lt by lia; rewrite Hr; lia).
  assert (Htl : ∀ i r0, l !! i = Some r0 → Wal.sequence r0 = n + 1 + N.of_nat i).
  { intros i r0 Hi. rewrite (Hnum (S i) r0 Hi). lia. }
  destruct (decide _); [|apply IH; [lia|done]]. cbn [omap list_omap snd].
  unfold decode_wal_record, encode_wal_record at 1. rewrite wal_json_roundtrip.
  f_equal. apply IH; [lia|done].
Qed.

Lemma scan_wal_spec e s from :
  einv e s → N.of_nat (spec_size s) < u64_modulus → from < u64_modulus →
  scan_wal from e = Ok (filter (fun r => from <= Wal.sequence r) (log s)).
Proof.
  intros H Hsz Hf. pose proof H as [Hr _]. unfold scan_wal. handle H CF_WAL. cbn [negb].
  rewrite (wal_iterator _ s Hr Hsz), decode_keyed; [done|done|unfold spec_size in Hsz; lia|].
  intros i r Hi. rewrite (r_numbered _ _ Hr i r Hi). lia.
Qed.

End Engine.

(** ** Properties *)

Section Crash.
Context {DB : Type} {KS : KvStore DB} {KL : KvLaws DB} {HK : HealthyKv DB}.
Context {SJ : SerdeJson} {SL : SerdeLaws}.


(** The persisted transaction-id watermark.  After a crash and a reopen,
    every row version found in a database's family carries a transaction id no
    greater than the restored [max_row_xid], so a row store that continues from
    it can see all of them. *)
Theorem reopened_watermark_covers_rows (env : option string) (cfg : DurabilityConfig) (d0 : DB)
    (ops : list rocks_op) :
  history d0 = [] → Forall op_ok ops → N.of_nat (ops_size ops) < u64_modulus →
  ∃ e0 e, open env cfg d0 = Ok e0 ∧ run ops e0 = Some e ∧
  ∀ d', crash (db e) d' →
  ∃ e', open env cfg d' = Ok e' ∧
    ∀ name rk x v, x < u64_modulus →
      (row_version_key rk x, v) ∈ iterator_cf (db_rows_cf_name name) (db e') →
      x <= max_row_xid (state e').
Proof.
  intros Hd0 Hok Hsz.
  destruct (open_fresh env cfg d0 Hd0) as (e0 & Ho & Hinv0 & Hc0 & _).
  destruct (run_ok ops e0 Hinv0 Hc0 Hok Hsz) as (e & Hrun & _ & Hcr & _).
  exists e0, e. split_and!; [done..|]. intros d' Hcrash.
  destruct (crash_law _ _ Hcrash) as (k & [_ Hk] & Hh & _).
  destruct (Hcr k Hk) as (j & _ & Hr & _).
  assert (Hr' : reflects (contents d') (spec_run (take j ops))) by (unfold contents; by rewrite Hh).
  destruct (open_reflects env cfg d' _ Hr') as (e' & Ho' & Hdb & [_ Hst] & _).
  exists e'. split; [done|]. intros name rk x v Hx Hin. rewrite Hst. cbn [hot_of max_row_xid].
  rewrite iterator_law, Hdb in Hin.
  destruct (r_rows _ _ Hr' name _ v Hin) as (rk' & x' & E & Hle).
  destruct (decide (x' < u64_modulus)) as [Hx'|Hx'].
  - by apply row_version_key_inj in E as [_ ->].
  - lia.
Qed.

End Crash.

(** ** A concrete store *)

Fixpoint pos_str (p : positive) : string :=
  match p with
  | xH => EmptyString
  | xO p => String "0"%char (pos_str p)
  | xI p => String "1"%char (pos_str p)
  end.

Fixpoint str_pos (s : string) : positive :=
  match s with
  | EmptyString => xH
  | String c s => if Ascii.eqb c "1" then xI (str_pos s) else xO (str_pos s)
  end.

Lemma str_pos_str p : str_pos (pos_str p) = p.
Proof. induction p; simpl; congruence. Qed.

(** Any injective encoding serves as a stand-in for JSON. *)
Definition demo_json : SerdeJson := {|
  row_to_json := fun r => pos_str (encode r);
  row_from_json := fun s => decode (str_pos s);
  wal_to_json := fun r => pos_str (encode (Wal.sequence r, timestamp_epoch_ms r, key r, value r));
  wal_from_json := fun s =>
    (fun '(q, t, k, v) => mkWalRecord q t k v) <$> (decode (str_pos s) : option (N * N * string * string));
|}.

Lemma demo_json_laws : @SerdeLaws demo_json.
Proof.
  split; simpl; intros r; rewrite str_pos_str, decode_encode; [done|]. by destruct r.
Qed.

Definition healthy : list batch_op -> bool := fun _ => false.

Lemma log_store_healthy : @HealthyKv LogStore (log_store healthy).
Proof. split; by eexists. Qed.

Definition demo_ops : list rocks_op :=
  [OSql Ddl "CREATE TABLE t (id INT)"; OMutate 7 "k" "v"; OCheckpoint;
   OSqlBatch [(Dml, "INSERT INTO t VALUES (1)"); (Dml, "INSERT INTO t VALUES (2)")];
   OStore "db" "t:1" 9 (Some {["id" := "1"]}); OClear Ddl; OSql Dml "DELETE FROM t"].

Lemma demo_ops_ok : Forall op_ok demo_ops.
Proof. unfold demo_ops. repeat constructor. Qed.


Lemma reopened_watermark_covers_rows_witness :
  let KS := log_store healthy in let SJ := demo_json in
  ∃ (e0 e : Engine LogStore),
    open None default_config (mkLog [] 0) = Ok e0 ∧ run demo_ops e0 = Some e ∧
    ∀ d', crash (db e) d' →
    ∃ e', open None default_config d' = Ok e' ∧
      ∀ v, (row_version_key "t:1" 9, v) ∈ iterator_cf (db_rows_cf_name "db") (db e') →
      9 <= max_row_xid (state e').
Proof.
  intros KS SJ.
  destruct (@reopened_watermark_covers_rows LogStore KS (log_laws healthy) log_store_healthy SJ
              None default_config (mkLog [] 0) demo_ops eq_refl demo_ops_ok
              ltac:(vm_compute; reflexivity)) as (e0 & e & Ho & Hr & Hc).
  exists e0, e. split_and!; [exact Ho|exact Hr|]. intros d' Hd.
  destruct (Hc d' Hd) as (e' & Ho' & Hx). exists e'. split; [exact Ho'|].
  intros v Hv. exact (Hx "db" "t:1" 9 v ltac:(vm_compute; reflexivity) Hv).
Defined.

(** A row write that fails still raises the in-memory watermark, so that the
    next, smaller transaction id is stored without one: after a reopen the
    watermark lies below a persisted version. *)
Definition fails_on_watermark : list batch_op -> bool :=
  fun b => bool_decide (META_MAX_ROW_XID ∈ map (fun o => match o with Put _ k _ | Delete _ k => k end) b).

Definition stored_then_reopened (KS : KvStore LogStore) (SJ : SerdeJson)
    : option (list (option (string * N)) * N) :=
  match @open LogStore KS SJ None default_config (mkLog [] 0) with
  | Ok e0 =>
      let e := store_row "db" "r" 9 None (store_row "db" "r" 10 None e0) in
      match @open LogStore KS SJ None default_config (db e) with
      | Ok e' => Some (map (fun kv => parse_row_key kv.1)
                         (@iterator_cf _ KS (db_rows_cf_name "db") (db e')), max_row_xid (state e'))
      | Err _ => None
      end
  | Err _ => None
  end.

Lemma failed_row_write_leaves_watermark_behind :
  stored_then_reopened (log_store fails_on_watermark) demo_json = Some ([Some ("r", 9)], 0).
Proof. vm_compute. reflexivity. Qed.
