(* ===== verification/RocksRows.v ===== *)
(** * Row versions in the RocksDB engine

    What the row reads of [RocksEngine] return: for every row key the version
    with the highest visible transaction id, unless it is a tombstone. *)

From S2P Require Import Prelude Str Bytes KvStore Wal RocksEngine RocksSpec RocksProps.
From Stdlib Require Import Ascii.
Local Open Scope string_scope.
Local Open Scope list_scope.
Local Open Scope N_scope.

Import Bytes Wal Rocks.

#[local] Arguments String.append !_ _ / : simpl nomatch.
#[local] Arguments be : simpl never.
#[local] Arguments encode_u64 : simpl never.
#[local] Arguments apply_op : simpl never.
#[local] Arguments N.of_nat : simpl never.

(** ** Keys of row versions *)

Lemma row_key_lt rk x x' : x < u64_modulus → x' < u64_modulus →
  key_lt (row_version_key rk x) (row_version_key rk x') ↔ x < x'.
Proof.
  intros Hx Hx'. rewrite <-encode_u64_lt by done. unfold key_lt, row_version_key.
  by rewrite compare_app.
Qed.

Lemma row_version_key_shape rk x :
  row_version_key rk x = (rk +:+ String SEP "") +:+ encode_u64 x.
Proof. unfold row_version_key. by rewrite Str.app_assoc_str. Qed.

Lemma length_row_version_key rk x : String.length (row_version_key rk x) = (String.length rk + 9)%nat.
Proof.
  unfold row_version_key. rewrite Str.length_app_str. cbn [String.length].
  unfold encode_u64. by rewrite length_be.
Qed.

Lemma xid_of_key rk x : x < u64_modulus → from_be (tail_bytes 8 (row_version_key rk x)) = x.
Proof.
  intros Hx. rewrite row_version_key_shape, tail_bytes_app by apply length_be.
  apply from_be_be. by rewrite u64_width.
Qed.

Lemma parse_row_version_key rk x :
  x < u64_modulus → valid_utf8 rk = true → parse_row_key (row_version_key rk x) = Some (rk, x).
Proof.
  intros Hx Hu. unfold parse_row_key. rewrite length_row_version_key.
  destruct (Nat.ltb_spec (String.length rk + 9) 9); [lia|].
  rewrite (xid_of_key rk x Hx).
  rewrite row_version_key_shape, but_tail_app by apply length_be.
  unfold ends_with_sep. rewrite tail_bytes_app, but_tail_app by done. simpl. by rewrite Hu.
Qed.

Lemma db_rows_cf_name_inj a b : db_rows_cf_name a = db_rows_cf_name b → a = b.
Proof. intros E. by apply app_inj_length in E as [_ ->]. Qed.

Lemma row_family_not_system name : db_rows_cf_name name ∉ system_families.
Proof.
  unfold system_families. rewrite !elem_of_cons, elem_of_nil. by intros [|[|[|[|[|[]]]]]].
Qed.

(** ** The families hold the versions of the specification *)

Section Rows.
Context {DB : Type} {KS : KvStore DB} {KL : KvLaws DB} {HK : HealthyKv DB}.
Context {SJ : SerdeJson} {SL : SerdeLaws}.
Implicit Types (e : Engine DB).

Definition db_versions (s : Spec) (name : string) : row_versions := default ∅ (versions s !! name).

Definition rows_rel (m : families) (s : Spec) : Prop :=
  ∀ name key v, entry m (db_rows_cf_name name) key = Some v ↔
    ∃ rk x data, key = row_version_key rk x ∧ db_versions s name !! (rk, x) = Some data ∧
                 v = row_value data.

Definition versions_ok (s : Spec) : Prop :=
  ∀ name rk x data, db_versions s name !! (rk, x) = Some data →
    x < u64_modulus ∧ valid_utf8 rk = true.

Definition op_family (o : batch_op) : string := match o with Put cf _ _ | Delete cf _ => cf end.

Lemma batch_family b m cf :
  Forall (fun o => op_family o ≠ cf) b → fold_left apply_op b m !! cf = m !! cf.
Proof.
  intros Hb. revert m. induction Hb as [|o b Ho Hb IH]; intros m; simpl; [done|].
  rewrite IH. destruct o; simpl in Ho; unfold apply_op; by rewrite lookup_alter_ne.
Qed.

Lemma system_batch b m name key :
  Forall (fun o => op_family o ∈ system_families) b →
  entry (fold_left apply_op b m) (db_rows_cf_name name) key = entry m (db_rows_cf_name name) key.
Proof.
  intros Hb. unfold entry. rewrite batch_family; [done|]. eapply Forall_impl; [exact Hb|].
  simpl. intros o Ho E. apply (row_family_not_system name). by rewrite <-E.
Qed.

Lemma written b sync (d d' : DB) :
  write_opt b sync d = Some d' → contents d' = fold_left apply_op b (contents d).
Proof. intros (Hh & _ & _)%write_law. unfold contents. by rewrite Hh, replay_snoc. Qed.

Lemma batch_entries_system es st ops seqs st' :
  batch_entries es st = (ops, seqs, st') → Forall (fun o => op_family o ∈ system_families) ops.
Proof.
  revert st ops seqs st'. induction es as [|[k sql] es IH]; intros st ops seqs st'; cbn [batch_entries].
  - by intros [= <- _ _].
  - destruct (batch_entries es _) as [[o0 s0] st0] eqn:E. intros [= <- _ _].
    constructor; [apply system_mem; simpl; tauto|by eapply IH].
Qed.

Definition touches_rows (o : rocks_op) : bool :=
  match o with OStore _ _ _ _ | ODropDb _ => true | _ => false end.

Ltac sys := repeat (apply Forall_cons; split; [apply system_mem; simpl; tauto|]); try apply Forall_nil_2.

Lemma system_step_rows e o e' name key :
  touches_rows o = false → step e o = Some e' →
  entry (contents (db e')) (db_rows_cf_name name) key
  = entry (contents (db e)) (db_rows_cf_name name) key.
Proof.
  intros Ht. destruct o; try done; simpl.
  - unfold append_mutation. destruct (_ || _); [done|].
    destruct (write_opt _ _ _) eqn:E; [|done]. intros [= <-]. simpl. rewrite (written _ _ _ _ E).
    apply system_batch. sys.
  - unfold append_sql. destruct (_ || _); [done|].
    destruct (write_opt _ _ _) eqn:E; [|done]. intros [= <-]. simpl. rewrite (written _ _ _ _ E).
    apply system_batch. sys.
  - destruct entries as [|en es]; [by intros [= <-]|]. unfold append_sql_batch.
    destruct (_ || _); [done|]. destruct (batch_entries _ _) as [[ops seqs] st'] eqn:Eb.
    destruct (write_opt _ _ _) eqn:E; [|done]. intros [= <-]. simpl. rewrite (written _ _ _ _ E).
    apply system_batch. apply Forall_app. split; [by eapply batch_entries_system|sys].
  - unfold clear_sql. destruct (_ || _); [by intros [= <-]|]. destruct (_ =? _); [by intros [= <-]|].
    destruct (write_opt _ _ _) eqn:E; [|by intros [= <-]]. intros [= <-]. simpl.
    rewrite (written _ _ _ _ E). apply system_batch. apply Forall_app. split; [|sys].
    apply Forall_forall. intros o Ho. apply list_elem_of_fmap in Ho as (i & -> & _).
    apply system_mem; simpl; tauto.
  - unfold force_checkpoint. destruct (negb _); [done|].
    destruct (write_opt _ _ _) eqn:E; [|done]. intros [= <-]. simpl. rewrite (written _ _ _ _ E).
    apply system_batch. sys.
Qed.

Lemma spec_step_versions s o name :
  touches_rows o = false → db_versions (spec_step s o) name = db_versions s name.
Proof. by destruct o. Qed.

Lemma rows_rel_put m s name rk x data :
  is_Some (m !! db_rows_cf_name name) → rows_rel m s → versions_ok s → x < u64_modulus →
  rows_rel (apply_op m (Put (db_rows_cf_name name) (row_version_key rk x) (row_value data)))
    (spec_step s (OStore name rk x data)).
Proof.
  intros Hfam Hrel Hok Hx nm key v. rewrite entry_put.
  unfold db_versions. cbn [spec_step versions].
  destruct (decide (name = nm)) as [<-|Hne].
  - rewrite lookup_insert_eq. cbn [from_option id]. fold (db_versions s name).
    destruct (decide (row_version_key rk x = key)) as [<-|Hk].
    + rewrite decide_True by done. split.
      * intros [= <-]. exists rk, x, data. by rewrite lookup_insert_eq.
      * intros (rk' & x' & data' & E & Hv & ->). f_equal.
        destruct (decide ((rk, x) = (rk', x'))) as [[= <- <-]|Hne].
        -- rewrite lookup_insert_eq in Hv. congruence.
        -- rewrite lookup_insert_ne in Hv by done. destruct (Hok _ _ _ _ Hv) as [Hx' _].
           apply row_version_key_inj in E as [-> ->]; done.
    + rewrite decide_False by naive_solver. rewrite (Hrel name key v).
      split; intros (rk' & x' & data' & -> & Hv & ->); exists rk', x', data'; split_and!; try done.
      * rewrite lookup_insert_ne; [done|]. intros [= -> ->]. done.
      * rewrite lookup_insert_ne in Hv; [done|]. intros [= -> ->]. done.
  - rewrite decide_False by (intros (E & _); by apply db_rows_cf_name_inj in E).
    rewrite lookup_insert_ne by done. apply Hrel.
Qed.

Lemma store_rows e s name rk x data :
  einv e s → rows_rel (contents (db e)) s → versions_ok s → x < u64_modulus →
  rows_rel (contents (db (store_row name rk x data e))) (spec_step s (OStore name rk x data)).
Proof.
  intros H Hrel Hok Hx.
  destruct (store_row_events e s name rk x data H) as (evs0 & _ & Hev & Hh & _).
  unfold contents at 1. rewrite Hh. unfold replay. rewrite !fold_left_app.
  change (fold_left apply_event (history (db e)) ∅) with (contents (db e)).
  set (m := fold_left apply_event evs0 (contents (db e))).
  assert (Hm : is_Some (m !! db_rows_cf_name name) ∧ rows_rel m s).
  { unfold m. destruct Hev as [[-> Hs]| ->]; cbn [fold_left apply_event]; [done|].
    destruct (contents (db e) !! db_rows_cf_name name) eqn:E; [by rewrite E|].
    split; [rewrite lookup_insert_eq; by eexists|]. intros nm key v. rewrite <-(Hrel nm key v).
    unfold entry. destruct (decide (name = nm)) as [<-|Hne].
    - rewrite lookup_insert_eq, E. simpl. by rewrite lookup_empty.
    - rewrite lookup_insert_ne; [done|]. by intros ?%db_rows_cf_name_inj. }
  destruct Hm as [Hfam Hm]. cbn [fold_left apply_event].
  assert (Hp : rows_rel (apply_op m (Put (db_rows_cf_name name) (row_version_key rk x) (row_value data)))
                 (spec_step s (OStore name rk x data))) by by apply rows_rel_put.
  unfold row_batch. destruct (top_xid s <? x); cbn [fold_left]; [|done].
  intros nm key v. rewrite <-(Hp nm key v). by rewrite entry_put_cf.
Qed.

Lemma drop_rows e s name :
  rows_rel (contents (db e)) s →
  rows_rel (contents (db (drop_db_column_family name e))) (spec_step s (ODropDb name)).
Proof.
  intros Hrel. unfold drop_db_column_family.
  assert (Hgone : ∀ m, (∀ nm key, entry m (db_rows_cf_name nm) key
                        = if decide (name = nm) then None else entry (contents (db e)) (db_rows_cf_name nm) key) →
                  rows_rel m (spec_step s (ODropDb name))).
  { intros m Hm nm key v. rewrite Hm. unfold db_versions. cbn [spec_step versions].
    destruct (decide (name = nm)) as [<-|Hne].
    - rewrite lookup_delete_eq. split; [done|]. by intros (? & ? & ? & _ & ? & _).
    - rewrite lookup_delete_ne by done. apply Hrel. }
  destruct (cf_handle (db_rows_cf_name name) (db e)) eqn:Hh; cbn [negb].
  - destruct (drop_ok (db_rows_cf_name name) (db e)) as [d Hd]. rewrite Hd. apply Hgone.
    destruct (drop_law _ _ _ Hd) as [Hhist _]. intros nm key. simpl. unfold contents.
    rewrite Hhist, replay_snoc. unfold entry. simpl.
    destruct (decide (name = nm)) as [<-|Hne]; [by rewrite lookup_delete_eq|].
    rewrite lookup_delete_ne; [done|]. by intros ?%db_rows_cf_name_inj.
  - apply Hgone. intros nm key. destruct (decide (name = nm)) as [<-|]; [|done].
    rewrite handle_law in Hh. apply bool_decide_eq_false in Hh. unfold entry.
    destruct (contents (db e) !! _) eqn:E; [|done]. exfalso. apply Hh. by eexists.
Qed.

Lemma versions_ok_step s o : versions_ok s → op_ok o → versions_ok (spec_step s o).
Proof.
  intros Hs Ho. destruct o as [| | | |name rk x data|name|]; try exact Hs.
  - intros nm rk' x' data'. unfold db_versions. cbn [spec_step versions].
    destruct (decide (name = nm)) as [<-|Hne]; [|rewrite lookup_insert_ne by done; apply Hs].
    rewrite lookup_insert_eq. cbn [from_option id].
    destruct (decide ((rk, x) = (rk', x'))) as [[= <- <-]|Hk]; [by destruct Ho|].
    rewrite lookup_insert_ne by done. apply Hs.
  - intros nm rk' x' data'. unfold db_versions. cbn [spec_step versions].
    destruct (decide (name = nm)) as [<-|Hne]; [by rewrite lookup_delete_eq|].
    rewrite lookup_delete_ne by done. apply Hs.
Qed.

Lemma run_rows ops e0 :
  einv e0 empty_spec → crash_ok e0 [] → Forall op_ok ops → N.of_nat (ops_size ops) < u64_modulus →
  rows_rel (contents (db e0)) empty_spec →
  ∃ e, run ops e0 = Some e ∧ einv e (spec_run ops) ∧ rows_rel (contents (db e)) (spec_run ops) ∧
       versions_ok (spec_run ops).
Proof.
  intros H0 Hc0 Hok Hsz Hr0. induction ops as [|o ops IH] using rev_ind.
  - exists e0. by split_and!.
  - apply Forall_app in Hok as [Hok Ho]. rewrite Forall_singleton in Ho.
    rewrite ops_size_app in Hsz. unfold ops_size in Hsz at 2; simpl in Hsz.
    destruct IH as (e & Hrun & Hinv & Hrel & Hv); [done|lia|].
    pose proof (spec_size_run ops) as Hs.
    destruct (step_ok e (spec_run ops) o Hinv Ho) as (e' & evs & Hst & Hinv' & _); [lia|].
    exists e'. rewrite (run_snoc ops o e0 e Hrun), spec_run_snoc.
    split_and!; [done..| |by apply versions_ok_step].
    destruct (touches_rows o) eqn:Ht.
    + destruct o as [| | | |name rk x data|name|]; try done; simpl in Hst; simplify_eq.
      * destruct Ho. by apply store_rows.
      * by apply drop_rows.
    + intros name key v. rewrite (system_step_rows e o e' name key Ht Hst).
      rewrite (Hrel name key v). by rewrite (spec_step_versions _ _ _ Ht).
Qed.

Lemma open_fresh_rows env cfg (d : DB) :
  history d = [] →
  ∃ e, open env cfg d = Ok e ∧ einv e empty_spec ∧ crash_ok e [] ∧
       rows_rel (contents (db e)) empty_spec.
Proof.
  intros Hd. destruct (open_fresh env cfg d Hd) as (e & Ho & Hinv & Hc & _ & _ & Hcon).
  exists e. split_and!; try done. intros name key v. rewrite Hcon, created_empty. split; [done|].
  intros (rk & x & data & _ & Hv & _). unfold db_versions in Hv. simpl in Hv.
  by rewrite lookup_empty in Hv.
Qed.

(** ** Scanning a family *)

Definition version_entry (kv : string * string) : Prop :=
  ∃ rk x, kv.1 = row_version_key rk x ∧ x < u64_modulus ∧ valid_utf8 rk = true.

(** Scanning versions in key order keeps, per row, the highest visible one. *)
Lemma visible_fold snap l :
  StronglySorted key_lt (map fst l) → Forall version_entry l →
  ∀ rk x v, x < u64_modulus →
  fold_left (visible_step snap) l ∅ !! rk = Some (x, v) ↔
  (row_version_key rk x, v) ∈ l ∧ x <= snap ∧
  ∀ x' v', x' < u64_modulus → (row_version_key rk x', v') ∈ l → x' <= snap → x' <= x.
Proof.
  induction l as [|[key v0] l IH] using rev_ind; intros Hs Hall rk x v Hx.
  - simpl. rewrite lookup_empty. split; [done|]. intros [Hin _]. by apply not_elem_of_nil in Hin.
  - rewrite map_app in Hs. apply Forall_app in Hall as [Hall Hlast].
    rewrite Forall_singleton in Hlast. destruct Hlast as (rk0 & x0 & E0 & Hx0 & Hu0).
    simpl in E0. subst key.
    apply sorted_snoc in Hs as [Hs Hbelow].
    specialize (IH Hs Hall). rewrite fold_left_app. cbn [fold_left visible_step fst snd].
    unfold visible_step at 1. cbn [fst snd]. rewrite (parse_row_version_key rk0 x0 Hx0 Hu0).
    assert (Hlow : ∀ x' v', x' < u64_modulus → (row_version_key rk0 x', v') ∈ l → x' < x0).
    { intros x' v' Hx' Hin. apply (row_key_lt rk0); [done..|]. apply Hbelow.
      apply list_elem_of_fmap. by exists (row_version_key rk0 x', v'). }
    assert (Hmem : ∀ rk' x' v', x' < u64_modulus →
       (row_version_key rk' x', v') ∈ l ++ [(row_version_key rk0 x0, v0)] ↔
       (row_version_key rk' x', v') ∈ l ∨ rk' = rk0 ∧ x' = x0 ∧ v' = v0).
    { intros rk' x' v' Hx'. rewrite elem_of_app, list_elem_of_singleton. split.
      - intros [?|[= E ->]]; [by left|right]. by apply row_version_key_inj in E as [-> ->].
      - intros [?|(-> & -> & ->)]; auto. }
    assert (Hmx : (∀ x' v', x' < u64_modulus →
          (row_version_key rk x', v') ∈ l ++ [(row_version_key rk0 x0, v0)] → x' <= snap → x' <= x) ↔
        (∀ x' v', x' < u64_modulus →
          (row_version_key rk x', v') ∈ l ∨ rk = rk0 ∧ x' = x0 ∧ v' = v0 → x' <= snap → x' <= x)).
    { split; intros Hm x' v' Hx' Hin; apply (Hm x' v' Hx'), Hmem; done. }
    rewrite (Hmem rk x v Hx), Hmx. clear Hmem Hmx.
    destruct (N.ltb_spec snap x0) as [Hhid|Hvis].
    + rewrite (IH rk x v Hx). split.
      * intros (Hin & Hle & Hmax). split_and!; [by left|done|].
        intros x' v' Hx' [Hin'|(-> & -> & ->)] Hle'; [by eapply Hmax|lia].
      * intros ([Hin|(-> & -> & ->)] & Hle & Hmax); [|lia]. split_and!; [done..|].
        intros x' v' Hx' Hin' Hle'. eapply Hmax; eauto.
    + destruct (decide (rk0 = rk)) as [<-|Hne].
      * rewrite lookup_insert_eq. split.
        -- intros [= <- <-]. split_and!; [by right|done|].
           intros x' v' Hx' [Hin'|(_ & -> & _)] Hle'; [|lia].
           specialize (Hlow x' v' Hx' Hin'). lia.
        -- intros ([Hin|(_ & -> & ->)] & Hle & Hmax); [|done]. exfalso.
           specialize (Hlow x v Hx Hin).
           assert (x0 <= x) by (apply (Hmax x0 v0); [done|by right|done]). lia.
      * rewrite lookup_insert_ne by done. rewrite (IH rk x v Hx). split.
        -- intros (Hin & Hle & Hmax). split_and!; [by left|done|].
           intros x' v' Hx' [Hin'|(? & _ & _)] Hle'; [by eapply Hmax|congruence].
        -- intros ([Hin|(? & _ & _)] & Hle & Hmax); [|congruence]. split_and!; [done..|].
           intros x' v' Hx' Hin' Hle'. eapply Hmax; eauto.
Qed.

Lemma decode_row_value data : decode_row (row_value data) = Some data.
Proof. destruct data as [cols|]; simpl; [|done]. by rewrite row_json_roundtrip. Qed.

Lemma row_iterator (d : DB) s name kv :
  rows_rel (contents d) s →
  kv ∈ iterator_cf (db_rows_cf_name name) d ↔
  ∃ rk x data, kv = (row_version_key rk x, row_value data) ∧ db_versions s name !! (rk, x) = Some data.
Proof.
  intros Hrel. destruct kv as [key v]. rewrite iterator_law.
  fold (entry (contents d) (db_rows_cf_name name) key). rewrite (Hrel name key v).
  split; intros (rk & x & data & H1 & H2); exists rk, x, data.
  - destruct H2 as [H2 ->]. by rewrite H1.
  - by injection H1 as -> ->.
Qed.

(** The version of a row that a snapshot sees. *)
Definition visible_version (vs : row_versions) (rk : string) (snap : N) (data : option row) : Prop :=
  ∃ x, x <= snap ∧ vs !! (rk, x) = Some data ∧
       ∀ x' data', vs !! (rk, x') = Some data' → x' <= snap → x' <= x.

Lemma version_member (d : DB) s name rk x v :
  rows_rel (contents d) s → versions_ok s → x < u64_modulus →
  (row_version_key rk x, v) ∈ iterator_cf (db_rows_cf_name name) d ↔
  ∃ data, db_versions s name !! (rk, x) = Some data ∧ v = row_value data.
Proof.
  intros Hrel Hok Hx. rewrite (row_iterator d s name _ Hrel). split.
  - intros (rk' & x' & data & [= E ->] & Hv). destruct (Hok _ _ _ _ Hv) as [Hx' _].
    apply row_version_key_inj in E as [-> ->]; [|done..]. by exists data.
  - intros (data & Hv & ->). by exists rk, x, data.
Qed.

Lemma iterator_versions (d : DB) s name :
  rows_rel (contents d) s → versions_ok s →
  Forall version_entry (iterator_cf (db_rows_cf_name name) d).
Proof.
  intros Hrel Hok. apply Forall_forall. intros kv.
  intros (rk & x & data & -> & Hv)%(row_iterator d s name kv Hrel).
  destruct (Hok _ _ _ _ Hv). by exists rk, x.
Qed.

Lemma visible_rows (d : DB) s name snap rk x v :
  rows_rel (contents d) s → versions_ok s → x < u64_modulus →
  fold_left (visible_step snap) (iterator_cf (db_rows_cf_name name) d) ∅ !! rk = Some (x, v) ↔
  ∃ data, v = row_value data ∧ x <= snap ∧ db_versions s name !! (rk, x) = Some data ∧
    ∀ x' data', db_versions s name !! (rk, x') = Some data' → x' <= snap → x' <= x.
Proof.
  intros Hrel Hok Hx.
  rewrite visible_fold by (done || apply iterator_sorted || by eapply iterator_versions).
  rewrite (version_member d s name rk x v Hrel Hok Hx). split.
  - intros ((data & Hv & ->) & Hle & Hmax). exists data. split_and!; try done.
    intros x' data' Hv' Hle'. destruct (Hok _ _ _ _ Hv') as [Hx' _].
    apply (Hmax x' (row_value data')); [done| |done]. apply (version_member d s); eauto.
  - intros (data & -> & Hle & Hv & Hmax). split_and!; [by eauto|done|].
    intros x' v' Hx' Hin Hle'. apply (version_member d s) in Hin as (data' & Hv' & _); eauto.
Qed.

Lemma visible_bound (d : DB) s name snap rk x v :
  rows_rel (contents d) s → versions_ok s →
  fold_left (visible_step snap) (iterator_cf (db_rows_cf_name name) d) ∅ !! rk = Some (x, v) →
  x < u64_modulus.
Proof.
  intros Hrel Hok. pose proof (iterator_versions d s name Hrel Hok) as Hall. revert Hall x v.
  induction (iterator_cf (db_rows_cf_name name) d) as [|kv l IH] using rev_ind; intros Hall x v.
  - simpl. by rewrite lookup_empty.
  - apply Forall_app in Hall as [Hall Hlast]. rewrite Forall_singleton in Hlast.
    destruct Hlast as (rk0 & x0 & E & Hx0 & Hu0). specialize (IH Hall).
    rewrite fold_left_app. cbn [fold_left]. unfold visible_step at 1.
    rewrite E, (parse_row_version_key rk0 x0 Hx0 Hu0).
    destruct (snap <? x0); [apply IH|]. destruct (decide (rk0 = rk)) as [<-|].
    + rewrite lookup_insert_eq. by intros [= <- _].
    + rewrite lookup_insert_ne by done. apply IH.
Qed.

Lemma scan_rows_spec `{!MapOrder (N * string)} e s name snap rk cols :
  einv e s → rows_rel (contents (db e)) s → versions_ok s →
  (rk, cols) ∈ scan_rows_for_db name snap e ↔
  visible_version (db_versions s name) rk snap (Some cols).
Proof.
  intros Hinv Hrel Hok. unfold scan_rows_for_db.
  destruct (cf_handle (db_rows_cf_name name) (db e)) eqn:Hh; cbn [negb].
  - rewrite list_elem_of_omap. split.
    + intros ([rk' [x v]] & Hin & Hdec). apply elem_of_iter_map in Hin.
      assert (Hx := visible_bound _ s name snap rk' x v Hrel Hok Hin).
      apply (visible_rows _ s) in Hin as (data & -> & Hle & Hv & Hmax); try done.
      cbn [fst snd] in Hdec. rewrite decode_row_value in Hdec.
      destruct data as [cols'|]; [|done]. injection Hdec as -> ->. by exists x.
    + intros (x & Hle & Hv & Hmax). destruct (Hok _ _ _ _ Hv) as [Hx _].
      exists (rk, (x, row_value (Some cols))). split.
      * apply elem_of_iter_map, (visible_rows _ s); eauto 10.
      * cbn [fst snd]. by rewrite decode_row_value.
  - split; [by intros ?%not_elem_of_nil|]. intros (x & _ & Hv & _). exfalso.
    rewrite handle_law in Hh. apply bool_decide_eq_false in Hh. apply Hh.
    assert (entry (contents (db e)) (db_rows_cf_name name) (row_version_key rk x)
            = Some (row_value (Some cols))) as Hen by (apply Hrel; eauto 10).
    unfold entry in Hen. destruct (contents (db e) !! _) eqn:E; [by eexists|done].
Qed.

(** ** Point reads *)

(** A key past the prefix's range is past every key with the prefix. *)
Lemma past_prefix p k t :
  ¬ key_lt k p → Str.starts_with p k = false → key_lt (p +:+ t) k.
Proof.
  revert k. induction p as [|c p IH]; intros k Hge Hns.
  - exfalso. assert (Str.starts_with "" k = true) by (apply Str.starts_with_spec; by exists k). congruence.
  - destruct k as [|c' k]; [by exfalso; apply Hge|]. unfold key_lt in *. cbn [String.append String.compare] in *.
    destruct (Ascii.compare c' c) eqn:E.
    + apply Ascii.compare_eq_iff in E as ->.
      rewrite ascii_compare_N, N.compare_refl. apply IH; [done|].
      destruct (Str.starts_with p k) eqn:Hp; [|done]. apply Str.starts_with_spec in Hp as [u ->].
      assert (Str.starts_with (String c p) (String c (p +:+ u)) = true)
        by (apply Str.starts_with_spec; by exists u). congruence.
    + done.
    + by rewrite Ascii.compare_antisym, E.
Qed.

Definition candidate (prefix : string) (kv : string * string) : bool :=
  Str.starts_with prefix kv.1 && negb (Nat.ltb (String.length kv.1) (String.length prefix + 8)).

Definition better_of (best : option (N * string)) (kv : string * string) : option (N * string) :=
  let xid := from_be (tail_bytes 8 kv.1) in
  if (match best with Some (bx, _) => bx <? xid | None => true end) then Some (xid, kv.2) else best.

Lemma best_version_fold prefix best l :
  StronglySorted key_lt (map fst l) → Forall (fun kv => ¬ key_lt kv.1 prefix) l →
  best_version prefix best l
  = fold_left better_of (filter (fun kv => candidate prefix kv = true) l) best.
Proof.
  intros Hs Hge. revert best. induction l as [|[k v] l IH]; intros best; [done|].
  cbn [map fst] in Hs. inversion Hs as [|? ? Hs' Hall]; inversion Hge as [|? ? Hk Hge']; subst.
  cbn [best_version fst] in *.
  assert (Hcand : candidate prefix (k, v)
    = Str.starts_with prefix k && negb (Nat.ltb (String.length k) (String.length prefix + 8))) by done.
  destruct (Str.starts_with prefix k) eqn:Hp; cbn [negb andb] in *.
  - destruct (Nat.ltb _ _); cbn [negb] in *.
    + rewrite filter_cons_False by congruence. by apply IH.
    + rewrite filter_cons_True by done. by apply IH.
  - rewrite filter_cons_False by congruence. rewrite list_filter_none; [done|].
    intros [k' v'] Hin Hc. unfold candidate in Hc. apply andb_prop in Hc as [Hc _]. cbn [fst] in Hc.
    apply Str.starts_with_spec in Hc as [t ->]. rewrite List.Forall_forall in Hall.
    apply (key_lt_asym k (prefix +:+ t)); [|by apply past_prefix].
    apply Hall. apply (List.in_map fst l (prefix +:+ t, v')). by apply list_elem_of_In.
Qed.

Definition row_entry (rk : string) (kv : string * string) : Prop :=
  ∃ x, kv.1 = row_version_key rk x ∧ x < u64_modulus.

(** Ascending versions of one row: the last one wins. *)
Lemma best_is_last rk l :
  StronglySorted key_lt (map fst l) → Forall (row_entry rk) l →
  fold_left better_of l None
  = (fun kv => (from_be (tail_bytes 8 kv.1), kv.2)) <$> last l.
Proof.
  induction l as [|kv l IH] using rev_ind; intros Hs Hall; [done|].
  rewrite map_app in Hs. apply sorted_snoc in Hs as [Hs Hlt].
  apply Forall_app in Hall as [Hall Hkv]. rewrite Forall_singleton in Hkv.
  rewrite fold_left_app, last_snoc, IH by done. cbn [fold_left]. unfold better_of at 1.
  destruct (last l) as [kv'|] eqn:El; [|done]. cbn [fmap option_fmap option_map].
  assert (Hin : kv' ∈ l) by (by apply last_Some_elem_of).
  rewrite Forall_forall in Hall. destruct (Hall kv' Hin) as (x' & E' & Hx'), Hkv as (x & E & Hx).
  assert (Hl : key_lt kv'.1 kv.1).
  { apply Hlt. apply list_elem_of_fmap. eauto. }
  rewrite E, E' in Hl |- *. rewrite !xid_of_key by done. apply row_key_lt in Hl; [|done..].
  destruct (N.ltb_spec x' x); [done|lia].
Qed.

(** No other row key of the database continues [rk] after a separator. *)
Definition separator_free (vs : row_versions) (rk : string) : Prop :=
  ∀ rk' x data, vs !! (rk', x) = Some data → Str.starts_with (rk +:+ String SEP "") rk' = false.

Lemma app_split a b c d :
  a +:+ b = c +:+ d → (String.length c ≤ String.length a)%nat → ∃ u, a = c +:+ u ∧ d = u +:+ b.
Proof.
  revert a. induction c as [|x c IH]; intros a E Hl; [by exists a|].
  destruct a as [|y a]; simpl in *; [lia|]. injection E as -> E.
  destruct (IH a E) as (u & -> & ->); [lia|]. by exists u.
Qed.

Lemma candidate_key vs rk rk' x data :
  separator_free vs rk → vs !! (rk', x) = Some data →
  Str.starts_with (rk +:+ String SEP "") (row_version_key rk' x) = true →
  (String.length (rk +:+ String SEP "") + 8 ≤ String.length (row_version_key rk' x))%nat → rk' = rk.
Proof.
  intros Hfree Hv [t Ht]%Str.starts_with_spec Hlen. rewrite length_row_version_key in Hlen.
  rewrite Str.length_app_str in Hlen. cbn [String.length] in Hlen.
  unfold row_version_key in Ht. rewrite Str.app_assoc_str in Ht.
  apply app_split in Ht as (u & -> & Hu); [|lia]. destruct u as [|c u]; [apply Str.app_empty_r|].
  simpl in Hu. injection Hu as <- ->. exfalso.
  assert (Str.starts_with (rk +:+ String SEP "") (rk +:+ String SEP u) = true); [|by rewrite (Hfree _ _ _ Hv) in *].
  apply Str.starts_with_spec. exists u. by rewrite Str.app_assoc_str.
Qed.

Lemma version_candidate rk x :
  candidate (rk +:+ String SEP "") (row_version_key rk x, "") = true ∧
  ¬ key_lt (row_version_key rk x) (rk +:+ String SEP "").
Proof.
  split.
  - unfold candidate. cbn [fst]. rewrite length_row_version_key, Str.length_app_str. cbn [String.length].
    rewrite (proj2 (Str.starts_with_spec _ _)) by (exists (encode_u64 x); apply row_version_key_shape).
    destruct (Nat.ltb_spec (String.length rk + 9) (String.length rk + 1 + 8)); [lia|done].
  - unfold row_version_key, key_lt. rewrite compare_app. done.
Qed.

Definition row_candidates (name rk : string) (d : DB) : list (string * string) :=
  filter (fun kv => candidate (rk +:+ String SEP "") kv = true)
    (filter (fun kv => ¬ key_lt kv.1 (rk +:+ String SEP ""))
       (iterator_cf (db_rows_cf_name name) d)).

Lemma row_candidates_elem (d : DB) s name rk kv :
  rows_rel (contents d) s → separator_free (db_versions s name) rk →
  kv ∈ row_candidates name rk d ↔
  ∃ x data, kv = (row_version_key rk x, row_value data) ∧ db_versions s name !! (rk, x) = Some data.
Proof.
  intros Hrel Hfree. unfold row_candidates. rewrite !list_elem_of_filter, (row_iterator d s name kv Hrel).
  split.
  - intros (Hc & _ & rk' & x & data & -> & Hv). unfold candidate in Hc. cbn [fst] in Hc.
    apply andb_prop in Hc as [Hc Hl]. apply negb_true_iff, Nat.ltb_ge in Hl.
    pose proof (candidate_key _ rk rk' x data Hfree Hv Hc Hl) as ->. by exists x, data.
  - intros (x & data & -> & Hv). destruct (version_candidate rk x) as [Hc Hg].
    split_and!; [exact Hc|exact Hg|by exists rk, x, data].
Qed.

Lemma row_candidates_sorted name rk (d : DB) : StronglySorted key_lt (map fst (row_candidates name rk d)).
Proof.
  unfold row_candidates.
  apply sorted_keys_filter, sorted_keys_filter, iterator_sorted.
Qed.

Lemma get_row_last e s name rk :
  rows_rel (contents (db e)) s → versions_ok s → separator_free (db_versions s name) rk →
  get_row name rk e
  = match last (row_candidates name rk (db e)) with
    | Some kv => match decode_row kv.2 with Some (Some cols) => Some cols | _ => None end
    | None => None
    end.
Proof.
  intros Hrel Hok Hfree. unfold get_row.
  destruct (cf_handle (db_rows_cf_name name) (db e)) eqn:Hh; cbn [negb].
  - rewrite best_version_fold.
    + fold (row_candidates name rk (db e)). rewrite (best_is_last rk).
      * by destruct (last _).
      * apply row_candidates_sorted.
      * apply Forall_forall. intros kv (x & data & -> & Hv)%(row_candidates_elem _ s name rk kv Hrel Hfree).
        destruct (Hok _ _ _ _ Hv). by exists x.
    + apply sorted_keys_filter, iterator_sorted.
    + apply Forall_forall. intros kv Hkv. by apply list_elem_of_filter in Hkv as [? _].
  - destruct (last (row_candidates name rk (db e))) as [kv|] eqn:El; [|done]. exfalso.
    apply last_Some_elem_of in El. unfold row_candidates in El.
    apply list_elem_of_filter in El as [_ El]. apply list_elem_of_filter in El as [_ El].
    destruct kv as [k v]. apply iterator_law in El. rewrite handle_law in Hh.
    apply bool_decide_eq_false in Hh. apply Hh. destruct (contents (db e) !! _); [by eexists|done].
Qed.

Lemma get_row_spec e s name rk cols :
  rows_rel (contents (db e)) s → versions_ok s → separator_free (db_versions s name) rk →
  get_row name rk e = Some cols ↔ visible_version (db_versions s name) rk u64_max (Some cols).
Proof.
  intros Hrel Hok Hfree. rewrite (get_row_last e s name rk Hrel Hok Hfree).
  pose proof (fun kv => row_candidates_elem (db e) s name rk kv Hrel Hfree) as Helem.
  assert (Hmax : ∀ kv x, last (row_candidates name rk (db e)) = Some kv →
     kv.1 = row_version_key rk x → x < u64_modulus →
     ∀ x' data', db_versions s name !! (rk, x') = Some data' → x' <= x).
  { intros kv x Hl E Hx x' data' Hv'. destruct (Hok _ _ _ _ Hv') as [Hx' _].
    assert (Hin : (row_version_key rk x', row_value data') ∈ row_candidates name rk (db e))
      by (apply Helem; eauto).
    destruct (sorted_last_max _ _ _ (row_candidates_sorted name rk (db e)) Hl Hin) as [Heq|Hlt].
    - rewrite <-Heq in E. apply row_version_key_inj in E as [_ ->]; [lia|done..].
    - rewrite E in Hlt. cbn [fst] in Hlt. apply row_key_lt in Hlt; [lia|done..]. }
  split.
  - destruct (last (row_candidates name rk (db e))) as [kv|] eqn:El; [|done]. intros Hdec.
    pose proof El as Hin%last_Some_elem_of. apply Helem in Hin as (x & data & -> & Hv).
    cbn [snd] in Hdec. rewrite decode_row_value in Hdec. destruct data as [cols'|]; [|done].
    injection Hdec as ->. destruct (Hok _ _ _ _ Hv) as [Hx _].
    exists x. split_and!; [u64|done|]. intros x' data' Hv' _. by eapply (Hmax _ x).
  - intros (x & _ & Hv & Hxm). destruct (Hok _ _ _ _ Hv) as [Hx _].
    assert (Hin : (row_version_key rk x, row_value (Some cols)) ∈ row_candidates name rk (db e))
      by (apply Helem; eauto).
    destruct (last (row_candidates name rk (db e))) as [kv|] eqn:El.
    + pose proof El as Hlin%last_Some_elem_of. apply Helem in Hlin as (x1 & data1 & -> & Hv1).
      destruct (Hok _ _ _ _ Hv1) as [Hx1 _].
      assert (x1 <= x) by (eapply Hxm; [exact Hv1|u64]).
      assert (x <= x1) by (eapply (Hmax _ x1); [done|reflexivity|done|exact Hv]).
      assert (x1 = x) as -> by lia. rewrite Hv in Hv1. injection Hv1 as <-.
      cbn [snd]. by rewrite decode_row_value.
    + apply last_None in El. rewrite El in Hin. by apply not_elem_of_nil in Hin.
Qed.

End Rows.

(** ** Properties *)

Section RowReads.
Context {DB : Type} {KS : KvStore DB} {KL : KvLaws DB} {HK : HealthyKv DB}.
Context {SJ : SerdeJson} {SL : SerdeLaws} {MO : MapOrder (N * string)}.

(** A row scan is a snapshot.  After any sequence of operations, scanning a
    database at a transaction id returns a row exactly when the last version of
    it written at or below that id (by transaction id, over the life of the
    database's family) is not a tombstone, with the columns of that version. *)
Theorem row_scan_is_snapshot (env : option string) (cfg : DurabilityConfig) (d0 : DB)
    (ops : list rocks_op) :
  history d0 = [] → Forall op_ok ops → N.of_nat (ops_size ops) < u64_modulus →
  ∃ e0 e, open env cfg d0 = Ok e0 ∧ run ops e0 = Some e ∧
  ∀ name snap rk cols,
    (rk, cols) ∈ scan_rows_for_db name snap e ↔
    visible_version (db_versions (spec_run ops) name) rk snap (Some cols).
Proof.
  intros Hd0 Hok Hsz.
  destruct (open_fresh_rows env cfg d0 Hd0) as (e0 & Ho & Hinv0 & Hc0 & Hr0).
  destruct (run_rows ops e0 Hinv0 Hc0 Hok Hsz Hr0) as (e & Hrun & Hinv & Hrel & Hv).
  exists e0, e. split_and!; [done..|]. intros name snap rk cols. by apply scan_rows_spec.
Qed.

(** A point read is the latest version.  After any sequence of operations,
    reading one row returns the columns of its version with the highest
    transaction id, and nothing when that version is a tombstone or there is
    none, provided no other row key of the database continues the key after the
    separator byte. *)
Theorem point_read_is_latest (env : option string) (cfg : DurabilityConfig) (d0 : DB)
    (ops : list rocks_op) :
  history d0 = [] → Forall op_ok ops → N.of_nat (ops_size ops) < u64_modulus →
  ∃ e0 e, open env cfg d0 = Ok e0 ∧ run ops e0 = Some e ∧
  ∀ name rk cols, separator_free (db_versions (spec_run ops) name) rk →
    get_row name rk e = Some cols ↔
    visible_version (db_versions (spec_run ops) name) rk u64_max (Some cols).
Proof.
  intros Hd0 Hok Hsz.
  destruct (open_fresh_rows env cfg d0 Hd0) as (e0 & Ho & Hinv0 & Hc0 & Hr0).
  destruct (run_rows ops e0 Hinv0 Hc0 Hok Hsz Hr0) as (e & Hrun & Hinv & Hrel & Hv).
  exists e0, e. split_and!; [done..|]. intros name rk cols Hf. by apply get_row_spec.
Qed.

End RowReads.

Definition row_ops : list rocks_op :=
  [OStore "db" "t:1" 5 (Some {["v" := "a"]}); OStore "db" "t:1" 9 None;
   OStore "db" "t:1" 7 (Some {["v" := "b"]}); OStore "other" "t:1" 8 (Some {["v" := "c"]});
   OStore "db" "t:2" 3 (Some {["v" := "d"]})].

Lemma row_ops_ok : Forall op_ok row_ops.
Proof. unfold row_ops. repeat (constructor; [by repeat split|]). constructor. Qed.

Lemma row_scan_is_snapshot_witness :
  let KS := log_store healthy in let SJ := demo_json in
  let MO : MapOrder (N * string) := canonical_order in
  ∃ (e0 e : Engine LogStore),
    open None default_config (mkLog [] 0) = Ok e0 ∧ run row_ops e0 = Some e ∧
    ("t:1", {["v" := "b"]}) ∈ scan_rows_for_db "db" 8 e.
Proof.
  intros KS SJ MO.
  destruct (@row_scan_is_snapshot LogStore KS (log_laws healthy) log_store_healthy SJ demo_json_laws
              MO None default_config (mkLog [] 0) row_ops eq_refl row_ops_ok
              ltac:(vm_compute; reflexivity)) as (e0 & e & Ho & Hr & Hs).
  exists e0, e. split_and!; [exact Ho|exact Hr|]. apply Hs. exists 7. split_and!; [done|reflexivity|].
  intros x' data' Hv Hle. destruct (decide (x' <= 7)) as [|Hgt]; [done|exfalso].
  assert (x' = 8) as -> by lia. vm_compute in Hv. discriminate Hv.
Defined.

Lemma versions_of_row_ops rk x data :
  db_versions (spec_run row_ops) "db" !! (rk, x) = Some data →
  rk = "t:1" ∧ x <= 9 ∨ rk = "t:2" ∧ x <= 3.
Proof.
  assert (Hall : map_Forall (fun (p : string * N) (_ : option row) =>
            p.1 = "t:1" ∧ p.2 <= 9 ∨ p.1 = "t:2" ∧ p.2 <= 3) (db_versions (spec_run row_ops) "db")).
  { apply (bool_decide_unpack _). vm_compute. exact I. }
  apply (Hall (rk, x)).
Qed.

Lemma point_read_is_latest_witness :
  let KS := log_store healthy in let SJ := demo_json in
  ∃ (e0 e : Engine LogStore),
    open None default_config (mkLog [] 0) = Ok e0 ∧ run row_ops e0 = Some e ∧
    get_row "db" "t:1" e = None ∧ get_row "db" "t:2" e = Some {["v" := "d"]}.
Proof.
  intros KS SJ.
  destruct (@point_read_is_latest LogStore KS (log_laws healthy) log_store_healthy SJ demo_json_laws
              None default_config (mkLog [] 0) row_ops eq_refl row_ops_ok
              ltac:(vm_compute; reflexivity)) as (e0 & e & Ho & Hr & Hs).
  assert (Hfree : ∀ rk, rk = "t:1" ∨ rk = "t:2" → separator_free (db_versions (spec_run row_ops) "db") rk).
  { intros rk Hrk rk' x data Hv. destruct (versions_of_row_ops _ _ _ Hv) as [[-> _]|[-> _]];
      destruct Hrk as [->| ->]; reflexivity. }
  exists e0, e. split_and!; [exact Ho|exact Hr| |].
  - destruct (get_row "db" "t:1" e) as [cols|] eqn:E; [exfalso|done].
    apply Hs in E as (x & _ & Hv & Hmax); [|by apply Hfree; left].
    assert (x = 9) as ->.
    { destruct (versions_of_row_ops _ _ _ Hv) as [[_ Hx]|[? _]]; [|done].
      assert (9 <= x) by (apply (Hmax 9 None); [reflexivity|vm_compute; done]). lia. }
    vm_compute in Hv. discriminate Hv.
  - apply Hs; [by apply Hfree; right|]. exists 3. split_and!; [done|reflexivity|].
    intros x' data' Hv _. by destruct (versions_of_row_ops _ _ _ Hv) as [[? _]|[_ ?]].
Defined.

(** Without the proviso a point read can return another row: a key that
    continues the requested one after the separator is found under its prefix. *)
Definition point_read_of (ops : list rocks_op) (rk : string) : option (option row) :=
  let KS := log_store healthy in let SJ := demo_json in
  match @open LogStore KS SJ None default_config (mkLog [] 0) with
  | Ok e0 => match run ops e0 with Some e => Some (get_row "db" rk e) | None => None end
  | Err _ => None
  end.

Lemma point_read_sees_longer_key :
  point_read_of [OStore "db" "a" 1 None;
                 OStore "db" ("a" +:+ String SEP "b") 2 (Some {["v" := "x"]})] "a"
  = Some (Some {["v" := "x"]}).
Proof. vm_compute. reflexivity. Qed.
