(* ===== verification/PgWire.v ===== *)
(** * The PostgreSQL wire protocol
      ([services/voltnuerongridd/src/helpers/pg_wire.rs],
       [helpers/pg_listener.rs])

    The message codec and the connection handler that drives it.  Buffers are
    byte strings; an [i32] read from the wire is kept as its unsigned 32-bit
    pattern and sign-extended where the source casts it to [usize].  The SQL
    engine behind [run_query_and_encode], the rendering of JSON numbers and the
    process id are parameters. *)

From S2P Require Import Prelude Str Decimal Bytes SqlKind.
From Stdlib Require Import Ascii.
Local Open Scope string_scope.
Local Open Scope list_scope.
Local Open Scope N_scope.
Local Open Scope vng_scope.

Import Bytes.

Module PgWire.

Definition PROTOCOL_VERSION_3 : N := 196608.
Definition SSL_REQUEST_CODE : N := 80877103.

Inductive TransactionStatus := Idle | InTransaction | Failed.

Definition status_byte (s : TransactionStatus) : ascii :=
  match s with Idle => "I"%char | InTransaction => "T"%char | Failed => "E"%char end.

Record StartupMessage := mkStartup {
  protocol_version : N;
  parameters : list (string * string);
}.

Definition get (k : string) (m : StartupMessage) : option string :=
  snd <$> List.find (fun kv => String.eqb kv.1 k) (parameters m).

Inductive StartupDecode :=
| Startup (m : StartupMessage)
| SslRequest
| Incomplete.

Inductive FrontendMessage :=
| Query (sql : string)
| Password (p : string)
| Terminate
| Other (tag : ascii).

(** [i32 as usize] *)
Definition i32_as_usize (v : N) : N :=
  if v <? 2147483648 then v else v + u64_modulus - 4294967296.

Fixpoint take_bytes (n : nat) (s : string) : string :=
  match n, s with
  | S n', String c s' => String c (take_bytes n' s')
  | _, _ => EmptyString
  end.

Fixpoint drop_bytes (n : nat) (s : string) : string :=
  match n, s with
  | S n', String _ s' => drop_bytes n' s'
  | _, _ => s
  end.

(** [&s[a..b]]; [None] when [a > b] or [b] is past the end. *)
Definition slice (a b : N) (s : string) : option string :=
  if (a <=? b) && (b <=? N.of_nat (String.length s))
  then Some (take_bytes (N.to_nat (b - a)) (drop_bytes (N.to_nat a) s)) else None.

Definition NUL : string := String (ascii_of_N 0) EmptyString.

(** The big-endian [i32] at an offset, as its bit pattern. *)
Definition read_i32 (off : nat) (s : string) : N := from_be (take_bytes 4 (drop_bytes off s)).

(** [String::from_utf8_lossy]: every maximal invalid sequence becomes U+FFFD. *)
Definition REPLACEMENT : string := Str.of_bytes [239; 191; 189].

Definition second_of_three (a b : ascii) : bool :=
  between 224 224 a && between 160 191 b || between 225 236 a && cont_byte b
  || between 237 237 a && between 128 159 b || between 238 239 a && cont_byte b.

Definition second_of_four (a b : ascii) : bool :=
  between 240 240 a && between 144 191 b || between 241 243 a && cont_byte b
  || between 244 244 a && between 128 143 b.

Fixpoint from_utf8_lossy (s : string) : string :=
  match s with
  | EmptyString => EmptyString
  | String a s1 =>
      if between 0 127 a then String a (from_utf8_lossy s1)
      else match s1 with
      | EmptyString => REPLACEMENT
      | String b s2 =>
          if between 194 223 a && cont_byte b then String a (String b (from_utf8_lossy s2))
          else if second_of_three a b then
            match s2 with
            | String c s3 =>
                if cont_byte c then String a (String b (String c (from_utf8_lossy s3)))
                else REPLACEMENT +:+ from_utf8_lossy s2
            | EmptyString => REPLACEMENT
            end
          else if second_of_four a b then
            match s2 with
            | String c s3 =>
                if cont_byte c then
                  match s3 with
                  | String d s4 =>
                      if cont_byte d
                      then String a (String b (String c (String d (from_utf8_lossy s4))))
                      else REPLACEMENT +:+ from_utf8_lossy s3
                  | EmptyString => REPLACEMENT
                  end
                else REPLACEMENT +:+ from_utf8_lossy s2
            | EmptyString => REPLACEMENT
            end
          else REPLACEMENT +:+ from_utf8_lossy s1
      end
  end.

(** ** Decoding *)

(** The key/value loop of [decode_startup]; every turn consumes a byte. *)
Fixpoint decode_params (fuel : nat) (body : string) : result (list (string * string)) string :=
  match fuel with
  | O => Ok []
  | S fuel' =>
      match Str.split_once NUL body with
      | None => Ok []
      | Some (k, rest) =>
          let key := from_utf8_lossy k in
          if String.eqb key EmptyString then Ok []
          else match Str.split_once NUL rest with
               | None => Err "startup parameter value not NUL-terminated"
               | Some (v, rest') =>
                   let? ps := decode_params fuel' rest' in
                   Ok ((key, from_utf8_lossy v) :: ps)
               end
      end
  end.

Definition decode_startup (buf : string) : result StartupDecode string :=
  if Nat.ltb (String.length buf) 4 then Ok Incomplete else
  let len := i32_as_usize (read_i32 0 buf) in
  if len <? 8 then Err ("startup length too small: " +:+ Dec.to_string len) else
  if N.of_nat (String.length buf) <? len then Ok Incomplete else
  let code := read_i32 4 buf in
  if code =? SSL_REQUEST_CODE then Ok SslRequest else
  let body := take_bytes (N.to_nat len - 8) (drop_bytes 8 buf) in
  let? ps := decode_params (S (String.length body)) body in
  Ok (Startup (mkStartup code ps)).

(** [body.iter().position(|&b| b == 0).unwrap_or(body.len())] *)
Definition until_nul (body : string) : string :=
  match Str.split_once NUL body with Some (a, _) => a | None => body end.

(** [None] is a panic: [1 + len] wraps when the length is [-1], and the slice
    [5..0] is out of order. *)
Definition decode_frontend_message (buf : string)
    : option (result (option (FrontendMessage * N)) string) :=
  match buf with
  | String tag rest =>
      if Nat.ltb (String.length buf) 5 then Some (Ok None) else
      let len := i32_as_usize (read_i32 1 buf) in
      if len <? 4 then Some (Err ("frontend message length too small: " +:+ Dec.to_string len)) else
      let total := u64_add 1 len in
      if N.of_nat (String.length buf) <? total then Some (Ok None) else
      let! body := slice 5 total buf in
      let msg :=
        if Ascii.eqb tag "Q" then Query (from_utf8_lossy (until_nul body))
        else if Ascii.eqb tag "p" then Password (from_utf8_lossy (until_nul body))
        else if Ascii.eqb tag "X" then Terminate
        else Other tag in
      Some (Ok (Some (msg, total)))
  | EmptyString => Some (Ok None)
  end.

(** ** Encoding *)

(** A non-negative length cast to [i32] or [i16], and the constant [-1]. *)
Definition put_i32 (v : N) : string := be 4 v.
Definition put_i16 (v : N) : string := be 2 v.
Definition MINUS_ONE_32 : N := 4294967295.
Definition MINUS_ONE_16 : N := 65535.

Definition put_cstr (s : string) : string := s +:+ NUL.

Definition frame (tag : ascii) (payload : string) : string :=
  String tag (put_i32 (N.of_nat (String.length payload) + 4)) +:+ payload.

Definition encode_authentication_ok : string := frame "R" (put_i32 0).
Definition encode_authentication_cleartext_password : string := frame "R" (put_i32 3).
Definition encode_parameter_status (key value : string) : string :=
  frame "S" (put_cstr key +:+ put_cstr value).
Definition encode_backend_key_data (process_id secret_key : N) : string :=
  frame "K" (put_i32 process_id +:+ put_i32 secret_key).
Definition encode_ready_for_query (s : TransactionStatus) : string :=
  frame "Z" (String (status_byte s) EmptyString).

Record FieldDescription := mkField { name : string; type_oid : N }.

Definition text_field (n : string) : FieldDescription := mkField n 25.

Definition encode_field (f : FieldDescription) : string :=
  put_cstr (name f) +:+ put_i32 0 +:+ put_i16 0 +:+ put_i32 (type_oid f)
  +:+ put_i16 MINUS_ONE_16 +:+ put_i32 MINUS_ONE_32 +:+ put_i16 0.

Definition encode_row_description (fields : list FieldDescription) : string :=
  frame "T" (put_i16 (N.of_nat (length fields)) +:+ String.concat "" (map encode_field fields)).

Definition encode_cell (c : option string) : string :=
  match c with
  | Some s => put_i32 (N.of_nat (String.length s)) +:+ s
  | None => put_i32 MINUS_ONE_32
  end.

Definition encode_data_row (cells : list (option string)) : string :=
  frame "D" (put_i16 (N.of_nat (length cells)) +:+ String.concat "" (map encode_cell cells)).

Definition encode_command_complete (tag : string) : string := frame "C" (put_cstr tag).

Definition encode_error_response (sqlstate message : string) : string :=
  frame "E" (String "S" (put_cstr "ERROR") +:+ String "C" (put_cstr sqlstate)
             +:+ String "M" (put_cstr message) +:+ NUL).

Definition encode_empty_query_response : string := frame "I" EmptyString.

Definition upper_start (sql : string) : string := Str.to_ascii_uppercase (Str.trim_start sql).

Definition starts_with_any (ps : list string) (s : string) : bool :=
  existsb (fun p => Str.starts_with p s) ps.

Definition command_tag (sql : string) (row_count : nat) : string :=
  let upper := upper_start sql in
  let n := Dec.to_string (N.of_nat row_count) in
  if Str.starts_with "SELECT" upper then "SELECT " +:+ n
  else if Str.starts_with "INSERT" upper then "INSERT 0 " +:+ n
  else if Str.starts_with "UPDATE" upper then "UPDATE " +:+ n
  else if Str.starts_with "DELETE" upper then "DELETE " +:+ n
  else if Str.starts_with "CREATE" upper then "CREATE"
  else if Str.starts_with "DROP" upper then "DROP"
  else if starts_with_any ["BEGIN"; "START"] upper then "BEGIN"
  else if Str.starts_with "COMMIT" upper then "COMMIT"
  else if Str.starts_with "ROLLBACK" upper then "ROLLBACK"
  else match SqlKind.split_whitespace upper with w :: _ => w | [] => "OK" end.

End PgWire.

(** ** The connection *)

Module PgListener.
Import PgWire.

(** [serde_json::Value]; numbers are kept as text, objects in iteration order. *)
Inductive json :=
| JNull
| JBool (b : bool)
| JNum (text : string)
| JStr (s : string)
| JArr (l : list json)
| JObj (l : list (string * json)).

(** The two response fields that the wire encoding reads. *)
Record SqlExecuteResponse := mkResponse {
  columns : option (list json);
  rows : option (list json);
}.

(** A failed request: the HTTP status and the reason. *)
Record ApiError := mkApiError { code : N; reason : string }.

(** What lies behind the connection: the SQL engine, with its own state, and
    [Value::to_string]. *)
Class PgBackend (St : Type) := {
  sql_execute : St -> string -> option string -> option string -> St * result SqlExecuteResponse ApiError;
  value_to_string : json -> string;
  process_id : N;
}.

Definition next_tx_status (current : TransactionStatus) (sql : string) (ok : bool)
    : TransactionStatus :=
  let upper := upper_start sql in
  if negb ok then match current with Idle => Idle | _ => Failed end
  else if starts_with_any ["BEGIN"; "START TRANSACTION"] upper then InTransaction
  else if starts_with_any ["COMMIT"; "ROLLBACK"; "END"] upper then Idle
  else current.

Definition as_str (v : json) : option string := match v with JStr s => Some s | _ => None end.

Definition obj_get (k : string) (v : json) : option json :=
  match v with
  | JObj l => snd <$> List.find (fun kv => String.eqb kv.1 k) l
  | _ => None
  end.

Definition column_name (c : json) : string :=
  match as_str c with
  | Some s => s
  | None => match obj_get "name" c ≫= as_str with Some s => s | None => "?column?" end
  end.

Section Connection.
Context {St : Type} `{!PgBackend St}.

Definition json_cell_to_text (v : json) : option string :=
  match v with
  | JNull => None
  | JStr s => Some s
  | _ => Some (value_to_string v)
  end.

(** One turn of the row loop; the first row may name the columns. *)
Definition row_step (acc : list string * list (list (option string))) (row : json)
    : list string * list (list (option string)) :=
  let '(names, out) := acc in
  match row with
  | JArr arr =>
      let names := match names with
                   | [] => map (fun i => "column" +:+ Dec.to_string (N.of_nat i)) (seq 0 (length arr))
                   | _ => names
                   end in
      (names, out ++ [map json_cell_to_text arr])
  | JObj l =>
      let names := match names with [] => map fst l | _ => names end in
      (names, out ++ [map (fun k => json_cell_to_text (default JNull (obj_get k row))) names])
  | _ =>
      let names := match names with [] => ["value"] | _ => names end in
      (names, out ++ [[json_cell_to_text row]])
  end.

Definition extract_columns_and_rows (resp : SqlExecuteResponse)
    : list FieldDescription * list (list (option string)) :=
  let names := map column_name (default [] (columns resp)) in
  let '(names, out) := fold_left row_step (default [] (rows resp)) (names, []) in
  (map text_field names, out).

Definition encode_success (sql : string) (resp : SqlExecuteResponse) (tx : TransactionStatus)
    : string :=
  let '(fields, data_rows) := extract_columns_and_rows resp in
  let body := match fields with
              | [] => EmptyString
              | _ => encode_row_description fields
                     +:+ String.concat "" (map encode_data_row data_rows)
              end in
  body +:+ encode_command_complete (command_tag sql (length data_rows))
  +:+ encode_ready_for_query tx.

Definition run_query_and_encode (st : St) (sql : string) (database admin_key : option string)
    (tx : TransactionStatus) : St * string * TransactionStatus :=
  if String.eqb (Str.trim sql) EmptyString
  then (st, encode_empty_query_response +:+ encode_ready_for_query tx, tx)
  else
    match sql_execute st sql database admin_key with
    | (st', Ok resp) =>
        let next := next_tx_status tx sql true in (st', encode_success sql resp next, next)
    | (st', Err err) =>
        let next := next_tx_status tx sql false in
        (st', encode_error_response "42000" (Dec.to_string (code err) +:+ ": " +:+ reason err)
              +:+ encode_ready_for_query next, next)
    end.

(** Where the handler is in its three loops, or how it ended. *)
Inductive Phase :=
| AwaitStartup
| AwaitPassword (expected : string) (database : option string)
| Serving (database : option string)
| Ended (r : result unit string)
| Panicked.

Record Session := mkSession {
  phase : Phase;
  buf : string;
  out : string;
  tx_status : TransactionStatus;
  engine : St;
  executed : list string;
}.

Definition hello : string :=
  encode_authentication_ok
  +:+ encode_parameter_status "server_version" "14.0 (VoltNueronGrid)"
  +:+ encode_parameter_status "client_encoding" "UTF8"
  +:+ encode_parameter_status "DateStyle" "ISO, MDY"
  +:+ encode_backend_key_data process_id 0
  +:+ encode_ready_for_query Idle.

Definition goto (p : Phase) (s : Session) : Session :=
  mkSession p (buf s) (out s) (tx_status s) (engine s) (executed s).

Definition consume (n : N) (s : Session) : Session :=
  mkSession (phase s) (drop_bytes (N.to_nat n) (buf s)) (out s) (tx_status s) (engine s) (executed s).

Definition reply (o : string) (s : Session) : Session :=
  mkSession (phase s) (buf s) (out s +:+ o) (tx_status s) (engine s) (executed s).

(** [format!("{}", v)] for an [i32] kept as its bit pattern. *)
Definition show_i32 (v : N) : string :=
  if v <? 2147483648 then Dec.to_string v else "-" +:+ Dec.to_string (4294967296 - v).

(** The startup message has been decoded. *)
Definition after_startup (admin_key : option string) (m : StartupMessage) (s : Session) : Session :=
  let s := consume (i32_as_usize (read_i32 0 (buf s))) s in
  if negb (protocol_version m =? PROTOCOL_VERSION_3) then
    goto (Ended (Ok tt))
      (reply (encode_error_response "0A000"
                ("unsupported protocol version " +:+ show_i32 (protocol_version m))) s)
  else
    let database := get "database" m in
    match admin_key with
    | Some expected =>
        goto (AwaitPassword expected database) (reply encode_authentication_cleartext_password s)
    | None => goto (Serving database) (reply hello s)
    end.

(** One message of the password loop. *)
Definition auth_message (expected : string) (database : option string) (m : FrontendMessage)
    (s : Session) : Session :=
  match m with
  | Password p =>
      if String.eqb p expected then goto (Serving database) (reply hello s)
      else goto (Ended (Ok tt)) (reply (encode_error_response "28P01" "password authentication failed") s)
  | Terminate => goto (Ended (Ok tt)) s
  | _ => s
  end.

(** One message of the query loop. *)
Definition serve_message (admin_key database : option string) (m : FrontendMessage) (s : Session)
    : Session :=
  match m with
  | Terminate => goto (Ended (Ok tt)) s
  | Query sql =>
      let '(st', response, next) := run_query_and_encode (engine s) sql database admin_key (tx_status s) in
      mkSession (phase s) (buf s) (out s +:+ response) next st'
        (if String.eqb (Str.trim sql) EmptyString then executed s else executed s ++ [sql])
  | _ => reply (encode_ready_for_query (tx_status s)) s
  end.

(** What the handler does with the bytes it has; [None] when it must read. *)
Definition advance (admin_key : option string) (s : Session) : option Session :=
  match phase s with
  | AwaitStartup =>
      match decode_startup (buf s) with
      | Err e => Some (goto (Ended (Err e)) s)
      | Ok Incomplete => None
      | Ok SslRequest => Some (consume 8 (reply "N" s))
      | Ok (Startup m) => Some (after_startup admin_key m s)
      end
  | AwaitPassword expected database =>
      match decode_frontend_message (buf s) with
      | None => Some (goto Panicked s)
      | Some (Err e) => Some (goto (Ended (Err e)) s)
      | Some (Ok None) => None
      | Some (Ok (Some (m, consumed))) => Some (auth_message expected database m (consume consumed s))
      end
  | Serving database =>
      match decode_frontend_message (buf s) with
      | None => Some (goto Panicked s)
      | Some (Err e) => Some (goto (Ended (Err e)) s)
      | Some (Ok None) => None
      | Some (Ok (Some (m, consumed))) => Some (serve_message admin_key database m (consume consumed s))
      end
  | Ended _ | Panicked => None
  end.

(** Every turn consumes at least four bytes or ends the session. *)
Fixpoint drain (fuel : nat) (admin_key : option string) (s : Session) : Session :=
  match fuel with
  | O => s
  | S fuel' => match advance admin_key s with Some s' => drain fuel' admin_key s' | None => s end
  end.

Definition fuel_for (s : Session) : nat := S (String.length (buf s)).

Definition settle (admin_key : option string) (s : Session) : Session :=
  drain (fuel_for s) admin_key s.

(** [socket.read] returned a chunk. *)
Definition receive (chunk : string) (s : Session) : Session :=
  mkSession (phase s) (buf s +:+ chunk) (out s) (tx_status s) (engine s) (executed s).

(** [socket.read] returned zero bytes. *)
Definition disconnect (s : Session) : Session :=
  match phase s with
  | AwaitStartup => goto (Ended (Err "connection closed during startup")) s
  | AwaitPassword _ _ => goto (Ended (Err "connection closed during auth")) s
  | Serving _ => goto (Ended (Ok tt)) s
  | _ => s
  end.

Definition start (st : St) : Session := mkSession AwaitStartup EmptyString EmptyString Idle st [].

(** One [socket.read]. *)
Definition read_chunk (admin_key : option string) (s : Session) (chunk : string) : Session :=
  if String.eqb chunk EmptyString then disconnect s else settle admin_key (receive chunk s).

(** The whole connection: the chunks the socket delivers, then its end. *)
Definition handle_pg_connection (admin_key : option string) (chunks : list string) (st : St)
    : Session :=
  disconnect (fold_left (read_chunk admin_key) chunks (settle admin_key (start st))).

End Connection.
End PgListener.
