(* ===== verification/PgWireProps.v ===== *)
(** * Properties of the PostgreSQL wire protocol

    The codec's round trips and error behaviour, and the connection handler:
    what a session does depends only on the bytes sent, never on how they are
    cut into reads; no statement runs before the password; pipelined queries run
    in order. *)

From S2P Require Import Prelude Str Decimal Bytes SqlKind PgWire.
From Stdlib Require Import Ascii.
Local Open Scope string_scope.
Local Open Scope list_scope.
Local Open Scope N_scope.

Import Bytes PgWire PgListener.

#[local] Arguments String.append !_ _ / : simpl nomatch.
#[local] Arguments be : simpl never.
#[local] Arguments N.of_nat : simpl never.
#[local] Arguments read_i32 : simpl never.

(** ** Byte strings *)

Lemma take_bytes_app n a b : (n ≤ String.length a)%nat → take_bytes n (a +:+ b) = take_bytes n a.
Proof.
  revert a. induction n as [|n IH]; intros [|c a] Hn; simpl in *; try done; [lia|].
  f_equal. apply IH. lia.
Qed.

Lemma drop_bytes_app n a b : (n ≤ String.length a)%nat → drop_bytes n (a +:+ b) = drop_bytes n a +:+ b.
Proof.
  revert a. induction n as [|n IH]; intros [|c a] Hn; simpl in *; try done; [lia|]. apply IH. lia.
Qed.

Lemma take_bytes_exact a b : take_bytes (String.length a) (a +:+ b) = a.
Proof. induction a as [|c a IH]; simpl; [by destruct b|]. by rewrite IH. Qed.

Lemma drop_bytes_exact a b : drop_bytes (String.length a) (a +:+ b) = b.
Proof. induction a as [|c a IH]; simpl; [by destruct b|done]. Qed.

Lemma length_drop_bytes n s : String.length (drop_bytes n s) = (String.length s - n)%nat.
Proof. revert s. induction n as [|n IH]; intros [|c s]; simpl; auto. Qed.

Lemma drop_bytes_add n m s : drop_bytes n (drop_bytes m s) = drop_bytes (m + n) s.
Proof.
  revert s. induction m as [|m IH]; intros s; simpl; [done|]. destruct s; [by destruct n|apply IH].
Qed.

Lemma read_i32_app off a b :
  (off + 4 ≤ String.length a)%nat → read_i32 off (a +:+ b) = read_i32 off a.
Proof.
  intros Hl. unfold read_i32. rewrite drop_bytes_app by lia.
  rewrite take_bytes_app; [done|]. rewrite length_drop_bytes. lia.
Qed.

Lemma read_i32_be pre v rest :
  v < 4294967296 → read_i32 (String.length pre) (pre +:+ be 4 v +:+ rest) = v.
Proof.
  intros Hv. unfold read_i32. rewrite drop_bytes_exact.
  rewrite <-(length_be 4 v) at 1. rewrite take_bytes_exact. by apply from_be_be.
Qed.

Lemma slice_app a b s t : b <= N.of_nat (String.length s) → slice a b (s +:+ t) = slice a b s.
Proof.
  intros Hb. unfold slice. rewrite Str.length_app_str.
  assert (b <=? N.of_nat (String.length s + String.length t) = true) as -> by (apply N.leb_le; lia).
  assert (b <=? N.of_nat (String.length s) = true) as -> by (by apply N.leb_le).
  destruct (N.leb_spec a b); simpl; [|done]. f_equal.
  rewrite drop_bytes_app by lia. apply take_bytes_app. rewrite length_drop_bytes. lia.
Qed.

Lemma i32_small v : v < 2147483648 → i32_as_usize v = v.
Proof. intros Hv. unfold i32_as_usize. by destruct (N.ltb_spec v 2147483648); [|lia]. Qed.

(** ** UTF-8 and NUL-terminated text *)

Lemma lossy_valid s : valid_utf8 s = true → from_utf8_lossy s = s.
Proof.
  remember (String.length s) as n eqn:Hn. revert s Hn.
  induction (lt_wf n) as [n _ IH]. intros s -> Hv.
  assert (IH' : ∀ t, (String.length t < String.length s)%nat → valid_utf8 t = true → from_utf8_lossy t = t)
    by (intros t Ht Hvt; by eapply IH). clear IH.
  destruct s as [|a s1]; [done|]. cbn [valid_utf8 from_utf8_lossy] in *.
  destruct (between 0 127 a); [rewrite IH'; simpl; auto|].
  destruct s1 as [|b s2]; [done|].
  destruct (between 194 223 a) eqn:E2.
  { apply andb_prop in Hv as [Hc Hv]. rewrite Hc. simpl. rewrite IH'; simpl; auto. }
  cbn [andb]. destruct s2 as [|c s3]; [done|].
  fold (second_of_three a b) in Hv. destruct (second_of_three a b) eqn:E3.
  { apply andb_prop in Hv as [Hc Hv]. rewrite Hc, IH'; simpl; auto. }
  destruct s3 as [|d s4]; [done|]. apply andb_prop in Hv as [Hv Hv4]. apply andb_prop in Hv as [Hv Hd].
  apply andb_prop in Hv as [H4 Hc]. fold (second_of_four a b) in H4.
  rewrite H4, Hc, Hd, IH'; simpl; auto with arith.
Qed.

Definition nul_free (s : string) : Prop := Str.split_once NUL s = None.

Lemma cstr_split s rest : nul_free s → Str.split_once NUL (put_cstr s +:+ rest) = Some (s, rest).
Proof.
  intros Hs. unfold put_cstr. rewrite Str.app_assoc_str. apply Str.split_once_app; [done|].
  simpl. by rewrite Str.app_empty_r.
Qed.

#[local] Arguments drop_bytes : simpl never.
#[local] Arguments take_bytes : simpl never.
#[local] Arguments N.to_nat : simpl never.

(** ** Decoding is stable under more input *)

Lemma decode_startup_app b x r :
  decode_startup b = r → r ≠ Ok Incomplete →
  decode_startup (b +:+ x) = r.
Proof.
  intros <- Hr. unfold decode_startup in *. rewrite Str.length_app_str.
  destruct (Nat.ltb_spec (String.length b) 4); [done|].
  destruct (Nat.ltb_spec (String.length b + String.length x) 4); [lia|].
  rewrite read_i32_app by lia. set (len := i32_as_usize (read_i32 0 b)) in *.
  destruct (N.ltb_spec len 8); [done|].
  destruct (N.ltb_spec (N.of_nat (String.length b)) len); [done|].
  destruct (N.ltb_spec (N.of_nat (String.length b + String.length x)) len); [lia|].
  rewrite (read_i32_app 4) by lia. destruct (_ =? SSL_REQUEST_CODE); [done|].
  rewrite drop_bytes_app, take_bytes_app by (rewrite ?length_drop_bytes; lia). done.
Qed.

Lemma decode_startup_length b m :
  decode_startup b = Ok (Startup m) →
  8 <= i32_as_usize (read_i32 0 b) <= N.of_nat (String.length b).
Proof.
  unfold decode_startup. destruct (Nat.ltb_spec (String.length b) 4); [done|].
  destruct (N.ltb_spec (i32_as_usize (read_i32 0 b)) 8); [done|].
  destruct (N.ltb_spec (N.of_nat (String.length b)) (i32_as_usize (read_i32 0 b))); [done|]. lia.
Qed.

Lemma decode_ssl_length b : decode_startup b = Ok SslRequest → (8 ≤ String.length b)%nat.
Proof.
  unfold decode_startup. destruct (Nat.ltb_spec (String.length b) 4); [done|].
  destruct (N.ltb_spec (i32_as_usize (read_i32 0 b)) 8); [done|].
  destruct (N.ltb_spec (N.of_nat (String.length b)) (i32_as_usize (read_i32 0 b))); [done|]. lia.
Qed.

Lemma decode_frontend_app b x :
  decode_frontend_message b ≠ Some (Ok None) →
  decode_frontend_message (b +:+ x) = decode_frontend_message b.
Proof.
  intros Hr. destruct b as [|tag b]; [done|]. unfold decode_frontend_message in *.
  cbn [String.append]. change (String tag (b +:+ x)) with (String tag b +:+ x) in *.
  rewrite Str.length_app_str.
  destruct (Nat.ltb_spec (String.length (String tag b)) 5); [done|].
  destruct (Nat.ltb_spec (String.length (String tag b) + String.length x) 5); [lia|].
  rewrite read_i32_app by lia. set (len := i32_as_usize (read_i32 1 (String tag b))) in *.
  destruct (N.ltb_spec len 4); [done|].
  destruct (N.ltb_spec (N.of_nat (String.length (String tag b))) (u64_add 1 len)); [done|].
  destruct (N.ltb_spec (N.of_nat (String.length (String tag b) + String.length x)) (u64_add 1 len)); [lia|].
  by rewrite slice_app by lia.
Qed.

Lemma decode_frontend_consumed b m n :
  decode_frontend_message b = Some (Ok (Some (m, n))) → 5 <= n <= N.of_nat (String.length b).
Proof.
  unfold decode_frontend_message. destruct b as [|tag b]; [done|].
  destruct (Nat.ltb_spec (String.length (String tag b)) 5); [done|].
  destruct (N.ltb_spec (i32_as_usize (read_i32 1 (String tag b))) 4); [done|].
  set (total := u64_add 1 _).
  destruct (N.ltb_spec (N.of_nat (String.length (String tag b))) total); [done|].
  unfold slice. destruct (N.leb_spec 5 total); cbn [andb]; [|done].
  destruct (N.leb_spec total (N.of_nat (String.length (String tag b)))); [|done].
  intros [= _ <-]. done.
Qed.

(** ** The connection handler *)

Section Connection.
Context {St : Type} {PB : PgBackend St} (admin_key : option string).
Implicit Types (s : Session (St := St)).

Definition is_ended s : bool := match phase s with Ended _ | Panicked => true | _ => false end.

Lemma receive_consume x n s :
  (N.to_nat n ≤ String.length (buf s))%nat → consume n (receive x s) = receive x (consume n s).
Proof. intros Hn. unfold consume, receive; simpl. by rewrite drop_bytes_app. Qed.

Lemma receive_after_startup x m s :
  decode_startup (buf s) = Ok (Startup m) →
  after_startup admin_key m (receive x s) = receive x (after_startup admin_key m s).
Proof.
  intros Hd. apply decode_startup_length in Hd as [H1 H2]. unfold after_startup.
  cbn [receive buf]. rewrite read_i32_app by (unfold i32_as_usize in *; lia).
  rewrite receive_consume by lia. destruct (protocol_version m =? _); [|done].
  by destruct admin_key.
Qed.

Lemma receive_serve x db m s :
  serve_message admin_key db m (receive x s) = receive x (serve_message admin_key db m s).
Proof.
  destruct m as [sql| | |]; try done. unfold serve_message. cbn [receive engine tx_status].
  by destruct (run_query_and_encode _ _ _ _ _) as [[st' o] nx].
Qed.

Lemma receive_auth x e db m s :
  auth_message e db m (receive x s) = receive x (auth_message e db m s).
Proof. destruct m; try done. simpl. by destruct (String.eqb _ _). Qed.

Lemma advance_receive x s s' :
  advance admin_key s = Some s' → advance admin_key (receive x s) = Some (receive x s').
Proof.
  unfold advance. destruct s as [ph b o tx en ex]. cbn [receive phase buf]. destruct ph as [|e db|db| |]; try done.
  - destruct (decode_startup b) as [[m| |]|e] eqn:E; try done; intros [= <-];
      rewrite (decode_startup_app b x _ E) by done; f_equal.
    + by apply receive_after_startup.
    + apply decode_ssl_length in E. by rewrite <-(receive_consume x 8) by (simpl; lia).
  - destruct (decode_frontend_message b) as [[[[m n]|]|er]|] eqn:E; try done; intros [= <-];
      rewrite decode_frontend_app, E by (by rewrite E); [|done|done].
    f_equal. apply decode_frontend_consumed in E. rewrite <-receive_auth. f_equal.
    apply (receive_consume x n (mkSession (AwaitPassword e db) b o tx en ex)). simpl. lia.
  - destruct (decode_frontend_message b) as [[[[m n]|]|er]|] eqn:E; try done; intros [= <-];
      rewrite decode_frontend_app, E by (by rewrite E); [|done|done].
    f_equal. apply decode_frontend_consumed in E. rewrite <-receive_serve. f_equal.
    apply (receive_consume x n (mkSession (Serving db) b o tx en ex)). simpl. lia.
Qed.

(** Every turn shortens the buffer or ends the session. *)
Lemma advance_measure s s' :
  advance admin_key s = Some s' →
  is_ended s' = true ∨ (String.length (buf s') < String.length (buf s))%nat.
Proof.
  unfold advance. destruct s as [ph b o tx en ex]; cbn [phase buf]. destruct ph as [|e db|db| |]; try done.
  - destruct (decode_startup b) as [[m| |]|er] eqn:E; try done; intros [= <-]; [..|by left].
    + right. apply decode_startup_length in E. unfold after_startup. cbn [buf].
      destruct (negb _); [|destruct admin_key]; simpl; rewrite length_drop_bytes; lia.
    + right. apply decode_ssl_length in E. simpl. rewrite length_drop_bytes. lia.
  - destruct (decode_frontend_message b) as [[[[m n]|]|er]|] eqn:E; try done; intros [= <-]; [|by left..].
    apply decode_frontend_consumed in E. destruct m; simpl; try (right; rewrite length_drop_bytes; lia).
    destruct (String.eqb p e); right; simpl; rewrite length_drop_bytes; lia.
  - destruct (decode_frontend_message b) as [[[[m n]|]|er]|] eqn:E; try done; intros [= <-]; [|by left..].
    apply decode_frontend_consumed in E. right. destruct m; unfold serve_message; try (simpl; rewrite length_drop_bytes; lia).
    destruct (run_query_and_encode _ _ _ _ _) as [[st' o'] nx]. simpl. rewrite length_drop_bytes; lia.
Qed.

Lemma advance_ended s : is_ended s = true → advance admin_key s = None.
Proof. unfold is_ended, advance. by destruct (phase s). Qed.

Lemma drain_ended fuel s : is_ended s = true → drain fuel admin_key s = s.
Proof. intros He. destruct fuel; simpl; [done|]. by rewrite advance_ended. Qed.

Lemma drain_fuel f1 f2 s :
  (String.length (buf s) < f1)%nat → (String.length (buf s) < f2)%nat →
  drain f1 admin_key s = drain f2 admin_key s.
Proof.
  revert f2 s. induction f1 as [|f1 IH]; intros f2 s H1 H2; [lia|]. destruct f2 as [|f2]; [lia|]. simpl.
  destruct (advance admin_key s) as [s'|] eqn:E; [|done].
  destruct (advance_measure s s' E) as [He|Hl]; [by rewrite !drain_ended|]. apply IH; lia.
Qed.

Lemma settle_step s s' : advance admin_key s = Some s' → settle admin_key s = settle admin_key s'.
Proof.
  intros E. unfold settle at 1, fuel_for. cbn [drain]. rewrite E. unfold settle.
  destruct (advance_measure s s' E) as [He|Hl]; [by rewrite !drain_ended|].
  apply drain_fuel; unfold fuel_for; lia.
Qed.

Lemma settle_stuck s : advance admin_key s = None → settle admin_key s = s.
Proof. intros E. unfold settle, fuel_for. simpl. by rewrite E. Qed.

Lemma settle_ind (P : Session (St := St) → Prop) s :
  P s → (∀ a b, P a → advance admin_key a = Some b → P b) → P (settle admin_key s).
Proof.
  intros H0 Hstep. unfold settle. generalize (fuel_for s) as f. revert s H0.
  intros s H0 f. revert s H0. induction f as [|f IH]; intros s H0; simpl; [done|].
  destruct (advance admin_key s) eqn:E; [|done]. apply IH. by eapply Hstep.
Qed.

Lemma settle_settled s : advance admin_key (settle admin_key s) = None.
Proof.
  unfold settle. assert (Hf : (String.length (buf s) < fuel_for s)%nat) by (unfold fuel_for; lia).
  revert Hf. generalize (fuel_for s) as f. intros f. revert s. induction f as [|f IH]; intros s Hf; [lia|].
  simpl. destruct (advance admin_key s) as [s'|] eqn:E; [|done].
  destruct (advance_measure s s' E) as [He|Hl]; [rewrite drain_ended by done; by apply advance_ended|].
  apply IH. lia.
Qed.

(** Settling before or after more bytes arrive makes no difference. *)
Lemma settle_receive x s :
  settle admin_key (receive x (settle admin_key s)) = settle admin_key (receive x s).
Proof.
  apply (settle_ind (fun a => settle admin_key (receive x a) = settle admin_key (receive x s))); [done|].
  intros a b <- E. symmetry. apply settle_step. by apply advance_receive.
Qed.

Lemma receive_receive x y s : receive y (receive x s) = receive (x +:+ y) s.
Proof. unfold receive; simpl. by rewrite Str.app_assoc_str. Qed.

Lemma concat_cons_str c cs : String.concat "" (c :: cs) = c +:+ String.concat "" cs.
Proof. destruct cs; simpl; [by rewrite Str.app_empty_r|done]. Qed.

Lemma read_chunks chunks s :
  Forall (fun c => c ≠ "") chunks →
  fold_left (read_chunk admin_key) chunks (settle admin_key s)
  = settle admin_key (receive (String.concat "" chunks) s).
Proof.
  intros Hne. revert s. induction Hne as [|c cs Hc Hne IH]; intros s.
  - simpl. f_equal. unfold receive. destruct s; simpl. by rewrite Str.app_empty_r.
  - cbn [fold_left]. unfold read_chunk at 2. destruct (String.eqb_spec c ""); [done|].
    rewrite settle_receive, IH, receive_receive. by rewrite concat_cons_str.
Qed.

(** ** Authentication *)

(** Somewhere in the input there is a password message with this text. *)
Definition password_sent (input k : string) : Prop :=
  ∃ n c, decode_frontend_message (drop_bytes n input) = Some (Ok (Some (Password k, c))).

(** The buffer is what is left of the input, and nothing has run unless the
    password was sent. *)
Definition guarded (input k : string) (st : St) s : Prop :=
  (∃ n, buf s = drop_bytes n input) ∧
  (password_sent input k ∨
   engine s = st ∧ executed s = [] ∧
   match phase s with Serving _ => False | AwaitPassword e _ => e = k | _ => True end).

Lemma guarded_step input k st s s' :
  admin_key = Some k → guarded input k st s → advance admin_key s = Some s' → guarded input k st s'.
Proof.
  intros Hk [[n Hb] Hg] Ha.
  assert (Hbuf : ∃ n', buf s' = drop_bytes n' input).
  { assert (Hc : ∀ m, drop_bytes m (buf s) = drop_bytes (n + m) input)
      by (intros; by rewrite Hb, drop_bytes_add).
    unfold advance in Ha. destruct (phase s) as [|e db|db| |]; try done.
    - destruct (decode_startup (buf s)) as [[m| |]|er]; try done; injection Ha as <-.
      + unfold after_startup. destruct (negb _); [|destruct admin_key]; simpl; rewrite Hc; eauto.
      + simpl. rewrite Hc; eauto.
      + simpl; eauto.
    - destruct (decode_frontend_message (buf s)) as [[[[m c]|]|er]|]; try done; injection Ha as <-;
        simpl; eauto. destruct m; simpl; rewrite ?Hc; eauto. destruct (String.eqb p e); simpl; rewrite ?Hc; eauto.
    - destruct (decode_frontend_message (buf s)) as [[[[m c]|]|er]|]; try done; injection Ha as <-;
        simpl; eauto. destruct m; unfold serve_message; simpl; rewrite ?Hc; eauto.
      destruct (run_query_and_encode _ _ _ _ _) as [[st' o'] nx]. simpl. rewrite ?Hc; eauto. }
  split; [done|]. destruct Hg as [Hp|(He & Hx & Hph)]; [by left|].
  unfold advance in Ha. destruct (phase s) as [|e db|db| |] eqn:Eph; try done.
  - right. destruct (decode_startup (buf s)) as [[m| |]|er]; try done; injection Ha as <-; try done;
      [|simpl; by rewrite Eph].
    unfold after_startup. rewrite Hk. by destruct (negb _).
  - subst e. destruct (decode_frontend_message (buf s)) as [[[[m c]|]|er]|] eqn:E; try done;
      injection Ha as <-; try (by right).
    destruct m as [sql|p| |t]; try (right; simpl; by rewrite ?Eph).
    cbn [auth_message]. destruct (String.eqb_spec p k) as [->|]; [|by right].
    left. exists n, c. by rewrite <-Hb.
Qed.

(** ** Pipelined queries *)

Definition sendable (t : string) : Prop :=
  valid_utf8 t = true ∧ nul_free t ∧ N.of_nat (String.length t) < 2147483643.

Lemma frame_shape tag payload :
  frame tag payload = String tag "" +:+ be 4 (N.of_nat (String.length payload) + 4) +:+ payload.
Proof. reflexivity. Qed.

Lemma length_frame tag payload : String.length (frame tag payload) = (5 + String.length payload)%nat.
Proof. rewrite frame_shape, !Str.length_app_str, length_be. done. Qed.

(** A frame with any tag is decoded by what follows its length. *)
Lemma decode_frame tag payload rest :
  N.of_nat (String.length payload) + 4 < 2147483648 →
  decode_frontend_message (frame tag payload +:+ rest)
  = Some (Ok (Some (if Ascii.eqb tag "Q" then Query (from_utf8_lossy (until_nul payload))
                    else if Ascii.eqb tag "p" then Password (from_utf8_lossy (until_nul payload))
                    else if Ascii.eqb tag "X" then Terminate else Other tag,
                    N.of_nat (5 + String.length payload)))).
Proof.
  intros Hl.
  match goal with |- _ = ?r => assert (Hmain : decode_frontend_message (frame tag payload) = r) end.
  { unfold decode_frontend_message.
    assert (Hr : read_i32 1 (frame tag payload) = N.of_nat (String.length payload) + 4).
    { rewrite frame_shape. apply (read_i32_be (String tag "")). lia. }
    assert (Hs : slice 5 (N.of_nat (5 + String.length payload)) (frame tag payload) = Some payload).
    { unfold slice. rewrite length_frame.
      destruct (N.leb_spec 5 (N.of_nat (5 + String.length payload))); [|lia].
      destruct (N.leb_spec (N.of_nat (5 + String.length payload)) (N.of_nat (5 + String.length payload))); [|lia].
      cbn [andb]. f_equal. rewrite frame_shape.
      replace (N.to_nat (N.of_nat (5 + String.length payload) - 5)) with (String.length payload) by lia.
      replace (N.to_nat 5) with (String.length (String tag "" +:+ be 4 (N.of_nat (String.length payload) + 4)))
        by (rewrite Str.length_app_str, length_be; done).
      rewrite <-Str.app_assoc_str, drop_bytes_exact.
      rewrite <-(Str.app_empty_r payload) at 2. apply take_bytes_exact. }
    pose proof (length_frame tag payload) as Hlen.
    assert (∃ r, frame tag payload = String tag r) as [r Hfr] by (by eexists).
    rewrite Hfr in *. cbn iota. rewrite Hlen, Hr, i32_small by lia.
    destruct (Nat.ltb_spec (5 + String.length payload) 5); [lia|].
    destruct (N.ltb_spec (N.of_nat (String.length payload) + 4) 4); [lia|].
    replace (u64_add 1 (N.of_nat (String.length payload) + 4)) with (N.of_nat (5 + String.length payload))
      by (rewrite u64_add_small by u64; lia).
    destruct (N.ltb_spec (N.of_nat (5 + String.length payload)) (N.of_nat (5 + String.length payload))); [lia|].
    by rewrite Hs. }
  by rewrite decode_frontend_app by (by rewrite Hmain).
Qed.

Lemma until_nul_cstr t : nul_free t → until_nul (put_cstr t) = t.
Proof.
  intros Ht. unfold until_nul. rewrite <-(Str.app_empty_r (put_cstr t)). by rewrite cstr_split.
Qed.

Lemma length_cstr t : String.length (put_cstr t) = S (String.length t).
Proof. unfold put_cstr. rewrite Str.length_app_str. simpl. lia. Qed.

Lemma decode_text tag t rest :
  sendable t →
  decode_frontend_message (frame tag (put_cstr t) +:+ rest)
  = Some (Ok (Some (if Ascii.eqb tag "Q" then Query t else if Ascii.eqb tag "p" then Password t
                    else if Ascii.eqb tag "X" then Terminate else Other tag,
                    N.of_nat (String.length (frame tag (put_cstr t)))))).
Proof.
  intros (Hu & Hn & Hl). rewrite decode_frame by (rewrite length_cstr; lia).
  rewrite until_nul_cstr, lossy_valid by done. by rewrite length_frame.
Qed.

Definition query_frames (qs : list string) : string :=
  String.concat "" (map (fun q => frame "Q" (put_cstr q)) qs).

(** A blank query is answered without reaching the engine. *)
Definition runs (q : string) : bool := negb (String.eqb (Str.trim q) EmptyString).

(** The specification of the query loop: the statements one after the other. *)
Definition serve_one (db : option string) (acc : St * string * TransactionStatus) (q : string)
    : St * string * TransactionStatus :=
  let '(st, o, tx) := acc in
  let '(st', response, tx') := run_query_and_encode st q db admin_key tx in
  (st', o +:+ response, tx').

Lemma consume_exact tag t rest p b o tx en ex :
  b = frame tag (put_cstr t) +:+ rest →
  consume (N.of_nat (String.length (frame tag (put_cstr t))))
    (mkSession (St := St) p b o tx en ex) = mkSession p rest o tx en ex.
Proof.
  intros ->. unfold consume. cbn [phase buf out tx_status engine executed].
  by rewrite Nat2N.id, drop_bytes_exact.
Qed.

Lemma settle_queries qs db b o tx en ex :
  b = query_frames qs → Forall sendable qs →
  ∃ en' o' tx', fold_left (serve_one db) qs (en, o, tx) = (en', o', tx') ∧
    settle admin_key (mkSession (Serving db) b o tx en ex)
    = mkSession (Serving db) "" o' tx' en' (ex ++ filter (fun q => runs q = true) qs).
Proof.
  revert b o tx en ex. induction qs as [|q qs IH]; intros b o tx en ex Hb Hs.
  - exists en, o, tx. split; [done|]. rewrite app_nil_r. subst b. by apply settle_stuck.
  - inversion Hs as [|? ? Hq Hs']; subst.
    assert (Hfr : query_frames (q :: qs) = frame "Q" (put_cstr q) +:+ query_frames qs)
      by (unfold query_frames; apply concat_cons_str).
    set (s := mkSession _ _ _ _ _ _).
    assert (Hadv : advance admin_key s
      = Some (serve_message admin_key db (Query q) (mkSession (Serving db) (query_frames qs) o tx en ex))).
    { unfold advance, s. cbn [phase buf]. rewrite Hfr, decode_text by done.
      change (Ascii.eqb "Q" "Q") with true. cbn iota. f_equal. f_equal. by apply consume_exact. }
    rewrite (settle_step _ _ Hadv). cbn [serve_message engine tx_status].
    cbn [fold_left serve_one].
    destruct (run_query_and_encode en q db admin_key tx) as [[st' r] tx'].
    cbn [phase buf out executed].
    destruct (IH (query_frames qs) (o +:+ r) tx' st'
                (if String.eqb (Str.trim q) "" then ex else ex ++ [q]) eq_refl Hs')
      as (en' & o' & tx'' & Hf & Hset).
    exists en', o', tx''. split; [done|]. rewrite Hset. f_equal.
    destruct (String.eqb (Str.trim q) "") eqn:Hb.
    + rewrite filter_cons_False by (unfold runs; by rewrite Hb). done.
    + rewrite filter_cons_True by (unfold runs; by rewrite Hb). by rewrite <-(assoc_L (++)).
Qed.

Definition startup_packet (ps : list (string * string)) : string :=
  let body := String.concat "" (map (fun kv => put_cstr kv.1 +:+ put_cstr kv.2) ps) +:+ NUL in
  be 4 (8 + N.of_nat (String.length body)) +:+ be 4 PROTOCOL_VERSION_3 +:+ body.

Definition param_ok (kv : string * string) : Prop :=
  kv.1 ≠ "" ∧ valid_utf8 kv.1 = true ∧ nul_free kv.1 ∧ valid_utf8 kv.2 = true ∧ nul_free kv.2.

Lemma decode_params_list ps fuel :
  Forall param_ok ps → (length ps < fuel)%nat →
  decode_params fuel
    (String.concat "" (map (fun kv => put_cstr kv.1 +:+ put_cstr kv.2) ps) +:+ NUL) = Ok ps.
Proof.
  intros Hps. revert fuel. induction Hps as [|[k v] ps (Hne & Hku & Hkn & Hvu & Hvn) Hps IH];
    intros [|fuel] Hf; try (simpl in Hf; lia); [done|].
  cbn [map]. rewrite concat_cons_str, !Str.app_assoc_str. cbn [decode_params fst snd] in *.
  rewrite cstr_split, lossy_valid by done. destruct (String.eqb_spec k ""); [done|].
  rewrite cstr_split, lossy_valid by done. rewrite IH; [done|]. simpl in Hf. lia.
Qed.

Lemma params_length ps :
  (length ps ≤ String.length (String.concat "" (map (fun kv : string * string =>
     put_cstr kv.1 +:+ put_cstr kv.2) ps)))%nat.
Proof.
  induction ps as [|kv ps IH]; [done|]. cbn [map]. rewrite concat_cons_str, !Str.length_app_str, length_cstr.
  simpl length. lia.
Qed.

Lemma decode_startup_packet ps rest :
  Forall param_ok ps → N.of_nat (String.length (startup_packet ps)) < 2147483648 →
  decode_startup (startup_packet ps +:+ rest) = Ok (Startup (mkStartup PROTOCOL_VERSION_3 ps)) ∧
  i32_as_usize (read_i32 0 (startup_packet ps +:+ rest)) = N.of_nat (String.length (startup_packet ps)).
Proof.
  intros Hps Hlen. unfold startup_packet in *.
  set (body := String.concat "" (map (fun kv => put_cstr kv.1 +:+ put_cstr kv.2) ps) +:+ NUL) in *.
  assert (Hl : String.length (be 4 (8 + N.of_nat (String.length body))
                +:+ be 4 PROTOCOL_VERSION_3 +:+ body) = (8 + String.length body)%nat)
    by (by rewrite !Str.length_app_str, !length_be).
  rewrite Hl in Hlen.
  set (pkt := be 4 (8 + N.of_nat (String.length body)) +:+ be 4 PROTOCOL_VERSION_3 +:+ body) in *.
  assert (Hr0 : read_i32 0 pkt = 8 + N.of_nat (String.length body)).
  { unfold pkt. apply (read_i32_be ""). lia. }
  assert (Hr4 : read_i32 4 pkt = PROTOCOL_VERSION_3).
  { unfold pkt. rewrite <-(length_be 4 (8 + N.of_nat (String.length body))) at 1.
    by apply read_i32_be. }
  split; [|rewrite read_i32_app by lia; rewrite Hr0, Hl, i32_small by lia; lia].
  apply decode_startup_app; [|done]. unfold decode_startup. rewrite Hl, Hr0, Hr4, i32_small by lia.
  destruct (Nat.ltb_spec (8 + String.length body) 4); [lia|].
  destruct (N.ltb_spec (8 + N.of_nat (String.length body)) 8); [lia|].
  destruct (N.ltb_spec (N.of_nat (8 + String.length body)) (8 + N.of_nat (String.length body))); [lia|].
  cbn [N.eqb PROTOCOL_VERSION_3 SSL_REQUEST_CODE]. simpl (_ =? _). cbn iota.
  assert (Hbody : take_bytes (N.to_nat (8 + N.of_nat (String.length body)) - 8) (drop_bytes 8 pkt) = body).
  { replace (N.to_nat (8 + N.of_nat (String.length body)) - 8)%nat with (String.length body) by lia.
    unfold pkt. rewrite <-Str.app_assoc_str.
    replace 8%nat with (String.length (be 4 (8 + N.of_nat (String.length body)) +:+ be 4 PROTOCOL_VERSION_3))
      by (by rewrite Str.length_app_str, !length_be).
    rewrite drop_bytes_exact. rewrite <-(Str.app_empty_r body) at 2. apply take_bytes_exact. }
  rewrite Hbody. unfold body at 2. rewrite decode_params_list; [done|done|].
  unfold body. rewrite Str.length_app_str. pose proof (params_length ps). lia.
Qed.

(** The client's side of a session: startup, the password if one is required,
    then the queries. *)
Definition client_stream (ps : list (string * string)) (qs : list string) : string :=
  startup_packet ps
  +:+ match admin_key with Some k => frame "p" (put_cstr k) | None => "" end
  +:+ query_frames qs.

Lemma handle_as_one chunks st :
  Forall (fun c => c ≠ "") chunks →
  handle_pg_connection admin_key chunks st
  = disconnect (settle admin_key (receive (String.concat "" chunks) (start st))).
Proof. intros Hne. unfold handle_pg_connection. by rewrite read_chunks. Qed.

(** What the server has written when the query loop starts. *)
Definition greeting : string :=
  match admin_key with
  | Some _ => encode_authentication_cleartext_password +:+ hello
  | None => hello
  end.

Lemma settle_client ps qs st :
  Forall param_ok ps → N.of_nat (String.length (startup_packet ps)) < 2147483648 →
  (∀ k, admin_key = Some k → sendable k) →
  settle admin_key (receive (client_stream ps qs) (start st))
  = settle admin_key (mkSession (Serving (get "database" (mkStartup PROTOCOL_VERSION_3 ps)))
                        (query_frames qs) greeting Idle st []).
Proof.
  intros Hps Hlen Hkey. set (db := get "database" _).
  set (s0 := receive (client_stream ps qs) (start st)).
  set (rest := match admin_key with Some k => frame "p" (put_cstr k) | None => "" end +:+ query_frames qs).
  assert (Hb : buf s0 = startup_packet ps +:+ rest) by done.
  destruct (decode_startup_packet ps rest Hps Hlen) as [Hdec Hln].
  assert (Hadv : advance admin_key s0
    = Some (match admin_key with
            | Some k => mkSession (AwaitPassword k db) rest encode_authentication_cleartext_password Idle st []
            | None => mkSession (Serving db) rest hello Idle st []
            end)).
  { unfold advance. change (phase s0) with (@AwaitStartup). rewrite Hb, Hdec. f_equal.
    unfold after_startup. rewrite Hb, Hln. unfold consume. rewrite Hb, Nat2N.id, drop_bytes_exact.
    cbn [protocol_version]. rewrite N.eqb_refl. cbn [negb].
    destruct admin_key; reflexivity. }
  rewrite (settle_step _ _ Hadv). unfold greeting. subst rest. destruct admin_key as [k|] eqn:Hk; [|done].
  rewrite <-Hk. apply settle_step. unfold advance. cbn [phase buf].
  rewrite decode_text by (by apply Hkey).
  change (Ascii.eqb "p" "Q") with false. change (Ascii.eqb "p" "p") with true. cbn iota.
  rewrite (consume_exact "p" k (query_frames qs)) by done. cbn [auth_message].
  by rewrite String.eqb_refl.
Qed.

End Connection.

(** ** Encoding is injective *)

Lemma encode_cell_inj c1 c2 r1 r2 :
  (∀ s, c1 = Some s → N.of_nat (String.length s) < 4294967295) →
  (∀ s, c2 = Some s → N.of_nat (String.length s) < 4294967295) →
  encode_cell c1 +:+ r1 = encode_cell c2 +:+ r2 → c1 = c2 ∧ r1 = r2.
Proof.
  intros H1 H2. unfold encode_cell, put_i32. destruct c1 as [s1|], c2 as [s2|]; rewrite ?Str.app_assoc_str; intros E.
  - apply app_inj_length in E as [E1 E2]; [|by rewrite !length_be].
    specialize (H1 s1 eq_refl). specialize (H2 s2 eq_refl).
    apply be_inj in E1; [|simpl; lia|simpl; lia]. apply app_inj_length in E2 as [-> ->]; [done|lia].
  - apply app_inj_length in E as [E1 _]; [|by rewrite !length_be]. specialize (H1 s1 eq_refl).
    apply be_inj in E1; [|simpl; lia|done]. unfold MINUS_ONE_32 in E1. lia.
  - apply app_inj_length in E as [E1 _]; [|by rewrite !length_be]. specialize (H2 s2 eq_refl).
    apply be_inj in E1; [|done|simpl; lia]. unfold MINUS_ONE_32 in E1. lia.
  - by apply app_inj_length in E as [_ ->]; [|by rewrite !length_be].
Qed.

Lemma encode_cells_inj cs1 cs2 :
  length cs1 = length cs2 →
  Forall (fun c => ∀ s, c = Some s → N.of_nat (String.length s) < 4294967295) cs1 →
  Forall (fun c => ∀ s, c = Some s → N.of_nat (String.length s) < 4294967295) cs2 →
  String.concat "" (map encode_cell cs1) = String.concat "" (map encode_cell cs2) → cs1 = cs2.
Proof.
  revert cs2. induction cs1 as [|c1 cs1 IH]; intros [|c2 cs2] Hl H1 H2 E; simpl in Hl; try lia; [done|].
  inversion H1; inversion H2; subst. cbn [map] in E. rewrite !concat_cons_str in E.
  apply encode_cell_inj in E as [-> E]; [|done..]. f_equal. by apply IH; [lia|..].
Qed.

Lemma frame_inj tag p q :
  frame tag p = frame tag q → p = q.
Proof.
  rewrite !frame_shape, <-!Str.app_assoc_str. intros E.
  apply app_inj_length in E as [_ ->]; [done|]. by rewrite !Str.length_app_str, !length_be.
Qed.

(** ** Properties *)

(** C25: reads may be cut anywhere.  Whatever the SQL engine does, two clients
    that send the same bytes get the same session (the same replies, the same
    statements executed in the same order on the same engine state, the same
    end), however the bytes are divided into reads. *)
Theorem session_independent_of_fragmentation {St : Type} `{PB : !PgBackend St}
    (admin_key : option string) (chunks1 chunks2 : list string) (st : St) :
  Forall (fun c => c ≠ "") chunks1 → Forall (fun c => c ≠ "") chunks2 →
  String.concat "" chunks1 = String.concat "" chunks2 →
  handle_pg_connection admin_key chunks1 st = handle_pg_connection admin_key chunks2 st.
Proof. intros H1 H2 E. by rewrite !handle_as_one, E. Qed.

(** C26: no statement without the password.  When an admin key is configured and
    the input holds no password message with that key, the session executes
    nothing and leaves the engine as it was, whatever else is sent. *)
Theorem no_statement_without_password {St : Type} `{PB : !PgBackend St}
    (k : string) (chunks : list string) (st : St) :
  Forall (fun c => c ≠ "") chunks → ¬ password_sent (String.concat "" chunks) k →
  let s := handle_pg_connection (Some k) chunks st in executed s = [] ∧ engine s = st.
Proof.
  intros Hne Hno. rewrite handle_as_one by done. set (input := String.concat "" chunks) in *.
  assert (Hg : guarded input k st (settle (Some k) (receive input (start st)))).
  { apply (settle_ind (Some k)).
    - split; [by exists O|]. right. done.
    - intros a b. by apply guarded_step. }
  destruct Hg as [_ [?|(He & Hx & _)]]; [done|]. unfold disconnect. by destruct (phase _).
Qed.

(** Pipelined queries.  A client that sends a startup packet, the password
    when one is configured, and any number of queries, in any fragmentation,
    has its non-blank queries executed exactly once and in order, receives the
    greeting followed by the responses in that order, and the session ends
    normally when it disconnects. *)
Theorem session_serves_queries_in_order {St : Type} `{PB : !PgBackend St}
    (admin_key : option string) (ps : list (string * string)) (qs : list string)
    (chunks : list string) (st : St) :
  Forall (fun c => c ≠ "") chunks →
  String.concat "" chunks = client_stream admin_key ps qs →
  Forall param_ok ps → N.of_nat (String.length (startup_packet ps)) < 2147483648 →
  (∀ k, admin_key = Some k → sendable k) → Forall sendable qs →
  let db := get "database" (mkStartup PROTOCOL_VERSION_3 ps) in
  let s := handle_pg_connection admin_key chunks st in
  executed s = filter (fun q => runs q = true) qs ∧ phase s = Ended (Ok tt) ∧
  (engine s, out s, tx_status s)
  = fold_left (serve_one admin_key db) qs (st, greeting admin_key, Idle).
Proof.
  intros Hne Hin Hps Hlen Hkey Hqs. cbv zeta.
  rewrite handle_as_one, Hin, settle_client by done.
  generalize (get "database" (mkStartup PROTOCOL_VERSION_3 ps)) as db. intros db.
  destruct (settle_queries admin_key qs db (query_frames qs) (greeting admin_key) Idle st [] eq_refl Hqs)
    as (en' & o' & tx' & Hf & Hs).
  rewrite Hs. cbn [disconnect phase goto executed engine out tx_status app]. by rewrite Hf.
Qed.

(** Rows are encoded without loss.  Two result rows of at most 65535 cells,
    each shorter than 2^32 - 1 bytes, that encode to the same bytes are equal:
    a NULL is never confused with a text, nor one cell boundary with another. *)
Theorem data_row_encoding_injective (r1 r2 : list (option string)) :
  N.of_nat (length r1) < 65536 → N.of_nat (length r2) < 65536 →
  Forall (fun c => ∀ t, c = Some t → N.of_nat (String.length t) < 4294967295) r1 →
  Forall (fun c => ∀ t, c = Some t → N.of_nat (String.length t) < 4294967295) r2 →
  encode_data_row r1 = encode_data_row r2 → r1 = r2.
Proof.
  intros L1 L2 H1 H2 E%frame_inj. unfold put_i16 in E.
  apply app_inj_length in E as [En Ec]; [|by rewrite !length_be].
  apply be_inj in En; [|done|done]. apply encode_cells_inj; [lia|done..].
Qed.

(** ** Witnesses *)

(** An engine that records what it is asked and answers with one row. *)
Definition demo_backend : PgBackend (list string) := {|
  sql_execute := fun st sql _ _ =>
    (st ++ [sql], if Str.starts_with "BAD" sql then Err (mkApiError 400 "syntax")
                  else Ok (mkResponse (Some [JStr "c"]) (Some [JArr [JStr sql]; JArr [JNull]])));
  value_to_string := fun _ => "?";
  process_id := 7;
|}.

Definition demo_params : list (string * string) := [("user", "ann"); ("database", "db")].
Definition demo_queries : list string := ["BEGIN"; "  "; "BAD"; "SELECT 1"].
Definition demo_stream : string := client_stream (Some "k3y") demo_params demo_queries.

Lemma session_independent_of_fragmentation_witness :
  let PB := demo_backend in
  handle_pg_connection (Some "k3y") [take_bytes 5 demo_stream; drop_bytes 5 demo_stream] []
  = handle_pg_connection (Some "k3y") [demo_stream] [].
Proof.
  apply (@session_independent_of_fragmentation (list string) demo_backend).
  - repeat constructor; by vm_compute.
  - repeat constructor; by vm_compute.
  - vm_compute. reflexivity.
Defined.

Definition trimmed_stream : string :=
  client_stream (Some "wrong") demo_params ["SELECT secret"].

(** Decides [password_sent] by trying every offset. *)
Definition sends_password (input k : string) : bool :=
  existsb (fun n => match decode_frontend_message (drop_bytes n input) with
                    | Some (Ok (Some (Password p, _))) => String.eqb p k
                    | _ => false
                    end) (seq 0 (S (String.length input))).

Lemma sends_password_complete input k : password_sent input k → sends_password input k = true.
Proof.
  intros (n & c & Hd). apply existsb_exists. exists n. split; [|rewrite Hd; apply String.eqb_refl].
  apply decode_frontend_consumed in Hd. rewrite length_drop_bytes in Hd.
  apply in_seq. lia.
Qed.

Lemma no_statement_without_password_witness :
  let PB := demo_backend in
  ¬ password_sent trimmed_stream "k3y" ∧
  executed (handle_pg_connection (Some "k3y") [trimmed_stream] []) = [].
Proof.
  intros PB.
  assert (Hno : ¬ password_sent trimmed_stream "k3y").
  { intros H%sends_password_complete. vm_compute in H. discriminate H. }
  assert (Hcat : String.concat "" [trimmed_stream] = trimmed_stream) by reflexivity.
  split; [exact Hno|].
  refine (proj1 (@no_statement_without_password (list string) demo_backend "k3y" [trimmed_stream] [] _ _)).
  - constructor; [by vm_compute|constructor].
  - rewrite Hcat. exact Hno.
Defined.

Lemma demo_sendable : Forall sendable demo_queries.
Proof. unfold demo_queries, sendable, nul_free. repeat constructor. Qed.

Lemma session_serves_queries_in_order_witness :
  let PB := demo_backend in
  executed (handle_pg_connection (Some "k3y") [demo_stream] []) = ["BEGIN"; "BAD"; "SELECT 1"] ∧
  tx_status (handle_pg_connection (Some "k3y") [demo_stream] []) = Failed.
Proof.
  intros PB.
  destruct (@session_serves_queries_in_order (list string) demo_backend (Some "k3y") demo_params
              demo_queries [demo_stream] []) as (Hx & _ & Hf).
  - constructor; [by vm_compute|constructor].
  - reflexivity.
  - unfold demo_params, param_ok, nul_free. repeat constructor; by vm_compute.
  - vm_compute. reflexivity.
  - intros k [= <-]. unfold sendable, nul_free. repeat constructor.
  - exact demo_sendable.
  - split; [refine (eq_trans Hx _); vm_compute; reflexivity|].
    refine (eq_trans (f_equal snd Hf) _). vm_compute. reflexivity.
Defined.

Lemma data_row_encoding_injective_witness :
  encode_data_row [Some "a"; None] ≠ encode_data_row [Some "a"; Some ""].
Proof.
  intros E.
  apply (data_row_encoding_injective [Some "a"; None] [Some "a"; Some ""]) in E;
    [discriminate E|reflexivity|reflexivity|..].
  - constructor; [intros t [= <-]; reflexivity|]. constructor; [done|constructor].
  - constructor; [intros t [= <-]; reflexivity|].
    constructor; [intros t [= <-]; reflexivity|constructor].
Defined.

(** A frame whose length field is [-1] makes the decoder index out of order:
    one such message ends the connection's task in a panic. *)
Lemma negative_length_panics tag rest :
  decode_frontend_message (String tag (be 4 4294967295) +:+ rest) = None.
Proof.
  rewrite decode_frontend_app; [vm_compute; reflexivity|]. vm_compute. done.
Qed.

(** A row of 65536 cells announces none. *)
Lemma column_count_truncated cells :
  N.of_nat (length cells) = 65536 →
  encode_data_row cells = frame "D" (put_i16 0 +:+ String.concat "" (map encode_cell cells)).
Proof. intros Hl. unfold encode_data_row. by rewrite Hl. Qed.
