(* ===== verification/Tokenizer.v ===== *)
(** * The SQL tokenizer
      ([crates/voltnuerongrid-sql/src/tokenizer.rs])

    A [Vec<char>] is a list of code points.  [char::is_alphabetic] and
    [is_alphanumeric] on non-ASCII characters are tables of the standard library
    that are not spelled out here: they come from the class [UnicodeTables],
    with their documented values on ASCII and the documented inclusion of one in
    the other. *)

From S2P Require Import Prelude Str.
From Stdlib Require Import Ascii.
Local Open Scope string_scope.
Local Open Scope list_scope.
Local Open Scope N_scope.

Module Tokenizer.

Abbreviation text := (list N).

(** An ASCII literal as code points. *)
Fixpoint chars (s : string) : text :=
  match s with EmptyString => [] | String c s' => N_of_ascii c :: chars s' end.

Definition in_range (lo hi c : N) : bool := (lo <=? c) && (c <=? hi).

Definition is_ascii_digit (c : N) : bool := in_range 48 57 c.
Definition is_ascii_alphabetic (c : N) : bool := in_range 65 90 c || in_range 97 122 c.
Definition is_ascii_whitespace (c : N) : bool := existsb (N.eqb c) [32; 9; 10; 12; 13].

Class UnicodeTables := {
  is_alphabetic : N -> bool;
  is_alphanumeric : N -> bool;
  is_alphabetic_ascii : ∀ c, c < 128 → is_alphabetic c = is_ascii_alphabetic c;
  is_alphanumeric_ascii : ∀ c, c < 128 →
    is_alphanumeric c = is_ascii_alphabetic c || is_ascii_digit c;
  is_alphanumeric_alphabetic : ∀ c, is_alphabetic c = true → is_alphanumeric c = true;
}.

Inductive Token :=
| Keyword (k : text)
| Identifier (i : text)
| Number (n : text)
| StringLiteral (s : text)
| Symbol (s : text)
| Whitespace
| LineComment (c : text)
| BlockComment (c : text)
| Unknown (u : text).

Definition keywords : list string :=
  ["SELECT"; "FROM"; "WHERE"; "JOIN"; "INNER"; "LEFT"; "RIGHT"; "FULL"; "OUTER"; "CROSS";
   "ON"; "AS"; "GROUP"; "BY"; "ORDER"; "HAVING"; "LIMIT"; "OFFSET"; "UNION"; "ALL";
   "DISTINCT"; "EXISTS"; "NOT"; "IN"; "BETWEEN"; "LIKE"; "IS"; "NULL"; "AND"; "OR"; "CASE";
   "WHEN"; "THEN"; "ELSE"; "END"; "OVER"; "PARTITION"; "ROWS"; "RANGE"; "UNBOUNDED";
   "PRECEDING"; "FOLLOWING"; "CURRENT"; "INSERT"; "INTO"; "VALUES"; "UPDATE"; "SET";
   "DELETE"; "CREATE"; "TABLE"; "VIEW"; "MATERIALIZED"; "FUNCTION"; "DROP"; "ALTER"; "ADD";
   "COLUMN"; "PRIMARY"; "KEY"; "FOREIGN"; "REFERENCES"; "UNIQUE"; "INDEX"; "DEFAULT";
   "BEGIN"; "COMMIT"; "ROLLBACK"; "SAVEPOINT"; "RELEASE"; "TRANSACTION"; "ISOLATION";
   "LEVEL"; "READ"; "WRITE"; "SERIALIZABLE"; "REPEATABLE"; "UNCOMMITTED"; "COMMITTED";
   "TRUE"; "FALSE"; "ASC"; "DESC"; "NULLS"; "FIRST"; "LAST"; "WITH"; "RECURSIVE"; "WINDOW";
   "FILTER"; "WITHIN"; "ROW"; "SUM"; "COUNT"; "AVG"; "MIN"; "MAX"; "COALESCE"; "CAST";
   "EXTRACT"; "TRIM"; "UPPER"; "LOWER"; "SUBSTRING"; "REPLACE"; "CONCAT"; "CONCAT_WS";
   "LENGTH"; "ROUND"; "FLOOR"; "CEIL"; "ABS"; "NOW"; "CURRENT_TIMESTAMP"; "CURRENT_DATE";
   "CURRENT_TIME"; "IFNULL"; "NVL"; "NVL2"; "IFF"; "DECODE"; "ZEROIFNULL"; "NULLIFZERO";
   "DATEDIFF"; "DATEADD"; "TO_CHAR"; "TO_DATE"; "TO_TIMESTAMP"; "TO_TIMESTAMP_NTZ";
   "TO_TIMESTAMP_TZ"; "TO_NUMBER"; "TO_VARCHAR"; "INSTR"; "POSITION"; "LISTAGG";
   "ANY_VALUE"; "APPROX_COUNT_DISTINCT"; "ARRAY_CONSTRUCT"; "OBJECT_CONSTRUCT";
   "OBJECT_AGG"; "MAP_CONSTRUCT"; "ARRAY_TO_STRING"; "STRING_TO_ARRAY"; "REGEXP_SUBSTR";
   "REGEXP_INSTR"; "REGEXP_COUNT"; "IF"; "TRUNCATE"; "EXPLAIN"; "ANALYZE"; "SCHEMA";
   "DATABASE"].

Definition ascii_upper (c : N) : N := if in_range 97 122 c then c - 32 else c.

Definition to_ascii_uppercase (w : text) : text := map ascii_upper w.

Definition is_keyword (w : text) : bool := existsb (fun k => bool_decide (w = chars k)) keywords.

Definition display (t : Token) : text :=
  match t with
  | Keyword k => k
  | Identifier i => i
  | Number n => n
  | StringLiteral s => [39] ++ s ++ [39]
  | Symbol s => s
  | Whitespace => [32]
  | LineComment c => [45; 45] ++ c
  | BlockComment c => [47; 42] ++ c ++ [42; 47]
  | Unknown u => u
  end.

Definition is_semantic (t : Token) : bool :=
  match t with Whitespace | LineComment _ | BlockComment _ => false | _ => true end.

Definition keyword (t : Token) : option text := match t with Keyword k => Some k | _ => None end.

(** [while pos < len && p(chars[pos]) { pos += 1 }]: what is passed over, and
    what is left. *)
Fixpoint span (p : N -> bool) (l : text) : text * text :=
  match l with
  | c :: l' => if p c then let '(a, b) := span p l' in (c :: a, b) else ([], l)
  | [] => ([], [])
  end.

(** The body of a block comment: up to [*/], or to the last character. *)
Fixpoint block_body (l : text) : text * text :=
  match l with
  | c :: ((d :: r) as l') =>
      if (c =? 42) && (d =? 47) then ([], r)
      else let '(a, b) := block_body l' in (c :: a, b)
  | _ => ([], l)
  end.

(** The body of a string literal; two quotes stand for one. *)
Fixpoint literal_body (l : text) : text * text :=
  match l with
  | [] => ([], [])
  | c :: l' =>
      if c =? 39 then
        match l' with
        | d :: r => if d =? 39 then let '(s, rest) := literal_body r in (39 :: s, rest) else ([], l')
        | [] => ([], [])
        end
      else let '(s, rest) := literal_body l' in (c :: s, rest)
  end.

(** A quoted identifier's body, and the input after the closing quote. *)
Definition quoted_body (q : N) (l : text) : text * text :=
  let '(s, rest) := span (fun c => negb (c =? q)) l in
  (s, match rest with _ :: r => r | [] => [] end).

Definition exponent (l : text) : text * text :=
  match l with
  | c :: l' =>
      if (c =? 101) || (c =? 69) then
        match l' with
        | d :: l2 =>
            if (d =? 43) || (d =? 45)
            then let '(ds, rest) := span is_ascii_digit l2 in (c :: d :: ds, rest)
            else let '(ds, rest) := span is_ascii_digit l' in (c :: ds, rest)
        | [] => ([c], [])
        end
      else ([], l)
  | [] => ([], [])
  end.

Definition number (l : text) : text * text :=
  let '(ds, r) := span (fun c => is_ascii_digit c || (c =? 46)) l in
  let '(ex, rest) := exponent r in (ds ++ ex, rest).

Definition two_char_symbols : list string := ["<>"; ">="; "<="; "!="; "::"; "->"; "->>"; "||"].

Definition BACKSLASH : string := Str.of_bytes [92].

Definition single_symbols : text := chars ("()[]{}.,;*+-/%^=<>|&~?@#!:" +:+ BACKSLASH).

Definition starts_number (l : text) : bool :=
  match l with
  | c :: l' =>
      is_ascii_digit c || (c =? 46) && match l' with d :: _ => is_ascii_digit d | [] => false end
  | [] => false
  end.

Section Tokenize.
Context `{!UnicodeTables}.

Definition starts_word (c : N) : bool := is_alphabetic c || (c =? 95).
Definition word_char (c : N) : bool := is_alphanumeric c || (c =? 95).

(** One turn of the main loop at a non-empty input. *)
Definition next_token (c : N) (l : text) : Token * text :=
  let all := c :: l in
  if is_ascii_whitespace c then (Whitespace, (span is_ascii_whitespace l).2)
  else if (c =? 45) && match l with d :: _ => d =? 45 | [] => false end then
    let '(t, rest) := span (fun d => negb (d =? 10)) (tl l) in (LineComment t, rest)
  else if (c =? 47) && match l with d :: _ => d =? 42 | [] => false end then
    let '(t, rest) := block_body (tl l) in (BlockComment t, rest)
  else if c =? 39 then let '(s, rest) := literal_body l in (StringLiteral s, rest)
  else if c =? 34 then let '(s, rest) := quoted_body 34 l in (Identifier s, rest)
  else if c =? 96 then let '(s, rest) := quoted_body 96 l in (Identifier s, rest)
  else if starts_number all then let '(n, rest) := number all in (Number n, rest)
  else if starts_word c then
    let '(w, rest) := span word_char all in
    let upper := to_ascii_uppercase w in
    (if is_keyword upper then Keyword upper else Identifier w, rest)
  else
    match l with
    | d :: l' =>
        if existsb (fun sy => bool_decide ([c; d] = chars sy)) two_char_symbols
        then (Symbol [c; d], l')
        else if existsb (N.eqb c) single_symbols then (Symbol [c], l) else (Unknown [c], l)
    | [] => if existsb (N.eqb c) single_symbols then (Symbol [c], l) else (Unknown [c], l)
    end.

Fixpoint tokens (fuel : nat) (l : text) : list Token :=
  match fuel, l with
  | S fuel', c :: l' => let '(t, rest) := next_token c l' in t :: tokens fuel' rest
  | _, _ => []
  end.

Definition tokenize (sql : text) : list Token := tokens (length sql) sql.

Definition semantic_tokens (sql : text) : list Token :=
  filter (fun t => is_semantic t = true) (tokenize sql).

Definition keyword_count (sql : text) : nat :=
  length (filter (fun t => is_Some (keyword t)) (tokenize sql)).

End Tokenize.
End Tokenizer.

(** * Properties of the SQL tokenizer

    Tokenizing always ends and accounts for every character of the input; a
    quoted string comes back as it was. *)

Local Open Scope string_scope.
Local Open Scope list_scope.
Local Open Scope N_scope.

Import Tokenizer.

(** ** What a token stands for *)

(** The way to write a text inside single quotes. *)
Definition escape (s : text) : text := concat (map (fun c => if c =? 39 then [39; 39] else [c]) s).

(** The stretches of input that a token is read from. *)
Definition lexeme (t : Token) (w : text) : Prop :=
  match t with
  | Keyword k => to_ascii_uppercase w = k ∧ is_keyword k = true
  | Identifier i =>
      w = i ∧ is_keyword (to_ascii_uppercase i) = false ∨
      ∃ q, (q = 34 ∨ q = 96) ∧ q ∉ i ∧ (w = [q] ++ i ++ [q] ∨ w = [q] ++ i)
  | Number n => w = n
  | StringLiteral s => w = [39] ++ escape s ++ [39] ∨ w = [39] ++ escape s
  | Symbol s => w = s
  | Whitespace => Forall (fun c => is_ascii_whitespace c = true) w
  | LineComment c => w = [45; 45] ++ c ∧ 10 ∉ c
  | BlockComment c => w = [47; 42] ++ c ++ [42; 47] ∨ w = [47; 42] ++ c
  | Unknown u => w = u
  end.

Lemma span_spec p l a b :
  span p l = (a, b) →
  l = a ++ b ∧ Forall (fun c => p c = true) a ∧ match b with c :: _ => p c = false | [] => True end.
Proof.
  revert a b. induction l as [|c l IH]; intros a b; simpl; [by intros [= <- <-]|].
  destruct (p c) eqn:Hc; [|by intros [= <- <-]].
  destruct (span p l) as [a' b'] eqn:E. intros [= <- <-].
  destruct (IH a' b' eq_refl) as (-> & Ha & Hb). split_and!; [done|by constructor|done].
Qed.

Lemma escape_text_cons c s : escape (c :: s) = (if c =? 39 then [39; 39] else [c]) ++ escape s.
Proof. done. Qed.

Lemma literal_body_spec l s rest :
  literal_body l = (s, rest) → l = escape s ++ [39] ++ rest ∨ l = escape s ∧ rest = [].
Proof.
  remember (length l) as n eqn:Hn. revert l Hn s rest.
  induction (lt_wf n) as [n _ IH]. intros l -> s rest.
  destruct l as [|c l]; simpl; [intros [= <- <-]; by right|].
  destruct (N.eqb_spec c 39) as [->|Hc].
  - destruct l as [|d r]; [intros [= <- <-]; by left|].
    destruct (N.eqb_spec d 39) as [->|Hd]; [|intros [= <- <-]; by left].
    destruct (literal_body r) as [s0 r0] eqn:E. intros [= <- <-].
    destruct (IH (length r) ltac:(simpl; lia) r eq_refl s0 r0 E) as [->|[-> ->]]; [by left|by right].
  - destruct (literal_body l) as [s0 r0] eqn:E. intros [= <- <-].
    rewrite escape_text_cons. destruct (N.eqb_spec c 39); [done|].
    destruct (IH (length l) ltac:(simpl; lia) l eq_refl s0 r0 E) as [->|[-> ->]]; [by left|by right].
Qed.

Lemma block_body_spec l c rest :
  block_body l = (c, rest) → l = c ++ [42; 47] ++ rest ∨ l = c ++ rest.
Proof.
  revert c rest. induction l as [|a l IH]; intros c rest; [by intros [= <- <-]; right|].
  destruct l as [|d r]; [by intros [= <- <-]; right|].
  change (block_body (a :: d :: r)) with
    (if (a =? 42) && (d =? 47) then ([], r)
     else let '(x, b) := block_body (d :: r) in (a :: x, b)).
  destruct ((a =? 42) && (d =? 47)) eqn:E.
  - apply andb_prop in E as [->%N.eqb_eq ->%N.eqb_eq]. intros [= <- <-]. by left.
  - destruct (block_body (d :: r)) as [x b] eqn:Eb. intros [= <- <-].
    destruct (IH x b eq_refl) as [H|H]; rewrite H; [by left|by right].
Qed.

Lemma quoted_body_spec q l s rest :
  quoted_body q l = (s, rest) →
  q ∉ s ∧ (l = s ++ [q] ++ rest ∨ l = s ∧ rest = []).
Proof.
  unfold quoted_body. destruct (span _ l) as [a b] eqn:E. intros [= <- <-].
  apply span_spec in E as (-> & Ha & Hb). split.
  - intros Hin. rewrite Forall_forall in Ha. specialize (Ha q Hin). simpl in Ha.
    by rewrite N.eqb_refl in Ha.
  - destruct b as [|d r]; [right; by rewrite app_nil_r|].
    apply negb_false_iff, N.eqb_eq in Hb as ->. by left.
Qed.

Lemma exponent_spec l a b : exponent l = (a, b) → l = a ++ b.
Proof.
  unfold exponent. destruct l as [|c l]; [by intros [= <- <-]|].
  destruct (_ || _); [|by intros [= <- <-]]. destruct l as [|d l2]; [by intros [= <- <-]|].
  destruct (_ || _); (destruct (span _ _) as [ds rest] eqn:E; intros [= <- <-];
    apply span_spec in E as (Hl & _); by rewrite Hl).
Qed.

Lemma number_spec l n rest : number l = (n, rest) → l = n ++ rest.
Proof.
  unfold number. destruct (span _ l) as [ds r] eqn:E. destruct (exponent r) as [ex rest'] eqn:Ee.
  intros [= <- <-]. apply span_spec in E as (-> & _). apply exponent_spec in Ee as ->.
  by rewrite <-(assoc_L (++)).
Qed.

Lemma number_nonempty c l : starts_number (c :: l) = true → (number (c :: l)).1 ≠ [].
Proof.
  unfold starts_number, number. intros Hs. simpl.
  assert (is_ascii_digit c || (c =? 46) = true) as ->.
  { destruct (is_ascii_digit c); [done|]. by apply andb_prop in Hs as [-> _]. }
  destruct (span _ l) as [ds r]. destruct (exponent r). done.
Qed.

Section Properties.
Context {UT : UnicodeTables}.

Lemma starts_word_char c : starts_word c = true → word_char c = true.
Proof.
  unfold starts_word, word_char. intros [Ha|He]%orb_true_iff.
  - by rewrite is_alphanumeric_alphabetic.
  - rewrite He. by rewrite orb_true_r.
Qed.

(** One turn of the loop reads a non-empty lexeme of the token it emits. *)
Lemma next_token_lexeme c l t rest :
  next_token c l = (t, rest) → ∃ w, c :: l = w ++ rest ∧ w ≠ [] ∧ lexeme t w.
Proof.
  unfold next_token.
  destruct (is_ascii_whitespace c) eqn:Hws.
  { destruct (span is_ascii_whitespace l) as [a b] eqn:E. intros [= <- <-].
    apply span_spec in E as (-> & Ha & _). exists (c :: a). split_and!; [done..|by constructor]. }
  destruct (_ && _) eqn:Hlc.
  { destruct l as [|d l]; [by rewrite andb_false_r in Hlc|].
    apply andb_prop in Hlc as [->%N.eqb_eq ->%N.eqb_eq]. cbn [tl].
    destruct (span _ l) as [a b] eqn:E. intros [= <- <-]. apply span_spec in E as (-> & Ha & _).
    exists ([45; 45] ++ a). split_and!; [done..|]. simpl. split; [done|]. intros Hin.
    rewrite Forall_forall in Ha. by specialize (Ha 10 Hin). }
  clear Hlc. destruct (_ && _) eqn:Hbc.
  { destruct l as [|d l]; [by rewrite andb_false_r in Hbc|].
    apply andb_prop in Hbc as [->%N.eqb_eq ->%N.eqb_eq]. cbn [tl].
    destruct (block_body l) as [a b] eqn:E. intros [= <- <-].
    apply block_body_spec in E as [->| ->].
    - exists ([47; 42] ++ a ++ [42; 47]). split_and!; [by rewrite <-!(assoc_L (++))|done|by left].
    - exists ([47; 42] ++ a). split_and!; [done..|by right]. }
  clear Hbc. destruct (N.eqb_spec c 39) as [->|_].
  { destruct (literal_body l) as [s r] eqn:E. intros [= <- <-].
    apply literal_body_spec in E as [->|[-> ->]].
    - exists ([39] ++ escape s ++ [39]). split_and!; [by rewrite <-!(assoc_L (++))|done|by left].
    - exists ([39] ++ escape s). split_and!; [by rewrite app_nil_r|done|by right]. }
  assert (Hq : ∀ q, (q = 34 ∨ q = 96) → c = q →
    (let '(s, rest0) := quoted_body q l in (Identifier s, rest0)) = (t, rest) →
    ∃ w, c :: l = w ++ rest ∧ w ≠ [] ∧ lexeme t w).
  { intros q Hq -> . destruct (quoted_body q l) as [s r] eqn:E. intros [= <- <-].
    apply quoted_body_spec in E as [Hni [->|[-> ->]]].
    - exists ([q] ++ s ++ [q]). split_and!; [by rewrite <-!(assoc_L (++))|done|right; eauto].
    - exists ([q] ++ s). split_and!; [by rewrite app_nil_r|done|right; eauto 10]. }
  destruct (N.eqb_spec c 34) as [->|_]; [by apply Hq; [left|]|].
  destruct (N.eqb_spec c 96) as [->|_]; [by apply Hq; [right|]|]. clear Hq.
  destruct (starts_number (c :: l)) eqn:Hn.
  { pose proof (number_nonempty c l Hn) as Hne.
    destruct (number (c :: l)) as [n r] eqn:E. intros [= <- <-]. apply number_spec in E.
    by exists n. }
  destruct (starts_word c) eqn:Hw.
  { assert (Hwc := starts_word_char c Hw). cbn [span]. rewrite Hwc.
    destruct (span word_char l) as [a b] eqn:E. apply span_spec in E as (-> & _).
    destruct (is_keyword (to_ascii_uppercase (c :: a))) eqn:Hk; intros [= <- <-]; exists (c :: a);
      (split_and!; [done|done|]); [done|by left]. }
  destruct l as [|d l].
  - destruct (existsb _ single_symbols); intros [= <- <-]; exists [c]; done.
  - destruct (existsb _ two_char_symbols); [intros [= <- <-]; by exists [c; d]|].
    destruct (existsb _ single_symbols); intros [= <- <-]; by exists [c].
Qed.

Lemma tokens_cover fuel l :
  (length l ≤ fuel)%nat →
  ∃ ws, concat ws = l ∧ Forall2 lexeme (tokens fuel l) ws ∧ Forall (fun w => w ≠ []) ws.
Proof.
  revert l. induction fuel as [|fuel IH]; intros [|c l] Hl; simpl in *;
    try (exists []; by split_and!); [lia|].
  destruct (next_token c l) as [t rest] eqn:E.
  apply next_token_lexeme in E as (w & Hw & Hne & Hlex).
  destruct (IH rest) as (ws & Hc & Hf & Hn).
  { apply (f_equal length) in Hw. rewrite length_app in Hw. simpl in Hw.
    destruct w; [done|]. simpl in Hw. lia. }
  exists (w :: ws). simpl. rewrite Hc. split_and!; [done|by constructor|by constructor].
Qed.

Lemma tokens_fuel f1 f2 l :
  (length l ≤ f1)%nat → (length l ≤ f2)%nat → tokens f1 l = tokens f2 l.
Proof.
  revert f2 l. induction f1 as [|f1 IH]; intros [|f2] [|c l] H1 H2; simpl in *; try done; try lia.
  destruct (next_token c l) as [t rest] eqn:E. f_equal.
  apply next_token_lexeme in E as (w & Hw & Hne & _).
  assert (length rest ≤ length l)%nat.
  { apply (f_equal length) in Hw. rewrite length_app in Hw. simpl in Hw.
    destruct w; [done|]. simpl in Hw. lia. }
  apply IH; lia.
Qed.

Lemma literal_body_escape s rest :
  match rest with c :: _ => c ≠ 39 | [] => True end →
  literal_body (escape s ++ 39 :: rest) = (s, rest).
Proof.
  intros Hr. induction s as [|c s IH].
  - simpl. destruct rest as [|d r]; [done|]. by destruct (N.eqb_spec d 39).
  - rewrite escape_text_cons. destruct (N.eqb_spec c 39) as [->|Hc]; simpl.
    + by rewrite IH.
    + destruct (N.eqb_spec c 39); [done|]. by rewrite IH.
Qed.

(** ** Properties *)


(** A quoted string is read back.  A text written in single quotes with its
    quotes doubled, followed by anything that does not start with a quote, is
    read as one string literal with that text, and the rest is tokenized as on
    its own: no text can break out of its quotes. *)
Theorem string_literal_roundtrip (s rest : text) :
  match rest with c :: _ => c ≠ 39 | [] => True end →
  tokenize ([39] ++ escape s ++ [39] ++ rest) = StringLiteral s :: tokenize rest.
Proof.
  intros Hr. unfold tokenize at 1. simpl app.
  change (39 :: escape s ++ 39 :: rest) with ([39] ++ escape s ++ 39 :: rest).
  cbn [app length tokens]. unfold next_token. cbn [is_ascii_whitespace existsb N.eqb orb andb].
  rewrite literal_body_escape by done. f_equal. apply tokens_fuel; [|done].
  rewrite length_app. simpl. lia.
Qed.

End Properties.

(** ASCII-only tables, to evaluate examples. *)
Definition ascii_tables : UnicodeTables.
Proof.
  refine {| is_alphabetic := is_ascii_alphabetic;
            is_alphanumeric := fun c => is_ascii_alphabetic c || is_ascii_digit c |}; try done.
  intros c ->. done.
Defined.

Lemma string_literal_roundtrip_witness :
  let UT := ascii_tables in
  tokenize ([39] ++ escape (chars "'; DROP") ++ [39] ++ chars ", 7")
  = [StringLiteral (chars "'; DROP"); Symbol [44]; Whitespace; Number (chars "7")].
Proof.
  intros UT.
  refine (eq_trans (@string_literal_roundtrip ascii_tables (chars "'; DROP") (chars ", 7") _) _).
  - vm_compute. discriminate.
  - vm_compute. reflexivity.
Defined.

(** An unterminated block comment gives its last character back as a token. *)
Lemma unterminated_comment_leaks :
  let UT := ascii_tables in
  tokenize (chars "/* x") = [BlockComment (chars " "); Identifier (chars "x")].
Proof. vm_compute. reflexivity. Qed.

(** Printing a literal does not double its quotes. *)
Lemma display_does_not_escape :
  let UT := ascii_tables in
  tokenize (display (StringLiteral (chars "a'b")))
  = [StringLiteral (chars "a"); Identifier (chars "b"); StringLiteral []].
Proof. vm_compute. reflexivity. Qed.
