(* ===== verification/Ast.v ===== *)
(** * Statements and their parser
      ([crates/voltnuerongrid-sql/src/ast.rs], [sqlparser_adapter.rs])

    The statement types, the parsers of SELECT, INSERT, UPDATE, DELETE and CREATE
    TABLE on semantic tokens, and [parse_one].  A cursor loop over the token slice
    is a recursion on the tokens that are left, its local variables the arguments.
    The boolean [has_*] flags that [parse_tokens] adds to a SELECT by searching the
    text are in [AstFlags]; SELECT statements that the third-party parser accepts
    come from the class [SqlParserAdapter]. *)

From S2P Require Import Prelude Str Decimal Tokenizer.
From Stdlib Require Import Ascii.
Local Open Scope string_scope.
Local Open Scope list_scope.
Local Open Scope N_scope.

Module Ast.
Import Tokenizer.

(** ** Statements *)

Record OrderByClause := mkOrderBy { ob_column : text; descending : bool }.

Record JoinClause := mkJoin { join_table : text; on_condition : option text }.

Record SelectStatement := mkSelect {
  sel_columns : list text;
  sel_table : option text;
  join : option JoinClause;
  sel_where : option text;
  group_by : list text;
  having : option text;
  order_by : list OrderByClause;
  limit : option N;
  offset : option N;
  has_limit_offset_pagination : bool;
}.

Record InsertStatement := mkInsert {
  ins_table : text;
  ins_columns : list text;
  ins_values : list (list text);
}.

Record UpdateStatement := mkUpdate {
  upd_table : text;
  upd_assignments : list (text * text);
  upd_where : option text;
}.

Record DeleteStatement := mkDelete { del_table : text; del_where : option text }.

Record ColumnDef := mkColumn { col_name : text; data_type : text }.

Record CreateTableStatement := mkCreate { cre_table : text; cre_columns : list ColumnDef }.

Inductive Statement :=
| SSelect (s : SelectStatement)
| SInsert (i : InsertStatement)
| SUpdate (u : UpdateStatement)
| SDelete (d : DeleteStatement)
| SCreateTable (c : CreateTableStatement)
| SBegin
| SCommit
| SRollback
| SUnknown (raw : text).

(** ** Token utilities *)

Definition ascii_lower (c : N) : N := if in_range 65 90 c then c + 32 else c.

Definition to_ascii_lowercase (w : text) : text := map ascii_lower w.

Definition eq_ignore_ascii_case (a b : text) : bool :=
  bool_decide (to_ascii_lowercase a = to_ascii_lowercase b).

(** [matches!(t, Token::Keyword(k) if k.eq_ignore_ascii_case(kw))] *)
Definition is_kw (kw : string) (t : Token) : bool :=
  match t with Keyword k => eq_ignore_ascii_case k (chars kw) | _ => false end.

(** [matches!(t, Token::Symbol(s) if s == sy)] *)
Definition is_sym (sy : string) (t : Token) : bool :=
  match t with Symbol s => bool_decide (s = chars sy) | _ => false end.

Definition token_as_name (t : Token) : option text :=
  match t with Identifier s | Keyword s => Some s | _ => None end.

(** [tokens[from..].iter().position(p).map(|i| i + from)] *)
Definition position_from (p : Token -> bool) (tokens : list Token) (from : nat) : option nat :=
  (fun ix => (ix.1 + from)%nat) <$> list_find (fun t => p t = true) (drop from tokens).

Definition find_keyword_from (tokens : list Token) (kw : string) (from : nat) : option nat :=
  position_from (is_kw kw) tokens from.

Definition find_keyword (tokens : list Token) (kw : string) : option nat :=
  find_keyword_from tokens kw 0.

Definition find_any_keyword_from (tokens : list Token) (kws : list string) (from : nat) : option nat :=
  position_from (fun t => existsb (fun kw => is_kw kw t) kws) tokens from.

(** [tokens[from..to]] *)
Definition slice (from to : nat) (tokens : list Token) : list Token :=
  take (to - from) (drop from tokens).

Definition raw_token (t : Token) : text :=
  match t with
  | Keyword s | Identifier s | Number s => s
  | StringLiteral s => [39] ++ s ++ [39]
  | Symbol s => s
  | _ => []
  end.

(** [Vec<String>::join] *)
Fixpoint join_text (sep : text) (l : list text) : text :=
  match l with
  | [] => []
  | x :: l' => match l' with [] => x | _ => x ++ sep ++ join_text sep l' end
  end.

Definition tokens_to_raw (tokens : list Token) : text := join_text [32] (map raw_token tokens).

(** [str::parse::<u64>] of a number token. *)
Definition parse_u64 (n : text) : option N :=
  match n with
  | [] => None
  | _ =>
      if forallb is_ascii_digit n then
        let v := fold_left (fun acc c => acc * 10 + (c - 48)) n 0 in
        if v <? u64_modulus then Some v else None
      else None
  end.

(** ** INSERT *)

(** [INSERT INTO t (a, b] up to and past the closing parenthesis. *)
Fixpoint column_list (l : list Token) : list text * list Token :=
  match l with
  | [] => ([], [])
  | t :: l' =>
      if is_sym ")" t then ([], l')
      else if is_sym "," t then column_list l'
      else
        let '(cs, rest) := column_list l' in
        (match token_as_name t with Some n => n :: cs | None => cs end, rest)
  end.

(** A literal of a VALUES row; every other token is passed over. *)
Definition row_value (t : Token) : option text :=
  match t with
  | StringLiteral s => Some s
  | Number n => Some n
  | Keyword k => if eq_ignore_ascii_case k (chars "NULL") then Some (chars "NULL") else None
  | _ => None
  end.

(** The two nested loops over VALUES rows; [row] is the row being read. *)
Fixpoint value_rows (row : option (list text)) (l : list Token) : list (list text) :=
  match l with
  | [] => match row with Some vs => [vs] | None => [] end
  | t :: l' =>
      match row with
      | Some vs =>
          if is_sym ")" t then vs :: value_rows None l'
          else if is_sym "," t then value_rows (Some vs) l'
          else value_rows (Some (match row_value t with Some v => vs ++ [v] | None => vs end)) l'
      | None =>
          if is_sym "(" t then value_rows (Some []) l'
          else if is_sym "," t then value_rows None l'
          else []
      end
  end.

Definition parse_insert (tokens : list Token) : result InsertStatement string :=
  let l := tl tokens in
  let l := match l with t :: l' => if is_kw "INTO" t then l' else l | [] => l end in
  match l with
  | (Identifier table | Keyword table) :: l =>
      let '(columns, l) :=
        match l with t :: l' => if is_sym "(" t then column_list l' else ([], l) | [] => ([], l) end in
      match l with
      | t :: l' =>
          if is_kw "VALUES" t then Ok (mkInsert table columns (value_rows None l'))
          else Err "INSERT missing VALUES keyword"
      | [] => Err "INSERT missing VALUES keyword"
      end
  | _ => Err "INSERT missing table name"
  end.

(** ** UPDATE *)

(** The SET loop.  [pending] is the column whose value is awaited, and whether
    its [=] has been passed; a comma is not a name, so passing over it needs no
    state. *)
Fixpoint assignments (pending : option (text * bool)) (l : list Token) : list (text * text) :=
  match l with
  | [] => []
  | t :: l' =>
      match pending with
      | None =>
          match token_as_name t with
          | Some col => assignments (Some (col, false)) l'
          | None => assignments None l'
          end
      | Some (col, seen_eq) =>
          if negb seen_eq && is_sym "=" t then assignments (Some (col, true)) l'
          else match row_value t with
               | Some v => (col, v) :: assignments None l'
               | None => assignments None l'
               end
      end
  end.

Definition parse_update (tokens : list Token) : UpdateStatement :=
  let '(table, pos) :=
    match tokens !! 1%nat with
    | Some (Identifier t | Keyword t) => (t, 2%nat)
    | _ => ([], 1%nat)
    end in
  let pos :=
    match tokens !! pos with Some t => if is_kw "SET" t then S pos else pos | None => pos end in
  let where_pos := find_keyword_from tokens "WHERE" pos in
  let assign_end := default (length tokens) where_pos in
  mkUpdate table (assignments None (slice pos assign_end tokens))
    ((fun wp => tokens_to_raw (drop (S wp) tokens)) <$> where_pos).

(** ** DELETE *)

Definition parse_delete (tokens : list Token) : DeleteStatement :=
  let pos :=
    match tokens !! 1%nat with Some t => if is_kw "FROM" t then 2%nat else 1%nat | None => 1%nat end in
  let '(table, pos) :=
    match tokens !! pos with
    | Some (Identifier t | Keyword t) => (t, S pos)
    | _ => ([], pos)
    end in
  mkDelete table
    ((fun wp => tokens_to_raw (drop (S wp) tokens)) <$> find_keyword_from tokens "WHERE" pos).

(** ** CREATE TABLE *)

Fixpoint compact_type (prev : option text) (parts : list text) : text :=
  match parts with
  | [] => []
  | p :: parts' =>
      (if existsb (fun s => bool_decide (p = chars s)) ["("; ")"; ","] then p
       else
         match prev with
         | None => p
         | Some q =>
             if bool_decide (q = chars "(") || bool_decide (q = chars ",") then p else [32] ++ p
         end) ++ compact_type (Some p) parts'
  end.

Definition compact_type_string (parts : list text) : text := compact_type None parts.

(** What a token adds to a column's type. *)
Definition type_part (t : Token) : list text :=
  match t with
  | Identifier n | Keyword n | Number n => [n]
  | Symbol s =>
      if existsb (fun x => bool_decide (s = chars x)) ["("; ")"; ","] then [s] else []
  | _ => []
  end.

(** [paren_depth] after the token. *)
Definition paren_depth (t : Token) (depth : nat) : nat :=
  if is_sym "(" t then S depth else if is_sym ")" t then Nat.pred depth else depth.

(** The column loop; [column] is the column being read: its name, the parts of
    its type and the depth of open parentheses. *)
Fixpoint column_defs (column : option (text * list text * nat)) (l : list Token) : list ColumnDef :=
  match l with
  | [] =>
      match column with
      | Some (name, parts, _) => [mkColumn name (compact_type_string parts)]
      | None => []
      end
  | t :: l' =>
      match column with
      | None =>
          if is_sym ")" t then []
          else if is_sym "," t then column_defs None l'
          else match token_as_name t with
               | Some name => column_defs (Some (name, [], O)) l'
               | None => column_defs None l'
               end
      | Some (name, parts, depth) =>
          if (is_sym "," t || is_sym ")" t) && Nat.eqb depth 0 then
            mkColumn name (compact_type_string parts) ::
            (if is_sym ")" t then [] else column_defs None l')
          else column_defs (Some (name, parts ++ type_part t, paren_depth t depth)) l'
      end
  end.

Definition parse_create (tokens : list Token) : result CreateTableStatement string :=
  let pos :=
    match tokens !! 1%nat with Some t => if is_kw "OR" t then 3%nat else 1%nat | None => 1%nat end in
  match drop pos tokens with
  | t :: l =>
      if negb (is_kw "TABLE" t) then Err "CREATE without TABLE" else
      match l with
      | (Identifier table | Keyword table) :: l' =>
          Ok (mkCreate table
                (match l' with
                 | p :: l2 => if is_sym "(" p then column_defs None l2 else []
                 | [] => []
                 end))
      | _ => Err "CREATE TABLE missing name"
      end
  | [] => Err "CREATE without TABLE"
  end.

(** ** SELECT *)

Definition select_column (t : Token) : option text :=
  match token_as_name t with
  | Some n => Some n
  | None => if is_sym "*" t then Some (chars "*") else None
  end.

(** The ORDER BY loop; a DESC after a name belongs to it. *)
Fixpoint order_items (l : list Token) : list OrderByClause :=
  match l with
  | [] => []
  | t :: l' =>
      match token_as_name t with
      | Some n =>
          match l' with
          | d :: l2 =>
              if is_kw "DESC" d then mkOrderBy n true :: order_items l2
              else mkOrderBy n false :: order_items l'
          | [] => [mkOrderBy n false]
          end
      | None => order_items l'
      end
  end.

(** The position after an optional BY. *)
Definition skip_by (tokens : list Token) (p : nat) : nat :=
  match tokens !! S p with
  | Some t => if is_kw "BY" t then S (S p) else S p
  | None => S p
  end.

(** [JOIN t [ON condition]]: the clause and the position after it. *)
Definition parse_join (tokens : list Token) (pos : nat) : option JoinClause * nat :=
  match find_keyword_from tokens "JOIN" pos with
  | None => (None, pos)
  | Some jp =>
      match tokens !! S jp with
      | Some (Identifier t | Keyword t) =>
          let pos := S (S jp) in
          match tokens !! pos with
          | Some k =>
              if is_kw "ON" k then
                let from := S pos in
                let on_end :=
                  default (length tokens)
                    (find_any_keyword_from tokens ["WHERE"; "GROUP"; "HAVING"; "ORDER"; "LIMIT"] from) in
                let cond := tokens_to_raw (slice from on_end tokens) in
                (Some (mkJoin t (match cond with [] => None | _ => Some cond end)), on_end)
              else (Some (mkJoin t None), pos)
          | None => (Some (mkJoin t None), pos)
          end
      | _ => (None, S jp)
      end
  end.

(** A clause that runs from its keyword to the next of [ends]: its text and the
    position after it. *)
Definition raw_clause (tokens : list Token) (kw : string) (ends : list string) (pos : nat)
    : option text * nat :=
  match find_keyword_from tokens kw pos with
  | None => (None, pos)
  | Some p =>
      let stop := default (length tokens) (find_any_keyword_from tokens ends (S p)) in
      (Some (tokens_to_raw (slice (S p) stop tokens)), stop)
  end.

Definition parse_select (tokens : list Token) : SelectStatement :=
  let from_pos := find_keyword tokens "FROM" in
  let columns := omap select_column (slice 1 (default (length tokens) from_pos) tokens) in
  let columns := match columns with [] => [chars "*"] | _ => columns end in
  let '(table, pos) :=
    match from_pos with
    | None => (None, 1%nat)
    | Some fp =>
        match tokens !! S fp with
        | Some (Identifier t | Keyword t) => (Some t, S (S fp))
        | _ => (None, S fp)
        end
    end in
  let '(jn, pos) := parse_join tokens pos in
  let '(wh, pos) := raw_clause tokens "WHERE" ["GROUP"; "HAVING"; "ORDER"; "LIMIT"] pos in
  let '(groups, pos) :=
    match find_keyword_from tokens "GROUP" pos with
    | None => ([], pos)
    | Some gp =>
        let from := skip_by tokens gp in
        let stop :=
          default (length tokens) (find_any_keyword_from tokens ["HAVING"; "ORDER"; "LIMIT"] from) in
        (omap token_as_name (slice from stop tokens), stop)
    end in
  let '(hav, pos) := raw_clause tokens "HAVING" ["ORDER"; "LIMIT"] pos in
  let '(orders, pos) :=
    match find_keyword_from tokens "ORDER" pos with
    | None => ([], pos)
    | Some op =>
        let from := skip_by tokens op in
        let stop := default (length tokens) (find_any_keyword_from tokens ["LIMIT"] from) in
        (order_items (slice from stop tokens), stop)
    end in
  let '(lim, off) :=
    match find_keyword_from tokens "LIMIT" pos with
    | None => (None, None)
    | Some lp =>
        (match tokens !! S lp with Some (Number n) => parse_u64 n | _ => None end,
         match tokens !! S (S lp) with
         | Some k =>
             if is_kw "OFFSET" k then
               match tokens !! S (S (S lp)) with Some (Number n) => parse_u64 n | _ => None end
             else None
         | None => None
         end)
    end in
  mkSelect columns table jn wh groups hav orders lim off
    (bool_decide (is_Some lim) && bool_decide (is_Some off)).

(** ** Entry points *)

Definition parse_tokens (raw : text) (tokens : list Token) : result Statement string :=
  match tokens with
  | Keyword k :: _ =>
      let kw_is (s : string) := bool_decide (to_ascii_uppercase k = chars s) in
      if kw_is "SELECT" then Ok (SSelect (parse_select tokens))
      else if kw_is "WITH" then
        let select_pos := default 0%nat (find_keyword tokens "SELECT") in
        Ok (SSelect (parse_select (drop select_pos tokens)))
      else if kw_is "INSERT" then
        match parse_insert tokens with Ok i => Ok (SInsert i) | Err e => Err e end
      else if kw_is "UPDATE" then Ok (SUpdate (parse_update tokens))
      else if kw_is "DELETE" then Ok (SDelete (parse_delete tokens))
      else if kw_is "CREATE" then
        match parse_create tokens with
        | Ok c => Ok (SCreateTable c)
        | Err _ => Ok (SUnknown raw)
        end
      else if kw_is "BEGIN" || kw_is "START" then Ok SBegin
      else if kw_is "COMMIT" then Ok SCommit
      else if kw_is "ROLLBACK" then Ok SRollback
      else Ok (SUnknown raw)
  | _ => Ok (SUnknown raw)
  end.

(** [parse_with_sqlparser]: what the [sqlparser] library makes of a statement.
    It only answers for queries and transaction control, so never for a
    statement that begins with one of the four keywords below. *)
Class SqlParserAdapter `{!UnicodeTables} := {
  parse_with_sqlparser : text -> option Statement;
  dml_deferred : ∀ sql kw rest,
    semantic_tokens sql = Keyword (chars kw) :: rest →
    kw ∈ ["INSERT"; "UPDATE"; "DELETE"; "CREATE"] →
    parse_with_sqlparser sql = None;
}.

Definition parse_one `{!UnicodeTables} `{!SqlParserAdapter} (sql : text) : result Statement string :=
  match parse_with_sqlparser sql with
  | Some stmt => Ok stmt
  | None =>
      let tokens := semantic_tokens sql in
      match tokens with [] => Err "empty input" | _ => parse_tokens sql tokens end
  end.

End Ast.
