(* ===== verification/SqlParse.v ===== *)
(** * Rows and keys of SQL statements
      ([services/voltnuerongridd/src/helpers/sql_parse.rs])

    The functions that turn INSERT, UPDATE and DELETE statements into row keys and
    row data, the canonical single-row INSERT that goes to the statement log, and
    the smaller helpers on DDL, views and declared types.  A [str] is its list of
    code points: every index the code computes is used on the text it was found
    in (or on its ASCII case mapping, which keeps positions), so code-point
    positions stand for byte offsets. *)

From S2P Require Import Prelude Str Decimal Tokenizer Ast.
From Stdlib Require Import Ascii.
Local Open Scope string_scope.
Local Open Scope list_scope.
Local Open Scope N_scope.

Module SqlParse.
Import Tokenizer Ast.

(** ** [str] on code points *)

(** [char::is_whitespace] *)
Definition is_whitespace (c : N) : bool :=
  in_range 9 13 c || in_range 8192 8202 c ||
  existsb (N.eqb c) [32; 133; 160; 5760; 8232; 8233; 8239; 8287; 12288].

Definition trim_start (l : text) : text := (span is_whitespace l).2.
Definition trim_end (l : text) : text := rev (trim_start (rev l)).
Definition trim (l : text) : text := trim_end (trim_start l).

Fixpoint starts_with (p l : text) : bool :=
  match p, l with
  | [], _ => true
  | a :: p', b :: l' => (a =? b) && starts_with p' l'
  | _ :: _, [] => false
  end.

(** [str::find] of a text. *)
Fixpoint find_text (p l : text) : option nat :=
  if starts_with p l then Some O
  else match l with [] => None | _ :: l' => S <$> find_text p l' end.

Definition contains (p l : text) : bool := bool_decide (is_Some (find_text p l)).

(** What precedes the first character with [p] ([split(p).next()], or
    [l[..l.find(p).unwrap_or(l.len())]]). *)
Definition until (p : N -> bool) (l : text) : text := (span (fun c => negb (p c)) l).1.

(** [l.rsplit(c).next()]: what follows the last [c]. *)
Definition after_last (c : N) (l : text) : text := rev (until (N.eqb c) (rev l)).

Definition find_char (c : N) (l : text) : option nat :=
  fst <$> list_find (fun d => d = c) l.

Definition rfind_char (c : N) (l : text) : option nat :=
  (fun i => (length l - S i)%nat) <$> find_char c (rev l).

Definition number_text (n : nat) : text := chars (Dec.to_string (N.of_nat n)).

(** [format!("'{}'", s.replace('\'', "''"))] *)
Definition double_quotes (s : text) : text :=
  concat (map (fun c => if c =? 39 then [39; 39] else [c]) s).

(** Digits, a point and digits, with at least one digit: what is left after
    them. *)
Definition skip_decimal (l : text) : option text :=
  let '(a, r) := span is_ascii_digit l in
  match r with
  | 46 :: r' =>
      let '(b, r2) := span is_ascii_digit r' in
      match a, b with [], [] => None | _, _ => Some r2 end
  | _ => match a with [] => None | _ => Some r end
  end.

Definition all_digits (l : text) : bool := forallb is_ascii_digit l && negb (bool_decide (l = [])).

Definition strip_sign (l : text) : text :=
  match l with c :: l' => if (c =? 43) || (c =? 45) then l' else l | [] => l end.

(** [s.parse::<f64>().is_ok()] *)
Definition parses_f64 (s : text) : bool :=
  let l := strip_sign s in
  existsb (fun w => eq_ignore_ascii_case l (chars w)) ["inf"; "infinity"; "nan"] ||
  match skip_decimal l with
  | None => false
  | Some [] => true
  | Some (c :: r) => ((c =? 101) || (c =? 69)) && all_digits (strip_sign r)
  end.

(** [s.parse::<i64>().is_ok()] *)
Definition parses_i64 (s : text) : bool :=
  let l := strip_sign s in
  all_digits l &&
  (let v := fold_left (fun acc c => acc * 10 + (c - 48)) l 0 in
   if match s with c :: _ => c =? 45 | [] => false end
   then v <=? 9223372036854775808 else v <=? 9223372036854775807).

(** ** Keys *)

Abbreviation row_data := (gmap text text).

Definition table_meta : text := chars "__table".

(** [format!("{table}:{v}")] *)
Definition key_of (table v : text) : text := table ++ [58] ++ v.

Definition make_row_key (db table row_id : text) : text :=
  match db with [] => key_of table row_id | _ => db ++ [46] ++ key_of table row_id end.

Definition make_table_scan_prefix (db table : text) : text :=
  match db with [] => table ++ [58] | _ => db ++ [46] ++ table ++ [58] end.

Definition db_prefix_key (db raw_key : text) : text :=
  match db with [] => raw_key | _ => db ++ [46] ++ raw_key end.

Section Extract.
Context `{!UnicodeTables} `{!SqlParserAdapter}.

(** ** DELETE *)

(** The loop for the table of [DELETE FROM t]. *)
Fixpoint table_after_from (past_from : bool) (l : list Token) : option text :=
  match l with
  | [] => None
  | t :: l' =>
      if is_kw "FROM" t then table_after_from true l'
      else match token_as_name t with
           | Some n =>
               if past_from then Some (to_ascii_lowercase (after_last 46 n))
               else table_after_from past_from l'
           | None => table_after_from past_from l'
           end
  end.

(** The loop for the first literal after WHERE and [=]. *)
Fixpoint where_literal (after_where past_eq : bool) (l : list Token) : option text :=
  match l with
  | [] => None
  | t :: l' =>
      if is_kw "WHERE" t then where_literal true past_eq l'
      else if is_sym "=" t && after_where then where_literal after_where true l'
      else match t with
           | StringLiteral s | Number s =>
               if past_eq then Some s else where_literal after_where past_eq l'
           | _ => where_literal after_where past_eq l'
           end
  end.

Definition starts_upper (kw : string) (sql : text) : bool :=
  starts_with (chars kw) (to_ascii_uppercase (trim_start sql)).

Definition extract_delete_key_from_sql (sql : text) : option text :=
  let tokens := semantic_tokens sql in
  if negb (starts_upper "DELETE" sql) then None else
  let table := table_after_from false tokens in
  match where_literal false false tokens with
  | Some v => Some (match table with Some t => key_of t v | None => v end)
  | None => None
  end.

(** ** UPDATE *)

Definition extract_update_row_from_sql (sql : text) : option (text * row_data) :=
  match parse_one sql with
  | Ok (SUpdate upd) =>
      let key := default (upd_table upd) (where_literal false false (semantic_tokens sql)) in
      let data :=
        fold_left (fun d cv => <[cv.1 := cv.2]> d) (upd_assignments upd)
          {[table_meta := upd_table upd]} in
      Some (key_of (upd_table upd) key, data)
  | _ => None
  end.

(** The WHERE loop of the bulk extractors: the column, whether its [=] was
    passed, and the value. *)
Record where_scan := mkScan {
  after_where : bool;
  where_col : option text;
  past_eq : bool;
  where_val : option text;
}.

Definition scan_start : where_scan := mkScan false None false None.

Definition scan_value (v : text) (w : where_scan) : where_scan :=
  if past_eq w && negb (bool_decide (is_Some (where_val w)))
  then mkScan (after_where w) (where_col w) (past_eq w) (Some v) else w.

Definition scan_where (w : where_scan) (t : Token) : where_scan :=
  match t with
  | Keyword _ => if is_kw "WHERE" t then mkScan true (where_col w) (past_eq w) (where_val w) else w
  | Identifier id =>
      if after_where w && negb (bool_decide (is_Some (where_col w)))
      then mkScan true (Some (to_ascii_lowercase id)) (past_eq w) (where_val w) else w
  | Symbol _ =>
      if is_sym "=" t && after_where w && bool_decide (is_Some (where_col w)) && negb (past_eq w)
      then mkScan true (where_col w) true (where_val w) else w
  | StringLiteral s | Number s => scan_value s w
  | _ => w
  end.

Definition extract_bulk_update_target (sql : text) : option (text * text * text * text * text) :=
  match parse_one sql with
  | Ok (SUpdate upd) =>
      match upd_assignments upd with
      | [] => None
      | (set_col, set_val) :: _ =>
          let w := fold_left scan_where (semantic_tokens sql) scan_start in
          match where_col w, where_val w with
          | Some c, Some v => Some (to_ascii_lowercase (upd_table upd), set_col, set_val, c, v)
          | _, _ => None
          end
      end
  | _ => None
  end.

(** In the bulk DELETE loop the arms for FROM and for the table come first, so
    the tokens they take do not reach the WHERE arms. *)
Fixpoint scan_delete (past_from : bool) (table : option text) (w : where_scan) (l : list Token)
    : option text * where_scan :=
  match l with
  | [] => (table, w)
  | t :: l' =>
      if is_kw "FROM" t && negb past_from then scan_delete true table w l'
      else match token_as_name t with
           | Some n =>
               if past_from && negb (bool_decide (is_Some table))
               then scan_delete past_from (Some (to_ascii_lowercase (after_last 46 n))) w l'
               else scan_delete past_from table (scan_where w t) l'
           | None => scan_delete past_from table (scan_where w t) l'
           end
  end.

Definition extract_bulk_delete_target (sql : text) : option (text * text * text) :=
  if negb (starts_upper "DELETE" sql) then None else
  let '(table, w) := scan_delete false None scan_start (semantic_tokens sql) in
  match table, where_col w, where_val w with
  | Some t, Some c, Some v => if eq_ignore_ascii_case c (chars "id") then None else Some (t, c, v)
  | _, _, _ => None
  end.

(** ** INSERT *)

Definition column_at (columns ddl : list text) (i : nat) : text :=
  match columns with
  | [] => match ddl !! i with Some name => name | None => chars "col_" ++ number_text i end
  | _ => match columns !! i with
         | Some c => to_ascii_lowercase c
         | None => chars "col_" ++ number_text i
         end
  end.

Definition row_of (table : text) (columns ddl vals : list text) : row_data :=
  fold_left (fun d iv => <[column_at columns ddl iv.1 := iv.2]> d)
    (imap pair vals) {[table_meta := table]}.

Definition extract_insert_row_from_sql_with_cols (sql : text) (ddl_col_names : list text)
    : option (text * row_data) :=
  match parse_one sql with
  | Ok (SInsert ins) =>
      let table := after_last 46 (ins_table ins) in
      match ins_values ins with
      | (v :: _) as vals :: _ =>
          Some (key_of table v, row_of table (ins_columns ins) ddl_col_names vals)
      | _ => None
      end
  | _ => None
  end.

Definition extract_insert_row_from_sql (sql : text) : option (text * row_data) :=
  extract_insert_row_from_sql_with_cols sql [].

(** The characters that end a table name in the text. *)
Definition ends_table (c : N) : bool := existsb (N.eqb c) [32; 10; 9; 40].

Definition strip_schema_qualifier_from_insert (sql : text) : text :=
  if negb (existsb (N.eqb 46) sql) then sql else
  match find_text (chars "INTO") (to_ascii_uppercase sql) with
  | None => sql
  | Some into =>
      let '(before, after) := (take (into + 4) sql, drop (into + 4) sql) in
      let '(ws, table_text) := span is_whitespace after in
      let name := until ends_table table_text in
      match find_char 46 name with
      | Some dot => before ++ ws ++ drop (S dot) name ++ drop (length name) table_text
      | None => sql
      end
  end.

(** The table as written after INTO, or the parsed one. *)
Definition original_table (sql : text) (ins : InsertStatement) : text :=
  match find_text (chars "INTO") (to_ascii_uppercase sql) with
  | Some into => until ends_table (trim_start (drop (into + 4) sql))
  | None => ins_table ins
  end.

Definition wal_value (v : text) : text :=
  let trimmed := trim v in
  if parses_f64 trimmed then trimmed else [39] ++ double_quotes trimmed ++ [39].

(** The canonical single-row INSERT. *)
Definition single_insert (table : text) (columns vals : list text) : text :=
  chars "INSERT INTO " ++ table
  ++ match columns with
     | [] => []
     | _ => chars " (" ++ join_text (chars ", ") columns ++ chars ")"
     end
  ++ chars " VALUES (" ++ join_text (chars ", ") (map wal_value vals) ++ chars ");".

Definition extract_all_insert_rows (sql : text) : list (text * row_data * text) :=
  match parse_one (strip_schema_qualifier_from_insert sql) with
  | Ok (SInsert ins) =>
      let orig := original_table sql ins in
      let table := after_last 46 orig in
      omap (fun vals =>
              match vals with
              | [] => None
              | v :: _ => Some (key_of table v, row_of table (ins_columns ins) [] vals,
                                single_insert orig (ins_columns ins) vals)
              end) (ins_values ins)
  | _ => []
  end.

(** ** DDL and views *)

Definition extract_partition_column (upper_sql : text) : option text :=
  let tag := chars "PARTITION BY RANGE" in
  match find_text tag upper_sql with
  | None => None
  | Some start =>
      match trim (drop (start + length tag) upper_sql) with
      | 40 :: inner =>
          match trim (until (N.eqb 41) inner) with
          | [] => None
          | col => Some (to_ascii_lowercase col)
          end
      | _ => None
      end
  end.

(** [if !trimmed.is_empty() { cols.push(trimmed) }] *)
Definition clause_of (current : text) : list text :=
  match trim current with [] => [] | c => [c] end.

(** Clauses separated by commas outside parentheses. *)
Fixpoint split_clauses (depth : nat) (current l : text) : list text :=
  match l with
  | [] => clause_of current
  | c :: l' =>
      if c =? 40 then split_clauses (S depth) (current ++ [c]) l'
      else if c =? 41 then split_clauses (Nat.pred depth) (current ++ [c]) l'
      else if (c =? 44) && Nat.eqb depth 0 then clause_of current ++ split_clauses depth [] l'
      else split_clauses depth (current ++ [c]) l'
  end.

(** The first word of a clause, unless it starts a table constraint. *)
Definition clause_column (clause : text) : option text :=
  match until is_whitespace (trim_start clause) with
  | [] => None
  | w =>
      let first := to_ascii_lowercase w in
      if existsb (fun kw => eq_ignore_ascii_case first (chars kw))
           ["PRIMARY"; "FOREIGN"; "UNIQUE"; "CHECK"; "CONSTRAINT"; "INDEX"]
      then None else Some first
  end.

Definition extract_column_names_from_ddl (ddl : text) : list text :=
  match find_char 40 ddl, rfind_char 41 ddl with
  | Some o, Some c =>
      if Nat.ltb o c
      then omap clause_column (split_clauses O [] (take (c - S o) (drop (S o) ddl)))
      else []
  | _, _ => []
  end.

Definition extract_view_select_body (original : text) : option text :=
  match find_text (chars " AS ") (to_ascii_uppercase original) with
  | None => None
  | Some p => match trim (drop (p + 4) original) with [] => None | body => Some body end
  end.

Definition extract_updatable_view_base_table (original : text) : option text :=
  match extract_view_select_body original with
  | None => None
  | Some body =>
      let body := to_ascii_uppercase body in
      if existsb (fun k => contains (chars k) body)
           ["JOIN"; "GROUP BY"; "HAVING"; "DISTINCT"; "SUBQUERY"; "UNION"; "INTERSECT"; "EXCEPT";
            "COUNT("; "SUM("; "AVG("; "MIN("; "MAX("]
      then None
      else match find_text (chars " FROM ") body with
           | None => None
           | Some p =>
               match trim (until is_whitespace (trim (drop (p + 6) body))) with
               | [] => None
               | t => Some (to_ascii_lowercase t)
               end
           end
  end.

(** ** Declared types *)

Definition is_ascii_hexdigit (c : N) : bool :=
  is_ascii_digit c || in_range 65 70 c || in_range 97 102 c.

(** [v.len()] is the number of bytes; a UUID has only ASCII characters. *)
Definition is_uuid (v : text) : bool :=
  Nat.eqb (length v) 36 &&
  forallb (fun ic => if existsb (Nat.eqb ic.1) [8; 13; 18; 23]%nat then ic.2 =? 45
                     else is_ascii_hexdigit ic.2) (imap pair v).

Definition invalid (value kind : text) : result unit text :=
  Err (chars "value '" ++ value ++ chars "' is not a valid " ++ kind).

Definition validate_value_for_type (value ddl_type : text) : result unit text :=
  let bare := to_ascii_uppercase (trim (until (N.eqb 40) ddl_type)) in
  let one_of (l : list string) := existsb (fun k => bool_decide (bare = chars k)) l in
  if bool_decide (value = []) || eq_ignore_ascii_case value (chars "null") then Ok tt
  else if one_of ["INT"; "INTEGER"; "INT4"; "SMALLINT"; "INT2"; "BIGINT"; "INT8"] then
    if parses_i64 (trim value) then Ok tt else invalid value bare
  else if one_of ["FLOAT"; "REAL"; "FLOAT4"; "DOUBLE"; "DOUBLE PRECISION"; "FLOAT8";
                  "NUMERIC"; "DECIMAL"] then
    if parses_f64 (trim value) then Ok tt else invalid value bare
  else if one_of ["BOOL"; "BOOLEAN"] then
    if existsb (fun k => bool_decide (to_ascii_lowercase (trim value) = chars k))
         ["true"; "false"; "1"; "0"; "yes"; "no"; "on"; "off"]
    then Ok tt else invalid value (chars "BOOLEAN")
  else if one_of ["UUID"] then
    if is_uuid (trim value) then Ok tt else invalid value (chars "UUID")
  else Ok tt.

End Extract.
End SqlParse.
