(* ===== verification/SqlParseProps.v ===== *)
(** * Properties of the statement extractors

    The canonical INSERT written to the statement log is read back as the row it
    was made from, and the three kinds of statement address a row by the same
    key. *)

From S2P Require Import Prelude Str Decimal Tokenizer Ast SqlParse.
From Stdlib Require Import Ascii.
Local Open Scope string_scope.
Local Open Scope list_scope.
Local Open Scope N_scope.

Import Tokenizer Ast SqlParse.

Section Printing.
Context {UT : UnicodeTables}.

(** ** Reading printed text *)

(** A word of the tokenizer. *)
Definition plain_word (w : text) : Prop :=
  match w with c :: _ => starts_word c = true | [] => False end ∧
  Forall (fun c => word_char c = true) w.

Definition word_token (w : text) : Token :=
  let upper := to_ascii_uppercase w in if is_keyword upper then Keyword upper else Identifier w.

(** [rest] does not continue a word. *)
Definition ends_word (rest : text) : Prop :=
  match rest with c :: _ => word_char c = false | [] => True end.

Lemma starts_word_plain c :
  starts_word c = true →
  is_ascii_whitespace c = false ∧ is_ascii_digit c = false ∧
  (c =? 45) = false ∧ (c =? 47) = false ∧ (c =? 39) = false ∧ (c =? 34) = false ∧
  (c =? 96) = false ∧ (c =? 46) = false.
Proof.
  intros H.
  assert (Hc : 65 <= c ∧ c <> 96).
  { unfold starts_word in H. destruct (N.ltb_spec c 128) as [Hlt|]; [|lia].
    rewrite is_alphabetic_ascii in H by done. unfold is_ascii_alphabetic, in_range in H.
    destruct (N.leb_spec 65 c); [|destruct (N.leb_spec 97 c), (N.eqb_spec c 95); simpl in *; (lia || done)].
    split; [done|]. intros ->. done. }
  unfold is_ascii_whitespace, is_ascii_digit, in_range. cbn [existsb].
  repeat match goal with |- context [N.eqb c ?n] => destruct (N.eqb_spec c n); [lia|] end.
  destruct (N.leb_spec c 57); [lia|]. by rewrite andb_false_r.
Qed.

Lemma span_all p w rest :
  Forall (fun c => p c = true) w → match rest with c :: _ => p c = false | [] => True end →
  span p (w ++ rest) = (w, rest).
Proof.
  intros Hw Hr. induction Hw as [|c w Hc Hw IH]; simpl.
  - destruct rest as [|c r]; [done|]. simpl. by rewrite Hr.
  - by rewrite Hc, IH.
Qed.

Lemma tokenize_step c l t rest : next_token c l = (t, rest) → tokenize (c :: l) = t :: tokenize rest.
Proof.
  intros E. unfold tokenize. cbn [length tokens]. rewrite E. f_equal. apply tokens_fuel; [|done].
  apply next_token_lexeme in E as (w & Hw & Hne & _). apply (f_equal length) in Hw.
  rewrite length_app in Hw. simpl in Hw. destruct w; [done|]. simpl in Hw. lia.
Qed.

Lemma sem_step c l t rest :
  next_token c l = (t, rest) →
  semantic_tokens (c :: l) = if is_semantic t then t :: semantic_tokens rest else semantic_tokens rest.
Proof.
  intros E. unfold semantic_tokens. rewrite (tokenize_step c l t rest E), filter_cons.
  destruct (is_semantic t) eqn:Hs; [by rewrite decide_True|by rewrite decide_False].
Qed.

Lemma sem_word w rest :
  plain_word w → ends_word rest → semantic_tokens (w ++ rest) = word_token w :: semantic_tokens rest.
Proof.
  intros [Hs Hw] Hr. destruct w as [|c w]; [done|].
  change ((c :: w) ++ rest) with (c :: (w ++ rest)).
  rewrite (sem_step c (w ++ rest) (word_token (c :: w)) rest).
  - unfold word_token. by destruct (is_keyword _).
  - pose proof (starts_word_plain c Hs) as (H1 & H2 & H3 & H4 & H5 & H6 & H7 & H8).
    unfold next_token. rewrite H1, H3, H4, H5, H6, H7. cbn [andb].
    unfold starts_number. rewrite H2, H8. cbn [andb orb]. rewrite Hs.
    change (c :: w ++ rest) with ((c :: w) ++ rest). by rewrite span_all.
Qed.

Lemma sem_space rest : semantic_tokens (32 :: rest) = semantic_tokens rest.
Proof.
  rewrite (sem_step 32 rest Whitespace (span is_ascii_whitespace rest).2) by done. simpl.
  destruct rest as [|c l]; [done|]. simpl. destruct (is_ascii_whitespace c) eqn:Hc; [|done].
  destruct (span is_ascii_whitespace l) as [a b] eqn:E. cbn [snd].
  rewrite (sem_step c l Whitespace b); [done|]. unfold next_token. by rewrite Hc, E.
Qed.

(** The symbols that never begin a longer one. *)
Lemma sem_symbol c rest :
  c ∈ [40; 41; 44; 59; 61] → semantic_tokens (c :: rest) = Symbol [c] :: semantic_tokens rest.
Proof.
  intros Hc. rewrite (sem_step c rest (Symbol [c]) rest); [done|].
  assert (Hl : c < 128 ∧ starts_word c = false).
  { unfold starts_word. repeat (apply elem_of_cons in Hc as [->|Hc]);
      [..|by apply not_elem_of_nil in Hc]; (split; [done|]; by rewrite is_alphabetic_ascii). }
  assert (H2 : ∀ d, existsb (fun sy => bool_decide ([c; d] = chars sy)) two_char_symbols = false).
  { intros d. apply not_true_iff_false. intros (sy & Hin & Hsy)%existsb_exists.
    apply bool_decide_eq_true in Hsy.
    repeat (apply elem_of_cons in Hc as [->|Hc]); [..|by apply not_elem_of_nil in Hc];
      (repeat (destruct Hin as [<-|Hin]; [discriminate Hsy|]); done). }
  destruct Hl as [_ Hsw]. unfold next_token.
  assert (Hcase : is_ascii_whitespace c = false ∧ (c =? 45) = false ∧ (c =? 47) = false ∧
    (c =? 39) = false ∧ (c =? 34) = false ∧ (c =? 96) = false ∧ starts_number (c :: rest) = false ∧
    existsb (N.eqb c) single_symbols = true).
  { repeat (apply elem_of_cons in Hc as [->|Hc]); [..|by apply not_elem_of_nil in Hc]; by split_and!. }
  destruct Hcase as (-> & -> & -> & -> & -> & -> & -> & Hss). cbn [andb]. rewrite Hsw.
  destruct rest as [|d r]; [by rewrite Hss|]. by rewrite H2, Hss.
Qed.

Lemma sem_literal s rest :
  match rest with c :: _ => c ≠ 39 | [] => True end →
  semantic_tokens ([39] ++ double_quotes s ++ [39] ++ rest) = StringLiteral s :: semantic_tokens rest.
Proof.
  intros Hr. change ([39] ++ double_quotes s ++ [39] ++ rest) with (39 :: double_quotes s ++ [39] ++ rest).
  rewrite (sem_step 39 (double_quotes s ++ [39] ++ rest) (StringLiteral s) rest); [done|].
  unfold next_token. cbn [is_ascii_whitespace existsb N.eqb orb andb].
  change (double_quotes s ++ [39] ++ rest) with (escape s ++ 39 :: rest).
  by rewrite literal_body_escape.
Qed.

(** A number token as a whole. *)
Definition plain_number (v : text) : Prop := starts_number v = true ∧ number v = (v, []).

(** What follows an item of a list. *)
Definition delim (r : text) : Prop := ∃ r', r = 44 :: r' ∨ r = 41 :: r'.

Lemma delim_cases r : delim r → ∃ c r', r = c :: r' ∧ (c = 44 ∨ c = 41).
Proof. intros [r' [-> | ->]]; eauto. Qed.

Lemma digits_delim ds r :
  Forall (fun c => is_ascii_digit c = true) ds → delim r → span is_ascii_digit (ds ++ r) = (ds, r).
Proof. intros H (c & r' & -> & Hc)%delim_cases. apply span_all; [done|]. by destruct Hc as [->| ->]. Qed.

Lemma exponent_delim l ex r : exponent l = (ex, []) → l ≠ [] → delim r → exponent (l ++ r) = (ex, r).
Proof.
  intros He Hl Hr. destruct l as [|c l]; [done|]. simpl in *.
  destruct ((c =? 101) || (c =? 69)); [|done].
  destruct l as [|d l2].
  - injection He as <-. simpl. apply delim_cases in Hr as (x & r' & -> & [-> | ->]); done.
  - simpl in *. destruct ((d =? 43) || (d =? 45)) eqn:Hd.
    + destruct (span is_ascii_digit l2) as [ds rest] eqn:E. injection He as <- ->.
      apply span_spec in E as (-> & Hds & _). rewrite app_nil_r. by rewrite digits_delim.
    + destruct (is_ascii_digit d) eqn:Hdig.
      * destruct (span is_ascii_digit l2) as [ds rest] eqn:E. injection He as <- ->.
        apply span_spec in E as (-> & Hds & _). rewrite app_nil_r. by rewrite digits_delim.
      * by injection He.
Qed.

Lemma number_delim v r : number v = (v, []) → delim r → number (v ++ r) = (v, r).
Proof.
  unfold number. intros Hv Hr. destruct (span _ v) as [ds rest] eqn:E.
  destruct (exponent rest) as [ex rest'] eqn:Ee. injection Hv as Hv ->.
  apply span_spec in E as (Hsplit & Hds & Hrest).
  assert (Hx : rest = ex) by (apply exponent_spec in Ee; by rewrite app_nil_r in Ee).
  destruct rest as [|c rest0].
  - rewrite Hsplit, app_nil_r. rewrite (span_all _ ds r); [|done|].
    + apply delim_cases in Hr as (x & r' & -> & [-> | ->]); simpl; by rewrite app_nil_r.
    + apply delim_cases in Hr as (x & r' & -> & [-> | ->]); done.
  - rewrite Hsplit, <-(assoc_L (++)), (span_all _ ds ((c :: rest0) ++ r)); [|done|done].
    rewrite (exponent_delim _ ex) by done. by rewrite Hx.
Qed.

Lemma sem_number v r :
  plain_number v → delim r → semantic_tokens (v ++ r) = Number v :: semantic_tokens r.
Proof.
  intros [Hs Hn] Hr. destruct v as [|c v]; [done|].
  change ((c :: v) ++ r) with (c :: (v ++ r)).
  rewrite (sem_step c (v ++ r) (Number (c :: v)) r); [done|].
  assert (Hc : is_ascii_digit c = true ∨ c = 46).
  { unfold starts_number in Hs. apply orb_true_iff in Hs as [?|[?%N.eqb_eq _]%andb_prop]; auto. }
  assert (Hc' : 46 <= c ∧ c <= 57 ∧ c <> 47).
  { destruct Hc as [Hd | ->]; [|lia]. unfold is_ascii_digit, in_range in Hd.
    apply andb_prop in Hd as [?%N.leb_le ?%N.leb_le]. lia. }
  assert (Hsn : starts_number (c :: v ++ r) = true).
  { unfold starts_number in *. destruct (is_ascii_digit c); [done|]. simpl in *.
    apply andb_prop in Hs as [-> Hv]. by destruct v. }
  unfold next_token, is_ascii_whitespace. cbn [existsb].
  repeat match goal with |- context [N.eqb c ?n] => destruct (N.eqb_spec c n); [lia|] end.
  cbn [orb andb]. rewrite Hsn. change (c :: v ++ r) with ((c :: v) ++ r). by rewrite number_delim.
Qed.

(** ** Lists of items *)

Definition comma : Token := Symbol [44].

(** Items, each of several tokens, separated by commas. *)
Definition sep_items (ts : list (list Token)) : list Token :=
  match ts with [] => [] | t :: ts' => t ++ concat (map (cons comma) ts') end.

Lemma sem_items {A} (P : text -> Prop) (f : A -> text) (g : A -> list Token) (l : list A) rest :
  (∀ r, P (44 :: r)) →
  Forall (fun x => ∀ r, P r → semantic_tokens (f x ++ r) = g x ++ semantic_tokens r) l →
  P rest →
  semantic_tokens (join_text (chars ", ") (map f l) ++ rest)
  = sep_items (map g l) ++ semantic_tokens rest.
Proof.
  intros HP Hl Hr. destruct l as [|x l]; [done|]. cbn [map sep_items].
  revert x Hl. induction l as [|y l IH]; intros x [Hx Hl]%Forall_cons.
  - simpl. by rewrite Hx, app_nil_r.
  - cbn [map join_text]. cbn [map join_text] in IH. rewrite <-!(assoc_L (++)).
    change (chars ", " ++ ?z) with (44 :: 32 :: z). rewrite Hx by done.
    rewrite sem_symbol by set_solver. rewrite sem_space.
    cbn [map concat app]. f_equal. f_equal. by apply IH.
Qed.

(** Tokens separated by commas. *)
Definition sep_tokens (ts : list Token) : list Token :=
  match ts with [] => [] | t :: ts' => t :: concat (map (fun u => [comma; u]) ts') end.

Lemma sem_join {A} (f : A -> text) (g : A -> Token) (l : list A) rest :
  Forall (fun x => ∀ r, delim r → semantic_tokens (f x ++ r) = g x :: semantic_tokens r) l →
  delim rest →
  semantic_tokens (join_text (chars ", ") (map f l) ++ rest)
  = sep_tokens (map g l) ++ semantic_tokens rest.
Proof.
  intros Hl Hr. rewrite (sem_items delim f (fun x => [g x])); [|by eexists; left|done|done].
  destruct l as [|x l]; [done|]. cbn [map sep_items sep_tokens app]. f_equal. f_equal. f_equal.
  by rewrite !map_map.
Qed.

(** ** Names and values that survive printing *)

Definition name_ok (w : text) : Prop := plain_word w ∧ Forall (fun c => is_whitespace c = false) w.

(** [table] or [schema.table]. *)
Definition table_ok (t : text) : Prop :=
  name_ok t ∨ ∃ s w, t = s ++ [46] ++ w ∧ name_ok s ∧ name_ok w.

(** A column name that is not a keyword in small letters. *)
Definition column_ok (c : text) : Prop :=
  plain_word c ∧ token_as_name (word_token c) = Some c.

(** A value without surrounding blanks that, if it reads as a number, reads as
    one number token. *)
Definition value_ok (v : text) : Prop := trim v = v ∧ (parses_f64 v = true → plain_number v).

Definition value_token (v : text) : Token := if parses_f64 v then Number v else StringLiteral v.

Lemma word_char_ascii c : word_char c = true → c ∉ [32; 10; 9; 40; 41; 44; 46; 59; 61; 39].
Proof.
  intros Hw Hin. unfold word_char in Hw.
  repeat (apply elem_of_cons in Hin as [->|Hin]; [by rewrite is_alphanumeric_ascii in Hw|]).
  by apply not_elem_of_nil in Hin.
Qed.

Lemma plain_ascii w :
  match w with c :: _ => is_ascii_alphabetic c | [] => false end &&
  forallb (fun c => (c <? 128) && (is_ascii_alphabetic c || is_ascii_digit c)) w = true →
  plain_word w.
Proof.
  intros [Hs Hw]%andb_prop. apply Is_true_true, forallb_True in Hw. split.
  - destruct w as [|c w]; [done|]. apply Forall_cons in Hw as [Hc _].
    apply Is_true_true, andb_prop in Hc as [Hc%N.ltb_lt _]. unfold starts_word.
    by rewrite is_alphabetic_ascii, Hs.
  - eapply Forall_impl; [exact Hw|]. intros c Hc. apply Is_true_true, andb_prop in Hc as [Hc%N.ltb_lt Ha].
    unfold word_char. by rewrite is_alphanumeric_ascii, Ha.
Qed.

Lemma sem_value v r :
  value_ok v → delim r → semantic_tokens (wal_value v ++ r) = value_token v :: semantic_tokens r.
Proof.
  intros [Ht Hn] Hr. unfold wal_value, value_token. rewrite Ht.
  destruct (parses_f64 v); [by apply sem_number; [apply Hn|]|].
  rewrite <-!(assoc_L (++)). apply sem_literal.
  apply delim_cases in Hr as (c & r' & -> & [-> | ->]); done.
Qed.

Lemma sem_column c r :
  column_ok c → delim r → semantic_tokens (c ++ r) = word_token c :: semantic_tokens r.
Proof.
  intros [Hc _] Hr. apply sem_word; [done|].
  apply delim_cases in Hr as (x & r' & -> & Hx). unfold ends_word, word_char.
  destruct Hx as [-> | ->]; by rewrite is_alphanumeric_ascii.
Qed.

Lemma word_not_symbol sy w : is_sym sy (word_token w) = false.
Proof. unfold word_token. by destruct (is_keyword _). Qed.

Lemma value_not_symbol sy v : is_sym sy (value_token v) = false.
Proof. unfold value_token. by destruct (parses_f64 v). Qed.

Lemma column_list_read cols rest :
  Forall column_ok cols →
  column_list (sep_tokens (map word_token cols) ++ Symbol [41] :: rest) = (cols, rest).
Proof.
  intros Hc. destruct cols as [|c cols]; [done|]. apply Forall_cons in Hc as [[_ Hc] Hcs].
  cbn [map sep_tokens app column_list]. rewrite !word_not_symbol, Hc.
  assert (Hgen : column_list (concat (map (λ u : Token, [comma; u]) (map word_token cols)) ++ Symbol [41] :: rest)
    = (cols, rest)); [|by rewrite Hgen].
  clear c Hc. induction Hcs as [|c cols [_ Hc] Hcs IH]; [done|].
  cbn [map concat app column_list]. rewrite !word_not_symbol, Hc. by rewrite IH.
Qed.

Lemma value_row_read vals vs rest :
  value_rows (Some vs) (concat (map (λ u : Token, [comma; u]) (map value_token vals)) ++ Symbol [41] :: rest)
  = (vs ++ vals) :: value_rows None rest.
Proof.
  revert vs. induction vals as [|v vals IH]; intros vs; [by rewrite app_nil_r|].
  cbn [map concat app value_rows]. rewrite !value_not_symbol. cbn.
  assert (row_value (value_token v) = Some v) as ->
    by (unfold value_token; by destruct (parses_f64 v)).
  by rewrite IH, <-(assoc_L (++)).
Qed.

Lemma value_rows_read vals rest :
  vals ≠ [] →
  value_rows (Some []) (sep_tokens (map value_token vals) ++ Symbol [41] :: rest)
  = vals :: value_rows None rest.
Proof.
  destruct vals as [|v vals]; [done|]. intros _. cbn [map sep_tokens app value_rows].
  rewrite !value_not_symbol.
  assert (row_value (value_token v) = Some v) as ->
    by (unfold value_token; by destruct (parses_f64 v)).
  by rewrite value_row_read.
Qed.

(** What follows the table in the canonical INSERT. *)
Definition insert_tail (columns vals : list text) : text :=
  match columns with
  | [] => []
  | _ => chars " (" ++ join_text (chars ", ") columns ++ chars ")"
  end ++ chars " VALUES (" ++ join_text (chars ", ") (map wal_value vals) ++ chars ");".

Lemma single_insert_tail t cols vals :
  single_insert t cols vals = chars "INSERT INTO " ++ t ++ insert_tail cols vals.
Proof. done. Qed.

Lemma insert_tail_space cols vals : ∃ r, insert_tail cols vals = 32 :: r.
Proof. destruct cols; eexists; reflexivity. Qed.

Lemma sem_values vals :
  Forall value_ok vals →
  semantic_tokens (chars " VALUES (" ++ join_text (chars ", ") (map wal_value vals) ++ chars ");")
  = Keyword (chars "VALUES") :: Symbol [40] ::
    sep_tokens (map value_token vals) ++ [Symbol [41]; Symbol [59]].
Proof.
  intros Hv. change (chars " VALUES (" ++ ?x) with (32 :: (chars "VALUES" ++ 32 :: 40 :: x)).
  rewrite sem_space, sem_word, sem_space, sem_symbol; [|set_solver|by apply plain_ascii|].
  - rewrite (sem_join wal_value value_token).
    + change (chars ");") with [41; 59]. rewrite sem_symbol by set_solver.
      rewrite sem_symbol by set_solver. done.
    + eapply Forall_impl; [exact Hv|]. intros v Hok r Hr. by apply sem_value.
    + eexists; by right.
  - unfold ends_word, word_char. by rewrite is_alphanumeric_ascii.
Qed.

Lemma sem_tail cols vals :
  Forall column_ok cols → Forall value_ok vals →
  semantic_tokens (insert_tail cols vals)
  = match cols with
    | [] => []
    | _ => Symbol [40] :: sep_tokens (map word_token cols) ++ [Symbol [41]]
    end ++ Keyword (chars "VALUES") :: Symbol [40] ::
    sep_tokens (map value_token vals) ++ [Symbol [41]; Symbol [59]].
Proof.
  intros Hc Hv. unfold insert_tail. destruct cols as [|c cols]; [by apply sem_values|].
  set (cs := c :: cols) in *. rewrite <-!(assoc_L (++)).
  change (chars " (" ++ ?x) with (32 :: 40 :: x). rewrite sem_space, sem_symbol by set_solver.
  rewrite <-(map_id cs) at 1. rewrite (sem_join id word_token).
  - change (chars ")" ++ ?x) with (41 :: x). rewrite sem_symbol by set_solver.
    rewrite sem_values by done. cbn [app]. by rewrite <-!(assoc_L (++)).
  - eapply Forall_impl; [exact Hc|]. intros x Hx r Hr. by apply sem_column.
  - eexists; by right.
Qed.

(** ** The table name in the text *)

Lemma name_no_dot w : name_ok w → 46 ∉ w.
Proof.
  intros [[_ Hw] _] Hin. rewrite Forall_forall in Hw. specialize (Hw 46 Hin).
  apply word_char_ascii in Hw. set_solver.
Qed.

Lemma table_chars t :
  table_ok t → Forall (fun c => negb (ends_table c) = true) t ∧ ∃ c r, t = c :: r ∧ is_whitespace c = false.
Proof.
  assert (Hname : ∀ w, name_ok w → Forall (fun c => negb (ends_table c) = true) w).
  { intros w [[_ Hw] _]. eapply Forall_impl; [exact Hw|]. intros c Hc%word_char_ascii.
    unfold ends_table. cbn [existsb].
    repeat match goal with |- context [N.eqb c ?n] => destruct (N.eqb_spec c n) as [->|]; [set_solver|] end.
    done. }
  assert (Hhd : ∀ w, name_ok w → ∃ c r, w = c :: r ∧ is_whitespace c = false).
  { intros w [[Hs _] Hws]. destruct w as [|c w]; [done|]. apply Forall_cons in Hws as [Hc _]. eauto. }
  intros [Ht|(s & w & -> & Hs & Hw)]; [auto|]. split.
  - apply Forall_app. split; [auto|]. constructor; [done|auto].
  - destruct (Hhd s Hs) as (c & r & -> & Hc). eexists c, _. by split.
Qed.

Lemma until_span p w c rest :
  Forall (fun x => negb (p x) = true) w → p c = true → until p (w ++ c :: rest) = w.
Proof.
  intros Hw Hc. unfold until. rewrite (span_all (fun x => negb (p x)) w (c :: rest)); [done|done|].
  by rewrite Hc.
Qed.

Lemma until_all p w : Forall (fun x => negb (p x) = true) w → until p w = w.
Proof. intros Hw. unfold until. rewrite <-(app_nil_r w) at 1. by rewrite span_all. Qed.

Lemma not_dot w : 46 ∉ w → Forall (fun x => negb (46 =? x) = true) w.
Proof.
  intros H. apply Forall_forall. intros x Hx. destruct (N.eqb_spec 46 x) as [<-|]; [|done].
  by destruct (H Hx).
Qed.

Lemma after_last_none w : 46 ∉ w → after_last 46 w = w.
Proof.
  intros H. unfold after_last. rewrite until_all; [apply rev_involutive|].
  apply not_dot. by rewrite list_elem_of_In, <-in_rev, <-list_elem_of_In.
Qed.

Lemma after_last_dot s w : 46 ∉ w → after_last 46 (s ++ [46] ++ w) = w.
Proof.
  intros H. unfold after_last. rewrite !rev_app_distr. simpl rev. rewrite <-(assoc_L (++)).
  change ([46] ++ rev s) with (46 :: rev s). rewrite until_span; [apply rev_involutive| |done].
  apply not_dot. by rewrite list_elem_of_In, <-in_rev, <-list_elem_of_In.
Qed.

Lemma find_dot_none w : 46 ∉ w → find_char 46 w = None.
Proof.
  intros H. unfold find_char. rewrite (proj2 (list_find_None _ w)); [done|].
  apply Forall_forall. by intros x Hx ->.
Qed.

Lemma find_dot s w : 46 ∉ s → find_char 46 (s ++ 46 :: w) = Some (length s).
Proof.
  intros H. unfold find_char.
  rewrite (proj2 (list_find_Some (fun d => d = 46) (s ++ 46 :: w) (length s) 46)); [done|].
  split_and!; [by rewrite list_lookup_middle|done|]. intros j y Hj Hlt ->.
  apply H. rewrite lookup_app_l in Hj by done. by eapply list_elem_of_lookup_2.
Qed.

(** The text after INTO of the canonical statement. *)
Lemma into_position t cols vals :
  find_text (chars "INTO") (to_ascii_uppercase (single_insert t cols vals)) = Some 7%nat.
Proof. reflexivity. Qed.

Lemma after_into t cols vals :
  drop 11 (single_insert t cols vals) = 32 :: t ++ insert_tail cols vals.
Proof. reflexivity. Qed.

Lemma table_text t cols vals :
  table_ok t →
  span is_whitespace (32 :: t ++ insert_tail cols vals) = ([32], t ++ insert_tail cols vals) ∧
  until ends_table (t ++ insert_tail cols vals) = t.
Proof.
  intros [Ht (c & r & -> & Hc)]%table_chars. split.
  - change (32 :: (c :: r) ++ insert_tail cols vals)
      with ([32] ++ ((c :: r) ++ insert_tail cols vals)).
    apply span_all; [by repeat constructor|done].
  - destruct (insert_tail_space cols vals) as [x ->]. by apply until_span.
Qed.

Lemma original_table_single t cols vals ins :
  table_ok t → original_table (single_insert t cols vals) ins = t.
Proof.
  intros Ht. unfold original_table. rewrite into_position, after_into. unfold trim_start.
  destruct (table_text t cols vals Ht) as [-> H2]. exact H2.
Qed.

Lemma strip_single t cols vals :
  table_ok t →
  strip_schema_qualifier_from_insert (single_insert t cols vals)
  = single_insert (after_last 46 t) cols vals ∧ name_ok (after_last 46 t).
Proof.
  intros Ht. unfold strip_schema_qualifier_from_insert.
  rewrite into_position, after_into. destruct (table_text t cols vals Ht) as [-> H2].
  cbn [fst snd]. rewrite H2. clear H2. destruct Ht as [Ht|(s & w & -> & Hs & Hw)].
  - rewrite find_dot_none, after_last_none by (by apply name_no_dot). by destruct (negb _).
  - rewrite after_last_dot by (by apply name_no_dot). split; [|done].
    change (s ++ [46] ++ w) with (s ++ 46 :: w). rewrite find_dot by (by apply name_no_dot).
    assert (existsb (N.eqb 46) (single_insert (s ++ 46 :: w) cols vals) = true) as ->.
    { apply existsb_exists. exists 46. split; [|done]. rewrite single_insert_tail.
      apply list_elem_of_In. set_solver. }
    cbn [negb].
    rewrite (drop_app_length (s ++ 46 :: w)), (drop_app_ge s) by lia.
    replace (S (length s) - length s)%nat with 1%nat by lia. done.
Qed.

End Printing.

Section Extraction.
Context {UT : UnicodeTables} {AD : SqlParserAdapter}.

Lemma parse_single t cols vals :
  name_ok t → Forall column_ok cols → Forall value_ok vals → vals ≠ [] →
  ∃ t', parse_one (single_insert t cols vals) = Ok (SInsert (mkInsert t' cols [vals])).
Proof.
  intros Ht Hc Hv Hne.
  assert (Hsem : semantic_tokens (single_insert t cols vals)
    = Keyword (chars "INSERT") :: Keyword (chars "INTO") :: word_token t ::
      semantic_tokens (insert_tail cols vals)).
  { rewrite single_insert_tail.
    change (chars "INSERT INTO " ++ ?x) with (chars "INSERT" ++ 32 :: chars "INTO" ++ 32 :: x).
    assert (Hend : ∀ x, ends_word (32 :: x))
      by (intros x; unfold ends_word, word_char; by rewrite is_alphanumeric_ascii).
    rewrite sem_word, sem_space, sem_word, sem_space; [|by apply plain_ascii|done|by apply plain_ascii|done].
    destruct (insert_tail_space cols vals) as [x ->]. rewrite sem_word; [done|apply Ht|done]. }
  unfold parse_one. rewrite (dml_deferred _ "INSERT" _ Hsem) by set_solver.
  rewrite Hsem, sem_tail by done.
  assert (Hname : ∃ t', token_as_name (word_token t) = Some t' ∧
    (word_token t = Keyword t' ∨ word_token t = Identifier t')).
  { unfold word_token. destruct (is_keyword _); eexists; split; [reflexivity|by left|reflexivity|by right]. }
  destruct Hname as (t' & _ & Hw). exists t'.
  unfold parse_tokens, parse_insert. cbn [tl].
  change (is_kw "INTO" (Keyword (chars "INTO"))) with true. cbv beta iota.
  assert (Hvals : value_rows None (Symbol [40] :: sep_tokens (map value_token vals) ++ [Symbol [41]; Symbol [59]])
    = [vals]).
  { cbn [value_rows]. change (is_sym "(" (Symbol [40])) with true. cbv iota.
    by rewrite value_rows_read. }
  destruct cols as [|c cols].
  - cbn [app]. destruct Hw as [-> | ->]; cbv iota;
      change (is_sym "(" (Keyword (chars "VALUES"))) with false; cbv iota;
      change (is_kw "VALUES" (Keyword (chars "VALUES"))) with true; cbv iota; by rewrite Hvals.
  - rewrite <-(app_comm_cons _ _ (Symbol [40])), <-(assoc_L (++)). cbn [app].
    destruct Hw as [-> | ->]; cbv iota;
      change (is_sym "(" (Symbol [40])) with true; cbv iota; rewrite column_list_read by done;
      change (is_kw "VALUES" (Keyword (chars "VALUES"))) with true; cbv iota; by rewrite Hvals.
Qed.

(** The canonical statement is read back as the row it was made from, and gives
    itself as its own canonical statement. *)
Lemma extract_single t cols v vals :
  table_ok t → Forall column_ok cols → Forall value_ok (v :: vals) →
  extract_all_insert_rows (single_insert t cols (v :: vals))
  = [(key_of (after_last 46 t) v, row_of (after_last 46 t) cols [] (v :: vals),
      single_insert t cols (v :: vals))].
Proof.
  intros Ht Hc Hv. unfold extract_all_insert_rows.
  destruct (strip_single t cols (v :: vals) Ht) as [-> Hn].
  destruct (parse_single (after_last 46 t) cols (v :: vals) Hn Hc Hv) as [t' ->]; [done|].
  rewrite original_table_single by done. done.
Qed.

(** ** Properties *)

(** The statement log replays the rows.  For every INSERT that parses, with a
    plain (possibly schema-qualified) table name, plain column names and values
    that survive printing, each row extracted from it comes with a canonical
    statement from which exactly that row is extracted again: the same key, the
    same columns, and the same statement. *)
Theorem wal_statement_replays_row (sql : text) (ins : InsertStatement) (k : text) (d : row_data)
    (q : text) :
  parse_one (strip_schema_qualifier_from_insert sql) = Ok (SInsert ins) →
  table_ok (original_table sql ins) → Forall column_ok (ins_columns ins) →
  Forall (Forall value_ok) (ins_values ins) →
  (k, d, q) ∈ extract_all_insert_rows sql →
  extract_all_insert_rows q = [(k, d, q)].
Proof.
  intros Hp Ht Hc Hv Hin. unfold extract_all_insert_rows in Hin. rewrite Hp in Hin.
  apply list_elem_of_omap in Hin as ([|v vals] & Hvals & Heq); [done|]. injection Heq as <- <- <-.
  apply extract_single; [done..|]. rewrite Forall_forall in Hv. by apply Hv.
Qed.

(** ** Statements that address one row *)

(** [c = 'v'] *)
Definition equals_text (c v : text) : text := c ++ chars " = " ++ [39] ++ double_quotes v ++ [39].

Definition delete_stmt (t c v : text) : text :=
  chars "DELETE FROM " ++ t ++ chars " WHERE " ++ equals_text c v.

Definition update_stmt (t : text) (sets : list (text * text)) (c v : text) : text :=
  chars "UPDATE " ++ t ++ chars " SET "
  ++ join_text (chars ", ") (map (fun cv => equals_text cv.1 cv.2) sets)
  ++ chars " WHERE " ++ equals_text c v.

(** A word that is no keyword. *)
Definition identifier (w : text) : Prop := plain_word w ∧ is_keyword (to_ascii_uppercase w) = false.

Definition equals_tokens (cv : text * text) : list Token :=
  [word_token cv.1; Symbol [61]; StringLiteral cv.2].

Lemma ends_space x : ends_word (32 :: x).
Proof. unfold ends_word, word_char. by rewrite is_alphanumeric_ascii. Qed.

Lemma identifier_token w : identifier w → word_token w = Identifier w.
Proof. intros [_ Hk]. unfold word_token. by rewrite Hk. Qed.

Lemma sem_equals c v r :
  plain_word c → match r with x :: _ => x ≠ 39 | [] => True end →
  semantic_tokens (equals_text c v ++ r) = equals_tokens (c, v) ++ semantic_tokens r.
Proof.
  intros Hc Hr. unfold equals_text. rewrite <-!(assoc_L (++)).
  change (chars " = " ++ ?z) with (32 :: 61 :: 32 :: z).
  rewrite sem_word, sem_space, sem_symbol, sem_space by (done || apply ends_space || set_solver).
  by rewrite sem_literal.
Qed.

Lemma sem_where c v :
  plain_word c →
  semantic_tokens (chars " WHERE " ++ equals_text c v)
  = Keyword (chars "WHERE") :: equals_tokens (c, v).
Proof.
  intros Hc. change (chars " WHERE " ++ ?z) with (32 :: chars "WHERE" ++ 32 :: z).
  rewrite sem_space, sem_word, sem_space; [|by apply plain_ascii|apply ends_space].
  rewrite <-(app_nil_r (equals_text c v)), sem_equals by done. done.
Qed.

Lemma sem_delete t c v :
  plain_word t → plain_word c →
  semantic_tokens (delete_stmt t c v)
  = Keyword (chars "DELETE") :: Keyword (chars "FROM") :: word_token t ::
    Keyword (chars "WHERE") :: equals_tokens (c, v).
Proof.
  intros Ht Hc. unfold delete_stmt.
  change (chars "DELETE FROM " ++ ?z) with (chars "DELETE" ++ 32 :: chars "FROM" ++ 32 :: z).
  rewrite sem_word, sem_space, sem_word, sem_space by (by apply plain_ascii || apply ends_space).
  rewrite sem_word, sem_where; [done..|apply ends_space].
Qed.

Lemma sem_update t sets c v :
  plain_word t → plain_word c → Forall (fun cv => plain_word cv.1) sets →
  semantic_tokens (update_stmt t sets c v)
  = Keyword (chars "UPDATE") :: word_token t :: Keyword (chars "SET") ::
    sep_items (map equals_tokens sets) ++ Keyword (chars "WHERE") :: equals_tokens (c, v).
Proof.
  intros Ht Hc Hs. unfold update_stmt.
  change (chars "UPDATE " ++ ?z) with (chars "UPDATE" ++ 32 :: z).
  change (chars " SET " ++ ?z) with (32 :: chars "SET" ++ 32 :: z).
  rewrite sem_word, sem_space by (by apply plain_ascii || apply ends_space).
  rewrite sem_word, sem_space by (done || apply ends_space).
  rewrite sem_word, sem_space by (by apply plain_ascii || apply ends_space).
  rewrite (sem_items (fun r => match r with x :: _ => x ≠ 39 | [] => True end) _ equals_tokens).
  - by rewrite sem_where.
  - done.
  - eapply Forall_impl; [exact Hs|]. intros [a x] Ha r Hr. by apply sem_equals.
  - done.
Qed.

Lemma where_literal_read (pre : list Token) c v :
  Forall (fun t => is_kw "WHERE" t = false) pre →
  where_literal false false (pre ++ Keyword (chars "WHERE") :: equals_tokens (c, v)) = Some v.
Proof.
  intros Hpre. induction Hpre as [|t pre Ht Hpre IH].
  - cbn [app where_literal]. change (is_kw "WHERE" (Keyword (chars "WHERE"))) with true. cbv iota.
    unfold equals_tokens, word_token. cbn [fst snd].
    destruct (is_keyword _); [|reflexivity]. cbn [where_literal].
    by destruct (is_kw "WHERE" _).
  - cbn [app where_literal]. rewrite Ht, andb_false_r. by destruct t.
Qed.

Lemma identifiers_no_where sets :
  Forall (fun cv => identifier cv.1) sets →
  Forall (fun t => is_kw "WHERE" t = false) (sep_items (map equals_tokens sets)).
Proof.
  intros Hs.
  assert (Heq : ∀ cv, identifier cv.1 → Forall (fun t => is_kw "WHERE" t = false) (equals_tokens cv)).
  { intros cv Hcv. unfold equals_tokens. rewrite identifier_token by done. by repeat constructor. }
  destruct Hs as [|cv sets Hcv Hs]; [constructor|]. cbn [map sep_items]. apply Forall_app.
  split; [by apply Heq|]. induction Hs as [|cv' sets Hcv' Hs IH]; [constructor|].
  cbn [map concat]. constructor; [done|]. apply Forall_app. split; [by apply Heq|done].
Qed.

Lemma assignments_read sets :
  Forall (fun cv => identifier cv.1) sets →
  assignments None (sep_items (map equals_tokens sets)) = sets.
Proof.
  intros Hs.
  assert (Hone : ∀ cv rest, identifier cv.1 →
    assignments None (equals_tokens cv ++ rest) = cv :: assignments None rest).
  { intros [c v] rest Hcv. unfold equals_tokens. rewrite identifier_token by done. done. }
  destruct Hs as [|cv sets Hcv Hs]; [done|]. cbn [map sep_items]. rewrite Hone by done. f_equal.
  induction Hs as [|cv' sets Hcv' Hs IH]; [done|]. cbn [map concat].
  change (assignments None ((comma :: equals_tokens cv') ++ ?r))
    with (assignments None (equals_tokens cv' ++ r)).
  by rewrite Hone, IH.
Qed.

Lemma parse_update_read t sets c v :
  identifier t → Forall (fun cv => identifier cv.1) sets →
  let tokens := Keyword (chars "UPDATE") :: word_token t :: Keyword (chars "SET") ::
    sep_items (map equals_tokens sets) ++ Keyword (chars "WHERE") :: equals_tokens (c, v) in
  upd_table (parse_update tokens) = t ∧ upd_assignments (parse_update tokens) = sets.
Proof.
  intros Ht Hs tokens. unfold parse_update. subst tokens. rewrite (identifier_token t) by done.
  set (items := sep_items (map equals_tokens sets)).
  cbn [lookup list_lookup].
  change (is_kw "SET" (Keyword (chars "SET"))) with true. cbv iota.
  assert (Hfind : ∀ a b d, find_keyword_from (a :: b :: d :: items ++ Keyword (chars "WHERE") ::
    equals_tokens (c, v)) "WHERE" 3 = Some (length items + 3)%nat).
  { intros a b d. unfold find_keyword_from, position_from. cbn [skipn].
    rewrite (proj2 (list_find_Some _ _ (length items) (Keyword (chars "WHERE")))); [done|].
    split_and!; [by apply list_lookup_middle|done|]. intros j y Hj Hlt.
    rewrite drop_0, lookup_app_l in Hj by done.
    pose proof (identifiers_no_where sets Hs) as Hno. rewrite Forall_forall in Hno.
    rewrite Hno; [done|]. by eapply list_elem_of_lookup_2. }
  rewrite Hfind. cbn [default from_option id upd_table upd_assignments]. split; [done|].
  unfold slice. cbn [skipn]. rewrite drop_0. replace (length items + 3 - 3)%nat with (length items) by lia.
  rewrite take_app_length. by apply assignments_read.
Qed.

(** INSERT, UPDATE and DELETE address a row by the same key.  For a plain
    table name in small letters, the row inserted with a first value is the one
    that an UPDATE or a DELETE with that value in its WHERE clause addresses,
    whatever text the value is; the UPDATE carries exactly its assignments. *)
Theorem statements_address_same_row (t c v : text) (vals cols : list text)
    (sets : list (text * text)) :
  identifier t → name_ok t → to_ascii_lowercase t = t →
  plain_word c → Forall (fun cv => identifier cv.1) sets →
  Forall column_ok cols → Forall value_ok (v :: vals) →
  (fun r => r.1.1) <$> extract_all_insert_rows (single_insert t cols (v :: vals)) = [key_of t v] ∧
  extract_delete_key_from_sql (delete_stmt t c v) = Some (key_of t v) ∧
  extract_update_row_from_sql (update_stmt t sets c v)
  = Some (key_of t v,
          fold_left (fun d cv => <[cv.1 := cv.2]> d) sets {[table_meta := t]}).
Proof.
  intros Ht Hname Hlow Hc Hs Hcols Hvals.
  assert (Hdot : after_last 46 t = t) by (by apply after_last_none, name_no_dot).
  split_and!.
  - rewrite extract_single by (done || by left). simpl. by rewrite Hdot.
  - unfold extract_delete_key_from_sql.
    change (starts_upper "DELETE" (delete_stmt t c v)) with true. cbn [negb]. cbv iota.
    rewrite sem_delete, (identifier_token t) by (done || apply Ht).
    change (Keyword (chars "DELETE") :: Keyword (chars "FROM") :: Identifier t :: ?r)
      with ([Keyword (chars "DELETE"); Keyword (chars "FROM"); Identifier t] ++ r).
    rewrite where_literal_read by (by repeat constructor). cbn [app table_after_from].
    change (is_kw "FROM" (Keyword (chars "DELETE"))) with false.
    change (is_kw "FROM" (Keyword (chars "FROM"))) with true. cbn. by rewrite Hdot, Hlow.
  - unfold extract_update_row_from_sql, parse_one.
    assert (Hsem := sem_update t sets c v (proj1 Ht) Hc
      (Forall_impl _ _ _ Hs (fun cv Hcv => proj1 Hcv))).
    rewrite (dml_deferred _ "UPDATE" _ Hsem) by set_solver.
    destruct (parse_update_read t sets c v Ht Hs) as [H1 H2].
    rewrite Hsem.
    change (parse_tokens ?raw (Keyword (chars "UPDATE") :: ?r))
      with (@Ok Statement string (SUpdate (parse_update (Keyword (chars "UPDATE") :: r)))).
    cbv iota. rewrite H1, H2.
    change (Keyword (chars "UPDATE") :: word_token t :: Keyword (chars "SET") :: ?a ++ ?b)
      with ((Keyword (chars "UPDATE") :: word_token t :: Keyword (chars "SET") :: a) ++ b).
    rewrite where_literal_read; [done|]. rewrite (identifier_token t) by done.
    repeat (constructor; [done|]). by apply identifiers_no_where.
Qed.

End Extraction.

(** ** Examples *)

(** An adapter that defers every statement, to evaluate examples. *)
Definition no_adapter : @SqlParserAdapter ascii_tables.
Proof. by refine {| parse_with_sqlparser := fun _ => None |}. Defined.

Definition demo_insert : text :=
  chars "INSERT INTO oltp.users (id, name) VALUES (7, 'O''Brien'), (8, 'x');".

Lemma wal_statement_replays_row_witness :
  let UT := ascii_tables in let AD := no_adapter in
  let q := chars "INSERT INTO oltp.users (id, name) VALUES (7, 'O''Brien');" in
  let d : row_data :=
    <[chars "name" := chars "O'Brien"]>
      (<[chars "id" := chars "7"]> {[table_meta := chars "users"]}) in
  (chars "users:7", d, q) ∈ extract_all_insert_rows demo_insert ∧
  extract_all_insert_rows q = [(chars "users:7", d, q)].
Proof.
  intros UT AD q d.
  assert (Hin : (chars "users:7", d, q) ∈ @extract_all_insert_rows ascii_tables no_adapter demo_insert).
  { assert (@extract_all_insert_rows ascii_tables no_adapter demo_insert !! 0%nat
      = Some (chars "users:7", d, q)) as H by (vm_compute; reflexivity).
    exact (list_elem_of_lookup_2 _ _ _ H). }
  split; [exact Hin|].
  refine (@wal_statement_replays_row ascii_tables no_adapter demo_insert
    (mkInsert (chars "users") [chars "id"; chars "name"]
       [[chars "7"; chars "O'Brien"]; [chars "8"; chars "x"]])
    (chars "users:7") d q _ _ _ _ Hin).
  - vm_compute. reflexivity.
  - right. exists (chars "oltp"), (chars "users"). split; [vm_compute; reflexivity|].
    split; (split; [split|]); repeat constructor; vm_compute; reflexivity.
  - repeat constructor; vm_compute; reflexivity.
  - repeat constructor; vm_compute; (reflexivity || discriminate).
Defined.

Lemma statements_address_same_row_witness :
  let UT := ascii_tables in let AD := no_adapter in
  extract_delete_key_from_sql (chars "DELETE FROM users WHERE id = 'a''b'") = Some (chars "users:a'b") ∧
  extract_update_row_from_sql (chars "UPDATE users SET name = 'x' WHERE id = 'a''b'")
  = Some (chars "users:a'b", <[chars "name" := chars "x"]> {[table_meta := chars "users"]}).
Proof.
  intros UT AD.
  refine (proj2 (@statements_address_same_row ascii_tables no_adapter (chars "users") (chars "id")
    (chars "a'b") [] [chars "id"] [(chars "name", chars "x")] _ _ _ _ _ _ _)).
  - split; [split|]; repeat constructor; vm_compute; reflexivity.
  - split; [split|]; repeat constructor; vm_compute; reflexivity.
  - vm_compute. reflexivity.
  - split; repeat constructor; vm_compute; reflexivity.
  - repeat constructor; vm_compute; reflexivity.
  - repeat constructor; vm_compute; reflexivity.
  - repeat constructor; vm_compute; (reflexivity || discriminate).
Defined.

(** The sign of a value is lost: the parser passes over the minus, both in a
    statement and in the canonical statement made from a quoted value. *)
Lemma negative_value_loses_sign :
  let UT := ascii_tables in let AD := no_adapter in
  let q := chars "INSERT INTO t VALUES (1, -5);" in
  snd <$> extract_all_insert_rows (chars "INSERT INTO t VALUES (1, '-5')") = [q] ∧
  (fun r => r.1.2 !! chars "col_1") <$> extract_all_insert_rows (chars "INSERT INTO t VALUES (1, '-5')")
  = [Some (chars "-5")] ∧
  (fun r => r.1.2 !! chars "col_1") <$> extract_all_insert_rows q = [Some (chars "5")].
Proof. vm_compute. split_and!; reflexivity. Qed.

(** A value that is neither a number, a string nor NULL is dropped from its row,
    and the values after it move to other columns. *)
Lemma boolean_value_shifts_columns :
  let UT := ascii_tables in let AD := no_adapter in
  (fun r => r.1.2) <$> extract_all_insert_rows (chars "INSERT INTO t (id, ok, name) VALUES (1, TRUE, 'x')")
  = [<[chars "ok" := chars "x"]> (<[chars "id" := chars "1"]> {[table_meta := chars "t"]})].
Proof. vm_compute. reflexivity. Qed.

(** DELETE uses the table name in small letters, INSERT as written. *)
Lemma capitalised_table_delete_misses :
  let UT := ascii_tables in let AD := no_adapter in
  (fun r => r.1.1) <$> extract_all_insert_rows (chars "INSERT INTO Users VALUES (1)") = [chars "Users:1"] ∧
  extract_delete_key_from_sql (chars "DELETE FROM Users WHERE id = 1") = Some (chars "users:1").
Proof. vm_compute. split; reflexivity. Qed.
