(* ===== verification/Utf8.v ===== *)
(** * Text and its UTF-8 bytes

    A [String] of the source is a byte string in the components that only move
    or compare it, and a list of code points in the SQL front end, which looks at
    its characters.  The two views are converted here. *)

From S2P Require Import Prelude Tokenizer.
From Stdlib Require Import Ascii.
Local Open Scope string_scope.
Local Open Scope list_scope.
Local Open Scope N_scope.

Module Utf8.
Import Tokenizer.

(** Code points up to the last plane. *)
Definition scalar (c : N) : Prop := c < 1114112.

#[export] Instance scalar_dec c : Decision (scalar c).
Proof. unfold scalar. apply _. Defined.

Definition byte (n : N) (s : string) : string := String (ascii_of_N n) s.

Definition encode_char (c : N) (s : string) : string :=
  if c <? 128 then byte c s
  else if c <? 2048 then byte (192 + c / 64) (byte (128 + c mod 64) s)
  else if c <? 65536 then
    byte (224 + c / 4096) (byte (128 + c / 64 mod 64) (byte (128 + c mod 64) s))
  else
    byte (240 + c / 262144)
      (byte (128 + c / 4096 mod 64) (byte (128 + c / 64 mod 64) (byte (128 + c mod 64) s))).

Fixpoint to_utf8 (t : text) : string :=
  match t with [] => EmptyString | c :: t' => encode_char c (to_utf8 t') end.

(** The characters of a valid UTF-8 string. *)
Fixpoint of_utf8 (s : string) : text :=
  match s with
  | EmptyString => []
  | String b0 s1 =>
      let b0 := N_of_ascii b0 in
      if b0 <? 128 then b0 :: of_utf8 s1 else
      match s1 with
      | EmptyString => []
      | String b1 s2 =>
          let c1 := N_of_ascii b1 - 128 in
          if b0 <? 224 then ((b0 - 192) * 64 + c1) :: of_utf8 s2 else
          match s2 with
          | EmptyString => []
          | String b2 s3 =>
              let c2 := N_of_ascii b2 - 128 in
              if b0 <? 240 then ((b0 - 224) * 4096 + c1 * 64 + c2) :: of_utf8 s3 else
              match s3 with
              | EmptyString => []
              | String b3 s4 =>
                  let c3 := N_of_ascii b3 - 128 in
                  ((b0 - 240) * 262144 + c1 * 4096 + c2 * 64 + c3) :: of_utf8 s4
              end
          end
      end
  end.

(** A [HashMap<String, String>]. *)
Definition data_utf8 (d : gmap text text) : gmap string string :=
  kmap (M2 := gmap string) to_utf8 (to_utf8 <$> d).

End Utf8.
Import Tokenizer Utf8.

Lemma byte_val n : n < 256 → N_of_ascii (ascii_of_N n) = n.
Proof. intros H. apply N_ascii_embedding. done. Qed.

(** The digits of [c] in base 64. *)
Lemma sextets c :
  scalar c →
  ∃ q1 q2 q3 r0 r1 r2,
    c / 64 = q1 ∧ c / 4096 = q2 ∧ c / 262144 = q3 ∧
    c mod 64 = r0 ∧ q1 mod 64 = r1 ∧ q2 mod 64 = r2 ∧
    c = 64 * q1 + r0 ∧ q1 = 64 * q2 + r1 ∧ q2 = 64 * q3 + r2 ∧
    r0 < 64 ∧ r1 < 64 ∧ r2 < 64 ∧ c < 1114112.
Proof.
  intros Hc. exists (c / 64), (c / 4096), (c / 262144), (c mod 64), (c / 64 mod 64), (c / 4096 mod 64).
  assert (E1 : c / 4096 = c / 64 / 64) by (rewrite N.Div0.div_div; done).
  assert (E2 : c / 262144 = c / 4096 / 64) by (rewrite N.Div0.div_div; done).
  split_and!; try reflexivity; try (apply N.mod_lt; done); try exact Hc.
  - apply N.Div0.div_mod.
  - rewrite E1. apply N.Div0.div_mod.
  - rewrite E2. apply N.Div0.div_mod.
Qed.

Lemma of_to_char c s : scalar c → of_utf8 (encode_char c s) = c :: of_utf8 s.
Proof.
  intros (q1 & q2 & q3 & r0 & r1 & r2 & E1 & E2 & E3 & E4 & E5 & E6 & H1 & H2 & H3 & L0 & L1 & L2 & Hc)%sextets.
  unfold encode_char, byte. rewrite E2, E3, E1, E4, E6, E5. clear E1 E2 E3 E4 E5 E6.
  destruct (N.ltb_spec c 128) as [Ha|Ha].
  { cbn [of_utf8]. rewrite byte_val by lia. by destruct (N.ltb_spec c 128); [|lia]. }
  destruct (N.ltb_spec c 2048) as [Hb|Hb].
  { cbn [of_utf8]. rewrite (byte_val (192 + q1)), (byte_val (128 + r0)) by lia.
    destruct (N.ltb_spec (192 + q1) 128); [lia|].
    destruct (N.ltb_spec (192 + q1) 224); [f_equal; lia|lia]. }
  destruct (N.ltb_spec c 65536) as [Hd|Hd].
  { cbn [of_utf8]. rewrite (byte_val (224 + q2)), (byte_val (128 + r1)), (byte_val (128 + r0)) by lia.
    destruct (N.ltb_spec (224 + q2) 128); [lia|].
    destruct (N.ltb_spec (224 + q2) 224); [lia|].
    destruct (N.ltb_spec (224 + q2) 240); [f_equal; lia|lia]. }
  cbn [of_utf8].
  rewrite (byte_val (240 + q3)), (byte_val (128 + r2)), (byte_val (128 + r1)), (byte_val (128 + r0)) by lia.
  destruct (N.ltb_spec (240 + q3) 128); [lia|].
  destruct (N.ltb_spec (240 + q3) 224); [lia|].
  destruct (N.ltb_spec (240 + q3) 240); [lia|]. f_equal. lia.
Qed.

Lemma of_to_utf8 t : Forall scalar t → of_utf8 (to_utf8 t) = t.
Proof. induction 1 as [|c t Hc Ht IH]; simpl; [done|]. by rewrite of_to_char, IH. Qed.

(** ASCII constants are the same in both views. *)
Lemma to_utf8_chars s :
  Forall (fun c => c < 128) (chars s) → to_utf8 (chars s) = s.
Proof.
  induction s as [|a s IH]; simpl; [done|]. intros [Ha Hs]%Forall_cons. unfold encode_char, byte.
  destruct (N.ltb_spec (N_of_ascii a) 128); [|lia]. rewrite ascii_N_embedding. by rewrite IH.
Qed.
