(* ===== verification/ResourceManager.v ===== *)
(** * Admission control
      ([crates/voltnuerongrid-store/src/resource_manager.rs])

    Memory is counted in [u64] megabytes with the wrap-around of a release
    build; CPU shares are [f64] values, whose arithmetic comes from the class
    [F64].  The clock is an argument.  The heap of waiting requests is a list
    from which [dequeue] takes a greatest element of the source's ordering. *)

From S2P Require Import Prelude Str Bytes.
Local Open Scope string_scope.
Local Open Scope list_scope.
Local Open Scope N_scope.
Local Open Scope vng_scope.

(** The floating-point operations the code uses. *)
Class F64 := {
  f64 : Type;
  f64_of_u64 : N -> f64;
  f64_const : Z -> Z -> f64;
  f64_add : f64 -> f64 -> f64;
  f64_sub : f64 -> f64 -> f64;
  f64_mul : f64 -> f64 -> f64;
  f64_div : f64 -> f64 -> f64;
  f64_min : f64 -> f64 -> f64;
  f64_max : f64 -> f64 -> f64;
  f64_le : f64 -> f64 -> bool;
  f64_lt : f64 -> f64 -> bool;
  f64_show2 : f64 -> string;
  f64_show : f64 -> string;
}.

Module ResourceManager.

Inductive WorkloadClass :=
| OLTP (latency_sla_ms : N)
| OLAP (timeout_ms : N)
| Mixed.

Record QueryRequest := mkRequest {
  query_id : string;
  workload_class : WorkloadClass;
  estimated_cost : N;
  priority : Z;
}.

Record QueueEntry := mkEntry { request : QueryRequest; enqueued_at_ms : N }.

Definition u64_sum (l : list N) : N := fold_left u64_add l 0.

(** [a - b] on [u64]: wraps in a release build. *)
Definition u64_sub (a b : N) : N := u64_wrapping_sub a b.

Definition estimated_memory (r : QueryRequest) : N := N.min (estimated_cost r / 100) 1024.

(** [<QueueEntry as Ord>::cmp] *)
Definition entry_cmp (a b : QueueEntry) : comparison :=
  match Z.compare (priority (request b)) (priority (request a)) with
  | Eq => match N.compare (estimated_cost (request a)) (estimated_cost (request b)) with
          | Eq => String.compare (query_id (request b)) (query_id (request a))
          | o => o
          end
  | o => o
  end.

(** [BinaryHeap::pop]: a greatest entry, and the others. *)
Fixpoint pop_max (best : QueueEntry) (l : list QueueEntry) : QueueEntry * list QueueEntry :=
  match l with
  | [] => (best, [])
  | x :: l' =>
      match entry_cmp x best with
      | Gt => let '(m, r) := pop_max x l' in (m, best :: r)
      | _ => let '(m, r) := pop_max best l' in (m, x :: r)
      end
  end.

Section Manager.
Context `{!F64}.

Record ResourceBudget := mkBudget {
  cpu_cores_available : f64;
  memory_mb_available : N;
  cpu_cores_reserved_for_oltp : f64;
  memory_mb_reserved_for_oltp : N;
}.

Record ResourceAllocation := mkAlloc {
  alloc_query_id : string;
  cpu_cores_allocated : f64;
  memory_mb_allocated : N;
  assigned_at_ms : N;
  throttle_multiplier : f64;
}.

Context `{!MapOrder ResourceAllocation}.

Record AdmissionQueue := mkQueue {
  pending : list QueueEntry;
  admitted : gmap string ResourceAllocation;
  throttle_active : bool;
  throttle_reason : string;
  total_queue_time_ms : N;
  queue_events_count : N;
}.

Record Metrics := mkMetrics { total_admitted : N; total_rejected : N; throttle_events : N }.

Record Manager := mkManager {
  total_budget : ResourceBudget;
  queue : AdmissionQueue;
  metrics : Metrics;
}.

Definition new (budget : ResourceBudget) : Manager :=
  mkManager budget (mkQueue [] ∅ false "" 0 0) (mkMetrics 0 0 0).

Definition set_queue (q : AdmissionQueue) (m : Manager) : Manager :=
  mkManager (total_budget m) q (metrics m).

Definition count_admitted (m : Manager) : Manager :=
  mkManager (total_budget m) (queue m)
    (mkMetrics (u64_add (total_admitted (metrics m)) 1) (total_rejected (metrics m))
       (throttle_events (metrics m))).

Definition count_rejected (m : Manager) : Manager :=
  mkManager (total_budget m) (queue m)
    (mkMetrics (total_admitted (metrics m)) (u64_add (total_rejected (metrics m)) 1)
       (throttle_events (metrics m))).

(** ** The queue *)

Definition enqueue (r : QueryRequest) (now : N) (q : AdmissionQueue) : AdmissionQueue :=
  mkQueue (pending q ++ [mkEntry r now]) (admitted q) (throttle_active q) (throttle_reason q)
    (total_queue_time_ms q) (queue_events_count q).

Definition dequeue (now : N) (q : AdmissionQueue) : option (QueryRequest * N * AdmissionQueue) :=
  match pending q with
  | [] => None
  | x :: l =>
      let '(e, rest) := pop_max x l in
      let queue_time := u64_sub now (enqueued_at_ms e) in
      Some (request e, queue_time,
            mkQueue rest (admitted q) (throttle_active q) (throttle_reason q)
              (u64_add (total_queue_time_ms q) queue_time) (u64_add (queue_events_count q) 1))
  end.

Definition avg_queue_time_ms (q : AdmissionQueue) : f64 :=
  if queue_events_count q =? 0 then f64_const 0 0
  else f64_div (f64_of_u64 (total_queue_time_ms q)) (f64_of_u64 (queue_events_count q)).

(** ** Allocation *)

Definition estimated_cpu (r : QueryRequest) : f64 :=
  f64_min (f64_div (f64_of_u64 (estimated_cost r)) (f64_const 1000 0)) (f64_const 4 0).

Definition allocation_for (now : N) (r : QueryRequest) : ResourceAllocation :=
  mkAlloc (query_id r) (estimated_cpu r) (estimated_memory r) now (f64_const 1 0).

Definition allocated_memory (q : AdmissionQueue) : N :=
  u64_sum (map memory_mb_allocated (iter_values (admitted q))).

Definition allocated_cpu (q : AdmissionQueue) : f64 :=
  fold_left f64_add (map cpu_cores_allocated (iter_values (admitted q))) (f64_const 0 0).

Definition available_memory (b : ResourceBudget) (q : AdmissionQueue) : N :=
  u64_sub (memory_mb_available b) (allocated_memory q).

Definition available_cpu (b : ResourceBudget) (q : AdmissionQueue) : f64 :=
  f64_sub (cpu_cores_available b) (allocated_cpu q).

Definition oltp_memory_used (q : AdmissionQueue) : N :=
  u64_sum (map memory_mb_allocated
             (filter (fun a => Str.starts_with "oltp_" (alloc_query_id a) = true)
                (iter_values (admitted q)))).

Definition try_allocate_from_remaining (now : N) (b : ResourceBudget) (r : QueryRequest)
    (q : AdmissionQueue) : option ResourceAllocation :=
  if (estimated_memory r <=? available_memory b q) && f64_le (estimated_cpu r) (available_cpu b q)
  then Some (allocation_for now r) else None.

Definition try_allocate_immediate (now : N) (b : ResourceBudget) (r : QueryRequest)
    (q : AdmissionQueue) : option ResourceAllocation :=
  match workload_class r with
  | OLTP _ =>
      let oltp_available := u64_sub (memory_mb_reserved_for_oltp b) (oltp_memory_used q) in
      if (estimated_memory r <=? oltp_available) && f64_le (estimated_cpu r) (available_cpu b q)
      then Some (allocation_for now r) else None
  | _ => try_allocate_from_remaining now b r q
  end.

Definition grant (a : ResourceAllocation) (id : string) (q : AdmissionQueue) : AdmissionQueue :=
  mkQueue (pending q) (<[id := a]> (admitted q)) (throttle_active q) (throttle_reason q)
    (total_queue_time_ms q) (queue_events_count q).

Definition exceeds_budget (b : ResourceBudget) (r : QueryRequest) : bool :=
  (memory_mb_available b <? estimated_memory r)
  || f64_lt (cpu_cores_available b) (estimated_cpu r).

Definition is_oltp (c : WorkloadClass) : bool := match c with OLTP _ => true | _ => false end.
Definition is_olap (c : WorkloadClass) : bool := match c with OLAP _ => true | _ => false end.

Definition submit_query (now : N) (r : QueryRequest) (m : Manager)
    : result ResourceAllocation string * Manager :=
  if exceeds_budget (total_budget m) r then
    (Err "Query rejected: resource requirement exceeds total budget", count_rejected m)
  else match try_allocate_immediate now (total_budget m) r (queue m) with
  | Some a => (Ok a, count_admitted (set_queue (grant a (query_id r) (queue m)) m))
  | None =>
      if is_oltp (workload_class r) then
        (Err "OLTP query rejected: insufficient resources", count_rejected m)
      else if Nat.ltb (N.to_nat 10000) (length (pending (queue m))) then
        (Err "Admission queue full; query rejected", count_rejected m)
      else if throttle_active (queue m) && is_olap (workload_class r) then
        (Err ("OLAP throttled due to OLTP SLO pressure: " +:+ throttle_reason (queue m)),
         count_rejected m)
      else
        (Ok (mkAlloc (query_id r) (f64_const 0 0) 0 now (f64_const 1 0)),
         set_queue (enqueue r now (queue m)) m)
  end.

(** The loop of [admit_from_queue]; each turn removes one waiting request. *)
Fixpoint admit_loop (fuel : nat) (now : N) (b : ResourceBudget) (q : AdmissionQueue)
    : option (QueryRequest * ResourceAllocation) * AdmissionQueue :=
  match fuel with
  | O => (None, q)
  | S fuel' =>
      match dequeue now q with
      | None => (None, q)
      | Some (r, _, q') =>
          match try_allocate_from_remaining now b r q' with
          | Some a => (Some (r, a), grant a (query_id r) q')
          | None => admit_loop fuel' now b q'
          end
      end
  end.

Definition admit_from_queue (now : N) (m : Manager) : option ResourceAllocation * Manager :=
  match admit_loop (length (pending (queue m))) now (total_budget m) (queue m) with
  | (Some (_, a), q) => (Some a, count_admitted (set_queue q m))
  | (None, q) => (None, set_queue q m)
  end.

Definition release_resources (id : string) (m : Manager) : Manager :=
  let q := queue m in
  set_queue (mkQueue (pending q) (delete id (admitted q)) (throttle_active q) (throttle_reason q)
               (total_queue_time_ms q) (queue_events_count q)) m.

(** ** Throttling *)

Definition check_oltp_slo_pressure (m : Manager) : f64 :=
  let reserved := memory_mb_reserved_for_oltp (total_budget m) in
  if reserved =? 0 then f64_const 0 0
  else f64_div (f64_of_u64 (allocated_memory (queue m))) (f64_of_u64 reserved).

Definition PRESSURE_THRESHOLD : f64 := f64_const 8 (-1).

Definition set_multiplier (x : f64) (a : ResourceAllocation) : ResourceAllocation :=
  mkAlloc (alloc_query_id a) (cpu_cores_allocated a) (memory_mb_allocated a) (assigned_at_ms a) x.

Definition throttle_olap_if_needed (m : Manager) : Manager :=
  let pressure := check_oltp_slo_pressure m in
  let q := queue m in
  if f64_lt PRESSURE_THRESHOLD pressure then
    let multiplier :=
      f64_max (f64_sub (f64_const 1 0)
                 (f64_div (f64_sub pressure PRESSURE_THRESHOLD)
                    (f64_sub (f64_const 1 0) PRESSURE_THRESHOLD)))
        (f64_const 1 (-1)) in
    let q' := mkQueue (pending q) (set_multiplier multiplier <$> admitted q) true
                (if throttle_active q then throttle_reason q
                 else "OLTP pressure at " +:+ f64_show2 (f64_mul pressure (f64_const 100 0))
                      +:+ "% exceeds threshold "
                      +:+ f64_show (f64_mul PRESSURE_THRESHOLD (f64_const 100 0)) +:+ "%")
                (total_queue_time_ms q) (queue_events_count q) in
    mkManager (total_budget m) q'
      (if throttle_active q then metrics m
       else mkMetrics (total_admitted (metrics m)) (total_rejected (metrics m))
              (u64_add (throttle_events (metrics m)) 1))
  else
    set_queue (mkQueue (pending q) (set_multiplier (f64_const 1 0) <$> admitted q) false
                 (if throttle_active q then "" else throttle_reason q)
                 (total_queue_time_ms q) (queue_events_count q)) m.

End Manager.
End ResourceManager.

(** * Properties of admission control *)

Local Open Scope string_scope.
Local Open Scope list_scope.
Local Open Scope N_scope.

Import ResourceManager.

(** ** Sums of allocations *)

Definition sum_N (l : list N) : N := foldr N.add 0 l.

Lemma sum_N_perm l1 l2 : l1 ≡ₚ l2 → sum_N l1 = sum_N l2.
Proof. unfold sum_N. induction 1; simpl; lia. Qed.

Lemma u64_sum_exact l : sum_N l < u64_modulus → u64_sum l = sum_N l.
Proof.
  unfold u64_sum.
  assert (H : ∀ acc, acc + sum_N l < u64_modulus → fold_left u64_add l acc = acc + sum_N l).
  { induction l as [|x l IH]; intros acc; simpl; [lia|]. intros Hs.
    rewrite u64_add_small by (unfold sum_N in *; simpl in *; lia).
    rewrite IH; unfold sum_N in *; simpl in *; lia. }
  intros Hs. rewrite H; lia.
Qed.

Lemma u64_wrapping_sub_small a b : b <= a → a < u64_modulus → u64_wrapping_sub a b = a - b.
Proof.
  intros Hab Ha. unfold u64_wrapping_sub. replace (a + u64_modulus - b) with (a - b + 1 * u64_modulus) by lia.
  rewrite N.Div0.mod_add. apply N.mod_small. lia.
Qed.

Section Props.
Context {FF : F64} {MO : MapOrder ResourceAllocation}.

Definition memory_of (m : gmap string ResourceAllocation) : N :=
  sum_N (map memory_mb_allocated (map snd (map_to_list m))).

Lemma allocated_memory_exact q :
  memory_of (admitted q) < u64_modulus → allocated_memory q = memory_of (admitted q).
Proof.
  intros Hs. unfold allocated_memory, memory_of, iter_values in *.
  assert (Hp : map memory_mb_allocated (map snd (iter_map (admitted q)))
               ≡ₚ map memory_mb_allocated (map snd (map_to_list (admitted q))))
    by (by rewrite iter_map_perm).
  rewrite (sum_N_perm _ _ (symmetry Hp)) in Hs |- *. by apply u64_sum_exact.
Qed.

Lemma memory_of_insert_new m k a :
  m !! k = None → memory_of (<[k := a]> m) = memory_mb_allocated a + memory_of m.
Proof.
  intros Hk. unfold memory_of.
  rewrite (sum_N_perm _ (map memory_mb_allocated (map snd ((k, a) :: map_to_list m)))); [done|].
  by rewrite map_to_list_insert.
Qed.

Lemma memory_of_delete m k : memory_of (delete k m) <= memory_of m.
Proof.
  destruct (m !! k) as [a|] eqn:E; [|by rewrite delete_id].
  rewrite <-(insert_delete_id m k a E) at 2.
  rewrite memory_of_insert_new by apply lookup_delete_eq. lia.
Qed.

Lemma memory_of_insert m k a : memory_of (<[k := a]> m) <= memory_mb_allocated a + memory_of m.
Proof.
  rewrite <-insert_delete_eq, memory_of_insert_new by apply lookup_delete_eq.
  pose proof (memory_of_delete m k). lia.
Qed.

Lemma memory_of_throttle x m : memory_of (set_multiplier x <$> m) = memory_of m.
Proof.
  unfold memory_of. by rewrite map_to_list_fmap, !map_map.
Qed.

(** ** The budget *)

Inductive rm_event :=
| ESubmit (now : N) (r : QueryRequest)
| EAdmit (now : N)
| ERelease (id : string)
| EThrottle.

Definition rm_step (m : Manager) (ev : rm_event) : Manager :=
  match ev with
  | ESubmit now r => (submit_query now r m).2
  | EAdmit now => (admit_from_queue now m).2
  | ERelease id => release_resources id m
  | EThrottle => throttle_olap_if_needed m
  end.

Definition not_oltp (ev : rm_event) : Prop :=
  match ev with ESubmit _ r => is_oltp (workload_class r) = false | _ => True end.

Definition within_budget (m : Manager) : Prop :=
  memory_of (admitted (queue m)) <= memory_mb_available (total_budget m).

Lemma allocation_fits now b r q a :
  memory_mb_available b < u64_modulus → memory_of (admitted q) <= memory_mb_available b →
  try_allocate_from_remaining now b r q = Some a →
  memory_of (admitted (grant a (query_id r) q)) <= memory_mb_available b.
Proof.
  intros Hb Hq. unfold try_allocate_from_remaining.
  destruct (_ && _) eqn:E; [|done]. intros [= <-]. apply andb_prop in E as [E%N.leb_le _].
  unfold available_memory, u64_sub in E. rewrite allocated_memory_exact in E by lia.
  rewrite u64_wrapping_sub_small in E by lia. simpl.
  pose proof (memory_of_insert (admitted q) (query_id r) (allocation_for now r)). simpl in *. lia.
Qed.

Lemma dequeue_admitted now q r t q' : dequeue now q = Some (r, t, q') → admitted q' = admitted q.
Proof.
  unfold dequeue. destruct (pending q); [done|]. destruct (pop_max _ _). by intros [= _ _ <-].
Qed.

Lemma admit_loop_fits fuel now b q :
  memory_mb_available b < u64_modulus → memory_of (admitted q) <= memory_mb_available b →
  memory_of (admitted (admit_loop fuel now b q).2) <= memory_mb_available b.
Proof.
  intros Hb. revert q. induction fuel as [|fuel IH]; intros q Hq; simpl; [done|].
  destruct (dequeue now q) as [[[r t] q']|] eqn:Ed; [|done]. apply dequeue_admitted in Ed.
  destruct (try_allocate_from_remaining now b r q') as [a|] eqn:Ea.
  - apply (allocation_fits _ _ _ _ _ Hb) in Ea; [done|by rewrite Ed].
  - apply IH. by rewrite Ed.
Qed.

Lemma rm_step_budget m ev : total_budget (rm_step m ev) = total_budget m.
Proof.
  destruct ev as [now r|now|id|]; simpl; [| |done|].
  - unfold submit_query. repeat case_match; done.
  - unfold admit_from_queue. by destruct (admit_loop _ _ _ _) as [[[? ?]|] ?].
  - unfold throttle_olap_if_needed. by destruct (f64_lt _ _).
Qed.

Lemma within_budget_step m ev :
  memory_mb_available (total_budget m) < u64_modulus → not_oltp ev →
  within_budget m → within_budget (rm_step m ev).
Proof.
  intros Hb Hev H. unfold within_budget. rewrite rm_step_budget.
  destruct ev as [now r|now|id|]; cbn [rm_step].
  - unfold submit_query. destruct (exceeds_budget _ _); [done|].
    assert (Himm : try_allocate_immediate now (total_budget m) r (queue m)
                   = try_allocate_from_remaining now (total_budget m) r (queue m)).
    { unfold try_allocate_immediate. simpl in Hev. by destruct (workload_class r). }
    rewrite Himm. destruct (try_allocate_from_remaining _ _ _ _) as [a|] eqn:Ea.
    + by apply (allocation_fits _ _ _ _ _ Hb) in Ea.
    + repeat case_match; done.
  - unfold admit_from_queue.
    pose proof (admit_loop_fits (length (pending (queue m))) now (total_budget m) (queue m) Hb H).
    by destruct (admit_loop _ _ _ _) as [[[? ?]|] ?].
  - simpl. pose proof (memory_of_delete (admitted (queue m)) id). unfold within_budget in H. lia.
  - unfold throttle_olap_if_needed. destruct (f64_lt _ _); simpl; by rewrite memory_of_throttle.
Qed.


End Props.

(** ** The queue's order *)

Lemma entry_cmp_not_gt a b :
  entry_cmp a b ≠ Gt ↔
  (priority (request b) < priority (request a))%Z ∨
  priority (request a) = priority (request b) ∧
  (estimated_cost (request a) < estimated_cost (request b) ∨
   estimated_cost (request a) = estimated_cost (request b) ∧
   String.compare (query_id (request b)) (query_id (request a)) ≠ Gt).
Proof.
  unfold entry_cmp.
  destruct (Z.compare_spec (priority (request b)) (priority (request a))) as [Ep|Ep|Ep].
  - destruct (N.compare_spec (estimated_cost (request a)) (estimated_cost (request b))) as [Ec|Ec|Ec].
    + split; [intros H; right; split; [done|]; right; done|].
      intros [?|[_ [?|[_ H]]]]; [lia|lia|done].
    + split; [intros _; right; split; [done|by left]|done].
    + split; [done|]. intros [?|[_ [?|[? _]]]]; lia.
  - split; [intros _; by left|done].
  - split; [done|]. intros [?|[? _]]; lia.
Qed.

Lemma string_compare_trans a b c :
  String.compare a b ≠ Gt → String.compare b c ≠ Gt → String.compare a c ≠ Gt.
Proof.
  intros Hab Hbc Hac.
  destruct (String.compare a b) eqn:E1; [|..|done].
  - apply String.compare_eq_iff in E1 as ->. done.
  - destruct (String.compare b c) eqn:E2; [|..|done].
    + apply String.compare_eq_iff in E2 as ->. congruence.
    + rewrite (Bytes.key_lt_trans a b c E1 E2) in Hac. done.
Qed.

Lemma entry_cmp_trans a b c : entry_cmp a b ≠ Gt → entry_cmp b c ≠ Gt → entry_cmp a c ≠ Gt.
Proof.
  rewrite !entry_cmp_not_gt.
  intros [?|[? [?|[? H1]]]] [?|[? [?|[? H2]]]]; try (left; lia);
    right; (split; [lia|]); try (left; lia).
  right. split; [lia|]. by eapply string_compare_trans.
Qed.

Lemma entry_cmp_refl a : entry_cmp a a ≠ Gt.
Proof.
  apply entry_cmp_not_gt. right. split; [done|]. right. split; [done|].
  intros E. apply (Bytes.key_lt_irrefl (query_id (request a))). unfold Bytes.key_lt.
  by rewrite String.compare_antisym, E.
Qed.

Lemma entry_cmp_flip a b : entry_cmp a b = Gt → entry_cmp b a ≠ Gt.
Proof.
  intros Hab Hba. apply (entry_cmp_not_gt b a); [|done].
  assert (Hn : ¬ entry_cmp a b ≠ Gt) by (intros H; done). rewrite entry_cmp_not_gt in Hn.
  destruct (decide (priority (request a) < priority (request b))%Z); [by left|right].
  assert (priority (request b) = priority (request a)).
  { destruct (decide (priority (request b) = priority (request a))); [done|]. exfalso. apply Hn. left. lia. }
  split; [done|]. destruct (decide (estimated_cost (request b) < estimated_cost (request a))); [by left|].
  right. assert (estimated_cost (request b) = estimated_cost (request a)).
  { destruct (decide (estimated_cost (request b) = estimated_cost (request a))); [done|].
    exfalso. apply Hn. right. split; [done|]. left. lia. }
  split; [done|]. intros E. apply Hn. right. split; [done|]. right. split; [done|].
  rewrite String.compare_antisym, E. done.
Qed.

Lemma pop_max_greatest best l e r :
  pop_max best l = (e, r) →
  e :: r ≡ₚ best :: l ∧ ∀ x, x ∈ best :: l → entry_cmp x e ≠ Gt.
Proof.
  revert best e r. induction l as [|x l IH]; intros best e r; simpl.
  - intros [= <- <-]. split; [done|]. intros y ->%list_elem_of_singleton. apply entry_cmp_refl.
  - destruct (entry_cmp x best) eqn:Ec.
    3: destruct (pop_max x l) as [m r0] eqn:E. 1,2: destruct (pop_max best l) as [m r0] eqn:E.
    all: intros [= <- <-]; destruct (IH _ _ _ E) as [Hp Hg].
    1,2: split; [rewrite perm_swap, Hp; apply perm_swap|];
      intros y Hy; apply elem_of_cons in Hy as [->|Hy]; [apply Hg; by left|];
      apply elem_of_cons in Hy as [->|Hy];
      [apply (entry_cmp_trans x best m); [by rewrite Ec|apply Hg; by left]|apply Hg; by right].
    split; [by rewrite perm_swap, Hp|]. intros y Hy. apply elem_of_cons in Hy as [->|Hy]; [|by apply Hg].
    apply (entry_cmp_trans best x m); [by apply entry_cmp_flip|apply Hg; by left].
Qed.

(** What leaves the queue first.  The request taken from the queue is one
    of the waiting ones with the lowest priority and, among those, the highest
    estimated cost; the others stay. *)
Theorem dequeue_takes_lowest_priority `{!F64} (now : N) (q q' : AdmissionQueue) (r : QueryRequest)
    (t : N) :
  dequeue now q = Some (r, t, q') →
  ∃ e, request e = r ∧ pending q ≡ₚ e :: pending q' ∧
    ∀ x, x ∈ pending q →
      (priority r <= priority (request x))%Z ∧
      (priority r = priority (request x) → estimated_cost (request x) <= estimated_cost r).
Proof.
  unfold dequeue. destruct (pending q) as [|x l]; [done|].
  destruct (pop_max x l) as [e rest] eqn:E. intros [= <- _ <-].
  apply pop_max_greatest in E as [Hp Hg]. exists e. split_and!; [done|by rewrite Hp|].
  intros y Hy. specialize (Hg y Hy). apply entry_cmp_not_gt in Hg. lia.
Qed.

(** ** Witnesses *)

(** A CPU that never limits anything. *)
Definition free_cpu : F64 := {|
  f64 := unit; f64_of_u64 := fun _ => tt; f64_const := fun _ _ => tt;
  f64_add := fun _ _ => tt; f64_sub := fun _ _ => tt; f64_mul := fun _ _ => tt;
  f64_div := fun _ _ => tt; f64_min := fun _ _ => tt; f64_max := fun _ _ => tt;
  f64_le := fun _ _ => true; f64_lt := fun _ _ => false;
  f64_show2 := fun _ => "?"; f64_show := fun _ => "?";
|}.

Definition demo_budget : @ResourceBudget free_cpu :=
  @mkBudget free_cpu tt 1000 tt 600.

Definition olap (id : string) (cost : N) : rm_event := ESubmit 0 (mkRequest id (OLAP 10) cost 0%Z).


Definition waiting : @AdmissionQueue free_cpu :=
  @mkQueue free_cpu [mkEntry (mkRequest "urgent" Mixed 10 9%Z) 1; mkEntry (mkRequest "idle" Mixed 500 1%Z) 2]
    ∅ false "" 0 0.

Lemma dequeue_takes_lowest_priority_witness :
  ∃ r t q', @dequeue free_cpu 5 waiting = Some (r, t, q') ∧ query_id r = "idle" ∧
    (priority r <= 9)%Z.
Proof.
  eexists _, _, _. split; [vm_compute; reflexivity|]. split; [reflexivity|].
  edestruct (@dequeue_takes_lowest_priority free_cpu 5 waiting) as (e & <- & _ & Hx);
    [vm_compute; reflexivity|].
  exact (proj1 (Hx (mkEntry (mkRequest "urgent" Mixed 10 9%Z) 1) ltac:(left))).
Defined.

(** An OLTP query is only checked against its own reservation: with the memory
    already allocated it overcommits the budget, the subtraction of the next
    request wraps, and an analytical query is admitted on top. *)
Lemma oltp_overcommits_memory :
  let F := free_cpu in let MO := canonical_order in
  memory_of (admitted (queue (fold_left rm_step
     [olap "a" 100000; ESubmit 1 (mkRequest "oltp_1" (OLTP 5) 60000 0%Z); olap "b" 90000]
     (new demo_budget)))) = 2500.
Proof. vm_compute. reflexivity. Qed.
