(* ===== verification/Triggers.v ===== *)
(** * Triggers ([crates/voltnuerongrid-store/src/triggers.rs])

    The registry of row and schema triggers, with its name index and
    swap-removal, and the parser of trigger statements. *)

From S2P Require Import Prelude Str SqlKind.
From Stdlib Require Import Ascii.
Local Open Scope string_scope.
Local Open Scope list_scope.
Local Open Scope nat_scope.
Local Open Scope vng_scope.

Module Triggers.
Import SqlKind.

Inductive TriggerEvent :=
| BeforeInsert | AfterInsert | BeforeUpdate | AfterUpdate | BeforeDelete | AfterDelete
| TruncateTable | CreateTable | DropTable | CreateView | DropView.

#[global] Instance TriggerEvent_eq_dec : EqDecision TriggerEvent.
Proof. solve_decision. Defined.

Definition is_dml (e : TriggerEvent) : bool :=
  match e with
  | BeforeInsert | AfterInsert | BeforeUpdate | AfterUpdate | BeforeDelete | AfterDelete
  | TruncateTable => true
  | _ => false
  end.

Definition is_ddl (e : TriggerEvent) : bool :=
  match e with CreateTable | DropTable | CreateView | DropView => true | _ => false end.

Definition as_str (e : TriggerEvent) : string :=
  match e with
  | BeforeInsert => "BEFORE INSERT" | AfterInsert => "AFTER INSERT"
  | BeforeUpdate => "BEFORE UPDATE" | AfterUpdate => "AFTER UPDATE"
  | BeforeDelete => "BEFORE DELETE" | AfterDelete => "AFTER DELETE"
  | TruncateTable => "TRUNCATE" | CreateTable => "CREATE TABLE" | DropTable => "DROP TABLE"
  | CreateView => "CREATE VIEW" | DropView => "DROP VIEW"
  end.

Inductive TriggerGranularity := Row | Statement.

Record TriggerDefinition := mkTrigger {
  name : string;
  table : string;
  schema : string;
  event : TriggerEvent;
  granularity : TriggerGranularity;
  body : string;
  enabled : bool;
}.

Record DdlTriggerDefinition := mkDdlTrigger {
  ddl_name : string;
  ddl_event : TriggerEvent;
  schema_filter : option string;
  ddl_body : string;
  ddl_enabled : bool;
}.

(** [DdlTriggerDefinition::new]: [None] is the failed assertion. *)
Definition new_ddl (n : string) (e : TriggerEvent) (b : string) : option DdlTriggerDefinition :=
  if is_ddl e then Some (mkDdlTrigger n e None b true) else None.

Record TriggerRegistry := mkRegistry {
  dml_triggers : list TriggerDefinition;
  ddl_triggers : list DdlTriggerDefinition;
  dml_index : gmap string nat;
  ddl_index : gmap string nat;
}.

Definition new : TriggerRegistry := mkRegistry [] [] ∅ ∅.

Definition has_name (n : string) (r : TriggerRegistry) : bool :=
  bool_decide (is_Some (dml_index r !! n)) || bool_decide (is_Some (ddl_index r !! n)).

Definition register (t : TriggerDefinition) (r : TriggerRegistry) : result unit string * TriggerRegistry :=
  if has_name (name t) r then (Err ("trigger '" +:+ name t +:+ "' already exists"), r)
  else (Ok tt, mkRegistry (dml_triggers r ++ [t]) (ddl_triggers r)
                 (<[name t := length (dml_triggers r)]> (dml_index r)) (ddl_index r)).

Definition register_ddl (t : DdlTriggerDefinition) (r : TriggerRegistry)
    : result unit string * TriggerRegistry :=
  if has_name (ddl_name t) r then (Err ("trigger '" +:+ ddl_name t +:+ "' already exists"), r)
  else (Ok tt, mkRegistry (dml_triggers r) (ddl_triggers r ++ [t]) (dml_index r)
                 (<[ddl_name t := length (ddl_triggers r)]> (ddl_index r))).

Definition find_triggers (tbl sch : string) (e : TriggerEvent) (r : TriggerRegistry)
    : list TriggerDefinition :=
  filter (fun t => enabled t = true ∧ table t = tbl ∧ schema t = sch ∧ event t = e) (dml_triggers r).

Definition ddl_matches (e : TriggerEvent) (sch : option string) (t : DdlTriggerDefinition) : bool :=
  if negb (ddl_enabled t) || negb (bool_decide (ddl_event t = e)) then false
  else match schema_filter t with
       | Some f => match sch with Some s => String.eqb s f | None => false end
       | None => true
       end.

Definition find_ddl_triggers (e : TriggerEvent) (sch : option string) (r : TriggerRegistry)
    : list DdlTriggerDefinition :=
  filter (fun t => ddl_matches e sch t = true) (ddl_triggers r).

(** [Vec::swap_remove]; [None] is the panic of an index out of range. *)
Definition swap_remove {A} (i : nat) (l : list A) : option (list A) :=
  match l !! i, last l with
  | Some _, Some x => Some (take (length l - 1) (<[i := x]> l))
  | _, _ => None
  end.

(** Removal from one of the two vectors and its index. *)
Definition remove_from {A} (name_of : A -> string) (n : string) (idx : nat) (l : list A)
    (index : gmap string nat) : option (list A * gmap string nat) :=
  let last_name := name_of <$> last l in
  let! l' := swap_remove idx l in
  let index := delete n index in
  Some (l', match last_name with
            | Some ln => if String.eqb ln n then index else <[ln := idx]> index
            | None => index
            end).

Definition remove_trigger (n : string) (r : TriggerRegistry) : option (bool * TriggerRegistry) :=
  match dml_index r !! n with
  | Some idx =>
      let! (l, ix) := remove_from name n idx (dml_triggers r) (dml_index r) in
      Some (true, mkRegistry l (ddl_triggers r) ix (ddl_index r))
  | None =>
      match ddl_index r !! n with
      | Some idx =>
          let! (l, ix) := remove_from ddl_name n idx (ddl_triggers r) (ddl_index r) in
          Some (true, mkRegistry (dml_triggers r) l (dml_index r) ix)
      | None => Some (false, r)
      end
  end.

Definition len (r : TriggerRegistry) : nat := length (dml_triggers r) + length (ddl_triggers r).

(** ** Trigger statements *)

Definition statement_text (sql : string) : string :=
  Str.trim (Str.trim_end_matches [";"] (Str.trim sql)).

Definition trigger_event (timing word : string) : option TriggerEvent :=
  match timing, word with
  | "before", "insert" => Some BeforeInsert
  | "after", "insert" => Some AfterInsert
  | "before", "update" => Some BeforeUpdate
  | "after", "update" => Some AfterUpdate
  | "before", "delete" => Some BeforeDelete
  | "after", "delete" => Some AfterDelete
  | _, _ => None
  end.

Definition parse_create_trigger (sql : string) : option TriggerDefinition :=
  let trimmed := statement_text sql in
  let lower := to_ascii_lowercase trimmed in
  match split_whitespace lower with
  | create :: trigger :: nm :: timing :: word :: on :: raw :: _ =>
      if negb (String.eqb create "create" && String.eqb trigger "trigger") then None
      else if String.eqb nm "" then None
      else if negb (String.eqb on "on") then None
      else
        let! ev := trigger_event timing word in
        let raw_table := Str.trim_matches ["("; ")"; ","] raw in
        let '(sch, tbl) := match Str.split_once "." raw_table with
                           | Some (s, t) => (s, t)
                           | None => ("public", raw_table)
                           end in
        if String.eqb tbl "" then None
        else
          let gran := if Str.contains "for each statement" lower then Statement else Row in
          let bd := match Str.find_str "execute " lower with
                    | Some pos => Str.trim (Str.sub pos (String.length trimmed) trimmed)
                    | None => trimmed
                    end in
          Some (mkTrigger nm tbl sch ev gran bd true)
  | _ => None
  end.

Definition parse_drop_trigger_name (sql : string) : option string :=
  let tokens := split_whitespace (to_ascii_lowercase (statement_text sql)) in
  match tokens with
  | drop :: trigger :: rest =>
      if Nat.ltb (length tokens) 3 || negb (String.eqb drop "drop")
         || negb (String.eqb trigger "trigger") then None
      else
        let i := match rest with
                 | "if" :: "exists" :: _ => if Nat.leb 5 (length tokens) then 4 else 2
                 | _ => 2
                 end in
        match tokens !! i with
        | Some n => if String.eqb n "" then None else Some n
        | None => None
        end
  | _ => None
  end.

Example parse_create_ex :
  parse_create_trigger "CREATE TRIGGER Aud AFTER INSERT ON app.Orders FOR EACH ROW EXECUTE FUNCTION Log();"
  = Some (mkTrigger "aud" "orders" "app" AfterInsert Row "EXECUTE FUNCTION Log()" true).
Proof. vm_compute. reflexivity. Qed.

Example parse_drop_ex : parse_drop_trigger_name "drop trigger if exists T1 on x" = Some "t1".
Proof. vm_compute. reflexivity. Qed.

End Triggers.

Import Triggers.

(** ** A vector with a name index *)

(** The index maps each name to the position of the entry with that name. *)
Definition indexed {A} (name_of : A -> string) (l : list A) (ix : gmap string nat) : Prop :=
  ∀ n i, ix !! n = Some i ↔ name_of <$> l !! i = Some n.

(** The entries by name. *)
Definition by_name {A} (name_of : A -> string) (l : list A) (ix : gmap string nat) (n : string) : option A :=
  ix !! n ≫= fun i => l !! i.

Section Indexed.
Context {A : Type} (name_of : A -> string).
Implicit Types (l : list A).

Lemma indexed_push l ix x :
  indexed name_of l ix → ix !! name_of x = None →
  indexed name_of (l ++ [x]) (<[name_of x := length l]> ix).
Proof.
  intros H Hnew n i. destruct (decide (name_of x = n)) as [<-|Hne].
  - rewrite lookup_insert_eq. split.
    + intros [= <-]. by rewrite lookup_app_r, Nat.sub_diag by done.
    + intros Hi. destruct (decide (i < length l)) as [Hlt|Hge].
      * rewrite lookup_app_l in Hi by done. apply H in Hi. congruence.
      * assert (Hle := lookup_lt_is_Some_1 (l ++ [x]) i). rewrite length_app in Hle. simpl in Hle.
        destruct ((l ++ [x]) !! i) eqn:E; [|done]. f_equal. specialize (Hle ltac:(by eexists)). lia.
  - rewrite lookup_insert_ne by done. rewrite (H n i). destruct (decide (i < length l)) as [Hlt|Hge].
    + by rewrite lookup_app_l by done.
    + rewrite lookup_ge_None_2 by lia. split; [done|]. intros Hi.
      apply fmap_Some in Hi as (y & Hy & Hn). apply lookup_snoc_Some in Hy as [[? _]|[_ <-]]; [lia|].
      congruence.
Qed.

Lemma swap_remove_snoc l x i :
  i ≤ length l →
  swap_remove i (l ++ [x]) = Some (if decide (i < length l) then <[i := x]> l else l).
Proof.
  intros Hi. unfold swap_remove. rewrite last_snoc, length_app, Nat.add_sub.
  destruct (decide (i < length l)) as [Hlt|Hge].
  - rewrite lookup_app_l by done. destruct (lookup_lt_is_Some_2 l i Hlt) as [y ->]. f_equal.
    rewrite insert_app_l by done. apply take_app_length'. by rewrite length_insert.
  - assert (i = length l) as -> by lia.
    rewrite lookup_app_r, Nat.sub_diag by done. simpl. f_equal.
    rewrite insert_app_r_alt by done. by rewrite take_app_length.
Qed.

Lemma insert_perm l i x y : l !! i = Some y → l ++ [x] ≡ₚ y :: <[i := x]> l.
Proof.
  intros Hy. rewrite insert_take_drop by (by eapply lookup_lt_Some).
  rewrite <-(take_drop_middle l i y Hy) at 1.
  rewrite (comm (++) _ [x]). simpl. rewrite <-!Permutation_middle. apply perm_swap.
Qed.

Lemma indexed_pos l ix i j y z :
  indexed name_of l ix → l !! i = Some y → l !! j = Some z → name_of y = name_of z → i = j.
Proof.
  intros H Hi Hj E.
  assert (ix !! name_of y = Some i) by (apply H; by rewrite Hi).
  assert (ix !! name_of y = Some j) by (apply H; by rewrite Hj, E). congruence.
Qed.

(** Removing by name keeps the index exact and drops just that entry. *)
Lemma remove_from_spec l ix n i :
  indexed name_of l ix → ix !! n = Some i →
  ∃ l' ix' y, remove_from name_of n i l ix = Some (l', ix') ∧ indexed name_of l' ix' ∧
    name_of y = n ∧ l ≡ₚ y :: l'.
Proof.
  intros H Hn. assert (Hi := proj1 (H n i) Hn). apply fmap_Some in Hi as (y & Hy & ->).
  assert (Hlt := lookup_lt_Some _ _ _ Hy).
  destruct (last l) as [x|] eqn:Hl; [|apply last_None in Hl; subst; simpl in Hlt; lia].
  apply last_Some in Hl as [l0 ->]. rewrite length_app in Hlt. simpl in Hlt.
  assert (Hx : (l0 ++ [x]) !! length l0 = Some x) by (by rewrite lookup_app_r, Nat.sub_diag by done).
  unfold remove_from. rewrite swap_remove_snoc, last_snoc by lia. cbn [fmap option_fmap option_map].
  destruct (decide (i < length l0)) as [Hil|Hil].
  - assert (Hxn : name_of x ≠ name_of y).
    { intros E. assert (length l0 = i) by (by eapply (indexed_pos (l0 ++ [x]))). lia. }
    destruct (String.eqb_spec (name_of x) (name_of y)); [done|].
    rewrite lookup_app_l in Hy by done.
    eexists _, _, y. split_and!; [done| |done|by apply insert_perm].
    intros n' j. destruct (decide (name_of x = n')) as [<-|Hnx].
    + rewrite lookup_insert_eq. split.
      * intros [= <-]. by rewrite list_lookup_insert_eq.
      * intros Hj. destruct (decide (i = j)) as [->|Hij]; [done|]. exfalso.
        rewrite list_lookup_insert_ne in Hj by done. apply fmap_Some in Hj as (z & Hz & Hnz).
        assert (Hzl := lookup_lt_Some _ _ _ Hz).
        assert (length l0 = j); [|lia].
        eapply (indexed_pos (l0 ++ [x])); [done..| |done]. by rewrite lookup_app_l.
    + rewrite lookup_insert_ne by done. destruct (decide (i = j)) as [->|Hij].
      * rewrite list_lookup_insert_eq by done. simpl. split; [|congruence]. intros Hd. exfalso.
        apply lookup_delete_Some in Hd as [Hny Hd]. apply H in Hd.
        rewrite lookup_app_l, Hy in Hd by done. simpl in Hd. congruence.
      * rewrite list_lookup_insert_ne by done. rewrite lookup_delete_Some, (H n' j).
        destruct (decide (j < length l0)) as [Hj|Hj].
        -- rewrite lookup_app_l by done. split; [by intros [_ ?]|]. intros Hz. split; [|done].
           intros <-. apply fmap_Some in Hz as (z & Hz & Hnz).
           assert (i = j); [|done]. eapply (indexed_pos (l0 ++ [x])); [done|..|exact Hnz];
             by rewrite lookup_app_l.
        -- rewrite (lookup_ge_None_2 l0) by lia. split; [|done]. intros [_ Hz].
           apply fmap_Some in Hz as (z & Hz & ->). apply lookup_snoc_Some in Hz as [[? _]|[_ <-]]; [lia|done].
  - assert (i = length l0) as -> by lia. rewrite Hx in Hy. injection Hy as <-.
    rewrite String.eqb_refl. eexists _, _, x. split_and!; [done| |done|by rewrite (comm (++))].
    intros n' j. rewrite lookup_delete_Some, (H n' j).
    destruct (decide (j < length l0)) as [Hj|Hj].
    + rewrite lookup_app_l by done. split; [by intros [_ ?]|]. intros Hz. split; [|done].
      intros <-. apply fmap_Some in Hz as (z & Hz & Hnz).
      assert (length l0 = j); [|lia]. eapply (indexed_pos (l0 ++ [x])); [done|done| |done].
      by rewrite lookup_app_l.
    + rewrite (lookup_ge_None_2 l0) by lia. split; [|done]. intros [Hne Hz].
      apply fmap_Some in Hz as (z & Hz & ->). apply lookup_snoc_Some in Hz as [[? _]|[_ <-]]; [lia|done].
Qed.

End Indexed.

(** ** The registry against a map from names to triggers *)

Abbreviation trigger := (TriggerDefinition + DdlTriggerDefinition)%type.

Definition trigger_name (t : trigger) : string :=
  match t with inl t => name t | inr t => ddl_name t end.

Inductive registry_op :=
| TRegister (t : TriggerDefinition)
| TRegisterDdl (t : DdlTriggerDefinition)
| TRemove (n : string).

Definition registry_step (r : TriggerRegistry) (o : registry_op) : option TriggerRegistry :=
  match o with
  | TRegister t => Some (register t r).2
  | TRegisterDdl t => Some (register_ddl t r).2
  | TRemove n => snd <$> remove_trigger n r
  end.

Fixpoint registry_run (ops : list registry_op) (r : TriggerRegistry) : option TriggerRegistry :=
  match ops with
  | [] => Some r
  | o :: ops' => match registry_step r o with Some r' => registry_run ops' r' | None => None end
  end.

(** The first registration of a name wins until it is removed. *)
Definition map_step (m : gmap string trigger) (o : registry_op) : gmap string trigger :=
  match o with
  | TRegister t => match m !! name t with Some _ => m | None => <[name t := inl t]> m end
  | TRegisterDdl t => match m !! ddl_name t with Some _ => m | None => <[ddl_name t := inr t]> m end
  | TRemove n => delete n m
  end.

Record registry_inv (r : TriggerRegistry) (m : gmap string trigger) : Prop := {
  inv_dml_index : indexed name (dml_triggers r) (dml_index r);
  inv_ddl_index : indexed ddl_name (ddl_triggers r) (ddl_index r);
  inv_dml : ∀ t, t ∈ dml_triggers r ↔ m !! name t = Some (inl t);
  inv_ddl : ∀ t, t ∈ ddl_triggers r ↔ m !! ddl_name t = Some (inr t);
  inv_name : ∀ n t, m !! n = Some t → trigger_name t = n;
}.

Lemma indexed_elem {A} (name_of : A -> string) l ix n :
  indexed name_of l ix → is_Some (ix !! n) ↔ ∃ t, t ∈ l ∧ name_of t = n.
Proof.
  intros H. split.
  - intros [i Hi]. apply H in Hi. apply fmap_Some in Hi as (t & Ht & ->).
    exists t. split; [by eapply list_elem_of_lookup_2|done].
  - intros (t & Ht & <-). apply list_elem_of_lookup_1 in Ht as [i Hi].
    exists i. apply H. by rewrite Hi.
Qed.

Lemma has_name_spec r m n : registry_inv r m → has_name n r = true ↔ is_Some (m !! n).
Proof.
  intros [H1 H2 H3 H4 H5]. unfold has_name. rewrite orb_true_iff, !bool_decide_eq_true.
  rewrite (indexed_elem _ _ _ n H1), (indexed_elem _ _ _ n H2). split.
  - intros [(t & Ht & <-)|(t & Ht & <-)]; [apply H3 in Ht|apply H4 in Ht]; by eexists.
  - intros [[t|t] Ht]; pose proof (H5 _ _ Ht) as Hn; simpl in Hn; subst n; [left|right];
      exists t; (split; [|done]); [by apply H3|by apply H4].
Qed.

Lemma index_free {A} (name_of : A -> string) l ix n :
  indexed name_of l ix → (∀ t, t ∈ l → name_of t ≠ n) → ix !! n = None.
Proof.
  intros H Hno. destruct (ix !! n) eqn:E; [|done]. exfalso.
  destruct (proj1 (indexed_elem _ _ _ n H)) as (t & Ht & Hn); [by eexists|]. by apply (Hno t).
Qed.

Lemma register_inv r m t :
  registry_inv r m → registry_inv (register t r).2 (map_step m (TRegister t)).
Proof.
  intros H. pose proof (has_name_spec r m (name t) H) as Hh. unfold register. simpl.
  destruct (m !! name t) as [x|] eqn:E.
  { rewrite (proj2 Hh) by (by eexists). done. }
  destruct (has_name (name t) r); [by destruct (proj1 Hh eq_refl)|]. clear Hh.
  destruct H as [H1 H2 H3 H4 H5]. split; simpl.
  - apply indexed_push; [done|]. eapply index_free; [done|]. intros t' Ht' En.
    apply H3 in Ht'. congruence.
  - done.
  - intros t'. rewrite elem_of_app, list_elem_of_singleton.
    destruct (decide (name t = name t')) as [En|En].
    + rewrite En, lookup_insert_eq. split; [|intros [= <-]; by right].
      intros [Hin|<-]; [|done]. apply H3 in Hin. congruence.
    + rewrite lookup_insert_ne by done. rewrite H3. split; [|by left].
      intros [?| ->]; [done|congruence].
  - intros t'. rewrite H4. destruct (decide (name t = ddl_name t')) as [En|En].
    + rewrite <-En, lookup_insert_eq, E. done.
    + by rewrite lookup_insert_ne.
  - intros n t'. destruct (decide (name t = n)) as [<-|En].
    + rewrite lookup_insert_eq. by intros [= <-].
    + rewrite lookup_insert_ne by done. apply H5.
Qed.

Lemma register_ddl_inv r m t :
  registry_inv r m → registry_inv (register_ddl t r).2 (map_step m (TRegisterDdl t)).
Proof.
  intros H. pose proof (has_name_spec r m (ddl_name t) H) as Hh. unfold register_ddl. simpl.
  destruct (m !! ddl_name t) as [x|] eqn:E.
  { rewrite (proj2 Hh) by (by eexists). done. }
  destruct (has_name (ddl_name t) r); [by destruct (proj1 Hh eq_refl)|]. clear Hh.
  destruct H as [H1 H2 H3 H4 H5]. split; simpl.
  - done.
  - apply indexed_push; [done|]. eapply index_free; [done|]. intros t' Ht' En.
    apply H4 in Ht'. congruence.
  - intros t'. rewrite H3. destruct (decide (ddl_name t = name t')) as [En|En].
    + rewrite <-En, lookup_insert_eq, E. done.
    + by rewrite lookup_insert_ne.
  - intros t'. rewrite elem_of_app, list_elem_of_singleton.
    destruct (decide (ddl_name t = ddl_name t')) as [En|En].
    + rewrite En, lookup_insert_eq. split; [|intros [= <-]; by right].
      intros [Hin|<-]; [|done]. apply H4 in Hin. congruence.
    + rewrite lookup_insert_ne by done. rewrite H4. split; [|by left].
      intros [?| ->]; [done|congruence].
  - intros n t'. destruct (decide (ddl_name t = n)) as [<-|En].
    + rewrite lookup_insert_eq. by intros [= <-].
    + rewrite lookup_insert_ne by done. apply H5.
Qed.

(** What is left of a vector after removing the entry with a name. *)
Lemma removed_elem {A} (name_of : A -> string) l l' ix y t :
  indexed name_of l ix → l ≡ₚ y :: l' →
  t ∈ l' ↔ t ∈ l ∧ name_of t ≠ name_of y.
Proof.
  intros H Hp.
  assert (Hnd : NoDup (name_of <$> l)).
  { apply NoDup_alt. intros i j n Hi Hj. rewrite list_lookup_fmap in Hi, Hj.
    apply H in Hi, Hj. congruence. }
  rewrite Hp in Hnd |- *. simpl in Hnd. apply NoDup_cons in Hnd as [Hni Hnd]. split.
  - intros Ht. split; [by right|]. intros E. apply Hni. rewrite <-E. by apply list_elem_of_fmap_2.
  - intros [Ht Hne]. apply elem_of_cons in Ht as [->|]; done.
Qed.

Lemma remove_inv r m n :
  registry_inv r m →
  ∃ b r', remove_trigger n r = Some (b, r') ∧ registry_inv r' (delete n m).
Proof.
  intros H. pose proof H as [H1 H2 H3 H4 H5]. unfold remove_trigger.
  assert (Hother : ∀ k x, k ≠ n → delete n m !! k = Some x ↔ m !! k = Some x)
    by (intros; by rewrite lookup_delete_ne).
  destruct (dml_index r !! n) as [i|] eqn:Ed.
  - destruct (remove_from_spec name (dml_triggers r) (dml_index r) n i H1 Ed)
      as (l' & ix' & y & Hrem & Hix & <- & Hp).
    rewrite Hrem. eexists _, _. split; [done|].
    assert (Hy : m !! name y = Some (inl y)) by (apply H3; rewrite Hp; by left).
    split; simpl; try done.
    + intros t. rewrite (removed_elem name _ _ _ y t H1 Hp), H3.
      rewrite lookup_delete_Some. naive_solver.
    + intros t. rewrite H4, lookup_delete_Some. split; [|by intros [_ ?]]. intros Ht.
      split; [|done]. intros E. rewrite <-E in Ht. congruence.
    + intros k t. rewrite lookup_delete_Some. intros [_ ?]. by apply H5.
  - destruct (ddl_index r !! n) as [i|] eqn:El.
    + destruct (remove_from_spec ddl_name (ddl_triggers r) (ddl_index r) n i H2 El)
        as (l' & ix' & y & Hrem & Hix & <- & Hp).
      rewrite Hrem. eexists _, _. split; [done|].
      assert (Hy : m !! ddl_name y = Some (inr y)) by (apply H4; rewrite Hp; by left).
      split; simpl; try done.
      * intros t. rewrite H3, lookup_delete_Some. split; [|by intros [_ ?]]. intros Ht.
        split; [|done]. intros E. rewrite <-E in Ht. congruence.
      * intros t. rewrite (removed_elem ddl_name _ _ _ y t H2 Hp), H4.
        rewrite lookup_delete_Some. naive_solver.
      * intros k t. rewrite lookup_delete_Some. intros [_ ?]. by apply H5.
    + exists false, r. split; [done|]. rewrite delete_id; [done|].
      destruct (m !! n) as [t|] eqn:E; [|done]. exfalso.
      assert (Hn : has_name n r = true) by (by apply (has_name_spec r m n H)).
      unfold has_name in Hn. by rewrite Ed, El in Hn.
Qed.

Lemma registry_run_inv ops r m :
  registry_inv r m → ∃ r', registry_run ops r = Some r' ∧ registry_inv r' (fold_left map_step ops m).
Proof.
  revert r m. induction ops as [|o ops IH]; intros r m H; simpl; [eauto|].
  destruct o as [t|t|n]; simpl.
  - apply IH. by apply register_inv.
  - apply IH. by apply register_ddl_inv.
  - destruct (remove_inv r m n H) as (b & r' & -> & H'). simpl. by apply IH.
Qed.

(** The registry is a map from names to triggers.  No sequence of
    registrations and removals panics; afterwards the triggers found for a
    table and event are exactly the enabled ones that a map from names keeps,
    where the first registration of a name (of either kind) wins until it is
    removed, and no name occurs twice. *)
Theorem trigger_registry_refines_map (ops : list registry_op) :
  let m := fold_left map_step ops ∅ in
  ∃ r, registry_run ops new = Some r ∧
    (∀ t tbl sch e, t ∈ find_triggers tbl sch e r ↔
       m !! name t = Some (inl t) ∧ enabled t = true ∧ table t = tbl ∧ schema t = sch ∧ event t = e) ∧
    (∀ t e sch, t ∈ find_ddl_triggers e sch r ↔
       m !! ddl_name t = Some (inr t) ∧ ddl_matches e sch t = true) ∧
    NoDup (map name (dml_triggers r)) ∧ NoDup (map ddl_name (ddl_triggers r)).
Proof.
  intros m. destruct (registry_run_inv ops new ∅) as (r & Hr & [H1 H2 H3 H4 H5]).
  { split; simpl; try done; intros t; try rewrite lookup_empty; split; try done;
      try (by intros ?%not_elem_of_nil). }
  exists r. split; [done|].
  assert (Hnd : ∀ A (f : A -> string) l ix, indexed f l ix → NoDup (map f l)).
  { intros A f l ix H. apply NoDup_alt. intros i j n Hi Hj. rewrite list_lookup_fmap in Hi, Hj.
    apply H in Hi, Hj. congruence. }
  split_and!.
  - intros t tbl sch e. unfold find_triggers. rewrite list_elem_of_filter, H3. naive_solver.
  - intros t e sch. unfold find_ddl_triggers. rewrite list_elem_of_filter, H4. naive_solver.
  - by eapply Hnd.
  - by eapply Hnd.
Qed.
