(* ===== verification/Flush.v ===== *)
(** * The flush of a committed transaction
      ([services/voltnuerongridd/src/handlers/sql.rs], [helpers/boot.rs])

    What COMMIT does once validation has accepted the transaction: every
    statement is applied to the row store, the durability engine and the
    constraint manager, with before-images in the connection's undo log; then the
    mutations are logged, the write intents released, the batch handed to Raft and
    to the HTAP feed.  ROLLBACK applies the undo log.  At boot the statement log is
    replayed into an empty row store.

    Poisoned locks are not modelled: a lock that is taken is free.  A panic of the
    row store is [None]. *)

From S2P Require Import Prelude Str Mvcc Wal Raft RaftLoop Constraints SqlKind AcidTx HtapSync.
From S2P Require Import Tokenizer Ast SqlParse Utf8.
Local Open Scope string_scope.
Local Open Scope list_scope.
Local Open Scope N_scope.
Local Open Scope vng_scope.

Abbreviation RowData := (gmap string string).

(** ** The statements' rows and keys, on the strings the handlers hold *)

Class SqlExtractors := {
  insert_rows : string -> list (string * RowData * string);
  insert_row : string -> option (string * RowData);
  update_row : string -> option (string * RowData);
  delete_key : string -> option string;
  bulk_update_target : string -> option (string * string * string * string * string);
}.

(** The extractors of [helpers/sql_parse.rs]. *)
#[export] Instance sql_extractors `{!Tokenizer.UnicodeTables} `{!Ast.SqlParserAdapter} : SqlExtractors := {
  insert_rows sql :=
    map (fun r => (Utf8.to_utf8 r.1.1, Utf8.data_utf8 r.1.2, Utf8.to_utf8 r.2))
      (SqlParse.extract_all_insert_rows (Utf8.of_utf8 sql));
  insert_row sql :=
    (fun r => (Utf8.to_utf8 r.1, Utf8.data_utf8 r.2))
      <$> SqlParse.extract_insert_row_from_sql (Utf8.of_utf8 sql);
  update_row sql :=
    (fun r => (Utf8.to_utf8 r.1, Utf8.data_utf8 r.2))
      <$> SqlParse.extract_update_row_from_sql (Utf8.of_utf8 sql);
  delete_key sql := Utf8.to_utf8 <$> SqlParse.extract_delete_key_from_sql (Utf8.of_utf8 sql);
  bulk_update_target sql :=
    (fun '(t, sc, sv, wc, wv) =>
       (Utf8.to_utf8 t, Utf8.to_utf8 sc, Utf8.to_utf8 sv, Utf8.to_utf8 wc, Utf8.to_utf8 wv))
      <$> SqlParse.extract_bulk_update_target (Utf8.of_utf8 sql);
}.

(** The row part of the [DurabilityEngine] trait. *)
Class RowEngine (E : Type) := {
  store_row : string -> string -> N -> option RowData -> E -> E;
  scan_rows_for_db : string -> N -> E -> list (string * RowData);
  get_row : string -> string -> E -> option RowData;
  persists_rows : E -> bool;
  append_mutation : string -> string -> E -> E;
  maybe_checkpoint : E -> E;
  (** database, row key, transaction, columns, tombstone *)
  scan_persisted_rows : E -> list (string * string * N * RowData * bool);
  max_row_xid : E -> N;
  drop_db_column_family : string -> E -> E;
}.

(** The in-memory engine takes the trait's defaults; [now] is the clock. *)
Definition in_memory_rows (now : N) : RowEngine Wal.InMemoryDurabilityEngine := {|
  store_row _ _ _ _ e := e;
  scan_rows_for_db _ _ _ := [];
  get_row _ _ _ := None;
  persists_rows _ := false;
  append_mutation k v e := (Wal.append_mutation now k v e).2;
  maybe_checkpoint e := (Wal.maybe_checkpoint e).2;
  scan_persisted_rows _ := [];
  max_row_xid _ := 0;
  drop_db_column_family _ e := e;
|}.

(** What the flush relies on: rows and mutations do not touch the statement
    log, and [persists_rows] is a constant of the engine. *)
Class RowEngineLaws (E : Type) `{!Wal.DurabilityEngine E} `{!RowEngine E} : Prop := {
  store_row_sql : ∀ db k x d e j, Wal.iter_sql j (store_row db k x d e) = Wal.iter_sql j e;
  append_mutation_sql : ∀ k v e j, Wal.iter_sql j (append_mutation k v e) = Wal.iter_sql j e;
  maybe_checkpoint_sql : ∀ e j, Wal.iter_sql j (maybe_checkpoint e) = Wal.iter_sql j e;
  store_row_persists : ∀ db k x d e, persists_rows (store_row db k x d e) = persists_rows e;
  append_sql_persists : ∀ j sql e,
    persists_rows (Wal.append_sql j sql e).2 = persists_rows e;
  append_mutation_persists : ∀ k v e, persists_rows (append_mutation k v e) = persists_rows e;
  maybe_checkpoint_persists : ∀ e, persists_rows (maybe_checkpoint e) = persists_rows e;
}.

Module Flush.

(** What the statements of a transaction change: the row store, the engine, the
    constraint manager, and the undo log of the connection. *)
Record FlushState (E : Type) := mkFlush {
  rows : RowStore.PagedRowStore;
  wal : E;
  constraints : Constraints.ConstraintManager;
  undo_log : list (string * option RowData);
}.
Arguments mkFlush {E} _ _ _ _.
Arguments rows {E} _.
Arguments wal {E} _.
Arguments constraints {E} _.
Arguments undo_log {E} _.

Section Flush.
Context {E F : Type} `{!Wal.DurabilityEngine E} `{!RowEngine E} `{!SqlExtractors}.
Context `{!Constraints.Float64 F} `{!MapOrder Constraints.ConstraintDescriptor} `{!MapOrder string}.

Definition set_rows (rs : RowStore.PagedRowStore) (st : FlushState E) : FlushState E :=
  mkFlush rs (wal st) (constraints st) (undo_log st).

Definition set_wal (w : E) (st : FlushState E) : FlushState E := mkFlush (rows st) w (constraints st) (undo_log st).

Definition read_latest_with_rocksdb_fallback (db key raw_k : string) (st : FlushState E) : option RowData :=
  match RowStore.read_latest key (rows st) with
  | Some row => Some row
  | None => if persists_rows (wal st) then get_row db raw_k (wal st) else None
  end.

Definition record_undo (key : string) (before : option RowData) (st : FlushState E) : FlushState E :=
  mkFlush (rows st) (wal st) (constraints st) (undo_log st ++ [(key, before)]).

Definition persist_sql_statement (kind : Wal.SqlWalKind) (sql : string) (e : E) : E :=
  (Wal.append_sql kind sql e).2.

(** [d.iter().filter(|(c, _)| !c.starts_with("__"))] *)
Definition user_columns (d : RowData) : list (string * string) :=
  List.filter (fun cv => negb (Str.starts_with "__" cv.1)) (iter_map d).

Fixpoint validate_columns (m : Constraints.ConstraintManager) (table : string)
    (cols : list (string * string)) : option Constraints.ConstraintViolation :=
  match cols with
  | [] => None
  | (c, v) :: cols' =>
      match Constraints.validate (F := F) table c (Some v) m with
      | Err e => Some e
      | Ok _ => validate_columns m table cols'
      end
  end.

Definition record_columns (table : string) (cols : list (string * string))
    (m : Constraints.ConstraintManager) : Constraints.ConstraintManager :=
  fold_left (fun m cv => Constraints.record_committed_value table cv.1 cv.2 m) cols m.

(** A version of a row: before-image, intent, engine, store. *)
Definition write_row (db : string) (x : N) (key raw_k : string) (before : option RowData)
    (d : RowData) (st : FlushState E) : option (FlushState E) :=
  let st := record_undo key before st in
  let rs := (RowStore.begin_write_intent x key (rows st)).2 in
  let w := store_row db raw_k x (Some d) (wal st) in
  let! rs := RowStore.insert x key d rs in
  Some (set_wal w (set_rows rs st)).

(** One row of an INSERT; a violation releases the intents and ends the flush. *)
Definition flush_insert_row (db : string) (x : N) (r : string * RowData * string) (st : FlushState E)
    : option (result unit Constraints.ConstraintViolation * FlushState E) :=
  let '(raw_k, d, single_sql) := r in
  let table := default "" (d !! "__table") in
  let violation :=
    if String.eqb table "" then None
    else validate_columns (constraints st) table (user_columns d) in
  match violation with
  | Some v => Some (Err v, set_rows (RowStore.release_write_intents x (rows st)) st)
  | None =>
      let k := AcidTx.db_prefix_key db raw_k in
      let before := read_latest_with_rocksdb_fallback db k raw_k st in
      let! st := write_row db x k raw_k before d st in
      let m := if String.eqb table "" then constraints st
               else record_columns table (user_columns d) (constraints st) in
      Some (Ok tt, mkFlush (rows st) (persist_sql_statement Wal.Dml single_sql (wal st)) m (undo_log st))
  end.

Fixpoint flush_insert_rows (db : string) (x : N) (rs : list (string * RowData * string)) (st : FlushState E)
    : option (result unit Constraints.ConstraintViolation * FlushState E) :=
  match rs with
  | [] => Some (Ok tt, st)
  | r :: rs' =>
      let! (res, st') := flush_insert_row db x r st in
      match res with
      | Err v => Some (Err v, st')
      | Ok _ => flush_insert_rows db x rs' st'
      end
  end.

Definition flush_delete (db : string) (x : N) (raw_k stmt : string) (st : FlushState E) : FlushState E :=
  let k := AcidTx.db_prefix_key db raw_k in
  let st := record_undo k (read_latest_with_rocksdb_fallback db k raw_k st) st in
  let rs := (RowStore.begin_write_intent x k (rows st)).2 in
  let rs := (RowStore.delete x k rs).2 in
  let w := store_row db raw_k x None (wal st) in
  set_wal (persist_sql_statement Wal.Dml stmt w) (set_rows rs st).

(** [k.strip_prefix(p).unwrap_or(k)] *)
Definition strip_db (p k : string) : string := default k (Str.strip_prefix p k).

(** The rows a set-at-a-time UPDATE looks at. *)
Definition bulk_scan (db db_prefix : string) (st : FlushState E) : list (string * RowData) :=
  let snapshot := RowStore.current_xid (rows st) in
  if persists_rows (wal st) then
    map (fun kv => (db_prefix +:+ kv.1, kv.2)) (scan_rows_for_db db snapshot (wal st))
  else RowStore.scan_at_snapshot snapshot (rows st).

Definition bulk_matches (db_prefix table where_col where_val : string) (kv : string * RowData) : bool :=
  Str.starts_with (table +:+ ":") (strip_db db_prefix kv.1) &&
  bool_decide (kv.2 !! where_col = Some where_val).

Fixpoint flush_bulk_rows (db db_prefix : string) (x : N) (set_col set_val : string)
    (matching : list (string * RowData)) (st : FlushState E) : option (FlushState E) :=
  match matching with
  | [] => Some st
  | (k, row) :: rest =>
      let! st := write_row db x k (strip_db db_prefix k) (RowStore.read_latest k (rows st))
                   (<[set_col := set_val]> row) st in
      flush_bulk_rows db db_prefix x set_col set_val rest st
  end.

(** [is_scan_update]: the statement filters on a column other than [id]. *)
Definition scan_update (stmt : string) : option (string * string * string * string * string) :=
  match bulk_update_target stmt with
  | Some (t, sc, sv, wc, wv) =>
      if negb (SqlKind.eq_ignore_ascii_case wc "id") && negb (String.eqb wc "")
      then Some (t, sc, sv, wc, wv) else None
  | None => None
  end.

Definition db_prefix_str (db : string) : string := if String.eqb db "" then "" else db +:+ ".".

(** An UPDATE of one row merges the SET columns into the row; one whose WHERE
    column is not [id] updates every matching row of the table. *)
Definition flush_update (db : string) (x : N) (raw_k : string) (d : RowData) (stmt : string) (st : FlushState E)
    : option (FlushState E) :=
  match scan_update stmt with
  | Some (tbl, set_col, set_val, where_col, where_val) =>
      let db_prefix := db_prefix_str db in
      let matching :=
        List.filter (bulk_matches db_prefix tbl where_col where_val) (bulk_scan db db_prefix st) in
      let! st := flush_bulk_rows db db_prefix x set_col set_val matching st in
      Some (set_wal (persist_sql_statement Wal.Dml stmt (wal st)) st)
  | None =>
      let k := AcidTx.db_prefix_key db raw_k in
      let before := read_latest_with_rocksdb_fallback db k raw_k st in
      let merged := d ∪ default ∅ before in
      let! st := write_row db x k raw_k before merged st in
      Some (set_wal (persist_sql_statement Wal.Dml stmt (wal st)) st)
  end.

Definition upper_start (sql : string) : string := Str.to_ascii_uppercase (Str.trim_start sql).

Definition flush_statement (db : string) (x : N) (stmt : string) (st : FlushState E)
    : option (result unit Constraints.ConstraintViolation * FlushState E) :=
  let upper := upper_start stmt in
  if Str.starts_with "INSERT" upper then flush_insert_rows db x (insert_rows stmt) st
  else if Str.starts_with "DELETE" upper then
    Some (Ok tt, match delete_key stmt with Some raw_k => flush_delete db x raw_k stmt st | None => st end)
  else if Str.starts_with "UPDATE" upper then
    match update_row stmt with
    | Some (raw_k, d) => let! st := flush_update db x raw_k d stmt st in Some (Ok tt, st)
    | None => Some (Ok tt, st)
    end
  else Some (Ok tt, st).

Fixpoint flush_statements (db : string) (x : N) (stmts : list string) (st : FlushState E)
    : option (result unit Constraints.ConstraintViolation * FlushState E) :=
  match stmts with
  | [] => Some (Ok tt, st)
  | s :: stmts' =>
      let! (res, st') := flush_statement db x s st in
      match res with
      | Err v => Some (Err v, st')
      | Ok _ => flush_statements db x stmts' st'
      end
  end.

(** The second pass: a mutation record per statement.  [to_json] is
    [serde_json::to_string]. *)
Definition log_mutation (to_json : RowData -> string) (db stmt : string) (w : E) : E :=
  let upper := upper_start stmt in
  if Str.starts_with "INSERT" upper then
    match insert_row stmt with
    | Some (k, d) => append_mutation (AcidTx.db_prefix_key db k) (to_json d) w
    | None => w
    end
  else if Str.starts_with "DELETE" upper then
    match delete_key stmt with
    | Some k => append_mutation (AcidTx.db_prefix_key db k) "__deleted__" w
    | None => w
    end
  else if Str.starts_with "UPDATE" upper then
    match update_row stmt with
    | Some (k, d) => append_mutation (AcidTx.db_prefix_key db k) (to_json d) w
    | None => w
    end
  else w.

(** The flush of a COMMIT: the result, and the state it leaves. *)
Definition flush (to_json : RowData -> string) (db : string) (stmts : list string) (st : FlushState E)
    : option (result unit Constraints.ConstraintViolation * FlushState E) :=
  let '(x, rs) := RowStore.begin_xid (rows st) in
  let! (res, st) := flush_statements db x stmts (set_rows rs st) in
  match res with
  | Err v => Some (Err v, st)
  | Ok _ =>
      let w := maybe_checkpoint (fold_left (fun w s => log_mutation to_json db s w) stmts (wal st)) in
      Some (Ok tt, set_wal w (set_rows (RowStore.release_write_intents x (rows st)) st))
  end.

(** ** After the flush *)

(** The batch handed to Raft by a leader. *)
Definition replicate (db : string) (stmts : list string) (total_peers : nat) (n : Raft.RaftNode)
    : Raft.RaftNode :=
  match RaftLoop.encode_raft_batch_command db stmts with
  | Some cmd =>
      match Raft.role n with
      | Raft.Leader => (Raft.append_command cmd total_peers n).2
      | _ => n
      end
  | None => n
  end.

(** The HTAP feed. *)
Definition publish (now_ms : N) (db stmt : string) (o : HtapSync.RowStoreSyncOrigin)
    : HtapSync.RowStoreSyncOrigin :=
  let upper := upper_start stmt in
  let push (k : string) (op : HtapSync.MutationOp) :=
    (HtapSync.append now_ms "row_store" (AcidTx.db_prefix_key db k) stmt op o).2 in
  if Str.starts_with "INSERT" upper then
    match insert_row stmt with Some (k, _) => push k HtapSync.Insert | None => o end
  else if Str.starts_with "DELETE" upper then
    match delete_key stmt with Some k => push k HtapSync.Delete | None => o end
  else if Str.starts_with "UPDATE" upper then
    match update_row stmt with Some (k, _) => push k HtapSync.Update | None => o end
  else o.

(** ROLLBACK: the before-images, newest first, under an id of their own; the
    log of the connection is removed (so is it, unread, by COMMIT). *)
Fixpoint apply_undo (x : N) (entries : list (string * option RowData)) (rs : RowStore.PagedRowStore)
    : option RowStore.PagedRowStore :=
  match entries with
  | [] => Some rs
  | (k, Some d) :: rest => let! rs := RowStore.insert x k d rs in apply_undo x rest rs
  | (k, None) :: rest => apply_undo x rest (RowStore.delete x k rs).2
  end.

Definition rollback_undo (st : FlushState E) : option (FlushState E) :=
  match undo_log st with
  | [] => Some st
  | entries =>
      let '(x, rs) := RowStore.begin_xid (rows st) in
      let! rs := apply_undo x (rev entries) rs in
      Some (mkFlush (RowStore.release_write_intents x rs) (wal st) (constraints st) [])
  end.

(** ** Boot *)

Fixpoint insert_replayed (x : N) (l : list (string * RowData * string)) (rs : RowStore.PagedRowStore)
    : option RowStore.PagedRowStore :=
  match l with
  | [] => Some rs
  | (k, d, _) :: l' => let! rs := RowStore.insert x k d rs in insert_replayed x l' rs
  end.

Definition apply_dml_to_rowstore (x : N) (sql : string) (rs : RowStore.PagedRowStore)
    : option RowStore.PagedRowStore :=
  let upper := upper_start sql in
  if Str.starts_with "INSERT" upper then insert_replayed x (insert_rows sql) rs
  else if Str.starts_with "DELETE" upper then
    Some (match delete_key sql with Some k => (RowStore.delete x k rs).2 | None => rs end)
  else if Str.starts_with "UPDATE" upper then
    match update_row sql with
    | Some (k, d) => RowStore.insert x k d rs
    | None => Some rs
    end
  else Some rs.

Fixpoint replay_statements (x : N) (l : list string) (rs : RowStore.PagedRowStore)
    : option RowStore.PagedRowStore :=
  match l with
  | [] => Some rs
  | s :: l' => let! rs := apply_dml_to_rowstore x s rs in replay_statements x l' rs
  end.

Definition replay_dml_into (e : E) (rs : RowStore.PagedRowStore) : option RowStore.PagedRowStore :=
  let stmts :=
    if Wal.persists_sql e && Nat.ltb 0 (Wal.sql_count Wal.Dml e) then Wal.iter_sql Wal.Dml e else [] in
  match stmts with
  | [] => Some rs
  | _ => let '(x, rs) := RowStore.begin_xid rs in replay_statements x stmts rs
  end.

(** The rows an engine keeps, under one transaction id of the boot. *)
Fixpoint load_rows (x : N) (l : list (string * string * N * RowData * bool)) (rs : RowStore.PagedRowStore)
    : option RowStore.PagedRowStore :=
  match l with
  | [] => Some rs
  | (db, row_key, _, data, is_tombstone) :: l' =>
      let prefixed := if String.eqb db "" then row_key else db +:+ "." +:+ row_key in
      if is_tombstone : bool then load_rows x l' (RowStore.delete x prefixed rs).2
      else let! rs := RowStore.insert x prefixed data rs in load_rows x l' rs
  end.

Definition load_persisted_rows_into (e : E) (rs : RowStore.PagedRowStore)
    : option (nat * RowStore.PagedRowStore) :=
  if persists_rows e then
    match scan_persisted_rows e with
    | [] => Some (O, rs)
    | l => let '(x, rs) := RowStore.begin_xid rs in
           let! rs := load_rows x l rs in Some (length l, rs)
    end
  else Some (O, rs).

(** The row store of a server that starts on the engine [e]; [row_cap] is
    [VNG_ROW_STORE_MAX_ROWS]. *)
Definition boot_row_store (row_cap : nat) (e : E) : option RowStore.PagedRowStore :=
  let! rs := RowStore.new 256 in
  let rs := if (0 <? row_cap)%nat then RowStore.set_max_rows_cap row_cap rs else rs in
  let! rs :=
    if persists_rows e
    then Some (RowStore.fast_forward_xid (u64_add (max_row_xid e) 1) rs)
    else replay_dml_into e rs in
  let! (_, rs) := load_persisted_rows_into e rs in
  Some rs.

(** DROP DATABASE: the rows of the database, in memory and in the engine. *)
Definition purge_database_rows (db : string) (rs : RowStore.PagedRowStore) (e : E)
    : RowStore.PagedRowStore * E :=
  let prefix := db +:+ "." in
  let '(x, rs) := RowStore.begin_xid rs in
  let keys := map fst (List.filter (fun kv => Str.starts_with prefix kv.1)
                         (RowStore.export_rows_snapshot rs)) in
  (fold_left (fun rs k => (RowStore.delete x k rs).2) keys rs, drop_db_column_family db e).

End Flush.
End Flush.
