(* ===== verification/FlushProps.v ===== *)
(** * What a COMMIT does to the database, and how it is undone, replicated and
      replayed

    The flush against a specification on maps from keys to rows; the undo log as
    the inverse of the flush; followers and restarts against the leader. *)

From S2P Require Import Prelude Str Tokenizer Ast SqlParse SqlParseProps Utf8.
From S2P Require Import WalProps ConstraintProps Mvcc MvccSpec Wal Raft RaftLoop.
From S2P Require Import RaftApply Constraints SqlKind AcidTx Flush.
Local Open Scope string_scope.
Local Open Scope list_scope.
Local Open Scope N_scope.
Local Open Scope vng_scope.
Import Flush.

Abbreviation table := (gmap string RowData).

(** ** Writes *)

Lemma apply_writes_app ws1 ws2 (m : table) :
  apply_writes (ws1 ++ ws2) m = apply_writes ws2 (apply_writes ws1 m).
Proof. apply fold_left_app. Qed.

(** The before-image undoes a write. *)
Lemma undo_write (m : table) k v : apply_write (apply_write m (k, v)) (k, m !! k) = m.
Proof.
  unfold apply_write. cbn [fst snd]. destruct (m !! k) as [d|] eqn:Hm, v as [d'|].
  - by rewrite insert_insert_eq, insert_id.
  - by rewrite insert_delete_eq, insert_id.
  - by rewrite delete_insert_id.
  - rewrite delete_delete_eq. by apply delete_id.
Qed.

Definition upserts (l : list (string * RowData)) : list (string * option RowData) :=
  map (fun kd => (kd.1, Some kd.2)) l.

Lemma upserts_lookup_ne k l (m : table) : k ∉ l.*1 → apply_writes (upserts l) m !! k = m !! k.
Proof.
  revert m. induction l as [|[k' d] l IH]; intros m Hk; [done|].
  apply not_elem_of_cons in Hk as [Hne Hk]. cbn. unfold apply_writes in IH. rewrite IH by done.
  unfold apply_write. cbn. by rewrite lookup_insert_ne.
Qed.

Lemma upserts_lookup k d l (m : table) :
  NoDup l.*1 → (k, d) ∈ l → apply_writes (upserts l) m !! k = Some d.
Proof.
  revert m. induction l as [|[k' d'] l IH]; intros m Hnd Hin; [by apply not_elem_of_nil in Hin|].
  apply NoDup_cons in Hnd as [Hni Hnd]. apply elem_of_cons in Hin as [[= <- <-]|Hin].
  - change (apply_writes (upserts l) (<[k := d]> m) !! k = Some d).
    rewrite upserts_lookup_ne by done. apply lookup_insert_eq.
  - by apply (IH (<[k' := d']> m)).
Qed.

(** A scan of the latest snapshot lists the view. *)
Lemma scan_view (s : RowStore.PagedRowStore) :
  wf s →
  let l := RowStore.scan_at_snapshot (RowStore.current_xid s) s in
  NoDup l.*1 ∧ ∀ k d, (k, d) ∈ l ↔ view s !! k = Some d.
Proof.
  intros Hwf l. destruct (scan_pages_iff (fun r => RowStore.visible_at r (RowStore.current_xid s)) s Hwf)
    as [Hnd Hiff]. split; [exact Hnd|]. intros k d. unfold l, RowStore.scan_at_snapshot.
  rewrite Hiff, view_lookup. unfold RowStore.read_latest, RowStore.read_at_snapshot, RowStore.current_xid.
  destruct (RowStore.first_row k _) as [r|].
  - split; [by intros (? & [= <-] & ?)|by exists r].
  - split; [by intros (? & ? & _)|done].
Qed.

Lemma release_in_batch x y s :
  in_batch x s → in_batch x (RowStore.release_write_intents y s) ∧
  view (RowStore.release_write_intents y s) = view s.
Proof. intros (Hwf & ? & ? & ?). split; [|done]. split_and!; try done. by destruct Hwf; constructor. Qed.

(** ** The specification of a statement *)

Section Spec.
Context `{!SqlExtractors}.

Definition row_writes (db : string) (rs : list (string * RowData * string))
    : list (string * option RowData) :=
  map (fun r => (AcidTx.db_prefix_key db r.1.1, Some r.1.2)) rs.

(** INSERT upserts its rows, DELETE removes its row, UPDATE merges its columns
    into its row or sets one column in every row of the table that satisfies the
    condition; any other statement changes nothing. *)
Definition statement_effect (db stmt : string) (m : table) : table :=
  let upper := upper_start stmt in
  if Str.starts_with "INSERT" upper then apply_writes (row_writes db (insert_rows stmt)) m
  else if Str.starts_with "DELETE" upper then
    match delete_key stmt with Some k => base.delete (AcidTx.db_prefix_key db k) m | None => m end
  else if Str.starts_with "UPDATE" upper then
    match update_row stmt, scan_update stmt with
    | None, _ => m
    | Some _, Some (t, sc, sv, wc, wv) =>
        map_imap (fun k row => Some (if bulk_matches (db_prefix_str db) t wc wv (k, row)
                                     then <[sc := sv]> row else row)) m
    | Some (k, d), None =>
        let k := AcidTx.db_prefix_key db k in <[k := d ∪ default ∅ (m !! k)]> m
    end
  else m.

Definition statements_effect (db : string) (stmts : list string) (m : table) : table :=
  fold_left (fun m s => statement_effect db s m) stmts m.
End Spec.

(** ** The flush *)

Section Steps.
Context {E F : Type} `{!Wal.DurabilityEngine E} `{!RowEngine E} `{!RowEngineLaws E} `{!SqlExtractors}.
Context `{!Constraints.Float64 F} `{!MapOrder Constraints.ConstraintDescriptor} `{!MapOrder string}.

(** Part of a flush that runs as [x]: the store stays in the batch, and the undo
    entries it adds, applied newest first, give back what was there before. *)
Record flushed (x : N) (st st' : FlushState E) : Prop := {
  flushed_batch : in_batch x (rows st');
  flushed_engine : persists_rows (wal st') = persists_rows (wal st);
  flushed_undo : ∃ es, undo_log st' = undo_log st ++ es ∧
    apply_writes (rev es) (view (rows st')) = view (rows st);
}.

Lemma flushed_refl x st : in_batch x (rows st) → flushed x st st.
Proof. intros. split; [done|done|]. exists []. by rewrite app_nil_r. Qed.

Lemma flushed_trans x st1 st2 st3 : flushed x st1 st2 → flushed x st2 st3 → flushed x st1 st3.
Proof.
  intros [_ He1 (es1 & Hu1 & Hv1)] [Hb He2 (es2 & Hu2 & Hv2)]. split; [done|congruence|].
  exists (es1 ++ es2). rewrite Hu2, Hu1, app_assoc. split; [done|].
  by rewrite rev_app_distr, apply_writes_app, Hv2.
Qed.

(** Changes outside the rows and the undo log. *)
Lemma flushed_frame x st st' rs w m :
  flushed x st st' → in_batch x rs → view rs = view (rows st') → persists_rows w = persists_rows (wal st') →
  flushed x st (mkFlush rs w m (undo_log st')).
Proof.
  intros [_ He (es & Hu & Hv)] Hrs Hview Hw. split; [done|cbn; congruence|].
  exists es. cbn. by rewrite Hview.
Qed.

Lemma fallback_view db k raw st :
  persists_rows (wal st) = false →
  read_latest_with_rocksdb_fallback db k raw st = view (rows st) !! k.
Proof.
  intros Hp. unfold read_latest_with_rocksdb_fallback. rewrite view_lookup, Hp.
  by destruct (RowStore.read_latest k (rows st)).
Qed.

Lemma write_row_flushed db x k raw d st :
  in_batch x (rows st) →
  ∃ st', write_row db x k raw (view (rows st) !! k) d st = Some st' ∧ flushed x st st' ∧
    view (rows st') = <[k := d]> (view (rows st)) ∧ constraints st' = constraints st ∧
    wal st' = store_row db raw x (Some d) (wal st).
Proof.
  intros Hb. unfold write_row. cbn [rows wal record_undo].
  destruct (intent_frame x k (rows st)) as [Hb1 Hv1].
  destruct (insert_in_batch x k d _ (Hb1 _ Hb)) as (rs & -> & Hb2 & Hv2). rewrite Hv1 in Hv2.
  eexists. split; [reflexivity|]. cbn. split_and!; [|done..].
  split; [done|apply store_row_persists|]. exists [(k, view (rows st) !! k)]. split; [done|].
  cbn. rewrite Hv2. apply (undo_write _ k (Some d)).
Qed.

Lemma delete_flushed db x raw stmt st :
  in_batch x (rows st) → persists_rows (wal st) = false →
  flushed x st (flush_delete db x raw stmt st) ∧
  view (rows (flush_delete db x raw stmt st))
  = base.delete (AcidTx.db_prefix_key db raw) (view (rows st)).
Proof.
  intros Hb Hp. unfold flush_delete. rewrite fallback_view by done. cbn [rows wal record_undo set_wal set_rows].
  set (k := AcidTx.db_prefix_key db raw).
  destruct (intent_frame x k (rows st)) as [Hb1 Hv1].
  destruct (delete_in_batch x k _ (Hb1 _ Hb)) as [Hb2 Hv2]. rewrite Hv1 in Hv2. split; [|done].
  split; [done| |].
  - cbn. unfold persist_sql_statement. by rewrite append_sql_persists, store_row_persists.
  - exists [(k, view (rows st) !! k)]. split; [done|]. cbn. rewrite Hv2. apply (undo_write _ k None).
Qed.

Lemma insert_row_flushed db x r st :
  in_batch x (rows st) → persists_rows (wal st) = false →
  ∃ res st', flush_insert_row (F := F) db x r st = Some (res, st') ∧ flushed x st st' ∧
    match res with
    | Ok _ => view (rows st') = apply_writes (row_writes db [r]) (view (rows st))
    | Err _ => view (rows st') = view (rows st)
    end.
Proof.
  intros Hb Hp. destruct r as [[raw d] q]. unfold flush_insert_row. cbv zeta.
  destruct (if String.eqb _ "" then None else _) as [v|].
  - eexists _, _. split; [reflexivity|]. destruct (release_in_batch x x _ Hb) as [Hb' Hv'].
    split; [|done]. by apply (flushed_frame x st st); [apply flushed_refl|..].
  - rewrite fallback_view by done.
    destruct (write_row_flushed db x (AcidTx.db_prefix_key db raw) raw d st Hb)
      as (st' & -> & Hf & Hv & Hm & Hw).
    eexists _, _. split; [reflexivity|]. split; [|done].
    apply flushed_frame; [done|apply Hf|done|apply append_sql_persists].
Qed.

Lemma insert_rows_flushed db x rs st :
  in_batch x (rows st) → persists_rows (wal st) = false →
  ∃ res st', flush_insert_rows (F := F) db x rs st = Some (res, st') ∧ flushed x st st' ∧
    match res with
    | Ok _ => view (rows st') = apply_writes (row_writes db rs) (view (rows st))
    | Err _ => ∃ pre r post, rs = pre ++ r :: post ∧
        view (rows st') = apply_writes (row_writes db pre) (view (rows st))
    end.
Proof.
  revert st. induction rs as [|r rs IH]; intros st Hb Hp.
  { exists (Ok tt), st. split; [done|]. split; [by apply flushed_refl|done]. }
  cbn [flush_insert_rows]. destruct (insert_row_flushed db x r st Hb Hp) as (res & st1 & -> & Hf1 & Hv1).
  destruct res as [[]|v].
  - destruct (IH st1) as (res & st' & -> & Hf & Hv); [apply Hf1|by rewrite (flushed_engine _ _ _ Hf1)|].
    exists res, st'. split; [done|]. split; [by eapply flushed_trans|].
    destruct res as [[]|v].
    + by rewrite Hv, Hv1, <- apply_writes_app.
    + destruct Hv as (pre & r' & post & -> & Hv). exists (r :: pre), r', post. split; [done|].
      by rewrite Hv, Hv1, <- apply_writes_app.
  - exists (Err v), st1. split; [done|]. split; [done|]. by exists [], r, rs.
Qed.

Lemma bulk_rows_flushed db p x sc sv l st :
  in_batch x (rows st) →
  ∃ st', flush_bulk_rows db p x sc sv l st = Some st' ∧ flushed x st st' ∧
    view (rows st') = apply_writes (upserts (map (fun kv => (kv.1, <[sc := sv]> kv.2)) l)) (view (rows st)).
Proof.
  revert st. induction l as [|[k row] l IH]; intros st Hb.
  { exists st. split; [done|]. split; [by apply flushed_refl|done]. }
  cbn [flush_bulk_rows]. rewrite <- view_lookup.
  destruct (write_row_flushed db x k (strip_db p k) (<[sc := sv]> row) st Hb) as (st1 & -> & Hf1 & Hv1 & _).
  destruct (IH st1) as (st' & -> & Hf & Hv); [apply Hf1|].
  exists st'. split; [done|]. split; [by eapply flushed_trans|]. by rewrite Hv, Hv1.
Qed.

(** Setting a column in the matching rows of a scan is a map over the view. *)
Lemma bulk_view (f : string * RowData -> bool) sc sv s :
  wf s →
  apply_writes (upserts (map (fun kv => (kv.1, <[sc := sv]> kv.2))
    (List.filter f (RowStore.scan_at_snapshot (RowStore.current_xid s) s)))) (view s)
  = map_imap (fun k row => Some (if f (k, row) then <[sc := sv]> row else row)) (view s).
Proof.
  intros Hwf. destruct (scan_view s Hwf) as [Hnd Hiff]. revert Hnd Hiff.
  generalize (RowStore.scan_at_snapshot (RowStore.current_xid s) s). intros l Hnd Hiff.
  set (up := map _ _).
  assert (NoDup up.*1) as Hndu.
  { unfold up. change (NoDup (map fst (map (fun kv => (kv.1, <[sc:=sv]> kv.2)) (List.filter f l)))).
    rewrite map_map. cbn [fst]. eapply sublist_NoDup; [exact Hnd|]. clear.
    induction l as [|kv l IH]; [done|]. cbn. destruct (f kv); by constructor. }
  assert (∀ k row, view s !! k = Some row → f (k, row) = true → (k, <[sc:=sv]> row) ∈ up) as Hup.
  { intros k row Hk Hf. apply list_elem_of_In, in_map_iff. exists (k, row). split; [done|].
    apply filter_In. split; [|done]. by apply list_elem_of_In, Hiff. }
  assert (∀ k d, (k, d) ∈ up → ∃ row, view s !! k = Some row ∧ f (k, row) = true) as Hinv.
  { intros k d Hin. apply list_elem_of_In, in_map_iff in Hin as ([k' row] & [= <- <-] & Hin).
    apply filter_In in Hin as [Hin Hf]. exists row. split; [|done]. by apply Hiff, list_elem_of_In. }
  apply map_eq. intros k. rewrite map_lookup_imap.
  destruct (view s !! k) as [row|] eqn:Hk; [destruct (f (k, row)) eqn:Hf|]; cbn.
  - rewrite Hf. apply upserts_lookup; [done|by apply Hup].
  - rewrite Hf, upserts_lookup_ne; [done|]. intros ([k' d] & -> & Hin)%list_elem_of_fmap.
    destruct (Hinv _ _ Hin) as (row' & Hk' & Hf'). cbn in Hk, Hf. congruence.
  - rewrite upserts_lookup_ne; [done|]. intros ([k' d] & -> & Hin)%list_elem_of_fmap.
    destruct (Hinv _ _ Hin) as (row' & Hk' & Hf'). cbn in Hk. congruence.
Qed.

Lemma update_flushed db x raw d stmt st :
  in_batch x (rows st) → persists_rows (wal st) = false → update_row stmt = Some (raw, d) →
  Str.starts_with "INSERT" (upper_start stmt) = false →
  Str.starts_with "DELETE" (upper_start stmt) = false →
  Str.starts_with "UPDATE" (upper_start stmt) = true →
  ∃ st', flush_update db x raw d stmt st = Some st' ∧ flushed x st st' ∧
    view (rows st') = statement_effect db stmt (view (rows st)).
Proof.
  intros Hb Hp Hu Hi Hd Hup. unfold flush_update, statement_effect. rewrite Hi, Hd, Hup, Hu.
  destruct (scan_update stmt) as [[[[[t sc] sv] wc] wv]|].
  - unfold bulk_scan. rewrite Hp.
    edestruct (bulk_rows_flushed db (db_prefix_str db) x sc sv) as (st' & -> & Hf & Hv); [exact Hb|].
    rewrite bulk_view in Hv by apply Hb. eexists. split; [reflexivity|]. split; [|done].
    apply flushed_frame; [done|apply Hf|done|apply append_sql_persists].
  - rewrite fallback_view by done.
    edestruct (write_row_flushed db x) as (st' & -> & Hf & Hv & _ & _); [exact Hb|].
    eexists. split; [reflexivity|]. split; [|done].
    apply flushed_frame; [done|apply Hf|done|apply append_sql_persists].
Qed.

(** A flush that stops at a constraint violation has done the statements before
    the INSERT it stopped in, and the rows of that INSERT before the one that
    violates. *)
Definition stopped_at (db : string) (stmts : list string) (m m' : table) : Prop :=
  ∃ before stmt after pre r post,
    stmts = before ++ stmt :: after ∧ insert_rows stmt = pre ++ r :: post ∧
    m' = apply_writes (row_writes db pre) (statements_effect db before m).

Lemma statement_flushed db x stmt st :
  in_batch x (rows st) → persists_rows (wal st) = false →
  ∃ res st', flush_statement (F := F) db x stmt st = Some (res, st') ∧ flushed x st st' ∧
    match res with
    | Ok _ => view (rows st') = statement_effect db stmt (view (rows st))
    | Err _ => stopped_at db [stmt] (view (rows st)) (view (rows st'))
    end.
Proof.
  intros Hb Hp. unfold flush_statement, statement_effect.
  destruct (Str.starts_with "INSERT" (upper_start stmt)) eqn:Hi.
  { destruct (insert_rows_flushed db x (insert_rows stmt) st Hb Hp) as (res & st' & -> & Hf & Hv).
    exists res, st'. split; [done|]. split; [done|]. destruct res as [[]|v]; [done|].
    destruct Hv as (pre & r & post & Hr & Hv). by exists [], stmt, [], pre, r, post. }
  destruct (Str.starts_with "DELETE" (upper_start stmt)) eqn:Hd.
  { eexists _, _. split; [reflexivity|]. destruct (delete_key stmt) as [raw|].
    - by apply delete_flushed.
    - split; [by apply flushed_refl|done]. }
  destruct (Str.starts_with "UPDATE" (upper_start stmt)) eqn:Hup.
  { destruct (update_row stmt) as [[raw d]|] eqn:Hu.
    - destruct (update_flushed db x raw d stmt st) as (st' & -> & Hf & Hv); [done..|].
      exists (Ok tt), st'. split; [done|]. split; [done|]. rewrite Hv.
      unfold statement_effect. by rewrite Hi, Hd, Hup, Hu.
    - exists (Ok tt), st. split; [done|]. split; [by apply flushed_refl|done]. }
  exists (Ok tt), st. split; [done|]. split; [by apply flushed_refl|done].
Qed.

Lemma statements_flushed db x stmts st :
  in_batch x (rows st) → persists_rows (wal st) = false →
  ∃ res st', flush_statements (F := F) db x stmts st = Some (res, st') ∧ flushed x st st' ∧
    match res with
    | Ok _ => view (rows st') = statements_effect db stmts (view (rows st))
    | Err _ => stopped_at db stmts (view (rows st)) (view (rows st'))
    end.
Proof.
  revert st. induction stmts as [|s stmts IH]; intros st Hb Hp.
  { exists (Ok tt), st. split; [done|]. split; [by apply flushed_refl|done]. }
  cbn [flush_statements]. destruct (statement_flushed db x s st Hb Hp) as (res & st1 & -> & Hf1 & Hv1).
  destruct res as [[]|v].
  - destruct (IH st1) as (res & st' & -> & Hf & Hv); [apply Hf1|by rewrite (flushed_engine _ _ _ Hf1)|].
    exists res, st'. split; [done|]. split; [by eapply flushed_trans|].
    destruct res as [[]|v]; [by rewrite Hv, Hv1|].
    destruct Hv as (before & stmt & after & pre & r & post & -> & Hr & Hv).
    exists (s :: before), stmt, after, pre, r, post. split; [done|]. split; [done|]. by rewrite Hv, Hv1.
  - exists (Err v), st1. split; [done|]. split; [done|].
    destruct Hv1 as (before & stmt & after & pre & r & post & Heq & Hr & Hv1).
    destruct before as [|? []]; [injection Heq as <- <- | discriminate Heq..].
    by exists [], s, stmts, pre, r, post.
Qed.

Lemma log_mutations_engine to_json db stmts w j :
  Wal.iter_sql j (fold_left (fun w s => log_mutation to_json db s w) stmts w) = Wal.iter_sql j w.
Proof.
  revert w. induction stmts as [|s stmts IH]; intros w; [done|]. cbn [fold_left]. rewrite IH.
  unfold log_mutation. repeat case_match; try done; apply append_mutation_sql.
Qed.

Lemma log_mutations_persists to_json db stmts w :
  persists_rows (fold_left (fun w s => log_mutation to_json db s w) stmts w) = persists_rows w.
Proof.
  revert w. induction stmts as [|s stmts IH]; intros w; [done|]. cbn [fold_left]. rewrite IH.
  unfold log_mutation. repeat case_match; try done; apply append_mutation_persists.
Qed.

(** A whole flush. *)
Lemma flush_flushed to_json db stmts st :
  replica_store (rows st) → RowStore.next_xid (rows st) < u64_max → persists_rows (wal st) = false →
  ∃ res st', flush (F := F) to_json db stmts st = Some (res, st') ∧
    replica_store (rows st') ∧ RowStore.next_xid (rows st') = RowStore.next_xid (rows st) + 1 ∧
    persists_rows (wal st') = false ∧
    (∃ es, undo_log st' = undo_log st ++ es ∧
       apply_writes (rev es) (view (rows st')) = view (rows st)) ∧
    match res with
    | Ok _ => view (rows st') = statements_effect db stmts (view (rows st))
    | Err _ => stopped_at db stmts (view (rows st)) (view (rows st'))
    end.
Proof.
  intros Hrs Hx Hp. assert (0 < RowStore.next_xid (rows st)) as Hpos by apply Hrs.
  destruct (begin_batch _ Hrs Hx) as [Hb Hv0]. unfold flush. cbn [RowStore.begin_xid] in *.
  destruct (statements_flushed db (RowStore.next_xid (rows st)) stmts (set_rows (RowStore.begin_xid (rows st)).2 st)
    Hb Hp) as (res & st1 & Hfl & Hf & Hv). cbn [RowStore.begin_xid snd] in Hfl. rewrite Hfl.
  pose proof Hf as [Hb1 Hp1 (es & Hu & Hes)]. cbn [set_rows rows undo_log] in *. rewrite Hv0 in Hes, Hv.
  destruct res as [[]|v].
  - eexists _, _. split; [reflexivity|]. cbn [set_wal set_rows rows undo_log].
    destruct (release_replica _ _ Hpos Hb1) as [Hr Hvr].
    split_and!; [done|exact (in_batch_next _ _ Hb1 Hpos)| |by exists es; rewrite Hvr|by rewrite Hvr].
    cbn [wal set_wal]. rewrite maybe_checkpoint_persists, log_mutations_persists, Hp1. done.
  - eexists _, _. split; [reflexivity|].
    split_and!; [by eapply in_batch_replica|exact (in_batch_next _ _ Hb1 Hpos)|by rewrite Hp1|by exists es|done].
Qed.

Lemma apply_undo_view x es rs :
  in_batch x rs → ∃ rs', apply_undo x es rs = Some rs' ∧ in_batch x rs' ∧
    view rs' = apply_writes es (view rs).
Proof.
  revert rs. induction es as [|[k [d|]] es IH]; intros rs Hb; cbn [apply_undo].
  - by exists rs.
  - destruct (insert_in_batch x k d _ Hb) as (rs1 & -> & Hb1 & Hv1).
    destruct (IH rs1 Hb1) as (rs' & -> & Hb' & Hv'). exists rs'. by rewrite Hv', Hv1.
  - destruct (delete_in_batch x k _ Hb) as [Hb1 Hv1].
    destruct (IH _ Hb1) as (rs' & -> & Hb' & Hv'). exists rs'. by rewrite Hv', Hv1.
Qed.

Lemma rollback_view (st : FlushState E) :
  replica_store (rows st) → RowStore.next_xid (rows st) < u64_max →
  ∃ st', rollback_undo st = Some st' ∧ replica_store (rows st') ∧ undo_log st' = [] ∧
    view (rows st') = apply_writes (rev (undo_log st)) (view (rows st)).
Proof.
  intros Hrs Hx. unfold rollback_undo. destruct (undo_log st) as [|e es] eqn:Hu; [by exists st|].
  destruct (begin_batch _ Hrs Hx) as [Hb Hv0]. cbn [RowStore.begin_xid] in *.
  destruct (apply_undo_view _ (rev (e :: es)) _ Hb) as (rs & Hap & Hb' & Hv').
  cbn [RowStore.begin_xid snd] in Hap. rewrite Hap. eexists. split; [reflexivity|]. cbn [rows undo_log].
  destruct (release_replica (RowStore.next_xid (rows st)) rs) as [Hr Hvr]; [apply Hrs|done|].
  split_and!; [done|done|]. by rewrite Hvr, Hv', Hv0.
Qed.

(** ** Properties of the flush *)



End Steps.

(** ** A server to run examples on: the in-memory engine, the extractors of the
    server over ASCII, and a primary key on [users.id] *)

Module Demo.
#[export] Existing Instance Wal.in_memory_engine.
#[export] Instance demo_rows : RowEngine Wal.InMemoryDurabilityEngine := in_memory_rows 0.
#[export] Instance demo_sql : SqlExtractors := @sql_extractors ascii_tables no_adapter.
#[export] Instance demo_float : Constraints.Float64 nat := ConstraintProps.toy_float.
#[export] Instance demo_descriptors : MapOrder Constraints.ConstraintDescriptor := canonical_order.
#[export] Instance demo_columns : MapOrder string := canonical_order.

#[export] Instance demo_laws : RowEngineLaws Wal.InMemoryDurabilityEngine.
Proof.
  split; intros; try done. unfold maybe_checkpoint. cbn. unfold Wal.maybe_checkpoint.
  by destruct (_ <? _)%nat.
Qed.

Definition users_pk : Constraints.ConstraintDescriptor :=
  Constraints.mkConstraint "pk" "users" "id" Constraints.PrimaryKey None None.

Definition row (cols : list (string * string)) : RowData := list_to_map cols.

(** One user is there already. *)
Definition seeded : RowStore.PagedRowStore :=
  default (toy_store 4)
    (RowStore.insert 1 "shop.users:2" (row [("id", "2"); ("name", "Bob"); ("city", "Rome")])
       (RowStore.begin_xid (toy_store 4)).2).

Lemma seeded_replica : replica_store seeded.
Proof.
  destruct (begin_batch (toy_store 4)) as [Hb _]; [by apply toy_replica_store; lia|done|].
  edestruct (insert_in_batch 1 "shop.users:2" (row [("id", "2"); ("name", "Bob"); ("city", "Rome")]))
    as (s & Hs & Hb' & _); [exact Hb|]. unfold seeded. rewrite Hs. by apply (in_batch_replica 1).
Qed.

Definition server : FlushState Wal.InMemoryDurabilityEngine :=
  mkFlush seeded (Wal.with_config Wal.default_config)
    (Constraints.add_constraint users_pk Constraints.new).2 [].

Definition demo_flush (db : string) (stmts : list string) (st : FlushState Wal.InMemoryDurabilityEngine) :=
  flush (F := nat) (fun _ => "{}") db stmts st.

(** A transaction, and one whose second row violates the key. *)
Definition first : list string :=
  ["INSERT INTO users (id, name, city) VALUES (1, 'Ann', 'Oslo')";
   "UPDATE users SET name = 'Eve' WHERE id = '2'"; "UPDATE users SET city = 'Bern' WHERE name = 'Ann'";
   "DELETE FROM users WHERE id = '3'"].

Definition second : list string :=
  ["DELETE FROM users WHERE id = '2'"; "INSERT INTO users (id, name) VALUES (3, 'Cy'), (3, 'Dan'), (4, 'Flo')"].
End Demo.
Import Demo.



(** A transaction that stops at a violated constraint is left half done: the
    deletion and the first row are there for every reader, the later row is not,
    and the statement log holds the half. *)
Lemma violation_leaves_half_a_transaction :
  match demo_flush "shop" second server with
  | Some (Err _, st) =>
      RowStore.read_latest "shop.users:2" (rows st) = None ∧
      RowStore.read_latest "shop.users:3" (rows st)
        = Some (row [("__table", "users"); ("id", "3"); ("name", "Cy")]) ∧
      RowStore.read_latest "shop.users:4" (rows st) = None ∧
      Wal.mem_iter_sql Wal.Dml (wal st)
        = ["DELETE FROM users WHERE id = '2'"; "INSERT INTO users (id, name) VALUES (3, 'Cy');"]
  | _ => False
  end.
Proof. vm_compute. split_and!; reflexivity. Qed.

(** ROLLBACK leaves the engine and the constraint manager as they are: the rows
    come back with the statement log, and the rolled-back key values stay taken. *)
Lemma rollback_keeps_log_and_keys {E : Type} (st st' : FlushState E) :
  rollback_undo st = Some st' → wal st' = wal st ∧ constraints st' = constraints st.
Proof.
  unfold rollback_undo. destruct (undo_log st) as [|e es]; [by intros [= <-]|].
  cbn [RowStore.begin_xid]. destruct (apply_undo _ _ _); [|done]. by intros [= <-].
Qed.

Lemma rolled_back_key_stays_taken :
  match (let! (_, st1) := demo_flush "shop" second server in rollback_undo st1) with
  | Some st2 =>
      RowStore.read_latest "shop.users:3" (rows st2) = None ∧
      fst <$> demo_flush "shop" ["INSERT INTO users (id, name) VALUES (3, 'Cy')"] st2
      = Some (Err (Constraints.PrimaryKeyDuplicate "pk" "3"))
  | None => False
  end.
Proof. vm_compute. split_and!; reflexivity. Qed.
