(* ===== verification/FlushReplay.v ===== *)
(** * The statement log and the Raft batch describe the leader's rows

    A restart replays the statement log into an empty store; a follower applies
    the batch of each COMMIT.  Both use the plain extractors, without the leader's
    read-before-write and without the database prefix, so they agree with the
    leader on transactions of INSERTs and DELETEs on the default database; the
    examples at the end show where they part. *)

From S2P Require Import Prelude Str Tokenizer Ast SqlParse SqlParseProps Utf8.
From S2P Require Import WalProps ConstraintProps Mvcc MvccSpec Wal Raft RaftLog RaftLoop.
From S2P Require Import RaftApply Constraints SqlKind AcidTx Flush FlushProps.
Local Open Scope string_scope.
Local Open Scope list_scope.
Local Open Scope N_scope.
Local Open Scope vng_scope.
Import Flush.

(** ** What a logged statement does when it is replayed *)

Section Logged.
Context `{!SqlExtractors}.

Definition insert_pairs (sql : string) : list (string * RowData) := map fst (insert_rows sql).

Definition logged_writes : string -> list (string * option RowData) :=
  statement_writes insert_pairs update_row delete_key.

Definition log_writes (l : list string) : list (string * option RowData) := concat (map logged_writes l).

Lemma log_writes_app l1 l2 (m : table) :
  apply_writes (log_writes (l1 ++ l2)) m = apply_writes (log_writes l2) (apply_writes (log_writes l1) m).
Proof. unfold log_writes. by rewrite map_app, concat_app, apply_writes_app. Qed.

(** No UPDATE, and the rows of an INSERT come with statements from which exactly
    they are extracted again. *)
Definition replayable (stmt : string) : Prop :=
  Str.starts_with "UPDATE" (upper_start stmt) = false ∧
  (Str.starts_with "INSERT" (upper_start stmt) = true →
   Forall (fun r => insert_rows r.2 = [r] ∧ Str.starts_with "INSERT" (upper_start r.2) = true)
     (insert_rows stmt)).

#[export] Instance replayable_dec stmt : Decision (replayable stmt).
Proof. unfold replayable. apply _. Defined.

Lemma delete_not_update u : Str.starts_with "DELETE" u = true → Str.starts_with "UPDATE" u = false.
Proof.
  destruct u as [|a u]; [done|]. unfold Str.starts_with. cbn.
  destruct a as [[] [] [] [] [] [] [] []]; cbn; done.
Qed.

(** Only an UPDATE reads the row it writes, and only the database prefix makes
    the leader's key differ from the statement's. *)
Lemma effect_logged stmt (m : table) :
  Str.starts_with "UPDATE" (upper_start stmt) = false →
  statement_effect "" stmt m = apply_writes (logged_writes stmt) m.
Proof.
  intros Hu. unfold statement_effect, logged_writes, statement_writes. cbv zeta. fold (upper_start stmt).
  rewrite Hu. destruct (Str.starts_with "INSERT" _).
  { unfold row_writes, insert_pairs. by rewrite map_map. }
  destruct (Str.starts_with "DELETE" _); [|done]. by destruct (delete_key stmt).
Qed.

Lemma effects_logged stmts (m : table) :
  Forall (fun s => Str.starts_with "UPDATE" (upper_start s) = false) stmts →
  statements_effect "" stmts m = apply_writes (log_writes stmts) m.
Proof.
  intros Hall. revert m. induction Hall as [|s stmts Hs _ IH]; intros m; [done|].
  unfold log_writes. cbn [map concat]. rewrite apply_writes_app, <- effect_logged by done. apply IH.
Qed.

Lemma insert_replayed_view x l rs :
  in_batch x rs → ∃ rs', insert_replayed x l rs = Some rs' ∧ in_batch x rs' ∧
    view rs' = apply_writes (upserts (map fst l)) (view rs).
Proof.
  revert rs. induction l as [|[[k d] q] l IH]; intros rs Hb; cbn [insert_replayed]; [by exists rs|].
  destruct (insert_in_batch x k d _ Hb) as (rs1 & -> & Hb1 & Hv1).
  destruct (IH rs1 Hb1) as (rs' & -> & Hb' & Hv'). exists rs'. by rewrite Hv', Hv1.
Qed.

Lemma apply_dml_view x sql rs :
  in_batch x rs → ∃ rs', apply_dml_to_rowstore x sql rs = Some rs' ∧ in_batch x rs' ∧
    view rs' = apply_writes (logged_writes sql) (view rs).
Proof.
  intros Hb. unfold apply_dml_to_rowstore, logged_writes, statement_writes. cbv zeta.
  fold (upper_start sql). destruct (Str.starts_with "INSERT" _); [by apply insert_replayed_view|].
  destruct (Str.starts_with "DELETE" (upper_start sql)) eqn:Hd.
  - rewrite (delete_not_update _ Hd). destruct (delete_key sql) as [k|]; [|by eexists].
    eexists. split; [done|]. by apply delete_in_batch.
  - destruct (Str.starts_with "UPDATE" _); [|by eexists].
    destruct (update_row sql) as [[k d]|]; [|by eexists]. by apply insert_in_batch.
Qed.

Lemma replay_statements_view x l rs :
  in_batch x rs → ∃ rs', replay_statements x l rs = Some rs' ∧ in_batch x rs' ∧
    view rs' = apply_writes (log_writes l) (view rs).
Proof.
  revert rs. induction l as [|s l IH]; intros rs Hb; cbn [replay_statements]; [by exists rs|].
  destruct (apply_dml_view x s rs Hb) as (rs1 & -> & Hb1 & Hv1).
  destruct (IH rs1 Hb1) as (rs' & -> & Hb' & Hv'). exists rs'. split; [done|]. split; [done|].
  unfold log_writes in *. cbn [map concat]. by rewrite apply_writes_app, Hv', Hv1.
Qed.
End Logged.

(** ** The log of a flush *)

Section Synced.
Context {E F : Type} `{!Wal.DurabilityEngine E} `{!Wal.PersistsSql E} `{!RowEngine E} `{!RowEngineLaws E}.
Context `{!SqlExtractors} `{!Constraints.Float64 F} `{!MapOrder Constraints.ConstraintDescriptor}
  `{!MapOrder string}.

(** The statements logged meanwhile do to the rows what was done to them. *)
Definition synced (st st' : FlushState E) : Prop :=
  ∃ new, Wal.iter_sql Wal.Dml (wal st') = Wal.iter_sql Wal.Dml (wal st) ++ new ∧
    view (rows st') = apply_writes (log_writes new) (view (rows st)).

#[export] Instance synced_preorder : PreOrder synced.
Proof.
  split.
  - intros st. exists []. by rewrite app_nil_r.
  - intros st1 st2 st3 (n1 & Hl1 & Hv1) (n2 & Hl2 & Hv2). exists (n1 ++ n2).
    by rewrite Hl2, Hl1, app_assoc, log_writes_app, <- Hv1.
Qed.

Lemma synced_one st st' sql :
  Wal.iter_sql Wal.Dml (wal st') = Wal.iter_sql Wal.Dml (wal st) ++ [sql] →
  view (rows st') = apply_writes (logged_writes sql) (view (rows st)) → synced st st'.
Proof. intros Hl Hv. exists [sql]. split; [done|]. unfold log_writes. cbn. by rewrite app_nil_r. Qed.

Lemma persist_dml sql (e : E) :
  Wal.iter_sql Wal.Dml (persist_sql_statement Wal.Dml sql e) = Wal.iter_sql Wal.Dml e ++ [sql].
Proof. unfold persist_sql_statement. rewrite Wal.append_sql_iter. by rewrite decide_True. Qed.

Lemma insert_row_synced x r st res st' :
  in_batch x (rows st) → persists_rows (wal st) = false →
  insert_rows r.2 = [r] → Str.starts_with "INSERT" (upper_start r.2) = true →
  flush_insert_row (F := F) "" x r st = Some (res, st') → synced st st'.
Proof.
  intros Hb Hp Hr Hi Hfl.
  destruct (insert_row_flushed (F := F) "" x r st Hb Hp) as (res' & st'' & Hfl' & _ & Hv).
  rewrite Hfl' in Hfl. injection Hfl as <- <-. destruct r as [[raw d] q]. unfold flush_insert_row in Hfl'. cbv zeta in Hfl'.
  destruct (if String.eqb _ "" then None else _) as [v|].
  { injection Hfl' as <- <-. exists []. by rewrite app_nil_r. }
  rewrite fallback_view in Hfl' by done.
  destruct (write_row_flushed "" x (AcidTx.db_prefix_key "" raw) raw d st Hb) as (st1 & Hwr & _ & _ & _ & Hw).
  rewrite Hwr in Hfl'. injection Hfl' as <- <-. apply (synced_one _ _ q).
  - cbn [wal]. by rewrite persist_dml, Hw, store_row_sql.
  - rewrite Hv. unfold logged_writes, statement_writes, insert_pairs. cbv zeta. fold (upper_start q).
    cbn [snd] in Hr, Hi. by rewrite Hi, Hr.
Qed.

Lemma insert_rows_synced x rs st res st' :
  in_batch x (rows st) → persists_rows (wal st) = false →
  Forall (fun r => insert_rows r.2 = [r] ∧ Str.starts_with "INSERT" (upper_start r.2) = true) rs →
  flush_insert_rows (F := F) "" x rs st = Some (res, st') → synced st st'.
Proof.
  intros Hb Hp Hall. revert st Hb Hp. induction Hall as [|r rs [Hr Hi] _ IH]; intros st Hb Hp Hfl.
  { by injection Hfl as <- <-. }
  cbn [flush_insert_rows] in Hfl.
  destruct (insert_row_flushed (F := F) "" x r st Hb Hp) as (res1 & st1 & Hfl1 & Hf1 & _).
  pose proof (insert_row_synced _ _ _ _ _ Hb Hp Hr Hi Hfl1) as Hs1. rewrite Hfl1 in Hfl.
  destruct res1 as [[]|v]; [|by injection Hfl as <- <-].
  transitivity st1; [done|]. apply IH; [apply Hf1|by rewrite (flushed_engine _ _ _ Hf1)|done].
Qed.

Lemma statement_synced x stmt st res st' :
  in_batch x (rows st) → persists_rows (wal st) = false → replayable stmt →
  flush_statement (F := F) "" x stmt st = Some (res, st') → synced st st'.
Proof.
  intros Hb Hp [Hu Hrows] Hfl. unfold flush_statement in Hfl. rewrite Hu in Hfl.
  destruct (Str.starts_with "INSERT" (upper_start stmt)) eqn:Hi.
  { eapply insert_rows_synced; [done..|by apply Hrows|done]. }
  destruct (Str.starts_with "DELETE" (upper_start stmt)) eqn:Hd; [|by injection Hfl as <- <-].
  injection Hfl as <- <-. destruct (delete_key stmt) as [raw|] eqn:Hk; [|done].
  apply (synced_one _ _ stmt).
  - unfold flush_delete. cbn [wal set_wal]. rewrite persist_dml, store_row_sql. done.
  - destruct (delete_flushed "" x raw stmt st Hb Hp) as [_ ->].
    rewrite <- effect_logged by done. unfold statement_effect. by rewrite Hi, Hd, Hk.
Qed.

Lemma statements_synced x stmts st res st' :
  in_batch x (rows st) → persists_rows (wal st) = false → Forall replayable stmts →
  flush_statements (F := F) "" x stmts st = Some (res, st') → synced st st'.
Proof.
  intros Hb Hp Hall. revert st Hb Hp. induction Hall as [|s stmts Hs _ IH]; intros st Hb Hp Hfl.
  { by injection Hfl as <- <-. }
  cbn [flush_statements] in Hfl.
  destruct (statement_flushed (F := F) "" x s st Hb Hp) as (res1 & st1 & Hfl1 & Hf1 & _).
  pose proof (statement_synced _ _ _ _ _ Hb Hp Hs Hfl1) as Hs1. rewrite Hfl1 in Hfl.
  destruct res1 as [[]|v]; [|by injection Hfl as <- <-].
  transitivity st1; [done|]. apply IH; [apply Hf1|by rewrite (flushed_engine _ _ _ Hf1)|done].
Qed.

Lemma flush_synced to_json stmts st res st' :
  replica_store (rows st) → RowStore.next_xid (rows st) < u64_max → persists_rows (wal st) = false →
  Forall replayable stmts → flush (F := F) to_json "" stmts st = Some (res, st') → synced st st'.
Proof.
  intros Hrs Hx Hp Hall Hfl. destruct (begin_batch _ Hrs Hx) as [Hb Hv0].
  unfold flush in Hfl. cbn [RowStore.begin_xid] in *.
  set (st0 := set_rows _ st) in Hfl.
  assert (synced st st0) as Hs0 by (exists []; by rewrite app_nil_r).
  destruct (flush_statements _ _ _ _) as [[res1 st1]|] eqn:Hst; [|done].
  pose proof (statements_synced _ _ st0 _ _ Hb Hp Hall Hst) as Hs1.
  transitivity st0; [done|]. transitivity st1; [done|].
  destruct res1 as [[]|v]; injection Hfl as <- <-; [|done].
  exists []. cbn [wal set_wal set_rows rows]. rewrite app_nil_r, maybe_checkpoint_sql, log_mutations_engine.
  done.
Qed.

(** The flushes of a sequence of transactions. *)
Fixpoint commit_all (to_json : RowData -> string) (txns : list (list string)) (st : FlushState E)
    : option (FlushState E) :=
  match txns with
  | [] => Some st
  | stmts :: txns' =>
      let! (_, st') := flush (F := F) to_json "" stmts st in commit_all to_json txns' st'
  end.

Lemma commit_all_synced to_json txns st :
  replica_store (rows st) → RowStore.next_xid (rows st) + N.of_nat (length txns) <= u64_max →
  persists_rows (wal st) = false → Forall (Forall replayable) txns →
  ∃ st', commit_all to_json txns st = Some st' ∧ persists_rows (wal st') = false ∧ synced st st'.
Proof.
  intros Hrs Hx Hp Hall. revert st Hrs Hx Hp.
  induction Hall as [|stmts txns Hs _ IH]; intros st Hrs Hx Hp; cbn [commit_all].
  { exists st. by split_and!. }
  cbn [length] in Hx.
  destruct (flush_flushed (F := F) to_json "" stmts st Hrs ltac:(lia) Hp)
    as (res & st1 & Hfl & Hrs1 & Hx1 & Hp1 & _). rewrite Hfl.
  destruct (IH st1 Hrs1 ltac:(lia) Hp1) as (st' & -> & Hp' & Hsy). exists st'. split_and!; [done..|].
  transitivity st1; [|done]. eapply flush_synced; [done|lia|done|done|done].
Qed.

Lemma boot_view (e : E) :
  (∀ e : E, Wal.persists_sql e = true) → persists_rows e = false →
  ∃ rs, boot_row_store 0 e = Some rs ∧ view rs = apply_writes (log_writes (Wal.iter_sql Wal.Dml e)) ∅.
Proof.
  intros Hsql Hp. unfold boot_row_store, load_persisted_rows_into, replay_dml_into. cbn [RowStore.new Nat.ltb Nat.leb].
  rewrite Hp, Hsql, Wal.sql_count_iter. cbn [andb].
  change (RowStore.mkPagedRowStore [RowStore.page_new 0] 256 1 1 ∅ 0) with (toy_store 256).
  destruct (Wal.iter_sql Wal.Dml e) as [|s l] eqn:Hl; cbn [length Nat.ltb Nat.leb].
  { eexists. split; [reflexivity|]. by apply map_eq. }
  destruct (begin_batch (toy_store 256)) as [Hb Hv]; [by apply toy_replica_store; lia|done|].
  destruct (replay_statements_view _ (s :: l) _ Hb) as (rs & Hr & _ & Hv').
  cbn [RowStore.begin_xid snd] in Hr |- *. rewrite Hr. exists rs. split; [done|].
  by rewrite Hv', Hv.
Qed.

End Synced.

(** ** Followers *)

Section Follower.
Context {E F W : Type} `{!Wal.DurabilityEngine E} `{!RowEngine E} `{!RowEngineLaws E}.
Context `{!SqlExtractors} `{!Constraints.Float64 F} `{!MapOrder Constraints.ConstraintDescriptor}
  `{!MapOrder string}.

Lemma trimmed_start s : Str.trim s = s → Str.trim_start s = s.
Proof. intros Ht. rewrite <- Ht at 1. rewrite Str.trim_start_trim. done. Qed.

(** The batch leaves out only statements that write nothing. *)
Lemma non_dml_writes s : Str.trim s = s → RaftLoop.is_dml s = false → logged_writes s = [].
Proof.
  intros Ht Hd. unfold logged_writes, statement_writes. cbv zeta. rewrite (trimmed_start s Ht).
  unfold RaftLoop.is_dml in Hd. apply orb_false_iff in Hd as [[-> ->]%orb_false_iff ->]. done.
Qed.

Lemma dml_log_writes stmts :
  Forall (fun s => Str.trim s = s) stmts →
  log_writes (filter (fun s => RaftLoop.is_dml s = true) stmts) = log_writes stmts.
Proof.
  induction 1 as [|s stmts Hs _ IH]; [done|]. rewrite filter_cons. unfold log_writes in *.
  case_decide as Hd; cbn [map concat]; rewrite IH; [done|].
  rewrite non_dml_writes; [done|done|by apply not_true_is_false].
Qed.

Lemma map_trimmed stmts : Forall (fun s => Str.trim s = s) stmts → map Str.trim stmts = stmts.
Proof. induction 1 as [|s stmts Hs _ IH]; cbn; [done|]. by rewrite Hs, IH. Qed.

(** The entries a leader appends for a COMMIT write what the COMMIT wrote. *)
Lemma replicate_entries stmts peers n :
  Raft.role n = Raft.Leader → Forall (fun s => Str.trim s = s) stmts → Forall separator_free stmts →
  ∃ es, Raft.log (replicate "" stmts peers n) = Raft.log n ++ es ∧
    entries_writes insert_pairs update_row delete_key es = log_writes stmts.
Proof.
  intros Hl Ht Hsep. unfold replicate. rewrite Hl.
  destruct (RaftLoop.encode_raft_batch_command "" stmts) as [cmd|] eqn:Henc.
  - eexists [_]. split.
    { unfold Raft.append_command, Raft.commit_if_alone. cbn [snd].
      destruct (Raft.last_applied _ <? _), ((peers =? 0)%nat && _); reflexivity. }
    unfold entries_writes, command_writes. cbn [map concat Raft.e_command].
    rewrite (batch_command_roundtrip "" stmts cmd), map_trimmed by (done || by rewrite map_trimmed).
    rewrite app_nil_r, map_map. cbn [snd]. by rewrite <- (dml_log_writes stmts).
  - exists []. split; [by rewrite app_nil_r|].
    unfold RaftLoop.encode_raft_batch_command in Henc. rewrite map_trimmed in Henc by done.
    rewrite <- dml_log_writes by done.
    by destruct (filter (fun s => RaftLoop.is_dml s = true) stmts).
Qed.

End Follower.

(** ** The server's own extractors *)

Section Real.
Context `{!Tokenizer.UnicodeTables} `{!Ast.SqlParserAdapter}.

Lemma printed_insert_starts t cols vals :
  Str.starts_with "INSERT" (upper_start (Utf8.to_utf8 (SqlParse.single_insert t cols vals))) = true.
Proof.
  assert (∃ r, SqlParse.single_insert t cols vals = Tokenizer.chars "INSERT INTO " ++ r) as [r ->]
    by (by eexists). cbn [Tokenizer.chars app Utf8.to_utf8].
  generalize (Utf8.to_utf8 r). intros u. reflexivity.
Qed.

(** An INSERT that parses, with plain names and values that survive printing, is
    replayable. *)
Lemma parsed_insert_replayable sql ins :
  Str.starts_with "UPDATE" (upper_start sql) = false →
  Ast.parse_one (SqlParse.strip_schema_qualifier_from_insert (Utf8.of_utf8 sql)) = Ok (Ast.SInsert ins) →
  let t := SqlParse.original_table (Utf8.of_utf8 sql) ins in
  table_ok t → Forall column_ok (Ast.ins_columns ins) → Forall (Forall value_ok) (Ast.ins_values ins) →
  Forall (fun vals => Forall Utf8.scalar (SqlParse.single_insert t (Ast.ins_columns ins) vals)) (Ast.ins_values ins) →
  replayable sql.
Proof.
  intros Hu Hp t Ht Hc Hv Hsc. split; [done|]. intros _. apply Forall_forall. intros r Hin.
  cbn in Hin. apply list_elem_of_fmap in Hin as ([[k d] q] & -> & Hin). cbn [fst snd].
  unfold SqlParse.extract_all_insert_rows in Hin. rewrite Hp in Hin.
  apply list_elem_of_omap in Hin as ([|v vals] & Hvals & Heq); [done|]. injection Heq as <- <- <-.
  rewrite Forall_forall in Hv, Hsc. split; [|apply printed_insert_starts].
  unfold insert_rows, sql_extractors. rewrite Utf8.of_to_utf8 by (by apply Hsc). by rewrite extract_single by (done || by apply Hv).
Qed.
End Real.

(** ** Examples *)

Import Demo.

#[local] Instance demo_persists : Wal.PersistsSql Wal.InMemoryDurabilityEngine := in_memory_persists_sql.

Definition fresh : FlushState Wal.InMemoryDurabilityEngine :=
  mkFlush (toy_store 4) (Wal.with_config Wal.default_config)
    (Constraints.add_constraint users_pk Constraints.new).2 [].

(** Two transactions; the second stops at its second row. *)
Definition history : list (list string) :=
  [["INSERT INTO users (id, name) VALUES (1, 'O''Hara'), (2, 'Bob')"; "SELECT * FROM users"];
   ["DELETE FROM users WHERE id = '1'"; "INSERT INTO users (id, name) VALUES (3, 'Cy'), (2, 'Dan')"]].

Lemma history_replayable : Forall (Forall replayable) history.
Proof. apply (bool_decide_unpack _). vm_compute. exact I. Qed.


Definition batch : list string :=
  ["INSERT INTO users (id, name) VALUES (1, 'Ann'), (2, 'Bob')"; "DELETE FROM users WHERE id = '1'"; "SELECT 1"].

Definition leader : Raft.RaftNode := Raft.become_leader (Raft.become_candidate (Raft.new "a")).

Definition follower : Raft.RaftNode :=
  Raft.set_commit_index 1 (Raft.set_log (Raft.log (replicate "" batch 2 leader)) (Raft.new "f")).

Lemma one_entry_can_apply cmd :
  can_apply (Raft.set_commit_index 1 (Raft.set_log [Raft.mkEntry 1 1 cmd] (Raft.new "f"))).
Proof.
  split_and!; try done. intros [|[|j]] e; cbn; [by intros [= <-]|done..].
Qed.


(** The rows a follower shows after applying a COMMIT of [stmts] on [db]. *)
Definition follower_view (db : string) (stmts : list string) (rs : RowStore.PagedRowStore) : table :=
  match RaftLoop.encode_raft_batch_command db stmts with
  | Some cmd =>
      let '(x, rs) := RowStore.begin_xid rs in
      match RaftLoop.apply_dml_command insert_pairs update_row delete_key
              (fun _ _ _ _ (w : unit) => w) cmd x rs tt with
      | Some (rs', _) => view rs' | None => ∅ end
  | None => view rs
  end.

(** The rows of the leader, of a follower and of a restarted server after a COMMIT
    of [stmts] on [db], from an empty database. *)
Definition three_views (db : string) (stmts : list string) : option (table * table * table) :=
  let! (res, st) := demo_flush db stmts fresh in
  let! rs := boot_row_store 0 (wal st) in
  Some (view (rows st), follower_view db stmts (toy_store 4), view rs).

(** UPDATE keeps the other columns of the row on the leader; the follower and the
    restarted server keep only the columns that are set. *)
Lemma replayed_update_loses_columns :
  let updated := row [("__table", "users"); ("name", "Eve")] in
  three_views "" ["INSERT INTO users (id, name, city) VALUES (1, 'Ann', 'Oslo')";
                  "UPDATE users SET name = 'Eve' WHERE id = '1'"]
  = Some ({["users:1" := row [("__table", "users"); ("id", "1"); ("name", "Eve"); ("city", "Oslo")]]},
          {["users:1" := updated]}, {["users:1" := updated]}).
Proof. apply (bool_decide_unpack _). vm_compute. exact I. Qed.

(** The leader stores a row of database [shop] under its prefix; the follower and
    the restarted server store it under the bare key. *)
Lemma replay_forgets_database :
  let ann := row [("__table", "users"); ("id", "1"); ("name", "Ann")] in
  three_views "shop" ["INSERT INTO users (id, name) VALUES (1, 'Ann')"]
  = Some ({["shop.users:1" := ann]}, {["users:1" := ann]}, {["users:1" := ann]}).
Proof. apply (bool_decide_unpack _). vm_compute. exact I. Qed.

(** A set-at-a-time UPDATE changes every matching row on the leader; replayed, it
    writes one row, under a key made of the condition's value. *)
Lemma replayed_scan_update_misses_rows :
  let user i city := row [("__table", "users"); ("id", i); ("city", city)] in
  let replayed : table :=
    {["users:1" := user "1" "Oslo"; "users:2" := user "2" "Oslo";
      "users:Oslo" := row [("__table", "users"); ("city", "Bern")]]} in
  three_views "" ["INSERT INTO users (id, city) VALUES (1, 'Oslo'), (2, 'Oslo')";
                  "UPDATE users SET city = 'Bern' WHERE city = 'Oslo'"]
  = Some ({["users:1" := user "1" "Bern"; "users:2" := user "2" "Bern"]}, replayed, replayed).
Proof. apply (bool_decide_unpack _). vm_compute. exact I. Qed.
