(* ===== verification/Auth.v ===== *)
(** * Privileges, the security configuration and key resolution
      ([crates/voltnuerongrid-auth/src/lib.rs])

    The privilege matrix and its scope patterns; the security configuration, its
    validation and its properties format; the KMS providers and the resolution of
    the key reference through the primary and failover variables.  [serde_json] and
    [serde_yaml] are parameters, and so is the command line that checks a cloud
    key. *)

From S2P Require Import Prelude Str Decimal Wal SqlKind.
Local Open Scope string_scope.
Local Open Scope list_scope.
Local Open Scope N_scope.
Local Open Scope vng_scope.

Module Auth.
Import SqlKind.

(** ** The privilege matrix *)

Inductive PrivilegeAction := Read | Write | Execute | Manage.

#[export] Instance PrivilegeAction_eq_dec : EqDecision PrivilegeAction.
Proof. solve_decision. Defined.

Record ResourceGrant := mkGrant {
  resource : string;
  scopes : list string;
  actions : list PrivilegeAction;
}.

(** [s.split('/').filter(|segment| !segment.is_empty())] *)
Definition segments (s : string) : list string :=
  List.filter (fun x => negb (String.eqb x "")) (Str.split "/" s).

(** A placeholder such as [{tenant}]. *)
Definition placeholder (seg : string) : bool := Str.starts_with "{" seg && Str.ends_with "}" seg.

(** The [while] loop and what follows it: the first star grants the rest; the
    loop leaves the suffixes of both lists from [index]. *)
Fixpoint segments_match (allowed requested : list string) : bool :=
  match allowed with
  | [] => match requested with [] => true | _ :: _ => false end
  | a :: allowed' =>
      match requested with
      | [] => match allowed' with [] => String.eqb a "*" | _ :: _ => false end
      | r :: requested' =>
          if String.eqb a "*" then true
          else if placeholder a then
            if String.eqb r "" then false else segments_match allowed' requested'
          else if eq_ignore_ascii_case a r then segments_match allowed' requested'
          else false
      end
  end.

Definition scope_matches (allowed_scope requested_scope : string) : bool :=
  let allowed_scope := Str.trim allowed_scope in
  let requested_scope := Str.trim requested_scope in
  if String.eqb allowed_scope "*" then true
  else segments_match (segments allowed_scope) (segments requested_scope).

Definition grant_allows (g : ResourceGrant) (res scope : string) (action : PrivilegeAction) : bool :=
  eq_ignore_ascii_case (resource g) res && bool_decide (action ∈ actions g) &&
  existsb (fun allowed => scope_matches allowed scope) (scopes g).

Record RbacPrivilegeMatrix := mkMatrix { grants_by_role : gmap string (list ResourceGrant) }.

Definition new : RbacPrivilegeMatrix := mkMatrix ∅.

Definition role_key (role : string) : string := to_ascii_lowercase (Str.trim role).

Definition grants_for_role (role : string) (m : RbacPrivilegeMatrix) : list ResourceGrant :=
  default [] (grants_by_role m !! role_key role).

Definition grant_role (role : string) (g : ResourceGrant) (m : RbacPrivilegeMatrix) : RbacPrivilegeMatrix :=
  mkMatrix (<[role_key role := default [] (grants_by_role m !! role_key role) ++ [g]]> (grants_by_role m)).

Definition allows (role res scope : string) (action : PrivilegeAction) (m : RbacPrivilegeMatrix) : bool :=
  existsb (fun g => grant_allows g res scope action) (grants_for_role role m).

(** ** The security configuration *)

Record SecurityConfigContract := mkConfig {
  admin_api_key_env : string;
  admin_header_name : string;
  tls_required : bool;
  mtls_required : bool;
  encryption_at_rest_required : bool;
  kms_key_ref_env : string;
  kms_failover_key_ref_envs : list string;
  allowed_operator_roles : list string;
  token_ttl_seconds : N;
}.

(** The loop over the failover variables; [seen] maps the lower-case name to the
    name as it was given. *)
Fixpoint check_failover (envs : list string) (seen : gmap string string) : result unit string :=
  match envs with
  | [] => Ok tt
  | env :: envs' =>
      let trimmed := Str.trim env in
      let normalized := to_ascii_lowercase trimmed in
      if String.eqb normalized "" then Err "kms failover env names must not be empty"
      else match seen !! normalized with
           | Some previous =>
               Err ("kms failover env names must be unique; duplicate detected for " +:+ previous)
           | None => check_failover envs' (<[normalized := trimmed]> seen)
           end
  end.

Definition is_blank (s : string) : bool := String.eqb (Str.trim s) "".

Definition validate (c : SecurityConfigContract) : result unit string :=
  if is_blank (admin_api_key_env c) then Err "admin_api_key_env must not be empty"
  else if is_blank (admin_header_name c) || negb (Str.starts_with "x-" (admin_header_name c))
  then Err "admin_header_name must start with 'x-'"
  else if mtls_required c && negb (tls_required c)
  then Err "mtls_required=true requires tls_required=true"
  else if encryption_at_rest_required c && is_blank (kms_key_ref_env c)
  then Err "kms_key_ref_env must not be empty when encryption_at_rest_required=true"
  else
    let primary := Str.trim (kms_key_ref_env c) in
    let primary_normalized := to_ascii_lowercase primary in
    let seen := if String.eqb primary_normalized "" then ∅ else {[primary_normalized := primary]} in
    let? _ := check_failover (kms_failover_key_ref_envs c) seen in
    match allowed_operator_roles c with
    | [] => Err "allowed_operator_roles must not be empty"
    | _ => if token_ttl_seconds c <? 60 then Err "token_ttl_seconds must be >= 60" else Ok tt
    end.

Definition parse_bool (v : string) : result bool string :=
  let v := to_ascii_lowercase (Str.trim v) in
  if String.eqb v "true" then Ok true
  else if String.eqb v "false" then Ok false
  else Err "boolean value must be true or false".

(** The fields read so far from a properties file. *)
Record Partial := mkPartial {
  p_admin_api_key_env : option string;
  p_admin_header_name : option string;
  p_tls_required : option bool;
  p_mtls_required : option bool;
  p_encryption_at_rest_required : option bool;
  p_kms_key_ref_env : option string;
  p_kms_failover_key_ref_envs : option (list string);
  p_allowed_operator_roles : option (list string);
  p_token_ttl_seconds : option N;
}.

Definition empty_partial : Partial := mkPartial None None None None None None None None None.

(** [value.split(',').map(str::trim).filter(|v| !v.is_empty())] *)
Definition comma_list (v : string) : list string :=
  List.filter (fun x => negb (String.eqb x "")) (map Str.trim (Str.split "," v)).

Definition set_property (key value : string) (p : Partial) : result Partial string :=
  let '(mkPartial a h t m e k f r l) := p in
  if String.eqb key "security.adminApiKeyEnv" then Ok (mkPartial (Some value) h t m e k f r l)
  else if String.eqb key "security.adminHeaderName" then Ok (mkPartial a (Some value) t m e k f r l)
  else if String.eqb key "security.tlsRequired" then
    let? b := parse_bool value in Ok (mkPartial a h (Some b) m e k f r l)
  else if String.eqb key "security.mtlsRequired" then
    let? b := parse_bool value in Ok (mkPartial a h t (Some b) e k f r l)
  else if String.eqb key "security.encryptionAtRestRequired" then
    let? b := parse_bool value in Ok (mkPartial a h t m (Some b) k f r l)
  else if String.eqb key "security.kmsKeyRefEnv" then Ok (mkPartial a h t m e (Some value) f r l)
  else if String.eqb key "security.kmsFailoverKeyRefEnvs" then
    Ok (mkPartial a h t m e k (Some (comma_list value)) r l)
  else if String.eqb key "security.allowedOperatorRoles" then
    Ok (mkPartial a h t m e k f (Some (comma_list value)) l)
  else if String.eqb key "security.tokenTtlSeconds" then
    match Dec.parse u64_max value with
    | Some n => Ok (mkPartial a h t m e k f r (Some n))
    | None => Err "security.tokenTtlSeconds must be integer"
    end
  else Ok p.

(** One line: blank lines, comments and lines without [=] are passed over. *)
Definition property_line (line : string) (p : Partial) : result Partial string :=
  let trimmed := Str.trim line in
  if String.eqb trimmed "" || Str.starts_with "#" trimmed || Str.starts_with "!" trimmed then Ok p
  else match Str.split_once "=" trimmed with
       | None => Ok p
       | Some (k, v) => set_property (Str.trim k) (Str.trim v) p
       end.

Fixpoint property_lines (ls : list string) (p : Partial) : result Partial string :=
  match ls with
  | [] => Ok p
  | l :: ls' => let? p := property_line l p in property_lines ls' p
  end.

Definition required {A} (o : option A) (name : string) : result A string :=
  match o with Some x => Ok x | None => Err ("missing " +:+ name) end.

Definition from_properties_str (input : string) : result SecurityConfigContract string :=
  let? p := property_lines (Wal.lines (String.length input) input) empty_partial in
  let? a := required (p_admin_api_key_env p) "security.adminApiKeyEnv" in
  let? h := required (p_admin_header_name p) "security.adminHeaderName" in
  let? t := required (p_tls_required p) "security.tlsRequired" in
  let? m := required (p_mtls_required p) "security.mtlsRequired" in
  let? e := required (p_encryption_at_rest_required p) "security.encryptionAtRestRequired" in
  let? k := required (p_kms_key_ref_env p) "security.kmsKeyRefEnv" in
  let? r := required (p_allowed_operator_roles p) "security.allowedOperatorRoles" in
  let? l := required (p_token_ttl_seconds p) "security.tokenTtlSeconds" in
  let c := mkConfig a h t m e k (default [] (p_kms_failover_key_ref_envs p)) r l in
  let? _ := validate c in Ok c.

(** [from_json_str] and [from_yaml_str]: [parse] is the deserialiser. *)
Definition from_parsed (parse : string -> result SecurityConfigContract string) (input : string)
    : result SecurityConfigContract string :=
  let? c := parse input in
  let? _ := validate c in Ok c.

(** ** Key references *)

Record KmsKeyResolution := mkResolution {
  selected_env : string;
  key_ref : string;
  failover_used : bool;
}.

Fixpoint push_candidates (envs candidates : list string) : list string :=
  match envs with
  | [] => candidates
  | env :: envs' =>
      let trimmed := Str.trim env in
      if String.eqb trimmed "" then push_candidates envs' candidates
      else if existsb (fun c => eq_ignore_ascii_case c trimmed) candidates
      then push_candidates envs' candidates
      else push_candidates envs' (candidates ++ [trimmed])
  end.

Definition kms_key_candidates (c : SecurityConfigContract) : list string :=
  push_candidates (kms_failover_key_ref_envs c)
    (if is_blank (kms_key_ref_env c) then [] else [Str.trim (kms_key_ref_env c)]).

(** The loop shared by both resolutions: [lookup] may fail, which ends it. *)
Fixpoint resolve_loop (lookup : string -> result (option string) string) (index : nat) (envs : list string)
    : result (option KmsKeyResolution) string :=
  match envs with
  | [] => Ok None
  | env :: envs' =>
      let? v := lookup env in
      match v with
      | Some value =>
          if String.eqb (Str.trim value) "" then resolve_loop lookup (S index) envs'
          else Ok (Some (mkResolution env (Str.trim value) (0 <? index)%nat))
      | None => resolve_loop lookup (S index) envs'
      end
  end.

Definition resolve_with (what : string) (lookup : string -> result (option string) string)
    (c : SecurityConfigContract) : result KmsKeyResolution string :=
  let? r := resolve_loop lookup 0 (kms_key_candidates c) in
  match r with
  | Some k => Ok k
  | None => Err ("no configured kms key reference resolved from " +:+ what +:+ " candidates: "
                 +:+ Str.join ", " (kms_key_candidates c))
  end.

Definition resolve_kms_key_ref_from_env_map (env_values : gmap string string) (c : SecurityConfigContract)
    : result KmsKeyResolution string :=
  resolve_with "env" (fun env => Ok (env_values !! env)) c.

Definition resolve_kms_key_ref_with_provider (lookup : string -> result (option string) string)
    (c : SecurityConfigContract) : result KmsKeyResolution string :=
  resolve_with "provider" lookup c.

(** ** Key providers *)

Inductive KmsProviderKind := Generic | AwsCli | AzureCli | GcpCli.

Definition detect_kms_provider_kind (key_ref : string) : KmsProviderKind :=
  let trimmed := Str.trim key_ref in
  if Str.starts_with "arn:aws:kms:" trimmed || Str.starts_with "aws-kms://" trimmed then AwsCli
  else if Str.starts_with "azure-kms://" trimmed || Str.contains ".vault.azure.net/keys/" trimmed then AzureCli
  else if Str.starts_with "gcp-kms://" trimmed || Str.starts_with "projects/" trimmed then GcpCli
  else Generic.

Section Cli.
(** [run_cli_command] *)
Variable run_cli_command : string -> list string -> result unit string.

Definition verify_aws_kms_key_ref (key_ref : string) : result unit string :=
  let normalized := Str.trim_start_matches ["aws-kms://"] (Str.trim key_ref) in
  match Str.split ":" normalized with
  | arn :: rest =>
      if negb (String.eqb arn "arn") then Err ("aws kms key ref must be an ARN: " +:+ key_ref)
      else match rest with
      | aws :: rest =>
          if negb (String.eqb aws "aws") then Err ("aws kms key ref missing partition: " +:+ key_ref)
          else match rest with
          | kms :: rest =>
              if negb (String.eqb kms "kms") then Err ("aws kms key ref missing service name: " +:+ key_ref)
              else match rest with
              | region :: _ =>
                  if is_blank region then Err ("aws kms key ref missing region: " +:+ key_ref)
                  else run_cli_command "aws" ["kms"; "describe-key"; "--key-id"; normalized; "--region";
                                              region; "--output"; "json"]
              | [] => Err ("aws kms key ref missing region: " +:+ key_ref)
              end
          | [] => Err ("aws kms key ref missing service name: " +:+ key_ref)
          end
      | [] => Err ("aws kms key ref missing partition: " +:+ key_ref)
      end
  | [] => Err ("aws kms key ref must be an ARN: " +:+ key_ref)
  end.

Definition verify_azure_kms_key_ref (key_ref : string) : result unit string :=
  let normalized := Str.trim_start_matches ["azure-kms://"] (Str.trim key_ref) in
  if negb (Str.contains ".vault.azure.net/keys/" normalized)
  then Err ("azure key ref must target a Key Vault key id: " +:+ key_ref)
  else run_cli_command "az" ["keyvault"; "key"; "show"; "--id"; normalized; "--output"; "json"].

(** [segments.windows(2).find(|pair| pair[0] == name).map(|pair| pair[1])] *)
Fixpoint segment_after (name : string) (segs : list string) : option string :=
  match segs with
  | a :: ((b :: _) as rest) => if String.eqb a name then Some b else segment_after name rest
  | _ => None
  end.

Definition verify_gcp_kms_key_ref (key_ref : string) : result unit string :=
  let normalized := Str.trim_start_matches ["gcp-kms://"] (Str.trim key_ref) in
  let segs := Str.split "/" normalized in
  if (length segs <? 8)%nat then Err ("gcp kms key ref must be a full resource path: " +:+ key_ref)
  else match segment_after "projects" segs with
  | None => Err ("gcp kms key ref missing project: " +:+ key_ref)
  | Some project =>
      match segment_after "locations" segs with
      | None => Err ("gcp kms key ref missing location: " +:+ key_ref)
      | Some location =>
          match segment_after "keyRings" segs with
          | None => Err ("gcp kms key ref missing keyRing: " +:+ key_ref)
          | Some keyring =>
              match segment_after "cryptoKeys" segs with
              | None => Err ("gcp kms key ref missing cryptoKey: " +:+ key_ref)
              | Some key =>
                  run_cli_command "gcloud" ["kms"; "keys"; "describe"; key; "--keyring"; keyring;
                    "--location"; location; "--project"; project; "--format"; "json"]
              end
          end
      end
  end.

Definition verify_cloud_kms_key_ref (kind : KmsProviderKind) (key_ref : string) : result unit string :=
  match kind with
  | AwsCli => verify_aws_kms_key_ref key_ref
  | AzureCli => verify_azure_kms_key_ref key_ref
  | GcpCli => verify_gcp_kms_key_ref key_ref
  | Generic => Ok tt
  end.

(** Both adapters: names, references and outages; [provider_kind] is [None] for
    the in-memory one, which checks nothing. *)
Inductive ConfiguredKmsProviderAdapter :=
| GenericAdapter (provider_name : string) (key_refs : gmap string string) (unavailable_envs : gset string)
| CloudCli (provider_kind : option KmsProviderKind) (provider_name : string) (key_refs : gmap string string)
    (unavailable_envs : gset string).

Definition from_key_ref (key_ref : string) : ConfiguredKmsProviderAdapter :=
  match detect_kms_provider_kind key_ref with
  | Generic => GenericAdapter "generic" ∅ ∅
  | AwsCli => CloudCli (Some AwsCli) "aws-cli" ∅ ∅
  | AzureCli => CloudCli (Some AzureCli) "azure-cli" ∅ ∅
  | GcpCli => CloudCli (Some GcpCli) "gcloud-cli" ∅ ∅
  end.

Definition register_key_ref (env key_ref : string) (a : ConfiguredKmsProviderAdapter)
    : ConfiguredKmsProviderAdapter :=
  match a with
  | GenericAdapter n refs un => GenericAdapter n (<[Str.trim env := Str.trim key_ref]> refs) un
  | CloudCli k n refs un => CloudCli k n (<[Str.trim env := Str.trim key_ref]> refs) un
  end.

Definition mark_unavailable (env : string) (a : ConfiguredKmsProviderAdapter) : ConfiguredKmsProviderAdapter :=
  match a with
  | GenericAdapter n refs un => GenericAdapter n refs ({[Str.trim env]} ∪ un)
  | CloudCli k n refs un => CloudCli k n refs ({[Str.trim env]} ∪ un)
  end.

Definition clear_unavailable (a : ConfiguredKmsProviderAdapter) : ConfiguredKmsProviderAdapter :=
  match a with
  | GenericAdapter n refs _ => GenericAdapter n refs ∅
  | CloudCli k n refs _ => CloudCli k n refs ∅
  end.

Definition lookup_key_ref (a : ConfiguredKmsProviderAdapter) (env : string) : result (option string) string :=
  let trimmed := Str.trim env in
  match a with
  | GenericAdapter _ refs un => if decide (trimmed ∈ un) then Ok None else Ok (refs !! trimmed)
  | CloudCli kind name refs un =>
      if decide (trimmed ∈ un) then Ok None
      else match refs !! trimmed with
           | None => Ok None
           | Some key_ref =>
               match kind with
               | None => Err ("kms provider kind not configured for " +:+ name)
               | Some kind => let? _ := verify_cloud_kms_key_ref kind key_ref in Ok (Some key_ref)
               end
           end
  end.

(** [KmsProviderChain] *)
Fixpoint chain_lookup (providers : list (string -> result (option string) string)) (env : string)
    : result (option string) string :=
  match providers with
  | [] => Ok None
  | p :: ps => let? v := p env in match v with Some _ => Ok v | None => chain_lookup ps env end
  end.
End Cli.

Example scope_ex :
  (scope_matches "tenants/{tenant}/sql/*" "tenants/acme/sql/execute",
   scope_matches "sql/*" "sql", scope_matches "sql" "sql/x", scope_matches "a/*/b" "a/x/c")
  = (true, true, false, true).
Proof. reflexivity. Qed.

End Auth.

(** * Scopes and key resolution *)

Local Open Scope string_scope.
Local Open Scope list_scope.
Local Open Scope N_scope.
Local Open Scope vng_scope.
Import SqlKind Auth.

(** ** Scope patterns *)

(** A pattern segment that is no star grants a requested segment. *)
Definition segment_ok (allowed requested : string) : Prop :=
  placeholder allowed = true ∧ requested ≠ "" ∨
  placeholder allowed = false ∧ eq_ignore_ascii_case allowed requested = true.

Definition ends_in_star (post requested : list string) : Prop := post = [] ∨ requested ≠ [].

(** What a pattern grants: without a star, as many segments, one by one; with
    one, everything below the segments before the first star, and that node itself
    when the star ends the pattern. *)
Definition grants (allowed requested : list string) : Prop :=
  ("*" ∉ allowed ∧ Forall2 segment_ok allowed requested) ∨
  ∃ pre post req rest, allowed = pre ++ "*" :: post ∧ "*" ∉ pre ∧ requested = req ++ rest ∧
    Forall2 segment_ok pre req ∧ ends_in_star post rest.

Lemma segment_ok_test a r :
  a ≠ "*" →
  segment_ok a r ↔ (if placeholder a then negb (String.eqb r "") else eq_ignore_ascii_case a r) = true.
Proof.
  intros _. unfold segment_ok. destruct (placeholder a); [|naive_solver].
  destruct (String.eqb_spec r ""); naive_solver.
Qed.

Lemma segments_match_cons a allowed r requested :
  a ≠ "*" →
  segments_match (a :: allowed) (r :: requested) = true
  ↔ segment_ok a r ∧ segments_match allowed requested = true.
Proof.
  intros Ha. rewrite segment_ok_test by done. cbn [segments_match].
  destruct (String.eqb_spec a "*"); [done|].
  destruct (placeholder a); [destruct (String.eqb r "")|destruct (eq_ignore_ascii_case a r)];
    cbn [negb]; intuition congruence.
Qed.

Lemma grants_cons a allowed r requested :
  a ≠ "*" → grants (a :: allowed) (r :: requested) ↔ segment_ok a r ∧ grants allowed requested.
Proof.
  intros Ha. unfold grants. split.
  - intros [[Hni Hf]|(pre & post & req & rest & Heq & Hni & Hreq & Hf & Hend)].
    + apply Forall2_cons in Hf as [Hs Hf]. apply not_elem_of_cons in Hni as [_ Hni]. split; [done|]. by left.
    + destruct pre as [|p pre]; [by injection Heq as -> _|]. injection Heq as <- ->.
      destruct req as [|q req]; [by inversion Hf|]. injection Hreq as <- ->.
      apply Forall2_cons in Hf as [Hs Hf]. apply not_elem_of_cons in Hni as [_ Hni].
      split; [done|]. right. by exists pre, post, req, rest.
  - intros [Hs [[Hni Hf]|(pre & post & req & rest & -> & Hni & -> & Hf & Hend)]].
    + left. split; [by apply not_elem_of_cons|by constructor].
    + right. exists (a :: pre), post, (r :: req), rest.
      split_and!; [done|by apply not_elem_of_cons|done|by constructor|done].
Qed.

Lemma grants_star post requested : grants ("*" :: post) requested ↔ ends_in_star post requested.
Proof.
  unfold grants. split.
  - intros [[Hni _]|(pre & post' & req & rest & Heq & Hni & Hreq & Hf & Hend)].
    { exfalso. apply Hni. left. }
    destruct pre as [|p pre]; [|injection Heq as <- ->; exfalso; apply Hni; left].
    injection Heq as <-. inversion Hf; subst. done.
  - intros Hend. right. exists [], post, [], requested. split_and!; [done|apply not_elem_of_nil|done|constructor|done].
Qed.

Lemma grants_nil requested : grants [] requested ↔ requested = [].
Proof.
  unfold grants. split.
  - intros [[_ Hf]|(pre & post & req & rest & Heq & _)]; [by inversion Hf|by destruct pre].
  - intros ->. left. split; [apply not_elem_of_nil|constructor].
Qed.

Lemma grants_short a allowed : a ≠ "*" → ¬ grants (a :: allowed) [].
Proof.
  intros Ha [[_ Hf]|(pre & post & req & rest & Heq & Hni & Hreq & Hf & _)]; [inversion Hf|].
  destruct pre as [|p pre]; [by injection Heq as -> _|]. inversion Hf; subst. done.
Qed.

Lemma segments_match_grants allowed requested :
  segments_match allowed requested = true ↔ grants allowed requested.
Proof.
  revert requested. induction allowed as [|a allowed IH]; intros requested.
  { rewrite grants_nil. by destruct requested. }
  destruct (String.eqb_spec a "*") as [->|Ha].
  { rewrite grants_star. unfold ends_in_star. destruct requested as [|r requested].
    - destruct allowed; [split; auto|]. split; [done|]. by intros [?|?].
    - cbn [segments_match]. split; [by right|done]. }
  destruct requested as [|r requested].
  { split; [|by intros ?%grants_short]. destruct allowed; [|done]. cbn [segments_match].
    by destruct (String.eqb_spec a "*"). }
  by rewrite segments_match_cons, grants_cons, IH.
Qed.

(** A scope pattern grants exactly what its segments say.  After trimming,
    [scope_matches] accepts a request iff the pattern is a single star, or has no
    star and as many segments as the request with each equal up to ASCII case or a
    placeholder, or the segments before its first star match the beginning of the
    request in this way and the request goes further (or the star ends the
    pattern). *)
Theorem scope_matches_exactly (allowed requested : string) :
  scope_matches allowed requested = true
  ↔ Str.trim allowed = "*" ∨ grants (segments (Str.trim allowed)) (segments (Str.trim requested)).
Proof.
  unfold scope_matches. rewrite <- segments_match_grants.
  destruct (String.eqb_spec (Str.trim allowed) "*"); naive_solver.
Qed.

(** ** The privilege matrix *)

(** A matrix grants what one of the grants given to the role grants, whatever the
    spelling of the role's name, and granting takes nothing away. *)
Lemma granted_iff role role' g m res scope action :
  allows role' res scope action (grant_role role g m) = true
  ↔ allows role' res scope action m = true ∨
    role_key role = role_key role' ∧ grant_allows g res scope action = true.
Proof.
  unfold allows, grants_for_role, grant_role. cbn [grants_by_role].
  destruct (decide (role_key role = role_key role')) as [Heq|Hne].
  - rewrite Heq, lookup_insert_eq. cbn [default from_option id]. rewrite existsb_app. cbn [existsb].
    rewrite orb_false_r, orb_true_iff. naive_solver.
  - rewrite lookup_insert_ne by done. naive_solver.
Qed.

(** ** Key resolution *)

(** The key a provider yields for a variable, blank ones left out. *)
Definition usable (lookup : string -> result (option string) string) (env : string) : option string :=
  match lookup env with
  | Ok (Some v) => if String.eqb (Str.trim v) "" then None else Some (Str.trim v)
  | _ => None
  end.

Definition lookup_ok (lookup : string -> result (option string) string) (env : string) : Prop :=
  ∃ v, lookup env = Ok v.

Lemma resolve_loop_cons lookup i env envs :
  lookup_ok lookup env →
  resolve_loop lookup i (env :: envs)
  = match usable lookup env with
    | Some k => Ok (Some (mkResolution env k (0 <? i)%nat))
    | None => resolve_loop lookup (S i) envs
    end.
Proof.
  intros [v Hv]. cbn [resolve_loop]. unfold usable. rewrite Hv.
  destruct v as [v|]; [|done]. by destruct (String.eqb (Str.trim v) "").
Qed.

Lemma resolve_loop_first lookup envs i j env k :
  envs !! j = Some env → usable lookup env = Some k →
  (∀ j' env', (j' < j)%nat → envs !! j' = Some env' → lookup_ok lookup env' ∧ usable lookup env' = None) →
  resolve_loop lookup i envs = Ok (Some (mkResolution env k (0 <? i + j)%nat)).
Proof.
  revert i j. induction envs as [|e envs IH]; intros i j Hj Hk Hall; [done|].
  destruct j as [|j].
  - injection Hj as ->. rewrite resolve_loop_cons, Hk, Nat.add_0_r; [done|].
    unfold usable in Hk. destruct (lookup env) as [v|] eqn:Hl; [by exists v|done].
  - destruct (Hall O e) as [He Hu]; [lia|done|]. rewrite resolve_loop_cons, Hu by done.
    rewrite (IH (S i) j); [by rewrite Nat.add_succ_r|done|done|]. intros j' env' Hlt Hj'.
    apply (Hall (S j')); [lia|done].
Qed.

Lemma resolve_loop_none lookup envs i :
  (∀ env, env ∈ envs → lookup_ok lookup env ∧ usable lookup env = None) →
  resolve_loop lookup i envs = Ok None.
Proof.
  revert i. induction envs as [|e envs IH]; intros i Hall; [done|].
  destruct (Hall e) as [He Hu]; [left|]. rewrite resolve_loop_cons, Hu by done.
  apply IH. intros env Hin. apply Hall. by right.
Qed.

(** Names up to ASCII case. *)
Definition names (l : list string) : list string := map to_ascii_lowercase l.

Lemma candidate_known trimmed cs :
  existsb (fun c => eq_ignore_ascii_case c trimmed) cs = true ↔ to_ascii_lowercase trimmed ∈ names cs.
Proof.
  unfold names. rewrite existsb_exists, list_elem_of_fmap. unfold eq_ignore_ascii_case. split.
  - intros (c & Hin & Heq%String.eqb_eq). exists c. split; [done|]. by apply list_elem_of_In.
  - intros (c & Heq & Hin). exists c. split; [by apply list_elem_of_In|]. by apply String.eqb_eq.
Qed.

Lemma push_candidates_spec envs cs :
  NoDup (names cs) →
  ∃ more, push_candidates envs cs = cs ++ more ∧ NoDup (names (cs ++ more)) ∧
    (∀ c, c ∈ more → c ≠ "" ∧ ∃ env, env ∈ envs ∧ c = Str.trim env) ∧
    ∀ env, env ∈ envs → Str.trim env ≠ "" → to_ascii_lowercase (Str.trim env) ∈ names (cs ++ more).
Proof.
  revert cs. induction envs as [|env envs IH]; intros cs Hnd; cbn [push_candidates].
  { exists []. rewrite app_nil_r. split_and!; [done|done|by intros c ?%not_elem_of_nil|by intros env ?%not_elem_of_nil]. }
  destruct (String.eqb_spec (Str.trim env) "") as [Hb|Hb];
    [|destruct (existsb _ cs) eqn:Hk].
  1, 2: destruct (IH cs Hnd) as (more & -> & Hnd' & Hfrom & Hall); exists more; split_and!; try done;
    [intros c Hc; destruct (Hfrom c Hc) as (? & e & ? & ?); split; [done|]; exists e; split; [by right|done]
    |intros e [->|He]%elem_of_cons Hne; [|by apply Hall]].
  1: done.
  { apply candidate_known in Hk. unfold names in *. rewrite map_app. apply elem_of_app. by left. }
  apply not_true_iff_false in Hk. rewrite candidate_known in Hk.
  destruct (IH (cs ++ [Str.trim env])) as (more & -> & Hnd' & Hfrom & Hall).
  { unfold names in *. rewrite map_app. apply NoDup_app. split_and!; [done| |apply NoDup_singleton].
    intros x Hx ->%list_elem_of_singleton. done. }
  exists (Str.trim env :: more). rewrite <- app_assoc in *. cbn [app] in *. split_and!; [done|done| |].
  - intros c [->|Hc]%elem_of_cons; [split; [done|]; exists env; split; [left|done]|].
    destruct (Hfrom c Hc) as (? & e & ? & ?). split; [done|]. exists e. split; [by right|done].
  - intros e [->|He]%elem_of_cons Hne; [|by apply Hall].
    unfold names. rewrite map_app. apply elem_of_app. right. left.
Qed.

(** The variables that are tried: the primary one first, every configured one that
    is not blank, none twice. *)
Lemma candidates_spec c :
  NoDup (names (kms_key_candidates c)) ∧
  (is_blank (kms_key_ref_env c) = false → kms_key_candidates c !! 0%nat = Some (Str.trim (kms_key_ref_env c))) ∧
  ∀ env, env ∈ kms_failover_key_ref_envs c → Str.trim env ≠ "" →
    to_ascii_lowercase (Str.trim env) ∈ names (kms_key_candidates c).
Proof.
  unfold kms_key_candidates. set (cs := if is_blank _ then [] else _).
  destruct (push_candidates_spec (kms_failover_key_ref_envs c) cs) as (more & -> & Hnd & _ & Hall).
  { unfold cs. destruct (is_blank _); [constructor|apply NoDup_singleton]. }
  split_and!; [done| |done]. intros Hb. unfold cs. by rewrite Hb.
Qed.

(** Failover picks the first usable key.  With a provider that answers, the
    resolution tries the primary variable and then the failover variables, none of
    them twice; it returns the first with a key that is not blank, marks a failover
    exactly when that is not the first, and fails only when none has one. *)
Theorem resolution_is_first_usable (lookup : string -> result (option string) string)
    (c : SecurityConfigContract) :
  (∀ env, env ∈ kms_key_candidates c → lookup_ok lookup env) →
  NoDup (names (kms_key_candidates c)) ∧
  match resolve_kms_key_ref_with_provider lookup c with
  | Ok r => ∃ j, kms_key_candidates c !! j = Some (selected_env r) ∧
      usable lookup (selected_env r) = Some (key_ref r) ∧ failover_used r = (0 <? j)%nat ∧
      ∀ j' env, (j' < j)%nat → kms_key_candidates c !! j' = Some env → usable lookup env = None
  | Err _ => ∀ env, env ∈ kms_key_candidates c → usable lookup env = None
  end.
Proof.
  intros Hok. split; [apply candidates_spec|].
  unfold resolve_kms_key_ref_with_provider, resolve_with.
  destruct (list_find (fun env => is_Some (usable lookup env)) (kms_key_candidates c)) as [[j env]|] eqn:Hf.
  - apply list_find_Some in Hf as (Hj & [k Hk] & Hbefore).
    erewrite (resolve_loop_first lookup _ 0 j env k); [|done|done|].
    + cbn. exists j. split_and!; [done|done|done|]. intros j' e Hlt He.
      apply eq_None_not_Some. by apply (Hbefore j' e He).
    + intros j' e Hlt He. split; [apply Hok; by eapply list_elem_of_lookup_2|].
      apply eq_None_not_Some. by apply (Hbefore j' e He).
  - apply list_find_None in Hf. rewrite Forall_forall in Hf.
    rewrite resolve_loop_none; [|intros e He; split; [by apply Hok|apply eq_None_not_Some; by apply Hf]].
    cbn. intros e He. apply eq_None_not_Some. by apply Hf.
Qed.

Definition demo_config : SecurityConfigContract :=
  mkConfig "K" "x-k" true false true "PRIMARY" [" backup "; "primary"; "third"] ["dba"] 60.

Definition demo_keys (env : string) : result (option string) string :=
  Ok ((<["PRIMARY" := "  "]> {["backup" := " arn:k "]} : gmap string string) !! env).

Lemma resolution_is_first_usable_witness :
  kms_key_candidates demo_config = ["PRIMARY"; "backup"; "third"] ∧
  match resolve_kms_key_ref_with_provider demo_keys demo_config with
  | Ok r => selected_env r = "backup" ∧ failover_used r = true ∧
            usable demo_keys (selected_env r) = Some (key_ref r)
  | Err _ => False
  end.
Proof.
  split; [vm_compute; reflexivity|].
  pose proof (resolution_is_first_usable demo_keys demo_config (fun env _ => ex_intro _ _ eq_refl)) as [_ H].
  revert H. vm_compute. intros (j & _ & H & _). split; [reflexivity|]. split; [reflexivity|exact H].
Defined.
