(* ===== verification/UserStore.v ===== *)
(** * Accounts, sessions and session tokens
      ([services/voltnuerongridd/src/user_store.rs])

    The two maps of the account store, the session store, the token signer and the
    line that records an account in the statement log.  HMAC, SHA-256 and base64
    are parameters; the clock is an argument. *)

From S2P Require Import Prelude Str Decimal SqlKind.
Local Open Scope string_scope.
Local Open Scope list_scope.
Local Open Scope N_scope.
Local Open Scope vng_scope.

(** What the token format uses of the cryptographic crates. *)
Class TokenCrypto := {
  hmac_sha256 : string -> string -> string;
  sha256_hex : string -> string;
  b64_encode : string -> string;
  b64_decode : string -> option string;
}.

Class TokenLaws `{!TokenCrypto} : Prop := {
  b64_roundtrip : ∀ s, b64_decode (b64_encode s) = Some s;
  (** [.] is not in the URL-safe alphabet *)
  b64_no_dot : ∀ s, Str.split_once "." (b64_encode s) = None;
}.

Module UserStore.
Import SqlKind Dec.

(** ** Accounts *)

Record UserAccount := mkAccount {
  user_id : string;
  username : string;
  role : string;
  tenant_id : option string;
  created_ms : N;
  password_hash : string;
}.

Record UserStore := mkStore {
  by_username : gmap string UserAccount;
  by_id : gmap string string;
}.

Definition new : UserStore := mkStore ∅ ∅.

Definition insert (a : UserAccount) (s : UserStore) : UserStore :=
  mkStore (<[to_ascii_lowercase (username a) := a]> (by_username s))
          (<[user_id a := username a]> (by_id s)).

Definition get_by_username (name : string) (s : UserStore) : option UserAccount :=
  by_username s !! to_ascii_lowercase name.

Definition get_by_id (id : string) (s : UserStore) : option UserAccount :=
  match by_id s !! id with
  | Some name => by_username s !! name
  | None => None
  end.

Definition remove_by_id (id : string) (s : UserStore) : bool * UserStore :=
  match by_id s !! id with
  | Some name => (true, mkStore (base.delete name (by_username s)) (base.delete id (by_id s)))
  | None => (false, s)
  end.

(** ** Sessions, by the fingerprint of their token *)

Record SessionEntry := mkSession {
  s_user_id : string;
  s_username : string;
  s_role : string;
  s_tenant_id : option string;
  expires_at_secs : N;
}.

Abbreviation SessionStore := (gmap string SessionEntry).

Definition session_lookup (now : N) (fp : string) (s : SessionStore) : option SessionEntry :=
  match s !! fp with
  | Some e => if expires_at_secs e <? now then None else Some e
  | None => None
  end.

Definition session_insert (fp : string) (e : SessionEntry) (s : SessionStore) : SessionStore := <[fp := e]> s.

Definition remove_by_user (id : string) (s : SessionStore) : SessionStore :=
  filter (fun kv => s_user_id kv.2 ≠ id) s.

Definition remove_by_fingerprint (fp : string) (s : SessionStore) : SessionStore := base.delete fp s.

Definition sessions_for_user `{!MapOrder SessionEntry} (now : N) (id : string) (s : SessionStore) : list string :=
  map fst (List.filter (fun kv => String.eqb (s_user_id kv.2) id && (now <=? expires_at_secs kv.2)) (iter_map s)).

(** ** Tokens *)

Section Signer.
Context `{!TokenCrypto}.

Record SessionSigner := mkSigner { secret : string; ttl_secs : N }.

Definition sign (k : SessionSigner) (data : string) : string := b64_encode (hmac_sha256 (secret k) data).

Definition issue (now : N) (k : SessionSigner) (id : string) : string :=
  let expires_at := u64_add now (ttl_secs k) in
  let header := id +:+ ":" +:+ to_string expires_at in
  let header_b64 := b64_encode header in
  header_b64 +:+ "." +:+ sign k header_b64.

(** [String::from_utf8] *)
Definition from_utf8 (s : string) : option string :=
  if String.eqb (from_utf8_lossy s) s then Some s else None.

Definition verify (now : N) (k : SessionSigner) (token : string) : option (string * N) :=
  let! (header_b64, sig_b64) := Str.split_once "." token in
  if negb (String.eqb (sign k header_b64) sig_b64) then None
  else
    let! bytes := b64_decode header_b64 in
    let! header := from_utf8 bytes in
    let! (id, expires_str) := Str.split_once ":" header in
    let! expires_at := parse u64_max expires_str in
    if expires_at <? now then None else Some (id, expires_at).

Definition fingerprint (token : string) : string := sha256_hex token.
End Signer.

(** ** The line of an account in the statement log *)

Definition user_to_wal (a : UserAccount) : string :=
  "CREATE USER " +:+ Str.join Str.TAB
    [username a; role a; default "null" (tenant_id a); user_id a; to_string (created_ms a); password_hash a].

Definition user_from_wal (line : string) : option UserAccount :=
  let! rest := Str.strip_prefix "CREATE USER " line in
  match Str.splitn 6 Str.TAB rest with
  | [n; r; t; i; c; h] =>
      let! created := parse u64_max c in
      Some (mkAccount i n r (if String.eqb t "null" then None else Some t) created h)
  | _ => None
  end.

End UserStore.
