(* ===== verification/AccessControl.v ===== *)
(** * Who may do what: the access checks of the HTTP handlers
      ([services/voltnuerongridd/src/auth.rs], the default matrix of [helpers/boot.rs])

    Operators are known by the admin key and a bound operator id, users by a
    session token or by tenant headers; the privilege matrix decides the rest.
    Errors keep their status and reason; the localised message is left out. *)

From S2P Require Import Prelude Str SqlKind Auth UserStore.
From Stdlib Require Import Ascii.
Local Open Scope string_scope.
Local Open Scope list_scope.
Local Open Scope N_scope.
Local Open Scope vng_scope.

(** [HeaderValue::to_str] *)
Class HeaderText := { to_str : string -> option string }.

Module Access.
Import SqlKind Auth UserStore.

Inductive OperatorRole := Dba | Sre | Security | AiOperator.

#[export] Instance OperatorRole_eq_dec : EqDecision OperatorRole.
Proof. solve_decision. Defined.

Definition parse_role (v : string) : option OperatorRole :=
  let v := to_ascii_lowercase (Str.trim v) in
  if String.eqb v "dba" || String.eqb v "admin" then Some Dba
  else if String.eqb v "sre" then Some Sre
  else if String.eqb v "security" || String.eqb v "secops" then Some Security
  else if String.eqb v "ai_operator" || String.eqb v "ai-operator" || String.eqb v "autonomous"
  then Some AiOperator
  else None.

Definition role_str (r : OperatorRole) : string :=
  match r with Dba => "dba" | Sre => "sre" | Security => "security" | AiOperator => "ai_operator" end.

Definition CONTROL_PLANE_OPERATOR_ROLES : list OperatorRole := [Dba; Sre; Security; AiOperator].

Record OperatorIdentity := mkOperator { operator_id : string; op_role : OperatorRole }.

Record TenantUserBinding := mkBinding { b_tenant_id : string; b_role : string }.

Record TenantUserIdentity := mkTenantUser { tu_user_id : string; tu_tenant_id : string; tu_role : string }.

Inductive RuntimeAccessPrincipal :=
| Operator (o : OperatorIdentity)
| TenantUser (u : TenantUserIdentity).

Record AuthState := mkAuth {
  admin_api_key : option string;
  allowed_operator_roles : list OperatorRole;
  operator_role_bindings : gmap string OperatorRole;
  tenant_user_bindings : gmap string TenantUserBinding;
  rbac_privilege_matrix : RbacPrivilegeMatrix;
  db_grants : gmap string (gset string);
  sessions : SessionStore;
}.

(** ** Errors *)

Record HttpError := mkHttp { status : N; reason : string }.

Definition auth_error (r : string) : HttpError := mkHttp 401 r.
Definition forbidden_error (r : string) : HttpError := mkHttp 403 r.

Section Access.
Context `{!TokenCrypto} `{!HeaderText}.

(** The headers of a request, by lower-case name. *)
Abbreviation HeaderMap := (gmap string string).

Definition header (h : HeaderMap) (name : string) : option string :=
  match h !! name with Some v => to_str v | None => None end.

(** ** Identities *)

Definition operator_identity_from_headers (h : HeaderMap) (a : AuthState) : option OperatorIdentity :=
  let! id := header h "x-vng-operator-id" in
  let id := Str.trim id in
  if String.eqb id "" then None
  else let! r := operator_role_bindings a !! id in Some (mkOperator id r).

Definition tenant_user_identity_from_headers (h : HeaderMap) (a : AuthState) : option TenantUserIdentity :=
  let! uid := header h "x-vng-user-id" in
  let! tid := header h "x-vng-tenant-id" in
  let uid := Str.trim uid in
  let tid := Str.trim tid in
  if String.eqb uid "" || String.eqb tid "" then None
  else
    let! b := tenant_user_bindings a !! uid in
    if negb (eq_ignore_ascii_case (b_tenant_id b) tid) then None
    else Some (mkTenantUser uid tid (b_role b)).

Definition principal_of_session (e : SessionEntry) : RuntimeAccessPrincipal :=
  match parse_role (s_role e) with
  | Some r => Operator (mkOperator (s_user_id e) r)
  | None => TenantUser (mkTenantUser (s_user_id e) (default "" (s_tenant_id e)) (s_role e))
  end.

Definition session_identity_from_headers (now : N) (h : HeaderMap) (a : AuthState)
    : option RuntimeAccessPrincipal :=
  let! auth_header := header h "authorization" in
  let! token := Str.strip_prefix "Bearer " auth_header in
  let token := Str.trim token in
  if String.eqb token "" then None
  else let! e := session_lookup now (fingerprint token) (sessions a) in Some (principal_of_session e).

(** ** Checks *)

Definition provided_key (h : HeaderMap) : string := default "" (header h "x-vng-admin-key").

Definition require_admin_api_key (h : HeaderMap) (a : AuthState) : result unit HttpError :=
  match admin_api_key a with
  | None => Err (auth_error "missing_or_invalid_admin_key")
  | Some required =>
      if String.eqb (provided_key h) required then Ok tt
      else Err (auth_error "missing_or_invalid_admin_key")
  end.

Definition require_operator_auth (h : HeaderMap) (a : AuthState) : result unit HttpError :=
  match admin_api_key a with
  | None => Err (auth_error "missing_or_invalid_admin_key")
  | Some required =>
      if negb (String.eqb (provided_key h) required)
      then Err (auth_error "missing_or_invalid_admin_key")
      else
        match operator_identity_from_headers h a with
        | None => Err (auth_error "missing_or_invalid_operator_identity")
        | Some o =>
            if negb (bool_decide (op_role o ∈ allowed_operator_roles a))
            then Err (auth_error "operator_role_not_allowed")
            else if negb (bool_decide (op_role o ∈ CONTROL_PLANE_OPERATOR_ROLES))
            then Err (auth_error "operator_role_not_authorized")
            else Ok tt
        end
  end.

Definition require_operator_privilege (h : HeaderMap) (a : AuthState) (res scope : string)
    (action : PrivilegeAction) : result OperatorIdentity HttpError :=
  match operator_identity_from_headers h a with
  | None => Err (auth_error "missing_or_invalid_operator_identity")
  | Some o =>
      if allows (role_str (op_role o)) res scope action (rbac_privilege_matrix a) then Ok o
      else Err (forbidden_error "insufficient_privilege")
  end.

Definition require_cluster_failover_privilege (h : HeaderMap) (a : AuthState) (action : PrivilegeAction)
    : result OperatorIdentity HttpError :=
  let? _ := require_operator_auth h a in
  require_operator_privilege h a "cluster.failover" "cluster" action.

Definition tenant_scoped_scope (tenant scope : string) : string :=
  "tenants/" +:+ tenant +:+ "/" +:+ Str.trim_start_matches ["/"] scope.

Definition require_tenant_user_privilege (h : HeaderMap) (a : AuthState) (res scope : string)
    (action : PrivilegeAction) : result TenantUserIdentity HttpError :=
  match tenant_user_identity_from_headers h a with
  | None => Err (auth_error "missing_or_invalid_user_identity")
  | Some u =>
      if allows (tu_role u) res (tenant_scoped_scope (tu_tenant_id u) scope) action (rbac_privilege_matrix a)
      then Ok u else Err (forbidden_error "insufficient_privilege")
  end.

Definition has_operator_headers (h : HeaderMap) : bool :=
  bool_decide (is_Some (h !! "x-vng-admin-key")) || bool_decide (is_Some (h !! "x-vng-operator-id")).

Definition require_runtime_principal (now : N) (h : HeaderMap) (a : AuthState) (res scope : string)
    (action : PrivilegeAction) : result RuntimeAccessPrincipal HttpError :=
  if has_operator_headers h then
    let? _ := require_operator_auth h a in
    let? o := require_operator_privilege h a res scope action in Ok (Operator o)
  else
    match session_identity_from_headers now h a with
    | Some p => Ok p
    | None => let? u := require_tenant_user_privilege h a res scope action in Ok (TenantUser u)
    end.

Definition require_sql_runtime_principal now h a (action : PrivilegeAction) (scope : string) :=
  require_runtime_principal now h a "sql.runtime" scope action.

Definition require_ingest_runtime_privilege now h a (action : PrivilegeAction) (scope : string) :=
  require_runtime_principal now h a "ingest.connectors" scope action.

Definition require_store_runtime_principal now h a (action : PrivilegeAction) (scope : string) :=
  require_runtime_principal now h a "storage.catalog" scope action.

Definition require_audit_runtime_principal now h a (action : PrivilegeAction) (scope : string) :=
  require_runtime_principal now h a "observability.audit" scope action.

Definition require_autonomous_records_runtime_principal now h a (action : PrivilegeAction) (scope : string) :=
  require_runtime_principal now h a "observability.autonomous_records" scope action.

(** ** Tables and databases *)

Definition store_table_matches_tenant_namespace (table tenant : string) : bool :=
  let t := to_ascii_lowercase (Str.trim table) in
  let n := to_ascii_lowercase (Str.trim tenant) in
  Str.starts_with ("tenant/" +:+ n +:+ "/") t
  || Str.starts_with ("tenant_" +:+ n +:+ "_") t
  || Str.starts_with (n +:+ ".") t.

Definition ensure_store_table_access (p : RuntimeAccessPrincipal) (table : string) : result unit HttpError :=
  match p with
  | Operator _ => Ok tt
  | TenantUser u =>
      if store_table_matches_tenant_namespace table (tu_tenant_id u) then Ok tt
      else Err (forbidden_error "insufficient_privilege")
  end.

Definition principal_has_database_access (p : RuntimeAccessPrincipal) (database : string) (a : AuthState) : bool :=
  match p with
  | Operator o =>
      if bool_decide (op_role o = Dba) then true
      else
        allows (role_str (op_role o)) ("database/" +:+ database) "sql" Execute (rbac_privilege_matrix a)
        || allows (role_str (op_role o)) "database/*" "sql" Execute (rbac_privilege_matrix a)
  | TenantUser u =>
      match db_grants a !! database with
      | Some roles => bool_decide (tu_role u ∈ roles)
      | None => false
      end
  end.
End Access.

(** ** The default matrix *)

(** [matrix.grant_role] for each role of a list and each grant of a list, in the
    order of the nested loops. *)
Definition grant_all (roles : list string) (gs : list ResourceGrant) (m : RbacPrivilegeMatrix)
    : RbacPrivilegeMatrix :=
  fold_left (fun m r => fold_left (fun m g => grant_role r g m) gs m) roles m.

Definition dba_grants : list ResourceGrant :=
  [mkGrant "sql.runtime" ["sql/*"] [Read; Execute];
   mkGrant "cluster.failover" ["cluster"] [Read; Execute; Manage];
   mkGrant "cluster.sre" ["sre/*"] [Read; Execute; Manage];
   mkGrant "cluster.dr_hooks" ["dr_hooks/*"] [Read; Execute; Manage];
   mkGrant "storage.catalog" ["store/*"] [Read; Write; Manage];
   mkGrant "ingest.connectors" ["ingest/*"] [Read; Write; Manage];
   mkGrant "compliance" ["*"] [Read];
   mkGrant "audit" ["*"] [Read; Execute]].

Definition tenant_grants : list ResourceGrant :=
  [mkGrant "sql.runtime" ["tenants/{tenant}/sql/*"] [Read; Execute];
   mkGrant "ingest.connectors" ["tenants/{tenant}/ingest/*"] [Read; Write];
   mkGrant "storage.catalog"
     ["tenants/{tenant}/store/indexes"; "tenants/{tenant}/store/indexes/lookup";
      "tenants/{tenant}/store/constraints/validate"] [Read];
   mkGrant "observability.audit" ["tenants/{tenant}/audit/events"] [Read];
   mkGrant "observability.autonomous_records" ["tenants/{tenant}/autonomous/records"] [Read]].

Definition tenant_admin_grants : list ResourceGrant :=
  [mkGrant "storage.catalog" ["tenants/{tenant}/store/indexes"; "tenants/{tenant}/store/constraints"] [Manage]].

Definition kms_grants : list ResourceGrant :=
  [mkGrant "observability.audit" ["audit/*"] [Read];
   mkGrant "security.kms"
     ["security/kms"; "security/kms/outage"; "security/kms/rotate"; "security/tls/status";
      "security/tls/rotate"; "security/tde/status"; "security/tde/toggle"] [Read; Manage];
   mkGrant "security.supply_chain" ["security/plugins/provenance/*"] [Read; Manage]].

(** Operations: audit, reliability, failover, guardrails, autonomous actions. *)
Definition operations_grants (m : RbacPrivilegeMatrix) : RbacPrivilegeMatrix :=
  let m := grant_all ["dba"; "sre"] [mkGrant "observability.audit" ["audit/*"] [Read]] m in
  let m := grant_all ["dba"; "sre"; "security"]
             [mkGrant "cluster.sre" ["sre/reliability"; "sre/failure_budget"; "sre/gate"] [Read]] m in
  let m := grant_all ["dba"; "sre"]
             [mkGrant "cluster.failover" ["cluster"] [Read; Execute];
              mkGrant "cluster.dr_hooks" ["dr_hooks/*"] [Read; Execute];
              mkGrant "cluster.sre" ["sre/*"] [Read; Execute]] m in
  let m := grant_all ["dba"; "security"; "ai_operator"]
             [mkGrant "autonomous.guardrails" ["autonomous/*"] [Read]] m in
  let m := grant_all ["dba"; "ai_operator"] [mkGrant "autonomous.guardrails" ["autonomous/*"] [Execute]] m in
  let m := grant_all ["dba"; "security"]
             [mkGrant "autonomous.guardrails" ["autonomous/emergency_stop"] [Manage]] m in
  grant_all ["dba"; "ai_operator"]
    [mkGrant "autonomous.actions" ["autonomous/actions"] [Execute];
     mkGrant "observability.autonomous_records" ["autonomous/records"] [Read]] m.

(** Keys for the SRE role, AI policy, audit export, and the AI assistants. *)
Definition governance_grants (m : RbacPrivilegeMatrix) : RbacPrivilegeMatrix :=
  let m := grant_all ["sre"]
             [mkGrant "security.kms" ["security/kms"; "security/tls/status"; "security/tde/status"] [Read]] m in
  let m := grant_all ["dba"; "security"; "ai_operator"] [mkGrant "ai.governance" ["ai/policy"] [Read]] m in
  let m := grant_all ["dba"; "security"] [mkGrant "ai.governance" ["ai/policy"] [Manage]] m in
  let m := grant_all ["dba"; "security"] [mkGrant "audit.read" ["audit/export"] [Read]] m in
  let m := grant_all ["dba"; "ai_operator"] [mkGrant "ai.chat" ["*"] [Execute]] m in
  let m := grant_all ["dba"; "ai_operator"]
             [mkGrant "ai.ingest" ["*"] [Execute]; mkGrant "ai.export" ["*"] [Execute]] m in
  grant_all ["dba"; "ai_operator"] [mkGrant "ai.tune" ["*"] [Read; Execute]] m.

Definition default_rbac_privilege_matrix : RbacPrivilegeMatrix :=
  let m := grant_all ["dba"] dba_grants Auth.new in
  let m := grant_all ["tenant_analyst"; "tenant_admin"] tenant_grants m in
  let m := grant_all ["tenant_admin"] tenant_admin_grants m in
  let m := operations_grants m in
  let m := grant_all ["dba"; "security"] kms_grants m in
  governance_grants m.

End Access.

(** * Who may do what *)

Local Open Scope string_scope.
Local Open Scope list_scope.
Local Open Scope N_scope.
Local Open Scope vng_scope.
Import SqlKind Auth UserStore Access.

(** ** The access decision *)

Section Decision.
Context `{!TokenCrypto} `{!HeaderText}.

(** An operator proves the admin key and a bound id of an allowed role. *)
Definition proven_operator (h : gmap string string) (a : AuthState) (o : OperatorIdentity) : Prop :=
  (∃ key, admin_api_key a = Some key ∧ provided_key h = key) ∧
  operator_identity_from_headers h a = Some o ∧ op_role o ∈ allowed_operator_roles a.

Lemma require_operator_auth_iff h a :
  require_operator_auth h a = Ok tt ↔ ∃ o, proven_operator h a o.
Proof.
  unfold require_operator_auth, proven_operator.
  destruct (admin_api_key a) as [key|]; [|naive_solver].
  destruct (String.eqb_spec (provided_key h) key) as [Hk|Hk]; cbn [negb]; [|naive_solver].
  destruct (operator_identity_from_headers h a) as [o|]; [|naive_solver].
  destruct (bool_decide (op_role o ∈ allowed_operator_roles a)) eqn:Ha; cbn [negb].
  - assert (bool_decide (op_role o ∈ CONTROL_PLANE_OPERATOR_ROLES) = true) as ->
      by (apply bool_decide_eq_true; unfold CONTROL_PLANE_OPERATOR_ROLES; destruct (op_role o); set_solver).
    apply bool_decide_eq_true in Ha. cbn. naive_solver.
  - apply bool_decide_eq_false in Ha. naive_solver.
Qed.

End Decision.

(** ** The default matrix *)

#[local] Opaque default_rbac_privilege_matrix.

Abbreviation operator_rows := (grants_by_role default_rbac_privilege_matrix).

Definition known_roles : list string := ["dba"; "sre"; "security"; "ai_operator"; "tenant_analyst"; "tenant_admin"].

Lemma default_roles : Forall (fun r => r ∈ known_roles) (elements (dom operator_rows)).
Proof. apply (bool_decide_unpack _). vm_compute. exact I. Qed.

Lemma default_unknown role :
  role_key role ∉ known_roles → grants_for_role role default_rbac_privilege_matrix = [].
Proof.
  intros Hr. unfold grants_for_role.
  destruct (operator_rows !! role_key role) eqn:Hl; [|done]. exfalso. apply Hr.
  pose proof default_roles as Hall. rewrite Forall_forall in Hall.
  apply Hall, elem_of_elements, elem_of_dom. by eexists.
Qed.

(** The grants of a role on one resource. *)
Definition on_resource (res : string) (g : ResourceGrant) : bool := eq_ignore_ascii_case (resource g) res.

Lemma allows_filtered role res scope action m :
  allows role res scope action m = true
  ↔ ∃ g, g ∈ List.filter (on_resource res) (grants_for_role role m) ∧
      action ∈ actions g ∧ ∃ s, s ∈ scopes g ∧ scope_matches s scope = true.
Proof.
  unfold allows. rewrite existsb_exists. split.
  - intros (g & Hin & Hg). unfold grant_allows in Hg.
    apply andb_true_iff in Hg as [[Hr Ha%bool_decide_eq_true]%andb_true_iff Hs].
    apply existsb_exists in Hs as (s & Hs & Hm). exists g.
    split; [apply list_elem_of_In, filter_In; by split|]. split; [done|].
    exists s. split; [by apply list_elem_of_In|done].
  - intros (g & Hin & Ha & s & Hs & Hm). apply list_elem_of_In, filter_In in Hin as [Hin Hr].
    exists g. split; [done|]. unfold grant_allows. unfold on_resource in Hr. rewrite Hr, bool_decide_true by done.
    apply existsb_exists. exists s. split; [by apply list_elem_of_In|done].
Qed.

Definition data_resources : list string := ["sql.runtime"; "ingest.connectors"; "storage.catalog"].

(** The scopes of a role on the data resources. *)
Definition data_scopes (role : string) : list string :=
  concat (map (fun res => concat (map scopes (List.filter (on_resource res)
    (default [] (operator_rows !! role))))) data_resources).

Lemma data_scopes_covers role res scope action :
  res ∈ data_resources → allows role res scope action default_rbac_privilege_matrix = true →
  ∃ s, s ∈ data_scopes (role_key role) ∧ scope_matches s scope = true.
Proof.
  intros Hres (g & Hg & _ & s & Hs & Hm)%allows_filtered. exists s. split; [|done].
  apply list_elem_of_In. apply in_concat. eexists. split.
  { apply in_map_iff. exists res. split; [reflexivity|]. by apply list_elem_of_In. }
  apply in_concat. exists (scopes g). split; [|by apply list_elem_of_In].
  apply in_map. by apply list_elem_of_In.
Qed.

(** The first segment of what a pattern with a literal first segment grants. *)
Lemma scope_head a allowed requested :
  segments_match (a :: allowed) requested = true → a ≠ "*" → placeholder a = false →
  ∃ r rest, requested = r :: rest ∧ eq_ignore_ascii_case a r = true.
Proof.
  intros Hm Ha Hp. apply segments_match_grants in Hm. destruct requested as [|r rest].
  - by apply grants_short in Hm.
  - apply grants_cons in Hm as [[[? _]|[_ Hs]] _]; [congruence| |done]. by exists r, rest.
Qed.

Definition head_is (w scope : string) : Prop :=
  ∃ r rest, segments (Str.trim scope) = r :: rest ∧ eq_ignore_ascii_case w r = true.

Lemma pattern_head pat a rest scope :
  segments (Str.trim pat) = a :: rest → a ≠ "*" → placeholder a = false → Str.trim pat ≠ "*" →
  scope_matches pat scope = true → head_is a scope.
Proof.
  intros Hs Ha Hp Hne Hm. unfold scope_matches in Hm. destruct (String.eqb_spec (Str.trim pat) "*"); [done|].
  rewrite Hs in Hm. by apply scope_head in Hm.
Qed.

(** The first segment of the data patterns of each role. *)
Definition heads (role : string) : list string :=
  omap (fun s => segments (Str.trim s) !! 0%nat) (data_scopes role).

Lemma data_scope_head role scope :
  role ∈ known_roles → (∃ s, s ∈ data_scopes role ∧ scope_matches s scope = true) →
  ∃ w, w ∈ heads role ∧ head_is w scope.
Proof.
  intros Hrole (s & Hs & Hm).
  assert (∃ a rest, segments (Str.trim s) = a :: rest ∧ a ≠ "*" ∧ placeholder a = false ∧ Str.trim s ≠ "*")
    as (a & rest & Hseg & Ha & Hp & Hne).
  { revert s Hs Hm. enough (Forall (fun role => Forall (fun s =>
      match segments (Str.trim s) with
      | a :: _ => negb (String.eqb a "*") && negb (placeholder a) && negb (String.eqb (Str.trim s) "*")
      | [] => false end = true) (data_scopes role)) known_roles) as Hall.
    { intros s Hs _. rewrite Forall_forall in Hall. specialize (Hall role Hrole).
      rewrite Forall_forall in Hall. specialize (Hall s Hs).
      destruct (segments (Str.trim s)) as [|a rest]; [done|].
      apply andb_true_iff in Hall as [[Ha Hp]%andb_true_iff Hn]. exists a, rest.
      apply negb_true_iff in Ha, Hp, Hn. apply String.eqb_neq in Ha, Hn. done. }
    apply (bool_decide_unpack _). vm_compute. exact I. }
  exists a. split; [|by eapply pattern_head].
  unfold heads. apply list_elem_of_omap. exists s. split; [done|]. by rewrite Hseg.
Qed.

Lemma heads_by_role :
  Forall (fun role => Forall (fun w =>
    (role = "dba" ∧ w ∈ ["sql"; "ingest"; "store"]) ∨
    (role ∈ ["tenant_analyst"; "tenant_admin"] ∧ w = "tenants")) (heads role)) known_roles.
Proof. apply (bool_decide_unpack _). vm_compute. exact I. Qed.

#[local] Opaque heads.

(** The default matrix separates tenants from operators.  On the SQL, ingest
    and storage resources it grants something only to [dba], whose scopes all lie
    below [sql], [ingest] or [store], and to the two tenant roles, whose scopes all
    lie below [tenants]: no other role has any, and no scope is granted to both
    sides. *)
Theorem default_matrix_separates (role res scope : string) (action : PrivilegeAction) :
  res ∈ data_resources →
  allows role res scope action default_rbac_privilege_matrix = true →
  (role_key role = "dba" ∧ (head_is "sql" scope ∨ head_is "ingest" scope ∨ head_is "store" scope)
   ∧ ¬ head_is "tenants" scope) ∨
  ((role_key role = "tenant_analyst" ∨ role_key role = "tenant_admin") ∧ head_is "tenants" scope).
Proof.
  intros Hres Hal. pose proof (data_scopes_covers _ _ _ _ Hres Hal) as Hcov.
  destruct (decide (role_key role ∈ known_roles)) as [Hk|Hk].
  2: { rewrite allows_filtered, default_unknown in Hal by done. destruct Hal as (g & Hg & _).
       by apply not_elem_of_nil in Hg. }
  destruct (data_scope_head _ _ Hk Hcov) as (w & Hw & Hhead).
  assert (∀ v, head_is v scope → eq_ignore_ascii_case v w = true) as Hsame.
  { intros v (r & rest & Hr & Hv). destruct Hhead as (r' & rest' & Hr' & Hw'). rewrite Hr in Hr'.
    injection Hr' as <- <-. unfold eq_ignore_ascii_case in *. apply String.eqb_eq in Hv, Hw'.
    apply String.eqb_eq. congruence. }
  pose proof heads_by_role as Hall. rewrite Forall_forall in Hall.
  specialize (Hall _ Hk). rewrite Forall_forall in Hall. destruct (Hall w Hw) as [[Hr Hin]|[Hr ->]].
  - left. split; [exact Hr|]. split.
    + apply elem_of_cons in Hin as [->|Hin]; [by left|]. apply elem_of_cons in Hin as [->|Hin]; [by right; left|].
      apply list_elem_of_singleton in Hin as ->. by right; right.
    + intros Ht%Hsame. apply elem_of_cons in Hin as [->|Hin]; [discriminate Ht|].
      apply elem_of_cons in Hin as [->|Hin]; [discriminate Ht|].
      apply list_elem_of_singleton in Hin as ->. discriminate Ht.
  - right. split; [|exact Hhead]. apply elem_of_cons in Hr as [Hr|Hr]; [by left|].
    apply list_elem_of_singleton in Hr. by right.
Qed.

Lemma default_matrix_separates_witness :
  allows " Tenant_Admin" "SQL.runtime" "Tenants/acme/sql/execute" Execute default_rbac_privilege_matrix = true ∧
  head_is "tenants" "Tenants/acme/sql/execute".
Proof.
  assert (allows " Tenant_Admin" "SQL.runtime" "Tenants/acme/sql/execute" Execute default_rbac_privilege_matrix
          = true) as Ha by (vm_compute; reflexivity).
  split; [exact Ha|].
  destruct (default_matrix_separates " Tenant_Admin" "sql.runtime" "Tenants/acme/sql/execute" Execute)
    as [(H & _)|(_ & H)]; [left|vm_compute; reflexivity|vm_compute in H; discriminate H|exact H].
Defined.

(** ** Tenant namespaces *)

Definition separator (c : ascii) : bool := existsb (Ascii.eqb c) ["/"; "_"; "."]%char.

(** The text before the first separator, and the rest from it on. *)
Fixpoint word (s : string) : string * string :=
  match s with
  | EmptyString => ("", "")
  | String c s' => if separator c then ("", s) else let '(w, r) := word s' in (String c w, r)
  end.

(** A tenant id without separators. *)
Definition plain_tenant (tenant : string) : Prop :=
  (word (to_ascii_lowercase (Str.trim tenant))).2 = "".

Lemma word_app a c r : (word a).2 = "" → separator c = true → word (a +:+ String c r) = (a, String c r).
Proof.
  intros Ha Hc. induction a as [|d a IH].
  - change (word (String c r) = ("", String c r)). cbn [word]. by rewrite Hc.
  - change (word (String d (a +:+ String c r)) = (String d a, String c r)). cbn [word] in *.
    destruct (separator d); [done|]. destruct (word a) as [w q]. cbn [snd] in Ha, IH. by rewrite IH.
Qed.

(** Where a table of tenant [n] has its first separators. *)
Definition namespace_of (n t : string) : Prop :=
  (∃ r, t = "tenant/" +:+ n +:+ "/" +:+ r) ∨ (∃ r, t = "tenant_" +:+ n +:+ "_" +:+ r) ∨ ∃ r, t = n +:+ "." +:+ r.

Lemma namespace_iff table tenant :
  store_table_matches_tenant_namespace table tenant = true
  ↔ namespace_of (to_ascii_lowercase (Str.trim tenant)) (to_ascii_lowercase (Str.trim table)).
Proof.
  unfold store_table_matches_tenant_namespace, namespace_of. cbv zeta.
  generalize (to_ascii_lowercase (Str.trim table)), (to_ascii_lowercase (Str.trim tenant)). intros t n.
  rewrite !orb_true_iff, !Str.starts_with_spec.
  setoid_rewrite Str.app_assoc_str. setoid_rewrite Str.app_assoc_str. naive_solver.
Qed.

(** The tenant a table belongs to, if ids have no separators. *)
Definition owner (t : string) : string :=
  match word t with
  | (w, String c r) =>
      if Ascii.eqb c "."%char then w else (word r).1
  | (w, EmptyString) => w
  end.

Lemma namespace_owner n t : (word n).2 = "" → namespace_of n t → owner t = n.
Proof.
  intros Hn [[r ->]|[[r ->]|[r ->]]]; unfold owner.
  - change ("tenant/" +:+ n +:+ "/" +:+ r) with ("tenant" +:+ String "/" (n +:+ String "/" r)).
    rewrite word_app by done. cbn [Ascii.eqb Bool.eqb]. by rewrite word_app.
  - change ("tenant_" +:+ n +:+ "_" +:+ r) with ("tenant" +:+ String "_" (n +:+ String "_" r)).
    rewrite word_app by done. cbn [Ascii.eqb Bool.eqb]. by rewrite word_app.
  - change (n +:+ "." +:+ r) with (n +:+ String "." r). by rewrite word_app.
Qed.

(** Tenants reach only their own tables.  Two tenant users whose tenant ids
    contain no separator character and differ (up to case and blanks) are never
    both admitted to the same table. *)
Theorem tenants_share_no_table (u v : TenantUserIdentity) (table : string) :
  plain_tenant (tu_tenant_id u) → plain_tenant (tu_tenant_id v) →
  ensure_store_table_access (TenantUser u) table = Ok tt →
  ensure_store_table_access (TenantUser v) table = Ok tt →
  to_ascii_lowercase (Str.trim (tu_tenant_id u)) = to_ascii_lowercase (Str.trim (tu_tenant_id v)).
Proof.
  unfold ensure_store_table_access, plain_tenant. intros Hu Hv.
  destruct (store_table_matches_tenant_namespace table (tu_tenant_id u)) eqn:Ha; [|done].
  destruct (store_table_matches_tenant_namespace table (tu_tenant_id v)) eqn:Hb; [|done].
  intros _ _. apply namespace_iff in Ha, Hb. apply namespace_owner in Ha, Hb; congruence.
Qed.

Lemma tenants_share_no_table_witness :
  to_ascii_lowercase (Str.trim "ACME ") = to_ascii_lowercase (Str.trim "acme").
Proof.
  refine (tenants_share_no_table (mkTenantUser "u" "ACME " "r") (mkTenantUser "v" "acme" "r")
    "tenant_Acme_orders" _ _ _ _); vm_compute; reflexivity.
Defined.

(** With an underscore in an id the namespaces overlap: tenant [acme] is admitted
    to the tables of tenant [acme_eu]. *)
Lemma tenant_namespaces_overlap :
  ensure_store_table_access (TenantUser (mkTenantUser "u" "acme" "tenant_analyst")) "tenant_acme_eu_orders" = Ok tt ∧
  ensure_store_table_access (TenantUser (mkTenantUser "v" "acme_eu" "tenant_analyst")) "tenant_acme_eu_orders" = Ok tt.
Proof. by split; vm_compute. Qed.

(** ** The user administration endpoints *)

Lemma sql_scope_admin action role :
  role ∈ ["dba"; "sre"; "security"; "ai_operator"] →
  allows role "sql.runtime" "admin/users" action default_rbac_privilege_matrix = false.
Proof.
  intros Hr. revert role Hr. apply Forall_forall.
  destruct action; apply (bool_decide_unpack _); vm_compute; exact I.
Qed.

(** With the default matrix no operator, not even a DBA with the admin key, passes
    the check of the user administration endpoints; any live session does. *)
Lemma admin_users_by_session_only `{!TokenCrypto} `{!HeaderText} now h a action p :
  rbac_privilege_matrix a = default_rbac_privilege_matrix →
  require_sql_runtime_principal now h a action "admin/users" = Ok p →
  has_operator_headers h = false.
Proof.
  intros Hm Hr. unfold require_sql_runtime_principal, require_runtime_principal in Hr.
  destruct (has_operator_headers h); [|done]. destruct (require_operator_auth h a); [|done].
  unfold require_operator_privilege in Hr. destruct (operator_identity_from_headers h a) as [o|]; [|done].
  rewrite Hm in Hr. pose proof (sql_scope_admin action (role_str (op_role o))) as Hno.
  rewrite Hno in Hr; [discriminate Hr|]. destruct (op_role o); repeat constructor.
Qed.

Section Examples.
#[local] Instance plain_headers : HeaderText := {| to_str := Some |}.
#[local] Instance toy_crypto : TokenCrypto :=
  {| hmac_sha256 := fun _ d => d; sha256_hex := fun t => t; b64_encode := fun s => s; b64_decode := Some |}.

(** An analyst of a tenant, logged in, asks to manage the indexes of the whole
    store: the matrix grants no such thing to the role, the check passes. *)
Lemma session_bypasses_matrix :
  let a := mkAuth (Some "k") [Dba] ∅ ∅ default_rbac_privilege_matrix ∅
             {["t0" := mkSession "u1" "ann" "tenant_analyst" (Some "acme") 100]} in
  require_store_runtime_principal 50 {["authorization" := "Bearer t0"]} a Manage "store/indexes"
    = Ok (TenantUser (mkTenantUser "u1" "acme" "tenant_analyst")) ∧
  allows "tenant_analyst" "storage.catalog" "store/indexes" Manage default_rbac_privilege_matrix = false ∧
  allows "tenant_analyst" "storage.catalog" (tenant_scoped_scope "acme" "store/indexes") Manage
    default_rbac_privilege_matrix = false.
Proof. vm_compute. split_and!; reflexivity. Qed.
End Examples.
