(* ===== verification/UserMgmt.v ===== *)
(** * User administration and login
      ([services/voltnuerongridd/src/handlers/user_mgmt.rs], replay in [helpers/boot.rs])

    The handlers that create and delete accounts, open, rotate and revoke sessions,
    each with its access check, and the replay of accounts at boot.  Creation and
    login wait for bcrypt between two locked parts; the parts are definitions of
    their own, so that interleavings can be written down.  The result is [None]
    where the handler panics; a handler reads the clock once. *)

From S2P Require Import Prelude Str Decimal Wal WalProps SqlKind Auth UserStore AccessControl.
Local Open Scope string_scope.
Local Open Scope list_scope.
Local Open Scope N_scope.
Local Open Scope vng_scope.

(** [bcrypt::hash(password, 12)] with the salt it draws, and [bcrypt::verify]. *)
Class Bcrypt := {
  bcrypt_hash : string -> string -> option string;
  bcrypt_verify : string -> string -> bool;
}.

Module UserMgmt.
Import SqlKind Auth UserStore Access.

Record Server (E : Type) := mkServer {
  auth : AuthState;
  users : UserStore;
  signer : SessionSigner;
  wal_engine : E;
}.
Arguments mkServer {E} _ _ _ _.
Arguments auth {E} _.
Arguments users {E} _.
Arguments signer {E} _.
Arguments wal_engine {E} _.

Section Handlers.
Context {E : Type} `{!Wal.DurabilityEngine E} `{!TokenCrypto} `{!HeaderText} `{!Bcrypt} `{!MapOrder SessionEntry}.

Definition set_sessions (s : SessionStore) (st : Server E) : Server E :=
  mkServer (let a := auth st in
            mkAuth (admin_api_key a) (allowed_operator_roles a) (operator_role_bindings a)
              (tenant_user_bindings a) (rbac_privilege_matrix a) (db_grants a) s)
    (users st) (signer st) (wal_engine st).

Definition set_users (u : UserStore) (st : Server E) : Server E :=
  mkServer (auth st) u (signer st) (wal_engine st).

Definition log_ddl (line : string) (st : Server E) : Server E :=
  mkServer (auth st) (users st) (signer st) (Wal.append_sql Wal.Ddl line (wal_engine st)).2.

Definition may_administer (now : N) (h : gmap string string) (st : Server E)
    : result RuntimeAccessPrincipal HttpError :=
  require_sql_runtime_principal now h (auth st) Execute "admin/users".

(** ** Creating an account *)

Record CreateUserRequest := mkCreate {
  cr_username : string;
  cr_password : string;
  cr_role : option string;
  cr_tenant_id : option string;
}.

(** Up to the duplicate check; the user name that will be used. *)
Definition create_check (now : N) (h : gmap string string) (req : CreateUserRequest) (st : Server E)
    : result string HttpError :=
  let? _ := may_administer now h st in
  let name := to_ascii_lowercase (Str.trim (cr_username req)) in
  if String.eqb name "" then Err (mkHttp 400 "username is required")
  else if bool_decide (is_Some (get_by_username name (users st)))
  then Err (mkHttp 409 ("user '" +:+ name +:+ "' already exists"))
  else Ok name.

Definition new_account (name uuid hash : string) (created : N) (req : CreateUserRequest) : UserAccount :=
  mkAccount uuid name (to_ascii_lowercase (default "operator" (cr_role req))) (cr_tenant_id req) created hash.

(** After the hash: the line goes to the log, then the account to the store. *)
Definition create_finish (a : UserAccount) (st : Server E) : Server E :=
  let st := log_ddl (user_to_wal a) st in set_users (insert a (users st)) st.

Definition admin_create_user (now created : N) (uuid salt : string) (h : gmap string string)
    (req : CreateUserRequest) (st : Server E) : result UserAccount HttpError * Server E :=
  match create_check now h req st with
  | Err e => (Err e, st)
  | Ok name =>
      match bcrypt_hash salt (cr_password req) with
      | None => (Err (mkHttp 500 "bcrypt error"), st)
      | Some hash =>
          let a := new_account name uuid hash created req in (Ok a, create_finish a st)
      end
  end.

(** ** Deleting an account, revoking sessions *)

Definition not_found (id : string) : HttpError := mkHttp 404 ("user '" +:+ id +:+ "' not found").

Definition admin_delete_user (now : N) (h : gmap string string) (id : string) (st : Server E)
    : result unit HttpError * Server E :=
  match may_administer now h st with
  | Err e => (Err e, st)
  | Ok _ =>
      match remove_by_id id (users st) with
      | (false, _) => (Err (not_found id), st)
      | (true, u) =>
          (Ok tt, log_ddl ("DROP USER " +:+ id)
                    (set_sessions (remove_by_user id (sessions (auth st))) (set_users u st)))
      end
  end.

Definition admin_revoke_user_sessions (now : N) (h : gmap string string) (id : string) (st : Server E)
    : result nat HttpError * Server E :=
  match may_administer now h st with
  | Err e => (Err e, st)
  | Ok _ =>
      match get_by_id id (users st) with
      | None => (Err (not_found id), st)
      | Some _ =>
          let s := sessions (auth st) in
          (Ok (length (sessions_for_user now id s)), set_sessions (remove_by_user id s) st)
      end
  end.

(** ** Login and rotation *)

Record LoginResponse := mkLogin {
  token : string;
  lr_user_id : string;
  lr_expires_at_secs : N;
}.

Definition bad_credentials : HttpError := mkHttp 401 "invalid credentials".

Definition login_lookup (name : string) (st : Server E) : option UserAccount :=
  get_by_username (to_ascii_lowercase (Str.trim name)) (users st).

(** After bcrypt: the token is issued, verified and remembered. *)
Definition login_finish (now : N) (a : UserAccount) (st : Server E) : option (LoginResponse * Server E) :=
  let t := issue now (signer st) (user_id a) in
  let! (_, expires) := verify now (signer st) t in
  let e := mkSession (user_id a) (username a) (role a) (tenant_id a) expires in
  Some (mkLogin t (user_id a) expires,
        set_sessions (session_insert (fingerprint t) e (sessions (auth st))) st).

Definition auth_login (now : N) (name password : string) (st : Server E)
    : option (result LoginResponse HttpError * Server E) :=
  match login_lookup name st with
  | None => Some (Err bad_credentials, st)
  | Some a =>
      if bcrypt_verify password (password_hash a) then
        let! (r, st') := login_finish now a st in Some (Ok r, st')
      else Some (Err bad_credentials, st)
  end.

Definition bearer (h : gmap string string) : option string :=
  let! v := header h "authorization" in
  let! t := Str.strip_prefix "Bearer " v in Some (Str.trim t).

Definition auth_token_rotate (now : N) (h : gmap string string) (st : Server E)
    : option (result LoginResponse HttpError * Server E) :=
  match bearer h with
  | None => Some (Err (mkHttp 401 "missing_token"), st)
  | Some current =>
      match verify now (signer st) current with
      | None => Some (Err (mkHttp 401 "invalid_or_expired_token"), st)
      | Some (id, _) =>
          let old := fingerprint current in
          match session_lookup now old (sessions (auth st)) with
          | None => Some (Err (mkHttp 401 "session_not_found"), st)
          | Some e =>
              let t := issue now (signer st) id in
              let! (_, expires) := verify now (signer st) t in
              let e' := mkSession (s_user_id e) (s_username e) (s_role e) (s_tenant_id e) expires in
              Some (Ok (mkLogin t (s_user_id e) expires),
                    set_sessions (session_insert (fingerprint t) e'
                                    (remove_by_fingerprint old (sessions (auth st)))) st)
          end
      end
  end.

(** ** Boot *)

Definition replay_user_line (stmt : string) (u : UserStore) : UserStore :=
  let up := Str.to_ascii_uppercase (Str.trim_start stmt) in
  if Str.starts_with "CREATE USER " up then
    match user_from_wal (Str.trim stmt) with Some a => insert a u | None => u end
  else
    match Str.strip_prefix "DROP USER " (Str.trim stmt) with
    | Some rest => (remove_by_id (Str.trim rest) u).2
    | None => u
    end.

Definition replay_user_store_into (e : E) (u : UserStore) : UserStore :=
  let stmts :=
    if Wal.persists_sql e && Nat.ltb 0 (Wal.sql_count Wal.Ddl e) then Wal.iter_sql Wal.Ddl e else [] in
  fold_left (fun u s => replay_user_line s u) stmts u.

End Handlers.
End UserMgmt.

(** * Accounts and sessions: consistency, restart, tokens *)

Local Open Scope string_scope.
Local Open Scope list_scope.
Local Open Scope N_scope.
Local Open Scope vng_scope.
Import SqlKind Auth UserStore Access UserMgmt Dec.

(** ** The account line *)

(** An account whose line can be read back: no tab in a field, a tenant that is
    not called [null], no blanks at the ends of the lines about it. *)
Record storable (a : UserAccount) : Prop := {
  st_tabs : Forall (fun f => Str.split_once Str.TAB f = None)
              [username a; role a; default "null" (tenant_id a); user_id a; password_hash a];
  st_tenant : tenant_id a ≠ Some "null";
  st_created : created_ms a <= u64_max;
  st_line : Str.trim (user_to_wal a) = user_to_wal a;
  st_id : Str.trim (user_id a) = user_id a;
  st_drop : Str.trim ("DROP USER " +:+ user_id a) = "DROP USER " +:+ user_id a;
}.

Lemma tab_free f : Str.split_once Str.TAB f = None → Str.split_once Str.TAB (f +:+ Str.butlast Str.TAB) = None.
Proof. change (Str.butlast Str.TAB) with "". by rewrite Str.app_empty_r. Qed.

Lemma user_from_to_wal a : storable a → user_from_wal (user_to_wal a) = Some a.
Proof.
  intros [Htabs Hten Hcr _ _ _]. unfold user_from_wal, user_to_wal. rewrite Str.strip_prefix_app.
  assert (Str.split_once Str.TAB (to_string (created_ms a)) = None) as Hc.
  { apply no_tab, to_string_line_chars. }
  repeat (apply Forall_cons in Htabs as [? Htabs]).
  rewrite Str.splitn_join; [|done|done|done|repeat constructor; by apply tab_free|].
  2: { intros p Hp. repeat (apply elem_of_cons in Hp as [->|Hp]; [done|]). by apply not_elem_of_nil in Hp. }
  rewrite parse_to_string by done.
  destruct a as [i n r t c h]. cbn in *. destruct t as [t|]; cbn; [|done].
  destruct (String.eqb_spec t "null") as [->|]; [done|done].
Qed.

Lemma starts_create r : Str.starts_with "CREATE USER " (Str.to_ascii_uppercase (Str.trim_start ("CREATE USER " +:+ r))) = true.
Proof. reflexivity. Qed.

Lemma starts_drop r : Str.starts_with "CREATE USER " (Str.to_ascii_uppercase (Str.trim_start ("DROP USER " +:+ r))) = false.
Proof. reflexivity. Qed.

Lemma replay_create a u : storable a → replay_user_line (user_to_wal a) u = insert a u.
Proof.
  intros Ha. unfold replay_user_line. pose proof (st_line a Ha) as Hl.
  assert (Str.starts_with "CREATE USER " (Str.to_ascii_uppercase (Str.trim_start (user_to_wal a))) = true) as ->
    by apply starts_create.
  by rewrite Hl, user_from_to_wal.
Qed.

Lemma replay_drop a u : storable a → replay_user_line ("DROP USER " +:+ user_id a) u = (remove_by_id (user_id a) u).2.
Proof.
  intros Ha. unfold replay_user_line. by rewrite starts_drop, (st_drop a Ha), Str.strip_prefix_app, (st_id a Ha).
Qed.

(** ** Consistency *)

(** The two maps describe the same accounts. *)
Record users_ok (u : UserStore) : Prop := {
  uo_id : ∀ id name, by_id u !! id = Some name → ∃ a, by_username u !! name = Some a ∧ user_id a = id;
  uo_name : ∀ name a, by_username u !! name = Some a →
    username a = name ∧ to_ascii_lowercase name = name ∧ by_id u !! user_id a = Some name;
}.

Lemma lowercase_idem s : to_ascii_lowercase (to_ascii_lowercase s) = to_ascii_lowercase s.
Proof.
  induction s as [|c s IH]; [done|]. cbn. rewrite IH. f_equal.
  destruct c as [[] [] [] [] [] [] [] []]; reflexivity.
Qed.

Lemma get_by_id_ok u id a : users_ok u → get_by_id id u = Some a ↔ ∃ name, by_id u !! id = Some name ∧ by_username u !! name = Some a.
Proof. unfold get_by_id. destruct (by_id u !! id); naive_solver. Qed.

Lemma insert_ok a u :
  users_ok u → to_ascii_lowercase (username a) = username a →
  by_username u !! username a = None → by_id u !! user_id a = None → users_ok (insert a u).
Proof.
  intros [Hid Hname] Hlow Hnew Hfresh. split; unfold insert; cbn; rewrite Hlow.
  - intros id name [[<- <-]|[Hne Hl]]%lookup_insert_Some.
    + exists a. by rewrite lookup_insert_eq.
    + destruct (Hid id name Hl) as (b & Hb & <-). exists b. rewrite lookup_insert_ne; [done|]. intros <-. congruence.
  - intros name b [[<- <-]|[Hne Hl]]%lookup_insert_Some.
    + by rewrite lookup_insert_eq.
    + destruct (Hname name b Hl) as (? & ? & Hb). split_and!; [done..|].
      rewrite lookup_insert_ne; [done|]. intros Heq. rewrite Heq, Hb in Hfresh. done.
Qed.

Lemma remove_ok id u : users_ok u → users_ok (remove_by_id id u).2.
Proof.
  intros [Hid Hname]. unfold remove_by_id. destruct (by_id u !! id) as [name|] eqn:Hl; [|done].
  destruct (Hid id name Hl) as (a & Ha & <-). split; cbn.
  - intros id' name' [Hne Hl']%lookup_delete_Some. destruct (Hid id' name' Hl') as (b & Hb & <-).
    exists b. rewrite lookup_delete_ne; [done|]. intros <-. rewrite Ha in Hb. injection Hb as <-. done.
  - intros name' b [Hne Hb]%lookup_delete_Some. destruct (Hname name' b Hb) as (? & ? & Hbi).
    split_and!; [done..|]. rewrite lookup_delete_ne; [done|]. intros Heq. rewrite <- Heq, Hl in Hbi. congruence.
Qed.

(** A session belongs to an account and carries its role and tenant. *)
Definition session_of (u : UserStore) (e : SessionEntry) : Prop :=
  ∃ a, get_by_id (s_user_id e) u = Some a ∧
    s_username e = username a ∧ s_role e = role a ∧ s_tenant_id e = tenant_id a.

Definition sessions_ok (u : UserStore) (s : SessionStore) : Prop := ∀ fp e, s !! fp = Some e → session_of u e.

Lemma session_insert_user a u e :
  users_ok u → by_username u !! username a = None → by_id u !! user_id a = None →
  to_ascii_lowercase (username a) = username a → session_of u e → session_of (insert a u) e.
Proof.
  intros Hu Hnew Hfresh Hlow (b & Hb & He). exists b. split; [|done]. revert Hb. unfold get_by_id, insert. cbn.
  destruct (decide (user_id a = s_user_id e)) as [Heq|Hne]; [by rewrite <- Heq, Hfresh|].
  rewrite lookup_insert_ne by done. destruct (by_id u !! s_user_id e) as [name|]; [|done].
  rewrite Hlow. intros Hb. rewrite lookup_insert_ne; [done|]. intros <-. congruence.
Qed.

Lemma session_remove_user id u e :
  users_ok u → s_user_id e ≠ id → session_of u e → session_of (remove_by_id id u).2 e.
Proof.
  intros [Hid Hname] Hne (b & Hb & He). exists b. split; [|done]. revert Hb. unfold get_by_id, remove_by_id.
  destruct (by_id u !! id) as [name|] eqn:Hl; [|done]. cbn. rewrite lookup_delete_ne by done.
  destruct (by_id u !! s_user_id e) as [name'|] eqn:Hl'; [|done]. intros Hb.
  rewrite lookup_delete_ne; [done|]. intros <-.
  destruct (Hid _ _ Hl) as (a & Ha & Hia). destruct (Hid _ _ Hl') as (a' & Ha' & Hia'). congruence.
Qed.

Section Reachable.
Context {E : Type} `{!Wal.DurabilityEngine E} `{!Wal.PersistsSql E} `{!TokenCrypto} `{!HeaderText} `{!Bcrypt}
  `{!MapOrder SessionEntry}.

Definition replayed (st : Server E) : UserStore :=
  fold_left (fun u s => replay_user_line s u) (Wal.iter_sql Wal.Ddl (wal_engine st)) UserStore.new.

(** A statement of the log that is not about users. *)
Definition other_ddl (sql : string) : Prop :=
  Str.starts_with "CREATE USER " (Str.to_ascii_uppercase (Str.trim_start sql)) = false ∧
  Str.strip_prefix "DROP USER " (Str.trim sql) = None.

(** The requests, one at a time.  A new id is one no account has; an account's
    fields can be stored; other statements may be logged in between. *)
Inductive user_step : Server E -> Server E -> Prop :=
| us_create now created uuid salt h req st :
    by_id (users st) !! uuid = None →
    (∀ a, (admin_create_user now created uuid salt h req st).1 = Ok a → storable a) →
    user_step st (admin_create_user now created uuid salt h req st).2
| us_delete now h id st : user_step st (admin_delete_user now h id st).2
| us_revoke now h id st : user_step st (admin_revoke_user_sessions now h id st).2
| us_login now name password r st st' :
    auth_login now name password st = Some (r, st') → user_step st st'
| us_rotate now h r st st' : auth_token_rotate now h st = Some (r, st') → user_step st st'
| us_other sql st : other_ddl sql → user_step st (log_ddl sql st).

Record consistent (st : Server E) : Prop := {
  c_users : users_ok (users st);
  c_storable : ∀ name a, by_username (users st) !! name = Some a → storable a;
  c_sessions : sessions_ok (users st) (sessions (auth st));
  c_log : replayed st = users st;
}.

Lemma log_ddl_replayed sql st : replayed (log_ddl sql st) = replay_user_line sql (replayed st).
Proof.
  unfold replayed, log_ddl. cbn [wal_engine]. rewrite Wal.append_sql_iter, decide_True by done.
  by rewrite fold_left_app.
Qed.

Lemma create_consistent now created uuid salt h req st :
  consistent st → by_id (users st) !! uuid = None →
  (∀ a, (admin_create_user now created uuid salt h req st).1 = Ok a → storable a) →
  consistent (admin_create_user now created uuid salt h req st).2.
Proof.
  intros [Hu Hst Hs Hl] Hfresh Hstore. unfold admin_create_user in *.
  destruct (create_check now h req st) as [name|e] eqn:Hck; [|done].
  destruct (bcrypt_hash salt (cr_password req)) as [hash|]; [|done]. cbn [fst snd] in *.
  set (a := new_account name uuid hash created req) in *. specialize (Hstore a eq_refl).
  assert (to_ascii_lowercase name = name ∧ by_username (users st) !! name = None) as [Hlow Hnew].
  { unfold create_check in Hck. destruct (may_administer now h st); [|done].
    destruct (String.eqb _ ""); [done|]. destruct (bool_decide _) eqn:Hdup; [done|].
    injection Hck as <-. split; [apply lowercase_idem|].
    apply bool_decide_eq_false in Hdup. unfold get_by_username in Hdup. rewrite lowercase_idem in Hdup.
    by apply eq_None_not_Some in Hdup. }
  split.
  - by apply insert_ok.
  - intros n b. cbn. rewrite Hlow. intros [[_ <-]|[_ Hb]]%lookup_insert_Some; [done|by apply (Hst n)].
  - intros fp e He. apply session_insert_user; [done..|]. by apply (Hs fp).
  - change (replayed (create_finish a st)) with (replayed (log_ddl (user_to_wal a) st)).
    by rewrite log_ddl_replayed, Hl, replay_create.
Qed.

Lemma delete_consistent now h id st : consistent st → consistent (admin_delete_user now h id st).2.
Proof.
  intros [Hu Hst Hs Hl]. unfold admin_delete_user. destruct (may_administer now h st) as [pr|]; [|done].
  destruct (remove_by_id id (users st)) as [[|] u] eqn:Hr; [|done].
  assert (u = (remove_by_id id (users st)).2) as -> by (by rewrite Hr). cbn [snd].
  assert (∃ a, storable a ∧ user_id a = id) as (a & Ha & Hid).
  { unfold remove_by_id in Hr. destruct (by_id (users st) !! id) as [name|] eqn:Hn; [|done].
    destruct (uo_id _ Hu _ _ Hn) as (a & Ha & Hi). exists a. split; [by apply (Hst name)|done]. }
  split.
  - by apply remove_ok.
  - intros n b Hb. apply (Hst n). revert Hb. cbn. unfold remove_by_id.
    destruct (by_id (users st) !! id); [|done]. cbn. by intros [_ ?]%lookup_delete_Some.
  - intros fp e He. cbn in He. apply map_lookup_filter_Some in He as [He Hne].
    apply session_remove_user; [done|done|]. by apply (Hs fp).
  - rewrite log_ddl_replayed. change (replayed (set_sessions _ _)) with (replayed st).
    rewrite Hl, <- Hid. cbn. by apply replay_drop.
Qed.

(** Sessions change and nothing else. *)
Lemma sessions_consistent s st :
  consistent st → sessions_ok (users st) s → consistent (set_sessions s st).
Proof. intros [Hu Hst _ Hl] Hs. by split. Qed.

Lemma login_consistent now name password r st st' :
  consistent st → auth_login now name password st = Some (r, st') → consistent st'.
Proof.
  intros Hc. unfold auth_login. destruct (login_lookup name st) as [a|] eqn:Ha; [|by intros [= _ <-]].
  destruct (bcrypt_verify password (password_hash a)); [|by intros [= _ <-]].
  unfold login_finish. destruct (verify _ _ _) as [[i exp]|]; [|done]. intros [= _ <-].
  apply sessions_consistent; [done|]. unfold session_insert.
  intros fp e [[_ <-]|[_ He]]%lookup_insert_Some; [|by apply (c_sessions _ Hc fp)].
  exists a. split; [|done]. cbn. unfold login_lookup, get_by_username in Ha.
  destruct (uo_name _ (c_users _ Hc) _ _ Ha) as (_ & _ & Hid). unfold get_by_id. by rewrite Hid.
Qed.

Lemma rotate_consistent now h r st st' :
  consistent st → auth_token_rotate now h st = Some (r, st') → consistent st'.
Proof.
  intros Hc. unfold auth_token_rotate. destruct (bearer h) as [t|]; [|by intros [= _ <-]].
  destruct (verify now (signer st) t) as [[id exp]|]; [|by intros [= _ <-]].
  destruct (session_lookup _ _ _) as [e|] eqn:He; [|by intros [= _ <-]].
  destruct (verify _ _ (issue _ _ _)) as [[i exp']|]; [|done]. intros [= _ <-].
  apply sessions_consistent; [done|]. unfold session_insert, remove_by_fingerprint.
  intros fp e' [[_ <-]|[_ [_ Hl]%lookup_delete_Some]]%lookup_insert_Some; [|by apply (c_sessions _ Hc fp)].
  unfold session_lookup in He. destruct (sessions (auth st) !! _) as [e0|] eqn:Hl; [|done].
  destruct (_ <? _); [done|]. injection He as ->. apply (c_sessions _ Hc _ _ Hl).
Qed.

Lemma step_consistent st st' : user_step st st' → consistent st → consistent st'.
Proof.
  intros Hstep Hc. destruct Hstep as [ | | |? ? ? ? ? ? Hlog|? ? ? ? ? Hrot|sql st [Hno Hnd]].
  - by apply create_consistent.
  - by apply delete_consistent.
  - unfold admin_revoke_user_sessions. destruct (may_administer now h st); [|done].
    destruct (get_by_id id (users st)); [|done]. apply sessions_consistent; [done|].
    intros fp e [He _]%map_lookup_filter_Some. by apply (c_sessions _ Hc fp).
  - by eapply login_consistent.
  - by eapply rotate_consistent.
  - destruct Hc as [Hu Hst Hs Hl]. split; [done..|]. rewrite log_ddl_replayed, Hl.
    unfold replay_user_line. by rewrite Hno, Hnd.
Qed.

(** A server with no accounts and no sessions; its log may hold other DDL. *)
Definition fresh_server (st : Server E) : Prop :=
  users st = UserStore.new ∧ sessions (auth st) = ∅ ∧ Forall other_ddl (Wal.iter_sql Wal.Ddl (wal_engine st)).

Lemma fresh_consistent st : fresh_server st → consistent st.
Proof.
  intros (Hu & Hs & Hl). split; rewrite ?Hu, ?Hs; try done.
  unfold replayed. generalize UserStore.new. induction Hl as [|s l [Hno Hnd] _ IH]; intros u; [done|].
  cbn [fold_left]. rewrite IH. unfold replay_user_line. by rewrite Hno, Hnd.
Qed.

Lemma reachable_consistent st st' : fresh_server st → rtc user_step st st' → consistent st'.
Proof.
  intros Hf%fresh_consistent Hr. induction Hr as [st|st st1 st2 Hs _ IH]; [done|].
  by apply IH, (step_consistent st).
Qed.

(** ** Properties *)


(** Accounts survive a restart.  On an engine that persists statements, the
    accounts replayed from the log of a server reached by any sequence of requests,
    with other statements logged in between, are exactly the server's accounts,
    deleted ones gone. *)
Theorem accounts_survive_restart (st st' : Server E) :
  (∀ e : E, Wal.persists_sql e = true) → fresh_server st → rtc user_step st st' →
  replay_user_store_into (wal_engine st') UserStore.new = users st'.
Proof.
  intros Hp Hf Hr. destruct (reachable_consistent st st' Hf Hr) as [_ _ _ Hl].
  unfold replay_user_store_into. rewrite Hp, Wal.sql_count_iter. cbn [andb]. rewrite <- Hl. unfold replayed.
  by destruct (Wal.iter_sql Wal.Ddl (wal_engine st')).
Qed.
End Reachable.

(** ** Tokens *)

Section Tokens.
Context `{!TokenCrypto} `{!TokenLaws}.

(** An id a token can carry: no colon, and valid text with the expiry. *)
Definition token_id (id : string) (expires : N) : Prop :=
  Str.split_once ":" id = None ∧ utf8 (id +:+ ":" +:+ to_string expires).

Lemma issued_token_verifies now now' k id :
  now + ttl_secs k <= u64_max → now' <= now + ttl_secs k → token_id id (now + ttl_secs k) →
  verify now' k (issue now k id) = Some (id, now + ttl_secs k).
Proof.
  intros Hmax Hlive [Hcolon Hutf]. unfold verify, issue. rewrite u64_add_small by u64.
  rewrite Str.split_once_app; [|done|change (Str.butlast ".") with ""; rewrite Str.app_empty_r; apply b64_no_dot].
  rewrite String.eqb_refl. cbn [negb]. rewrite b64_roundtrip. unfold from_utf8.
  rewrite Hutf, String.eqb_refl.
  rewrite Str.split_once_app; [|done|change (Str.butlast ":") with ""; by rewrite Str.app_empty_r].
  rewrite parse_to_string by done. destruct (N.ltb_spec (now + ttl_secs k) now'); [lia|done].
Qed.
End Tokens.

Section Login.
Context {E : Type} `{!Wal.DurabilityEngine E} `{!TokenCrypto} `{!TokenLaws} `{!HeaderText} `{!Bcrypt}.

(** A login succeeds exactly with the account's password, and opens a session
    for that account.  The handler never panics; it answers 401 and changes
    nothing unless an account has the name and its hash accepts the password; then
    the token it returns is accepted, until it expires and as long as the session
    is kept, as that account's with its role and tenant, and every other session
    stays as it was. *)
Theorem login_opens_own_session (now : N) (name password : string) (st : Server E) :
  now + ttl_secs (signer st) <= u64_max →
  (∀ a, login_lookup name st = Some a → token_id (user_id a) (now + ttl_secs (signer st))) →
  match login_lookup name st with
  | Some a =>
      if bcrypt_verify password (password_hash a) then
        ∃ r st', auth_login now name password st = Some (Ok r, st') ∧
          users st' = users st ∧ lr_user_id r = user_id a ∧
          (∀ now', now' <= lr_expires_at_secs r →
             verify now' (signer st') (token r) = Some (user_id a, lr_expires_at_secs r) ∧
             session_lookup now' (fingerprint (token r)) (sessions (auth st'))
             = Some (mkSession (user_id a) (username a) (role a) (tenant_id a) (lr_expires_at_secs r))) ∧
          (∀ fp, fp ≠ fingerprint (token r) → sessions (auth st') !! fp = sessions (auth st) !! fp)
      else auth_login now name password st = Some (Err bad_credentials, st)
  | None => auth_login now name password st = Some (Err bad_credentials, st)
  end.
Proof.
  intros Hmax Hid. unfold auth_login. destruct (login_lookup name st) as [a|]; [|done].
  destruct (bcrypt_verify password (password_hash a)); [|done]. unfold login_finish.
  rewrite (issued_token_verifies now now) by (done || lia || by apply Hid).
  eexists _, _. split; [reflexivity|]. cbn [users auth signer sessions set_sessions token lr_user_id lr_expires_at_secs].
  split_and!; [done|done| |].
  - intros now' Hle. split; [by apply issued_token_verifies; [done|done|apply Hid]|].
    unfold session_lookup, session_insert. rewrite lookup_insert_eq. cbn [expires_at_secs].
    destruct (N.ltb_spec (now + ttl_secs (signer st)) now'); [lia|done].
  - intros fp Hne. unfold session_insert. by rewrite lookup_insert_ne.
Qed.

(** Rotation replaces the token.  With a valid token of a live session, the
    rotation does not panic, the new token is accepted for the same account until
    it expires, and, when the two tokens have different fingerprints, the old one
    is not accepted any more. *)
Theorem rotation_replaces_token (now : N) (h : gmap string string) (cur id : string) (exp : N)
    (e : SessionEntry) (st : Server E) :
  now + ttl_secs (signer st) <= u64_max → token_id id (now + ttl_secs (signer st)) →
  bearer h = Some cur → verify now (signer st) cur = Some (id, exp) →
  session_lookup now (fingerprint cur) (sessions (auth st)) = Some e →
  ∃ r st', auth_token_rotate now h st = Some (Ok r, st') ∧ users st' = users st ∧
    (∀ now', now' <= lr_expires_at_secs r →
       session_lookup now' (fingerprint (token r)) (sessions (auth st'))
       = Some (mkSession (s_user_id e) (s_username e) (s_role e) (s_tenant_id e) (lr_expires_at_secs r))) ∧
    (fingerprint (token r) ≠ fingerprint cur →
       ∀ now', session_lookup now' (fingerprint cur) (sessions (auth st')) = None).
Proof.
  intros Hmax Htok Hb Hv Hs. unfold auth_token_rotate. rewrite Hb, Hv, Hs.
  rewrite (issued_token_verifies now now) by (done || lia).
  eexists _, _. split; [reflexivity|]. cbn [users auth signer sessions set_sessions token lr_user_id lr_expires_at_secs].
  unfold session_insert, remove_by_fingerprint, session_lookup.
  split_and!; [done| |].
  - intros now' Hle. rewrite lookup_insert_eq. cbn [expires_at_secs].
    destruct (N.ltb_spec (now + ttl_secs (signer st)) now'); [lia|done].
  - intros Hne now'. by rewrite lookup_insert_ne, lookup_delete_eq.
Qed.
End Login.

(** ** Examples *)

Module Demo.
#[export] Existing Instance Wal.in_memory_engine.
#[export] Instance demo_persists : Wal.PersistsSql Wal.InMemoryDurabilityEngine := in_memory_persists_sql.
#[export] Instance demo_headers : HeaderText := {| to_str := Some |}.
#[export] Instance demo_order : MapOrder SessionEntry := canonical_order.
#[export] Instance demo_bcrypt : Bcrypt :=
  {| bcrypt_hash := fun salt p => Some (salt +:+ "$" +:+ p);
     bcrypt_verify := fun p h => match Str.split_once "$" h with Some (_, q) => String.eqb p q | None => false end |}.

(** Hexadecimal in place of base64: it has no dot either. *)
Definition nibble (n : N) : Ascii.ascii := Ascii.ascii_of_N (if n <? 10 then 48 + n else 87 + n).
Definition unnibble (c : Ascii.ascii) : N :=
  let n := Ascii.N_of_ascii c in if n <? 58 then n - 48 else n - 87.

Fixpoint hex (s : string) : string :=
  match s with
  | EmptyString => ""
  | String c s' => String (nibble (Ascii.N_of_ascii c / 16)) (String (nibble (Ascii.N_of_ascii c mod 16)) (hex s'))
  end.

Fixpoint unhex (s : string) : option string :=
  match s with
  | EmptyString => Some ""
  | String a (String b s') =>
      let! r := unhex s' in Some (String (Ascii.ascii_of_N (16 * unnibble a + unnibble b)) r)
  | _ => None
  end.

#[export] Instance demo_crypto : TokenCrypto :=
  {| hmac_sha256 := fun k d => k +:+ d; sha256_hex := fun t => t; b64_encode := hex; b64_decode := unhex |}.

Lemma unhex_hex s : unhex (hex s) = Some s.
Proof.
  induction s as [|c s IH]; [done|]. cbn [hex unhex]. rewrite IH.
  do 2 f_equal. destruct c as [[] [] [] [] [] [] [] []]; reflexivity.
Qed.

Lemma hex_no_dot s : Str.split_once "." (hex s) = None.
Proof.
  induction s as [|c s IH]; [done|]. cbn [hex Str.split_once].
  assert (∀ d r, Str.strip_prefix "." (String (nibble d) r) ≠ None → d <? 16 = false) as Hd.
  { intros d r. destruct (N.ltb_spec d 16); [|done]. cbn. intros Hs. exfalso. revert Hs.
    assert (d = 0 ∨ d = 1 ∨ d = 2 ∨ d = 3 ∨ d = 4 ∨ d = 5 ∨ d = 6 ∨ d = 7 ∨ d = 8 ∨ d = 9 ∨ d = 10 ∨
      d = 11 ∨ d = 12 ∨ d = 13 ∨ d = 14 ∨ d = 15) as Hc by lia. by decompose [or] Hc; subst; cbn. }
  assert (Ascii.N_of_ascii c / 16 <? 16 = true ∧ Ascii.N_of_ascii c mod 16 <? 16 = true) as [H1 H2]
    by (destruct c as [[] [] [] [] [] [] [] []]; done).
  destruct (Str.strip_prefix "." (String _ _)) eqn:Hs; [by rewrite (Hd _ _ ltac:(by rewrite Hs)) in H1|].
  destruct (Str.strip_prefix "." (String (nibble (Ascii.N_of_ascii c mod 16)) _)) eqn:Hs'.
  - by rewrite (Hd _ _ ltac:(by rewrite Hs')) in H2.
  - by rewrite IH.
Qed.

#[export] Instance demo_tokens : TokenLaws.
Proof. split; [apply unhex_hex|apply hex_no_dot]. Qed.

(** A session of an administrator is there from the start, so that the
    administration endpoints can be used. *)
Definition admin : SessionEntry := mkSession "root" "root" "dba" None 1000.

Definition blank : Server Wal.InMemoryDurabilityEngine :=
  mkServer (mkAuth (Some "k") [Dba] ∅ ∅ default_rbac_privilege_matrix ∅ ∅) UserStore.new (mkSigner "s" 60)
    (Wal.with_config Wal.default_config).

Definition server : Server Wal.InMemoryDurabilityEngine := set_sessions {["adm" := admin]} blank.

Definition as_admin : gmap string string := {["authorization" := "Bearer adm"]}.

Definition ann : CreateUserRequest := mkCreate " Ann" "pw" (Some "DBA") (Some "acme").
End Demo.
Import Demo.

(** A server whose matrix lets the DBA administer users, and two requests. *)
Definition open_matrix : RbacPrivilegeMatrix := grant_role "dba" (mkGrant "sql.runtime" ["*"] [Execute]) Auth.new.

Definition started : Server Wal.InMemoryDurabilityEngine :=
  mkServer (mkAuth (Some "k") [Dba] {["op" := Dba]} ∅ open_matrix ∅ ∅) UserStore.new (mkSigner "s" 60)
    (Wal.with_config Wal.default_config).

Definition as_dba : gmap string string := {["x-vng-admin-key" := "k"; "x-vng-operator-id" := "op"]}.

Definition one_account : Server Wal.InMemoryDurabilityEngine :=
  (admin_create_user 1 7 "u-1" "s" as_dba ann started).2.

Definition logged_in : Server Wal.InMemoryDurabilityEngine :=
  match auth_login 5 "ANN" "pw" one_account with Some (_, st) => st | None => one_account end.

Lemma started_fresh : fresh_server started.
Proof. split_and!; [done|done|constructor]. Qed.

Lemma logged_in_reachable : rtc user_step started logged_in.
Proof.
  apply (rtc_l _ _ one_account).
  - apply us_create; [done|]. vm_compute. intros a [= <-].
    split; [repeat constructor|discriminate|discriminate|reflexivity..].
  - apply rtc_once. apply (us_login 5 "ANN" "pw" (Ok (mkLogin (issue 5 (signer started) "u-1") "u-1" 65))).
    vm_compute. reflexivity.
Qed.


Lemma accounts_survive_restart_witness :
  replay_user_store_into (wal_engine logged_in) UserStore.new = users logged_in.
Proof.
  exact (accounts_survive_restart started logged_in (fun _ => eq_refl) started_fresh logged_in_reachable).
Defined.

Lemma login_opens_own_session_witness :
  let st := (admin_create_user 1 7 "u-1" "s" as_admin ann server).2 in
  ∃ r st', auth_login 5 "ANN" "pw" st = Some (Ok r, st') ∧ lr_user_id r = "u-1".
Proof.
  intros st.
  pose proof (login_opens_own_session 5 "ANN" "pw" st) as H.
  assert (login_lookup "ANN" st = Some (mkAccount "u-1" "ann" "dba" (Some "acme") 7 "s$pw")) as Hl
    by (vm_compute; reflexivity).
  rewrite Hl in H. destruct H as (r & st' & Hr & _ & Hid & _).
  - vm_compute. discriminate.
  - intros a [= <-]. split; vm_compute; reflexivity.
  - exists r, st'. split; [exact Hr|exact Hid].
Defined.

Lemma rotation_replaces_token_witness :
  let t := issue 5 (signer server) "u-1" in
  let st := set_sessions {[t := mkSession "u-1" "ann" "dba" None 65]} server in
  ∃ r st', auth_token_rotate 9 {["authorization" := "Bearer " +:+ t]} st = Some (Ok r, st') ∧
    session_lookup 9 t (sessions (auth st')) = None.
Proof.
  intros t st.
  destruct (rotation_replaces_token 9 {["authorization" := "Bearer " +:+ t]} t "u-1" 65
    (mkSession "u-1" "ann" "dba" None 65) st) as (r & st' & Hr & _ & _ & Hold).
  - vm_compute. discriminate.
  - split; vm_compute; reflexivity.
  - vm_compute. reflexivity.
  - vm_compute. reflexivity.
  - vm_compute. reflexivity.
  - exists r, st'. split; [exact Hr|]. apply Hold. clear Hold. revert Hr. vm_compute. intros [= <- _]. discriminate.
Defined.

(** A rotation in the second of the login gives the same token: nothing is
    invalidated. *)
Lemma rotation_in_same_second_keeps_token :
  let t := issue 5 (signer server) "u-1" in
  let st := set_sessions {[t := mkSession "u-1" "ann" "dba" None 65]} server in
  match auth_token_rotate 5 {["authorization" := "Bearer " +:+ t]} st with
  | Some (Ok r, st') => token r = t ∧ session_lookup 5 t (sessions (auth st')) ≠ None
  | _ => False
  end.
Proof. vm_compute. by split. Qed.

(** Two requests to create the same name that both pass the duplicate check while
    the other waits for bcrypt both succeed: two ids lead to one account, and
    deleting the first id removes the second account. *)
Lemma concurrent_creation_shares_name :
  let a1 := new_account "ann" "u-1" "h1" 7 ann in
  let a2 := new_account "ann" "u-2" "h2" 8 ann in
  create_check 1 as_admin ann server = Ok "ann" ∧
  let st := create_finish a2 (create_finish a1 server) in
  get_by_id "u-1" (users st) = Some a2 ∧ get_by_id "u-2" (users st) = Some a2 ∧
  let st' := (admin_delete_user 2 as_admin "u-1" st).2 in
  get_by_username "ann" (users st') = None ∧ by_id (users st') !! "u-2" = Some "ann".
Proof. vm_compute. split_and!; reflexivity. Qed.

(** A login that waits for bcrypt while the account is deleted still opens a
    session: the deleted user is let in until the token expires. *)
Lemma login_outlives_deletion :
  let st0 := create_finish (new_account "ann" "u-1" "s$pw" 7 ann) server in
  match login_lookup "ann" st0 with
  | Some a =>
      let st1 := (admin_delete_user 2 as_admin "u-1" st0).2 in
      match login_finish 3 a st1 with
      | Some (r, st2) =>
          get_by_id "u-1" (users st2) = None ∧
          require_sql_runtime_principal 3 {["authorization" := "Bearer " +:+ token r]} (auth st2) Execute
            "sql/execute" = Ok (Operator (mkOperator "u-1" Dba))
      | None => False
      end
  | None => False
  end.
Proof. vm_compute. split_and!; reflexivity. Qed.

(** A tab in a user name: the account is gone after a restart. *)
Lemma tab_in_name_loses_account :
  let st := (admin_create_user 1 7 "u-1" "s" as_admin (mkCreate ("a" +:+ Str.TAB +:+ "b") "pw" None None) server).2 in
  get_by_id "u-1" (users st) ≠ None ∧ replay_user_store_into (wal_engine st) UserStore.new = UserStore.new.
Proof. vm_compute. by split. Qed.
