(* ===== verification/DatabaseCatalog.v ===== *)
(** * Databases
      ([crates/voltnuerongrid-meta/src/lib.rs]; CREATE and DROP DATABASE in
      [handlers/sql.rs], [handlers/admin.rs] and [helpers/boot.rs])

    Database names and their normal form, the catalogue of databases, the layout of
    the [metadata] schema, and the statements that create and drop a database: in
    the catalogue, in the statement log, in the row store and in the DDL
    catalogue.  JSON snapshots of the catalogue are [serde_json]'s. *)

From S2P Require Import Prelude Str Mvcc Wal WalProps SqlKind AcidTx DdlCatalog Tokenizer Utf8 Flush.
From S2P Require Import MvccSpec Raft RaftLog RaftLoop RaftApply.
From Stdlib Require Import Ascii.
Local Open Scope string_scope.
Local Open Scope list_scope.
Local Open Scope N_scope.
Local Open Scope vng_scope.

Module Meta.
Import SqlKind.

(** ** Names *)

Inductive DatabaseNameError :=
| Empty
| TooLong (len : nat)
| InvalidStart (ch : N)
| InvalidChar (ch : N)
| Reserved (name : string).

Definition is_ascii_alphabetic (c : N) : bool := ((65 <=? c) && (c <=? 90)) || ((97 <=? c) && (c <=? 122)).
Definition is_ascii_alphanumeric (c : N) : bool := is_ascii_alphabetic c || ((48 <=? c) && (c <=? 57)).

Definition reserved_names : list string := ["metadata"; "information_schema"; "pg_catalog"; "vng_system"].

(** A byte of a name.  A character outside ASCII consists of bytes outside ASCII,
    so the test on characters is this test on bytes. *)
Definition name_byte (c : ascii) : bool := is_ascii_alphanumeric (N_of_ascii c) || Ascii.eqb c "_"%char.

(** The text from the first character that may not occur. *)
Fixpoint from_bad (s : string) : option string :=
  match s with
  | EmptyString => None
  | String c s' => if name_byte c then from_bad s' else Some s
  end.

Definition first_char (s : string) : N := default 0 (Utf8.of_utf8 s !! 0%nat).

(** [DatabaseName::parse]; the name is its canonical string. *)
Definition parse_name (input : string) : result string DatabaseNameError :=
  let trimmed := Str.trim input in
  if String.eqb trimmed "" then Err Empty
  else if (63 <? String.length trimmed)%nat then Err (TooLong (String.length trimmed))
  else
    let lower := to_ascii_lowercase trimmed in
    match lower with
    | EmptyString => Err Empty
    | String first _ =>
        if negb (is_ascii_alphabetic (N_of_ascii first)) && negb (Ascii.eqb first "_"%char)
        then Err (InvalidStart (first_char lower))
        else
          match from_bad lower with
          | Some rest => Err (InvalidChar (first_char rest))
          | None =>
              if existsb (String.eqb lower) reserved_names then Err (Reserved lower) else Ok lower
          end
    end.

(** ** The catalogue *)

Record Database := mkDatabase {
  name : string;
  created_at_ms : N;
  owner : option string;
  description : option string;
}.

Inductive DatabaseCatalogError :=
| AlreadyExists (name : string)
| NotFound (name : string)
| InvalidName (e : DatabaseNameError).

(** Keyed by the canonical name. *)
Record DatabaseCatalog := mkDbCatalog { databases : gmap string Database }.

Definition new : DatabaseCatalog := mkDbCatalog ∅.

(** [o.map(|s| s.trim().to_string()).filter(|s| !s.is_empty())] *)
Definition trimmed_opt (o : option string) : option string :=
  let! s := o in if String.eqb (Str.trim s) "" then None else Some (Str.trim s).

Definition create (n : string) (now_ms : N) (own desc : option string) (c : DatabaseCatalog)
    : result Database DatabaseCatalogError * DatabaseCatalog :=
  match parse_name n with
  | Err e => (Err (InvalidName e), c)
  | Ok key =>
      if decide (is_Some (databases c !! key)) then (Err (AlreadyExists key), c)
      else let d := mkDatabase key now_ms (trimmed_opt own) (trimmed_opt desc) in
           (Ok d, mkDbCatalog (<[key := d]> (databases c)))
  end.

Definition drop_database (n : string) (if_exists : bool) (c : DatabaseCatalog)
    : result (option Database) DatabaseCatalogError * DatabaseCatalog :=
  match parse_name n with
  | Err e => (Err (InvalidName e), c)
  | Ok key =>
      match databases c !! key with
      | Some d => (Ok (Some d), mkDbCatalog (base.delete key (databases c)))
      | None => if if_exists then (Ok None, c) else (Err (NotFound key), c)
      end
  end.

Definition get (n : string) (c : DatabaseCatalog) : option Database :=
  match parse_name n with Ok key => databases c !! key | Err _ => None end.

Definition exists_db (n : string) (c : DatabaseCatalog) : bool := bool_decide (is_Some (get n c)).

Definition len (c : DatabaseCatalog) : nat := size (databases c).

(** ** The [metadata] schema *)

Inductive MetadataTable :=
| Databases | Schemas | Tables | Columns | Indexes | Views | Routines | Triggers | Users | Roles | Grants
| Settings.

Definition ALL : list MetadataTable :=
  [Databases; Schemas; Tables; Columns; Indexes; Views; Routines; Triggers; Users; Roles; Grants; Settings].

Definition table_name (t : MetadataTable) : string :=
  match t with
  | Databases => "databases" | Schemas => "schemas" | Tables => "tables" | Columns => "columns"
  | Indexes => "indexes" | Views => "views" | Routines => "routines" | Triggers => "triggers"
  | Users => "users" | Roles => "roles" | Grants => "grants" | Settings => "settings"
  end.

Definition columns (t : MetadataTable) : list string :=
  match t with
  | Databases => ["name"; "owner"; "created_at_ms"; "description"]
  | Schemas => ["database_name"; "schema_name"]
  | Tables => ["database_name"; "schema_name"; "table_name"; "kind"; "created_at_ms"]
  | Columns => ["database_name"; "schema_name"; "table_name"; "column_name"; "ordinal_position"; "data_type";
                "is_nullable"]
  | Indexes => ["database_name"; "schema_name"; "table_name"; "index_name"; "column_name"; "is_unique"]
  | Views => ["database_name"; "schema_name"; "view_name"; "definition"]
  | Routines => ["database_name"; "schema_name"; "routine_name"; "language"; "kind"]
  | Triggers => ["database_name"; "schema_name"; "trigger_name"; "table_name"; "event"]
  | Users => ["database_name"; "username"; "created_at_ms"]
  | Roles => ["database_name"; "role_name"]
  | Grants => ["database_name"; "role_name"; "object"; "privilege"]
  | Settings => ["database_name"; "key"; "value"; "scope"]
  end.

Definition parse_table_name (input : string) : option MetadataTable :=
  let s := to_ascii_lowercase (Str.trim input) in
  List.find (fun t => String.eqb (table_name t) s) ALL.

Definition metadata_schema_layout : list (string * list string) := map (fun t => (table_name t, columns t)) ALL.

(** ** CREATE DATABASE and DROP DATABASE *)

Inductive DbDdl :=
| CreateDatabase (name : string) (if_not_exists : bool)
| DropDatabase (name : string) (if_exists : bool).

Definition word_is (w : string) (o : option string) : bool :=
  match o with Some s => String.eqb (Str.to_ascii_uppercase s) w | None => false end.

(** The word at a position, in lower case and without quotes. *)
Definition name_at (words : list string) (i : nat) : string :=
  Str.trim_matches [Str.DQUOTE; "'"; "`"] (to_ascii_lowercase (default "" (words !! i))).

Definition parse_db_ddl_statement (sql : string) : option DbDdl :=
  let words := List.filter (fun w => negb (String.eqb w ""))
                 (map (Str.trim_end_matches [";"]) (split_whitespace (Str.trim sql))) in
  if (length words <? 3)%nat then None
  else if word_is "CREATE" (words !! 0%nat) && word_is "DATABASE" (words !! 1%nat) then
    let flag := (6 <=? length words)%nat && word_is "IF" (words !! 2%nat) && word_is "NOT" (words !! 3%nat)
                && word_is "EXISTS" (words !! 4%nat) in
    let n := name_at words (if flag then 5%nat else 2%nat) in
    if String.eqb n "" then None else Some (CreateDatabase n flag)
  else if word_is "DROP" (words !! 0%nat) && word_is "DATABASE" (words !! 1%nat) then
    let flag := (5 <=? length words)%nat && word_is "IF" (words !! 2%nat) && word_is "EXISTS" (words !! 3%nat) in
    let n := name_at words (if flag then 4%nat else 2%nat) in
    if String.eqb n "" then None else Some (DropDatabase n flag)
  else None.

Record DbServer (E : Type) := mkDbServer {
  database_catalog : DatabaseCatalog;
  ddl_catalog : DdlCatalog.DdlCatalog;
  row_store : RowStore.PagedRowStore;
  wal_engine : E;
}.
Arguments mkDbServer {E} _ _ _ _.
Arguments database_catalog {E} _.
Arguments ddl_catalog {E} _.
Arguments row_store {E} _.
Arguments wal_engine {E} _.

Section Statements.
Context {E : Type} `{!Wal.DurabilityEngine E} `{!RowEngine E}.

Definition log_ddl (line : string) (e : E) : E := (Wal.append_sql Wal.Ddl line e).2.

(** The status of the answer. *)
Definition sql_create_database (now_ms : N) (n : string) (if_not_exists : bool) (st : DbServer E) : N * DbServer E :=
  match create n now_ms None None (database_catalog st) with
  | (Ok _, c) =>
      (200, mkDbServer c (ddl_catalog st) (row_store st) (log_ddl ("CREATE DATABASE " +:+ n) (wal_engine st)))
  | (Err (AlreadyExists _), _) => ((if if_not_exists then 200 else 400), st)
  | (Err _, _) => (400, st)
  end.

Definition sql_drop_database (n : string) (if_exists : bool) (st : DbServer E) : N * DbServer E :=
  match drop_database n if_exists (database_catalog st) with
  | (Ok (Some _), c) =>
      let '(rs, e) := Flush.purge_database_rows n (row_store st) (wal_engine st) in
      (200, mkDbServer c (DdlCatalog.purge_database n (ddl_catalog st)).2 rs (log_ddl ("DROP DATABASE " +:+ n) e))
  | (Ok None, _) => (200, st)
  | (Err _, _) => (400, st)
  end.

Definition sql_database_statement (now_ms : N) (sql : string) (st : DbServer E) : option (N * DbServer E) :=
  match parse_db_ddl_statement sql with
  | Some (CreateDatabase n flag) => Some (sql_create_database now_ms n flag st)
  | Some (DropDatabase n flag) => Some (sql_drop_database n flag st)
  | None => None
  end.

(** The admin endpoints, once the key has been checked. *)
Definition admin_databases_create (now_ms : N) (n : string) (own desc : option string) (if_not_exists : bool)
    (st : DbServer E) : N * DbServer E :=
  match create n now_ms own desc (database_catalog st) with
  | (Ok d, c) =>
      (201, mkDbServer c (ddl_catalog st) (row_store st)
              (log_ddl ("CREATE DATABASE " +:+ name d) (wal_engine st)))
  | (Err (AlreadyExists _), _) => ((if if_not_exists then 200 else 409), st)
  | (Err _, _) => (400, st)
  end.

Definition admin_databases_drop (n : string) (if_exists : bool) (st : DbServer E) : N * DbServer E :=
  match drop_database n if_exists (database_catalog st) with
  | (Ok (Some d), c) =>
      let '(rs, e) := Flush.purge_database_rows (name d) (row_store st)
                        (log_ddl ("DROP DATABASE " +:+ name d) (wal_engine st)) in
      (200, mkDbServer c (ddl_catalog st) rs e)
  | (Ok None, _) => (200, st)
  | (Err (NotFound _), _) => (404, st)
  | (Err _, _) => (400, st)
  end.

(** Boot. *)
Definition replay_database_line (now_ms : N) (sql : string) (c : DatabaseCatalog) : DatabaseCatalog :=
  let up := Str.to_ascii_uppercase (Str.trim sql) in
  match Str.strip_prefix "CREATE DATABASE " up with
  | Some rest =>
      let n := to_ascii_lowercase (Str.trim rest) in
      if String.eqb n "" then c else (create n now_ms None None c).2
  | None =>
      match Str.strip_prefix "DROP DATABASE " up with
      | Some rest =>
          let n := to_ascii_lowercase (Str.trim rest) in
          if String.eqb n "" then c else (drop_database n true c).2
      | None => c
      end
  end.

Definition replay_database_catalog_into (now_ms : N) (e : E) (c : DatabaseCatalog) : DatabaseCatalog :=
  let stmts :=
    if Wal.persists_sql e && Nat.ltb 0 (Wal.sql_count Wal.Ddl e) then Wal.iter_sql Wal.Ddl e else [] in
  fold_left (fun c s => replay_database_line now_ms s c) stmts c.

End Statements.

Example parse_db_ex :
  (parse_db_ddl_statement "create  database IF NOT EXISTS `Shop` ;", parse_name " Shop_1 ", parse_name "1x")
  = (Some (CreateDatabase "shop" true), Ok "shop_1", Err (InvalidStart 49)).
Proof. reflexivity. Qed.

End Meta.

(** * Databases: names, isolation, restart *)

Local Open Scope string_scope.
Local Open Scope list_scope.
Local Open Scope N_scope.
Local Open Scope vng_scope.
Import SqlKind Meta.

(** ** Names *)

Definition name_ok (n : string) : Prop :=
  from_bad n = None ∧ (0 < String.length n <= 63)%nat ∧ n ∉ reserved_names ∧
  match n with
  | String c _ => is_ascii_alphabetic (N_of_ascii c) = true ∨ c = "_"%char
  | EmptyString => False
  end.

Lemma length_lowercase s : String.length (to_ascii_lowercase s) = String.length s.
Proof. induction s as [|c s IH]; cbn; [done|]. by rewrite IH. Qed.

Lemma lowercase_id s : to_ascii_lowercase (to_ascii_lowercase s) = to_ascii_lowercase s.
Proof.
  induction s as [|c s IH]; [done|]. cbn. rewrite IH. f_equal.
  destruct c as [[] [] [] [] [] [] [] []]; reflexivity.
Qed.

Lemma parse_name_cases s n :
  parse_name s = Ok n ↔ n = to_ascii_lowercase (Str.trim s) ∧ name_ok n.
Proof.
  unfold parse_name, name_ok.
  destruct (String.eqb_spec (Str.trim s) "") as [He|He].
  { rewrite He. split; [done|]. intros (-> & _ & [? _] & _). cbn in *. lia. }
  destruct (Nat.ltb_spec 63 (String.length (Str.trim s))) as [Hl|Hl].
  { split; [done|]. intros (-> & _ & [_ ?] & _). rewrite length_lowercase in *. lia. }
  destruct (to_ascii_lowercase (Str.trim s)) as [|c r] eqn:Hlow.
  { exfalso. apply He. by destruct (Str.trim s). }
  assert (String.length (String c r) = String.length (Str.trim s)) as Hlen
    by (by rewrite <- Hlow, length_lowercase).
  assert ((0 < String.length (String c r) <= 63)%nat) as Hlen' by (cbn in *; lia).
  destruct (is_ascii_alphabetic (N_of_ascii c) || Ascii.eqb c "_"%char) eqn:Hst.
  - assert (negb (is_ascii_alphabetic (N_of_ascii c)) && negb (Ascii.eqb c "_"%char) = false) as ->
      by (by rewrite <- negb_orb, Hst).
    apply orb_true_iff in Hst. rewrite Ascii.eqb_eq in Hst.
    destruct (from_bad (String c r)) as [rest|] eqn:Hbad.
    { split; [done|]. intros (-> & ? & _). congruence. }
    destruct (existsb (String.eqb (String c r)) reserved_names) eqn:Hres.
    + split; [done|]. intros (-> & _ & _ & Hn & _). exfalso. apply Hn.
      apply existsb_exists in Hres as (x & Hx & ->%String.eqb_eq). by apply list_elem_of_In.
    + split; [|intros (-> & _); done]. intros [= <-]. split_and!; try done; [lia..|].
      intros Hin. apply not_true_iff_false in Hres. apply Hres, existsb_exists.
      exists (String c r). split; [by apply list_elem_of_In|apply String.eqb_refl].
  - assert (negb (is_ascii_alphabetic (N_of_ascii c)) && negb (Ascii.eqb c "_"%char) = true) as ->
      by (by rewrite <- negb_orb, Hst).
    split; [done|]. intros (-> & _ & _ & _ & Hs). apply orb_false_iff in Hst as [H1 H2].
    apply Ascii.eqb_neq in H2. destruct Hs; congruence.
Qed.

Lemma from_bad_app a b : from_bad (a +:+ b) = None ↔ from_bad a = None ∧ from_bad b = None.
Proof.
  induction a as [|c a IH]; cbn; [naive_solver|].
  change (from_bad (String c (a +:+ b)) = None ↔ from_bad (String c a) = None ∧ from_bad b = None).
  cbn [from_bad]. destruct (name_byte c); [done|]. naive_solver.
Qed.

Lemma from_bad_reverse n : from_bad n = None → from_bad (Str.reverse_str n) = None.
Proof.
  unfold Str.reverse_str. intros Hn.
  assert (∀ acc, from_bad acc = None → from_bad (Str.rev_str n acc) = None) as H; [|by apply H].
  revert Hn. induction n as [|c n IH]; intros Hn acc Hacc; [done|]. cbn [from_bad] in Hn.
  destruct (name_byte c) eqn:Hc; [|done]. cbn [Str.rev_str]. apply IH; [done|]. cbn [from_bad]. by rewrite Hc.
Qed.

Lemma strip_any_name ps n :
  Forall (fun p => match p with String d _ => name_byte d = false | EmptyString => False end) ps →
  from_bad n = None → Str.strip_any ps n = None.
Proof.
  intros Hps Hn. induction Hps as [|p ps Hp _ IH]; [done|]. cbn [Str.strip_any].
  destruct p as [|d p]; [done|]. destruct n as [|c n]; [done|]. cbn [Str.strip_prefix].
  destruct (Ascii.eqb_spec d c) as [->|]; [|done]. cbn [from_bad] in Hn. by rewrite Hp in Hn.
Qed.

Lemma trim_name n : from_bad n = None → Str.trim n = n.
Proof.
  intros Hn. unfold Str.trim, Str.trim_start, Str.trim_end.
  rewrite !Str.strip_all_id; [apply Str.reverse_str_involutive|apply strip_any_name; [|done]|].
  - repeat constructor.
  - rewrite Str.strip_all_id by (apply strip_any_name; [repeat constructor|done]).
    apply strip_any_name; [repeat constructor|by apply from_bad_reverse].
Qed.

(** A canonical name is its own normal form. *)
Lemma parse_name_idem s n : parse_name s = Ok n → parse_name n = Ok n.
Proof.
  rewrite !parse_name_cases. intros (-> & Hok). split; [|done].
  rewrite (trim_name (to_ascii_lowercase (Str.trim s))) by apply Hok. by rewrite lowercase_id.
Qed.

Lemma database_name_no_dot n : from_bad n = None → Str.split_once "." n = None.
Proof.
  induction n as [|c n IH]; [done|]. cbn [from_bad]. destruct (name_byte c) eqn:Hc; [|done].
  intros Hn. cbn [Str.split_once Str.strip_prefix].
  destruct (Ascii.eqb_spec "."%char c) as [<-|]; [done|]. by rewrite IH.
Qed.

(** ** Isolation *)

(** The database a key belongs to. *)
Lemma prefixed_split d k : from_bad d = None → Str.split_once "." (d +:+ "." +:+ k) = Some (d, k).
Proof.
  intros Hd. apply Str.split_once_app; [done|]. change (Str.butlast ".") with "".
  rewrite Str.app_empty_r. by apply database_name_no_dot.
Qed.

(** The rows of two databases never share a key: whatever the row keys, the
    prefixed keys of two parsed database names are equal only if the databases and
    the row keys are. *)
Lemma database_keys_disjoint (s1 s2 d1 d2 k1 k2 : string) :
  parse_name s1 = Ok d1 → parse_name s2 = Ok d2 →
  AcidTx.db_prefix_key d1 k1 = AcidTx.db_prefix_key d2 k2 → d1 = d2 ∧ k1 = k2.
Proof.
  intros [_ H1]%parse_name_cases [_ H2]%parse_name_cases. unfold AcidTx.db_prefix_key.
  assert (∀ d, name_ok d → String.eqb d "" = false) as Hne.
  { intros d (_ & Hl & _). apply String.eqb_neq. intros ->. cbn in Hl. lia. }
  rewrite !Hne by done. intros Heq.
  pose proof (prefixed_split d1 k1 (proj1 H1)) as Hs1. pose proof (prefixed_split d2 k2 (proj1 H2)) as Hs2.
  rewrite Heq, Hs2 in Hs1. by injection Hs1 as -> ->.
Qed.


(** ** Dropping a database *)

Lemma purge_keys_view x keys rs :
  in_batch x rs →
  in_batch x (fold_left (fun rs k => (RowStore.delete x k rs).2) keys rs) ∧
  ∀ k, view (fold_left (fun rs k => (RowStore.delete x k rs).2) keys rs) !! k
       = if decide (k ∈ keys) then None else view rs !! k.
Proof.
  revert rs. induction keys as [|k' keys IH]; intros rs Hb; cbn [fold_left].
  { split; [done|]. intros k. by rewrite decide_False by apply not_elem_of_nil. }
  destruct (delete_in_batch x k' rs Hb) as [Hb1 Hv1]. destruct (IH _ Hb1) as [Hb' Hv']. split; [done|].
  intros k. rewrite Hv', Hv1. destruct (decide (k = k')) as [->|Hne].
  - rewrite lookup_delete_eq. rewrite (decide_True (P := k' ∈ k' :: keys)) by left. by destruct (decide _).
  - rewrite lookup_delete_ne by done. destruct (decide (k ∈ keys)) as [Hin|Hni].
    + rewrite decide_True; [done|by right].
    + rewrite decide_False; [done|]. by intros [?|?]%elem_of_cons.
Qed.

Lemma purge_view {E} `{!RowEngine E} db rs (e : E) :
  replica_store rs → RowStore.next_xid rs < u64_max →
  let '(rs', e') := Flush.purge_database_rows db rs e in
  e' = drop_db_column_family db e ∧
  ∀ k, RowStore.read_latest k rs'
       = if Str.starts_with (db +:+ ".") k then None else RowStore.read_latest k rs.
Proof.
  intros Hrs Hx. destruct (begin_batch rs Hrs Hx) as [Hb Hv].
  unfold Flush.purge_database_rows. cbn [RowStore.begin_xid] in *.
  set (rs0 := RowStore.set_next_xid _ rs) in *.
  change ((RowStore.begin_xid rs).2) with rs0 in Hb, Hv.
  match goal with |- context [fold_left _ ?l _] => set (keys := l) end.
  destruct (purge_keys_view (RowStore.next_xid rs) keys rs0 Hb) as [_ Hp]. split; [done|]. intros k.
  rewrite <- !view_lookup, Hp, Hv.
  assert (k ∈ keys ↔ Str.starts_with (db +:+ ".") k = true ∧ is_Some (view rs !! k)) as Hk.
  { unfold keys, RowStore.export_rows_snapshot.
    pose proof (scan_pages_iff (fun r => RowStore.visible_at r (RowStore.current_xid rs0)) rs0 (proj1 Hb)) as [_ Hiff].
    rewrite list_elem_of_In, in_map_iff. rewrite <- Hv, view_lookup. split.
    - intros ([k' d] & <- & [Hin Hs]%filter_In). split; [done|]. apply list_elem_of_In, Hiff in Hin as (r & Hr & Hd).
      exists d. unfold RowStore.read_latest, RowStore.read_at_snapshot. cbn [fst]. by rewrite Hr.
    - intros [Hs [d Hd]]. exists (k, d). split; [done|]. apply filter_In. split; [|done].
      apply list_elem_of_In, Hiff. unfold RowStore.read_latest, RowStore.read_at_snapshot in Hd.
      destruct (RowStore.first_row k (RowStore.pages rs0)) as [r|]; [by exists r|done]. }
  destruct (decide (k ∈ keys)) as [Hin|Hni].
  - by rewrite (proj1 (proj1 Hk Hin)).
  - destruct (Str.starts_with (db +:+ ".") k) eqn:Hs; [|done].
    destruct (view rs !! k) eqn:Hr; [|done]. exfalso. apply Hni, Hk. by eauto.
Qed.

Lemma other_key_kept d d' k :
  name_ok d → name_ok d' → d ≠ d' → Str.starts_with (d +:+ ".") (AcidTx.db_prefix_key d' k) = false.
Proof.
  intros Hd Hd' Hne. unfold Str.starts_with.
  destruct (Str.strip_prefix (d +:+ ".") _) as [r|] eqn:Hs; [|done]. exfalso. apply Hne.
  apply Str.strip_prefix_Some in Hs. rewrite Str.app_assoc_str in Hs. unfold AcidTx.db_prefix_key in Hs.
  destruct (String.eqb_spec d' "") as [->|_]; [by destruct Hd' as (_ & _ & _ & [])|].
  pose proof (prefixed_split d r (proj1 Hd)) as H1. pose proof (prefixed_split d' k (proj1 Hd')) as H2.
  rewrite <- Hs in H1. congruence.
Qed.

Section Drop.
Context {E : Type} `{!Wal.DurabilityEngine E} `{!RowEngine E}.

(** DROP DATABASE removes one database and no other.  When the statement
    names an existing database, in any spelling, the database leaves the catalogue,
    none of its rows can be read any more, the engine's column family is dropped,
    and every row of every other database, and every row outside all databases whose
    key does not begin with the name and a dot, is read as before. *)
Theorem drop_database_is_isolated (st : DbServer E) (s n : string) (flag : bool) :
  replica_store (row_store st) → RowStore.next_xid (row_store st) < u64_max →
  parse_name s = Ok n → is_Some (databases (database_catalog st) !! n) →
  ∃ st', sql_drop_database n flag st = (200, st') ∧
    databases (database_catalog st') = base.delete n (databases (database_catalog st)) ∧
    wal_engine st' = log_ddl ("DROP DATABASE " +:+ n) (drop_db_column_family n (wal_engine st)) ∧
    (∀ k, RowStore.read_latest (AcidTx.db_prefix_key n k) (row_store st') = None) ∧
    (∀ s' n' k, parse_name s' = Ok n' → n' ≠ n →
       RowStore.read_latest (AcidTx.db_prefix_key n' k) (row_store st')
       = RowStore.read_latest (AcidTx.db_prefix_key n' k) (row_store st)) ∧
    (∀ k, Str.starts_with (n +:+ ".") k = false →
       RowStore.read_latest k (row_store st') = RowStore.read_latest k (row_store st)).
Proof.
  intros Hrs Hx Hs [d Hd]. pose proof (proj2 (proj1 (parse_name_cases _ _) Hs)) as Hok.
  unfold sql_drop_database, drop_database. rewrite (parse_name_idem s n Hs), Hd.
  pose proof (purge_view n (row_store st) (wal_engine st) Hrs Hx) as Hp.
  destruct (Flush.purge_database_rows n (row_store st) (wal_engine st)) as [rs e]. destruct Hp as [-> Hread].
  eexists. split; [reflexivity|]. cbn [databases database_catalog wal_engine row_store].
  split_and!; [done|done| | |].
  - intros k. rewrite Hread. unfold AcidTx.db_prefix_key.
    destruct (String.eqb_spec n "") as [->|_]; [by destruct Hok as (_ & _ & _ & [])|].
    rewrite <- Str.app_assoc_str, Str.starts_with_app. done.
  - intros s' n' k [_ Hn']%parse_name_cases Hne. by rewrite Hread, other_key_kept.
  - intros k Hk. by rewrite Hread, Hk.
Qed.
End Drop.

(** ** Restart *)

(** Two catalogues with the same databases, whatever they say about them. *)
#[export] Instance catalog_equiv : Equiv DatabaseCatalog := fun c c' => dom (databases c) = dom (databases c').

#[export] Instance catalog_equivalence : Equivalence (≡@{DatabaseCatalog}).
Proof. unfold equiv, catalog_equiv. split; [done|by intros c c'|intros c1 c2 c3 H1 H2; congruence]. Qed.

Definition any {A} : relation A := fun _ _ => True.

Definition after_create (n : string) (now : N) (own desc : option string) (c : DatabaseCatalog) : DatabaseCatalog :=
  (create n now own desc c).2.

Definition after_drop (n : string) (if_exists : bool) (c : DatabaseCatalog) : DatabaseCatalog :=
  (drop_database n if_exists c).2.

Lemma listed_iff n c : is_Some (databases c !! n) ↔ n ∈ dom (databases c).
Proof. by rewrite elem_of_dom. Qed.

Lemma after_create_dom n now own desc c :
  dom (databases (after_create n now own desc c))
  = match parse_name n with Ok key => {[key]} ∪ dom (databases c) | Err _ => dom (databases c) end.
Proof.
  unfold after_create, create. destruct (parse_name n) as [key|]; [|done].
  destruct (decide _) as [Hk|Hk]; cbn; [|by rewrite dom_insert_L].
  apply listed_iff in Hk. set_solver.
Qed.

Lemma after_drop_dom n f c :
  dom (databases (after_drop n f c))
  = match parse_name n with Ok key => dom (databases c) ∖ {[key]} | Err _ => dom (databases c) end.
Proof.
  unfold after_drop, drop_database. destruct (parse_name n) as [key|]; [|done].
  destruct (databases c !! key) eqn:Hk; cbn; [by rewrite dom_delete_L|].
  apply not_elem_of_dom in Hk. destruct f; cbn; set_solver.
Qed.

#[export] Instance after_create_proper : Proper ((=) ==> any ==> any ==> any ==> (≡) ==> (≡)) after_create.
Proof.
  intros n ? <- t t' _ o o' _ d d' _ c c' Hc. unfold equiv, catalog_equiv in *.
  by rewrite !after_create_dom, Hc.
Qed.

#[export] Instance after_drop_proper : Proper ((=) ==> any ==> (≡) ==> (≡)) after_drop.
Proof.
  intros n ? <- f f' _ c c' Hc. unfold equiv, catalog_equiv in *. by rewrite !after_drop_dom, Hc.
Qed.

#[export] Instance replay_line_proper : Proper (any ==> (=) ==> (≡) ==> (≡)) replay_database_line.
Proof.
  intros t t' Ht sql ? <- c c' Hc. unfold replay_database_line.
  repeat case_match; try done.
  - apply (after_create_proper _ _ eq_refl _ _ I _ _ I _ _ I _ _ Hc).
  - apply (after_drop_proper _ _ eq_refl _ _ I _ _ Hc).
Qed.

(** The line of a canonical name is replayed as that name. *)
Lemma lower_upper s : to_ascii_lowercase (Str.to_ascii_uppercase s) = to_ascii_lowercase s.
Proof.
  induction s as [|c s IH]; [done|]. cbn. rewrite IH. f_equal.
  destruct c as [[] [] [] [] [] [] [] []]; reflexivity.
Qed.

Lemma from_bad_upper n : from_bad n = None → from_bad (Str.to_ascii_uppercase n) = None.
Proof.
  induction n as [|c n IH]; [done|]. cbn [from_bad Str.to_ascii_uppercase].
  destruct (name_byte c) eqn:Hc; [|done]. intros Hn.
  assert (name_byte (Str.ascii_upper c) = true) as ->
    by (revert Hc; destruct c as [[] [] [] [] [] [] [] []]; cbn; done). by apply IH.
Qed.

Lemma strip_any_first ps c r :
  Forall (fun p => match p with String d _ => name_byte d = false | EmptyString => False end) ps →
  name_byte c = true → Str.strip_any ps (String c r) = None.
Proof.
  intros Hps Hc. induction Hps as [|p ps Hp _ IH]; [done|]. cbn [Str.strip_any].
  destruct p as [|d p]; [done|]. cbn [Str.strip_prefix].
  destruct (Ascii.eqb_spec d c) as [->|]; [congruence|done].
Qed.

Lemma trim_line p c r n :
  p = String c r → name_byte c = true → from_bad n = None → n ≠ "" → Str.trim (p +:+ n) = p +:+ n.
Proof.
  intros -> Hc Hn Hne. unfold Str.trim, Str.trim_start.
  change (String c r +:+ n) with (String c (r +:+ n)).
  rewrite (Str.strip_all_id _ _ (String c (r +:+ n))) by (apply strip_any_first; [repeat constructor|done]).
  unfold Str.trim_end. change (String c (r +:+ n)) with (String c r +:+ n). rewrite Str.reverse_str_app.
  destruct (Str.reverse_str n) as [|d q] eqn:Hr.
  { exfalso. apply Hne. apply (f_equal Str.reverse_str) in Hr. by rewrite Str.reverse_str_involutive in Hr. }
  pose proof (from_bad_reverse n Hn) as Hb. rewrite Hr in Hb. cbn [from_bad] in Hb.
  destruct (name_byte d) eqn:Hd; [|done].
  rewrite Str.strip_all_id by (apply strip_any_first; [repeat constructor|done]).
  rewrite <- Hr, Str.reverse_str_app, !Str.reverse_str_involutive. done.
Qed.

Lemma upper_app a b : Str.to_ascii_uppercase (a +:+ b) = Str.to_ascii_uppercase a +:+ Str.to_ascii_uppercase b.
Proof.
  induction a as [|c a IH]; [done|].
  change (String (Str.ascii_upper c) (Str.to_ascii_uppercase (a +:+ b))
          = String (Str.ascii_upper c) (Str.to_ascii_uppercase a +:+ Str.to_ascii_uppercase b)). by rewrite IH.
Qed.

Lemma replay_canonical now n c :
  name_ok n → to_ascii_lowercase n = n →
  replay_database_line now ("CREATE DATABASE " +:+ n) c = after_create n now None None c ∧
  replay_database_line now ("DROP DATABASE " +:+ n) c = after_drop n true c.
Proof.
  intros (Hbad & Hlen & _) Hlow. assert (n ≠ "") as Hne by (intros ->; cbn in Hlen; lia).
  assert (to_ascii_lowercase (Str.trim (Str.to_ascii_uppercase n)) = n) as Hback
    by (by rewrite trim_name, lower_upper by (by apply from_bad_upper)).
  unfold replay_database_line.
  rewrite !(trim_line _ _ _ n eq_refl) by done. rewrite !upper_app.
  change (Str.to_ascii_uppercase "CREATE DATABASE ") with "CREATE DATABASE ".
  change (Str.to_ascii_uppercase "DROP DATABASE ") with "DROP DATABASE ".
  rewrite !Str.strip_prefix_app, Hback. cbn [Str.strip_prefix]. split.
  - by destruct (String.eqb_spec n "").
  - by destruct (String.eqb_spec n "").
Qed.

Section Restart.
Context {E : Type} `{!Wal.DurabilityEngine E} `{!Wal.PersistsSql E} `{!RowEngine E}.
(** Dropping a column family leaves the statement log alone. *)
Hypothesis drop_cf_sql : ∀ n (e : E) j, Wal.iter_sql j (drop_db_column_family n e) = Wal.iter_sql j e.

Definition other_line (sql : string) : Prop := ∀ now c, replay_database_line now sql c = c.

(** Names as the statement parser gives them: lower case, no blanks. *)
Definition plain_name (n : string) : Prop := to_ascii_lowercase n = n ∧ Str.trim n = n.

Inductive db_step : DbServer E -> DbServer E -> Prop :=
| ds_create now n flag st : plain_name n → db_step st (sql_create_database now n flag st).2
| ds_drop n flag st : plain_name n → db_step st (sql_drop_database n flag st).2
| ds_admin_create now n own desc flag st : db_step st (admin_databases_create now n own desc flag st).2
| ds_admin_drop n flag st : db_step st (admin_databases_drop n flag st).2
| ds_other sql st : other_line sql →
    db_step st (mkDbServer (database_catalog st) (ddl_catalog st) (row_store st) (log_ddl sql (wal_engine st))).

Definition replayed_catalog (now : N) (e : E) : DatabaseCatalog :=
  fold_left (fun c s => replay_database_line now s c) (Wal.iter_sql Wal.Ddl e) Meta.new.

Definition db_consistent (st : DbServer E) : Prop :=
  (∀ key d, databases (database_catalog st) !! key = Some d → name d = key) ∧
  ∀ now, replayed_catalog now (wal_engine st) ≡ database_catalog st.

Lemma replayed_log now sql e :
  replayed_catalog now (log_ddl sql e) = replay_database_line now sql (replayed_catalog now e).
Proof.
  unfold replayed_catalog, log_ddl. rewrite Wal.append_sql_iter, decide_True by done. by rewrite fold_left_app.
Qed.

Lemma plain_key n key : plain_name n → parse_name n = Ok key → key = n ∧ name_ok n.
Proof. intros [Hl Ht] [-> Hok]%parse_name_cases. rewrite Ht, Hl in *. done. Qed.

Lemma created_key n now own desc c d c' :
  create n now own desc c = (Ok d, c') → ∃ key, parse_name n = Ok key ∧ name d = key ∧
    databases c' = <[key := d]> (databases c).
Proof.
  unfold create. destruct (parse_name n) as [key|]; [|done]. destruct (decide _); [done|].
  intros [= <- <-]. by exists key.
Qed.

Lemma key_canonical s key : parse_name s = Ok key → name_ok key ∧ to_ascii_lowercase key = key.
Proof. intros [-> Hok]%parse_name_cases. split; [done|apply lowercase_id]. Qed.

(** Creating and dropping with the line of the canonical name in the log. *)
Lemma create_consistent_db now n own desc d c' st rs e :
  db_consistent st → create n now own desc (database_catalog st) = (Ok d, c') →
  Wal.iter_sql Wal.Ddl e = Wal.iter_sql Wal.Ddl (wal_engine st) →
  db_consistent (mkDbServer c' (ddl_catalog st) rs (log_ddl ("CREATE DATABASE " +:+ name d) e)).
Proof.
  intros [Hk Hr] Hc He. destruct (created_key _ _ _ _ _ _ _ Hc) as (key & Hp & Hn & Hdb).
  destruct (key_canonical _ _ Hp) as [Hok Hlow]. split; cbn [database_catalog wal_engine].
  - intros k d'. rewrite Hdb. intros [[<- <-]|[_ ?]]%lookup_insert_Some; [done|by apply Hk].
  - intros now'. rewrite replayed_log, Hn, (proj1 (replay_canonical now' key _ Hok Hlow)).
    assert (replayed_catalog now' e = replayed_catalog now' (wal_engine st)) as -> by (unfold replayed_catalog; by rewrite He).
    unfold equiv, catalog_equiv. rewrite after_create_dom, (parse_name_idem _ _ Hp), (Hr now'), Hdb.
    by rewrite dom_insert_L.
Qed.

Lemma drop_consistent_db n flag d c' st dc rs e :
  db_consistent st → drop_database n flag (database_catalog st) = (Ok (Some d), c') →
  Wal.iter_sql Wal.Ddl e = Wal.iter_sql Wal.Ddl (wal_engine st) ++ ["DROP DATABASE " +:+ name d] →
  db_consistent (mkDbServer c' dc rs e).
Proof.
  intros [Hk Hr] Hc He. unfold drop_database in Hc. destruct (parse_name n) as [key|] eqn:Hp; [|done].
  destruct (databases (database_catalog st) !! key) as [d0|] eqn:Hd; [|by destruct flag]. injection Hc as -> <-.
  destruct (key_canonical _ _ Hp) as [Hok Hlow]. pose proof (Hk _ _ Hd) as Hn. split; cbn [database_catalog wal_engine].
  - intros k d'. cbn. intros [_ ?]%lookup_delete_Some. by apply Hk.
  - intros now'. unfold replayed_catalog. rewrite He, fold_left_app. cbn [fold_left].
    rewrite Hn, (proj2 (replay_canonical now' key _ Hok Hlow)). fold (replayed_catalog now' (wal_engine st)).
    unfold equiv, catalog_equiv. rewrite after_drop_dom, (parse_name_idem _ _ Hp), (Hr now').
    cbn. by rewrite dom_delete_L.
Qed.

Lemma log_line sql (e : E) : Wal.iter_sql Wal.Ddl (log_ddl sql e) = Wal.iter_sql Wal.Ddl e ++ [sql].
Proof. unfold log_ddl. by rewrite Wal.append_sql_iter, decide_True. Qed.

Lemma db_step_consistent st st' : db_step st st' → db_consistent st → db_consistent st'.
Proof.
  intros Hstep Hc. destruct Hstep as [now n flag st Hn|n flag st Hn|now n own desc flag st|n flag st|sql st Hs].
  - unfold sql_create_database. destruct (create n now None None (database_catalog st)) as [[d|e] c'] eqn:Hcr.
    + destruct (created_key _ _ _ _ _ _ _ Hcr) as (key & Hp & Hk & _).
      destruct (plain_key _ _ Hn Hp) as [-> _]. rewrite <- Hk. by eapply create_consistent_db.
    + by destruct e as [?|?|?].
  - unfold sql_drop_database. destruct (drop_database n flag (database_catalog st)) as [[[d|]|e] c'] eqn:Hd; try done.
    unfold Flush.purge_database_rows. cbn [RowStore.begin_xid snd].
    assert (name d = n) as Hnm.
    { pose proof Hd as Hd'. unfold drop_database in Hd'. destruct (parse_name n) as [key|] eqn:Hp; [|done].
      destruct (databases (database_catalog st) !! key) as [d0|] eqn:Hl; [|by destruct flag]. injection Hd' as -> _.
      destruct (plain_key _ _ Hn Hp) as [-> _]. by apply Hc in Hl. }
    eapply drop_consistent_db; [done|done|]. by rewrite log_line, drop_cf_sql, Hnm.
  - unfold admin_databases_create.
    destruct (create n now own desc (database_catalog st)) as [[d|e] c'] eqn:Hcr; [by eapply create_consistent_db|].
    by destruct e.
  - unfold admin_databases_drop. destruct (drop_database n flag (database_catalog st)) as [[[d|]|e] c'] eqn:Hd; try done.
    + unfold Flush.purge_database_rows. cbn [RowStore.begin_xid snd].
      eapply drop_consistent_db; [done|done|]. by rewrite drop_cf_sql, log_line.
    + by destruct e.
  - destruct Hc as [Hk Hr]. split; [done|]. intros now. cbn [wal_engine database_catalog].
    rewrite replayed_log, Hs. apply Hr.
Qed.

(** Databases survive a restart.  On an engine that persists statements, the
    catalogue rebuilt from the log of a server that started without databases and
    served any sequence of CREATE and DROP DATABASE statements and admin requests,
    with other statements logged in between, lists exactly the server's databases
    (owners, descriptions and creation times are those of the restart). *)
Theorem databases_survive_restart (st st' : DbServer E) (now : N) :
  (∀ e : E, Wal.persists_sql e = true) →
  database_catalog st = Meta.new → Wal.iter_sql Wal.Ddl (wal_engine st) = [] → rtc db_step st st' →
  replay_database_catalog_into now (wal_engine st') Meta.new ≡ database_catalog st'.
Proof.
  intros Hp Hnew Hl Hr.
  assert (db_consistent st) as Hc.
  { split; [by rewrite Hnew|]. intros t. unfold replayed_catalog. by rewrite Hl, Hnew. }
  assert (db_consistent st') as [_ Hc'].
  { clear Hnew Hl. induction Hr as [st|st st1 st2 Hs _ IH]; [done|]. by apply IH, (db_step_consistent st). }
  unfold replay_database_catalog_into. rewrite Hp, Wal.sql_count_iter. cbn [andb].
  specialize (Hc' now). unfold replayed_catalog in Hc'. by destruct (Wal.iter_sql Wal.Ddl (wal_engine st')).
Qed.
End Restart.

(** ** Examples *)

Module Demo.
#[export] Existing Instance Wal.in_memory_engine.
#[export] Instance demo_persists : Wal.PersistsSql Wal.InMemoryDurabilityEngine := in_memory_persists_sql.
#[export] Instance demo_rows : RowEngine Wal.InMemoryDurabilityEngine := in_memory_rows 0.

(** A row of database [shop] and one of [shop2]. *)
Definition two_rows : RowStore.PagedRowStore :=
  default (toy_store 4)
    (let! s := RowStore.insert 1 "shop.t:1" {["v" := "1"]} (RowStore.begin_xid (toy_store 4)).2 in
     RowStore.insert 1 "shop2.t:1" {["v" := "2"]} s).

Lemma two_rows_replica : replica_store two_rows.
Proof.
  destruct (begin_batch (toy_store 4)) as [Hb _]; [by apply toy_replica_store; lia|done|].
  edestruct (insert_in_batch 1 "shop.t:1" {["v" := "1"]}) as (s & Hs & Hb1 & _); [exact Hb|].
  edestruct (insert_in_batch 1 "shop2.t:1" {["v" := "2"]}) as (s' & Hs' & Hb2 & _); [exact Hb1|].
  unfold two_rows. rewrite Hs, Hs'. by apply (in_batch_replica 1).
Qed.

Definition start : DbServer Wal.InMemoryDurabilityEngine :=
  mkDbServer Meta.new DdlCatalog.new two_rows (Wal.with_config Wal.default_config).

Definition created : DbServer Wal.InMemoryDurabilityEngine :=
  (admin_databases_create 9 "Shop" (Some "ann") None false (sql_create_database 5 "shop2" false start).2).2.
End Demo.
Import Demo.

Lemma drop_database_is_isolated_witness :
  ∃ st', sql_drop_database "shop" false created = (200, st') ∧
    RowStore.read_latest "shop.t:1" (row_store st') = None ∧
    RowStore.read_latest "shop2.t:1" (row_store st') = RowStore.read_latest "shop2.t:1" (row_store created).
Proof.
  destruct (drop_database_is_isolated created "Shop" "shop" false)
    as (st' & Hd & _ & _ & Hgone & Hkept & _).
  - apply two_rows_replica.
  - done.
  - vm_compute. reflexivity.
  - vm_compute. eexists. reflexivity.
  - exists st'. split; [exact Hd|]. split; [apply (Hgone "t:1")|].
    apply (Hkept "shop2" "shop2" "t:1"); [vm_compute; reflexivity|discriminate].
Defined.

Lemma databases_survive_restart_witness :
  replay_database_catalog_into 100 (wal_engine created) Meta.new ≡ database_catalog created.
Proof.
  refine (databases_survive_restart (fun _ _ _ => eq_refl) start created 100 (fun _ => eq_refl) eq_refl eq_refl _).
  apply (rtc_l _ _ (sql_create_database 5 "shop2" false start).2).
  - apply ds_create. split; vm_compute; reflexivity.
  - apply rtc_once. apply ds_admin_create.
Defined.

(** The owner given to the admin endpoint is gone after a restart. *)
Lemma owner_lost_at_restart :
  (owner <$> get "shop" (database_catalog created),
   owner <$> get "shop" (replay_database_catalog_into 100 (wal_engine created) Meta.new))
  = (Some (Some "ann"), Some None).
Proof. vm_compute. reflexivity. Qed.

(** Dropped through the admin endpoint, a database leaves its tables in the DDL
    catalogue; dropped by SQL, it does not. *)
Lemma admin_drop_keeps_tables :
  let st := mkDbServer (database_catalog created)
    (DdlCatalog.record_create "table" "shop" "public" "t" "CREATE TABLE shop.public.t (id INT)" 5 false
       (ddl_catalog created)).2 (row_store created) (wal_engine created) in
  (DdlCatalog.total_count (ddl_catalog (admin_databases_drop "shop" false st).2),
   DdlCatalog.total_count (ddl_catalog (sql_drop_database "shop" false st).2)) = (1%nat, 0%nat).
Proof. vm_compute. reflexivity. Qed.
