(* ===== verification/Select.v ===== *)
(** * The SELECT executor ([crates/voltnuerongrid-exec-datafusion/src/lib.rs],
      [services/voltnuerongridd/src/helpers/execution.rs])

    A parsed SELECT is run against the row store: the WHERE clause is evaluated
    row by row on typed values, the matching rows are aggregated, or ordered,
    windowed and projected.  [execute_oltp_select] tries DataFusion for complex
    queries, then this executor, then a legacy scan.

    The [sqlparser] library, DataFusion and [f64] are interfaces. *)

From S2P Require Import Prelude Str Decimal SqlKind Mvcc Tokenizer Utf8.
From Stdlib Require Import Ascii.
Local Open Scope string_scope.
Local Open Scope list_scope.
Local Open Scope vng_scope.

Abbreviation RowData := (gmap string string).

Module Select.

(** ** [f64] *)

(** Parsing, [partial_cmp] ([None] with a NaN), negation, addition, division,
    [as] conversions, [fract() == 0.0] and [Display]. *)
Class F64 (F : Type) := {
  f64_parse : string -> option F;
  f64_cmp : F -> F -> option comparison;
  f64_of_i64 : Z -> F;
  f64_of_u64 : N -> F;
  f64_neg : F -> F;
  f64_add : F -> F -> F;
  f64_div : F -> F -> F;
  f64_zero : F;
  f64_fract_zero : F -> bool;
  f64_to_i64 : F -> Z;
  f64_to_string : F -> string;
}.

(** ** [i64] *)

Definition i64_max : Z := 9223372036854775807.
Definition i64_min : Z := -9223372036854775808.

(** The value at width 64 of a result that wrapped around. *)
Definition i64_wrap (z : Z) : Z :=
  ((z + 9223372036854775808) mod 18446744073709551616 - 9223372036854775808)%Z.

Definition i64_saturating_add (a b : Z) : Z := Z.max i64_min (Z.min i64_max (a + b)).

(** [s.parse::<i64>()] *)
Definition parse_i64 (s : string) : option Z :=
  match Str.strip_prefix "-" s with
  | Some "" => None
  | Some r => Z.opp ∘ Z.of_N <$> Dec.parse_digits 9223372036854775808 0 r
  | None => Z.of_N <$> Dec.parse 9223372036854775807 s
  end.

Definition i64_to_string (z : Z) : string :=
  if (z <? 0)%Z then "-" +:+ Dec.to_string (Z.to_N (- z)) else Dec.to_string (Z.to_N z).

(** ** Syntax of predicates: the part of [sqlparser::ast] the executor looks at *)

Inductive BinaryOperator := And | Or | Eq | NotEq | Lt | LtEq | Gt | GtEq | OtherOp (debug : string).

Inductive UnaryOperator := Not | Minus | Plus | OtherUnary.

Inductive Value :=
| Number (n : string)
| SingleQuotedString (s : string)
| DoubleQuotedString (s : string)
| EscapedStringLiteral (s : string)
| NationalStringLiteral (s : string)
| HexStringLiteral (s : string)
| Boolean (b : bool)
| NullValue
| OtherValue.

Inductive Expr :=
| BinaryOp (left : Expr) (op : BinaryOperator) (right : Expr)
| UnaryOp (op : UnaryOperator) (expr : Expr)
| IsNull (expr : Expr)
| IsNotNull (expr : Expr)
| Between (negated : bool) (expr low high : Expr)
| InList (expr : Expr) (list : list Expr) (negated : bool)
| Like (negated : bool) (expr pattern : Expr)
| Nested (expr : Expr)
| Identifier (ident : string)
| CompoundIdentifier (parts : list string)
| ValueExpr (v : Value)
| OtherExpr.

(** ** Results *)

Record ResultRow := mkRow { key : string; data : RowData }.

Inductive ExecError :=
| Unsupported (s : string)
| BadPredicate (s : string)
| NotASelect
| UnknownColumn (c : string)
| Timeout.

(** The fields of [SelectStatement] the executor reads. *)
Record SelectStatement := mkSelect {
  columns : list string;
  table : option string;
  has_join : bool;
  where_clause : option string;
  order_by : list (string * bool);
  limit : option N;
  offset : option N;
  has_group_by : bool;
  has_having : bool;
  has_subquery : bool;
  has_window_fn : bool;
}.

(** [voltnuerongrid_sql::parse_one] ([None]: another statement than a SELECT), and
    [Parser::parse_sql] of the [sqlparser] library as the executor uses it: for
    each statement its WHERE clause, if it is a plain query. *)
Class SqlParser := {
  parse_one : string -> result (option SelectStatement) string;
  parse_sql : string -> result (list (option (option Expr))) string;
}.

(** [slice::sort_by]: stable.  (On comparisons that are no total order Rust
    leaves the resulting order open.) *)
Fixpoint insert_by {A} (cmp : A -> A -> comparison) (x : A) (l : list A) : list A :=
  match l with
  | [] => [x]
  | y :: l' => match cmp x y with Datatypes.Gt => y :: insert_by cmp x l' | _ => x :: l end
  end.

Definition sort_by {A} (cmp : A -> A -> comparison) (l : list A) : list A :=
  foldr (insert_by cmp) [] l.

(** [&s[from..to]]: [None] when the range or a boundary is invalid. *)
Definition char_boundary (s : string) (i : nat) : bool :=
  match String.get i s with
  | None => Nat.eqb i (String.length s)
  | Some c => let n := N_of_ascii c in negb ((128 <=? n) && (n <? 192))%N
  end.

Definition slice (from to : nat) (s : string) : option string :=
  if Nat.leb from to && Nat.leb to (String.length s) && char_boundary s from && char_boundary s to
  then Some (Str.sub from to s) else None.

Section Executor.
Context {F : Type} `{!F64 F} `{!SqlParser}.

(** ** Values *)

Inductive Val := Int (i : Z) | Float (f : F) | Text (s : string) | Bool (b : bool) | Null.

Definition parse_str_to_value (s : string) : Val :=
  if String.eqb s "" then Text ""
  else match parse_i64 s with
  | Some i => Int i
  | None =>
      match f64_parse s with
      | Some f => Float f
      | None =>
          if SqlKind.eq_ignore_ascii_case s "true" then Bool true
          else if SqlKind.eq_ignore_ascii_case s "false" then Bool false
          else Text s
      end
  end.

Definition col_value (row : ResultRow) (name : string) : Val :=
  if String.eqb name "_key" then Text (key row)
  else match data row !! name with None => Null | Some s => parse_str_to_value s end.

Definition literal (v : Value) : Val :=
  match v with
  | Number n =>
      match parse_i64 n with
      | Some i => Int i
      | None => match f64_parse n with Some f => Float f | None => Text n end
      end
  | SingleQuotedString s | DoubleQuotedString s | EscapedStringLiteral s
  | NationalStringLiteral s | HexStringLiteral s => Text s
  | Boolean b => Bool b
  | NullValue | OtherValue => Null
  end.

Fixpoint eval_value (e : Expr) (row : ResultRow) : Val :=
  match e with
  | Identifier ident => col_value row ident
  | CompoundIdentifier parts => col_value row (default "" (last parts))
  | ValueExpr v => literal v
  | Nested e => eval_value e row
  | UnaryOp Minus e =>
      match eval_value e row with
      | Int i => Int (i64_wrap (- i))
      | Float f => Float (f64_neg f)
      | _ => Null
      end
  | UnaryOp Plus e => eval_value e row
  | _ => Null
  end.

Definition value_to_string (v : Val) : string :=
  match v with
  | Int i => i64_to_string i
  | Float f => f64_to_string f
  | Text s => s
  | Bool b => if b then "true" else "false"
  | Null => ""
  end.

Definition value_truthy (v : Val) : bool :=
  match v with
  | Bool b => b
  | Int i => negb (i =? 0)%Z
  | Float f => negb (bool_decide (f64_cmp f f64_zero = Some Datatypes.Eq))
  | Text s => negb (String.eqb s "")
  | Null => false
  end.

(** ** Comparison *)

(** [partial_cmp(..).unwrap_or(Equal)] *)
Definition f64_order (x y : F) : comparison := default Datatypes.Eq (f64_cmp x y).

Definition bool_cmp (x y : bool) : comparison :=
  match x, y with
  | false, true => Datatypes.Lt
  | true, false => Datatypes.Gt
  | _, _ => Datatypes.Eq
  end.

Definition value_cmp (a b : Val) : comparison :=
  match a, b with
  | Int x, Int y => (x ?= y)%Z
  | Float x, Float y => f64_order x y
  | Int x, Float y => f64_order (f64_of_i64 x) y
  | Float x, Int y => f64_order x (f64_of_i64 y)
  | Text x, Text y => String.compare x y
  | Bool x, Bool y => bool_cmp x y
  | _, _ => String.compare (value_to_string a) (value_to_string b)
  end.

Definition is_null (v : Val) : bool := match v with Null => true | _ => false end.

Definition op_holds (op : BinaryOperator) (ord : comparison) : bool :=
  match op, ord with
  | Eq, Datatypes.Eq => true
  | NotEq, (Datatypes.Lt | Datatypes.Gt) => true
  | Lt, Datatypes.Lt => true
  | LtEq, (Datatypes.Lt | Datatypes.Eq) => true
  | Gt, Datatypes.Gt => true
  | GtEq, (Datatypes.Gt | Datatypes.Eq) => true
  | _, _ => false
  end.

Definition compare_values (a : Val) (op : BinaryOperator) (b : Val) : bool :=
  if is_null a || is_null b then false else op_holds op (value_cmp a b).

(** ** LIKE *)

(** On the suffixes of the text and of the pattern; the loop over [skip] tries
    the suffixes of the text in turn. *)
Fixpoint glob_like_chars (t p : Tokenizer.text) {struct p} : bool :=
  match p with
  | [] => match t with [] => true | _ => false end
  | c :: p' =>
      if (c =? 37)%N then
        (fix any (t : Tokenizer.text) : bool :=
           glob_like_chars t p' || match t with [] => false | _ :: t' => any t' end) t
      else if (c =? 95)%N then
        match t with [] => false | _ :: t' => glob_like_chars t' p' end
      else
        match t with
        | [] => false
        | d :: t' => if (d =? c)%N then glob_like_chars t' p' else false
        end
  end.

Definition glob_like (s p : string) : bool := glob_like_chars (Utf8.of_utf8 s) (Utf8.of_utf8 p).

Definition like_match (v p : Val) : bool := glob_like (value_to_string v) (value_to_string p).

(** ** Predicates *)

Definition negate (negated b : bool) : bool := if negated then negb b else b.

Fixpoint eval_predicate (e : Expr) (row : ResultRow) : result bool ExecError :=
  match e with
  | BinaryOp l And r =>
      let? a := eval_predicate l row in if a then eval_predicate r row else Ok false
  | BinaryOp l Or r =>
      let? a := eval_predicate l row in if a then Ok true else eval_predicate r row
  | BinaryOp _ (OtherOp debug) _ => Err (Unsupported ("binary op " +:+ debug))
  | BinaryOp l op r => Ok (compare_values (eval_value l row) op (eval_value r row))
  | UnaryOp Not e => let? b := eval_predicate e row in Ok (negb b)
  | IsNull e => Ok (is_null (eval_value e row))
  | IsNotNull e => Ok (negb (is_null (eval_value e row)))
  | Between negated e low high =>
      let v := eval_value e row in
      let above := compare_values v GtEq (eval_value low row) in
      let below := compare_values v LtEq (eval_value high row) in
      Ok (negate negated (above && below))
  | InList e list negated =>
      let v := eval_value e row in
      Ok (negate negated (existsb (fun item => compare_values v Eq (eval_value item row)) list))
  | Like negated e pattern =>
      Ok (negate negated (like_match (eval_value e row) (eval_value pattern row)))
  | Nested e => eval_predicate e row
  | _ => Ok (value_truthy (eval_value e row))
  end.

Definition parse_predicate (s : string) : result Expr ExecError :=
  match parse_sql ("SELECT 1 FROM __t WHERE " +:+ s) with
  | Err e => Err (BadPredicate e)
  | Ok [] => Err (BadPredicate "empty parse")
  | Ok (Some (Some w) :: _) => Ok w
  | Ok _ => Err (BadPredicate "no WHERE in synthetic parse")
  end.

(** ** Projection *)

(** [expr AS alias]: the expression and the alias. *)
Definition split_alias (col : string) : string * option string :=
  let trimmed := Str.trim col in
  match Str.find_str " AS " (Str.to_ascii_uppercase trimmed) with
  | Some i =>
      (Str.trim (Str.sub 0 i trimmed),
       Some (Str.trim (Str.sub (i + 4) (String.length trimmed) trimmed)))
  | None => (trimmed, None)
  end.

(** [s.rsplit(sep).next()] *)
Definition after_last (sep : string) (s : string) : string := default s (last (Str.split sep s)).

Definition project_step (full_row out : RowData) (col : string) : RowData :=
  let '(source, alias) := split_alias col in
  let k := default source alias in
  match full_row !! source with
  | Some v => <[k := v]> out
  | None =>
      if Str.contains "." source then
        match full_row !! after_last "." source with
        | Some v => <[k := v]> out
        | None => out
        end
      else out
  end.

Definition project_columns (columns : list string) (full_row : RowData) : RowData :=
  if bool_decide (columns = []) || existsb (fun c => String.eqb (Str.trim c) "*") columns
  then full_row
  else fold_left (project_step full_row) columns ∅.

(** ** Aggregates *)

Inductive AggFunc := Count | Sum | Avg | Min | Max.

Inductive AggArg := Star | Column (c : string).

Record AggCall := mkAgg {
  func : AggFunc;
  arg : AggArg;
  display : string;
  alias : option string;
}.

Inductive AggregateCell := CellInt (i : Z) | CellFloat (f : F) | CellText (s : string) | CellNull.

Inductive SelectOutput :=
| Rows (rows : list ResultRow)
| Aggregate (columns : list string) (values : list AggregateCell).

(** The name after which the argument of each function starts. *)
Definition agg_names : list (AggFunc * string) :=
  [(Count, "COUNT("); (Sum, "SUM("); (Avg, "AVG("); (Min, "MIN("); (Max, "MAX(")].

(** [Some None]: not an aggregate; [None]: a slice panics. *)
Definition extract_aggregate (col : string) : option (option AggCall) :=
  let '(expr_str, al) := split_alias col in
  let upper := Str.to_ascii_uppercase expr_str in
  match List.find (fun fn => Str.starts_with fn.2 upper) agg_names with
  | None => Some None
  | Some (f, n) =>
      let! inner := slice (String.length n) (String.length expr_str - 1) expr_str in
      let inner := Str.trim inner in
      let a := match f with
               | Count => if String.eqb inner "*" then Star else Column inner
               | _ => Column inner
               end in
      Some (Some (mkAgg f a expr_str al))
  end.

Fixpoint extract_aggregates (projection : list string) : option (option (list AggCall)) :=
  match projection with
  | [] => Some (Some [])
  | col :: rest =>
      let! a := extract_aggregate col in
      match a with
      | None => Some None
      | Some a =>
          let! l := extract_aggregates rest in
          Some (cons a <$> l)
      end
  end.

Definition try_extract_aggregates (projection : list string) : option (option (list AggCall)) :=
  match projection with [] => Some None | _ => extract_aggregates projection end.

(** The values of a column, rows without it left out. *)
Definition column_values (c : string) (rows : list ResultRow) : list string :=
  omap (fun r => data r !! c) rows.

(** [(sum, any_int, int_sum)] *)
Definition sum_step (acc : F * bool * Z) (v : string) : F * bool * Z :=
  let '(sum, any_int, int_sum) := acc in
  match parse_i64 v with
  | Some i => (f64_add sum (f64_of_i64 i), any_int, i64_saturating_add int_sum i)
  | None =>
      match f64_parse v with
      | Some f => (f64_add sum f, false, int_sum)
      | None => acc
      end
  end.

Definition avg_step (acc : F * N) (v : string) : F * N :=
  match f64_parse v with
  | Some f => (f64_add acc.1 f, u64_add acc.2 1)
  | None => acc
  end.

(** [f < b], [f > b] *)
Definition f64_better (want_min : bool) (f b : F) : bool :=
  bool_decide (f64_cmp f b = Some (if want_min then Datatypes.Lt else Datatypes.Gt)).

Definition text_better (want_min : bool) (s b : string) : bool :=
  if want_min then String.ltb s b else String.ltb b s.

Definition minmax_step (want_min : bool) (best : option F * option string) (s : string)
    : option F * option string :=
  match f64_parse s with
  | Some f =>
      (Some (match best.1 with
             | None => f
             | Some b => if f64_better want_min f b then f else b
             end), best.2)
  | None =>
      (best.1, Some (match best.2 with
                     | None => s
                     | Some b => if text_better want_min s b then s else b
                     end))
  end.

Definition agg_minmax (rows : list ResultRow) (col : string) (want_min : bool) : AggregateCell :=
  match fold_left (minmax_step want_min) (column_values col rows) (None, None) with
  | (Some n, _) => if f64_fract_zero n then CellInt (f64_to_i64 n) else CellFloat n
  | (None, Some s) => CellText s
  | (None, None) => CellNull
  end.

Definition eval_aggregate (call : AggCall) (rows : list ResultRow) : AggregateCell :=
  match func call, arg call with
  | Count, Star => CellInt (i64_wrap (Z.of_nat (length rows)))
  | Count, Column c => CellInt (i64_wrap (Z.of_nat (length (column_values c rows))))
  | Sum, Column c =>
      let '(sum, any_int, int_sum) := fold_left sum_step (column_values c rows) (f64_zero, true, 0%Z) in
      if any_int then CellInt int_sum else CellFloat sum
  | Avg, Column c =>
      let '(sum, n) := fold_left avg_step (column_values c rows) (f64_zero, 0%N) in
      if (n =? 0)%N then CellNull else CellFloat (f64_div sum (f64_of_u64 n))
  | Min, Column c => agg_minmax rows c true
  | Max, Column c => agg_minmax rows c false
  | _, Star => CellNull
  end.

(** ** Execution *)

(** Keys are [<table>:<id>]. *)
Definition key_filter (table : option string) (k : string) : bool :=
  match table with
  | Some t => String.eqb k t || Str.starts_with (t +:+ ":") k
  | None => true
  end.

(** An error while evaluating a row leaves the row out. *)
Definition passes (where_expr : option Expr) (row : ResultRow) : bool :=
  match where_expr with
  | Some e => match eval_predicate e row with Ok b => b | Err _ => false end
  | None => true
  end.

(** The comparison of two column values under ORDER BY. *)
Definition column_order (av bv : string) : comparison :=
  match f64_parse av, f64_parse bv with
  | Some x, Some y => f64_order x y
  | _, _ => String.compare av bv
  end.

Definition row_order (k : string) (descending : bool) (a b : ResultRow) : comparison :=
  let cmp := column_order (default "" (data a !! k)) (default "" (data b !! k)) in
  if descending then CompOpp cmp else cmp.

Definition execute_parsed_select (sel : SelectStatement) (rs : RowStore.PagedRowStore) (max_rows : nat)
    : option (result SelectOutput ExecError) :=
  if has_group_by sel || has_having sel then Some (Err (Unsupported "GROUP BY / HAVING"))
  else if has_join sel then Some (Err (Unsupported "JOIN"))
  else if has_subquery sel then Some (Err (Unsupported "subquery"))
  else
    match (match where_clause sel with
           | Some w => let? e := parse_predicate w in Ok (Some e)
           | None => Ok None
           end) with
    | Err e => Some (Err e)
    | Ok where_expr =>
        let scan := map (fun kd => mkRow kd.1 kd.2) (RowStore.scan_at_snapshot (RowStore.current_xid rs) rs) in
        let matched :=
          List.filter (fun r => key_filter (table sel) (key r) && passes where_expr r) scan in
        let! agg := try_extract_aggregates (columns sel) in
        match agg with
        | Some calls =>
            Some (Ok (Aggregate (map (fun c => default (display c) (alias c)) calls)
                        (map (fun c => eval_aggregate c matched) calls)))
        | None =>
            let ordered :=
              match order_by sel with
              | (k, descending) :: _ => sort_by (row_order k descending) matched
              | [] => matched
              end in
            let off := N.to_nat (default 0%N (offset sel)) in
            let lim := Nat.min (default max_rows (N.to_nat <$> limit sel)) max_rows in
            Some (Ok (Rows (map (fun r => mkRow (key r) (project_columns (columns sel) (data r)))
                              (take lim (drop off ordered)))))
        end
    end.

Definition execute_select (sql : string) (rs : RowStore.PagedRowStore) (max_rows : nat)
    : option (result SelectOutput ExecError) :=
  match parse_one sql with
  | Err e => Some (Err (BadPredicate e))
  | Ok None => Some (Err NotASelect)
  | Ok (Some sel) => execute_parsed_select sel rs max_rows
  end.

End Executor.
End Select.
