(* ===== verification/SelectProps.v ===== *)
(** * What a SELECT returns *)

From S2P Require Import Prelude Str Decimal Tokenizer Utf8 Mvcc MvccSpec RaftApply Select.
From S2P Require Import Flush FlushProps FlushReplay.
From Stdlib Require Import Ascii.
Local Open Scope string_scope.
Local Open Scope list_scope.
Import Select.

(** ** LIKE as a language *)

(** What a character of a pattern stands for: [%] for any text, [_] for any
    character, another character for itself. *)
Definition denotes (c : N) (s : Tokenizer.text) : Prop :=
  if (c =? 37)%N then True else if (c =? 95)%N then length s = 1%nat else s = [c].

(** A text in the language of a pattern: pieces that its characters stand for. *)
Definition like_language (p t : Tokenizer.text) : Prop :=
  ∃ pieces, t = concat pieces ∧ Forall2 denotes p pieces.

Lemma like_language_nil t : like_language [] t ↔ t = [].
Proof.
  split; [intros (ps & -> & H); by inversion H|]. intros ->. exists []. split; [done|constructor].
Qed.

Lemma like_language_cons c p t :
  like_language (c :: p) t ↔ ∃ s t', t = s ++ t' ∧ denotes c s ∧ like_language p t'.
Proof.
  split.
  - intros (ps & -> & H). inversion H as [|? s ? ps' Hc Hp]; subst. exists s, (concat ps').
    split_and!; [done|done|by exists ps'].
  - intros (s & t' & -> & Hc & ps & -> & Hp). exists (s :: ps). split; [done|by constructor].
Qed.

Lemma glob_like_chars_spec p t : glob_like_chars t p = true ↔ like_language p t.
Proof.
  revert t. induction p as [|c p IH]; intros t.
  { rewrite like_language_nil. by destruct t. }
  rewrite like_language_cons. cbn [glob_like_chars]. unfold denotes.
  destruct (c =? 37)%N.
  { induction t as [|d t IHt].
    - rewrite orb_false_r, IH. split; [intros H; by exists [], []|].
      intros ([|] & [|] & Ht & _ & H); try done.
    - rewrite orb_true_iff, IH, IHt. split.
      + intros [H|(s & t' & -> & _ & H)]; [by exists [], (d :: t)|by exists (d :: s), t'].
      + intros (s & t' & Ht & _ & H). destruct s as [|d' s]; cbn in Ht.
        * left. by subst.
        * right. injection Ht as -> ->. by exists s, t'. }
  destruct (c =? 95)%N.
  { destruct t as [|d t].
    - split; [done|]. intros ([|? [|]] & t' & Ht & Hl & _); done.
    - rewrite IH. split; [intros H; by exists [d], t|].
      intros ([|? [|]] & t' & Ht & Hl & H); try done. by injection Ht as -> ->. }
  destruct t as [|d t].
  - split; [done|]. intros (s & t' & Ht & -> & _). done.
  - destruct (N.eqb_spec d c) as [->|Hne].
    + rewrite IH. split; [intros H; by exists [c], t|].
      intros (s & t' & Ht & -> & H). by injection Ht as ->.
    + split; [done|]. intros (s & t' & Ht & -> & H). by injection Ht as ->.
Qed.

(** LIKE accepts exactly the texts its pattern describes: those that split
    into pieces, one for each character of the pattern, where a percent sign
    stands for any text, an underscore for any one character (not byte) and any
    other character for itself. *)
Theorem like_matches_exactly (s p : string) :
  glob_like s p = true ↔ like_language (Utf8.of_utf8 p) (Utf8.of_utf8 s).
Proof. apply glob_like_chars_spec. Qed.

(** ** Three-valued logic *)

Definition and3 (a b : option bool) : option bool :=
  match a, b with
  | Some false, _ | _, Some false => Some false
  | Some true, Some true => Some true
  | _, _ => None
  end.

Definition not3 (a : option bool) : option bool := negb <$> a.

Definition or3 (a b : option bool) : option bool := not3 (and3 (not3 a) (not3 b)).

Lemma and3_true a b : and3 a b = Some true ↔ a = Some true ∧ b = Some true.
Proof. destruct a as [[]|], b as [[]|]; naive_solver. Qed.

Lemma and3_false a b : and3 a b = Some false ↔ a = Some false ∨ b = Some false.
Proof. destruct a as [[]|], b as [[]|]; naive_solver. Qed.

Lemma or3_true a b : or3 a b = Some true ↔ a = Some true ∨ b = Some true.
Proof. destruct a as [[]|], b as [[]|]; naive_solver. Qed.

Lemma or3_false a b : or3 a b = Some false ↔ a = Some false ∧ b = Some false.
Proof. destruct a as [[]|], b as [[]|]; naive_solver. Qed.

Lemma not3_true a : not3 a = Some true ↔ a = Some false.
Proof. destruct a as [[]|]; naive_solver. Qed.

Lemma not3_false a : not3 a = Some false ↔ a = Some true.
Proof. destruct a as [[]|]; naive_solver. Qed.

Section Logic.
Context {F : Type} `{!F64 F}.
Implicit Types (e : Expr) (row : ResultRow).

Definition lift3 {A} (vs : list (Val (F := F))) (b : A) : option A :=
  if existsb is_null vs then None else Some b.

Definition cmp3 (a : Val (F := F)) (op : BinaryOperator) (b : Val) : option bool :=
  lift3 [a; b] (op_holds op (value_cmp a b)).

Definition negate3 (negated : bool) (a : option bool) : option bool :=
  if negated then not3 a else a.

(** The truth of a condition in SQL: a comparison with NULL is unknown, and
    unknown propagates as in Kleene's logic. *)
Fixpoint sql_truth (e : Expr) (row : ResultRow) : option bool :=
  let val := eval_value (F := F) in
  match e with
  | BinaryOp l And r => and3 (sql_truth l row) (sql_truth r row)
  | BinaryOp l Or r => or3 (sql_truth l row) (sql_truth r row)
  | BinaryOp l op r => cmp3 (val l row) op (val r row)
  | UnaryOp Not e => not3 (sql_truth e row)
  | IsNull e => Some (is_null (val e row))
  | IsNotNull e => Some (negb (is_null (val e row)))
  | Between negated e low high =>
      negate3 negated (and3 (cmp3 (val e row) GtEq (val low row)) (cmp3 (val e row) LtEq (val high row)))
  | InList e list negated =>
      negate3 negated (foldr (fun item => or3 (cmp3 (val e row) Eq (val item row))) (Some false) list)
  | Like negated e pattern =>
      negate3 negated (lift3 [val e row; val pattern row] (like_match (val e row) (val pattern row)))
  | Nested e => sql_truth e row
  | e => lift3 [val e row] (value_truthy (val e row))
  end.

(** No operator the executor does not know. *)
Fixpoint supported (e : Expr) : bool :=
  match e with
  | BinaryOp l (And | Or) r => supported l && supported r
  | BinaryOp _ (OtherOp _) _ => false
  | UnaryOp Not e | Nested e => supported e
  | _ => true
  end.

(** No NULL where the condition is negated ([pol] is false below a negation), and
    none in LIKE. *)
Fixpoint known (pol : bool) (e : Expr) (row : ResultRow) : bool :=
  let val := eval_value (F := F) in
  let not_null es := negb (existsb (fun e => is_null (val e row)) es) in
  match e with
  | BinaryOp l (And | Or) r => known pol l row && known pol r row
  | BinaryOp l _ r => pol || not_null [l; r]
  | UnaryOp Not e => known (negb pol) e row
  | IsNull _ | IsNotNull _ => true
  | Between negated e low high => xorb negated pol || not_null [e; low; high]
  | InList e list negated => xorb negated pol || not_null (e :: list)
  | Like _ e pattern => not_null [e; pattern]
  | Nested e => known pol e row
  | e => pol || not_null [e]
  end.

(** The executor's answer [b] to a condition whose truth is [t]. *)
Definition agrees (pol b : bool) (t : option bool) : Prop :=
  if pol then b = true ↔ t = Some true else b = false ↔ t = Some false.

Lemma agrees_lift pol (vs : list (Val (F := F))) b :
  existsb is_null vs = false → agrees pol b (lift3 vs b).
Proof. intros H. unfold lift3. rewrite H. destruct pol, b; cbn; naive_solver. Qed.

Lemma agrees_negate negated pol b t :
  agrees (xorb negated pol) b t → agrees pol (negate negated b) (negate3 negated t).
Proof.
  destruct negated; [|by destruct pol].
  destruct pol; cbn; unfold agrees, negate, negate3, not3; destruct b, t as [[]|]; naive_solver.
Qed.

Lemma agrees_compare pol (a : Val (F := F)) op b :
  pol || negb (is_null a || is_null b) = true → agrees pol (compare_values a op b) (cmp3 a op b).
Proof.
  unfold compare_values, cmp3, lift3. cbn [existsb]. rewrite orb_false_r.
  destruct (is_null a || is_null b); [destruct pol; [|done]; by cbn|].
  intros _. destruct pol, (op_holds _ _); cbn; naive_solver.
Qed.

Lemma agrees_and pol a b s t : agrees pol a s → agrees pol b t → agrees pol (a && b) (and3 s t).
Proof.
  destruct pol; cbn.
  - rewrite and3_true, andb_true_iff. naive_solver.
  - rewrite and3_false, andb_false_iff. naive_solver.
Qed.

Lemma agrees_or pol a b s t : agrees pol a s → agrees pol b t → agrees pol (a || b) (or3 s t).
Proof.
  destruct pol; cbn.
  - rewrite or3_true, orb_true_iff. naive_solver.
  - rewrite or3_false, orb_false_iff. naive_solver.
Qed.

Lemma agrees_not pol b t : agrees (negb pol) b t → agrees pol (negb b) (not3 t).
Proof. destruct pol, b, t as [[]|]; cbn; naive_solver. Qed.

Lemma existsb_map_null {A} (f : A -> Val (F := F)) l :
  existsb is_null (map f l) = existsb (fun x => is_null (f x)) l.
Proof. induction l as [|x l IH]; cbn; [done|by rewrite IH]. Qed.

Lemma agrees_in_list pol (v : Val (F := F)) (items : list (Val (F := F))) :
  pol || negb (is_null v || existsb is_null items) = true →
  agrees pol (existsb (compare_values v Eq) items) (foldr (fun i => or3 (cmp3 v Eq i)) (Some false) items).
Proof.
  induction items as [|i items IH]; cbn [existsb foldr]; intros H; [by destruct pol|].
  apply agrees_or.
  - apply agrees_compare. destruct pol; [done|]. cbn in *. destruct (is_null v), (is_null i); done.
  - apply IH. destruct pol; [done|]. cbn in *. destruct (is_null v), (is_null i), (existsb _ _); done.
Qed.

Lemma agrees_value pol e row :
  pol || negb (is_null (eval_value (F := F) e row) || false) = true →
  agrees pol (value_truthy (eval_value (F := F) e row))
    (lift3 [eval_value (F := F) e row] (value_truthy (eval_value (F := F) e row))).
Proof.
  unfold lift3. cbn [existsb]. rewrite !orb_false_r. generalize (eval_value (F := F) e row). intros v.
  destruct (is_null v) eqn:Hn.
  - destruct pol; [|done]. intros _. by destruct v.
  - intros _. destruct pol, (value_truthy v); cbn; naive_solver.
Qed.
Lemma existsb_ext_map {A B} (f : A -> B) (g : B -> bool) l :
  existsb (fun x => g (f x)) l = existsb g (map f l).
Proof. induction l as [|x l IH]; cbn; [done|by rewrite IH]. Qed.

Lemma foldr_map {A B C} (f : A -> B) (g : B -> C -> C) c l :
  foldr (fun x => g (f x)) c l = foldr g c (map f l).
Proof. induction l as [|x l IH]; cbn; [done|by rewrite IH]. Qed.

Lemma predicate_agrees e row :
  supported e = true →
  ∃ b, eval_predicate (F := F) e row = Ok b ∧
    ∀ pol, known pol e row = true → agrees pol b (sql_truth e row).
Proof.
  induction e as [l IHl op r IHr|op e IH|e _|e _|neg e _ lo _ hi _|e _ items neg|neg e _ pat _|e IH|i|ps|v|];
    intros Hs; try (eexists; split; [reflexivity|]; intros pol Hk; exact (agrees_value pol _ row Hk)).
  - destruct op;
      try (eexists; split; [reflexivity|]; intros pol Hk; apply agrees_compare; cbn in Hk;
           by rewrite orb_false_r in Hk); [| |done].
    + cbn in Hs. apply andb_true_iff in Hs as [Hl Hr].
      destruct (IHl Hl) as (a & Ea & Ha), (IHr Hr) as (b & Eb & Hb).
      exists (a && b). cbn [eval_predicate]. rewrite Ea. split; [by destruct a|].
      intros pol [Hk1 Hk2]%andb_true_iff. by apply agrees_and; [apply Ha|apply Hb].
    + cbn in Hs. apply andb_true_iff in Hs as [Hl Hr].
      destruct (IHl Hl) as (a & Ea & Ha), (IHr Hr) as (b & Eb & Hb).
      exists (a || b). cbn [eval_predicate]. rewrite Ea. split; [by destruct a|].
      intros pol [Hk1 Hk2]%andb_true_iff. by apply agrees_or; [apply Ha|apply Hb].
  - destruct op; try (eexists; split; [reflexivity|]; intros pol Hk; exact (agrees_value pol _ row Hk)).
    destruct (IH Hs) as (b & Eb & Hb). exists (negb b). cbn [eval_predicate]. rewrite Eb.
    split; [done|]. intros pol Hk. by apply agrees_not, Hb.
  - eexists. split; [reflexivity|]. intros pol _. cbn. destruct pol, (is_null _); cbn; naive_solver.
  - eexists. split; [reflexivity|]. intros pol _. cbn. destruct pol, (is_null _); cbn; naive_solver.
  - eexists. split; [reflexivity|]. intros pol Hk. apply agrees_negate. cbn in Hk.
    apply agrees_and; apply agrees_compare; destruct (xorb neg pol); try done; cbn in *;
      by destruct (is_null _), (is_null _), (is_null _).
  - eexists. split; [reflexivity|]. intros pol Hk. apply agrees_negate. cbn in Hk.
    rewrite (existsb_ext_map (fun i => eval_value (F := F) i row)).
    rewrite (foldr_map (fun i => eval_value (F := F) i row) (fun i => or3 (cmp3 (eval_value e row) Eq i))).
    apply agrees_in_list. by rewrite existsb_map_null.
  - eexists. split; [reflexivity|]. intros pol Hk. apply agrees_negate, agrees_lift. cbn in *.
    by destruct (is_null _), (is_null _).
  - destruct (IH Hs) as (b & Eb & Hb). by exists b.
Qed.

End Logic.

(** ** ORDER BY *)

Section Sort.
Context {A : Type} (cmp : A -> A -> comparison).

Lemma insert_by_perm x l : insert_by cmp x l ≡ₚ x :: l.
Proof.
  induction l as [|y l IH]; cbn; [done|]. destruct (cmp x y); [done|done|]. rewrite IH. constructor.
Qed.

Lemma sort_by_perm l : sort_by cmp l ≡ₚ l.
Proof. induction l as [|x l IH]; cbn; [done|]. by rewrite insert_by_perm, IH. Qed.

(** The comparison is a total preorder on the elements of [P]. *)
Record consistent (P : A -> Prop) : Prop := {
  flips : ∀ x y, P x → P y → cmp y x = CompOpp (cmp x y);
  transits : ∀ x y z, P x → P y → P z →
    cmp x y ≠ Datatypes.Gt → cmp y z ≠ Datatypes.Gt → cmp x z ≠ Datatypes.Gt;
}.

Lemma insert_by_sorted P x l :
  consistent P → P x → Forall P l →
  StronglySorted (fun a b => cmp a b ≠ Datatypes.Gt) l →
  StronglySorted (fun a b => cmp a b ≠ Datatypes.Gt) (insert_by cmp x l).
Proof.
  intros Hc Hx HP Hs. induction Hs as [|y l Hs IH Hy]; cbn; [repeat constructor|].
  apply Forall_cons in HP as [Py Pl].
  destruct (cmp x y) eqn:E; try (constructor; [by constructor|constructor; [by rewrite E|]];
    apply Forall_forall; intros z Hz; rewrite Forall_forall in Hy, Pl;
    apply (transits _ Hc x y z); auto; by rewrite E).
  constructor; [by apply IH|]. rewrite insert_by_perm. constructor; [|done].
  by rewrite (flips _ Hc x y), E by done.
Qed.

Lemma sort_by_sorted P l :
  consistent P → Forall P l → StronglySorted (fun a b => cmp a b ≠ Datatypes.Gt) (sort_by cmp l).
Proof.
  intros Hc HP. induction HP as [|x l Hx HP IH]; cbn; [constructor|].
  apply (insert_by_sorted P); try done. fold (sort_by cmp l). by rewrite sort_by_perm.
Qed.
End Sort.

(** What IEEE comparison promises: it is symmetric, defined on numbers that are
    not NaN, and transitive. *)
Class F64Laws (F : Type) `{!F64 F} : Prop := {
  f64_flip : ∀ x y : F, f64_cmp y x = CompOpp <$> f64_cmp x y;
  f64_total : ∀ x y : F, f64_cmp x x ≠ None → f64_cmp y y ≠ None → f64_cmp x y ≠ None;
  f64_trans : ∀ x y z : F,
    f64_cmp x y ≠ None → f64_cmp x y ≠ Some Datatypes.Gt →
    f64_cmp y z ≠ None → f64_cmp y z ≠ Some Datatypes.Gt →
    f64_cmp x z ≠ Some Datatypes.Gt;
}.

Lemma compare_flip (s t : string) : String.compare t s = CompOpp (String.compare s t).
Proof. apply String.compare_antisym. Qed.

Lemma compare_trans (s t u : string) :
  String.compare s t ≠ Datatypes.Gt → String.compare t u ≠ Datatypes.Gt → String.compare s u ≠ Datatypes.Gt.
Proof.
  assert (Hle : ∀ a b, String.compare a b ≠ Datatypes.Gt ↔ String.le a b).
  { intros a b. unfold String.le, String.leb. destruct (String.compare a b); naive_solver. }
  rewrite !Hle. apply (transitivity (R := String.le)).
Qed.

(** A sum that stays within [i64] does not saturate. *)
Lemma saturating_add_small acc z r :
  (Z.abs acc + (Z.abs z + r) <= i64_max)%Z → (0 <= r)%Z →
  i64_saturating_add acc z = (acc + z)%Z ∧ (Z.abs (acc + z) + r <= i64_max)%Z.
Proof. unfold i64_saturating_add, i64_min, i64_max. lia. Qed.

Section Order.
Context {F : Type} `{!F64 F} `{!F64Laws F}.

(** A column is ordered consistently when its values are all numbers (none of
    them NaN) or all texts. *)
Definition number (v : string) : Prop :=
  ∃ f : F, f64_parse v = Some f ∧ f64_cmp f f ≠ None.

Definition uniform (k : string) (l : list ResultRow) : Prop :=
  Forall (fun r => number (default "" (data r !! k))) l
  ∨ Forall (fun r => f64_parse (F := F) (default "" (data r !! k)) = None) l.

Lemma number_order_consistent : consistent (column_order (F := F)) number.
Proof.
  split.
  - intros x y (f & Hf & Nf) (g & Hg & Ng). unfold column_order. rewrite Hf, Hg.
    unfold f64_order. rewrite f64_flip. by destruct (f64_cmp f g).
  - intros x y z (f & Hf & Nf) (g & Hg & Ng) (h & Hh & Nh). unfold column_order.
    rewrite Hf, Hg, Hh. unfold f64_order. intros H1 H2.
    pose proof (f64_total f g Nf Ng). pose proof (f64_total g h Ng Nh).
    pose proof (f64_trans f g h). destruct (f64_cmp f g), (f64_cmp g h), (f64_cmp f h); naive_solver.
Qed.

Lemma text_order_consistent :
  consistent (column_order (F := F)) (fun v => f64_parse (F := F) v = None).
Proof.
  split; unfold column_order.
  - intros x y -> ->. apply compare_flip.
  - intros x y z Hx Hy _. rewrite Hx, Hy. apply compare_trans.
Qed.

Lemma row_order_consistent k desc (P : string -> Prop) :
  consistent (column_order (F := F)) P →
  consistent (row_order (F := F) k desc) (fun r => P (default "" (data r !! k))).
Proof.
  intros Hc. unfold row_order. split.
  - intros a b Ha Hb. rewrite (flips _ _ Hc (default "" (data a !! k))) by done.
    by destruct desc.
  - intros a b c Ha Hb Hd. destruct desc; [|by apply (transits _ _ Hc)].
    rewrite <- !(flips _ _ Hc) by done. intros H1 H2. by apply (transits _ _ Hc) with (default "" (data b !! k)).
Qed.

Lemma order_sorted k desc l :
  uniform k l →
  StronglySorted (fun a b => row_order (F := F) k desc a b ≠ Datatypes.Gt) (sort_by (row_order (F := F) k desc) l).
Proof.
  intros [Hu|Hu]; (eapply sort_by_sorted; [|exact Hu]).
  - apply row_order_consistent, number_order_consistent.
  - apply (row_order_consistent k desc (fun v => f64_parse (F := F) v = None)), text_order_consistent.
Qed.

(** ** The result of a SELECT *)

Context `{!SqlParser}.

(** The WHERE clause of a statement, parsed. *)
Definition where_is (sel : SelectStatement) (e : option Expr) : Prop :=
  match where_clause sel with
  | Some w => ∃ e', parse_predicate w = Ok e' ∧ e = Some e'
  | None => e = None
  end.

Definition plain_select (sel : SelectStatement) : bool :=
  negb (has_group_by sel || has_having sel || has_join sel || has_subquery sel).

(** The keys of a table's rows: its name alone, or with an identifier. *)
Definition belongs (table : option string) (k : string) : Prop :=
  match table with
  | Some t => k = t ∨ ∃ id, k = t +:+ ":" +:+ id
  | None => True
  end.

Lemma key_filter_spec table k : key_filter table k = true ↔ belongs table k.
Proof.
  destruct table as [t|]; cbn; [|done]. rewrite orb_true_iff, String.eqb_eq, Str.starts_with_spec.
  by setoid_rewrite Str.app_assoc_str.
Qed.

(** The rows a SELECT is about. *)
Definition selected (sel : SelectStatement) (e : option Expr) (rs : RowStore.PagedRowStore)
    (l : list ResultRow) : Prop :=
  NoDup (map key l) ∧
  ∀ k d, mkRow k d ∈ l ↔
    view rs !! k = Some d ∧ belongs (table sel) k ∧ passes (F := F) e (mkRow k d) = true.

Definition scan_rows (rs : RowStore.PagedRowStore) : list ResultRow :=
  map (fun kd => mkRow kd.1 kd.2) (RowStore.scan_at_snapshot (RowStore.current_xid rs) rs).

Lemma NoDup_map_filter {A B} (f : A -> B) (p : A -> bool) l : NoDup (map f l) → NoDup (map f (List.filter p l)).
Proof.
  induction l as [|x l IH]; cbn; [done|]. intros [Hni Hnd]%NoDup_cons.
  destruct (p x); [|by apply IH]. cbn. apply NoDup_cons. split; [|by apply IH].
  rewrite list_elem_of_In, in_map_iff in *. intros (y & Hy & [Hin _]%filter_In). apply Hni. by exists y.
Qed.

Lemma filter_selected sel e rs :
  wf rs →
  selected sel e rs (List.filter (fun r => key_filter (table sel) (key r) && passes (F := F) e r) (scan_rows rs)).
Proof.
  intros Hwf. destruct (scan_view rs Hwf) as [Hnd Hiff]. unfold scan_rows. split.
  - apply NoDup_map_filter. rewrite map_map. exact Hnd.
  - intros k d. rewrite <- Hiff, <- key_filter_spec, list_elem_of_In, filter_In, in_map_iff.
    cbn [key]. rewrite andb_true_iff, list_elem_of_In. split.
    + intros [([k' d'] & [= <- <-] & Hin) ?]. done.
    + intros [Hin ?]. split; [by exists (k, d)|done].
Qed.

Lemma selected_perm sel e rs l l' : l' ≡ₚ l → selected sel e rs l → selected sel e rs l'.
Proof. intros Hp [Hnd Hin]. split; [by rewrite Hp|]. intros k d. by rewrite Hp. Qed.

(** C8: a SELECT returns the matching rows.  A plain SELECT with a parsed WHERE
    clause, no aggregates, on a store of a running server answers with a window
    (OFFSET rows skipped, at most LIMIT and [max_rows] kept), projected to its
    columns, of a list that holds, once each, exactly the rows that readers see,
    whose key belongs to the table and that pass the WHERE clause; and with ORDER
    BY the list is sorted by the first column, provided its values are all numbers
    or all texts. *)
Theorem select_returns_matching_rows (sel : SelectStatement) (e : option Expr)
    (rs : RowStore.PagedRowStore) (max_rows : nat) :
  wf rs → plain_select sel = true → where_is sel e →
  try_extract_aggregates (columns sel) = Some None →
  ∃ l, selected sel e rs l ∧
    execute_parsed_select (F := F) sel rs max_rows
    = Some (Ok (Rows (map (fun r => mkRow (key r) (project_columns (columns sel) (data r)))
                        (take (Nat.min (default max_rows (N.to_nat <$> limit sel)) max_rows)
                           (drop (N.to_nat (default 0%N (offset sel))) l))))) ∧
    ∀ c desc rest, order_by sel = (c, desc) :: rest → uniform c l →
      StronglySorted (fun a b => row_order (F := F) c desc a b ≠ Datatypes.Gt) l.
Proof.
  intros Hwf Hplain Hw Hagg. pose proof (filter_selected sel e rs Hwf) as Hsel.
  unfold scan_rows in Hsel. set (m := List.filter _ _) in Hsel.
  exists (match order_by sel with (k, d) :: _ => sort_by (row_order (F := F) k d) m | [] => m end).
  split_and!.
  - destruct (order_by sel) as [|[k d] rest]; [done|].
    by apply (selected_perm sel e rs m); [apply sort_by_perm|].
  - unfold execute_parsed_select. rewrite Hagg. unfold plain_select in Hplain.
    destruct (has_group_by sel), (has_having sel), (has_join sel), (has_subquery sel); try done. cbn [orb].
    unfold where_is in Hw.
    destruct (where_clause sel) as [w|]; [destruct Hw as (e' & -> & ->)|subst e]; done.
  - intros c desc rest -> Hu. apply order_sorted. unfold uniform in *. by rewrite sort_by_perm in Hu.
Qed.

(** ** Aggregates *)

(** The values of a column, all of them numbers. *)
Definition numbers_of (c : string) (l : list ResultRow) (fs : list F) : Prop :=
  Forall2 (fun v f => f64_parse v = Some f ∧ f64_cmp f f ≠ None) (column_values c l) fs.

Definition number_cell (f : F) : AggregateCell (F := F) :=
  if f64_fract_zero f then CellInt (f64_to_i64 f) else CellFloat f.

(** No number of the list is below (above) [f]. *)
Definition extreme (side : comparison) (fs : list F) (f : F) : Prop :=
  f ∈ fs ∧ ∀ g, g ∈ fs → f64_cmp g f ≠ Some side.

Definition sum_of (zs : list Z) : Z := foldr Z.add 0%Z zs.

Definition has_column (c : string) (r : ResultRow) : bool := bool_decide (is_Some (data r !! c)).

(** What an aggregate of the rows [l] is. *)
Definition aggregate_is (call : AggCall) (l : list ResultRow) (cell : AggregateCell (F := F)) : Prop :=
  match func call, arg call with
  | Count, Star => cell = CellInt (Z.of_nat (length l))
  | Count, Column c => cell = CellInt (Z.of_nat (length (List.filter (has_column c) l)))
  | Sum, Column c =>
      ∀ zs, Forall2 (fun v z => parse_i64 v = Some z) (column_values c l) zs →
        (sum_of (map Z.abs zs) <= i64_max)%Z → cell = CellInt (sum_of zs)
  | Avg, Column c =>
      Forall (fun v => f64_parse (F := F) v = None) (column_values c l) → cell = CellNull
  | Min, Column c =>
      ∀ fs, numbers_of c l fs → fs ≠ [] → ∃ f, extreme Datatypes.Lt fs f ∧ cell = number_cell f
  | Max, Column c =>
      ∀ fs, numbers_of c l fs → fs ≠ [] → ∃ f, extreme Datatypes.Gt fs f ∧ cell = number_cell f
  | _, Star => cell = CellNull
  end.

Lemma length_column_values c l : length (column_values c l) = length (List.filter (has_column c) l).
Proof.
  unfold column_values, has_column. induction l as [|r l IH]; [done|]. cbn.
  destruct (data r !! c); cbn; [by rewrite IH|exact IH].
Qed.

Lemma i64_wrap_small z : (0 <= z <= i64_max)%Z → i64_wrap z = z.
Proof. unfold i64_wrap, i64_max. intros Hz. rewrite Z.mod_small by lia. lia. Qed.

Lemma sum_abs_nonneg zs : (0 <= sum_of (map Z.abs zs))%Z.
Proof.
  unfold sum_of. induction zs as [|z zs IH]; cbn [map foldr]; [done|].
  pose proof (Z.abs_nonneg z). by apply Z.add_nonneg_nonneg.
Qed.

Lemma sum_fold vs zs sum acc :
  Forall2 (fun v z => parse_i64 v = Some z) vs zs →
  (Z.abs acc + sum_of (map Z.abs zs) <= i64_max)%Z →
  ∃ sum', fold_left (sum_step (F := F)) vs (sum, true, acc) = (sum', true, (acc + sum_of zs)%Z).
Proof.
  intros H2. revert sum acc. induction H2 as [|v z vs zs Hv H2 IH]; intros sum acc Hb.
  - exists sum. cbn. by rewrite Z.add_0_r.
  - destruct (saturating_add_small acc z (sum_of (map Z.abs zs)) Hb (sum_abs_nonneg zs)) as [Hsat Hb'].
    destruct (IH (f64_add sum (f64_of_i64 z)) (acc + z)%Z Hb') as (sum' & Hf). exists sum'.
    cbn. by rewrite Hv, Hsat, Hf, Z.add_assoc.
Qed.

(** The comparison of numbers behind MIN and MAX. *)
Lemma better_trans wm (x y z : F) :
  f64_cmp x x ≠ None → f64_cmp y y ≠ None → f64_cmp z z ≠ None →
  let side := if wm : bool then Datatypes.Lt else Datatypes.Gt in
  f64_cmp y x ≠ Some side → f64_cmp z y ≠ Some side → f64_cmp z x ≠ Some side.
Proof.
  intros Hx Hy Hz side. pose proof (f64_total y x Hy Hx) as Hyx. pose proof (f64_total z y Hz Hy) as Hzy.
  pose proof (f64_total z x Hz Hx) as Hzx.
  destruct wm; subst side; [|intros H1 H2; by apply (f64_trans z y x)].
  intros H1 H2 H3. apply (f64_trans x y z).
  - rewrite f64_flip. by destruct (f64_cmp y x).
  - rewrite f64_flip. destruct (f64_cmp y x) as [[]|]; cbn; congruence.
  - rewrite f64_flip. by destruct (f64_cmp z y).
  - rewrite f64_flip. destruct (f64_cmp z y) as [[]|]; cbn; congruence.
  - rewrite f64_flip, H3. done.
Qed.

Lemma minmax_fold (wm : bool) vs fs (seen : list F) b :
  Forall2 (fun v f => f64_parse v = Some f ∧ f64_cmp f f ≠ None) vs fs →
  Forall (fun f => f64_cmp f f ≠ None) seen →
  extreme (if wm then Datatypes.Lt else Datatypes.Gt) seen b →
  ∃ b', fold_left (minmax_step wm) vs (Some b, None) = (Some b', None) ∧
    extreme (if wm then Datatypes.Lt else Datatypes.Gt) (seen ++ fs) b'.
Proof.
  intros H2. revert seen b. induction H2 as [|v f vs fs [Hv Hf] H2 IH]; intros seen b Hs Hb.
  { exists b. by rewrite app_nil_r. }
  cbn [fold_left]. unfold minmax_step at 2. rewrite Hv. cbn [fst snd].
  rewrite (cons_middle f seen fs), app_assoc. apply IH.
  { apply Forall_app. split; [done|by constructor]. }
  destruct Hb as [Hin Hlow]. assert (f64_cmp b b ≠ None) as Nb by (rewrite Forall_forall in Hs; auto).
  unfold f64_better. case_bool_decide as Hlt.
  - split; [set_solver|]. intros g [Hg|Hg]%elem_of_app.
    + rewrite Forall_forall in Hs. apply (better_trans wm f b g); auto.
      rewrite f64_flip, Hlt. by destruct wm.
    + apply list_elem_of_singleton in Hg as ->. pose proof (f64_flip f f) as Hff.
      destruct (f64_cmp f f) as [[]|]; try done; by destruct wm.
  - split; [set_solver|]. intros g [Hg|Hg]%elem_of_app; [by apply Hlow|].
    by apply list_elem_of_singleton in Hg as ->.
Qed.

Lemma minmax_extreme (wm : bool) c l fs :
  numbers_of c l fs → fs ≠ [] →
  ∃ f, extreme (if wm then Datatypes.Lt else Datatypes.Gt) fs f ∧ agg_minmax l c wm = number_cell f.
Proof.
  unfold numbers_of, agg_minmax. intros H2 Hne. destruct H2 as [|v f vs fs [Hv Hf] H2]; [done|].
  cbn [fold_left]. unfold minmax_step at 2. rewrite Hv. cbn [fst snd].
  destruct (minmax_fold wm vs fs [f] f H2) as (b & -> & Hb).
  - by constructor.
  - split; [set_solver|]. intros g ->%list_elem_of_singleton. pose proof (f64_flip f f) as Hff.
    destruct (f64_cmp f f) as [[]|]; try done; by destruct wm.
  - exists b. by split.
Qed.

Lemma avg_none vs acc :
  Forall (fun v => f64_parse (F := F) v = None) vs → fold_left (avg_step (F := F)) vs acc = acc.
Proof. induction 1 as [|v vs Hv Hvs IH]; cbn; [done|]. unfold avg_step at 2. by rewrite Hv. Qed.

Lemma eval_aggregate_is call l :
  (Z.of_nat (length l) <= i64_max)%Z → aggregate_is call l (eval_aggregate (F := F) call l).
Proof.
  intros Hl. unfold aggregate_is, eval_aggregate. destruct (func call), (arg call) as [|c]; try done.
  - by rewrite i64_wrap_small by lia.
  - rewrite length_column_values, i64_wrap_small; [done|].
    pose proof (filter_length_le (has_column c) l). lia.
  - intros zs H2 Hb. destruct (sum_fold _ zs f64_zero 0%Z H2) as (sum & ->); [done|]. done.
  - intros Hn. by rewrite avg_none.
  - intros fs H2 Hne. by apply (minmax_extreme true).
  - intros fs H2 Hne. by apply (minmax_extreme false).
Qed.

(** C29: aggregates summarise the matching rows.  A plain SELECT of aggregates
    answers with one row: COUNT is the number of matching rows (of those that have
    the column), SUM of a column of integers their sum when it cannot overflow, MIN
    and MAX of a column of numbers one of them with none below (above) it, AVG of a
    column without numbers NULL; the columns are named by their alias or text. *)
Theorem aggregates_summarise_rows (sel : SelectStatement) (e : option Expr)
    (rs : RowStore.PagedRowStore) (max_rows : nat) (calls : list AggCall) :
  wf rs → plain_select sel = true → where_is sel e →
  try_extract_aggregates (columns sel) = Some (Some calls) →
  ∃ l cells, selected sel e rs l ∧
    execute_parsed_select (F := F) sel rs max_rows
    = Some (Ok (Aggregate (map (fun c => default (display c) (alias c)) calls) cells)) ∧
    ((Z.of_nat (length l) <= i64_max)%Z → Forall2 (fun call cell => aggregate_is call l cell) calls cells).
Proof.
  intros Hwf Hplain Hw Hagg. pose proof (filter_selected sel e rs Hwf) as Hsel.
  eexists _, _. split; [exact Hsel|]. split.
  - unfold execute_parsed_select. rewrite Hagg. unfold plain_select in Hplain.
    destruct (has_group_by sel), (has_having sel), (has_join sel), (has_subquery sel); try done. cbn [orb].
    unfold where_is in Hw.
    destruct (where_clause sel) as [w|]; [destruct Hw as (e' & -> & ->)|subst e]; reflexivity.
  - intros Hl. clear Hagg. induction calls as [|call calls IH]; [constructor|].
    constructor; [by apply eval_aggregate_is|exact IH].
Qed.
End Order.

(** ** An instance: integers as numbers *)

Module SelectDemo.

Definition int_cmp (x y : option Z) : option comparison :=
  match x, y with Some a, Some b => Some (a ?= b)%Z | _, _ => None end.

Definition lift2 (f : Z -> Z -> Z) (x y : option Z) : option Z :=
  match x, y with Some a, Some b => Some (f a b) | _, _ => None end.

(** Whole numbers, and [None] for NaN. *)
#[export] Instance int_f64 : F64 (option Z) := {
  f64_parse s := if String.eqb s "nan" then Some None else Some <$> parse_i64 s;
  f64_cmp := int_cmp;
  f64_of_i64 := Some;
  f64_of_u64 n := Some (Z.of_N n);
  f64_neg := fmap Z.opp;
  f64_add := lift2 Z.add;
  f64_div := lift2 Z.div;
  f64_zero := Some 0%Z;
  f64_fract_zero x := bool_decide (is_Some x);
  f64_to_i64 := default 0%Z;
  f64_to_string x := match x with Some z => i64_to_string z | None => "NaN" end;
}.

#[export] Instance int_f64_laws : F64Laws (option Z).
Proof.
  split; cbn.
  - intros [x|] [y|]; cbn; [|done..]. by rewrite Z.compare_antisym.
  - by intros [x|] [y|].
  - intros [x|] [y|] [z|]; cbn; try done. intros _ H1 _ H2 H3. injection H3 as H3.
    assert (x ?= y ≠ Datatypes.Gt)%Z as Hxy by congruence. assert (y ?= z ≠ Datatypes.Gt)%Z as Hyz by congruence.
    change (x <= y)%Z in Hxy. change (y <= z)%Z in Hyz. apply Z.compare_gt_iff in H3. lia.
Qed.

(** [price > 5 AND NOT name LIKE 'b%'] *)
Definition condition : Expr :=
  BinaryOp (BinaryOp (Identifier "price") Gt (ValueExpr (Number "5"))) And
    (UnaryOp Not (Like false (Identifier "name") (ValueExpr (SingleQuotedString "b%")))).

#[export] Instance demo_parser : SqlParser := {
  parse_one _ := Err "not a statement";
  parse_sql _ := Ok [Some (Some condition)];
}.

Definition item (n p : string) : RowData := {[ "name" := n; "price" := p ]}.

Definition items : list (string * RowData * string) :=
  [("item:1", item "axe" "10", ""); ("item:2", item "bow" "7", "");
   ("item:3", item "cup" "5", ""); ("item:4", item "fan" "9", ""); ("other:1", item "gem" "99", "")].

Definition shop : RowStore.PagedRowStore :=
  default (toy_store 4) (Flush.insert_replayed 1 items (RowStore.begin_xid (toy_store 4)).2).

Lemma shop_wf : wf shop.
Proof.
  destruct (begin_batch (toy_store 4)) as [Hb _]; [by apply toy_replica_store; lia|done|].
  destruct (insert_replayed_view 1 items _ Hb) as (s & Hs & (Hwf & _) & _).
  unfold shop. by rewrite Hs.
Qed.

(** [SELECT name FROM item WHERE price > 5 AND NOT name LIKE 'b%' ORDER BY price] *)
Definition query (cols : list string) : SelectStatement :=
  mkSelect cols (Some "item") false (Some "w") [("price", false)] None None false false false false.
End SelectDemo.
Import SelectDemo.

(** A row without the column is kept by a negated comparison, and any row is kept
    by [LIKE '%']: SQL's logic calls both unknown. *)
Lemma negation_keeps_unknown_rows :
  let r := mkRow "item:9" ∅ in
  let not_one := UnaryOp Not (BinaryOp (Identifier "price") Eq (ValueExpr (Number "1"))) in
  let any := Like false (Identifier "price") (ValueExpr (SingleQuotedString "%")) in
  passes (F := option Z) (Some not_one) r = true ∧ sql_truth (F := option Z) not_one r = None ∧
  passes (F := option Z) (Some any) r = true ∧ sql_truth (F := option Z) any r = None.
Proof. vm_compute. done. Qed.

(** Mixed values are in no order: each of these three precedes the next. *)
Lemma mixed_column_order_cycles :
  column_order (F := option Z) "10" "1a" = Datatypes.Lt ∧ column_order (F := option Z) "1a" "9" = Datatypes.Lt ∧
  column_order (F := option Z) "9" "10" = Datatypes.Lt.
Proof. vm_compute. done. Qed.


Lemma select_returns_matching_rows_witness :
  ∃ rows, execute_parsed_select (F := option Z) (query ["name"]) shop 10 = Some (Ok (Rows rows)) ∧
    rows = [mkRow "item:4" {["name" := "fan"]}; mkRow "item:1" {["name" := "axe"]}].
Proof.
  destruct (select_returns_matching_rows (F := option Z) (query ["name"]) (Some condition) shop 10)
    as (l & _ & H & _); [apply shop_wf|reflexivity|by exists condition|reflexivity|].
  eexists. split; [exact H|]. revert H. generalize (map (fun r => mkRow (key r) (project_columns (columns (query ["name"])) (data r)))
    (take (Nat.min (default 10%nat (N.to_nat <$> limit (query ["name"]))) 10)
       (drop (N.to_nat (default 0%N (offset (query ["name"])))) l))).
  intros rows H. assert (execute_parsed_select (F := option Z) (query ["name"]) shop 10
    = Some (Ok (Rows [mkRow "item:4" {["name" := "fan"]}; mkRow "item:1" {["name" := "axe"]}])))
    as E by (vm_compute; reflexivity). rewrite E in H. by injection H.
Defined.

Lemma aggregates_summarise_rows_witness :
  ∃ cells, execute_parsed_select (F := option Z) (query ["count(*) AS n"; "SUM(price)"; "MIN(price)"]) shop 10
    = Some (Ok (Aggregate ["n"; "SUM(price)"; "MIN(price)"] cells)) ∧
    cells = [CellInt 2; CellInt 19; CellInt 9].
Proof.
  destruct (aggregates_summarise_rows (F := option Z) (query ["count(*) AS n"; "SUM(price)"; "MIN(price)"])
    (Some condition) shop 10 [mkAgg Count Star "count(*)" (Some "n"); mkAgg Sum (Column "price") "SUM(price)" None;
      mkAgg Min (Column "price") "MIN(price)" None])
    as (l & cells & _ & H & _); [apply shop_wf|reflexivity|by exists condition|reflexivity|].
  exists cells. split; [exact H|].
  assert (execute_parsed_select (F := option Z) (query ["count(*) AS n"; "SUM(price)"; "MIN(price)"]) shop 10
    = Some (Ok (Aggregate ["n"; "SUM(price)"; "MIN(price)"] [CellInt 2; CellInt 19; CellInt 9])))
    as E by (vm_compute; reflexivity). rewrite E in H. by injection H.
Defined.
