(* ===== verification/OltpSelect.v ===== *)
(** * SELECT on the transactional side
      ([services/voltnuerongridd/src/helpers/execution.rs],
      [crates/voltnuerongrid-exec-datafusion/src/lib.rs])

    [execute_oltp_select] runs a batch of SELECTs: complex ones in DataFusion on
    the rows of the tables they mention, the others in the executor of [Select],
    and what that does not support in a legacy scan that may use an index.  With an
    engine that persists rows, the rows come from the engine and the legacy scan
    runs. *)

From S2P Require Import Prelude Str Mvcc MvccSpec RaftApply Index SqlKind Select SelectProps.
From Stdlib Require Import Lia.
Local Open Scope string_scope.
Local Open Scope list_scope.
Local Open Scope vng_scope.

Module OltpSelect.
Import Select.

(** ** Tables of a query: the part of [sqlparser::ast] that is looked at *)

Inductive SetExpr :=
| SelectBody (from : list TableWithJoins)
| QueryBody (body : SetExpr)
| SetOperation (left right : SetExpr)
| OtherBody
with TableWithJoins :=
| WithJoins (relation : TableFactor) (joins : list TableFactor)
with TableFactor :=
| Table (name : list string)
| Derived (subquery : SetExpr)
| NestedJoin (table_with_joins : TableWithJoins)
| OtherFactor.

(** The names pushed, in order. *)
Fixpoint collect_from_set_expr (e : SetExpr) : list string :=
  match e with
  | SelectBody from => concat (map collect_table_with_joins from)
  | QueryBody body => collect_from_set_expr body
  | SetOperation l r => collect_from_set_expr l ++ collect_from_set_expr r
  | OtherBody => []
  end
with collect_table_with_joins (t : TableWithJoins) : list string :=
  match t with
  | WithJoins relation joins =>
      collect_table_factor relation ++ concat (map collect_table_factor joins)
  end
with collect_table_factor (f : TableFactor) : list string :=
  match f with
  | Table name => match last name with Some ident => [ident] | None => [] end
  | Derived subquery => collect_from_set_expr subquery
  | NestedJoin twj => collect_table_with_joins twj
  | OtherFactor => []
  end.

(** [Vec::dedup]: of a run of equal elements the first stays. *)
Fixpoint dedup (l : list string) : list string :=
  match l with
  | [] => []
  | x :: l' =>
      match dedup l' with
      | y :: r => if String.eqb x y then x :: r else x :: y :: r
      | [] => [x]
      end
  end.

(** ** Execution *)

(** [Parser::parse_sql] on the statement itself ([None]: not a query), and
    [df_select_owned]: DataFusion on rows by table. *)
Class QueryEngine (F : Type) := {
  parse_query : string -> result (list (option SetExpr)) string;
  df_select : string -> gmap string (list (string * RowData)) -> nat -> result (SelectOutput (F := F)) ExecError;
}.

Section Oltp.
Context {F : Type} `{!F64 F} `{!SqlParser} `{!QueryEngine F} `{!MapOrder Index.BTreeIndex}.

Definition collect_query_table_names (sql : string) : list string :=
  match parse_query sql with
  | Err _ => []
  | Ok stmts => dedup (merge_sort String.le (concat (map (fun q => from_option collect_from_set_expr [] q) stmts)))
  end.

Definition make_table_scan_prefix (db table : string) : string :=
  if String.eqb db "" then table +:+ ":" else db +:+ "." +:+ table +:+ ":".

(** [k.strip_prefix(&format!("{db}.")).unwrap_or(k)], unless there is no database *)
Definition strip_database (db k : string) : string :=
  if String.eqb db "" then k else default k (Str.strip_prefix (db +:+ ".") k).

(** ** The legacy scan *)

(** The pieces of a WHERE text between its ANDs; each step drops at least five
    characters. *)
Fixpoint split_and (fuel : nat) (w : string) : list string :=
  match fuel with
  | O => [w]
  | S fuel' =>
      match Str.find_str " AND " (Str.to_ascii_uppercase w) with
      | Some pos =>
          Str.sub 0 pos w :: split_and fuel' (Str.sub (pos + 5) (String.length w) w)
      | None => [w]
      end
  end.

Definition where_filter (piece : string) : option (string * string) :=
  match Str.find_str "=" piece with
  | None => None
  | Some eq =>
      let lhs := SqlKind.to_ascii_lowercase (Str.trim (Str.sub 0 eq piece)) in
      let rhs := Str.trim (Str.sub (eq + 1) (String.length piece) piece) in
      let val := Str.trim (Str.trim_matches [Str.DQUOTE] (Str.trim_matches ["'"] rhs)) in
      if String.eqb lhs "" || String.eqb val "" then None else Some (lhs, val)
  end.

Definition where_filters (w : option string) : list (string * string) :=
  match w with
  | Some w => omap where_filter (split_and (String.length w) w)
  | None => []
  end.

Definition apply_projection (batch : list ResultRow) (columns : list string) (select_star : bool)
    : list ResultRow :=
  if select_star then batch
  else map (fun r => mkRow (key r)
         (list_to_map (rev (omap (fun col => if String.eqb col "*" then None
                                             else (fun v => (col, v)) <$> data r !! col) columns)))) batch.

(** The rows of the engine, or those of the database in the row store. *)
Definition legacy_rows (rs : RowStore.PagedRowStore) (db : string) (override_snapshot_xid : option N)
    (rocksdb_rows : option (list (string * RowData))) : list ResultRow :=
  match rocksdb_rows with
  | Some rdb => map (fun kd => mkRow kd.1 kd.2) rdb
  | None =>
      let snapshot := default (RowStore.current_xid rs) override_snapshot_xid in
      map (fun kd => mkRow (strip_database db kd.1) kd.2)
        (List.filter (fun kd => String.eqb db "" || Str.starts_with (db +:+ ".") kd.1)
           (RowStore.scan_at_snapshot snapshot rs))
  end.

Definition satisfies (filters : list (string * string)) (r : ResultRow) : bool :=
  forallb (fun cv => match data r !! cv.1 with
                     | Some v => SqlKind.eq_ignore_ascii_case v cv.2
                     | None => false
                     end) filters.

(** The index that serves a single equality predicate on the table. *)
Definition matching_index (index_manager : option (gmap string Index.BTreeIndex)) (table : option string)
    (filters : list (string * string)) : option (Index.BTreeIndex * string) :=
  match index_manager, table, filters with
  | Some mgr, Some t, [(col, val)] =>
      let! desc := List.find (fun d => String.eqb (Index.table d) t && String.eqb (Index.column d) col)
                     (map Index.descriptor (iter_values mgr)) in
      let! idx := mgr !! Index.name desc in
      Some (idx, val)
  | _, _, _ => None
  end.

Definition execute_oltp_select_legacy (stmt : string) (rs : RowStore.PagedRowStore) (lim : nat)
    (results : list ResultRow) (db : string) (override_snapshot_xid : option N)
    (rocksdb_rows : option (list (string * RowData))) (index_manager : option (gmap string Index.BTreeIndex))
    : list ResultRow :=
  let all_rows := legacy_rows rs db override_snapshot_xid rocksdb_rows in
  match parse_one stmt with
  | Ok (Some sel) =>
      let sql_limit := Nat.min (default lim (N.to_nat <$> limit sel)) lim in
      let filters := where_filters (where_clause sel) in
      let select_star := bool_decide (columns sel = []) || existsb (String.eqb "*") (columns sel) in
      let remaining := (sql_limit - length results)%nat in
      let batch :=
        match matching_index index_manager (table sel) filters with
        | Some (idx, val) =>
            let row_keys := Index.lookup val idx in
            take remaining (List.filter (fun r => bool_decide (key r ∈ row_keys)) all_rows)
        | None => take remaining (List.filter (satisfies filters) all_rows)
        end in
      results ++ apply_projection batch (columns sel) select_star
  | _ => results
  end.

(** ** The batch *)

Definition complex (stmt : string) : bool :=
  match parse_one stmt with
  | Ok (Some sel) =>
      has_group_by sel || has_having sel || has_join sel || has_subquery sel || has_window_fn sel
  | _ => false
  end.

(** The rows handed to DataFusion, by table. *)
Definition table_rows (stmt : string) (rs : RowStore.PagedRowStore) (db : string) (snapshot_xid : option N)
    (rocksdb_rows : option (list (string * RowData))) : gmap string (list (string * RowData)) :=
  let all_rows :=
    match rocksdb_rows with
    | Some rdb => rdb
    | None => RowStore.scan_at_snapshot (default (RowStore.current_xid rs) snapshot_xid) rs
    end in
  list_to_map
    (map (fun name =>
            (name, map (fun kd => (strip_database db kd.1, kd.2))
                     (List.filter (fun kd => String.eqb kd.1 name
                                             || Str.starts_with (make_table_scan_prefix db name) kd.1)
                        all_rows)))
       (collect_query_table_names stmt)).

(** [results.push(r); if results.len() >= limit { break; }] *)
Fixpoint push_rows (lim : nat) (results rows : list ResultRow) : list ResultRow :=
  match rows with
  | [] => results
  | r :: rows' =>
      let results := results ++ [r] in
      if Nat.leb lim (length results) then results else push_rows lim results rows'
  end.

Definition cell_text (c : AggregateCell (F := F)) : option string :=
  match c with
  | CellInt i => Some (i64_to_string i)
  | CellFloat f => Some (f64_to_string f)
  | CellText t => Some t
  | CellNull => None
  end.

Definition aggregate_row (cols : list string) (values : list (AggregateCell (F := F))) : ResultRow :=
  mkRow "agg_0"
    (fold_left (fun d cv => match cell_text cv.2 with Some s => <[cv.1 := s]> d | None => d end)
       (zip cols values) ∅).

(** One statement of the batch, the results so far not being full. *)
Definition select_step (rs : RowStore.PagedRowStore) (lim : nat) (db : string) (snapshot_xid : option N)
    (rocksdb_rows : option (list (string * RowData))) (index_manager : option (gmap string Index.BTreeIndex))
    (stmt : string) (results : list ResultRow) : option (list ResultRow) :=
  let remaining := (lim - length results)%nat in
  let legacy := execute_oltp_select_legacy stmt rs lim results db snapshot_xid rocksdb_rows index_manager in
  let simple :=
    match rocksdb_rows with
    | Some _ => Some legacy
    | None =>
        let! out := execute_select stmt rs remaining in
        match out with
        | Ok (Rows rows) => Some (push_rows lim results rows)
        | Ok (Aggregate _ _) => Some legacy
        | Err (Unsupported _) => Some legacy
        | Err _ => Some results
        end
    end in
  if complex stmt then
    match df_select stmt (table_rows stmt rs db snapshot_xid rocksdb_rows) remaining with
    | Ok (Rows rows) => Some (push_rows lim results rows)
    | Ok (Aggregate cols values) => Some (results ++ [aggregate_row cols values])
    | Err _ => simple
    end
  else simple.

Fixpoint select_loop (rs : RowStore.PagedRowStore) (lim : nat) (db : string) (snapshot_xid : option N)
    (rocksdb_rows : option (list (string * RowData))) (index_manager : option (gmap string Index.BTreeIndex))
    (stmts : list string) (results : list ResultRow) : option (list ResultRow) :=
  match stmts with
  | [] => Some results
  | stmt :: stmts' =>
      if Nat.eqb (lim - length results) 0 then Some results
      else
        let! results := select_step rs lim db snapshot_xid rocksdb_rows index_manager stmt results in
        select_loop rs lim db snapshot_xid rocksdb_rows index_manager stmts' results
  end.

Definition execute_oltp_select (statements : list string) (rs : RowStore.PagedRowStore) (lim : nat)
    (db : string) (snapshot_xid : option N) (rocksdb_rows : option (list (string * RowData)))
    (index_manager : option (gmap string Index.BTreeIndex)) : option (list ResultRow) :=
  select_loop rs lim db snapshot_xid rocksdb_rows index_manager statements [].

End Oltp.
End OltpSelect.

(** * Batches of SELECTs: limits, and where the executors disagree *)

Local Open Scope string_scope.
Local Open Scope list_scope.
Import Select OltpSelect.

Section Limit.
Context {F : Type} `{!F64 F} `{!SqlParser} `{!QueryEngine F} `{!MapOrder Index.BTreeIndex}.

Lemma push_rows_length lim results rows :
  (length results < lim)%nat → (length (push_rows lim results rows) <= lim)%nat.
Proof.
  revert results. induction rows as [|r rows IH]; intros results Hl; cbn; [lia|].
  destruct (Nat.leb_spec lim (length (results ++ [r]))) as [Hle|Hlt].
  - rewrite length_app in *. cbn in *. lia.
  - by apply IH.
Qed.

Lemma apply_projection_length batch cols star : length (apply_projection batch cols star) = length batch.
Proof. unfold apply_projection. destruct star; [done|]. apply length_map. Qed.

Lemma legacy_length stmt rs lim results db xid rdb mgr :
  (length results <= lim)%nat →
  (length (execute_oltp_select_legacy stmt rs lim results db xid rdb mgr) <= lim)%nat.
Proof.
  intros Hl. unfold execute_oltp_select_legacy. destruct (parse_one stmt) as [[sel|]|]; [|done..].
  rewrite length_app, apply_projection_length.
  destruct (matching_index _ _ _) as [[idx val]|]; rewrite length_take; lia.
Qed.

Lemma select_step_length rs lim db xid rdb mgr stmt results r :
  (length results < lim)%nat →
  select_step (F := F) rs lim db xid rdb mgr stmt results = Some r → (length r <= lim)%nat.
Proof.
  intros Hl. pose proof (legacy_length stmt rs lim results db xid rdb mgr ltac:(lia)) as Hleg.
  pose proof (push_rows_length lim results) as Hpush. unfold select_step.
  set (simple := match rdb with Some _ => _ | None => _ end).
  assert (∀ r, simple = Some r → (length r <= lim)%nat) as Hsimple.
  { subst simple. intros r'. destruct rdb; [by intros [= <-]|].
    destruct (execute_select _ _ _) as [[[rows|c v]|[]]|]; intros [= <-]; auto; lia. }
  destruct (complex stmt); [|apply Hsimple].
  destruct (df_select _ _ _) as [[rows|cols vals]|e]; [| |apply Hsimple].
  - intros [= <-]. apply Hpush. lia.
  - intros [= <-]. rewrite length_app. cbn. lia.
Qed.

(** The parser never yields a column on which the aggregate detection panics. *)
Definition sane_columns : Prop :=
  ∀ stmt sel, parse_one stmt = Ok (Some sel) → try_extract_aggregates (columns sel) ≠ None.

Lemma execute_select_total stmt rs max_rows :
  sane_columns → execute_select (F := F) stmt rs max_rows ≠ None.
Proof.
  intros Hs. unfold execute_select. destruct (parse_one stmt) as [[sel|]|e] eqn:Hp; [|done..].
  unfold execute_parsed_select. pose proof (Hs stmt sel Hp) as Hagg.
  destruct (has_group_by sel || has_having sel); [done|]. destruct (has_join sel); [done|].
  destruct (has_subquery sel); [done|].
  destruct (match where_clause sel with Some _ => _ | None => _ end); [|done].
  by destruct (try_extract_aggregates (columns sel)) as [[calls|]|].
Qed.

Lemma select_step_total rs lim db xid rdb mgr stmt results :
  sane_columns → is_Some (select_step (F := F) rs lim db xid rdb mgr stmt results).
Proof.
  intros Hs. unfold select_step. pose proof (execute_select_total stmt rs (lim - length results) Hs) as Ht.
  set (simple := match rdb with Some _ => _ | None => _ end).
  assert (is_Some simple) as Hsimple.
  { subst simple. destruct rdb; [by eexists|].
    destruct (execute_select _ _ _) as [[[rows|c v]|[]]|]; try done; by eexists. }
  destruct (complex stmt); [|done]. destruct (df_select _ _ _) as [[rows|cols vals]|e]; try done; by eexists.
Qed.

(** A batch of SELECTs always answers, with at most as many rows as the limit
    allows, whichever executor serves each statement and whatever DataFusion
    returns. *)
Theorem select_respects_limit (statements : list string) (rs : RowStore.PagedRowStore) (lim : nat)
    (db : string) (snapshot_xid : option N) (rocksdb_rows : option (list (string * RowData)))
    (index_manager : option (gmap string Index.BTreeIndex)) :
  sane_columns →
  ∃ rows, execute_oltp_select (F := F) statements rs lim db snapshot_xid rocksdb_rows index_manager = Some rows ∧
    (length rows <= lim)%nat.
Proof.
  intros Hs. unfold execute_oltp_select. assert (length (@nil ResultRow) <= lim)%nat as Hl by (cbn; lia).
  revert Hl. generalize (@nil ResultRow). induction statements as [|stmt stmts IH]; intros results Hl; cbn.
  { by exists results. }
  destruct (Nat.eqb_spec (lim - length results) 0) as [_|Hne]; [by exists results|].
  destruct (select_step_total rs lim db snapshot_xid rocksdb_rows index_manager stmt results Hs) as [r Hr].
  rewrite Hr. apply IH, (select_step_length rs lim db snapshot_xid rocksdb_rows index_manager stmt results r); [lia|done].
Qed.
End Limit.

(** ** Disagreements *)

Module OltpDemo.
Export SelectProps.SelectDemo.

(** [SELECT * FROM item WHERE name = 'axe'], [SELECT * FROM item] *)
#[export] Instance oltp_parser : SqlParser := {
  parse_one s :=
    Ok (Some (mkSelect ["*"] (Some "item") false
                (if String.eqb s "all" then None else Some "name = 'axe'")
                [] None None false false false false));
  parse_sql _ := Ok [Some (Some (BinaryOp (Identifier "name") Eq (ValueExpr (SingleQuotedString "axe"))))];
}.

#[export] Instance oltp_engine : QueryEngine (option Z) := {
  parse_query _ := Ok [];
  df_select _ _ _ := Err (Unsupported "demo");
}.

#[export] Instance oltp_indexes : MapOrder Index.BTreeIndex := canonical_order.

Definition select (stmt db : string) (xid : option N) (rdb : option (list (string * RowData)))
    (mgr : option (gmap string Index.BTreeIndex)) : option (list string) :=
  map key <$> execute_oltp_select (F := option Z) [stmt] shop 10 db xid rdb mgr.
End OltpDemo.
Import OltpDemo.

(** The legacy scan, which serves every SELECT when the engine persists rows,
    does not look at the table: another table's row is returned. *)
Lemma legacy_scan_ignores_table :
  select "all" "" None (Some [("item:1", item "axe" "10"); ("other:1", item "gem" "99")]) None
  = Some ["item:1"; "other:1"].
Proof. vm_compute. reflexivity. Qed.

(** The executor ignores the database and the snapshot of the request: a query in
    database [shop], at a snapshot before the first row, returns the rows of the
    default database. *)
Lemma select_ignores_database_and_snapshot :
  select "all" "shop" (Some 0%N) None None = Some ["item:1"; "item:2"; "item:3"; "item:4"].
Proof. vm_compute. reflexivity. Qed.

(** Nothing inserts into an index after its creation: a row that came later is
    not found through it. *)
Lemma stale_index_hides_row :
  let mgr := (Index.create_index (Index.mkDescriptor "by_name" "item" "name" Index.BTree false) ∅).2 in
  select "axe" "" None (Some [("item:1", item "axe" "10")]) None = Some ["item:1"] ∧
  select "axe" "" None (Some [("item:1", item "axe" "10")]) (Some mgr) = Some [].
Proof. vm_compute. done. Qed.

Lemma select_respects_limit_witness :
  ∃ rows, execute_oltp_select (F := option Z) ["all"; "axe"] shop 2 "" None None None = Some rows ∧
    (length rows <= 2)%nat.
Proof.
  apply (select_respects_limit (F := option Z) ["all"; "axe"] shop 2 "" None None None).
  intros stmt sel [= <-]. vm_compute. discriminate.
Defined.
