(* ===== verification/Execute.v ===== *)
(** * The statement handler ([services/voltnuerongridd/src/handlers/sql.rs],
      [helpers/sql_parse.rs], [helpers/information_schema.rs])

    What [sql_execute] does with the INSERT, UPDATE and DELETE statements of a
    request outside the transaction endpoint.  A single server (or one without
    peers) applies them to the row store at once: rows are checked against the
    table's declared types and constraints, every change is recorded in the undo
    log and the engine, leaves a delta row for incremental views and fires the
    table's triggers.  A leader with peers only logs the statements and proposes
    them to Raft.  A ROLLBACK in the batch applies the undo log, a COMMIT clears
    it.

    As in [Flush], a lock that is taken is free and a panic of the row store is
    [None].  The delivery of trigger events is not modelled: the events are
    recorded. *)

From S2P Require Import Prelude Str SqlKind Mvcc Wal Raft Constraints DdlCatalog Triggers.
From S2P Require Import Tokenizer Ast SqlParse Utf8 AcidTx RaftLoop Select Flush.
From Stdlib Require Import Ascii.
Local Open Scope string_scope.
Local Open Scope list_scope.
Local Open Scope N_scope.
Local Open Scope vng_scope.

(** The extractors used besides those of the flush. *)
Class ExecExtractors := {
  bulk_delete_target : string -> option (string * string * string);
  validate_value : string -> string -> result unit string;
}.

#[export] Instance exec_extractors `{!Tokenizer.UnicodeTables} `{!Ast.SqlParserAdapter} : ExecExtractors := {
  bulk_delete_target sql :=
    (fun '(t, wc, wv) => (Utf8.to_utf8 t, Utf8.to_utf8 wc, Utf8.to_utf8 wv))
      <$> SqlParse.extract_bulk_delete_target (Utf8.of_utf8 sql);
  validate_value v ty :=
    match SqlParse.validate_value_for_type (Utf8.of_utf8 v) (Utf8.of_utf8 ty) with
    | Ok _ => Ok tt
    | Err e => Err (Utf8.to_utf8 e)
    end;
}.

Module Execute.
Import Flush.

(** ** Declared column types *)

(** The constraint clauses of a CREATE TABLE body, which declare no column. *)
Definition constraint_words : list string :=
  ["PRIMARY KEY"; "UNIQUE"; "CHECK"; "FOREIGN KEY"; "CONSTRAINT"; "INDEX"].

Definition process_column_clause (clause : string) : option (string * string) :=
  let upper := Str.to_ascii_uppercase (Str.trim clause) in
  if existsb (fun kw => Str.starts_with kw upper) constraint_words then None
  else
    match SqlKind.split_ascii_whitespace clause with
    | [] => None
    | n :: rest =>
        let col_name :=
          SqlKind.to_ascii_lowercase (Str.trim_matches ["`"] (Str.trim_matches [Str.DQUOTE] n)) in
        if String.eqb col_name "" then None else Some (col_name, hd "text" rest)
    end.

(** The clauses between the commas outside parentheses; [current] is read
    backwards. *)
Fixpoint split_clauses (depth : nat) (current s : string) : list string :=
  match s with
  | EmptyString => [Str.reverse_str current]
  | String c s' =>
      let ch := String c "" in
      if String.eqb ch "(" then split_clauses (S depth) (String c current) s'
      else if String.eqb ch ")" then split_clauses (depth - 1) (String c current) s'
      else if String.eqb ch "," && (depth =? 0)%nat then Str.reverse_str current :: split_clauses depth "" s'
      else split_clauses depth (String c current) s'
  end.

Definition extract_ddl_column_details (ddl : string) : list (string * string) :=
  match Str.find_str "(" ddl, Str.rfind_char ")"%char ddl with
  | Some p, Some paren_end =>
      if (paren_end <=? S p)%nat then []
      else omap (fun c => process_column_clause (Str.trim c))
             (split_clauses 0 "" (Str.sub (S p) paren_end ddl))
  | _, _ => []
  end.

Section Exec.
Context {E F : Type} `{!Wal.DurabilityEngine E} `{!RowEngine E} `{!SqlExtractors} `{!ExecExtractors}.
Context `{!Constraints.Float64 F} `{!MapOrder Constraints.ConstraintDescriptor} `{!MapOrder string}.
Context `{!MapOrder DdlCatalog.DdlCatalogEntry}.

Fixpoint validate_columns_against (details : list (string * string)) (d : RowData) : result unit string :=
  match details with
  | [] => Ok tt
  | (col_name, col_type) :: rest =>
      match d !! col_name with
      | Some v =>
          match validate_value v col_type with
          | Err e => Err ("column '" +:+ col_name +:+ "': " +:+ e)
          | Ok _ => validate_columns_against rest d
          end
      | None => validate_columns_against rest d
      end
  end.

Definition validate_row_against_ddl (table_name : string) (d : RowData) (cat : DdlCatalog.DdlCatalog)
    : result unit string :=
  match List.find (fun e => String.eqb (DdlCatalog.object_kind e) "table"
                            && SqlKind.eq_ignore_ascii_case (DdlCatalog.object_name e) table_name)
          (DdlCatalog.active_entries cat) with
  | None => Ok tt
  | Some entry =>
      validate_columns_against (extract_ddl_column_details (DdlCatalog.original_statement entry)) d
  end.

(** ** Trigger events *)

(** [v.replace('"', "\\\"")] *)
Definition escape_quotes (v : string) : string :=
  Str.join (Str.of_bytes [92; 34]) (Str.split Str.DQUOTE v).

Definition quote (s : string) : string := Str.DQUOTE +:+ s +:+ Str.DQUOTE.

Definition row_json (r : option RowData) : string :=
  match r with
  | Some r =>
      "{" +:+ Str.join "," (map (fun kv => quote kv.1 +:+ ":" +:+ quote (escape_quotes kv.2)) (iter_map r)) +:+ "}"
  | None => "null"
  end.

Definition payload (table schema : string) (event : Triggers.TriggerEvent) (old_row new_row : option RowData)
    : string :=
  "{" +:+ quote "event" +:+ ":" +:+ quote (Triggers.as_str event) +:+ ","
  +:+ quote "table" +:+ ":" +:+ quote table +:+ "," +:+ quote "schema" +:+ ":" +:+ quote schema +:+ ","
  +:+ quote "old_row" +:+ ":" +:+ row_json old_row +:+ "," +:+ quote "new_row" +:+ ":" +:+ row_json new_row
  +:+ "}".

(** The events emitted: trigger and payload. *)
Abbreviation Event := (Triggers.TriggerDefinition * string)%type.

Definition fire_dml_triggers (reg : Triggers.TriggerRegistry) (table schema : string)
    (event : Triggers.TriggerEvent) (old_row new_row : option RowData) : list Event :=
  map (fun t => (t, payload table schema event old_row new_row)) (Triggers.find_triggers table schema event reg).

(** ** State *)

Inductive ExecError :=
| TypeError (msg : string)
| MissingColumn (col : string)
| Violated (v : Constraints.ConstraintViolation).

(** The storage of the server with the undo log of the connection; the events
    emitted; the row-count changes of the batch; the row counts by table. *)
Record ExecState := mkExec {
  store : FlushState E;
  fired : list Event;
  stats_inserts : gmap string Z;
  table_stats : gmap string N;
}.

(** The catalogue and the triggers a batch reads. *)
Record Schema := mkSchema {
  catalog : DdlCatalog.DdlCatalog;
  triggers : Triggers.TriggerRegistry;
}.

Definition set_store (s : FlushState E) (st : ExecState) : ExecState :=
  mkExec s (fired st) (stats_inserts st) (table_stats st).

Definition fire (es : list Event) (st : ExecState) : ExecState :=
  mkExec (store st) (fired st ++ es) (stats_inserts st) (table_stats st).

(** [*stats_inserts.entry(k[..colon]).or_insert(0) += by] *)
Definition count_row (k : string) (by_ : Z) (st : ExecState) : ExecState :=
  match Str.rfind_char ":"%char k with
  | Some colon =>
      let t := Str.sub 0 colon k in
      mkExec (store st) (fired st)
        (<[t := (default 0%Z (stats_inserts st !! t) + by_)%Z]> (stats_inserts st)) (table_stats st)
  | None => st
  end.

Definition log_statement (sql : string) (st : ExecState) : ExecState :=
  set_store (set_wal (persist_sql_statement Wal.Dml sql (wal (store st))) (store st)) st.

(** A rejected statement releases the intents of the batch. *)
Definition reject (x : N) (e : ExecError) (st : ExecState) : result unit ExecError * ExecState :=
  (Err e, set_store (set_rows (RowStore.release_write_intents x (rows (store st))) (store st)) st).

(** A delta row for incremental views. *)
Definition delta_key (table raw_k : string) : string := "__delta:" +:+ table +:+ ":" +:+ raw_k.

Definition delta_row (op raw_k : string) (d : RowData) : RowData :=
  <["__delta_row_key" := raw_k]> (<["__delta_op" := op]> d).

Definition write_delta (x : N) (table raw_k op : string) (d : RowData) (st : ExecState) : option ExecState :=
  if String.eqb table "" || Str.starts_with "__" raw_k then Some st
  else
    let! rs := RowStore.insert x (delta_key table raw_k) (delta_row op raw_k d) (rows (store st)) in
    Some (set_store (set_rows rs (store st)) st).

(** ** INSERT *)

(** The first check of a row that fails: declared types, required columns,
    constraints. *)
Definition insert_check (sch : Schema) (table_name : string) (d : RowData) (m : Constraints.ConstraintManager)
    : option ExecError :=
  if String.eqb table_name "" then None
  else
    match validate_row_against_ddl table_name d (catalog sch) with
    | Err msg => Some (TypeError msg)
    | Ok _ =>
        match List.find (fun col => match d !! col with Some v => String.eqb v "" | None => true end)
                (Constraints.not_null_columns table_name m) with
        | Some col => Some (MissingColumn col)
        | None => Violated <$> validate_columns (F := F) m table_name (user_columns d)
        end
    end.

Definition exec_insert_row (sch : Schema) (db : string) (x : N) (r : string * RowData * string) (st : ExecState)
    : option (result unit ExecError * ExecState) :=
  let '(raw_k, d, single_sql) := r in
  let table_name := default "" (d !! "__table") in
  match insert_check sch table_name d (constraints (store st)) with
  | Some e => Some (reject x e st)
  | None =>
      let k := AcidTx.db_prefix_key db raw_k in
      let before := read_latest_with_rocksdb_fallback db k raw_k (store st) in
      let st := match before with None => count_row k 1 st | Some _ => st end in
      let! s := write_row db x k raw_k before d (store st) in
      let! st := write_delta x table_name raw_k "INSERT" d (set_store s st) in
      let s := store st in
      let m := if String.eqb table_name "" then constraints s
               else record_columns table_name (user_columns d) (constraints s) in
      let st := set_store (mkFlush (rows s) (wal s) m (undo_log s)) st in
      let st := fire (fire_dml_triggers (triggers sch) table_name "public" Triggers.AfterInsert None (Some d)) st in
      Some (Ok tt, log_statement single_sql st)
  end.

Fixpoint exec_insert_rows (sch : Schema) (db : string) (x : N) (rs : list (string * RowData * string))
    (st : ExecState) : option (result unit ExecError * ExecState) :=
  match rs with
  | [] => Some (Ok tt, st)
  | r :: rs' =>
      let! (res, st) := exec_insert_row sch db x r st in
      match res with Err e => Some (Err e, st) | Ok _ => exec_insert_rows sch db x rs' st end
  end.

(** ** UPDATE *)

(** The columns of a changed row whose value is new. *)
Definition changed_columns (before : option RowData) (d : RowData) : list (string * string) :=
  List.filter (fun cv => negb (bool_decide (before ≫= (.!! cv.1) = Some cv.2))) (user_columns d).

Definition update_check (table_name : string) (before : option RowData) (d : RowData)
    (m : Constraints.ConstraintManager) : option ExecError :=
  if String.eqb table_name "" then None
  else Violated <$> validate_columns (F := F) m table_name (changed_columns before d).

(** The rows a set-at-a-time UPDATE found, one after the other. *)
Fixpoint exec_bulk_update (sch : Schema) (db : string) (x : N) (tbl set_col set_val : string)
    (matching : list (string * RowData)) (st : ExecState) : option (result unit ExecError * ExecState) :=
  match matching with
  | [] => Some (Ok tt, st)
  | (matched_k, existing) :: rest =>
      let before := RowStore.read_latest matched_k (rows (store st)) in
      let updated := <[set_col := set_val]> existing in
      match Violated <$> validate_columns (F := F) (constraints (store st)) tbl (changed_columns before updated) with
      | Some e => Some (reject x e st)
      | None =>
          let! s := write_row db x matched_k (strip_db (db_prefix_str db) matched_k) before updated (store st) in
          let st := fire (fire_dml_triggers (triggers sch) tbl "public" Triggers.AfterUpdate before (Some updated))
                      (set_store s st) in
          exec_bulk_update sch db x tbl set_col set_val rest st
      end
  end.

Definition exec_update (sch : Schema) (db : string) (x : N) (raw_k : string) (d : RowData) (stmt : string)
    (st : ExecState) : option (result unit ExecError * ExecState) :=
  match scan_update stmt with
  | Some (tbl, set_col, set_val, where_col, where_val) =>
      let matching :=
        List.filter (bulk_matches (db_prefix_str db) tbl where_col where_val)
          (bulk_scan db (db_prefix_str db) (store st)) in
      let! (res, st) := exec_bulk_update sch db x tbl set_col set_val matching st in
      match res with Err e => Some (Err e, st) | Ok _ => Some (Ok tt, log_statement stmt st) end
  | None =>
      let k := AcidTx.db_prefix_key db raw_k in
      let before := read_latest_with_rocksdb_fallback db k raw_k (store st) in
      let merged := d ∪ default ∅ before in
      let table_name := default "" (d !! "__table") in
      match update_check table_name before merged (constraints (store st)) with
      | Some e => Some (reject x e st)
      | None =>
          let! s := write_row db x k raw_k before merged (store st) in
          let st := fire (fire_dml_triggers (triggers sch) table_name "public" Triggers.AfterUpdate before (Some merged))
                      (set_store s st) in
          Some (Ok tt, log_statement stmt st)
      end
  end.

(** ** DELETE *)

(** [is_bulk_delete] *)
Definition scan_delete (stmt : string) : option (string * string * string) :=
  match bulk_delete_target stmt with
  | Some (t, wc, wv) =>
      if negb (SqlKind.eq_ignore_ascii_case wc "id") && negb (String.eqb wc "") then Some (t, wc, wv) else None
  | None => None
  end.

Definition bulk_delete_matches (db_prefix tbl where_col where_val : string) (kv : string * RowData) : bool :=
  Str.contains (db_prefix +:+ tbl +:+ ":") kv.1 && bool_decide (kv.2 !! where_col = Some where_val).

(** [k.trim_start_matches(p)] *)
Definition trim_prefixes (p k : string) : string := if String.eqb p "" then k else Str.trim_start_matches [p] k.

(** A row removed: before-image, intent, store, engine. *)
Definition delete_row (db : string) (x : N) (key raw_k : string) (before : option RowData) (s : FlushState E)
    : FlushState E :=
  let s := record_undo key before s in
  let rs := (RowStore.begin_write_intent x key (rows s)).2 in
  let rs := (RowStore.delete x key rs).2 in
  set_wal (Flush.store_row db raw_k x None (wal s)) (set_rows rs s).

Fixpoint exec_bulk_delete (sch : Schema) (db : string) (x : N) (tbl : string) (matching : list string)
    (st : ExecState) : ExecState :=
  match matching with
  | [] => st
  | matched_k :: rest =>
      let before := RowStore.read_latest matched_k (rows (store st)) in
      let st := match before with Some _ => count_row matched_k (-1) st | None => st end in
      let raw_k := trim_prefixes (db_prefix_str db) matched_k in
      let st := set_store (delete_row db x matched_k raw_k before (store st)) st in
      let st := fire (fire_dml_triggers (triggers sch) tbl "public" Triggers.AfterDelete before None) st in
      exec_bulk_delete sch db x tbl rest st
  end.

Definition exec_delete (sch : Schema) (db : string) (x : N) (stmt : string) (st : ExecState)
    : option ExecState :=
  match scan_delete stmt with
  | Some (tbl, where_col, where_val) =>
      let matching :=
        map fst (List.filter (bulk_delete_matches (db_prefix_str db) tbl where_col where_val)
                   (bulk_scan db (db_prefix_str db) (store st))) in
      Some (log_statement stmt (exec_bulk_delete sch db x tbl matching st))
  | None =>
      match delete_key stmt with
      | None => Some st
      | Some raw_k =>
          let k := AcidTx.db_prefix_key db raw_k in
          let before := read_latest_with_rocksdb_fallback db k raw_k (store st) in
          let st := match before with Some _ => count_row k (-1) st | None => st end in
          let del_table := hd "" (Str.split ":" raw_k) in
          let st := set_store (delete_row db x k raw_k before (store st)) st in
          let! st := write_delta x del_table raw_k "DELETE" ∅ st in
          let st := fire (fire_dml_triggers (triggers sch) del_table "public" Triggers.AfterDelete before None) st in
          Some (log_statement stmt st)
      end
  end.

(** ** A batch *)

Definition exec_statement (sch : Schema) (db : string) (x : N) (stmt : string) (st : ExecState)
    : option (result unit ExecError * ExecState) :=
  let upper := upper_start stmt in
  if Str.starts_with "INSERT" upper then exec_insert_rows sch db x (insert_rows stmt) st
  else if Str.starts_with "UPDATE" upper then
    match update_row stmt with
    | Some (raw_k, d) => exec_update sch db x raw_k d stmt st
    | None => Some (Ok tt, st)
    end
  else if Str.starts_with "DELETE" upper then
    let! st := exec_delete sch db x stmt st in Some (Ok tt, st)
  else Some (Ok tt, st).

Fixpoint exec_statements (sch : Schema) (db : string) (x : N) (stmts : list string) (st : ExecState)
    : option (result unit ExecError * ExecState) :=
  match stmts with
  | [] => Some (Ok tt, st)
  | s :: stmts' =>
      let! (res, st) := exec_statement sch db x s st in
      match res with Err e => Some (Err e, st) | Ok _ => exec_statements sch db x stmts' st end
  end.

(** The row counts: [(cur as i64 + delta).max(0) as u64]. *)
Definition apply_stat (stats : gmap string N) (td : string * Z) : gmap string N :=
  let cur := default 0 (stats !! td.1) in
  <[td.1 := Z.to_N (Z.max 0 (Select.i64_wrap (Select.i64_wrap (Z.of_N cur) + td.2)))]> stats.

Definition apply_stats (st : ExecState) : ExecState :=
  mkExec (store st) (fired st) ∅ (fold_left apply_stat (map_to_list (stats_inserts st)) (table_stats st)).

(** The direct path: the statements under one transaction id; on success the
    intents are released and the row counts updated. *)
Definition execute_direct (sch : Schema) (db : string) (stmts : list string) (st : ExecState)
    : option (result unit ExecError * ExecState) :=
  let '(x, rs) := RowStore.begin_xid (rows (store st)) in
  let st := mkExec (set_rows rs (store st)) (fired st) ∅ (table_stats st) in
  let! (res, st) := exec_statements sch db x stmts st in
  match res with
  | Err e => Some (Err e, st)
  | Ok _ =>
      let s := store st in
      Some (Ok tt, apply_stats (set_store (set_rows (RowStore.release_write_intents x (rows s)) s) st))
  end.

Definition is_dml (stmt : string) : bool :=
  let u := upper_start stmt in
  Str.starts_with "INSERT" u || Str.starts_with "UPDATE" u || Str.starts_with "DELETE" u.

(** The command for a statement: its database, then its text. *)
Definition scoped_command (db stmt : string) : string := "__vng_db:" +:+ db +:+ Str.LF +:+ stmt.

(** A leader appends every statement it has applied. *)
Definition replicate_direct (db : string) (stmts : list string) (total_peers : nat) (n : Raft.RaftNode)
    : Raft.RaftNode :=
  match Raft.role n with
  | Raft.Leader =>
      fold_left (fun n s => if is_dml s then (Raft.append_command (scoped_command db s) total_peers n).2 else n) stmts n
  | _ => n
  end.

(** The linearisable path of a leader with peers: the statements are proposed and
    logged; the apply loop will run them.  The index to wait for is returned. *)
Definition propose (db : string) (stmts : list string) (total_peers : nat) (n : Raft.RaftNode)
    : N * Raft.RaftNode :=
  fold_left
    (fun acc s =>
       if is_dml s then
         let '(idx, n) := Raft.append_command_pending (scoped_command db s) total_peers acc.2 in
         (N.max acc.1 idx, n)
       else acc) stmts (0, n).

Definition log_batch (stmts : list string) (w : E) : E :=
  fold_left
    (fun w s =>
       let upper := upper_start s in
       if Str.starts_with "INSERT" upper then
         fold_left (fun w r => persist_sql_statement Wal.Dml r.2 w) (insert_rows s) w
       else if Str.starts_with "UPDATE" upper || Str.starts_with "DELETE" upper then
         persist_sql_statement Wal.Dml s w
       else w) stmts w.

(** [u == kw || u.starts_with("kw;") || u.starts_with("kw ")] *)
Definition has_keyword (kw : string) (stmts : list string) : bool :=
  existsb (fun s => let u := upper_start s in
                    String.eqb u kw || Str.starts_with (kw +:+ ";") u || Str.starts_with (kw +:+ " ") u) stmts.

(** The answer of the handler to the write part of a batch.  After [Proposed] it
    waits for the apply loop to reach the index, and then goes on with [finish];
    on a timeout it answers with an error. *)
Inductive Outcome :=
| Done
| Rejected (e : ExecError)
| NotLeader
| Proposed (index : N).

(** ROLLBACK and COMMIT at the end of the batch. *)
Definition finish (stmts : list string) (st : ExecState) : option ExecState :=
  if has_keyword "ROLLBACK" stmts then
    let! s := rollback_undo (store st) in Some (set_store s st)
  else if has_keyword "COMMIT" stmts then
    let s := store st in Some (set_store (mkFlush (rows s) (wal s) (constraints s) []) st)
  else Some st.

Definition execute_writes (sch : Schema) (db : string) (stmts : list string) (peers : nat) (n : Raft.RaftNode)
    (st : ExecState) : option (Outcome * Raft.RaftNode * ExecState) :=
  if existsb is_dml stmts then
    match Raft.role n, peers with
    | Raft.Leader, S _ =>
        let '(idx, n) := propose db stmts peers n in
        let s := store st in
        Some (Proposed idx, n, set_store (set_wal (log_batch stmts (wal s)) s) st)
    | (Raft.Follower | Raft.Candidate), S _ => Some (NotLeader, n, st)
    | _, O =>
        let! (res, st) := execute_direct sch db stmts st in
        match res with
        | Err e => Some (Rejected e, n, st)
        | Ok _ => let! st := finish stmts st in Some (Done, replicate_direct db stmts peers n, st)
        end
    end
  else let! st := finish stmts st in Some (Done, n, st).

End Exec.
End Execute.
