(* ===== verification/ExecuteProps.v ===== *)
(** * What a batch of statements does

    The direct path of the statement handler against a specification on maps from
    keys to rows, its undo log, and its row counts. *)

From S2P Require Import Prelude Str Tokenizer Ast SqlParse SqlParseProps Utf8.
From S2P Require Import WalProps ConstraintProps Mvcc MvccSpec Wal Raft RaftLoop RaftApply.
From S2P Require Import Constraints DdlCatalog Triggers SqlKind AcidTx Select SelectProps.
From S2P Require Import Flush FlushProps Execute.
From Stdlib Require Import Ascii.
Local Open Scope string_scope.
Local Open Scope list_scope.
Local Open Scope N_scope.
Local Open Scope vng_scope.
Import Flush Execute.

(** ** Writes, key by key *)

Lemma apply_writes_local (ws : list (string * option RowData)) (m m' : table) k :
  m !! k = m' !! k → apply_writes ws m !! k = apply_writes ws m' !! k.
Proof.
  revert m m'. induction ws as [|[j v] ws IH]; intros m m' Hk; [done|]. apply IH.
  unfold apply_write. cbn. destruct v; destruct (decide (j = k)) as [->|Hne].
  - by rewrite !lookup_insert_eq.
  - by rewrite !lookup_insert_ne.
  - by rewrite !lookup_delete_eq.
  - by rewrite !lookup_delete_ne.
Qed.

(** The keys of the delta rows kept for incremental views. *)
Definition delta (k : string) : bool := Str.starts_with "__delta:" k.

Lemma delta_key_delta t k : delta (delta_key t k) = true.
Proof. done. Qed.

(** ** The effect of a statement on the rows *)

Section Spec.
Context `{!SqlExtractors} `{!ExecExtractors}.

Definition delta_writes (t raw_k op : string) (d : RowData) : list (string * option RowData) :=
  if String.eqb t "" || Str.starts_with "__" raw_k then []
  else [(delta_key t raw_k, Some (delta_row op raw_k d))].

(** An inserted row and its delta. *)
Definition insert_writes (db : string) (r : string * RowData * string) : list (string * option RowData) :=
  let '(raw_k, d, _) := r in
  (AcidTx.db_prefix_key db raw_k, Some d) :: delta_writes (default "" (d !! "__table")) raw_k "INSERT" d.

(** INSERT upserts its rows, UPDATE merges its columns into its row or sets one
    column in every matching row, DELETE removes its row or every matching row; an
    INSERT and a DELETE by key leave delta rows. *)
Definition exec_effect (db stmt : string) (m : table) : table :=
  let upper := upper_start stmt in
  if Str.starts_with "INSERT" upper then apply_writes (concat (map (insert_writes db) (insert_rows stmt))) m
  else if Str.starts_with "UPDATE" upper then
    match update_row stmt, scan_update stmt with
    | None, _ => m
    | Some _, Some (t, sc, sv, wc, wv) =>
        map_imap (fun k row => Some (if bulk_matches (db_prefix_str db) t wc wv (k, row)
                                     then <[sc := sv]> row else row)) m
    | Some (k, d), None =>
        let k := AcidTx.db_prefix_key db k in <[k := d ∪ default ∅ (m !! k)]> m
    end
  else if Str.starts_with "DELETE" upper then
    match scan_delete stmt, delete_key stmt with
    | Some (t, wc, wv), _ => filter (fun kv => bulk_delete_matches (db_prefix_str db) t wc wv kv = false) m
    | None, Some raw_k =>
        apply_writes ((AcidTx.db_prefix_key db raw_k, None)
                      :: delta_writes (hd "" (Str.split ":" raw_k)) raw_k "DELETE" ∅) m
    | None, None => m
    end
  else m.

Definition batch_effect (db : string) (stmts : list string) (m : table) : table :=
  fold_left (fun m s => exec_effect db s m) stmts m.
End Spec.

(** ** Row counts *)

(** The table a key is counted under: the key up to its last colon. *)
Definition table_of (k : string) : option string :=
  (fun colon => Str.sub 0 colon k) <$> Str.rfind_char ":"%char k.

Definition rows_in (t : string) (m : table) : Z :=
  Z.of_nat (size (filter (fun kv => table_of kv.1 = Some t) m)).

Lemma rows_in_insert t k d (m : table) :
  rows_in t (<[k := d]> m)
  = (rows_in t m + if decide (table_of k = Some t ∧ m !! k = None) then 1 else 0)%Z.
Proof.
  unfold rows_in. rewrite map_filter_insert. cbn [fst]. destruct (decide (table_of k = Some t)) as [Ht|Ht].
  - rewrite map_size_insert. destruct (filter _ m !! k) as [d'|] eqn:Hk.
    + apply map_lookup_filter_Some in Hk as [Hk _]. rewrite decide_False by (intros [_ ?]; congruence). cbn. lia.
    + apply map_lookup_filter_None in Hk as [Hk|Hk].
      * rewrite decide_True by done. cbn. lia.
      * rewrite decide_True; [cbn; lia|]. split; [done|].
        destruct (m !! k) as [d'|] eqn:Hm; [|done]. by destruct (Hk d').
  - rewrite decide_False by (by intros [? _]). rewrite map_filter_delete, delete_id; [lia|].
    apply map_lookup_filter_None. right. by intros d' _.
Qed.

Lemma rows_in_delete t k (m : table) :
  rows_in t (base.delete k m)
  = (rows_in t m - if decide (table_of k = Some t ∧ is_Some (m !! k)) then 1 else 0)%Z.
Proof.
  destruct (m !! k) as [d|] eqn:Hk.
  - rewrite <- (insert_delete_id m k d) at 2 by done. rewrite rows_in_insert, lookup_delete_eq.
    destruct (decide (table_of k = Some t)).
    + rewrite !decide_True by (split; by try eexists). lia.
    + rewrite !decide_False by (by intros [? _]). lia.
  - rewrite delete_id by done. rewrite decide_False by (intros [_ []]; congruence). lia.
Qed.

(** A character that occurs is found, from the left at or before the occurrence
    and from the right at or after it. *)
Lemma find_char_before c u v : ∃ i, Str.find_str (String c "") (u +:+ String c v) = Some i ∧ (i <= String.length u)%nat.
Proof.
  induction u as [|d u (i & Hi & Hle)].
  - exists 0%nat. split; [|done]. unfold Str.find_str. cbn [Str.split_once Str.strip_prefix String.append].
    change ("" +:+ String c v) with (String c v). cbn [Str.split_once Str.strip_prefix].
    by rewrite Ascii.eqb_refl.
  - change (String d u +:+ String c v) with (String d (u +:+ String c v)).
    unfold Str.find_str in *. cbn [Str.split_once Str.strip_prefix String.append String.length] in *.
    destruct (Ascii.eqb c d); [exists 0%nat; split; [done|lia]|].
    destruct (Str.split_once (String c "") (u +:+ String c v)) as [[a b]|]; [|done].
    injection Hi as <-. exists (S (String.length a)). split; [done|lia].
Qed.

Lemma rfind_char_after c u v : ∃ i, Str.rfind_char c (u +:+ String c v) = Some i ∧ (String.length u <= i)%nat.
Proof.
  unfold Str.rfind_char.
  replace (u +:+ String c v) with (u +:+ (String c "" +:+ v)) by done.
  rewrite !Str.reverse_str_app, Str.app_assoc_str.
  destruct (find_char_before c (Str.reverse_str v) (Str.reverse_str u)) as (i & Hi & Hle).
  change (Str.reverse_str (String c "") +:+ Str.reverse_str u) with (String c (Str.reverse_str u)). rewrite Hi. eexists. split; [reflexivity|].
  rewrite !Str.length_app_str. rewrite Str.length_reverse_str in Hle. cbn. lia.
Qed.

Lemma sub_prefix p s i : (String.length p <= i)%nat → Str.starts_with p (Str.sub 0 i (p +:+ s)) = true.
Proof.
  intros Hle. unfold Str.sub, Str.starts_with. rewrite Nat.sub_0_r.
  revert i Hle. induction p as [|c p IH]; intros i Hle; [by destruct i, s|].
  destruct i as [|i]; cbn [String.length] in Hle; [lia|].
  change (String c p +:+ s) with (String c (p +:+ s)).
  cbn [String.substring Str.strip_prefix]. rewrite Ascii.eqb_refl. apply IH. lia.
Qed.

(** Delta rows are counted under names of their own. *)
Lemma delta_table t raw t' : table_of (delta_key t raw) = Some t' → delta t' = true.
Proof.
  unfold table_of, delta_key. change (":" +:+ raw) with (String ":" raw).
  rewrite <- Str.app_assoc_str.
  destruct (rfind_char_after ":"%char ("__delta:" +:+ t) raw) as (i & -> & Hle). intros [= <-].
  unfold delta. rewrite Str.app_assoc_str. apply sub_prefix. rewrite Str.length_app_str in Hle. lia.
Qed.

(** ** Steps of a batch *)

Section Steps.
Context {E F : Type} `{!Wal.DurabilityEngine E} `{!RowEngine E} `{!RowEngineLaws E} `{!SqlExtractors}.
Context `{!ExecExtractors} `{!Constraints.Float64 F} `{!MapOrder Constraints.ConstraintDescriptor}.
Context `{!MapOrder string} `{!MapOrder DdlCatalog.DdlCatalogEntry}.
Implicit Types st : ExecState (E := E).

Abbreviation vw st := (view (rows (store st))).

(** Part of a batch that runs as [x]: the store stays in the batch, and the undo
    entries added give back every row that is not a delta row. *)
Record executed (x : N) (st st' : ExecState (E := E)) : Prop := {
  executed_batch : in_batch x (rows (store st'));
  executed_engine : persists_rows (wal (store st')) = persists_rows (wal (store st));
  executed_stats : table_stats st' = table_stats st;
  executed_undo : ∃ es, undo_log (store st') = undo_log (store st) ++ es ∧
    ∀ k, delta k = false → apply_writes (rev es) (vw st') !! k = vw st !! k;
}.

Lemma executed_refl x st : in_batch x (rows (store st)) → executed x st st.
Proof. intros. split; [done..|]. exists []. by rewrite app_nil_r. Qed.

Lemma executed_trans x st1 st2 st3 : executed x st1 st2 → executed x st2 st3 → executed x st1 st3.
Proof.
  intros [_ He1 Ht1 (es1 & Hu1 & Hv1)] [Hb He2 Ht2 (es2 & Hu2 & Hv2)]. split; [done|congruence..|].
  exists (es1 ++ es2). rewrite Hu2, Hu1, app_assoc. split; [done|]. intros k Hk.
  rewrite rev_app_distr, apply_writes_app, <- Hv1 by done. apply apply_writes_local. by apply Hv2.
Qed.

(** Changes outside the rows, the engine's rows and the undo log. *)
Lemma executed_frame x st st' s fs ss :
  executed x st st' → in_batch x (rows s) →
  (∀ k, delta k = false → view (rows s) !! k = vw st' !! k) →
  persists_rows (wal s) = persists_rows (wal (store st')) → undo_log s = undo_log (store st') →
  executed x st (mkExec s fs ss (table_stats st')).
Proof.
  intros [_ He Ht (es & Hu & Hv)] Hs Hview Hw Hul. split; [done|cbn; congruence|done|].
  exists es. cbn. rewrite Hul. split; [done|]. intros k Hk. rewrite <- Hv by done.
  apply apply_writes_local. by apply Hview.
Qed.

Lemma executed_log x st st' sql : executed x st st' → executed x st (log_statement sql st').
Proof. intros Hx. by apply (executed_frame x st st'); [|apply Hx|..|apply append_sql_persists|]. Qed.

Lemma executed_fire x st st' es : executed x st st' → executed x st (fire es st').
Proof. intros Hx. by apply (executed_frame x st st'); [|apply Hx|..]. Qed.

Lemma executed_count x st st' k z : executed x st st' → executed x st (count_row k z st').
Proof.
  intros Hx. unfold count_row. destruct (Str.rfind_char _ _); [|done].
  by apply (executed_frame x st st'); [|apply Hx|..].
Qed.

Lemma store_count k z st : store (count_row k z st) = store st.
Proof. unfold count_row. by destruct (Str.rfind_char _ _). Qed.

(** A step of the flush inside a batch. *)
Lemma executed_flushed x st s : flushed x (store st) s → executed x st (set_store s st).
Proof.
  intros [Hb He (es & Hu & Hv)]. split; [done|done|done|]. exists es. cbn. split; [done|].
  intros k _. by rewrite Hv.
Qed.

Lemma reject_executed x e st :
  in_batch x (rows (store st)) → executed x st (reject x e st).2 ∧ vw (reject x e st).2 = vw st.
Proof.
  intros Hb. destruct (release_in_batch x x _ Hb) as [Hb' Hv']. split; [|done].
  by apply (executed_frame x st st); [apply executed_refl|..].
Qed.

Lemma write_delta_executed x t raw op d st :
  in_batch x (rows (store st)) →
  ∃ st', write_delta x t raw op d st = Some st' ∧ executed x st st' ∧
    vw st' = apply_writes (delta_writes t raw op d) (vw st) ∧
    fired st' = fired st ∧ stats_inserts st' = stats_inserts st ∧
    constraints (store st') = constraints (store st) ∧ wal (store st') = wal (store st).
Proof.
  intros Hb. unfold write_delta, delta_writes. destruct (String.eqb t "" || Str.starts_with "__" raw).
  { exists st. split_and!; try done. by apply executed_refl. }
  destruct (insert_in_batch x (delta_key t raw) (delta_row op raw d) _ Hb) as (rs & -> & Hb' & Hv').
  eexists. split; [reflexivity|]. split_and!; try done.
  apply (executed_frame x st st); [by apply executed_refl|done| |done..].
  intros k Hk. cbn. rewrite Hv'. rewrite lookup_insert_ne; [done|]. intros <-. by rewrite delta_key_delta in Hk.
Qed.
(** The row-count changes recorded are those of the rows. *)
Definition counted st st' : Prop :=
  ∀ t, delta t = false →
    (default 0 (stats_inserts st' !! t) - default 0 (stats_inserts st !! t)
     = rows_in t (vw st') - rows_in t (vw st))%Z.

Lemma counted_trans st1 st2 st3 : counted st1 st2 → counted st2 st3 → counted st1 st3.
Proof. intros Hc Hd t Ht. specialize (Hc t Ht). specialize (Hd t Ht). lia. Qed.

Lemma counted_same st st' :
  stats_inserts st' = stats_inserts st → vw st' = vw st → counted st st'.
Proof. intros Hs Hv t _. rewrite Hs, Hv. lia. Qed.

Lemma counted_rows st st' :
  stats_inserts st' = stats_inserts st →
  (∀ t, delta t = false → rows_in t (vw st') = rows_in t (vw st)) → counted st st'.
Proof. intros Hs Hv t Ht. rewrite Hs, Hv by done. lia. Qed.

(** A count of [z] under the table of [k]. *)
Lemma count_row_stats k z st t :
  (default 0 (stats_inserts (count_row k z st) !! t)
   = default 0 (stats_inserts st !! t) + if decide (table_of k = Some t) then z else 0)%Z.
Proof.
  unfold count_row, table_of. destruct (Str.rfind_char _ _) as [colon|]; cbn; [|rewrite decide_False by done; lia].
  destruct (decide (Str.sub 0 colon k = t)) as [<-|Hne].
  - rewrite lookup_insert_eq, decide_True by done. done.
  - rewrite lookup_insert_ne, decide_False by (congruence || done). lia.
Qed.

Lemma rows_in_delta_writes t' t raw op d (m : table) :
  delta t' = false → rows_in t' (apply_writes (delta_writes t raw op d) m) = rows_in t' m.
Proof.
  intros Ht. unfold delta_writes. destruct (_ || _); [done|]. cbn. unfold apply_write. cbn.
  rewrite rows_in_insert, decide_False; [lia|]. intros [Htb _]. apply delta_table in Htb. congruence.
Qed.

(** A count beside one write. *)
Lemma counted_write k (v : option RowData) st st' :
  (∀ t, delta t = false → rows_in t (vw st') = rows_in t (apply_write (vw st) (k, v))) →
  stats_inserts st' = stats_inserts (match vw st !! k, v with
                                     | None, Some _ => count_row k 1 st
                                     | Some _, None => count_row k (-1) st
                                     | _, _ => st
                                     end) →
  counted st st'.
Proof.
  intros Hv Hs t Ht. rewrite Hv, Hs by done. unfold apply_write. cbn [fst snd].
  destruct v as [d|], (vw st !! k) as [d'|] eqn:Hk.
  - rewrite rows_in_insert, decide_False by (intros [_ ?]; congruence). lia.
  - rewrite rows_in_insert, count_row_stats.
    destruct (decide (table_of k = Some t)); [rewrite decide_True by done|rewrite decide_False by tauto]; lia.
  - rewrite rows_in_delete, count_row_stats.
    destruct (decide (table_of k = Some t)); [rewrite decide_True by (split; by try eexists)|rewrite decide_False by tauto]; lia.
  - rewrite rows_in_delete, decide_False by (intros [_ []]; congruence). lia.
Qed.

Lemma insert_row_executed sch db x r st :
  in_batch x (rows (store st)) → persists_rows (wal (store st)) = false →
  ∃ res st', exec_insert_row (F := F) sch db x r st = Some (res, st') ∧ executed x st st' ∧ counted st st' ∧
    match res with
    | Ok _ => vw st' = apply_writes (insert_writes db r) (vw st)
    | Err _ => vw st' = vw st
    end.
Proof.
  intros Hb Hp. destruct r as [[raw d] q]. unfold exec_insert_row. cbv zeta.
  destruct (insert_check _ _ _ _) as [e|].
  { destruct (reject_executed x e st Hb) as [Hex Hv]. eexists _, _. split; [reflexivity|].
    split; [exact Hex|]. split; [by apply counted_same|exact Hv]. }
  set (k := AcidTx.db_prefix_key db raw). rewrite fallback_view by done.
  set (st0 := match vw st !! k with Some _ => st | None => count_row k 1 st end).
  assert (store st0 = store st) as Hst0 by (subst st0; destruct (vw st !! k); [done|apply store_count]).
  assert (executed x st st0) as Hex0.
  { subst st0. destruct (vw st !! k); [|apply executed_count]; by apply executed_refl. }
  rewrite Hst0.
  destruct (write_row_flushed db x k raw d (store st) Hb) as (s & -> & Hf & Hv & Hm & Hw).
  assert (executed x st (set_store s st0)) as Hex1.
  { eapply executed_trans; [exact Hex0|]. apply executed_flushed. by rewrite Hst0. }
  destruct (write_delta_executed x (default "" (d !! "__table")) raw "INSERT" d (set_store s st0))
    as (st2 & -> & Hex2 & Hv2 & Hfi & Hsi & Hc & Hwal); [apply Hf|].
  eexists _, _. split; [reflexivity|]. cbn [store set_store rows] in Hv2. rewrite Hv in Hv2.
  split; [|split].
  - apply executed_log, executed_fire. eapply (executed_frame x st st2); [by eapply executed_trans|apply Hex2|done..].
  - apply (counted_write k (Some d)).
    + intros t Ht. cbn. rewrite Hv2. by apply rows_in_delta_writes.
    + cbn. rewrite Hsi. subst st0. by destruct (vw st !! k).
  - done.
Qed.

Lemma insert_rows_executed sch db x rs st :
  in_batch x (rows (store st)) → persists_rows (wal (store st)) = false →
  ∃ res st', exec_insert_rows (F := F) sch db x rs st = Some (res, st') ∧ executed x st st' ∧ counted st st' ∧
    match res with
    | Ok _ => vw st' = apply_writes (concat (map (insert_writes db) rs)) (vw st)
    | Err _ => ∃ pre r post, rs = pre ++ r :: post ∧
        vw st' = apply_writes (concat (map (insert_writes db) pre)) (vw st)
    end.
Proof.
  revert st. induction rs as [|r rs IH]; intros st Hb Hp.
  { exists (Ok tt), st. split; [done|]. split; [by apply executed_refl|]. split; [by apply counted_same|done]. }
  cbn [exec_insert_rows]. destruct (insert_row_executed sch db x r st Hb Hp) as (res & st1 & -> & Hx1 & Hc1 & Hv1).
  destruct res as [[]|e].
  - destruct (IH st1) as (res & st' & -> & Hx & Hc & Hv); [apply Hx1|by rewrite (executed_engine _ _ _ Hx1)|].
    exists res, st'. split; [done|]. split; [by eapply executed_trans|]. split; [by eapply counted_trans|].
    destruct res as [[]|e].
    + cbn [map concat]. by rewrite Hv, Hv1, <- apply_writes_app.
    + destruct Hv as (pre & r' & post & -> & Hv). exists (r :: pre), r', post. split; [done|].
      cbn [map concat]. by rewrite Hv, Hv1, <- apply_writes_app.
  - exists (Err e), st1. split; [done|]. split; [done|]. split; [done|]. by exists [], r, rs.
Qed.

Lemma delete_row_flushed db x k raw (s : FlushState E) :
  in_batch x (rows s) →
  let s' := delete_row db x k raw (view (rows s) !! k) s in
  flushed x s s' ∧ view (rows s') = base.delete k (view (rows s)).
Proof.
  intros Hb s'. destruct (intent_frame x k (rows s)) as [Hb1 Hv1].
  destruct (delete_in_batch x k _ (Hb1 _ Hb)) as [Hb2 Hv2]. rewrite Hv1 in Hv2. split; [|done].
  split; [done|apply store_row_persists|]. exists [(k, view (rows s) !! k)]. split; [done|].
  cbn. rewrite Hv2. apply (undo_write _ k None).
Qed.

(** The store under a count, with the row removed. *)
Lemma count_delete_executed db x k raw st :
  in_batch x (rows (store st)) →
  let st0 := match vw st !! k with Some _ => count_row k (-1) st | None => st end in
  let st' := set_store (delete_row db x k raw (vw st !! k) (store st0)) st0 in
  executed x st st' ∧ counted st st' ∧ vw st' = base.delete k (vw st).
Proof.
  intros Hb st0 st'. destruct (delete_row_flushed db x k raw (store st) Hb) as [Hf Hv].
  assert (store st0 = store st) as Hst0 by (subst st0; destruct (vw st !! k); [apply store_count|done]).
  assert (executed x st st0) as Hex0.
  { subst st0. destruct (vw st !! k); [apply executed_count|]; by apply executed_refl. }
  subst st'. rewrite Hst0. split; [|split; [|done]].
  - eapply executed_trans; [exact Hex0|]. apply executed_flushed. by rewrite Hst0.
  - apply (counted_write k None).
    + intros t _. cbn [store set_store]. by rewrite Hv.
    + cbn. subst st0. by destruct (vw st !! k).
Qed.

Definition removals (ks : list string) : list (string * option RowData) := map (fun k => (k, None)) ks.

Lemma bulk_delete_executed sch db x tbl ks st :
  in_batch x (rows (store st)) →
  let st' := exec_bulk_delete sch db x tbl ks st in
  executed x st st' ∧ counted st st' ∧ vw st' = apply_writes (removals ks) (vw st).
Proof.
  revert st. induction ks as [|k ks IH]; intros st Hb; cbn [exec_bulk_delete].
  { split; [by apply executed_refl|]. split; [by apply counted_same|done]. }
  rewrite <- view_lookup.
  destruct (count_delete_executed db x k (trim_prefixes (db_prefix_str db) k) st Hb) as (Hex & Hc & Hv).
  cbv zeta in *. set (st1 := set_store _ _) in *.
  set (st2 := fire _ st1). destruct (IH st2) as (Hex2 & Hc2 & Hv2); [apply Hex|].
  split; [|split].
  - eapply executed_trans; [apply executed_fire; exact Hex|exact Hex2].
  - eapply counted_trans; [exact Hc|exact Hc2].
  - rewrite Hv2. change (vw st2) with (vw st1). by rewrite Hv.
Qed.

Lemma removals_lookup ks (m : table) k :
  apply_writes (removals ks) m !! k = if decide (k ∈ ks) then None else m !! k.
Proof.
  revert m. induction ks as [|j ks IH]; intros m; [done|].
  change (apply_writes (removals (j :: ks)) m) with (apply_writes (removals ks) (base.delete j m)). rewrite IH.
  destruct (decide (k ∈ ks)) as [Hk|Hk]; [by rewrite decide_True by (by right)|].
  destruct (decide (k = j)) as [->|Hne].
  - by rewrite lookup_delete_eq, decide_True by left.
  - rewrite lookup_delete_ne, decide_False by (done || by apply not_elem_of_cons). done.
Qed.

(** Removing the matching rows of a scan filters the view. *)
Lemma removals_filter (f : string * RowData -> bool) s :
  wf s →
  apply_writes (removals (map fst (List.filter f (RowStore.scan_at_snapshot (RowStore.current_xid s) s)))) (view s)
  = filter (fun kv => f kv = false) (view s).
Proof.
  intros Hwf. destruct (scan_view s Hwf) as [_ Hiff]. apply map_eq. intros k. rewrite removals_lookup.
  destruct (decide (k ∈ map fst _)) as [Hin|Hni].
  - apply list_elem_of_In, in_map_iff in Hin as ([k' d] & <- & [Hin Hf]%filter_In).
    apply list_elem_of_In, Hiff in Hin. symmetry. apply map_lookup_filter_None. right.
    intros d' Hd'. cbn in Hd'. rewrite Hin in Hd'. injection Hd' as <-. cbn. by rewrite Hf.
  - symmetry. destruct (view s !! k) as [d|] eqn:Hk.
    + apply map_lookup_filter_Some. split; [done|]. apply not_true_is_false. intros Hf. apply Hni.
      apply list_elem_of_In, in_map_iff. exists (k, d). split; [done|]. apply filter_In.
      split; [by apply list_elem_of_In, Hiff|done].
    + apply map_lookup_filter_None. by left.
Qed.

Lemma delete_executed sch db x stmt st :
  in_batch x (rows (store st)) → persists_rows (wal (store st)) = false →
  Str.starts_with "INSERT" (upper_start stmt) = false →
  Str.starts_with "UPDATE" (upper_start stmt) = false →
  Str.starts_with "DELETE" (upper_start stmt) = true →
  ∃ st', exec_delete sch db x stmt st = Some st' ∧ executed x st st' ∧ counted st st' ∧
    vw st' = exec_effect db stmt (vw st).
Proof.
  intros Hb Hp Hi Hu Hd. unfold exec_delete, exec_effect. rewrite Hi, Hu, Hd.
  destruct (scan_delete stmt) as [[[t wc] wv]|].
  { eexists. split; [reflexivity|]. unfold bulk_scan. rewrite Hp.
    edestruct (bulk_delete_executed sch db x t) as (Hex & Hc & Hv); [exact Hb|].
    split; [by apply executed_log|]. split; [exact Hc|]. cbn [store log_statement set_store set_wal rows].
    rewrite Hv. apply removals_filter, Hb. }
  destruct (delete_key stmt) as [raw|].
  2: { exists st. split; [done|]. split; [by apply executed_refl|]. split; [by apply counted_same|done]. }
  rewrite fallback_view by done. set (k := AcidTx.db_prefix_key db raw).
  destruct (count_delete_executed db x k raw st Hb) as (Hex & Hc & Hv). cbv zeta in *.
  set (st1 := set_store _ _) in *.
  destruct (write_delta_executed x (hd "" (Str.split ":" raw)) raw "DELETE" ∅ st1)
    as (st2 & -> & Hex2 & Hv2 & Hfi & Hsi & _); [apply Hex|].
  eexists. split; [reflexivity|]. split; [|split].
  - apply executed_log, executed_fire. by eapply executed_trans.
  - eapply counted_trans; [exact Hc|]. apply counted_rows; [exact Hsi|].
    intros t' Ht'. cbn [store log_statement fire set_store rows set_wal]. rewrite Hv2. by apply rows_in_delta_writes.
  - cbn. rewrite Hv2, Hv. done.
Qed.

Lemma bulk_update_executed sch db x tbl sc sv l st :
  in_batch x (rows (store st)) →
  ∃ res st', exec_bulk_update (F := F) sch db x tbl sc sv l st = Some (res, st') ∧ executed x st st' ∧
    match res with
    | Ok _ => vw st' = apply_writes (upserts (map (fun kv => (kv.1, <[sc := sv]> kv.2)) l)) (vw st)
    | Err _ => ∃ pre kv post, l = pre ++ kv :: post ∧
        vw st' = apply_writes (upserts (map (fun kv => (kv.1, <[sc := sv]> kv.2)) pre)) (vw st)
    end.
Proof.
  revert st. induction l as [|[k row] l IH]; intros st Hb; cbn [exec_bulk_update].
  { exists (Ok tt), st. split; [done|]. split; [by apply executed_refl|done]. }
  rewrite <- view_lookup. destruct (Violated <$> _) as [e|].
  { destruct (reject_executed x e st Hb) as [Hex Hv]. eexists _, _. split; [reflexivity|].
    split; [exact Hex|]. exists [], (k, row), l. split; [done|exact Hv]. }
  destruct (write_row_flushed db x k (strip_db (db_prefix_str db) k) (<[sc := sv]> row) (store st) Hb)
    as (s & -> & Hf & Hv & _). set (st1 := fire _ _).
  assert (executed x st st1) as Hex1 by (by apply executed_fire, executed_flushed).
  destruct (IH st1) as (res & st' & -> & Hex & Hv'); [apply Hf|].
  exists res, st'. split; [done|]. split; [by eapply executed_trans|].
  assert (vw st1 = <[k := <[sc := sv]> row]> (vw st)) as Hv1 by exact Hv.
  destruct res as [[]|e]; [by rewrite Hv', Hv1|].
  destruct Hv' as (pre & kv & post & -> & Hv'). exists ((k, row) :: pre), kv, post. split; [done|].
  by rewrite Hv', Hv1.
Qed.

(** The writes of a statement that was rejected on the way: rows of an INSERT, or
    rows a set-at-a-time UPDATE found. *)
Definition part_of (db stmt : string) (m : table) (ws : list (string * option RowData)) : Prop :=
  ws = []
  ∨ (∃ pre r post, insert_rows stmt = pre ++ r :: post ∧ ws = concat (map (insert_writes db) pre))
  ∨ (∃ t sc sv wc wv l, scan_update stmt = Some (t, sc, sv, wc, wv) ∧
       ws = upserts (map (fun kv => (kv.1, <[sc := sv]> kv.2)) l) ∧
       Forall (fun kv => m !! kv.1 = Some kv.2 ∧ bulk_matches (db_prefix_str db) t wc wv kv = true) l).

Lemma update_executed sch db x raw d stmt st :
  in_batch x (rows (store st)) → persists_rows (wal (store st)) = false → update_row stmt = Some (raw, d) →
  Str.starts_with "INSERT" (upper_start stmt) = false → Str.starts_with "UPDATE" (upper_start stmt) = true →
  ∃ res st', exec_update (F := F) sch db x raw d stmt st = Some (res, st') ∧ executed x st st' ∧
    match res with
    | Ok _ => vw st' = exec_effect db stmt (vw st)
    | Err _ => ∃ ws, part_of db stmt (vw st) ws ∧ vw st' = apply_writes ws (vw st)
    end.
Proof.
  intros Hb Hp Hur Hi Hu. unfold exec_update, exec_effect. rewrite Hi, Hu, Hur.
  destruct (scan_update stmt) as [[[[[t sc] sv] wc] wv]|] eqn:Hsu.
  - unfold bulk_scan. rewrite Hp.
    edestruct (bulk_update_executed sch db x t sc sv) as (res & st' & -> & Hex & Hv); [exact Hb|].
    destruct res as [[]|e].
    + rewrite bulk_view in Hv by apply Hb. eexists _, _. split; [reflexivity|]. split; [by apply executed_log|done].
    + eexists _, _. split; [reflexivity|]. split; [done|]. destruct Hv as (pre & kv & post & Hl & Hv).
      eexists. split; [|exact Hv]. right; right. exists t, sc, sv, wc, wv, pre. split; [done|]. split; [done|].
      apply Forall_forall. intros [k row] Hin. destruct (scan_view (rows (store st)) ltac:(apply Hb)) as [_ Hiff].
      assert (In (k, row) (pre ++ kv :: post)) as Hin' by (apply in_or_app; left; by apply list_elem_of_In).
      rewrite <- Hl in Hin'. apply filter_In in Hin' as [Hin' Hm]. split; [|done].
      by apply Hiff, list_elem_of_In.
  - rewrite fallback_view by done. destruct (update_check _ _ _ _) as [e|].
    { destruct (reject_executed x e st Hb) as [Hex Hv]. eexists _, _. split; [reflexivity|].
      split; [exact Hex|]. exists []. split; [by left|exact Hv]. }
    edestruct (write_row_flushed db x) as (s & -> & Hf & Hv & _); [exact Hb|].
    eexists _, _. split; [reflexivity|]. split; [|exact Hv].
    by apply executed_log, executed_fire, executed_flushed.
Qed.

(** Statements that count their rows. *)
Definition counting (stmt : string) : bool := negb (Str.starts_with "UPDATE" (upper_start stmt)).

Lemma statement_executed sch db x stmt st :
  in_batch x (rows (store st)) → persists_rows (wal (store st)) = false →
  ∃ res st', exec_statement (F := F) sch db x stmt st = Some (res, st') ∧ executed x st st' ∧
    (counting stmt = true → counted st st') ∧
    match res with
    | Ok _ => vw st' = exec_effect db stmt (vw st)
    | Err _ => ∃ ws, part_of db stmt (vw st) ws ∧ vw st' = apply_writes ws (vw st)
    end.
Proof.
  intros Hb Hp. unfold exec_statement.
  destruct (Str.starts_with "INSERT" (upper_start stmt)) eqn:Hi.
  { destruct (insert_rows_executed sch db x (insert_rows stmt) st Hb Hp) as (res & st' & -> & Hex & Hc & Hv).
    exists res, st'. split; [done|]. split; [done|]. split; [done|].
    destruct res as [[]|e]; [unfold exec_effect; by rewrite Hi|].
    destruct Hv as (pre & r & post & Hr & Hv). eexists. split; [|exact Hv]. right; left. by exists pre, r, post. }
  destruct (Str.starts_with "UPDATE" (upper_start stmt)) eqn:Hu.
  { destruct (update_row stmt) as [[raw d]|] eqn:Hur.
    - destruct (update_executed sch db x raw d stmt st Hb Hp Hur Hi Hu) as (res & st' & -> & Hex & Hv).
      exists res, st'. split; [done|]. split; [done|]. split; [unfold counting; by rewrite Hu|done].
    - exists (Ok tt), st. split; [done|]. split; [by apply executed_refl|]. split; [by intros; apply counted_same|].
      unfold exec_effect. by rewrite Hi, Hu, Hur. }
  destruct (Str.starts_with "DELETE" (upper_start stmt)) eqn:Hd.
  { destruct (delete_executed sch db x stmt st Hb Hp Hi Hu Hd) as (st' & -> & Hex & Hc & Hv).
    exists (Ok tt), st'. by split_and!. }
  exists (Ok tt), st. split; [done|]. split; [by apply executed_refl|]. split; [by intros; apply counted_same|].
  unfold exec_effect. by rewrite Hi, Hu, Hd.
Qed.

(** A batch that stops at a rejected statement has done the statements before it
    and a part of it. *)
Definition rejected_at (db : string) (stmts : list string) (m m' : table) : Prop :=
  ∃ before stmt after ws, stmts = before ++ stmt :: after ∧
    part_of db stmt (batch_effect db before m) ws ∧ m' = apply_writes ws (batch_effect db before m).

Lemma statements_executed sch db x stmts st :
  in_batch x (rows (store st)) → persists_rows (wal (store st)) = false →
  ∃ res st', exec_statements (F := F) sch db x stmts st = Some (res, st') ∧ executed x st st' ∧
    (Forall (fun s => counting s = true) stmts → counted st st') ∧
    match res with
    | Ok _ => vw st' = batch_effect db stmts (vw st)
    | Err _ => rejected_at db stmts (vw st) (vw st')
    end.
Proof.
  revert st. induction stmts as [|s stmts IH]; intros st Hb Hp.
  { exists (Ok tt), st. split; [done|]. split; [by apply executed_refl|].
    split; [by intros; apply counted_same|done]. }
  cbn [exec_statements]. destruct (statement_executed sch db x s st Hb Hp) as (res & st1 & -> & Hx1 & Hc1 & Hv1).
  destruct res as [[]|e].
  - destruct (IH st1) as (res & st' & -> & Hx & Hc & Hv); [apply Hx1|by rewrite (executed_engine _ _ _ Hx1)|].
    exists res, st'. split; [done|]. split; [by eapply executed_trans|]. split.
    { intros [Hs Hss]%Forall_cons. eapply counted_trans; eauto. }
    destruct res as [[]|e]; [by rewrite Hv, Hv1|].
    destruct Hv as (before & stmt & after & ws & -> & Hpart & Hv). rewrite Hv1 in Hpart, Hv.
    by exists (s :: before), stmt, after, ws.
  - exists (Err e), st1. split; [done|]. split; [done|]. split; [by intros [Hs _]%Forall_cons; apply Hc1|].
    destruct Hv1 as (ws & Hpart & Hv1). by exists [], s, stmts, ws.
Qed.

(** The direct path as a whole. *)
Lemma direct_executed sch db stmts st :
  replica_store (rows (store st)) → RowStore.next_xid (rows (store st)) < u64_max →
  persists_rows (wal (store st)) = false →
  ∃ res st', execute_direct (F := F) sch db stmts st = Some (res, st') ∧
    replica_store (rows (store st')) ∧
    RowStore.next_xid (rows (store st')) = RowStore.next_xid (rows (store st)) + 1 ∧
    (∃ es, undo_log (store st') = undo_log (store st) ++ es ∧
       ∀ k, delta k = false → apply_writes (rev es) (vw st') !! k = vw st !! k) ∧
    match res with
    | Ok _ => vw st' = batch_effect db stmts (vw st)
    | Err _ => rejected_at db stmts (vw st) (vw st')
    end.
Proof.
  intros Hrs Hx Hp. assert (0 < RowStore.next_xid (rows (store st))) as Hpos by apply Hrs.
  destruct (begin_batch _ Hrs Hx) as [Hb Hv0]. unfold execute_direct. cbn [RowStore.begin_xid] in *.
  set (st0 := mkExec _ _ _ _).
  destruct (statements_executed sch db (RowStore.next_xid (rows (store st))) stmts st0 Hb Hp)
    as (res & st1 & -> & Hex & _ & Hv).
  pose proof Hex as [Hb1 Hp1 Ht1 (es & Hu & Hes)]. change (vw st0) with (view (RowStore.begin_xid (rows (store st))).2) in *.
  rewrite Hv0 in Hes, Hv. change (undo_log (store st0)) with (undo_log (store st)) in Hu.
  destruct res as [[]|e].
  - eexists _, _. split; [reflexivity|]. cbn [store apply_stats set_store set_rows rows undo_log].
    destruct (release_replica _ _ Hpos Hb1) as [Hr Hvr].
    split_and!; [done|exact (in_batch_next _ _ Hb1 Hpos)|by exists es; rewrite Hvr|by rewrite Hvr].
  - eexists _, _. split; [reflexivity|].
    split_and!; [by eapply in_batch_replica|exact (in_batch_next _ _ Hb1 Hpos)|by exists es|done].
Qed.



(** ** Row counts *)

Lemma apply_stats_fold (l : list (string * Z)) (stats : gmap string N) t :
  NoDup l.*1 →
  fold_left apply_stat l stats !! t
  = match list_to_map (M := gmap string Z) l !! t with
    | Some z => Some (Z.to_N (Z.max 0 (Select.i64_wrap (Select.i64_wrap (Z.of_N (default 0 (stats !! t))) + z))))
    | None => stats !! t
    end.
Proof.
  revert stats. induction l as [|[j z] l IH]; intros stats Hnd; [done|].
  apply NoDup_cons in Hnd as [Hni Hnd]. cbn [fold_left]. rewrite IH, list_to_map_cons by done.
  destruct (decide (j = t)) as [->|Hne].
  - rewrite (not_elem_of_list_to_map_1 l t Hni). unfold apply_stat. cbn [fst snd].
    by rewrite !lookup_insert_eq.
  - unfold apply_stat. cbn [fst snd]. by rewrite !(lookup_insert_ne _ j t).
Qed.

(** The counts kept by the server are the numbers of rows. *)
Definition counts_exact st : Prop :=
  ∀ t, delta t = false → Z.of_N (default 0 (table_stats st !! t)) = rows_in t (vw st).

Lemma rows_in_size t (m : table) : (0 <= rows_in t m <= Z.of_nat (size m))%Z.
Proof. unfold rows_in. pose proof (map_size_filter (fun kv => table_of kv.1 = Some t) m). lia. Qed.

End Steps.

(** ** Executions *)

Module ExecDemo.
Export FlushProps.Demo.
#[export] Instance demo_exec : ExecExtractors := @exec_extractors ascii_tables no_adapter.
#[export] Instance demo_entries : MapOrder DdlCatalog.DdlCatalogEntry := canonical_order.

Definition email_unique : Constraints.ConstraintDescriptor :=
  Constraints.mkConstraint "email" "users" "email" Constraints.Unique None None.

(** The server of the flush, with a second key and one table declared. *)
Definition declared : Schema :=
  mkSchema (DdlCatalog.record_create "table" "default" "public" "users"
              "CREATE TABLE users (id INT PRIMARY KEY, age INT, email TEXT)" 1 false DdlCatalog.new).2 Triggers.new.

Definition exec_server : ExecState (E := Wal.InMemoryDurabilityEngine) :=
  mkExec (mkFlush seeded (wal server) (Constraints.add_constraint email_unique (constraints server)).2 []) [] ∅
    {[ "shop.users" := 1 ]}.

Definition run (db : string) (stmts : list string) (st : ExecState (E := Wal.InMemoryDurabilityEngine)) :=
  execute_direct (F := nat) declared db stmts st.

Definition outcome (r : option (result unit ExecError * ExecState (E := Wal.InMemoryDurabilityEngine)))
    (ks : list string) : option (result unit ExecError * list (option RowData)) :=
  (fun r => (r.1, map (fun k => RowStore.read_latest k (rows (store r.2))) ks)) <$> r.

Definition new_user : string := "INSERT INTO users (id, age, email) VALUES (1, 30, 'a@b')".
End ExecDemo.
Import ExecDemo.

Lemma exec_server_ready :
  replica_store (rows (store exec_server)) ∧ RowStore.next_xid (rows (store exec_server)) < u64_max - 1 ∧
  persists_rows (wal (store exec_server)) = false.
Proof. split; [apply seeded_replica|]. split; [done|done]. Qed.



Lemma seeded_view :
  view seeded = {[ "shop.users:2" := row [("id", "2"); ("name", "Bob"); ("city", "Rome")] ]}.
Proof. apply (bool_decide_unpack _). vm_compute. exact I. Qed.

Lemma exec_server_counts : counts_exact exec_server.
Proof.
  intros t _. change (view (rows (store exec_server))) with (view seeded). rewrite seeded_view.
  unfold singletonM, map_singleton. rewrite rows_in_insert.
  change (table_of "shop.users:2") with (Some "shop.users"). cbn [table_stats exec_server].
  destruct (decide (t = "shop.users")) as [->|Hne].
  - rewrite decide_True by done. vm_compute. reflexivity.
  - rewrite lookup_singleton_ne, decide_False by (done || intros [[= ?] _]; congruence). done.
Qed.


(** A value that an UPDATE gives to a key is not recorded: an INSERT of the same
    value is accepted, and two rows share it. *)
Lemma updated_key_inserted_again :
  outcome (run "shop" [new_user; "UPDATE users SET email = 'c@d' WHERE id = '1'";
                       "INSERT INTO users (id, email) VALUES (5, 'c@d')"] exec_server) []
  = Some (Ok tt, []).
Proof. vm_compute. reflexivity. Qed.

(** A deleted row's key is not given back: the row cannot be inserted again. *)
Lemma deleted_key_stays_taken :
  outcome (run "shop" [new_user; "DELETE FROM users WHERE id = '1'"; new_user] exec_server) ["shop.users:1"]
  = Some (Err (Violated (Constraints.UniqueDuplicate "email" "a@b")), [None]).
Proof. vm_compute. reflexivity. Qed.

(** A DELETE by a condition on the default database reaches the rows of every
    database, and of tables whose name ends in the one given. *)
Lemma bulk_delete_crosses_databases :
  outcome (run "" ["DELETE FROM ers WHERE city = 'Rome'"] exec_server) ["shop.users:2"] = Some (Ok tt, [None]).
Proof. vm_compute. reflexivity. Qed.

(** An UPDATE of a row that does not exist creates it, uncounted. *)
Lemma update_creates_uncounted_row :
  (fun r => (table_stats r.2 !! "shop.users", rows_in "shop.users" (view (rows (store r.2)))))
    <$> run "shop" ["UPDATE users SET age = '4' WHERE id = '7'"] exec_server = Some (Some 1, 2%Z).
Proof. vm_compute. reflexivity. Qed.

(** The delta row of a rolled back INSERT stays, for an incremental view to apply. *)
Lemma rolled_back_insert_leaves_delta :
  (fun s => (RowStore.read_latest "shop.users:1" (rows s),
             bool_decide (is_Some (RowStore.read_latest "__delta:users:users:1" (rows s)))))
    <$> (run "shop" [new_user] exec_server ≫= fun r => rollback_undo (store r.2)) = Some (None, true).
Proof. vm_compute. reflexivity. Qed.

(** A leader with peers proposes a row that violates a declared type and a key; a
    server without peers rejects it. *)
Lemma leader_skips_checks :
  let bad := ["INSERT INTO users (id, age) VALUES ('', 'old')"] in
  let leader := Raft.become_leader (Raft.become_candidate (Raft.new "n1")) in
  (fun r => r.1.1) <$> execute_writes (F := nat) declared "shop" bad 2 leader exec_server = Some (Proposed 1) ∧
  (fun r => r.1.1) <$> execute_writes (F := nat) declared "shop" bad 0 leader exec_server
  = Some (Rejected (TypeError "column 'age': value 'old' is not a valid INT")).
Proof. vm_compute. done. Qed.
