(* ===== verification/Json.v ===== *)
(** * JSON values: the part of [serde_json] the server's code works on

    [serde_json::Value] is data here; an object is a [BTreeMap], kept as a list
    sorted by key.  Printing and parsing text are the class [JsonText]; the law
    that the parser reads back what the printer writes is [JsonTextLaws].  Floating
    point numbers are a parameter. *)

From S2P Require Import Prelude Str.
From Stdlib Require Import Ascii.
From stdpp Require Import countable.
Local Open Scope string_scope.
Local Open Scope list_scope.
Local Open Scope N_scope.

Module Json.

Section Values.
Context {F : Type}.

(** [serde_json::Number] *)
Inductive Num := PosInt (n : N) | NegInt (z : Z) | Float (f : F).

Inductive Value :=
| Null
| Bool (b : bool)
| Number (n : Num)
| Text (s : string)
| Array (l : list Value)
| Object (m : list (string * Value)).

(** ** Maps *)

Definition map_get (k : string) (m : list (string * Value)) : option Value :=
  snd <$> List.find (fun kv => String.eqb kv.1 k) m.

Fixpoint map_insert (k : string) (v : Value) (m : list (string * Value)) : list (string * Value) :=
  match m with
  | [] => [(k, v)]
  | (k', v') :: rest =>
      match String.compare k k' with
      | Eq => (k, v) :: rest
      | Lt => (k, v) :: m
      | Gt => (k', v') :: map_insert k v rest
      end
  end.

Definition map_remove (k : string) (m : list (string * Value)) : list (string * Value) :=
  List.filter (fun kv => negb (String.eqb kv.1 k)) m.

(** [Map::new()] filled by [insert]s, as [json!] does. *)
Definition object (kvs : list (string * Value)) : Value :=
  Object (foldl (fun m kv => map_insert kv.1 kv.2 m) [] kvs).

Definition as_object (v : Value) : option (list (string * Value)) :=
  match v with Object m => Some m | _ => None end.

(** [value.get(key)] *)
Definition get (k : string) (v : Value) : option Value :=
  match v with Object m => map_get k m | _ => None end.

Definition as_str (v : Value) : option string :=
  match v with Text s => Some s | _ => None end.

Definition as_u64 (v : Value) : option N :=
  match v with Number (PosInt n) => Some n | _ => None end.

(** [json!] of the types the code uses *)
Definition of_u64 (n : N) : Value := Number (PosInt n).
Definition of_usize (n : nat) : Value := Number (PosInt (N.of_nat n)).
Definition of_string (s : string) : Value := Text s.
Definition of_option {A} (f : A -> Value) (o : option A) : Value :=
  match o with Some a => f a | None => Null end.

(** [Value::eq], given the equality of floats *)
Definition num_eqb (feq : F -> F -> bool) (a b : Num) : bool :=
  match a, b with
  | PosInt x, PosInt y => x =? y
  | NegInt x, NegInt y => (x =? y)%Z
  | Float x, Float y => feq x y
  | _, _ => false
  end.

Fixpoint value_eqb (feq : F -> F -> bool) (a b : Value) {struct a} : bool :=
  match a, b with
  | Null, Null => true
  | Bool x, Bool y => Bool.eqb x y
  | Number x, Number y => num_eqb feq x y
  | Text x, Text y => String.eqb x y
  | Array xs, Array ys =>
      (fix go (xs ys : list Value) : bool :=
         match xs, ys with
         | [], [] => true
         | x :: xs', y :: ys' => value_eqb feq x y && go xs' ys'
         | _, _ => false
         end) xs ys
  | Object xs, Object ys =>
      (fix go (xs ys : list (string * Value)) : bool :=
         match xs, ys with
         | [], [] => true
         | (k, x) :: xs', (k', y) :: ys' => String.eqb k k' && value_eqb feq x y && go xs' ys'
         | _, _ => false
         end) xs ys
  | _, _ => false
  end.
End Values.
Arguments Num : clear implicits.
Arguments Value : clear implicits.

(** ** Text *)

Class JsonText (F : Type) := {
  to_string : Value F -> string;
  to_string_pretty : Value F -> string;
  from_str : string -> option (Value F);
}.

Class JsonTextLaws (F : Type) `{!JsonText F} := {
  from_to_string : ∀ v, from_str (to_string v) = Some v;
  from_to_string_pretty : ∀ v, from_str (to_string_pretty v) = Some v;
}.

(** ** Lemmas *)

Section Lemmas.
Context {F : Type}.
Implicit Types (m : list (string * Value F)) (v : Value F).

Lemma map_get_insert k v m : map_get k (map_insert k v m) = Some v.
Proof.
  induction m as [|[k' v'] m IH]; cbn; [by rewrite String.eqb_refl|].
  destruct (String.compare k k') eqn:E; cbn; rewrite ?String.eqb_refl; [done..|].
  destruct (String.eqb_spec k' k) as [->|]; [|done].
  pose proof (String.compare_antisym k k) as H. by rewrite E in H.
Qed.

Lemma map_get_insert_ne k k' v m : k ≠ k' → map_get k' (map_insert k v m) = map_get k' m.
Proof.
  intros Hne. assert (String.eqb k k' = false) as Hkk by by apply String.eqb_neq.
  induction m as [|[k2 v2] m IH]; cbn; [by rewrite Hkk|].
  destruct (String.compare k k2) eqn:E; cbn; rewrite ?Hkk; [|done|].
  - apply String.compare_eq_iff in E as <-. by rewrite Hkk.
  - destruct (String.eqb k2 k'); [done|]. exact IH.
Qed.

Lemma map_get_remove k m : map_get k (map_remove k m) = None.
Proof.
  unfold map_get, map_remove. induction m as [|[k' v'] m IH]; [done|]. cbn.
  destruct (String.eqb k' k) eqn:E; cbn; [done|]. by rewrite E.
Qed.

Lemma map_get_remove_ne k k' m : k ≠ k' → map_get k' (map_remove k m) = map_get k' m.
Proof.
  intros Hne. unfold map_get, map_remove. induction m as [|[k2 v2] m IH]; [done|]. cbn.
  destruct (String.eqb_spec k2 k) as [->|]; cbn.
  - by rewrite (proj2 (String.eqb_neq k k') Hne).
  - by destruct (String.eqb k2 k').
Qed.

End Lemmas.

(** ** An instance

    A text that is the binary code of the value, with integers for floats. *)

Abbreviation leaf := (bool + (N + Z + Z) + string)%type.

Fixpoint to_tree (v : Value Z) : gen_tree leaf :=
  match v with
  | Null => GenNode 0 []
  | Bool b => GenLeaf (inl (inl b))
  | Number (PosInt n) => GenLeaf (inl (inr (inl (inl n))))
  | Number (NegInt z) => GenLeaf (inl (inr (inl (inr z))))
  | Number (Float f) => GenLeaf (inl (inr (inr f)))
  | Text s => GenLeaf (inr s)
  | Array l => GenNode 1 (map to_tree l)
  | Object m => GenNode 2 (map (fun kv => GenNode 3 [GenLeaf (inr kv.1); to_tree kv.2]) m)
  end.

Fixpoint of_tree (t : gen_tree leaf) : Value Z :=
  match t with
  | GenLeaf (inl (inl b)) => Bool b
  | GenLeaf (inl (inr (inl (inl n)))) => Number (PosInt n)
  | GenLeaf (inl (inr (inl (inr z)))) => Number (NegInt z)
  | GenLeaf (inl (inr (inr f))) => Number (Float f)
  | GenLeaf (inr s) => Text s
  | GenNode 1 l => Array (map of_tree l)
  | GenNode 2 l =>
      Object (map (fun t => match t with
                            | GenNode 3 [GenLeaf (inr k); u] => (k, of_tree u)
                            | _ => (EmptyString, Null)
                            end) l)
  | _ => Null
  end.

Fixpoint of_to_tree (v : Value Z) : of_tree (to_tree v) = v.
Proof.
  destruct v as [|b|[n|z|f]|s|l|m]; try reflexivity; cbn.
  - apply (f_equal Array). induction l as [|v l IH]; [reflexivity|]. cbn. rewrite of_to_tree, IH. reflexivity.
  - apply (f_equal Object). induction m as [|[k v] m IH]; [reflexivity|]. cbn. rewrite of_to_tree, IH. reflexivity.
Qed.

#[export] Instance value_eq_dec : EqDecision (Value Z).
Proof.
  intros a b. destruct (decide (to_tree a = to_tree b)) as [H|H]; [left|right]; [|congruence].
  by rewrite <- (of_to_tree a), H, of_to_tree.
Defined.

#[export] Instance value_countable : Countable (Value Z) := inj_countable' to_tree of_tree of_to_tree.

Fixpoint pos_text (p : positive) : string :=
  match p with
  | xH => EmptyString
  | xO p => String "0"%char (pos_text p)
  | xI p => String "1"%char (pos_text p)
  end.

Fixpoint text_pos (s : string) : positive :=
  match s with
  | EmptyString => xH
  | String c s => if Ascii.eqb c "0"%char then xO (text_pos s) else xI (text_pos s)
  end.

Lemma text_pos_text p : text_pos (pos_text p) = p.
Proof. induction p as [p IH|p IH|]; cbn; by rewrite ?IH. Qed.

Definition code_text : JsonText Z :=
  {| to_string := fun v => pos_text (encode v); to_string_pretty := fun v => pos_text (encode v);
     from_str := fun s => decode (text_pos s) |}.

Lemma code_text_laws : JsonTextLaws Z (JsonText0 := code_text).
Proof. split; intros v; cbn; by rewrite text_pos_text, decode_encode. Qed.
End Json.
