(* ===== verification/AuditChain.v ===== *)
(** * The audit chain ([crates/voltnuerongrid-audit/src/lib.rs])

    Audit events are numbered and linked by a 64-bit FNV-1a hash of the previous
    hash and the event's fields.  The chain of a sink always verifies, a change of
    one byte of a hashed field is found at the changed event, and the fields that
    the hash leaves out are listed by the theorems at the end. *)

From S2P Require Import Prelude Str Decimal SqlKind Auth UserStore AccessControl Json.
From Stdlib Require Import Ascii.
Local Open Scope string_scope.
Local Open Scope list_scope.
Local Open Scope N_scope.

Module Audit.

(** ** The sink *)

Inductive AuditEventKind := Autonomous | Failover | Ingest | Security | Sql | Storage.

Record AuditEvent := mkEvent {
  event_id : N;
  occurred_epoch_ms : N;
  actor : string;
  action : string;
  kind : AuditEventKind;
  outcome : string;
  details_json : string;
  chain_hash : string;
}.

Definition CHAIN_GENESIS : string := "genesis-0000000000000000".

Definition FNV_OFFSET : N := 14695981039346656037.
Definition FNV_PRIME : N := 1099511628211.

Definition fnv_byte (hash : N) (byte : ascii) : N :=
  u64_wrapping_mul (N.lxor hash (N_of_ascii byte)) FNV_PRIME.

Fixpoint fnv (hash : N) (input : string) : N :=
  match input with
  | EmptyString => hash
  | String c rest => fnv (fnv_byte hash c) rest
  end.

(** [{:016x}] *)
Definition hex_digit (d : N) : ascii := ascii_of_N (if d <? 10 then 48 + d else 87 + d).

Fixpoint hex (width : nat) (n : N) (acc : string) : string :=
  match width with
  | O => acc
  | S w => hex w (n / 16) (String (hex_digit (n mod 16)) acc)
  end.

Definition chain_input (prev_hash : string) (id : N) (actor action outcome details : string) : string :=
  prev_hash +:+ "|" +:+ Dec.to_string id +:+ "|" +:+ actor +:+ "|" +:+ action +:+ "|" +:+ outcome
    +:+ "|" +:+ details.

Definition chain_step (prev_hash : string) (id : N) (actor action outcome details : string) : string :=
  hex 16 (fnv FNV_OFFSET (chain_input prev_hash id actor action outcome details)) "".

Record AppendOnlyAuditSink := mkSink {
  next_event_id : N;
  events : list AuditEvent;
  prev_chain_hash : string;
}.

Definition new : AppendOnlyAuditSink := mkSink 1 [] CHAIN_GENESIS.

(** [now] is the clock's reading. *)
Definition append (now : N) (k : AuditEventKind) (actor action outcome details : string)
    (s : AppendOnlyAuditSink) : AuditEvent * AppendOnlyAuditSink :=
  let hash := chain_step (prev_chain_hash s) (next_event_id s) actor action outcome details in
  let event := mkEvent (next_event_id s) now actor action k outcome details hash in
  (event, mkSink (u64_add (next_event_id s) 1) (events s ++ [event]) hash).

Definition latest (max_items : nat) (s : AppendOnlyAuditSink) : list AuditEvent :=
  drop (length (events s) - max_items) (events s).

Fixpoint tamper_point_from (expected : string) (es : list AuditEvent) : option N :=
  match es with
  | [] => None
  | e :: rest =>
      let computed := chain_step expected (event_id e) (actor e) (action e) (outcome e) (details_json e) in
      if negb (String.eqb computed (chain_hash e)) then Some (event_id e)
      else tamper_point_from computed rest
  end.

Definition verify_chain_tamper_point (es : list AuditEvent) : option N :=
  tamper_point_from CHAIN_GENESIS es.

Definition verify_chain (es : list AuditEvent) : bool :=
  match verify_chain_tamper_point es with None => true | Some _ => false end.

(** ** The hash *)

(** The inverse of the prime modulo [2^64]. *)
Definition FNV_INVERSE : N := 14886173955864302971.

Lemma fnv_unmul x :
  x < u64_modulus → u64_wrapping_mul (u64_wrapping_mul x FNV_PRIME) FNV_INVERSE = x.
Proof.
  intros Hx. unfold u64_wrapping_mul. rewrite N.Div0.mul_mod_idemp_l, <- N.mul_assoc.
  rewrite <- N.Div0.mul_mod_idemp_r. change ((FNV_PRIME * FNV_INVERSE) mod u64_modulus) with 1.
  rewrite N.mul_1_r. by apply N.mod_small.
Qed.

Lemma lxor_bound a b : a < u64_modulus → b < u64_modulus → N.lxor a b < u64_modulus.
Proof.
  intros Ha Hb. destruct (N.eq_dec (N.lxor a b) 0) as [->|Hne]; [done|].
  change u64_modulus with (2 ^ 64). apply N.log2_lt_pow2; [lia|].
  eapply N.le_lt_trans; [apply N.log2_lxor|].
  assert (∀ x, x < u64_modulus → N.log2 x < 64) as Hlog.
  { intros x Hx. destruct (N.eq_dec x 0) as [->|?]; [done|]. apply N.log2_lt_pow2; [lia|done]. }
  pose proof (Hlog a Ha). pose proof (Hlog b Hb). lia.
Qed.

Lemma ascii_small c : N_of_ascii c < u64_modulus.
Proof. pose proof (N_ascii_bounded c). u64. Qed.

Lemma fnv_byte_bound h c : fnv_byte h c < u64_modulus.
Proof. unfold fnv_byte, u64_wrapping_mul. by apply N.mod_lt. Qed.

Lemma fnv_byte_xor h1 h2 c1 c2 :
  h1 < u64_modulus → h2 < u64_modulus → fnv_byte h1 c1 = fnv_byte h2 c2 →
  N.lxor h1 (N_of_ascii c1) = N.lxor h2 (N_of_ascii c2).
Proof.
  intros H1 H2 Heq. unfold fnv_byte in Heq.
  rewrite <- (fnv_unmul (N.lxor h1 _)), Heq by (apply lxor_bound; [done|apply ascii_small]).
  apply fnv_unmul, lxor_bound; [done|apply ascii_small].
Qed.

Lemma lxor_cancel_l a b c : N.lxor a b = N.lxor a c → b = c.
Proof.
  intros Heq. rewrite <- (N.lxor_0_l b), <- (N.lxor_0_l c), <- (N.lxor_nilpotent a).
  by rewrite !N.lxor_assoc, Heq.
Qed.

(** Equal texts keep different hashes different. *)
Lemma fnv_injective_hash s h1 h2 :
  h1 < u64_modulus → h2 < u64_modulus → fnv h1 s = fnv h2 s → h1 = h2.
Proof.
  revert h1 h2. induction s as [|c s IH]; intros h1 h2 H1 H2 Heq; [done|]. cbn in Heq.
  apply IH in Heq; [|apply fnv_byte_bound..]. apply fnv_byte_xor in Heq; [|done..].
  rewrite !(N.lxor_comm _ (N_of_ascii c)) in Heq. by apply lxor_cancel_l in Heq.
Qed.

Lemma fnv_app h a b : fnv h (a +:+ b) = fnv (fnv h a) b.
Proof. revert h. induction a as [|c a IH]; intros h; [done|]. apply IH. Qed.

Lemma fnv_bound h s : h < u64_modulus → fnv h s < u64_modulus.
Proof. revert h. induction s as [|c s IH]; intros h Hh; [done|]. apply IH, fnv_byte_bound. Qed.

Lemma ascii_N_inj c1 c2 : N_of_ascii c1 = N_of_ascii c2 → c1 = c2.
Proof. intros H. by rewrite <- (ascii_N_embedding c1), H, ascii_N_embedding. Qed.

(** Texts that differ in one byte have different hashes. *)
Lemma fnv_one_byte a c1 c2 b h :
  h < u64_modulus → c1 ≠ c2 → fnv h (a +:+ String c1 b) ≠ fnv h (a +:+ String c2 b).
Proof.
  intros Hh Hne Heq. rewrite !fnv_app in Heq. cbn in Heq.
  apply fnv_injective_hash in Heq; [|apply fnv_byte_bound..].
  apply fnv_byte_xor in Heq; [|by apply fnv_bound..].
  apply lxor_cancel_l, ascii_N_inj in Heq. done.
Qed.

Lemma hex_digit_inj d1 d2 : d1 < 16 → d2 < 16 → hex_digit d1 = hex_digit d2 → d1 = d2.
Proof.
  intros H1 H2 Heq. apply (f_equal N_of_ascii) in Heq. unfold hex_digit in Heq.
  destruct (N.ltb_spec d1 10), (N.ltb_spec d2 10); rewrite !N_ascii_embedding in Heq by lia; lia.
Qed.

Lemma hex_inj w n1 n2 acc1 acc2 :
  n1 < 16 ^ N.of_nat w → n2 < 16 ^ N.of_nat w → String.length acc1 = String.length acc2 →
  hex w n1 acc1 = hex w n2 acc2 → n1 = n2 ∧ acc1 = acc2.
Proof.
  revert n1 n2 acc1 acc2. induction w as [|w IH]; intros n1 n2 acc1 acc2 H1 H2 Hl Heq.
  { cbn in *. split; [lia|done]. }
  rewrite Nat2N.inj_succ, N.pow_succ_r' in H1, H2. cbn [hex] in Heq.
  apply IH in Heq as [Hd Hs]; [|by apply N.Div0.div_lt_upper_bound..|cbn; by rewrite Hl].
  injection Hs as Hm ->. apply hex_digit_inj in Hm; [|by apply N.mod_lt..].
  split; [|done]. rewrite (N.div_mod n1 16), (N.div_mod n2 16) by lia. congruence.
Qed.

Lemma hex16_inj n1 n2 : n1 < u64_modulus → n2 < u64_modulus → hex 16 n1 "" = hex 16 n2 "" → n1 = n2.
Proof. intros H1 H2 Heq. by apply (hex_inj 16) in Heq as [? _]. Qed.

(** ** The chain *)

#[local] Arguments chain_step : simpl never.

(** The hash of an event after [prev]. *)
Definition hash_after (prev : string) (e : AuditEvent) : string :=
  chain_step prev (event_id e) (actor e) (action e) (outcome e) (details_json e).

(** The hash that the events end with. *)
Definition end_hash (prev : string) (es : list AuditEvent) : string := foldl hash_after prev es.

Lemma tamper_point_app prev es1 es2 :
  tamper_point_from prev (es1 ++ es2) =
  match tamper_point_from prev es1 with
  | Some i => Some i
  | None => tamper_point_from (end_hash prev es1) es2
  end.
Proof.
  revert prev. induction es1 as [|e es1 IH]; intros prev; [done|]. cbn.
  fold (hash_after prev e). destruct (negb _); [done|apply IH].
Qed.

(** What every sink satisfies: the chain verifies and ends with the stored hash,
    and the events are numbered from one. *)
Record chained (s : AppendOnlyAuditSink) : Prop := {
  chained_ok : verify_chain_tamper_point (events s) = None;
  chained_end : end_hash CHAIN_GENESIS (events s) = prev_chain_hash s;
  chained_ids : ∀ i e, events s !! i = Some e → event_id e = N.of_nat (S i) mod u64_modulus;
  chained_next : next_event_id s = N.of_nat (S (length (events s))) mod u64_modulus;
}.

Lemma new_chained : chained new.
Proof. split; done. Qed.

Lemma append_chained now k a b o d s : chained s → chained (append now k a b o d s).2.
Proof.
  intros [Hok He Hid Hn]. unfold append. cbn. split; cbn.
  - unfold verify_chain_tamper_point in *. rewrite tamper_point_app, Hok, He. cbn.
    by rewrite String.eqb_refl.
  - unfold end_hash in *. by rewrite foldl_snoc, He.
  - intros i e Hl. apply lookup_app_Some in Hl as [Hl|[Hlen Hl]]; [by apply Hid|].
    destruct (i - length (events s))%nat as [|j] eqn:E; [|by destruct j].
    injection Hl as <-. cbn. rewrite Hn. do 2 f_equal. lia.
  - unfold u64_add. rewrite length_app, Hn. cbn [length].
    rewrite N.Div0.add_mod_idemp_l. f_equal. lia.
Qed.

(** A request for an event: its kind, actor, action, outcome and details, and the
    clock's reading. *)
Definition append_all (rs : list (N * AuditEventKind * string * string * string * string))
    (s : AppendOnlyAuditSink) : AppendOnlyAuditSink :=
  foldl (fun s '(now, k, a, b, o, d) => (append now k a b o d s).2) s rs.

Lemma append_all_chained rs s : chained s → chained (append_all rs s).
Proof.
  revert s. induction rs as [|[[[[[now k] a] b] o] d] rs IH]; intros s Hs; [done|].
  by apply IH, append_chained.
Qed.

Lemma append_all_length rs s :
  length (events (append_all rs s)) = (length (events s) + length rs)%nat.
Proof.
  revert s. induction rs as [|[[[[[now k] a] b] o] d] rs IH]; intros s; [cbn; lia|].
  change (append_all (_ :: rs) s) with (append_all rs (append now k a b o d s).2).
  rewrite IH. cbn. rewrite length_app. cbn. lia.
Qed.

(** The chain of a sink always verifies, whatever is appended, and its events
    are numbered from one without gaps. *)
Theorem audit_chain_verifies (rs : list (N * AuditEventKind * string * string * string * string)) :
  let es := events (append_all rs new) in
  length es = length rs ∧ verify_chain es = true ∧
  ∀ i e, es !! i = Some e → event_id e = N.of_nat (S i) mod u64_modulus.
Proof.
  pose proof (append_all_chained rs new new_chained) as [Hok _ Hid _]. cbn zeta. split; [|split; [|done]].
  - rewrite append_all_length. cbn. lia.
  - unfold verify_chain. by rewrite Hok.
Qed.

(** The bytes of an event that its hash covers. *)
Definition hashed (prev : string) (e : AuditEvent) : string :=
  chain_input prev (event_id e) (actor e) (action e) (outcome e) (details_json e).

Definition one_byte_apart (s1 s2 : string) : Prop :=
  ∃ a c1 c2 b, c1 ≠ c2 ∧ s1 = a +:+ String c1 b ∧ s2 = a +:+ String c2 b.

Lemma hash_one_byte prev e e' :
  one_byte_apart (hashed prev e) (hashed prev e') → hash_after prev e ≠ hash_after prev e'.
Proof.
  intros (a & c1 & c2 & b & Hne & H1 & H2) Heq. unfold hash_after, chain_step in Heq.
  unfold hashed in *. rewrite H1, H2 in Heq.
  apply hex16_inj in Heq; [|by apply fnv_bound..]. revert Heq. by apply fnv_one_byte.
Qed.

(** C35: A changed byte is found.  When one event of a chain that verifies is
    replaced by one whose hashed fields differ in exactly one byte, with the
    recorded hash left as it was, verification reports that event, whatever
    surrounds it. *)
Theorem changed_byte_reported (pre post : list AuditEvent) (e e' : AuditEvent) :
  verify_chain (pre ++ e :: post) = true → chain_hash e' = chain_hash e →
  one_byte_apart (hashed (end_hash CHAIN_GENESIS pre) e) (hashed (end_hash CHAIN_GENESIS pre) e') →
  verify_chain_tamper_point (pre ++ e' :: post) = Some (event_id e').
Proof.
  unfold verify_chain, verify_chain_tamper_point. rewrite !tamper_point_app.
  destruct (tamper_point_from CHAIN_GENESIS pre); [done|]. cbn.
  fold (hash_after (end_hash CHAIN_GENESIS pre) e) (hash_after (end_hash CHAIN_GENESIS pre) e').
  intros Hv Hh Hone. apply hash_one_byte in Hone.
  destruct (String.eqb_spec (hash_after (end_hash CHAIN_GENESIS pre) e) (chain_hash e)) as [He|]; [|done].
  destruct (String.eqb_spec (hash_after (end_hash CHAIN_GENESIS pre) e') (chain_hash e')) as [He'|]; [|done].
  congruence.
Qed.

(** Kind and time are not hashed: changing them is never found. *)
Theorem unhashed_fields_unprotected (pre post : list AuditEvent) (e : AuditEvent) (now : N) (k : AuditEventKind) :
  verify_chain_tamper_point (pre ++ mkEvent (event_id e) now (actor e) (action e) k (outcome e)
                                      (details_json e) (chain_hash e) :: post)
  = verify_chain_tamper_point (pre ++ e :: post).
Proof. unfold verify_chain_tamper_point. by rewrite !tamper_point_app. Qed.

(** Moving a separator from one field to the next is not found either. *)
Theorem moved_separator_unnoticed (pre post : list AuditEvent) (e : AuditEvent) (a b c : string) :
  actor e = a +:+ "|" +:+ b → action e = c →
  verify_chain_tamper_point (pre ++ mkEvent (event_id e) (occurred_epoch_ms e) a (b +:+ "|" +:+ c) (kind e)
                                      (outcome e) (details_json e) (chain_hash e) :: post)
  = verify_chain_tamper_point (pre ++ e :: post).
Proof.
  intros Ha Hc. unfold verify_chain_tamper_point. rewrite !tamper_point_app. cbn.
  unfold chain_step, chain_input. rewrite Ha, Hc. by rewrite !Str.app_assoc_str.
Qed.

(** A sink starts again from the genesis hash, so a log that holds the events of
    two runs does not verify. *)
Theorem log_of_two_runs_fails :
  let run := events (append_all [(0, Sql, "svc", "start", "ok", "{}")] new) in
  verify_chain run = true ∧ verify_chain_tamper_point (run ++ run) = Some 1.
Proof. split; by vm_compute. Qed.

Lemma changed_byte_reported_witness :
  let es := events (append_all [(0, Sql, "svc", "route", "ok", "{}"); (1, Security, "op", "stop", "ok", "{}");
                                (2, Sql, "svc", "route", "ok", "{}")] new) in
  let e := nth 1 es (mkEvent 0 0 "" "" Sql "" "" "") in
  let e' := mkEvent 2 1 "op" "stoq" Security "ok" "{}" (chain_hash e) in
  verify_chain_tamper_point (take 1 es ++ e' :: drop 2 es) = Some 2.
Proof.
  intros es e e'. apply (changed_byte_reported (take 1 es) (drop 2 es) e e').
  - by vm_compute.
  - reflexivity.
  - exists (end_hash CHAIN_GENESIS (take 1 es) +:+ "|2|op|sto"), "p"%char, "q"%char, "|ok|{}".
    split; [done|]. split; by vm_compute.
Defined.

End Audit.

(** * Audit records of the server ([services/voltnuerongridd/src/audit_helpers.rs],
      [handlers/audit.rs])

    The server's handlers append to an in-memory chain and, when a path is
    configured, to a file of JSON lines; readers see the latest events, tenants
    only those recorded for them. *)

Local Open Scope string_scope.
Local Open Scope list_scope.
Local Open Scope N_scope.
Local Open Scope vng_scope.

(** [serde_json::to_string] on an event *)
Class EventText := { event_line : Audit.AuditEvent -> option string }.

Module AuditLog.
Import SqlKind Auth UserStore Access Json Audit.

Record AuditState := mkAudit {
  audit_sink : AppendOnlyAuditSink;
  (** The lines of the log file, if a path is configured. *)
  audit_log : option (list string);
}.

Section Log.
Context {F : Type} `{!JsonText F} `{!EventText} `{!TokenCrypto} `{!HeaderText}.

(** [opened]: the log file can be opened and written; [now]: the clock. *)
Definition append_audit_event (opened : bool) (now : N) (k : AuditEventKind) (actor action outcome details : string)
    (st : AuditState) : AuditState :=
  let '(event, sink) := append now k actor action outcome details (audit_sink st) in
  let log :=
    match audit_log st, event_line event with
    | Some ls, Some line => Some (if opened then ls ++ [line] else ls)
    | log, _ => log
    end in
  mkAudit sink log.

Definition principal_fields (p : RuntimeAccessPrincipal) : list (string * Value F) :=
  match p with
  | Operator o =>
      [("actor_type", Text "operator"); ("operator_id", Text (operator_id o));
       ("operator_role", Text (role_str (op_role o)))]
  | TenantUser u =>
      [("actor_type", Text "tenant_user"); ("tenant_id", Text (tu_tenant_id u));
       ("user_id", Text (tu_user_id u)); ("user_role", Text (tu_role u))]
  end.

Definition runtime_details (p : RuntimeAccessPrincipal) (details : Value F) : list (string * Value F) :=
  let payload := match details with Object m => m | other => map_insert "details" other [] end in
  foldl (fun m kv => map_insert kv.1 kv.2 m) payload (principal_fields p).

Definition append_runtime_audit_event (opened : bool) (now : N) (k : AuditEventKind)
    (p : RuntimeAccessPrincipal) (action outcome : string) (details : Value F) (st : AuditState) : AuditState :=
  let actor := match p with Operator o => operator_id o | TenantUser u => tu_user_id u end in
  append_audit_event opened now k actor action outcome (to_string (Object (runtime_details p details))) st.

Definition audit_event_matches_tenant (e : AuditEvent) (tenant_id : string) : bool :=
  match (let! v := from_str (F := F) (details_json e) in let! t := Json.get "tenant_id" v in as_str t) with
  | Some value => eq_ignore_ascii_case value tenant_id
  | None => false
  end.

Definition filter_audit_events_for_principal (es : list AuditEvent) (p : RuntimeAccessPrincipal) : list AuditEvent :=
  match p with
  | Operator _ => es
  | TenantUser u => List.filter (fun e => audit_event_matches_tenant e (tu_tenant_id u)) es
  end.

(** ** Handlers *)

(** [GET audit/events] *)
Definition audit_events (now : N) (h : gmap string string) (a : AuthState) (max_items : option nat) (st : AuditState)
    : result (list AuditEvent) HttpError :=
  let? p := require_audit_runtime_principal now h a Read "audit/events" in
  Ok (filter_audit_events_for_principal (latest (Nat.min (default 100%nat max_items) 1000) (audit_sink st)) p).

(** [GET audit/chain/verify]: the number of events and whether they verify. *)
Definition audit_chain_verify (now : N) (h : gmap string string) (a : AuthState) (st : AuditState)
    : result (nat * bool) HttpError :=
  let? _ := require_audit_runtime_principal now h a Read "audit/chain/verify" in
  Ok (length (events (audit_sink st)), verify_chain (events (audit_sink st))).

(** [POST audit/purge]; the request's [confirm] is not looked at. *)
Definition audit_purge (h : gmap string string) (a : AuthState) (confirm : bool) (st : AuditState)
    : result nat HttpError * AuditState :=
  match require_operator_auth h a with
  | Err e => (Err e, st)
  | Ok _ => (Ok (length (events (audit_sink st))), mkAudit Audit.new (audit_log st))
  end.

(** [GET audit/export]: a page of the events; the export itself is recorded. *)
Definition audit_export (opened : bool) (now : N) (h : gmap string string) (a : AuthState)
    (cursor limit : option nat) (st : AuditState) : result (list AuditEvent * nat) HttpError * AuditState :=
  match (let? _ := require_operator_auth h a in
         require_operator_privilege h a "audit.read" "audit/export" Read) with
  | Err e => (Err e, st)
  | Ok o =>
      let all := events (audit_sink st) in
      let cursor := Nat.min (default 0%nat cursor) (length all) in
      let limit := Nat.min (Nat.max (default 1000%nat limit) 1) 10000 in
      let page := take limit (drop cursor all) in
      let details := Json.object [("route_scope", Text "audit/export");
                                  ("event_count", of_usize (length page));
                                  ("file_backed", Json.Bool (if audit_log st then true else false))] in
      (Ok (page, length all),
       append_runtime_audit_event opened now Security (Operator o) "audit_export" "ok" details st)
  end.

(** ** What readers see *)

Lemma append_audit_events opened now k a b o d st :
  events (audit_sink (append_audit_event opened now k a b o d st))
  = events (audit_sink st) ++ [(append now k a b o d (audit_sink st)).1].
Proof. reflexivity. Qed.

Lemma append_audit_chained opened now k a b o d st :
  chained (audit_sink st) → chained (audit_sink (append_audit_event opened now k a b o d st)).
Proof. apply append_chained. Qed.

Lemma tenant_field u (details : Value F) :
  map_get "tenant_id" (runtime_details (TenantUser u) details) = Some (Text (tu_tenant_id u)).
Proof.
  unfold runtime_details. cbn [principal_fields foldl fst snd].
  rewrite !map_get_insert_ne by done. apply map_get_insert.
Qed.

(** An action of a tenant's user is recorded for that tenant alone: whatever
    details it carries, the event that it adds is shown to a user exactly if the
    user's tenant has the same name up to the case of ASCII letters, and operators
    see it. *)
Theorem tenant_event_shown_to_tenant (opened : bool) (now : N) (k : AuditEventKind) (u : TenantUserIdentity)
    (action outcome : string) (details : Value F) (st : AuditState) (p : RuntimeAccessPrincipal) :
  JsonTextLaws F →
  ∃ e, events (audit_sink (append_runtime_audit_event opened now k (TenantUser u) action outcome details st))
       = events (audit_sink st) ++ [e] ∧
    (e ∈ filter_audit_events_for_principal [e] p ↔
     match p with
     | Operator _ => True
     | TenantUser v => eq_ignore_ascii_case (tu_tenant_id u) (tu_tenant_id v) = true
     end).
Proof.
  intros Hlaws. unfold append_runtime_audit_event. rewrite append_audit_events. eexists. split; [reflexivity|].
  destruct p as [o|v]; cbn [filter_audit_events_for_principal]; [set_solver|].
  rewrite list_elem_of_In, filter_In. unfold audit_event_matches_tenant. cbn [append fst details_json].
  rewrite from_to_string. unfold Json.get. rewrite tenant_field. cbn. naive_solver.
Qed.

(** Reading events never shows a tenant another tenant's event: every event in
    the answer to a tenant's user carries that tenant's id, and is among the
    latest thousand of the chain. *)
Theorem audit_events_isolated (now : N) (h : gmap string string) (a : AuthState) (max_items : option nat)
    (st : AuditState) (es : list AuditEvent) (u : TenantUserIdentity) :
  audit_events now h a max_items st = Ok es →
  require_audit_runtime_principal now h a Read "audit/events" = Ok (TenantUser u) →
  (length es <= 1000)%nat ∧
  ∀ e, e ∈ es → e ∈ events (audit_sink st) ∧ audit_event_matches_tenant e (tu_tenant_id u) = true.
Proof.
  unfold audit_events. intros Ho Hp. rewrite Hp in Ho. injection Ho as <-. cbn. split.
  - etransitivity; [apply filter_length_le|]. unfold latest. rewrite length_drop. lia.
  - intros e. rewrite list_elem_of_In, filter_In. intros [Hin Hm]. split; [|done].
    apply list_elem_of_In in Hin. unfold latest in Hin.
    by eapply elem_of_sublist, sublist_drop.
Qed.

(** The chain of the server's sink verifies after every recorded event and after a
    purge, so the endpoint never reports a broken chain. *)
Lemma purge_chained h a c st : chained (audit_sink st) → chained (audit_sink (audit_purge h a c st).2).
Proof. intros ?. unfold audit_purge. destruct (require_operator_auth h a); [apply new_chained|done]. Qed.
End Log.

(** ** Instances *)

Section Examples.
#[local] Existing Instance code_text.
#[local] Existing Instance code_text_laws.
#[local] Instance plain_headers : HeaderText := {| to_str := Some |}.
#[local] Instance plain_lines : EventText := {| event_line := fun e => Some (chain_hash e) |}.
#[local] Instance toy_crypto : TokenCrypto :=
  {| hmac_sha256 := fun _ d => d; sha256_hex := fun t => t; b64_encode := fun s => s; b64_decode := Some |}.

Definition acme_user : TenantUserIdentity := mkTenantUser "u1" "acme" "tenant_analyst".

Definition example_log : AuditState :=
  append_runtime_audit_event (F := Z) true 7 Sql (TenantUser acme_user) "sql_execute" "ok"
    (Json.object [("tenant_id", Text "other")]) (mkAudit Audit.new (Some [])).

Lemma tenant_event_shown_to_tenant_witness :
  ∃ e, events (audit_sink example_log) = [e] ∧
    (e ∈ filter_audit_events_for_principal (F := Z) [e] (TenantUser (mkTenantUser "u2" "ACME" "x"))
     ↔ eq_ignore_ascii_case "acme" "ACME" = true).
Proof.
  exact (tenant_event_shown_to_tenant true 7 Sql acme_user "sql_execute" "ok"
           (Json.object [("tenant_id", Text "other")]) (mkAudit Audit.new (Some []))
           (TenantUser (mkTenantUser "u2" "ACME" "x")) code_text_laws).
Defined.

Definition example_auth : AuthState :=
  mkAuth (Some "k") [Dba] ∅ ∅ Auth.new ∅
    {["t0" := mkSession "u1" "ann" "tenant_analyst" (Some "acme") 100]}.

Lemma audit_events_isolated_witness :
  ∃ es, audit_events (F := Z) 50 {["authorization" := "Bearer t0"]} example_auth None example_log = Ok es ∧
    length es = 1%nat ∧ (length es <= 1000)%nat.
Proof.
  eexists. split; [reflexivity|]. split; [by vm_compute|].
  refine (proj1 (audit_events_isolated (F := Z) 50 {["authorization" := "Bearer t0"]} example_auth None example_log
                   _ acme_user _ _)); by vm_compute.
Defined.
End Examples.
End AuditLog.
