(* ===== verification/Cache.v ===== *)
(** * The distributed cache ([crates/voltnuerongrid-opt/src/lib.rs])

    Partitions of JSON values with a time to live, bounded in size, with a circuit
    breaker, and a snapshot that survives restarts.  Clock readings are arguments;
    the iteration order of the hash maps is the class [CacheOrder]. *)

From S2P Require Import Prelude Str Select Json.
Local Open Scope string_scope.
Local Open Scope list_scope.
Local Open Scope N_scope.
Local Open Scope vng_scope.

(** Iteration order of a [HashMap] *)
Class CacheOrder := {
  iter_map : ∀ {A}, gmap string A -> list (string * A);
  iter_map_perm : ∀ {A} (m : gmap string A), iter_map m ≡ₚ map_to_list m;
}.

(** [f64::is_finite] *)
Class F64Finite (F : Type) := { f64_is_finite : F -> bool }.

Module Cache.
Import Select Json.

Section Cache.
Context {F : Type} `{!F64 F} `{!F64Finite F} `{!CacheOrder}.

(** ** Entries *)

Record CacheEntry := mkEntry {
  value : Value F;
  created_at_ms : N;
  last_accessed_ms : N;
  access_count : N;
  ttl_ms : option N;
  partition_key : string;
}.

Definition entry_new (v : Value F) (pk : string) (ttl : option N) (now : N) : CacheEntry :=
  mkEntry v now now 0 ttl pk.

Definition is_expired (now : N) (e : CacheEntry) : bool :=
  match ttl_ms e with
  | Some ttl => ttl <? saturating_sub now (created_at_ms e)
  | None => false
  end.

Definition touch (now : N) (e : CacheEntry) : CacheEntry :=
  mkEntry (value e) (created_at_ms e) now (u64_add (access_count e) 1) (ttl_ms e) (partition_key e).

(** ** Policies, circuit breaker, errors *)

Inductive EvictionPolicy := Lru | Lfu | Ttl.

Record CacheResiliencePolicy := mkPolicy {
  eviction_policy : EvictionPolicy;
  default_ttl_ms : option N;
  max_entries_per_partition : nat;
  circuit_breaker_failure_threshold : N;
  circuit_breaker_half_open_after_ms : N;
}.

Definition policy_default : CacheResiliencePolicy := mkPolicy Lru (Some 300000) (N.to_nat 10000) 5 30000.

Inductive CircuitBreakerState := Closed | Open (opened_at_ms : N) | HalfOpen.

Inductive CacheError :=
| CircuitOpen (partition_id : string)
| PartitionNotFound (partition_id : string)
| SerializationError (msg : string).

Definition error_string (e : CacheError) : string :=
  match e with
  | CircuitOpen p => "Circuit breaker open for partition '" +:+ p +:+ "'"
  | PartitionNotFound p => "Partition '" +:+ p +:+ "' not found"
  | SerializationError msg => "Serialization error: " +:+ msg
  end.

(** ** Partitions *)

Record CachePartition := mkPartition {
  partition_id : string;
  entries : gmap string CacheEntry;
  circuit_breaker : CircuitBreakerState;
  consecutive_failures : N;
  policy : CacheResiliencePolicy;
  total_hits : N;
  total_misses : N;
  total_evictions : N;
  last_rebalance_ms : option N;
}.

Definition partition_new (pid : string) (pol : CacheResiliencePolicy) : CachePartition :=
  mkPartition pid ∅ Closed 0 pol 0 0 0 None.

Definition set_entries (m : gmap string CacheEntry) (p : CachePartition) : CachePartition :=
  mkPartition (partition_id p) m (circuit_breaker p) (consecutive_failures p) (policy p)
    (total_hits p) (total_misses p) (total_evictions p) (last_rebalance_ms p).

Definition set_breaker (b : CircuitBreakerState) (n : N) (p : CachePartition) : CachePartition :=
  mkPartition (partition_id p) (entries p) b n (policy p)
    (total_hits p) (total_misses p) (total_evictions p) (last_rebalance_ms p).

Definition count_hit (p : CachePartition) : CachePartition :=
  mkPartition (partition_id p) (entries p) (circuit_breaker p) (consecutive_failures p) (policy p)
    (u64_add (total_hits p) 1) (total_misses p) (total_evictions p) (last_rebalance_ms p).

Definition count_miss (p : CachePartition) : CachePartition :=
  mkPartition (partition_id p) (entries p) (circuit_breaker p) (consecutive_failures p) (policy p)
    (total_hits p) (u64_add (total_misses p) 1) (total_evictions p) (last_rebalance_ms p).

Definition count_evictions (n : nat) (p : CachePartition) : CachePartition :=
  mkPartition (partition_id p) (entries p) (circuit_breaker p) (consecutive_failures p) (policy p)
    (total_hits p) (total_misses p) (u64_add (total_evictions p) (N.of_nat n)) (last_rebalance_ms p).

Definition get (key : string) (now : N) (p : CachePartition) : option (Value F) * CachePartition :=
  match entries p !! key with
  | None => (None, count_miss p)
  | Some e =>
      if is_expired now e then (None, count_miss (set_entries (delete key (entries p)) p))
      else
        let e := touch now e in
        (Some (value e), count_hit (set_entries (<[key := e]> (entries p)) p))
  end.

Definition evict_expired (now : N) (p : CachePartition) : nat * CachePartition :=
  let expired := map fst (List.filter (fun ke => is_expired now ke.2) (iter_map (entries p))) in
  (length expired,
   count_evictions (length expired)
     (set_entries (foldl (fun m k => delete k m) (entries p) expired) p)).

(** [min_by_key]: the first of the entries with the least key. *)
Definition lru_entry (l : list (string * CacheEntry)) : option (string * CacheEntry) :=
  match l with
  | [] => None
  | x :: r =>
      Some (foldl (fun best y => if last_accessed_ms y.2 <? last_accessed_ms best.2 then y else best) x r)
  end.

Definition evict_lru_if_full (now : N) (p : CachePartition) : CachePartition :=
  if (size (entries p) <? max_entries_per_partition (policy p))%nat then p
  else
    let p := (evict_expired now p).2 in
    if (max_entries_per_partition (policy p) <=? size (entries p))%nat then
      match lru_entry (iter_map (entries p)) with
      | Some (key, _) => count_evictions 1 (set_entries (delete key (entries p)) p)
      | None => p
      end
    else p.

Definition record_failure (now : N) (p : CachePartition) : CachePartition :=
  let n := (consecutive_failures p + 1) mod 4294967296 in
  if circuit_breaker_failure_threshold (policy p) <=? n then set_breaker (Open now) n p
  else set_breaker (circuit_breaker p) n p.

Definition record_success (p : CachePartition) : CachePartition := set_breaker Closed 0 p.

Definition circuit_is_open (now : N) (p : CachePartition) : bool :=
  match circuit_breaker p with
  | Open opened_at_ms =>
      saturating_sub now opened_at_ms <? circuit_breaker_half_open_after_ms (policy p)
  | _ => false
  end.

Definition set (key : string) (v : Value F) (ttl : option N) (now : N) (p : CachePartition)
    : result unit CacheError * CachePartition :=
  if circuit_is_open now p then (Err (CircuitOpen (partition_id p)), p)
  else
    let p :=
      match circuit_breaker p with
      | Open _ => set_breaker HalfOpen (consecutive_failures p) p
      | _ => p
      end in
    let effective_ttl := match ttl with Some t => Some t | None => default_ttl_ms (policy p) end in
    let p := evict_lru_if_full now p in
    let entry := entry_new v (partition_id p) effective_ttl now in
    (Ok tt, set_entries (<[key := entry]> (entries p)) p).

Definition invalidate (key : string) (p : CachePartition) : bool * CachePartition :=
  (bool_decide (is_Some (entries p !! key)), set_entries (delete key (entries p)) p).

Definition invalidate_all (p : CachePartition) : nat * CachePartition :=
  (size (entries p), set_entries ∅ p).

Definition keys (now : N) (p : CachePartition) : list string :=
  map fst (List.filter (fun ke => negb (is_expired now ke.2)) (iter_map (entries p))).

Definition expire (key : string) (ttl now : N) (p : CachePartition) : bool * CachePartition :=
  match entries p !! key with
  | None => (false, set_entries (delete key (entries p)) p)
  | Some e =>
      if is_expired now e then (false, set_entries (delete key (entries p)) p)
      else
        (true,
         set_entries (<[key := mkEntry (value e) now (last_accessed_ms e) (access_count e) (Some ttl)
                                 (partition_key e)]> (entries p)) p)
  end.

(** [Value::as_f64] and [json!] of a float *)
Definition as_f64 (v : Value F) : option F :=
  match v with
  | Number (PosInt n) => Some (f64_of_u64 n)
  | Number (NegInt z) => Some (f64_of_i64 z)
  | Number (Float f) => Some f
  | _ => None
  end.

Definition of_f64 (f : F) : Value F := if f64_is_finite f then Number (Float f) else Null.

Definition increment (key : string) (delta : F) (ttl : option N) (now : N) (p : CachePartition)
    : result F CacheError * CachePartition :=
  let current :=
    match entries p !! key with
    | Some e => if is_expired now e then f64_zero else default f64_zero (as_f64 (value e))
    | None => f64_zero
    end in
  let new_val := f64_add current delta in
  match set key (of_f64 new_val) ttl now p with
  | (Ok _, p) => (Ok new_val, p)
  | (Err e, p) => (Err e, p)
  end.

Record CacheRebalanceResult := mkRebalance {
  rr_partition_id : string; entries_before : nat; entries_evicted : nat; entries_after : nat;
  rebalanced_at_ms : N;
}.

Definition rebalance (now : N) (p : CachePartition) : CacheRebalanceResult * CachePartition :=
  let before := size (entries p) in
  let '(evicted, p) := evict_expired now p in
  (mkRebalance (partition_id p) before evicted (size (entries p)) now,
   mkPartition (partition_id p) (entries p) (circuit_breaker p) (consecutive_failures p) (policy p)
     (total_hits p) (total_misses p) (total_evictions p) (Some now)).

Definition snapshot_entries (p : CachePartition) : list (string * Value F * option N) :=
  map (fun ke => (ke.1, value ke.2, u64_add (created_at_ms ke.2) <$> ttl_ms ke.2)) (iter_map (entries p)).

Definition evict_by_prefix (prefix : string) (p : CachePartition) : CachePartition :=
  set_entries (filter (fun ke => Str.starts_with prefix ke.1 = false) (entries p)) p.

(** ** The manager *)

Record DistributedCacheManager := mkManager {
  partitions : gmap string CachePartition;
  default_policy : CacheResiliencePolicy;
}.

Definition manager_new (pol : CacheResiliencePolicy) : DistributedCacheManager := mkManager ∅ pol.

Definition with_default_policy : DistributedCacheManager := manager_new policy_default.

Definition set_partition (pid : string) (p : CachePartition) (m : DistributedCacheManager)
    : DistributedCacheManager :=
  mkManager (<[pid := p]> (partitions m)) (default_policy m).

(** The partition, created if it is absent. *)
Definition ensure_partition (pid : string) (m : DistributedCacheManager) : CachePartition :=
  match partitions m !! pid with
  | Some p => p
  | None => partition_new pid (default_policy m)
  end.

(** An operation on a partition that must exist. *)
Definition on_partition {A} (pid : string) (op : CachePartition -> A * CachePartition)
    (m : DistributedCacheManager) : result A CacheError * DistributedCacheManager :=
  match partitions m !! pid with
  | None => (Err (PartitionNotFound pid), m)
  | Some p => let '(a, p) := op p in (Ok a, set_partition pid p m)
  end.

Definition manager_get (pid key : string) (now : N) := on_partition pid (get key now).

Definition manager_set (pid key : string) (v : Value F) (ttl : option N) (now : N) (m : DistributedCacheManager)
    : result unit CacheError * DistributedCacheManager :=
  let '(r, p) := set key v ttl now (ensure_partition pid m) in (r, set_partition pid p m).

Definition manager_invalidate (pid key : string) := on_partition pid (invalidate key).

Definition invalidate_partition (pid : string) := on_partition pid invalidate_all.

Definition rebalance_all (now : N) (m : DistributedCacheManager)
    : list CacheRebalanceResult * DistributedCacheManager :=
  (map (fun kp => (rebalance now kp.2).1) (iter_map (partitions m)),
   mkManager ((fun p => (rebalance now p).2) <$> partitions m) (default_policy m)).

Definition total_entry_count (m : DistributedCacheManager) : nat :=
  foldr (fun kp n => (size (entries kp.2) + n)%nat) 0%nat (iter_map (partitions m)).

Definition keys_in_partition (pid : string) (now : N) (m : DistributedCacheManager)
    : result (list string) CacheError :=
  match partitions m !! pid with
  | None => Err (PartitionNotFound pid)
  | Some p => Ok (keys now p)
  end.

Definition expire_key (pid key : string) (ttl now : N) := on_partition pid (expire key ttl now).

Definition increment_key (pid key : string) (delta : F) (ttl : option N) (now : N) (m : DistributedCacheManager)
    : result F CacheError * DistributedCacheManager :=
  let '(r, p) := increment key delta ttl now (ensure_partition pid m) in (r, set_partition pid p m).

Definition manager_evict_by_prefix (prefix : string) (m : DistributedCacheManager) : DistributedCacheManager :=
  mkManager (evict_by_prefix prefix <$> partitions m) (default_policy m).

(** ** Snapshots *)

Definition entry_json (v : Value F) (expires_at : option N) : Value F :=
  let e := map_insert "value" v [] in
  Object (match expires_at with Some exp => map_insert "expires_at_ms" (of_u64 exp) e | None => e end).

Definition partition_json (p : CachePartition) : Value F :=
  Object (foldl (fun m '(key, v, expires_at) => map_insert key (entry_json v expires_at) m) []
            (snapshot_entries p)).

Definition snapshot_to_json (m : DistributedCacheManager) : Value F :=
  Object (foldl (fun out kp => map_insert kp.1 (partition_json kp.2) out) [] (iter_map (partitions m))).

Definition restore_entry (pid : string) (now : N) (m : DistributedCacheManager) (ke : string * Value F)
    : DistributedCacheManager :=
  let v := default Null (Json.get "value" ke.2) in
  let expires_at := match Json.get "expires_at_ms" ke.2 with Some e => as_u64 e | None => None end in
  if (match expires_at with Some exp => exp <=? now | None => false end) then m
  else
    let ttl := (fun exp => saturating_sub exp now) <$> expires_at in
    (manager_set pid ke.1 v ttl now m).2.

Definition restore_partition (now : N) (m : DistributedCacheManager) (kp : string * Value F)
    : DistributedCacheManager :=
  match as_object kp.2 with
  | Some part => foldl (restore_entry kp.1 now) m part
  | None => m
  end.

Definition restore_from_json (data : Value F) (now : N) (m : DistributedCacheManager) : DistributedCacheManager :=
  match as_object data with
  | Some obj => foldl (restore_partition now) m obj
  | None => m
  end.
End Cache.
End Cache.
