(* ===== verification/CacheCommand.v ===== *)
(** * Cache commands ([services/voltnuerongridd/src/handlers/misc.rs]:
      [cache_redis_command]; [handlers/sre.rs]: [sre_cache_*];
      [helpers/dataplane.rs]: [apply_cache_replication])

    The commands an operator sends to the cache, the snapshot file that two of
    them write, and the replication of commands between nodes. *)

From S2P Require Import Prelude Str SqlKind Auth UserStore AccessControl Json Select AuditChain Cache.
Local Open Scope string_scope.
Local Open Scope list_scope.
Local Open Scope N_scope.
Local Open Scope vng_scope.

Module CacheCommand.
Import Select SqlKind Auth UserStore Access Json Cache.

Section Command.
Context {F : Type} `{!F64 F} `{!F64Finite F} `{!CacheOrder} `{!JsonText F}.
Context `{!EventText} `{!TokenCrypto} `{!HeaderText}.

Record RedisCacheCommandRequest := mkReq {
  q_cmd : string;
  q_key : option string;
  q_value : option (Value F);
  q_partition_id : option string;
  q_ttl_ms : option N;
  q_expire_ms : option N;
  q_delta : option F;
  q_keys : option (list string);
  q_start : option Z;
  q_stop : option Z;
  q_field : option string;
}.

Record RedisCacheCommandResponse := mkResp {
  status : string;
  cmd : string;
  r_value : option (Value F);
  exists_ : option bool;
  removed : option bool;
  flushed_count : option nat;
  r_keys : option (list string);
  error : option string;
}.

Record CacheServer := mkServer {
  cache : DistributedCacheManager (F := F);
  (** The contents of the snapshot file, if it exists. *)
  snapshot_file : option string;
  audit : AuditLog.AuditState;
}.

Definition set_cache (c : DistributedCacheManager) (s : CacheServer) : CacheServer :=
  mkServer c (snapshot_file s) (audit s).

(** [written]: the directory and the file can be written. *)
Definition persist_cache_snapshot (written : bool) (s : CacheServer) : CacheServer :=
  if written then mkServer (cache s) (Some (to_string_pretty (snapshot_to_json (cache s)))) (audit s)
  else s.

Definition load_cache_snapshot (now : N) (s : CacheServer) : CacheServer :=
  match snapshot_file s with
  | Some data =>
      match from_str data with
      | Some json => set_cache (restore_from_json json now (cache s)) s
      | None => s
      end
  | None => s
  end.

(** ** Answers *)

Definition ok_value (c : string) (v : option (Value F)) : RedisCacheCommandResponse :=
  mkResp "ok" c v None None None None None.

Definition err (c : string) (e : CacheError) : RedisCacheCommandResponse :=
  mkResp "error" c None None None None None (Some (error_string e)).

(** ** Commands on whole values *)

Section OneCommand.
Context (c pid : string) (req : RedisCacheCommandRequest) (now : N) (written : bool).

Definition key_of : string := default "" (q_key req).
Definition value_of : Value F := default Null (q_value req).

Definition cmd_get (s : CacheServer) : RedisCacheCommandResponse * CacheServer :=
  let '(r, m) := manager_get pid key_of now (cache s) in
  (match r with Ok v => ok_value c v | Err e => err c e end, set_cache m s).

Definition cmd_set (s : CacheServer) : RedisCacheCommandResponse * CacheServer :=
  let '(r, m) := manager_set pid key_of value_of (q_ttl_ms req) now (cache s) in
  let s := set_cache m s in
  match r with
  | Ok _ => (ok_value c None, persist_cache_snapshot written s)
  | Err e => (err c e, s)
  end.

Definition cmd_del (s : CacheServer) : RedisCacheCommandResponse * CacheServer :=
  let '(r, m) := manager_invalidate pid key_of (cache s) in
  let s := set_cache m s in
  match r with
  | Ok b => (mkResp "ok" c None None (Some b) None None None, persist_cache_snapshot written s)
  | Err e => (mkResp "error" c None None (Some false) None None (Some (error_string e)), s)
  end.

Definition cmd_exists (s : CacheServer) : RedisCacheCommandResponse * CacheServer :=
  let '(r, m) := manager_get pid key_of now (cache s) in
  let exists_ := match r with Ok (Some _) => true | _ => false end in
  (mkResp "ok" c None (Some exists_) None None None
     (match r with Err e => Some (error_string e) | Ok _ => None end), set_cache m s).

Definition cmd_keys (s : CacheServer) : RedisCacheCommandResponse * CacheServer :=
  (match keys_in_partition pid now (cache s) with
   | Ok ks => mkResp "ok" c None None None None (Some ks) None
   | Err e => mkResp "error" c None None None None (Some []) (Some (error_string e))
   end, s).

Definition cmd_flush (s : CacheServer) : RedisCacheCommandResponse * CacheServer :=
  let '(r, m) := invalidate_partition pid (cache s) in
  (match r with
   | Ok n => mkResp "ok" c None None None (Some n) None None
   | Err e => mkResp "error" c None None None (Some 0%nat) None (Some (error_string e))
   end, set_cache m s).

Definition cmd_expire (s : CacheServer) : RedisCacheCommandResponse * CacheServer :=
  let ttl := default 60000 (match q_expire_ms req with Some t => Some t | None => q_ttl_ms req end) in
  let '(r, m) := expire_key pid key_of ttl now (cache s) in
  (match r with
   | Ok b => mkResp "ok" c (Some (Json.Bool b)) (Some b) None None None None
   | Err e => err c e
   end, set_cache m s).

Definition cmd_increment (delta : F) (s : CacheServer) : RedisCacheCommandResponse * CacheServer :=
  let '(r, m) := increment_key pid key_of delta (q_ttl_ms req) now (cache s) in
  (match r with Ok v => ok_value c (Some (of_f64 v)) | Err e => err c e end, set_cache m s).

(** [cache.get(..).ok().flatten()] *)
Definition read_value (k : string) (s : CacheServer) : option (Value F) * CacheServer :=
  let '(r, m) := manager_get pid k now (cache s) in
  (match r with Ok v => v | Err _ => None end, set_cache m s).

(** [let _ = cache.set(..)] *)
Definition write_value (k : string) (v : Value F) (s : CacheServer) : CacheServer :=
  set_cache (manager_set pid k v (q_ttl_ms req) now (cache s)).2 s.

Fixpoint mget (ks : list string) (s : CacheServer) : list (Value F) * CacheServer :=
  match ks with
  | [] => ([], s)
  | k :: ks =>
      let '(v, s) := read_value k s in
      let '(vs, s) := mget ks s in (default Null v :: vs, s)
  end.

Definition cmd_mget (s : CacheServer) : RedisCacheCommandResponse * CacheServer :=
  let '(vs, s) := mget (default [] (q_keys req)) s in (ok_value c (Some (Array vs)), s).

(** [None]: the handler returns at once, before the audit event. *)
Definition cmd_mset (s : CacheServer) : option RedisCacheCommandResponse * CacheServer :=
  match (let! v := q_value req in as_object v) with
  | None => (None, s)
  | Some obj =>
      (Some (ok_value c (Some (of_usize (length obj)))),
       foldl (fun s kv => write_value kv.1 kv.2 s) s obj)
  end.

Definition mset_error : RedisCacheCommandResponse :=
  mkResp "error" c None None None None None (Some "MSET requires value to be a JSON object").

Definition cmd_getset (s : CacheServer) : RedisCacheCommandResponse * CacheServer :=
  let '(old, s) := read_value key_of s in
  (ok_value c old, write_value key_of value_of s).

(** ** Lists *)

Definition read_array (s : CacheServer) : list (Value F) * CacheServer :=
  let '(v, s) := read_value key_of s in
  (match v with Some (Array l) => l | _ => [] end, s).

Definition cmd_lpush (s : CacheServer) : RedisCacheCommandResponse * CacheServer :=
  let '(l, s) := read_array s in
  let l := value_of :: l in
  (ok_value c (Some (of_usize (length l))), write_value key_of (Array l) s).

Definition cmd_rpush (s : CacheServer) : RedisCacheCommandResponse * CacheServer :=
  let '(l, s) := read_array s in
  let l := l ++ [value_of] in
  (ok_value c (Some (of_usize (length l))), write_value key_of (Array l) s).

Definition cmd_length (s : CacheServer) : RedisCacheCommandResponse * CacheServer :=
  let '(l, s) := read_array s in (ok_value c (Some (of_usize (length l))), s).

Definition resolve (len : Z) (i : Z) : nat :=
  if (i <? 0)%Z then Z.to_nat (Z.max (len + i) 0) else Z.to_nat (Z.min i len).

Definition lrange {A} (start stop : Z) (l : list A) : list A :=
  let len := Z.of_nat (length l) in
  let s := resolve len start in
  let e := Nat.min (resolve len stop + 1) (length l) in
  if (s <? e)%nat then take (e - s) (drop s l) else [].

Definition cmd_lrange (s : CacheServer) : RedisCacheCommandResponse * CacheServer :=
  let '(l, s) := read_array s in
  (ok_value c (Some (Array (lrange (default 0%Z (q_start req)) (default (-1)%Z (q_stop req)) l))), s).

(** ** Hashes *)

Definition field_of : string := default "" (q_field req).

Definition cmd_hset (s : CacheServer) : RedisCacheCommandResponse * CacheServer :=
  let '(v, s) := read_value key_of s in
  let hash := match v with Some (Object m) => m | _ => [] end in
  (ok_value c (Some (of_u64 1)), write_value key_of (Object (map_insert field_of value_of hash)) s).

Definition cmd_hget (s : CacheServer) : RedisCacheCommandResponse * CacheServer :=
  let '(v, s) := read_value key_of s in
  (ok_value c (match v with Some (Object m) => map_get field_of m | _ => None end), s).

Definition cmd_hdel (s : CacheServer) : RedisCacheCommandResponse * CacheServer :=
  let '(v, s) := read_value key_of s in
  let '(b, s) :=
    match v with
    | Some (Object m) =>
        (if map_get field_of m then true else false, write_value key_of (Object (map_remove field_of m)) s)
    | _ => (false, s)
    end in
  (mkResp "ok" c (Some (of_u64 (if b then 1 else 0))) None (Some b) None None None, s).

Definition cmd_hgetall (s : CacheServer) : RedisCacheCommandResponse * CacheServer :=
  let '(v, s) := read_value key_of s in
  (ok_value c (Some (match v with Some (Object m) => Object m | _ => Object [] end)), s).

(** ** Sets *)

Definition f64_eqb (a b : F) : bool := match f64_cmp a b with Some Datatypes.Eq => true | _ => false end.

Definition contains (l : list (Value F)) (v : Value F) : bool := existsb (fun x => value_eqb f64_eqb x v) l.

Definition cmd_sadd (s : CacheServer) : RedisCacheCommandResponse * CacheServer :=
  let '(l, s) := read_array s in
  let member := value_of in
  let '(added, l) := if negb (contains l member) then (1%nat, l ++ [member]) else (0%nat, l) in
  (ok_value c (Some (of_usize added)), write_value key_of (Array l) s).

Definition cmd_smembers (s : CacheServer) : RedisCacheCommandResponse * CacheServer :=
  let '(l, s) := read_array s in (ok_value c (Some (Array l)), s).

(** ** Channels *)

Definition cmd_subscribe (s : CacheServer) : RedisCacheCommandResponse * CacheServer :=
  (ok_value c (Some (Json.object [("channel", Text key_of); ("subscribed", Json.Bool true);
                                  ("message", Null)])), s).

Definition cmd_publish (s : CacheServer) : RedisCacheCommandResponse * CacheServer :=
  let '(r, m) := manager_set pid ("__pub:" +:+ key_of) value_of (Some 60000) now (cache s) in
  let s := set_cache m s in
  (ok_value c (Some (of_u64 1)),
   match r with Ok _ => persist_cache_snapshot written s | Err _ => s end).

(** ** Dispatch *)

Definition run_command (s : CacheServer) : option RedisCacheCommandResponse * CacheServer :=
  let done '(r, s) := (Some r, s) in
  let named (name : string) := String.eqb c name in
  if named "PING" then (Some (ok_value c (Some (Text "PONG"))), s)
  else if named "GET" then done (cmd_get s)
  else if named "SET" then done (cmd_set s)
  else if named "DEL" then done (cmd_del s)
  else if named "EXISTS" then done (cmd_exists s)
  else if named "KEYS" then done (cmd_keys s)
  else if named "FLUSH" then done (cmd_flush s)
  else if named "EXPIRE" then done (cmd_expire s)
  else if named "INCR" then done (cmd_increment (f64_of_u64 1) s)
  else if named "INCRBY" then done (cmd_increment (default (f64_of_u64 1) (q_delta req)) s)
  else if named "DECR" then done (cmd_increment (f64_neg (f64_of_u64 1)) s)
  else if named "DECRBY" then done (cmd_increment (f64_neg (default (f64_of_u64 1) (q_delta req))) s)
  else if named "MGET" then done (cmd_mget s)
  else if named "MSET" then cmd_mset s
  else if named "GETSET" then done (cmd_getset s)
  else if named "LPUSH" then done (cmd_lpush s)
  else if named "RPUSH" then done (cmd_rpush s)
  else if named "LLEN" then done (cmd_length s)
  else if named "LRANGE" then done (cmd_lrange s)
  else if named "HSET" then done (cmd_hset s)
  else if named "HGET" then done (cmd_hget s)
  else if named "HDEL" then done (cmd_hdel s)
  else if named "HGETALL" then done (cmd_hgetall s)
  else if named "SADD" then done (cmd_sadd s)
  else if named "SMEMBERS" then done (cmd_smembers s)
  else if named "SCARD" then done (cmd_length s)
  else if named "SUBSCRIBE" then done (cmd_subscribe s)
  else if named "PUBLISH" then done (cmd_publish s)
  else (Some (mkResp "error" c None None None None None
                (Some ("unsupported Redis-compat command: " +:+ c))), s).
End OneCommand.

(** The privilege that the cache endpoints ask for. *)
Definition cache_operator (h : gmap string string) (a : AuthState) (action : PrivilegeAction)
    : result OperatorIdentity HttpError :=
  let? _ := require_operator_auth h a in
  require_operator_privilege h a "cluster.sre" "sre/cache" action.

(** [opened]: the audit log can be written; [clock]: the time of its event. *)
Definition cache_redis_command (h : gmap string string) (a : AuthState) (req : RedisCacheCommandRequest)
    (now : N) (written opened : bool) (clock : N) (s : CacheServer)
    : result RedisCacheCommandResponse HttpError * CacheServer :=
  match cache_operator h a Execute with
  | Err e => (Err e, s)
  | Ok operator =>
      let c := Str.to_ascii_uppercase (Str.trim (q_cmd req)) in
      let pid := default "default" (q_partition_id req) in
      match run_command c pid req now written s with
      | (None, s) => (Ok (mset_error c), s)
      | (Some response, s) =>
          let details := Json.object [("cmd", Text (cmd response)); ("partition_id", Text pid);
                                      ("key", of_option Text (q_key req))] in
          (Ok response,
           mkServer (cache s) (snapshot_file s)
             (AuditLog.append_audit_event opened clock Audit.Failover (operator_id operator)
                "cache_redis_command" (status response) (to_string details) (audit s)))
      end
  end.

(** ** The operator's cache endpoints *)

(** An audit event of an endpoint. *)
Definition record (opened : bool) (clock : N) (o : OperatorIdentity) (action status : string)
    (details : Value F) (s : CacheServer) : CacheServer :=
  mkServer (cache s) (snapshot_file s)
    (AuditLog.append_audit_event opened clock Audit.Failover (operator_id o) action status
       (to_string details) (audit s)).

Definition sre_cache_set (h : gmap string string) (a : AuthState) (pid key : string) (v : Value F)
    (ttl : option N) (now : N) (opened : bool) (clock : N) (s : CacheServer)
    : result (result unit CacheError) HttpError * CacheServer :=
  match cache_operator h a Execute with
  | Err e => (Err e, s)
  | Ok o =>
      let '(r, m) := manager_set pid key v ttl now (cache s) in
      let e := match r with Ok _ => None | Err e => Some (error_string e) end in
      let details := Json.object [("partition_id", Text pid); ("key", Text key);
                                  ("ttl_ms", of_option of_u64 ttl); ("error", of_option Text e)] in
      (Ok r, record opened clock o "sre_cache_set" (if is_ok r then "ok" else "error") details (set_cache m s))
  end.

Definition sre_cache_get (h : gmap string string) (a : AuthState) (pid key : string) (now : N)
    (opened : bool) (clock : N) (s : CacheServer)
    : result (result (option (Value F)) CacheError) HttpError * CacheServer :=
  match cache_operator h a Read with
  | Err e => (Err e, s)
  | Ok o =>
      let '(r, m) := manager_get pid key now (cache s) in
      let hit := match r with Ok (Some _) => true | _ => false end in
      let e := match r with Ok _ => None | Err e => Some (error_string e) end in
      let details := Json.object [("partition_id", Text pid); ("key", Text key);
                                  ("hit", Json.Bool hit); ("error", of_option Text e)] in
      (Ok r, record opened clock o "sre_cache_get" (if is_ok r then "ok" else "error") details (set_cache m s))
  end.

Definition sre_cache_invalidate (h : gmap string string) (a : AuthState) (pid key : string)
    (opened : bool) (clock : N) (s : CacheServer) : result (result bool CacheError) HttpError * CacheServer :=
  match cache_operator h a Execute with
  | Err e => (Err e, s)
  | Ok o =>
      let '(r, m) := manager_invalidate pid key (cache s) in
      let b := match r with Ok b => b | Err _ => false end in
      let e := match r with Ok _ => None | Err e => Some (error_string e) end in
      let details := Json.object [("partition_id", Text pid); ("key", Text key);
                                  ("removed", Json.Bool b); ("error", of_option Text e)] in
      (Ok r, record opened clock o "sre_cache_invalidate" (if is_ok r then "ok" else "error") details
               (set_cache m s))
  end.

Definition sre_cache_rebalance (h : gmap string string) (a : AuthState) (now : N)
    (opened : bool) (clock : N) (s : CacheServer) : result (nat * nat) HttpError * CacheServer :=
  match cache_operator h a Execute with
  | Err e => (Err e, s)
  | Ok o =>
      let '(results, m) := rebalance_all now (cache s) in
      let evicted := foldr (fun r n => (entries_evicted r + n)%nat) 0%nat results in
      let details := Json.object [("partition_count", of_usize (length results));
                                  ("entries_evicted", of_usize evicted)] in
      (Ok (length results, evicted), record opened clock o "sre_cache_rebalance" "ok" details (set_cache m s))
  end.

(** ** Replication and DDL *)

Definition apply_cache_replication (c pid key : string) (v : option (Value F)) (ttl : option N) (now : N)
    (m : DistributedCacheManager (F := F)) : bool * DistributedCacheManager :=
  let c := Str.to_ascii_uppercase c in
  if String.eqb c "SET" then
    let '(r, m) := manager_set pid key (default Null v) ttl now m in (is_ok r, m)
  else if String.eqb c "DEL" then
    let '(r, m) := manager_invalidate pid key m in (match r with Ok b => b | Err _ => false end, m)
  else (false, m).

Definition cache_command_is_replicable (c : string) : bool :=
  let c := Str.to_ascii_uppercase c in String.eqb c "SET" || String.eqb c "DEL".

(** DROP TABLE evicts what the table cached. *)
Definition drop_table_eviction (table : string) : DistributedCacheManager (F := F) -> DistributedCacheManager :=
  manager_evict_by_prefix ("table:" +:+ table +:+ ":").
End Command.
End CacheCommand.
