(* ===== verification/CacheProps.v ===== *)
(** * Theorems on the cache

    The cache implements a map whose entries die at a deadline: a read never
    returns anything but the last write, and returns exactly that while the
    partition has room; partitions stay within their bound; a snapshot restores
    what was readable. *)

From S2P Require Import Prelude Str SqlKind Auth UserStore AccessControl Json Select SelectProps AuditChain Cache CacheCommand.
Local Open Scope string_scope.
Local Open Scope list_scope.
Local Open Scope N_scope.

Import Select Json Cache.

Section Props.
Context {F : Type} `{!F64 F} `{!F64Finite F} `{!CacheOrder}.
Implicit Types (p : CachePartition (F := F)) (m : DistributedCacheManager (F := F)).

(** ** Deadlines *)

(** What an entry means: its value and the last instant at which it can be read. *)
Abbreviation cell := (Value F * option N)%type.

Definition meaning (e : CacheEntry (F := F)) : cell := (value e, N.add (created_at_ms e) <$> ttl_ms e).

Definition alive (now : N) (x : cell) : bool :=
  match x.2 with Some t => now <=? t | None => true end.

Lemma is_expired_alive now e : is_expired now e = negb (alive now (meaning e)).
Proof.
  unfold is_expired, alive, meaning. cbn. destruct (ttl_ms e) as [ttl|]; [|done]. cbn.
  destruct (N.ltb_spec ttl (saturating_sub now (created_at_ms e))), (N.leb_spec now (created_at_ms e + ttl));
    unfold saturating_sub in *; cbn; lia || done.
Qed.

Definition abs p : gmap string cell := meaning <$> entries p.

Lemma alive_mono now now' x : now <= now' → alive now' x = true → alive now x = true.
Proof. unfold alive. destruct x as [v [t|]]; cbn; [|done]. rewrite !N.leb_le. lia. Qed.

(** ** Operations on a partition *)

Lemma get_value k now p :
  (get k now p).1 = match abs p !! k with
                    | Some x => if alive now x then Some x.1 else None
                    | None => None
                    end.
Proof.
  unfold get, abs. rewrite lookup_fmap. destruct (entries p !! k) as [e|]; [|done]. cbn.
  rewrite is_expired_alive. by destruct (alive now (meaning e)).
Qed.

Lemma abs_get k now p :
  abs (get k now p).2 = match abs p !! k with
                        | Some x => if alive now x then abs p else delete k (abs p)
                        | None => abs p
                        end.
Proof.
  unfold get, abs. rewrite lookup_fmap. destruct (entries p !! k) as [e|] eqn:He; [|done]. cbn.
  rewrite is_expired_alive. destruct (alive now (meaning e)) eqn:Ha; cbn.
  - rewrite fmap_insert. apply insert_id. by rewrite lookup_fmap, He.
  - by rewrite fmap_delete.
Qed.

Lemma foldl_delete_lookup {A} (ks : list string) (mm : gmap string A) k :
  foldl (fun mm k => delete k mm) mm ks !! k = if bool_decide (k ∈ ks) then None else mm !! k.
Proof.
  revert mm. induction ks as [|k' ks IH]; intros mm; cbn; [done|]. rewrite IH.
  destruct (decide (k = k')) as [->|Hne].
  - rewrite lookup_delete_eq. by destruct (bool_decide (k' ∈ ks)); rewrite bool_decide_true by set_solver.
  - rewrite lookup_delete_ne by done.
    rewrite (bool_decide_ext (k ∈ k' :: ks) (k ∈ ks)); [done|]. set_solver.
Qed.

Lemma elem_of_iter {A} (mm : gmap string A) k a : (k, a) ∈ iter_map mm ↔ mm !! k = Some a.
Proof. by rewrite iter_map_perm, elem_of_map_to_list. Qed.

Lemma lookup_evict_expired now p k :
  entries (evict_expired now p).2 !! k
  = match entries p !! k with Some e => if is_expired now e then None else Some e | None => None end.
Proof.
  unfold evict_expired. cbn. rewrite foldl_delete_lookup.
  assert (k ∈ map fst (List.filter (fun ke => is_expired now ke.2) (iter_map (entries p)))
          ↔ ∃ e, entries p !! k = Some e ∧ is_expired now e = true) as Hin.
  { rewrite list_elem_of_In, in_map_iff. split.
    - intros ([k' e] & Hk & Hin). cbn in Hk. subst k'. apply filter_In in Hin as [Hin He].
      apply list_elem_of_In, elem_of_iter in Hin. eauto.
    - intros (e & He & Hx). exists (k, e). split; [done|]. apply filter_In.
      split; [by apply list_elem_of_In, elem_of_iter|done]. }
  destruct (bool_decide_reflect (k ∈ map fst (List.filter (fun ke => is_expired now ke.2) (iter_map (entries p)))))
    as [Hk|Hk].
  - apply Hin in Hk as (e & -> & ->). done.
  - destruct (entries p !! k) as [e|] eqn:He; [|done]. destruct (is_expired now e) eqn:Hx; [|done].
    exfalso. apply Hk, Hin. eauto.
Qed.

Lemma abs_evict_expired now p k :
  abs (evict_expired now p).2 !! k
  = match abs p !! k with Some x => if alive now x then Some x else None | None => None end.
Proof.
  unfold abs. rewrite !lookup_fmap, lookup_evict_expired. destruct (entries p !! k) as [e|]; [|done]. cbn.
  rewrite is_expired_alive. by destruct (alive now (meaning e)).
Qed.

Lemma abs_rebalance now p k :
  abs (rebalance now p).2 !! k
  = match abs p !! k with Some x => if alive now x then Some x else None | None => None end.
Proof. exact (abs_evict_expired now p k). Qed.

Lemma policy_evict_expired now p : policy (evict_expired now p).2 = policy p.
Proof. done. Qed.

Lemma abs_evict_full now p : abs (evict_lru_if_full now p) ⊆ abs p.
Proof.
  assert (abs (evict_expired now p).2 ⊆ abs p) as He.
  { apply map_subseteq_spec. intros k x. rewrite abs_evict_expired.
    destruct (abs p !! k) as [y|]; [|done]. by destruct (alive now y). }
  unfold evict_lru_if_full. destruct (_ <? _)%nat; [done|].
  destruct (_ <=? _)%nat; [|done]. destruct (lru_entry _) as [[k e]|]; [|done].
  etransitivity; [|exact He]. unfold abs. cbn. rewrite fmap_delete. apply delete_subseteq.
Qed.

Lemma abs_evict_room now p :
  (size (entries p) < max_entries_per_partition (policy p))%nat → evict_lru_if_full now p = p.
Proof. intros Hlt. unfold evict_lru_if_full. by rewrite (proj2 (Nat.ltb_lt _ _) Hlt). Qed.

(** A partition as the server has them: one policy, breaker closed (nothing
    records failures). *)
Definition healthy (pol : CacheResiliencePolicy) p : Prop := policy p = pol ∧ circuit_breaker p = Closed.

Definition cell_of (pol : CacheResiliencePolicy) (v : Value F) (ttl : option N) (now : N) : cell :=
  (v, N.add now <$> match ttl with Some t => Some t | None => default_ttl_ms pol end).

Lemma healthy_evict pol now p : healthy pol p → healthy pol (evict_lru_if_full now p).
Proof.
  intros [Hp Hc]. unfold evict_lru_if_full. destruct (_ <? _)%nat; [done|].
  destruct (_ <=? _)%nat; [|done]. by destruct (lru_entry _) as [[k e]|].
Qed.

Lemma set_spec pol k v ttl now p :
  healthy pol p →
  (set k v ttl now p).1 = Ok tt ∧ healthy pol (set k v ttl now p).2 ∧
  abs (set k v ttl now p).2 = <[k := cell_of pol v ttl now]> (abs (evict_lru_if_full now p)).
Proof.
  intros Hh. pose proof (healthy_evict pol now p Hh) as [Hp' Hc'].
  destruct Hh as [Hp Hc]. unfold set, circuit_is_open. rewrite Hc. cbn. split; [done|].
  split; [by split|]. unfold abs. cbn. rewrite fmap_insert. unfold meaning, entry_new, cell_of. cbn.
  by rewrite Hp.
Qed.

Lemma abs_expire k ttl now p :
  abs (expire k ttl now p).2
  = match abs p !! k with
    | Some x => if alive now x then <[k := (x.1, Some (now + ttl))]> (abs p) else delete k (abs p)
    | None => abs p
    end.
Proof.
  unfold expire, abs. rewrite lookup_fmap. destruct (entries p !! k) as [e|] eqn:He; cbn.
  - rewrite is_expired_alive. destruct (alive now (meaning e)); cbn.
    + by rewrite fmap_insert.
    + by rewrite fmap_delete.
  - rewrite fmap_delete. apply delete_id. by rewrite lookup_fmap, He.
Qed.

(** ** The manager *)

Definition look m (pid k : string) : option cell :=
  match partitions m !! pid with Some p => abs p !! k | None => None end.

Definition healthy_manager (pol : CacheResiliencePolicy) m : Prop :=
  default_policy m = pol ∧ ∀ pid p, partitions m !! pid = Some p → healthy pol p.

Lemma look_set_partition pid p m pid' k :
  look (set_partition pid p m) pid' k = if String.eqb pid pid' then abs p !! k else look m pid' k.
Proof.
  unfold look, set_partition. cbn. destruct (String.eqb_spec pid pid') as [->|Hne].
  - by rewrite lookup_insert_eq.
  - by rewrite lookup_insert_ne.
Qed.

Lemma look_ensure pid m k : abs (ensure_partition pid m) !! k = look m pid k.
Proof. unfold ensure_partition, look. by destruct (partitions m !! pid). Qed.

Lemma healthy_ensure pol pid m : healthy_manager pol m → healthy pol (ensure_partition pid m).
Proof.
  intros [Hd Hp]. unfold ensure_partition. destruct (partitions m !! pid) eqn:E; [by eapply Hp|]. done.
Qed.

Lemma healthy_set_partition pol pid p m :
  healthy_manager pol m → healthy pol p → healthy_manager pol (set_partition pid p m).
Proof.
  intros [Hd Hp] Hh. split; [done|]. intros pid' p' Hl. cbn in Hl.
  apply lookup_insert_Some in Hl as [[<- <-]|[_ Hl]]; [done|by eapply Hp].
Qed.

(** An operation on a partition that keeps its policy and breaker. *)
Lemma healthy_on {A} pol pid (op : CachePartition (F := F) -> A * CachePartition) m :
  (∀ p, healthy pol p → healthy pol (op p).2) → healthy_manager pol m →
  healthy_manager pol (on_partition pid op m).2.
Proof.
  intros Hop Hm. unfold on_partition. destruct (partitions m !! pid) as [p|] eqn:E; [|done].
  pose proof (Hop p) as Hp. destruct (op p) as [a p']. cbn.
  apply healthy_set_partition; [done|]. apply Hp. by eapply Hm.
Qed.

Lemma look_on {A} pid (op : CachePartition (F := F) -> A * CachePartition) m pid' k :
  look (on_partition pid op m).2 pid' k
  = match partitions m !! pid with
    | Some p => if String.eqb pid pid' then abs (op p).2 !! k else look m pid' k
    | None => look m pid' k
    end.
Proof.
  unfold on_partition. destruct (partitions m !! pid) as [p|]; [|done].
  destruct (op p) as [a p'] eqn:E. cbn. by rewrite look_set_partition.
Qed.

(** ** Histories *)

Inductive CacheOp :=
| OGet (pid k : string)
| OSet (pid k : string) (v : Value F) (ttl : option N)
| ODel (pid k : string)
| OExpire (pid k : string) (ttl : N)
| OIncr (pid k : string) (delta : F) (ttl : option N)
| OFlush (pid : string)
| OPrefix (prefix : string)
| ORebalance.

Definition apply_op (now : N) (op : CacheOp) m : DistributedCacheManager (F := F) :=
  match op with
  | OGet pid k => (manager_get pid k now m).2
  | OSet pid k v ttl => (manager_set pid k v ttl now m).2
  | ODel pid k => (manager_invalidate pid k m).2
  | OExpire pid k ttl => (expire_key pid k ttl now m).2
  | OIncr pid k delta ttl => (increment_key pid k delta ttl now m).2
  | OFlush pid => (invalidate_partition pid m).2
  | OPrefix prefix => manager_evict_by_prefix prefix m
  | ORebalance => (rebalance_all now m).2
  end.

Definition run (tr : list (N * CacheOp)) m : DistributedCacheManager (F := F) :=
  foldl (fun m no => apply_op no.1 no.2 m) m tr.

(** The number an increment starts from. *)
Definition number_of (now : N) (c : option cell) : F :=
  match c with Some x => if alive now x then default f64_zero (as_f64 x.1) else f64_zero | None => f64_zero end.

(** What one operation does to one key of an unbounded map. *)
Definition ideal_at (pol : CacheResiliencePolicy) (now : N) (op : CacheOp) (pid k : string) (c : option cell)
    : option cell :=
  let here (q k' : string) := String.eqb q pid && String.eqb k' k in
  match op with
  | OGet _ _ | ORebalance => c
  | OSet q k' v ttl => if here q k' then Some (cell_of pol v ttl now) else c
  | ODel q k' => if here q k' then None else c
  | OExpire q k' ttl =>
      if here q k' then
        match c with Some x => if alive now x then Some (x.1, Some (now + ttl)) else c | None => None end
      else c
  | OIncr q k' delta ttl =>
      if here q k' then Some (cell_of pol (of_f64 (f64_add (number_of now c) delta)) ttl now) else c
  | OFlush q => if String.eqb q pid then None else c
  | OPrefix prefix => if Str.starts_with prefix k then None else c
  end.

Definition ideal (pol : CacheResiliencePolicy) (tr : list (N * CacheOp)) (pid k : string) : option cell :=
  foldl (fun c no => ideal_at pol no.1 no.2 pid k c) None tr.

Definition readable (now : N) (c : option cell) : option (Value F) :=
  match c with Some x => if alive now x then Some x.1 else None | None => None end.

Definition read (pid k : string) (now : N) m : option (Value F) :=
  match (manager_get pid k now m).1 with Ok v => v | Err _ => None end.

Lemma read_look pid k now m : read pid k now m = readable now (look m pid k).
Proof.
  unfold read, manager_get, on_partition, look. destruct (partitions m !! pid) as [p|]; [|done].
  pose proof (get_value k now p) as Hv. destruct (get k now p) as [v p']. cbn in *. by rewrite Hv.
Qed.

Definition is_incr (op : CacheOp) : bool := match op with OIncr _ _ _ _ => true | _ => false end.

(** The clock never goes back, up to [end_]. *)
Fixpoint ordered (t : N) (tr : list (N * CacheOp)) (end_ : N) : bool :=
  match tr with
  | [] => t <=? end_
  | (now, _) :: tr => (t <=? now) && ordered now tr end_
  end.

Definition writes (op : CacheOp) : gset (string * string) :=
  match op with OSet pid k _ _ | OIncr pid k _ _ => {[(pid, k)]} | _ => ∅ end.

Definition written (tr : list (N * CacheOp)) : gset (string * string) :=
  foldr (fun no W => writes no.2 ∪ W) ∅ tr.

(** *** One operation *)

Lemma look_write pol pid k v ttl now m pid' k' :
  healthy_manager pol m →
  look (manager_set pid k v ttl now m).2 pid' k'
  = if String.eqb pid pid' then
      (if String.eqb k k' then Some (cell_of pol v ttl now)
       else abs (evict_lru_if_full now (ensure_partition pid m)) !! k')
    else look m pid' k'.
Proof.
  intros Hm. unfold manager_set.
  destruct (set_spec pol k v ttl now _ (healthy_ensure pol pid m Hm)) as (_ & _ & Ha).
  destruct (set k v ttl now (ensure_partition pid m)) as [r p']. cbn in *. rewrite look_set_partition, Ha.
  destruct (String.eqb pid pid'); [|done]. destruct (String.eqb_spec k k') as [->|Hne].
  - by rewrite lookup_insert_eq.
  - by rewrite lookup_insert_ne.
Qed.

Lemma increment_is_set pid k delta ttl now m :
  (increment_key pid k delta ttl now m).2
  = (manager_set pid k (of_f64 (f64_add (number_of now (look m pid k)) delta)) ttl now m).2.
Proof.
  unfold increment_key, manager_set, increment.
  replace (match entries (ensure_partition pid m) !! k with
           | Some e => if is_expired now e then f64_zero else default f64_zero (as_f64 (value e))
           | None => f64_zero end) with (number_of now (look m pid k)).
  - by destruct (set k _ ttl now _) as [[[]|e] p'].
  - rewrite <- look_ensure. unfold abs. rewrite lookup_fmap.
    destruct (entries (ensure_partition pid m) !! k) as [e|]; [|done]. cbn.
    rewrite is_expired_alive. by destruct (alive now (meaning e)).
Qed.

Lemma healthy_op pol now op m : healthy_manager pol m → healthy_manager pol (apply_op now op m).
Proof.
  intros Hm. destruct op as [pid k|pid k v ttl|pid k|pid k ttl|pid k delta ttl|pid|prefix|];
    cbn [apply_op]; rewrite ?increment_is_set.
  1,3,4,6: apply healthy_on; [|done]; intros p Hp.
  - unfold get. destruct (entries p !! k); [|done]. by destruct (is_expired _ _).
  - done.
  - unfold expire. destruct (entries p !! k); [|done]. by destruct (is_expired _ _).
  - done.
  - unfold manager_set. destruct (set_spec pol k v ttl now _ (healthy_ensure pol pid m Hm)) as (_ & Hh & _).
    destruct (set k v ttl now _). by apply healthy_set_partition.
  - unfold manager_set.
    destruct (set_spec pol k (of_f64 (f64_add (number_of now (look m pid k)) delta)) ttl now _
                (healthy_ensure pol pid m Hm)) as (_ & Hh & _).
    destruct (set k _ ttl now _). by apply healthy_set_partition.
  - destruct Hm as [Hd Hp]. split; [done|]. intros pid p Hl. cbn in Hl.
    apply lookup_fmap_Some in Hl as (q & <- & Hq). exact (Hp _ _ Hq).
  - destruct Hm as [Hd Hp]. split; [done|]. intros pid p Hl. cbn in Hl.
    apply lookup_fmap_Some in Hl as (q & <- & Hq). exact (Hp _ _ Hq).
Qed.

Lemma look_partition m pid p k : partitions m !! pid = Some p → look m pid k = abs p !! k.
Proof. intros H1. unfold look. by rewrite H1. Qed.

(** What an operation other than a write makes of a key, exactly or up to the
    removal of a dead entry. *)
Lemma look_op_quiet pol now op m pid k :
  writes op = ∅ →
  look (apply_op now op m) pid k = ideal_at pol now op pid k (look m pid k) ∨
  look (apply_op now op m) pid k = None ∧
    ∀ x, ideal_at pol now op pid k (look m pid k) = Some x → alive now x = false.
Proof.
  destruct op as [pid0 k0|pid0 k0 v ttl|pid0 k0|pid0 k0 ttl|pid0 k0 delta ttl|pid0|prefix|];
    cbn [apply_op ideal_at writes]; intros Hw; try (exfalso; set_solver).
  - unfold manager_get. rewrite look_on. destruct (partitions m !! pid0) as [p|] eqn:Hp; [|by left].
    destruct (String.eqb_spec pid0 pid) as [->|]; [|by left]. rewrite (look_partition _ _ _ k Hp), abs_get.
    destruct (abs p !! k0) as [x|] eqn:Hx; [|by left]. destruct (alive now x) eqn:Ha; [by left|].
    destruct (decide (k0 = k)) as [->|Hne]; [|left; by rewrite lookup_delete_ne].
    right. rewrite lookup_delete_eq, Hx. split; [done|]. by intros ? [= <-].
  - left. unfold manager_invalidate. rewrite look_on. destruct (partitions m !! pid0) as [p|] eqn:Hp.
    + destruct (String.eqb_spec pid0 pid) as [->|]; [|done]. rewrite (look_partition _ _ _ k Hp). cbn.
      unfold abs. cbn. rewrite fmap_delete. destruct (String.eqb_spec k0 k) as [->|Hne].
      * by rewrite lookup_delete_eq.
      * by rewrite lookup_delete_ne.
    + destruct (String.eqb_spec pid0 pid) as [->|]; [|done]. unfold look. rewrite Hp. cbn.
      by destruct (String.eqb k0 k).
  - unfold expire_key. rewrite look_on. destruct (partitions m !! pid0) as [p|] eqn:Hp.
    + destruct (String.eqb_spec pid0 pid) as [->|]; [|by left]. rewrite (look_partition _ _ _ k Hp), abs_expire.
      cbn. destruct (String.eqb_spec k0 k) as [->|Hne].
      * destruct (abs p !! k) as [x|] eqn:Hx; [|left; by rewrite Hx]. destruct (alive now x) eqn:Ha.
        -- left. by rewrite lookup_insert_eq.
        -- right. rewrite lookup_delete_eq. split; [done|]. by intros ? [= <-].
      * left. destruct (abs p !! k0) as [x|]; [|done]. destruct (alive now x).
        -- by rewrite lookup_insert_ne.
        -- by rewrite lookup_delete_ne.
    + left. destruct (String.eqb_spec pid0 pid) as [->|]; [|done]. unfold look. rewrite Hp. cbn.
      by destruct (String.eqb k0 k).
  - left. unfold invalidate_partition. rewrite look_on. destruct (partitions m !! pid0) as [p|] eqn:Hp.
    + destruct (String.eqb pid0 pid); [|done]. unfold abs. cbn. by rewrite fmap_empty.
    + destruct (String.eqb_spec pid0 pid) as [->|]; [|done]. unfold look. by rewrite Hp.
  - left. unfold look. cbn. rewrite lookup_fmap. destruct (partitions m !! pid) as [p|]; cbn.
    + unfold abs. rewrite !lookup_fmap. cbn. destruct (Str.starts_with prefix k) eqn:Hs.
      * rewrite map_lookup_filter_None_2; [done|]. right. intros e _ Hf. cbn in Hf. congruence.
      * destruct (entries p !! k) as [e|] eqn:He.
        -- by rewrite (map_lookup_filter_Some_2 _ _ _ _ He Hs).
        -- rewrite map_lookup_filter_None_2; [done|by left].
    + by destruct (Str.starts_with prefix k).
  - unfold look, rebalance_all. cbn [snd partitions]. rewrite lookup_fmap.
    destruct (partitions m !! pid) as [p|]; cbn [fmap option_fmap option_map]; [|by left].
    rewrite abs_rebalance.
    destruct (abs p !! k) as [x|]; [|by left]. destruct (alive now x) eqn:Ha; [by left|].
    right. split; [done|]. by intros ? [= <-].
Qed.

Lemma writes_cases op :
  writes op = ∅ ∨
  (∃ pid k v ttl, op = OSet pid k v ttl) ∨ ∃ pid k delta ttl, op = OIncr pid k delta ttl.
Proof. destruct op; cbn; eauto 10. Qed.

(** The value that a write stores. *)
Lemma op_write pol now op m pid k :
  healthy_manager pol m →
  writes op = ∅ ∨
  ∃ pid0 k0 v ttl, apply_op now op m = (manager_set pid0 k0 v ttl now m).2 ∧
    ideal_at pol now op pid k (look m pid k)
    = if String.eqb pid0 pid && String.eqb k0 k then Some (cell_of pol v ttl now) else look m pid k.
Proof.
  intros Hm. destruct (writes_cases op) as [?|[(pid0 & k0 & v & ttl & ->)|(pid0 & k0 & delta & ttl & ->)]];
    [by left|right..].
  - by exists pid0, k0, v, ttl.
  - exists pid0, k0. eexists _, ttl. cbn [apply_op]. split; [apply increment_is_set|]. cbn.
    destruct (String.eqb_spec pid0 pid) as [->|]; [|done]. by destruct (String.eqb_spec k0 k) as [->|].
Qed.

Lemma op_sound pol now op m pid k x :
  healthy_manager pol m → look (apply_op now op m) pid k = Some x →
  ideal_at pol now op pid k (look m pid k) = Some x.
Proof.
  intros Hm Hl. destruct (op_write pol now op m pid k Hm) as [Hw|(pid0 & k0 & v & ttl & Hop & ->)].
  { destruct (look_op_quiet pol now op m pid k Hw) as [<-|[Hn _]]; congruence. }
  rewrite Hop, (look_write pol) in Hl by done.
  destruct (String.eqb_spec pid0 pid) as [->|]; [|done]. destruct (String.eqb k0 k); [done|]. cbn.
  rewrite <- look_ensure. eapply lookup_weaken; [exact Hl|apply abs_evict_full].
Qed.

Lemma op_complete pol now op m pid k x :
  healthy_manager pol m →
  (∀ pid p, partitions m !! pid = Some p → (size (entries p) < max_entries_per_partition pol)%nat) →
  (0 < max_entries_per_partition pol)%nat →
  ideal_at pol now op pid k (look m pid k) = Some x → alive now x = true →
  look (apply_op now op m) pid k = Some x.
Proof.
  intros Hm Hroom Hpos Hid Ha. destruct (op_write pol now op m pid k Hm) as [Hw|(pid0 & k0 & v & ttl & Hop & He)].
  { destruct (look_op_quiet pol now op m pid k Hw) as [->|[_ Hd]]; [done|]. apply Hd in Hid. congruence. }
  rewrite Hop, (look_write pol), <- Hid, He by done.
  destruct (String.eqb_spec pid0 pid) as [->|]; [|done]. destruct (String.eqb k0 k); [done|]. cbn.
  rewrite abs_evict_room; [apply look_ensure|]. destruct (healthy_ensure pol pid m Hm) as [-> _].
  unfold ensure_partition. destruct (partitions m !! pid) eqn:E; [by eapply Hroom|done].
Qed.

(** *** Whole histories *)

Lemma ideal_mono pol now op pid k a b x :
  is_incr op = false → (∀ y, a = Some y → b = Some y) →
  ideal_at pol now op pid k a = Some x → ideal_at pol now op pid k b = Some x.
Proof.
  intros Hi Hab. destruct op; cbn in *; try done; try (by apply Hab).
  1-2: destruct (_ && _); [done|by apply Hab].
  - destruct (_ && _); [|by apply Hab]. destruct a as [y|]; [|done]. by rewrite (Hab y eq_refl).
  - destruct (String.eqb _ _); [done|by apply Hab].
  - destruct (Str.starts_with _ _); [done|by apply Hab].
Qed.

Lemma ideal_complete pol now op pid k c a x :
  (∀ y, c = Some y → alive now y = true → a = Some y) → (∀ y, a = Some y → c = Some y) →
  ideal_at pol now op pid k c = Some x → alive now x = true → ideal_at pol now op pid k a = Some x.
Proof.
  intros Hca Hac Hid Ha. destruct op; cbn in *; try (by apply Hca); try (case_match; [done|by apply Hca]).
  - case_match; [|by apply Hca]. destruct c as [y|]; [|done]. destruct (alive now y) eqn:Hy.
    + rewrite (Hca y eq_refl Hy). by rewrite Hy.
    + injection Hid as ->. congruence.
  - case_match; [|by apply Hca]. rewrite <- Hid. do 4 f_equal. unfold number_of.
    destruct c as [y|]; [destruct (alive now y) eqn:Hy|].
    + by rewrite (Hca y eq_refl Hy), Hy.
    + destruct a as [z|]; [|done]. injection (Hac z eq_refl) as ->. by rewrite Hy.
    + destruct a as [z|]; [|done]. by specialize (Hac z eq_refl).
Qed.

Lemma cache_run_snoc tr no m : run (tr ++ [no]) m = apply_op no.1 no.2 (run tr m).
Proof. unfold run. by rewrite foldl_snoc. Qed.

Lemma ideal_snoc pol tr no pid k : ideal pol (tr ++ [no]) pid k = ideal_at pol no.1 no.2 pid k (ideal pol tr pid k).
Proof. unfold ideal. by rewrite foldl_snoc. Qed.

Lemma run_healthy pol tr : healthy_manager pol (run tr (manager_new pol)).
Proof.
  induction tr as [|no tr IH] using rev_ind; [by split|]. rewrite cache_run_snoc. by apply healthy_op.
Qed.

(** Nothing but a write brings a key to life. *)
Lemma op_dom pol now op m pid k :
  healthy_manager pol m → is_Some (look (apply_op now op m) pid k) →
  is_Some (look m pid k) ∨ (pid, k) ∈ writes op.
Proof.
  intros Hm [x Hx]. apply (op_sound pol) in Hx; [|done].
  destruct (look m pid k) as [y|] eqn:Hy; [by left|right].
  destruct op; cbn in Hx; try done; repeat case_match; simplify_eq; try done.
  all: repeat match goal with H1 : _ && _ = true |- _ => apply andb_true_iff in H1 as [?%String.eqb_eq ?%String.eqb_eq] end.
  all: set_solver.
Qed.

Lemma written_snoc tr no : written (tr ++ [no]) = written tr ∪ writes no.2.
Proof. unfold written. induction tr as [|no' tr IH]; cbn; [set_solver|]. rewrite IH. set_solver. Qed.

Lemma run_dom pol tr pid k : is_Some (look (run tr (manager_new pol)) pid k) → (pid, k) ∈ written tr.
Proof.
  induction tr as [|no tr IH] using rev_ind; [by intros [? ?]|]. rewrite cache_run_snoc, written_snoc.
  intros Hl. apply (op_dom pol) in Hl as [Hl|Hl]; [set_solver|set_solver|apply run_healthy].
Qed.

Lemma run_size pol tr pid p :
  partitions (run tr (manager_new pol)) !! pid = Some p → (size (entries p) <= size (written tr))%nat.
Proof.
  intros Hp. rewrite <- (size_dom (D := gset string)). set (ks := pair pid <$> elements (dom (entries p))).
  assert (size (dom (entries p)) = size (list_to_set ks : gset (string * string))) as ->.
  { rewrite size_list_to_set; [by unfold ks; rewrite length_fmap|].
    apply NoDup_fmap_2; [apply _|apply NoDup_elements]. }
  apply subseteq_size. intros [pid' k] Hin. apply elem_of_list_to_set in Hin.
  apply list_elem_of_fmap in Hin as (k' & [= -> ->] & Hk). apply elem_of_elements in Hk.
  apply (run_dom pol). rewrite (look_partition _ _ _ _ Hp). unfold abs.
  rewrite lookup_fmap. apply elem_of_dom in Hk as [e ->]. by eexists.
Qed.

Lemma run_sound pol tr pid k x :
  forallb (fun no => negb (is_incr no.2)) tr = true →
  look (run tr (manager_new pol)) pid k = Some x → ideal pol tr pid k = Some x.
Proof.
  revert x. induction tr as [|no tr IH] using rev_ind; intros x Hi Hl; [done|].
  rewrite forallb_app in Hi. cbn in Hi. apply andb_true_iff in Hi as [Hi Hn].
  rewrite andb_true_r in Hn. apply negb_true_iff in Hn. rewrite cache_run_snoc in Hl. rewrite ideal_snoc.
  apply (op_sound pol) in Hl; [|apply run_healthy]. eapply ideal_mono; [done| |exact Hl].
  intros y. by apply IH.
Qed.

Lemma ordered_snoc t tr no end_ : ordered t (tr ++ [no]) end_ = ordered t tr no.1 && (no.1 <=? end_).
Proof.
  revert t. induction tr as [|[now op] tr IH]; intros t; cbn; [by destruct no|].
  by rewrite IH, andb_assoc.
Qed.

Lemma run_exact pol tr pid k t x :
  ordered 0 tr t = true → (size (written tr) < max_entries_per_partition pol)%nat →
  (look (run tr (manager_new pol)) pid k = Some x → ideal pol tr pid k = Some x) ∧
  (ideal pol tr pid k = Some x → alive t x = true → look (run tr (manager_new pol)) pid k = Some x).
Proof.
  revert t x. induction tr as [|no tr IH] using rev_ind; intros t x Ho Hw; [done|].
  rewrite ordered_snoc in Ho. apply andb_true_iff in Ho as [Ho Ht]. apply N.leb_le in Ht.
  assert (size (written tr) < max_entries_per_partition pol)%nat as Hw'.
  { rewrite written_snoc in Hw. pose proof (subseteq_size (written tr) (written tr ∪ writes no.2)). set_solver by lia. }
  rewrite cache_run_snoc, ideal_snoc. pose proof (run_healthy pol tr) as Hh.
  assert (∀ y, ideal pol tr pid k = Some y → alive no.1 y = true →
               look (run tr (manager_new pol)) pid k = Some y) as Hca
    by (intros y; by apply (IH no.1 y Ho Hw')).
  assert (∀ y, look (run tr (manager_new pol)) pid k = Some y → ideal pol tr pid k = Some y) as Hac
    by (intros y; by apply (IH no.1 y Ho Hw')).
  split.
  - intros Hl. apply (op_sound pol) in Hl; [|done]. revert Hl.
    destruct (is_incr no.2) eqn:Hi; [|by apply ideal_mono].
    destruct no as [now op]. destruct op; try done. cbn in *. destruct (_ && _); [|by apply Hac].
    intros [= <-]. do 4 f_equal. unfold number_of.
    destruct (ideal pol tr pid k) as [y|] eqn:Hy.
    + destruct (alive now y) eqn:Ha; [by rewrite (Hca y eq_refl Ha), Ha|].
      destruct (look _ pid k) as [z|] eqn:Hz; [|done]. injection (Hac z eq_refl) as ->. by rewrite Ha.
    + destruct (look _ pid k) as [z|] eqn:Hz; [|done]. by specialize (Hac z eq_refl).
  - intros Hid Ha. pose proof (alive_mono _ _ _ Ht Ha) as Ha'.
    apply (op_complete pol); [done| |lia| |done].
    + intros pid' p Hp. apply run_size in Hp. lia.
    + by eapply ideal_complete.
Qed.

(** C33: The cache reads what was last written.  After any sequence of commands on
    a new cache, a read returns nothing but the value that the last command on the
    key left, within its time to live, as in an unbounded map (when no counters
    are incremented, since a lost counter starts again).  And when the clock never
    goes back and fewer keys were written than a partition holds, reads return
    exactly that, counters included. *)
Theorem cache_reads_last_write (pol : CacheResiliencePolicy) (tr : list (N * CacheOp)) (pid k : string) (now : N) :
  let m := run tr (manager_new pol) in
  (forallb (fun no => negb (is_incr no.2)) tr = true →
   ∀ v, read pid k now m = Some v → readable now (ideal pol tr pid k) = Some v) ∧
  (ordered 0 tr now = true → (size (written tr) < max_entries_per_partition pol)%nat →
   read pid k now m = readable now (ideal pol tr pid k)).
Proof.
  intros m. rewrite read_look. split.
  - intros Hi v Hv. destruct (look m pid k) as [x|] eqn:Hx; [|done].
    by rewrite (run_sound pol tr pid k x Hi Hx).
  - intros Ho Hw. destruct (look m pid k) as [x|] eqn:Hx.
    + by rewrite (proj1 (run_exact pol tr pid k now x Ho Hw) Hx).
    + destruct (ideal pol tr pid k) as [y|] eqn:Hy; [|done]. cbn. destruct (alive now y) eqn:Ha; [|done].
      pose proof (proj2 (run_exact pol tr pid k now y Ho Hw) Hy Ha) as Hc. subst m. congruence.
Qed.

(** ** Capacity *)

Definition within (pol : CacheResiliencePolicy) m : Prop :=
  ∀ pid p, partitions m !! pid = Some p → (size (entries p) <= max_entries_per_partition pol)%nat.

Lemma size_abs p : size (abs p) = size (entries p).
Proof. apply map_size_fmap. Qed.

Lemma size_sub (a b : gmap string cell) : a ⊆ b → (size a <= size b)%nat.
Proof. intros Hs. rewrite <- !(size_dom (D := gset string)). by apply subseteq_size, subseteq_dom. Qed.

Lemma lru_pick (l : list (string * CacheEntry (F := F))) best :
  foldl (fun b y => if last_accessed_ms y.2 <? last_accessed_ms b.2 then y else b) best l ∈ best :: l.
Proof.
  revert best. induction l as [|y l IH]; intros best; cbn; [by left|].
  destruct (_ <? _); [right; apply IH|]. specialize (IH best). set_solver.
Qed.

Lemma lru_entry_Some l : l ≠ [] → ∃ x, lru_entry (F := F) l = Some x ∧ x ∈ l.
Proof. destruct l as [|x l]; [done|]. intros _. eexists. split; [reflexivity|]. apply lru_pick. Qed.

(** Making room leaves room. *)
Lemma evict_makes_room pol now p :
  policy p = pol → (0 < max_entries_per_partition pol)%nat →
  (size (entries p) <= max_entries_per_partition pol)%nat →
  (size (entries (evict_lru_if_full now p)) < max_entries_per_partition pol)%nat.
Proof.
  intros Hp Hpos Hle. unfold evict_lru_if_full. rewrite Hp.
  destruct (Nat.ltb_spec (size (entries p)) (max_entries_per_partition pol)) as [|Hge]; [done|].
  rewrite policy_evict_expired, Hp. set (q := (evict_expired now p).2).
  assert (size (entries q) <= size (entries p))%nat as Hq.
  { rewrite <- !size_abs. apply size_sub, map_subseteq_spec. intros k x. subst q. rewrite abs_evict_expired.
    destruct (abs p !! k) as [y|]; [|done]. by destruct (alive now y). }
  destruct (Nat.leb_spec (max_entries_per_partition pol) (size (entries q))) as [Hfull|]; [|done].
  destruct (lru_entry_Some (iter_map (entries q))) as ([k e] & -> & Hin).
  { intros Hn. pose proof (iter_map_perm (entries q)) as Hperm. rewrite Hn in Hperm.
    apply Permutation_nil_l in Hperm. symmetry in Hperm. apply map_to_list_empty_iff in Hperm. rewrite Hperm in Hfull.
    rewrite map_size_empty in Hfull. lia. }
  apply elem_of_iter in Hin. cbn [entries count_evictions set_entries]. rewrite map_size_delete_Some by (by eexists). lia.
Qed.

Lemma within_set pol pid k v ttl now m :
  (0 < max_entries_per_partition pol)%nat → healthy_manager pol m → within pol m →
  within pol (manager_set pid k v ttl now m).2.
Proof.
  intros Hpos Hm Hw. unfold manager_set. pose proof (healthy_ensure pol pid m Hm) as Hh.
  destruct (set_spec pol k v ttl now _ Hh) as (_ & _ & Ha). destruct (set k v ttl now _) as [r p'].
  intros pid' q Hl. cbn in Hl, Ha. apply lookup_insert_Some in Hl as [[<- <-]|[_ Hl]]; [|by eapply Hw].
  rewrite <- size_abs, Ha.
  assert (size (entries (ensure_partition pid m)) <= max_entries_per_partition pol)%nat as Hs.
  { unfold ensure_partition. destruct (partitions m !! pid) eqn:E; [by eapply Hw|]. change (size (∅ : gmap string (CacheEntry (F := F))) <= max_entries_per_partition pol)%nat. rewrite map_size_empty. lia. }
  pose proof (evict_makes_room pol now _ (proj1 Hh) Hpos Hs) as Hr. rewrite <- size_abs in Hr.
  rewrite map_size_insert. destruct (abs (evict_lru_if_full now (ensure_partition pid m)) !! k);
    unfold id; lia.
Qed.

Lemma within_on {A} pol pid (op : CachePartition (F := F) -> A * CachePartition) m :
  (∀ p, (size (abs (op p).2) <= size (abs p))%nat) → within pol m → within pol (on_partition pid op m).2.
Proof.
  intros Hop Hw. unfold on_partition. destruct (partitions m !! pid) as [p|] eqn:E; [|done].
  pose proof (Hop p) as Hp. destruct (op p) as [a p']. cbn in *. intros pid' q Hl. cbn in Hl.
  apply lookup_insert_Some in Hl as [[<- <-]|[_ Hl]]; [|by eapply Hw].
  rewrite !size_abs in Hp. apply Hw in E. lia.
Qed.

Lemma size_delete_le (a : gmap string cell) k : (size (delete k a) <= size a)%nat.
Proof. apply size_sub, delete_subseteq. Qed.

Lemma within_op pol now op m :
  (0 < max_entries_per_partition pol)%nat → healthy_manager pol m → within pol m →
  within pol (apply_op now op m).
Proof.
  intros Hpos Hm Hw. destruct op as [pid k|pid k v ttl|pid k|pid k ttl|pid k delta ttl|pid|prefix|];
    cbn [apply_op]; rewrite ?increment_is_set; try by apply within_set.
  - apply within_on; [|done]. intros p. rewrite abs_get. destruct (abs p !! k) as [x|]; [|done].
    destruct (alive now x); [done|]. apply size_delete_le.
  - apply within_on; [|done]. intros p. unfold abs. cbn. rewrite fmap_delete. apply size_delete_le.
  - apply within_on; [|done]. intros p. rewrite abs_expire. destruct (abs p !! k) as [x|] eqn:Hx; [|done].
    destruct (alive now x); [|apply size_delete_le]. by rewrite map_size_insert_Some by (by eexists).
  - apply within_on; [|done]. intros p. unfold abs. cbn. rewrite fmap_empty, map_size_empty. lia.
  - intros pid p Hl. cbn in Hl. apply lookup_fmap_Some in Hl as (q & <- & Hq). cbn.
    etransitivity; [|exact (Hw _ _ Hq)]. rewrite <- !(size_dom (D := gset string)).
    apply subseteq_size, dom_filter_subseteq.
  - intros pid p Hl. cbn in Hl. apply lookup_fmap_Some in Hl as (q & <- & Hq).
    etransitivity; [|exact (Hw _ _ Hq)]. rewrite <- !size_abs. apply size_sub, map_subseteq_spec.
    intros k x Hx. pose proof (abs_rebalance now q k) as Hr. change (abs (rebalance now q).2 !! k = Some x) in Hx.
    rewrite Hr in Hx.
    destruct (abs q !! k) as [y|]; [|done]. by destruct (alive now y).
Qed.

Lemma run_within pol tr :
  (0 < max_entries_per_partition pol)%nat → within pol (run tr (manager_new pol)).
Proof.
  intros Hpos. induction tr as [|no tr IH] using rev_ind; [done|]. rewrite cache_run_snoc.
  apply within_op; [done|apply run_healthy|done].
Qed.

(** Partitions stay within their bound: after any sequence of commands, no
    partition holds more entries than its policy allows. *)
Theorem cache_within_capacity (pol : CacheResiliencePolicy) (tr : list (N * CacheOp)) (pid : string) (p : CachePartition) :
  (0 < max_entries_per_partition pol)%nat →
  partitions (run tr (manager_new pol)) !! pid = Some p →
  (size (entries p) <= max_entries_per_partition pol)%nat.
Proof. intros Hpos. by apply run_within. Qed.

(** ** Snapshots *)

Lemma map_insert_perm (k : string) (v : Value F) l : k ∉ map fst l → map_insert k v l ≡ₚ (k, v) :: l.
Proof.
  induction l as [|[k' v'] l IH]; intros Hni; [done|]. cbn in *.
  destruct (String.compare k k') eqn:E.
  - apply String.compare_eq_iff in E as ->. set_solver.
  - done.
  - rewrite IH by set_solver. apply Permutation_swap.
Qed.

Lemma fold_map_insert_perm (l acc : list (string * Value F)) :
  NoDup (map fst (acc ++ l)) → foldl (fun obj kv => map_insert kv.1 kv.2 obj) acc l ≡ₚ acc ++ l.
Proof.
  revert acc. induction l as [|[k v] l IH]; intros acc Hnd; cbn; [by rewrite app_nil_r|].
  assert (k ∉ map fst acc) as Hk.
  { rewrite map_app in Hnd. cbn in Hnd. apply NoDup_app in Hnd as (_ & Hd & _). intros Hin.
    apply (Hd k Hin). by left. }
  assert (map_insert k v acc ++ l ≡ₚ acc ++ (k, v) :: l) as Hp.
  { rewrite map_insert_perm by done. cbn. by rewrite <- Permutation_middle. }
  rewrite IH; [done|]. by rewrite Hp.
Qed.

Lemma NoDup_keys {A} (mm : gmap string A) : NoDup (map fst (iter_map mm)).
Proof. rewrite iter_map_perm. apply NoDup_fst_map_to_list. Qed.

(** The cell that restoring an entry's JSON creates. *)
Definition restored_cell (pol : CacheResiliencePolicy) (now : N) (j : Value F) : option cell :=
  let expires_at := match Json.get "expires_at_ms" j with Some e => as_u64 e | None => None end in
  if (match expires_at with Some exp => exp <=? now | None => false end) then None
  else Some (cell_of pol (default Null (Json.get "value" j)) ((fun exp => saturating_sub exp now) <$> expires_at) now).

Lemma restore_entry_spec pol pid now m k j :
  healthy_manager pol m → look m pid k = None →
  (size (entries (ensure_partition pid m)) < max_entries_per_partition pol)%nat →
  let m' := restore_entry pid now m (k, j) in
  healthy_manager pol m' ∧
  (∀ pid' k', look m' pid' k' = if String.eqb pid pid' && String.eqb k k' then restored_cell pol now j
                                else look m pid' k') ∧
  (size (entries (ensure_partition pid m')) <= S (size (entries (ensure_partition pid m))))%nat ∧
  ∀ pid', pid' ≠ pid → partitions m' !! pid' = partitions m !! pid'.
Proof.
  intros Hm Hk Hroom. unfold restore_entry, restored_cell. cbn [fst snd].
  set (exp := match Json.get "expires_at_ms" j with Some e => as_u64 e | None => None end).
  destruct (match exp with Some e => e <=? now | None => false end).
  { split; [done|]. split; [|split; [lia|done]]. intros pid' k'.
    destruct (String.eqb_spec pid pid') as [->|]; [|done]. by destruct (String.eqb_spec k k') as [->|]. }
  set (v := default Null (Json.get "value" j)). set (ttl := _ <$> exp).
  pose proof (healthy_op pol now (OSet pid k v ttl) m Hm) as Hm'. cbn [apply_op] in Hm'.
  pose proof (healthy_ensure pol pid m Hm) as Hh.
  assert (evict_lru_if_full now (ensure_partition pid m) = ensure_partition pid m) as Hev.
  { apply abs_evict_room. by rewrite (proj1 Hh). }
  split; [done|]. split; [|split].
  - intros pid' k'. rewrite (look_write pol), Hev by done.
    destruct (String.eqb_spec pid pid') as [->|]; [|done]. destruct (String.eqb k k'); [done|]. apply look_ensure.
  - unfold manager_set. destruct (set_spec pol k v ttl now _ Hh) as (_ & _ & Ha).
    destruct (set k v ttl now _) as [r p']. cbn [snd] in Ha |- *.
    unfold ensure_partition at 1. cbn [partitions set_partition]. rewrite lookup_insert_eq.
    rewrite <- !size_abs, Ha, Hev, map_size_insert. destruct (abs _ !! k); unfold id; lia.
  - intros pid' Hne. unfold manager_set. destruct (set k v ttl now _) as [r p']. cbn.
    by apply lookup_insert_ne.
Qed.

Lemma restore_entries pol pid now m l :
  healthy_manager pol m → partitions m !! pid = None → NoDup (map fst l) →
  (length l <= max_entries_per_partition pol)%nat →
  let m' := foldl (restore_entry pid now) m l in
  healthy_manager pol m' ∧
  (∀ k j, (k, j) ∈ l → look m' pid k = restored_cell pol now j) ∧
  (∀ k, k ∉ map fst l → look m' pid k = None) ∧
  (size (entries (ensure_partition pid m')) <= length l)%nat ∧
  ∀ pid', pid' ≠ pid → partitions m' !! pid' = partitions m !! pid'.
Proof.
  intros Hm Hn. induction l as [|[k j] l IH] using rev_ind; intros Hnd Hlen.
  { cbn. split; [done|]. split; [set_solver|]. split; [by intros; unfold look; rewrite Hn|].
    split; [|done]. unfold ensure_partition. by rewrite Hn. }
  rewrite map_app in Hnd. apply NoDup_app in Hnd as (Hnd & Hdisj & _).
  rewrite length_app in *. cbn [length] in *.
  destruct IH as (Hm' & Hin & Hout & Hsize & Hother); [done|lia|]. rewrite foldl_snoc.
  set (m' := foldl (restore_entry pid now) m l) in *.
  assert (k ∉ map fst l) as Hk by (intros Hin'; apply (Hdisj k Hin'); by left).
  destruct (restore_entry_spec pol pid now m' k j Hm' (Hout k Hk) ltac:(lia)) as (Hm2 & Hl & Hs & Ho).
  split; [done|]. split; [|split; [|split; [lia|]]].
  - intros k' j' Hin'. rewrite Hl, String.eqb_refl. apply elem_of_app in Hin' as [Hin'|Hin'].
    + destruct (String.eqb_spec k k') as [->|]; [|by apply Hin].
      exfalso. apply Hk. apply list_elem_of_In, in_map_iff. exists (k', j'). by rewrite <- list_elem_of_In.
    + apply list_elem_of_singleton in Hin' as [= -> ->]. by rewrite String.eqb_refl.
  - intros k' Hk'. rewrite map_app in Hk'. rewrite Hl, String.eqb_refl.
    destruct (String.eqb_spec k k') as [->|]; [set_solver|]. apply Hout. set_solver.
  - intros pid' Hne. rewrite Ho by done. by apply Hother.
Qed.

Lemma restore_all pol now m obj (parts : string -> list (string * Value F)) :
  healthy_manager pol m → NoDup (map fst obj) →
  (∀ pid j, (pid, j) ∈ obj → partitions m !! pid = None ∧ j = Object (parts pid) ∧ NoDup (map fst (parts pid)) ∧
     (length (parts pid) <= max_entries_per_partition pol)%nat) →
  let m' := foldl (restore_partition now) m obj in
  (∀ pid k j, pid ∈ map fst obj → (k, j) ∈ parts pid → look m' pid k = restored_cell pol now j) ∧
  (∀ pid k, pid ∈ map fst obj → k ∉ map fst (parts pid) → look m' pid k = None) ∧
  ∀ pid, pid ∉ map fst obj → partitions m' !! pid = partitions m !! pid.
Proof.
  revert m. induction obj as [|[pid j] obj IH]; intros m Hm Hnd Hobj; [set_solver|].
  cbn in Hnd. apply NoDup_cons in Hnd as [Hni Hnd]. cbn [foldl map fst].
  destruct (Hobj pid j) as (Hn & -> & Hndp & Hlen); [by left|].
  unfold restore_partition at 1 3 5. cbn [snd fst as_object].
  destruct (restore_entries pol pid now m (parts pid) Hm Hn Hndp Hlen) as (Hm1 & Hin & Hout & _ & Hother).
  set (m1 := foldl (restore_entry pid now) m (parts pid)) in *.
  destruct (IH m1 Hm1 Hnd) as (Hin2 & Hout2 & Hother2).
  { intros pid' j' Hj'. destruct (Hobj pid' j') as (Hn' & ? & ? & ?); [by right|].
    split_and!; try done. rewrite Hother; [done|]. intros ->. apply Hni.
    apply list_elem_of_In, in_map_iff. exists (pid, j'). by rewrite <- list_elem_of_In. }
  assert (∀ k, look (foldl (restore_partition now) m1 obj) pid k = look m1 pid k) as Hkeep.
  { intros k. unfold look. by rewrite Hother2. }
  split_and!.
  - intros pid' k j' Hp Hk. destruct (decide (pid' = pid)) as [->|Hne].
    + rewrite Hkeep. by apply Hin.
    + apply Hin2; [set_solver|done].
  - intros pid' k Hp Hk. destruct (decide (pid' = pid)) as [->|Hne].
    + rewrite Hkeep. by apply Hout.
    + apply Hout2; [set_solver|done].
  - intros pid' Hp. rewrite Hother2 by set_solver. apply Hother. set_solver.
Qed.

(** Every entry of a cache whose policy has a time to live has a deadline. *)
Lemma run_timed pol tr pid k x d :
  default_ttl_ms pol = Some d → look (run tr (manager_new pol)) pid k = Some x → is_Some x.2.
Proof.
  intros Hd. revert x. induction tr as [|no tr IH] using rev_ind; intros x Hl; [done|].
  rewrite cache_run_snoc in Hl. apply (op_sound pol) in Hl; [|apply run_healthy].
  assert (∀ v ttl now, is_Some (cell_of pol v ttl now).2) as Hc.
  { intros v [t|] now; unfold cell_of; rewrite ?Hd; by eexists. }
  destruct no as [now op]. destruct op; cbn in Hl; try (by apply IH).
  - destruct (_ && _); [|by apply IH]. injection Hl as <-. apply Hc.
  - destruct (_ && _); [done|by apply IH].
  - destruct (_ && _); [|by apply IH]. destruct (look _ pid k) as [y|] eqn:Hy; [|done].
    destruct (alive now y); [|by apply IH]. injection Hl as <-. by eexists.
  - destruct (_ && _); [|by apply IH]. injection Hl as <-. apply Hc.
  - destruct (String.eqb _ _); [done|by apply IH].
  - destruct (Str.starts_with _ _); [done|by apply IH].
Qed.

(** The entries of a partition as the snapshot lists them. *)
Definition entry_list p : list (string * Value F) :=
  match partition_json p with Object l => l | _ => [] end.

Lemma entry_list_perm p :
  entry_list p ≡ₚ map (fun ke => (ke.1, entry_json (value ke.2) (u64_add (created_at_ms ke.2) <$> ttl_ms ke.2)))
                    (iter_map (entries p)).
Proof.
  unfold entry_list, partition_json, snapshot_entries.
  set (f := fun ke : string * CacheEntry (F := F) => (ke.1, entry_json (value ke.2) (u64_add (created_at_ms ke.2) <$> ttl_ms ke.2))).
  pose proof (fold_map_insert_perm (map f (iter_map (entries p))) []) as Hp. cbn [app] in Hp.
  rewrite <- Hp by (rewrite map_map; apply NoDup_keys). clear Hp.
  generalize (@nil (string * Value F)). induction (iter_map (entries p)) as [|ke l IH]; intros acc; cbn; [done|].
  apply IH.
Qed.

Lemma entry_list_keys p : map fst (entry_list p) ≡ₚ map fst (iter_map (entries p)).
Proof. rewrite entry_list_perm, map_map. done. Qed.

Lemma partition_list_perm m l :
  snapshot_to_json m = Object l →
  l ≡ₚ map (fun kp => (kp.1, partition_json kp.2)) (iter_map (partitions m)).
Proof.
  unfold snapshot_to_json. intros [= <-].
  set (f := fun kp : string * CachePartition (F := F) => (kp.1, partition_json kp.2)).
  pose proof (fold_map_insert_perm (map f (iter_map (partitions m))) []) as Hp. cbn [app] in Hp.
  rewrite <- Hp by (rewrite map_map; apply NoDup_keys). clear Hp.
  generalize (@nil (string * Value F)). induction (iter_map (partitions m)) as [|kp l IH]; intros acc; cbn; [done|].
  apply IH.
Qed.

(** An entry whose deadline fits in 64 bits comes back as it was, unless its
    deadline has come. *)
Lemma restored_entry pol now e ttl :
  ttl_ms e = Some ttl → created_at_ms e + ttl < u64_modulus →
  restored_cell pol now (entry_json (value e) (u64_add (created_at_ms e) <$> ttl_ms e))
  = if created_at_ms e + ttl <=? now then None else Some (meaning e).
Proof.
  intros Ht Hlt. unfold restored_cell, entry_json, meaning. rewrite Ht. cbn [fmap option_fmap option_map Json.get].
  rewrite map_get_insert. cbn [as_u64 of_u64]. rewrite u64_add_small by done.
  rewrite map_get_insert_ne by done. rewrite map_get_insert. cbn [default from_option id].
  destruct (N.leb_spec (created_at_ms e + ttl) now); [done|]. unfold cell_of, saturating_sub. cbn.
  do 3 f_equal. lia.
Qed.

Section Restart.
Context `{!JsonText F} `{!JsonTextLaws F}.

(** The cache survives a restart.  After any sequence of commands (under a
    policy with a time to live, and deadlines that fit in 64 bits), a server that
    starts from the snapshot file reads, at every later instant, exactly what the
    old server would have read. *)
Theorem cache_survives_restart (pol : CacheResiliencePolicy) (tr : list (N * CacheOp)) (audit : AuditLog.AuditState)
    (file : option string) (d now t : N) (pid k : string) :
  let m := run tr (manager_new pol) in
  let old := CacheCommand.persist_cache_snapshot true (CacheCommand.mkServer m file audit) in
  let new := CacheCommand.load_cache_snapshot now
               (CacheCommand.mkServer (manager_new pol) (CacheCommand.snapshot_file old) audit) in
  default_ttl_ms pol = Some d → (0 < max_entries_per_partition pol)%nat →
  (∀ pid k v dl, look m pid k = Some (v, Some dl) → dl < u64_modulus) →
  now < t → read pid k t (CacheCommand.cache new) = read pid k t m.
Proof.
  intros m old new Hd Hpos Hfit Ht. rewrite !read_look. subst new old.
  unfold CacheCommand.load_cache_snapshot. cbn [CacheCommand.snapshot_file CacheCommand.persist_cache_snapshot CacheCommand.cache].
  rewrite from_to_string_pretty. cbn [CacheCommand.cache CacheCommand.set_cache].
  unfold restore_from_json. destruct (snapshot_to_json m) as [| | | | |obj] eqn:Hobj; try done. cbn [as_object].
  pose proof (partition_list_perm m obj Hobj) as Hperm.
  set (parts := fun pid => match partitions m !! pid with Some p => entry_list p | None => [] end).
  assert (∀ pid, pid ∈ map fst obj ↔ is_Some (partitions m !! pid)) as Hpids.
  { intros pid'. rewrite Hperm, map_map. cbn. rewrite list_elem_of_In, in_map_iff. split.
    - intros ([q p] & <- & Hin). apply list_elem_of_In, elem_of_iter in Hin. cbn. by rewrite Hin.
    - intros [p Hp]. exists (pid', p). split; [done|]. by apply list_elem_of_In, elem_of_iter. }
  destruct (restore_all pol now (manager_new pol) obj parts) as (Hin & Hout & Hother).
  { by split. }
  { rewrite Hperm, map_map. apply NoDup_keys. }
  { intros pid' j Hj. rewrite Hperm in Hj. apply list_elem_of_In, in_map_iff in Hj as ([q p] & [= -> <-] & Hq).
    apply list_elem_of_In, elem_of_iter in Hq. unfold parts. rewrite Hq. split_and!; try done.
    - rewrite entry_list_keys. apply NoDup_keys.
    - rewrite <- (length_map fst), entry_list_keys, length_map, iter_map_perm, length_map_to_list.
      by eapply run_within. }
  set (m' := foldl (restore_partition now) (manager_new pol) obj) in *.
  destruct (partitions m !! pid) as [p|] eqn:Hp.
  2: { unfold look. rewrite Hp, Hother; [done|]. rewrite Hpids, Hp. by intros [? ?]. }
  assert (pid ∈ map fst obj) as Hpid by (rewrite Hpids, Hp; by eexists).
  assert (parts pid = entry_list p) as Hparts by (unfold parts; by rewrite Hp).
  destruct (entries p !! k) as [e|] eqn:He.
  - assert (look m pid k = Some (meaning e)) as Hl.
    { rewrite (look_partition _ _ _ _ Hp). unfold abs. by rewrite lookup_fmap, He. }
    destruct (run_timed pol tr pid k _ d Hd Hl) as [dl Hdl]. unfold meaning in Hdl. cbn in Hdl.
    destruct (ttl_ms e) as [ttl|] eqn:Httl; [|done]. injection Hdl as Hdl.
    assert (created_at_ms e + ttl < u64_modulus) as Hlt.
    { apply (Hfit pid k (value e)). rewrite Hl. unfold meaning. by rewrite Httl. }
    rewrite (Hin pid k (entry_json (value e) (u64_add (created_at_ms e) <$> ttl_ms e))), (restored_entry pol now e ttl), Hl;
      [|done..|].
    + destruct (N.leb_spec (created_at_ms e + ttl) now) as [Hle|]; [|done]. cbn. unfold alive, meaning.
      rewrite Httl. cbn. destruct (N.leb_spec t (created_at_ms e + ttl)); [lia|done].
    + rewrite Hparts, entry_list_perm. apply list_elem_of_In, in_map_iff. exists (k, e). split; [done|].
      by apply list_elem_of_In, elem_of_iter.
  - rewrite Hout; [|done|].
    + rewrite (look_partition _ _ _ _ Hp). unfold abs. by rewrite lookup_fmap, He.
    + rewrite Hparts, entry_list_keys. rewrite list_elem_of_In, in_map_iff.
      intros ([k' e] & Hk' & Hin'). cbn in Hk'. subst k'. apply list_elem_of_In, elem_of_iter in Hin'. congruence.
Qed.
End Restart.

(** ** Commands on lists and sets *)

Import CacheCommand.

Lemma lrange_lookup {A} (start stop : Z) (l : list A) (j : nat) :
  let len := Z.of_nat (length l) in
  let position (i : Z) := if (i <? 0)%Z then (len + i)%Z else i in
  let first := Z.max 0 (position start) in
  (- len <= stop)%Z →
  lrange start stop l !! j
  = if (first + Z.of_nat j <=? position stop)%Z then l !! (Z.to_nat first + j)%nat else None.
Proof.
  intros len position first Hstop. unfold lrange. fold len.
  assert (resolve len start = Z.to_nat (Z.min first len)) as ->.
  { unfold resolve, first, position. destruct (Z.ltb_spec start 0); lia. }
  assert (Nat.min (resolve len stop + 1) (length l) = Z.to_nat (Z.min (position stop + 1) len)) as ->.
  { unfold resolve, position. destruct (Z.ltb_spec stop 0); lia. }
  assert (0 <= first)%Z as Hf by lia.
  assert (0 <= position stop + 1)%Z as Hs by (unfold position; destruct (Z.ltb_spec stop 0); lia).
  assert (∀ i, (length l <= i)%nat → l !! i = None) as Hout by apply lookup_ge_None_2.
  destruct (Nat.ltb_spec (Z.to_nat (Z.min first len)) (Z.to_nat (Z.min (position stop + 1) len))) as [Hlt|Hge].
  - destruct (Z.leb_spec (first + Z.of_nat j) (position stop)).
    + destruct (decide (j < Z.to_nat (Z.min (position stop + 1) len) - Z.to_nat (Z.min first len))%nat) as [Hj|Hj].
      * rewrite lookup_take_lt, lookup_drop by lia. f_equal. lia.
      * rewrite lookup_take_ge by lia. symmetry. apply Hout. lia.
    + apply lookup_take_ge. lia.
  - destruct (Z.leb_spec (first + Z.of_nat j) (position stop)); [|by destruct j].
    rewrite Hout by lia. by destruct j.
Qed.

(** LRANGE follows Redis when its end does not lie before the list: position
    [j] of the answer is the element that far after the start, up to the end
    included, where negative positions count from the end of the list. *)
Theorem lrange_follows_redis {A} (start stop : Z) (l : list A) (j : nat) :
  let len := Z.of_nat (length l) in
  let position (i : Z) := if (i <? 0)%Z then (len + i)%Z else i in
  let first := Z.max 0 (position start) in
  (- len <= stop)%Z →
  lrange start stop l !! j
  = if (first + Z.of_nat j <=? position stop)%Z then l !! (Z.to_nat first + j)%nat else None.
Proof. apply lrange_lookup. Qed.

Context `{!JsonText F} `{!EventText} `{!TokenCrypto} `{!HeaderText}.
Context (pol : CacheResiliencePolicy) (pid key : string).

(** The array stored under the key. *)
Definition array_at (now : N) (s : CacheServer (F := F)) : list (Value F) :=
  match readable now (look (cache s) pid key) with Some (Array l) => l | _ => [] end.

Definition healthy_server (s : CacheServer (F := F)) : Prop := healthy_manager pol (cache s).

Lemma read_array_spec req now s :
  q_key req = Some key → healthy_server s →
  (read_array pid req now s).1 = array_at now s ∧ healthy_server (read_array pid req now s).2.
Proof.
  intros Hk Hh. unfold read_array, read_value, key_of, array_at. rewrite Hk. cbn [default from_option id].
  pose proof (read_look pid key now (cache s)) as Hr. unfold read in Hr.
  pose proof (healthy_op pol now (OGet pid key) (cache s) Hh) as Hh'. cbn [apply_op] in Hh'.
  destruct (manager_get pid key now (cache s)) as [r m]. cbn in *. by rewrite <- Hr.
Qed.

Lemma write_array_spec req now l s t :
  healthy_server s → t <= now + default 0 (match q_ttl_ms req with Some x => Some x | None => default_ttl_ms pol end) →
  array_at t (write_value pid req now key (Array l) s) = l ∧ healthy_server (write_value pid req now key (Array l) s).
Proof.
  intros Hh Ht. unfold write_value, array_at, healthy_server. cbn [cache set_cache]. split.
  - rewrite (look_write pol), !String.eqb_refl by done. unfold cell_of. cbn. unfold alive. cbn.
    destruct (match q_ttl_ms req with Some x => Some x | None => default_ttl_ms pol end) as [x|]; [|done]. cbn in *.
    by rewrite (proj2 (N.leb_le _ _) Ht).
  - exact (healthy_op pol now (OSet pid key (Array l) (q_ttl_ms req)) (cache s) Hh).
Qed.

(** A command that adds one value to the array under the key. *)
Inductive ArrayCommand := Lpush | Rpush | Sadd.

Definition array_name (c : ArrayCommand) : string :=
  match c with Lpush => "LPUSH" | Rpush => "RPUSH" | Sadd => "SADD" end.

Definition array_request (c : ArrayCommand) (v : Value F) : RedisCacheCommandRequest (F := F) :=
  mkReq (array_name c) (Some key) (Some v) (Some pid) None None None None None None None.

Definition array_effect (c : ArrayCommand) (v : Value F) (l : list (Value F)) : list (Value F) :=
  match c with
  | Lpush => v :: l
  | Rpush => l ++ [v]
  | Sadd => if contains l v then l else l ++ [v]
  end.

Lemma array_command now c v written s t ttl :
  healthy_server s → default_ttl_ms pol = Some ttl → t <= now + ttl →
  let s' := (run_command (array_name c) pid (array_request c v) now written s).2 in
  healthy_server s' ∧ array_at t s' = array_effect c v (array_at now s).
Proof.
  intros Hh Hd Ht. cbn zeta.
  destruct (read_array_spec (array_request c v) now s eq_refl Hh) as [Hr Hh'].
  assert (∀ l s', healthy_server s' →
    healthy_server (write_value pid (array_request c v) now key (Array l) s') ∧
    array_at t (write_value pid (array_request c v) now key (Array l) s') = l) as Hw.
  { intros l s' Hs'. apply and_comm, write_array_spec; [done|]. cbn. by rewrite Hd. }
  destruct c; cbn [array_name run_command String.eqb Ascii.eqb Bool.eqb andb]; unfold cmd_lpush, cmd_rpush, cmd_sadd;
    destruct (read_array pid _ now s) as [l s1]; cbn in Hr, Hh'; subst l; cbn [snd fst]; try by apply Hw.
  cbn [array_effect]. unfold value_of. cbn [array_request q_value default from_option id].
  destruct (contains (array_at now s) v); cbn [negb snd fst]; by apply Hw.
Qed.

(** Commands at their times, each while what the last one left can be read. *)
Fixpoint prompt (ttl last : N) (cs : list (N * ArrayCommand * Value F)) (end_ : N) : bool :=
  match cs with
  | [] => end_ <=? last + ttl
  | (now, _, _) :: cs => (now <=? last + ttl) && prompt ttl now cs end_
  end.

Definition send_all (written : bool) (cs : list (N * ArrayCommand * Value F)) (s : CacheServer) : CacheServer :=
  foldl (fun s '(now, c, v) => (run_command (array_name c) pid (array_request c v) now written s).2) s cs.

Lemma send_all_array written cs s ttl now0 t :
  default_ttl_ms pol = Some ttl → healthy_server s →
  (∀ t', t' <= now0 + ttl → array_at t' s = array_at now0 s) →
  prompt ttl now0 cs t = true →
  array_at t (send_all written cs s) = foldl (fun l '(_, c, v) => array_effect c v l) (array_at now0 s) cs.
Proof.
  intros Hd. revert s now0. induction cs as [|[[now c] v] cs IH]; intros s now0 Hh Hst Hp.
  { apply Hst, N.leb_le, Hp. }
  cbn in Hp. apply andb_true_iff in Hp as [Hn%N.leb_le Hp].
  cbn [send_all foldl]. fold (send_all written cs (run_command (array_name c) pid (array_request c v) now written s).2).
  assert (∀ t', t' <= now + ttl →
    array_at t' (run_command (array_name c) pid (array_request c v) now written s).2
    = array_effect c v (array_at now s)) as Hat by (intros t' Ht'; by apply (array_command now c v written s t' ttl)).
  rewrite (IH _ now).
  - rewrite Hat by lia. by rewrite Hst.
  - by apply (array_command now c v written s now ttl); [| |lia].
  - intros t' Ht'. rewrite !Hat by lia. done.
  - done.
Qed.

(** Lists and sets hold what was pushed.  When nothing is stored under a key,
    any sequence of LPUSH, RPUSH and SADD commands on it, each sent before what the
    last one wrote expires, makes SMEMBERS and the whole LRANGE answer with the
    values in the order the commands put them, members of SADD at most once. *)
Theorem array_commands_accumulate (written : bool) (cs : list (N * ArrayCommand * Value F)) (s : CacheServer)
    (ttl now0 t : N) :
  default_ttl_ms pol = Some ttl → healthy_server s → look (cache s) pid key = None →
  prompt ttl now0 cs t = true →
  let expected := foldl (fun l '(_, c, v) => array_effect c v l) [] cs in
  let ask (c : string) := (run_command c pid (mkReq c (Some key) None (Some pid) None None None None None None None)
                             t written (send_all written cs s)).1 in
  ask "SMEMBERS" = Some (ok_value "SMEMBERS" (Some (Array expected))) ∧
  ask "LRANGE" = Some (ok_value "LRANGE" (Some (Array expected))).
Proof.
  intros Hd Hh Hn Hp. cbn zeta.
  assert (∀ t', array_at t' s = []) as Hnil by (intros t'; unfold array_at; by rewrite Hn).
  pose proof (send_all_array written cs s ttl now0 t Hd Hh (fun t' _ => eq_trans (Hnil t') (eq_sym (Hnil now0))) Hp) as Ha.
  rewrite Hnil in Ha.
  assert (healthy_server (send_all written cs s)) as Hh'.
  { clear - Hh Hd. unfold send_all. revert s Hh. induction cs as [|[[now c] v] cs IH]; intros s Hh; [done|]. cbn.
    apply IH. by apply (array_command now c v written s now ttl); [| |lia]. }
  set (l := foldl _ [] cs) in *.
  assert (∀ c, (read_array pid (mkReq c (Some key) None (Some pid) None None None None None None None) t
                  (send_all written cs s)).1 = l) as Hr.
  { intros c. rewrite <- Ha. by apply read_array_spec. }
  split; cbn [run_command String.eqb Ascii.eqb Bool.eqb andb]; unfold cmd_smembers, cmd_lrange.
  - specialize (Hr "SMEMBERS"). destruct (read_array pid _ t _) as [l' s']. cbn in *. by subst l'.
  - specialize (Hr "LRANGE"). destruct (read_array pid _ t _) as [l' s']. cbn in Hr. subst l'. cbn [fst].
    do 3 f_equal. cbn [q_start q_stop default from_option id].
    f_equal. apply list_eq. intros j. pose proof (lrange_lookup 0 (-1) l j) as Hl.
    destruct (decide (length l = 0)%nat) as [Hz|Hz].
    + apply nil_length_inv in Hz. by rewrite Hz.
    + rewrite Hl by lia. change (-1 <? 0)%Z with true. change (0 <? 0)%Z with false. cbv iota. destruct (Z.leb_spec (Z.max 0 0 + Z.of_nat j) (Z.of_nat (length l) + -1)).
      * f_equal.
      * symmetry. apply lookup_ge_None_2. lia.
Qed.
End Props.

(** ** Instances and examples *)

#[export] Instance list_map_order : CacheOrder.
Proof. by refine {| iter_map := fun A m => map_to_list m |}. Defined.

(** Integers for floats. *)
#[export] Instance z_f64 : F64 Z := {
  f64_parse := parse_i64;
  f64_cmp := fun a b => Some (Z.compare a b);
  f64_of_i64 := fun z => z;
  f64_of_u64 := Z.of_N;
  f64_neg := Z.opp;
  f64_add := Z.add;
  f64_div := Z.div;
  f64_zero := 0%Z;
  f64_fract_zero := fun _ => true;
  f64_to_i64 := fun z => z;
  f64_to_string := i64_to_string;
}.

#[export] Instance z_finite : F64Finite Z := {| f64_is_finite := fun _ => true |}.

Section Examples.
Import CacheCommand.
#[local] Existing Instance code_text.
#[local] Existing Instance code_text_laws.
#[local] Instance plain_headers : HeaderText := {| to_str := Some |}.
#[local] Instance plain_lines : EventText := {| event_line := fun e => Some (Audit.chain_hash e) |}.
#[local] Instance toy_crypto : TokenCrypto :=
  {| hmac_sha256 := fun _ d => d; sha256_hex := fun t => t; b64_encode := fun s => s; b64_decode := Some |}.

(** Room for two entries, one second to live. *)
Definition small : CacheResiliencePolicy := mkPolicy Lru (Some 1000) 2 5 30000.

Definition no_audit : AuditLog.AuditState := AuditLog.mkAudit Audit.new None.

Lemma cache_reads_last_write_witness :
  let tr := [(1, OSet "p" "a" (Text "x") None); (2, OIncr "p" "a" 5%Z None)] in
  read "p" "a" 1002 (run tr (manager_new small)) = Some (Number (Float 5%Z)) ∧
  read "p" "a" 1003 (run tr (manager_new small)) = None.
Proof.
  intros tr. split.
  - rewrite (proj2 (cache_reads_last_write small tr "p" "a" 1002)); [reflexivity..|]. apply Nat.ltb_lt. reflexivity.
  - rewrite (proj2 (cache_reads_last_write small tr "p" "a" 1003)); [reflexivity..|]. apply Nat.ltb_lt. reflexivity.
Defined.

Lemma cache_within_capacity_witness :
  let m := run [(1, OSet "p" "a" (F := Z) Null None); (2, OSet "p" "b" Null None); (3, OSet "p" "c" Null None)]
             (manager_new small) in
  ∃ p, partitions m !! "p" = Some p ∧ (size (entries p) <= 2)%nat.
Proof.
  intros m. eexists. split; [reflexivity|].
  apply (cache_within_capacity small
           [(1, OSet "p" "a" (F := Z) Null None); (2, OSet "p" "b" Null None); (3, OSet "p" "c" Null None)] "p").
  - apply Nat.ltb_lt. reflexivity.
  - reflexivity.
Defined.

Lemma cache_survives_restart_witness :
  let m := run [(1, OSet "p" "a" (F := Z) (Text "x") None)] (manager_new small) in
  let file := Some (to_string_pretty (snapshot_to_json m)) in
  read "p" "a" 600 (cache (load_cache_snapshot 500 (mkServer (manager_new small) file no_audit))) = Some (Text "x").
Proof.
  intros m file.
  etransitivity.
  - apply (cache_survives_restart small [(1, OSet "p" "a" (F := Z) (Text "x") None)] no_audit None 1000 500 600 "p" "a");
      [reflexivity|apply Nat.ltb_lt; reflexivity| |reflexivity].
    intros pid k v dl Hl. apply (op_sound small 1 (OSet "p" "a" (Text "x") None)) in Hl; [|by split].
    cbn in Hl. destruct (_ && _); [|done]. injection Hl as <- <-. reflexivity.
  - reflexivity.
Defined.

Lemma lrange_follows_redis_witness :
  lrange 1 (-1) ["a"; "b"; "c"] !! 1%nat = Some "c".
Proof. rewrite (lrange_follows_redis 1 (-1) ["a"; "b"; "c"] 1); [reflexivity|]. cbn. lia. Defined.

Lemma array_commands_accumulate_witness :
  let s := mkServer (manager_new (F := Z) small) None no_audit in
  let cs := [(1, Rpush, Text "x"); (2, Lpush, Text "y"); (3, Sadd, Text "x")] in
  (run_command "SMEMBERS" "p" (mkReq "SMEMBERS" (Some "k") None (Some "p") None None None None None None None)
     4 true (send_all "p" "k" true cs s)).1
  = Some (ok_value "SMEMBERS" (Some (Array [Text "y"; Text "x"]))).
Proof.
  intros s cs. etransitivity.
  - refine (proj1 (array_commands_accumulate small "p" "k" true cs s 1000 0 4 _ _ _ _)); [reflexivity|by split|reflexivity..].
  - reflexivity.
Defined.

(** *** Where the code departs from what it means to do *)

(** Overwriting a key of a full partition evicts another key. *)
Lemma overwrite_evicts_other_key :
  let tr := [(1, OSet "p" "a" (F := Z) Null None); (2, OSet "p" "b" Null None); (3, OSet "p" "b" Null None)] in
  read "p" "a" 4 (run tr (manager_new small)) = None ∧ readable 4 (ideal small tr "p" "a") = Some Null.
Proof. split; by vm_compute. Qed.

(** A list range that ends before the list answers with its first element. *)
Lemma lrange_before_list : lrange 0 (-4) ["a"; "b"; "c"] = ["a"].
Proof. reflexivity. Qed.

(** FLUSH does not write the snapshot: the flushed entries are back after a
    restart. *)
Lemma flushed_entries_return :
  let s := mkServer (manager_new (F := Z) small) None no_audit in
  let req c v := mkReq c (Some "k") v (Some "p") None None None None None None None in
  let s := (run_command "SET" "p" (req "SET" (Some (Text "x"))) 1 true s).2 in
  let s := (run_command "FLUSH" "p" (req "FLUSH" None) 2 true s).2 in
  read "p" "k" 3 (cache s) = None ∧
  read "p" "k" 5 (cache (load_cache_snapshot 4 (mkServer (manager_new small) (snapshot_file s) no_audit)))
    = Some (Text "x").
Proof. split; by vm_compute. Qed.

(** An expired key can still be deleted. *)
Lemma expired_key_deleted :
  let s := mkServer (run [(1, OSet "p" "k" (F := Z) Null (Some 10))] (manager_new small)) None no_audit in
  read "p" "k" 50 (cache s) = None ∧
  removed <$> (run_command "DEL" "p" (mkReq "DEL" (Some "k") None (Some "p") None None None None None None None)
                 50 true s).1 = Some (Some true).
Proof. split; by vm_compute. Qed.
End Examples.
