(* ===== verification/DataPlane.v ===== *)
(** * Sharding and the data plane between nodes
      ([crates/voltnuerongrid-core/src/sharding.rs],
      [services/voltnuerongridd/src/helpers/dataplane.rs], [handlers/dataplane.rs],
      the HTAP handlers of [handlers/store.rs])

    The shard of a key and its owner, the shipping of committed mutations to the
    analytic replicas of the other nodes, the local replica, and the merge of
    partial query results. *)

From S2P Require Import Prelude Str Decimal SqlKind Mvcc Select HtapSync AuditChain Auth UserStore AccessControl.
Local Open Scope string_scope.
Local Open Scope list_scope.
Local Open Scope N_scope.
Local Open Scope vng_scope.

(** [serde_json::from_str::<HashMap<String, String>>] *)
Class PayloadText := { parse_payload : string -> option (gmap string string) }.

Module DataPlane.
Import SqlKind HtapSync Auth UserStore Access.

(** ** Shards *)

Definition fnv1a_hash (s : string) : N := Audit.fnv Audit.FNV_OFFSET s.

Inductive ShardKey := Hash (column : string) | Range (column : string) (min max : Z) | RoundRobin.

Record ShardConfig := mkShardConfig { shard_count : nat; replication_factor : nat; key : ShardKey }.

(** [ShardRouter::new] panics without shards. *)
Definition router_new (c : ShardConfig) : option ShardConfig :=
  if (0 <? shard_count c)%nat then Some c else None.

Definition shard_for_row (row_key : string) (c : ShardConfig) : nat :=
  N.to_nat (fnv1a_hash row_key mod N.of_nat (shard_count c)).

Definition all_shards (c : ShardConfig) : list nat := seq 0 (shard_count c).

Definition shards_for_range (min max : Z) (c : ShardConfig) : list nat :=
  match key c with
  | Range _ shard_min shard_max =>
      if ((max <? shard_min) || (shard_max <? min))%Z then [] else all_shards c
  | _ => all_shards c
  end.

Record ShardTableConfig := mkShardTable { column : string; table_shards : nat }.

(** The number after the first [shards] of the words. *)
Fixpoint shards_word (ws : list string) : option string :=
  match ws with
  | a :: ((b :: _) as r) => if String.eqb a "shards" then Some b else shards_word r
  | _ => None
  end.

Definition usize_max : N := u64_max.

Definition parse_distribute_by (ddl : string) (default_shards : nat) : option ShardTableConfig :=
  let lower := to_ascii_lowercase ddl in
  let! (_, after) := Str.split_once "distribute by" lower in
  let! (_, rest) := Str.split_once "hash" after in
  let! (_, inner) := Str.split_once "(" rest in
  let! (col, tail) := Str.split_once ")" inner in
  let col := Str.trim col in
  if String.eqb col "" then None
  else
    let n :=
      let! w := shards_word (SqlKind.split_whitespace tail) in
      let! n := Dec.parse usize_max (Str.trim_end_matches [","; ";"; ")"] w) in
      if 0 <? n then Some (N.to_nat n) else None in
    Some (mkShardTable col (default default_shards n)).

Definition shard_for_key (shard_count : nat) (k : string) : nat :=
  if (shard_count <=? 1)%nat then 0%nat else N.to_nat (fnv1a_hash k mod N.of_nat shard_count).

Definition owning_node_index (shard_id node_count : nat) : nat :=
  if (node_count =? 0)%nat then 0%nat else (shard_id mod node_count)%nat.

Definition ShardRegistry := gmap string ShardTableConfig.

Definition register_shard_config (table : string) (c : ShardTableConfig) (r : ShardRegistry) : ShardRegistry :=
  <[to_ascii_lowercase table := c]> r.

Definition lookup_shard_config (table : string) (r : ShardRegistry) : option ShardTableConfig :=
  r !! to_ascii_lowercase table.

(** An analytic replica: rows by key; and the replicas of the peers, by address. *)
Abbreviation OlapStore := (gmap string (gmap string string)).
Abbreviation Peers := (gmap string (gmap string (gmap string string))).

(** ** Who may call *)

Section Plane.
Context `{!TokenCrypto} `{!HeaderText} `{!PayloadText}.

Definition bearer (h : gmap string string) : option string :=
  let! v := header h "authorization" in Str.strip_prefix "Bearer " v.

Definition require_cluster_token (h : gmap string string) (cluster_token admin_key : option string) : bool :=
  let token_ok :=
    match cluster_token with
    | Some expected => negb (String.eqb expected "") && bool_decide (bearer h = Some expected)
    | None => false
    end in
  token_ok ||
  match admin_key with
  | Some expected => match header h "x-vng-admin-key" with Some k => String.eqb k expected | None => false end
  | None => false
  end.

(** The check of [htap_pull_sync]. *)
Definition htap_pull_allowed (h : gmap string string) (cluster_token admin_key : option string) : bool :=
  match cluster_token with
  | Some expected => String.eqb expected "" || bool_decide (bearer h = Some expected)
  | None => true
  end ||
  match admin_key with
  | Some expected => match header h "x-vng-admin-key" with Some k => String.eqb k expected | None => false end
  | None => true
  end.

(** ** Shard endpoints *)

Record ShardRoute := mkRoute { sharded : bool; shard_id : nat; owner : nat; is_local : bool }.

Definition cluster_shard_route (peers : list string) (table primary_key : string) (r : ShardRegistry) : ShardRoute :=
  match lookup_shard_config table r with
  | None => mkRoute false 0 0 true
  | Some cfg =>
      let s := shard_for_key (table_shards cfg) primary_key in
      let o := owning_node_index s (1 + length peers) in
      mkRoute true s o (o =? 0)%nat
  end.

(** One row of the local store; a shard out of range panics. *)
Definition count_row (prefix : string) (shards : nat) (counts : list nat) (k : string) : option (list nat) :=
  match Str.strip_prefix prefix k with
  | Some pk =>
      let s := shard_for_key shards pk in
      let! n := counts !! s in Some (<[s := S n]> counts)
  | None => Some counts
  end.

Fixpoint count_rows (prefix : string) (shards : nat) (counts : list nat) (ks : list string) : option (list nat) :=
  match ks with
  | [] => Some counts
  | k :: ks => let! counts := count_row prefix shards counts k in count_rows prefix shards counts ks
  end.

(** Owners and row counts of the shards of a table; [None] is a panic. *)
Definition cluster_shard_info (peers : list string) (table : string) (rs : RowStore.PagedRowStore) (r : ShardRegistry)
    : option (option (list nat * list nat)) :=
  match lookup_shard_config table r with
  | None => Some None
  | Some cfg =>
      let owners := map (fun s => owning_node_index s (1 + length peers)) (seq 0 (table_shards cfg)) in
      let prefix := to_ascii_lowercase table +:+ ":" in
      let ks := map fst (RowStore.scan_at_snapshot (RowStore.current_xid rs) rs) in
      let! counts := count_rows prefix (table_shards cfg) (replicate (table_shards cfg) 0%nat) ks in
      Some (Some (owners, counts))
  end.

(** ** Analytic replicas *)

Record ReplicatedMutation := mkRep {
  r_sequence : N;
  r_table : string;
  r_primary_key : string;
  r_payload_json : string;
  r_op : string;
}.

Definition op_enum (m : ReplicatedMutation) : MutationOp :=
  if String.eqb (r_op m) "delete" then Delete
  else if String.eqb (r_op m) "update" then Update
  else Insert.

Definition op_str (o : MutationOp) : string :=
  match o with Insert => "insert" | Update => "update" | Delete => "delete" end.

(** The row that a payload stands for. *)
Definition payload_row (payload : string) : gmap string string :=
  match parse_payload payload with Some d => d | None => {["payload" := payload]} end.

Definition apply_one (o : MutationOp) (k payload : string) (olap : OlapStore) : OlapStore :=
  match o with
  | Insert | Update => <[k := payload_row payload]> olap
  | Delete => delete k olap
  end.

Definition apply_htap_mutations_to_olap (ms : list ReplicatedMutation) (olap : OlapStore) : (nat * N) * OlapStore :=
  foldl (fun '(n, last, olap) m =>
           (S n, N.max last (r_sequence m), apply_one (op_enum m) (r_primary_key m) (r_payload_json m) olap))
    (0%nat, 0, olap) ms.

(** [store_htap_apply]: an unknown operation is skipped. *)
Definition store_htap_apply (ms : list ReplicatedMutation) (olap : OlapStore) : (nat * N) * OlapStore :=
  foldl (fun '(n, last, olap) m =>
           let last := N.max last (r_sequence m) in
           if String.eqb (r_op m) "insert" || String.eqb (r_op m) "update" then
             (S n, last, <[r_primary_key m := payload_row (r_payload_json m)]> olap)
           else if String.eqb (r_op m) "delete" then (S n, last, delete (r_primary_key m) olap)
           else (n, last, olap))
    (0%nat, 0, olap) ms.

Definition to_replicated (m : RowMutation) : ReplicatedMutation :=
  mkRep (sequence m) (table m) (primary_key m) (payload_json m) (op_str (op m)).

(** [store_htap_export] and [htap_pull_sync] answer with a segment of the
    pending mutations and a sequence number. *)
Definition store_htap_export (since : option N) (max_items : option nat) (o : RowStoreSyncOrigin)
    : list ReplicatedMutation * N :=
  (map to_replicated (export_since (default 0 since) (Nat.min (default 500%nat max_items) 5000) o),
   last_sequence (checkpoint o)).

Definition htap_pull_sync (since : option N) (max_items : option nat) (o : RowStoreSyncOrigin)
    : list ReplicatedMutation * N :=
  let since := default 0 since in
  let batch := export_since since (Nat.min (default 1000%nat max_items) 10000) o in
  (map to_replicated batch, default since (sequence <$> last batch)).

(** One node: the mutations it numbered, what each peer was shipped, its replica. *)
Record Node := mkNode {
  sync_origin : RowStoreSyncOrigin;
  htap_peer_cursors : gmap string N;
  olap_store : OlapStore;
}.

Definition htap_batch_for_peer (peer : string) (max_items : nat) (n : Node) : list ReplicatedMutation * N :=
  let cursor := default 0 (htap_peer_cursors n !! peer) in
  let batch := map to_replicated (export_since cursor max_items (sync_origin n)) in
  (batch, default cursor (r_sequence <$> last batch)).

Definition advance_htap_peer_cursor (peer : string) (last_seq : N) (n : Node) : Node :=
  if last_seq =? 0 then n
  else
    let cur := default 0 (htap_peer_cursors n !! peer) in
    mkNode (sync_origin n) (<[peer := if cur <? last_seq then last_seq else cur]> (htap_peer_cursors n))
      (olap_store n).

(** What became of a request to a peer: lost, applied with the answer lost, or
    applied and answered with success. *)
Inductive Delivery := Lost | Unanswered | Answered.

Definition peer_olap (p : string) (ps : Peers) : OlapStore := default ∅ (ps !! p).

(** One iteration of [fanout_htap_to_peers]: the batch and the outcome of sending
    it. *)
Definition ship (d : Delivery) (peer : string) (st : nat * Node * Peers) : nat * Node * Peers :=
  let '(updated, n, ps) := st in
  let '(batch, last_seq) := htap_batch_for_peer peer 1000 n in
  match batch, d with
  | [], _ | _, Lost => st
  | _, Unanswered =>
      (updated, n, <[peer := (apply_htap_mutations_to_olap batch (peer_olap peer ps)).2]> ps)
  | _, Answered =>
      (S updated, advance_htap_peer_cursor peer last_seq n,
       <[peer := (apply_htap_mutations_to_olap batch (peer_olap peer ps)).2]> ps)
  end.

Definition fanout_htap_to_peers (outcome : string -> Delivery) (peers : list string) (n : Node) (ps : Peers)
    : nat * Node * Peers :=
  foldl (fun st peer => ship (outcome peer) peer st) (0%nat, n, ps) peers.

(** Every pending mutation goes to the local replica and is acknowledged. *)
Definition htap_force_sync (n : Node) : nat * Node :=
  let batch := pending (sync_origin n) in
  let '(applied, last_seq, olap) :=
    foldl (fun '(k, last, olap) m =>
             (S k, N.max last (sequence m), apply_one (op m) (primary_key m) (payload_json m) olap))
      (0%nat, 0, olap_store n) batch in
  let o := if 0 <? last_seq then ack_through last_seq (sync_origin n) else sync_origin n in
  (applied, mkNode o (htap_peer_cursors n) olap).

(** ** Partial results *)

Record OlapSubtaskResult := mkPartial { node_id : string; p_rows : nat; elapsed_ms : N; data_source : string }.

Record DistributedOlapResult := mkDistributed {
  total_rows : nat; partitions : nat; per_node : list OlapSubtaskResult; local_fallback : bool;
}.

Definition merge_olap_partials (partials : list OlapSubtaskResult) (local_fallback : bool) : DistributedOlapResult :=
  let partials := Select.sort_by (fun a b => String.compare (node_id a) (node_id b)) partials in
  mkDistributed (foldr (fun p n => (p_rows p + n)%nat) 0%nat partials) (length partials) partials local_fallback.

(** [answers]: what each peer returned, if it did. *)
Definition gather_distributed_olap (local : OlapSubtaskResult) (answers : list (option OlapSubtaskResult))
    : DistributedOlapResult :=
  match answers with
  | [] => merge_olap_partials [local] true
  | _ =>
      let got := omap id answers in
      merge_olap_partials (local :: got) (match got with [] => true | _ => false end)
  end.
End Plane.
End DataPlane.
