(* ===== verification/DataPlaneProps.v ===== *)
(** * Theorems on sharding and the data plane

    Shipping mutations to a peer at least once makes its replica a replay of a
    prefix of the history that reaches its cursor, whatever requests and answers
    are lost; the local replica catches up with a forced sync; every row is
    counted in exactly its shard. *)

From S2P Require Import Prelude Str SqlKind Mvcc MvccSpec RaftApply Select SelectProps Flush FlushProps.
From S2P Require Import HtapSync AuditChain Auth UserStore AccessControl DataPlane.
Local Open Scope string_scope.
Local Open Scope list_scope.
Local Open Scope N_scope.

Import HtapSync DataPlane.

Section Replicas.
Context `{!PayloadText}.

(** ** Replaying mutations *)

Definition apply_mutation (olap : OlapStore) (m : RowMutation) : OlapStore :=
  apply_one (op m) (primary_key m) (payload_json m) olap.

Definition replay_from (olap : OlapStore) (ms : list RowMutation) : OlapStore := foldl apply_mutation olap ms.

Definition replay : list RowMutation -> OlapStore := replay_from ∅.

(** What a mutation leaves under its key. *)
Definition leaves (m : RowMutation) : option (gmap string string) :=
  match op m with Delete => None | _ => Some (payload_row (payload_json m)) end.

(** What the last mutation of a key leaves, if there is one. *)
Fixpoint effect (ms : list RowMutation) (k : string) : option (option (gmap string string)) :=
  match ms with
  | [] => None
  | m :: ms =>
      match effect ms k with
      | Some r => Some r
      | None => if String.eqb (primary_key m) k then Some (leaves m) else None
      end
  end.

Lemma lookup_apply olap m k :
  apply_mutation olap m !! k = if String.eqb (primary_key m) k then leaves m else olap !! k.
Proof.
  unfold apply_mutation, apply_one, leaves. destruct (String.eqb_spec (primary_key m) k) as [->|Hne];
    destruct (op m); by rewrite ?lookup_insert_eq, ?lookup_delete_eq, ?lookup_insert_ne, ?lookup_delete_ne.
Qed.

Lemma lookup_replay_from olap ms k :
  replay_from olap ms !! k = match effect ms k with Some r => r | None => olap !! k end.
Proof.
  revert olap. induction ms as [|m ms IH]; intros olap; [done|]. cbn. unfold replay_from in IH. rewrite IH.
  destruct (effect ms k); [done|]. rewrite lookup_apply. by destruct (String.eqb (primary_key m) k).
Qed.

Lemma effect_app a b k : effect (a ++ b) k = match effect b k with Some r => Some r | None => effect a k end.
Proof.
  induction a as [|m a IH]; cbn; [by destruct (effect b k)|]. rewrite IH. by destruct (effect b k).
Qed.

Lemma plane_replay_snoc ms m : replay (ms ++ [m]) = apply_mutation (replay ms) m.
Proof. unfold replay, replay_from. by rewrite foldl_snoc. Qed.

Lemma plane_replay_app a b : replay (a ++ b) = replay_from (replay a) b.
Proof. unfold replay, replay_from. by rewrite foldl_app. Qed.

(** Sending a segment again that starts before the end of what was applied, and
    does not end before it, is as good as sending what is missing. *)
Lemma replay_again h c n n' :
  (c <= n)%nat → (n <= n')%nat →
  replay_from (replay (take n h)) (take (n' - c) (drop c h)) = replay (take n' h).
Proof.
  intros Hc Hn. apply map_eq. intros k. rewrite lookup_replay_from. unfold replay. rewrite !lookup_replay_from.
  assert (take n' h = take c h ++ take (n' - c) (drop c h)) as ->.
  { rewrite <- (take_drop c (take n' h)), take_take, skipn_firstn_comm. by rewrite Nat.min_l by lia. }
  rewrite effect_app. destruct (effect (take (n' - c) (drop c h)) k) eqn:He; [done|].
  assert (take n h = take c h ++ take (n - c) (drop c h)) as ->.
  { rewrite <- (take_drop c (take n h)), take_take, skipn_firstn_comm. by rewrite Nat.min_l by lia. }
  rewrite effect_app.
  assert (take (n' - c) (drop c h) = take (n - c) (drop c h) ++ drop (n - c) (take (n' - c) (drop c h))) as Hs.
  { rewrite <- (take_drop (n - c) (take (n' - c) (drop c h))) at 1. f_equal. rewrite take_take. f_equal. lia. }
  rewrite Hs, effect_app in He. by destruct (effect (drop _ _) k), (effect (take (n - c) _) k).
Qed.

(** ** Batches *)

Lemma op_roundtrip m : op_enum (to_replicated m) = op m.
Proof. unfold op_enum, to_replicated. by destruct (op m). Qed.

Lemma apply_batch_replay ms olap acc :
  (foldl (fun '(n, last, olap) m =>
            (S n, N.max last (r_sequence m), apply_one (op_enum m) (r_primary_key m) (r_payload_json m) olap))
     (acc, olap) (map to_replicated ms)).2 = replay_from olap ms.
Proof.
  revert acc olap. induction ms as [|m ms IH]; intros [n l] olap; [done|].
  cbn [map foldl]. rewrite IH, op_roundtrip. done.
Qed.

Lemma shipped_replay ms olap : (apply_htap_mutations_to_olap (map to_replicated ms) olap).2 = replay_from olap ms.
Proof. apply apply_batch_replay. Qed.

(** ** A node and its peers *)

Record System := mkSystem { history : list RowMutation; node : Node; replicas : Peers }.

(** Committed mutations are numbered, and rounds of shipping lose what they
    lose. *)
Inductive plane_step (peers : list string) : System -> System -> Prop :=
| ps_commit h n ps now tbl k payload o :
    next_sequence (sync_origin n) < u64_max →
    plane_step peers (mkSystem h n ps)
      (let '(m, org) := append now tbl k payload o (sync_origin n) in
       mkSystem (h ++ [m]) (mkNode org (htap_peer_cursors n) (olap_store n)) ps)
| ps_fanout h n ps outcome :
    plane_step peers (mkSystem h n ps)
      (let '(_, n', ps') := fanout_htap_to_peers outcome peers n ps in mkSystem h n' ps').

Definition plane_init : System := mkSystem [] (mkNode origin_new ∅ ∅) ∅.

Definition cursor (p : string) (n : Node) : N := default 0 (htap_peer_cursors n !! p).

(** The peer has replayed [k] mutations, at least those its cursor counts, and at
    most a batch more. *)
Definition peer_at (h : list RowMutation) (n : Node) (ps : Peers) (p : string) (k : nat) : Prop :=
  peer_olap p ps = replay (take k h) ∧ (N.to_nat (cursor p n) <= k)%nat ∧ (k <= length h)%nat ∧
  (k <= N.to_nat (cursor p n) + 1000)%nat.

Record plane_inv (s : System) : Prop := {
  pl_history : consecutive 0 (history s);
  pl_pending : pending (sync_origin (node s)) = history s;
  pl_next : next_sequence (sync_origin (node s)) = N.of_nat (length (history s)) + 1;
  pl_bound : next_sequence (sync_origin (node s)) <= u64_max;
  pl_peers : ∀ p, ∃ k, peer_at (history s) (node s) (replicas s) p k;
}.

Lemma batch_segment s p :
  plane_inv s →
  htap_batch_for_peer p 1000 (node s)
  = (map to_replicated (take 1000 (drop (N.to_nat (cursor p (node s))) (history s))),
     N.of_nat (Nat.min (length (history s)) (N.to_nat (cursor p (node s)) + 1000))).
Proof.
  intros [Hh Hp Hn Hb Hpeers]. destruct (Hpeers p) as (k & _ & Hck & Hkl & _).
  unfold htap_batch_for_peer. fold (cursor p (node s)). set (c := cursor p (node s)) in *.
  unfold export_since. rewrite Hp, (filter_consecutive 0) by done. rewrite N.sub_0_r.
  set (seg := take 1000 (drop (N.to_nat c) (history s))). f_equal.
  assert (consecutive c seg) as Hc.
  { unfold seg. intros i m Hi. apply lookup_take_Some in Hi as [Hi _]. rewrite lookup_drop in Hi.
    rewrite (Hh _ _ Hi). lia. }
  assert (length seg = Nat.min 1000 (length (history s) - N.to_nat c)) as Hlen
    by (unfold seg; by rewrite length_take, length_drop).
  destruct (last seg) as [m|] eqn:Hl.
  - assert (last (map to_replicated seg) = Some (to_replicated m)) as -> by (by rewrite fmap_last, Hl).
    cbn [default from_option fmap option_fmap option_map to_replicated r_sequence id].
    rewrite (consecutive_last _ _ _ Hc Hl), Hlen. lia.
  - apply last_None in Hl. rewrite Hl in *. cbn [map last default from_option fmap option_fmap option_map id length] in *. lia.
Qed.

Lemma ship_inv h n ps p d u :
  plane_inv (mkSystem h n ps) →
  let '(u', n', ps') := ship d p (u, n, ps) in
  plane_inv (mkSystem h n' ps') ∧
  (d = Answered → cursor p n' = N.of_nat (Nat.min (length h) (N.to_nat (cursor p n) + 1000)) ∧
     peer_at h n' ps' p (N.to_nat (cursor p n'))) ∧
  ∀ q, q ≠ p → cursor q n' = cursor q n ∧ peer_olap q ps' = peer_olap q ps.
Proof.
  intros Hinv. pose proof (batch_segment _ p Hinv) as Hb. cbn [node history] in Hb.
  destruct (pl_peers _ Hinv p) as (k & Hol & Hck & Hkl & Hk1000). cbn [history node replicas] in *.
  set (c := cursor p n) in *. unfold ship. rewrite Hb.
  set (seg := take 1000 (drop (N.to_nat c) h)) in *. set (n' := Nat.min (length h) (N.to_nat c + 1000)) in *.
  assert (replay_from (replay (take k h)) seg = replay (take n' h)) as Hre.
  { subst seg. rewrite <- (replay_again h (N.to_nat c) k n') by lia. f_equal.
    destruct (decide (N.to_nat c + 1000 <= length h)%nat).
    - f_equal. lia.
    - rewrite !take_ge; [done|rewrite length_drop; lia..]. }
  destruct (decide (seg = [])) as [Hnil|Hne].
  { rewrite Hnil. cbn [map]. split; [done|]. split; [|done]. intros _.
    assert (length h <= N.to_nat c)%nat as Hle.
    { apply (f_equal length) in Hnil. unfold seg in Hnil. rewrite length_take, length_drop in Hnil. cbn [length] in Hnil. lia. }
    split; [unfold n'; fold c; lia|]. assert (k = N.to_nat c) as -> by lia. by split_and!. }
  assert (0 < n')%nat as Hn'.
  { unfold n'. destruct (Nat.eq_dec (length h) 0%nat) as [Hz|]; [|lia]. exfalso. apply Hne. unfold seg.
    apply nil_length_inv in Hz. rewrite Hz. by rewrite drop_nil, take_nil. }
  pose proof (shipped_replay seg (peer_olap p ps)) as Happ. rewrite Hol, Hre in Happ.
  assert (∀ q, q ≠ p → ∀ x, peer_olap q (<[p := x]> ps) = peer_olap q ps) as Hother.
  { intros q Hq x. unfold peer_olap. by rewrite lookup_insert_ne. }
  assert (peer_olap p (<[p := (apply_htap_mutations_to_olap (map to_replicated seg) (peer_olap p ps)).2]> ps)
          = replay (take n' h)) as Hnew.
  { unfold peer_olap at 1. rewrite lookup_insert_eq. cbn. by rewrite Hol. }
  destruct (map to_replicated seg) as [|r0 rs] eqn:Hmap; [by apply map_eq_nil in Hmap|]. rewrite <- Hmap in *.
  destruct d.
  - by split.
  - split; [|split; [done|by auto]]. destruct Hinv as [Hh Hp Hn Hbd Hpeers]. split; cbn; try done.
    intros q. destruct (decide (q = p)) as [->|Hq].
    + exists n'. split_and!; [exact Hnew|unfold c in *; lia..].
    + destruct (Hpeers q) as (kq & Hq1 & Hq2 & Hq3 & Hq4). exists kq. split_and!; try done. by rewrite Hother.
  - assert (cursor p (advance_htap_peer_cursor p (N.of_nat n') n) = N.of_nat n') as Hcur.
    { unfold advance_htap_peer_cursor. destruct (N.eqb_spec (N.of_nat n') 0); [lia|]. unfold cursor at 1. cbn.
      rewrite lookup_insert_eq. cbn. fold (cursor p n). fold c. destruct (N.ltb_spec c (N.of_nat n')); lia. }
    assert (∀ q, q ≠ p → cursor q (advance_htap_peer_cursor p (N.of_nat n') n) = cursor q n) as Hcq.
    { intros q Hq. unfold advance_htap_peer_cursor. destruct (N.of_nat n' =? 0); [done|].
      unfold cursor. cbn. by rewrite lookup_insert_ne. }
    split; [|split].
    + assert (sync_origin (advance_htap_peer_cursor p (N.of_nat n') n) = sync_origin n) as Hso
        by (unfold advance_htap_peer_cursor; by destruct (_ =? 0)).
      destruct Hinv as [Hh Hp Hn Hbd Hpeers]. split; cbn; rewrite ?Hso; try done.
      intros q. destruct (decide (q = p)) as [->|Hq].
      * exists n'. unfold peer_at. rewrite Hcur. split_and!; [exact Hnew|lia..].
      * destruct (Hpeers q) as (kq & Hq1 & Hq2 & Hq3 & Hq4). exists kq. unfold peer_at.
        rewrite Hcq, Hother by done. by split_and!.
    + intros _. split; [exact Hcur|]. unfold peer_at. rewrite Hcur, Nat2N.id. split_and!; [exact Hnew|lia..].
    + intros q Hq. split; [by apply Hcq|by apply Hother].
Qed.

Lemma fanout_inv outcome h peers u n ps :
  plane_inv (mkSystem h n ps) →
  let '(_, n', ps') := foldl (fun st peer => ship (outcome peer) peer st) (u, n, ps) peers in
  plane_inv (mkSystem h n' ps').
Proof.
  revert u n ps. induction peers as [|p peers IH]; intros u n ps Hinv; [done|]. cbn [foldl].
  pose proof (ship_inv h n ps p (outcome p) u Hinv) as Hs.
  destruct (ship (outcome p) p (u, n, ps)) as [[u' n'] ps']. apply IH, Hs.
Qed.

Lemma plane_step_inv peers s s' : plane_step peers s s' → plane_inv s → plane_inv s'.
Proof.
  destruct 1 as [h n ps now tbl k payload o Hb|h n ps outcome]; intros Hinv.
  - destruct Hinv as [Hh Hp Hn Hbd Hpeers]. cbn in *. split; cbn; rewrite ?u64_add_small by u64.
    + apply consecutive_app. split; [done|]. apply consecutive_cons. cbn. split; [lia|apply consecutive_nil].
    + by rewrite Hp.
    + rewrite length_app. cbn. lia.
    + lia.
    + intros p. destruct (Hpeers p) as (j & H1 & H2 & H3 & H4). exists j. unfold peer_at in *. cbn in *.
      rewrite take_app_le, length_app by lia. split_and!; try done. lia.
  - pose proof (fanout_inv outcome h peers 0%nat n ps Hinv) as Hf. unfold fanout_htap_to_peers.
    destruct (foldl _ _ peers) as [[u n'] ps']. exact Hf.
Qed.

Lemma plane_reachable peers s : rtc (plane_step peers) plane_init s → plane_inv s.
Proof.
  intros Hr. assert (plane_inv plane_init) as H0.
  { split; try done. intros p. exists 0%nat. split_and!; [done|apply Nat.le_0_l..]. }
  revert H0. induction Hr as [|s1 s2 s3 Hstep _ IH]; intros H0; [done|]. by eapply IH, plane_step_inv.
Qed.


(** The rounds of shipping to one peer. *)
Definition round (outcome : string -> Delivery) (peers : list string) (s : System) : System :=
  let '(_, n, ps) := fanout_htap_to_peers outcome peers (node s) (replicas s) in mkSystem (history s) n ps.

Lemma fanout_answered outcome h peers u n ps p :
  plane_inv (mkSystem h n ps) → NoDup peers → p ∈ peers → outcome p = Answered →
  let '(_, n', ps') := foldl (fun st peer => ship (outcome peer) peer st) (u, n, ps) peers in
  cursor p n' = N.of_nat (Nat.min (length h) (N.to_nat (cursor p n) + 1000)) ∧
  peer_olap p ps' = replay (take (N.to_nat (cursor p n')) h).
Proof.
  revert u n ps. induction peers as [|q peers IH]; intros u n ps Hinv Hnd Hin Ho; [set_solver|].
  apply NoDup_cons in Hnd as [Hq Hnd]. cbn [foldl].
  pose proof (ship_inv h n ps q (outcome q) u Hinv) as Hs.
  destruct (ship (outcome q) q (u, n, ps)) as [[u1 n1] ps1]. destruct Hs as (Hinv1 & Hans & Hother).
  destruct (decide (p = q)) as [->|Hne].
  - destruct (Hans Ho) as (Hc & Hol & _).
    assert (∀ peers u n ps, q ∉ peers → plane_inv (mkSystem h n ps) →
      let '(_, n', ps') := foldl (fun st peer => ship (outcome peer) peer st) (u, n, ps) peers in
      cursor q n' = cursor q n ∧ peer_olap q ps' = peer_olap q ps) as Hkeep.
    { clear. intros peers. induction peers as [|r peers IH]; intros u n ps Hni Hinv; [done|]. cbn [foldl].
      pose proof (ship_inv h n ps r (outcome r) u Hinv) as Hs.
      destruct (ship (outcome r) r (u, n, ps)) as [[u' n'] ps']. destruct Hs as (Hinv' & _ & Ho).
      destruct (Ho q) as [H1 H2]; [set_solver|].
      assert (q ∉ peers) as Hni' by set_solver. pose proof (IH u' n' ps' Hni' Hinv') as Hi.
      destruct (foldl _ (u', n', ps') peers) as [[u'' n''] ps'']. by rewrite <- H1, <- H2. }
    pose proof (Hkeep peers u1 n1 ps1 Hq Hinv1) as Hk.
    destruct (foldl _ (u1, n1, ps1) peers) as [[u2 n2] ps2]. destruct Hk as [-> ->]. done.
  - destruct (Hother p Hne) as [Hcp Hop]. rewrite <- Hcp. apply IH; [done|done|set_solver|done].
Qed.


(** ** The local replica *)

Inductive local_step : System -> System -> Prop :=
| ls_commit h n ps now tbl k payload o :
    next_sequence (sync_origin n) < u64_max →
    local_step (mkSystem h n ps)
      (let '(m, org) := append now tbl k payload o (sync_origin n) in
       mkSystem (h ++ [m]) (mkNode org (htap_peer_cursors n) (olap_store n)) ps)
| ls_sync h n ps : local_step (mkSystem h n ps) (mkSystem h (htap_force_sync n).2 ps).

Record local_inv (s : System) : Prop := {
  lo_history : consecutive 0 (history s);
  lo_next : next_sequence (sync_origin (node s)) = N.of_nat (length (history s)) + 1;
  lo_bound : next_sequence (sync_origin (node s)) <= u64_max;
  lo_split : ∃ a, (a <= length (history s))%nat ∧ pending (sync_origin (node s)) = drop a (history s) ∧
    olap_store (node s) = replay (take a (history s));
}.

Lemma force_sync_fold ms acc last olap :
  consecutive last ms →
  foldl (fun '(k, last, olap) m =>
           (S k, N.max last (sequence m), apply_one (op m) (primary_key m) (payload_json m) olap))
    (acc, last, olap) ms
  = ((acc + length ms)%nat, last + N.of_nat (length ms), replay_from olap ms).
Proof.
  revert acc last olap. induction ms as [|m ms IH]; intros acc last olap Hc.
  { cbn. by rewrite N.add_0_r, Nat.add_0_r. }
  apply consecutive_cons in Hc as [Hm Hc]. cbn [foldl].
  replace (N.max last (sequence m)) with (last + 1) by lia. rewrite IH by done.
  cbn [length]. do 2 f_equal; lia.
Qed.

Lemma force_sync_fold_from ms a acc olap :
  consecutive a ms → ms ≠ [] →
  foldl (fun '(k, last, olap) m =>
           (S k, N.max last (sequence m), apply_one (op m) (primary_key m) (payload_json m) olap))
    (acc, 0, olap) ms
  = ((acc + length ms)%nat, a + N.of_nat (length ms), replay_from olap ms).
Proof.
  destruct ms as [|m ms]; [done|]. intros Hc _. apply consecutive_cons in Hc as [Hm Hc]. cbn [foldl].
  replace (N.max 0 (sequence m)) with (a + 1) by lia. rewrite (force_sync_fold ms _ (a + 1)) by done.
  cbn [length]. do 2 f_equal; lia.
Qed.

Lemma force_sync_spec s :
  local_inv s →
  olap_store (htap_force_sync (node s)).2 = replay (history s) ∧
  pending (sync_origin (htap_force_sync (node s)).2) = [] ∧
  next_sequence (sync_origin (htap_force_sync (node s)).2) = next_sequence (sync_origin (node s)).
Proof.
  intros [Hh Hn Hb (a & Ha & Hp & Ho)]. unfold htap_force_sync. rewrite Hp, Ho.
  pose proof (consecutive_drop 0 (history s) a Hh Ha) as Hc. rewrite N.add_0_l in Hc.
  assert (replay (history s) = replay_from (replay (take a (history s))) (drop a (history s))) as Hr.
  { rewrite <- plane_replay_app. by rewrite take_drop. }
  destruct (decide (drop a (history s) = [])) as [Hnil|Hne].
  - rewrite Hnil in *. cbn. by rewrite Hr, Hp.
  - rewrite (force_sync_fold_from _ (N.of_nat a)) by done. cbn [snd olap_store sync_origin].
    assert (0 < length (drop a (history s)))%nat by (destruct (drop a (history s)); [done|cbn; lia]).
    destruct (N.ltb_spec 0 (N.of_nat a + N.of_nat (length (drop a (history s))))); [|lia].
    split; [done|]. split; [|done]. cbn. rewrite Hp, (filter_consecutive (N.of_nat a)) by done.
    apply drop_ge. lia.
Qed.

Lemma local_step_inv s s' : local_step s s' → local_inv s → local_inv s'.
Proof.
  destruct 1 as [h n ps now tbl k payload o Hb|h n ps]; intros Hinv.
  - destruct Hinv as [Hh Hn Hbd (a & Ha & Hp & Ho)]. cbn in *. split; cbn; rewrite ?u64_add_small by u64.
    + apply consecutive_app. split; [done|]. apply consecutive_cons. cbn. split; [lia|apply consecutive_nil].
    + rewrite length_app. cbn. lia.
    + lia.
    + exists a. rewrite length_app, drop_app_le, take_app_le, Hp by lia. split_and!; [lia|done..].
  - destruct (force_sync_spec _ Hinv) as (Hol & Hp & Hn). destruct Hinv as [Hh Hn' Hbd _]. cbn [history node] in *.
    split; cbn [history node]; [done|by rewrite Hn..|]. exists (length h).
    rewrite drop_all, take_ge by lia. by split_and!; [lia|..].
Qed.

(** A forced sync makes the local replica the replay of everything committed,
    whatever was committed and synced before, and leaves nothing pending. *)
Theorem force_sync_catches_up (s : System) :
  rtc local_step plane_init s →
  let n := (htap_force_sync (node s)).2 in
  olap_store n = replay (history s) ∧ pending_len (sync_origin n) = 0%nat.
Proof.
  intros Hr. assert (local_inv plane_init) as H0.
  { split; try done. exists 0%nat. by split_and!. }
  assert (local_inv s) as Hinv.
  { revert H0. induction Hr as [|s1 s2 s3 Hstep _ IH]; intros H0; [done|]. by eapply IH, local_step_inv. }
  destruct (force_sync_spec s Hinv) as (Hol & Hp & _). cbn zeta. split; [done|].
  unfold pending_len. by rewrite Hp.
Qed.
End Replicas.

(** ** Shards *)

Lemma shard_for_key_bound n k : (0 < n)%nat → (shard_for_key n k < n)%nat.
Proof.
  intros Hn. unfold shard_for_key. destruct (Nat.leb_spec n 1); [lia|].
  pose proof (N.mod_lt (fnv1a_hash k) (N.of_nat n)). lia.
Qed.

(** The keys of a table that fall into a shard. *)
Definition in_shard (prefix : string) (shards s : nat) (k : string) : bool :=
  match Str.strip_prefix prefix k with Some pk => (shard_for_key shards pk =? s)%nat | None => false end.

Lemma count_rows_spec prefix shards counts ks :
  (0 < shards)%nat → length counts = shards →
  ∃ counts', count_rows prefix shards counts ks = Some counts' ∧ length counts' = shards ∧
    ∀ s, (s < shards)%nat →
      counts' !! s = (fun n => (n + length (List.filter (in_shard prefix shards s) ks))%nat) <$> counts !! s.
Proof.
  intros Hpos. revert counts. induction ks as [|k ks IH]; intros counts Hlen; cbn.
  { exists counts. split_and!; [done..|]. intros s Hs. destruct (counts !! s); cbn; [|done]. f_equal. lia. }
  unfold count_row, in_shard at 1. destruct (Str.strip_prefix prefix k) as [pk|].
  - pose proof (shard_for_key_bound shards pk Hpos) as Hb.
    destruct (lookup_lt_is_Some_2 counts (shard_for_key shards pk)) as [n Hn]; [lia|]. rewrite Hn.
    destruct (IH (<[shard_for_key shards pk := S n]> counts)) as (c' & -> & Hl & Hc); [by rewrite length_insert|].
    exists c'. split_and!; [done..|]. intros s Hs. rewrite Hc by done.
    destruct (Nat.eqb_spec (shard_for_key shards pk) s) as [<-|Hne].
    + rewrite list_lookup_insert_eq, Hn by lia. cbn. f_equal. lia.
    + by rewrite list_lookup_insert_ne.
  - destruct (IH counts Hlen) as (c' & -> & Hl & Hc). exists c'. by split_and!.
Qed.

(** Every row of a sharded table is counted in exactly its shard: on the
    store of a running server the shard map of a table never panics, has an owner
    among the nodes for every shard, and the count of a shard is the number of
    visible rows of the table whose key hashes to it. *)
Theorem shard_counts_exact (peers : list string) (table : string) (rs : RowStore.PagedRowStore) (r : ShardRegistry)
    (cfg : ShardTableConfig) :
  wf rs → lookup_shard_config table r = Some cfg → (0 < table_shards cfg)%nat →
  ∃ owners counts, cluster_shard_info peers table rs r = Some (Some (owners, counts)) ∧
    Forall (fun o => (o <= length peers)%nat) owners ∧ length owners = table_shards cfg ∧
    length counts = table_shards cfg ∧
    ∃ rows, NoDup rows ∧ (∀ k, k ∈ rows ↔ is_Some (view rs !! k)) ∧
      ∀ s, (s < table_shards cfg)%nat →
        counts !! s = Some (length (List.filter (in_shard (SqlKind.to_ascii_lowercase table +:+ ":") (table_shards cfg) s) rows)).
Proof.
  intros Hwf Hl Hpos. unfold cluster_shard_info. rewrite Hl.
  set (ks := map fst (RowStore.scan_at_snapshot (RowStore.current_xid rs) rs)).
  destruct (count_rows_spec (SqlKind.to_ascii_lowercase table +:+ ":") (table_shards cfg)
              (replicate (table_shards cfg) 0%nat) ks Hpos) as (counts & -> & Hlen & Hc);
    [by rewrite length_replicate|].
  eexists _, counts. split; [done|]. split; [|split; [|split; [done|]]].
  - apply List.Forall_forall. intros o Ho. apply in_map_iff in Ho as (s & <- & _). unfold owning_node_index. cbn [Nat.eqb Nat.add].
    pose proof (Nat.mod_upper_bound s (S (length peers))). lia.
  - by rewrite length_map, length_seq.
  - destruct (scan_view rs Hwf) as [Hnd Hiff]. exists ks. split; [exact Hnd|]. split.
    + intros k. unfold ks. rewrite list_elem_of_In, in_map_iff. split.
      * intros ([k' d] & <- & Hin). apply list_elem_of_In, Hiff in Hin. by eexists.
      * intros [d Hd]. exists (k, d). split; [done|]. by apply list_elem_of_In, Hiff.
    + intros s Hs. rewrite Hc by done. by rewrite lookup_replicate_2.
Qed.

(** The answer to the question whether a shard is local does not depend on the node
    that is asked, since each node puts itself first: either all nodes of a cluster
    claim a shard, or none does. *)
Theorem owner_ignores_asking_node (peers1 peers2 : list string) (table k : string) (r : ShardRegistry) :
  length peers1 = length peers2 → cluster_shard_route peers1 table k r = cluster_shard_route peers2 table k r.
Proof. intros Hl. unfold cluster_shard_route. by rewrite Hl. Qed.

(** ** Partial results *)

Lemma sum_perm (l l' : list OlapSubtaskResult) :
  l ≡ₚ l' → foldr (fun p n => (p_rows p + n)%nat) 0%nat l = foldr (fun p n => (p_rows p + n)%nat) 0%nat l'.
Proof. induction 1; cbn; lia. Qed.

(** Merging adds the counts of the nodes that answered. *)
Lemma merge_total l b : total_rows (merge_olap_partials l b) = foldr (fun p n => (p_rows p + n)%nat) 0%nat l.
Proof. apply sum_perm, sort_by_perm. Qed.

(** ** At concrete systems *)

Section Demo.
(** A replica that parses no payload as JSON. *)
#[local] Instance no_json : PayloadText := {| parse_payload := fun _ => None |}.
#[local] Instance plain_headers : HeaderText := {| to_str := Some |}.
#[local] Instance toy_crypto : TokenCrypto :=
  {| hmac_sha256 k m := k +:+ m; sha256_hex s := s; b64_encode s := s; b64_decode s := Some s |}.

Definition commit1 (k payload : string) (o : MutationOp) (s : System) : System :=
  let '(m, org) := append 7 "row_store" k payload o (sync_origin (node s)) in
  mkSystem (history s ++ [m]) (mkNode org (htap_peer_cursors (node s)) (olap_store (node s))) (replicas s).

(** Two rows, one of them deleted later; the first answer of the peer is lost. *)
Definition first_two : System := commit1 "t:2" "b" Insert (commit1 "t:1" "a" Insert plane_init).
Definition answer_lost : System := round (fun _ => Unanswered) ["http://n2"] first_two.
Definition after_delete : System := commit1 "t:1" "" Delete answer_lost.

Lemma commit_step peers k payload o s :
  next_sequence (sync_origin (node s)) < u64_max → plane_step peers s (commit1 k payload o s).
Proof. destruct s as [h n ps]. intros Hb. by apply (ps_commit peers h n ps 7 "row_store" k payload o). Qed.

Lemma round_step outcome peers s : plane_step peers s (round outcome peers s).
Proof. destruct s as [h n ps]. apply ps_fanout. Qed.

Lemma after_delete_reachable : rtc (plane_step ["http://n2"]) plane_init after_delete.
Proof.
  eapply rtc_l; [by apply (commit_step _ "t:1" "a" Insert)|].
  eapply rtc_l; [by apply (commit_step _ "t:2" "b" Insert)|].
  eapply rtc_l; [apply (round_step (fun _ => Unanswered))|].
  eapply rtc_l; [by apply (commit_step _ "t:1" "" Delete)|]. apply rtc_refl.
Qed.



Lemma local_commit_step k payload o s :
  next_sequence (sync_origin (node s)) < u64_max → local_step s (commit1 k payload o s).
Proof. destruct s as [h n ps]. intros Hb. by apply (ls_commit h n ps 7 "row_store" k payload o). Qed.

Definition sync_then_delete : System :=
  commit1 "t:1" "" Delete (mkSystem (history first_two) (htap_force_sync (node first_two)).2 ∅).

Lemma force_sync_catches_up_witness :
  olap_store (htap_force_sync (node sync_then_delete)).2 = {["t:2" := {["payload" := "b"]}]}.
Proof.
  destruct (force_sync_catches_up sync_then_delete) as [Ho _].
  { eapply rtc_l; [by apply (local_commit_step "t:1" "a" Insert)|].
    eapply rtc_l; [by apply (local_commit_step "t:2" "b" Insert)|].
    eapply rtc_l; [apply ls_sync|]. eapply rtc_l; [by apply (local_commit_step "t:1" "" Delete)|]. apply rtc_refl. }
  etransitivity; [exact Ho|]. vm_compute. reflexivity.
Defined.

Definition item_shards : ShardRegistry := register_shard_config "Item" (mkShardTable "id" 3) ∅.

Lemma shard_counts_exact_witness :
  ∃ owners counts, cluster_shard_info ["http://n2"] "item" SelectDemo.shop item_shards = Some (Some (owners, counts)) ∧
    length counts = 3%nat.
Proof.
  destruct (shard_counts_exact ["http://n2"] "item" SelectDemo.shop item_shards (mkShardTable "id" 3))
    as (owners & counts & Hi & _ & _ & Hl & _); [apply SelectDemo.shop_wf|reflexivity|cbn; lia|].
  exists owners, counts. split; [exact Hi|exact Hl].
Defined.

(** ** Where the data plane falls short *)

(** A forced sync acknowledges, and so forgets, mutations that no peer was sent:
    the peer never receives them. *)
Lemma force_sync_starves_peers :
  let n := (htap_force_sync (node first_two)).2 in
  let s := round (fun _ => Answered) ["http://n2"] (mkSystem (history first_two) n ∅) in
  replay (history s) !! "t:1" = Some {["payload" := "a"]} ∧ peer_olap "http://n2" (replicas s) = ∅.
Proof. vm_compute. split; reflexivity. Qed.

(** COMMIT publishes the text of the statement as the payload, so the replica holds
    the statement and not the row; of an INSERT of two rows it holds one key. *)
Lemma replica_holds_statement_text :
  let stmt := "INSERT INTO users (id, name) VALUES (3, 'Cy'), (4, 'Di')" in
  let n := mkNode (Flush.publish (H0 := FlushProps.Demo.demo_sql) 7 "shop" stmt origin_new) ∅ ∅ in
  olap_store (htap_force_sync n).2 = {["shop.users:3" := {["payload" := stmt]}]}.
Proof. vm_compute. reflexivity. Qed.

(** The pull endpoint is open as soon as one of the two secrets is not configured:
    a cluster token is not asked for when there is no admin key. *)
Lemma pull_open_without_admin_key (token : option string) : htap_pull_allowed ∅ token None = true.
Proof. unfold htap_pull_allowed. apply orb_true_r. Qed.

Lemma pull_denied_with_both (t a : string) : t ≠ "" → htap_pull_allowed ∅ (Some t) (Some a) = false.
Proof. intros Ht. unfold htap_pull_allowed. cbn. by destruct (String.eqb_spec t ""). Qed.

(** An operation that neither endpoint knows is an insertion for one and nothing
    for the other. *)
Lemma unknown_operation_diverges :
  let m := mkRep 1 "t" "t:1" "a" "upsert" in
  (apply_htap_mutations_to_olap [m] ∅).2 !! "t:1" = Some {["payload" := "a"]} ∧ (store_htap_apply [m] ∅).2 = ∅.
Proof. vm_compute. split; reflexivity. Qed.

(** Nodes that hold the same rows are counted as partitions. *)
Lemma replicas_counted_as_partitions (a b : string) (n : nat) :
  total_rows (gather_distributed_olap (mkPartial a n 0 "row_store") [Some (mkPartial b n 0 "row_store")]) = (n + n)%nat.
Proof. unfold gather_distributed_olap. rewrite merge_total. cbn. lia. Qed.
End Demo.
