(* ===== verification/EventBus.v ===== *)
(** * The event bus and replay cursors ([crates/voltnuerongrid-ingest/src/lib.rs])

    Events are numbered per bus and kept in memory, in a file of log records, or in
    a file ledger in front of an external broker; consumers read a stream after
    their cursor, which is kept in memory or in a log file of its own. *)

From S2P Require Import Prelude Str Decimal SqlKind Wal Select.
From Stdlib Require Import Ascii.
Local Open Scope string_scope.
Local Open Scope list_scope.
Local Open Scope N_scope.
Local Open Scope vng_scope.

Module EventBus.

(** ** Events *)

Inductive StreamDirection := Inbound | Outbound | Internal.

Record StreamEventEnvelope := mkEnvelope {
  event_id : N;
  stream_name : string;
  direction : StreamDirection;
  origin : string;
  occurred_epoch_ms : N;
  payload_json : string;
  attributes : gmap string string;
}.

Definition replay_key (e : StreamEventEnvelope) : string :=
  stream_name e +:+ ":" +:+ Dec.to_string (event_id e).

Record EventBusTransportEvent := mkTransportEvent { transport_sequence : N; event : StreamEventEnvelope }.

(** What a publisher hands over. *)
Record Message := mkMessage {
  m_stream : string; m_direction : StreamDirection; m_origin : string; m_payload : string;
  m_attributes : gmap string string;
}.

(** The errors that the source formats as text. *)
Inductive BusError :=
| AdapterInit
| AdapterRead (e : Wal.WalAdapterError)
| AdapterAppend (e : Wal.WalAdapterError)
| MissingFields (record : N)
| InvalidTransportSequence (record : N)
| InvalidEventId (record : N)
| UnsupportedDirection (s : string)
| InvalidTimestamp (record : N)
| InvalidAttributeCount (record : N)
| UnexpectedFields (record expected found : N)
| Broker (message : string)
| TargetRequired (kind : string)
| UnsupportedMode (mode : string).

(** ** The record of an event *)

Definition stream_direction_as_str (d : StreamDirection) : string :=
  match d with Inbound => "inbound" | Outbound => "outbound" | Internal => "internal" end.

Definition parse_stream_direction (v : string) : result StreamDirection BusError :=
  let v := SqlKind.to_ascii_lowercase (Str.trim v) in
  if String.eqb v "inbound" then Ok Inbound
  else if String.eqb v "outbound" then Ok Outbound
  else if String.eqb v "internal" then Ok Internal
  else Err (UnsupportedDirection v).

Fixpoint escape_component (v : string) : string :=
  match v with
  | EmptyString => ""
  | String c r =>
      if Ascii.eqb c Wal.BACKSLASH then String Wal.BACKSLASH (String Wal.BACKSLASH (escape_component r))
      else if Ascii.eqb c Wal.TABc then String Wal.BACKSLASH (String "t" (escape_component r))
      else if Ascii.eqb c Wal.LFc then String Wal.BACKSLASH (String "n" (escape_component r))
      else String c (escape_component r)
  end.

Fixpoint unescape_component (v : string) : string :=
  match v with
  | EmptyString => ""
  | String c r =>
      if Ascii.eqb c Wal.BACKSLASH then
        match r with
        | EmptyString => String Wal.BACKSLASH ""
        | String d r' =>
            if Ascii.eqb d "t" then String Wal.TABc (unescape_component r')
            else if Ascii.eqb d "n" then String Wal.LFc (unescape_component r')
            else if Ascii.eqb d Wal.BACKSLASH then String Wal.BACKSLASH (unescape_component r')
            else String Wal.BACKSLASH (String d (unescape_component r'))
        end
      else String c (unescape_component r)
  end.

(** The attributes sorted by key. *)
Definition sorted_attributes (m : gmap string string) : list (string * string) :=
  Select.sort_by (fun a b => String.compare a.1 b.1) (map_to_list m).

Fixpoint flatten_pairs (l : list (string * string)) : list string :=
  match l with [] => [] | (k, v) :: r => k :: v :: flatten_pairs r end.

Definition components (e : EventBusTransportEvent) : list string :=
  let v := event e in
  let attrs := sorted_attributes (attributes v) in
  [Dec.to_string (transport_sequence e); Dec.to_string (event_id v); stream_name v;
   stream_direction_as_str (direction v); origin v; Dec.to_string (occurred_epoch_ms v); payload_json v;
   Dec.to_string (N.of_nat (length attrs))] ++ flatten_pairs attrs.

Definition encode_event_bus_record (e : EventBusTransportEvent) : Wal.WalRecord :=
  Wal.mkWalRecord (transport_sequence e) (occurred_epoch_ms (event e))
    ("eventbus::" +:+ Dec.to_string (transport_sequence e))
    (Str.join Str.TAB (map escape_component (components e))).

(** [chunks(2)] with both elements indexed. *)
Fixpoint pairs (l : list string) : list (string * string) :=
  match l with k :: v :: r => (k, v) :: pairs r | _ => [] end.

Definition ok_or {A} (o : option A) (e : BusError) : result A BusError :=
  match o with Some a => Ok a | None => Err e end.

Definition decode_event_bus_record (r : Wal.WalRecord) : result EventBusTransportEvent BusError :=
  let n := Wal.sequence r in
  let parts := map unescape_component (Str.split Str.TAB (Wal.value r)) in
  match parts with
  | p0 :: p1 :: p2 :: p3 :: p4 :: p5 :: p6 :: p7 :: rest =>
      let? sq := ok_or (Dec.parse u64_max p0) (InvalidTransportSequence n) in
      let? id := ok_or (Dec.parse u64_max p1) (InvalidEventId n) in
      let? dir := parse_stream_direction p3 in
      let? ts := ok_or (Dec.parse Dec.u128_max p5) (InvalidTimestamp n) in
      let? count := ok_or (Dec.parse u64_max p7) (InvalidAttributeCount n) in
      let expected := u64_add 8 (u64_wrapping_mul count 2) in
      let found := N.of_nat (length parts) in
      if negb (found =? expected) then Err (UnexpectedFields n expected found)
      else
        Ok (mkTransportEvent sq
              (mkEnvelope id p2 dir p4 ts p6 (foldl (fun m kv => <[kv.1 := kv.2]> m) ∅ (pairs rest))))
  | _ => Err (MissingFields n)
  end.

(** ** What a bus offers: the trait [EventBusBrokerClient]

    [io] says whether the file can be written; [now] is the clock. *)
Class EventBusBrokerClient (T : Type) := {
  broker_kind : T -> string;
  broker_target : T -> option string;
  publish : bool -> N -> Message -> T -> result EventBusTransportEvent BusError * T;
  export_for_stream_since : string -> N -> nat -> T -> list StreamEventEnvelope;
  total_events : T -> nat;
  last_event_id_for_stream : string -> T -> option N;
  snapshot_events : T -> list EventBusTransportEvent;
}.

Definition envelope_of (id now : N) (m : Message) : StreamEventEnvelope :=
  mkEnvelope id (m_stream m) (m_direction m) (m_origin m) now (m_payload m) (m_attributes m).

Definition export_since (s : string) (last : N) (max_items : nat) (es : list EventBusTransportEvent)
    : list StreamEventEnvelope :=
  map event (take max_items
    (List.filter (fun e => String.eqb (stream_name (event e)) s && (last <? event_id (event e))) es)).

Definition last_id (s : string) (es : list EventBusTransportEvent) : option N :=
  (fun e => event_id (event e)) <$> List.find (fun e => String.eqb (stream_name (event e)) s) (rev es).

(** *** In memory *)

Record InMemoryEventBusTransport := mkMem {
  mem_next_transport_sequence : N;
  mem_next_event_id : N;
  mem_events : list EventBusTransportEvent;
}.

Definition mem_new : InMemoryEventBusTransport := mkMem 1 1 [].

Definition mem_publish (now : N) (m : Message) (t : InMemoryEventBusTransport)
    : EventBusTransportEvent * InMemoryEventBusTransport :=
  let e := mkTransportEvent (mem_next_transport_sequence t) (envelope_of (mem_next_event_id t) now m) in
  (e, mkMem (u64_add (mem_next_transport_sequence t) 1) (u64_add (mem_next_event_id t) 1) (mem_events t ++ [e])).

#[export] Instance in_memory_bus : EventBusBrokerClient InMemoryEventBusTransport := {
  broker_kind _ := "in_memory";
  broker_target _ := None;
  publish io now m t := let '(e, t) := mem_publish now m t in (Ok e, t);
  export_for_stream_since s last n t := export_since s last n (mem_events t);
  total_events t := length (mem_events t);
  last_event_id_for_stream s t := last_id s (mem_events t);
  snapshot_events := mem_events;
}.

(** *** In a file of log records *)

Record FileBackedEventBusTransport := mkFile {
  wal_file : string;
  next_transport_sequence : N;
  next_event_id : N;
  events : list EventBusTransportEvent;
}.

(** The decoded records, and the numbers after the highest. *)
Fixpoint decode_all (rs : list Wal.WalRecord) (seq id : N) (acc : list EventBusTransportEvent)
    : result (N * N * list EventBusTransportEvent) BusError :=
  match rs with
  | [] => Ok (seq, id, acc)
  | r :: rs =>
      let? e := decode_event_bus_record r in
      decode_all rs (N.max seq (u64_add (transport_sequence e) 1)) (N.max id (u64_add (event_id (event e)) 1))
        (acc ++ [e])
  end.

(** [FileBackedEventBusTransport::new]: [opened], the directory and file could be
    created; [readable], the file could be read. *)
Definition file_new (opened readable : bool) (file : string) : result FileBackedEventBusTransport BusError :=
  if negb opened then Err AdapterInit
  else
    match Wal.read_all readable file with
    | Err e => Err (AdapterRead e)
    | Ok rs => let? st := decode_all rs 1 1 [] in let '(sq, id, es) := st in Ok (mkFile file sq id es)
    end.

Definition file_publish (io : bool) (now : N) (m : Message) (t : FileBackedEventBusTransport)
    : result EventBusTransportEvent BusError * FileBackedEventBusTransport :=
  let e := mkTransportEvent (next_transport_sequence t) (envelope_of (next_event_id t) now m) in
  match Wal.append io (encode_event_bus_record e) (wal_file t) with
  | (Err err, file) => (Err (AdapterAppend err), mkFile file (next_transport_sequence t) (next_event_id t) (events t))
  | (Ok _, file) =>
      (Ok e, mkFile file (u64_add (next_transport_sequence t) 1) (u64_add (next_event_id t) 1) (events t ++ [e]))
  end.

#[export] Instance file_bus : EventBusBrokerClient FileBackedEventBusTransport := {
  broker_kind _ := "file_wal";
  broker_target _ := None;
  publish := file_publish;
  export_for_stream_since s last n t := export_since s last n (events t);
  total_events t := length (events t);
  last_event_id_for_stream s t := last_id s (events t);
  snapshot_events := events;
}.

(** *** In front of an external broker *)

Inductive ExternalBrokerKind := Kafka | Nats | EventHubs.

Definition kind_as_str (k : ExternalBrokerKind) : string :=
  match k with Kafka => "kafka" | Nats => "nats" | EventHubs => "event_hubs" end.

Definition from_broker_mode (v : string) : option ExternalBrokerKind :=
  let v := SqlKind.to_ascii_lowercase (Str.trim v) in
  if String.eqb v "kafka" then Some Kafka
  else if String.eqb v "nats" then Some Nats
  else if existsb (String.eqb v) ["event_hubs"; "eventhubs"; "event-hubs"; "azure_event_hubs"] then Some EventHubs
  else None.

Record ExternalBrokerDispatch := mkDispatch {
  d_kind : ExternalBrokerKind;
  d_target : string;
  subject : string;
  d_key : string;
  d_payload : string;
  d_headers : gmap string string;
}.

Class ExternalBrokerPublisher (P : Type) := {
  pub_kind : P -> ExternalBrokerKind;
  pub_target : P -> string;
  pub_publish : ExternalBrokerDispatch -> P -> result unit string * P;
}.

Record ConfiguredExternalBrokerPublisher := mkPublisher {
  p_kind : ExternalBrokerKind; p_target : string; published : list ExternalBrokerDispatch;
}.

Definition publisher_new (k : ExternalBrokerKind) (target : string) : result ConfiguredExternalBrokerPublisher BusError :=
  let target := Str.trim target in
  if String.eqb target "" then Err (TargetRequired (kind_as_str k)) else Ok (mkPublisher k target []).

#[export] Instance configured_publisher : ExternalBrokerPublisher ConfiguredExternalBrokerPublisher := {
  pub_kind := p_kind;
  pub_target := p_target;
  pub_publish d p := (Ok tt, mkPublisher (p_kind p) (p_target p) (published p ++ [d]));
}.

Record ExternalBrokerBackedEventBusTransport (P : Type) := mkExternal {
  ledger : FileBackedEventBusTransport; publisher : P; subject_prefix : string;
}.
Arguments mkExternal {P}. Arguments ledger {P}. Arguments publisher {P}. Arguments subject_prefix {P}.

Definition with_publisher {P} (opened readable : bool) (file : string) (p : P) (prefix : option string)
    : result (ExternalBrokerBackedEventBusTransport P) BusError :=
  let? l := file_new opened readable file in Ok (mkExternal l p (Str.trim (default "" prefix))).

Definition external_new (k : ExternalBrokerKind) (opened readable : bool) (file target : string) (prefix : option string) :=
  let? p := publisher_new k target in with_publisher opened readable file p prefix.

Definition subject_for_stream {P} (s : string) (t : ExternalBrokerBackedEventBusTransport P) : string :=
  if String.eqb (subject_prefix t) "" then s
  else Str.trim_end_matches ["."] (subject_prefix t) +:+ "." +:+ s.

Definition dispatch_of {P} `{!ExternalBrokerPublisher P} (m : Message) (e : EventBusTransportEvent)
    (t : ExternalBrokerBackedEventBusTransport P) : ExternalBrokerDispatch :=
  mkDispatch (pub_kind (publisher t)) (pub_target (publisher t)) (subject_for_stream (m_stream m) t)
    (replay_key (event e)) (payload_json (event e))
    (<["origin" := origin (event e)]> (<["transport_sequence" := Dec.to_string (transport_sequence e)]>
       (<["stream_name" := stream_name (event e)]> (m_attributes m)))).

(** An event whose dispatch fails stays in the ledger. *)
Definition external_publish {P} `{!ExternalBrokerPublisher P} (io : bool) (now : N) (m : Message)
    (t : ExternalBrokerBackedEventBusTransport P)
    : result EventBusTransportEvent BusError * ExternalBrokerBackedEventBusTransport P :=
  match file_publish io now m (ledger t) with
  | (Err e, l) => (Err e, mkExternal l (publisher t) (subject_prefix t))
  | (Ok e, l) =>
      match pub_publish (dispatch_of m e t) (publisher t) with
      | (Ok _, p) => (Ok e, mkExternal l p (subject_prefix t))
      | (Err msg, p) => (Err (Broker msg), mkExternal l p (subject_prefix t))
      end
  end.

#[export] Instance external_bus {P} `{!ExternalBrokerPublisher P}
    : EventBusBrokerClient (ExternalBrokerBackedEventBusTransport P) := {
  broker_kind t := kind_as_str (pub_kind (publisher t));
  broker_target t := Some (pub_target (publisher t));
  publish := external_publish;
  export_for_stream_since s last n t := export_since s last n (events (ledger t));
  total_events t := length (events (ledger t));
  last_event_id_for_stream s t := last_id s (events (ledger t));
  snapshot_events t := events (ledger t);
}.

(** *** The configured bus *)

Inductive ManagedEventBusTransport :=
| MInMemory (t : InMemoryEventBusTransport)
| MFileBacked (t : FileBackedEventBusTransport)
| MExternal (t : ExternalBrokerBackedEventBusTransport ConfiguredExternalBrokerPublisher).

Definition from_broker_mode_with_target (mode : string) (opened readable : bool) (file : string)
    (target prefix : option string) : result ManagedEventBusTransport BusError :=
  let mode := SqlKind.to_ascii_lowercase (Str.trim mode) in
  if existsb (String.eqb mode) ["in_memory"; "memory"] then Ok (MInMemory mem_new)
  else if existsb (String.eqb mode) ["file"; "file_wal"; "wal"] then
    let? t := file_new opened readable file in Ok (MFileBacked t)
  else
    match from_broker_mode mode with
    | Some k =>
        let target := match Str.trim <$> target with Some v => if String.eqb v "" then None else Some v | None => None end in
        match target with
        | None => Err (TargetRequired (kind_as_str k))
        | Some target => let? t := external_new k opened readable file target prefix in Ok (MExternal t)
        end
    | None => Err (UnsupportedMode mode)
    end.

Definition on_broker {A} (f : ∀ T, EventBusBrokerClient T -> T -> A) (t : ManagedEventBusTransport) : A :=
  match t with
  | MInMemory t => f _ in_memory_bus t
  | MFileBacked t => f _ file_bus t
  | MExternal t => f _ external_bus t
  end.

Definition managed_publish (io : bool) (now : N) (m : Message) (t : ManagedEventBusTransport)
    : result EventBusTransportEvent BusError * ManagedEventBusTransport :=
  match t with
  | MInMemory t => let '(r, t) := publish io now m t in (r, MInMemory t)
  | MFileBacked t => let '(r, t) := publish io now m t in (r, MFileBacked t)
  | MExternal t => let '(r, t) := publish io now m t in (r, MExternal t)
  end.

#[export] Instance managed_bus : EventBusBrokerClient ManagedEventBusTransport := {
  broker_kind := on_broker (fun T _ t => broker_kind t);
  broker_target := on_broker (fun T _ t => broker_target t);
  publish := managed_publish;
  export_for_stream_since s last n := on_broker (fun T _ t => export_for_stream_since s last n t);
  total_events := on_broker (fun T _ t => total_events t);
  last_event_id_for_stream s := on_broker (fun T _ t => last_event_id_for_stream s t);
  snapshot_events := on_broker (fun T _ t => snapshot_events t);
}.

(** ** Cursors: the trait [ReplayCursorStore] *)

Class ReplayCursorStore (C : Type) := {
  load : string -> C -> option N;
  save : bool -> N -> string -> N -> C -> result unit BusError * C;
}.

Definition InMemoryReplayCursorStore := gmap string N.

#[export] Instance in_memory_cursors : ReplayCursorStore InMemoryReplayCursorStore := {
  load k c := (c : gmap string N) !! k;
  save io now k v c := (Ok tt, <[k := v]> (c : gmap string N));
}.

(** The file is taken to be readable when a cursor is loaded; a file that cannot be
    read gives no cursor. *)
Record WalBackedReplayCursorStore := mkCursors { cursor_file : string; c_sequence : N }.

Definition max_sequence (rs : list Wal.WalRecord) : option N :=
  match rs with [] => None | _ => Some (foldr N.max 0 (map Wal.sequence rs)) end.

Definition cursors_new (readable : bool) (file : string) : WalBackedReplayCursorStore :=
  let records := match Wal.read_all readable file with Ok rs => Some rs | Err _ => None end in
  mkCursors file (default 1 ((fun v => u64_add v 1) <$> (let! rs := records in max_sequence rs))).

Definition cursor_record_key (stream : string) : string := "replay_cursor::" +:+ stream.

Definition wal_load (stream : string) (c : WalBackedReplayCursorStore) : option N :=
  match Wal.read_all true (cursor_file c) with
  | Err _ => None
  | Ok rs =>
      let! r := List.find (fun r => String.eqb (Wal.key r) (cursor_record_key stream)) (rev rs) in
      Dec.parse u64_max (Wal.value r)
  end.

Definition wal_save (io : bool) (now : N) (stream : string) (v : N) (c : WalBackedReplayCursorStore)
    : result unit BusError * WalBackedReplayCursorStore :=
  let r := Wal.mkWalRecord (c_sequence c) now (cursor_record_key stream) (Dec.to_string v) in
  let sq := u64_add (c_sequence c) 1 in
  match Wal.append io r (cursor_file c) with
  | (Ok _, file) => (Ok tt, mkCursors file sq)
  | (Err e, file) => (Err (AdapterAppend e), mkCursors file sq)
  end.

#[export] Instance wal_cursors : ReplayCursorStore WalBackedReplayCursorStore := {
  load := wal_load;
  save := wal_save;
}.

Inductive ManagedReplayCursorStore :=
| CInMemory (c : InMemoryReplayCursorStore)
| CWalBacked (c : WalBackedReplayCursorStore).

#[export] Instance managed_cursors : ReplayCursorStore ManagedReplayCursorStore := {
  load k c := match c with CInMemory c => load k c | CWalBacked c => load k c end;
  save io now k v c :=
    match c with
    | CInMemory c => let '(r, c) := save io now k v c in (r, CInMemory c)
    | CWalBacked c => let '(r, c) := save io now k v c in (r, CWalBacked c)
    end;
}.

(** ** The event log *)

Record InMemoryEventLog := mkLog { log_next_event_id : N; log_events : list StreamEventEnvelope }.

Definition log_new : InMemoryEventLog := mkLog 1 [].

Definition append_event (now : N) (m : Message) (l : InMemoryEventLog) : StreamEventEnvelope * InMemoryEventLog :=
  let e := envelope_of (log_next_event_id l) now m in
  (e, mkLog (u64_add (log_next_event_id l) 1) (log_events l ++ [e])).

Definition replay (from : N) (max_items : nat) (l : InMemoryEventLog) : list StreamEventEnvelope :=
  take max_items (List.filter (fun e => from <=? event_id e) (log_events l)).

(** [publish_to_sink] into a [CapturingStreamSink]. *)
Definition publish_to_sink (from : N) (max_items : nat) (sink : list StreamEventEnvelope) (l : InMemoryEventLog)
    : nat * list StreamEventEnvelope :=
  let r := replay from max_items l in (length r, foldl (fun s e => s ++ [e]) sink r).

Definition replay_from_store {C} `{!ReplayCursorStore C} (stream : string) (c : C) (max_items : nat)
    (l : InMemoryEventLog) : list StreamEventEnvelope :=
  let from := default 1 ((fun p => u64_add p 1) <$> load stream c) in
  take max_items (List.filter (fun e => String.eqb (stream_name e) stream && (from <=? event_id e)) (log_events l)).

Definition acknowledge_replay {C} `{!ReplayCursorStore C} (io : bool) (now : N) (stream : string)
    (delivered : list StreamEventEnvelope) (c : C) : result unit BusError * C :=
  match last delivered with
  | Some e => save io now stream (event_id e) c
  | None => (Ok tt, c)
  end.

(** A source over a fixed list of events. *)
Record StaticStreamSource := mkSource { s_cursor : nat; s_events : list StreamEventEnvelope }.

Definition next_event (s : StaticStreamSource) : option StreamEventEnvelope * StaticStreamSource :=
  match s_events s !! s_cursor s with
  | Some e => (Some e, mkSource (S (s_cursor s)) (s_events s))
  | None => (None, s)
  end.
End EventBus.
