(* ===== verification/EventBusProps.v ===== *)
(** * Theorems on the event bus and the cursors

    What a bus and a cursor store promise to consumers is stated as two classes of
    laws, which the in-memory, file-backed and broker-backed implementations
    discharge; a file-backed bus reopens as it was. *)

From S2P Require Import Prelude Str Decimal SqlKind Wal WalProps Select SelectProps EventBus.
From Stdlib Require Import Ascii.
Local Open Scope string_scope.
Local Open Scope list_scope.
Local Open Scope N_scope.
Local Open Scope vng_scope.

Import EventBus.

(** ** Records *)

Lemma escape_component_field v : escape_component v = Wal.escape_field v.
Proof.
  induction v as [|c v IH]; [done|]. rewrite escape_cons. cbn [escape_component]. rewrite IH. unfold esc_char.
  by destruct (Ascii.eqb c Wal.BACKSLASH), (Ascii.eqb c Wal.TABc), (Ascii.eqb c Wal.LFc).
Qed.

Lemma unescape_escape_component v : unescape_component (escape_component v) = v.
Proof. rewrite escape_component_field. apply (unescape_escape v). Qed.

Lemma length_flatten l : length (flatten_pairs l) = (2 * length l)%nat.
Proof. induction l as [|[k v] l IH]; cbn in *; [done|]. rewrite IH. lia. Qed.

Lemma pairs_flatten l : pairs (flatten_pairs l) = l.
Proof. induction l as [|[k v] l IH]; cbn; [done|]. by rewrite IH. Qed.

Lemma collect_pairs (l : list (string * string)) (m : gmap string string) :
  NoDup l.*1 → (∀ k, k ∈ l.*1 → m !! k = None) →
  foldl (fun m kv => <[kv.1 := kv.2]> m) m l = list_to_map l ∪ m.
Proof.
  revert m. induction l as [|[k v] l IH]; intros m Hnd Hm; cbn; [by rewrite (left_id_L ∅ (∪))|].
  cbn in Hnd. apply NoDup_cons in Hnd as [Hk Hnd]. rewrite IH; [|done|].
  - rewrite <- insert_union_r by (by apply not_elem_of_list_to_map_1). by rewrite insert_union_l.
  - intros k' Hk'. rewrite lookup_insert_ne by set_solver. apply Hm. set_solver.
Qed.

Lemma sorted_attributes_map m : foldl (fun m kv => <[kv.1 := kv.2]> m) ∅ (sorted_attributes m) = m.
Proof.
  assert (sorted_attributes m ≡ₚ map_to_list m) as Hp by apply sort_by_perm.
  rewrite collect_pairs.
  - rewrite (right_id_L ∅ (∪)). rewrite <- (list_to_map_to_list m) at 2. apply list_to_map_proper; [|done].
    rewrite Hp. apply NoDup_fst_map_to_list.
  - rewrite Hp. apply NoDup_fst_map_to_list.
  - intros k _. apply lookup_empty.
Qed.

(** An event that its record can hold. *)
Record recordable (e : EventBusTransportEvent) : Prop := {
  rc_sequence : transport_sequence e <= u64_max;
  rc_id : event_id (event e) <= u64_max;
  rc_time : occurred_epoch_ms (event e) <= Dec.u128_max;
  rc_attributes : 2 * N.of_nat (size (attributes (event e))) + 8 <= u64_max;
}.

Lemma split_components e :
  Str.split Str.TAB (Str.join Str.TAB (map escape_component (components e))) = map escape_component (components e).
Proof.
  unfold Str.split. apply Str.splitn_join; [done|done|by apply Str.length_join| |].
  - apply Forall_map, List.Forall_forall. intros p _. change (Str.butlast Str.TAB) with "".
    rewrite Str.app_empty_r, escape_component_field. apply no_tab, escape_line_chars.
  - intros p Hp. apply list_elem_of_In, in_map_iff in Hp as (c & <- & _).
    rewrite escape_component_field. apply no_tab, escape_line_chars.
Qed.

Lemma parse_direction d : parse_stream_direction (stream_direction_as_str d) = Ok d.
Proof. by destruct d; vm_compute. Qed.

Lemma decode_encode_event e : recordable e → decode_event_bus_record (encode_event_bus_record e) = Ok e.
Proof.
  intros [Hs Hi Ht Ha]. unfold decode_event_bus_record. cbn [Wal.value encode_event_bus_record].
  rewrite split_components, map_map.
  rewrite (map_ext _ id) by (intros; apply unescape_escape_component). rewrite map_id.
  destruct e as [sq [id sn d o ts p at']]. unfold components.
  cbn [event transport_sequence event_id stream_name direction origin occurred_epoch_ms payload_json attributes app] in *.
  assert (length (sorted_attributes at') = size at') as Hlen.
  { rewrite <- length_map_to_list. apply Permutation_length, sort_by_perm. }
  unfold ok_or. rewrite !Dec.parse_to_string by (done || lia). rewrite parse_direction.
  cbn [length]. rewrite length_flatten, Hlen.
  assert (u64_add 8 (u64_wrapping_mul (N.of_nat (size at')) 2) = N.of_nat (S (S (S (S (S (S (S (S (2 * size at')))))))))) as ->.
  { unfold u64_wrapping_mul. rewrite N.mod_small, u64_add_small by u64. lia. }
  rewrite N.eqb_refl. cbn [negb]. by rewrite pairs_flatten, sorted_attributes_map.
Qed.

(** ** Carriage returns

    Reading lines drops a carriage return before the line feed, so the last field
    of a record must not end in one. *)

Definition no_cr (s : string) : Prop := Str.strip_prefix Str.CR (Str.reverse_str s) = None.

Lemma no_cr_snoc a c : no_cr (a +:+ String c "") ↔ ascii_of_N 13 ≠ c.
Proof. unfold no_cr. rewrite cr_snoc. destruct (Ascii.eqb_spec (ascii_of_N 13) c); naive_solver. Qed.

Lemma no_cr_app a b : b ≠ "" → no_cr (a +:+ b) ↔ no_cr b.
Proof.
  intros Hb. destruct (string_snoc b) as [|(w & c & ->)]; [done|].
  by rewrite <- Str.app_assoc_str, !no_cr_snoc.
Qed.

Lemma no_cr_tab a b : no_cr b → no_cr (a +:+ Str.TAB +:+ b).
Proof.
  intros Hb. destruct (decide (b = "")) as [->|Hne].
  - rewrite Str.app_empty_r. unfold Str.TAB. cbn [Str.of_bytes]. by rewrite no_cr_snoc.
  - by rewrite <- Str.app_assoc_str, no_cr_app.
Qed.

Lemma no_cr_escape v : no_cr v → no_cr (escape_component v).
Proof.
  rewrite escape_component_field. destruct (string_snoc v) as [->|(w & c & ->)]; [done|].
  rewrite no_cr_snoc, escape_app, escape_char. intros Hc. unfold esc_char.
  destruct (Ascii.eqb c Wal.BACKSLASH); [by rewrite no_cr_app|].
  destruct (Ascii.eqb c Wal.TABc); [by rewrite no_cr_app|].
  destruct (Ascii.eqb c Wal.LFc); [by rewrite no_cr_app|]. by rewrite no_cr_snoc.
Qed.

Lemma no_cr_join l x : no_cr x → no_cr (Str.join Str.TAB (l ++ [x])).
Proof.
  intros Hx. induction l as [|p l IH]; [done|].
  destruct (l ++ [x]) as [|q r] eqn:Hl; [by destruct l|].
  change ((p :: l) ++ [x]) with (p :: (l ++ [x])). rewrite Hl.
  change (Str.join Str.TAB (p :: q :: r)) with (p +:+ Str.TAB +:+ Str.join Str.TAB (q :: r)). by apply no_cr_tab.
Qed.

Lemma no_cr_decimal n : no_cr (Dec.to_string n).
Proof.
  destruct (Dec.to_string_digits n) as [Hd Hne]. destruct (string_snoc (Dec.to_string n)) as [|(w & c & Hw)]; [done|].
  rewrite Hw in *. rewrite no_cr_snoc. rewrite all_chars_app in Hd. apply andb_prop in Hd as [_ Hd]. cbn in Hd.
  by intros <-.
Qed.

(** Messages whose records survive: the last field is the value of an attribute. *)
Definition clean (m : gmap string string) : Prop := ∀ k v, m !! k = Some v → no_cr v.

Lemma flatten_app a b : flatten_pairs (a ++ b) = flatten_pairs a ++ flatten_pairs b.
Proof. induction a as [|[k v] a IH]; cbn; [done|]. by rewrite IH. Qed.

Lemma components_last e : clean (attributes (event e)) → ∃ l x, components e = l ++ [x] ∧ no_cr x.
Proof.
  intros Hc. unfold components. set (attrs := sorted_attributes (attributes (event e))).
  assert (∀ kv, kv ∈ attrs → no_cr kv.2) as Hall.
  { intros [k v] Hkv. unfold attrs, sorted_attributes in Hkv. rewrite sort_by_perm in Hkv.
    apply elem_of_map_to_list in Hkv. by eapply Hc. }
  destruct attrs as [|[k v] attrs' _] using rev_ind.
  - cbn [length flatten_pairs]. rewrite app_nil_r.
    match goal with |- ∃ l x, [?a; ?b; ?c; ?d; ?f; ?g; ?h; ?x] = _ ∧ _ => exists [a; b; c; d; f; g; h], x end.
    split; [done|apply no_cr_decimal].
  - rewrite flatten_app. cbn [flatten_pairs]. do 2 eexists. split; [rewrite !app_assoc|apply (Hall (k, v)); set_solver].
    change [k; v] with ([k] ++ [v]). by rewrite !app_assoc.
Qed.

Lemma storable_event e : recordable e → clean (attributes (event e)) → storable (encode_event_bus_record e).
Proof.
  intros [Hs _ Ht _] Hc. split; [done|]. split; [done|]. unfold cr_free. cbn [Wal.value encode_event_bus_record].
  destruct (components_last e Hc) as (l & x & -> & Hx). rewrite map_app. by apply no_cr_join, no_cr_escape.
Qed.

(** ** The file-backed bus *)

(** A message that can be recorded at [now]. *)
Record message_ok (now : N) (m : Message) : Prop := {
  mo_time : now <= Dec.u128_max;
  mo_size : 2 * N.of_nat (size (m_attributes m)) + 8 <= u64_max;
  mo_clean : clean (m_attributes m);
}.

Definition event_ok (e : EventBusTransportEvent) : Prop :=
  occurred_epoch_ms (event e) <= Dec.u128_max ∧ 2 * N.of_nat (size (attributes (event e))) + 8 <= u64_max ∧
  clean (attributes (event e)).

(** Events are numbered from 1 in both numberings. *)
Definition numbered (es : list EventBusTransportEvent) : Prop :=
  ∀ i e, es !! i = Some e → transport_sequence e = N.of_nat i + 1 ∧ event_id (event e) = N.of_nat i + 1.

Record file_inv (t : FileBackedEventBusTransport) : Prop := {
  fi_file : wal_file t = file_of (map encode_event_bus_record (events t));
  fi_events : Forall event_ok (events t);
  fi_numbered : numbered (events t);
  fi_sequence : next_transport_sequence t = N.of_nat (length (events t)) + 1;
  fi_id : next_event_id t = N.of_nat (length (events t)) + 1;
  fi_bound : N.of_nat (length (events t)) < u64_max;
}.

Lemma bus_numbered_snoc es e :
  numbered es → transport_sequence e = N.of_nat (length es) + 1 → event_id (event e) = N.of_nat (length es) + 1 →
  numbered (es ++ [e]).
Proof.
  intros Hn H1 H2 i e' He. apply lookup_app_Some in He as [He|[Hl He]]; [by apply Hn|].
  apply list_lookup_singleton_Some in He as [Hi <-]. rewrite H1, H2. assert (i = length es) as -> by lia. done.
Qed.

Lemma file_publish_inv io now m t :
  file_inv t → message_ok now m → N.of_nat (length (events t)) + 1 < u64_max →
  let '(r, t') := file_publish io now m t in
  file_inv t' ∧
  match r with
  | Ok e => events t' = events t ++ [e] ∧ event e = envelope_of (N.of_nat (length (events t)) + 1) now m
  | Err _ => t' = t
  end.
Proof.
  intros [Hf He Hn Hs Hi Hb] [Hnow Hsz Hc] Hroom. unfold file_publish, Wal.append. destruct io.
  - split; [|by rewrite Hi]. split; cbn [wal_file events next_transport_sequence next_event_id].
    + rewrite map_app. cbn [map]. by rewrite file_of_snoc, Hf.
    + apply Forall_app. split; [done|]. apply Forall_singleton. split_and!; done.
    + apply bus_numbered_snoc; done.
    + rewrite Hs, u64_add_small, length_app by u64. cbn. lia.
    + rewrite Hi, u64_add_small, length_app by u64. cbn. lia.
    + rewrite length_app. cbn. lia.
  - split; [by split|]. by destruct t.
Qed.

(** What reading the records back computes. *)
Lemma decode_all_spec es k acc :
  Forall event_ok es → (∀ i e, es !! i = Some e → transport_sequence e = N.of_nat (k + i) + 1 ∧
                                 event_id (event e) = N.of_nat (k + i) + 1) →
  N.of_nat (k + length es) < u64_max →
  decode_all (map encode_event_bus_record es) (N.of_nat k + 1) (N.of_nat k + 1) acc
  = Ok (N.of_nat (k + length es) + 1, N.of_nat (k + length es) + 1, acc ++ es).
Proof.
  revert k acc. induction es as [|e es IH]; intros k acc Hok Hn Hb; cbn [map decode_all length].
  { rewrite app_nil_r, Nat.add_0_r. done. }
  apply Forall_cons in Hok as [(Ht & Ha & Hc) Hok]. cbn [length] in Hb.
  destruct (Hn 0%nat e eq_refl) as [Hs Hi]. rewrite Nat.add_0_r in Hs, Hi.
  rewrite decode_encode_event by (split; [lia..|done|done]).
  rewrite Hs, Hi, u64_add_small by u64.
  replace (N.max (N.of_nat k + 1) (N.of_nat k + 1 + 1)) with (N.of_nat (S k) + 1) by lia.
  rewrite (IH (S k)); [|done| |lia].
  - replace (S k + length es)%nat with (k + S (length es))%nat by lia. by rewrite <- app_assoc.
  - intros i e' He'. destruct (Hn (S i) e' He') as [H1 H2].
    replace (S k + i)%nat with (k + S i)%nat by lia. done.
Qed.

Lemma file_reopen t : file_inv t → file_new true true (wal_file t) = Ok t.
Proof.
  intros [Hf He Hn Hs Hi Hb]. unfold file_new. cbn [negb].
  assert (Wal.read_all true (wal_file t) = Ok (map encode_event_bus_record (events t))) as ->.
  { rewrite Hf. apply read_all_file, Forall_map, List.Forall_forall. intros e Hin. apply list_elem_of_In in Hin.
    rewrite Forall_forall in He. destruct (He e Hin) as (H1 & H2 & H3).
    apply list_elem_of_lookup in Hin as [i Hi']. destruct (Hn i e Hi') as [H4 H5]. apply lookup_lt_Some in Hi'.
    apply storable_event; [split; [lia..|done|done]|done]. }
  pose proof (decode_all_spec (events t) 0 []) as Hd. cbn [Nat.add app] in Hd. change (N.of_nat 0 + 1) with 1 in Hd.
  rewrite Hd by done. destruct t as [f sq id es].
  cbn [wal_file next_transport_sequence next_event_id events] in *. by rewrite Hs, Hi.
Qed.

Lemma file_empty : file_new true true "" = Ok (mkFile "" 1 1 []).
Proof. reflexivity. Qed.

(** Publishing a list of messages; each is written or not. *)
Fixpoint publish_all (ms : list (bool * N * Message)) (t : FileBackedEventBusTransport) : FileBackedEventBusTransport :=
  match ms with
  | [] => t
  | (io, now, m) :: ms => publish_all ms (file_publish io now m t).2
  end.

Lemma publish_all_inv ms t :
  file_inv t → Forall (fun '(_, now, m) => message_ok now m) ms →
  N.of_nat (length (events t) + length ms) < u64_max → file_inv (publish_all ms t).
Proof.
  revert t. induction ms as [|[[io now] m] ms IH]; intros t Hinv Hok Hb; [done|]. cbn [publish_all length] in *.
  apply Forall_cons in Hok as [Hm Hok]. pose proof (file_publish_inv io now m t Hinv Hm) as Hp.
  destruct (file_publish io now m t) as [r t']. destruct Hp as [Hinv' Hr]; [lia|]. cbn [snd]. apply IH; [done|done|].
  destruct r; [destruct Hr as [-> _]; rewrite length_app; cbn; lia|subst; lia].
Qed.

(** A file-backed bus survives a restart: after any sequence of publications,
    each of which is written or fails, opening the file again gives the very same
    bus, with its events, their attributes and the next numbers. *)
Theorem event_bus_survives_restart (ms : list (bool * N * Message)) :
  Forall (fun '(_, now, m) => message_ok now m) ms → N.of_nat (length ms) < u64_max →
  let t := publish_all ms (mkFile "" 1 1 []) in
  file_new true true (wal_file t) = Ok t.
Proof.
  intros Hok Hb t. apply file_reopen, publish_all_inv; [|done|done].
  by split.
Qed.

(** ** What a bus promises *)

Definition appends_one (es es' : list EventBusTransportEvent) (now : N) (m : Message) : Prop :=
  ∃ e, es' = es ++ [e] ∧ event e = envelope_of (N.of_nat (length es) + 1) now m.

Class EventBusLaws (T : Type) `{!EventBusBrokerClient T} := {
  bus_inv : T -> Prop;
  bus_exports : ∀ s last n t, export_for_stream_since s last n t = export_since s last n (snapshot_events t);
  bus_ids : ∀ t i e, bus_inv t → snapshot_events t !! i = Some e → event_id (event e) = N.of_nat i + 1;
  bus_publishes : ∀ io now m t, bus_inv t → message_ok now m →
    N.of_nat (length (snapshot_events t)) + 1 < u64_max →
    let '(r, t') := publish io now m t in
    bus_inv t' ∧
    match r with
    | Ok e => appends_one (snapshot_events t) (snapshot_events t') now m
    | Err _ => snapshot_events t' = snapshot_events t ∨ appends_one (snapshot_events t) (snapshot_events t') now m
    end;
}.

(** A bus that is opened again after the process ends. *)
Class DurableBus (T : Type) `{!EventBusBrokerClient T} `{!EventBusLaws T} := {
  bus_restart : T -> option T;
  bus_restarts : ∀ t, bus_inv t → ∃ t', bus_restart t = Some t' ∧ bus_inv t' ∧ snapshot_events t' = snapshot_events t;
}.

Record mem_inv (t : InMemoryEventBusTransport) : Prop := {
  mi_numbered : numbered (mem_events t);
  mi_sequence : mem_next_transport_sequence t = N.of_nat (length (mem_events t)) + 1;
  mi_id : mem_next_event_id t = N.of_nat (length (mem_events t)) + 1;
}.

#[export] Program Instance in_memory_laws : EventBusLaws InMemoryEventBusTransport := { bus_inv := mem_inv }.
Next Obligation. done. Qed.
Next Obligation. intros t i e Hinv He. by apply (mi_numbered t Hinv). Qed.
Next Obligation.
  intros io now m t [Hn Hs Hi] _ Hroom. cbn in *. split.
  - split; cbn; rewrite ?Hs, ?Hi, ?u64_add_small, ?length_app by u64; cbn; [|lia..]. by apply bus_numbered_snoc.
  - eexists. split; [reflexivity|]. cbn. by rewrite Hi.
Qed.

#[export] Program Instance file_laws : EventBusLaws FileBackedEventBusTransport := { bus_inv := file_inv }.
Next Obligation. done. Qed.
Next Obligation. intros t i e Hinv He. by apply (fi_numbered t Hinv). Qed.
Next Obligation.
  intros io now m t Hinv Hm Hroom. pose proof (file_publish_inv io now m t Hinv Hm Hroom) as Hp. cbn in *.
  destruct (file_publish io now m t) as [[e|e] t']; destruct Hp as [Hi Hp]; (split; [done|]).
  - by exists e.
  - left. by rewrite Hp.
Qed.

#[export] Program Instance file_durable : DurableBus FileBackedEventBusTransport := {
  bus_restart t := match file_new true true (wal_file t) with Ok t => Some t | Err _ => None end }.
Next Obligation. intros t Hinv. exists t. by rewrite (file_reopen t Hinv). Qed.

Section External.
Context {P : Type} `{!ExternalBrokerPublisher P}.

#[export] Program Instance external_laws : EventBusLaws (ExternalBrokerBackedEventBusTransport P) :=
  { bus_inv t := file_inv (ledger t) }.
Next Obligation. done. Qed.
Next Obligation. intros t i e Hinv He. by apply (fi_numbered (ledger t) Hinv). Qed.
Next Obligation.
  intros io now m t Hinv Hm Hroom. pose proof (file_publish_inv io now m (ledger t) Hinv Hm Hroom) as Hp.
  cbn in *. unfold external_publish. destruct (file_publish io now m (ledger t)) as [[e|e] l]; destruct Hp as [Hi Hp].
  - destruct (pub_publish _ _) as [[u|u] p]; cbn; (split; [done|]); [|right]; by exists e.
  - cbn. split; [done|]. left. by rewrite Hp.
Qed.
End External.

(** The dispatched messages are not kept, the ledger is. *)
Definition external_restart (t : ExternalBrokerBackedEventBusTransport ConfiguredExternalBrokerPublisher)
    : option (ExternalBrokerBackedEventBusTransport ConfiguredExternalBrokerPublisher) :=
  match with_publisher true true (wal_file (ledger t)) (mkPublisher (p_kind (publisher t)) (p_target (publisher t)) [])
          (Some (subject_prefix t)) with
  | Ok t => Some t
  | Err _ => None
  end.

#[export] Program Instance external_durable
    : DurableBus (ExternalBrokerBackedEventBusTransport ConfiguredExternalBrokerPublisher) :=
  { bus_restart := external_restart }.
Next Obligation.
  intros t Hinv. unfold external_restart, with_publisher. pose proof (file_reopen (ledger t) Hinv) as ->. by eexists.
Qed.

(** ** What a cursor store promises *)

Class CursorLaws (C : Type) `{!ReplayCursorStore C} := {
  cur_inv : C -> Prop;
  (** The record numbers that are used up. *)
  cur_used : C -> N;
  cur_saves : ∀ io now k v c, cur_inv c → now <= Dec.u128_max → v <= u64_max → cur_used c < u64_max →
    let '(r, c') := save io now k v c in
    cur_inv c' ∧ cur_used c' <= cur_used c + 1 ∧
    ∀ k', load k' c' = match r with Ok _ => if decide (k' = k) then Some v else load k' c | Err _ => load k' c end;
}.

Class DurableCursors (C : Type) `{!ReplayCursorStore C} `{!CursorLaws C} := {
  cur_restart : C -> C;
  cur_restarts : ∀ c, cur_inv c →
    cur_inv (cur_restart c) ∧ cur_used (cur_restart c) <= cur_used c ∧ ∀ k, load k (cur_restart c) = load k c;
}.

#[export] Program Instance in_memory_cursor_laws : CursorLaws InMemoryReplayCursorStore :=
  { cur_inv _ := True; cur_used _ := 0 }.
Next Obligation.
  intros io now k v c _ _ _ _. cbn. split; [done|]. split; [lia|]. intros k'.
  destruct (decide (k' = k)) as [->|Hne]; [apply lookup_insert_eq|by rewrite lookup_insert_ne].
Qed.

(** The file holds records with smaller numbers than the next. *)
Definition cursors_at (c : WalBackedReplayCursorStore) (rs : list Wal.WalRecord) : Prop :=
  cursor_file c = file_of rs ∧ Forall storable rs ∧ Forall (fun r => Wal.sequence r < c_sequence c) rs ∧
  1 <= c_sequence c <= u64_max.

Lemma wal_load_at c rs k :
  cursors_at c rs →
  wal_load k c = (let! r := List.find (fun r => String.eqb (Wal.key r) (cursor_record_key k)) (rev rs) in
                  Dec.parse u64_max (Wal.value r)).
Proof. intros (Hf & Hs & _). unfold wal_load. by rewrite Hf, read_all_file. Qed.

Lemma cursor_key_inj a b : cursor_record_key a = cursor_record_key b → a = b.
Proof. unfold cursor_record_key. intros Heq. by repeat injection Heq as Heq. Qed.

Lemma wal_save_at io now k v c rs :
  cursors_at c rs → now <= Dec.u128_max → v <= u64_max → c_sequence c < u64_max →
  let r := Wal.mkWalRecord (c_sequence c) now (cursor_record_key k) (Dec.to_string v) in
  cursors_at (wal_save io now k v c).2 (if io then rs ++ [r] else rs) ∧
  (wal_save io now k v c).1 = (if io then Ok tt else Err (AdapterAppend Wal.Io)).
Proof.
  intros (Hf & Hs & Hq & Hb) Hnow Hv Hroom r. unfold wal_save, Wal.append. fold r. destruct io; (split; [|done]).
  - split_and!; cbn [snd cursor_file c_sequence]; rewrite ?u64_add_small by u64; try lia.
    + by rewrite file_of_snoc, Hf.
    + apply Forall_app. split; [done|]. apply Forall_singleton. split_and!; [cbn; lia|done|apply no_cr_decimal].
    + apply Forall_app. split; [|apply Forall_singleton; cbn; lia]. eapply Forall_impl; [exact Hq|]. cbn. lia.
  - split_and!; cbn [snd cursor_file c_sequence]; rewrite ?u64_add_small by u64; try lia; [done|done|].
    eapply Forall_impl; [exact Hq|]. cbn. lia.
Qed.

#[export] Program Instance wal_cursor_laws : CursorLaws WalBackedReplayCursorStore :=
  { cur_inv c := ∃ rs, cursors_at c rs; cur_used := c_sequence }.
Next Obligation.
  intros io now k v c [rs Hat] Hnow Hv Hroom. cbn.
  pose proof (wal_save_at io now k v c rs Hat Hnow Hv Hroom) as [Hat' Hr].
  destruct (wal_save io now k v c) as [r c'] eqn:Hw. cbn [fst snd] in *. subst r.
  split; [by eexists|]. split.
  { unfold wal_save, Wal.append in Hw. destruct io; injection Hw as <-; cbn; rewrite u64_add_small by u64; lia. }
  intros k'. rewrite (wal_load_at c' _ k' Hat'), (wal_load_at c rs k' Hat). destruct io; [|done].
  rewrite rev_app_distr. cbn [rev app List.find Wal.key].
  destruct (decide (k' = k)) as [->|Hne].
  - rewrite String.eqb_refl. cbn. by apply Dec.parse_to_string.
  - destruct (String.eqb_spec (cursor_record_key k) (cursor_record_key k')) as [He|]; [|done].
    by apply cursor_key_inj in He.
Qed.

Lemma max_of_bound (l : list N) b : 0 < b → Forall (fun n => n < b) l → foldr N.max 0 l < b.
Proof. intros Hb. induction 1; cbn; lia. Qed.

Lemma max_of_all (l : list N) : Forall (fun n => n <= foldr N.max 0 l) l.
Proof. induction l as [|a l IH]; constructor; cbn; [lia|]. eapply Forall_impl; [exact IH|]. cbn. lia. Qed.

Lemma max_sequence_bound rs b v : Forall (fun r => Wal.sequence r < b) rs → max_sequence rs = Some v → v < b.
Proof.
  intros Hall Hm. assert (v = foldr N.max 0 (map Wal.sequence rs)) as ->; [by destruct rs; [|injection Hm]|].
  apply max_of_bound; [|by apply Forall_map]. destruct Hall; [done|lia].
Qed.

Lemma max_sequence_all rs v : max_sequence rs = Some v → Forall (fun r => Wal.sequence r <= v) rs.
Proof.
  intros Hm. assert (v = foldr N.max 0 (map Wal.sequence rs)) as ->; [by destruct rs; [|injection Hm]|].
  apply List.Forall_forall. intros r Hr.
  apply (proj1 (List.Forall_forall _ _) (max_of_all (map Wal.sequence rs))). by apply in_map.
Qed.

#[export] Program Instance wal_cursors_durable : DurableCursors WalBackedReplayCursorStore :=
  { cur_restart c := cursors_new true (cursor_file c) }.
Next Obligation.
  intros c [rs Hat]. pose proof Hat as (Hf & Hs & Hq & Hb).
  assert (cursors_at (cursors_new true (cursor_file c)) rs ∧
          c_sequence (cursors_new true (cursor_file c)) <= c_sequence c) as [Hat' Hle].
  { unfold cursors_new. rewrite Hf, read_all_file by done. cbn.
    destruct (max_sequence rs) as [v|] eqn:Hv; cbn.
    - pose proof (max_sequence_bound _ _ _ Hq Hv). rewrite u64_add_small by u64. split; [|lia].
      split_and!; cbn; [done|done| |lia|lia].
      eapply Forall_impl; [by apply max_sequence_all|]. cbn. lia.
    - destruct rs; [|done]. split; [|lia]. split; [done|]. split; [done|]. split; [constructor|]. cbn. lia. }
  split; [by eexists|]. split; [done|]. intros k. cbn [load wal_cursors].
  rewrite (wal_load_at _ rs) by done. by rewrite (wal_load_at c rs).
Qed.
