(* ===== verification/Ingest.v ===== *)
(** * Ingestion ([crates/voltnuerongrid-ingest/src/csv.rs], [json.rs],
      [chunked_loader.rs], [services/voltnuerongridd/src/handlers/ingest.rs],
      [helpers/op_events.rs], [helpers/dataplane.rs])

    The connectors that turn text into records, the chunked loaders, and the
    handlers that write the records to the row store and the outbox and deliver
    outbox events to consumers. *)

From S2P Require Import Prelude Str Decimal SqlKind Mvcc Wal Select Flush Auth UserStore AccessControl Json AuditChain EventBus.
From Stdlib Require Import Ascii.
Local Open Scope string_scope.
Local Open Scope list_scope.
Local Open Scope N_scope.
Local Open Scope vng_scope.

Module Ingest.
Import SqlKind Auth UserStore Access Json EventBus.

Record IngestRecord := mkRecord { key : string; payload : string }.

(** ** Connectors *)

(** [str::lines] *)
Definition text_lines (s : string) : list string := Wal.lines (String.length s) s.

Definition csv_line (line : string) : option IngestRecord :=
  let trimmed := Str.trim line in
  if String.eqb trimmed "" then None
  else
    let '(k, p) := match Str.split_once "," trimmed with Some kp => kp | None => (trimmed, "") end in
    let k := Str.trim k in
    if String.eqb k "" then None else Some (mkRecord k (Str.trim p)).

(** [CsvConnector::load_csv]: the first line is a header. *)
Definition load_csv (text : string) : list IngestRecord :=
  match text_lines text with
  | [] => []
  | _ :: rows => omap csv_line rows
  end.

Definition QUOTE : string := String (ascii_of_N 34) "".

(** The text before the first of the patterns. *)
Fixpoint take_until (pats : list string) (s : string) : string :=
  match s with
  | EmptyString => ""
  | String c r => match Str.strip_any pats s with Some _ => "" | None => String c (take_until pats r) end
  end.

Definition extract_string_field (line field : string) : option string :=
  let! (_, after_key) := Str.split_once (QUOTE +:+ field +:+ QUOTE) line in
  let! after_colon := Str.strip_prefix ":" (Str.trim_start after_key) in
  let after_colon := Str.trim_start after_colon in
  match Str.strip_prefix QUOTE after_colon with
  | Some rest => let! (v, _) := Str.split_once QUOTE rest in Some v
  | None =>
      let v := Str.trim (take_until ([","; "}"; "]"] ++ Str.whitespace) after_colon) in
      if String.eqb v "" then None else Some v
  end.

Definition ndjson_line (key_field line : string) : option IngestRecord :=
  let trimmed := Str.trim line in
  if String.eqb trimmed "" then None
  else let! k := extract_string_field trimmed key_field in Some (mkRecord k trimmed).

(** [JsonConnector::load_ndjson] *)
Definition load_ndjson (key_field text : string) : list IngestRecord := omap (ndjson_line key_field) (text_lines text).

(** ** Chunked loading *)

(** [slice::chunks]; a size of 0 panics. *)
Fixpoint chunks_fuel {A} (fuel n : nat) (l : list A) : list (list A) :=
  match fuel, l with
  | S fuel, _ :: _ => take n l :: chunks_fuel fuel n (drop n l)
  | _, _ => []
  end.

Definition chunks {A} (n : nat) (l : list A) : option (list (list A)) :=
  if (n =? 0)%nat then None else Some (chunks_fuel (length l) n l).

Record IngestParallelConfig := mkConfig { max_in_flight_tasks : nat; chunk_target_rows : nat }.

Definition validated (c : IngestParallelConfig) : result IngestParallelConfig string :=
  if (max_in_flight_tasks c =? 0)%nat then Err "max_in_flight_tasks must be >= 1"
  else if (chunk_target_rows c =? 0)%nat then Err "chunk_target_rows must be >= 1"
  else Ok c.

Record ChunkOutcome := mkOutcome { chunk_index : nat; records_in_chunk : nat }.

Record ChunkedIngestStats := mkStats {
  total_records : nat;
  chunk_count : nat;
  s_chunk_target_rows : nat;
  s_max_in_flight_tasks : nat;
  tasks_dispatched : nat;
  outcomes : list ChunkOutcome;
}.

(** The outcomes of windows of chunks, numbered. *)
Definition window_outcomes {A} (window : nat) (waves : list (list (list A))) : list ChunkOutcome :=
  concat (imap (fun start wave => imap (fun slot (c : list A) => mkOutcome (start * window + slot) (length c)) wave) waves).

(** [None] is a panic on a chunk size of 0. *)
Definition load_records_chunked (records : list IngestRecord) (c : IngestParallelConfig) : option ChunkedIngestStats :=
  match records with
  | [] => Some (mkStats 0 0 (chunk_target_rows c) (max_in_flight_tasks c) 0 [])
  | _ =>
      let! cs := chunks (chunk_target_rows c) records in
      let window := Nat.max (max_in_flight_tasks c) 1 in
      let! waves := chunks window cs in
      Some (mkStats (length records) (length cs) (chunk_target_rows c) (max_in_flight_tasks c)
              (Nat.min (length cs) (max_in_flight_tasks c)) (window_outcomes window waves))
  end.

Definition valid_record (r : IngestRecord) : bool :=
  negb (String.eqb (key r) "") && negb (String.eqb (payload r) "").

(** The task of one chunk. *)
Definition validate_chunk (idx : nat) (chunk : list IngestRecord) : list IngestRecord * nat * ChunkOutcome :=
  let '(valid, invalid) :=
    foldl (fun '(v, i) r => if valid_record r then (v ++ [r], i) else (v, S i)) ([], 0%nat) chunk in
  (valid, invalid, mkOutcome idx (length chunk)).

(** The parallel map keeps the order of the chunks; [threads] is the size of the
    pool. *)
Definition load_records_parallel (threads : nat) (records : list IngestRecord) (chunk_size : nat)
    : list IngestRecord * nat * ChunkedIngestStats :=
  match records with
  | [] => ([], 0%nat, mkStats 0 0 chunk_size threads 0 [])
  | _ =>
      let effective := Nat.max chunk_size 1 in
      let cs := default [] (chunks effective records) in
      let results := imap validate_chunk cs in
      let '(all_valid, all_invalid, outs) :=
        foldl (fun '(v, i, o) '(v', i', o') => (v ++ v', (i + i')%nat, o ++ [o'])) ([], 0%nat, []) results in
      (all_valid, all_invalid,
       mkStats (length records) (length cs) effective threads (Nat.min (length cs) threads) outs)
  end.

Definition load_excel_sheets_parallel (threads : nat) (sheets : list (string * list IngestRecord)) (chunk_size : nat)
    : list (string * list IngestRecord * nat) :=
  map (fun '(name, records) =>
         let '(valid, invalid, _) := load_records_parallel threads records chunk_size in (name, valid, invalid)) sheets.

Definition estimate_optimal_thread_count (total_rows : N) : N := N.max (N.min (total_rows / 10000) 4) 1.

(** ** Operational events: a ring of the latest *)

Definition OPERATIONAL_EVENT_CAPACITY : nat := 1024.

Section Server.
Context {F : Type} `{!JsonText F} `{!EventText} `{!TokenCrypto} `{!HeaderText}.
Context {E : Type} `{!RowEngine E}.
Context {T : Type} `{!EventBusBrokerClient T} {C : Type} `{!ReplayCursorStore C}.

Record OperationalEvent := mkOpEvent {
  op_event_id : N; subsystem : string; op_kind : string; op_epoch_ms : N; detail : Value F;
}.

Record OperationalEventStream := mkOpStream { next_id : N; op_events : list OperationalEvent }.

Definition emit (now : N) (subsystem kind : string) (detail : Value F) (s : OperationalEventStream)
    : N * OperationalEventStream :=
  let id := N.max (next_id s) 1 in
  let es := if (OPERATIONAL_EVENT_CAPACITY <=? length (op_events s))%nat then drop 1 (op_events s) else op_events s in
  (id, mkOpStream (u64_add id 1) (es ++ [mkOpEvent id subsystem kind now detail])).

Definition recent (sub : option string) (limit : nat) (s : OperationalEventStream) : list OperationalEvent :=
  let out := List.filter (fun e => match sub with Some x => eq_ignore_ascii_case (subsystem e) x | None => true end)
               (op_events s) in
  drop (length out - limit) out.

(** ** The server's ingest state *)

Record IngestServer := mkServer {
  node_id : string;
  csv_records : gmap string (list IngestRecord);
  json_records : gmap string (list IngestRecord);
  outbox_streams : gmap string string;
  event_bus : T;
  outbox_cursors : C;
  row_store : RowStore.PagedRowStore;
  wal_engine : E;
  audit : AuditLog.AuditState;
  ops : OperationalEventStream;
}.

Definition set_rows (rs : RowStore.PagedRowStore) (e : E) (s : IngestServer) : IngestServer :=
  mkServer (node_id s) (csv_records s) (json_records s) (outbox_streams s) (event_bus s) (outbox_cursors s) rs e (audit s)
    (ops s).
Definition set_csv (m : gmap string (list IngestRecord)) (s : IngestServer) : IngestServer :=
  mkServer (node_id s) m (json_records s) (outbox_streams s) (event_bus s) (outbox_cursors s) (row_store s) (wal_engine s)
    (audit s) (ops s).
Definition set_json (m : gmap string (list IngestRecord)) (s : IngestServer) : IngestServer :=
  mkServer (node_id s) (csv_records s) m (outbox_streams s) (event_bus s) (outbox_cursors s) (row_store s) (wal_engine s)
    (audit s) (ops s).
Definition set_outbox (streams : gmap string string) (bus : T) (cursors : C) (s : IngestServer) : IngestServer :=
  mkServer (node_id s) (csv_records s) (json_records s) streams bus cursors (row_store s) (wal_engine s) (audit s) (ops s).
Definition set_logs (a : AuditLog.AuditState) (o : OperationalEventStream) (s : IngestServer) : IngestServer :=
  mkServer (node_id s) (csv_records s) (json_records s) (outbox_streams s) (event_bus s) (outbox_cursors s) (row_store s)
    (wal_engine s) a o.

(** What a request meets outside: the clock, whether the audit file opens, which
    writes to the bus's and the cursors' files succeed. *)
Record Env := mkEnv { now : N; opened : bool; bus_io : nat -> bool; cursor_io : bool }.

Definition ingest_scope_for_connector (connector format : string) : string :=
  "ingest/connectors/" +:+ connector +:+ "/" +:+ format.

Definition ingest_outbox_scope (connector : option string) : string :=
  match connector with Some c => "ingest/outbox/" +:+ c | None => "ingest/outbox" end.

Definition ingest_outbox_stream_name (storage_key : string) : string :=
  "ingest.outbox." +:+ Wal.replace " " "_" (Wal.replace ":" "." (Wal.replace "/" "." storage_key)).

Definition ingest_storage_key (p : RuntimeAccessPrincipal) (connector : string) : string :=
  match p with
  | Operator _ => connector
  | TenantUser u => "tenant/" +:+ tu_tenant_id u +:+ "/" +:+ connector
  end.

(** ** The outbox *)

Definition outbox_message (node : string) (p : RuntimeAccessPrincipal) (connector format storage_key stream : string)
    (r : IngestRecord) : Message :=
  let base : gmap string string :=
    <["record_key" := key r]> (<["storage_key" := storage_key]> (<["format" := format]> {["connector_id" := connector]})) in
  let attrs := match p with TenantUser u => <["tenant_id" := tu_tenant_id u]> base | Operator _ => base end in
  mkMessage stream Internal node
    (Json.to_string (Json.object (F := F)
       [("connector_id", Text connector); ("format", Text format); ("storage_key", Text storage_key);
        ("record_key", Text (key r)); ("payload", Text (payload r))])) attrs.

(** Publications one after the other; those that succeed are counted. *)
Fixpoint publish_messages (env : Env) (i : nat) (ms : list Message) (appended : nat) (bus : T) : nat * T :=
  match ms with
  | [] => (appended, bus)
  | m :: ms =>
      let '(r, bus) := publish (bus_io env i) (now env) m bus in
      publish_messages env (S i) ms (match r with Ok _ => S appended | Err _ => appended end) bus
  end.

Definition append_ingest_outbox_events (env : Env) (p : RuntimeAccessPrincipal) (connector format : string)
    (records : list IngestRecord) (s : IngestServer) : nat * IngestServer :=
  let storage_key := ingest_storage_key p connector in
  let stream := ingest_outbox_stream_name storage_key in
  let streams := <[storage_key := stream]> (outbox_streams s) in
  let '(n, bus) :=
    publish_messages env 0 (map (outbox_message (node_id s) p connector format storage_key stream) records) 0
      (event_bus s) in
  (n, set_outbox streams bus (outbox_cursors s) s).

(** ** Loading records *)

Definition row_entry (format connector : string) (r : IngestRecord) : string * RowData :=
  (key r, <["source" := format +:+ ":" +:+ connector]> {["payload" := payload r]}).

Fixpoint insert_entries (x : N) (es : list (string * RowData)) (rs : RowStore.PagedRowStore)
    : option RowStore.PagedRowStore :=
  match es with
  | [] => Some rs
  | (k, d) :: es => let! rs := RowStore.insert x k d rs in insert_entries x es rs
  end.

(** Rows under a transaction id of their own, in the store and in the engine. *)
Definition store_entries (connector : string) (es : list (string * RowData)) (s : IngestServer) : option IngestServer :=
  let '(x, rs) := RowStore.begin_xid (row_store s) in
  let! rs := insert_entries x es rs in
  let e := foldl (fun e kd => store_row connector kd.1 x (Some kd.2) e) (wal_engine s) es in
  Some (set_rows rs e s).

Definition record_audit (env : Env) (p : RuntimeAccessPrincipal) (action : string) (details : Value F) (s : IngestServer)
    : IngestServer :=
  set_logs (AuditLog.append_runtime_audit_event (opened env) (now env) Audit.Ingest p action "ok" details (audit s)) (ops s) s.

(** [POST ingest/csv]: the number of records; [None] is a panic. *)
Definition ingest_csv (env : Env) (h : gmap string string) (a : AuthState) (connector text : string) (s : IngestServer)
    : option (result nat HttpError * IngestServer) :=
  match require_ingest_runtime_privilege (now env) h a Write (ingest_scope_for_connector connector "csv") with
  | Err e => Some (Err e, s)
  | Ok p =>
      let records := load_csv text in
      let! s := store_entries connector (map (row_entry "csv" connector) records) s in
      let s := set_csv (<[ingest_storage_key p connector := records]> (csv_records s)) s in
      let '(written, s) := append_ingest_outbox_events env p connector "csv" records s in
      let s := record_audit env p "ingest_csv"
                 (Json.object [("route_scope", Text "ingest/connectors/csv"); ("connector_id", Text connector);
                               ("records_parsed", of_usize (length records));
                               ("outbox_events_written", of_usize written)]) s in
      let '(_, o) := emit (now env) "ingest" "batch_complete"
                       (Json.object [("connector_id", Text connector); ("format", Text "csv");
                                     ("records_parsed", of_usize (length records))]) (ops s) in
      Some (Ok (length records), set_logs (audit s) o s)
  end.

(** [POST ingest/json] *)
Definition ingest_json (env : Env) (h : gmap string string) (a : AuthState) (connector key_field text : string)
    (s : IngestServer) : option (result nat HttpError * IngestServer) :=
  match require_ingest_runtime_privilege (now env) h a Write (ingest_scope_for_connector connector "json") with
  | Err e => Some (Err e, s)
  | Ok p =>
      let records := load_ndjson key_field text in
      let! s := store_entries connector (map (row_entry "json" connector) records) s in
      let s := set_json (<[ingest_storage_key p connector := records]> (json_records s)) s in
      let '(written, s) := append_ingest_outbox_events env p connector "json" records s in
      Some (Ok (length records),
            record_audit env p "ingest_json"
              (Json.object [("route_scope", Text "ingest/connectors/json"); ("connector_id", Text connector);
                            ("records_parsed", of_usize (length records)); ("key_field", Text key_field);
                            ("outbox_events_written", of_usize written)]) s)
  end.

(** [POST ingest/csv/parallel] and [ingest/json/parallel]: the valid records go to
    the store, none to the outbox. *)
Definition ingest_parallel (action format : string) (store_records : gmap string (list IngestRecord) -> IngestServer -> IngestServer)
    (old : IngestServer -> gmap string (list IngestRecord)) (threads : nat) (env : Env) (h : gmap string string)
    (a : AuthState) (connector : string) (chunk_size : option nat) (raw : list IngestRecord) (s : IngestServer)
    : option (result (nat * nat * ChunkedIngestStats) HttpError * IngestServer) :=
  match require_ingest_runtime_privilege (now env) h a Write (ingest_scope_for_connector connector format) with
  | Err e => Some (Err e, s)
  | Ok p =>
      let chunk_size := Nat.max (default 1000%nat chunk_size) 1 in
      let '(valid, invalid, stats) := load_records_parallel threads raw chunk_size in
      let! s := store_entries connector (map (row_entry format connector) valid) s in
      let s := store_records (<[ingest_storage_key p connector := valid]> (old s)) s in
      Some (Ok (length valid, invalid, stats),
            record_audit env p action
              (Json.object [("connector_id", Text connector); ("total", of_usize (length raw));
                            ("valid", of_usize (length valid)); ("chunks", of_usize (chunk_count stats))]) s)
  end.

Definition ingest_csv_parallel threads env h a connector chunk_size text :=
  ingest_parallel "ingest_csv_parallel" "csv" set_csv csv_records threads env h a connector chunk_size (load_csv text).

Definition ingest_json_parallel threads env h a connector chunk_size (key_field : option string) text :=
  ingest_parallel "ingest_json_parallel" "json" set_json json_records threads env h a connector chunk_size
    (load_ndjson (default "id" key_field) text).

(** [POST ingest/chunked]: the records are kept, not stored as rows. *)
Definition ingest_chunked (env : Env) (h : gmap string string) (a : AuthState) (connector : string)
    (payloads : list string) (chunk_target in_flight : option nat) (s : IngestServer)
    : result ChunkedIngestStats HttpError * IngestServer :=
  match require_ingest_runtime_privilege (now env) h a Write (ingest_scope_for_connector connector "chunked") with
  | Err e => (Err e, s)
  | Ok p =>
      let records := imap (fun i d => mkRecord (connector +:+ "-" +:+ Dec.to_string (N.of_nat i)) d) payloads in
      let target := Nat.max (default 256%nat chunk_target) 1 in
      let cap := Nat.max (default 4%nat in_flight) 1 in
      let cs := default [] (chunks target records) in
      let stats := mkStats (length records) (length cs) target cap (Nat.min (length cs) cap)
                     (window_outcomes cap (default [] (chunks cap cs))) in
      let s := set_json (<[ingest_storage_key p connector := records]> (json_records s)) s in
      (Ok stats,
       record_audit env p "ingest_chunked"
         (Json.object [("connector_id", Text connector); ("total_records", of_usize (total_records stats));
                       ("chunk_count", of_usize (chunk_count stats))]) s)
  end.

(** ** Reading the outbox *)

Definition cursor_key (consumer stream : string) : string := "consumer/" +:+ consumer +:+ "/" +:+ stream.

Definition consumer_of (id : option string) : string :=
  match id with
  | Some v => if String.eqb (Str.trim v) "" then "default-consumer" else v
  | None => "default-consumer"
  end.

Record ReplayRequest := mkReplay {
  r_connector : string; r_consumer : option string; r_max_items : option nat; r_acknowledge : option bool;
}.

Record ReplayResponse := mkReplayResponse {
  delivery_state : string;
  rsp_stream : string;
  rsp_consumer : string;
  cursor_before_ack : option N;
  cursor_after_ack : option N;
  delivered : list StreamEventEnvelope;
}.

(** The events after the cursor, and the cursor after them. *)
Definition deliver (env : Env) (stream consumer : string) (max_items : option nat) (acknowledge : option bool)
    (bus : T) (cursors : C) : ReplayResponse * C :=
  let ck := cursor_key consumer stream in
  let before := load ck cursors in
  let ack := default true acknowledge in
  let batch := export_for_stream_since stream (default 0 before) (Nat.min (default 100%nat max_items) 1000) bus in
  let '(after, cursors) :=
    match last batch with
    | Some e =>
        if ack then let c := (save (cursor_io env) (now env) ck (event_id e) cursors).2 in (load ck c, c)
        else (before, cursors)
    | None => (before, cursors)
    end in
  let state := match batch with [] => "already_acknowledged"
               | _ => if ack then "delivered_and_acked" else "delivered_pending_ack" end in
  (mkReplayResponse state stream consumer before after batch, cursors).

(** [POST ingest/outbox/replay] *)
Definition ingest_outbox_replay (env : Env) (h : gmap string string) (a : AuthState) (req : ReplayRequest)
    (s : IngestServer) : result ReplayResponse HttpError * IngestServer :=
  match require_ingest_runtime_privilege (now env) h a Read (ingest_outbox_scope (Some (r_connector req))) with
  | Err e => (Err e, s)
  | Ok p =>
      let stream := ingest_outbox_stream_name (ingest_storage_key p (r_connector req)) in
      let '(rsp, cursors) :=
        deliver env stream (consumer_of (r_consumer req)) (r_max_items req) (r_acknowledge req) (event_bus s)
          (outbox_cursors s) in
      let s := set_outbox (outbox_streams s) (event_bus s) cursors s in
      (Ok rsp,
       record_audit env p "ingest_outbox_replay"
         (Json.object [("route_scope", Text ("ingest/outbox/" +:+ r_connector req));
                       ("consumer_id", Text (rsp_consumer rsp)); ("delivery_state", Text (delivery_state rsp));
                       ("delivered_count", of_usize (length (delivered rsp)));
                       ("cursor_before_ack", of_option of_u64 (cursor_before_ack rsp));
                       ("cursor_after_ack", of_option of_u64 (cursor_after_ack rsp));
                       ("acknowledged", Json.Bool (default true (r_acknowledge req)))]) s)
  end.

(** ** Events of other nodes *)

Record ReplicatedEvent := mkReplicated {
  rep_sequence : N; rep_stream : string; rep_origin : string; rep_payload : string;
}.

Definition replicated_message (e : ReplicatedEvent) : Message :=
  mkMessage (rep_stream e) Internal (rep_origin e) (rep_payload e) ∅.

(** A batch in the order of its numbers; its last number becomes a cursor. *)
Definition apply_event_replication (env : Env) (es : list ReplicatedEvent) (s : IngestServer)
    : (nat * N) * IngestServer :=
  let ordered := Select.sort_by (fun a b => N.compare (rep_sequence a) (rep_sequence b)) es in
  let last_seq := foldl (fun l e => N.max l (rep_sequence e)) 0 ordered in
  let '(applied, bus) := publish_messages env 0 (map replicated_message ordered) 0 (event_bus s) in
  let cursors :=
    if 0 <? last_seq then (save (cursor_io env) (now env) "cluster.replicated" last_seq (outbox_cursors s)).2
    else outbox_cursors s in
  ((applied, last_seq), set_outbox (outbox_streams s) bus cursors s).
End Server.
Arguments OperationalEvent : clear implicits.
Arguments OperationalEventStream : clear implicits.
Arguments IngestServer : clear implicits.
End Ingest.
