(* ===== verification/IngestProps.v ===== *)
(** * Theorems on ingestion

    Chunked loading keeps the records and their order whatever the size of the
    chunks, and consumers of the outbox receive every event of their stream once
    and in order, across failed writes and restarts. *)

From S2P Require Import Prelude Str Decimal SqlKind Mvcc MvccSpec MvccProps Wal WalProps Select SelectProps Flush FlushProps.
From S2P Require Import Auth UserStore AccessControl Json AuditChain EventBus EventBusProps Ingest.
From Stdlib Require Import Ascii.
Local Open Scope string_scope.
Local Open Scope list_scope.
Local Open Scope N_scope.
Local Open Scope vng_scope.

Import EventBus Ingest.

(** ** Chunks *)

Lemma chunks_concat {A} (n : nat) (l : list A) : (0 < n)%nat → concat (chunks_fuel (length l) n l) = l.
Proof.
  intros Hn. assert (∀ fuel (l : list A), (length l <= fuel)%nat → concat (chunks_fuel fuel n l) = l) as Hgen; [|apply Hgen; lia].
  clear l. intros fuel. induction fuel as [|fuel IH]; intros l Hl; [destruct l; [done|cbn in Hl; lia]|].
  destruct l as [|x l]; [done|]. cbn [chunks_fuel concat]. rewrite IH.
  - apply take_drop.
  - rewrite length_drop. cbn in *. lia.
Qed.

Lemma validate_chunk_spec idx chunk :
  validate_chunk idx chunk
  = (List.filter valid_record chunk, length (List.filter (fun r => negb (valid_record r)) chunk),
     mkOutcome idx (length chunk)).
Proof.
  unfold validate_chunk.
  assert (∀ v i, foldl (fun '(v, i) r => if valid_record r then (v ++ [r], i) else (v, S i)) (v, i) chunk
    = (v ++ List.filter valid_record chunk,
       (i + length (List.filter (fun r => negb (valid_record r)) chunk))%nat)) as ->; [|done].
  induction chunk as [|r chunk IH]; intros v i; cbn; [by rewrite app_nil_r, Nat.add_0_r|].
  destruct (valid_record r); rewrite IH; cbn; [by rewrite <- app_assoc|]. f_equal. lia.
Qed.

Lemma parallel_fold cs base v i o :
  foldl (fun '(v, i, o) '(v', i', o') => (v ++ v', (i + i')%nat, o ++ [o'])) (v, i, o)
    (imap (fun j c => validate_chunk (base + j) c) cs)
  = (v ++ List.filter valid_record (concat cs),
     (i + length (List.filter (fun r => negb (valid_record r)) (concat cs)))%nat,
     o ++ imap (fun j c => mkOutcome (base + j) (length c)) cs).
Proof.
  revert base v i o. induction cs as [|c cs IH]; intros base v i o; cbn.
  { by rewrite !app_nil_r, Nat.add_0_r. }
  rewrite validate_chunk_spec.
  rewrite (imap_ext _ (fun j c => validate_chunk (S base + j) c)) by (intros; cbn; f_equal; lia).
  rewrite IH, !List.filter_app, length_app, <- !app_assoc. cbn. rewrite Nat.add_0_r.
  f_equal; [f_equal; lia|]. do 2 f_equal. apply imap_ext. intros. cbn. f_equal. lia.
Qed.

(** Parallel loading is sequential loading.  Whatever the size of the chunks
    and of the thread pool, the records that are kept are the valid ones in their
    order, the others are counted, and the reported chunks are numbered from 0 and
    hold the input between them. *)
Theorem parallel_load_is_sequential (threads chunk_size : nat) (records : list IngestRecord) :
  let '(valid, invalid, stats) := load_records_parallel threads records chunk_size in
  valid = List.filter valid_record records ∧
  invalid = length (List.filter (fun r => negb (valid_record r)) records) ∧
  total_records stats = length records ∧ chunk_count stats = length (outcomes stats) ∧
  map chunk_index (outcomes stats) = seq 0 (chunk_count stats) ∧
  foldr (fun o n => (records_in_chunk o + n)%nat) 0%nat (outcomes stats) = length records.
Proof.
  unfold load_records_parallel. destruct records as [|r rs] eqn:Hr; [done|]. rewrite <- Hr. clear Hr r rs.
  unfold chunks. destruct (Nat.eqb_spec (Nat.max chunk_size 1) 0) as [|_]; [lia|]. cbn [default from_option id].
  pose proof (chunks_concat (Nat.max chunk_size 1) records ltac:(lia)) as Hc.
  set (cs := chunks_fuel (length records) (Nat.max chunk_size 1) records) in *.
  pose proof (parallel_fold cs 0 [] 0 []) as Hf. cbn [Nat.add app] in Hf.
  change (fun (j : nat) (c : list IngestRecord) => validate_chunk j c) with validate_chunk in Hf. unfold id. rewrite Hf, Hc.
  cbn [total_records chunk_count outcomes]. rewrite length_imap. split_and!; try done.
  - clear Hf Hc.
    assert (∀ b, map chunk_index (imap (fun j c => mkOutcome (b + j) (@length IngestRecord c)) cs) = seq b (length cs)) as Hgen.
    { induction cs as [|c cs IH]; intros b; cbn; [done|]. f_equal; [lia|]. rewrite <- IH.
      f_equal. apply imap_ext. intros. cbn. f_equal. lia. }
    exact (Hgen 0%nat).
  - clear Hf. transitivity (length (concat cs)); [|by rewrite Hc]. clear Hc.
    assert (∀ b, foldr (fun o n => (records_in_chunk o + n)%nat) 0%nat
                   (imap (fun j c => mkOutcome (b + j) (@length IngestRecord c)) cs) = length (concat cs)) as Hgen.
    { induction cs as [|c cs IH]; intros b; cbn; [done|]. rewrite length_app, <- (IH (S b)). f_equal.
      f_equal. apply imap_ext. intros. cbn. f_equal. lia. }
    exact (Hgen 0%nat).
Qed.

(** ** Streams in the bus *)

Definition of_stream (st : string) (es : list EventBusTransportEvent) : list StreamEventEnvelope :=
  map event (List.filter (fun e => String.eqb (stream_name (event e)) st) es).

Lemma of_stream_app st a b : of_stream st (a ++ b) = of_stream st a ++ of_stream st b.
Proof. unfold of_stream. by rewrite List.filter_app, map_app. Qed.

Definition ascending (l : list StreamEventEnvelope) : Prop := StronglySorted (fun a b => event_id a < event_id b) l.

Lemma ascending_app a b :
  ascending (a ++ b) ↔ ascending a ∧ ascending b ∧ ∀ x y, x ∈ a → y ∈ b → event_id x < event_id y.
Proof.
  unfold ascending. induction a as [|x a IH]; cbn; [split; [intros; split_and!; [constructor|done|set_solver]|tauto]|].
  split.
  - intros Hs. apply StronglySorted_inv in Hs as [Hs Hx]. apply IH in Hs as (Ha & Hb & Hab).
    apply Forall_app in Hx as [Hxa Hxb]. split_and!; [by constructor|done|].
    intros u v [->|Hu]%elem_of_cons Hv; [|by apply Hab]. rewrite Forall_forall in Hxb. by apply Hxb.
  - intros (Ha & Hb & Hab). apply StronglySorted_inv in Ha as [Ha Hx]. constructor.
    + apply IH. split_and!; [done|done|]. intros u v Hu Hv. apply Hab; set_solver.
    + apply Forall_app. split; [done|]. apply Forall_forall. intros v Hv. apply Hab; set_solver.
Qed.

Lemma of_stream_ascending st es k :
  (∀ i e, es !! i = Some e → event_id (event e) = N.of_nat (k + i) + 1) →
  ascending (of_stream st es) ∧ Forall (fun e => N.of_nat k < event_id e) (of_stream st es).
Proof.
  revert k. induction es as [|e es IH]; intros k Hid; [split; constructor|].
  destruct (IH (S k)) as [Ha Hl].
  { intros i e' He. rewrite (Hid (S i) e' He). lia. }
  pose proof (Hid 0%nat e eq_refl) as He. unfold of_stream. cbn [List.filter].
  destruct (String.eqb (stream_name (event e)) st); cbn [map].
  - split; constructor; try done; [|lia|].
    + eapply Forall_impl; [exact Hl|]. cbn. intros x Hx. lia.
    + eapply Forall_impl; [exact Hl|]. cbn. intros x Hx. lia.
  - split; [done|]. eapply Forall_impl; [exact Hl|]. cbn. intros x Hx. lia.
Qed.

(** Reading after the last of the first [k] events gives the next ones. *)
Lemma export_next st es (k n : nat) :
  (∀ i e, es !! i = Some e → event_id (event e) = N.of_nat i + 1) →
  export_since st (default 0 (event_id <$> last (take k (of_stream st es)))) n es
  = take n (drop k (of_stream st es)).
Proof.
  intros Hid. destruct (of_stream_ascending st es 0 Hid) as [Hasc Hpos].
  set (c := default 0 (event_id <$> last (take k (of_stream st es)))).
  unfold export_since. rewrite <- firstn_map. f_equal.
  assert (map event (List.filter (fun e => String.eqb (stream_name (event e)) st && (c <? event_id (event e))) es)
    = List.filter (fun e => c <? event_id e) (of_stream st es)) as ->.
  { unfold of_stream. clearbody c. clear. induction es as [|e es IH]; [done|]. cbn.
    destruct (String.eqb (stream_name (event e)) st); cbn; [|exact IH]. destruct (c <? event_id (event e)); cbn; by rewrite IH. }
  rewrite <- (take_drop k (of_stream st es)) in Hasc, Hpos |- * at 1.
  apply ascending_app in Hasc as (Ha & _ & Hab). rewrite List.filter_app.
  assert (∀ x, x ∈ take k (of_stream st es) → event_id x <= c) as Hle.
  { intros x Hx. subst c. destruct (take k (of_stream st es)) as [|y l _] using rev_ind; [set_solver|].
    rewrite last_snoc. cbn. apply elem_of_app in Hx as [Hx|Hx]; [|apply list_elem_of_singleton in Hx as ->; lia].
    apply ascending_app in Ha as (_ & _ & Hlt). apply N.lt_le_incl, Hlt; [done|set_solver]. }
  rewrite (List.filter_ext_in _ (fun _ => false) (take k _)).
  2: { intros x Hx. apply list_elem_of_In, Hle in Hx. apply N.ltb_ge. lia. }
  rewrite (List.filter_ext_in _ (fun _ => true) (drop k _)).
  2: { intros x Hx. apply list_elem_of_In in Hx. apply N.ltb_lt. subst c.
    destruct (last (take k (of_stream st es))) as [y|] eqn:Hy; cbn.
    - apply Hab; [by apply last_Some_elem_of|done].
    - rewrite Forall_app in Hpos. destruct Hpos as [_ Hpos]. rewrite Forall_forall in Hpos. apply Hpos in Hx. lia. }
  by rewrite List.filter_true, List.filter_false.
Qed.

Lemma take_own_length {A} (n : nat) (l : list A) : take n l = take (length (take n l)) l.
Proof. rewrite length_take. destruct (decide (n <= length l)%nat); [f_equal; lia|]. by rewrite !take_ge by lia. Qed.

(** ** Names *)

Definition no_slash (s : string) : bool := Dec.all_chars (fun d => negb (Ascii.eqb "/" d)) s.

Lemma replace_no_slash c r s : no_slash r = true → no_slash s = true → no_slash (Wal.replace c r s) = true.
Proof.
  unfold no_slash. intros Hr. induction s as [|d s IH]; [done|]. cbn [Wal.replace Dec.all_chars].
  intros [Hd Hs]%andb_prop. destruct (Ascii.eqb d c); [by rewrite all_chars_app, Hr, IH|].
  cbn [Dec.all_chars]. by rewrite Hd, IH.
Qed.

Lemma replace_slash r s : no_slash r = true → no_slash (Wal.replace "/" r s) = true.
Proof.
  intros Hr. induction s as [|d s IH]; [done|]. cbn [Wal.replace]. destruct (Ascii.eqb_spec d "/") as [->|Hne].
  - unfold no_slash in *. by rewrite all_chars_app, Hr, IH.
  - unfold no_slash in *. cbn [Dec.all_chars]. rewrite IH, andb_true_r.
    destruct (Ascii.eqb_spec "/" d) as [He|]; [by rewrite He in Hne|done].
Qed.

Lemma stream_name_no_slash k : no_slash (ingest_outbox_stream_name k) = true.
Proof.
  unfold ingest_outbox_stream_name, no_slash. rewrite all_chars_app. apply andb_true_intro. split; [done|].
  apply (replace_no_slash " "); [done|]. apply (replace_no_slash ":"); [done|]. by apply replace_slash.
Qed.

Lemma last_slash a b s t :
  no_slash s = true → no_slash t = true → a +:+ "/" +:+ s = b +:+ "/" +:+ t → a = b ∧ s = t.
Proof.
  intros Hs Ht. revert b. induction a as [|x a IH]; intros [|y b] Heq; cbn in Heq.
  - injection Heq as Heq. by split.
  - injection Heq as _ Heq. exfalso. unfold no_slash in Hs.
    change ("" +:+ s) with s in Heq. rewrite Heq, all_chars_app in Hs. by apply andb_prop in Hs as [_ Hs].
  - injection Heq as _ Heq. exfalso. unfold no_slash in Ht.
    change ("" +:+ t) with t in Heq. rewrite <- Heq, all_chars_app in Ht. by apply andb_prop in Ht as [_ Ht].
  - injection Heq as <- Heq. destruct (IH _ Heq) as [-> ->]. done.
Qed.

Lemma cursor_key_unique c c' st st' :
  no_slash st = true → no_slash st' = true → cursor_key c st = cursor_key c' st' → c = c' ∧ st = st'.
Proof.
  intros Hs Hs' Heq. unfold cursor_key in Heq. repeat (injection Heq as Heq). by apply last_slash.
Qed.

(** ** Consumers *)

Section Outbox.
Context {F : Type} `{!Json.JsonText F} `{!EventText} `{!TokenCrypto} `{!HeaderText}.
Context {E : Type} `{!RowEngine E}.
Context {T : Type} `{!EventBusBrokerClient T} `{!EventBusLaws T} `{!DurableBus T}.
Context {C : Type} `{!ReplayCursorStore C} `{!CursorLaws C} `{!DurableCursors C}.
Abbreviation Server := (IngestServer F E T C).

(** The events that a consumer was given and whose cursor was advanced. *)
Abbreviation Received := (string -> string -> list StreamEventEnvelope).

(** The cursor stands at the last event of the answer. *)
Definition advanced (r : ReplayResponse) : bool :=
  match last (delivered r), cursor_after_ack r with Some e, Some n => event_id e =? n | _, _ => false end.

Definition receive (r : ReplayResponse) (log : Received) : Received :=
  if advanced r then
    fun c st => if bool_decide (c = rsp_consumer r ∧ st = rsp_stream r) then log c st ++ delivered r else log c st
  else log.

(** The messages fit into records and the numbers are not used up. *)
Definition publishable (env : Env) (ms : list Message) (s : Server) : Prop :=
  Forall (message_ok (now env)) ms ∧
  N.of_nat (length (snapshot_events (event_bus s)) + length ms) + 1 < u64_max.

Definition records_publishable (env : Env) (h : gmap string string) (a : Access.AuthState) (connector format : string)
    (records : list IngestRecord) (s : Server) : Prop :=
  ∀ p, Access.require_ingest_runtime_privilege (now env) h a Auth.Write (ingest_scope_for_connector connector format) = Ok p →
    publishable env (map (outbox_message (F := F) (node_id s) p connector format (ingest_storage_key p connector)
                            (ingest_outbox_stream_name (ingest_storage_key p connector))) records) s.

Definition cursor_room (env : Env) (s : Server) : Prop :=
  now env <= Dec.u128_max ∧ cur_used (outbox_cursors s) < u64_max ∧
  N.of_nat (length (snapshot_events (event_bus s))) < u64_max.

Inductive ingest_step : Server * Received -> Server * Received -> Prop :=
| is_csv env h a connector text r s s' log :
    records_publishable env h a connector "csv" (load_csv text) s →
    ingest_csv env h a connector text s = Some (r, s') → ingest_step (s, log) (s', log)
| is_json env h a connector key_field text r s s' log :
    records_publishable env h a connector "json" (load_ndjson key_field text) s →
    ingest_json env h a connector key_field text s = Some (r, s') → ingest_step (s, log) (s', log)
| is_replay env h a req r s s' log :
    cursor_room env s →
    ingest_outbox_replay env h a req s = (r, s') →
    ingest_step (s, log) (s', match r with Ok rsp => receive rsp log | Err _ => log end)
| is_replicate env es s log :
    publishable env (map replicated_message (Select.sort_by (fun a b => N.compare (rep_sequence a) (rep_sequence b)) es)) s →
    cursor_room env s → Forall (fun e => rep_sequence e <= u64_max) es →
    ingest_step (s, log) ((apply_event_replication env es s).2, log)
| is_restart s log bus rs e au o :
    bus_restart (event_bus s) = Some bus →
    ingest_step (s, log)
      (mkServer (node_id s) ∅ ∅ ∅ bus (cur_restart (outbox_cursors s)) rs e au o, log).

(** Nothing was delivered when the server is set up. *)
Definition ingest_init (s : Server) : Prop :=
  bus_inv (event_bus s) ∧ cur_inv (outbox_cursors s) ∧ ∀ k, load k (outbox_cursors s) = None.

(** What has been received is a prefix of the stream, and the cursor is its end. *)
Definition received_ok (es : list EventBusTransportEvent) (c : C) (log : Received) : Prop :=
  ∀ consumer st,
    log consumer st = take (length (log consumer st)) (of_stream st es) ∧
    (no_slash st = true → load (cursor_key consumer st) c = event_id <$> last (log consumer st)) ∧
    (no_slash st = false → log consumer st = []).

Record outbox_inv (st : Server * Received) : Prop := {
  oi_bus : bus_inv (event_bus st.1);
  oi_cursors : cur_inv (outbox_cursors st.1);
  oi_received : received_ok (snapshot_events (event_bus st.1)) (outbox_cursors st.1) st.2;
}.

Lemma received_length es c log consumer st :
  received_ok es c log → (length (log consumer st) <= length (of_stream st es))%nat.
Proof. intros Hr. destruct (Hr consumer st) as [Heq _]. rewrite Heq, length_take. lia. Qed.

Lemma received_grows es new c log : received_ok es c log → received_ok (es ++ new) c log.
Proof.
  intros Hr consumer st. pose proof (received_length es c log consumer st Hr) as Hl.
  destruct (Hr consumer st) as (Hp & Hc & Hn). split; [|done]. by rewrite of_stream_app, take_app_le.
Qed.

Lemma publish_messages_spec env i ms n bus :
  bus_inv bus → Forall (message_ok (now env)) ms →
  N.of_nat (length (snapshot_events bus) + length ms) + 1 < u64_max →
  let '(_, bus') := publish_messages env i ms n bus in
  bus_inv bus' ∧ ∃ new, snapshot_events bus' = snapshot_events bus ++ new.
Proof.
  revert i n bus. induction ms as [|m ms IH]; intros i n bus Hinv Hok Hroom; cbn [publish_messages].
  { split; [done|]. exists []. by rewrite app_nil_r. }
  apply Forall_cons in Hok as [Hm Hok]. cbn [length] in Hroom.
  pose proof (bus_publishes (bus_io env i) (now env) m bus Hinv Hm ltac:(lia)) as Hp.
  destruct (publish (bus_io env i) (now env) m bus) as [r bus1]. destruct Hp as [Hinv1 Hr].
  assert (∃ new, snapshot_events bus1 = snapshot_events bus ++ new ∧ (length new <= 1)%nat) as (new & Hnew & Hlen).
  { assert (appends_one (snapshot_events bus) (snapshot_events bus1) (now env) m →
            ∃ new, snapshot_events bus1 = snapshot_events bus ++ new ∧ (length new <= 1)%nat) as Hpub.
    { intros (e & -> & _). by exists [e]. }
    destruct r; [by apply Hpub|]. destruct Hr as [->|Hr]; [exists []; rewrite app_nil_r; cbn; split; [done|lia]|by apply Hpub]. }
  pose proof (IH (S i) (match r with Ok _ => S n | Err _ => n end) bus1 Hinv1 Hok) as Hrest.
  rewrite Hnew, length_app in Hrest.
  destruct (publish_messages env (S i) ms _ bus1) as [n' bus2]. destruct Hrest as (Hinv2 & new2 & ->); [lia|].
  split; [done|]. exists (new ++ new2). by rewrite app_assoc.
Qed.

(** Records written to the outbox extend the bus and change nothing else of it. *)
Lemma outbox_appends env p connector format records (s : Server) log n s' :
  outbox_inv (s, log) →
  publishable env (map (outbox_message (F := F) (node_id s) p connector format (ingest_storage_key p connector)
                            (ingest_outbox_stream_name (ingest_storage_key p connector))) records) s →
  append_ingest_outbox_events env p connector format records s = (n, s') → outbox_inv (s', log).
Proof.
  intros [Hb Hc Hr] [Hok Hroom]. unfold append_ingest_outbox_events. cbn [fst snd] in *.
  match goal with |- context [publish_messages env 0 ?ms 0 ?b] =>
    pose proof (publish_messages_spec env 0 ms 0 b Hb Hok Hroom) as Hp;
    destruct (publish_messages env 0 ms 0 b) as [k bus] end.
  destruct Hp as (Hb' & new & Hnew). intros [= <- <-]. split; cbn; [done|done|]. rewrite Hnew. by apply received_grows.
Qed.

(** The part of the server that consumers depend on. *)
Definition same_outbox (s s' : Server) : Prop :=
  event_bus s' = event_bus s ∧ outbox_cursors s' = outbox_cursors s ∧ node_id s' = node_id s.

Lemma same_outbox_inv s s' log : same_outbox s s' → outbox_inv (s, log) → outbox_inv (s', log).
Proof. intros (Hb & Hc & _) [Q1 Q2 Q3]. split; cbn in *; by rewrite ?Hb, ?Hc. Qed.

Lemma store_entries_outbox connector es (s s' : Server) : store_entries connector es s = Some s' → same_outbox s s'.
Proof.
  unfold store_entries. destruct (RowStore.begin_xid (row_store s)) as [x rs].
  destruct (insert_entries x es rs) as [rs'|]; [|done]. by intros [= <-].
Qed.

Lemma csv_inv env h a connector text r s s' log :
  records_publishable env h a connector "csv" (load_csv text) s → outbox_inv (s, log) →
  ingest_csv env h a connector text s = Some (r, s') → outbox_inv (s', log).
Proof.
  intros Hpub Hinv. unfold ingest_csv.
  destruct (Access.require_ingest_runtime_privilege _ _ _ _ _) as [p|e] eqn:Hp; [|by intros [= _ <-]].
  specialize (Hpub p Hp). destruct (store_entries _ _ s) as [s1|] eqn:Hs; [|done].
  apply store_entries_outbox in Hs as Hsame. pose proof Hsame as (Hb & Hc & Hn). cbn [mbind option_bind].
  destruct (append_ingest_outbox_events env p connector "csv" _ _) as [k s2] eqn:Ha.
  cbn zeta. destruct (emit _ _ _ _ _) as [id o]. intros [= _ <-].
  eapply same_outbox_inv; [|eapply outbox_appends; [| |exact Ha]].
  - by split_and!.
  - eapply same_outbox_inv; [|exact Hinv]. by split_and!.
  - unfold publishable in *. cbn. by rewrite Hn, Hb.
Qed.

Lemma json_inv env h a connector key_field text r s s' log :
  records_publishable env h a connector "json" (load_ndjson key_field text) s → outbox_inv (s, log) →
  ingest_json env h a connector key_field text s = Some (r, s') → outbox_inv (s', log).
Proof.
  intros Hpub Hinv. unfold ingest_json.
  destruct (Access.require_ingest_runtime_privilege _ _ _ _ _) as [p|e] eqn:Hp; [|by intros [= _ <-]].
  specialize (Hpub p Hp). destruct (store_entries _ _ s) as [s1|] eqn:Hs; [|done].
  apply store_entries_outbox in Hs as Hsame. pose proof Hsame as (Hb & Hc & Hn). cbn [mbind option_bind].
  destruct (append_ingest_outbox_events env p connector "json" _ _) as [k s2] eqn:Ha.
  intros [= _ <-].
  eapply same_outbox_inv; [|eapply outbox_appends; [| |exact Ha]].
  - by split_and!.
  - eapply same_outbox_inv; [|exact Hinv]. by split_and!.
  - unfold publishable in *. cbn. by rewrite Hn, Hb.
Qed.

(** Saving a cursor of a stream records what was received, a failed save nothing. *)
Lemma received_advance es (c c' : C) log consumer st batch e :
  received_ok es c log → no_slash st = true →
  batch = take (length batch) (drop (length (log consumer st)) (of_stream st es)) → last batch = Some e →
  (∀ k, load k c' = if decide (k = cursor_key consumer st) then Some (event_id e) else load k c) →
  received_ok es c' (fun c st' => if bool_decide (c = consumer ∧ st' = st) then log c st' ++ batch else log c st').
Proof.
  intros Hr Hst Hb Hl Hload x st'. destruct (Hr x st') as (Q1 & Q2 & Q3).
  destruct (bool_decide_reflect (x = consumer ∧ st' = st)) as [[-> ->]|Hne].
  - split_and!.
    + rewrite length_app, <- take_take_drop. by rewrite <- Q1, <- Hb.
    + intros _. by rewrite Hload, decide_True, last_app, Hl.
    + congruence.
  - split_and!; [done| |done]. intros Hs'. rewrite Hload, <- (Q2 Hs').
    destruct (decide (cursor_key x st' = cursor_key consumer st)) as [He|]; [|done].
    destruct Hne. by apply cursor_key_unique.
Qed.

Lemma received_same es (c c' : C) log : received_ok es c log → (∀ k, load k c' = load k c) → received_ok es c' log.
Proof. intros Hr Hl x st. destruct (Hr x st) as (Q1 & Q2 & Q3). split_and!; [done| |done]. intros. by rewrite Hl, Q2. Qed.

(** An answer holds the next events of the stream, and the cursor follows what was
    received. *)
Lemma deliver_spec env st consumer max_items ack (s : Server) log :
  outbox_inv (s, log) → cursor_room env s → no_slash st = true →
  let '(rsp, c) := deliver env st consumer max_items ack (event_bus s) (outbox_cursors s) in
  rsp_stream rsp = st ∧ rsp_consumer rsp = consumer ∧
  delivered rsp = take (Nat.min (default 100%nat max_items) 1000)
                    (drop (length (log consumer st)) (of_stream st (snapshot_events (event_bus s)))) ∧
  cur_inv c ∧ received_ok (snapshot_events (event_bus s)) c (receive rsp log).
Proof.
  intros [Hb Hc Hr] (Hnow & Hused & Hlen) Hst. cbn [fst snd] in *. unfold deliver.
  destruct (Hr consumer st) as (Hpre & Hcur & _). specialize (Hcur Hst).
  set (es := snapshot_events (event_bus s)) in *. set (n := Nat.min (default 100%nat max_items) 1000).
  assert (export_for_stream_since st (default 0 (load (cursor_key consumer st) (outbox_cursors s))) n (event_bus s)
    = take n (drop (length (log consumer st)) (of_stream st es))) as ->.
  { rewrite bus_exports, Hcur, Hpre, length_take, Nat.min_l by (by apply (received_length es (outbox_cursors s))).
    apply export_next. intros i e. by apply bus_ids. }
  set (batch := take n (drop (length (log consumer st)) (of_stream st es))).
  destruct (last batch) as [e|] eqn:Hl; cycle 1.
  { split_and!; try done. unfold receive, advanced. cbn. by rewrite Hl. }
  assert (batch `sublist_of` of_stream st es) as Hsub by (etransitivity; [apply sublist_take|apply sublist_drop]).
  assert (e ∈ of_stream st es) as Hin by (eapply elem_of_sublist; [by apply last_Some_elem_of|done]).
  assert (load (cursor_key consumer st) (outbox_cursors s) ≠ Some (event_id e)) as Hnew.
  { destruct (of_stream_ascending st es 0) as [Hasc _]; [intros i x; by apply bus_ids|].
    rewrite Hcur. destruct (last (log consumer st)) as [x|] eqn:Hx; [|done]. cbn. intros [= Heq].
    assert (event_id x < event_id e); [|lia]. rewrite <- (take_drop (length (log consumer st)) (of_stream st es)) in Hasc.
    apply ascending_app in Hasc as (_ & _ & Hab). apply Hab.
    - rewrite <- Hpre. by apply last_Some_elem_of.
    - eapply elem_of_sublist; [by apply last_Some_elem_of|]. apply sublist_take. }
  destruct (default true ack); cycle 1.
  { split_and!; try done. unfold receive, advanced. cbn. rewrite Hl.
    destruct (load _ _) as [m|] eqn:Hm; [|done]. by destruct (N.eqb_spec (event_id e) m) as [<-|]. }
  assert (event_id e <= u64_max) as Hmax.
  { unfold of_stream in Hin. apply list_elem_of_In, in_map_iff in Hin as (x & <- & Hx).
    apply filter_In in Hx as [Hx _]. apply list_elem_of_In, list_elem_of_lookup in Hx as [i Hi].
    rewrite (bus_ids _ _ _ Hb Hi). apply lookup_lt_Some in Hi. fold es in Hlen. lia. }
  pose proof (cur_saves (cursor_io env) (now env) (cursor_key consumer st) (event_id e) _ Hc Hnow Hmax Hused) as Hsv.
  destruct (save _ _ _ _ _) as [r c]. cbn [snd]. destruct Hsv as (Hc' & _ & Hload). split_and!; try done.
  unfold receive, advanced. cbn [delivered cursor_after_ack rsp_consumer rsp_stream]. rewrite Hl.
  rewrite (Hload (cursor_key consumer st)). destruct r as [u|u].
  - rewrite decide_True, N.eqb_refl by done. eapply received_advance; try done.
    apply take_own_length.
  - assert (received_ok es c log) as Hsame by (by eapply received_same).
    destruct (load (cursor_key consumer st) (outbox_cursors s)) as [m|]; [|done].
    by destruct (N.eqb_spec (event_id e) m) as [<-|].
Qed.

Lemma replay_inv env h a req r (s s' : Server) log :
  outbox_inv (s, log) → cursor_room env s → ingest_outbox_replay env h a req s = (r, s') →
  outbox_inv (s', match r with Ok rsp => receive rsp log | Err _ => log end) ∧
  ∀ rsp, r = Ok rsp →
    delivered rsp = take (Nat.min (default 100%nat (r_max_items req)) 1000)
                      (drop (length (log (rsp_consumer rsp) (rsp_stream rsp)))
                         (of_stream (rsp_stream rsp) (snapshot_events (event_bus s)))).
Proof.
  intros Hinv Hroom. unfold ingest_outbox_replay.
  destruct (Access.require_ingest_runtime_privilege _ _ _ _ _) as [p|e]; [|by intros [= <- <-]].
  set (st := ingest_outbox_stream_name (ingest_storage_key p (r_connector req))).
  pose proof (deliver_spec env st (consumer_of (r_consumer req)) (r_max_items req) (r_acknowledge req) s log
                Hinv Hroom (stream_name_no_slash _)) as Hd.
  destruct (deliver _ _ _ _ _ _ _) as [rsp c]. destruct Hd as (Hst & Hcons & Hdel & Hc & Hr). intros [= <- <-].
  split; [split; cbn; [apply Hinv|done|done]|]. intros rsp' [= <-]. by rewrite Hst, Hcons.
Qed.

Lemma replicate_inv env es (s : Server) log :
  outbox_inv (s, log) →
  publishable env (map replicated_message (Select.sort_by (fun a b => N.compare (rep_sequence a) (rep_sequence b)) es)) s →
  cursor_room env s → Forall (fun e => rep_sequence e <= u64_max) es →
  outbox_inv ((apply_event_replication env es s).2, log).
Proof.
  intros [Hb Hc Hr] [Hok Hroom] (Hnow & Hused & Hlen) Hseq. cbn [fst snd] in *. unfold apply_event_replication.
  set (ord := Select.sort_by _ es) in *. set (l := foldl _ 0 ord).
  assert (l <= u64_max) as Hl.
  { subst l. assert (Forall (fun e => rep_sequence e <= u64_max) ord) as Ho by (subst ord; by rewrite sort_by_perm).
    clear -Ho. assert (∀ n, n <= u64_max → foldl (fun l e => N.max l (rep_sequence e)) n ord <= u64_max) as Hg; [|apply Hg; u64].
    induction Ho as [|e o He _ IH]; intros n Hn; cbn; [done|]. apply IH. lia. }
  pose proof (publish_messages_spec env 0 (map replicated_message ord) 0 (event_bus s) Hb Hok Hroom) as Hp.
  destruct (publish_messages env 0 _ 0 (event_bus s)) as [k bus]. destruct Hp as (Hb' & new & Hnew).
  cbn [snd]. destruct (0 <? l).
  - pose proof (cur_saves (cursor_io env) (now env) "cluster.replicated" l _ Hc Hnow Hl Hused) as Hsv.
    destruct (save _ _ _ _ _) as [r c]. destruct Hsv as (Hc' & _ & Hload). split; cbn; [done|done|].
    rewrite Hnew. intros c' st'. destruct (received_grows _ new _ _ Hr c' st') as (Q1 & Q2 & Q3).
    split_and!; [done| |done]. intros Hs'. rewrite Hload, Q2 by done. by destruct r; [rewrite decide_False|].
  - split; cbn; [done|done|]. rewrite Hnew. by apply received_grows.
Qed.

Lemma ingest_step_inv st st' : ingest_step st st' → outbox_inv st → outbox_inv st'.
Proof.
  destruct 1 as [env h a connector text r s s' log Hp Hs|env h a connector kf text r s s' log Hp Hs
    |env h a req r s s' log Hroom Hs|env es s log Hp Hroom Hseq|s log bus rs e au o Hbus]; intros Hinv.
  - by eapply csv_inv.
  - by eapply json_inv.
  - by eapply replay_inv.
  - by apply replicate_inv.
  - destruct Hinv as [Hb Hc Hr]. destruct (bus_restarts _ Hb) as (bus' & Hbus' & Hb' & Hsame). cbn [fst snd] in *.
    rewrite Hbus in Hbus'. injection Hbus' as <-. destruct (cur_restarts _ Hc) as (Hc' & _ & Hload).
    split; cbn; [done|done|]. rewrite Hsame. intros c' st'. destruct (Hr c' st') as (Q1 & Q2 & Q3).
    split_and!; [done| |done]. intros Hs'. by rewrite Hload, Q2.
Qed.

Lemma ingest_reachable s0 st :
  ingest_init s0 → rtc ingest_step (s0, fun _ _ => []) st → outbox_inv st.
Proof.
  intros (Hb & Hc & Hl) Hr. assert (outbox_inv (s0, fun _ _ => [])) as Hinv.
  { split; [done|done|]. intros c' st'. cbn. split_and!; [done| |done]. intros _. apply Hl. }
  revert Hinv. induction Hr as [|s1 s2 s3 Hstep _ IH]; intros Hinv; [done|]. by eapply IH, ingest_step_inv.
Qed.

End Outbox.

(** ** At a concrete server *)

Section Examples.
Import Json UserStore Access.
#[local] Existing Instance code_text.
#[local] Instance plain_headers : HeaderText := {| to_str := Some |}.
#[local] Instance plain_lines : EventText := {| event_line := fun e => Some (Audit.chain_hash e) |}.
#[local] Instance toy_crypto : TokenCrypto :=
  {| hmac_sha256 := fun _ d => d; sha256_hex := fun t => t; b64_encode := fun s => s; b64_decode := Some |}.
#[local] Instance mem_rows : RowEngine Wal.InMemoryDurabilityEngine := in_memory_rows 0.
Abbreviation Demo := (IngestServer Z Wal.InMemoryDurabilityEngine FileBackedEventBusTransport WalBackedReplayCursorStore).

(** Users of two tenants have sessions. *)
Definition tenants : AuthState :=
  mkAuth (Some "k") [Dba] ∅ ∅ Auth.new ∅
    {["t0" := mkSession "u1" "ann" "tenant_analyst" (Some "acme") 1000;
      "t1" := mkSession "u2" "bob" "tenant_analyst" (Some "acme.eu") 1000]}.

Definition ann : gmap string string := {["authorization" := "Bearer t0"]}.
Definition bob : gmap string string := {["authorization" := "Bearer t1"]}.

Definition fresh : Demo :=
  mkServer "n1" ∅ ∅ ∅ (mkFile "" 1 1 []) (mkCursors "" 1) SelectDemo.shop (Wal.with_config Wal.default_config)
    (AuditLog.mkAudit Audit.new None) (mkOpStream 1 []).

Definition good : Env := mkEnv 50 true (fun _ => true) true.

Definition orders : string := "id,what" +:+ Str.LF +:+ "o1,axe" +:+ Str.LF +:+ "o2,bow" +:+ Str.LF.

Definition after_csv (connector : string) (s : Demo) : Demo :=
  match ingest_csv good ann tenants connector orders s with Some (_, s) => s | None => s end.

Definition one : ReplayRequest := mkReplay "orders" None (Some 1%nat) None.

Lemma fresh_init : ingest_init fresh.
Proof.
  split_and!; [by split| |done]. exists [].
  split; [done|]. split; [constructor|]. split; [constructor|]. change (1 <= 1 <= u64_max). u64.
Qed.

Lemma sample_publishable (s : Demo) :
  (length (events (event_bus s)) < 1000)%nat → node_id s = "n1" →
  records_publishable good ann tenants "orders" "csv" (load_csv orders) s.
Proof.
  intros Hl Hn p Hp. vm_compute in Hp. injection Hp as <-. split; cycle 1.
  { rewrite length_map. change (length (load_csv orders)) with 2%nat.
    change (snapshot_events (event_bus s)) with (events (event_bus s)). u64. }
  repeat constructor; try (vm_compute; congruence); intros k v Hv;
    apply elem_of_map_to_list in Hv; vm_compute in Hv;
    repeat (apply elem_of_cons in Hv as [Hv|Hv]; [injection Hv as -> ->; reflexivity|]); by apply elem_of_nil in Hv.
Qed.

Lemma csv_stored : match ingest_csv good ann tenants "orders" orders fresh with Some _ => true | None => false end = true.
Proof. by vm_compute. Qed.

Lemma first_answer :
  match (ingest_outbox_replay good ann tenants one (after_csv "orders" fresh)).1 with
  | Ok rsp => String.eqb (rsp_stream rsp) "ingest.outbox.tenant.acme.orders" | Err _ => false end = true.
Proof. by vm_compute. Qed.

Lemma after_csv_reachable : rtc ingest_step (fresh, fun _ _ => []) (after_csv "orders" fresh, fun _ _ => []).
Proof.
  unfold after_csv. pose proof csv_stored as Hs.
  destruct (ingest_csv good ann tenants "orders" orders fresh) as [[r1 s1]|] eqn:H1; [|done].
  eapply rtc_l; [|apply rtc_refl]. apply (is_csv good ann tenants "orders" orders r1); [|done].
  apply sample_publishable; [cbn; lia|done].
Qed.

Lemma two_orders :
  length (of_stream "ingest.outbox.tenant.acme.orders" (snapshot_events (event_bus (after_csv "orders" fresh)))) = 2%nat.
Proof. by vm_compute. Qed.

Lemma cursors_have_room : cursor_room good (after_csv "orders" fresh).
Proof. split_and!; by vm_compute. Qed.


Lemma event_bus_survives_restart_witness :
  let t := publish_all [(true, 5, mkMessage "s" Internal "n1" "{}" {["a" := "x"]}); (false, 6, mkMessage "s" Internal "n1" "" ∅)]
             (mkFile "" 1 1 []) in
  file_new true true (wal_file t) = Ok t ∧ length (events t) = 1%nat.
Proof.
  split; [|reflexivity]. apply event_bus_survives_restart; [|reflexivity].
  repeat constructor; try (vm_compute; congruence); intros k v Hv.
  cbn [m_attributes] in Hv. apply lookup_singleton_Some in Hv as [_ <-]. reflexivity.
Defined.

(** ** Where ingestion falls short *)

(** Streams are named after storage keys with their separators replaced: tenants
    whose names differ only there read each other's events. *)
Lemma tenants_share_stream :
  let s := after_csv "eu.orders" fresh in
  match (ingest_outbox_replay good bob tenants (mkReplay "orders" None None None) s).1 with
  | Ok rsp => map (fun e => attributes e !! "tenant_id") (delivered rsp) = [Some "acme"; Some "acme"]
  | Err _ => False
  end.
Proof. vm_compute. reflexivity. Qed.

(** The first column of a CSV file is the key of a row, of any table of any
    tenant. *)
Lemma csv_overwrites_any_row :
  match ingest_csv good ann tenants "orders" ("h" +:+ Str.LF +:+ "item:1,gone") fresh with
  | Some (Ok _, s) => RowStore.read_latest "item:1" (row_store s) = Some {["payload" := "gone"; "source" := "csv:orders"]}
  | _ => False
  end.
Proof. vm_compute. reflexivity. Qed.

(** A batch of a peer that is sent again is published again, and a late batch moves
    the recorded offset back. *)
Lemma replicated_batch_applied_twice :
  let e n := mkReplicated n "s" "n2" "{}" in
  let s := (apply_event_replication good [e 5] fresh).2 in
  let s' := (apply_event_replication good [e 5; e 3] s).2 in
  length (snapshot_events (event_bus s')) = 3%nat ∧
  load "cluster.replicated" (outbox_cursors (apply_event_replication good [e 3] s').2) = Some 3.
Proof. vm_compute. split; reflexivity. Qed.

(** An attribute that ends in a carriage return loses it when the bus is opened
    again. *)
Lemma carriage_return_lost :
  let m := mkMessage "s" Internal "n1" "{}" {["a" := "x" +:+ Str.CR]} in
  let t := (file_publish true 5 m (mkFile "" 1 1 [])).2 in
  match file_new true true (wal_file t) with
  | Ok t' => map (fun e => attributes (event e) !! "a") (events t') = [Some "x"]
  | Err _ => False
  end.
Proof. vm_compute. reflexivity. Qed.

(** Parallel loading keeps duplicate keys. *)
Lemma parallel_keeps_duplicates :
  (load_records_parallel 4 [mkRecord "a" "1"; mkRecord "a" "2"] 1).1.1 = [mkRecord "a" "1"; mkRecord "a" "2"].
Proof. reflexivity. Qed.
End Examples.
