(* ===== verification/AstFlags.v ===== *)
(** * The flags of a SELECT ([crates/voltnuerongrid-sql/src/ast.rs])

    [parse_tokens] sets some ninety booleans of a [SelectStatement] by searching the
    upper-cased statement text; the planner reads them.  The text is the byte string
    of the source here, because [find_keyword_outside_strings] walks it by bytes and
    slices it at byte offsets: a slice that is not on a character boundary panics,
    which is the outer [None] of the tests.  The booleans are the constructors of
    [Flag], and the statement holds the ones that are set. *)

From S2P Require Import Prelude Str SqlKind Tokenizer Utf8 Ast.
From Stdlib Require Import Ascii.
Local Open Scope string_scope.
Local Open Scope list_scope.
Local Open Scope vng_scope.

Module AstFlags.
Import Tokenizer Ast.

(** ** The booleans of [SelectStatement] *)

Inductive Flag :=
| HasUnion | HasUnionAll | HasSubquery | HasWindowFn | HasAggFn | HasAggregateDistinct |
IsDistinct | HasNullLiteral | HasGroupBy | HasTableAlias | HasColumnAlias | HasOrderBy |
HasHaving | HasInList | HasBetween | HasLike | HasNot | HasCase | HasCoalesce | HasCast |
HasNullif | HasStringFn | HasDateFn | HasConcat | HasMathFn | HasExists | HasAnyAll | HasNotIn |
HasTrim | HasInterval | HasInSubquery | HasIsNull | HasRegexp | HasJsonOp | HasWindowAgg |
HasLateral | HasPivot | HasFetch | HasValues | HasCrossJoin | HasFullTextSearch |
HasGroupingSets | HasNaturalJoin | HasUsingJoin | HasExcept | HasIntersect | HasQualify |
HasWithCte | HasRecursiveCte | HasNotExists | HasFilter | HasWindowFrame | HasNamedWindow |
HasWindowPartition | HasWindowOrder | HasNullsOrdering | HasOrderByCollation |
HasOrderByPositional | HasOrderByExpression | HasOrderByFunctionExpression |
HasOrderByCaseExpression | HasOrderByDescDirection | HasOrderByAscDirection | HasOrderByRandom |
HasOrderByRandomSeeded | HasOrderByRandAlias | HasOrderByMultiColumn | HasLimitOffsetPagination
| HasOffsetOnlyPagination | HasHavingWithoutGroupBy | HasHavingWithGroupBy | HasGroupByRollup |
HasGroupByCube | HasSelectDistinctOn | HasForUpdate | HasLeftJoin | HasRightJoin |
HasFullOuterJoin | HasInnerJoin | HasStraightJoin | HasSemiJoin | HasAntiJoin | HasCrossApply |
HasOuterApply | HasApply | HasLeftSemiJoin | HasLeftAntiJoin | HasRightSemiJoin |
HasRightAntiJoin | HasFullSemiJoin | HasFullAntiJoin.

Definition all_flags : list Flag :=
  [HasUnion; HasUnionAll; HasSubquery; HasWindowFn; HasAggFn; HasAggregateDistinct; IsDistinct;
   HasNullLiteral; HasGroupBy; HasTableAlias; HasColumnAlias; HasOrderBy; HasHaving; HasInList;
   HasBetween; HasLike; HasNot; HasCase; HasCoalesce; HasCast; HasNullif; HasStringFn;
   HasDateFn; HasConcat; HasMathFn; HasExists; HasAnyAll; HasNotIn; HasTrim; HasInterval;
   HasInSubquery; HasIsNull; HasRegexp; HasJsonOp; HasWindowAgg; HasLateral; HasPivot; HasFetch;
   HasValues; HasCrossJoin; HasFullTextSearch; HasGroupingSets; HasNaturalJoin; HasUsingJoin;
   HasExcept; HasIntersect; HasQualify; HasWithCte; HasRecursiveCte; HasNotExists; HasFilter;
   HasWindowFrame; HasNamedWindow; HasWindowPartition; HasWindowOrder; HasNullsOrdering;
   HasOrderByCollation; HasOrderByPositional; HasOrderByExpression;
   HasOrderByFunctionExpression; HasOrderByCaseExpression; HasOrderByDescDirection;
   HasOrderByAscDirection; HasOrderByRandom; HasOrderByRandomSeeded; HasOrderByRandAlias;
   HasOrderByMultiColumn; HasLimitOffsetPagination; HasOffsetOnlyPagination;
   HasHavingWithoutGroupBy; HasHavingWithGroupBy; HasGroupByRollup; HasGroupByCube;
   HasSelectDistinctOn; HasForUpdate; HasLeftJoin; HasRightJoin; HasFullOuterJoin; HasInnerJoin;
   HasStraightJoin; HasSemiJoin; HasAntiJoin; HasCrossApply; HasOuterApply; HasApply;
   HasLeftSemiJoin; HasLeftAntiJoin; HasRightSemiJoin; HasRightAntiJoin; HasFullSemiJoin;
   HasFullAntiJoin].

Definition flag_index (f : Flag) : nat :=
  match f with
  | HasUnion => 0 | HasUnionAll => 1 | HasSubquery => 2 | HasWindowFn => 3 | HasAggFn => 4 |
  HasAggregateDistinct => 5 | IsDistinct => 6 | HasNullLiteral => 7 | HasGroupBy => 8 |
  HasTableAlias => 9 | HasColumnAlias => 10 | HasOrderBy => 11 | HasHaving => 12 | HasInList =>
  13 | HasBetween => 14 | HasLike => 15 | HasNot => 16 | HasCase => 17 | HasCoalesce => 18 |
  HasCast => 19 | HasNullif => 20 | HasStringFn => 21 | HasDateFn => 22 | HasConcat => 23 |
  HasMathFn => 24 | HasExists => 25 | HasAnyAll => 26 | HasNotIn => 27 | HasTrim => 28 |
  HasInterval => 29 | HasInSubquery => 30 | HasIsNull => 31 | HasRegexp => 32 | HasJsonOp => 33
  | HasWindowAgg => 34 | HasLateral => 35 | HasPivot => 36 | HasFetch => 37 | HasValues => 38 |
  HasCrossJoin => 39 | HasFullTextSearch => 40 | HasGroupingSets => 41 | HasNaturalJoin => 42 |
  HasUsingJoin => 43 | HasExcept => 44 | HasIntersect => 45 | HasQualify => 46 | HasWithCte =>
  47 | HasRecursiveCte => 48 | HasNotExists => 49 | HasFilter => 50 | HasWindowFrame => 51 |
  HasNamedWindow => 52 | HasWindowPartition => 53 | HasWindowOrder => 54 | HasNullsOrdering =>
  55 | HasOrderByCollation => 56 | HasOrderByPositional => 57 | HasOrderByExpression => 58 |
  HasOrderByFunctionExpression => 59 | HasOrderByCaseExpression => 60 | HasOrderByDescDirection
  => 61 | HasOrderByAscDirection => 62 | HasOrderByRandom => 63 | HasOrderByRandomSeeded => 64 |
  HasOrderByRandAlias => 65 | HasOrderByMultiColumn => 66 | HasLimitOffsetPagination => 67 |
  HasOffsetOnlyPagination => 68 | HasHavingWithoutGroupBy => 69 | HasHavingWithGroupBy => 70 |
  HasGroupByRollup => 71 | HasGroupByCube => 72 | HasSelectDistinctOn => 73 | HasForUpdate => 74
  | HasLeftJoin => 75 | HasRightJoin => 76 | HasFullOuterJoin => 77 | HasInnerJoin => 78 |
  HasStraightJoin => 79 | HasSemiJoin => 80 | HasAntiJoin => 81 | HasCrossApply => 82 |
  HasOuterApply => 83 | HasApply => 84 | HasLeftSemiJoin => 85 | HasLeftAntiJoin => 86 |
  HasRightSemiJoin => 87 | HasRightAntiJoin => 88 | HasFullSemiJoin => 89 | HasFullAntiJoin =>
  90
  end.

Lemma flag_index_lookup f : all_flags !! flag_index f = Some f.
Proof. by destruct f. Qed.

#[export] Instance flag_index_inj : Inj (=) (=) flag_index.
Proof.
  intros f g E. pose proof (flag_index_lookup f) as Hf.
  rewrite E, flag_index_lookup in Hf. congruence.
Qed.

#[export] Instance Flag_eq_dec : EqDecision Flag.
Proof.
  intros f g. refine (cast_if (decide (flag_index f = flag_index g))).
  - by apply (inj flag_index).
  - by intros ->.
Defined.

(** A statement of the parser: the parsed clauses and the flags that are set. *)
Record Parsed := mkParsed { statement : Statement; flags : list Flag }.

(** ** Searching outside string literals *)

Definition cont_byte (b : ascii) : bool := (128 <=? N_of_ascii b)%N && (N_of_ascii b <? 192)%N.

(** [str::is_char_boundary] at the start of what is left of the string *)
Definition char_boundary (s : string) : bool :=
  match s with String b _ => negb (cont_byte b) | EmptyString => true end.

(** [&s[..n]], when [n] is at most the length: panics off a character boundary *)
Definition slice_to (n : nat) (s : string) : option string :=
  if char_boundary s && char_boundary (Str.sub n (String.length s) s)
  then Some (Str.sub 0 n s) else None.

Definition is_quote (c : ascii) : bool := Ascii.eqb c "'"%char.

(** The loop of [find_keyword_outside_strings]; [s] is the text from byte [i] on. *)
Fixpoint find_outside (keyword : string) (in_str : bool) (i : nat) (s : string)
    : option (option nat) :=
  match s with
  | EmptyString => Some None
  | String c s' =>
      if in_str then
        if is_quote c then
          match s' with
          | String c' s'' =>
              if is_quote c' then find_outside keyword true (i + 2) s''
              else find_outside keyword false (i + 1) s'
          | EmptyString => find_outside keyword false (i + 1) s'
          end
        else find_outside keyword true (i + 1) s'
      else if is_quote c then find_outside keyword true (i + 1) s'
      else if Nat.leb (String.length keyword) (String.length s) then
        let! piece := slice_to (String.length keyword) s in
        if String.eqb piece keyword then Some (Some i)
        else find_outside keyword false (i + 1) s'
      else find_outside keyword false (i + 1) s'
  end.

Definition find_keyword_outside_strings (up keyword : string) : option (option nat) :=
  find_outside keyword false 0 up.

Definition keyword_outside_strings (up keyword : string) : option bool :=
  let! found := find_keyword_outside_strings up keyword in Some (bool_decide (is_Some found)).

(** ** Tests on the text *)

(** [None]: the test panics. *)
Definition test := string -> option bool.

Definition text_has (p : string) : test := fun up => Some (Str.contains p up).

(** [up.replace(' ', "")] *)
Fixpoint no_spaces (s : string) : string :=
  match s with
  | EmptyString => EmptyString
  | String c s' => if Ascii.eqb c " "%char then no_spaces s' else String c (no_spaces s')
  end.

Definition compact (p : string) : test := fun up => Some (Str.contains p (no_spaces up)).
Definition compact_starts (p : string) : test := fun up => Some (Str.starts_with p (no_spaces up)).
Definition starts (p : string) : test := fun up => Some (Str.starts_with p (Str.trim_start up)).
Definition keyword (k : string) : test := fun up => keyword_outside_strings up k.

(** [||], [&&] and [!], which stop at the first test that decides. *)
Fixpoint any (ts : list test) : test := fun up =>
  match ts with
  | [] => Some false
  | t :: ts' => let! b := t up in if (b : bool) then Some true else any ts' up
  end.

Fixpoint all (ts : list test) : test := fun up =>
  match ts with
  | [] => Some true
  | t :: ts' => let! b := t up in if (b : bool) then all ts' up else Some false
  end.

Definition no (t : test) : test := fun up => let! b := t up in Some (negb b).

(** ** The [has_*] helpers *)

(** [str::to_uppercase]: Unicode's upper-casing, known here on ASCII text. *)
Fixpoint is_ascii (s : string) : bool :=
  match s with
  | EmptyString => true
  | String c s' => (N_of_ascii c <? 128)%N && is_ascii s'
  end.

Class UnicodeUpper := {
  to_uppercase : string -> string;
  to_uppercase_ascii : ∀ s, is_ascii s = true → to_uppercase s = Str.to_ascii_uppercase s;
}.

(** [if let Some(idx) = find_keyword_outside_strings(up, "ORDER BY") { .. } false]:
    the test of what follows the keyword. *)
Definition after_order_by (f : string -> bool) : test := fun up =>
  let! found := find_keyword_outside_strings up "ORDER BY" in
  match found with
  | Some idx => Some (f (Str.sub (idx + 8) (String.length up) up))
  | None => Some false
  end.

Definition first_is_digit (s : string) : bool :=
  match s with String c _ => is_ascii_digit (N_of_ascii c) | EmptyString => false end.

Definition has_order_by_positional : test :=
  after_order_by (fun tail => first_is_digit (Str.trim_start tail)).

Definition has_order_by_expression : test :=
  after_order_by (fun tail =>
    let tail := Str.trim_start tail in
    existsb (fun p => Str.contains p tail) ["("; " + "; " - "; " * "; " / "; " || "]).

Fixpoint name_chars (s : string) : bool :=
  match s with
  | EmptyString => true
  | String c s' =>
      (is_ascii_alphabetic (N_of_ascii c) || Ascii.eqb c "_"%char) && name_chars s'
  end.

Definition has_order_by_function_expression : test :=
  after_order_by (fun tail =>
    let tail := Str.trim_start tail in
    match Str.find_str "(" tail with
    | Some open_idx =>
        match last (SqlKind.split_whitespace (Str.trim_end (Str.sub 0 open_idx tail))) with
        | Some name => negb (String.eqb name "") && name_chars name
        | None => false
        end
    | None => false
    end).

Definition has_order_by_case_expression : test :=
  after_order_by (fun tail => Str.contains "CASE" tail && Str.contains "END" tail).

(** The comma at depth zero of [has_order_by_multi_column] *)
Fixpoint top_level_comma (depth : nat) (s : string) : bool :=
  match s with
  | EmptyString => false
  | String c s' =>
      if Ascii.eqb c "("%char then top_level_comma (S depth) s'
      else if Ascii.eqb c ")"%char then top_level_comma (pred depth) s'
      else if Ascii.eqb c ","%char && Nat.eqb depth 0 then true
      else top_level_comma depth s'
  end.

(** [s.split(p).next().unwrap_or(s)] *)
Definition before (p s : string) : string :=
  match Str.split_once p s with Some (a, _) => a | None => s end.

Definition has_order_by_multi_column : test :=
  after_order_by (fun tail =>
    top_level_comma 0 (before " FETCH" (before " OFFSET" (before " LIMIT" tail)))).

Section Upper.
Context `{!UnicodeUpper}.

Definition has_order_by_desc_direction : test :=
  after_order_by (fun tail =>
    Str.contains " DESC" (to_uppercase tail) || Str.starts_with "DESC" tail).

Definition has_order_by_asc_direction : test :=
  after_order_by (fun tail =>
    Str.contains " ASC" (to_uppercase tail) || Str.starts_with "ASC" (to_uppercase tail)).

Definition has_order_by_random : test :=
  after_order_by (fun tail =>
    let u := to_uppercase tail in
    Str.contains "RANDOM()" u || Str.contains "RAND()" u
    || (Str.contains "RANDOM(" u && Str.contains ")" u)).

Definition has_order_by_random_seeded : test :=
  after_order_by (fun tail =>
    let u := to_uppercase tail in
    if Str.contains "RANDOM()" u then false
    else match Str.find_str "RANDOM(" u with
         | Some open_idx => first_is_digit (Str.sub (open_idx + 7) (String.length u) u)
         | None => false
         end).

Definition has_order_by_rand_alias : test :=
  after_order_by (fun tail => Str.contains "RAND()" (to_uppercase tail)).

End Upper.

Definition has_offset_only_pagination : test :=
  all [text_has " OFFSET "; no (text_has " LIMIT "); no (text_has " FETCH ")].

(** Read the statement's own flags. *)
Definition has_having_without_group_by (fs : list Flag) : bool :=
  bool_decide (HasHaving ∈ fs) && negb (bool_decide (HasGroupBy ∈ fs)).
Definition has_having_with_group_by (fs : list Flag) : bool :=
  bool_decide (HasHaving ∈ fs) && bool_decide (HasGroupBy ∈ fs).

Definition has_group_by_rollup : test := any [keyword "GROUP BY ROLLUP("; keyword "GROUP BY ROLLUP ("].
Definition has_group_by_cube : test := any [keyword "GROUP BY CUBE("; keyword "GROUP BY CUBE ("].
Definition has_select_distinct_on : test := text_has "SELECT DISTINCT ON (".
Definition has_for_update : test := any [text_has " FOR UPDATE"; text_has " FOR SHARE"].
Definition has_left_join : test := any [text_has " LEFT JOIN "; text_has " LEFT OUTER JOIN "].
Definition has_right_join : test := any [text_has " RIGHT JOIN "; text_has " RIGHT OUTER JOIN "].
Definition has_full_outer_join : test := any [text_has " FULL JOIN "; text_has " FULL OUTER JOIN "].
Definition has_inner_join : test := text_has " INNER JOIN ".
Definition has_straight_join : test := text_has " STRAIGHT_JOIN ".
Definition has_semi_join : test := text_has " SEMI JOIN ".
Definition has_anti_join : test := text_has " ANTI JOIN ".
Definition has_cross_apply : test := text_has " CROSS APPLY ".
Definition has_outer_apply : test := text_has " OUTER APPLY ".
Definition has_apply : test := text_has " APPLY ".
Definition has_left_semi_join : test := text_has " LEFT SEMI JOIN ".
Definition has_left_anti_join : test := text_has " LEFT ANTI JOIN ".
Definition has_right_semi_join : test := text_has " RIGHT SEMI JOIN ".
Definition has_right_anti_join : test := text_has " RIGHT ANTI JOIN ".
Definition has_full_semi_join : test := text_has " FULL SEMI JOIN ".
Definition has_full_anti_join : test := text_has " FULL ANTI JOIN ".
Definition has_union_all : test := text_has " UNION ALL ".

Definition has_aggregate_distinct : test :=
  any [compact "COUNT(DISTINCT"; compact "SUM(DISTINCT"; compact "AVG(DISTINCT";
       compact "MIN(DISTINCT"; compact "MAX(DISTINCT"].

Definition alias_stops (stop_at_join : bool) : list string :=
  [" ON "; " WHERE "; " GROUP BY "; " HAVING "; " ORDER BY "; " LIMIT "; " OFFSET "; " UNION "]
  ++ (if stop_at_join then [" JOIN "] else []).

(** The smallest position of a stop word, or the whole text. *)
Definition source_end (stops : list string) (tail : string) : nat :=
  foldr Nat.min (String.length tail) (omap (fun kw => Str.find_str kw tail) stops).

(** The loop of [has_alias_after_anchor]; [up] is the text from [scan_from] on, and
    every round drops the anchor, so the length bounds the rounds. *)
Fixpoint alias_after (fuel : nat) (anchor : string) (stop_at_join : bool) (up : string) : bool :=
  match fuel, Str.split_once anchor up with
  | S fuel', Some (_, tail) =>
      let source_seg := Str.sub 0 (source_end (alias_stops stop_at_join) tail) tail in
      if Str.contains " AS " source_seg && negb (Str.contains " AS (" source_seg)
         && negb (Str.contains ") AS " source_seg)
      then true else alias_after fuel' anchor stop_at_join tail
  | _, _ => false
  end.

Definition has_alias_after_anchor (up anchor : string) (stop_at_join : bool) : bool :=
  alias_after (S (String.length up)) anchor stop_at_join up.

Definition has_table_alias : test := fun up =>
  Some (has_alias_after_anchor up " FROM " true || has_alias_after_anchor up " JOIN " false).

Section Tables.
Context `{!UnicodeTables}.

(** The loop of [has_column_alias]; the search goes on behind each [" AS "] that is
    followed by no word, or by a word and a closing parenthesis. *)
Fixpoint column_alias_after (fuel : nat) (select_list : string) : bool :=
  match fuel, Str.split_once " AS " select_list with
  | S fuel', Some (_, rest) =>
      let (word, behind) := span (fun c => is_alphanumeric c || (c =? 95)%N) (Utf8.of_utf8 rest) in
      if bool_decide (word = []) || bool_decide (head behind = Some 41%N)
      then column_alias_after fuel' rest else true
  | _, _ => false
  end.

Definition has_column_alias : test := fun up =>
  let select_list := before " FROM " up in
  Some (column_alias_after (S (String.length select_list)) select_list).

Context `{!UnicodeUpper}.

(** ** The flags [parse_tokens] sets *)

Inductive Rule := Text (t : test) | Stmt (p : list Flag -> bool).

Definition head_rules : list (Flag * Rule) :=
  [(HasUnion, Text (text_has " UNION "));
   (HasUnionAll, Text has_union_all);
   (HasSubquery, Text (any [text_has "(SELECT"; text_has "( SELECT"]));
   (HasWindowFn, Text (any [text_has "OVER ("; text_has "OVER("]));
   (HasAggFn, Text (any [compact "COUNT("; compact "SUM("; compact "AVG("; compact "MIN("; compact
     "MAX("]));
   (HasAggregateDistinct, Text has_aggregate_distinct);
   (IsDistinct, Text (compact_starts "SELECTDISTINCT"));
   (HasNullLiteral, Text (any [text_has "IS NULL"; text_has "IS NOT NULL"]));
   (HasGroupBy, Text (keyword "GROUP BY"));
   (HasTableAlias, Text has_table_alias);
   (HasColumnAlias, Text has_column_alias);
   (HasOrderBy, Text (keyword "ORDER BY"));
   (HasHaving, Text (keyword "HAVING"))].

Definition expression_rules : list (Flag * Rule) :=
  [(HasInList, Text (all [keyword " IN ("; no (keyword "(SELECT")]));
   (HasBetween, Text (all [keyword " BETWEEN "; keyword " AND "]));
   (HasLike, Text (any [keyword " LIKE "; keyword " ILIKE "]));
   (HasNot, Text (all [keyword " NOT "; no (keyword "IS NOT"); no (keyword "NOT IN")]));
   (HasCase, Text (keyword "CASE WHEN"));
   (HasCoalesce, Text (compact "COALESCE("));
   (HasCast, Text (any [compact "CAST("; text_has "::"]));
   (HasNullif, Text (compact "NULLIF("));
   (HasStringFn, Text (any [compact "LENGTH("; compact "UPPER("; compact "LOWER("; compact
     "SUBSTR("]));
   (HasDateFn, Text (any [compact "NOW("; compact "DATE_TRUNC("; compact "EXTRACT("]));
   (HasConcat, Text (any [compact "CONCAT("; text_has " || "]));
   (HasMathFn, Text (any [compact "ABS("; compact "ROUND("; compact "CEIL("; compact "FLOOR("]));
   (HasExists, Text (any [compact "EXISTS("; text_has "EXISTS ("]));
   (HasAnyAll, Text (any [compact "ANY("; compact "ALL("]));
   (HasNotIn, Text (any [keyword "NOT IN ("; keyword "NOT IN("]));
   (HasTrim, Text (any [compact "TRIM("; compact "LTRIM("; compact "RTRIM("]));
   (HasInterval, Text (text_has "INTERVAL"));
   (HasInSubquery, Text (any [keyword "IN (SELECT"; keyword "IN(SELECT"]))].

Definition clause_rules : list (Flag * Rule) :=
  [(HasIsNull, Text (any [text_has "IS NULL"; text_has "IS NOT NULL"]));
   (HasRegexp, Text (any [text_has "REGEXP"; text_has "RLIKE"; text_has "SIMILAR TO"]));
   (HasJsonOp, Text (any [text_has "->"; text_has "JSON_EXTRACT"; text_has "JSON_VALUE"]));
   (HasWindowAgg, Text (all [any [text_has "COUNT("; text_has "SUM("; text_has "AVG("; text_has
     "ROW_NUMBER"]; text_has "OVER"]));
   (HasLateral, Text (text_has "LATERAL"));
   (HasPivot, Text (text_has "PIVOT"));
   (HasFetch, Text (any [text_has "FETCH NEXT"; text_has "FETCH FIRST"]));
   (HasValues, Text (text_has "VALUES ("));
   (HasCrossJoin, Text (text_has "CROSS JOIN"));
   (HasFullTextSearch, Text (any [text_has "MATCH ("; text_has " @@ "; text_has "MATCH("]));
   (HasGroupingSets, Text (keyword "GROUPING SETS"));
   (HasNaturalJoin, Text (text_has "NATURAL JOIN"));
   (HasUsingJoin, Text (any [text_has " USING ("; text_has "USING("]));
   (HasExcept, Text (keyword " EXCEPT "));
   (HasIntersect, Text (text_has " INTERSECT "));
   (HasQualify, Text (text_has " QUALIFY "));
   (HasWithCte, Text (all [starts "WITH "; text_has " AS ("]));
   (HasRecursiveCte, Text (all [starts "WITH RECURSIVE "; text_has " AS ("]))].

Definition tail_rules : list (Flag * Rule) :=
  [(HasNotExists, Text (any [text_has "NOT EXISTS("; text_has "NOT EXISTS ("]));
   (HasFilter, Text (any [text_has "FILTER ("; text_has "FILTER("]));
   (HasWindowFrame, Text (any [text_has "ROWS BETWEEN"; text_has "RANGE BETWEEN"; text_has
     "ROWS UNBOUNDED"; text_has "RANGE UNBOUNDED"]));
   (HasNamedWindow, Text (all [text_has " WINDOW "; text_has " AS ("]));
   (HasWindowPartition, Text (keyword "PARTITION BY"));
   (HasWindowOrder, Text (all [any [any [text_has "OVER ("; text_has "OVER("]; all [text_has
     " WINDOW "; text_has " AS ("]]; keyword "ORDER BY"; no (keyword "PARTITION BY")]));
   (HasNullsOrdering, Text (all [keyword "ORDER BY"; any [keyword "NULLS FIRST"; keyword
     "NULLS LAST"]]));
   (HasOrderByCollation, Text (all [keyword "ORDER BY"; keyword "COLLATE"]));
   (HasOrderByPositional, Text has_order_by_positional);
   (HasOrderByExpression, Text has_order_by_expression);
   (HasOrderByFunctionExpression, Text has_order_by_function_expression);
   (HasOrderByCaseExpression, Text has_order_by_case_expression);
   (HasOrderByDescDirection, Text has_order_by_desc_direction);
   (HasOrderByAscDirection, Text has_order_by_asc_direction);
   (HasOrderByRandom, Text has_order_by_random);
   (HasOrderByRandomSeeded, Text has_order_by_random_seeded);
   (HasOrderByRandAlias, Text has_order_by_rand_alias);
   (HasOrderByMultiColumn, Text has_order_by_multi_column);
   (HasOffsetOnlyPagination, Text has_offset_only_pagination);
   (HasHavingWithoutGroupBy, Stmt has_having_without_group_by);
   (HasHavingWithGroupBy, Stmt has_having_with_group_by);
   (HasGroupByRollup, Text has_group_by_rollup);
   (HasGroupByCube, Text has_group_by_cube);
   (HasSelectDistinctOn, Text has_select_distinct_on);
   (HasForUpdate, Text has_for_update);
   (HasLeftJoin, Text has_left_join);
   (HasRightJoin, Text has_right_join);
   (HasFullOuterJoin, Text has_full_outer_join);
   (HasInnerJoin, Text has_inner_join);
   (HasStraightJoin, Text has_straight_join);
   (HasSemiJoin, Text has_semi_join);
   (HasAntiJoin, Text has_anti_join);
   (HasCrossApply, Text has_cross_apply);
   (HasOuterApply, Text has_outer_apply);
   (HasApply, Text has_apply);
   (HasLeftSemiJoin, Text has_left_semi_join);
   (HasLeftAntiJoin, Text has_left_anti_join);
   (HasRightSemiJoin, Text has_right_semi_join);
   (HasRightAntiJoin, Text has_right_anti_join);
   (HasFullSemiJoin, Text has_full_semi_join);
   (HasFullAntiJoin, Text has_full_anti_join)].

Definition with_rules : list (Flag * Rule) :=
  [(HasWithCte, Text (all [starts "WITH "; text_has " AS ("]));
   (HasAggregateDistinct, Text has_aggregate_distinct);
   (HasUnion, Text (text_has " UNION "));
   (HasUnionAll, Text has_union_all);
   (HasRecursiveCte, Text (all [starts "WITH RECURSIVE "; text_has " AS ("]));
   (HasGroupBy, Text (keyword "GROUP BY"));
   (HasTableAlias, Text has_table_alias);
   (HasColumnAlias, Text has_column_alias);
   (HasHaving, Text (keyword "HAVING"))].

(** The [if]s in their order, on the flags set so far. *)
Fixpoint run_rules (rules : list (Flag * Rule)) (up : string) (fs : list Flag)
    : option (list Flag) :=
  match rules with
  | [] => Some fs
  | (f, r) :: rules' =>
      let! b := match r with Text t => t up | Stmt p => Some (p fs) end in
      run_rules rules' up (if (b : bool) then f :: fs else fs)
  end.

Definition select_flags (up : string) : option (list Flag) :=
  run_rules (head_rules ++ expression_rules ++ clause_rules ++ tail_rules) up [].

Definition with_flags (up : string) : option (list Flag) :=
  run_rules (with_rules ++ tail_rules) up [].

(** What [parse_select] itself sets *)
Definition own_flags (stmt : Statement) : list Flag :=
  match stmt with
  | SSelect sel => if has_limit_offset_pagination sel then [HasLimitOffsetPagination] else []
  | _ => []
  end.

(** [parse_tokens] with the flags; the outer [None] is a panic of a flag test. *)
Definition parse_tokens_flags (raw : text) (tokens : list Token) : option (result Parsed string) :=
  let up := Str.to_ascii_uppercase (Utf8.to_utf8 raw) in
  match parse_tokens raw tokens with
  | Err e => Some (Err e)
  | Ok stmt =>
      match tokens with
      | Keyword k :: _ =>
          let kw := Tokenizer.to_ascii_uppercase k in
          if bool_decide (kw = chars "SELECT") then
            let! fs := select_flags up in Some (Ok (mkParsed stmt (own_flags stmt ++ fs)))
          else if bool_decide (kw = chars "WITH") then
            let! fs := with_flags up in Some (Ok (mkParsed stmt (own_flags stmt ++ fs)))
          else Some (Ok (mkParsed stmt []))
      | _ => Some (Ok (mkParsed stmt []))
      end
  end.

(** The statement and the flags that the structural adapter makes of a query. *)
Class FlagAdapter := { parse_with_sqlparser_flags : text -> option Parsed }.

Definition parse_one_flags `{!FlagAdapter} (sql : text) : option (result Parsed string) :=
  match parse_with_sqlparser_flags sql with
  | Some stmt => Some (Ok stmt)
  | None =>
      match semantic_tokens sql with
      | [] => Some (Err "empty input")
      | tokens => parse_tokens_flags sql tokens
      end
  end.

End Tables.

End AstFlags.
