(* ===== verification/Planner.v ===== *)
(** * Logical plans and their cost ([crates/voltnuerongrid-exec/src/planner.rs])

    The plan tree, its construction from a parsed statement, the promotion to an
    index scan and the cost estimate.  The plan nodes that hold nothing but their
    input are the constructors of [Wrapper], under one node [Wrap].  Costs are
    IEEE doubles: Stdlib's executable binary64 operations, with a literal as the
    correctly rounded quotient of two integers. *)

From S2P Require Import Prelude Str SqlKind Tokenizer Utf8 Ast AstFlags.
From Stdlib Require Import Ascii SpecFloat.
Local Open Scope string_scope.
Local Open Scope list_scope.
Local Open Scope N_scope.

Module Planner.
Import Tokenizer Ast AstFlags.

(** ** Doubles *)

Abbreviation f64 := spec_float.

Definition f64_of_u64 (n : N) : f64 := binary_normalize 53 1024 (Z.of_N n) 0 false.
Definition f64_add : f64 -> f64 -> f64 := SFadd 53 1024.
Definition f64_mul : f64 -> f64 -> f64 := SFmul 53 1024.

(** The literal [n / d]; integers below 2^53 are exact, so the quotient is the
    nearest double. *)
Definition lit (n d : N) : f64 := SFdiv 53 1024 (f64_of_u64 n) (f64_of_u64 d).

(** [x as u64]: truncates, saturates, and maps NaN to zero *)
Definition f64_as_u64 (x : f64) : N :=
  match x with
  | S754_finite false m e => N.min u64_max (Z.to_N (Z.shiftl (Zpos m) e))
  | S754_infinity false => u64_max
  | _ => 0
  end.

(** ** Plans *)

Inductive QueryPath := Oltp | Olap | Hybrid | UnknownPath.

#[export] Instance QueryPath_eq_dec : EqDecision QueryPath.
Proof. solve_decision. Defined.

Inductive Wrapper :=
| InList | Between | Like | Not | Case | Coalesce | Cast | Nullif | StringFn | DateFn | Concat |
MathFn | Exists | AnyAll | NotIn | Trim | Interval | InSubquery | IsNull | Regexp | JsonOp |
Distinct | Subquery | WindowAgg | Lateral | Pivot | Fetch | Values | CrossJoin | FullTextSearch
| GroupingSets | NaturalJoin | UsingJoin | Except | Intersect | Qualify | WithCte | RecursiveCte
| NotExists | AggregateFilter | WindowFrame | NamedWindow | WindowPartition | WindowOrder |
NullsOrdering | CollationOrdering | PositionalOrdering | ExpressionOrdering | FunctionOrdering |
CaseOrdering | DirectionOrdering | AscDirectionOrdering | RandomOrdering | SeededRandomOrdering
| RandAliasOrdering | MultiColumnOrdering | LimitOffsetPagination | OffsetOnlyPagination |
HavingWithoutGroupBy | HavingWithGroupBy | GroupByRollup | GroupByCube | SelectDistinctOn |
ForUpdate | LeftJoin | RightJoin | FullOuterJoin | InnerJoin | StraightJoin | SemiJoin |
AntiJoin | CrossApply | OuterApply | Apply | LeftSemiJoin | LeftAntiJoin | RightSemiJoin |
RightAntiJoin | FullSemiJoin | FullAntiJoin | UnionAll | AggregateDistinct | TableAlias |
ColumnAlias.

Definition all_wrappers : list Wrapper :=
  [InList; Between; Like; Not; Case; Coalesce; Cast; Nullif; StringFn; DateFn; Concat; MathFn;
   Exists; AnyAll; NotIn; Trim; Interval; InSubquery; IsNull; Regexp; JsonOp; Distinct;
   Subquery; WindowAgg; Lateral; Pivot; Fetch; Values; CrossJoin; FullTextSearch; GroupingSets;
   NaturalJoin; UsingJoin; Except; Intersect; Qualify; WithCte; RecursiveCte; NotExists;
   AggregateFilter; WindowFrame; NamedWindow; WindowPartition; WindowOrder; NullsOrdering;
   CollationOrdering; PositionalOrdering; ExpressionOrdering; FunctionOrdering; CaseOrdering;
   DirectionOrdering; AscDirectionOrdering; RandomOrdering; SeededRandomOrdering;
   RandAliasOrdering; MultiColumnOrdering; LimitOffsetPagination; OffsetOnlyPagination;
   HavingWithoutGroupBy; HavingWithGroupBy; GroupByRollup; GroupByCube; SelectDistinctOn;
   ForUpdate; LeftJoin; RightJoin; FullOuterJoin; InnerJoin; StraightJoin; SemiJoin; AntiJoin;
   CrossApply; OuterApply; Apply; LeftSemiJoin; LeftAntiJoin; RightSemiJoin; RightAntiJoin;
   FullSemiJoin; FullAntiJoin; UnionAll; AggregateDistinct; TableAlias; ColumnAlias].

Definition wrapper_index (w : Wrapper) : nat :=
  match w with
  | InList => 0 | Between => 1 | Like => 2 | Not => 3 | Case => 4 | Coalesce => 5 | Cast => 6
  | Nullif => 7 | StringFn => 8 | DateFn => 9 | Concat => 10 | MathFn => 11 | Exists => 12
  | AnyAll => 13 | NotIn => 14 | Trim => 15 | Interval => 16 | InSubquery => 17 | IsNull => 18
  | Regexp => 19 | JsonOp => 20 | Distinct => 21 | Subquery => 22 | WindowAgg => 23
  | Lateral => 24 | Pivot => 25 | Fetch => 26 | Values => 27 | CrossJoin => 28
  | FullTextSearch => 29 | GroupingSets => 30 | NaturalJoin => 31 | UsingJoin => 32
  | Except => 33 | Intersect => 34 | Qualify => 35 | WithCte => 36 | RecursiveCte => 37
  | NotExists => 38 | AggregateFilter => 39 | WindowFrame => 40 | NamedWindow => 41
  | WindowPartition => 42 | WindowOrder => 43 | NullsOrdering => 44 | CollationOrdering => 45
  | PositionalOrdering => 46 | ExpressionOrdering => 47 | FunctionOrdering => 48
  | CaseOrdering => 49 | DirectionOrdering => 50 | AscDirectionOrdering => 51
  | RandomOrdering => 52 | SeededRandomOrdering => 53 | RandAliasOrdering => 54
  | MultiColumnOrdering => 55 | LimitOffsetPagination => 56 | OffsetOnlyPagination => 57
  | HavingWithoutGroupBy => 58 | HavingWithGroupBy => 59 | GroupByRollup => 60
  | GroupByCube => 61 | SelectDistinctOn => 62 | ForUpdate => 63 | LeftJoin => 64
  | RightJoin => 65 | FullOuterJoin => 66 | InnerJoin => 67 | StraightJoin => 68
  | SemiJoin => 69 | AntiJoin => 70 | CrossApply => 71 | OuterApply => 72 | Apply => 73
  | LeftSemiJoin => 74 | LeftAntiJoin => 75 | RightSemiJoin => 76 | RightAntiJoin => 77
  | FullSemiJoin => 78 | FullAntiJoin => 79 | UnionAll => 80 | AggregateDistinct => 81
  | TableAlias => 82 | ColumnAlias => 83
  end.

Lemma wrapper_index_lookup w : all_wrappers !! wrapper_index w = Some w.
Proof. by destruct w. Qed.

#[export] Instance wrapper_index_inj : Inj (=) (=) wrapper_index.
Proof.
  intros v w E. pose proof (wrapper_index_lookup v) as Hv.
  rewrite E, wrapper_index_lookup in Hv. congruence.
Qed.

#[export] Instance Wrapper_eq_dec : EqDecision Wrapper.
Proof.
  intros v w. refine (cast_if (decide (wrapper_index v = wrapper_index w))).
  - by apply (inj wrapper_index).
  - by intros ->.
Defined.

Inductive LogicalPlan :=
| Scan (table : text) (filter : option text)
| Project (input : LogicalPlan) (columns : list text)
| Filter (input : LogicalPlan) (predicate : text)
| Aggregate (input : LogicalPlan) (group_by : list text) (having : option text)
| Sort (input : LogicalPlan) (order_by : list (text * bool))
| Limit (input : LogicalPlan) (count : N)
| Insert (table : text) (columns : list text) (value_count : N)
| Update (table : text) (assignments : list (text * text)) (filter : option text)
| Delete (table : text) (filter : option text)
| CreateTable (table : text) (column_count : N)
| Begin
| Commit
| Rollback
| Join (l r : LogicalPlan) (join_table : text) (condition : option text)
| Union (l r : LogicalPlan)
| WindowFn (input : LogicalPlan) (window_func : text)
| Offset (input : LogicalPlan) (offset : N)
| Having (input : LogicalPlan) (condition : text)
| TopN (input : LogicalPlan) (count : N) (order_by : text)
| Unknown (raw : text)
| IndexScan (table indexed_column lookup_value index_name : text) (input : LogicalPlan)
| Wrap (w : Wrapper) (input : LogicalPlan).

Fixpoint primary_table (p : LogicalPlan) : option text :=
  match p with
  | Scan table _ | Insert table _ _ | Update table _ _ | Delete table _ | CreateTable table _ =>
      Some table
  | Project input _ | Filter input _ | Aggregate input _ _ | Sort input _ | Limit input _
  | TopN input _ _ | WindowFn input _ | Offset input _ | Having input _ | Wrap _ input =>
      primary_table input
  | Join l _ _ _ | Union l _ => primary_table l
  | Begin | Commit | Rollback | Unknown _ | IndexScan _ _ _ _ _ => None
  end.

Definition is_read_only (p : LogicalPlan) : bool :=
  match p with
  | Insert _ _ _ | Update _ _ _ | Delete _ _ | CreateTable _ _ | Commit => false
  | _ => true
  end.

Fixpoint has_aggregation (p : LogicalPlan) : bool :=
  match p with
  | Aggregate _ _ _ => true
  | Project input _ | Filter input _ | Sort input _ | Limit input _ | TopN input _ _
  | WindowFn input _ | Offset input _ | Having input _ => has_aggregation input
  | Wrap WindowAgg _ => true
  | Wrap _ input => has_aggregation input
  | Join l r _ _ | Union l r => has_aggregation l || has_aggregation r
  | _ => false
  end.

(** ** [parse_single_equality] *)

Definition parse_single_equality (pred : text) : option (text * text) :=
  let pred := Utf8.to_utf8 pred in
  let upper := Str.to_ascii_uppercase pred in
  if Str.contains " AND " upper || Str.contains " OR " upper then None
  else
    match Str.split_once "=" pred with
    | Some (l, r) =>
        let lhs := SqlKind.to_ascii_lowercase (Str.trim l) in
        let val := Str.trim_matches [Str.DQUOTE] (Str.trim_matches ["'"] (Str.trim r)) in
        if String.eqb lhs "" || String.eqb val "" then None
        else Some (Utf8.of_utf8 lhs, Utf8.of_utf8 val)
    | None => None
    end.

(** ** Cost *)

Record CostEstimate := mkCost {
  estimated_rows : N;
  relative_cost : f64;
  recommended_path : QueryPath;
}.

(** How a wrapper estimates its rows from its input's. *)
Inductive Rows := Keep | Scale (factor : f64) | Halve | Square.

(** [None]: the product overflows, which panics in a debug build. *)
Definition rows_after (r : Rows) (n : N) : option N :=
  match r with
  | Keep => Some n
  | Scale f => Some (f64_as_u64 (f64_mul (f64_of_u64 n) f))
  | Halve => Some (n / 2)
  | Square => if n * n <=? u64_max then Some (n * n) else None
  end.

Definition predicate_estimates : list (Wrapper * (Rows * f64 * QueryPath)) :=
  [(InList, (Scale (lit 8 10), lit 5 10, Oltp));
   (Between, (Scale (lit 75 100), lit 4 10, Oltp));
   (Like, (Scale (lit 7 10), lit 12 10, Olap));
   (Not, (Scale (lit 85 100), lit 6 10, Oltp));
   (Case, (Scale (lit 9 10), lit 15 10, Olap));
   (Coalesce, (Keep, lit 3 10, Oltp));
   (Cast, (Keep, lit 2 10, Oltp));
   (Nullif, (Keep, lit 15 100, Oltp));
   (StringFn, (Keep, lit 1 10, Oltp));
   (DateFn, (Keep, lit 12 100, Oltp));
   (Concat, (Keep, lit 8 100, Oltp));
   (MathFn, (Keep, lit 9 100, Oltp));
   (Exists, (Scale (lit 5 10), lit 12 10, Olap));
   (AnyAll, (Scale (lit 8 10), lit 6 10, Olap));
   (NotIn, (Scale (lit 7 10), lit 4 10, Olap))].

Definition clause_estimates : list (Wrapper * (Rows * f64 * QueryPath)) :=
  [(Trim, (Keep, lit 5 100, Oltp));
   (Interval, (Scale (lit 9 10), lit 3 10, Olap));
   (InSubquery, (Scale (lit 6 10), lit 8 10, Olap));
   (IsNull, (Keep, lit 1 10, Oltp));
   (Regexp, (Scale (lit 7 10), lit 5 10, Olap));
   (JsonOp, (Keep, lit 4 10, Olap));
   (WindowAgg, (Keep, lit 15 10, Olap));
   (Lateral, (Scale (lit 7 10), lit 7 10, Olap));
   (Pivot, (Scale (lit 9 10), lit 8 10, Olap));
   (Fetch, (Keep, lit 5 100, Oltp));
   (Values, (Keep, lit 2 100, Oltp));
   (CrossJoin, (Square, lit 3 10, Olap))].

Definition set_and_window_estimates : list (Wrapper * (Rows * f64 * QueryPath)) :=
  [(FullTextSearch, (Scale (lit 3 10), lit 6 10, Olap));
   (GroupingSets, (Scale (lit 15 10), lit 7 10, Olap));
   (NaturalJoin, (Keep, lit 35 100, Olap));
   (UsingJoin, (Keep, lit 25 100, Olap));
   (Except, (Scale (lit 8 10), lit 45 100, Olap));
   (Intersect, (Scale (lit 7 10), lit 5 10, Olap));
   (Qualify, (Scale (lit 6 10), lit 2 10, Olap));
   (WithCte, (Keep, lit 15 100, Olap));
   (RecursiveCte, (Keep, lit 3 1, Hybrid));
   (NotExists, (Scale (lit 8 10), lit 2 1, Olap));
   (AggregateFilter, (Keep, lit 6 10, Olap));
   (WindowFrame, (Keep, lit 55 100, Olap))].

Definition ordering_estimates : list (Wrapper * (Rows * f64 * QueryPath)) :=
  [(NamedWindow, (Keep, lit 3 10, Olap));
   (WindowPartition, (Keep, lit 25 100, Olap));
   (WindowOrder, (Keep, lit 2 10, Olap));
   (NullsOrdering, (Keep, lit 1 10, Olap));
   (CollationOrdering, (Keep, lit 1 10, Olap));
   (PositionalOrdering, (Keep, lit 8 100, Olap));
   (ExpressionOrdering, (Keep, lit 12 100, Olap));
   (FunctionOrdering, (Keep, lit 18 100, Olap));
   (CaseOrdering, (Keep, lit 14 100, Olap));
   (DirectionOrdering, (Keep, lit 5 100, Olap));
   (AscDirectionOrdering, (Keep, lit 3 100, Olap));
   (RandomOrdering, (Keep, lit 2 10, Olap));
   (SeededRandomOrdering, (Keep, lit 22 100, Olap));
   (RandAliasOrdering, (Keep, lit 19 100, Olap))].

Definition join_estimates : list (Wrapper * (Rows * f64 * QueryPath)) :=
  [(MultiColumnOrdering, (Keep, lit 2 100, Olap));
   (LimitOffsetPagination, (Keep, lit 3 100, Oltp));
   (OffsetOnlyPagination, (Keep, lit 4 100, Oltp));
   (HavingWithoutGroupBy, (Keep, lit 6 100, Olap));
   (HavingWithGroupBy, (Keep, lit 8 100, Olap));
   (GroupByRollup, (Keep, lit 12 100, Olap));
   (GroupByCube, (Keep, lit 15 100, Olap));
   (SelectDistinctOn, (Keep, lit 7 100, Olap));
   (ForUpdate, (Keep, lit 3 100, Oltp));
   (LeftJoin, (Keep, lit 12 100, Olap));
   (RightJoin, (Keep, lit 13 100, Olap));
   (FullOuterJoin, (Keep, lit 18 100, Olap));
   (InnerJoin, (Keep, lit 11 100, Olap));
   (StraightJoin, (Keep, lit 9 100, Olap))].

Definition semi_join_estimates : list (Wrapper * (Rows * f64 * QueryPath)) :=
  [(SemiJoin, (Keep, lit 1 10, Olap));
   (AntiJoin, (Keep, lit 11 100, Olap));
   (CrossApply, (Keep, lit 12 100, Olap));
   (OuterApply, (Keep, lit 13 100, Olap));
   (Apply, (Keep, lit 5 100, Olap));
   (LeftSemiJoin, (Keep, lit 1 10, Olap));
   (LeftAntiJoin, (Keep, lit 11 100, Olap));
   (RightSemiJoin, (Keep, lit 12 100, Olap));
   (RightAntiJoin, (Keep, lit 13 100, Olap));
   (FullSemiJoin, (Keep, lit 14 100, Olap));
   (FullAntiJoin, (Keep, lit 15 100, Olap));
   (UnionAll, (Keep, lit 16 100, Olap));
   (AggregateDistinct, (Keep, lit 17 100, Olap));
   (TableAlias, (Keep, lit 4 100, Olap));
   (ColumnAlias, (Keep, lit 3 100, Olap));
   (Distinct, (Halve, lit 3 10, Oltp));
   (Subquery, (Keep, lit 2 1, Hybrid))].

(** Rows, added cost and path of each wrapper *)
Definition wrapper_estimates : list (Wrapper * (Rows * f64 * QueryPath)) :=
  predicate_estimates ++ clause_estimates ++ set_and_window_estimates ++ ordering_estimates ++ join_estimates ++ semi_join_estimates.

Definition wrapper_estimate (w : Wrapper) : Rows * f64 * QueryPath :=
  match List.find (fun e => bool_decide (e.1 = w)) wrapper_estimates with
  | Some e => e.2
  | None => (Keep, lit 0 1, UnknownPath)
  end.

Section Cost.
Local Open Scope vng_scope.

Fixpoint estimate_cost (plan : LogicalPlan) : option CostEstimate :=
  match plan with
  | Scan _ (Some _) => Some (mkCost 100 (lit 1 1) Oltp)
  | Scan _ None => Some (mkCost 10000 (lit 10 1) Olap)
  | IndexScan _ _ _ _ _ => Some (mkCost 1 (lit 5 100) Oltp)
  | Filter input _ =>
      let! c := estimate_cost input in
      Some (mkCost (N.max (estimated_rows c / 10) 1) (f64_mul (relative_cost c) (lit 5 10)) Oltp)
  | Aggregate input _ _ =>
      let! c := estimate_cost input in
      Some (mkCost (N.max (estimated_rows c / 20) 1) (f64_mul (relative_cost c) (lit 5 1)) Olap)
  | Sort input _ =>
      let! c := estimate_cost input in
      Some (mkCost (estimated_rows c) (f64_mul (relative_cost c) (lit 15 10)) (recommended_path c))
  | Limit input count =>
      let! c := estimate_cost input in
      Some (mkCost (N.min (estimated_rows c) count) (f64_mul (relative_cost c) (lit 1 10)) Oltp)
  | TopN input count _ =>
      let! c := estimate_cost input in
      Some (mkCost (N.min (estimated_rows c) count) (f64_mul (relative_cost c) (lit 13 10)) Oltp)
  | Project input _ =>
      let! c := estimate_cost input in
      Some (mkCost (estimated_rows c) (f64_mul (relative_cost c) (lit 9 10)) (recommended_path c))
  | Insert _ _ value_count => Some (mkCost value_count (lit 5 10) Oltp)
  | Update _ _ (Some _) | Delete _ (Some _) => Some (mkCost 1 (lit 5 10) Oltp)
  | Update _ _ None | Delete _ None => Some (mkCost 100 (lit 5 1) Oltp)
  | CreateTable _ _ => Some (mkCost 0 (lit 1 10) Oltp)
  | Begin | Commit | Rollback => Some (mkCost 0 (lit 5 100) Oltp)
  | Join l r _ _ =>
      let! lc := estimate_cost l in
      let! rc := estimate_cost r in
      Some (mkCost (N.min u64_max (estimated_rows lc + estimated_rows rc))
                   (f64_add (f64_add (relative_cost lc) (relative_cost rc)) (lit 3 1)) Hybrid)
  | Union l r =>
      let! lc := estimate_cost l in
      let! rc := estimate_cost r in
      Some (mkCost (N.min u64_max (estimated_rows lc + estimated_rows rc))
                   (f64_add (f64_add (relative_cost lc) (relative_cost rc)) (lit 2 1)) Olap)
  | WindowFn input _ =>
      let! c := estimate_cost input in
      Some (mkCost (estimated_rows c) (f64_add (relative_cost c) (lit 25 10)) Olap)
  | Offset input _ =>
      let! c := estimate_cost input in
      Some (mkCost (estimated_rows c) (f64_add (relative_cost c) (lit 1 10)) Oltp)
  | Having input _ =>
      let! c := estimate_cost input in
      Some (mkCost (estimated_rows c / 2) (f64_add (relative_cost c) (lit 1 1)) Olap)
  | Wrap w input =>
      let! c := estimate_cost input in
      let '(rule, added, path) := wrapper_estimate w in
      let! rows := rows_after rule (estimated_rows c) in
      Some (mkCost rows (f64_add (relative_cost c) added) path)
  | Unknown _ => Some (mkCost 0 (lit 0 1) UnknownPath)
  end.

End Cost.

(** ** Planning *)

(** [plan_select] up to the projection *)
Definition plan_clauses (sel : SelectStatement) : LogicalPlan :=
  let scan := Scan (default (chars "<unknown>") (sel_table sel)) None in
  let after_join :=
    match join sel with
    | Some jc => Join scan (Scan (join_table jc) (on_condition jc)) (join_table jc) (on_condition jc)
    | None => scan
    end in
  let after_filter :=
    match sel_where sel with Some pred => Filter after_join pred | None => after_join end in
  let after_agg :=
    match group_by sel with
    | [] => after_filter
    | gs => Aggregate after_filter gs (having sel)
    end in
  let after_having :=
    match having sel with Some cond => Having after_agg cond | None => after_agg end in
  let after_limit :=
    match order_by sel, limit sel with
    | o :: _, Some n => TopN after_having n (ob_column o)
    | obs, lim =>
        let after_sort :=
          match obs with
          | [] => after_having
          | _ => Sort after_having (map (fun o => (ob_column o, descending o)) obs)
          end in
        match lim with Some n => Limit after_sort n | None => after_sort end
    end in
  let after_offset :=
    match offset sel with
    | Some off => if 0 <? off then Offset after_limit off else after_limit
    | None => after_limit
    end in
  if bool_decide (sel_columns sel = [chars "*"]) || bool_decide (sel_columns sel = [])
  then after_offset else Project after_offset (sel_columns sel).

Definition flagged (fs : list Flag) (f : Flag) : bool := bool_decide (f ∈ fs).

(** The column alias, the union and the window function, above the projection *)
Definition plan_union (sel : SelectStatement) (fs : list Flag) : LogicalPlan :=
  let after_project := plan_clauses sel in
  let after_column_alias :=
    if flagged fs HasColumnAlias then Wrap ColumnAlias after_project else after_project in
  let after_union :=
    if flagged fs HasUnion
    then Union after_column_alias (Scan (default (chars "<union_rhs>") (sel_table sel)) None)
    else after_column_alias in
  if flagged fs HasWindowFn then WindowFn after_union (chars "OVER") else after_union.

(** The remaining wrappers, innermost first *)
Definition value_wrappers : list (Flag * Wrapper) :=
  [(IsDistinct, Distinct); (HasSubquery, Subquery); (HasInList, InList); (HasBetween, Between);
   (HasLike, Like); (HasNot, Not); (HasCase, Case); (HasCoalesce, Coalesce);
   (HasCast, Cast); (HasNullif, Nullif); (HasStringFn, StringFn); (HasDateFn, DateFn);
   (HasConcat, Concat); (HasMathFn, MathFn); (HasExists, Exists); (HasAnyAll, AnyAll);
   (HasNotIn, NotIn)].

Definition function_wrappers : list (Flag * Wrapper) :=
  [(HasTrim, Trim); (HasInterval, Interval); (HasInSubquery, InSubquery); (HasIsNull, IsNull);
   (HasRegexp, Regexp); (HasJsonOp, JsonOp); (HasWindowAgg, WindowAgg);
   (HasLateral, Lateral); (HasPivot, Pivot); (HasFetch, Fetch); (HasValues, Values);
   (HasCrossJoin, CrossJoin)].

Definition set_wrappers : list (Flag * Wrapper) :=
  [(HasFullTextSearch, FullTextSearch); (HasGroupingSets, GroupingSets);
   (HasNaturalJoin, NaturalJoin); (HasUsingJoin, UsingJoin); (HasExcept, Except);
   (HasIntersect, Intersect); (HasQualify, Qualify); (HasWithCte, WithCte);
   (HasRecursiveCte, RecursiveCte); (HasNotExists, NotExists); (HasFilter, AggregateFilter);
   (HasWindowFrame, WindowFrame)].

Definition window_order_wrappers : list (Flag * Wrapper) :=
  [(HasNamedWindow, NamedWindow); (HasWindowPartition, WindowPartition);
   (HasWindowOrder, WindowOrder); (HasNullsOrdering, NullsOrdering);
   (HasOrderByCollation, CollationOrdering); (HasOrderByPositional, PositionalOrdering);
   (HasOrderByExpression, ExpressionOrdering);
   (HasOrderByFunctionExpression, FunctionOrdering);
   (HasOrderByCaseExpression, CaseOrdering); (HasOrderByDescDirection, DirectionOrdering);
   (HasOrderByAscDirection, AscDirectionOrdering); (HasOrderByRandom, RandomOrdering);
   (HasOrderByRandomSeeded, SeededRandomOrdering)].

Definition pagination_wrappers : list (Flag * Wrapper) :=
  [(HasOrderByRandAlias, RandAliasOrdering); (HasOrderByMultiColumn, MultiColumnOrdering);
   (HasLimitOffsetPagination, LimitOffsetPagination);
   (HasOffsetOnlyPagination, OffsetOnlyPagination);
   (HasHavingWithoutGroupBy, HavingWithoutGroupBy);
   (HasHavingWithGroupBy, HavingWithGroupBy); (HasGroupByRollup, GroupByRollup);
   (HasGroupByCube, GroupByCube); (HasSelectDistinctOn, SelectDistinctOn);
   (HasForUpdate, ForUpdate)].

Definition join_wrappers : list (Flag * Wrapper) :=
  [(HasLeftJoin, LeftJoin); (HasRightJoin, RightJoin); (HasFullOuterJoin, FullOuterJoin);
   (HasInnerJoin, InnerJoin); (HasStraightJoin, StraightJoin); (HasSemiJoin, SemiJoin);
   (HasAntiJoin, AntiJoin); (HasCrossApply, CrossApply); (HasOuterApply, OuterApply);
   (HasApply, Apply)].

Definition semi_join_wrappers : list (Flag * Wrapper) :=
  [(HasLeftSemiJoin, LeftSemiJoin); (HasLeftAntiJoin, LeftAntiJoin);
   (HasRightSemiJoin, RightSemiJoin); (HasRightAntiJoin, RightAntiJoin);
   (HasFullSemiJoin, FullSemiJoin); (HasFullAntiJoin, FullAntiJoin);
   (HasUnionAll, UnionAll); (HasAggregateDistinct, AggregateDistinct);
   (HasTableAlias, TableAlias)].

Definition wrappers : list (Flag * Wrapper) :=
  value_wrappers ++ function_wrappers ++ set_wrappers ++ window_order_wrappers ++ pagination_wrappers ++ join_wrappers ++ semi_join_wrappers.

Definition wrap (fs : list Flag) (p : LogicalPlan) (fw : Flag * Wrapper) : LogicalPlan :=
  if flagged fs fw.1 then Wrap fw.2 p else p.

Definition plan_select (sel : SelectStatement) (fs : list Flag) : LogicalPlan :=
  foldl (wrap fs) (plan_union sel fs) wrappers.

Definition plan_insert (ins : InsertStatement) : LogicalPlan :=
  Insert (ins_table ins) (ins_columns ins) (N.of_nat (length (ins_values ins))).
Definition plan_update (upd : UpdateStatement) : LogicalPlan :=
  Update (upd_table upd) (upd_assignments upd) (upd_where upd).
Definition plan_delete (del : DeleteStatement) : LogicalPlan :=
  Delete (del_table del) (del_where del).

Definition plan (stmt : Parsed) : LogicalPlan :=
  match statement stmt with
  | SSelect sel => plan_select sel (flags stmt)
  | SInsert ins => plan_insert ins
  | SUpdate upd => plan_update upd
  | SDelete del => plan_delete del
  | SCreateTable ct => CreateTable (cre_table ct) (N.of_nat (length (cre_columns ct)))
  | SBegin => Begin
  | SCommit => Commit
  | SRollback => Rollback
  | SUnknown s => Unknown s
  end.

(** [eq_ignore_ascii_case] *)
Definition same_name (a b : text) : bool :=
  bool_decide (Tokenizer.to_ascii_uppercase a = Tokenizer.to_ascii_uppercase b).

Definition find_index (indexes : list (text * text * text)) (table col : text) : option text :=
  snd <$> List.find (fun d => same_name d.1.1 table && same_name d.1.2 col) indexes.

Definition plan_with_indexes (stmt : Parsed) (available_indexes : list (text * text * text))
    : LogicalPlan :=
  let base := plan stmt in
  match statement stmt with
  | SSelect sel =>
      match sel_table sel, sel_where sel with
      | Some table, Some pred =>
          match parse_single_equality pred with
          | Some (col, val) =>
              match find_index available_indexes table col with
              | Some idx_name => IndexScan table col val idx_name base
              | None => base
              end
          | None => base
          end
      | _, _ => base
      end
  | _ => base
  end.

End Planner.
