(* ===== verification/Router.v ===== *)
(** * Routing between the transactional and the analytical plane
      ([crates/voltnuerongrid-exec/src/lib.rs], [crates/voltnuerongrid-sql/src/lib.rs],
       [services/voltnuerongridd/src/handlers/sql.rs])

    [HtapQueryRouter] chooses the plane of a statement and of a batch from the text,
    [route_with_stats] revises the choice from the table's row count, and
    [planner_path] is the path the statement handler reports for the analytical
    statements of a batch. *)

From S2P Require Import Prelude Str Decimal SqlKind Tokenizer Utf8 Ast AstFlags Planner.
From Stdlib Require Import Ascii SpecFloat.
Local Open Scope string_scope.
Local Open Scope list_scope.
Local Open Scope N_scope.

Module Router.
Import Tokenizer Planner.

(** ** Batches *)

(** [SqlAnalyzer::parse_batch], the statements' texts *)
Definition parse_batch (sql_batch : string) : list string :=
  filter (fun s => SqlKind.normalize_sql_for_match s ≠ "")
    (filter (fun s => s ≠ "") (map Str.trim (Str.split ";" sql_batch))).

Record AnalysisResult := mkAnalysis {
  kind : SqlKind.SqlStatementKind;
  requires_transaction : bool;
  touches_catalog : bool;
}.

Definition catalog_kind (k : SqlKind.SqlStatementKind) : bool :=
  match k with
  | SqlKind.CreateTable | SqlKind.CreateView | SqlKind.CreateMaterializedView
  | SqlKind.CreateFunction | SqlKind.CreateTrigger | SqlKind.CreateEvent | SqlKind.AlterTable
  | SqlKind.CreateIndex | SqlKind.DropIndex | SqlKind.DropTable | SqlKind.DropView
  | SqlKind.DropFunction | SqlKind.DropTrigger | SqlKind.DropEvent | SqlKind.Grant
  | SqlKind.Revoke | SqlKind.CreateRole | SqlKind.DropRole | SqlKind.CreateDatabase
  | SqlKind.DropDatabase | SqlKind.CreateSchema | SqlKind.DropSchema => true
  | _ => false
  end.

Definition analyze_statement (sql : string) : AnalysisResult :=
  let k := SqlKind.classify_statement sql in
  let dml := match k with SqlKind.Insert | SqlKind.Update | SqlKind.Delete => true | _ => false end in
  mkAnalysis k (dml || catalog_kind k) (catalog_kind k).

(** ** One statement *)

Record RouteDecision := mkRoute { path : QueryPath; reason : string }.

Definition dialect_functions : list string :=
  [" IFNULL("; " NVL("; " NVL2("; " IFF("; " DECODE("; " DATEADD("; " DATEDIFF(";
   " ZEROIFNULL("; " NULLIFZERO("; " TO_TIMESTAMP_NTZ("; " TO_TIMESTAMP_TZ(";
   " JSON_EXTRACT("; " JSON_OBJECT("; " OBJECT_CONSTRUCT("; " ARRAY_CONSTRUCT(";
   " TRY_CAST("; " TO_VARCHAR("; " TO_NUMBER("; " PIVOT("; " TRY_TO_"].

Definition contains_any (ps : list string) (s : string) : bool :=
  existsb (fun p => Str.contains p s) ps.

(** [upper.split_whitespace().collect::<Vec<_>>().join(" ")] *)
Definition compact_spaces (s : string) : string := Str.join " " (SqlKind.split_whitespace s).

Definition analytical_patterns : list string :=
  ["GROUP BY"; "JOIN"; "HAVING"; "OVER ("; "OVER("; "IN (SELECT"; "IN(SELECT";
   "EXISTS (SELECT"; "EXISTS(SELECT"; "SUM ("; "SUM("; "COUNT ("; "COUNT("; "AVG ("; "AVG(";
   "MIN ("; "MIN("; "MAX ("; "MAX("].

Definition route_statement (sql : string) : RouteDecision :=
  let upper := Str.to_ascii_uppercase sql in
  match kind (analyze_statement sql) with
  | SqlKind.Insert | SqlKind.Update | SqlKind.Delete | SqlKind.Begin | SqlKind.Commit
  | SqlKind.Rollback | SqlKind.Savepoint | SqlKind.ReleaseSavepoint
  | SqlKind.RollbackToSavepoint => mkRoute Oltp "transactional statement"
  | SqlKind.Select =>
      let is_analytical :=
        contains_any analytical_patterns (compact_spaces upper)
        || contains_any dialect_functions upper in
      if is_analytical then mkRoute Olap "analytical pattern detected"
      else mkRoute Oltp "point-select style statement"
  | SqlKind.CreateTable | SqlKind.CreateView | SqlKind.CreateMaterializedView
  | SqlKind.CreateFunction | SqlKind.CreateTrigger | SqlKind.CreateEvent | SqlKind.AlterTable
  | SqlKind.CreateIndex | SqlKind.DropIndex | SqlKind.DropTable | SqlKind.DropView
  | SqlKind.DropFunction | SqlKind.DropTrigger | SqlKind.DropEvent | SqlKind.CreateDatabase
  | SqlKind.DropDatabase | SqlKind.CreateSchema | SqlKind.DropSchema =>
      mkRoute Hybrid "catalog-changing statement affects both planes"
  | SqlKind.Grant | SqlKind.Revoke | SqlKind.CreateRole | SqlKind.DropRole =>
      mkRoute Hybrid "privilege-changing statement affects both planes"
  | SqlKind.Unknown => mkRoute UnknownPath "unclassified statement"
  end.

(** ** A batch *)

Record RoutedStatement := mkRouted { routed_text : string; routed_path : QueryPath }.

Record BatchRouteDecision := mkBatch {
  batch_path : QueryPath;
  batch_statements : list RoutedStatement;
  batch_reason : string;
}.

Record Seen := mkSeen { seen_oltp : bool; seen_olap : bool; seen_unknown : bool }.

Definition see (s : Seen) (p : QueryPath) : Seen :=
  match p with
  | Oltp => mkSeen true (seen_olap s) (seen_unknown s)
  | Olap => mkSeen (seen_oltp s) true (seen_unknown s)
  | UnknownPath => mkSeen (seen_oltp s) (seen_olap s) true
  | Hybrid => mkSeen true true (seen_unknown s)
  end.

Definition batch_of (s : Seen) : QueryPath * string :=
  if seen_unknown s then (UnknownPath, "one or more statements are unclassified")
  else if seen_oltp s && seen_olap s then (Hybrid, "mixed transactional and analytical workload")
  else if seen_olap s then (Olap, "analytical workload detected")
  else if seen_oltp s then (Oltp, "transactional workload detected")
  else (UnknownPath, "empty SQL batch").

Definition route_batch (sql_batch : string) : BatchRouteDecision :=
  let routed :=
    map (fun raw => mkRouted raw (path (route_statement raw))) (parse_batch sql_batch) in
  let seen := foldl (fun s r => see s (routed_path r)) (mkSeen false false false) routed in
  let (p, why) := batch_of seen in
  mkBatch p routed why.

(** ** Statistics *)

Record TableStats := mkStats { row_count : N; distinct_values : gmap string N }.

Definition StatsRegistry := gmap string TableStats.

Definition update_table (r : StatsRegistry) (table : string) (rows : N)
    (distinct : gmap string N) : StatsRegistry :=
  <[table := mkStats rows distinct]> r.

Definition get (r : StatsRegistry) (table : string) : option TableStats := r !! table.

(** [f64::min] of two numbers that are not NaN *)
Definition f64_min (a b : f64) : f64 := if SFltb b a then b else a.

Definition selectivity_eq (r : StatsRegistry) (table col : string) : f64 :=
  match r !! table with
  | Some stats =>
      if row_count stats =? 0 then lit 1 1
      else
        let distinct := default 1 (distinct_values stats !! col) in
        f64_min (SFdiv 53 1024 (lit 1 1) (f64_of_u64 (N.max distinct 1))) (lit 1 1)
  | None => lit 1 10
  end.

Definition OLAP_MIN_ROWS : N := 10000.

(** [token.rsplit('.').next()] *)
Definition last_segment (token : string) : string := default token (last (Str.split "." token)).

Definition extract_primary_table (sql : string) : option string :=
  match Str.split_once " from " (SqlKind.to_ascii_lowercase sql) with
  | Some (_, after) =>
      match SqlKind.split_whitespace after with
      | w :: _ =>
          let token := Str.trim_matches ["("; ")"; ","; ";"] w in
          if String.eqb token "" then None else Some (last_segment token)
      | [] => None
      end
  | None => None
  end.

Definition olap_only : list string := [" JOIN "; " UNION "; " INTERSECT "; " EXCEPT "].

Definition demoted (table : string) (rows : N) : RouteDecision :=
  mkRoute Oltp ("cost override: '" +:+ table +:+ "' has " +:+ Dec.to_string rows +:+
    " rows (< 10000); OLTP avoids OLAP setup cost").

Definition promoted (table : string) (rows : N) : RouteDecision :=
  mkRoute Olap ("cost override: '" +:+ table +:+ "' has " +:+ Dec.to_string rows +:+
    " rows (>= 10000) with no equality predicate; OLAP avoids large OLTP scan").

(** The key of the table's statistics in database [db] *)
Definition stats_key (db : option string) (table : string) : string :=
  match db with
  | Some d => if String.eqb d "" then table
              else SqlKind.to_ascii_lowercase d +:+ "." +:+ table
  | None => table
  end.

Definition stats_rows (stats : StatsRegistry) (db : option string) (table : string) : option N :=
  row_count <$> match get stats (stats_key db table) with
                | Some s => Some s
                | None => get stats table
                end.

Definition is_select (k : SqlKind.SqlStatementKind) : bool :=
  match k with SqlKind.Select => true | _ => false end.

Definition route_with_stats (sql : string) (stats : StatsRegistry) (db : option string)
    : RouteDecision :=
  let base := route_statement sql in
  if negb (is_select (kind (analyze_statement sql))) then base
  else
    match extract_primary_table sql with
    | None => base
    | Some table =>
        match stats_rows stats db table with
        | None => base
        | Some rows =>
            let upper := compact_spaces (Str.to_ascii_uppercase sql) in
            let has_equality_predicate := Str.contains "WHERE " upper && Str.contains "=" upper in
            let requires_olap_engine :=
              contains_any olap_only upper || contains_any dialect_functions upper in
            match path base with
            | Olap => if (rows <? OLAP_MIN_ROWS) && negb requires_olap_engine
                      then demoted table rows else base
            | Oltp => if (OLAP_MIN_ROWS <=? rows) && negb has_equality_predicate
                      then promoted table rows else base
            | _ => base
            end
        end
    end.

(** ** The planner path of a batch *)

Definition path_str (p : QueryPath) : option string :=
  match p with
  | Olap => Some "olap"
  | Hybrid => Some "hybrid"
  | Oltp => Some "oltp"
  | UnknownPath => None
  end.

Section PlannerPath.
Context `{!UnicodeTables} `{!AstFlags.UnicodeUpper} `{!AstFlags.FlagAdapter}.
Local Open Scope vng_scope.

(** One round of the loop over the analytical statements: the largest cost so far
    and its path. *)
Definition planner_step (indexes : list (text * text * text)) (best : f64 * option string)
    (stmt : string) : option (f64 * option string) :=
  let! parsed := AstFlags.parse_one_flags (Utf8.of_utf8 stmt) in
  match parsed with
  | Err _ => Some best
  | Ok parsed =>
      let p := match indexes with [] => plan parsed | _ => plan_with_indexes parsed indexes end in
      let! estimate := estimate_cost p in
      match path_str (recommended_path estimate) with
      | None => Some best
      | Some s =>
          if SFltb best.1 (relative_cost estimate)
          then Some (relative_cost estimate, Some s) else Some best
      end
  end.

Fixpoint planner_loop (indexes : list (text * text * text)) (best : f64 * option string)
    (stmts : list string) : option (f64 * option string) :=
  match stmts with
  | [] => Some best
  | s :: stmts' =>
      let! best' := planner_step indexes best s in planner_loop indexes best' stmts'
  end.

Definition planner_path (indexes : list (text * text * text)) (olap_statements : list string)
    : option (option string) :=
  let! best := planner_loop indexes (S754_infinity true, None) olap_statements in Some best.2.

End PlannerPath.

End Router.
