(* ===== verification/PlannerProps.v ===== *)
(** * Properties of the flag tests, the planner and the router *)

From S2P Require Import Prelude Str SqlKind Tokenizer Utf8 Ast AstFlags Planner Router.
From Stdlib Require Import Ascii.
Local Open Scope string_scope.
Local Open Scope list_scope.
Local Open Scope N_scope.

Module PlannerProps.
Import Tokenizer Ast AstFlags Planner Router.

(** ** Keywords outside string literals *)

(** Whether a text has an even number of quotes, starting from [b]. *)
Fixpoint even_quotes (b : bool) (s : string) : bool :=
  match s with
  | EmptyString => b
  | String c s' => even_quotes (xorb b (is_quote c)) s'
  end.

(** [keyword] occurs at byte [i] of [up], behind an even number of quotes: no string
    literal is open there. *)
Definition occurs_outside (up keyword : string) (i : nat) : Prop :=
  ∃ pre post, up = pre +:+ keyword +:+ post ∧ String.length pre = i ∧ even_quotes true pre = true.

(** A keyword of the source: not empty, and its first character is not a quote. *)
Definition plain_keyword (k : string) : bool :=
  match k with String c _ => negb (is_quote c) | EmptyString => false end.

(** The reference search: the first occurrence behind an even number of quotes. *)
Fixpoint first_outside (keyword : string) (b : bool) (i : nat) (s : string) : option nat :=
  match s with
  | EmptyString => None
  | String c s' =>
      if b && Str.starts_with keyword s then Some i
      else first_outside keyword (xorb b (is_quote c)) (S i) s'
  end.

Lemma ascii_boundary s : is_ascii s = true → char_boundary s = true.
Proof.
  destruct s as [|c s]; cbn [is_ascii char_boundary]; [done|].
  intros [Hc _]%andb_prop. unfold cont_byte. apply N.ltb_lt in Hc.
  destruct (N.leb_spec 128 (N_of_ascii c)); [lia|done].
Qed.

Lemma ascii_suffix n s : is_ascii s = true → is_ascii (Str.sub n (String.length s) s) = true.
Proof.
  revert n. induction s as [|c s IH]; intros n; [by destruct n|].
  cbn [is_ascii]. intros [Hc Hs]%andb_prop. destruct n as [|n].
  - unfold Str.sub. rewrite Nat.sub_0_r. cbn [String.length String.substring is_ascii].
    rewrite Hc. cbn [andb]. specialize (IH 0%nat Hs). unfold Str.sub in IH.
    by rewrite Nat.sub_0_r in IH.
  - unfold Str.sub. cbn [String.length String.substring Nat.sub]. apply (IH n Hs).
Qed.

Lemma substring_all s : String.substring 0 (String.length s) s = s.
Proof. induction s as [|c s IH]; [done|]. cbn. by rewrite IH. Qed.

Lemma prefix_eq_starts_with k s :
  (String.length k <= String.length s)%nat →
  String.eqb (Str.sub 0 (String.length k) s) k = Str.starts_with k s.
Proof.
  unfold Str.sub. rewrite Nat.sub_0_r. revert s.
  induction k as [|a k IH]; intros s; [by destruct s|].
  destruct s as [|b s]; [cbn; lia|]. intros Hl. cbn [String.length] in *.
  cbn [String.substring]. unfold Str.starts_with. cbn [Str.strip_prefix String.eqb].
  rewrite Ascii.eqb_sym. destruct (Ascii.eqb a b); [|done].
  rewrite IH by lia. done.
Qed.

Lemma short_not_prefix k s :
  (String.length s < String.length k)%nat → Str.starts_with k s = false.
Proof.
  intros Hl. destruct (Str.starts_with k s) eqn:E; [|done].
  apply Str.starts_with_spec in E as [t ->]. rewrite Str.length_app_str in Hl. lia.
Qed.

Lemma quote_not_prefix k c s :
  plain_keyword k = true → is_quote c = true → Str.starts_with k (String c s) = false.
Proof.
  destruct k as [|a k]; [done|]. cbn [plain_keyword]. intros Ha Hc.
  unfold Str.starts_with. cbn [Str.strip_prefix].
  destruct (Ascii.eqb_spec a c) as [->|]; [by rewrite Hc in Ha|done].
Qed.

(** The byte walk of the code is the reference search. *)
Lemma find_outside_ref k : plain_keyword k = true → ∀ n s b i,
  (String.length s <= n)%nat → is_ascii s = true →
  find_outside k (negb b) i s = Some (first_outside k b i s).
Proof.
  intros Hk. induction n as [|n IH]; intros s b i Hn Hs.
  { destruct s; [done|cbn in Hn; lia]. }
  destruct s as [|c s]; [done|].
  pose proof (ascii_boundary _ Hs) as Hb. pose proof (ascii_suffix (String.length k) _ Hs) as Hsuf.
  cbn [is_ascii String.length] in Hs, Hn. apply andb_prop in Hs as [Hc Hs].
  assert (Hstep : ∀ b', find_outside k (negb b') (i + 1) s = Some (first_outside k b' (S i) s)).
  { intros b'. rewrite Nat.add_1_r. apply IH; [lia|done]. }
  destruct b; cbn [find_outside first_outside negb andb xorb].
  - destruct (is_quote c) eqn:Hq.
    + rewrite (quote_not_prefix _ _ _ Hk Hq). apply (Hstep false).
    + destruct (Nat.leb_spec (String.length k) (String.length (String c s))).
      * unfold slice_to. rewrite Hb, (ascii_boundary _ Hsuf). cbn [andb].
        rewrite prefix_eq_starts_with by done.
        destruct (Str.starts_with k (String c s)); [done|]. apply (Hstep true).
      * rewrite short_not_prefix by done. apply (Hstep true).
  - destruct (is_quote c) eqn:Hq; [|apply (Hstep false)].
    destruct s as [|c' s]; [done|]. destruct (is_quote c') eqn:Hq'; [|apply (Hstep true)].
    cbn [first_outside andb]. rewrite (quote_not_prefix _ _ _ Hk Hq'), Hq'. cbn [is_ascii] in Hs.
    apply andb_prop in Hs as [_ Hs]. cbn [String.length] in Hn.
    replace (i + 2)%nat with (S (S i)) by lia. apply (IH s false); [lia|done].
Qed.

Lemma first_outside_Some k b i s j : first_outside k b i s = Some j →
  ∃ pre post, s = pre +:+ k +:+ post ∧ j = (i + String.length pre)%nat ∧ even_quotes b pre = true.
Proof.
  revert b i. induction s as [|c s IH]; intros b i; cbn [first_outside]; [done|].
  destruct (b && Str.starts_with k (String c s)) eqn:E.
  - intros [= <-]. apply andb_prop in E as [-> E]. apply Str.starts_with_spec in E as [t ->].
    exists "", t. cbn. split; [done|]. split; [lia|done].
  - intros (pre & post & -> & -> & Hp)%IH. exists (String c pre), post. cbn.
    split; [done|]. split; [lia|done].
Qed.

Lemma first_outside_least k b i s pre post : k ≠ "" →
  s = pre +:+ k +:+ post → even_quotes b pre = true →
  ∃ j, first_outside k b i s = Some j ∧ (j <= i + String.length pre)%nat.
Proof.
  intros Hk. revert b i s. induction pre as [|c pre IH]; intros b i s -> Hp.
  - cbn in Hp. subst b. change ("" +:+ k +:+ post) with (k +:+ post).
    destruct (k +:+ post) as [|c s] eqn:E; [by destruct k|].
    cbn [first_outside andb]. rewrite <-E, Str.starts_with_app. exists i. split; [done|lia].
  - cbn in Hp. change (String c pre +:+ k +:+ post) with (String c (pre +:+ k +:+ post)).
    cbn [first_outside]. destruct (b && _); [exists i; split; [done|lia]|].
    destruct (IH _ (S i) _ eq_refl Hp) as (j & -> & Hj). exists j. cbn [String.length]. split; [done|lia].
Qed.

(** C12: On ASCII text the byte walk of [find_keyword_outside_strings] never panics and
    finds exactly the first occurrence of the keyword at which no string literal is
    open; it finds nothing exactly when there is none. *)
Theorem keyword_search_is_exact up k : is_ascii up = true → plain_keyword k = true →
  ∃ r, find_keyword_outside_strings up k = Some r ∧
    ∀ i, r = Some i ↔ occurs_outside up k i ∧ ∀ j, occurs_outside up k j → (i <= j)%nat.
Proof.
  intros Ha Hk. exists (first_outside k true 0 up).
  split; [exact (find_outside_ref k Hk _ up true 0 (le_n _) Ha)|].
  assert (Hne : k ≠ "") by (by intros ->).
  assert (least : ∀ j, occurs_outside up k j →
            ∃ j', first_outside k true 0 up = Some j' ∧ (j' <= j)%nat).
  { intros j (pre & post & E & <- & Hp). exact (first_outside_least k true 0 up pre post Hne E Hp). }
  assert (found : ∀ i, first_outside k true 0 up = Some i → occurs_outside up k i).
  { intros i (pre & post & E & -> & Hp)%first_outside_Some. by exists pre, post. }
  intros i. split.
  - intros E. split; [by apply found|]. intros j (j' & E' & Hj)%least. congruence.
  - intros [Ho Hmin]. destruct (least i Ho) as (j & E & Hj).
    specialize (Hmin j (found j E)). replace i with j by lia. done.
Qed.

Definition literal_group_by : string := "SELECT A FROM T WHERE N = 'GROUP BY' GROUP BY A".

Lemma keyword_search_is_exact_witness :
  ∃ r, find_keyword_outside_strings literal_group_by "GROUP BY" = Some r ∧
    ∀ i, r = Some i ↔ occurs_outside literal_group_by "GROUP BY" i ∧
                      ∀ j, occurs_outside literal_group_by "GROUP BY" j → (i <= j)%nat.
Proof. apply keyword_search_is_exact; reflexivity. Defined.

Example literal_group_by_found :
  find_keyword_outside_strings literal_group_by "GROUP BY" = Some (Some 37%nat).
Proof. reflexivity. Qed.

(** Outside a literal one character beyond ASCII is enough for a panic: the walk
    slices the text in the middle of the character. *)
Lemma non_ascii_query_panics :
  find_keyword_outside_strings (Utf8.to_utf8 (chars "SELECT " ++ [233] ++ chars " FROM T ORDER BY A"))
    "GROUP BY" = None.
Proof. vm_compute. reflexivity. Qed.

(** ** The plan of a SELECT *)

Lemma primary_table_clauses sel :
  primary_table (plan_clauses sel) = Some (default (chars "<unknown>") (sel_table sel)).
Proof.
  unfold plan_clauses. cbv zeta.
  destruct (_ || _), (offset sel) as [off|]; try destruct (0 <? off);
    destruct (order_by sel), (limit sel), (having sel), (group_by sel), (sel_where sel), (join sel);
    reflexivity.
Qed.

Lemma aggregation_clauses sel :
  has_aggregation (plan_clauses sel) = negb (bool_decide (group_by sel = [])).
Proof.
  unfold plan_clauses. cbv zeta.
  destruct (_ || _), (offset sel) as [off|]; try destruct (0 <? off);
    destruct (order_by sel), (limit sel), (having sel), (group_by sel), (sel_where sel), (join sel);
    reflexivity.
Qed.

Lemma primary_table_wrap fs p ws : primary_table (foldl (wrap fs) p ws) = primary_table p.
Proof.
  revert p. induction ws as [|[f w] ws IH]; intros p; [done|]. cbn [foldl].
  rewrite IH. unfold wrap. by destruct (flagged fs _).
Qed.

Lemma read_only_wrap fs p ws :
  is_read_only p = true → is_read_only (foldl (wrap fs) p ws) = true.
Proof.
  revert p. induction ws as [|[f w] ws IH]; intros p Hp; [done|]. cbn [foldl].
  apply IH. unfold wrap. by destruct (flagged fs _).
Qed.

(** The wrapper adds an aggregation exactly when it is [WindowAgg]. *)
Lemma aggregation_wrap fs p ws :
  has_aggregation (foldl (wrap fs) p ws) =
  has_aggregation p || existsb (fun fw => flagged fs fw.1 && bool_decide (fw.2 = WindowAgg)) ws.
Proof.
  revert p. induction ws as [|[f w] ws IH]; intros p; cbn [foldl existsb]; [by rewrite orb_false_r|].
  rewrite IH. unfold wrap. cbn [fst snd]. destruct (flagged fs f); cbn [andb]; [|done].
  assert (E : has_aggregation (Wrap w p) = has_aggregation p || bool_decide (w = WindowAgg)).
  { case_bool_decide as Hw; [by rewrite Hw, orb_true_r|].
    rewrite orb_false_r. by destruct w. }
  by rewrite E, orb_assoc.
Qed.

Lemma window_agg_wrapper fs :
  existsb (fun fw => flagged fs fw.1 && bool_decide (fw.2 = WindowAgg)) wrappers =
  flagged fs HasWindowAgg.
Proof.
  rewrite <-(orb_false_r (flagged fs HasWindowAgg)). unfold wrappers.
  cbn [app existsb fst snd value_wrappers function_wrappers set_wrappers window_order_wrappers
       pagination_wrappers join_wrappers semi_join_wrappers].
  repeat match goal with
  | |- context [bool_decide (?a = ?b)] =>
      first [ rewrite (bool_decide_eq_true_2 (a = b)) by reflexivity
            | rewrite (bool_decide_eq_false_2 (a = b)) by discriminate ]
  end.
  rewrite ?andb_false_r, ?andb_true_r. cbn [orb]. by destruct (flagged fs HasWindowAgg).
Qed.

(** Whatever flags are set, the plan of a SELECT is read-only, its primary table is
    the table of the FROM clause, and it counts as an aggregation exactly when the
    statement has GROUP BY columns or the flag of a window aggregate. *)
Theorem plan_of_select sel fs :
  let p := plan (mkParsed (SSelect sel) fs) in
  primary_table p = Some (default (chars "<unknown>") (sel_table sel)) ∧
  is_read_only p = true ∧
  has_aggregation p = negb (bool_decide (group_by sel = [])) || flagged fs HasWindowAgg.
Proof.
  cbv zeta. cbn [plan statement AstFlags.flags]. unfold plan_select.
  rewrite primary_table_wrap, aggregation_wrap, window_agg_wrapper.
  unfold plan_union. cbv zeta.
  pose proof (primary_table_clauses sel) as Ht. pose proof (aggregation_clauses sel) as Hg.
  assert (Hr : is_read_only (plan_clauses sel) = true).
  { unfold plan_clauses. cbv zeta. destruct (_ || _), (offset sel) as [off|]; try destruct (0 <? off);
      destruct (order_by sel), (limit sel), (having sel), (group_by sel), (sel_where sel), (join sel);
      reflexivity. }
  destruct (flagged fs HasColumnAlias), (flagged fs HasUnion), (flagged fs HasWindowFn);
    (split; [exact Ht|]); (split; [by apply read_only_wrap|]);
    cbn [has_aggregation]; by rewrite Hg, ?orb_false_r.
Qed.

(** An aggregate without GROUP BY is not an aggregation for the planner. *)
Lemma count_is_no_aggregation :
  has_aggregation (plan (mkParsed (SSelect (mkSelect [chars "COUNT"] (Some (chars "t")) None None
    [] None [] None None false)) [HasAggFn])) = false.
Proof. reflexivity. Qed.

(** An index scan hides the table and the aggregation of the plan it replaces. *)
Lemma index_scan_hides_table t c v n p :
  primary_table (IndexScan t c v n p) = None ∧ has_aggregation (IndexScan t c v n p) = false.
Proof. done. Qed.

(** A comparison of two columns is taken for a lookup of the literal ["b"]. *)
Lemma column_comparison_is_lookup :
  parse_single_equality (chars "a = b") = Some (chars "a", chars "b") ∧
  parse_single_equality (chars "a >= 5") = Some (chars "a >", chars "5").
Proof. split; reflexivity. Qed.

Lemma find_index_Some idx t c n : find_index idx t c = Some n →
  ∃ t' c', (t', c', n) ∈ idx ∧ same_name t' t = true ∧ same_name c' c = true.
Proof.
  unfold find_index. intros ([[t' c'] n'] & E & ->)%fmap_Some. cbn [snd].
  apply List.find_some in E as [Hin [Ht Hc]%andb_prop]. exists t', c'.
  by split; [apply list_elem_of_In|].
Qed.

(** The index-aware planner changes a plan only to an index scan around it, and only
    for a SELECT whose WHERE clause is one equality on a column of the FROM table that
    a listed index covers, with that index's name, column and value. *)
Theorem index_scan_has_index stmt idx : plan_with_indexes stmt idx ≠ plan stmt →
  ∃ sel table pred col val name t' c',
    statement stmt = SSelect sel ∧ sel_table sel = Some table ∧ sel_where sel = Some pred ∧
    parse_single_equality pred = Some (col, val) ∧
    (t', c', name) ∈ idx ∧ same_name t' table = true ∧ same_name c' col = true ∧
    plan_with_indexes stmt idx = IndexScan table col val name (plan stmt).
Proof.
  unfold plan_with_indexes. cbv zeta.
  destruct (statement stmt) as [sel| | | | | | | |]; try done.
  destruct (sel_table sel) as [table|] eqn:Et; [|done].
  destruct (sel_where sel) as [pred|] eqn:Ew; [|done].
  destruct (parse_single_equality pred) as [[col val]|] eqn:Ep; [|done].
  destruct (find_index idx table col) as [name|] eqn:Ei; [|done].
  intros _. apply find_index_Some in Ei as (t' & c' & Hin & Ht & Hc).
  by exists sel, table, pred, col, val, name, t', c'.
Qed.

Definition lookup_stmt : Parsed :=
  mkParsed (SSelect (mkSelect [chars "*"] (Some (chars "users")) None (Some (chars "id = 7"))
    [] None [] None None false)) [].
Definition users_id : list (text * text * text) := [(chars "Users", chars "ID", chars "ix")].

Lemma index_scan_has_index_witness :
  plan_with_indexes lookup_stmt users_id ≠ plan lookup_stmt ∧
  ∃ sel table pred col val name t' c',
    statement lookup_stmt = SSelect sel ∧ sel_table sel = Some table ∧
    sel_where sel = Some pred ∧ parse_single_equality pred = Some (col, val) ∧
    (t', c', name) ∈ users_id ∧ same_name t' table = true ∧ same_name c' col = true ∧
    plan_with_indexes lookup_stmt users_id = IndexScan table col val name (plan lookup_stmt).
Proof.
  assert (Q : plan_with_indexes lookup_stmt users_id ≠ plan lookup_stmt)
    by (vm_compute; discriminate).
  split; [exact Q|]. exact (index_scan_has_index lookup_stmt users_id Q).
Defined.

(** ** Routes *)

Definition paths (sql : string) : list QueryPath :=
  map (fun raw => path (route_statement raw)) (parse_batch sql).

Definition takes (q : QueryPath) (ps : list QueryPath) : bool :=
  existsb (fun p => bool_decide (p = q)) ps.

Lemma seen_paths ps s :
  foldl see s ps =
  mkSeen (seen_oltp s || takes Oltp ps || takes Hybrid ps)
         (seen_olap s || takes Olap ps || takes Hybrid ps)
         (seen_unknown s || takes UnknownPath ps).
Proof.
  revert s. induction ps as [|p ps IH]; intros s; cbn [foldl].
  { destruct s. cbn. by rewrite !orb_false_r. }
  rewrite IH. unfold takes. destruct p; cbn [existsb see seen_oltp seen_olap seen_unknown]; f_equal;
    by destruct (seen_oltp s), (seen_olap s), (seen_unknown s),
      (existsb (fun p => bool_decide (p = Oltp)) ps), (existsb (fun p => bool_decide (p = Olap)) ps),
      (existsb (fun p => bool_decide (p = Hybrid)) ps).
Qed.

Definition batch_spec (ps : list QueryPath) : QueryPath :=
  if takes UnknownPath ps || bool_decide (ps = []) then UnknownPath
  else if forallb (fun p => bool_decide (p = Oltp)) ps then Oltp
  else if forallb (fun p => bool_decide (p = Olap)) ps then Olap
  else Hybrid.

Lemma only_oltp ps : forallb (fun p => bool_decide (p = Oltp)) ps =
  negb (takes Olap ps || takes Hybrid ps || takes UnknownPath ps).
Proof.
  unfold takes. induction ps as [|p ps IH]; [done|]. cbn [forallb existsb]. rewrite IH.
  destruct p; cbn; rewrite ?orb_true_r; done.
Qed.

Lemma only_olap ps : forallb (fun p => bool_decide (p = Olap)) ps =
  negb (takes Oltp ps || takes Hybrid ps || takes UnknownPath ps).
Proof.
  unfold takes. induction ps as [|p ps IH]; [done|]. cbn [forallb existsb]. rewrite IH.
  destruct p; cbn; rewrite ?orb_true_r; done.
Qed.

Lemma takes_some p ps :
  takes Oltp (p :: ps) || takes Olap (p :: ps) || takes Hybrid (p :: ps)
  || takes UnknownPath (p :: ps) = true.
Proof. unfold takes. destruct p; cbn; by rewrite ?orb_true_r. Qed.

Lemma batch_of_spec ps :
  (batch_of (mkSeen (takes Oltp ps || takes Hybrid ps) (takes Olap ps || takes Hybrid ps)
               (takes UnknownPath ps))).1 = batch_spec ps.
Proof.
  unfold batch_of, batch_spec. cbn [seen_oltp seen_olap seen_unknown].
  destruct ps as [|p ps]; [done|]. rewrite only_oltp, only_olap, (bool_decide_eq_false_2 (_ = [])) by done.
  pose proof (takes_some p ps) as Q.
  by destruct (takes Oltp _), (takes Olap _), (takes Hybrid _), (takes UnknownPath _).
Qed.

(** A batch takes the path its statements agree on: [Oltp] or [Olap] when every
    statement takes it, [Hybrid] when they differ or one of them is hybrid, and
    [Unknown] when one is unclassified or there is none. *)
Theorem batch_route_agrees sql : batch_path (route_batch sql) = batch_spec (paths sql).
Proof.
  unfold route_batch. cbv zeta. set (routed := map _ (parse_batch sql)).
  assert (E : foldl (fun s r => see s (routed_path r)) (mkSeen false false false) routed =
              foldl see (mkSeen false false false) (paths sql)).
  { unfold routed, paths. generalize (mkSeen false false false).
    induction (parse_batch sql) as [|x l IH]; intros s; [done|]. cbn. apply IH. }
  rewrite E, seen_paths, <-batch_of_spec. by destruct (batch_of _).
Qed.

(** Statistics move a query from the analytical to the transactional plane only when
    the table has fewer than [OLAP_MIN_ROWS] rows and the query has no join, no set
    operation and no function of another dialect. *)
Theorem demotion_is_safe sql stats db :
  path (route_statement sql) = Olap → path (route_with_stats sql stats db) ≠ Olap →
  ∃ table rows, extract_primary_table sql = Some table ∧
    stats_rows stats db table = Some rows ∧ rows < OLAP_MIN_ROWS ∧
    ∀ p, p ∈ olap_only ++ dialect_functions →
      Str.contains p (compact_spaces (Str.to_ascii_uppercase sql)) = false.
Proof.
  intros Hp. unfold route_with_stats. cbv zeta. rewrite Hp.
  destruct (negb _); [by rewrite Hp|].
  destruct (extract_primary_table sql) as [table|]; [|by rewrite Hp].
  destruct (stats_rows stats db table) as [rows|] eqn:Er; [|by rewrite Hp].
  destruct (_ && _) eqn:Ec; [|by rewrite Hp]. intros _.
  apply andb_prop in Ec as [Hr Ho]. exists table, rows. split; [done|]. split; [done|].
  split; [by apply N.ltb_lt|]. intros p Hin.
  apply negb_true_iff in Ho. unfold contains_any in Ho. rewrite <-existsb_app in Ho.
  destruct (Str.contains p _) eqn:E; [|done].
  rewrite <-Ho. symmetry. apply existsb_exists. exists p. by split; [apply list_elem_of_In|].
Qed.

Definition small_users : StatsRegistry := {[ "users" := mkStats 12 ∅ ]}.

Lemma demotion_is_safe_witness :
  path (route_with_stats "select count(*) from users" small_users None) = Oltp ∧
  ∃ table rows, extract_primary_table "select count(*) from users" = Some table ∧
    stats_rows small_users None table = Some rows ∧ rows < OLAP_MIN_ROWS ∧
    ∀ p, p ∈ olap_only ++ dialect_functions →
      Str.contains p (compact_spaces (Str.to_ascii_uppercase "select count(*) from users")) = false.
Proof.
  split; [vm_compute; reflexivity|].
  apply (demotion_is_safe "select count(*) from users" small_users None).
  - vm_compute. reflexivity.
  - vm_compute. discriminate.
Defined.

(** The statements of a batch are cut at every semicolon, also inside a literal. *)
Lemma semicolon_cuts_literal :
  parse_batch "INSERT INTO t VALUES ('a;b')" = ["INSERT INTO t VALUES ('a"; "b')"].
Proof. vm_compute. reflexivity. Qed.

(** A table whose name follows a line break is not found, so its statistics are not used. *)
Lemma line_break_hides_table :
  extract_primary_table ("select a" +:+ Str.LF +:+ "from users") = None.
Proof. vm_compute. reflexivity. Qed.
End PlannerProps.
