(* ===== verification/Columnar.v ===== *)
(** * Column batches ([crates/voltnuerongrid-store/src/columnar.rs])

    Rows of the row store are transposed into typed column vectors, which are
    filtered and aggregated.  A batch built from rows is their transpose, and a
    filtered batch holds exactly the rows that pass.  [f64] is the interface of the
    SELECT executor, with the minimum, maximum and the start of a sum; an [i64] sum
    wraps around, as in a build without overflow checks.  A panic is [None]. *)

From S2P Require Import Prelude Str Decimal SqlKind Select.
From Stdlib Require Import Ascii.
Local Open Scope string_scope.
Local Open Scope list_scope.
Local Open Scope vng_scope.

Module Columnar.
Import Select.

(** ** Columns *)

(** [f64::min], [f64::max], the infinities and the start of [Iterator::sum] *)
Class F64Fold (F : Type) := {
  f64_min : F -> F -> F;
  f64_max : F -> F -> F;
  f64_infinity : F;
  f64_neg_infinity : F;
  f64_sum_start : F;
}.

Inductive ColumnVector (F : Type) :=
| Int64 (v : list Z)
| Float64 (v : list F)
| CBool (v : list bool)
| CUtf8 (v : list string)
| CNull (n : nat).
Arguments Int64 {F} _.
Arguments Float64 {F} _.
Arguments CBool {F} _.
Arguments CUtf8 {F} _.
Arguments CNull {F} _.

Record ColumnBatch (F : Type) := mkBatch {
  column_names : list string;
  columns : gmap string (ColumnVector F);
  row_keys : list string;
}.
Arguments mkBatch {F} _ _ _.
Arguments column_names {F} _.
Arguments columns {F} _.
Arguments row_keys {F} _.

Record ColumnBatchBuilder := mkBuilder {
  b_row_keys : list string;
  raw : gmap string (list string);
  column_order : list string;
}.

Inductive VectorizedAggOp := Sum | Count | Avg | Min | Max.

Record AggResult := mkAgg { agg_op : VectorizedAggOp; agg_value : string; agg_rows : nat }.

Inductive FilterOp := FEq | FNe | FGt | FLt | FGte | FLte | FContains.

Record VectorizedFilter := mkFilter { f_column : string; f_op : FilterOp; f_value : string }.

Record VectorizedScanStats := mkScanStats {
  rows_scanned : nat;
  columns_materialized : nat;
  elapsed_us : N;
}.

Section Columnar.
Context {F : Type} `{!F64 F} `{!F64Fold F} `{!MapOrder string}.
Implicit Types (col : ColumnVector F) (b : ColumnBatch F).

Definition col_len col : nat :=
  match col with
  | Int64 v => length v
  | Float64 v => length v
  | CBool v => length v
  | CUtf8 v => length v
  | CNull n => n
  end.

Definition col_is_empty col : bool := Nat.eqb (col_len col) 0.

Definition bool_str (x : bool) : string := if x then "true" else "false".

Definition value_as_str col (idx : nat) : option string :=
  match col with
  | Int64 v => i64_to_string <$> v !! idx
  | Float64 v => f64_to_string <$> v !! idx
  | CBool v => bool_str <$> v !! idx
  | CUtf8 v => v !! idx
  | CNull _ => Some "null"
  end.

(** ** Batches *)

Definition batch_new : ColumnBatch F := mkBatch [] ∅ [].

Definition row_count b : nat := length (row_keys b).

Definition is_empty b : bool := Nat.eqb (row_count b) 0.

Definition add_column b (name : string) (vec : ColumnVector F) : ColumnBatch F :=
  mkBatch (if bool_decide (name ∈ column_names b) then column_names b else column_names b ++ [name])
    (<[name := vec]> (columns b)) (row_keys b).

Definition push_row_key b (key : string) : ColumnBatch F :=
  mkBatch (column_names b) (columns b) (row_keys b ++ [key]).

(** ** The builder *)

Definition builder_new : ColumnBatchBuilder := mkBuilder [] ∅ [].

(** One field of a row; [n] rows were there before. *)
Definition push_field (n : nat) (st : gmap string (list string) * list string)
    (field : string * string) : gmap string (list string) * list string :=
  let '(raw, order) := st in
  let '(col, val) := field in
  (<[col := default (replicate n "") (raw !! col) ++ [val]]> raw,
   if bool_decide (col ∈ order) then order else order ++ [col]).

(** [while col_vals.len() < n { col_vals.push("") }] *)
Definition pad (n : nat) (vals : list string) : list string :=
  vals ++ replicate (n - length vals) "".

Definition push_row (bd : ColumnBatchBuilder) (key : string) (fields : gmap string string)
    : ColumnBatchBuilder :=
  let n := length (b_row_keys bd) in
  let '(raw', order') := foldl (push_field n) (raw bd, column_order bd) (iter_map fields) in
  mkBuilder (b_row_keys bd ++ [key]) (pad (S n) <$> raw') order'.

Definition is_bool_text (v : string) : bool :=
  let l := SqlKind.to_ascii_lowercase v in
  String.eqb l "" || String.eqb l "true" || String.eqb l "false".

Definition infer_column_type (vals : list string) : ColumnVector F :=
  if forallb (fun v => String.eqb v "" || bool_decide (is_Some (parse_i64 v))) vals
  then Int64 (map (fun v => default 0%Z (parse_i64 v)) vals)
  else if forallb (fun v => String.eqb v "" || bool_decide (is_Some (f64_parse v))) vals
  then Float64 (map (fun v => default f64_zero (f64_parse v)) vals)
  else if forallb is_bool_text vals
  then CBool (map (fun v => String.eqb (SqlKind.to_ascii_lowercase v) "true") vals)
  else CUtf8 vals.

Definition finish (bd : ColumnBatchBuilder) : ColumnBatch F :=
  mkBatch (column_order bd)
    (foldl (fun m name =>
       match raw bd !! name with
       | Some vals => <[name := infer_column_type vals]> m
       | None => m
       end) ∅ (column_order bd))
    (b_row_keys bd).

Definition vectorized_scan (rows : list (string * gmap string string)) (limit : nat) (elapsed : N)
    : ColumnBatch F * VectorizedScanStats :=
  let builder := foldl (fun bd r => push_row bd r.1 r.2) builder_new (take limit rows) in
  let batch := finish builder in
  (batch, mkScanStats (row_count batch) (length (column_names batch)) elapsed).

(** ** Aggregates *)

Definition i64_sum (v : list Z) : Z := foldl (fun s x => i64_wrap (s + x)) 0%Z v.
Definition f64_sum (v : list F) : F := foldl f64_add f64_sum_start v.

Definition opt_text (o : option Z) : string :=
  match o with Some x => i64_to_string x | None => "null" end.

(** [iter().copied().min()] and [.max()] *)
Definition i64_minimum (v : list Z) : option Z :=
  match v with [] => None | x :: v' => Some (foldl Z.min x v') end.
Definition i64_maximum (v : list Z) : option Z :=
  match v with [] => None | x :: v' => Some (foldl Z.max x v') end.

Definition aggregate_value col (op : VectorizedAggOp) : string :=
  match op, col with
  | Count, _ => Dec.to_string (N.of_nat (col_len col))
  | Sum, Int64 v => i64_to_string (i64_sum v)
  | Sum, Float64 v => f64_to_string (f64_sum v)
  | Avg, Int64 ((_ :: _) as v) =>
      f64_to_string (f64_div (f64_of_i64 (i64_sum v)) (f64_of_u64 (N.of_nat (length v))))
  | Avg, Float64 ((_ :: _) as v) =>
      f64_to_string (f64_div (f64_sum v) (f64_of_u64 (N.of_nat (length v))))
  | Min, Int64 v => opt_text (i64_minimum v)
  | Min, Float64 ((_ :: _) as v) => f64_to_string (foldl f64_min f64_infinity v)
  | Max, Int64 v => opt_text (i64_maximum v)
  | Max, Float64 ((_ :: _) as v) => f64_to_string (foldl f64_max f64_neg_infinity v)
  | _, _ => "null"
  end.

Definition aggregate_column col (op : VectorizedAggOp) : AggResult :=
  mkAgg op (aggregate_value col op) (col_len col).

Definition aggregate_batch b (ops : gmap string VectorizedAggOp) : gmap string AggResult :=
  map_imap (fun name op => (fun col => aggregate_column col op) <$> columns b !! name) ops.

(** ** Filters *)

Definition cmp_ord (ord : comparison) (op : FilterOp) : bool :=
  match op, ord with
  | FEq, Datatypes.Eq | FNe, (Datatypes.Lt | Datatypes.Gt) => true
  | FGt, Datatypes.Gt | FLt, Datatypes.Lt => true
  | FGte, (Datatypes.Eq | Datatypes.Gt) | FLte, (Datatypes.Eq | Datatypes.Lt) => true
  | _, _ => false
  end.

Definition bool_compare (x y : bool) : comparison :=
  match x, y with
  | false, true => Datatypes.Lt
  | true, false => Datatypes.Gt
  | _, _ => Datatypes.Eq
  end.

Definition evaluate_predicate col (idx : nat) (op : FilterOp) (rhs : string) : bool :=
  match col with
  | Int64 v => cmp_ord (Z.compare (default 0%Z (v !! idx)) (default 0%Z (parse_i64 rhs))) op
  | Float64 v =>
      cmp_ord (default Datatypes.Eq
                 (f64_cmp (default f64_zero (v !! idx)) (default f64_zero (f64_parse rhs)))) op
  | CBool v =>
      cmp_ord (bool_compare (default false (v !! idx))
                 (String.eqb (SqlKind.to_ascii_lowercase rhs) "true")) op
  | CUtf8 v =>
      let lhs := default "" (v !! idx) in
      match op with
      | FContains => Str.contains rhs lhs
      | _ => cmp_ord (String.compare lhs rhs) op
      end
  | CNull _ => false
  end.

(** [indices.iter().map(|&i| v[i])]: panics beyond the end *)
Definition gather {A} (v : list A) (indices : list nat) : option (list A) :=
  mapM (fun i => v !! i) indices.

Definition project_rows col (indices : list nat) : option (ColumnVector F) :=
  match col with
  | Int64 v => Int64 <$> gather v indices
  | Float64 v => Float64 <$> gather v indices
  | CBool v => CBool <$> gather v indices
  | CUtf8 v => CUtf8 <$> gather v indices
  | CNull _ => Some (CNull (length indices))
  end.

(** One predicate on the rows kept so far *)
Definition keep_step b (keep : list bool) (pred : VectorizedFilter) : list bool :=
  match columns b !! f_column pred with
  | Some col =>
      imap (fun i k => if (k : bool) then evaluate_predicate col i (f_op pred) (f_value pred)
                       else false) keep
  | None => keep
  end.

Definition keep_rows b (predicates : list VectorizedFilter) : list nat :=
  let keep := foldl (keep_step b) (replicate (row_count b) true) predicates in
  filter (fun i => keep !! i = Some true) (seq 0 (row_count b)).

Fixpoint project_columns b (kept : list nat) (names : list string) (out : ColumnBatch F)
    : option (ColumnBatch F) :=
  match names with
  | [] => Some out
  | name :: names' =>
      match columns b !! name with
      | None => project_columns b kept names' out
      | Some col =>
          let! vec := project_rows col kept in
          project_columns b kept names'
            (mkBatch (column_names out ++ [name]) (<[name := vec]> (columns out)) (row_keys out))
      end
  end.

Definition filter_batch b (predicates : list VectorizedFilter) : option (ColumnBatch F) :=
  if bool_decide (length predicates = 0%nat) || is_empty b then Some b
  else
    let kept := keep_rows b predicates in
    let! keys := gather (row_keys b) kept in
    project_columns b kept (column_names b) (mkBatch [] ∅ keys).

End Columnar.
End Columnar.

(** ** Properties *)

Module ColumnarProps.
Import Select Columnar.

Section Props.
Context {F : Type} `{!F64 F} `{!F64Fold F} `{!MapOrder string}.
Implicit Types (b : ColumnBatch F) (rows : list (string * gmap string string)).

(** *** Building a batch *)

(** The cell of a row, empty where the row has no such field. *)
Definition cell (c : string) (r : string * gmap string string) : string := default "" (r.2 !! c).

Definition has_column rows (c : string) : Prop := Exists (fun r => is_Some (r.2 !! c)) rows.

#[local] Instance has_column_dec rows c : Decision (has_column rows c).
Proof. unfold has_column. apply _. Defined.

(** The builder after the rows: their transpose. *)
Record transposed rows (bd : ColumnBatchBuilder) : Prop := {
  tr_keys : b_row_keys bd = map fst rows;
  tr_raw : ∀ c, raw bd !! c = if decide (has_column rows c) then Some (map (cell c) rows) else None;
  tr_order : NoDup (column_order bd);
  tr_names : ∀ c, c ∈ column_order bd ↔ has_column rows c;
}.

Lemma push_fields n (l : list (string * string)) st : NoDup l.*1 →
  let st' := foldl (push_field n) st l in
  (∀ c, st'.1 !! c = match (list_to_map l : gmap string string) !! c with
                     | Some v => Some (default (replicate n "") (st.1 !! c) ++ [v])
                     | None => st.1 !! c
                     end) ∧
  (NoDup st.2 → NoDup st'.2) ∧ (∀ c, c ∈ st'.2 ↔ c ∈ st.2 ∨ c ∈ l.*1).
Proof.
  cbv zeta. revert st. induction l as [|[k v] l IH]; intros [m o]; cbn [foldl fmap list_fmap fst snd].
  { intros _. split; [by intros c|]. split; [done|]. intros c. rewrite elem_of_nil. tauto. }
  intros [Hk Hl]%NoDup_cons.
  destruct (IH (push_field n (m, o) (k, v)) Hl) as (Q1 & Q2 & Q3). split; [|split].
  - intros c. rewrite Q1. cbn [list_to_map push_field fst].
    destruct (decide (c = k)) as [->|Hc].
    + rewrite (not_elem_of_list_to_map_1 l k Hk). cbn. by rewrite !lookup_insert_eq.
    + cbn. by rewrite !lookup_insert_ne by done.
  - intros Ho. apply Q2. cbn [push_field snd]. case_bool_decide as Hin; [done|].
    apply NoDup_app. split; [done|]. split; [|by apply NoDup_singleton].
    intros x Hx ->%list_elem_of_singleton. done.
  - intros c. rewrite Q3, elem_of_cons. cbn [push_field snd]. case_bool_decide as Hin.
    + split; [tauto|]. intros [?|[->|?]]; tauto.
    + rewrite elem_of_app, list_elem_of_singleton. tauto.
Qed.

Lemma iter_map_to_map (m : gmap string string) : list_to_map (iter_map m) = m.
Proof.
  rewrite <-(list_to_map_to_list m) at 2. apply list_to_map_proper; [|apply iter_map_perm].
  apply iter_map_NoDup.
Qed.

Lemma has_column_snoc rows r c :
  has_column (rows ++ [r]) c ↔ has_column rows c ∨ is_Some (r.2 !! c).
Proof. unfold has_column. rewrite Exists_app, Exists_cons, Exists_nil. tauto. Qed.

Lemma no_column_cells rows c : ¬ has_column rows c → map (cell c) rows = replicate (length rows) "".
Proof.
  intros Hn. induction rows as [|r rows IH]; [done|]. cbn [map length replicate].
  unfold has_column in Hn. rewrite Exists_cons in Hn. f_equal; [|apply IH; tauto].
  unfold cell. destruct (r.2 !! c) eqn:E; [|done]. exfalso. apply Hn. left. by eexists.
Qed.

Lemma pad_full n vals : length vals = n → pad n vals = vals.
Proof. intros <-. unfold pad. rewrite Nat.sub_diag. apply app_nil_r. Qed.

Lemma push_row_transposed rows bd key fields :
  transposed rows bd → transposed (rows ++ [(key, fields)]) (push_row bd key fields).
Proof.
  intros [Hk Hr Ho Hn]. unfold push_row. set (n := length (b_row_keys bd)).
  assert (Hlen : n = length rows) by (unfold n; rewrite Hk; apply length_map).
  pose proof (push_fields n (iter_map fields) (raw bd, column_order bd) (iter_map_NoDup fields)) as Q.
  cbv zeta in Q. rewrite iter_map_to_map in Q.
  destruct (foldl _ _ _) as [raw' order']. cbn [fst snd] in Q. destruct Q as (Q1 & Q2 & Q3).
  constructor; cbn [b_row_keys raw column_order].
  - by rewrite map_app, Hk.
  - intros c. rewrite lookup_fmap, Q1, Hr, map_app. cbn [map].
    assert (Hc : cell c (key, fields) = default "" (fields !! c)) by done.
    destruct (decide (has_column (rows ++ [(key, fields)]) c)) as [Hh|Hh];
      rewrite has_column_snoc in Hh; cbn [snd] in Hh.
    + destruct (fields !! c) as [v|] eqn:E; cbn [from_option id] in Hc; rewrite Hc; cbn [fmap option_fmap option_map].
      * f_equal. rewrite pad_full.
        -- destruct (decide (has_column rows c)); [done|]. cbn [from_option id].
           by rewrite no_column_cells, Hlen by done.
        -- rewrite length_app. cbn [length]. destruct (decide (has_column rows c)); cbn [from_option id].
           ++ rewrite length_map. lia.
           ++ rewrite length_replicate. lia.
      * destruct Hh as [Hh|[? [=]]]. rewrite decide_True by done. cbn. f_equal.
        unfold pad. rewrite length_map, Hlen. replace (S _ - _)%nat with 1%nat by lia. done.
    + destruct (fields !! c); [exfalso; apply Hh; right; by eexists|].
      rewrite decide_False by tauto. done.
  - by apply Q2.
  - intros c. rewrite Q3, Hn, has_column_snoc. cbn [snd].
    rewrite <-(elem_of_dom fields). apply or_iff_compat_l.
    rewrite list_elem_of_fmap, elem_of_dom. split.
    + intros ([k v] & -> & Hin%elem_of_iter_map). by exists v.
    + intros [v Hv]. exists (c, v). split; [done|]. by apply elem_of_iter_map.
Qed.

Lemma builder_transposed rows :
  transposed rows (foldl (fun bd r => push_row bd r.1 r.2) builder_new rows).
Proof.
  induction rows as [|[k f] rows IH] using rev_ind.
  - constructor; [done| |constructor|].
    + intros c. rewrite decide_False; [done|]. by intros H%Exists_nil.
    + intros c. split; [by intros H%elem_of_nil|by intros H%Exists_nil].
  - rewrite foldl_app. cbn [foldl fst snd]. by apply push_row_transposed.
Qed.

Lemma finish_columns (bd : ColumnBatchBuilder) c :
  (∀ c, c ∈ column_order bd ↔ is_Some (raw bd !! c)) →
  columns (finish (F:=F) bd) !! c = infer_column_type <$> raw bd !! c.
Proof.
  intros Hn. unfold finish. cbn [columns].
  assert (fold : ∀ (names : list string) (m : gmap string (ColumnVector F)),
    (foldl (fun m name => match raw bd !! name with
                          | Some vals => <[name := infer_column_type vals]> m | None => m end) m names) !! c
    = if decide (c ∈ names)
      then match raw bd !! c with Some vals => Some (infer_column_type vals) | None => m !! c end
      else m !! c).
  { induction names as [|x names IHn]; intros m; cbn [foldl].
    { rewrite decide_False; [done|apply not_elem_of_nil]. }
    rewrite IHn. destruct (decide (c = x)) as [->|Hc].
    - rewrite (decide_True _ _ (list_elem_of_here x names)).
      destruct (raw bd !! x) as [vals|] eqn:E; [|by destruct (decide _)].
      rewrite lookup_insert_eq. by destruct (decide _).
    - assert (E : (match raw bd !! x with Some vals => <[x := infer_column_type vals]> m | None => m end)
                  !! c = m !! c) by (destruct (raw bd !! x); [by rewrite lookup_insert_ne|done]).
      rewrite E. destruct (decide (c ∈ names)) as [Hin|Hin].
      + by rewrite decide_True by (by apply list_elem_of_further).
      + rewrite decide_False; [done|]. rewrite elem_of_cons. tauto. }
  rewrite fold, lookup_empty. pose proof (Hn c) as Hc.
  destruct (decide (c ∈ column_order bd)); destruct (raw bd !! c) as [vals|]; try done.
  exfalso. apply n, Hc. by eexists.
Qed.

(** A vectorised scan is the transpose of the first rows: it has their keys in order,
    a column for exactly the fields some row has, and each column holds the typed
    values of that field in row order, with an empty text where a row lacks it. *)
Theorem scan_is_transpose rows limit elapsed :
  let taken := take limit rows in
  let b := (vectorized_scan (F:=F) rows limit elapsed).1 in
  row_keys b = map fst taken ∧ NoDup (column_names b) ∧
  (∀ c, c ∈ column_names b ↔ has_column taken c) ∧
  ∀ c, columns b !! c =
    if decide (has_column taken c) then Some (infer_column_type (map (cell c) taken)) else None.
Proof.
  cbv zeta. unfold vectorized_scan. cbn [fst].
  destruct (builder_transposed (take limit rows)) as [Hk Hr Ho Hn].
  split; [exact Hk|]. split; [exact Ho|]. split; [exact Hn|]. intros c.
  rewrite finish_columns.
  - rewrite Hr. by destruct (decide _).
  - intros d. rewrite Hn, Hr. destruct (decide _) as [?|Q]; [by split; [eexists|]|].
    split; [done|by intros [? [=]]].
Qed.

(** *** Filtering a batch *)

(** Every column is named once and has one value per row. *)
Record batch_ok b : Prop := {
  ok_nodup : NoDup (column_names b);
  ok_names : ∀ c, c ∈ column_names b ↔ is_Some (columns b !! c);
  ok_len : ∀ c col, columns b !! c = Some col → col_len col = row_count b;
}.

Lemma infer_len vals : col_len (infer_column_type (F:=F) vals) = length vals.
Proof.
  unfold infer_column_type.
  repeat (destruct (forallb _ vals); [cbn [col_len]; apply length_map|]). done.
Qed.

Lemma scan_batch_ok rows limit elapsed : batch_ok (vectorized_scan (F:=F) rows limit elapsed).1.
Proof.
  destruct (builder_transposed (take limit rows)) as [Hk Hr Ho Hn].
  assert (Hc : ∀ c, columns (vectorized_scan (F:=F) rows limit elapsed).1 !! c =
                    infer_column_type <$> raw (foldl (fun bd r => push_row bd r.1 r.2) builder_new
                      (take limit rows)) !! c).
  { intros c. apply finish_columns. intros d. rewrite Hn, Hr. destruct (decide _) as [?|Q].
    - by split; [eexists|].
    - split; [done|by intros [? [=]]]. }
  constructor; [exact Ho| |]; intros c.
  - rewrite Hc, Hr. etransitivity; [apply Hn|]. destruct (decide _) as [?|Q]; cbn.
    + by split; [eexists|].
    + split; [done|by intros [? [=]]].
  - intros col. rewrite Hc, Hr. destruct (decide _); [|done]. intros [= <-].
    rewrite infer_len, length_map. unfold row_count, vectorized_scan, finish. cbn [fst row_keys].
    by rewrite Hk, length_map.
Qed.

(** Row [i] passes the predicates on the columns the batch has. *)
Definition row_passes b (preds : list VectorizedFilter) (i : nat) : bool :=
  forallb (fun p => match columns b !! f_column p with
                    | Some col => evaluate_predicate col i (f_op p) (f_value p)
                    | None => true
                    end) preds.

Definition passing b (preds : list VectorizedFilter) : list nat :=
  filter (fun i => row_passes b preds i = true) (seq 0 (row_count b)).

Lemma keep_lookup b preds keep i :
  foldl (keep_step b) keep preds !! i = (fun k => k && row_passes b preds i) <$> keep !! i.
Proof.
  revert keep. induction preds as [|p preds IH]; intros keep; cbn [foldl row_passes forallb].
  { destruct (keep !! i); cbn; [by rewrite andb_true_r|done]. }
  rewrite IH. unfold keep_step. destruct (columns b !! f_column p) as [col|]; [|done].
  rewrite list_lookup_imap. destruct (keep !! i) as [[]|]; cbn; [|done..].
  done.
Qed.

Lemma keep_rows_passing b preds : keep_rows b preds = passing b preds.
Proof.
  unfold keep_rows, passing. apply list_filter_ext_in. intros i [_ Hi]%elem_of_seq.
  rewrite keep_lookup, lookup_replicate_2 by lia. cbn. split; [by intros [= ->]|by intros ->].
Qed.

Lemma gather_total {A} (v : list A) idx : Forall (fun i => (i < length v)%nat) idx →
  ∃ w, gather v idx = Some w ∧ length w = length idx ∧
    ∀ j i, idx !! j = Some i → w !! j = v !! i.
Proof.
  unfold gather. induction 1 as [|i idx Hi _ (w & E & Hl & Hw)]; cbn [mapM].
  { by exists []. }
  destruct (lookup_lt_is_Some_2 _ _ Hi) as [x Hx]. rewrite Hx. cbn. rewrite E. cbn.
  exists (x :: w). split; [done|]. split; [cbn; by rewrite Hl|].
  intros [|j] k Hj; cbn in *; [by simplify_eq|by apply Hw].
Qed.

Lemma project_total (col : ColumnVector F) idx :
  Forall (fun i => (i < col_len col)%nat) idx →
  ∃ col', project_rows col idx = Some col' ∧ col_len col' = length idx ∧
    ∀ j i, idx !! j = Some i → value_as_str col' j = value_as_str col i.
Proof.
  destruct col as [v|v|v|v|n]; cbn [col_len project_rows]; intros Hi;
    try (destruct (gather_total v idx Hi) as (w & -> & Hl & Hw); eexists; split; [reflexivity|];
         split; [exact Hl|]; intros j i Hj; cbn [value_as_str]; by rewrite (Hw j i Hj)).
  eexists. split; [reflexivity|]. by split.
Qed.

(** What filtering does with one column. *)
Definition projected b (kept : list nat) (c : string) : option (ColumnVector F) :=
  match columns b !! c with Some col => project_rows col kept | None => None end.

Lemma project_columns_total b kept names out :
  NoDup names → (∀ c, c ∈ names → is_Some (projected b kept c)) →
  ∃ b', project_columns b kept names out = Some b' ∧
    column_names b' = column_names out ++ names ∧ row_keys b' = row_keys out ∧
    ∀ c, columns b' !! c = if decide (c ∈ names) then projected b kept c else columns out !! c.
Proof.
  revert out. induction names as [|x names IH]; intros out Hnd Hp; cbn [project_columns].
  { exists out. rewrite app_nil_r. split; [done|]. split; [done|]. split; [done|].
    intros c. rewrite decide_False; [done|apply not_elem_of_nil]. }
  apply NoDup_cons in Hnd as [Hx Hnd].
  destruct (Hp x (list_elem_of_here x names)) as [vec Hv]. pose proof Hv as Hv'.
  unfold projected in Hv. destruct (columns b !! x) as [col|]; [|done]. rewrite Hv.
  destruct (IH (mkBatch (column_names out ++ [x]) (<[x := vec]> (columns out)) (row_keys out)) Hnd)
    as (b' & -> & Q1 & Q2 & Q3); [intros c Hc; apply Hp; by apply list_elem_of_further|].
  exists b'. split; [done|]. split; [rewrite Q1; cbn; by rewrite <-app_assoc|]. split; [done|].
  intros c. rewrite Q3. cbn [columns]. destruct (decide (c = x)) as [->|Hc].
  - rewrite decide_False by done. rewrite (decide_True _ _ (list_elem_of_here x names)).
    by rewrite lookup_insert_eq, Hv'.
  - rewrite lookup_insert_ne by done. destruct (decide (c ∈ names)) as [Hin|Hin].
    + by rewrite decide_True by (by apply list_elem_of_further).
    + rewrite decide_False; [done|]. rewrite elem_of_cons. tauto.
Qed.

Lemma passing_bound b preds : Forall (fun i => (i < row_count b)%nat) (passing b preds).
Proof.
  apply Forall_forall. intros i [_ [_ Hi]%elem_of_seq]%list_elem_of_filter. lia.
Qed.

(** What a filtered batch is: the kept rows, in order, with all their cells. *)
Definition holds_rows b (kept : list nat) b' : Prop :=
  batch_ok b' ∧ column_names b' = column_names b ∧ row_count b' = length kept ∧
  ∀ j i, kept !! j = Some i →
    row_keys b' !! j = row_keys b !! i ∧
    ∀ c col, columns b !! c = Some col →
      ∃ col', columns b' !! c = Some col' ∧ value_as_str col' j = value_as_str col i.

Lemma holds_all_rows b kept : batch_ok b → kept = seq 0 (row_count b) → holds_rows b kept b.
Proof.
  intros Hb ->. split; [done|]. split; [done|]. split; [by rewrite length_seq|].
  intros j i [-> _]%lookup_seq. split; [done|]. intros c col Hc. by exists col.
Qed.

(** C34: Filtering a well-formed batch never panics, and the result is a well-formed batch
    with the same columns that holds exactly the rows passing every predicate on a
    column of the batch, in their order and with all their values. *)
Theorem filter_keeps_matching_rows b preds : batch_ok b →
  ∃ b', filter_batch b preds = Some b' ∧ holds_rows b (passing b preds) b'.
Proof.
  intros Hb. unfold filter_batch. destruct (_ || _) eqn:E.
  { exists b. split; [done|]. apply holds_all_rows; [done|].
    apply orb_prop in E as [E|E].
    - apply bool_decide_eq_true in E. destruct preds; [|done]. unfold passing.
      apply list_filter_all. by apply Forall_forall.
    - apply Nat.eqb_eq in E. unfold passing. by rewrite E. }
  rewrite keep_rows_passing. pose proof (passing_bound b preds) as Hlt.
  set (kept := passing b preds) in *.
  destruct (gather_total (row_keys b) kept Hlt) as (keys & -> & Hl & Hkeys).
  assert (Hcol : ∀ c col, columns b !! c = Some col →
    ∃ col', projected b kept c = Some col' ∧ col_len col' = length kept ∧
      ∀ j i, kept !! j = Some i → value_as_str col' j = value_as_str col i).
  { intros c col Hc. unfold projected. rewrite Hc. apply project_total.
    by rewrite (ok_len b Hb c col Hc). }
  destruct (project_columns_total b kept (column_names b) (mkBatch [] ∅ keys) (ok_nodup b Hb))
    as (b' & -> & Q1 & Q2 & Q3).
  { intros c [col Hc]%(ok_names b Hb). destruct (Hcol c col Hc) as (col' & -> & _). by eexists. }
  cbn in Q1, Q2. exists b'. split; [done|].
  assert (Q4 : ∀ c, columns b' !! c = projected b kept c).
  { intros c. rewrite Q3. destruct (decide _) as [|Hn]; [done|]. cbn. rewrite lookup_empty.
    unfold projected. destruct (columns b !! c) eqn:Ec; [|done].
    exfalso. apply Hn, (ok_names b Hb). by eexists. }
  assert (Hrc : row_count b' = length kept) by (unfold row_count; by rewrite Q2).
  split; [constructor|].
  - rewrite Q1. apply Hb.
  - intros c. rewrite Q1, Q4, (ok_names b Hb). unfold projected. split.
    + intros [col Hc]. destruct (Hcol c col Hc) as (col' & E' & _).
      unfold projected in E'. rewrite E'. by eexists.
    + destruct (columns b !! c); [by eexists|by intros [? [=]]].
  - intros c col'. rewrite Q4, Hrc. intros Hc. pose proof Hc as Hc'.
    unfold projected in Hc'. destruct (columns b !! c) as [col|] eqn:Ec; [|done].
    destruct (Hcol c col Ec) as (col2 & E2 & Hl2 & _). congruence.
  - split; [done|]. split; [done|]. intros j i Hj. rewrite Q2. split; [by apply Hkeys|].
    intros c col Hc. destruct (Hcol c col Hc) as (col' & E' & _ & Hv). exists col'.
    split; [by rewrite Q4|by apply Hv].
Qed.
End Props.

(** *** Concrete batches *)

#[local] Instance no_floats : F64 unit := {|
  f64_parse := fun _ => None; f64_cmp := fun _ _ => None; f64_of_i64 := fun _ => ();
  f64_of_u64 := fun _ => (); f64_neg := fun _ => (); f64_add := fun _ _ => ();
  f64_div := fun _ _ => (); f64_zero := (); f64_fract_zero := fun _ => true;
  f64_to_i64 := fun _ => 0%Z; f64_to_string := fun _ => "" |}.
#[local] Existing Instance canonical_order.

Definition two_rows : list (string * gmap string string) :=
  [("r1", {[ "n" := "5"; "s" := "a" ]}); ("r2", {[ "s" := "b" ]})].

Definition two_batch : ColumnBatch unit := (vectorized_scan two_rows 10 0).1.

Lemma filter_keeps_matching_rows_witness :
  ∃ b', filter_batch two_batch [mkFilter "s" FEq "b"] = Some b' ∧
        holds_rows two_batch (passing two_batch [mkFilter "s" FEq "b"]) b'.
Proof.
  apply (filter_keeps_matching_rows two_batch [mkFilter "s" FEq "b"]). apply scan_batch_ok.
Defined.

(** A row without the field counts as one with the number zero and passes [n = 0]; a
    constant that is no number counts as zero, too. *)
Lemma missing_number_is_zero :
  row_keys <$> filter_batch two_batch [mkFilter "n" FEq "0"] = Some ["r2"] ∧
  row_keys <$> filter_batch two_batch [mkFilter "n" FEq "none"] = Some ["r2"].
Proof. split; vm_compute; reflexivity. Qed.

(** The count of a column counts the rows that lack the field, too. *)
Lemma count_counts_missing :
  (fun col => agg_value (aggregate_column (F:=unit)
     (F64Fold0:={| f64_min := fun x _ => x; f64_max := fun x _ => x; f64_infinity := ();
                   f64_neg_infinity := (); f64_sum_start := () |}) col Count))
  <$> columns two_batch !! "n" = Some "2".
Proof. vm_compute. reflexivity. Qed.

End ColumnarProps.
