(* ===== verification/StoredProc.v ===== *)
(** * Stored procedures ([services/voltnuerongridd/src/helpers/stored_proc.rs],
      [handlers/sql.rs])

    The registry of procedures, its DDL, the resolution of CALL and the dispatch of
    the statement handler in front of the normal execution.  Text is the byte string
    of the source; a panic of a slice is [None]. *)

From S2P Require Import Prelude Str Decimal SqlKind Tokenizer Utf8 Ast AstFlags Planner Router.
From Stdlib Require Import Ascii Wf_nat.
Local Open Scope string_scope.
Local Open Scope list_scope.
Local Open Scope vng_scope.

Module StoredProc.

(** [s.replace(p, r)] for a non-empty [p]: every round drops a byte at least. *)
Fixpoint replace_fuel (fuel : nat) (p r s : string) : string :=
  match fuel, s with
  | S fuel', String c s' =>
      match Str.strip_prefix p s with
      | Some rest => r +:+ replace_fuel fuel' p r rest
      | None => String c (replace_fuel fuel' p r s')
      end
  | _, _ => s
  end.

Definition replace (p r s : string) : string := replace_fuel (String.length s) p r s.

Record StoredProcedure := mkProc {
  name : string;
  params : list string;
  body : string;
  builtin : bool;
}.

(** The rounds of [expand] from argument [i] on *)
Fixpoint expand_from (i : N) (args : list string) (out : string) : string :=
  match args with
  | [] => out
  | arg :: args' =>
      expand_from (i + 1) args' (replace ("$" +:+ Dec.to_string (i + 1)) arg out)
  end.

Definition expand (p : StoredProcedure) (args : list string) : string :=
  expand_from 0 args (body p).

Abbreviation ProcedureRegistry := (gmap string StoredProcedure).

Definition registry_new : ProcedureRegistry := ∅.

Definition insert_rows_proc : StoredProcedure :=
  mkProc "insert_rows" ["table_name"; "num_records"]
    "-- built-in: handled by insert_rows shim" true.

Definition register_builtins (r : ProcedureRegistry) : ProcedureRegistry :=
  <["insert_rows" := insert_rows_proc]> r.

Definition register (r : ProcedureRegistry) (p : StoredProcedure)
    : result unit string * ProcedureRegistry :=
  match r !! name p with
  | Some existing =>
      if builtin existing
      then (Err ("cannot redefine built-in procedure '" +:+ name p +:+ "'"), r)
      else (Ok tt, <[name p := p]> r)
  | None => (Ok tt, <[name p := p]> r)
  end.

Definition drop_procedure (r : ProcedureRegistry) (n : string)
    : result unit string * ProcedureRegistry :=
  let key := SqlKind.to_ascii_lowercase n in
  match r !! key with
  | None => (Err ("procedure '" +:+ n +:+ "' does not exist"), r)
  | Some p =>
      if builtin p then (Err ("cannot drop built-in procedure '" +:+ n +:+ "'"), r)
      else (Ok tt, delete key r)
  end.

(** ** CALL *)

(** The loop of [split_args]; [buf] is the argument so far. *)
Fixpoint split_loop (in_single in_double : bool) (buf s : string) : list string :=
  match s with
  | EmptyString => if String.eqb (Str.trim buf) "" then [] else [Str.trim buf]
  | String c s' =>
      let more := buf +:+ String c "" in
      if Ascii.eqb c "'" && negb in_double then split_loop (negb in_single) in_double more s'
      else if Ascii.eqb c "034" && negb in_single then split_loop in_single (negb in_double) more s'
      else if Ascii.eqb c "," && negb in_single && negb in_double
      then Str.trim buf :: split_loop in_single in_double "" s'
      else split_loop in_single in_double more s'
  end.

Definition split_args (s : string) : list string := split_loop false false "" s.

Definition parse_call_args (s : string) : option (string * list string) :=
  match Str.find_str "(" s, Str.rfind_char ")" s with
  | Some open, Some close =>
      if Nat.leb close open then None
      else
        let args_str := Str.trim (Str.sub (open + 1) close s) in
        Some (Str.trim (Str.sub 0 open s),
              if String.eqb args_str "" then [] else split_args args_str)
  | _, _ => None
  end.

Definition is_call (sql : string) : bool :=
  Str.starts_with "CALL " (Str.to_ascii_uppercase (Str.trim sql)).

Definition resolve_call (r : ProcedureRegistry) (sql : string)
    : result (option string) string :=
  let trimmed := Str.trim sql in
  if negb (Str.starts_with "CALL " (Str.to_ascii_uppercase trimmed)) then Ok None
  else
    let after_call := Str.trim (Str.sub 5 (String.length trimmed) trimmed) in
    match parse_call_args after_call with
    | None => Err ("malformed CALL statement: '" +:+ sql +:+ "'")
    | Some (n, args) =>
        match r !! SqlKind.to_ascii_lowercase n with
        | None => Err ("unknown procedure '" +:+ n +:+ "'")
        | Some p =>
            if builtin p then Ok None
            else if negb (Nat.eqb (length args) (length (params p))) then
              Err ("procedure '" +:+ name p +:+ "' expects " +:+
                   Dec.to_string (N.of_nat (length (params p))) +:+ " argument(s), got " +:+
                   Dec.to_string (N.of_nat (length args)))
            else Ok (Some (expand p args))
        end
    end.

(** ** CREATE PROCEDURE and DROP PROCEDURE *)

Definition extract_dollar_quoted_body (s : string) : option string :=
  match Str.strip_prefix "$$" (Str.trim s) with
  | Some inner =>
      match Str.split_once "$$" inner with
      | Some (a, _) => Some (Str.trim a)
      | None => None
      end
  | None => None
  end.

Definition is_create_procedure (sql : string) : bool :=
  let u := Str.to_ascii_uppercase (Str.trim sql) in
  Str.starts_with "CREATE OR REPLACE PROCEDURE " u || Str.starts_with "CREATE PROCEDURE " u.

Definition is_drop_procedure (sql : string) : bool :=
  Str.starts_with "DROP PROCEDURE " (Str.to_ascii_uppercase (Str.trim sql)).

(** What follows the CREATE keywords *)
Definition after_create (sql : string) : option string :=
  let trimmed := Str.trim sql in
  let upper := Str.to_ascii_uppercase trimmed in
  if Str.starts_with "CREATE OR REPLACE PROCEDURE " upper
  then Some (Str.sub 28 (String.length trimmed) trimmed)
  else if Str.starts_with "CREATE PROCEDURE " upper
  then Some (Str.sub 17 (String.length trimmed) trimmed)
  else None.

Definition param_list (params_str : string) : list string :=
  if String.eqb params_str "" then []
  else filter (fun p => p ≠ "")
         (map (fun p => SqlKind.to_ascii_lowercase (Str.trim p)) (Str.split "," params_str)).

(** The procedure of a DDL text; the outer [None] is the panic of the slice between
    the parentheses. *)
Definition parse_ddl (sql : string) : option (result StoredProcedure string) :=
  match after_create sql with
  | None => Some (Err "not a CREATE PROCEDURE statement")
  | Some ac =>
      match Str.find_str "(" ac with
      | None => Some (Err "missing '(' in procedure signature")
      | Some open_paren =>
          let n := SqlKind.to_ascii_lowercase (Str.trim (Str.sub 0 open_paren ac)) in
          if String.eqb n "" then Some (Err "procedure name must not be empty")
          else
            match Str.find_str ")" ac with
            | None => Some (Err "missing ')' in procedure signature")
            | Some close_paren =>
                if Nat.ltb close_paren (open_paren + 1) then None
                else
                  let ps := param_list (Str.trim (Str.sub (open_paren + 1) close_paren ac)) in
                  let rest := Str.trim (Str.sub (close_paren + 1) (String.length ac) ac) in
                  if Str.starts_with "AS" (Str.to_ascii_uppercase rest) then
                    match extract_dollar_quoted_body
                            (Str.trim (Str.sub 2 (String.length rest) rest)) with
                    | Some bd => Some (Ok (mkProc n ps bd false))
                    | None => Some (Err "expected dollar-quoted body $$ … $$ after AS")
                    end
                  else Some (Err "expected 'AS' after procedure signature")
            end
      end
  end.

Definition register_from_ddl (r : ProcedureRegistry) (sql : string)
    : option (result string string * ProcedureRegistry) :=
  let! parsed := parse_ddl sql in
  match parsed with
  | Err e => Some (Err e, r)
  | Ok p =>
      match register r p with
      | (Ok _, r') => Some (Ok (name p), r')
      | (Err e, r') => Some (Err e, r')
      end
  end.

(** ** The statement handler's dispatch *)

(** The handler answers, or continues with this batch. *)
Inductive Dispatch :=
| Answer (ok : bool) (reason : string)
| Continue (sql_batch : string).

Definition procedure_dispatch (r : ProcedureRegistry) (sql_batch : string)
    : option (Dispatch * ProcedureRegistry) :=
  let sql_trim := Str.trim sql_batch in
  if is_create_procedure sql_trim then
    let! out := register_from_ddl r sql_trim in
    Some (match out with
          | (Ok n, r') => (Answer true ("procedure '" +:+ n +:+ "' registered"), r')
          | (Err msg, r') => (Answer false msg, r')
          end)
  else if is_drop_procedure sql_trim then
    let n := SqlKind.to_ascii_lowercase
               (Str.trim (Str.trim_end_matches [";"]
                  (Str.trim (Str.sub 15 (String.length sql_trim) sql_trim)))) in
    Some (match drop_procedure r n with
          | (Ok _, r') => (Answer true ("procedure '" +:+ n +:+ "' dropped"), r')
          | (Err msg, r') => (Answer false msg, r')
          end)
  else if is_call sql_trim then
    Some (match resolve_call r sql_trim with
          | Err msg => Answer false msg
          | Ok (Some expanded_sql) => Continue expanded_sql
          | Ok None => Continue sql_batch
          end, r)
  else Some (Continue sql_batch, r).

End StoredProc.

(** ** Properties *)

Module StoredProcProps.
Import StoredProc.

(** *** Simultaneous substitution *)

Definition DOLLAR : ascii := "$"%char.

(** The argument that [$d] stands for, for a digit [d] *)
Definition arg_of (args : list string) (d : ascii) : option string :=
  let n := N_of_ascii d in
  if (49 <=? n)%N && (n <=? 57)%N then args !! N.to_nat (n - 49) else None.

(** Every placeholder of the body replaced in one pass *)
Fixpoint subst (args : list string) (s : string) : string :=
  match s with
  | EmptyString => EmptyString
  | String c s' =>
      if Ascii.eqb c DOLLAR then
        match s' with
        | String d rest =>
            match arg_of args d with
            | Some a => a +:+ subst args rest
            | None => String c (subst args s')
            end
        | EmptyString => String c EmptyString
        end
      else String c (subst args s')
  end.

Fixpoint no_dollar (s : string) : bool :=
  match s with
  | EmptyString => true
  | String c s' => negb (Ascii.eqb c DOLLAR) && no_dollar s'
  end.

(** The placeholder of argument [k + 1] *)
Definition digit (k : nat) : ascii := ascii_of_N (49 + N.of_nat k).

Lemma placeholder k : (k < 9)%nat → "$" +:+ Dec.to_string (N.of_nat k + 1) = String DOLLAR (String (digit k) "").
Proof. intros Hk. do 9 (destruct k as [|k]; [reflexivity|]). lia. Qed.

Lemma replace_fuel_enough p r s n m : p ≠ "" →
  (String.length s <= n)%nat → (String.length s <= m)%nat →
  replace_fuel n p r s = replace_fuel m p r s.
Proof.
  intros Hp. revert n m. induction s as [s IH] using (induction_ltof1 _ String.length). unfold ltof in IH.
  intros n m Hn Hm. destruct s as [|c s]; [by destruct n, m|].
  destruct n as [|n]; [cbn in Hn; lia|]. destruct m as [|m]; [cbn in Hm; lia|].
  cbn [replace_fuel]. cbn [String.length] in *.
  destruct (Str.strip_prefix p (String c s)) as [rest|] eqn:E.
  - apply Str.strip_prefix_Some in E.
    assert (Hl : (String.length rest < S (String.length s))%nat).
    { change (S (String.length s)) with (String.length (String c s)). rewrite E, Str.length_app_str.
      destruct p; [done|]. cbn. lia. }
    f_equal. apply IH; cbn; lia.
  - f_equal. apply IH; cbn; lia.
Qed.

Section Replace.
Variables (d : ascii) (r : string).
Abbreviation p := (String DOLLAR (String d "")).

Lemma replace_fuel_S n c s :
  replace_fuel (S n) p r (String c s) =
  match Str.strip_prefix p (String c s) with
  | Some rest => r +:+ replace_fuel n p r rest
  | None => String c (replace_fuel n p r s)
  end.
Proof. reflexivity. Qed.

Lemma replace_hit s : replace p r (String DOLLAR (String d s)) = r +:+ replace p r s.
Proof.
  unfold replace. cbn [String.length]. rewrite replace_fuel_S. cbn [Str.strip_prefix].
  rewrite !Ascii.eqb_refl. f_equal. apply replace_fuel_enough; [done|lia|lia].
Qed.

Lemma replace_other c s : Ascii.eqb c DOLLAR = false →
  replace p r (String c s) = String c (replace p r s).
Proof.
  intros Hc. unfold replace. cbn [String.length]. rewrite replace_fuel_S. cbn [Str.strip_prefix].
  by rewrite Ascii.eqb_sym, Hc.
Qed.

Lemma replace_miss c s : Ascii.eqb c d = false →
  replace p r (String DOLLAR (String c s)) = String DOLLAR (replace p r (String c s)).
Proof.
  intros Hc. unfold replace. cbn [String.length]. rewrite replace_fuel_S. cbn [Str.strip_prefix].
  by rewrite Ascii.eqb_refl, Ascii.eqb_sym, Hc.
Qed.

Lemma replace_end : replace p r (String DOLLAR "") = String DOLLAR "".
Proof. unfold replace. cbn. done. Qed.

Lemma replace_plain a s : no_dollar a = true → replace p r (a +:+ s) = a +:+ replace p r s.
Proof.
  induction a as [|c a IH]; [done|]. cbn [no_dollar]. intros [Hc Ha]%andb_prop.
  change (String c a +:+ s) with (String c (a +:+ s)).
  rewrite replace_other by (by apply negb_true_iff). by rewrite IH.
Qed.
End Replace.

Lemma digit_N k : (k < 9)%nat → N_of_ascii (digit k) = (49 + N.of_nat k)%N.
Proof. intros Hk. unfold digit. apply N_ascii_embedding. lia. Qed.

Lemma digit_not_dollar k : (k < 9)%nat → Ascii.eqb (digit k) DOLLAR = false.
Proof. intros Hk. do 9 (destruct k as [|k]; [reflexivity|]). lia. Qed.

Lemma arg_of_dollar args : arg_of args DOLLAR = None.
Proof. reflexivity. Qed.

Lemma arg_of_snoc args a d : (length args < 9)%nat →
  arg_of (args ++ [a]) d =
  if Ascii.eqb d (digit (length args)) then Some a else arg_of args d.
Proof.
  intros Hl. destruct (Ascii.eqb_spec d (digit (length args))) as [->|Hd].
  - unfold arg_of. rewrite digit_N by done.
    assert (E : ((49 <=? 49 + N.of_nat (length args)) && (49 + N.of_nat (length args) <=? 57))%N = true)
      by (apply andb_true_iff; rewrite !N.leb_le; lia).
    rewrite E. replace (N.to_nat _) with (length args) by lia.
    by rewrite lookup_app_r, Nat.sub_diag by lia.
  - unfold arg_of. destruct ((49 <=? N_of_ascii d)%N && (N_of_ascii d <=? 57)%N) eqn:E; [|done].
    apply andb_true_iff in E. rewrite !N.leb_le in E.
    assert (Hn : N.to_nat (N_of_ascii d - 49) ≠ length args).
    { intros Heq. apply Hd. unfold digit. rewrite <-Heq, <-(ascii_N_embedding d).
      f_equal. rewrite ascii_N_embedding. lia. }
    destruct (lt_eq_lt_dec (N.to_nat (N_of_ascii d - 49)) (length args)) as [[?|?]|?]; [|done|].
    + by rewrite lookup_app_l by lia.
    + rewrite !lookup_ge_None_2; [done|lia|]. rewrite length_app. cbn. lia.
Qed.

Lemma no_double_tail c s : Str.contains "$$" (String c s) = false → Str.contains "$$" s = false.
Proof.
  unfold Str.contains. cbn [Str.split_once]. destruct (Str.strip_prefix _ _); [done|].
  by destruct (Str.split_once "$$" s) as [[]|].
Qed.

Lemma no_double_head s : Str.contains "$$" (String DOLLAR (String DOLLAR s)) = true.
Proof. reflexivity. Qed.

(** One more argument: the next round of [expand] on the text of the rounds before. *)
Lemma subst_step args a s : (length args < 9)%nat →
  Forall (fun x => no_dollar x = true) args → Str.contains "$$" s = false →
  replace (String DOLLAR (String (digit (length args)) "")) a (subst args s) = subst (args ++ [a]) s.
Proof.
  intros Hl Hd. induction s as [s IH] using (induction_ltof1 _ String.length). unfold ltof in IH.
  intros Hs. destruct s as [|c s]; [done|]. pose proof (no_double_tail _ _ Hs) as Hs1.
  cbn [subst]. destruct (Ascii.eqb_spec c DOLLAR) as [->|Hc].
  2:{ rewrite replace_other by (by apply Ascii.eqb_neq). f_equal. apply IH; [cbn; lia|done]. }
  destruct s as [|d s]; [apply replace_end|].
  destruct (Ascii.eqb_spec d DOLLAR) as [->|Hnd]; [by rewrite no_double_head in Hs|].
  rewrite arg_of_snoc by done.
  assert (Hdrop : subst args (String d s) = String d (subst args s)).
  { cbn [subst]. by rewrite (proj2 (Ascii.eqb_neq d DOLLAR) Hnd). }
  assert (Hdrop' : subst (args ++ [a]) (String d s) = String d (subst (args ++ [a]) s)).
  { cbn [subst]. by rewrite (proj2 (Ascii.eqb_neq d DOLLAR) Hnd). }
  assert (Hs2 : Str.contains "$$" s = false) by (by apply (no_double_tail d)).
  destruct (Ascii.eqb_spec d (digit (length args))) as [->|Hdig].
  - assert (E : arg_of args (digit (length args)) = None).
    { unfold arg_of. rewrite digit_N by done. destruct (_ && _); [|done].
      apply lookup_ge_None_2. lia. }
    rewrite E, Hdrop, replace_hit. f_equal. apply IH; [cbn; lia|done].
  - destruct (arg_of args d) as [x|] eqn:E.
    + rewrite replace_plain.
      * f_equal. apply IH; [cbn; lia|done].
      * unfold arg_of in E. destruct (_ && _); [|done].
        rewrite Forall_forall in Hd. apply Hd. by eapply list_elem_of_lookup_2.
    + rewrite Hdrop, Hdrop', replace_miss by (by apply Ascii.eqb_neq). f_equal.
      rewrite <-Hdrop, <-Hdrop'. apply IH; [cbn; lia|done].
Qed.

Lemma subst_none s : subst [] s = s.
Proof.
  induction s as [|c s IH]; [done|]. cbn [subst]. destruct (Ascii.eqb_spec c DOLLAR) as [->|].
  - destruct s as [|d s]; [done|]. unfold arg_of. rewrite lookup_nil.
    destruct (_ && _); by rewrite IH.
  - by rewrite IH.
Qed.

Lemma expand_from_snoc args a i out :
  expand_from i (args ++ [a]) out =
  replace ("$" +:+ Dec.to_string (i + N.of_nat (length args) + 1)) a (expand_from i args out).
Proof.
  revert i out. induction args as [|x args IH]; intros i out; cbn [app expand_from length].
  - by rewrite N.add_0_r.
  - rewrite IH. do 2 f_equal. f_equal. lia.
Qed.

Lemma expand_is_subst p args : (length args <= 9)%nat →
  Forall (fun x => no_dollar x = true) args → Str.contains "$$" (body p) = false →
  expand p args = subst args (body p).
Proof.
  intros Hl Hd Hb. unfold expand. induction args as [|a args IH] using rev_ind.
  { cbn. by rewrite subst_none. }
  rewrite length_app in Hl. cbn in Hl. apply Forall_app in Hd as [Hd _].
  rewrite expand_from_snoc, IH, N.add_0_l, placeholder by (done || lia).
  apply subst_step; [lia|done|done].
Qed.

(** *** The registry *)

Lemma split_once_prefix_None pat s a b :
  pat ≠ "" → Str.split_once pat s = Some (a, b) → Str.split_once pat a = None.
Proof.
  intros Hp. revert a. induction s as [|c s IH]; intros a; cbn [Str.split_once].
  { destruct (Str.strip_prefix pat "") eqn:E; [|done]. apply Str.strip_prefix_Some in E.
    by destruct pat. }
  destruct (Str.strip_prefix pat (String c s)) eqn:E.
  { intros [= <- _]. destruct pat; [done|reflexivity]. }
  destruct (Str.split_once pat s) as [[a' b']|] eqn:Es; [|done]. intros [= <- <-].
  cbn [Str.split_once]. rewrite (IH a' eq_refl).
  destruct (Str.strip_prefix pat (String c a')) as [q|] eqn:Eq; [|done]. exfalso.
  apply Str.strip_prefix_Some in Eq. apply Str.split_once_Some in Es.
  assert (Hs : Str.strip_prefix pat (String c s) = Some (q +:+ pat +:+ b')); [|congruence].
  apply Str.strip_prefix_Some. rewrite Es. change (String c (a' +:+ ?z)) with (String c a' +:+ z).
  by rewrite Eq, Str.app_assoc_str.
Qed.

Lemma contains_prefix pat x y : Str.contains pat (x +:+ y) = false → Str.contains pat x = false.
Proof.
  unfold Str.contains. destruct (Str.split_once pat (x +:+ y)) eqn:E; [done|]. intros _.
  by rewrite (Str.split_once_app_None _ _ _ E).
Qed.

Lemma contains_suffix pat x y : Str.contains pat (x +:+ y) = false → Str.contains pat y = false.
Proof.
  induction x as [|c x IH]; [done|]. intros H. apply IH. revert H. unfold Str.contains.
  change (String c x +:+ y) with (String c (x +:+ y)). cbn [Str.split_once].
  destruct (Str.strip_prefix _ _); [done|]. by destruct (Str.split_once pat (x +:+ y)) as [[]|].
Qed.

Lemma contains_trim pat s : Str.contains pat s = false → Str.contains pat (Str.trim s) = false.
Proof.
  unfold Str.trim, Str.trim_start, Str.trim_end. intros H.
  destruct (Str.strip_all_suffix (String.length s) Str.whitespace s) as [w Hw].
  set (t := Str.strip_all _ _ s) in *. rewrite Hw in H. apply contains_suffix in H.
  destruct (Str.strip_all_suffix (String.length t) (map Str.reverse_str Str.whitespace)
              (Str.reverse_str t)) as [v Hv].
  set (u := Str.strip_all _ _ _) in *.
  apply (contains_prefix pat _ (Str.reverse_str v)).
  rewrite <-Str.reverse_str_app, <-Hv. by rewrite Str.reverse_str_involutive.
Qed.

Lemma extracted_body s bd :
  extract_dollar_quoted_body s = Some bd → Str.contains "$$" bd = false.
Proof.
  unfold extract_dollar_quoted_body. destruct (Str.strip_prefix _ _) as [inner|]; [|done].
  destruct (Str.split_once "$$" inner) as [[a b]|] eqn:E; [|done]. intros [= <-].
  apply contains_trim. unfold Str.contains.
  rewrite (split_once_prefix_None "$$" inner a b); [done| |exact E]. discriminate.
Qed.

(** A procedure from DDL: its body has no placeholder next to a dollar sign. *)
Definition user_proc (p : StoredProcedure) : Prop :=
  builtin p = false ∧ Str.contains "$$" (body p) = false.

Lemma parse_ddl_user sql p : parse_ddl sql = Some (Ok p) → user_proc p.
Proof.
  unfold parse_ddl. intros H. repeat case_match; try done. simplify_eq.
  split; [done|]. cbn [body]. by eapply extracted_body.
Qed.

(** The registries the statement handler can reach from boot. *)
Inductive reachable : ProcedureRegistry → Prop :=
| boot : reachable (register_builtins registry_new)
| dispatched r r' sql d : reachable r → procedure_dispatch r sql = Some (d, r') → reachable r'.

(** The built-in is as registered at boot, every other procedure comes from DDL and is
    found under its own name. *)
Record registry_ok (r : ProcedureRegistry) : Prop := {
  ok_builtin : r !! "insert_rows" = Some insert_rows_proc;
  ok_user : ∀ n p, r !! n = Some p → n ≠ "insert_rows" → user_proc p ∧ name p = n;
}.

Lemma register_ok r p : registry_ok r → user_proc p → registry_ok (register r p).2.
Proof.
  intros Hr Hp. pose proof Hr as [Hb Hu]. unfold register.
  assert (Hins : name p ≠ "insert_rows" → registry_ok (<[name p := p]> r)).
  { intros Hn. constructor; [by rewrite lookup_insert_ne|].
    intros n q Hq Hne. destruct (decide (n = name p)) as [->|Hd].
    - rewrite lookup_insert_eq in Hq. by simplify_eq.
    - rewrite lookup_insert_ne in Hq by done. by apply Hu. }
  destruct (decide (name p = "insert_rows")) as [->|Hn].
  - by rewrite Hb.
  - destruct (r !! name p) as [q|]; [|by apply Hins]. destruct (builtin q); [exact Hr|by apply Hins].
Qed.

Lemma drop_ok r n : registry_ok r → registry_ok (drop_procedure r n).2.
Proof.
  intros Hr. pose proof Hr as [Hb Hu]. unfold drop_procedure.
  destruct (r !! SqlKind.to_ascii_lowercase n) as [p|] eqn:E; [|done].
  destruct (builtin p) eqn:Ep; [done|]. cbn [snd].
  assert (Hk : SqlKind.to_ascii_lowercase n ≠ "insert_rows").
  { intros Heq. rewrite Heq, Hb in E. by simplify_eq. }
  constructor; [by rewrite lookup_delete_ne|].
  intros k q [_ Hq]%lookup_delete_Some. by apply Hu.
Qed.

Lemma dispatch_ok r sql d r' :
  registry_ok r → procedure_dispatch r sql = Some (d, r') → registry_ok r'.
Proof.
  intros Hr. unfold procedure_dispatch. destruct (is_create_procedure _).
  { unfold register_from_ddl. destruct (parse_ddl _) as [[p|e]|] eqn:Ep; [| |done].
    - pose proof (register_ok r p Hr (parse_ddl_user _ _ Ep)) as Q.
      destruct (register r p) as [[] r2]; intros [= <- <-]; exact Q.
    - by intros [= <- <-]. }
  destruct (is_drop_procedure _).
  { set (n := SqlKind.to_ascii_lowercase _). pose proof (drop_ok r n Hr) as Q.
    destruct (drop_procedure r n) as [[] r2]; intros [= <- <-]; exact Q. }
  destruct (is_call _); by intros [= <- <-].
Qed.

Lemma reachable_ok r : reachable r → registry_ok r.
Proof.
  induction 1 as [|r r' sql d _ IH Hd]; [|by apply (dispatch_ok r sql d)].
  constructor; [reflexivity|]. intros n p Hp Hn. unfold register_builtins in Hp.
  rewrite lookup_insert_ne in Hp by done. done.
Qed.

(** The name and the arguments of a CALL *)
Definition call_parts (sql : string) : option (string * list string) :=
  let trimmed := Str.trim sql in
  parse_call_args (Str.trim (Str.sub 5 (String.length trimmed) trimmed)).

(** C21: In every registry the handler can reach, a CALL of a user procedure with its
    number of arguments, at most nine, none of which holds a dollar sign, expands to
    the body with every placeholder replaced at once by its argument. *)
Theorem call_substitutes_arguments r sql n args p :
  reachable r → is_call sql = true → call_parts sql = Some (n, args) →
  r !! SqlKind.to_ascii_lowercase n = Some p → builtin p = false →
  length args = length (params p) → (length args <= 9)%nat →
  Forall (fun a => no_dollar a = true) args →
  resolve_call r sql = Ok (Some (subst args (body p))).
Proof.
  intros Hr Hc Hparts Hp Hb Hl H9 Hd. unfold resolve_call. unfold is_call in Hc. rewrite Hc.
  cbn [negb]. unfold call_parts in Hparts. rewrite Hparts, Hp, Hb, (proj2 (Nat.eqb_eq _ _) Hl).
  cbn [negb]. rewrite expand_is_subst; [done|done|done|].
  destruct (reachable_ok r Hr) as [Hbi Hu].
  apply (Hu (SqlKind.to_ascii_lowercase n) p Hp). intros Heq. rewrite Heq, Hbi in Hp. by simplify_eq.
Qed.

Definition demo_ddl : string :=
  "CREATE PROCEDURE put(id, v) AS $$ INSERT INTO t VALUES ($1, $2) $$".

Definition demo_registry : ProcedureRegistry :=
  default ∅ (snd <$> procedure_dispatch (register_builtins registry_new) demo_ddl).

Definition demo_proc : StoredProcedure :=
  mkProc "put" ["id"; "v"] "INSERT INTO t VALUES ($1, $2)" false.

Lemma demo_reachable : reachable demo_registry.
Proof.
  apply (dispatched (register_builtins registry_new) _ demo_ddl (Answer true "procedure 'put' registered"));
    [constructor|]. vm_compute. reflexivity.
Qed.

Lemma call_substitutes_arguments_witness :
  resolve_call demo_registry "CALL put(7, 'a,b')" =
  Ok (Some (subst ["7"; "'a,b'"] (body demo_proc))).
Proof.
  apply (call_substitutes_arguments demo_registry "CALL put(7, 'a,b')" "put" ["7"; "'a,b'"] demo_proc).
  - exact demo_reachable.
  - reflexivity.
  - vm_compute. reflexivity.
  - vm_compute. reflexivity.
  - reflexivity.
  - reflexivity.
  - cbn. lia.
  - repeat constructor.
Defined.

Example demo_call :
  resolve_call demo_registry "CALL put(7, 'a,b')" = Ok (Some "INSERT INTO t VALUES (7, 'a,b')").
Proof. vm_compute. reflexivity. Qed.

(** With ten parameters the first argument is written into the tenth placeholder. *)
Lemma tenth_placeholder_broken :
  expand (mkProc "f" [] "$10" false) ["a"; "b"; "c"; "d"; "e"; "f"; "g"; "h"; "i"; "j"] = "a0".
Proof. vm_compute. reflexivity. Qed.

(** An argument that looks like a placeholder is replaced again. *)
Lemma argument_substituted_again :
  expand (mkProc "f" ["x"; "y"] "INSERT INTO t VALUES ($1, $2)" false) ["'cost $2'"; "5"]
  = "INSERT INTO t VALUES ('cost 5', 5)".
Proof. vm_compute. reflexivity. Qed.

(** A closing parenthesis in front of the opening one panics in the slice. *)
Lemma reversed_parentheses_panic : parse_ddl "CREATE PROCEDURE f)(x" = None.
Proof. vm_compute. reflexivity. Qed.

(** The route is chosen from the CALL text, which no route covers, so an expanded
    procedure is answered as an unclassified statement. *)
Lemma expanded_call_unrouted :
  procedure_dispatch demo_registry "CALL put(7, 8)" =
    Some (Continue "INSERT INTO t VALUES (7, 8)", demo_registry) ∧
  Router.batch_path (Router.route_batch "CALL put(7, 8)") = Planner.UnknownPath.
Proof. split; vm_compute; reflexivity. Qed.

End StoredProcProps.
