(* ===== verification/HtapTuning.v ===== *)
(** * Projection cache, partition placement and freshness
      ([crates/voltnuerongrid-store/src/projection_cache.rs],
       [partition_placement.rs], [freshness_sla.rs])

    Three registries beside the hybrid store: cached row projections of a segment,
    the nodes that own a partition with the routing of queries to them, and the
    freshness of segments against their service level.  The clock is an argument;
    ratios are binary64 numbers, as in the query planner. *)

From S2P Require Import Prelude Str Decimal Select SqlKind Tokenizer Utf8 Ast AstFlags Planner.
From Stdlib Require Import SpecFloat.
Local Open Scope string_scope.
Local Open Scope list_scope.
Local Open Scope N_scope.

(** ** Row projections of a hot segment *)

Module ProjectionCache.
Import Planner.

Record ProjectionCacheMetrics := mkMetrics {
  cache_hits : N;
  cache_misses : N;
  cache_rebuilds : N;
  cache_invalidations : N;
  memory_footprint_bytes : N;
}.

Definition metrics_new : ProjectionCacheMetrics := mkMetrics 0 0 0 0 0.

Definition hit_ratio (m : ProjectionCacheMetrics) : f64 :=
  let total := u64_add (cache_hits m) (cache_misses m) in
  if total =? 0 then lit 0 1
  else f64_mul (SFdiv 53 1024 (f64_of_u64 (cache_hits m)) (f64_of_u64 total)) (lit 100 1).

(** [cache]: the projection of a row, [None] for a deleted row *)
Record RowProjectionCache := mkCache {
  segment_id : N;
  cache : gmap N (option string);
  hot_access_count : N;
  built_at_ts : N;
  metrics : ProjectionCacheMetrics;
  rebuild_threshold : N;
}.

Definition cache_new (segment now : N) : RowProjectionCache := mkCache segment ∅ 0 now metrics_new 100.

Definition with_threshold (segment threshold now : N) : RowProjectionCache :=
  mkCache segment ∅ 0 now metrics_new threshold.

Definition get (c : RowProjectionCache) (row : N) : option string * RowProjectionCache :=
  let m := metrics c in
  let hit := mkMetrics (u64_add (cache_hits m) 1) (cache_misses m) (cache_rebuilds m)
               (cache_invalidations m) (memory_footprint_bytes m) in
  let miss := mkMetrics (cache_hits m) (u64_add (cache_misses m) 1) (cache_rebuilds m)
                (cache_invalidations m) (memory_footprint_bytes m) in
  let with_metrics m' := mkCache (segment_id c) (cache c) (u64_add (hot_access_count c) 1)
                           (built_at_ts c) m' (rebuild_threshold c) in
  match cache c !! row with
  | Some projection => (projection, with_metrics hit)
  | None => (None, with_metrics miss)
  end.

Definition size (projection : option string) : N :=
  match projection with Some p => N.of_nat (String.length p) | None => 0 end.

Definition put (c : RowProjectionCache) (row : N) (projection : option string)
    : RowProjectionCache :=
  let m := metrics c in
  mkCache (segment_id c) (<[row := projection]> (cache c)) (hot_access_count c) (built_at_ts c)
    (mkMetrics (cache_hits m) (cache_misses m) (cache_rebuilds m) (cache_invalidations m)
       (N.min u64_max (memory_footprint_bytes m + size projection)))
    (rebuild_threshold c).

Definition invalidate (c : RowProjectionCache) : RowProjectionCache :=
  let m := metrics c in
  mkCache (segment_id c) ∅ (hot_access_count c) (built_at_ts c)
    (mkMetrics (cache_hits m) (cache_misses m) (cache_rebuilds m)
       (u64_add (cache_invalidations m) 1) 0)
    (rebuild_threshold c).

Definition invalidate_row (c : RowProjectionCache) (row : N) : RowProjectionCache :=
  match cache c !! row with
  | Some _ =>
      let m := metrics c in
      mkCache (segment_id c) (delete row (cache c)) (hot_access_count c) (built_at_ts c)
        (mkMetrics (cache_hits m) (cache_misses m) (cache_rebuilds m)
           (u64_add (cache_invalidations m) 1) (memory_footprint_bytes m))
        (rebuild_threshold c)
  | None => c
  end.

Definition should_rebuild (c : RowProjectionCache) : bool * RowProjectionCache :=
  if rebuild_threshold c <=? hot_access_count c then
    let m := metrics c in
    (true, mkCache (segment_id c) (cache c) 0 (built_at_ts c)
             (mkMetrics (cache_hits m) (cache_misses m) (u64_add (cache_rebuilds m) 1)
                (cache_invalidations m) (memory_footprint_bytes m)) (rebuild_threshold c))
  else (false, c).

Definition built (c : RowProjectionCache) (count now : N) : RowProjectionCache :=
  mkCache (segment_id c) (cache c) count now (metrics c) (rebuild_threshold c).

Definition rebuild_if_hot (c : RowProjectionCache) (now : N) : RowProjectionCache :=
  match should_rebuild c with
  | (true, c') => let c2 := invalidate c' in built c2 (hot_access_count c2) now
  | (false, c') => c'
  end.

Definition on_base_segment_swap (c : RowProjectionCache) (now : N) : RowProjectionCache :=
  built (invalidate c) 0 now.

(** *** Properties *)

Inductive Op := Get (row : N) | Put (row : N) (p : option string) | Invalidate
  | InvalidateRow (row : N) | RebuildIfHot (now : N) | Swap (now : N).

Definition step (c : RowProjectionCache) (o : Op) : RowProjectionCache :=
  match o with
  | Get row => (get c row).2
  | Put row p => put c row p
  | Invalidate => invalidate c
  | InvalidateRow row => invalidate_row c row
  | RebuildIfHot now => rebuild_if_hot c now
  | Swap now => on_base_segment_swap c now
  end.

(** The bytes of the projections that are cached now *)
Definition total_size (m : gmap N (option string)) : N :=
  map_fold (fun _ p acc => size p + acc) 0 m.

Definition reachable (c : RowProjectionCache) : Prop :=
  ∃ segment threshold now ops, c = foldl step (with_threshold segment threshold now) ops.

Lemma total_size_fresh m row p :
  m !! row = None → total_size (<[row := p]> m) = size p + total_size m.
Proof. intros E. unfold total_size. rewrite map_fold_insert_L; [done|intros; lia|done]. Qed.

Lemma total_size_delete m row p :
  m !! row = Some p → total_size m = size p + total_size (delete row m).
Proof.
  intros E. rewrite <-(insert_delete_id m row p E) at 1.
  apply total_size_fresh, lookup_delete_eq.
Qed.

Lemma total_size_insert m row p : total_size (<[row := p]> m) <= total_size m + size p.
Proof.
  destruct (m !! row) as [q|] eqn:E; [|rewrite total_size_fresh by done; lia].
  rewrite <-insert_delete_eq, total_size_fresh by apply lookup_delete_eq.
  rewrite (total_size_delete m row q E). lia.
Qed.

Definition footprint_ok (c : RowProjectionCache) : Prop :=
  N.min u64_max (total_size (cache c)) <= memory_footprint_bytes (metrics c).

Lemma step_footprint c o : footprint_ok c → footprint_ok (step c o).
Proof.
  unfold footprint_ok. intros Hc.
  assert (Hz : N.min u64_max (total_size ∅) <= 0) by done.
  destruct o as [row|row p| |row|now|now]; cbn [step].
  - unfold get. by destruct (cache c !! row).
  - cbn. pose proof (total_size_insert (cache c) row p). lia.
  - exact Hz.
  - unfold invalidate_row. destruct (cache c !! row) as [p|] eqn:E; [|done]. cbn.
    pose proof (total_size_delete _ _ _ E). lia.
  - unfold rebuild_if_hot, should_rebuild. by destruct (_ <=? _).
  - exact Hz.
Qed.

(** The reported memory footprint never understates the cache: after any operations
    it is at least the size of the projections held, up to the width of the counter. *)
Theorem footprint_covers_cache c : reachable c →
  N.min u64_max (total_size (cache c)) <= memory_footprint_bytes (metrics c).
Proof.
  intros (segment & threshold & now & ops & ->). fold (footprint_ok (foldl step (with_threshold segment threshold now) ops)).
  induction ops as [|o ops IH] using rev_ind; [done|].
  rewrite foldl_app. cbn [foldl]. by apply step_footprint.
Qed.

Definition busy_cache : RowProjectionCache :=
  foldl step (with_threshold 1 100 0) [Put 1 (Some "abcd"); Put 1 (Some "ab"); InvalidateRow 1].

Lemma footprint_covers_cache_witness :
  N.min u64_max (total_size (cache busy_cache)) <= memory_footprint_bytes (metrics busy_cache).
Proof. apply footprint_covers_cache. by exists 1, 100, 0, [Put 1 (Some "abcd"); Put 1 (Some "ab"); InvalidateRow 1]. Defined.

(** But replaced and invalidated rows stay in the count. *)
Lemma footprint_keeps_dropped_rows :
  cache busy_cache = ∅ ∧ memory_footprint_bytes (metrics busy_cache) = 6.
Proof. split; vm_compute; reflexivity. Qed.

End ProjectionCache.

(** ** Ownership of partitions *)

Module Placement.

Inductive NodeRole := Oltp | OlapSnapshot | Hybrid.

#[export] Instance NodeRole_eq_dec : EqDecision NodeRole.
Proof. solve_decision. Defined.

Record ClusterNode := mkNode {
  node_id : string;
  role : NodeRole;
  base_url : string;
  available : bool;
  last_heartbeat_ms : N;
}.

Record PartitionPlacement := mkPlacement {
  partition_id : N;
  table_name : string;
  primary_node_id : string;
  replica_node_ids : list string;
  olap_snapshot_node_ids : list string;
  version : N;
}.

Inductive RebalanceStatus := Pending | InProgress | Complete | Failed (why : string).

Record RebalancePlan := mkPlan {
  plan_id : string;
  plan_partition : N;
  from_node_id : string;
  to_node_id : string;
  plan_reason : string;
  estimated_bytes : N;
  status : RebalanceStatus;
  created_at_ms : N;
}.

Inductive DistributedAccessPath := LocalHybrid | RemoteOltp | RemoteOlapSnapshot | BroadcastHybrid.

Record RoutingDecision := mkDecision {
  d_partition : N;
  target_node_id : string;
  access_path : DistributedAccessPath;
  d_reason : string;
}.

Record PlacementRegistry := mkRegistry {
  local_node_id : string;
  local_role : NodeRole;
  placements : gmap N PartitionPlacement;
  nodes : gmap string ClusterNode;
  rebalance_plans : list RebalancePlan;
  routing_decisions_total : N;
  rebalances_total : N;
  rebalance_failures_total : N;
}.

Definition registry_new (id : string) (r : NodeRole) : PlacementRegistry := mkRegistry id r ∅ ∅ [] 0 0 0.

Definition register_node (g : PlacementRegistry) (n : ClusterNode) : PlacementRegistry :=
  mkRegistry (local_node_id g) (local_role g) (placements g) (<[node_id n := n]> (nodes g))
    (rebalance_plans g) (routing_decisions_total g) (rebalances_total g)
    (rebalance_failures_total g).

Definition get_node (g : PlacementRegistry) (id : string) : option ClusterNode := nodes g !! id.

Definition list_nodes `{!MapOrder ClusterNode} (g : PlacementRegistry) : list ClusterNode :=
  iter_values (nodes g).

Definition nodes_by_role `{!MapOrder ClusterNode} (g : PlacementRegistry) (r : NodeRole)
    : list ClusterNode :=
  filter (fun n => role n = r) (iter_values (nodes g)).

Definition register_placement (g : PlacementRegistry) (p : PartitionPlacement) : PlacementRegistry :=
  mkRegistry (local_node_id g) (local_role g) (<[partition_id p := p]> (placements g)) (nodes g)
    (rebalance_plans g) (routing_decisions_total g) (rebalances_total g)
    (rebalance_failures_total g).

Definition get_placement (g : PlacementRegistry) (pid : N) : option PartitionPlacement :=
  placements g !! pid.

Definition list_placements `{!HashOrder N PartitionPlacement} (g : PlacementRegistry)
    : list PartitionPlacement :=
  map snd (iter_hash (placements g)).

Definition serves_snapshot (g : PlacementRegistry) (id : string) : bool :=
  match nodes g !! id with
  | Some n => available n && bool_decide (role n = OlapSnapshot)
  | None => false
  end.

(** The decision of [route_query] *)
Definition route (g : PlacementRegistry) (pid : N) (is_write prefer_olap_snapshot : bool)
    : RoutingDecision :=
  let local := local_node_id g in
  let placement := get_placement g pid in
  let rule1 := match placement with Some p => String.eqb (primary_node_id p) local | None => false end in
  if rule1 then mkDecision pid local LocalHybrid "local node is primary OLTP owner"
  else
    let rule2 :=
      match placement with
      | Some p => if prefer_olap_snapshot && negb is_write
                  then List.find (serves_snapshot g) (olap_snapshot_node_ids p) else None
      | None => None
      end in
    match rule2 with
    | Some id => mkDecision pid id RemoteOlapSnapshot "dedicated OlapSnapshot node available"
    | None =>
        if negb is_write && bool_decide (local_role g = OlapSnapshot)
        then mkDecision pid local LocalHybrid "local OlapSnapshot node serving read"
        else
          let rule4 :=
            match placement with
            | Some p =>
                is_write && negb (String.eqb (primary_node_id p) "")
                && negb (String.eqb (primary_node_id p) local)
            | None => false
            end in
          match placement, rule4 with
          | Some p, true =>
              mkDecision pid (primary_node_id p) RemoteOltp "forwarding write to remote OLTP primary"
          | _, _ => mkDecision pid local LocalHybrid "fallback: local hybrid"
          end
    end.

Definition route_query (g : PlacementRegistry) (pid : N) (is_write prefer_olap_snapshot : bool)
    : RoutingDecision * PlacementRegistry :=
  (route g pid is_write prefer_olap_snapshot,
   mkRegistry (local_node_id g) (local_role g) (placements g) (nodes g) (rebalance_plans g)
     (u64_add (routing_decisions_total g) 1) (rebalances_total g) (rebalance_failures_total g)).

Definition can_accept_write (g : PlacementRegistry) (pid : N) : result unit string :=
  match local_role g with
  | OlapSnapshot =>
      Err ("node '" +:+ local_node_id g +:+
           "' is OlapSnapshot and cannot accept writes for partition PartitionId(" +:+
           Dec.to_string pid +:+ ")")
  | _ => Ok tt
  end.

Definition create_rebalance_plan (g : PlacementRegistry) (pid : N) (from to why : string)
    (bytes now : N) : RebalancePlan * PlacementRegistry :=
  let plan := mkPlan ("plan-" +:+ Dec.to_string pid +:+ "-" +:+ Dec.to_string now)
                pid from to why bytes Pending now in
  (plan, mkRegistry (local_node_id g) (local_role g) (placements g) (nodes g)
           (rebalance_plans g ++ [plan]) (routing_decisions_total g)
           (u64_add (rebalances_total g) 1) (rebalance_failures_total g)).

Definition with_status (p : RebalancePlan) (s : RebalanceStatus) : RebalancePlan :=
  mkPlan (plan_id p) (plan_partition p) (from_node_id p) (to_node_id p) (plan_reason p)
    (estimated_bytes p) s (created_at_ms p).

(** [plans.iter_mut().find(|p| p.plan_id == plan_id)]: only the first match changes *)
Fixpoint set_status (plans : list RebalancePlan) (id : string) (s : RebalanceStatus)
    : list RebalancePlan :=
  match plans with
  | [] => []
  | p :: plans' =>
      if String.eqb (plan_id p) id then with_status p s :: plans'
      else p :: set_status plans' id s
  end.

Definition update_rebalance_status (g : PlacementRegistry) (id : string) (s : RebalanceStatus)
    : PlacementRegistry :=
  mkRegistry (local_node_id g) (local_role g) (placements g) (nodes g)
    (set_status (rebalance_plans g) id s) (routing_decisions_total g) (rebalances_total g)
    (match s with
     | Failed _ => u64_add (rebalance_failures_total g) 1
     | _ => rebalance_failures_total g
     end).

Definition pending_rebalance_plans (g : PlacementRegistry) : list RebalancePlan :=
  List.filter (fun p => match status p with Pending => true | _ => false end) (rebalance_plans g).

(** *** Properties *)

(** A query is only sent away from the node for a reason: a write of a placed partition
    goes to its primary, a read is sent only to an available snapshot node that the
    placement lists, and everything else stays on the local node. *)
Theorem routing_targets_owner g pid is_write prefer :
  let d := route g pid is_write prefer in
  match access_path d with
  | RemoteOltp => is_write = true ∧ ∃ p, get_placement g pid = Some p ∧
                  target_node_id d = primary_node_id p
  | RemoteOlapSnapshot => is_write = false ∧ prefer = true ∧ ∃ p n,
      get_placement g pid = Some p ∧ target_node_id d ∈ olap_snapshot_node_ids p ∧
      get_node g (target_node_id d) = Some n ∧ available n = true ∧ role n = OlapSnapshot
  | LocalHybrid => target_node_id d = local_node_id g ∧
      (is_write = true → ∀ p, get_placement g pid = Some p → primary_node_id p ≠ "" →
         primary_node_id p = local_node_id g)
  | BroadcastHybrid => False
  end.
Proof.
  cbv zeta. unfold route, get_placement, get_node.
  destruct (placements g !! pid) as [p|].
  2:{ destruct (negb is_write && _); cbn; by split. }
  destruct (String.eqb_spec (primary_node_id p) (local_node_id g)) as [E|Hne].
  { cbn. split; [done|]. intros _ q [= <-] _. exact E. }
  destruct (if prefer && negb is_write then _ else None) as [id|] eqn:E2.
  { cbn. destruct (prefer && negb is_write) eqn:E; [|done].
    apply andb_prop in E as [-> Hw%negb_true_iff]. apply List.find_some in E2 as [Hin Hs].
    unfold serves_snapshot in Hs. destruct (nodes g !! id) as [n|] eqn:En; [|done].
    apply andb_prop in Hs as [Ha Hr%bool_decide_eq_true].
    split; [done|]. split; [done|]. exists p, n. by split; [|split; [apply list_elem_of_In|]]. }
  destruct is_write; cbn [negb andb].
  - destruct (String.eqb_spec (primary_node_id p) "") as [Ee|Hnn]; cbn.
    + split; [done|]. by intros _ q [= <-].
    + split; [done|]. by exists p.
  - destruct (bool_decide _); cbn; by split.
Qed.

(** Two plans of one partition in the same millisecond share their id, so the second
    one can never be completed. *)
Definition twin_plans : PlacementRegistry :=
  let g := (create_rebalance_plan (registry_new "a" Hybrid) 1 "a" "b" "load" 10 5).2 in
  update_rebalance_status
    (update_rebalance_status (create_rebalance_plan g 1 "a" "c" "load" 10 5).2 "plan-1-5" Complete)
    "plan-1-5" Complete.

Lemma twin_plan_stays_pending : map to_node_id (pending_rebalance_plans twin_plans) = ["c"].
Proof. reflexivity. Qed.

(** A snapshot node that knows no placement answers a write with the local path,
    although it cannot accept writes. *)
Lemma snapshot_node_routes_write_locally :
  access_path (route (registry_new "s" OlapSnapshot) 1 true false) = LocalHybrid ∧
  is_ok (can_accept_write (registry_new "s" OlapSnapshot) 1) = false.
Proof. split; reflexivity. Qed.

End Placement.

(** ** Freshness service levels *)

Module Freshness.
Import Planner.

Record FreshnessSlaConfig := mkConfig { table_sla_ms : option N; default_sla_ms : N }.

Definition config_default : FreshnessSlaConfig := mkConfig None 5000.

Definition effective_sla_ms (c : FreshnessSlaConfig) : N := default (default_sla_ms c) (table_sla_ms c).

Record FreshnessSlaRequest := mkRequest {
  max_staleness_ms : option N;
  enforce_sla : bool;
  reject_if_stale : bool;
}.

Definition permissive : FreshnessSlaRequest := mkRequest None false false.
Definition strict (ms : N) : FreshnessSlaRequest := mkRequest (Some ms) true true.

Inductive ComplianceStatus := Compliant | Warning (ms : N) | Violated (ms : N).

Record FreshnessMetrics := mkFresh {
  last_merge_ts_ms : N;
  base_freshness_ms : N;
  tail_freshness_ms : N;
  compliance_status : ComplianceStatus;
}.

Definition current_staleness_ms (m : FreshnessMetrics) : N :=
  N.max (base_freshness_ms m) (tail_freshness_ms m).

Record FreshnessSlaMetrics := mkSlaMetrics {
  slo_violations_total : N;
  segments_compliant : N;
  segments_warning : N;
  segments_violated : N;
  avg_staleness_ms : f64;
}.

Record FreshnessSlaEnforcer := mkEnforcer {
  segment_freshness : gmap N FreshnessMetrics;
  table_sla_config : gmap string FreshnessSlaConfig;
  slo_violation_total : N;
}.

Definition enforcer_new : FreshnessSlaEnforcer := mkEnforcer ∅ ∅ 0.

Definition register_table_sla (e : FreshnessSlaEnforcer) (table : string) (c : FreshnessSlaConfig)
    : FreshnessSlaEnforcer :=
  mkEnforcer (segment_freshness e) (<[table := c]> (table_sla_config e)) (slo_violation_total e).

Definition not_found (segment : N) : string :=
  "Segment " +:+ Dec.to_string segment +:+ " not found".

(** [now_ms.saturating_sub(last_merge_ts_ms)] *)
Definition staleness (m : FreshnessMetrics) (now : N) : N := now - last_merge_ts_ms m.

(** [None]: [sla_threshold_ms + 1000] overflows. *)
Definition evaluate_freshness (e : FreshnessSlaEnforcer) (segment sla_threshold_ms now : N)
    : option (result ComplianceStatus string) :=
  match segment_freshness e !! segment with
  | None => Some (Err (not_found segment))
  | Some m =>
      let s := staleness m now in
      if s <=? sla_threshold_ms then Some (Ok Compliant)
      else if u64_max <? sla_threshold_ms + 1000 then None
      else if s <=? sla_threshold_ms + 1000 then Some (Ok (Warning s))
      else Some (Ok (Violated s))
  end.

Definition check_query_can_execute (e : FreshnessSlaEnforcer) (table : string) (segment : N)
    (req : FreshnessSlaRequest) (now : N) : result bool string :=
  if negb (enforce_sla req) then Ok true
  else
    let sla := effective_sla_ms (default config_default (table_sla_config e !! table)) in
    match segment_freshness e !! segment with
    | None => Err (not_found segment)
    | Some m =>
        let s := staleness m now in
        let over_request :=
          match max_staleness_ms req with Some max => max <? s | None => false end in
        if over_request && reject_if_stale req then Ok false
        else if (sla <? s) && reject_if_stale req then Ok false
        else Ok true
    end.

Definition set_segment (e : FreshnessSlaEnforcer) (segment : N) (m : FreshnessMetrics)
    : FreshnessSlaEnforcer :=
  mkEnforcer (<[segment := m]> (segment_freshness e)) (table_sla_config e) (slo_violation_total e).

(** [entry(segment_id).or_insert_with(..)] *)
Definition entry (e : FreshnessSlaEnforcer) (segment now : N) : FreshnessMetrics :=
  default (mkFresh now 0 0 Compliant) (segment_freshness e !! segment).

Definition on_merge_completed (e : FreshnessSlaEnforcer) (segment new_freshness_ms now : N)
    : FreshnessSlaEnforcer :=
  let m := entry e segment now in
  set_segment e segment (mkFresh now new_freshness_ms (tail_freshness_ms m) (compliance_status m)).

Definition on_query_executed (e : FreshnessSlaEnforcer) (segment now : N) : FreshnessSlaEnforcer :=
  let m := entry e segment now in
  set_segment e segment (mkFresh (last_merge_ts_ms m) (base_freshness_ms m) 0 (compliance_status m)).

Definition init_segment (e : FreshnessSlaEnforcer) (segment now : N) : FreshnessSlaEnforcer :=
  set_segment e segment (mkFresh now 0 0 Compliant).

Definition update_compliance_status (e : FreshnessSlaEnforcer) (segment : N)
    (s : ComplianceStatus) : result FreshnessSlaEnforcer string :=
  match segment_freshness e !! segment with
  | Some m => Ok (set_segment e segment
                    (mkFresh (last_merge_ts_ms m) (base_freshness_ms m) (tail_freshness_ms m) s))
  | None => Err (not_found segment)
  end.

Definition record_slo_violation (e : FreshnessSlaEnforcer) : FreshnessSlaEnforcer :=
  mkEnforcer (segment_freshness e) (table_sla_config e) (u64_add (slo_violation_total e) 1).

Section Order.
Context `{!HashOrder N FreshnessMetrics}.

Definition count_status (p : ComplianceStatus -> bool) (ms : list FreshnessMetrics) : N :=
  N.of_nat (length (List.filter (fun m => p (compliance_status m)) ms)).

Definition get_metrics (e : FreshnessSlaEnforcer) : FreshnessSlaMetrics :=
  let ms := map snd (iter_hash (segment_freshness e)) in
  let total := foldl (fun t m => u64_add t (current_staleness_ms m)) 0 ms in
  let count := N.of_nat (length ms) in
  mkSlaMetrics (slo_violation_total e)
    (count_status (fun s => match s with Compliant => true | _ => false end) ms)
    (count_status (fun s => match s with Warning _ => true | _ => false end) ms)
    (count_status (fun s => match s with Violated _ => true | _ => false end) ms)
    (if 0 <? count then SFdiv 53 1024 (f64_of_u64 total) (f64_of_u64 count) else lit 0 1).

(** The candidate of one segment, unless it is within its level *)
Definition candidate (sla_threshold_ms now : N) (sm : N * FreshnessMetrics) : option (N * f64) :=
  let s := staleness sm.2 now in
  if s <=? sla_threshold_ms then None
  else Some (sm.1, SFdiv 53 1024 (f64_of_u64 (s - sla_threshold_ms)) (f64_of_u64 sla_threshold_ms)).

(** [b.1.partial_cmp(&a.1).unwrap_or(Equal)] *)
Definition by_priority (a b : N * f64) : comparison :=
  default Eq (SFcompare b.2 a.2).

Definition prioritize_merge_candidates (e : FreshnessSlaEnforcer) (sla_threshold_ms now : N)
    : list (N * f64) :=
  Select.sort_by by_priority
    (omap (candidate sla_threshold_ms now) (iter_hash (segment_freshness e))).

(** *** Properties *)

Lemma insert_by_permutes {A} (cmp : A -> A -> comparison) x l : Select.insert_by cmp x l ≡ₚ x :: l.
Proof.
  induction l as [|y l IH]; [done|]. cbn. destruct (cmp x y); [done|done|].
  rewrite IH. apply Permutation_swap.
Qed.

Lemma sort_by_permutes {A} (cmp : A -> A -> comparison) l : Select.sort_by cmp l ≡ₚ l.
Proof. induction l as [|x l IH]; [done|]. cbn. by rewrite insert_by_permutes, IH. Qed.

(** The merge candidates are exactly the segments beyond their level, each once. *)
Lemma candidates_are_overdue e sla now segment :
  segment ∈ map fst (prioritize_merge_candidates e sla now) ↔
  ∃ m, segment_freshness e !! segment = Some m ∧ sla < staleness m now.
Proof.
  unfold prioritize_merge_candidates. change (map fst ?l) with (fst <$> l).
  rewrite sort_by_permutes, list_elem_of_fmap. split.
  - intros ([s pr] & -> & Hin). apply list_elem_of_omap in Hin as ([s' m] & Hin & Hc).
    rewrite iter_hash_perm, elem_of_map_to_list in Hin. unfold candidate in Hc.
    cbv zeta in Hc. cbn [fst snd] in Hc.
    destruct (N.leb_spec (staleness m now) sla) as [Hle|Hlt]; [done|].
    injection Hc as <- _. by exists m.
  - intros (m & Hm & Hlt).
    exists (segment, SFdiv 53 1024 (f64_of_u64 (staleness m now - sla)) (f64_of_u64 sla)).
    split; [done|]. apply list_elem_of_omap. exists (segment, m).
    rewrite iter_hash_perm, elem_of_map_to_list. split; [done|]. unfold candidate.
    cbv zeta. cbn [fst snd]. destruct (N.leb_spec (staleness m now) sla); [lia|done].
Qed.
End Order.

(** A strict request runs on a tracked segment exactly when the time since its last
    merge is within both the request's and the table's level, and a merge makes the
    segment fresh for every level. *)
Theorem strict_query_needs_fresh_segment e table segment max now m :
  segment_freshness e !! segment = Some m →
  let sla := effective_sla_ms (default config_default (table_sla_config e !! table)) in
  check_query_can_execute e table segment (strict max) now =
    Ok ((staleness m now <=? max) && (staleness m now <=? sla)) ∧
  ∀ fresh, check_query_can_execute (on_merge_completed e segment fresh now) table segment
             (strict max) now = Ok true.
Proof.
  intros Hm. cbv zeta. unfold check_query_can_execute. cbn [enforce_sla strict negb].
  split.
  - rewrite Hm. cbn [max_staleness_ms reject_if_stale strict]. rewrite !andb_true_r.
    rewrite !N.ltb_antisym. by destruct (_ <=? max), (_ <=? effective_sla_ms _).
  - intros fresh. unfold on_merge_completed, set_segment. cbn [segment_freshness table_sla_config].
    rewrite lookup_insert_eq. cbn [max_staleness_ms reject_if_stale strict].
    unfold staleness. cbn [last_merge_ts_ms]. rewrite N.sub_diag, !andb_true_r.
    destruct (N.ltb_spec max 0); [lia|]. destruct (N.ltb_spec (effective_sla_ms
      (default config_default (table_sla_config e !! table))) 0); [lia|done].
Qed.

Definition tracked : FreshnessSlaEnforcer := init_segment enforcer_new 1 1000.

Lemma strict_query_needs_fresh_segment_witness :
  check_query_can_execute tracked "t" 1 (strict 2000) 4000 = Ok false ∧
  check_query_can_execute (on_merge_completed tracked 1 0 4000) "t" 1 (strict 2000) 4000 = Ok true.
Proof.
  destruct (strict_query_needs_fresh_segment tracked "t" 1 2000 4000 (mkFresh 1000 0 0 Compliant))
    as [Q1 Q2]; [reflexivity|]. split; [exact Q1|exact (Q2 0)].
Defined.

(** A request that enforces its level but does not reject runs on any segment. *)
Lemma enforced_request_runs_stale :
  check_query_can_execute tracked "t" 1 (mkRequest (Some 0) true false) 900000 = Ok true.
Proof. reflexivity. Qed.

(** Executing a query resets the time since the last write. *)
Lemma query_resets_tail_age :
  tail_freshness_ms <$> segment_freshness
    (on_query_executed (mkEnforcer {[ 1 := mkFresh 0 0 700 Compliant ]} ∅ 0) 1 900) !! 1 = Some 0.
Proof. reflexivity. Qed.

End Freshness.
