(* ===== verification/Driver.v ===== *)
(** * The Rust driver ([drivers/voltnuerongrid-driver-rust/src/lib.rs])

    Configuration and its checks, the choice of a transport, the connection pool
    policy (slots, circuit breaker, storm detection) and the pool of native
    connections.  Reachability of an address, which the driver probes with a TCP
    connect, is an argument, and so is the clock. *)

From S2P Require Import Prelude Str Decimal Wal SqlKind.
From Stdlib Require Import Ascii.
Local Open Scope string_scope.
Local Open Scope list_scope.
Local Open Scope N_scope.
Local Open Scope vng_scope.

(** ** Configuration and transport *)

Module Driver.

Inductive DriverErrorKind := Validation | Transport | HttpStatus | Serialization | Timeout | Cancelled.

Record DriverError := mkError {
  kind : DriverErrorKind;
  message : string;
  status_code : option N;
  request_id : option string;
}.

Definition validation (m : string) : DriverError := mkError Validation m None None.
Definition serialization (m : string) : DriverError := mkError Serialization m None None.
Definition transport (m : string) : DriverError := mkError Transport m None None.
Definition http_status (code : N) (m : string) (rid : option string) : DriverError :=
  mkError HttpStatus m (Some code) rid.
Definition timeout (m : string) : DriverError := mkError Timeout m None None.
Definition cancelled (m : string) : DriverError := mkError Cancelled m None None.
Definition with_request_id (e : DriverError) (rid : string) : DriverError :=
  mkError (kind e) (message e) (status_code e) (Some rid).

Definition DriverResult (T : Type) := result T DriverError.

Definition is_retryable_http_status (status : N) : bool :=
  existsb (N.eqb status) [408; 425; 429; 500; 502; 503; 504].

Record DriverConfig := mkConfig {
  base_url : string;
  http_fallback_url : option string;
  session_id : string;
  tenant_id : option string;
  user_id : option string;
  admin_api_key : option string;
  operator_id : option string;
  route_hint : option string;
}.

Definition lower (s : string) : string := SqlKind.to_ascii_lowercase s.

Definition is_vng (url : string) : bool := Str.starts_with "vng://" (lower (Str.trim url)).

Definition blank (s : string) : bool := String.eqb (Str.trim s) "".

Definition validate (c : DriverConfig) : DriverResult unit :=
  if blank (base_url c) then Err (validation "base_url must not be empty")
  else if blank (session_id c) then Err (validation "session_id must not be empty")
  else if xorb (bool_decide (is_Some (tenant_id c))) (bool_decide (is_Some (user_id c)))
  then Err (validation "tenant_id and user_id must be set together")
  else
    match http_fallback_url c with
    | None => Ok tt
    | Some h =>
        if blank h then Err (validation "http_fallback_url must not be empty when set")
        else
          let hl := lower (Str.trim h) in
          if negb (Str.starts_with "http://" hl) && negb (Str.starts_with "https://" hl)
          then Err (validation "http_fallback_url must start with http:// or https://")
          else if negb (is_vng (base_url c))
          then Err (validation "http_fallback_url is only valid when base_url uses the vng:// scheme")
          else Ok tt
    end.

Definition http_rest_base_url (c : DriverConfig) : DriverResult string :=
  if is_vng (base_url c) then
    match http_fallback_url c with
    | Some h => if blank h then Err (validation "http_fallback_url is required when base_url uses vng:// (REST APIs need an http(s) endpoint)")
                else Ok (Str.trim h)
    | None => Err (validation "http_fallback_url is required when base_url uses vng:// (REST APIs need an http(s) endpoint)")
    end
  else Ok (Str.trim (base_url c)).

Inductive DriverTransportMode := Http | Native | Auto.

Record TransportCapabilities := mkCaps { native_available : bool; http_available : bool }.

Record AutoTransportResolution := mkAuto {
  active : DriverTransportMode;
  fallback_triggered : bool;
  fallback_reason : option string;
  notes : option string;
}.

Definition nothing_available : string := "no available transport: native and http are unavailable".

Definition resolve_auto_transport (c : DriverConfig) (caps : TransportCapabilities)
    : DriverResult AutoTransportResolution :=
  let dual := match http_fallback_url c with Some s => negb (blank s) | None => false end in
  if dual then
    if native_available caps then
      Ok (mkAuto Native false None (Some "auto: dual-endpoint; native available (native-first)"))
    else if http_available caps then
      Ok (mkAuto Http true (Some "native_unavailable")
            (Some "auto: dual-endpoint; fell back to http_fallback_url"))
    else Err (transport nothing_available)
  else if is_vng (base_url c) then
    if native_available caps then
      Ok (mkAuto Native false None (Some "auto: single vng URL; native available"))
    else if http_available caps then
      Err (transport "native unavailable and no http_fallback_url is configured for HTTP fallback")
    else Err (transport nothing_available)
  else if http_available caps then
    Ok (mkAuto Http false None (Some "auto: single http(s) URL"))
  else Err (transport nothing_available).

(** [rest.split(|c| c == '/' || c == '?').next()] *)
Fixpoint until_path (s : string) : string :=
  match s with
  | EmptyString => EmptyString
  | String c s' =>
      if Ascii.eqb c "/"%char || Ascii.eqb c "?"%char then EmptyString else String c (until_path s')
  end.

Fixpoint all_digits (s : string) : bool :=
  match s with
  | EmptyString => true
  | String c s' => (48 <=? N_of_ascii c) && (N_of_ascii c <=? 57) && all_digits s'
  end.

Definition parse_vng_host_for_discovery (vng_url : string) : DriverResult string :=
  match Str.strip_prefix "vng://" (Str.trim vng_url) with
  | None => Err (validation "expected vng:// URL")
  | Some rest =>
      let host_part := Str.trim (until_path rest) in
      if String.eqb host_part "" then Err (validation "vng URL host is empty")
      else
        match Str.strip_prefix "[" host_part with
        | Some _ =>
            match Str.find_str "]" host_part with
            | Some e => Ok (Str.sub 1 e host_part)
            | None => Err (validation "invalid IPv6 bracket in vng URL")
            end
        | None =>
            match Str.rfind_char ":" host_part with
            | Some i =>
                let a := Str.sub 0 i host_part in
                let b := Str.sub (i + 1) (String.length host_part) host_part in
                if all_digits b && negb (Str.contains ":" a) then Ok a else Ok host_part
            | None => Ok host_part
            end
        end
  end.

Definition infer_http_base_url_from_vng_url (vng_url : string) (http_port : N) : DriverResult string :=
  if http_port =? 0 then Err (validation "http discovery port must be >= 1")
  else
    let? host := parse_vng_host_for_discovery vng_url in
    if Str.contains ":" host
    then Ok ("http://[" +:+ host +:+ "]:" +:+ Dec.to_string http_port)
    else Ok ("http://" +:+ host +:+ ":" +:+ Dec.to_string http_port).

Definition with_fallback (c : DriverConfig) (url : string) : DriverConfig :=
  mkConfig (base_url c) (Some url) (session_id c) (tenant_id c) (user_id c) (admin_api_key c)
    (operator_id c) (route_hint c).

(** [discovery_http_port.or_else(discovery_http_port_from_env)] *)
Definition parse_discovery_http_port_str (s : string) : option N :=
  if blank s then None
  else match Dec.parse 65535 (Str.trim s) with
       | Some p => if 0 <? p then Some p else None
       | None => None
       end.

Definition discovery_port (given : option N) (env : option string) : option N :=
  match given with Some p => Some p | None => env ≫= parse_discovery_http_port_str end.

Definition resolve_auto_transport_with_discovery (c : DriverConfig) (caps : TransportCapabilities)
    (given : option N) (env : option string) : DriverResult AutoTransportResolution :=
  match discovery_port given env with
  | None => resolve_auto_transport c caps
  | Some port =>
      match http_fallback_url c with
      | Some _ => resolve_auto_transport c caps
      | None =>
          if negb (is_vng (base_url c)) then resolve_auto_transport c caps
          else
            let? inferred := infer_http_base_url_from_vng_url (Str.trim (base_url c)) port in
            resolve_auto_transport (with_fallback c inferred) caps
      end
  end.

Definition http_origin_host_port_for_probe (url : string) : option string :=
  let u := Str.trim url in
  let rest := match Str.strip_prefix "http://" u with
              | Some r => Some r
              | None => Str.strip_prefix "https://" u
              end in
  match rest with
  | Some r => let hostport := Str.trim (until_path r) in
              if String.eqb hostport "" then None else Some hostport
  | None => None
  end.

Section Probe.
(** Whether the first address of [host:port] accepts a connection in time *)
Variable connects : string -> N -> bool.

Definition probe_tcp_connect (host_port : string) (timeout_ms : N) : bool :=
  let h := Str.trim host_port in
  negb (String.eqb h "" || (timeout_ms =? 0)) && connects h timeout_ms.

Definition infer_transport_capabilities_tcp (c : DriverConfig) (native_ms http_ms : N)
    : TransportCapabilities :=
  let base := Str.trim (base_url c) in
  let native :=
    if is_vng base then
      match Str.strip_prefix "vng://" base with
      | Some hp => if String.eqb (Str.trim hp) "" then false
                   else probe_tcp_connect (Str.trim hp) native_ms
      | None => false
      end
    else false in
  let http :=
    match http_rest_base_url c with
    | Ok u => match http_origin_host_port_for_probe u with
              | Some hp => probe_tcp_connect hp http_ms
              | None => false
              end
    | Err _ => false
    end in
  mkCaps native http.

Definition infer_transport_capabilities_tcp_with_discovery (c : DriverConfig) (native_ms http_ms : N)
    (given : option N) (env : option string) : TransportCapabilities :=
  let effective :=
    match http_fallback_url c, discovery_port given env with
    | None, Some p =>
        if is_vng (base_url c) then
          match infer_http_base_url_from_vng_url (Str.trim (base_url c)) p with
          | Ok u => with_fallback c u
          | Err _ => c
          end
        else c
    | _, _ => c
    end in
  infer_transport_capabilities_tcp effective native_ms http_ms.
End Probe.

Definition select_transport_from_base_url (url : string) : DriverTransportMode :=
  if is_vng url then Native else Http.

Record TransportResolution := mkResolution {
  resolved : DriverTransportMode;
  used_auto_resolution : bool;
  resolution_notes : option string;
}.

Definition mode_debug (m : DriverTransportMode) : string :=
  match m with Http => "Http" | Native => "Native" | Auto => "Auto" end.

Definition resolve_transport_mode (c : DriverConfig) (mode : DriverTransportMode) : TransportResolution :=
  match mode with
  | Auto =>
      let a := select_transport_from_base_url (base_url c) in
      mkResolution a true (Some ("auto: selected " +:+ mode_debug a +:+ " from base_url scheme"))
  | _ => mkResolution mode false None
  end.

Definition derive_native_socket_endpoint (c : DriverConfig) : DriverResult string :=
  match Str.strip_prefix "vng://" (Str.trim (base_url c)) with
  | None => Err (validation "native transport requires base_url with vng:// scheme (e.g. vng://127.0.0.1:7542)")
  | Some rest =>
      if blank rest then Err (validation "native transport base_url host:port segment must not be empty")
      else Ok rest
  end.

(** *** The routing contract *)

Record DriverRoutingConfigContract := mkContract {
  c_base_url : string;
  session_header_name : string;
  tenant_header_name : string;
  user_header_name : string;
  route_hint_header_name : string;
  admin_header_name : string;
  operator_header_name : string;
  pool_min_connections : N;
  pool_max_connections : N;
  request_timeout_ms : N;
}.

Definition header_names (k : DriverRoutingConfigContract) : list string :=
  [session_header_name k; tenant_header_name k; user_header_name k; route_hint_header_name k;
   admin_header_name k; operator_header_name k].

Definition contract_validate (k : DriverRoutingConfigContract) : DriverResult unit :=
  if blank (c_base_url k) then Err (validation "base_url must not be empty")
  else if existsb (fun h => blank h || negb (Str.starts_with "x-" h)) (header_names k)
  then Err (validation "all header names must start with 'x-'")
  else if pool_min_connections k =? 0 then Err (validation "pool_min_connections must be >= 1")
  else if pool_max_connections k <? pool_min_connections k
  then Err (validation "pool_max_connections must be >= pool_min_connections")
  else if request_timeout_ms k <? 100 then Err (validation "request_timeout_ms must be >= 100")
  else Ok tt.

(** One line of a properties file *)
Definition property_line (m : gmap string string) (line : string) : gmap string string :=
  let t := Str.trim line in
  if String.eqb t "" || Str.starts_with "#" t || Str.starts_with "!" t then m
  else match Str.split_once "=" t with
       | Some (k, v) => <[Str.trim k := Str.trim v]> m
       | None => m
       end.

Definition text_property (m : gmap string string) (key : string) : DriverResult string :=
  match m !! key with Some v => Ok v | None => Err (validation ("missing " +:+ key)) end.

Definition int_property (m : gmap string string) (limit : N) (key : string) : DriverResult N :=
  match m !! key with
  | None => Err (validation ("missing " +:+ key))
  | Some v => match Dec.parse limit v with
              | Some n => Ok n
              | None => Err (validation (key +:+ " must be integer"))
              end
  end.

Definition from_properties_str (input : string) : DriverResult DriverRoutingConfigContract :=
  let m := foldl property_line ∅ (Wal.lines (String.length input) input) in
  let? a := text_property m "driver.baseUrl" in
  let? b := text_property m "driver.sessionHeaderName" in
  let? c := text_property m "driver.tenantHeaderName" in
  let? d := text_property m "driver.userHeaderName" in
  let? e := text_property m "driver.routeHintHeaderName" in
  let? f := text_property m "driver.adminHeaderName" in
  let? g := text_property m "driver.operatorHeaderName" in
  let? lo := int_property m 4294967295 "driver.pool.minConnections" in
  let? hi := int_property m 4294967295 "driver.pool.maxConnections" in
  let? t := int_property m 18446744073709551615 "driver.requestTimeoutMs" in
  let k := mkContract a b c d e f g lo hi t in
  let? _ := contract_validate k in
  Ok k.

(** *** Properties *)

(** Automatic resolution only picks a transport that is available, prefers the native
    one, and gives up only when no configured endpoint is available. *)
Theorem auto_transport_available c caps :
  match resolve_auto_transport c caps with
  | Ok r => match active r with
            | Native => native_available caps = true
            | Http => http_available caps = true ∧
                      (is_vng (base_url c) = true → native_available caps = false)
            | Auto => False
            end ∧ (fallback_triggered r = true → native_available caps = false)
  | Err e => kind e = Transport ∧ (native_available caps = true → is_vng (base_url c) = false ∧
                                   http_available caps = false)
  end.
Proof.
  unfold resolve_auto_transport.
  destruct (match http_fallback_url c with Some s => negb (blank s) | None => false end);
    [|destruct (is_vng (base_url c)) eqn:Ev];
    destruct caps as [[] []]; cbn; repeat split; try done; intros; try done.
Qed.
End Driver.

(** ** The pool policy *)

Module Pool.

Inductive PoolConnectionState := Idle | Active | HealthChecking | Failed.

#[export] Instance PoolConnectionState_eq_dec : EqDecision PoolConnectionState.
Proof. solve_decision. Defined.

Record PooledConnection := mkConn {
  connection_id : string;
  state : PoolConnectionState;
  created_at_ms : N;
  last_used_ms : N;
  use_count : N;
  last_error : option string;
}.

Definition conn_new (id : string) (now : N) : PooledConnection := mkConn id Idle now now 0 None.

Definition is_idle (c : PooledConnection) : bool := bool_decide (state c = Idle).

Definition is_healthy (c : PooledConnection) (now idle_timeout_ms : N) : bool :=
  negb (bool_decide (state c = Failed)) && (now - last_used_ms c <? idle_timeout_ms).

Definition mark_active (now : N) (c : PooledConnection) : PooledConnection :=
  mkConn (connection_id c) Active (created_at_ms c) now (saturating_add (use_count c) 1) (last_error c).

Definition mark_idle (now : N) (c : PooledConnection) : PooledConnection :=
  mkConn (connection_id c) Idle (created_at_ms c) now (use_count c) (last_error c).

Definition conn_failed (error : string) (c : PooledConnection) : PooledConnection :=
  mkConn (connection_id c) Failed (created_at_ms c) (last_used_ms c) (use_count c) (Some error).

Inductive PoolCircuitBreakerState := Closed | Open (opened_at_ms failure_count : N) | HalfOpen.

Record PoolBackpressurePolicy := mkPolicy {
  max_pool_size : nat;
  min_pool_size : nat;
  acquire_timeout_ms : N;
  idle_timeout_ms : N;
  max_queue_depth : nat;
  circuit_breaker_threshold : N;
  circuit_breaker_reset_ms : N;
  storm_detection_window_ms : N;
  storm_detection_rps_threshold : N;
}.

Definition default_policy : PoolBackpressurePolicy :=
  mkPolicy 50 5 5000 60000 200 10 30000 1000 500.

(** *** Storms *)

Record StormDetector := mkStorm {
  request_timestamps_ms : list N;
  storm_active : bool;
  storm_started_at_ms : option N;
  total_requests : N;
  rejected_requests : N;
  storm_events : N;
}.

Definition storm_new : StormDetector := mkStorm [] false None 0 0 0.

Record StormCheckResult := mkCheck { check_active : bool; check_rps : N; threshold_rps : N }.

Definition window_ms (p : PoolBackpressurePolicy) : N := N.max (storm_detection_window_ms p) 1.

(** The requests of the window, per second *)
Definition rps (p : PoolBackpressurePolicy) (stamps : list N) (now : N) : N :=
  N.of_nat (length (List.filter (fun ts => now - ts <=? window_ms p) stamps))
  / N.max (window_ms p / 1000) 1.

Definition record_request (p : PoolBackpressurePolicy) (d : StormDetector) (now : N)
    : StormCheckResult * StormDetector :=
  let stamps := List.filter (fun ts => now - ts <=? window_ms p) (request_timestamps_ms d ++ [now]) in
  let current := rps p stamps now in
  let threshold := storm_detection_rps_threshold p in
  let total := saturating_add (total_requests d) 1 in
  let d' :=
    if (threshold <=? current) && negb (storm_active d) then
      mkStorm stamps true (Some now) total (rejected_requests d) (saturating_add (storm_events d) 1)
    else if (current <? threshold / 2) && storm_active d then
      mkStorm stamps false None total (rejected_requests d) (storm_events d)
    else mkStorm stamps (storm_active d) (storm_started_at_ms d) total (rejected_requests d)
           (storm_events d) in
  (mkCheck (storm_active d') current threshold, d').

Definition current_rps (p : PoolBackpressurePolicy) (d : StormDetector) (now : N) : N :=
  rps p (request_timestamps_ms d) now.

(** *** The manager *)

Record ConnectionPoolManager := mkManager {
  connections : list PooledConnection;
  policy : PoolBackpressurePolicy;
  circuit_breaker : PoolCircuitBreakerState;
  storm_detector : StormDetector;
  circuit_failure_count : N;
  connection_counter : N;
  total_acquired : N;
  total_released : N;
  total_rejected : N;
  total_circuit_opens : N;
}.

Definition slot_name (k : N) : string := "conn-" +:+ Dec.to_string k.

Definition new (p : PoolBackpressurePolicy) : ConnectionPoolManager :=
  mkManager (map (fun i => conn_new (slot_name (N.of_nat i + 1)) 0) (seq 0 (min_pool_size p)))
    p Closed storm_new 0 (N.of_nat (min_pool_size p)) 0 0 0 0.

Inductive PoolAcquireError :=
| PoolExhausted (active_count max : nat)
| CircuitOpen (failure_count reset_in_ms : N)
| StormRejection (current_rps threshold : N)
| AcquireTimeout (waited_ms : N).

(** [iter_mut().find(p)] followed by [f] on the connection found *)
Fixpoint update_first (q : PooledConnection -> bool) (f : PooledConnection -> PooledConnection)
    (l : list PooledConnection) : option (PooledConnection * list PooledConnection) :=
  match l with
  | [] => None
  | c :: l' =>
      if q c then Some (f c, f c :: l')
      else match update_first q f l' with
           | Some (x, l2) => Some (x, c :: l2)
           | None => None
           end
  end.

Definition active_count (m : ConnectionPoolManager) : nat :=
  length (List.filter (fun c => bool_decide (state c = Active)) (connections m)).

Definition set_storm (m : ConnectionPoolManager) (d : StormDetector) : ConnectionPoolManager :=
  mkManager (connections m) (policy m) (circuit_breaker m) d (circuit_failure_count m)
    (connection_counter m) (total_acquired m) (total_released m) (total_rejected m)
    (total_circuit_opens m).

Definition reject (m : ConnectionPoolManager) : ConnectionPoolManager :=
  mkManager (connections m) (policy m) (circuit_breaker m) (storm_detector m)
    (circuit_failure_count m) (connection_counter m) (total_acquired m) (total_released m)
    (saturating_add (total_rejected m) 1) (total_circuit_opens m).

Definition set_breaker (m : ConnectionPoolManager) (b : PoolCircuitBreakerState)
    : ConnectionPoolManager :=
  mkManager (connections m) (policy m) b (storm_detector m) 0 (connection_counter m)
    (total_acquired m) (total_released m) (total_rejected m) (total_circuit_opens m).

(** A connection was handed out; a half-open breaker closes. *)
Definition handed_out (m : ConnectionPoolManager) (conns : list PooledConnection) (counter : N)
    : ConnectionPoolManager :=
  let m' := mkManager conns (policy m) (circuit_breaker m) (storm_detector m)
              (circuit_failure_count m) counter (saturating_add (total_acquired m) 1)
              (total_released m) (total_rejected m) (total_circuit_opens m) in
  match circuit_breaker m with HalfOpen => set_breaker m' Closed | _ => m' end.

(** [acquire] behind the storm and breaker checks; [busy] is the count of active
    connections at its start *)
Definition take_slot (m : ConnectionPoolManager) (busy : nat) (now : N)
    : result string PoolAcquireError * ConnectionPoolManager :=
  let p := policy m in
  match update_first (fun c => is_idle c && is_healthy c now (idle_timeout_ms p)) (mark_active now)
          (connections m) with
  | Some (c, conns) => (Ok (connection_id c), handed_out m conns (connection_counter m))
  | None =>
      if Nat.ltb (length (connections m)) (max_pool_size p) then
        let counter := saturating_add (connection_counter m) 1 in
        let id := slot_name counter in
        (Ok id, handed_out m (connections m ++ [mark_active now (conn_new id now)]) counter)
      else (Err (PoolExhausted busy (max_pool_size p)), reject m)
  end.

Definition storm_rejected (m : ConnectionPoolManager) : ConnectionPoolManager :=
  let d := storm_detector m in
  reject (set_storm m (mkStorm (request_timestamps_ms d) (storm_active d) (storm_started_at_ms d)
                         (total_requests d) (saturating_add (rejected_requests d) 1)
                         (storm_events d))).

Definition acquire (m0 : ConnectionPoolManager) (now : N)
    : result string PoolAcquireError * ConnectionPoolManager :=
  let p := policy m0 in
  let (storm, d) := record_request p (storm_detector m0) now in
  let m := set_storm m0 d in
  let busy := active_count m in
  if check_active storm && Nat.leb (Nat.min (max_queue_depth p) (max_pool_size p)) busy
  then (Err (StormRejection (check_rps storm) (threshold_rps storm)), storm_rejected m)
  else
    match circuit_breaker m with
    | Open opened_at failures =>
        let elapsed := now - opened_at in
        if elapsed <? circuit_breaker_reset_ms p
        then (Err (CircuitOpen failures (circuit_breaker_reset_ms p - elapsed)), reject m)
        else take_slot (set_breaker m HalfOpen) busy now
    | _ => take_slot m busy now
    end.

Definition named (id : string) (c : PooledConnection) : bool := String.eqb (connection_id c) id.

Definition with_connections (m : ConnectionPoolManager) (conns : list PooledConnection)
    (released : N) : ConnectionPoolManager :=
  mkManager conns (policy m) (circuit_breaker m) (storm_detector m) (circuit_failure_count m)
    (connection_counter m) (total_acquired m) released (total_rejected m) (total_circuit_opens m).

Definition release (m : ConnectionPoolManager) (id : string) (now : N)
    : bool * ConnectionPoolManager :=
  match update_first (named id) (mark_idle now) (connections m) with
  | Some (_, conns) => (true, with_connections m conns (saturating_add (total_released m) 1))
  | None => (false, m)
  end.

Definition record_circuit_failure (m : ConnectionPoolManager) (now : N) : ConnectionPoolManager :=
  let failures := N.min (circuit_failure_count m + 1) 4294967295 in
  let opens := circuit_breaker_threshold (policy m) <=? failures in
  mkManager (connections m) (policy m)
    (if opens then Open now failures else circuit_breaker m) (storm_detector m) failures
    (connection_counter m) (total_acquired m) (total_released m) (total_rejected m)
    (if opens then saturating_add (total_circuit_opens m) 1 else total_circuit_opens m).

Definition mark_failed (m : ConnectionPoolManager) (id error : string) (now : N)
    : ConnectionPoolManager :=
  match update_first (named id) (conn_failed error) (connections m) with
  | Some (_, conns) => record_circuit_failure (with_connections m conns (total_released m)) now
  | None => m
  end.

Definition check_circuit_recovery (m : ConnectionPoolManager) (now : N)
    : bool * ConnectionPoolManager :=
  match circuit_breaker m with
  | Open opened_at _ =>
      if circuit_breaker_reset_ms (policy m) <=? now - opened_at
      then (true, set_breaker m HalfOpen) else (false, m)
  | _ => (false, m)
  end.

Definition prune_unhealthy (m : ConnectionPoolManager) (now : N) : nat * ConnectionPoolManager :=
  let conns := List.filter (fun c => is_healthy c now (idle_timeout_ms (policy m))) (connections m) in
  ((length (connections m) - length conns)%nat, with_connections m conns (total_released m)).

Definition circuit_breaker_state_str (m : ConnectionPoolManager) : string :=
  match circuit_breaker m with Closed => "closed" | Open _ _ => "open" | HalfOpen => "half_open" end.

Record PoolStats := mkStats {
  total_connections : nat;
  idle_connections : nat;
  active_connections : nat;
  failed_connections : nat;
  stats_breaker : string;
  stats_storm : bool;
  stats_rps : N;
  stats_acquired : N;
  stats_released : N;
  stats_rejected : N;
  stats_opens : N;
}.

Definition count_state (st : PoolConnectionState) (m : ConnectionPoolManager) : nat :=
  length (List.filter (fun c => bool_decide (state c = st)) (connections m)).

Definition pool_stats (m : ConnectionPoolManager) (now : N) : PoolStats :=
  mkStats (length (connections m)) (count_state Idle m) (count_state Active m)
    (count_state Failed m) (circuit_breaker_state_str m) (storm_active (storm_detector m))
    (current_rps (policy m) (storm_detector m) now) (total_acquired m) (total_released m)
    (total_rejected m) (total_circuit_opens m).

(** *** Properties *)

Inductive Op := Acquire (now : N) | Release (id : string) (now : N)
  | MarkFailed (id error : string) (now : N) | CircuitFailure (now : N)
  | Recover (now : N) | Prune (now : N).

Definition step (m : ConnectionPoolManager) (o : Op) : ConnectionPoolManager :=
  match o with
  | Acquire now => (acquire m now).2
  | Release id now => (release m id now).2
  | MarkFailed id e now => mark_failed m id e now
  | CircuitFailure now => record_circuit_failure m now
  | Recover now => (check_circuit_recovery m now).2
  | Prune now => (prune_unhealthy m now).2
  end.

Definition run (p : PoolBackpressurePolicy) (ops : list Op) : ConnectionPoolManager :=
  foldl step (new p) ops.

(** Slots have the names of different counter values, and no more slots exist than the
    policy allows. *)
Record pool_ok (p : PoolBackpressurePolicy) (m : ConnectionPoolManager) : Prop := {
  ok_policy : policy m = p;
  ok_ids : NoDup (map connection_id (connections m));
  ok_named : ∀ c, c ∈ connections m → ∃ k, connection_id c = slot_name k ∧ k <= connection_counter m;
  ok_size : (length (connections m) <= Nat.max (min_pool_size p) (max_pool_size p))%nat;
}.

Lemma slot_name_inj j k : slot_name j = slot_name k → j = k.
Proof. unfold slot_name. intros H. apply Dec.to_string_inj. by injection H. Qed.

Lemma update_first_ids q f l x l' : (∀ c, connection_id (f c) = connection_id c) →
  update_first q f l = Some (x, l') →
  map connection_id l' = map connection_id l ∧
  ∃ c l1 l2, l = l1 ++ c :: l2 ∧ l' = l1 ++ f c :: l2 ∧ x = f c ∧ q c = true.
Proof.
  intros Hf. revert l'. induction l as [|c l IH]; intros l'; cbn [update_first]; [done|].
  destruct (q c) eqn:Hq.
  - intros [= <- <-]. cbn. rewrite Hf. split; [done|]. by exists c, [], l.
  - destruct (update_first q f l) as [[y l2]|]; [|done]. intros [= <- <-].
    destruct (IH l2 eq_refl) as (E & d & l1 & l3 & -> & -> & -> & Hd). cbn. rewrite E.
    split; [done|]. by exists d, (c :: l1), l3.
Qed.

(** Only the list of connections and the counter matter to the invariant. *)
Lemma pool_ok_same p m m' : pool_ok p m → policy m' = policy m →
  map connection_id (connections m') = map connection_id (connections m) →
  connection_counter m' = connection_counter m → pool_ok p m'.
Proof.
  intros [Q1 Q2 Q3 Q4] Hp Hc Hk. constructor.
  - by rewrite Hp.
  - by rewrite Hc.
  - intros c Hin. rewrite Hk.
    assert (Hm : connection_id c ∈ map connection_id (connections m)).
    { rewrite <-Hc. apply list_elem_of_In, in_map, list_elem_of_In. done. }
    apply list_elem_of_In, in_map_iff in Hm as (d & Hd & Hin'). apply list_elem_of_In in Hin'.
    destruct (Q3 d Hin') as (k & E & Hle). exists k. by rewrite <-Hd.
  - by rewrite <-(length_map connection_id), Hc, length_map.
Qed.

Lemma pool_ok_update p m q f released x conns : pool_ok p m →
  (∀ c, connection_id (f c) = connection_id c) →
  update_first q f (connections m) = Some (x, conns) → pool_ok p (with_connections m conns released).
Proof.
  intros Hm Hf E. apply (pool_ok_same p m); [done|done| |done]. cbn.
  by apply (update_first_ids q f _ x).
Qed.

Lemma pool_ok_failure p m now : pool_ok p m → pool_ok p (record_circuit_failure m now).
Proof. intros Hm. by apply (pool_ok_same p m). Qed.

Lemma handed_out_fields m conns k :
  connections (handed_out m conns k) = conns ∧ policy (handed_out m conns k) = policy m ∧
  connection_counter (handed_out m conns k) = k.
Proof. unfold handed_out. by destruct (circuit_breaker m). Qed.

Lemma counter_next n : n < u64_max → saturating_add n 1 = n + 1.
Proof. unfold saturating_add. u64. Qed.

Lemma slot_fresh p m : pool_ok p m → connection_counter m < u64_max →
  slot_name (saturating_add (connection_counter m) 1) ∉ map connection_id (connections m).
Proof.
  intros Hm Hk Hin. apply list_elem_of_In, in_map_iff in Hin as (c & E & Hin).
  apply list_elem_of_In in Hin. destruct (ok_named p m Hm c Hin) as (k & Ek & Hle).
  pose proof (slot_name_inj _ _ (eq_trans (eq_sym E) Ek)) as Hn.
  rewrite (counter_next _ Hk) in Hn. lia.
Qed.

Lemma take_slot_ok p m busy now : pool_ok p m → connection_counter m < u64_max →
  pool_ok p (take_slot m busy now).2.
Proof.
  intros Hm Hk. unfold take_slot.
  destruct (update_first _ _ _) as [[c conns]|] eqn:E.
  { destruct (handed_out_fields m conns (connection_counter m)) as (Q1 & Q2 & Q3).
    apply (pool_ok_same p m); cbn [snd]; [done|done| |done]. rewrite Q1.
    eapply update_first_ids; [|exact E]. done. }
  destruct (Nat.ltb_spec (length (connections m)) (max_pool_size (policy m))) as [Hlt|]; cbn [snd].
  2:{ by apply (pool_ok_same p m). }
  pose proof (slot_fresh p m Hm Hk) as Hf. set (k := saturating_add (connection_counter m) 1) in *.
  set (conns := connections m ++ [_]).
  destruct (handed_out_fields m conns k) as (Q1 & Q2 & Q3). destruct Hm as [P1 P2 P3 P4].
  constructor; [by rewrite Q2|rewrite Q1|rewrite Q1, Q3|rewrite Q1].
  - unfold conns. rewrite map_app. cbn. apply NoDup_app. split; [done|]. split.
    + intros x Hx ->%list_elem_of_singleton. done.
    + apply NoDup_singleton.
  - unfold conns. intros c [Hin|Hin]%elem_of_app.
    + destruct (P3 c Hin) as (j & E1 & Hj). exists j. split; [done|].
      unfold k. rewrite (counter_next _ Hk). lia.
    + apply list_elem_of_singleton in Hin as ->. exists k. by split.
  - unfold conns. rewrite length_app. cbn. rewrite P1 in Hlt. lia.
Qed.

Lemma pool_acquire_ok p m now : pool_ok p m → connection_counter m < u64_max →
  pool_ok p (acquire m now).2.
Proof.
  intros Hm Hk. unfold acquire. destruct (record_request _ _ now) as [storm d].
  assert (Hd : pool_ok p (set_storm m d)) by (by apply (pool_ok_same p m)).
  destruct (_ && _); [by apply (pool_ok_same p m)|].
  destruct (circuit_breaker _) as [|at_ n|].
  - by apply take_slot_ok.
  - destruct (_ <? _); [by apply (pool_ok_same p m)|]. apply take_slot_ok; [|done].
    by apply (pool_ok_same p m).
  - by apply take_slot_ok.
Qed.

Lemma filter_ids q l : NoDup (map connection_id l) → NoDup (map connection_id (List.filter q l)).
Proof.
  induction l as [|c l IH]; [done|]. cbn. intros [Hc Hl]%NoDup_cons. destruct (q c); [|by apply IH].
  cbn. apply NoDup_cons. split; [|by apply IH]. intros Hin. apply Hc.
  apply list_elem_of_In, in_map_iff in Hin as (d & E & [Hd _]%filter_In).
  rewrite <-E. apply list_elem_of_In. by apply in_map.
Qed.

Lemma pool_step_ok p m o : pool_ok p m → connection_counter m < u64_max → pool_ok p (step m o).
Proof.
  intros Hm Hk. destruct o as [now|id now|id e now|now|now|now]; cbn [step].
  - by apply pool_acquire_ok.
  - unfold release. destruct (update_first _ _ _) as [[c conns]|] eqn:E; [|done].
    cbn [snd]. eapply pool_ok_update; [done| |exact E]. done.
  - unfold mark_failed. destruct (update_first _ _ _) as [[c conns]|] eqn:E; [|done].
    apply pool_ok_failure. eapply pool_ok_update; [done| |exact E]. done.
  - by apply pool_ok_failure.
  - unfold check_circuit_recovery. destruct (circuit_breaker m); try done.
    destruct (_ <=? _); [|done]. by apply (pool_ok_same p m).
  - unfold prune_unhealthy. destruct Hm as [P1 P2 P3 P4]. cbn [snd]. constructor; cbn; [done| | |].
    + by apply filter_ids.
    + intros c Hin. apply P3. apply list_elem_of_In. by apply list_elem_of_In, filter_In in Hin as [? _].
    + etransitivity; [apply List.filter_length_le|done].
Qed.

Lemma new_ok p : pool_ok p (new p).
Proof.
  constructor; [done| | |]; unfold new; cbn [connections connection_counter].
  - rewrite map_map. cbn. apply NoDup_fmap_2_strong; [|apply NoDup_seq].
    intros i j _ _ E%slot_name_inj. lia.
  - intros c Hin. apply list_elem_of_In, in_map_iff in Hin as (i & <- & Hi).
    apply in_seq in Hi. exists (N.of_nat i + 1). split; [done|lia].
  - rewrite length_map, length_seq. lia.
Qed.

(** The counter of slot names never reaches its end along the run. *)
Definition counter_fits (p : PoolBackpressurePolicy) (ops : list Op) : Prop :=
  ∀ n, (n <= length ops)%nat → connection_counter (run p (take n ops)) < u64_max.

Lemma pool_run_ok p ops : counter_fits p ops → pool_ok p (run p ops).
Proof.
  induction ops as [|o ops IH] using rev_ind; intros Hf; [apply new_ok|].
  unfold run. rewrite foldl_app. cbn [foldl]. apply pool_step_ok.
  - apply IH. intros n Hn. specialize (Hf n). rewrite length_app in Hf.
    rewrite take_app_le in Hf by done. apply Hf. lia.
  - specialize (Hf (length ops)). rewrite take_app_length in Hf. apply Hf. rewrite length_app. lia.
Qed.

Definition holds (m : ConnectionPoolManager) (id : string) : Prop :=
  ∃ c, c ∈ connections m ∧ connection_id c = id ∧ state c = Active.

Lemma nodup_id m c d p : pool_ok p m → c ∈ connections m → d ∈ connections m →
  connection_id c = connection_id d → c = d.
Proof.
  intros Hm Hc Hd E. apply list_elem_of_lookup_1 in Hc as [i Hi].
  apply list_elem_of_lookup_1 in Hd as [j Hj].
  assert (i = j) as ->; [|by rewrite Hi in Hj; simplify_eq].
  eapply (NoDup_lookup (map connection_id (connections m)) i j (connection_id c)); [apply Hm| |].
  - change (map connection_id ?l) with (connection_id <$> l). by rewrite list_lookup_fmap, Hi.
  - change (map connection_id ?l) with (connection_id <$> l). by rewrite list_lookup_fmap, Hj, E.
Qed.

Lemma take_slot_exclusive p m busy now id m' : pool_ok p m → connection_counter m < u64_max →
  take_slot m busy now = (Ok id, m') → ¬ holds m id ∧ holds m' id.
Proof.
  intros Hm Hk. unfold take_slot. destruct (update_first _ _ _) as [[c conns]|] eqn:E.
  - intros [= <- <-]. destruct (handed_out_fields m conns (connection_counter m)) as (Q1 & _ & _).
    destruct (update_first_ids _ (mark_active now) _ _ _ (fun c => eq_refl) E) as (_ & d & l1 & l2 & El & El' & -> & Hq).
    apply andb_prop in Hq as [Hi%bool_decide_eq_true _]. unfold holds. rewrite Q1. split.
    + intros (x & Hx & Ex & Hs). assert (x = d) as ->.
      { eapply nodup_id; [done|done| |done]. rewrite El. set_solver. }
      congruence.
    + exists (mark_active now d). rewrite El'. split; [set_solver|done].
  - destruct (Nat.ltb _ _); [|done]. intros [= <- <-]. unfold holds.
    set (k := saturating_add _ 1). set (conns := connections m ++ [_]).
    destruct (handed_out_fields m conns k) as (Q1 & _ & _). rewrite Q1. split.
    + intros (x & Hx & Ex & _). apply (slot_fresh p m Hm Hk). fold k. rewrite <-Ex.
      apply list_elem_of_In, in_map, list_elem_of_In. done.
    + eexists. split; [apply elem_of_app; right; by apply list_elem_of_singleton|done].
Qed.

(** The pool hands a connection to one holder at a time: after any sequence of
    operations, the connection that [acquire] returns was not active before and is
    active afterwards, no other connection has its name, and the pool never holds
    more connections than its policy allows. *)
Theorem pool_hands_out_exclusively p ops now id m' :
  counter_fits p ops → acquire (run p ops) now = (Ok id, m') →
  ¬ holds (run p ops) id ∧ holds m' id ∧ NoDup (map connection_id (connections m')) ∧
  (length (connections m') <= Nat.max (min_pool_size p) (max_pool_size p))%nat.
Proof.
  intros Hf Ha. pose proof (pool_run_ok p ops Hf) as Hm.
  assert (Hk : connection_counter (run p ops) < u64_max).
  { specialize (Hf (length ops)). rewrite firstn_all in Hf. by apply Hf. }
  pose proof (pool_acquire_ok p (run p ops) now Hm Hk) as Hm'. rewrite Ha in Hm'. cbn in Hm'.
  assert (Hh : ¬ holds (run p ops) id ∧ holds m' id).
  { revert Ha. unfold acquire. destruct (record_request _ _ now) as [storm d].
    destruct (_ && _); [done|].
    destruct (circuit_breaker _) as [|at_ n|]; [|destruct (_ <? _); [done|]|]; intros Ht;
      eapply take_slot_exclusive in Ht; try done; by apply (pool_ok_same p (run p ops)). }
  split; [apply Hh|]. split; [apply Hh|]. split; apply Hm'.
Qed.

Definition small_policy : PoolBackpressurePolicy := mkPolicy 2 1 5000 60000 200 10 30000 1000 500.

Lemma pool_hands_out_exclusively_witness :
  ¬ holds (run small_policy [Acquire 10]) "conn-2" ∧
  holds (acquire (run small_policy [Acquire 10]) 20).2 "conn-2".
Proof.
  destruct (pool_hands_out_exclusively small_policy [Acquire 10] 20 "conn-2"
              (acquire (run small_policy [Acquire 10]) 20).2) as (Q1 & Q2 & _).
  - intros n Hn. destruct n as [|[|n]]; [reflexivity|reflexivity|cbn in Hn; lia].
  - reflexivity.
  - by split.
Defined.

(** Connections past their idle time keep their slots: a pool without any active
    connection refuses as exhausted. *)
Lemma stale_slots_exhaust_pool :
  (acquire (run small_policy [Acquire 10; Acquire 11; Release "conn-1" 12; Release "conn-2" 12])
     100000).1 = Err (PoolExhausted 0 2).
Proof. vm_compute. reflexivity. Qed.

(** Failures count up to the threshold although successful uses lie between them, and a
    failed connection that is released is handed out again. *)
Lemma failures_not_consecutive :
  let p := mkPolicy 5 1 5000 60000 200 2 30000 1000 500 in
  circuit_breaker_state_str (run p
    [Acquire 1; MarkFailed "conn-1" "e" 2; Acquire 3; Release "conn-2" 4; Acquire 5;
     Release "conn-2" 6; Acquire 7; MarkFailed "conn-2" "e" 8]) = "open".
Proof. vm_compute. reflexivity. Qed.

Lemma released_failure_reused :
  (acquire (run small_policy [Acquire 1; MarkFailed "conn-1" "reset" 2; Release "conn-1" 3]) 4).1
  = Ok "conn-1".
Proof. vm_compute. reflexivity. Qed.

(** Pruning drops a connection that is in use and has been active past the idle time. *)
Lemma prune_drops_active :
  holds (run small_policy [Acquire 0]) "conn-1" ∧
  connections (run small_policy [Acquire 0; Prune 70000]) = [].
Proof.
  split; [|vm_compute; reflexivity]. eexists.
  split; [apply list_elem_of_here|]. split; vm_compute; reflexivity.
Qed.

(** A half-open breaker closes when a connection is handed out, before it was used. *)
Lemma half_open_closes_untested :
  let p := mkPolicy 5 1 5000 60000 200 1 1000 1000 500 in
  circuit_breaker_state_str (run p [Acquire 1; MarkFailed "conn-1" "e" 2]) = "open" ∧
  circuit_breaker_state_str (run p [Acquire 1; MarkFailed "conn-1" "e" 2; Acquire 2000]) = "closed".
Proof. split; vm_compute; reflexivity. Qed.

End Pool.
