(* ===== verification/DriverNative.v ===== *)
(** * The native protocol of the Rust driver ([drivers/voltnuerongrid-driver-rust/src/lib.rs])

    REST requests, native frames and their checks, the length-prefixed exchange on a
    socket, the pool of TCP streams and persistent sessions.  The generated
    serialisation of a frame is the class [NativeFrameCodec]; a socket is the bytes
    written to it and the bytes waiting to be read, the server a function that says
    which bytes it adds for a request, and each socket call reports its failure
    through an argument. *)

From S2P Require Import Prelude Str Decimal Bytes Json Driver.
From Stdlib Require Import Ascii.
Import Driver.
Local Open Scope string_scope.
Local Open Scope list_scope.
Local Open Scope N_scope.
Local Open Scope vng_scope.

(** ** REST requests *)

Module Rest.
Section Rest.
Context {F : Type} `{!Json.JsonText F}.

Record DriverRequest := mkRequest {
  method : string;
  url : string;
  headers : gmap string string;
  body_json : string;
}.

Definition opt_header (name : string) (v : option string) (m : gmap string string)
    : gmap string string :=
  match v with Some x => <[name := x]> m | None => m end.

Definition rest_headers_map (c : DriverConfig) : gmap string string :=
  opt_header "x-vng-operator-id" (operator_id c)
    (opt_header "x-vng-admin-key" (admin_api_key c)
      (opt_header "x-vng-route-hint" (route_hint c)
        (opt_header "x-vng-user-id" (user_id c)
          (opt_header "x-vng-tenant-id" (tenant_id c)
            (<["x-vng-session-id" := session_id c]>
              (<["content-type" := "application/json"]> ∅)))))).

Definition build_json_get (c : DriverConfig) (path : string) : DriverResult DriverRequest :=
  let? base := http_rest_base_url c in
  Ok (mkRequest "GET" (Str.trim_end_matches ["/"] base +:+ path) (rest_headers_map c) "").

Definition build_json_post (c : DriverConfig) (path : string) (body : Json.Value F)
    : DriverResult DriverRequest :=
  let? base := http_rest_base_url c in
  Ok (mkRequest "POST" (Str.trim_end_matches ["/"] base +:+ path) (rest_headers_map c)
        (Json.to_string body)).

Definition build_sql_execute_request (c : DriverConfig) (sql_batch : string) (max_rows : option nat)
    : DriverResult DriverRequest :=
  if blank sql_batch then Err (validation "sql_batch must not be empty")
  else build_json_post c "/api/v1/sql/execute"
         (Json.object [("sql_batch", Json.of_string sql_batch);
                         ("max_rows", Json.of_option (Json.of_usize) max_rows)]).

Definition build_sql_analyze_request (c : DriverConfig) (sql_batch : string)
    : DriverResult DriverRequest :=
  if blank sql_batch then Err (validation "sql_batch must not be empty")
  else build_json_post c "/api/v1/sql/analyze" (Json.object [("sql_batch", Json.of_string sql_batch)]).

Definition build_sql_route_request (c : DriverConfig) (sql_batch : string)
    : DriverResult DriverRequest :=
  if blank sql_batch then Err (validation "sql_batch must not be empty")
  else build_json_post c "/api/v1/sql/route" (Json.object [("sql_batch", Json.of_string sql_batch)]).

Definition build_sql_transaction_request (c : DriverConfig) (statements : list string)
    : DriverResult DriverRequest :=
  match statements with
  | [] => Err (validation "statements must not be empty")
  | _ => build_json_post c "/api/v1/sql/transaction"
           (Json.object [("statements", Json.Array (map (Json.of_string) statements))])
  end.

Definition build_health_request (c : DriverConfig) : DriverResult DriverRequest :=
  build_json_get c "/health".

Definition build_schema_registry_request (c : DriverConfig) : DriverResult DriverRequest :=
  build_json_get c "/api/v1/ingest/schema/registry".

Definition build_authorize_action_request (c : DriverConfig) (action : string)
    (scope : option string) : DriverResult DriverRequest :=
  if blank action then Err (validation "action must not be empty")
  else build_json_post c "/api/v1/autonomous/actions/authorize"
         (Json.object [("action", Json.of_string action);
                         ("scope", Json.of_option (Json.of_string) scope)]).

End Rest.
End Rest.

(** ** Frames *)

Module Frames.

Inductive NativeFrameType :=
| Hello | HelloAck | FAuth | AuthAck | Command | FResult | FError | Ping | Pong
| StreamChunk | StreamEnd | Cancel | Goodbye.

#[export] Instance NativeFrameType_eq_dec : EqDecision NativeFrameType.
Proof. solve_decision. Defined.

(** [{:?}] *)
Definition frame_type_debug (t : NativeFrameType) : string :=
  match t with
  | Hello => "Hello" | HelloAck => "HelloAck" | FAuth => "Auth" | AuthAck => "AuthAck"
  | Command => "Command" | FResult => "Result" | FError => "Error" | Ping => "Ping"
  | Pong => "Pong" | StreamChunk => "StreamChunk" | StreamEnd => "StreamEnd"
  | Cancel => "Cancel" | Goodbye => "Goodbye"
  end.

Inductive NativeAuthMode := Admin | Operator | Tenant.

Record NativeFrame {F : Type} := mkFrame {
  frame_type : NativeFrameType;
  protocol_version : string;
  frame_request_id : string;
  frame_session_id : option string;
  payload : Json.Value F;
}.
Arguments NativeFrame : clear implicits.

Record NativeHandshakeState := mkHandshake {
  hs_session_id : string;
  hs_protocol_version : string;
  hs_mode : NativeAuthMode;
}.

(** The serialisation of a frame to bytes and back, with the parser's message *)
Class NativeFrameCodec (F : Type) := {
  to_vec : NativeFrame F -> string;
  from_slice : string -> result (NativeFrame F) string;
}.

Class NativeFrameCodecLaws (F : Type) `{!NativeFrameCodec F} := {
  from_to_vec : ∀ f, from_slice (to_vec f) = Ok f;
}.

Section Frames.
Context {F : Type} `{!NativeFrameCodec F}.
Implicit Types (c : DriverConfig) (f : NativeFrame F).

Definition encode f : DriverResult string := Ok (to_vec f).

Definition decode (bytes : string) : DriverResult (NativeFrame F) :=
  match from_slice bytes with
  | Ok f => Ok f
  | Err e => Err (serialization ("native frame decode failed: " +:+ e))
  end.

Definition NATIVE_PROTOCOL_ID : string := "vng-native".
Definition NATIVE_PROTOCOL_VERSION : string := "v1".

Definition native_auth_mode c : NativeAuthMode :=
  if bool_decide (is_Some (tenant_id c)) && bool_decide (is_Some (user_id c)) then Tenant
  else if bool_decide (is_Some (operator_id c)) then Operator
  else Admin.

Definition build_native_hello_frame c (rid : string) : DriverResult (NativeFrame F) :=
  if blank rid then Err (validation "request_id must not be empty for native HELLO frame")
  else Ok (mkFrame F Hello NATIVE_PROTOCOL_VERSION rid None
             (Json.object
                [("protocol", Json.of_string NATIVE_PROTOCOL_ID);
                 ("version", Json.of_string NATIVE_PROTOCOL_VERSION);
                 ("capabilities", Json.Array (map Json.of_string ["json_payload"; "streaming"; "cancel"]));
                 ("session_id", Json.of_string (session_id c))])).

Definition auth_payload c (admin_key : string) : Json.Value F :=
  match native_auth_mode c with
  | Admin => Json.object [("mode", Json.of_string "admin"); ("admin_api_key", Json.of_string admin_key)]
  | Operator =>
      Json.object [("mode", Json.of_string "operator"); ("admin_api_key", Json.of_string admin_key);
                   ("operator_id", Json.of_option Json.of_string (operator_id c))]
  | Tenant =>
      Json.object [("mode", Json.of_string "tenant"); ("admin_api_key", Json.of_string admin_key);
                   ("tenant_id", Json.of_option Json.of_string (tenant_id c));
                   ("user_id", Json.of_option Json.of_string (user_id c))]
  end.

Definition build_native_auth_frame c (rid : string) : DriverResult (NativeFrame F) :=
  if blank rid then Err (validation "request_id must not be empty for native AUTH frame")
  else
    match admin_api_key c with
    | None => Err (validation "admin_api_key is required for native auth in admin/operator mode")
    | Some key => Ok (mkFrame F FAuth NATIVE_PROTOCOL_VERSION rid (Some (session_id c)) (auth_payload c key))
    end.

Definition as_bool (v : Json.Value F) : option bool :=
  match v with Json.Bool b => Some b | _ => None end.

Definition complete_native_handshake c (hello_ack auth_ack : NativeFrame F)
    : DriverResult NativeHandshakeState :=
  if negb (bool_decide (frame_type hello_ack = HelloAck))
  then Err (transport ("expected HELLO_ACK, got " +:+ frame_type_debug (frame_type hello_ack)))
  else if negb (bool_decide (frame_type auth_ack = AuthAck))
  then Err (transport ("expected AUTH_ACK, got " +:+ frame_type_debug (frame_type auth_ack)))
  else if negb (default false (Json.get "accepted" (payload auth_ack) ≫= as_bool))
  then Err (transport "native auth rejected by server AUTH_ACK")
  else Ok (mkHandshake (session_id c)
             (default NATIVE_PROTOCOL_VERSION (Json.get "version" (payload hello_ack) ≫= Json.as_str))
             (native_auth_mode c)).

Definition command_frame c (rid : string) (kvs : list (string * Json.Value F)) : NativeFrame F :=
  mkFrame F Command NATIVE_PROTOCOL_VERSION rid (Some (session_id c)) (Json.object kvs).

Definition build_native_health_command_frame c (rid : string) : DriverResult (NativeFrame F) :=
  if blank rid then Err (validation "request_id must not be empty for native health COMMAND frame")
  else Ok (command_frame c rid [("command", Json.of_string "health")]).

Definition build_native_sql_execute_command_frame c (rid sql_batch : string) (max_rows : option nat)
    : DriverResult (NativeFrame F) :=
  if blank rid then Err (validation "request_id must not be empty for native sql.execute COMMAND frame")
  else if blank sql_batch
  then Err (validation "sql_batch must not be empty for native sql.execute COMMAND frame")
  else Ok (command_frame c rid
             [("command", Json.of_string "sql.execute"); ("sql_batch", Json.of_string sql_batch);
              ("max_rows", Json.of_option Json.of_usize max_rows)]).

Definition build_native_sql_analyze_command_frame c (rid sql_batch : string)
    : DriverResult (NativeFrame F) :=
  if blank rid then Err (validation "request_id must not be empty for native sql.analyze COMMAND frame")
  else if blank sql_batch
  then Err (validation "sql_batch must not be empty for native sql.analyze COMMAND frame")
  else Ok (command_frame c rid
             [("command", Json.of_string "sql.analyze"); ("sql_batch", Json.of_string sql_batch)]).

Definition build_native_sql_route_command_frame c (rid sql_batch : string)
    : DriverResult (NativeFrame F) :=
  if blank rid then Err (validation "request_id must not be empty for native sql.route COMMAND frame")
  else if blank sql_batch
  then Err (validation "sql_batch must not be empty for native sql.route COMMAND frame")
  else Ok (command_frame c rid
             [("command", Json.of_string "sql.route"); ("sql_batch", Json.of_string sql_batch)]).

(** *** The loopback transport *)

Definition loopback_health (f : NativeFrame F) : NativeFrame F :=
  mkFrame F FResult (protocol_version f) (frame_request_id f) (frame_session_id f)
    (Json.object [("status", Json.of_string "ok"); ("node_id", Json.of_string "loopback-node-1");
                  ("cluster_mode", Json.of_string "single")]).

(** [DefaultNativeLoopbackResponder::handle_frame] *)
Definition handle_frame f : DriverResult (NativeFrame F) :=
  if negb (bool_decide (frame_type f = Command))
  then Err (transport ("loopback responder expected COMMAND frame, got "
                       +:+ frame_type_debug (frame_type f)))
  else
    match Json.get "command" (payload f) ≫= Json.as_str with
    | None => Err (serialization "missing command field in payload")
    | Some command =>
        if String.eqb command "health" then Ok (loopback_health f)
        else Ok (mkFrame F FError (protocol_version f) (frame_request_id f) (frame_session_id f)
                   (Json.object [("kind", Json.of_string "protocol");
                                 ("message", Json.of_string ("unsupported loopback command: " +:+ command))]))
    end.

(** [LoopbackNativeTransport::send_frame] *)
Definition loopback_send (responder : NativeFrame F -> DriverResult (NativeFrame F)) f
    : DriverResult (NativeFrame F) :=
  let? encoded_request := encode f in
  let? decoded_request := decode encoded_request in
  let? response := responder decoded_request in
  let? encoded_response := encode response in
  decode encoded_response.

(** The check that [execute_native_command_roundtrip] and
    [execute_native_command_in_session] make of a response *)
Definition expect_result (prefix : string) (response : NativeFrame F) : DriverResult (NativeFrame F) :=
  if bool_decide (frame_type response = FResult) then Ok response
  else Err (transport (prefix +:+ ", got " +:+ frame_type_debug (frame_type response))).

End Frames.
End Frames.

(** ** Sockets *)

Module Socket.
Import Frames Bytes.

Inductive ErrorKind :=
| TimedOut | Interrupted | ConnectionRefused | ConnectionReset | ConnectionAborted | BrokenPipe
| WouldBlock | UnexpectedEof | OtherKind.

Record IoError := mkIo { io_kind : ErrorKind; io_text : string }.

Definition map_socket_error (context : string) (err : IoError) : DriverError :=
  match io_kind err with
  | TimedOut => timeout (context +:+ ": socket timeout (" +:+ io_text err +:+ ")")
  | Interrupted =>
      cancelled (context +:+ ": socket operation cancelled/interrupted (" +:+ io_text err +:+ ")")
  | ConnectionRefused =>
      transport (context +:+ ": connection refused (" +:+ io_text err +:+ ") [retryable=true]")
  | ConnectionReset | ConnectionAborted | BrokenPipe =>
      transport (context +:+ ": connection reset/aborted (" +:+ io_text err +:+ ") [retryable=true]")
  | _ => transport (context +:+ ": socket error (" +:+ io_text err +:+ ")")
  end.

(** The bytes written so far and the bytes that wait to be read *)
Record TcpStream := mkStream { sent : string; inbox : string }.

Inductive Peek := Waiting (n : N) | PeekError (k : ErrorKind).

(** What the operating system and the server do during one call *)
Record SocketEnv := mkEnv {
  resolve : result (list string) IoError;
  connect : string -> result TcpStream IoError;
  set_read_timeout : option IoError;
  set_write_timeout : option IoError;
  write_length_error : option IoError;
  write_payload_error : option IoError;
  short_read : IoError;
  peek : TcpStream -> Peek;
  answer : string -> string -> string;
}.

Definition frame_bytes (payload : string) : string :=
  be 4 (N.of_nat (String.length payload)) +:+ payload.

Definition write_framed (env : SocketEnv) (s : TcpStream) (payload : string)
    : DriverResult unit * TcpStream :=
  if 4294967295 <? N.of_nat (String.length payload)
  then (Err (serialization "native frame payload exceeds u32 length prefix"), s)
  else
    match write_length_error env, write_payload_error env with
    | Some e, _ => (Err (map_socket_error "failed to write native frame length" e), s)
    | None, Some e =>
        (Err (map_socket_error "failed to write native frame payload" e),
         mkStream (sent s +:+ be 4 (N.of_nat (String.length payload))) (inbox s))
    | None, None => (Ok tt, mkStream (sent s +:+ frame_bytes payload)
                              (inbox s +:+ answer env (sent s) (frame_bytes payload)))
    end.

(** [read_exact]: a shortage leaves nothing to read *)
Definition read_exact (env : SocketEnv) (s : TcpStream) (n : nat)
    : result string IoError * TcpStream :=
  if Nat.leb n (String.length (inbox s))
  then (Ok (String.substring 0 n (inbox s)),
        mkStream (sent s) (String.substring n (String.length (inbox s) - n) (inbox s)))
  else (Err (short_read env), mkStream (sent s) "").

Definition read_framed (env : SocketEnv) (s : TcpStream) : DriverResult string * TcpStream :=
  match read_exact env s 4 with
  | (Err e, s1) => (Err (map_socket_error "failed to read native frame length" e), s1)
  | (Ok len_buf, s1) =>
      match read_exact env s1 (N.to_nat (from_be len_buf)) with
      | (Err e, s2) => (Err (map_socket_error "failed to read native frame payload" e), s2)
      | (Ok payload, s2) => (Ok payload, s2)
      end
  end.

(** *** The pool of streams *)

Record NativeConnectionPool := mkPool {
  p_endpoint : string;
  p_connect_timeout_ms : N;
  max_idle : nat;
  max_size : nat;
  idle : list TcpStream;
  in_use : N;
}.

Definition pool_new (endpoint : string) (timeout_ms : N) (max_idle max_size : nat)
    : NativeConnectionPool := mkPool endpoint timeout_ms max_idle max_size [] 0.

Definition set_idle (p : NativeConnectionPool) (l : list TcpStream) : NativeConnectionPool :=
  mkPool (p_endpoint p) (p_connect_timeout_ms p) (max_idle p) (max_size p) l (in_use p).

Definition set_in_use (p : NativeConnectionPool) (n : N) : NativeConnectionPool :=
  mkPool (p_endpoint p) (p_connect_timeout_ms p) (max_idle p) (max_size p) (idle p) n.

Record PooledNativeConnection := mkPooled { stream : option TcpStream; returned : bool }.

Definition alive (r : Peek) : bool :=
  match r with
  | PeekError WouldBlock | PeekError TimedOut => true
  | PeekError _ => false
  | Waiting n => 0 <? n
  end.

(** The handle of a stream that [get] returns *)
Definition checked_out (s : TcpStream) : PooledNativeConnection := mkPooled (Some s) false.

(** The first idle stream that is alive; dead ones before it are closed. *)
Fixpoint pop_alive (peek : TcpStream -> Peek) (l : list TcpStream)
    : option TcpStream * list TcpStream :=
  match l with
  | [] => (None, [])
  | s :: l' => if alive (peek s) then (Some s, l') else pop_alive peek l'
  end.

Definition check_capacity (p : NativeConnectionPool) : bool := in_use p <? N.of_nat (max_size p).

Definition opened (p : NativeConnectionPool) : NativeConnectionPool :=
  set_in_use p (u64_add (in_use p) 1).

Definition open_pooled (env : SocketEnv) (p : NativeConnectionPool) : DriverResult TcpStream :=
  match resolve env with
  | Err e => Err (transport ("pool resolve " +:+ p_endpoint p +:+ ": " +:+ io_text e))
  | Ok [] => Err (transport ("pool: no address resolved for " +:+ p_endpoint p))
  | Ok (addr :: _) =>
      match connect env addr with
      | Err e => Err (transport ("pool connect " +:+ p_endpoint p +:+ ": " +:+ io_text e))
      | Ok s => Ok s
      end
  end.

Definition pool_get (env : SocketEnv) (p : NativeConnectionPool)
    : DriverResult TcpStream * NativeConnectionPool :=
  match pop_alive (peek env) (idle p) with
  | (Some s, l) => (Ok s, opened (set_idle p l))
  | (None, l) =>
      let p1 := set_idle p l in
      if negb (check_capacity p1)
      then (Err (transport ("connection pool at max capacity (" +:+ Dec.to_string (N.of_nat (max_size p))
                            +:+ ")")), p1)
      else
        match open_pooled env p1 with
        | Err e => (Err e, p1)
        | Ok s => (Ok s, opened p1)
        end
  end.

Definition conn_drop (p : NativeConnectionPool) (h : PooledNativeConnection) : NativeConnectionPool :=
  if returned h then p
  else
    let p1 := set_in_use p (u64_wrapping_sub (in_use p) 1) in
    match stream h with
    | Some s => if Nat.ltb (length (idle p1)) (max_idle p1) then set_idle p1 (idle p1 ++ [s]) else p1
    | None => p1
    end.

Definition invalidate (p : NativeConnectionPool) (h : PooledNativeConnection)
    : NativeConnectionPool * PooledNativeConnection :=
  if returned h then (p, h)
  else (set_in_use p (u64_wrapping_sub (in_use p) 1), mkPooled None true).

(** *** The socket transport *)

Record SocketNativeTransport := mkTransport {
  endpoint : string;
  connect_timeout_ms : N;
  pool : option NativeConnectionPool;
}.

Definition transport_new (ep : string) (timeout_ms : N) : DriverResult SocketNativeTransport :=
  if blank ep then Err (validation "native socket endpoint must not be empty")
  else if timeout_ms =? 0 then Err (validation "native socket connect_timeout_ms must be >= 1")
  else Ok (mkTransport ep timeout_ms None).

Definition with_pool (ep : string) (timeout_ms : N) (max_idle max_size : nat)
    : DriverResult SocketNativeTransport :=
  if blank ep then Err (validation "native socket endpoint must not be empty")
  else if timeout_ms =? 0 then Err (validation "native socket connect_timeout_ms must be >= 1")
  else Ok (mkTransport ep timeout_ms (Some (pool_new ep timeout_ms max_idle max_size))).

(** Resolve, connect and set the timeouts of a fresh stream *)
Definition open_stream (env : SocketEnv) (t : SocketNativeTransport) : DriverResult TcpStream :=
  match resolve env with
  | Err e => Err (map_socket_error ("failed to resolve native endpoint " +:+ endpoint t) e)
  | Ok [] => Err (transport ("no socket addresses resolved for " +:+ endpoint t))
  | Ok (addr :: _) =>
      match connect env addr with
      | Err e => Err (map_socket_error ("failed to connect native endpoint " +:+ endpoint t) e)
      | Ok s =>
          match set_read_timeout env, set_write_timeout env with
          | Some e, _ => Err (map_socket_error "failed to set read timeout" e)
          | None, Some e => Err (map_socket_error "failed to set write timeout" e)
          | None, None => Ok s
          end
      end
  end.

(** Write a request and read its response. *)
Definition exchange (env : SocketEnv) (s : TcpStream) (bytes : string)
    : DriverResult string * TcpStream :=
  match write_framed env s bytes with
  | (Err e, s1) => (Err e, s1)
  | (Ok _, s1) => read_framed env s1
  end.

Section Transport.
Context {F : Type} `{!NativeFrameCodec F}.
Implicit Types (c : DriverConfig) (f : NativeFrame F).

(** [send_frame] on a stream checked out of the pool *)
Definition send_pooled (env : SocketEnv) (p : NativeConnectionPool) (bytes : string)
    : DriverResult (NativeFrame F) * NativeConnectionPool :=
  match pool_get env p with
  | (Err e, p1) => (Err e, p1)
  | (Ok s, p1) =>
      match set_read_timeout env, set_write_timeout env with
      | Some e, _ =>
          (Err (map_socket_error "failed to set read timeout" e), conn_drop p1 (checked_out s))
      | None, Some e =>
          (Err (map_socket_error "failed to set write timeout" e), conn_drop p1 (checked_out s))
      | None, None =>
          match exchange env s bytes with
          | (Err e, s1) =>
              let (p2, conn) := invalidate p1 (checked_out s1) in (Err e, conn_drop p2 conn)
          | (Ok response, s1) => (decode response, conn_drop p1 (checked_out s1))
          end
      end
  end.

(** [SocketNativeTransport::send_frame] *)
Definition send_frame (env : SocketEnv) (t : SocketNativeTransport) f
    : DriverResult (NativeFrame F) * SocketNativeTransport :=
  match encode f with
  | Err e => (Err e, t)
  | Ok encoded =>
      match pool t with
      | Some p =>
          let (r, p') := send_pooled env p encoded in
          (r, mkTransport (endpoint t) (connect_timeout_ms t) (Some p'))
      | None =>
          ((let? s := open_stream env t in
            let? response := (exchange env s encoded).1 in
            decode response), t)
      end
  end.

(** *** Persistent sessions *)

Record PersistentNativeSession := mkSession {
  s_stream : TcpStream;
  s_session_id : string;
  s_protocol_version : string;
  s_mode : NativeAuthMode;
}.

(** Send a frame on a stream and read the next one. *)
Definition call (env : SocketEnv) (s : TcpStream) f : DriverResult (NativeFrame F) * TcpStream :=
  match encode f with
  | Err e => (Err e, s)
  | Ok bytes =>
      match exchange env s bytes with
      | (Err e, s1) => (Err e, s1)
      | (Ok response, s1) => (decode response, s1)
      end
  end.

Definition connect_with_handshake c (env : SocketEnv) (t : SocketNativeTransport)
    (hello_rid auth_rid : string) : DriverResult PersistentNativeSession :=
  let? s := open_stream env t in
  let? hello := build_native_hello_frame c hello_rid in
  match call env s hello with
  | (Err e, _) => Err e
  | (Ok hello_ack, s1) =>
      let? auth := build_native_auth_frame c auth_rid in
      match call env s1 auth with
      | (Err e, _) => Err e
      | (Ok auth_ack, s2) =>
          let? state := complete_native_handshake c hello_ack auth_ack in
          Ok (mkSession s2 (hs_session_id state) (hs_protocol_version state) (hs_mode state))
      end
  end.

Definition send_command_frame (env : SocketEnv) (ses : PersistentNativeSession) f
    : DriverResult (NativeFrame F) * PersistentNativeSession :=
  let (r, s) := call env (s_stream ses) f in
  (r, mkSession s (s_session_id ses) (s_protocol_version ses) (s_mode ses)).

Definition build_socket_native_transport c (timeout_ms : N) : DriverResult SocketNativeTransport :=
  let? ep := derive_native_socket_endpoint c in transport_new ep timeout_ms.

Definition open_persistent_native_session c (mode : DriverTransportMode) (env : SocketEnv)
    (timeout_ms : N) (hello_rid auth_rid : string) : DriverResult PersistentNativeSession :=
  match mode with
  | Native =>
      let? t := build_socket_native_transport c timeout_ms in
      connect_with_handshake c env t hello_rid auth_rid
  | _ => Err (validation "persistent native session requires explicit transportMode=native opt-in")
  end.

(** *** Commands *)

Definition execute_native_command_roundtrip (mode : DriverTransportMode)
    (send : NativeFrame F -> DriverResult (NativeFrame F)) f (mode_error prefix : string)
    : DriverResult (NativeFrame F) :=
  match mode with
  | Native => let? response := send f in expect_result prefix response
  | _ => Err (validation mode_error)
  end.

Definition execute_native_health_roundtrip c mode send (rid : string) : DriverResult (NativeFrame F) :=
  let? cmd := build_native_health_command_frame c rid in
  execute_native_command_roundtrip mode send cmd
    "native health roundtrip requires explicit transportMode=native opt-in"
    "native health roundtrip expected RESULT frame".

Definition execute_native_sql_execute_roundtrip c mode send (rid sql_batch : string)
    (max_rows : option nat) : DriverResult (NativeFrame F) :=
  let? cmd := build_native_sql_execute_command_frame c rid sql_batch max_rows in
  execute_native_command_roundtrip mode send cmd
    "native sql.execute roundtrip requires explicit transportMode=native opt-in"
    "native sql.execute roundtrip expected RESULT frame".

Definition execute_native_sql_analyze_roundtrip c mode send (rid sql_batch : string)
    : DriverResult (NativeFrame F) :=
  let? cmd := build_native_sql_analyze_command_frame c rid sql_batch in
  execute_native_command_roundtrip mode send cmd
    "native sql.analyze roundtrip requires explicit transportMode=native opt-in"
    "native sql.analyze roundtrip expected RESULT frame".

Definition execute_native_sql_route_roundtrip c mode send (rid sql_batch : string)
    : DriverResult (NativeFrame F) :=
  let? cmd := build_native_sql_route_command_frame c rid sql_batch in
  execute_native_command_roundtrip mode send cmd
    "native sql.route roundtrip requires explicit transportMode=native opt-in"
    "native sql.route roundtrip expected RESULT frame".

(** The [_socket] variants open a transport of their own. *)
Definition via_socket (env : SocketEnv) (t : SocketNativeTransport) (f : NativeFrame F)
    : DriverResult (NativeFrame F) := (send_frame env t f).1.

Definition execute_native_health_roundtrip_socket c mode env (timeout_ms : N) (rid : string)
    : DriverResult (NativeFrame F) :=
  let? t := build_socket_native_transport c timeout_ms in
  execute_native_health_roundtrip c mode (via_socket env t) rid.

Definition execute_native_sql_execute_roundtrip_socket c mode env (timeout_ms : N)
    (rid sql_batch : string) (max_rows : option nat) : DriverResult (NativeFrame F) :=
  let? t := build_socket_native_transport c timeout_ms in
  execute_native_sql_execute_roundtrip c mode (via_socket env t) rid sql_batch max_rows.

Definition execute_native_sql_analyze_roundtrip_socket c mode env (timeout_ms : N)
    (rid sql_batch : string) : DriverResult (NativeFrame F) :=
  let? t := build_socket_native_transport c timeout_ms in
  execute_native_sql_analyze_roundtrip c mode (via_socket env t) rid sql_batch.

Definition execute_native_sql_route_roundtrip_socket c mode env (timeout_ms : N)
    (rid sql_batch : string) : DriverResult (NativeFrame F) :=
  let? t := build_socket_native_transport c timeout_ms in
  execute_native_sql_route_roundtrip c mode (via_socket env t) rid sql_batch.

(** The [_in_session] variants, given the frame or the error of its builder *)
Definition execute_native_command_in_session (env : SocketEnv) (ses : PersistentNativeSession) f
    (prefix : string) : DriverResult (NativeFrame F) * PersistentNativeSession :=
  let (r, ses') := send_command_frame env ses f in
  ((let? response := r in expect_result prefix response), ses').

Definition in_session (env : SocketEnv) (ses : PersistentNativeSession)
    (built : DriverResult (NativeFrame F)) (prefix : string)
    : DriverResult (NativeFrame F) * PersistentNativeSession :=
  match built with
  | Err e => (Err e, ses)
  | Ok f => execute_native_command_in_session env ses f prefix
  end.

Definition execute_native_health_roundtrip_in_session c env ses (rid : string) :=
  in_session env ses (build_native_health_command_frame c rid)
    "native health roundtrip expected RESULT frame".

Definition execute_native_sql_execute_roundtrip_in_session c env ses (rid sql_batch : string)
    (max_rows : option nat) :=
  in_session env ses (build_native_sql_execute_command_frame c rid sql_batch max_rows)
    "native sql.execute roundtrip expected RESULT frame".

Definition execute_native_sql_analyze_roundtrip_in_session c env ses (rid sql_batch : string) :=
  in_session env ses (build_native_sql_analyze_command_frame c rid sql_batch)
    "native sql.analyze roundtrip expected RESULT frame".

Definition execute_native_sql_route_roundtrip_in_session c env ses (rid sql_batch : string) :=
  in_session env ses (build_native_sql_route_command_frame c rid sql_batch)
    "native sql.route roundtrip expected RESULT frame".

(** The [_with_optional_session] variants *)
Definition with_optional_session (ses : option PersistentNativeSession)
    (inside : PersistentNativeSession -> DriverResult (NativeFrame F) * PersistentNativeSession)
    (outside : DriverResult (NativeFrame F))
    : DriverResult (NativeFrame F) * option PersistentNativeSession :=
  match ses with
  | Some s => let (r, s') := inside s in (r, Some s')
  | None => (outside, None)
  end.

Definition execute_native_health_roundtrip_with_optional_session c mode env (timeout_ms : N) ses
    (rid : string) :=
  with_optional_session ses (fun s => execute_native_health_roundtrip_in_session c env s rid)
    (execute_native_health_roundtrip_socket c mode env timeout_ms rid).

Definition execute_native_sql_execute_roundtrip_with_optional_session c mode env (timeout_ms : N) ses
    (rid sql_batch : string) (max_rows : option nat) :=
  with_optional_session ses
    (fun s => execute_native_sql_execute_roundtrip_in_session c env s rid sql_batch max_rows)
    (execute_native_sql_execute_roundtrip_socket c mode env timeout_ms rid sql_batch max_rows).

Definition execute_native_sql_analyze_roundtrip_with_optional_session c mode env (timeout_ms : N) ses
    (rid sql_batch : string) :=
  with_optional_session ses
    (fun s => execute_native_sql_analyze_roundtrip_in_session c env s rid sql_batch)
    (execute_native_sql_analyze_roundtrip_socket c mode env timeout_ms rid sql_batch).

Definition execute_native_sql_route_roundtrip_with_optional_session c mode env (timeout_ms : N) ses
    (rid sql_batch : string) :=
  with_optional_session ses
    (fun s => execute_native_sql_route_roundtrip_in_session c env s rid sql_batch)
    (execute_native_sql_route_roundtrip_socket c mode env timeout_ms rid sql_batch).

End Transport.
(** *** Properties *)

Lemma read_exact_app env snt a b :
  read_exact env (mkStream snt (a +:+ b)) (String.length a) = (Ok a, mkStream snt b).
Proof.
  unfold read_exact. cbn [inbox sent]. rewrite Str.length_app_str.
  destruct (Nat.leb_spec (String.length a) (String.length a + String.length b)); [|lia].
  rewrite substring_app_head, substring_app_skip, Nat.add_sub_swap, Nat.sub_diag by lia. cbn.
  by rewrite substring_full.
Qed.

(** A written frame is read back whole, whatever follows it. *)
Lemma read_framed_frame env snt w rest : N.of_nat (String.length w) < 4294967296 →
  read_framed env (mkStream snt (frame_bytes w +:+ rest)) = (Ok w, mkStream snt rest).
Proof.
  intros Hw. unfold read_framed, frame_bytes. rewrite Str.app_assoc_str.
  pose proof (read_exact_app env snt (be 4 (N.of_nat (String.length w))) (w +:+ rest)) as E.
  rewrite length_be in E. rewrite E. rewrite from_be_be by done. rewrite Nat2N.id.
  by rewrite read_exact_app.
Qed.

Section Served.
Context {F : Type} `{!NativeFrameCodec F} `{!NativeFrameCodecLaws F}.
(** A server that answers every frame with one frame *)
Variable server : NativeFrame F -> NativeFrame F.

Definition fits (f : NativeFrame F) : Prop := N.of_nat (String.length (to_vec f)) < 4294967296.

Record serves (env : SocketEnv) : Prop := {
  sv_resolve : ∃ a l, resolve env = Ok (a :: l);
  sv_connect : ∀ a, connect env a = Ok (mkStream "" "");
  sv_read_timeout : set_read_timeout env = None;
  sv_write_timeout : set_write_timeout env = None;
  sv_write_length : write_length_error env = None;
  sv_write_payload : write_payload_error env = None;
  sv_answer : ∀ before f,
    answer env before (frame_bytes (to_vec f)) = frame_bytes (to_vec (server f));
}.

Lemma exchange_served env s f : serves env → inbox s = "" → fits f → fits (server f) →
  exchange env s (to_vec f)
  = (Ok (to_vec (server f)), mkStream (sent s +:+ frame_bytes (to_vec f)) "").
Proof.
  intros [_ _ _ _ Q1 Q2 Qa] Hs Hf Hr. unfold exchange, write_framed.
  destruct (N.ltb_spec 4294967295 (N.of_nat (String.length (to_vec f)))).
  { unfold fits in Hf. lia. }
  rewrite Q1, Q2, Hs, Qa. cbn [String.append].
  rewrite <-(Str.app_empty_r (frame_bytes (to_vec (server f)))).
  by apply read_framed_frame.
Qed.

Lemma decode_encoded f : decode (to_vec f) = Ok f.
Proof. unfold decode. by rewrite from_to_vec. Qed.

Lemma call_served env s f : serves env → inbox s = "" → fits f → fits (server f) →
  call env s f = (Ok (server f), mkStream (sent s +:+ frame_bytes (to_vec f)) "").
Proof.
  intros He Hs Hf Hr. unfold call, encode.
  by rewrite (exchange_served env s f He Hs Hf Hr), decode_encoded.
Qed.

(** Commands one after the other in a session *)
Fixpoint run_session (env : SocketEnv) (ses : PersistentNativeSession) (fs : list (NativeFrame F))
    : list (DriverResult (NativeFrame F)) * PersistentNativeSession :=
  match fs with
  | [] => ([], ses)
  | f :: fs' =>
      let (r, ses1) := send_command_frame env ses f in
      let (rs, ses2) := run_session env ses1 fs' in
      (r :: rs, ses2)
  end.

Lemma run_session_served env ses fs : serves env → inbox (s_stream ses) = "" →
  Forall (fun f => fits f ∧ fits (server f)) fs →
  (run_session env ses fs).1 = map (fun f => Ok (server f)) fs ∧
  inbox (s_stream (run_session env ses fs).2) = "".
Proof.
  intros He. revert ses. induction fs as [|f fs IH]; intros ses Hs Hf; [done|].
  apply Forall_cons in Hf as [[Hf Hr] Hfs]. cbn [run_session]. unfold send_command_frame.
  rewrite (call_served env _ f He Hs Hf Hr).
  set (ses1 := mkSession _ _ _ _). destruct (IH ses1 eq_refl Hfs) as [E1 E2].
  destruct (run_session env ses1 fs) as [rs ses2]. cbn in *. by rewrite E1.
Qed.

(** *** The pool between requests *)

Definition quiet (p : NativeConnectionPool) : Prop :=
  in_use p = 0 ∧ (1 <= max_size p)%nat ∧ Forall (fun s => inbox s = "") (idle p).

Lemma pop_alive_quiet pk l : Forall (fun s => inbox s = "") l →
  match pop_alive pk l with
  | (Some s, l') => inbox s = "" ∧ Forall (fun s => inbox s = "") l'
  | (None, l') => l' = []
  end.
Proof.
  induction 1 as [|s l Hs Hl IH]; cbn; [done|]. by destruct (alive (pk s)).
Qed.

Lemma pool_get_quiet env p : serves env → quiet p →
  ∃ s p', pool_get env p = (Ok s, p') ∧ inbox s = "" ∧ in_use p' = 1 ∧
    max_size p' = max_size p ∧ Forall (fun s => inbox s = "") (idle p').
Proof.
  intros He (Hu & Hm & Hi). unfold pool_get. pose proof (pop_alive_quiet (peek env) _ Hi) as Hp.
  destruct (pop_alive (peek env) (idle p)) as [[s|] l].
  - destruct Hp as [Hs Hl]. eexists _, _. split; [done|]. cbn. by rewrite Hu.
  - subst l. unfold check_capacity, opened, set_idle, set_in_use.
    cbn [in_use max_size idle p_endpoint p_connect_timeout_ms max_idle]. rewrite Hu.
    destruct (N.ltb_spec 0 (N.of_nat (max_size p))); [|lia]. cbn [negb].
    destruct (sv_resolve env He) as (a & l & Ea). unfold open_pooled. rewrite Ea, (sv_connect env He).
    eexists _, _. split; [done|]. by cbn.
Qed.

Lemma conn_drop_quiet p s : in_use p = 1 → (1 <= max_size p)%nat → inbox s = "" →
  Forall (fun s => inbox s = "") (idle p) → quiet (conn_drop p (checked_out s)).
Proof.
  intros Hu Hm Hs Hi. unfold conn_drop. cbn [returned checked_out stream]. rewrite Hu.
  destruct (Nat.ltb _ _); (split; [done|]); (split; [done|]); cbn; [|done].
  apply Forall_app. split; [done|]. by apply Forall_singleton.
Qed.

Lemma send_pooled_quiet env p f : serves env → quiet p → fits f → fits (server f) →
  ∃ p', send_pooled env p (to_vec f) = (Ok (server f), p') ∧ quiet p'.
Proof.
  intros He Hp Hf Hr. destruct (pool_get_quiet env p He Hp) as (s & p1 & E & Hs & Hu & Hm & Hi).
  unfold send_pooled. rewrite E, (sv_read_timeout env He), (sv_write_timeout env He).
  rewrite (exchange_served env s f He Hs Hf Hr), decode_encoded. eexists. split; [done|].
  apply conn_drop_quiet; [done| |done|done]. rewrite Hm. apply Hp.
Qed.

(** Frames one after the other on a transport *)
Fixpoint run_transport (env : SocketEnv) (t : SocketNativeTransport) (fs : list (NativeFrame F))
    : list (DriverResult (NativeFrame F)) * SocketNativeTransport :=
  match fs with
  | [] => ([], t)
  | f :: fs' =>
      let (r, t1) := send_frame env t f in
      let (rs, t2) := run_transport env t1 fs' in
      (r :: rs, t2)
  end.

Definition ready (t : SocketNativeTransport) : Prop :=
  match pool t with Some p => quiet p | None => True end.

Lemma send_frame_served env t f : serves env → ready t → fits f → fits (server f) →
  ∃ t', send_frame env t f = (Ok (server f), t') ∧ ready t'.
Proof.
  intros He Ht Hf Hr. unfold send_frame, encode. unfold ready in Ht.
  destruct (pool t) as [p|] eqn:Ep.
  - destruct (send_pooled_quiet env p f He Ht Hf Hr) as (p' & E & Hp'). rewrite E.
    eexists. by split.
  - exists t. split; [|by unfold ready; rewrite Ep]. f_equal. unfold open_stream.
    destruct (sv_resolve env He) as (a & l & Ea).
    rewrite Ea, (sv_connect env He), (sv_read_timeout env He), (sv_write_timeout env He).
    rewrite (exchange_served env (mkStream "" "") f He eq_refl Hf Hr). apply decode_encoded.
Qed.

Lemma run_transport_served env t fs : serves env → ready t →
  Forall (fun f => fits f ∧ fits (server f)) fs →
  (run_transport env t fs).1 = map (fun f => Ok (server f)) fs.
Proof.
  intros He. revert t. induction fs as [|f fs IH]; intros t Ht Hf; [done|].
  apply Forall_cons in Hf as [[Hf Hr] Hfs]. cbn [run_transport].
  destruct (send_frame_served env t f He Ht Hf Hr) as (t' & E & Ht'). rewrite E.
  specialize (IH t' Ht' Hfs). destruct (run_transport env t' fs). cbn in *. by rewrite IH.
Qed.

(** Against a server that answers each frame with one frame, both a persistent
    session and a pooled transport return, for any sequence of frames that the length
    prefix can hold, the server's answer to each frame in order, whichever idle
    connections the pool finds alive. *)
Theorem responses_match_requests env ses ep timeout_ms mi ms t fs :
  serves env → inbox (s_stream ses) = "" → (1 <= ms)%nat →
  with_pool ep timeout_ms mi ms = Ok t →
  Forall (fun f => fits f ∧ fits (server f)) fs →
  (run_session env ses fs).1 = map (fun f => Ok (server f)) fs ∧
  (run_transport env t fs).1 = map (fun f => Ok (server f)) fs.
Proof.
  intros He Hs Hm Ht Hf. split; [by apply run_session_served|].
  apply run_transport_served; [done| |done]. revert Ht. unfold with_pool.
  destruct (blank ep); [done|]. destruct (timeout_ms =? 0); [done|]. intros [= <-].
  split; [done|]. split; [done|]. constructor.
Qed.

End Served.

(** *** The size of the pool *)

Inductive PoolOp := Get (env : SocketEnv) | DropConn (i : nat) | Invalidate (i : nat).

(** The pool and the handles its users hold *)
Definition pool_step (st : NativeConnectionPool * list PooledNativeConnection) (o : PoolOp)
    : NativeConnectionPool * list PooledNativeConnection :=
  let (p, hs) := st in
  match o with
  | Get env => match pool_get env p with
               | (Ok s, p') => (p', hs ++ [checked_out s])
               | (Err _, p') => (p', hs)
               end
  | DropConn i => match hs !! i with
                  | Some h => (conn_drop p h, delete i hs)
                  | None => st
                  end
  | Invalidate i => match hs !! i with
                    | Some h => let (p', h') := invalidate p h in (p', <[i := h']> hs)
                    | None => st
                    end
  end.

Definition run_pool (p : NativeConnectionPool) (ops : list PoolOp)
    : NativeConnectionPool * list PooledNativeConnection := foldl pool_step (p, []) ops.

Definition live (hs : list PooledNativeConnection) : nat :=
  length (List.filter (fun h => negb (returned h)) hs).

#[local] Arguments live : simpl never.
#[local] Arguments u64_add : simpl never.
#[local] Arguments u64_wrapping_sub : simpl never.

Record bounded (mi ms : nat) (st : NativeConnectionPool * list PooledNativeConnection) : Prop := {
  bd_limits : max_idle st.1 = mi ∧ max_size st.1 = ms;
  bd_count : in_use st.1 = N.of_nat (live st.2);
  bd_total : (live st.2 + length (idle st.1) <= ms)%nat;
  bd_idle : (length (idle st.1) <= mi)%nat;
}.

Lemma live_app a b : live (a ++ b) = (live a + live b)%nat.
Proof. unfold live. by rewrite List.filter_app, length_app. Qed.

Lemma live_split hs i h : hs !! i = Some h →
  live hs = (live (delete i hs) + (if returned h then 0 else 1))%nat.
Proof.
  intros Hi. rewrite <-(take_drop_middle hs i h Hi) at 1.
  rewrite delete_take_drop, !live_app. unfold live at 2. cbn [List.filter].
  fold (live (drop (S i) hs)). destruct (returned h); cbn; fold (live (drop (S i) hs)); lia.
Qed.

Lemma live_insert hs i h h' : hs !! i = Some h → returned h' = true →
  live (<[i := h']> hs) = live (delete i hs).
Proof.
  intros Hi Hr. rewrite (live_split (<[i := h']> hs) i h'), Hr, Nat.add_0_r.
  - by rewrite !delete_take_drop, take_insert_ge, drop_insert_lt by lia.
  - apply list_lookup_insert_eq. by apply lookup_lt_Some in Hi.
Qed.

Lemma pop_alive_shorter pk l :
  match pop_alive pk l with
  | (Some _, l') => (S (length l') <= length l)%nat
  | (None, l') => l' = []
  end.
Proof.
  induction l as [|s l IH]; cbn; [done|]. destruct (alive (pk s)); [done|].
  destruct (pop_alive pk l) as [[x|] l']; [lia|done].
Qed.

Lemma bounded_get mi ms p hs env : N.of_nat ms < u64_modulus → bounded mi ms (p, hs) →
  bounded mi ms (pool_step (p, hs) (Get env)).
Proof.
  intros Hms [[Hmi Hm] Hc Ht Hi]. cbn [fst snd] in *. cbn [pool_step]. unfold pool_get.
  pose proof (pop_alive_shorter (peek env) (idle p)) as Hp.
  destruct (pop_alive (peek env) (idle p)) as [[s|] l].
  - constructor; cbn; [done| |rewrite live_app; change (live [checked_out s]) with 1%nat; lia|lia].
    rewrite Hc, u64_add_small, live_app by lia. change (live [checked_out s]) with 1%nat. lia.
  - subst l. unfold check_capacity. cbn [set_idle in_use max_size]. rewrite Hc, Hm.
    destruct (N.ltb_spec (N.of_nat (live hs)) (N.of_nat ms)) as [Hlt|]; cbn [negb];
      [|constructor; cbn; [done|done|lia|lia]].
    destruct (open_pooled env (set_idle p [])) as [s|e]; [|constructor; cbn; [done|done|lia|lia]].
    constructor; cbn; [done| |rewrite live_app; change (live [checked_out s]) with 1%nat; lia|lia].
    rewrite Hc, u64_add_small, live_app by lia. change (live [checked_out s]) with 1%nat. lia.
Qed.

Lemma in_use_pred n : u64_wrapping_sub (N.of_nat (n + 1)) 1 = N.of_nat n \/ u64_modulus <= N.of_nat (n + 1).
Proof.
  destruct (N.lt_ge_cases (N.of_nat (n + 1)) u64_modulus); [left|by right].
  unfold u64_wrapping_sub. replace (N.of_nat (n + 1) + u64_modulus - 1) with (N.of_nat n + 1 * u64_modulus) by lia.
  rewrite N.Div0.mod_add. apply N.mod_small. lia.
Qed.

Lemma bounded_step mi ms st o : N.of_nat ms < u64_modulus → bounded mi ms st →
  bounded mi ms (pool_step st o).
Proof.
  intros Hms Hb. destruct st as [p hs]. destruct o as [env|i|i]; [by apply bounded_get| |];
    cbn [pool_step]; destruct (hs !! i) as [h|] eqn:Eh; try done;
    pose proof (live_split hs i h Eh) as El; destruct Hb as [[Hmi Hm] Hc Ht Hi];
    cbn [fst snd] in *; unfold conn_drop, invalidate; destruct (returned h) eqn:Er.
  - constructor; cbn; [done|rewrite Hc; f_equal; lia|lia|lia].
  - destruct (in_use_pred (live (delete i hs))) as [E|E]; [|lia]. rewrite <-El, <-Hc in E.
    destruct (stream h) as [s|]; [|constructor; cbn; [done|by rewrite E|lia|lia]].
    unfold set_in_use, set_idle; cbn [idle max_idle in_use max_size p_endpoint p_connect_timeout_ms].
    destruct (Nat.ltb_spec (length (idle p)) (max_idle p)).
    + constructor; cbn; [done|by rewrite E|rewrite length_app; cbn; lia|rewrite length_app; cbn; lia].
    + constructor; cbn; [done|by rewrite E|lia|lia].
  - rewrite list_insert_id by done. by constructor.
  - destruct (in_use_pred (live (delete i hs))) as [E|E]; [|lia]. rewrite <-El, <-Hc in E.
    constructor; cbn; [done| |rewrite (live_insert hs i h) by done; lia|lia].
    by rewrite E, (live_insert hs i h).
Qed.

(** One user after the other, any sequence of checkouts, returns and invalidations
    keeps the counter of checked-out connections equal to the handles that were not given
    back, checked-out and idle connections together within [max_size], and idle ones
    within [max_idle]; no handle is counted twice when it is invalidated and then
    dropped. *)
Theorem native_pool_bounded ep timeout_ms mi ms ops : N.of_nat ms < u64_modulus →
  let st := run_pool (pool_new ep timeout_ms mi ms) ops in
  in_use st.1 = N.of_nat (live st.2) ∧
  (live st.2 + length (idle st.1) <= ms)%nat ∧ (length (idle st.1) <= mi)%nat.
Proof.
  intros Hms st. assert (Hb : bounded mi ms st).
  { unfold st, run_pool.
    assert (H0 : bounded mi ms (pool_new ep timeout_ms mi ms, [])) by (constructor; unfold live; cbn; [done|done|lia|lia]).
    revert H0. generalize (pool_new ep timeout_ms mi ms, @nil PooledNativeConnection).
    induction ops as [|o ops IH]; intros st0 H0; cbn [foldl]; [done|].
    apply IH. by apply bounded_step. }
  split; [apply Hb|]. split; apply Hb.
Qed.

(** *** Concrete codec, server and runs *)

Definition frame_types : list NativeFrameType :=
  [Hello; HelloAck; FAuth; AuthAck; Command; FResult; FError; Ping; Pong; StreamChunk; StreamEnd;
   Cancel; Goodbye].

Definition type_index (t : NativeFrameType) : nat :=
  default 0%nat (fst <$> list_find (fun u => u = t) frame_types).

Definition frame_tuple (f : NativeFrame Z) : nat * string * string * option string * Json.Value Z :=
  (type_index (frame_type f), protocol_version f, frame_request_id f, frame_session_id f, payload f).

Definition tuple_frame (x : nat * string * string * option string * Json.Value Z) : NativeFrame Z :=
  let '(t, v, r, s, p) := x in mkFrame Z (default Hello (frame_types !! t)) v r s p.

#[local] Existing Instance Json.value_eq_dec.
#[local] Existing Instance Json.value_countable.

Definition coded_frames : NativeFrameCodec Z :=
  {| to_vec := fun f => Json.pos_text (countable.encode (frame_tuple f));
     from_slice := fun b => match countable.decode (Json.text_pos b) with
                            | Some x => Ok (tuple_frame x)
                            | None => Err "invalid"
                            end |}.

Lemma coded_frames_laws : NativeFrameCodecLaws Z (NativeFrameCodec0 := coded_frames).
Proof.
  split. intros [t v r s q]. cbn. rewrite Json.text_pos_text, decode_encode. cbn.
  by destruct t.
Qed.

(** A server that answers with the request's identifier *)
Definition echo (f : NativeFrame Z) : NativeFrame Z :=
  mkFrame Z FResult (protocol_version f) (frame_request_id f) (frame_session_id f) Json.Null.

Definition unframe (b : string) : string := String.substring 4 (String.length b - 4) b.

(** [extra] bytes follow every answer. *)
Definition echo_env (extra : string) : SocketEnv :=
  mkEnv (Ok ["127.0.0.1:7542"]) (fun _ => Ok (mkStream "" "")) None None None None
    (mkIo WouldBlock "Resource temporarily unavailable (os error 11)")
    (fun s => if String.eqb (inbox s) "" then PeekError WouldBlock else Waiting 1)
    (fun _ b => match @from_slice Z coded_frames (unframe b) with
                | Ok f => frame_bytes (@to_vec Z coded_frames (echo f)) +:+ extra
                | Err _ => ""
                end).

Definition ping (rid : string) : NativeFrame Z := mkFrame Z Command "v1" rid (Some "s") Json.Null.

Lemma echo_serves : serves (F := Z) (NativeFrameCodec0 := coded_frames) echo (echo_env "").
Proof.
  split; [by eexists _, _|done..|]. intros before f. cbn [answer echo_env].
  assert (E : unframe (frame_bytes (@to_vec Z coded_frames f)) = @to_vec Z coded_frames f).
  { unfold unframe, frame_bytes. rewrite Str.length_app_str, length_be, Nat.add_comm, Nat.add_sub.
    rewrite <-(length_be 4 (N.of_nat (String.length (@to_vec Z coded_frames f)))) at 1.
    by rewrite substring_app_skip, substring_full. }
  rewrite E, (@from_to_vec Z coded_frames coded_frames_laws). apply Str.app_empty_r.
Qed.

Lemma responses_match_requests_witness :
  (run_transport (NativeFrameCodec0 := coded_frames) (echo_env "")
     (mkTransport "127.0.0.1:7542" 100 (Some (pool_new "127.0.0.1:7542" 100 2 2)))
     [ping "a"; ping "b"]).1 = [Ok (echo (ping "a")); Ok (echo (ping "b"))].
Proof.
  pose proof (@responses_match_requests Z coded_frames coded_frames_laws echo (echo_env "")
    (mkSession (mkStream "" "") "s" "v1" Admin) "127.0.0.1:7542" 100 2 2
    (mkTransport "127.0.0.1:7542" 100 (Some (pool_new "127.0.0.1:7542" 100 2 2)))
    [ping "a"; ping "b"] echo_serves eq_refl) as H.
  apply H; [lia|reflexivity|]. repeat constructor.
Defined.

Lemma native_pool_bounded_witness :
  in_use (run_pool (pool_new "h:1" 100 1 2)
            [Get (echo_env ""); Get (echo_env ""); Invalidate 0; DropConn 0; DropConn 0]).1 = 0 ∧
  length (idle (run_pool (pool_new "h:1" 100 1 2)
            [Get (echo_env ""); Get (echo_env ""); Invalidate 0; DropConn 0; DropConn 0]).1) = 1%nat.
Proof.
  pose proof (native_pool_bounded "h:1" 100 1 2
    [Get (echo_env ""); Get (echo_env ""); Invalidate 0; DropConn 0; DropConn 0]) as H.
  destruct H as (H1 & _ & _); [reflexivity|]. split; [rewrite H1; reflexivity|reflexivity].
Defined.

(** Two users that both pass the capacity check before either counts its connection
    exceed [max_size]. *)
Lemma racing_checkouts_exceed_max :
  let p := pool_new "h:1" 100 1 1 in
  check_capacity p = true ∧ in_use (opened (opened p)) = 2.
Proof. by split. Qed.

(** Bytes that follow a response stay on the pooled connection, which counts as alive, and
    answer the next request: its response carries the other request's identifier. *)
Lemma leftover_answers_next_request :
  let stale := frame_bytes (@to_vec Z coded_frames (echo (ping "old"))) in
  let t := mkTransport "h:1" 100 (Some (pool_new "h:1" 100 1 1)) in
  (run_transport (NativeFrameCodec0 := coded_frames) (echo_env stale) t [ping "a"; ping "b"]).1
  = [Ok (echo (ping "a")); Ok (echo (ping "old"))].
Proof. vm_compute. reflexivity. Qed.

(** A read that times out reports [WouldBlock] on Unix, which is not a timeout error. *)
Lemma read_timeout_is_transport_error :
  match (read_framed (echo_env "") (mkStream "" "")).1 with
  | Err e => kind e = Transport
  | Ok _ => False
  end.
Proof. reflexivity. Qed.

(** Tenant mode needs the administrator's key. *)
Lemma tenant_auth_needs_admin_key :
  let c := mkConfig "vng://h:1" None "s" (Some "t") (Some "u") None None None in
  native_auth_mode c = Tenant ∧ validate c = Ok tt ∧
  build_native_auth_frame (F := Z) c "r"
  = Err (validation "admin_api_key is required for native auth in admin/operator mode").
Proof. by split. Qed.

(** An upper-case scheme passes validation and selects the native transport, which then
    refuses it. *)
Lemma upper_case_scheme_refused :
  let c := mkConfig "VNG://h:1" None "s" None None (Some "k") None None in
  validate c = Ok tt ∧ select_transport_from_base_url (base_url c) = Native ∧
  is_ok (build_socket_native_transport c 100) = false.
Proof. by split. Qed.
End Socket.
