(* ===== verification/NativeServer.v ===== *)
(** * The server side of the native protocol ([server/main.rs], [helpers/native_protocol.rs],
      [handlers/misc.rs])

    Length-prefixed JSON frames: the connection loop, the handshake, the conversion
    between wire frames and commands, and the dispatch of commands.  Everything a
    connection receives before its end or its idle timeout is one byte string.  The
    last part runs the driver of [DriverNative] against this server. *)

From S2P Require Import Prelude Str Decimal Bytes SqlKind Tokenizer Utf8 Ast Json Ingest AstFlags Planner Router Driver DriverNative.
From Stdlib Require Import Ascii SpecFloat.
Local Open Scope string_scope.
Local Open Scope list_scope.
Local Open Scope N_scope.
Local Open Scope vng_scope.

Module NativeServer.
Import Frames Bytes Tokenizer.

#[local] Existing Instance SqlKind.kind_eq_dec.

Abbreviation Value := (Json.Value Planner.f64).

(** ** Data *)

Inductive NativeCommandKind :=
| Health | SqlAnalyze | SqlRoute | SqlExecute | SqlTransaction | IngestSchemaRegistry | UnknownCommand.

Record ServerFrame := mkServerFrame {
  sf_type : NativeFrameType;
  sf_request_id : string;
  sf_session_id : option string;
  sf_command : option NativeCommandKind;
  sf_payload : option Value;
}.

Record CanonicalError := mkCanonical {
  error_request_id : string;
  error_kind : string;
  error_message : string;
}.

(** The parts of [AppState] and [NativeListenerConfig] that a connection reads *)
Record NativeState := mkNative {
  node_id : string;
  cluster_mode : string;
  admin_api_key : option string;
  bearer_token : option string;
  max_frame_bytes : N;
  ingest_csv_records : gmap string (list Ingest.IngestRecord);
  ingest_json_records : gmap string (list Ingest.IngestRecord);
}.

Definition text (s : string) : Value := Json.of_string s.

Definition str_field (k : string) (v : Value) : option string := Json.get k v ≫= Json.as_str.

(** [serde_json] of an [f64]: infinities and NaN are null. *)
Definition of_f64 (x : Planner.f64) : Value :=
  match x with
  | S754_zero _ | S754_finite _ _ _ => Json.Number (Json.Float x)
  | _ => Json.Null
  end.

(** ** Wire frames *)

Definition native_frame_type_wire_name (t : NativeFrameType) : string :=
  match t with
  | Hello => "Hello" | HelloAck => "HelloAck" | FAuth => "Auth" | AuthAck => "AuthAck"
  | Command => "Command" | FResult => "Result" | FError => "Error" | Ping => "Ping"
  | Pong => "Pong" | StreamChunk => "StreamChunk" | StreamEnd => "StreamEnd"
  | Cancel => "Cancel" | Goodbye => "Goodbye"
  end.

(** The five fields of a frame on the wire *)
Definition wire_object (type version rid : string) (session payload : Value) : Value :=
  Json.object [("frame_type", text type); ("protocol_version", text version);
               ("request_id", text rid); ("session_id", session); ("payload", payload)].

Definition internal_native_frame_to_driver_wire_json (f : ServerFrame) (version : string) : Value :=
  wire_object (native_frame_type_wire_name (sf_type f)) version (sf_request_id f)
    (Json.of_option text (sf_session_id f)) (default (Json.object []) (sf_payload f)).

Definition wire_protocol_error_frame (rid message : string) : Value :=
  wire_object "Error" "v1" rid Json.Null
    (Json.object [("kind", text "protocol"); ("message", text message)]).

Definition strip_command_field (payload : Value) : Value :=
  Json.Object (Json.map_remove "command" (default [] (Json.as_object payload))).

Definition command_kind (s : string) : NativeCommandKind :=
  if String.eqb s "health" then Health
  else if String.eqb s "sql.analyze" then SqlAnalyze
  else if String.eqb s "sql.route" then SqlRoute
  else if String.eqb s "sql.execute" then SqlExecute
  else if String.eqb s "sql.transaction" then SqlTransaction
  else if String.eqb s "ingest.schema.registry" then IngestSchemaRegistry
  else UnknownCommand.

Definition wire_json_to_native_dispatch_frame (body : Value) : result ServerFrame string :=
  match str_field "frame_type" body with
  | None => Err "missing frame_type"
  | Some t =>
      if negb (String.eqb t "Command")
      then Err ("expected Command frame for dispatch, got " +:+ t)
      else
        let payload := default (Json.object []) (Json.get "payload" body) in
        match str_field "command" payload with
        | None => Err "missing payload.command"
        | Some cmd =>
            let command := command_kind cmd in
            let payload_json :=
              match command with
              | Health | IngestSchemaRegistry => None
              | _ => Some (strip_command_field payload)
              end in
            Ok (mkServerFrame Command (default "" (str_field "request_id" body))
                  (str_field "session_id" body) (Some command) payload_json)
        end
  end.

Definition native_wire_hello_ack (rid : string) (session : option Value) : Value :=
  wire_object "HelloAck" "v1" rid (default Json.Null session)
    (Json.object [("accepted", Json.Bool true); ("version", text "v1")]).

Definition native_wire_auth_ack (rid : string) (session : option string) (accepted : bool) : Value :=
  wire_object "AuthAck" "v1" rid (Json.of_option text session)
    (Json.object [("accepted", Json.Bool accepted)]).

(** Whether a field of the payload equals a configured credential *)
Definition credential_matches (expected : option string) (given : option string) : bool :=
  match expected, given with
  | Some e, Some g => String.eqb g e
  | _, _ => false
  end.

Definition native_auth_payload_matches_runtime (st : NativeState) (payload : Value) : bool :=
  match admin_api_key st, bearer_token st with
  | None, None => true
  | _, _ => credential_matches (admin_api_key st) (str_field "admin_api_key" payload)
            || credential_matches (bearer_token st) (str_field "bearer_token" payload)
  end.

(** ** Commands *)

(** [{:?}] of a statement kind *)
Definition kind_debug (k : SqlKind.SqlStatementKind) : string :=
  match k with
  | SqlKind.Select => "Select" | SqlKind.Insert => "Insert" | SqlKind.Update => "Update"
  | SqlKind.Delete => "Delete" | SqlKind.CreateTable => "CreateTable"
  | SqlKind.CreateView => "CreateView" | SqlKind.CreateMaterializedView => "CreateMaterializedView"
  | SqlKind.CreateFunction => "CreateFunction" | SqlKind.CreateTrigger => "CreateTrigger"
  | SqlKind.CreateEvent => "CreateEvent" | SqlKind.AlterTable => "AlterTable"
  | SqlKind.CreateIndex => "CreateIndex" | SqlKind.DropIndex => "DropIndex"
  | SqlKind.DropTable => "DropTable" | SqlKind.DropView => "DropView"
  | SqlKind.DropFunction => "DropFunction" | SqlKind.DropTrigger => "DropTrigger"
  | SqlKind.DropEvent => "DropEvent" | SqlKind.Begin => "Begin" | SqlKind.Commit => "Commit"
  | SqlKind.Rollback => "Rollback" | SqlKind.Savepoint => "Savepoint"
  | SqlKind.ReleaseSavepoint => "ReleaseSavepoint"
  | SqlKind.RollbackToSavepoint => "RollbackToSavepoint" | SqlKind.Grant => "Grant"
  | SqlKind.Revoke => "Revoke" | SqlKind.CreateRole => "CreateRole" | SqlKind.DropRole => "DropRole"
  | SqlKind.CreateDatabase => "CreateDatabase" | SqlKind.DropDatabase => "DropDatabase"
  | SqlKind.CreateSchema => "CreateSchema" | SqlKind.DropSchema => "DropSchema"
  | SqlKind.Unknown => "Unknown"
  end.

Definition route_path_name (p : Planner.QueryPath) : string :=
  match p with
  | Planner.Oltp => "oltp" | Planner.Olap => "olap" | Planner.Hybrid => "hybrid"
  | Planner.UnknownPath => "unknown"
  end.

(** [health_response] *)
Definition health_response (st : NativeState) : Value :=
  Json.object [("status", text "ok"); ("node_id", text (node_id st));
               ("cluster_mode", text (cluster_mode st))].

Definition analyzed_statement (raw : string) : Value :=
  let a := Router.analyze_statement raw in
  Json.object [("statement", text raw); ("kind", text (kind_debug (Router.kind a)));
               ("requires_transaction", Json.Bool (Router.requires_transaction a));
               ("touches_catalog", Json.Bool (Router.touches_catalog a));
               ("accepted", Json.Bool (negb (bool_decide (Router.kind a = SqlKind.Unknown))))].

Definition sql_analyze_response (sql_batch : string) : Value :=
  let parsed := Router.parse_batch sql_batch in
  let rejected :=
    filter (fun raw => Router.kind (Router.analyze_statement raw) = SqlKind.Unknown) parsed in
  Json.object [("status", text "ok"); ("total_statements", Json.of_usize (length parsed));
               ("rejected_statements", Json.of_usize (length rejected));
               ("statements", Json.Array (map analyzed_statement parsed))].

Section Route.
Context `{!UnicodeTables} `{!AstFlags.UnicodeUpper} `{!AstFlags.FlagAdapter}.

(** The planner's hints of a statement: path, rows and cost *)
Definition planner_hints (stmt : string) : option (string * N * Planner.f64) :=
  let! parsed := AstFlags.parse_one_flags (Utf8.of_utf8 stmt) in
  match parsed with
  | Err _ => Some ("unknown", 0, Planner.lit 0 1)
  | Ok parsed =>
      let! c := Planner.estimate_cost (Planner.plan parsed) in
      Some (route_path_name (Planner.recommended_path c), Planner.estimated_rows c,
            Planner.relative_cost c)
  end.

Fixpoint routed_statements (l : list Router.RoutedStatement) (rows : N) (cost : Planner.f64)
    : option (list Value * N * Planner.f64) :=
  match l with
  | [] => Some ([], rows, cost)
  | s :: l' =>
      let! (p, n, x) := planner_hints (Router.routed_text s) in
      let v := Json.object [("statement", text (Router.routed_text s));
                            ("path", text (route_path_name (Router.routed_path s)));
                            ("planner_path", text p); ("estimated_rows", Json.of_u64 n);
                            ("relative_cost", of_f64 x)] in
      let! (vs, n', x') := routed_statements l' (u64_add rows n) (Planner.f64_add cost x) in
      Some (v :: vs, n', x')
  end.

Definition sql_route_response (sql_batch : string) : option Value :=
  let d := Router.route_batch sql_batch in
  let! (vs, rows, cost) := routed_statements (Router.batch_statements d) 0 (Planner.lit 0 1) in
  Some (Json.object [("status", text "ok");
                     ("route_path", text (route_path_name (Router.batch_path d)));
                     ("reason", text (Router.batch_reason d)); ("statements", Json.Array vs);
                     ("batch_estimated_rows", Json.of_u64 rows);
                     ("batch_relative_cost", of_f64 cost)]).

Definition sql_execute_route_decision (sql_batch : string) : Value :=
  let d := Router.route_batch sql_batch in
  Json.object [("path", text (route_path_name (Router.batch_path d)));
               ("reason", text (Router.batch_reason d));
               ("statements", Json.Array
                  (map (fun s => Json.object [("statement", text (Router.routed_text s));
                                              ("path", text (route_path_name (Router.routed_path s)))])
                     (Router.batch_statements d)))].

(** *** The ingest schema registry *)

Context `{!MapOrder (list Ingest.IngestRecord)}.

Definition schema_column (name : string) : Value :=
  Json.object [("name", text name); ("inferred_type", text "utf8")].

Definition ingest_infer_columns (records : list Ingest.IngestRecord) : list Value :=
  match records with
  | [] => [schema_column "payload"]
  | _ => [schema_column "key"; schema_column "payload"]
  end.

Definition schema_entry (format : string) (e : string * list Ingest.IngestRecord) : Value :=
  Json.object [("connector_id", text e.1); ("format", text format);
               ("row_count", Json.of_usize (length e.2));
               ("columns", Json.Array (ingest_infer_columns e.2))].

Definition collect_ingest_schema_registry_response (st : NativeState) : Value :=
  let entries := map (schema_entry "csv") (iter_map (ingest_csv_records st))
                 ++ map (schema_entry "json") (iter_map (ingest_json_records st)) in
  Json.object [("status", text "ok"); ("connector_count", Json.of_usize (length entries));
               ("entries", Json.Array entries)].

(** *** Dispatch *)

(** The message of [serde_json::from_value] for a payload that is not of the request's
    shape *)
Variable serde_message : Value -> string.

Definition success_to_result_frame (rid : string) (payload : Value) : ServerFrame :=
  mkServerFrame FResult rid None None (Some payload).

Definition error_to_error_frame (e : CanonicalError) : ServerFrame :=
  mkServerFrame FError (error_request_id e) None None
    (Some (Json.object [("kind", text (error_kind e)); ("message", text (error_message e))])).

Definition protocol_error (f : ServerFrame) (message : string) : CanonicalError :=
  mkCanonical (sf_request_id f) "protocol" message.

(** The payload of a command, read as its request *)
Definition request_of {A} (name : string) (read : Value -> option A) (f : ServerFrame)
    : result A CanonicalError :=
  match sf_payload f with
  | None => Err (protocol_error f ("missing payload for " +:+ name +:+ " frame"))
  | Some v =>
      match read v with
      | Some a => Ok a
      | None => Err (mkCanonical (sf_request_id f) "serialization"
                       ("invalid " +:+ name +:+ " payload: " +:+ serde_message v))
      end
  end.

(** [Option] fields: absent and null are [None] *)
Definition opt_field {A} (as_ : Value -> option A) (k : string) (v : Value) : option (option A) :=
  match Json.get k v with
  | None | Some Json.Null => Some None
  | Some x => match as_ x with Some a => Some (Some a) | None => None end
  end.

Definition read_sql_batch (v : Value) : option string := str_field "sql_batch" v.

(** [SqlExecuteRequest]; only its text is used *)
Definition read_sql_execute (v : Value) : option string :=
  let! sql := str_field "sql_batch" v in
  let! _ := opt_field Json.as_u64 "max_rows" v in
  let! _ := opt_field Json.as_str "isolation_level" v in
  let! _ := opt_field Json.as_u64 "statement_timeout_ms" v in
  Some sql.

Definition read_sql_transaction (v : Value) : option (list string * option string) :=
  let! iso := opt_field Json.as_str "isolation_level" v in
  match Json.get "statements" v with
  | Some (Json.Array l) => let! ss := mapM Json.as_str l in Some (ss, iso)
  | _ => None
  end.

Definition dispatch_command (st : NativeState) (f : ServerFrame) (k : NativeCommandKind)
    : option (result ServerFrame CanonicalError) :=
  let rid := sf_request_id f in
  match k with
  | Health => Some (Ok (success_to_result_frame rid (health_response st)))
  | IngestSchemaRegistry =>
      Some (Ok (success_to_result_frame rid (collect_ingest_schema_registry_response st)))
  | SqlAnalyze =>
      Some (let? sql := request_of "sql.analyze" read_sql_batch f in
            Ok (success_to_result_frame rid (sql_analyze_response sql)))
  | SqlRoute =>
      match request_of "sql.route" read_sql_batch f with
      | Err e => Some (Err e)
      | Ok sql => let! v := sql_route_response sql in Some (Ok (success_to_result_frame rid v))
      end
  | SqlExecute =>
      Some (let? sql := request_of "sql.execute" read_sql_execute f in
            Ok (success_to_result_frame rid (sql_execute_route_decision sql)))
  | SqlTransaction =>
      Some (let? r := request_of "sql.transaction" read_sql_transaction f in
            Ok (success_to_result_frame rid
                  (Json.object [("statement_count", Json.of_usize (length r.1));
                                ("isolation_level", Json.of_option text r.2)])))
  | UnknownCommand => Some (Err (protocol_error f "unsupported native command: unknown"))
  end.

(** [NativeAdapter::dispatch_frame] *)
Definition dispatch_frame (st : NativeState) (f : ServerFrame) : option ServerFrame :=
  if negb (bool_decide (sf_type f = Command))
  then Some (error_to_error_frame (protocol_error f "expected COMMAND frame for native dispatch"))
  else
    match sf_command f with
    | None => Some (error_to_error_frame (protocol_error f "missing command for COMMAND frame"))
    | Some k =>
        let! r := dispatch_command st f k in
        Some (match r with Ok g => g | Err e => error_to_error_frame e end)
    end.

(** ** The connection *)

Context `{!Json.JsonText Planner.f64}.

(** The message of [serde_json::from_slice] *)
Variable json_message : string -> string.
(** Whether the n-th write of the connection succeeds *)
Variable write_ok : nat -> bool.

(** What the loop does after its write: go on whatever the write's outcome, go on if it
    succeeded, or stop. *)
Inductive After := Ignore | Proceed | Stop.

Definition reply (st : NativeState) (bytes : string) : option (Value * After) :=
  match Json.from_str bytes with
  | None =>
      Some (wire_protocol_error_frame "decode-error"
              ("invalid json frame: " +:+ json_message bytes), Ignore)
  | Some v =>
      let type := default "" (str_field "frame_type" v) in
      let rid := default "" (str_field "request_id" v) in
      if String.eqb type "Hello" then
        Some (native_wire_hello_ack rid (Json.get "payload" v ≫= Json.get "session_id"), Proceed)
      else if String.eqb type "Auth" then
        let ok := native_auth_payload_matches_runtime st
                    (default (Json.object []) (Json.get "payload" v)) in
        Some (native_wire_auth_ack rid (str_field "session_id" v) ok, if ok then Proceed else Stop)
      else if String.eqb type "Command" then
        match wire_json_to_native_dispatch_frame v with
        | Err msg => Some (wire_protocol_error_frame rid msg, Proceed)
        | Ok f =>
            let! out := dispatch_frame st f in
            Some (internal_native_frame_to_driver_wire_json out "v1", Proceed)
        end
      else
        Some (wire_protocol_error_frame rid
                ("unsupported frame_type for data plane: " +:+ type), Proceed)
  end.

(** [native_read_framed] on what is left of the input: a frame, or the end of the
    connection (end of input, timeout, or a frame over the limit). *)
Definition native_read_framed (max : N) (input : string) : option (string * string) :=
  if Nat.ltb (String.length input) 4 then None
  else
    let len := from_be (String.substring 0 4 input) in
    let rest := String.substring 4 (String.length input - 4) input in
    if max <? len then None
    else if N.of_nat (String.length rest) <? len then None
    else Some (String.substring 0 (N.to_nat len) rest,
               String.substring (N.to_nat len) (String.length rest - N.to_nat len) rest).

(** [native_write_framed_json]: the bytes, if the write succeeds *)
Definition native_write_framed_json (n : nat) (v : Value) : option string :=
  let payload := Json.to_string v in
  if 4294967295 <? N.of_nat (String.length payload) then None
  else if write_ok n then Some (Socket.frame_bytes payload) else None.

(** [run_native_connection]: the bytes written.  [n] writes were made before. *)
Fixpoint run_native_connection (fuel : nat) (st : NativeState) (n : nat) (input : string) : string :=
  match fuel with
  | O => ""
  | S fuel' =>
      match native_read_framed (max_frame_bytes st) input with
      | None => ""
      | Some (bytes, rest) =>
          match reply st bytes with
          | None => ""
          | Some (v, after) =>
              match native_write_framed_json n v, after with
              | Some out, Stop => out
              | Some out, _ => out +:+ run_native_connection fuel' st (S n) rest
              | None, Ignore => run_native_connection fuel' st (S n) rest
              | None, _ => ""
              end
          end
      end
  end.

(** Every frame takes at least four bytes. *)
Definition serve (st : NativeState) (input : string) : string :=
  run_native_connection (S (String.length input)) st 0 input.

End Route.

(** ** Properties *)

Lemma get_wire type version rid session payload :
  let w := wire_object type version rid session payload in
  str_field "frame_type" w = Some type ∧ str_field "protocol_version" w = Some version ∧
  str_field "request_id" w = Some rid ∧ Json.get "session_id" w = Some session ∧
  Json.get "payload" w = Some payload.
Proof. by repeat split. Qed.

Lemma read_frame max p rest : N.of_nat (String.length p) <= max →
  N.of_nat (String.length p) < 4294967296 →
  native_read_framed max (Socket.frame_bytes p +:+ rest) = Some (p, rest).
Proof.
  intros Hmax Hp. unfold native_read_framed, Socket.frame_bytes. rewrite Str.app_assoc_str.
  set (b := be 4 (N.of_nat (String.length p))).
  assert (Hb : String.length b = 4%nat) by apply length_be.
  assert (E1 : String.substring 0 4 (b +:+ p +:+ rest) = b) by (rewrite <-Hb at 1; apply substring_app_head).
  assert (E2 : String.substring 4 (String.length (b +:+ p +:+ rest) - 4) (b +:+ p +:+ rest) = p +:+ rest).
  { rewrite (Str.length_app_str b), Hb, Nat.add_comm, Nat.add_sub.
    rewrite <-Hb at 1. by rewrite substring_app_skip, substring_full. }
  rewrite E1, E2. unfold b. rewrite from_be_be by done. fold b.
  rewrite (Str.length_app_str b), Hb. cbn [Nat.add Nat.ltb Nat.leb].
  destruct (N.ltb_spec max (N.of_nat (String.length p))); [lia|].
  rewrite (Str.length_app_str p).
  destruct (N.ltb_spec (N.of_nat (String.length p + String.length rest)) (N.of_nat (String.length p))); [lia|].
  rewrite Nat2N.id, substring_app_head, Nat.add_comm, Nat.add_sub.
  by rewrite substring_app_skip, substring_full.
Qed.

Definition concat_str (l : list string) : string := foldr String.append "" l.

Section Connection.
Context `{!UnicodeTables} `{!AstFlags.UnicodeUpper} `{!AstFlags.FlagAdapter}.
Context `{!MapOrder (list Ingest.IngestRecord)} `{!Json.JsonText Planner.f64}.
Context (serde_message : Value -> string) (json_message : string -> string) (write_ok : nat -> bool).
Notation reply := (reply serde_message json_message).
Notation serve := (serve serde_message json_message write_ok).

(** The replies to the frames of a connection, up to a refused authentication *)
Fixpoint replies (st : NativeState) (ps : list string) : list Value :=
  match ps with
  | [] => []
  | p :: ps' =>
      match reply st p with
      | None => []
      | Some (v, Stop) => [v]
      | Some (v, _) => v :: replies st ps'
      end
  end.

Definition request_fits (st : NativeState) (p : string) : Prop :=
  N.of_nat (String.length p) <= max_frame_bytes st ∧ N.of_nat (String.length p) < 4294967296.

Definition reply_fits (v : Value) : Prop := N.of_nat (String.length (Json.to_string v)) < 4294967296.

Lemma run_frames fuel st n ps : (∀ i, write_ok i = true) → Forall (request_fits st) ps →
  Forall reply_fits (replies st ps) → (length ps < fuel)%nat →
  run_native_connection serde_message json_message write_ok fuel st n
    (concat_str (map Socket.frame_bytes ps))
  = concat_str (map (fun v => Socket.frame_bytes (Json.to_string v)) (replies st ps)).
Proof.
  intros Hw Hps. revert fuel n. induction Hps as [|p ps [Hmax Hp] Hps IH]; intros fuel n Hr Hf.
  { destruct fuel; [lia|]. cbn. done. }
  destruct fuel as [|fuel]; [cbn in Hf; lia|]. cbn [run_native_connection map concat_str foldr].
  rewrite read_frame by done. cbn [replies] in Hr |- *.
  destruct (reply st p) as [[v a]|]; [|done].
  assert (Hv : reply_fits v) by (destruct a; by inversion Hr).
  assert (Ew : native_write_framed_json write_ok n v = Some (Socket.frame_bytes (Json.to_string v))).
  { unfold native_write_framed_json. destruct (N.ltb_spec 4294967295 (N.of_nat (String.length (Json.to_string v)))).
    - unfold reply_fits in Hv. lia.
    - by rewrite Hw. }
  rewrite Ew. destruct a; cbn [map concat_str foldr].
  - f_equal. apply IH; [by inversion Hr|cbn in Hf; lia].
  - f_equal. apply IH; [by inversion Hr|cbn in Hf; lia].
  - by rewrite Str.app_empty_r.
Qed.

Lemma concat_frames_length ps : (length ps <= String.length (concat_str (map Socket.frame_bytes ps)))%nat.
Proof.
  induction ps as [|p ps IH]; cbn [map concat_str foldr length]; [done|].
  unfold Socket.frame_bytes at 1. rewrite !Str.length_app_str, length_be.
  fold (concat_str (map Socket.frame_bytes ps)). lia.
Qed.

Lemma serve_frames st ps : (∀ i, write_ok i = true) → Forall (request_fits st) ps →
  Forall reply_fits (replies st ps) →
  serve st (concat_str (map Socket.frame_bytes ps))
  = concat_str (map (fun v => Socket.frame_bytes (Json.to_string v)) (replies st ps)).
Proof.
  intros Hw Hps Hr. apply run_frames; [done|done|done|]. apply Nat.lt_succ_r, concat_frames_length.
Qed.

Lemma request_of_id {A} name (read : Value -> option A) f e :
  request_of serde_message name read f = Err e → error_request_id e = sf_request_id f.
Proof.
  unfold request_of. destruct (sf_payload f) as [v|]; [|by intros [= <-]].
  destruct (read v); [done|by intros [= <-]].
Qed.

Lemma dispatch_command_id st f k r : dispatch_command serde_message st f k = Some r →
  match r with Ok g => sf_request_id g | Err e => error_request_id e end = sf_request_id f.
Proof.
  destruct k; unfold dispatch_command.
  - by intros [= <-].
  - destruct (request_of _ _ _ f) eqn:E; intros [= <-]; [done|by eapply request_of_id].
  - destruct (request_of _ _ _ f) eqn:E; [|intros [= <-]; by eapply request_of_id].
    destruct (sql_route_response _); [by intros [= <-]|done].
  - destruct (request_of _ _ _ f) eqn:E; intros [= <-]; [done|by eapply request_of_id].
  - destruct (request_of _ _ _ f) eqn:E; intros [= <-]; [done|by eapply request_of_id].
  - by intros [= <-].
  - by intros [= <-].
Qed.

Lemma dispatch_request_id st f g :
  dispatch_frame serde_message st f = Some g → sf_request_id g = sf_request_id f.
Proof.
  unfold dispatch_frame. destruct (negb _); [by intros [= <-]|].
  destruct (sf_command f) as [k|]; [|by intros [= <-]].
  destruct (dispatch_command serde_message st f k) as [r|] eqn:E; [|done]. intros [= <-].
  apply dispatch_command_id in E. by destruct r.
Qed.

Lemma reply_request_id st p q v a : Json.from_str p = Some q → reply st p = Some (v, a) →
  str_field "request_id" v = Some (default "" (str_field "request_id" q)).
Proof.
  intros Hq. unfold reply. rewrite Hq. cbv zeta. destruct (String.eqb _ "Hello"); [by intros [= <- _]|].
  destruct (String.eqb _ "Auth"); [by intros [= <- _]|].
  destruct (String.eqb _ "Command") eqn:Ec; [|by intros [= <- _]].
  destruct (wire_json_to_native_dispatch_frame q) as [f|e] eqn:Ef; [|by intros [= <- _]].
  destruct (dispatch_frame serde_message st f) as [g|] eqn:Eg; [|done]. intros [= <- _].
  apply dispatch_request_id in Eg. revert Ef. unfold wire_json_to_native_dispatch_frame.
  destruct (str_field "frame_type" q); [|done]. destruct (negb _); [done|]. cbv zeta.
  destruct (str_field "command" _); [|done]. intros [= <-]. cbn [sf_request_id] in Eg.
  by rewrite <-Eg.
Qed.

Lemma replies_lookup st ps i v : replies st ps !! i = Some v →
  ∃ p a, ps !! i = Some p ∧ reply st p = Some (v, a).
Proof.
  revert i. induction ps as [|p ps IH]; intros i; cbn [replies]; [done|].
  destruct (reply st p) as [[w []]|] eqn:E; [| | |done]; destruct i as [|i]; cbn [lookup list_lookup];
    try (intros [= ->]; eauto); try done; intros Hi; by apply IH.
Qed.

(** A connection answers its frames one by one in their order, up to a refused
    authentication: what it writes is the replies' frames, and the reply to a JSON frame
    carries the frame's request identifier. *)
Theorem native_replies_in_order st ps : (∀ i, write_ok i = true) → Forall (request_fits st) ps →
  Forall reply_fits (replies st ps) →
  serve st (concat_str (map Socket.frame_bytes ps))
  = concat_str (map (fun v => Socket.frame_bytes (Json.to_string v)) (replies st ps)) ∧
  ∀ i v, replies st ps !! i = Some v → ∃ p, ps !! i = Some p ∧
    ∀ q, Json.from_str p = Some q →
      str_field "request_id" v = Some (default "" (str_field "request_id" q)).
Proof.
  intros Hw Hps Hr. split; [by apply serve_frames|].
  intros i v (p & a & Hp & E)%replies_lookup. exists p. split; [done|].
  intros q Hq. by eapply reply_request_id.
Qed.

(** ** The driver against the server *)

(** The frame types by name *)
Definition type_of_name (s : string) : option NativeFrameType :=
  List.find (fun t => String.eqb (frame_type_debug t) s)
    [Hello; HelloAck; FAuth; AuthAck; Command; FResult; FError; Ping; Pong; StreamChunk; StreamEnd;
     Cancel; Goodbye].

(** The driver's frame as the object of its fields, and back *)
Definition frame_value (f : NativeFrame Planner.f64) : Value :=
  wire_object (frame_type_debug (frame_type f)) (protocol_version f) (frame_request_id f)
    (Json.of_option text (frame_session_id f)) (payload f).

Definition frame_of_value (v : Value) : option (NativeFrame Planner.f64) :=
  let! t := str_field "frame_type" v ≫= type_of_name in
  let! version := str_field "protocol_version" v in
  let! rid := str_field "request_id" v in
  let! session := opt_field Json.as_str "session_id" v in
  let! p := Json.get "payload" v in
  Some (mkFrame Planner.f64 t version rid session p).

(** The driver's serialisation and the server's agree on frames. *)
Class WireCompat `{!NativeFrameCodec Planner.f64} := {
  wire_to_vec : ∀ f, Json.from_str (to_vec f) = Some (frame_value f);
  wire_from_slice : ∀ v f, frame_of_value v = Some f → from_slice (Json.to_string v) = Ok f;
}.

Context `{!NativeFrameCodec Planner.f64} `{!WireCompat}.

Definition rest_of (n : nat) (s : string) : string := String.substring n (String.length s - n) s.

(** A network whose only server is this one: it adds what the connection writes for the
    bytes received so far. *)
Definition server_env (st : NativeState) : Socket.SocketEnv :=
  Socket.mkEnv (Ok ["127.0.0.1:7542"]) (fun _ => Ok (Socket.mkStream "" "")) None None None None
    (Socket.mkIo Socket.UnexpectedEof "failed to fill whole buffer") (fun _ => Socket.Waiting 0)
    (fun before b => rest_of (String.length (serve st before)) (serve st (before +:+ b))).

Definition proceeds (st : NativeState) (p : string) : Prop :=
  match reply st p with Some (_, Stop) | None => False | Some _ => True end.

Lemma replies_app st ps qs : Forall (proceeds st) ps →
  replies st (ps ++ qs) = replies st ps ++ replies st qs.
Proof.
  induction 1 as [|p ps Hp Hps IH]; [done|]. cbn [replies app]. unfold proceeds in Hp.
  destruct (reply st p) as [[v []]|]; try done; by rewrite IH.
Qed.

Lemma concat_str_app a b : concat_str (a ++ b) = concat_str a +:+ concat_str b.
Proof.
  induction a as [|x a IH]; [done|]. cbn [app concat_str foldr].
  fold (concat_str (a ++ b)) (concat_str a). by rewrite IH, Str.app_assoc_str.
Qed.

(** The server answers the next frame of a connection with its reply. *)
Lemma answer_next st ps p v a : (∀ i, write_ok i = true) → Forall (proceeds st) ps →
  Forall (request_fits st) ps → Forall reply_fits (replies st ps) →
  request_fits st p → reply_fits v → reply st p = Some (v, a) →
  Socket.answer (server_env st) (concat_str (map Socket.frame_bytes ps)) (Socket.frame_bytes p)
  = Socket.frame_bytes (Json.to_string v).
Proof.
  intros Hw Hgo Hps Hr Hp Hv E. cbn [Socket.answer server_env].
  assert (E1 : replies st [p] = [v]) by (cbn [replies]; rewrite E; by destruct a).
  assert (E2 : concat_str (map Socket.frame_bytes ps) +:+ Socket.frame_bytes p
               = concat_str (map Socket.frame_bytes (ps ++ [p]))).
  { rewrite map_app, concat_str_app. cbn [map concat_str foldr]. by rewrite Str.app_empty_r. }
  rewrite E2, !serve_frames; try done.
  - rewrite replies_app, E1, map_app, concat_str_app by done. unfold rest_of.
    rewrite Str.length_app_str, Nat.add_comm, Nat.add_sub, substring_app_skip, substring_full.
    cbn [map concat_str foldr]. apply Str.app_empty_r.
  - apply Forall_app. split; [done|]. by apply Forall_singleton.
  - rewrite replies_app, E1 by done. apply Forall_app. split; [done|]. by apply Forall_singleton.
Qed.

(** The driver's call on a stream that carried the frames [ps] *)
Lemma call_next st ps f v a g : (∀ i, write_ok i = true) → Forall (proceeds st) ps →
  Forall (request_fits st) ps → Forall reply_fits (replies st ps) →
  request_fits st (to_vec f) → reply_fits v → reply st (to_vec f) = Some (v, a) →
  frame_of_value v = Some g →
  Socket.call (server_env st) (Socket.mkStream (concat_str (map Socket.frame_bytes ps)) "") f
  = (Ok g, Socket.mkStream (concat_str (map Socket.frame_bytes (ps ++ [to_vec f]))) "").
Proof.
  intros Hw Hgo Hps Hr Hf Hv E Eg.
  assert (E2 : concat_str (map Socket.frame_bytes ps) +:+ Socket.frame_bytes (to_vec f)
               = concat_str (map Socket.frame_bytes (ps ++ [to_vec f]))).
  { rewrite map_app, concat_str_app. cbn [map concat_str foldr]. by rewrite Str.app_empty_r. }
  unfold Socket.call, encode, Socket.exchange, Socket.write_framed.
  destruct (N.ltb_spec 4294967295 (N.of_nat (String.length (to_vec f)))).
  { destruct Hf. lia. }
  assert (W1 : Socket.write_length_error (server_env st) = None) by done.
  assert (W2 : Socket.write_payload_error (server_env st) = None) by done.
  rewrite W1, W2. cbn [Socket.sent Socket.inbox].
  rewrite (answer_next st ps (to_vec f) v a Hw Hgo Hps Hr Hf Hv E), E2.
  pose proof (Socket.read_framed_frame (server_env st)
    (concat_str (map Socket.frame_bytes (ps ++ [to_vec f]))) (Json.to_string v) "" Hv) as R.
  rewrite Str.app_empty_r in R. change ("" +:+ ?x) with x. rewrite R. unfold decode. by rewrite (wire_from_slice v g Eg).
Qed.

(** Which administrator key the server takes from a driver *)
Definition accepts (st : NativeState) (key : string) : Prop :=
  (admin_api_key st = None ∧ bearer_token st = None) ∨ admin_api_key st = Some key.

Lemma auth_payload_fields c key :
  str_field "admin_api_key" (auth_payload (F := Planner.f64) c key) = Some key ∧
  str_field "bearer_token" (auth_payload (F := Planner.f64) c key) = None.
Proof. unfold auth_payload. by destruct (native_auth_mode c). Qed.

Lemma auth_payload_accepted st c key :
  native_auth_payload_matches_runtime st (auth_payload c key) = true ↔ accepts st key.
Proof.
  destruct (auth_payload_fields c key) as [E1 E2].
  unfold native_auth_payload_matches_runtime, accepts. rewrite E1, E2.
  destruct (admin_api_key st) as [a|] eqn:Ea, (bearer_token st) as [b|] eqn:Eb;
    cbn [credential_matches]; rewrite ?orb_false_r; try (rewrite String.eqb_eq); naive_solver.
Qed.

Lemma hello_reply st c hr f : build_native_hello_frame c hr = Ok f →
  reply st (to_vec f) = Some (native_wire_hello_ack hr (Some (text (Driver.session_id c))), Proceed).
Proof.
  unfold build_native_hello_frame. destruct (Driver.blank hr); [done|]. intros [= <-].
  unfold NativeServer.reply. rewrite wire_to_vec. reflexivity.
Qed.

Lemma auth_reply st c ar key f : build_native_auth_frame c ar = Ok f →
  Driver.admin_api_key c = Some key →
  let ok := native_auth_payload_matches_runtime st (auth_payload c key) in
  reply st (to_vec f) = Some (native_wire_auth_ack ar (Some (Driver.session_id c)) ok,
                              if ok then Proceed else Stop).
Proof.
  unfold build_native_auth_frame. destruct (Driver.blank ar); [done|]. intros E Hk.
  rewrite Hk in E. injection E as <-. unfold NativeServer.reply. rewrite wire_to_vec. reflexivity.
Qed.


(** Whether a command is answered, and how, does not depend on the credentials. *)
Lemma commands_ignore_credentials st admin bearer p q : Json.from_str p = Some q →
  str_field "frame_type" q = Some "Command" →
  reply (mkNative (node_id st) (cluster_mode st) admin bearer (max_frame_bytes st)
           (ingest_csv_records st) (ingest_json_records st)) p = reply st p.
Proof. intros E1 E2. unfold NativeServer.reply. by rewrite E1, E2. Qed.

End Connection.

(** ** Concrete runs *)

Fixpoint map_floats {A B} (h : A -> B) (v : Json.Value A) : Json.Value B :=
  match v with
  | Json.Null => Json.Null
  | Json.Bool b => Json.Bool b
  | Json.Number (Json.PosInt n) => Json.Number (Json.PosInt n)
  | Json.Number (Json.NegInt z) => Json.Number (Json.NegInt z)
  | Json.Number (Json.Float f) => Json.Number (Json.Float (h f))
  | Json.Text s => Json.Text s
  | Json.Array l => Json.Array (map (map_floats h) l)
  | Json.Object m => Json.Object (map (fun kv => (kv.1, map_floats h kv.2)) m)
  end.

Lemma map_floats_id {A B} (h : A -> B) (g : B -> A) : (∀ x, g (h x) = x) →
  ∀ v, map_floats g (map_floats h v) = v.
Proof.
  intros Hgh. fix IH 1. intros [|b|[n|z|f]|s|l|m]; try reflexivity; cbn.
  - by rewrite Hgh.
  - apply (f_equal Json.Array). induction l as [|v l IHl]; [reflexivity|]. cbn. by rewrite IH, IHl.
  - apply (f_equal Json.Object). induction m as [|[k v] m IHm]; [reflexivity|]. cbn. by rewrite IH, IHm.
Qed.

Definition float_code (x : Planner.f64) : Z :=
  Zpos (countable.encode
          match x with
          | S754_zero s => inl (inl (inl s))
          | S754_infinity s => inl (inl (inr s))
          | S754_nan => inl (inr tt)
          | S754_finite s m e => inr (s, m, e)
          end).

Definition code_float (z : Z) : Planner.f64 :=
  match z with
  | Zpos p =>
      match countable.decode (A := bool + bool + unit + bool * positive * Z) p with
      | Some (inl (inl (inl s))) => S754_zero s
      | Some (inl (inl (inr s))) => S754_infinity s
      | Some (inr (s, m, e)) => S754_finite s m e
      | _ => S754_nan
      end
  | _ => S754_nan
  end.

Lemma code_float_code x : code_float (float_code x) = x.
Proof. unfold code_float, float_code. rewrite decode_encode. by destruct x. Qed.

Definition coded_json : Json.JsonText Planner.f64 :=
  {| Json.to_string := fun v => Json.to_string (JsonText := Json.code_text) (map_floats float_code v);
     Json.to_string_pretty := fun v => Json.to_string (JsonText := Json.code_text) (map_floats float_code v);
     Json.from_str := fun s => map_floats code_float <$> Json.from_str (JsonText := Json.code_text) s |}.

Lemma coded_roundtrip v :
  Json.from_str (JsonText := coded_json) (Json.to_string (JsonText := coded_json) v) = Some v.
Proof.
  cbn [Json.from_str Json.to_string coded_json].
  rewrite (@Json.from_to_string Z Json.code_text Json.code_text_laws). cbn.
  by rewrite (map_floats_id float_code code_float code_float_code).
Qed.

Definition coded_wire : NativeFrameCodec Planner.f64 :=
  {| to_vec := fun f => Json.to_string (JsonText := coded_json) (frame_value f);
     from_slice := fun b => match Json.from_str (JsonText := coded_json) b ≫= frame_of_value with
                            | Some f => Ok f
                            | None => Err "invalid frame"
                            end |}.

Lemma coded_compat : @WireCompat coded_json coded_wire.
Proof.
  split; [intros f; apply coded_roundtrip|]. intros v f E. cbn [from_slice coded_wire].
  rewrite coded_roundtrip. cbn [mbind option_bind]. by rewrite E.
Qed.

Definition plain_upper : AstFlags.UnicodeUpper.
Proof. by refine {| AstFlags.to_uppercase := Str.to_ascii_uppercase |}. Defined.

#[local] Existing Instance ascii_tables.
#[local] Existing Instance plain_upper.
#[local] Instance no_adapter : AstFlags.FlagAdapter := {| AstFlags.parse_with_sqlparser_flags := fun _ => None |}.
#[local] Existing Instance canonical_order.
#[local] Existing Instance coded_json.
#[local] Existing Instance coded_wire.
#[local] Existing Instance coded_compat.

(** A server that asks for a key and has ingested one connector's records *)
Definition locked : NativeState :=
  mkNative "node-1" "single" (Some "secret") None 1048576
    {["acme:orders" := [Ingest.mkRecord "k" "v"]]} ∅.

Definition demo_config (key : string) : Driver.DriverConfig :=
  Driver.mkConfig "vng://127.0.0.1:7542" None "s" None None (Some key) None None.

Definition demo_env : Socket.SocketEnv :=
  server_env (fun _ => "invalid type") (fun _ => "expected value") (fun _ => true) locked.

Definition demo_transport : Socket.SocketNativeTransport := Socket.mkTransport "127.0.0.1:7542" 100 None.

Definition hello_of : NativeFrame Planner.f64 :=
  mkFrame Planner.f64 Hello "v1" "r1" None
    (Json.object [("protocol", text "vng-native"); ("version", text "v1");
                  ("capabilities", Json.Array (map text ["json_payload"; "streaming"; "cancel"]));
                  ("session_id", text "s")]).

Definition auth_of (key : string) : NativeFrame Planner.f64 :=
  mkFrame Planner.f64 FAuth "v1" "r2" (Some "s") (auth_payload (demo_config key) key).


(** The reply to the first frame of a connection *)
Definition first_reply (f : NativeFrame Planner.f64) : Driver.DriverResult (NativeFrame Planner.f64) :=
  (Socket.call demo_env (Socket.mkStream "" "") f).1.

Definition command (kvs : list (string * Value)) : NativeFrame Planner.f64 :=
  mkFrame Planner.f64 Command "v1" "r" None (Json.object kvs).

(** The first frame of a connection may be a command: without any authentication the
    server lists the connectors of every tenant. *)
Lemma registry_without_auth :
  first_reply (command [("command", text "ingest.schema.registry")])
  = Ok (mkFrame Planner.f64 FResult "v1" "r" None (collect_ingest_schema_registry_response locked)).
Proof. vm_compute. reflexivity. Qed.

(** The native [sql.execute] only reports where the statements would run. *)
Lemma execute_only_routes :
  first_reply (command [("command", text "sql.execute"); ("sql_batch", text "DELETE FROM t")])
  = Ok (mkFrame Planner.f64 FResult "v1" "r" None (sql_execute_route_decision "DELETE FROM t")).
Proof. vm_compute. reflexivity. Qed.

Lemma native_replies_in_order_witness :
  let p := Json.to_string (frame_value (command [("command", text "health")])) in
  serve (fun _ => "") (fun _ => "") (fun _ => true) locked (concat_str (map Socket.frame_bytes [p; p]))
  = concat_str (map (fun v => Socket.frame_bytes (Json.to_string v))
                  (replies (fun _ => "") (fun _ => "") locked [p; p])).
Proof.
  intros p. refine (proj1 (native_replies_in_order (fun _ => "") (fun _ => "") (fun _ => true)
                             locked [p; p] _ _ _)).
  - reflexivity.
  - repeat constructor; vm_compute; discriminate.
  - repeat constructor; vm_compute; reflexivity.
Defined.
End NativeServer.
